(* ===== verification/_CoqProject ===== *)
-Q . S2P
Prelude.v
Framing.v
Net.v
Config.v
Proto.v
Status.v
IpSet.v
Domain.v
Env.v
TlsConn.v
TcpUtil.v
TlsStream.v
Resolver.v
Stats.v
Backend.v
UdpBackend.v
PingBackend.v
ServerConn.v
ServerRelay.v
TlsServer.v
IdlePool.v
NetProfiler.v
ProxyTokens.v
ProxyTcp.v
UdpCache.v
ProxyUdp.v
ProxyRun.v
DnsHosts.v
DnsServer.v
AsyncIo.v
AServer.v
AServerPing.v
AServerUdp.v
AProfiler.v
AProxy.v
AProxyUdp.v
Smoltcp.v
SocketTables.v
TunDevice.v
TunStream.v
WinTun.v
ArcTables.v
TunPool.v
WinUdp.v
WinTcp.v
WinRun.v
TlsAsync.v
AWinUdp.v
AWinTcp.v
MobileProto.v
MobileDns.v
TunDns.v
MobileDomains.v
WinAdapter.v
Client.v
DnsRun.v
MobileRun.v
Startup.v
AsyncRun.v
MobileTun.v
MobileUdp.v
MobileTask.v
MobileLoop.v
