(* ===== verification/Prelude.v ===== *)
(** * A verification library for trojan-rs

    trojan-rs is a proxy that disguises its traffic as HTTPS.  A client side
    (the {i proxy}) takes redirected TCP connections and UDP datagrams, and
    carries them over TLS to a {i server}, which authenticates them by a
    password digest and relays them to their targets; whoever does not know the
    password is relayed to an ordinary web server.  Each side exists twice: on
    an event loop (mio) and as asynchronous tasks (tokio).  Around them are a
    DNS server that splits queries between a trusted and a poisoned upstream, a
    profiler that lets well-connected destinations bypass the proxy, tunnels
    that take packets from a virtual network device through a user-space TCP/IP
    stack (on Windows and, with a DNS service of their own, on mobile phones),
    and a desktop client that runs tunnel and DNS server as processes.

    This library is a shallow embedding of that program with the theorems that
    make it correct.  This file is its root: after this description come the
    notations, tactics and generic lemmas the components share.

    ** How the library follows the code

    Every definition keeps the name of the Rust function or type it models.
    Methods that change [self] return the new state; objects behind [Arc] or
    [Rc] that two tables share live in an explicit store and the tables hold
    pointers to them.  [option] is the panic monad: [None] is a panic (an index
    out of range, an [unwrap] of an error) or, in a function that takes [fuel],
    a loop that ran out of it.  No theorem stops at "if it returns": loops come
    with lemmas stating how much fuel is enough ([terminates] and [decided]
    below: from some bound on, the fuel does not matter and the result is as
    stated; the bound is in each case the bytes still buffered or the finitely
    many items the environment can still hand out).

    - Integers are [Z] with the wrap-around of a release build written out;
      byte strings, [String], [Vec<u8>] and [BytesMut] are lists of [Z].
    - A [HashMap] or [HashSet] is a [gmap] or [gset]; where the code iterates
      over one the order is that of [map_to_list] or [elements].  Shared
      objects that are dropped leave the model.
    - The clock is read once per call or event and is an argument; times are
      nanoseconds.
    - Threads, channels and tasks: a channel is a list in the state (unbounded,
      except where a file says that its bound is modelled), the other ends are
      separate steps, and interleavings are sequences of steps or a step
      relation.  A task is a function of the outcomes of the operations it
      awaits.
    - Code that is not part of the repository is a class whose laws are the
      documented behaviour relied on: mio, rustls and the system ([Env.Env] with
      [Env.EnvOk]), socket options ([ProxyTokens.SocketApi]), DNS messages
      ([DnsServer.DnsProto], [MobileDns.DnsRecords]), smoltcp
      ([Smoltcp.Smoltcp]), rustls and tokio under the asynchronous stream
      ([TlsAsync.AsyncTls]), the storage of a phone ([MobileDomains.Platform]).
      Each has an executable instance on which the theorems are run at concrete
      inputs.
    - A connection's components talk through interfaces of the program:
      [Status.LawfulStatus] is the trait [StatusProvider] with what its
      implementors promise, [Backend.Backend] the trait of the server's
      backends.

    ** Files, in dependency order

    The wire and the data:
    - [Framing]: streams of records cut into arbitrary reads (shared argument);
    - [Net]: addresses, their text form, UTF-8 (std; [src/src/utils.rs]);
    - [Config]: options, password digest, start-up lookup ([config.rs]);
    - [Proto]: requests, addresses and UDP packets ([proto.rs]);
    - [Status]: the life cycle of a connection ([status.rs]);
    - [IpSet]: IPv4 sets and the routes made of them ([wintun/ipset.rs]);
    - [Domain]: the blocked domains ([dns/domain.rs]).

    Services both sides use:
    - [Env]: the environment and its scripted instance [Sim];
    - [TlsConn] ([tls_conn.rs]), [TcpUtil] ([tcp_util.rs], [utils.rs]),
      [Resolver] ([resolver.rs]).

    The event-loop server ([src/src/server]): [Stats] ([stat.rs]), [Backend]
    ([tcp_backend.rs] and the trait), [UdpBackend], [PingBackend],
    [ServerConn] ([connection.rs]), [ServerRelay] (its relay theorems) and
    [TlsServer] ([tls_server.rs], [mod.rs]).

    The event-loop proxy ([src/src/proxy], [idle_pool.rs]): [IdlePool],
    [NetProfiler], [ProxyTokens] and [ProxyRun] ([mod.rs]), [ProxyTcp]
    ([tcp_server.rs]), [UdpCache], [ProxyUdp] ([udp_server.rs]).

    The DNS server ([src/src/dns]): [DnsHosts] (the hosts file),
    [DnsServer] ([server.rs]), [WinAdapter] (the network adapters whose name
    server it changes, [src/wintool]) and [DnsRun] (the loop of [mod.rs], which
    reloads the two files).

    The asynchronous server and proxy ([src/src/aserver], [src/src/aproxy]):
    [AsyncIo] ([async_utils.rs] and awaited I/O), [AServer] ([aserver/mod.rs],
    [tcp.rs]), [AServerPing], [AServerUdp], [AProfiler] ([aproxy/profiler.rs]),
    [AProxy] ([aproxy/mod.rs], [tcp.rs]; also proxy and server composed) and
    [AProxyUdp] ([aproxy/udp.rs]; also composed with the server).

    The tunnels: [Smoltcp] (the TCP/IP stack, its instance [SimStack] and
    bounded channels).  The tasks' device ([src/async_smoltcp]): [SocketTables]
    (the tables of sockets and streams, shared argument), [TunDevice]
    ([device.rs]), [TunStream] ([tcp.rs], [udp.rs]).  The Windows tunnel
    ([src/src/wintun]): [WinTun] ([tun.rs], [waker.rs], tokens), [ArcTables]
    (objects two tables share, shared argument), [TunPool] (where connections
    come from), [WinUdp] ([udp.rs]), [WinTcp] ([tcp.rs]) and [WinRun] (a turn
    of the loop of [mod.rs] over both).  [TlsStream] is a TLS connection as a
    stream that is read and written ([tls_conn.rs]) and the copy between two
    streams ([utils.rs]); [TlsAsync] the asynchronous one of the mobile tunnel
    ([src/tokio_rustls]).  The asynchronous Windows tunnel ([src/src/awintun]):
    [AWinUdp] ([udp.rs]: the dispatcher and the tasks with their bounded
    channels; also composed with the server) and [AWinTcp] ([tcp.rs], composed
    with the device and the server, and the loop of [mod.rs]).

    The mobile application ([src/mobile/src-tauri/src]), whose tunnel exists
    twice as well: [MobileProto] ([atun/proto.rs]), [MobileDns] ([atun/dns.rs]),
    [MobileRun] ([atun/tcp.rs], [atun/mod.rs]) and [MobileTask]
    ([atun/udp.rs], and the three with the device) as tasks; [TunDns]
    ([tun/dns.rs]), [MobileTun] ([tun/device.rs], [tun/tcp.rs]), [MobileUdp]
    ([tun/tls_conn.rs], [tun/udp.rs]) and [MobileLoop] (the rest of
    [tun/tcp.rs], [tun/mod.rs]) on an event loop; [MobileDomains] ([lib.rs]) is
    the list of blocked domains the user edits.

    Around the modes: [Startup] (what runs before a main loop: [config.rs],
    [utils.rs], the certificates of [server/mod.rs]), [AsyncRun] (the accept
    loops of [aserver/mod.rs] and [aproxy/tcp.rs]) and [Client] (the desktop
    client, [src/trojan-client]).

    ** What the theorems show

    - {b Relaying}.  From the handshake on the target of a TCP connection is
      sent exactly what the client sent, under any interleaving of events and
      blocked writes, and no handler panics or loops ([ServerRelay],
      [ProxyTcp]); for the asynchronous pair the statement is end to end, from
      the client of the proxy to the target ([AProxy.EndToEnd]).
    - {b Datagrams and records}.  However a stream is cut into reads, exactly
      the complete packets are delivered, once, in order and to their
      addresses: [UdpBackend], [PingBackend], [NetProfiler], [ProxyUdp],
      [AServerUdp], [AServerPing], [AProxyUdp], end to end in
      [AProxyUdp.UdpEndToEnd].
    - {b Admission}.  A client without the password reaches the default target
      and no other ([ServerRelay], [AServer]); private targets and uninvited
      senders are refused when the options say so ([UdpBackend], [AServerUdp]).
    - {b Bookkeeping}.  Tokens do not collide, tables that share connections
      agree, pools and caches hold what they hand out ([TlsServer], [IdlePool],
      [ProxyTcp], [ProxyUdp], [ProxyRun], [AProxyUdp]); every lookup, ping
      request and DNS query is answered once ([Resolver], [AServerPing],
      [DnsServer], the last as a refinement of a specification).
    - {b Tunnels}.  A packet for a destination has one UDP socket and every
      SYN a socket of its own ([WinTun]); a tunnel's TCP connection relays both
      streams and its answers leave whole ([WinTcp], [WinUdp], [TunStream],
      [TlsAsync], end to end in [AWinTcp] and [AWinUdp.TunnelEndToEnd]); the
      tunnel never carries its own connections ([AWinTcp.AWinRun]); the
      dispatcher of datagrams keeps one live pair of tasks per source and waits
      only as long as a task can take more, except in a deadlock that is stated
      ([AWinUdp]); the tables of the servers agree with each other and with the
      device they share, alone and in the loop that runs them ([TunDevice],
      [WinUdp], [WinTcp], [WinRun]).
    - {b The mobile tunnels}.  A client reaches its own destination, directly
      or through the server, and nothing for a private address reaches the
      server ([MobileRun], [MobileTask]); the DNS service answers only what was asked, with the
      identifier of the question, and every question is answered or waiting
      ([MobileDns], [TunDns]); the event-loop tunnel keeps the DNS server's
      socket, both servers' tables and the device in agreement over all turns
      ([MobileTun], [MobileLoop]); the user's list of domains survives a restart
      ([MobileDomains]).
    - {b Main loops and start-up}.  What [setup] derives from the command line
      ([Startup]); which clients the accept loops serve ([AsyncRun]); which
      adapters and sessions the desktop client leaves behind ([WinAdapter],
      [Client]); where questions go while the lists are reloaded ([DnsRun]).
    - {b Decisions}.  The profiler publishes verdicts only on complete
      measurements ([NetProfiler], [AProfiler]); questions go to the upstream of
      their domain ([DnsServer]).
    - {b Parsers and arithmetic}.  Round trips, prefixes, bounds and panics of
      the protocol parsers ([Proto]); CIDR decomposition and complement
      ([IpSet]); domain and hosts-file matching ([Domain], [DnsHosts]).
    - {b Defects}.  Where the code does not do what it means to, a theorem
      states what it does: requests cut inside the final CRLF, truncated UDP
      packets, complements of nested sets, questions without a name, lookups
      that never succeed, a profiler that cannot reconnect, sessions dropped
      from the bypass list, a dispatcher and a task that wait for each other,
      sockets whose late report strands their successors, a name server read
      from the first line only, a failed accept that ends the server, answers
      too large for the mobile tunnel, a packet to port 0 that ends it, questions
      half of which are lost, a client that blocks itself when it is stopped
      twice, and the others named at their theorems.

    ** Not modelled

    - Calls of the platform, without state of the program's own:
      [src/src/sys], [src/src/wintun/route.rs], [src/src/awintun/tun.rs], the
      adapter and the interface's set-up in [src/src/wintun/mod.rs] and
      [src/src/awintun/mod.rs], [src/mobile/src-tauri/src/platform] (Java calls
      of Android), the bypass list kept in an [ipset] of the kernel
      ([proxy/net_profiler.rs], [aproxy/profiler.rs]).
    - What only configures a library: the command line (clap), the log's format
      (fern), [src/src/main.rs], TLS settings other than the server's, the
      windows, tray and texts of the client and of the mobile application.
    - Copies.  In [src/mobile/src-tauri/src], [tun/status.rs], [tun/waker.rs],
      [tun/resolver.rs], [tun/idle_pool.rs] and [tun/tls_conn.rs] but for
      [flush] are the text of [src/src], [tun/proto.rs] and [tun/utils.rs] that
      of their [atun] and [src/src] counterparts; [src/mobile2/backend/src/tun]
      repeats [src/mobile/src-tauri/src/atun].  The theorems use the definitions of the
      text that is modelled.
    - Rendering with [write!] and reading of files beyond what parses them.

    ** Interfaces between the files

    - [TcpUtil.ReadWrite] and [LawfulReadWrite] are the traits [Read] and
      [Write] with what an implementation conserves; [TlsStream.Remote] and
      [LawfulRemote] add [flush] and [close], and [Duplex] that reading does
      not write.  The tunnel's connections are proved against them; a TLS
      connection ([tls_lawful]) and a socket of the stack
      ([WinTcp.stream_ref_lawful]) discharge them.
    - [TunPool.RemotePool] is what the tunnel's servers ask of the pool;
      [TunPool.idle_pool] is [IdlePool].
    - [WinTun.others] and [WinTun.quiet] are what a change of the device by one
      server leaves the other; [WinRun] composes the two servers with them.
    - The mobile tunnels run the same code with another device and parser.  What differs
      is three classes the Windows proofs are generic in: [WinTcp.ReadLive],
      when a socket may still be read; [WinUdp.PacketReader], the parser of the
      server's packets with its limit; [WinTun.Reserved], a socket the servers
      must leave alone.  [MobileTun], [MobileUdp] and [MobileLoop] give the
      mobile instances, [MobileTask] those of the tasks of [AWinUdp]; [MobileLoop.undisturbed] is what a server's work leaves
      the DNS server.

    ** Bounds and fuel

    Fuel only bounds loops of the code.  It is enough when it exceeds the bytes
    still buffered, the reads the environment can still serve ([rw_left],
    [st_left]) or the messages waiting; the lemmas named [.._terminates] and the
    theorems state it as [terminates] or [decided], and [steady] (below) that a
    run that returns is not changed by more fuel.  Tokens are products of an
    index and the number of channels: the theorems on tables hold until an index
    reaches [MAX_INDEX], about [2 ^ 62] connections, after which the code starts
    over.

    ** What is left

    The theorems that relay end to end are about one connection at a time; the
    loops compose the tables, not yet the streams of all connections at once.
    The ipset of the profilers and the routes of the Windows tunnel could be
    added behind interfaces of their own.
*)

From Stdlib Require Import ZArith Lia.
From stdpp Require Import base option list gmap fin_maps sorting.

#[global] Set Default Goal Selector "!".

Declare Scope rust_scope.
Delimit Scope rust_scope with rust.
Open Scope Z_scope.

Create HintDb trojan discriminated.

(** ** Machine integers

    [u8], [u16], [u32] and [usize] values are [Z]; the arithmetic of a
    release build wraps modulo the width. *)

Definition u8_MAX : Z := 255.
Definition u16_MAX : Z := 65535.
Definition u32_MAX : Z := 4294967295.
Definition usize_MAX : Z := 18446744073709551615.

Definition wrap (w z : Z) : Z := z mod 2 ^ w.

Definition fits (w z : Z) : bool := (0 <=? z) && (z <? 2 ^ w).

Lemma fits_spec w z : fits w z = true ↔ 0 ≤ z < 2 ^ w.
Proof. unfold fits. rewrite andb_true_iff, Z.leb_le, Z.ltb_lt. lia. Qed.

Lemma wrap_small w z : 0 ≤ z < 2 ^ w → wrap w z = z.
Proof. apply Z.mod_small. Qed.

Lemma wrap_range w z : 0 ≤ w → 0 ≤ wrap w z < 2 ^ w.
Proof. intros Hw. apply Z.mod_pos_bound, Z.pow_pos_nonneg; lia. Qed.

(** ** Byte strings

    [&[u8]], [Vec<u8>], [BytesMut] and [String] are all [bytes]; an element
    that stands for a byte lies in [0..255] ([wf_bytes]). *)

Abbreviation bytes := (list Z).

Definition wf_bytes (b : bytes) : Prop := Forall (λ x, 0 ≤ x < 256) b.

#[export] Instance wf_bytes_dec b : Decision (wf_bytes b).
Proof. unfold wf_bytes. apply _. Defined.

Lemma wf_bytes_app a b : wf_bytes (a ++ b) ↔ wf_bytes a ∧ wf_bytes b.
Proof. apply Forall_app. Qed.

Lemma wf_bytes_cons x b : wf_bytes (x :: b) ↔ 0 ≤ x < 256 ∧ wf_bytes b.
Proof. unfold wf_bytes. by rewrite Forall_cons. Qed.

Lemma wf_bytes_take n b : wf_bytes b → wf_bytes (take n b).
Proof. apply Forall_take. Qed.

Lemma wf_bytes_drop n b : wf_bytes b → wf_bytes (drop n b).
Proof. apply Forall_drop. Qed.

#[export] Hint Resolve wf_bytes_take wf_bytes_drop : trojan.

(** *** Indexing and slicing

    An out-of-range index or slice panics in Rust: [None] is a panic, and the
    option monad propagates it.  Buffer lengths and offsets are [nat]: they are
    bounded by the allocation, far from the width of [usize]. *)

Definition at_ (b : bytes) (i : nat) : option Z := b !! i.

Definition slice_from (b : bytes) (i : nat) : option bytes :=
  if (i <=? length b)%nat then Some (drop i b) else None.

Definition slice_to (b : bytes) (i : nat) : option bytes :=
  if (i <=? length b)%nat then Some (take i b) else None.

(** [&b[i..j]] *)
Definition slice (b : bytes) (i j : nat) : option bytes :=
  if (i <=? j)%nat && (j <=? length b)%nat
  then Some (take (j - i) (drop i b)) else None.

Notation "b .[ i ]" := (at_ b i) (at level 1, left associativity,
  format "b .[ i ]") : rust_scope.
Notation "b .[from i ]" := (slice_from b i) (at level 1, left associativity,
  format "b .[from  i ]") : rust_scope.
Notation "b .[upto i ]" := (slice_to b i) (at level 1, left associativity,
  format "b .[upto  i ]") : rust_scope.
Notation "b .[between i & j ]" := (slice b i j) (at level 1, left associativity,
  i at level 69, j at level 69, format "b .[between  i  &  j ]") : rust_scope.

Open Scope rust_scope.

Lemma at_lt b i : (i < length b)%nat → ∃ x, b.[i] = Some x ∧ x ∈ b.
Proof.
  intros Hi. destruct (lookup_lt_is_Some_2 b i Hi) as [x Hx].
  exists x. split; [done|]. by eapply list_elem_of_lookup_2.
Qed.

Lemma at_app_l a b i : (i < length a)%nat → (a ++ b).[i] = a.[i].
Proof. apply lookup_app_l. Qed.

Lemma at_drop b n i : (drop n b).[i] = b.[n + i].
Proof. unfold at_. apply lookup_drop. Qed.

Lemma slice_from_le b i : (i <= length b)%nat → b.[from i] = Some (drop i b).
Proof. intros Hi. unfold slice_from. by rewrite (proj2 (Nat.leb_le _ _) Hi). Qed.

Lemma slice_from_gt b i : (length b < i)%nat → b.[from i] = None.
Proof. intros Hi. unfold slice_from. by rewrite (proj2 (Nat.leb_gt _ _) Hi). Qed.

Lemma slice_to_le b i : (i <= length b)%nat → b.[upto i] = Some (take i b).
Proof. intros Hi. unfold slice_to. by rewrite (proj2 (Nat.leb_le _ _) Hi). Qed.

Lemma slice_le b i j : (i <= j <= length b)%nat →
  b.[between i & j] = Some (take (j - i) (drop i b)).
Proof.
  intros [Hi Hj]. unfold slice.
  by rewrite (proj2 (Nat.leb_le _ _) Hi), (proj2 (Nat.leb_le _ _) Hj).
Qed.

Lemma slice_from_app a b : (a ++ b).[from length a] = Some b.
Proof. rewrite slice_from_le; [by rewrite drop_app_length|rewrite length_app; lia]. Qed.

Lemma slice_to_app a b : (a ++ b).[upto length a] = Some a.
Proof. rewrite slice_to_le; [by rewrite take_app_length|rewrite length_app; lia]. Qed.

(** Reads inside the first part of a buffer do not see what follows it. *)
Lemma slice_from_app_l a b i : (i <= length a)%nat → (a ++ b).[from i] = Some (drop i a ++ b).
Proof.
  intros Hi. rewrite slice_from_le by (rewrite length_app; lia).
  by rewrite drop_app_le.
Qed.

Lemma slice_app_l a b i j : (i <= j <= length a)%nat →
  (a ++ b).[between i & j] = a.[between i & j].
Proof.
  intros H. rewrite !slice_le by (rewrite ?length_app; lia). f_equal.
  rewrite drop_app_le by lia. rewrite take_app_le; [done|rewrite length_drop; lia].
Qed.

Lemma at_is_Some b i : (i < length b)%nat → is_Some b.[i].
Proof. apply lookup_lt_is_Some_2. Qed.

Lemma take_min {A} k (l : list A) : take (min k (length l)) l = take k l.
Proof.
  destruct (Nat.le_gt_cases k (length l)); [by rewrite Nat.min_l|].
  by rewrite Nat.min_r, !take_ge by lia.
Qed.

(** Big-endian [put_u16]. *)
Definition u16_be (p : Z) : bytes := [Z.shiftr p 8; Z.land p 255].
#[global] Arguments u16_be : simpl never.

Lemma length_u16_be p : length (u16_be p) = 2%nat.
Proof. reflexivity. Qed.

Lemma land_255 p : Z.land p 255 = p mod 256.
Proof. change 255 with (Z.ones 8). by rewrite Z.land_ones. Qed.

Lemma u16_be_div_mod p : u16_be p = [p / 256; p mod 256].
Proof. unfold u16_be. by rewrite Z.shiftr_div_pow2, land_255. Qed.

Lemma u16_be_wf p : 0 ≤ p < 65536 → wf_bytes (u16_be p).
Proof.
  intros Hp. rewrite u16_be_div_mod. pose proof (Z.mod_pos_bound p 256).
  repeat apply Forall_cons_2; [|lia|by apply Forall_nil].
  split; [apply Z.div_pos; lia|apply Z.div_lt_upper_bound; lia].
Qed.

(** [(hi as u16) << 8 | lo]. *)
Lemma lor_shiftl_8 hi lo : 0 ≤ lo < 256 → Z.lor (Z.shiftl hi 8) lo = hi * 256 + lo.
Proof.
  intros Hlo. assert (Z.land (Z.shiftl hi 8) lo = 0) as H0.
  { apply Z.bits_inj'. intros n Hn. rewrite Z.land_spec, Z.bits_0.
    destruct (Z.lt_ge_cases n 8).
    - by rewrite Z.shiftl_spec_low.
    - rewrite (Z.bits_above_log2 lo n); [by rewrite andb_false_r|lia|].
      destruct (Z.eq_dec lo 0) as [->|]; [simpl; lia|].
      apply Z.log2_lt_pow2; [lia|]. apply Z.lt_le_trans with (2 ^ 8); [lia|].
      apply Z.pow_le_mono_r; lia. }
  rewrite <-Z.lxor_lor, <-Z.add_nocarry_lxor, Z.shiftl_mul_pow2 by done. lia.
Qed.

Lemma u16_be_join hi lo : 0 ≤ lo < 256 → u16_be (Z.lor (Z.shiftl hi 8) lo) = [hi; lo].
Proof.
  intros. rewrite lor_shiftl_8, u16_be_div_mod by done.
  rewrite Z.div_add_l, Z.div_small, Z.add_0_r by lia.
  by rewrite Z.add_comm, Z_mod_plus_full, Z.mod_small.
Qed.

Lemma u16_split p : Z.lor (Z.shiftl (Z.shiftr p 8) 8) (Z.land p 255) = p.
Proof.
  rewrite land_255, Z.shiftr_div_pow2 by lia.
  rewrite lor_shiftl_8 by (apply Z.mod_pos_bound; lia).
  rewrite (Z.mul_comm _ 256). change (2 ^ 8) with 256. by rewrite <-Z.div_mod.
Qed.

(** ** [str::split] and [join] *)

(** [str::split]. *)
Fixpoint split (sep : Z) (s : bytes) : list bytes :=
  match s with
  | [] => [[]]
  | c :: s =>
      if c =? sep then [] :: split sep s
      else match split sep s with
           | row :: rows => (c :: row) :: rows
           | [] => [[c]]
           end
  end.

(** [[String]::join], with a one-byte separator. *)
Fixpoint join (sep : Z) (rows : list bytes) : bytes :=
  match rows with
  | [] => []
  | [row] => row
  | row :: rows => row ++ sep :: join sep rows
  end.

Lemma split_ne sep s : split sep s ≠ [].
Proof. destruct s as [|c s]; simpl; [done|]. destruct (c =? sep); [done|]. by destruct (split sep s). Qed.

Lemma join_cons sep row rows : rows ≠ [] → join sep (row :: rows) = row ++ sep :: join sep rows.
Proof. by destruct rows. Qed.

Lemma join_split sep s : join sep (split sep s) = s.
Proof.
  induction s as [|c s IH]; [done|]. simpl split.
  pose proof (split_ne sep s) as Hne. destruct (Z.eqb_spec c sep) as [->|].
  - rewrite join_cons, IH by done. done.
  - destruct (split sep s) as [|row [|row2 rows]] eqn:Hs; [done| |];
      rewrite <-IH; reflexivity.
Qed.

(** A separator splits the two sides independently. *)
Lemma split_app sep a b : split sep (a ++ sep :: b) = split sep a ++ split sep b.
Proof.
  induction a as [|c a IH]; simpl; [by rewrite Z.eqb_refl|].
  destruct (c =? sep); [by rewrite IH|].
  rewrite IH. pose proof (split_ne sep a). by destruct (split sep a).
Qed.

Lemma split_length sep s : (2 <= length (split sep s))%nat ↔ sep ∈ s.
Proof.
  induction s as [|c s IH]; simpl; [split; [lia|by intros ?%not_elem_of_nil]|].
  pose proof (split_ne sep s). rewrite elem_of_cons, <-IH.
  destruct (Z.eqb_spec c sep) as [->|]; destruct (split sep s) as [|row rows]; simpl in *; try done.
  - split; [by left|lia].
  - split; [by right|intros [|]; [done|lia]].
Qed.

Lemma join_rows_app sep a b : a ≠ [] → b ≠ [] → join sep (a ++ b) = join sep a ++ sep :: join sep b.
Proof.
  intros Ha Hb. induction a as [|row a IH]; [done|]. destruct a as [|row2 a].
  - by apply join_cons.
  - cbn [app] in *. rewrite join_cons, IH, (join_cons _ row) by done.
    by rewrite <-app_assoc.
Qed.

(** ** Rewriting and case-analysis automation *)

(** Decide the [nat] comparison at the head of the goal's [if]. *)
Ltac nat_leb :=
  match goal with
  | |- context [(?a <=? ?b)%nat] =>
      first [ rewrite (proj2 (Nat.leb_le a b)) by (rewrite ?length_app in *; simpl in *; lia)
            | rewrite (proj2 (Nat.leb_gt a b)) by (rewrite ?length_app in *; simpl in *; lia) ]
  | |- context [(?a <? ?b)%nat] =>
      first [ rewrite (proj2 (Nat.ltb_lt a b)) by (rewrite ?length_app in *; simpl in *; lia)
            | rewrite (proj2 (Nat.ltb_ge a b)) by (rewrite ?length_app in *; simpl in *; lia) ]
  end.

(** Case analysis on every [match]/[if] scrutinee, with equations. *)
Ltac case_match_eqn :=
  match goal with
  | |- context [match ?x with _ => _ end] => destruct x eqn:?
  | H : context [match ?x with _ => _ end] |- _ => destruct x eqn:?
  end.

(** ** Time

    An [Instant] and a [Duration] are nanosecond counts; every definition takes
    the clock reading it needs as an argument. *)

Definition secs (n : Z) : Z := n * 1000000000.
Definition as_secs (d : Z) : Z := d / 1000000000.

(** [Instant] subtraction and [elapsed] saturate at zero. *)
Definition since (later earlier : Z) : Z := Z.max 0 (later - earlier).

(** ** I/O results

    [std::io::ErrorKind], the kinds the program distinguishes. *)

Inductive ErrorKind : Type := WouldBlock | NotConnected | ConnectionReset | OtherKind.

#[export] Instance ErrorKind_eq_dec : EqDecision ErrorKind.
Proof. solve_decision. Defined.

Inductive io_result (A : Type) : Type :=
  | IoOk (a : A)
  | IoErr (k : ErrorKind).
Arguments IoOk {A} _.
Arguments IoErr {A} _.

Definition io_is_ok {A} (r : io_result A) : bool :=
  match r with IoOk _ => true | IoErr _ => false end.

(** ** Running loops on fuel

    [None] from an exhausted loop is never a result of the program: every loop
    comes with a lemma that a stated amount of fuel is enough. *)

(** The computation ends: beyond some fuel it always has the same result, and
    the result satisfies [P]. *)
Definition terminates {A} (run : nat → option A) (P : A → Prop) : Prop :=
  ∃ n a, P a ∧ ∀ fuel, (n <= fuel)%nat → run fuel = Some a.

Lemma terminates_ret {A} (a : A) (P : A → Prop) : P a → terminates (λ _, Some a) P.
Proof. intros H. by exists 0%nat, a. Qed.

Lemma terminates_weaken {A} (run : nat → option A) (P Q : A → Prop) :
  terminates run P → (∀ a, P a → Q a) → terminates run Q.
Proof. intros (n & a & HP & Hr) H. exists n, a. auto. Qed.

Lemma terminates_ext {A} (run run' : nat → option A) (P : A → Prop) :
  (∀ fuel, run' fuel = run fuel) → terminates run P → terminates run' P.
Proof. intros H (n & a & HP & Hr). exists n, a. split; [done|]. intros. rewrite H. auto. Qed.

Lemma terminates_bind {A B} (run : nat → option A) (k : A → nat → option B)
    (P : A → Prop) (Q : B → Prop) :
  terminates run P → (∀ a, P a → terminates (k a) Q) →
  terminates (λ fuel, a ← run fuel; k a fuel) Q.
Proof.
  intros (n & a & HP & Hr) H. destruct (H a HP) as (m & b & HQ & Hk).
  exists (max n m), b. split; [done|]. intros fuel Hf. rewrite Hr by lia.
  cbn [mbind option_bind]. apply Hk. lia.
Qed.

(** The same for computations whose [None] may also be a panic: beyond some fuel
    the result, a value or the panic, does not change. *)
Definition decided {A} (run : nat → option A) (P : option A → Prop) : Prop :=
  ∃ n r, P r ∧ ∀ fuel, (n <= fuel)%nat → run fuel = r.

Lemma decided_ret {A} (r : option A) (P : option A → Prop) : P r → decided (λ _, r) P.
Proof. intros H. by exists 0%nat, r. Qed.

Lemma decided_terminates {A} (run : nat → option A) (P : A → Prop) :
  terminates run P → decided run (λ r, match r with Some a => P a | None => False end).
Proof. intros (n & a & HP & Hr). by exists n, (Some a). Qed.

Lemma decided_weaken {A} (run : nat → option A) (P Q : option A → Prop) :
  decided run P → (∀ r, P r → Q r) → decided run Q.
Proof. intros (n & r & HP & Hr) H. exists n, r. auto. Qed.

Lemma decided_bind {A B} (run : nat → option A) (k : A → nat → option B)
    (P : option A → Prop) (Q : option B → Prop) :
  decided run P → (P None → Q None) → (∀ a, P (Some a) → decided (k a) Q) →
  decided (λ fuel, a ← run fuel; k a fuel) Q.
Proof.
  intros (n & r & HP & Hr) H0 H. destruct r as [a|].
  - destruct (H a HP) as (m & b & HQ & Hk). exists (max n m), b. split; [done|].
    intros fuel Hf. rewrite Hr by lia. cbn [mbind option_bind]. apply Hk. lia.
  - exists n, None. split; [auto|]. intros fuel Hf. by rewrite Hr.
Qed.

(** One unrolling of a loop on fuel. *)
Lemma terminates_S {A} (run : nat → option A) (P : A → Prop) :
  terminates (λ fuel, run (S fuel)) P → terminates run P.
Proof.
  intros (n & a & HP & Hr). exists (S n), a. split; [done|].
  intros [|fuel] Hf; [lia|]. apply Hr. lia.
Qed.

(** The result does not depend on the fuel, so a claim about one run that
    returned is a claim about all. *)
Lemma terminates_agree {A} (run : nat → option A) (P : A → Prop) fuel a :
  terminates run P → (∀ f, (fuel <= f)%nat → run f = Some a) → P a.
Proof.
  intros (n & b & HP & Hr) H.
  assert (Some a = Some b) as [= ->]; [|done].
  rewrite <-(H (max n fuel)), <-(Hr (max n fuel)) by lia. done.
Qed.

Lemma terminates_and {A} (run : nat → option A) (P Q : A → Prop) :
  terminates run P → terminates run Q → terminates run (λ a, P a ∧ Q a).
Proof.
  intros (n & a & HP & Hr) HQ. exists n, a. split; [|done]. split; [done|].
  by eapply terminates_agree.
Qed.

(** What every run gives holds of the run that ends. *)
Lemma terminates_with {A} (run : nat → option A) (P Q : A → Prop) :
  terminates run P → (∀ fuel a, run fuel = Some a → Q a) → terminates run (λ a, P a ∧ Q a).
Proof. intros (n & a & HP & Hr) HQ. exists n, a. eauto. Qed.

(** Runs that more fuel does not change: what holds of the run that ends holds of
    every run that returns. *)
Definition steady {A} (run : nat → option A) : Prop :=
  ∀ fuel n a, run fuel = Some a → run (fuel + n)%nat = Some a.

Lemma steady_ret {A} (r : option A) : steady (λ _, r).
Proof. by intros fuel n a. Qed.

Lemma steady_bind {A B} (run : nat → option A) (k : A → nat → option B) :
  steady run → (∀ a, steady (k a)) → steady (λ fuel, a ← run fuel; k a fuel).
Proof.
  intros Hr Hk fuel n b (a & Ha & Hb)%bind_Some. rewrite (Hr _ _ _ Ha). cbn [mbind option_bind]. by apply Hk.
Qed.

Lemma terminates_steady {A} (run : nat → option A) (P : A → Prop) fuel a :
  steady run → terminates run P → run fuel = Some a → P a.
Proof.
  intros Hs (n & b & HP & Hr) Ha. pose proof (Hs _ n _ Ha) as Hm. rewrite Hr in Hm by lia. by simplify_eq.
Qed.

Lemma terminates_mapM {A B} (f : nat → A → option B) (P : A → B → Prop) l :
  (∀ x, terminates (λ fuel, f fuel x) (P x)) →
  terminates (λ fuel, mapM (f fuel) l) (Forall2 P l).
Proof.
  intros Hf. induction l as [|x l IH]; [by apply terminates_ret|]. cbn [mapM].
  eapply terminates_bind; [apply Hf|]. intros y Hy.
  eapply terminates_bind; [apply IH|]. intros k Hk. apply terminates_ret. by constructor.
Qed.

(** A run of fallible steps, one step at a time. *)
Lemma foldl_bind {A B} (step : A → B → option A) acc ys :
  foldl (λ acc x, a ← acc; step a x) acc ys = a ← acc; foldl (λ acc x, a ← acc; step a x) (Some a) ys.
Proof. destruct acc as [b|]; [done|]. by induction ys. Qed.

(** A run of steps that preserve [I]. *)
Lemma terminates_foldl {A B} (step : nat → A → B → option A) (I : A → Prop) a xs :
  (∀ a x, x ∈ xs → I a → terminates (λ fuel, step fuel a x) I) → I a →
  terminates (λ fuel, foldl (λ acc x, a ← acc; step fuel a x) (Some a) xs) I.
Proof.
  revert a. induction xs as [|x xs IH]; intros a Hstep Ha; [by apply terminates_ret|].
  eapply terminates_ext with (run := λ fuel, a ← step fuel a x;
    foldl (λ acc x, a ← acc; step fuel a x) (Some a) xs).
  { intros fuel. cbn [foldl mbind option_bind]. apply foldl_bind. }
  eapply terminates_bind; [by apply Hstep; [apply list_elem_of_here|]|].
  intros b Hb. apply IH; [|done]. intros c y Hy. by apply Hstep, list_elem_of_further.
Qed.

Lemma decided_S {A} (run : nat → option A) (P : option A → Prop) :
  decided (λ fuel, run (S fuel)) P → decided run P.
Proof.
  intros (n & r & HP & Hr). exists (S n), r. split; [done|].
  intros [|fuel] Hf; [lia|]. apply Hr. lia.
Qed.

Lemma decided_ext {A} (run run' : nat → option A) (P : option A → Prop) :
  (∀ fuel, run' fuel = run fuel) → decided run P → decided run' P.
Proof. intros H (n & r & HP & Hr). exists n, r. split; [done|]. intros. rewrite H. auto. Qed.

(** The result of a computation that may panic satisfies [I]. *)
Definition returns {A} (I : A → Prop) (r : option A) : Prop := ∀ a, r = Some a → I a.

Lemma returns_some {A} (I : A → Prop) a : I a → returns I (Some a).
Proof. by intros H b [= <-]. Qed.

Lemma returns_none {A} (I : A → Prop) : returns I None.
Proof. by intros b. Qed.

#[export] Hint Resolve returns_some returns_none : trojan.

Lemma decided_foldl {A B} (step : nat → A → B → option A) (I : A → Prop) a xs :
  (∀ a x, x ∈ xs → I a → decided (λ fuel, step fuel a x) (returns I)) → I a →
  decided (λ fuel, foldl (λ acc x, a ← acc; step fuel a x) (Some a) xs) (returns I).
Proof.
  revert a. induction xs as [|x xs IH]; intros a Hstep Ha.
  { apply (decided_ret (Some a)). auto with trojan. }
  eapply decided_ext with (run := λ fuel, a ← step fuel a x;
    foldl (λ acc x, a ← acc; step fuel a x) (Some a) xs).
  { intros fuel. cbn [foldl mbind option_bind]. apply foldl_bind. }
  eapply decided_bind; [by apply Hstep; [apply list_elem_of_here|]|auto with trojan|].
  intros b Hb. apply IH; [|by apply Hb]. intros c y Hy. by apply Hstep, list_elem_of_further.
Qed.

(** ** Labelled steps

    A specification as a step relation: [steps R s ls s'] takes one step for
    each label of [ls]. *)

Inductive steps {S L : Type} (R : S → L → S → Prop) : S → list L → S → Prop :=
  | steps_nil s : steps R s [] s
  | steps_cons s l s1 ls s2 : R s l s1 → steps R s1 ls s2 → steps R s (l :: ls) s2.

Lemma steps_app {S L} (R : S → L → S → Prop) s ls s1 ls' s2 :
  steps R s ls s1 → steps R s1 ls' s2 → steps R s (ls ++ ls') s2.
Proof. induction 1; [done|]. intros. econstructor; eauto. Qed.

(** What every step preserves holds after any run. *)
Lemma steps_invariant {S L} (R : S → L → S → Prop) (I : S → Prop) s ls s' :
  (∀ s l s', R s l s' → I s → I s') → steps R s ls s' → I s → I s'.
Proof. intros HR. induction 1; eauto. Qed.

Lemma steps_impl {S L} (R R' : S → L → S → Prop) s ls s' :
  (∀ s l s', R s l s' → R' s l s') → steps R s ls s' → steps R' s ls s'.
Proof. intros HR. induction 1; econstructor; eauto. Qed.

(** A relation that every step respects relates the ends of a run. *)
Lemma steps_preorder {S L} (R : S → L → S → Prop) (Q : relation S) `{!PreOrder Q} s ls s' :
  (∀ s l s', R s l s' → Q s s') → steps R s ls s' → Q s s'.
Proof. intros HR. induction 1; [done|]. by etrans; [eapply HR|]. Qed.

(** ** [Vec::swap_remove]

    Removes index [i], moving the last element into its place; panics out of
    range. *)

Definition swap_remove {A} (l : list A) (i : nat) : option (list A) :=
  match last l with
  | Some x => if (i <? length l)%nat then Some (take (length l - 1) (<[i := x]> l)) else None
  | None => None
  end.

Lemma swap_remove_app {A} (a : list A) x b :
  ∃ b', swap_remove (a ++ x :: b) (length a) = Some (a ++ b') ∧ b' ≡ₚ b.
Proof.
  unfold swap_remove. rewrite length_app. cbn [length].
  destruct b as [|y b _] using rev_ind.
  - exists []. rewrite last_snoc, (proj2 (Nat.ltb_lt _ _)) by (simpl; lia).
    rewrite insert_app_r_alt, Nat.sub_diag by lia. cbn [insert list_insert length].
    rewrite take_app_le, firstn_all2, app_nil_r by lia. done.
  - exists (y :: b). rewrite app_comm_cons, app_assoc, last_snoc.
    rewrite (proj2 (Nat.ltb_lt _ _)) by lia. split; [|by rewrite Permutation_app_comm].
    rewrite <-app_assoc, insert_app_r_alt, Nat.sub_diag by lia.
    rewrite <-app_comm_cons. cbn [insert list_insert].
    rewrite app_comm_cons, app_assoc, length_app. cbn [length].
    by rewrite take_app_length' by (rewrite !length_app; simpl; lia).
Qed.

(** The positions of the elements that satisfy [f], in ascending order. *)
Fixpoint positions {A} (f : A → bool) (i : nat) (l : list A) : list nat :=
  match l with
  | [] => []
  | x :: l => if f x then i :: positions f (S i) l else positions f (S i) l
  end.

Lemma positions_snoc {A} (f : A → bool) i l x :
  positions f i (l ++ [x]) = positions f i l ++ (if f x then [(i + length l)%nat] else []).
Proof.
  revert i. induction l as [|y l IH]; intros i; simpl; [by rewrite Nat.add_0_r; destruct (f x)|].
  rewrite IH, Nat.add_succ_r. by destruct (f y).
Qed.

Lemma positions_sorted {A} (f : A → bool) i l : StronglySorted Nat.le (positions f i l).
Proof.
  assert (∀ l i, Forall (Nat.le i) (positions f i l)) as Hge.
  { clear. induction l as [|x l IH]; intros i; simpl; [done|].
    assert (Forall (Nat.le i) (positions f (S i) l)).
    { eapply Forall_impl; [apply IH|]. simpl. intros k Hk. unfold Nat.le in *. lia. }
    destruct (f x); [constructor|]; done || unfold Nat.le; lia. }
  revert i. induction l as [|x l IH]; intros i; simpl; [constructor|].
  destruct (f x); [|done]. constructor; [done|].
  eapply Forall_impl; [apply Hge|]. intros k Hk. unfold Nat.le in *. lia.
Qed.

(** Removing positions from the last to the first removes those elements and no
    other. *)
Definition swap_remove_all {A} (l : list A) (ks : list nat) : option (list A) :=
  foldl (λ acc i, l ← acc; swap_remove l i) (Some l) ks.

Lemma swap_remove_positions {A} (f : A → bool) l b :
  ∃ r, swap_remove_all (l ++ b) (reverse (positions f 0 l)) = Some r
    ∧ r ≡ₚ filter (λ x, f x = false) l ++ b.
Proof.
  revert b. induction l as [|x l IH] using rev_ind; intros b; [by exists b|].
  rewrite positions_snoc, reverse_app, <-app_assoc, filter_app. cbn [app].
  rewrite filter_cons, filter_nil. destruct (f x).
  - rewrite decide_False by done. rewrite app_nil_r. unfold swap_remove_all.
    rewrite foldl_app. cbn [reverse rev_append foldl mbind option_bind Nat.add].
    destruct (swap_remove_app l x b) as (b' & -> & Hb).
    destruct (IH b') as (r & Hr & Hp). exists r. split; [exact Hr|by rewrite Hp, Hb].
  - rewrite decide_True by done. cbn [reverse rev_append app].
    destruct (IH (x :: b)) as (r & Hr & Hp). exists r. split; [exact Hr|].
    by rewrite Hp, <-app_assoc.
Qed.
