(* ===== verification/Framing.v ===== *)
(** * Framed streams

    Several components receive a stream of records through reads of arbitrary
    sizes: UDP packets, addresses to ping, ping results.  This file holds the
    argument they share: a consumer that handles every complete record of what
    it has and keeps the incomplete rest handles the same records however the
    stream is cut. *)

From Stdlib Require Import ZArith Lia.
From stdpp Require Import base option list.
From S2P Require Import Prelude.

Section Framing.
Context {A : Type} (enc : A → bytes) (wf : A → Prop).

Definition encode (xs : list A) : bytes := mjoin (enc <$> xs).

(** The beginning of a record that has not fully arrived. *)
Definition partial (p : bytes) : Prop :=
  p = [] ∨ ∃ a, wf a ∧ p `prefix_of` enc a ∧ p ≠ enc a.

Lemma encode_cons x xs : encode (x :: xs) = enc x ++ encode xs.
Proof. done. Qed.

Lemma encode_app xs ys : encode (xs ++ ys) = encode xs ++ encode ys.
Proof. unfold encode. by rewrite fmap_app, join_app. Qed.

(** What the part of a stream that has arrived is made of. *)
Lemma encode_prefix xs p chunk rest :
  Forall wf xs → partial p → chunk ++ rest = encode xs ++ p →
  ∃ xs1 xs2 p1, xs = xs1 ++ xs2 ∧ chunk = encode xs1 ++ p1 ∧ partial p1
    ∧ p1 ++ rest = encode xs2 ++ p.
Proof.
  intros Hxs Hp. revert chunk. induction Hxs as [|x xs Hx Hxs IH]; intros chunk Heq.
  - exists [], [], chunk. split_and!; try done. simpl in Heq.
    destruct Hp as [->|(a & Ha & [q Hpa] & Hne)].
    + left. by apply app_eq_nil in Heq as [-> _].
    + right. exists a. split; [done|]. split.
      * exists (rest ++ q). rewrite Hpa, <-Heq. by rewrite app_assoc.
      * intros ->. rewrite <-Heq, <-app_assoc in Hpa.
        assert (rest ++ q = []) as [-> ->]%app_eq_nil.
        { apply (app_inv_head (enc a)). by rewrite app_nil_r. }
        by rewrite app_nil_r in Heq.
  - rewrite encode_cons, <-app_assoc in Heq.
    destruct (decide (length (enc x) <= length chunk)%nat) as [Hle|Hgt].
    + assert (chunk = enc x ++ drop (length (enc x)) chunk) as Hc.
      { rewrite <-(take_drop (length (enc x)) chunk) at 1. f_equal.
        apply (f_equal (take (length (enc x)))) in Heq.
        by rewrite take_app_le, take_app_length in Heq. }
      destruct (IH (drop (length (enc x)) chunk)) as (xs1 & xs2 & p1 & -> & H1 & H2 & H3).
      { rewrite Hc, <-app_assoc in Heq. by apply app_inv_head in Heq. }
      exists (x :: xs1), xs2, p1. split_and!; try done.
      rewrite encode_cons, <-app_assoc, <-H1. done.
    + exists [], (x :: xs), chunk. split_and!; try done.
      * right. exists x. split; [done|]. split.
        -- exists (drop (length chunk) (enc x)).
           apply (f_equal (take (length chunk))) in Heq.
           rewrite take_app_length, take_app_le in Heq by lia.
           rewrite <-(take_drop (length chunk) (enc x)) at 1. by rewrite <-Heq.
        -- intros ->. lia.
      * by rewrite encode_cons, <-app_assoc.
Qed.

(** ** Consumers *)

Context {S : Type} (feed : S → bytes → option S).

Fixpoint feed_all (s : S) (chunks : list bytes) : option S :=
  match chunks with
  | [] => Some s
  | chunk :: chunks => s ← feed s chunk; feed_all s chunks
  end.

(** [inv xs p s]: in [s], the records [xs] have been handled and [p] is kept. *)
Context (inv : list A → bytes → S → Prop).
Context (record_complete : ∀ a q, wf a → ¬ partial (enc a ++ q)).
Context (feed_ok : ∀ done p0 s chunk xs p,
  inv done p0 s → Forall wf xs → partial p → p0 ++ chunk = encode xs ++ p →
  ∃ s', feed s chunk = Some s' ∧ inv (done ++ xs) p s').

Lemma feed_all_ok done p0 s chunks xs p :
  inv done p0 s → partial p0 → Forall wf xs → partial p →
  p0 ++ mjoin chunks = encode xs ++ p →
  ∃ s', feed_all s chunks = Some s' ∧ inv (done ++ xs) p s'.
Proof.
  intros Hi Hp0 Hxs Hp Heq. revert done p0 s xs Hi Hp0 Hxs Heq.
  induction chunks as [|chunk chunks IH]; intros done p0 s xs Hi Hp0 Hxs Heq.
  - cbn [mjoin list_join] in Heq. rewrite app_nil_r in Heq. exists s. split; [done|].
    destruct Hxs as [|x xs Hx Hxs].
    + rewrite app_nil_r. simpl in Heq. by rewrite <-Heq.
    + exfalso. apply (record_complete x (encode xs ++ p) Hx).
      rewrite app_assoc, <-encode_cons, <-Heq. done.
  - cbn [feed_all mjoin list_join] in *.
    destruct (encode_prefix xs p (p0 ++ chunk) (mjoin chunks))
      as (xs1 & xs2 & p1 & -> & H1 & H2 & H3); [done|done|by rewrite <-app_assoc|].
    apply Forall_app in Hxs as [Hxs1 Hxs2].
    destruct (feed_ok done p0 s chunk xs1 p1) as (s1 & -> & Hi1); [done..|].
    cbn [mbind option_bind].
    destruct (IH (done ++ xs1) p1 s1 xs2) as (s2 & -> & Hi2); [done..|].
    exists s2. split; [done|]. by rewrite app_assoc.
Qed.
End Framing.
