(* ===== verification/Net.v ===== *)
(** * Network addresses and strings

    The part of Rust's standard library the program computes with:
    [std::net::IpAddr] and [SocketAddr] (octet arrays and a port),
    [String::from_utf8_lossy], substring search, and the [FromStr] parser of IP
    addresses; and the address classification of [src/src/utils.rs].  A [String]
    is its UTF-8 bytes. *)

From Stdlib Require Import ZArith Lia.
From stdpp Require Import base option list gmap countable.
From S2P Require Import Prelude.

Open Scope Z_scope.
Open Scope rust_scope.

(** ** Addresses *)

(** [std::net::IpAddr]; also smoltcp's [IpAddress], which holds the same octets. *)
Inductive IpAddr : Type :=
  | V4 (octets : bytes)
  | V6 (octets : bytes).

(** [std::net::SocketAddr] (the program always builds V6 addresses with flow
    info and scope 0); also smoltcp's [IpEndpoint]. *)
Record SocketAddr : Type := mkSocketAddr { sa_ip : IpAddr; sa_port : Z }.

#[export] Instance IpAddr_eq_dec : EqDecision IpAddr.
Proof. solve_decision. Defined.

#[export] Instance IpAddr_countable : Countable IpAddr.
Proof.
  refine (inj_countable'
    (λ ip, match ip with V4 o => inl o | V6 o => inr o end)
    (λ s, match s with inl o => V4 o | inr o => V6 o end) _).
  by intros [].
Defined.

#[export] Instance SocketAddr_eq_dec : EqDecision SocketAddr.
Proof. solve_decision. Defined.

#[export] Instance SocketAddr_countable : Countable SocketAddr.
Proof.
  refine (inj_countable' (λ a, (sa_ip a, sa_port a)) (λ p, mkSocketAddr p.1 p.2) _).
  by intros [].
Defined.

Definition octets (ip : IpAddr) : bytes :=
  match ip with V4 o => o | V6 o => o end.

Definition is_ipv4 (ip : IpAddr) : bool :=
  match ip with V4 _ => true | V6 _ => false end.

(** Well-formed values: what the Rust types can hold. *)
Definition wf_ip (ip : IpAddr) : Prop :=
  match ip with
  | V4 o => length o = 4%nat ∧ wf_bytes o
  | V6 o => length o = 16%nat ∧ wf_bytes o
  end.

Definition wf_sa (a : SocketAddr) : Prop := wf_ip (sa_ip a) ∧ 0 ≤ sa_port a < 65536.

#[export] Instance wf_ip_dec ip : Decision (wf_ip ip).
Proof. destruct ip; simpl; apply _. Defined.

#[export] Instance wf_sa_dec a : Decision (wf_sa a).
Proof. unfold wf_sa. apply _. Defined.

(** [Ipv4Addr::from(u32)]: big-endian octets. *)
Definition ipv4_of_u32 (z : Z) : IpAddr :=
  V4 [Z.land (Z.shiftr z 24) 255; Z.land (Z.shiftr z 16) 255;
      Z.land (Z.shiftr z 8) 255; Z.land z 255].

(** [u32::from(Ipv4Addr)]. *)
Definition u32_of_octets (o : bytes) : Z := fold_left (λ acc x, acc * 256 + x) o 0.

(** [Ipv6Addr::new] from eight 16-bit segments. *)
Definition ipv6_new (segs : list Z) : IpAddr := V6 (mjoin (u16_be <$> segs)).

(** [IpAddr::is_unspecified], [IpAddr::is_loopback], [Ipv4Addr::is_private]. *)
Definition is_unspecified (ip : IpAddr) : bool :=
  match ip with
  | V4 o => bool_decide (o = [0; 0; 0; 0])
  | V6 o => bool_decide (o = replicate 16 0)
  end.

Definition is_loopback (ip : IpAddr) : bool :=
  match ip with
  | V4 o => bool_decide (o !! 0%nat = Some 127)
  | V6 o => bool_decide (o = replicate 15 0 ++ [1])
  end.

Definition ipv4_is_private (o : bytes) : bool :=
  match o with
  | a :: b :: _ =>
      (a =? 10) || ((a =? 172) && (16 <=? b) && (b <=? 31)) || ((a =? 192) && (b =? 168))
  | _ => false
  end.

(** *** Classification by the program *)

(** [utils::is_private]: used by the asynchronous server to refuse targets. *)
Definition utils_is_private (addr : SocketAddr) : bool :=
  match sa_ip addr with
  | V4 v4 => ipv4_is_private v4
  | V6 _ => false
  end.

(** ** Strings *)

(** [String::contains] on a byte pattern. *)
Fixpoint starts_with (pat s : bytes) : bool :=
  match pat, s with
  | [], _ => true
  | p :: pat', x :: s' => (p =? x) && starts_with pat' s'
  | _ :: _, [] => false
  end.

Fixpoint contains (pat s : bytes) : bool :=
  starts_with pat s || match s with [] => false | _ :: s' => contains pat s' end.

(** [String::from_utf8_lossy]: each maximal ill-formed prefix of a sequence
    becomes U+FFFD.  The case structure is that of [core::str::lossy]. *)
Definition replacement : bytes := [239; 191; 189].

Definition is_cont (b : Z) : bool := (128 <=? b) && (b <=? 191).

Definition second_ok3 (b c : Z) : bool :=
  ((b =? 224) && (160 <=? c) && (c <=? 191))
  || ((225 <=? b) && (b <=? 236) && is_cont c)
  || ((b =? 237) && (128 <=? c) && (c <=? 159))
  || ((238 <=? b) && (b <=? 239) && is_cont c).

Definition second_ok4 (b c : Z) : bool :=
  ((b =? 240) && (144 <=? c) && (c <=? 191))
  || ((241 <=? b) && (b <=? 243) && is_cont c)
  || ((b =? 244) && (128 <=? c) && (c <=? 143)).

Fixpoint from_utf8_lossy (s : bytes) : bytes :=
  match s with
  | [] => []
  | b :: s1 =>
      if b <? 128 then b :: from_utf8_lossy s1
      else if (194 <=? b) && (b <=? 223) then
        match s1 with
        | c :: s2 => if is_cont c then b :: c :: from_utf8_lossy s2
                     else replacement ++ from_utf8_lossy s1
        | [] => replacement
        end
      else if (224 <=? b) && (b <=? 239) then
        match s1 with
        | c :: s2 =>
            if second_ok3 b c then
              match s2 with
              | d :: s3 => if is_cont d then b :: c :: d :: from_utf8_lossy s3
                           else replacement ++ from_utf8_lossy s2
              | [] => replacement
              end
            else replacement ++ from_utf8_lossy s1
        | [] => replacement
        end
      else if (240 <=? b) && (b <=? 244) then
        match s1 with
        | c :: s2 =>
            if second_ok4 b c then
              match s2 with
              | d :: s3 =>
                  if is_cont d then
                    match s3 with
                    | e :: s4 => if is_cont e then b :: c :: d :: e :: from_utf8_lossy s4
                                 else replacement ++ from_utf8_lossy s3
                    | [] => replacement
                    end
                  else replacement ++ from_utf8_lossy s2
              | [] => replacement
              end
            else replacement ++ from_utf8_lossy s1
        | [] => replacement
        end
      else replacement ++ from_utf8_lossy s1
  end.

Definition ascii (s : bytes) : Prop := Forall (λ x, 0 ≤ x < 128) s.

#[export] Instance ascii_dec s : Decision (ascii s).
Proof. unfold ascii. apply _. Defined.

Lemma from_utf8_lossy_ascii s : ascii s → from_utf8_lossy s = s.
Proof.
  induction 1 as [|x s Hx Hs IH]; [done|]. simpl.
  destruct (Z.ltb_spec x 128) as [_|H]; [by rewrite IH|lia].
Qed.

Lemma ascii_replacement s : ¬ ascii (replacement ++ s).
Proof. intros H. apply Forall_inv in H. lia. Qed.

(** An ASCII result comes only from itself: lossy decoding never maps
    ill-formed or non-ASCII input to ASCII text. *)
Lemma from_utf8_lossy_inv s t : from_utf8_lossy s = t → ascii t → s = t.
Proof.
  intros <-. induction s as [|b s IH]; [done|]. simpl.
  destruct (Z.ltb_spec b 128) as [Hb|Hb].
  - intros H. f_equal. by apply IH, (Forall_inv_tail H).
  - repeat case_match; intros Ha; try (by apply ascii_replacement in Ha);
      try (rewrite <-(app_nil_r replacement) in Ha; by apply ascii_replacement in Ha);
      apply Forall_inv in Ha; lia.
Qed.

(** ** [IpAddr::from_str]

    The recursive-descent parser of [core::net::parser]: each reader takes the
    remaining input and returns a value with the rest, or fails. *)

Definition reader (A : Type) : Type := bytes → option (A * bytes).

Definition to_digit (radix : Z) (c : Z) : option Z :=
  let d := if (48 <=? c) && (c <=? 57) then Some (c - 48)
           else if (97 <=? c) && (c <=? 122) then Some (c - 97 + 10)
           else if (65 <=? c) && (c <=? 90) then Some (c - 65 + 10)
           else None in
  d ≫= λ v, if v <? radix then Some v else None.

(** The digit loop of [read_number]: accumulates while digits follow, failing
    as soon as more than [max_digits] are read. *)
Fixpoint read_digits (radix : Z) (max_digits count : nat) (acc : Z) (s : bytes)
  : option (nat * Z * bytes) :=
  match s with
  | c :: s' =>
      match to_digit radix c with
      | Some d =>
          if (max_digits <? S count)%nat then None
          else read_digits radix max_digits (S count) (acc * radix + d) s'
      | None => Some (count, acc, s)
      end
  | [] => Some (count, acc, s)
  end.

Definition read_number (radix : Z) (max_digits : nat) (max_value : Z)
    (allow_zero_prefix : bool) : reader Z := λ s,
  let has_leading_zero := bool_decide (head s = Some 48) in
  '(count, v, rest) ← read_digits radix max_digits 0 0 s;
  if (count =? 0)%nat then None
  else if negb allow_zero_prefix && has_leading_zero && (1 <? count)%nat then None
  else if v <=? max_value then Some (v, rest) else None.

Definition read_given_char (c : Z) (s : bytes) : option bytes :=
  match s with x :: s' => if x =? c then Some s' else None | [] => None end.

(** [read_separator(sep, index, inner)]. *)
Definition read_separator {A} (sep : Z) (index : nat) (inner : reader A) : reader A := λ s,
  match index with
  | O => inner s
  | S _ => read_given_char sep s ≫= inner
  end.

Definition read_ipv4_addr : reader bytes := λ s,
  let num := read_number 10 3 255 false in
  '(a, s) ← read_separator 46 0 num s;
  '(b, s) ← read_separator 46 1 num s;
  '(c, s) ← read_separator 46 2 num s;
  '(d, s) ← read_separator 46 3 num s;
  Some ([a; b; c; d], s).

(** [read_groups]: the groups read (as 16-bit segments), whether an embedded
    IPv4 tail ended them, and the rest.  [n] groups are still allowed. *)
Fixpoint read_groups (n i : nat) (s : bytes) : list Z * bool * bytes :=
  match n with
  | O => ([], false, s)
  | S n' =>
      match (if (2 <=? n)%nat then read_separator 58 i read_ipv4_addr s else None) with
      | Some (v4, s') =>
          match v4 with
          | [a; b; c; d] => ([a * 256 + b; c * 256 + d], true, s')
          | _ => ([], false, s)
          end
      | None =>
          match read_separator 58 i (read_number 16 4 u16_MAX true) s with
          | Some (g, s') =>
              let '(gs, v4, rest) := read_groups n' (S i) s' in (g :: gs, v4, rest)
          | None => ([], false, s)
          end
      end
  end.

Definition read_ipv6_addr : reader (list Z) := λ s,
  let '(head, head_ipv4, s1) := read_groups 8 0 s in
  if (length head =? 8)%nat then Some (head, s1)
  else if head_ipv4 then None
  else
    s2 ← read_given_char 58 s1;
    s3 ← read_given_char 58 s2;
    let '(tail, _, s4) := read_groups (7 - length head) 0 s3 in
    Some (head ++ replicate (8 - length head - length tail) 0 ++ tail, s4).

Definition parse_ip (s : bytes) : option IpAddr :=
  '(ip, rest) ←
     match read_ipv4_addr s with
     | Some (o, rest) => Some (V4 o, rest)
     | None => '(g, rest) ← read_ipv6_addr s; Some (ipv6_new g, rest)
     end;
  match rest with [] => Some ip | _ :: _ => None end.

(** [Ipv4Addr::from_str]. *)
Definition parse_ipv4 (s : bytes) : option bytes :=
  if (15 <? length s)%nat then None
  else '(o, rest) ← read_ipv4_addr s;
       match rest with [] => Some o | _ :: _ => None end.

(** "10.0.0.1", "::1", "1.2.3.04", "fe80::1:2", "::ffff:1.2.3.4" *)
Example parse_ip_ex1 : parse_ip [49;48;46;48;46;48;46;49] = Some (V4 [10;0;0;1]).
Proof. reflexivity. Qed.
Example parse_ip_ex2 : parse_ip [58;58;49] = Some (V6 (replicate 15 0 ++ [1])).
Proof. reflexivity. Qed.
Example parse_ip_ex3 : parse_ip [49;46;50;46;51;46;48;52] = None.
Proof. reflexivity. Qed.
Example parse_ip_ex4 : parse_ip [58;58;102;102;102;102;58;49;46;50;46;51;46;52]
  = Some (V6 (replicate 10 0 ++ [255;255;1;2;3;4])).
Proof. reflexivity. Qed.

(** ** [Display for IpAddr] *)

Definition digit_char (d : Z) : Z := if d <? 10 then d + 48 else d - 10 + 97.

Fixpoint digits (fuel : nat) (radix n : Z) : bytes :=
  match fuel with
  | O => []
  | S fuel => if n <? radix then [digit_char n]
              else digits fuel radix (n / radix) ++ [digit_char (n mod radix)]
  end.

Definition ipv4_to_string (o : bytes) : bytes := join 46 (digits 3 10 <$> o).

(** The longest run of zero segments, the first of equal ones: start and length. *)
Fixpoint zero_run (segs : list Z) (i start len best_start best_len : nat) : nat * nat :=
  match segs with
  | [] => (best_start, best_len)
  | s :: segs =>
      if s =? 0 then
        let start := if (len =? 0)%nat then i else start in
        let len := S len in
        if (best_len <? len)%nat then zero_run segs (S i) start len start len
        else zero_run segs (S i) start len best_start best_len
      else zero_run segs (S i) 0 0 best_start best_len
  end.

Fixpoint segments (o : bytes) : list Z :=
  match o with
  | hi :: lo :: o => (hi * 256 + lo) :: segments o
  | _ => []
  end.

Definition hex_rows (segs : list Z) : bytes := join 58 (digits 4 16 <$> segs).

Definition ipv6_to_string (o : bytes) : bytes :=
  if bool_decide (take 12 o = replicate 10 0 ++ [255; 255]) then
    [58; 58; 102; 102; 102; 102; 58] ++ ipv4_to_string (drop 12 o)
  else
    let segs := segments o in
    let '(start, len) := zero_run segs 0 0 0 0 0 in
    if (1 <? len)%nat
    then hex_rows (take start segs) ++ [58; 58] ++ hex_rows (drop (start + len) segs)
    else hex_rows segs.

Definition ip_to_string (ip : IpAddr) : bytes :=
  match ip with V4 o => ipv4_to_string o | V6 o => ipv6_to_string o end.

(** "10.0.0.1", "::1", "fe80::102" and "::ffff:1.2.3.4". *)
Example ip_to_string_ex :
  ip_to_string (V4 [10;0;0;1]) = [49;48;46;48;46;48;46;49]
  ∧ ip_to_string (V6 (replicate 15 0 ++ [1])) = [58;58;49]
  ∧ ip_to_string (V6 ([254;128] ++ replicate 12 0 ++ [1;2])) = [102;101;56;48;58;58;49;48;50]
  ∧ ip_to_string (V6 (replicate 10 0 ++ [255;255;1;2;3;4]))
      = [58;58;102;102;102;102;58;49;46;50;46;51;46;52].
Proof. by vm_compute. Qed.

(** ** Well-formedness of parsed addresses *)

Lemma to_digit_bounds radix c d : to_digit radix c = Some d → 0 ≤ d < radix.
Proof.
  unfold to_digit. intros (v & Hv & Hr)%bind_Some. destruct (Z.ltb_spec v radix); [|done].
  injection Hr as <-. split; [|done]. repeat case_match; simplify_eq; lia.
Qed.

Lemma read_digits_nonneg radix m count acc s n v rest :
  0 < radix → 0 ≤ acc → read_digits radix m count acc s = Some (n, v, rest) → 0 ≤ v.
Proof.
  intros Hr. revert count acc. induction s as [|c s IH]; intros count acc Ha; simpl.
  - by intros [= <- <- <-].
  - destruct (to_digit radix c) as [d|] eqn:Hd; [|by intros [= <- <- <-]].
    apply to_digit_bounds in Hd. destruct (_ <? _)%nat; [done|]. apply IH. nia.
Qed.

Lemma read_number_bounds radix m max z s v rest :
  0 < radix → read_number radix m max z s = Some (v, rest) → 0 ≤ v ≤ max.
Proof.
  intros Hr. unfold read_number.
  destruct (read_digits radix m 0 0 s) as [[[n w] r]|] eqn:Hd; [|done]. cbn [mbind option_bind].
  apply read_digits_nonneg in Hd; [|done|lia].
  destruct (n =? 0)%nat; [done|]. destruct (_ && _); [done|].
  destruct (Z.leb_spec w max); [|done]. intros [= <- _]. lia.
Qed.

Lemma read_separator_inv {A} sep i (inner : reader A) s r :
  read_separator sep i inner s = Some r → ∃ s', inner s' = Some r.
Proof.
  unfold read_separator. destruct i; [by exists s|]. intros (s' & _ & H)%bind_Some. by exists s'.
Qed.

Lemma read_ipv4_addr_wf s o rest : read_ipv4_addr s = Some (o, rest) → length o = 4%nat ∧ wf_bytes o.
Proof.
  unfold read_ipv4_addr.
  intros ([a s1] & Ha & H)%bind_Some. apply bind_Some in H as ([b s2] & Hb & H).
  apply bind_Some in H as ([c s3] & Hc & H). apply bind_Some in H as ([d s4] & Hd & H).
  injection H as <- <-. split; [done|].
  apply read_separator_inv in Ha as (? & Ha%read_number_bounds), Hb as (? & Hb%read_number_bounds),
    Hc as (? & Hc%read_number_bounds), Hd as (? & Hd%read_number_bounds); try lia.
  repeat apply Forall_cons_2; [lia..|by apply Forall_nil_2].
Qed.

Definition wf_segs (l : list Z) : Prop := Forall (λ g, 0 ≤ g < 65536) l.

Lemma read_groups_wf n i s gs v4 rest :
  read_groups n i s = (gs, v4, rest) → (length gs <= n)%nat ∧ wf_segs gs.
Proof.
  revert i s gs v4 rest. induction n as [|n IH]; intros i s gs v4 rest; cbn [read_groups].
  { intros [= <- _ _]. split; [done|constructor]. }
  destruct (if (2 <=? S n)%nat then read_separator 58 i read_ipv4_addr s else None) as [[o s1]|] eqn:H4.
  - destruct (Nat.leb_spec 2 (S n)) as [Hn|]; [|done].
    apply read_separator_inv in H4 as (? & [Hlen Ho]%read_ipv4_addr_wf).
    destruct o as [|a [|b [|c [|d []]]]]; try done. intros [= <- _ _]. split; [simpl; lia|].
    repeat (apply wf_bytes_cons in Ho as [? Ho]). repeat apply Forall_cons_2; [lia..|by apply Forall_nil_2].
  - destruct (read_separator 58 i (read_number 16 4 u16_MAX true) s) as [[g s1]|] eqn:Hg.
    + destruct (read_groups n (S i) s1) as [[gs1 v1] r1] eqn:Hgs. intros [= <- _ _].
      apply IH in Hgs as [Hl Hw]. split; [simpl; lia|]. apply Forall_cons_2; [|done].
      apply read_separator_inv in Hg as (? & Hg%read_number_bounds); [|lia]. unfold u16_MAX in Hg. lia.
    + intros [= <- _ _]. split; [simpl; lia|constructor].
Qed.

Lemma ipv6_new_wf segs : length segs = 8%nat → wf_segs segs → wf_ip (ipv6_new segs).
Proof.
  intros Hl Hw. assert (length (mjoin (u16_be <$> segs)) = (2 * length segs)%nat
    ∧ wf_bytes (mjoin (u16_be <$> segs))) as [H1 H2].
  { clear Hl. induction Hw as [|g segs Hg _ [IH1 IH2]]; [by split; [|constructor]|].
    change (mjoin (u16_be <$> g :: segs)) with (u16_be g ++ mjoin (u16_be <$> segs)).
    rewrite length_app, IH1, length_u16_be. split; [simpl; lia|].
    apply wf_bytes_app. split; [by apply u16_be_wf|done]. }
  split; [by rewrite H1, Hl|done].
Qed.

(** Whatever the text, an address read from it has the right number of octets. *)
Lemma parse_ip_wf s ip : parse_ip s = Some ip → wf_ip ip.
Proof.
  unfold parse_ip. intros ([ip' rest] & H & Hr)%bind_Some.
  destruct rest; [|done]. injection Hr as ->.
  destruct (read_ipv4_addr s) as [[o r]|] eqn:H4; [injection H as <- _; by apply read_ipv4_addr_wf in H4|].
  apply bind_Some in H as ([g r] & H & [= <- _]). unfold read_ipv6_addr in H.
  destruct (read_groups 8 0 s) as [[hd v4] s1] eqn:Hg. apply read_groups_wf in Hg as [Hl Hw].
  destruct (Nat.eqb_spec (length hd) 8) as [H8|H8]; [injection H as <- _; by apply ipv6_new_wf|].
  destruct v4; [done|]. apply bind_Some in H as (s2 & _ & H). apply bind_Some in H as (s3 & _ & H).
  destruct (read_groups (7 - length hd) 0 s3) as [[tl v] s4] eqn:Ht. apply read_groups_wf in Ht as [Hl2 Hw2].
  injection H as <- _. apply ipv6_new_wf.
  - rewrite !length_app, length_replicate. lia.
  - repeat apply Forall_app_2; [done| |done]. apply Forall_replicate. lia.
Qed.

Lemma replacement_wf s : wf_bytes s → wf_bytes (replacement ++ s).
Proof. intros Hs. repeat (apply Forall_cons_2; [lia|]). done. Qed.


Lemma from_utf8_lossy_wf s : wf_bytes s → wf_bytes (from_utf8_lossy s).
Proof.
  assert (∀ n s, (length s <= n)%nat → wf_bytes s → wf_bytes (from_utf8_lossy s)) as H; [|by apply (H (length s))].
  intros n. clear s. assert (wf_bytes replacement) as Hrep by (by rewrite <-(app_nil_r replacement); apply replacement_wf, Forall_nil_2).
  induction n as [|n IH]; intros s Hl Hs; (destruct s as [|b s1]; [done|]); [simpl in Hl; lia|].
  apply wf_bytes_cons in Hs as [Hb Hs]. simpl in Hl.
  assert (∀ s', (length s' <= length s1)%nat → wf_bytes s' → wf_bytes (from_utf8_lossy s')) as IH'
    by (intros; apply IH; [lia|done]).
  cbn [from_utf8_lossy]. destruct (b <? 128); [apply wf_bytes_cons; auto|].
  destruct s1 as [|c s2].
  { destruct (_ && _); [done|]. destruct (_ && _); [done|]. destruct (_ && _); [done|].
    apply replacement_wf, IH'; done. }
  pose proof Hs as Hs'. apply wf_bytes_cons in Hs' as [Hc Hs2].
  pose proof (IH' (c :: s2) (le_n _) Hs) as H1. pose proof (IH' s2 ltac:(simpl; lia) Hs2) as H2.
  destruct (_ && _); [destruct (is_cont c); [by repeat (apply wf_bytes_cons; split; [done|])|by apply replacement_wf]|].
  destruct (_ && _).
  { destruct (second_ok3 b c); [|by apply replacement_wf]. destruct s2 as [|d s3]; [done|].
    apply wf_bytes_cons in Hs2 as [Hd Hs3]. destruct (is_cont d); [|by apply replacement_wf].
    repeat (apply wf_bytes_cons; split; [done|]). apply IH'; [simpl; lia|done]. }
  destruct (_ && _); [|by apply replacement_wf].
  destruct (second_ok4 b c); [|by apply replacement_wf]. destruct s2 as [|d s3]; [done|].
  apply wf_bytes_cons in Hs2 as [Hd Hs3]. destruct (is_cont d); [|by apply replacement_wf].
  destruct s3 as [|e s4]; [done|]. pose proof (IH' (e :: s4) ltac:(simpl; lia) Hs3).
  apply wf_bytes_cons in Hs3 as [He Hs4]. destruct (is_cont e); [|by apply replacement_wf].
  repeat (apply wf_bytes_cons; split; [done|]). apply IH'; [simpl; lia|done].
Qed.
