(* ===== verification/Config.v ===== *)
(** * Options ([src/src/config.rs])

    The command-line options the modelled components read, the derived fields,
    the password digest and the start-up resolution of the server's address. *)

From Stdlib Require Import ZArith Lia.
From stdpp Require Import base option list gmap.
From S2P Require Import Prelude Net.

Open Scope Z_scope.
Open Scope rust_scope.

(** [ServerArgs] (the fields read after start-up). *)
Record ServerArgs : Type := mkServerArgs {
  remote_addr : bytes;
  dns_cache_time : Z;
  check_auth : bool;
  status_file : bytes;
  status_limit : nat;
  alpn : list bytes;
  disable_udp_hole : bool;
  cached_ping_timeout : Z;
  allow_private : bool
}.

(** [ProxyArgs]. *)
Record ProxyArgs : Type := mkProxyArgs {
  hostname : bytes;
  port : Z;
  pool_size : nat;
  enable_bypass : bool;
  bypass_timeout : Z;
  no_bypass_ipset : bytes;
  bypass_ipset : bytes;
  ping_threshold : Z;
  insecure : bool;
  ipset_timeout : Z;
  skip_dns : bytes
}.

(** [Opts]; [mode] is split into the arguments of the two families of modes. *)
Record Opts : Type := mkOpts {
  server_args : ServerArgs;
  proxy_args : ProxyArgs;
  password : bytes;
  udp_idle_timeout : Z;
  tcp_idle_timeout : Z;
  sha_pass : bytes;
  pass_len : nat;
  back_addr : option SocketAddr;
  empty_addr : option SocketAddr;
  udp_idle_duration : Z;
  tcp_idle_duration : Z
}.

Section Resolve.
Variables (hport : Z).

(** One round of [Opts::resolve]: the scan of a lookup response. *)
Fixpoint resolve_scan (response : list IpAddr) (back : option SocketAddr)
  : option SocketAddr :=
  match response with
  | [] => back
  | ip :: rest =>
      if is_ipv4 ip then Some (mkSocketAddr ip hport)
      else match back with
           | None => resolve_scan rest (Some (mkSocketAddr ip hport))
           | Some _ => resolve_scan rest back
           end
  end.

(** [Opts::resolve]: up to ten rounds; [lookup i] is the outcome of the
    [i]-th lookup ([None] is a failed one).  [None] is the final panic. *)
Fixpoint resolve_rounds (n i : nat) (lookup : nat → option (list IpAddr))
    (back : option SocketAddr) : option SocketAddr :=
  match n with
  | O => back
  | S n' =>
      let back := match lookup i with
                  | Some response => resolve_scan response back
                  | None => back
                  end in
      match back with
      | None => resolve_rounds n' (S i) lookup None
      | Some _ => back
      end
  end.

Definition resolve (lookup : nat → option (list IpAddr)) (back : option SocketAddr)
  : option SocketAddr := resolve_rounds 10 0 lookup back.

(** The first IPv4 address of a response, or else its first address. *)
Definition preferred (response : list IpAddr) : option IpAddr :=
  match list_find (λ ip, is_ipv4 ip = true) response with
  | Some (_, ip) => Some ip
  | None => head response
  end.

Lemma resolve_scan_Some response a :
  (∀ ip, ip ∈ response → is_ipv4 ip = false) →
  resolve_scan response (Some a) = Some a.
Proof.
  intros H. induction response as [|ip r IH]; [done|]. simpl.
  rewrite H by set_solver. apply IH. set_solver.
Qed.

Lemma resolve_scan_v4 response back i ip :
  list_find (λ ip, is_ipv4 ip = true) response = Some (i, ip) →
  resolve_scan response back = Some (mkSocketAddr ip hport).
Proof.
  revert back i. induction response as [|x r IH]; intros back i; simpl; [done|].
  case_decide as Hx; [rewrite Hx; by intros [= _ ->]|].
  apply not_true_is_false in Hx. rewrite Hx.
  destruct (list_find _ r) as [[j y]|] eqn:E; simpl; [|done].
  intros [= _ ->]. destruct back; by eapply IH.
Qed.

Lemma resolve_scan_spec response :
  resolve_scan response None = (λ ip, mkSocketAddr ip hport) <$> preferred response.
Proof.
  unfold preferred. destruct (list_find _ response) as [[i ip]|] eqn:E.
  - by eapply resolve_scan_v4.
  - assert (Hno : ∀ ip, ip ∈ response → is_ipv4 ip = false).
    { intros ip Hip. apply list_find_None, Forall_forall with (x := ip) in E; [|done].
      by apply not_true_is_false. }
    destruct response as [|x r]; [done|]. simpl.
    rewrite Hno by set_solver. apply resolve_scan_Some. set_solver.
Qed.

Lemma preferred_None response : preferred response = None → response = [].
Proof. unfold preferred. destruct (list_find _ response) as [[]|]; [done|]. by destruct response. Qed.

(** The address is that of the first lookup with an address in it. *)
Lemma resolve_rounds_spec n i lookup :
  match resolve_rounds n i lookup None with
  | Some a => ∃ j response ip, (i <= j < i + n)%nat ∧ lookup j = Some response
      ∧ preferred response = Some ip ∧ a = mkSocketAddr ip hport
      ∧ ∀ k, (i <= k < j)%nat → default [] (lookup k) = []
  | None => ∀ k, (i <= k < i + n)%nat → default [] (lookup k) = []
  end.
Proof.
  revert i. induction n as [|n IH]; intros i; cbn [resolve_rounds]; [lia|].
  assert (match lookup i with Some response => resolve_scan response None | None => None end
    = (λ ip, mkSocketAddr ip hport) <$> (lookup i ≫= preferred)) as ->.
  { destruct (lookup i) as [r|]; [apply resolve_scan_spec|done]. }
  destruct (lookup i ≫= preferred) as [ip|] eqn:Hp; cbn [fmap option_fmap option_map].
  - apply bind_Some in Hp as (r & Hr & Hp). exists i, r, ip. split_and!; [lia|lia|done..|lia].
  - assert (default [] (lookup i) = []) as H0.
    { destruct (lookup i) as [r|]; [|done]. by apply preferred_None. }
    specialize (IH (S i)). destruct (resolve_rounds n (S i) lookup None) as [a|].
    + destruct IH as (j & r & ip & Hj & Hr & Hip & -> & Hk). exists j, r, ip. split_and!; [lia|lia|done..|].
      intros k Hk'. destruct (decide (k = i)) as [->|]; [done|]. apply Hk. lia.
    + intros k Hk. destruct (decide (k = i)) as [->|]; [done|]. apply IH. lia.
Qed.
End Resolve.

Section Digest.
(** SHA-224 ([sha2] crate) and lower-case hex ([hex] crate). *)
Variables (sha224 : bytes → bytes) (hex_encode : bytes → bytes).

(** [Opts::digest_pass]. *)
Definition digest_pass (o : Opts) : Opts :=
  let result := hex_encode (sha224 (password o)) in
  mkOpts (server_args o) (proxy_args o) (password o) (udp_idle_timeout o)
    (tcp_idle_timeout o) result (length result) (back_addr o) (empty_addr o)
    (udp_idle_duration o) (tcp_idle_duration o).
End Digest.

(** [Opts::check_pass], [Opts::get_pass]. *)
Definition check_pass (o : Opts) (pass : bytes) : option bytes :=
  if bool_decide (sha_pass o = pass) then Some (password o) else None.

Definition get_pass (o : Opts) : bytes := sha_pass o.

(** Lower-case hexadecimal text. *)
Definition is_hex (s : bytes) : Prop :=
  Forall (λ x, 48 ≤ x ≤ 57 ∨ 97 ≤ x ≤ 102) s.

#[export] Instance is_hex_dec s : Decision (is_hex s).
Proof. unfold is_hex. apply _. Defined.

(** What [digest_pass] establishes: the digest is hexadecimal and [pass_len] is
    its length. *)
Class OptsOk (o : Opts) : Prop := {
  pass_len_eq : pass_len o = length (sha_pass o);
  sha_pass_hex : is_hex (sha_pass o)
}.

Lemma digest_pass_ok sha224 hex_encode o :
  (∀ b, is_hex (hex_encode b)) → OptsOk (digest_pass sha224 hex_encode o).
Proof. intros H. constructor; [done|apply H]. Qed.

Lemma is_hex_ascii s : is_hex s → ascii s.
Proof. intros H. apply (Forall_impl _ _ _ H). simpl. lia. Qed.

Lemma is_hex_take n s : is_hex s → is_hex (take n s).
Proof. apply Forall_take. Qed.

(** Hexadecimal text holds no "HTTP". *)
Lemma is_hex_no_H pat s : is_hex s → contains (72 :: pat) s = false.
Proof.
  induction 1 as [|x s Hx Hs IH]; [done|].
  cbn [contains starts_with]. by rewrite IH, (proj2 (Z.eqb_neq 72 x)) by lia.
Qed.

Lemma sha_pass_ascii o : OptsOk o → ascii (sha_pass o).
Proof. intros H. apply is_hex_ascii, H. Qed.

Lemma check_pass_lossy o b :
  OptsOk o → check_pass o (from_utf8_lossy b) = if bool_decide (b = sha_pass o)
                                               then Some (password o) else None.
Proof.
  intros Hascii%sha_pass_ascii. unfold check_pass. do 2 case_bool_decide; try done.
  - exfalso. eauto using from_utf8_lossy_inv.
  - subst. by rewrite from_utf8_lossy_ascii in *.
Qed.
