(* ===== verification/Proto.v ===== *)
(** * The trojan wire protocol ([src/src/proto.rs])

    Addresses, the request that opens a connection ([TrojanRequest]) and the
    framing of UDP packets inside it ([UdpAssociate]).  Parsers return [option]:
    [None] is a panic (an index out of range).  The BytesMut writers return the
    bytes they append. *)

From Stdlib Require Import ZArith Lia.
From stdpp Require Import base option list gmap.
From S2P Require Import Prelude Net Config.

Open Scope Z_scope.
Open Scope rust_scope.

Definition CONNECT : Z := 1.
Definition PING : Z := 2.
Definition UDP_ASSOCIATE : Z := 3.
Definition MAX_PACKET_SIZE : nat := 1480.
Definition IPV4 : Z := 1.
Definition DOMAIN : Z := 3.
Definition IPV6 : Z := 4.

Definition CR : Z := 13.
Definition LF : Z := 10.

(** "HTTP" *)
Definition HTTP : bytes := [72; 84; 84; 80].

Inductive Sock5Address : Type :=
  | Endpoint (e : SocketAddr)
  | Socket (a : SocketAddr)
  | Domain (d : bytes) (p : Z)
  | NoAddress.

#[export] Instance Sock5Address_eq_dec : EqDecision Sock5Address.
Proof. solve_decision. Defined.

Definition as_socket (a : Sock5Address) : option SocketAddr :=
  match a with Socket addr => Some addr | _ => None end.

Definition to_u16 (buffer : bytes) : option Z :=
  b0 ← buffer.[0%nat]; b1 ← buffer.[1%nat];
  Some (Z.lor (Z.shiftl b0 8) b1).

(** ** Parsing an address *)

Inductive AddressParseResult : Type :=
  | Address (size : nat) (address : Sock5Address)
  | AddressInvalidProtocol
  | AddressContinue.

(** The eight [to_u16(&buffer[2 * i..])] of the IPv6 branch. *)
Fixpoint read_segments (n i : nat) (buffer : bytes) : option (list Z) :=
  match n with
  | O => Some []
  | S n' =>
      tail ← buffer.[from i];
      s ← to_u16 tail;
      rest ← read_segments n' (i + 2) buffer;
      Some (s :: rest)
  end.

Definition parse_address (atyp : Z) (buffer : bytes) : option AddressParseResult :=
  if atyp =? IPV4 then
    if (length buffer <? 6)%nat then Some AddressContinue
    else
      ptail ← buffer.[from 4%nat];
      port ← to_u16 ptail;
      a ← buffer.[0%nat]; b ← buffer.[1%nat]; c ← buffer.[2%nat]; d ← buffer.[3%nat];
      Some (Address 6 (Socket (mkSocketAddr (V4 [a; b; c; d]) port)))
  else if atyp =? DOMAIN then
    len ← buffer.[0%nat];
    let length_ := Z.to_nat len in
    if (length buffer <? length_ + 3)%nat then Some AddressContinue
    else
      raw ← buffer.[between 1%nat & length_ + 1];
      let domain := from_utf8_lossy raw in
      ptail ← buffer.[from length_ + 1];
      port ← to_u16 ptail;
      match parse_ip domain with
      | Some ip => Some (Address (length_ + 3) (Socket (mkSocketAddr ip port)))
      | None => Some (Address (length_ + 3) (Domain domain port))
      end
  else if atyp =? IPV6 then
    if (length buffer <? 18)%nat then Some AddressContinue
    else
      segs ← read_segments 8 0 buffer;
      ptail ← buffer.[from 16%nat];
      port ← to_u16 ptail;
      Some (Address 18 (Socket (mkSocketAddr (ipv6_new segs) port)))
  else Some AddressInvalidProtocol.

(** smoltcp's [Ipv6Address::from_bytes]; [None] is its panic on a slice that does
    not have sixteen octets. *)
Class Ipv6FromBytes : Type := { ipv6_from_bytes : bytes → option bytes }.
Class Ipv6FromBytesOk `{Ipv6FromBytes} : Prop := {
  from_bytes_16 b : length b = 16%nat → ipv6_from_bytes b = Some b;
  from_bytes_other b : length b ≠ 16%nat → ipv6_from_bytes b = None
}.

(** [parse_address_endpoint]: [inl] is the [Some((size, address))] of the source,
    [inr tt] its [None]. *)
Definition parse_address_endpoint `{Ipv6FromBytes} (atyp : Z) (buffer : bytes)
  : option (nat * Sock5Address + unit) :=
  if atyp =? IPV4 then
    if (length buffer <? 6)%nat then Some (inr tt)
    else
      ptail ← buffer.[from 4%nat];
      port ← to_u16 ptail;
      a ← buffer.[0%nat]; b ← buffer.[1%nat]; c ← buffer.[2%nat]; d ← buffer.[3%nat];
      Some (inl (6%nat, Endpoint (mkSocketAddr (V4 [a; b; c; d]) port)))
  else if atyp =? DOMAIN then
    len ← buffer.[0%nat];
    let length_ := Z.to_nat len in
    if (length buffer <? length_ + 3)%nat then Some (inr tt)
    else
      raw ← buffer.[between 1%nat & length_ + 1];
      let domain := from_utf8_lossy raw in
      ptail ← buffer.[from length_ + 1];
      port ← to_u16 ptail;
      match parse_ip domain with
      | Some ip => Some (inl ((length_ + 3)%nat, Endpoint (mkSocketAddr ip port)))
      | None => Some (inl ((length_ + 3)%nat, Domain domain port))
      end
  else if atyp =? IPV6 then
    if (length buffer <? 18)%nat then Some (inr tt)
    else
      addr ← ipv6_from_bytes buffer;
      ptail ← buffer.[from 16%nat];
      port ← to_u16 ptail;
      Some (inl (18%nat, Endpoint (mkSocketAddr (V6 addr) port)))
  else Some (inr tt).

(** ** Writing an address *)

(** [Sock5Address::generate] and [generate_endpoint] (the two types hold the
    same octets and port). *)
Definition generate_address (address : SocketAddr) : bytes :=
  match sa_ip address with
  | V4 o => [IPV4] ++ o
  | V6 o => [IPV6] ++ o
  end ++ u16_be (sa_port address).

Definition generate_address_endpoint (endpoint : SocketAddr) : bytes :=
  match sa_ip endpoint with
  | V4 v4 => [IPV4] ++ v4
  | V6 v6 => [IPV6] ++ v6
  end ++ u16_be (sa_port endpoint).

(** ** The request *)

Module TrojanRequest.

Record t : Type := mk {
  command : Z;
  address : Sock5Address;
  payload : bytes;
  offset : nat
}.

Inductive RequestParseResult : Type :=
  | Request (r : t)
  | InvalidProtocol
  | PassThrough
  | Continue.

(** The part of [parse] after the command: the address and the closing CRLF. *)
Definition parse_target (command atyp : Z) (buffer : bytes) (offset : nat)
  : option RequestParseResult :=
  r ← parse_address atyp buffer;
  match r with
  | AddressContinue => Some Continue
  | Address size address =>
      buffer ← buffer.[from size];
      let offset := (offset + size)%nat in
      b0 ← buffer.[0%nat];
      crlf_bad ← (if negb (b0 =? CR) then Some true
                  else b1 ← buffer.[1%nat]; Some (negb (b1 =? LF)));
      if (crlf_bad : bool) then Some InvalidProtocol
      else
        payload ← buffer.[from 2%nat];
        Some (Request (mk command address payload (offset + 2)))
  | AddressInvalidProtocol => Some InvalidProtocol
  end.

Definition parse (OPTIONS : Opts) (buffer : bytes) : option RequestParseResult :=
  if (length buffer <? pass_len OPTIONS)%nat then
    if contains HTTP (from_utf8_lossy buffer) then Some PassThrough else Some Continue
  else
    head ← buffer.[upto pass_len OPTIONS];
    let pass := from_utf8_lossy head in
    match check_pass OPTIONS pass with
    | None => Some PassThrough
    | Some _ =>
        buffer ← buffer.[from pass_len OPTIONS];
        let offset := pass_len OPTIONS in
        if (length buffer <? 2)%nat then Some Continue
        else
          b0 ← buffer.[0%nat];
          b1 ← buffer.[1%nat];
          if negb (b0 =? CR) || negb (b1 =? LF) then Some InvalidProtocol
          else
            buffer ← buffer.[from 2%nat];
            let offset := (offset + 2)%nat in
            if (length buffer <? 3)%nat then Some Continue
            else
              command ← buffer.[0%nat];
              if negb (command =? CONNECT) && negb (command =? UDP_ASSOCIATE)
                 && negb (command =? PING)
              then Some InvalidProtocol
              else
                atyp ← buffer.[1%nat];
                buffer ← buffer.[from 2%nat];
                parse_target command atyp buffer (offset + 2)
    end.

Definition generate (OPTIONS : Opts) (cmd : Z) (addr : SocketAddr) : bytes :=
  get_pass OPTIONS ++ [CR; LF; cmd] ++ generate_address addr ++ [CR; LF].

Definition generate_endpoint (OPTIONS : Opts) (cmd : Z) (addr : SocketAddr) : bytes :=
  get_pass OPTIONS ++ [CR; LF; cmd] ++ generate_address_endpoint addr ++ [CR; LF].

End TrojanRequest.

(** ** UDP packets *)

Module UdpAssociate.

Record t : Type := mk {
  address : Sock5Address;
  offset : nat;
  length_ : nat;
  payload : bytes
}.

Inductive UdpParseResult : Type :=
  | Packet (p : t)
  | InvalidProtocol
  | Continued.

(** [UdpAssociateEndpoint] has the endpoint itself as its address. *)
Record tEndpoint : Type := mkEndpoint {
  endpoint : SocketAddr;
  e_length : nat;
  e_offset : nat;
  e_payload : bytes
}.

Inductive UdpParseResultEndpoint : Type :=
  | PacketEndpoint (p : tEndpoint)
  | InvalidProtocolEndpoint
  | ContinuedEndpoint.

Definition parse (buffer : bytes) : option UdpParseResult :=
  if (length buffer <? 1)%nat then Some Continued
  else
    atyp ← buffer.[0%nat];
    buffer ← buffer.[from 1%nat];
    r ← parse_address atyp buffer;
    match r with
    | Address size address =>
        buffer ← buffer.[from size];
        let offset := (1 + size)%nat in
        if (length buffer <? 4)%nat then Some Continued
        else
          len ← to_u16 buffer;
          let length_ := Z.to_nat len in
          if (MAX_PACKET_SIZE <? length_)%nat then Some InvalidProtocol
          else if (length buffer <? length_ + 4)%nat then Some Continued
          else
            b2 ← buffer.[2%nat];
            b3 ← buffer.[3%nat];
            if negb (b2 =? CR) || negb (b3 =? LF) then Some InvalidProtocol
            else
              payload ← buffer.[from 4%nat];
              Some (Packet (mk address (offset + (4 + length_)) length_ payload))
    | AddressInvalidProtocol => Some InvalidProtocol
    | AddressContinue => Some Continued
    end.

Definition parse_endpoint `{Ipv6FromBytes} (buffer : bytes) : option UdpParseResultEndpoint :=
  if (length buffer <? 11)%nat then Some ContinuedEndpoint
  else
    atyp ← buffer.[0%nat];
    buffer ← buffer.[from 1%nat];
    r ← parse_address_endpoint atyp buffer;
    match r with
    | inl (size, addr) =>
        buffer ← buffer.[from size];
        let offset := (1 + size)%nat in
        if (length buffer <? 4)%nat then Some ContinuedEndpoint
        else
          len ← to_u16 buffer;
          let length_ := Z.to_nat len in
          if (MAX_PACKET_SIZE <? length_)%nat then Some InvalidProtocolEndpoint
          else if (length buffer <? length_ + 4)%nat then Some ContinuedEndpoint
          else
            b2 ← buffer.[2%nat];
            b3 ← buffer.[3%nat];
            if negb (b2 =? CR) || negb (b3 =? LF) then Some InvalidProtocolEndpoint
            else
              let offset := (offset + (length_ + 4))%nat in
              match addr with
              | Endpoint endpoint =>
                  payload ← buffer.[from 4%nat];
                  Some (PacketEndpoint (mkEndpoint endpoint length_ offset payload))
              | _ => Some InvalidProtocolEndpoint
              end
    | inr _ => Some InvalidProtocolEndpoint
    end.

Definition generate (addr : SocketAddr) (len : Z) : bytes :=
  generate_address addr ++ u16_be len ++ [CR; LF].

Definition generate_endpoint (e : SocketAddr) (len : Z) : bytes :=
  generate_address_endpoint e ++ u16_be len ++ [CR; LF].

End UdpAssociate.

(** ** Lemmas *)

Lemma to_u16_cons a b rest : to_u16 (a :: b :: rest) = Some (Z.lor (Z.shiftl a 8) b).
Proof. reflexivity. Qed.

Lemma to_u16_be p rest : to_u16 (u16_be p ++ rest) = Some p.
Proof. unfold to_u16; simpl. by rewrite u16_split. Qed.

Lemma to_u16_Some b : (2 <= length b)%nat → ∃ p, to_u16 b = Some p.
Proof. destruct b as [|x [|y b]]; simpl; intros; [lia..|]. eexists. reflexivity. Qed.

(** Enumerate the cells of a list of known length. *)
Ltac destruct_list_of_length o Ho :=
  repeat (destruct o as [|? o]; simpl in Ho; [try discriminate Ho|try discriminate Ho]).

Ltac inv_wf_bytes :=
  repeat match goal with
         | H : wf_bytes (_ :: _) |- _ =>
             let Hx := fresh "Hx" in apply wf_bytes_cons in H as [Hx H]
         end.

Lemma u16_be_pair p : ∃ h l, u16_be p = [h; l] ∧ Z.lor (Z.shiftl h 8) l = p.
Proof. exists (Z.shiftr p 8), (Z.land p 255). split; [done|apply u16_split]. Qed.

#[local] Opaque u16_be.

(** What [generate_address] writes is read back by [parse_address], whatever
    follows; every strict prefix of it asks for more. *)
Lemma parse_address_generate a :
  wf_sa a →
  ∃ atyp body, generate_address a = atyp :: body
    ∧ (∀ rest, parse_address atyp (body ++ rest)
               = Some (Address (length body) (Socket a)))
    ∧ (∀ n, (n < length body)%nat →
            parse_address atyp (take n body) = Some AddressContinue).
Proof.
  unfold generate_address.
  destruct a as [[o|o] port]; intros [[Hlen Hwf] Hport]; simpl in *;
    destruct (u16_be_pair port) as (h & l & Hp & Hport'); rewrite Hp;
    destruct_list_of_length o Hlen; inv_wf_bytes.
  - eexists IPV4, _. split_and!; [done|..].
    + intros rest. unfold parse_address. simpl. by rewrite Hport'.
    + intros n Hn. simpl in Hn. unfold parse_address.
      change (IPV4 =? IPV4) with true. cbv iota. rewrite length_take. simpl. by nat_leb.
  - eexists IPV6, _. split_and!; [done|..].
    + intros rest. unfold parse_address. simpl. rewrite Hport'. unfold ipv6_new.
      cbn [fmap list_fmap mjoin list_join]. by rewrite !u16_be_join.
    + intros n Hn. simpl in Hn. unfold parse_address.
      change (IPV6 =? IPV4) with false. change (IPV6 =? DOMAIN) with false.
      change (IPV6 =? IPV6) with true. cbv iota. rewrite length_take. simpl. by nat_leb.
Qed.

Lemma to_u16_app a b : (2 <= length a)%nat → to_u16 (a ++ b) = to_u16 a.
Proof. intros H. unfold to_u16. by rewrite !at_app_l by lia. Qed.

Lemma read_segments_app n i a b :
  (i + 2 * n <= length a)%nat → read_segments n i (a ++ b) = read_segments n i a.
Proof.
  revert i. induction n as [|n IH]; intros i Hi; [done|]. cbn [read_segments].
  rewrite slice_from_app_l, slice_from_le by lia. simpl.
  rewrite to_u16_app by (rewrite length_drop; lia). by rewrite IH by lia.
Qed.

Lemma read_segments_total n i a :
  (i + 2 * n <= length a)%nat → is_Some (read_segments n i a).
Proof.
  revert i. induction n as [|n IH]; intros i Hi; [by eexists|]. cbn [read_segments].
  rewrite slice_from_le by lia. simpl.
  destruct (to_u16_Some (drop i a)) as [p ->]; [rewrite length_drop; lia|]. simpl.
  destruct (IH (i + 2)%nat) as [segs ->]; [lia|]. by eexists.
Qed.

(** Step through the reads of a parser whose bounds are known. *)
Ltac read_step :=
  first
    [ match goal with
      | |- context [ ?b.[?i] ] =>
          let x := fresh "x" in let Hx := fresh "Hx" in
          destruct (at_is_Some b i ltac:(rewrite ?length_drop; lia)) as [x Hx]; rewrite Hx
      end
    | match goal with
      | |- context [ ?b.[from ?i] ] =>
          rewrite (slice_from_le b i) by (rewrite ?length_drop; lia)
      | |- context [ ?b.[between ?i & ?j] ] =>
          rewrite (slice_le b i j) by (rewrite ?length_drop; lia)
      end
    | match goal with
      | |- context [to_u16 ?b] =>
          let p := fresh "p" in let Hp := fresh "Hp" in
          destruct (to_u16_Some b ltac:(rewrite ?length_drop; lia)) as [p Hp]; rewrite Hp
      end
    | match goal with
      | |- context [read_segments ?n ?i ?b] =>
          let p := fresh "segs" in let Hp := fresh "Hsegs" in
          destruct (read_segments_total n i b ltac:(lia)) as [p Hp]; rewrite Hp
      end ]; cbn [mbind option_bind].

(** The outcome of [parse_address], by the type octet. *)
Inductive address_outcome (atyp : Z) (b : bytes) : option AddressParseResult → Prop :=
  | ao_panic : atyp = DOMAIN → b = [] → address_outcome atyp b None
  | ao_continue : (atyp = IPV4 ∧ length b < 6)%nat ∨ (atyp = IPV6 ∧ length b < 18)%nat
      ∨ (atyp = DOMAIN ∧ ∃ l, b.[0%nat] = Some l ∧ length b < Z.to_nat l + 3)%nat →
      address_outcome atyp b (Some AddressContinue)
  | ao_invalid : atyp ≠ IPV4 → atyp ≠ DOMAIN → atyp ≠ IPV6 →
      address_outcome atyp b (Some AddressInvalidProtocol)
  | ao_address n a : (3 <= n <= length b)%nat →
      (atyp = DOMAIN ∨ ∃ s, a = Socket s) →
      address_outcome atyp b (Some (Address n a)).

Lemma parse_address_outcome atyp b : address_outcome atyp b (parse_address atyp b).
Proof.
  unfold parse_address.
  destruct (Z.eqb_spec atyp IPV4) as [->|H4].
  { destruct (Nat.ltb_spec (length b) 6) as [Hl|Hl]; [constructor; auto|].
    repeat read_step. constructor; [lia|]. right. by eexists. }
  destruct (Z.eqb_spec atyp DOMAIN) as [->|H3].
  { destruct b as [|l b']; [by constructor|].
    change ((l :: b').[0%nat]) with (Some l). cbn [mbind option_bind].
    set (b := l :: b') in *.
    destruct (Nat.ltb_spec (length b) (Z.to_nat l + 3)) as [Hl|Hl].
    { constructor. right. right. split; [done|]. exists l. done. }
    repeat read_step. case_match; constructor; auto; lia. }
  destruct (Z.eqb_spec atyp IPV6) as [->|H6].
  { destruct (Nat.ltb_spec (length b) 18) as [Hl|Hl]; [constructor; auto|].
    repeat read_step. constructor; [lia|]. right. by eexists. }
  by constructor.
Qed.

Lemma parse_address_app atyp b r :
  match parse_address atyp b with
  | Some (Address n a) => parse_address atyp (b ++ r) = Some (Address n a)
  | Some AddressInvalidProtocol => parse_address atyp (b ++ r) = Some AddressInvalidProtocol
  | _ => True
  end.
Proof.
  unfold parse_address.
  destruct (Z.eqb_spec atyp IPV4) as [->|H4].
  { rewrite length_app.
    destruct (Nat.ltb_spec (length b) 6) as [Hl|Hl]; [done|].
    rewrite (proj2 (Nat.ltb_ge (length b + length r) 6)) by lia.
    rewrite slice_from_app_l, (slice_from_le b) by lia. cbn [mbind option_bind].
    rewrite to_u16_app by (rewrite length_drop; lia).
    rewrite !at_app_l by lia. by repeat read_step. }
  destruct (Z.eqb_spec atyp DOMAIN) as [->|H3].
  { destruct b as [|l b']; [done|].
    rewrite (at_app_l (l :: b') r 0) by (simpl; lia).
    change ((l :: b').[0%nat]) with (Some l). cbn [mbind option_bind].
    set (b := l :: b') in *. rewrite length_app.
    destruct (Nat.ltb_spec (length b) (Z.to_nat l + 3)) as [Hl|Hl]; [done|].
    rewrite (proj2 (Nat.ltb_ge (length b + length r) (Z.to_nat l + 3))) by lia.
    rewrite slice_app_l, slice_from_app_l, (slice_from_le b), (slice_le b) by lia.
    cbn [mbind option_bind]. rewrite to_u16_app by (rewrite length_drop; lia).
    repeat read_step. by destruct (parse_ip _). }
  destruct (Z.eqb_spec atyp IPV6) as [->|H6]; [|done].
  rewrite length_app.
  destruct (Nat.ltb_spec (length b) 18) as [Hl|Hl]; [done|].
  rewrite (proj2 (Nat.ltb_ge (length b + length r) 18)) by lia.
  rewrite read_segments_app, slice_from_app_l, (slice_from_le b) by lia.
  destruct (read_segments_total 8 0 b) as [segs ->]; [lia|]. cbn [mbind option_bind].
  rewrite to_u16_app by (rewrite length_drop; lia). by repeat read_step.
Qed.

Lemma parse_address_total atyp b :
  parse_address atyp b = None → atyp = DOMAIN ∧ b = [].
Proof. destruct (parse_address_outcome atyp b); done. Qed.

(** ** Properties of requests *)

Module RequestProps.
  Import TrojanRequest.

Lemma parse_short o b :
  (length b < pass_len o)%nat → parse o b ≠ None.
Proof.
  intros H. unfold parse. rewrite (proj2 (Nat.ltb_lt _ _) H). by case_match.
Qed.

(** The password check, on any buffer long enough. *)
Lemma parse_head o b :
  OptsOk o → (pass_len o <= length b)%nat →
  take (pass_len o) b ≠ sha_pass o → parse o b = Some PassThrough.
Proof.
  intros Ho Hl Hne. unfold parse. rewrite (proj2 (Nat.ltb_ge _ _) Hl).
  rewrite slice_to_le by done. cbn [mbind option_bind].
  rewrite check_pass_lossy, bool_decide_eq_false_2 by done. done.
Qed.

(** After the right password, [parse] is a function of the rest. *)
Lemma parse_authenticated o rest :
  OptsOk o →
  parse o (sha_pass o ++ rest) =
    if (length rest <? 2)%nat then Some Continue
    else
      b0 ← rest.[0%nat]; b1 ← rest.[1%nat];
      if negb (b0 =? CR) || negb (b1 =? LF) then Some InvalidProtocol
      else
        rest' ← rest.[from 2%nat];
        if (length rest' <? 3)%nat then Some Continue
        else
          command ← rest'.[0%nat];
          if negb (command =? CONNECT) && negb (command =? UDP_ASSOCIATE)
             && negb (command =? PING)
          then Some InvalidProtocol
          else
            atyp ← rest'.[1%nat];
            rest'' ← rest'.[from 2%nat];
            parse_target command atyp rest'' (pass_len o + 2 + 2).
Proof.
  intros Ho. unfold parse. rewrite pass_len_eq.
  rewrite (proj2 (Nat.ltb_ge _ _)) by (rewrite length_app; lia).
  rewrite slice_to_app. cbn [mbind option_bind].
  rewrite check_pass_lossy, bool_decide_eq_true_2 by done.
  by rewrite slice_from_app.
Qed.

Definition valid_command (c : Z) : Prop := c = CONNECT ∨ c = PING ∨ c = UDP_ASSOCIATE.

#[export] Instance valid_command_dec c : Decision (valid_command c).
Proof. unfold valid_command. apply _. Defined.

Lemma valid_command_spec c :
  negb (c =? CONNECT) && negb (c =? UDP_ASSOCIATE) && negb (c =? PING) = false
    ↔ valid_command c.
Proof.
  unfold valid_command.
  rewrite !andb_false_iff, !negb_false_iff, !Z.eqb_eq. tauto.
Qed.

Lemma parse_target_reached o cmd atyp body :
  OptsOk o → valid_command cmd → (1 <= length body)%nat →
  parse o (sha_pass o ++ [CR; LF; cmd; atyp] ++ body)
    = parse_target cmd atyp body (pass_len o + 2 + 2).
Proof.
  intros Ho Hc Hb. rewrite parse_authenticated by done.
  destruct body as [|x body]; [simpl in Hb; lia|].
  apply valid_command_spec in Hc. simpl. by rewrite Hc.
Qed.

(** The outcome of [parse] on a request followed by anything. *)
Lemma parse_generate o cmd a p :
  OptsOk o → valid_command cmd → wf_sa a →
  parse o (generate o cmd a ++ p)
    = Some (Request (mk cmd (Socket a) p (length (generate o cmd a)))).
Proof.
  intros Ho Hc Ha.
  destruct (parse_address_generate a Ha) as (atyp & body & Hg & Hp & _).
  unfold generate, get_pass. rewrite Hg, <-!app_assoc.
  change (([CR; LF; cmd] ++ (atyp :: body) ++ [CR; LF] ++ p))
    with ([CR; LF; cmd; atyp] ++ body ++ [CR; LF] ++ p).
  rewrite parse_target_reached by (try done; rewrite ?length_app; simpl; lia).
  unfold parse_target. rewrite Hp. cbn [mbind option_bind].
  rewrite slice_from_app. simpl. do 3 f_equal. rewrite !length_app. simpl.
  rewrite length_app, pass_len_eq. simpl. lia.
Qed.

(** C38: what [TrojanRequest::generate] writes, [TrojanRequest::parse] reads
    back: command, address and the bytes that follow, with the request's
    length as the offset. *)
Theorem request_roundtrip o cmd a p :
  OptsOk o → valid_command cmd → wf_sa a →
  parse o (generate o cmd a ++ p)
    = Some (Request (mk cmd (Socket a) p (length (generate o cmd a)))).
Proof. apply parse_generate. Qed.

(** Inversion of a successful or panicking [parse]. *)
Lemma parse_reaches_target o b :
  OptsOk o →
  (∃ res, parse o b = Some res ∧ ∀ r, res ≠ Request r)
  ∨ ∃ cmd atyp body, b = sha_pass o ++ [CR; LF; cmd; atyp] ++ body
      ∧ (1 <= length body)%nat ∧ valid_command cmd
      ∧ parse o b = parse_target cmd atyp body (pass_len o + 2 + 2).
Proof.
  intros Ho.
  destruct (Nat.lt_ge_cases (length b) (pass_len o)) as [Hl|Hl].
  { left. unfold parse. rewrite (proj2 (Nat.ltb_lt _ _) Hl).
    case_match; by eexists. }
  destruct (decide (take (pass_len o) b = sha_pass o)) as [He|Hne].
  2: { left. exists PassThrough. split; [by apply parse_head|done]. }
  assert (b = sha_pass o ++ drop (pass_len o) b) as Hb.
  { by rewrite <-He, take_drop. }
  revert Hb. generalize (drop (pass_len o) b). intros rest ->.
  rewrite parse_authenticated by done.
  destruct rest as [|x [|y rest]]; [left; by eexists..|]. simpl.
  destruct (negb (x =? CR) || negb (y =? LF)) eqn:E; [left; by eexists|].
  apply orb_false_iff in E as [Ex%negb_false_iff%Z.eqb_eq Ey%negb_false_iff%Z.eqb_eq].
  destruct rest as [|c [|t [|z rest]]]; [left; by eexists..|]. simpl.
  destruct (_ && _ && _) eqn:E; [left; by eexists|].
  right. exists c, t, (z :: rest). subst. split_and!; [done|simpl; lia| |done].
  by apply valid_command_spec.
Qed.

(** What [parse] says without the password. *)
Lemma parse_unauthenticated o b :
  OptsOk o → take (pass_len o) b ≠ sha_pass o →
  parse o b = Some PassThrough ∨ parse o b = Some Continue.
Proof.
  intros Ho Hne. destruct (Nat.lt_ge_cases (length b) (pass_len o)) as [Hl|Hl].
  - unfold parse. rewrite (proj2 (Nat.ltb_lt _ _) Hl). case_match; auto.
  - left. by apply parse_head.
Qed.

(** A buffer whose first [pass_len] bytes are not the password digest
    never panics the parser and never yields a request. *)
Theorem unauthenticated_safe o b :
  OptsOk o → take (pass_len o) b ≠ sha_pass o →
  parse o b = Some PassThrough ∨ parse o b = Some Continue.
Proof. apply parse_unauthenticated. Qed.

(** What an accepted request is made of. *)
Lemma parse_request_inv o b r :
  OptsOk o → parse o b = Some (Request r) →
  take (pass_len o) b = sha_pass o
  ∧ valid_command (command r)
  ∧ b.[(pass_len o + 2)%nat] = Some (command r)
  ∧ (offset r <= length b)%nat
  ∧ payload r = drop (offset r) b.
Proof.
  intros Ho Hp. destruct (parse_reaches_target o b Ho)
    as [(res & Hr & Hn)|(cmd & atyp & body & -> & Hb & Hc & Hr)].
  { rewrite Hr in Hp. injection Hp as ->. by destruct (Hn r). }
  rewrite Hr in Hp. clear Hr. unfold parse_target in Hp.
  destruct (parse_address_outcome atyp body) as [| | |n a Hn _]; try done.
  simpl in Hp. rewrite slice_from_le in Hp by lia.
  destruct (drop n body) as [|x rest] eqn:Hd; [done|]. simpl in Hp.
  destruct (negb (x =? CR)); [done|]. destruct rest as [|y rest]; [done|]. simpl in Hp.
  destruct (negb (y =? LF)); [done|]. injection Hp as <-. simpl.
  rewrite pass_len_eq, take_app_length. split_and!; [done..| | |].
  - unfold at_. rewrite lookup_app_r by lia.
    by replace (length (sha_pass o) + 2 - length (sha_pass o))%nat with 2%nat by lia.
  - assert (length (drop n body) = S (S (length rest))) as Hl by (by rewrite Hd).
    rewrite length_drop in Hl. rewrite length_app. simpl. lia.
  - change (sha_pass o ++ CR :: LF :: cmd :: atyp :: body)
      with (sha_pass o ++ [CR; LF; cmd; atyp] ++ body).
    rewrite app_assoc, drop_app_ge by (rewrite length_app; simpl; lia).
    rewrite length_app. simpl.
    replace (_ - _)%nat with (n + 2)%nat by lia.
    by rewrite <-drop_drop, Hd.
Qed.

(** Soundness of an accepted request: the buffer starts with the
    password, CRLF and the command, the command is one of the three, and the
    payload is exactly what follows [offset]. *)
Theorem request_sound o b r :
  OptsOk o → parse o b = Some (Request r) →
  take (pass_len o) b = sha_pass o
  ∧ valid_command (command r)
  ∧ b.[(pass_len o + 2)%nat] = Some (command r)
  ∧ (offset r <= length b)%nat
  ∧ payload r = drop (offset r) b.
Proof. apply parse_request_inv. Qed.

Lemma parse_prefix o cmd a n :
  OptsOk o → valid_command cmd → wf_sa a →
  (n < length (generate o cmd a))%nat →
  parse o (take n (generate o cmd a)) =
    if (n + 2 <? length (generate o cmd a))%nat then Some Continue else None.
Proof.
  intros Ho Hc Ha.
  destruct (parse_address_generate a Ha) as (atyp & body & Hg & Hp & Hcut).
  unfold generate, get_pass. rewrite Hg, !length_app. simpl.
  intros Hn. destruct (Nat.lt_ge_cases n (pass_len o)) as [Hl|Hl].
  { rewrite pass_len_eq in Hl. rewrite take_app_le by lia.
    rewrite (proj2 (Nat.ltb_lt (n + 2) _)) by lia. unfold parse.
    rewrite (proj2 (Nat.ltb_lt _ _)) by (rewrite length_take, pass_len_eq; lia).
    rewrite from_utf8_lossy_ascii by (apply is_hex_ascii, is_hex_take, Ho).
    unfold HTTP. by rewrite is_hex_no_H by (apply is_hex_take, Ho). }
  assert (1 <= length body)%nat as Hb.
  { specialize (Hp []). rewrite app_nil_r in Hp.
    destruct (parse_address_outcome atyp body); simplify_eq; lia. }
  rewrite pass_len_eq in Hl. rewrite take_app_ge by lia.
  destruct (n - length (sha_pass o))%nat as [|[|[|[|[|k]]]]] eqn:Hk;
    try (rewrite parse_authenticated, (proj2 (Nat.ltb_lt (n + 2) _)) by (done || lia);
         done).
  change (take (S (S (S (S (S k))))) (CR :: LF :: cmd :: atyp :: body ++ [CR; LF]))
    with ([CR; LF; cmd; atyp] ++ take (S k) (body ++ [CR; LF])).
  rewrite parse_target_reached
    by (try done; rewrite ?length_take, ?length_app; cbn [length]; lia).
  unfold parse_target.
  destruct (Nat.lt_ge_cases (S k) (length body)) as [Hkb|Hkb].
  { rewrite take_app_le, Hcut by lia. simpl.
    by rewrite (proj2 (Nat.ltb_lt (n + 2) _)) by lia. }
  rewrite take_app_ge, Hp, (proj2 (Nat.ltb_ge (n + 2) _)) by lia.
  cbn [mbind option_bind]. rewrite slice_from_app.
  destruct (S k - length body)%nat as [|[|j]] eqn:Hj; [done|done|lia].
Qed.

(** A request cut before its end asks for more data at every length but
    the last two: cut inside the final CRLF, [parse] indexes past the end of
    the buffer and panics. *)
Theorem request_prefix o cmd a n :
  OptsOk o → valid_command cmd → wf_sa a →
  (n < length (generate o cmd a))%nat →
  parse o (take n (generate o cmd a)) =
    if (n + 2 <? length (generate o cmd a))%nat then Some Continue else None.
Proof. apply parse_prefix. Qed.
End RequestProps.

(** ** Properties of UDP packets *)

Module UdpProps.
  Import UdpAssociate.

Lemma parse_nonempty atyp b :
  parse (atyp :: b) =
    r ← parse_address atyp b;
    match r with
    | Address size address =>
        buffer ← b.[from size];
        if (length buffer <? 4)%nat then Some Continued
        else
          len ← to_u16 buffer;
          if (MAX_PACKET_SIZE <? Z.to_nat len)%nat then Some InvalidProtocol
          else if (length buffer <? Z.to_nat len + 4)%nat then Some Continued
          else
            b2 ← buffer.[2%nat];
            b3 ← buffer.[3%nat];
            if negb (b2 =? CR) || negb (b3 =? LF) then Some InvalidProtocol
            else
              payload ← buffer.[from 4%nat];
              Some (Packet (mk address (1 + size + (4 + Z.to_nat len)) (Z.to_nat len) payload))
    | AddressInvalidProtocol => Some InvalidProtocol
    | AddressContinue => Some Continued
    end.
Proof. reflexivity. Qed.

(** The part of [parse] after the address: length, CRLF and data. *)
Lemma parse_tail_total size address (buffer : bytes) :
  (4 <= length buffer)%nat →
  (len ← to_u16 buffer;
   if (MAX_PACKET_SIZE <? Z.to_nat len)%nat then Some InvalidProtocol
   else if (length buffer <? Z.to_nat len + 4)%nat then Some Continued
   else
     b2 ← buffer.[2%nat];
     b3 ← buffer.[3%nat];
     if negb (b2 =? CR) || negb (b3 =? LF) then Some InvalidProtocol
     else
       payload ← buffer.[from 4%nat];
       Some (Packet (mk address (1 + size + (4 + Z.to_nat len)) (Z.to_nat len) payload)))
  ≠ None.
Proof.
  intros H. destruct buffer as [|h [|l [|c [|f rest]]]]; simpl in H; try lia.
  simpl. repeat case_match; done.
Qed.

(** The parser of UDP packets panics on exactly one input: the single
    byte 3, a domain address cut before its length octet. *)
Theorem udp_parse_panics_iff b : parse b = None ↔ b = [DOMAIN].
Proof.
  split; [|by intros ->]. destruct b as [|atyp b]; [done|].
  rewrite parse_nonempty. intros H.
  destruct (parse_address_outcome atyp b) as [Ht Hb| | |n a Hn _];
    [by rewrite Ht, Hb|done|done|].
  simpl in H. rewrite slice_from_le in H by lia. simpl in H.
  destruct (Nat.ltb_spec (length (drop n b)) 4) as [|Hl]; [done|].
  by apply parse_tail_total in H.
Qed.

(** Where an accepted packet lies. *)
Lemma packet_bounds b p :
  parse b = Some (Packet p) →
  (length_ p <= MAX_PACKET_SIZE)%nat
  ∧ (length_ p + 8 <= offset p <= length b)%nat
  ∧ payload p = drop (offset p - length_ p) b
  ∧ drop (length_ p) (payload p) = drop (offset p) b.
Proof.
  destruct b as [|atyp b]; [done|]. rewrite parse_nonempty. intros H.
  destruct (parse_address_outcome atyp b) as [| | |n a Hn _]; try done.
  simpl in H. rewrite slice_from_le in H by lia. simpl in H.
  destruct (drop n b) as [|h [|l [|c [|f rest]]]] eqn:Hd; try done. simpl in H.
  destruct (Nat.ltb_spec MAX_PACKET_SIZE (Z.to_nat (Z.lor (h ≪ 8) l))) as [|Hmax]; [done|].
  destruct (Nat.ltb_spec (S (S (S (S (length rest))))) (Z.to_nat (Z.lor (h ≪ 8) l) + 4))
    as [|Hlen]; [done|].
  destruct (negb (c =? CR) || negb (f =? LF)); [done|]. injection H as <-. simpl.
  set (len := Z.to_nat (Z.lor (h ≪ 8) l)) in *.
  assert (length (drop n b) = S (S (S (S (length rest))))) as Hl by (by rewrite Hd).
  rewrite length_drop in Hl.
  assert (rest = drop (n + 4) b) as Hrest by (by rewrite <-drop_drop, Hd).
  split_and!; [done|lia|lia| |].
  - replace (S (n + S (S (S (S len)))) - len)%nat with (S (n + 4)) by lia. done.
  - rewrite drop_0, Hrest, drop_drop. f_equal. simpl. lia.
Qed.

Lemma parse_bounds b p :
  parse b = Some (Packet p) → (length_ p <= length (payload p))%nat ∧ (offset p <= length b)%nat.
Proof.
  intros (_ & [H1 H2] & -> & _)%packet_bounds. rewrite length_drop. lia.
Qed.

(** An accepted packet lies inside the buffer: its data fits in
    [MAX_PACKET_SIZE], [offset] is where the next packet starts, and
    [payload] starts with the [length] bytes of data. *)
Theorem udp_parse_sound b p :
  parse b = Some (Packet p) →
  (length_ p <= MAX_PACKET_SIZE)%nat
  ∧ (length_ p + 8 <= offset p <= length b)%nat
  ∧ payload p = drop (offset p - length_ p) b
  ∧ drop (length_ p) (payload p) = drop (offset p) b.
Proof. apply packet_bounds. Qed.

(** The outcome of [parse] on one complete packet followed by anything. *)
Lemma udp_parse_generate a data rest :
  wf_sa a → (length data <= MAX_PACKET_SIZE)%nat →
  parse (generate a (Z.of_nat (length data)) ++ data ++ rest)
    = Some (Packet (mk (Socket a)
              (length (generate a (Z.of_nat (length data))) + length data)
              (length data) (data ++ rest))).
Proof.
  intros Ha Hd. destruct (parse_address_generate a Ha) as (atyp & body & Hg & Hp & _).
  unfold generate. rewrite Hg, <-!app_assoc. simpl.
  rewrite parse_nonempty, Hp. cbn [mbind option_bind].
  rewrite slice_from_app. cbn [mbind option_bind].
  destruct (u16_be_pair (Z.of_nat (length data))) as (h & l & Hbe & Hj).
  rewrite Hbe. simpl. rewrite Hj, Nat2Z.id.
  rewrite (proj2 (Nat.ltb_ge _ _)) by done.
  rewrite (proj2 (Nat.ltb_ge _ _)) by (rewrite length_app; lia). simpl.
  do 3 f_equal. rewrite length_app. simpl. lia.
Qed.

(** A packet longer than the protocol allows is an error as soon as its length
    has been read. *)
Lemma parse_oversized a data rest :
  wf_sa a → (MAX_PACKET_SIZE < length data)%nat →
  parse (generate a (Z.of_nat (length data)) ++ data ++ rest) = Some InvalidProtocol.
Proof.
  intros Ha Hd. destruct (parse_address_generate a Ha) as (atyp & body & Hg & Hp & _).
  unfold generate. rewrite Hg, <-!app_assoc. simpl.
  rewrite parse_nonempty, Hp. cbn [mbind option_bind].
  rewrite slice_from_app. cbn [mbind option_bind].
  destruct (u16_be_pair (Z.of_nat (length data))) as (h & l & Hbe & Hj).
  rewrite Hbe. simpl. rewrite Hj, Nat2Z.id.
  by rewrite (proj2 (Nat.ltb_lt _ _)) by lia.
Qed.

(** Framing a datagram and parsing the frame gives the datagram back,
    with [offset] pointing at the bytes that follow. *)
Theorem udp_roundtrip a data rest :
  wf_sa a → (length data <= MAX_PACKET_SIZE)%nat →
  ∃ p, parse (generate a (Z.of_nat (length data)) ++ data ++ rest) = Some (Packet p)
    ∧ address p = Socket a
    ∧ take (length_ p) (payload p) = data
    ∧ drop (length_ p) (payload p) = rest
    ∧ drop (offset p) (generate a (Z.of_nat (length data)) ++ data ++ rest) = rest.
Proof.
  intros Ha Hd. eexists. split; [by apply udp_parse_generate|]. simpl.
  rewrite take_app_length, drop_app_length, app_assoc, <-length_app.
  by rewrite drop_app_length.
Qed.

(** A strict prefix of an encoded datagram is incomplete. *)
Lemma udp_prefix_continues a data n :
  wf_sa a → (length data <= MAX_PACKET_SIZE)%nat →
  (n < length (generate a (Z.of_nat (length data)) ++ data))%nat →
  parse (take n (generate a (Z.of_nat (length data)) ++ data)) = Some Continued.
Proof.
  intros Ha Hd.
  destruct (parse_address_generate a Ha) as (atyp & body & Hg & Hp & Hcut).
  unfold generate. rewrite Hg, <-!app_assoc. simpl.
  destruct (u16_be_pair (Z.of_nat (length data))) as (h & l & Hbe & Hj). rewrite Hbe.
  rewrite length_app. simpl. intros Hn. destruct n as [|n]; [done|]. simpl.
  rewrite parse_nonempty. destruct (Nat.lt_ge_cases n (length body)) as [Hl|Hl].
  { by rewrite take_app_le, Hcut by lia. }
  rewrite take_app_ge, Hp by done. cbn [mbind option_bind]. rewrite slice_from_app.
  cbn [mbind option_bind].
  destruct (n - length body)%nat as [|[|[|[|k]]]] eqn:Hk; try done. simpl.
  rewrite Hj, Nat2Z.id. rewrite (proj2 (Nat.ltb_ge _ _)) by done.
  rewrite (proj2 (Nat.ltb_lt _ _)); [done|]. rewrite length_take. lia.
Qed.

(** Verdicts are stable: once [parse] has accepted or rejected a buffer,
    bytes that arrive later do not change the verdict (an accepted packet only
    sees its payload extended). *)
Theorem udp_parse_stable b r :
  match parse b with
  | Some (Packet p) =>
      parse (b ++ r) = Some (Packet (mk (address p) (offset p) (length_ p) (payload p ++ r)))
  | Some InvalidProtocol => parse (b ++ r) = Some InvalidProtocol
  | _ => True
  end.
Proof.
  destruct b as [|atyp b]; [done|]. simpl (_ ++ _). rewrite !parse_nonempty.
  pose proof (parse_address_app atyp b r) as Happ.
  destruct (parse_address_outcome atyp b) as [| | |n a Hn _];
    rewrite ?Happ; try done.
  cbn [mbind option_bind]. rewrite slice_from_app_l, slice_from_le by lia.
  cbn [mbind option_bind].
  destruct (drop n b) as [|h [|l [|c [|f rest]]]]; try done. simpl.
  destruct (Nat.ltb_spec MAX_PACKET_SIZE (Z.to_nat (Z.lor (h ≪ 8) l))) as [|Hmax]; [done|].
  rewrite length_app.
  destruct (Nat.ltb_spec (S (S (S (S (length rest))))) (Z.to_nat (Z.lor (h ≪ 8) l) + 4))
    as [|Hlen]; [done|].
  rewrite (proj2 (Nat.ltb_ge (S (S (S (S (length rest + length r))))) _)) by lia.
  by destruct (negb (c =? CR) || negb (f =? LF)).
Qed.
End UdpProps.

(** ** Types: what the parsers accept *)

Module AddressTypes.

Definition wf_address (a : Sock5Address) : Prop :=
  match a with
  | Endpoint e | Socket e => wf_sa e
  | Domain domain port => wf_bytes domain ∧ 0 ≤ port < 65536
  | NoAddress => True
  end.

Lemma at_byte b i x : wf_bytes b → b.[i] = Some x → 0 ≤ x < 256.
Proof. intros Hb Hi. by eapply (Forall_lookup_1 _ _ _ _ Hb). Qed.

Lemma to_u16_bounds b p : wf_bytes b → to_u16 b = Some p → 0 ≤ p < 65536.
Proof.
  intros Hb. unfold to_u16. intros (h & Hh & H)%bind_Some. apply bind_Some in H as (l & Hl & [= <-]).
  apply at_byte in Hh, Hl; try done. rewrite lor_shiftl_8 by done. lia.
Qed.

Lemma read_segments_wf n i b segs :
  wf_bytes b → read_segments n i b = Some segs → length segs = n ∧ wf_segs segs.
Proof.
  intros Hb. revert i segs. induction n as [|n IH]; intros i segs; cbn [read_segments].
  { intros [= <-]. split; [done|constructor]. }
  intros (tail & Ht & H)%bind_Some. apply bind_Some in H as (s & Hs & H).
  apply bind_Some in H as (rest & [Hl Hw]%IH & [= <-]). split; [simpl; lia|]. apply Forall_cons_2; [|done].
  eapply to_u16_bounds; [|done]. unfold slice_from in Ht. destruct (_ <=? _)%nat; [|done].
  injection Ht as <-. auto with trojan.
Qed.

Lemma slice_from_wf b i r : wf_bytes b → b.[from i] = Some r → wf_bytes r.
Proof. intros Hb. unfold slice_from. destruct (_ <=? _)%nat; [|done]. intros [= <-]. auto with trojan. Qed.

Lemma slice_wf b i j r : wf_bytes b → b.[between i & j] = Some r → wf_bytes r.
Proof. intros Hb. unfold slice. destruct (_ && _); [|done]. intros [= <-]. auto with trojan. Qed.

#[local] Hint Resolve slice_from_wf slice_wf to_u16_bounds at_byte : trojan.

Lemma parse_address_wf atyp b n a :
  wf_bytes b → parse_address atyp b = Some (Address n a) → wf_address a.
Proof.
  intros Hb. unfold parse_address. destruct (atyp =? IPV4); [|destruct (atyp =? DOMAIN); [|destruct (atyp =? IPV6); [|done]]].
  - destruct (_ <? _)%nat; [done|].
    intros (t & Ht & H)%bind_Some. apply bind_Some in H as (p & Hp & H).
    apply bind_Some in H as (x & Hx & H). apply bind_Some in H as (y & Hy & H).
    apply bind_Some in H as (z & Hz & H). apply bind_Some in H as (w & Hw & [= _ <-]).
    split; simpl; [|by eauto with trojan]. split; [done|].
    repeat apply Forall_cons_2; [by eauto with trojan..|by apply Forall_nil_2].
  - intros (l & Hl & H)%bind_Some. destruct (_ <? _)%nat; [done|].
    apply bind_Some in H as (raw & Hraw & H). apply bind_Some in H as (t & Ht & H).
    apply bind_Some in H as (p & Hp & H). assert (0 ≤ p < 65536) by eauto with trojan.
    destruct (parse_ip (from_utf8_lossy raw)) as [ip|] eqn:Hip; injection H as _ <-.
    + split; [by apply parse_ip_wf in Hip|done].
    + split; [|done]. apply from_utf8_lossy_wf. eauto with trojan.
  - destruct (_ <? _)%nat; [done|].
    intros (segs & Hs & H)%bind_Some. apply bind_Some in H as (t & Ht & H).
    apply bind_Some in H as (p & Hp & [= _ <-]). apply read_segments_wf in Hs as [Hl Hw]; [|done].
    split; [by apply ipv6_new_wf|by eauto with trojan].
Qed.

Lemma parse_udp_address_wf b p :
  wf_bytes b → UdpAssociate.parse b = Some (UdpAssociate.Packet p) → wf_address (UdpAssociate.address p).
Proof.
  intros Hb. unfold UdpAssociate.parse. destruct (_ <? _)%nat; [done|].
  intros (atyp & _ & H)%bind_Some. apply bind_Some in H as (b1 & Hb1 & H).
  apply bind_Some in H as (r & Hr & H). destruct r as [n a| |]; try done.
  apply bind_Some in H as (b2 & _ & H). destruct (_ <? _)%nat; [done|].
  apply bind_Some in H as (len & _ & H). destruct (_ <? _)%nat; [done|]. destruct (_ <? _)%nat; [done|].
  apply bind_Some in H as (c & _ & H). apply bind_Some in H as (f & _ & H). destruct (_ || _); [done|].
  apply bind_Some in H as (pay & _ & [= <-]). simpl. eapply parse_address_wf; [|done]. eauto with trojan.
Qed.

Lemma parse_request_address_wf o b r :
  OptsOk o → wf_bytes b → TrojanRequest.parse o b = Some (TrojanRequest.Request r) →
  wf_address (TrojanRequest.address r).
Proof.
  intros Ho Hb Hp. destruct (RequestProps.parse_reaches_target o b Ho)
    as [(res & Hr & Hn)|(cmd & atyp & body & -> & _ & _ & Hr)].
  { rewrite Hr in Hp. injection Hp as ->. by destruct (Hn r). }
  rewrite Hr in Hp. unfold TrojanRequest.parse_target in Hp.
  apply bind_Some in Hp as (x & Hx & H). destruct x as [n a| |]; try done.
  apply bind_Some in H as (b2 & _ & H). apply bind_Some in H as (c & _ & H).
  apply bind_Some in H as (bad & _ & H). destruct bad; [done|].
  apply bind_Some in H as (pay & _ & [= <-]). simpl. eapply parse_address_wf; [|done].
  by apply wf_bytes_app in Hb as [_ [_ Hb]%wf_bytes_app].
Qed.

(** C30: types: from bytes the two parsers only make values of the right shape:
    an address has 4 or 16 octets and a 16-bit port - also one written as text -
    a domain is made of bytes, and so is the payload. *)
Theorem parsed_values_well_formed o b :
  OptsOk o → wf_bytes b →
  (∀ r, TrojanRequest.parse o b = Some (TrojanRequest.Request r) →
     wf_address (TrojanRequest.address r) ∧ wf_bytes (TrojanRequest.payload r)
     ∧ RequestProps.valid_command (TrojanRequest.command r))
  ∧ (∀ p, UdpAssociate.parse b = Some (UdpAssociate.Packet p) →
     wf_address (UdpAssociate.address p) ∧ wf_bytes (UdpAssociate.payload p)
     ∧ (UdpAssociate.length_ p <= MAX_PACKET_SIZE)%nat).
Proof.
  intros Ho Hb. split.
  - intros r Hr. destruct (RequestProps.parse_request_inv o b r Ho Hr) as (_ & Hc & _ & _ & ->).
    split; [by eapply parse_request_address_wf|]. split; [auto with trojan|done].
  - intros p Hp. destruct (UdpProps.packet_bounds b p Hp) as (Hl & _ & -> & _).
    split; [by eapply parse_udp_address_wf|]. split; [auto with trojan|done].
Qed.
End AddressTypes.

(** ** Properties of the endpoint variant *)

Module EndpointProps.
  Import UdpAssociate.

Lemma generate_address_endpoint_eq a : generate_address_endpoint a = generate_address a.
Proof. reflexivity. Qed.

Section Endpoint.
Context `{Oct : Ipv6FromBytes}.

Lemma generate_address_v4 a :
  wf_sa a → is_ipv4 (sa_ip a) = true →
  ∃ body, generate_address a = IPV4 :: body ∧ length body = 6%nat
    ∧ ∀ rest, parse_address_endpoint IPV4 (body ++ rest) = Some (inl (6%nat, Endpoint a)).
Proof.
  unfold generate_address.
  destruct a as [[o|o] port]; intros [[Hlen Hwf] Hport] H4; simpl in *; [|done].
  destruct (u16_be_pair port) as (h & l & Hp & Hport'); rewrite Hp. destruct_list_of_length o Hlen.
  eexists. split_and!; [done|done|]. intros rest. unfold parse_address_endpoint. simpl. by rewrite Hport'.
Qed.

Lemma generate_address_v6 o port :
  wf_sa (mkSocketAddr (V6 o) port) →
  ∃ body, generate_address (mkSocketAddr (V6 o) port) = IPV6 :: body ∧ length body = 18%nat.
Proof.
  intros [[Hlen _] _]. unfold generate_address. cbn [sa_ip sa_port app]. eexists. split; [reflexivity|].
  rewrite length_app, length_u16_be. cbn [sa_ip] in Hlen. lia.
Qed.

Lemma parse_address_endpoint_v6_short b :
  (length b < 18)%nat → parse_address_endpoint IPV6 b = Some (inr tt).
Proof.
  intros Hb. unfold parse_address_endpoint. change (IPV6 =? IPV4) with false.
  change (IPV6 =? DOMAIN) with false. change (IPV6 =? IPV6) with true. cbv iota. by nat_leb.
Qed.

Lemma parse_address_endpoint_v6 b :
  Ipv6FromBytesOk → (18 <= length b)%nat → parse_address_endpoint IPV6 b = None.
Proof.
  intros Hok Hb. unfold parse_address_endpoint. change (IPV6 =? IPV4) with false.
  change (IPV6 =? DOMAIN) with false. change (IPV6 =? IPV6) with true. cbv iota. nat_leb.
  by rewrite from_bytes_other by lia.
Qed.

Lemma parse_endpoint_long atyp b :
  (11 <= length (atyp :: b))%nat →
  parse_endpoint (atyp :: b) =
    r ← parse_address_endpoint atyp b;
    match r with
    | inl (size, addr) =>
        buffer ← b.[from size];
        if (length buffer <? 4)%nat then Some ContinuedEndpoint
        else
          len ← to_u16 buffer;
          if (MAX_PACKET_SIZE <? Z.to_nat len)%nat then Some InvalidProtocolEndpoint
          else if (length buffer <? Z.to_nat len + 4)%nat then Some ContinuedEndpoint
          else
            b2 ← buffer.[2%nat];
            b3 ← buffer.[3%nat];
            if negb (b2 =? CR) || negb (b3 =? LF) then Some InvalidProtocolEndpoint
            else
              match addr with
              | Endpoint endpoint =>
                  payload ← buffer.[from 4%nat];
                  Some (PacketEndpoint (mkEndpoint endpoint (Z.to_nat len)
                          (1 + size + (Z.to_nat len + 4)) payload))
              | _ => Some InvalidProtocolEndpoint
              end
    | inr _ => Some InvalidProtocolEndpoint
    end.
Proof. intros H. unfold parse_endpoint. by rewrite (proj2 (Nat.ltb_ge _ _) H). Qed.

(** Framing an IPv4 endpoint with [generate_endpoint] and parsing with
    [parse_endpoint] gives the endpoint and the datagram back. *)
Theorem endpoint_roundtrip a data rest :
  wf_sa a → is_ipv4 (sa_ip a) = true → (length data <= MAX_PACKET_SIZE)%nat →
  parse_endpoint (generate_endpoint a (Z.of_nat (length data)) ++ data ++ rest)
    = Some (PacketEndpoint (mkEndpoint a (length data)
              (length (generate_endpoint a (Z.of_nat (length data))) + length data)
              (data ++ rest))).
Proof.
  intros Ha H4 Hd. destruct (generate_address_v4 a Ha H4) as (body & Hg & Hs & Hp).
  unfold generate_endpoint. rewrite generate_address_endpoint_eq, Hg, <-!app_assoc.
  cbn [app]. rewrite parse_endpoint_long
    by (cbn [app length]; rewrite !length_app, length_u16_be; cbn [length]; lia).
  rewrite Hp. cbn [mbind option_bind]. rewrite <-Hs, slice_from_app. cbn [mbind option_bind].
  destruct (u16_be_pair (Z.of_nat (length data))) as (h & l & Hbe & Hj).
  rewrite Hbe. simpl. rewrite Hj, Nat2Z.id.
  rewrite (proj2 (Nat.ltb_ge _ _)) by done.
  rewrite (proj2 (Nat.ltb_ge _ _)) by (rewrite length_app; lia). simpl.
  do 3 f_equal. rewrite length_app. simpl. lia.
Qed.

(** The beginning of such a packet asks for more. *)
Lemma endpoint_prefix_continues a data n :
  wf_sa a → is_ipv4 (sa_ip a) = true → (length data <= MAX_PACKET_SIZE)%nat →
  (n < length (generate_endpoint a (Z.of_nat (length data)) ++ data))%nat →
  parse_endpoint (take n (generate_endpoint a (Z.of_nat (length data)) ++ data)) = Some ContinuedEndpoint.
Proof.
  intros Ha H4 Hd Hn. destruct (generate_address_v4 a Ha H4) as (body & Hg & Hs & Hp).
  destruct (Nat.lt_ge_cases n 11) as [Hlt|Hge].
  { unfold parse_endpoint. by rewrite (proj2 (Nat.ltb_lt _ _)) by (rewrite length_take; lia). }
  unfold generate_endpoint in *. rewrite generate_address_endpoint_eq, Hg, <-!app_assoc in *.
  destruct n as [|n]; [lia|]. cbn [app take length] in *.
  destruct (u16_be_pair (Z.of_nat (length data))) as (h & l & Hbe & Hj). rewrite Hbe in *.
  rewrite take_app_ge by lia. rewrite parse_endpoint_long
    by (cbn [length]; rewrite length_app, length_take; cbn [app length] in *; rewrite !length_app in *; cbn [length] in *; lia).
  rewrite Hp. cbn [mbind option_bind]. rewrite <-Hs, slice_from_app. cbn [mbind option_bind].
  rewrite !length_app in Hn. cbn [length app] in Hn.
  replace (n - length body)%nat with (4 + (n - 10))%nat by lia.
  cbn [Nat.add app take to_u16 mbind option_bind]. simpl. rewrite Hj, Nat2Z.id.
  rewrite (proj2 (Nat.ltb_ge _ _)) by done.
  by rewrite (proj2 (Nat.ltb_lt _ _)) by (rewrite length_take; lia).
Qed.

(** [parse_endpoint] on the beginnings of an IPv6 packet: once 11 bytes have arrived
    a cut inside the address is a protocol error, and with the address complete the
    program panics, since [from_bytes] is passed more than sixteen octets.  [parse]
    reads the same packets. *)
Theorem endpoint_rejects_ipv6 o port data n :
  Ipv6FromBytesOk → wf_sa (mkSocketAddr (V6 o) port) → (length data <= MAX_PACKET_SIZE)%nat →
  let packet := generate_endpoint (mkSocketAddr (V6 o) port) (Z.of_nat (length data)) ++ data in
  (11 <= n <= length packet)%nat →
  parse_endpoint (take n packet) = (if (n <? 19)%nat then Some InvalidProtocolEndpoint else None)
  ∧ (n < length packet → parse (take n packet) = Some Continued)%nat.
Proof.
  intros Hok Ha Hd packet Hn. destruct (generate_address_v6 o port Ha) as (body & Hg & Hs). split.
  - subst packet. unfold generate_endpoint in *.
    rewrite generate_address_endpoint_eq, Hg, <-!app_assoc in *.
    destruct n as [|n]; [lia|]. cbn [app take length] in *. rewrite !length_app in Hn.
    rewrite parse_endpoint_long by (cbn [length]; rewrite length_take, !length_app; lia).
    destruct (Nat.ltb_spec (S n) 19).
    + by rewrite parse_address_endpoint_v6_short by (rewrite length_take; lia).
    + by rewrite parse_address_endpoint_v6 by (done || (rewrite length_take, !length_app; lia)).
  - intros Hlt. subst packet. unfold generate_endpoint in *.
    rewrite generate_address_endpoint_eq in *. by apply (UdpProps.udp_prefix_continues _ _ n Ha Hd).
Qed.

End Endpoint.
End EndpointProps.

Transparent u16_be.

(** ** Witnesses *)

Module Witness.
(** A digest of six hexadecimal digits and a small configuration. *)
Definition sargs : ServerArgs := mkServerArgs [] 300 false [] 100 [] true 600 false.
Definition pargs : ProxyArgs := mkProxyArgs [] 443 0 true 3600 [] [] 70 false 0 [].
Definition opts : Opts := mkOpts sargs pargs [112] 60 600 [97; 98; 99; 48; 49; 50] 6
  (Some (mkSocketAddr (V4 [127; 0; 0; 1]) 80)) (Some (mkSocketAddr (V4 [0; 0; 0; 0]) 0))
  (secs 60) (secs 600).

#[export] Instance opts_ok : OptsOk opts.
Proof. constructor; [reflexivity|]. apply (bool_decide_unpack _). vm_compute. exact I. Qed.

Definition a4 : SocketAddr := mkSocketAddr (V4 [10; 0; 0; 1]) 443.
Definition a6 : SocketAddr :=
  mkSocketAddr (V6 [32; 1; 13; 184; 0; 0; 0; 0; 0; 0; 0; 0; 0; 0; 0; 1]) 53.

Lemma a4_ok : wf_sa a4.
Proof. apply (bool_decide_unpack _). vm_compute. exact I. Qed.
Lemma a6_ok : wf_sa a6.
Proof. apply (bool_decide_unpack _). vm_compute. exact I. Qed.

Lemma request_roundtrip_witness :
  TrojanRequest.parse opts (TrojanRequest.generate opts CONNECT a6 ++ [1; 2; 3])
  = Some (TrojanRequest.Request
      (TrojanRequest.mk CONNECT (Socket a6) [1; 2; 3] 30)).
Proof.
  exact (RequestProps.request_roundtrip opts CONNECT a6 [1; 2; 3] opts_ok
           (or_introl eq_refl) a6_ok).
Defined.

Lemma unauthenticated_safe_witness :
  TrojanRequest.parse opts [71; 69; 84; 32; 47; 32; 72] = Some TrojanRequest.PassThrough
  ∨ TrojanRequest.parse opts [71; 69; 84; 32; 47; 32; 72] = Some TrojanRequest.Continue.
Proof. apply (RequestProps.unauthenticated_safe opts); [apply opts_ok|]. done. Defined.

Lemma request_sound_witness :
  take 6 (TrojanRequest.generate opts PING a4) = sha_pass opts.
Proof.
  refine (proj1 (RequestProps.request_sound opts (TrojanRequest.generate opts PING a4)
    (TrojanRequest.mk PING (Socket a4) [] 18) opts_ok _)).
  vm_compute. reflexivity.
Defined.

Lemma request_prefix_witness :
  TrojanRequest.parse opts (take 17 (TrojanRequest.generate opts CONNECT a4)) = None.
Proof.
  rewrite (RequestProps.request_prefix opts CONNECT a4 17);
    [reflexivity|apply opts_ok|by left|apply a4_ok|vm_compute; lia].
Defined.

Lemma udp_parse_sound_witness :
  (3 <= MAX_PACKET_SIZE)%nat.
Proof.
  refine (proj1 (UdpProps.udp_parse_sound (UdpAssociate.generate a4 3 ++ [7; 8; 9])
    (UdpAssociate.mk (Socket a4) 14 3 [7; 8; 9]) _)).
  vm_compute. reflexivity.
Defined.

Lemma udp_roundtrip_witness :
  ∃ p, UdpAssociate.parse (UdpAssociate.generate a6 3 ++ [7; 8; 9] ++ [1])
       = Some (UdpAssociate.Packet p)
    ∧ UdpAssociate.address p = Socket a6
    ∧ take (UdpAssociate.length_ p) (UdpAssociate.payload p) = [7; 8; 9]
    ∧ drop (UdpAssociate.length_ p) (UdpAssociate.payload p) = [1]
    ∧ drop (UdpAssociate.offset p) (UdpAssociate.generate a6 3 ++ [7; 8; 9] ++ [1]) = [1].
Proof.
  refine (UdpProps.udp_roundtrip a6 [7; 8; 9] [1] a6_ok _). unfold MAX_PACKET_SIZE. simpl. lia.
Defined.

(** [from_bytes] as documented. *)
#[export] Instance from_bytes : Ipv6FromBytes :=
  {| ipv6_from_bytes b := if (length b =? 16)%nat then Some b else None |}.

#[export] Instance from_bytes_ok : Ipv6FromBytesOk.
Proof. split; intros b Hb; cbn; [by rewrite Hb|by rewrite (proj2 (Nat.eqb_neq _ _))]. Qed.

Lemma endpoint_roundtrip_witness :
  UdpAssociate.parse_endpoint (UdpAssociate.generate_endpoint a4 2 ++ [7; 8] ++ [])
  = Some (UdpAssociate.PacketEndpoint (UdpAssociate.mkEndpoint a4 2 13 [7; 8])).
Proof.
  refine (EndpointProps.endpoint_roundtrip a4 [7; 8] [] a4_ok eq_refl _).
  unfold MAX_PACKET_SIZE; simpl; lia.
Defined.

Lemma endpoint_rejects_ipv6_witness :
  UdpAssociate.parse_endpoint (take 25 (UdpAssociate.generate_endpoint a6 2 ++ [7; 8])) = None.
Proof.
  refine (proj1 (EndpointProps.endpoint_rejects_ipv6 _ _ [7; 8] 25 from_bytes_ok a6_ok _ _));
    [unfold MAX_PACKET_SIZE; simpl|simpl]; lia.
Defined.

(** A request and a packet for the same name. *)
Lemma parsed_values_well_formed_witness :
  AddressTypes.wf_address (Domain [97; 98] 80) ∧ wf_bytes [1; 2]
  ∧ AddressTypes.wf_address (Domain [97; 98] 80) ∧ wf_bytes [7; 8].
Proof.
  pose proof (AddressTypes.parsed_values_well_formed opts
    (sha_pass opts ++ [CR; LF; CONNECT; DOMAIN; 2; 97; 98; 0; 80; CR; LF; 1; 2]) opts_ok
    ltac:(apply (bool_decide_unpack _); by vm_compute)) as [H1 _].
  pose proof (AddressTypes.parsed_values_well_formed opts
    [DOMAIN; 2; 97; 98; 0; 80; 0; 1; CR; LF; 7; 8] opts_ok
    ltac:(apply (bool_decide_unpack _); by vm_compute)) as [_ H2].
  destruct (H1 _ eq_refl) as (Ha & Hb & _). destruct (H2 _ eq_refl) as (Hc & Hd & _).
  exact (conj Ha (conj Hb (conj Hc Hd))).
Defined.
End Witness.
