(* ===== verification/Status.v ===== *)
(** * Connection status ([src/src/status.rs])

    The life cycle shared by every socket of the synchronous server and proxy:
    the five states, and the [StatusProvider] trait with its default methods.
    A provider of type [S] is a class instance; the default methods are
    definitions over any instance.  The laws a client of the interface relies on
    are the class [LawfulStatus], which each implementor's file discharges. *)

From Stdlib Require Import ZArith Lia.
From stdpp Require Import base option list relations.
From S2P Require Import Prelude.

Inductive ConnStatus : Type :=
  | Connecting
  | Established
  | PeerClosed
  | Shutdown
  | Deregistered.

#[export] Instance ConnStatus_eq_dec : EqDecision ConnStatus.
Proof. solve_decision. Defined.

(** The required methods of the trait.  Each returns the provider it leaves
    behind, since all take [&mut self] but [get_status]. *)
Class StatusProvider (S : Type) : Type := {
  set_status : S → ConnStatus → S;
  get_status : S → ConnStatus;
  close_conn : S → bool * S;
  deregister : S → bool * S;
  finish_send : S → bool * S
}.

Section Provided.
Context {S : Type} `{StatusProvider S}.

Definition deregistered (s : S) : bool :=
  match get_status s with Deregistered => true | _ => false end.

Definition alive (s : S) : bool :=
  match get_status s with PeerClosed | Established => true | _ => false end.

Definition is_shutdown (s : S) : bool :=
  match get_status s with Shutdown | Deregistered => true | _ => false end.

Definition is_connecting (s : S) : bool :=
  match get_status s with Connecting => true | _ => false end.

Definition peer_closed (s : S) : S :=
  match get_status s with
  | Established | Connecting => set_status s PeerClosed
  | _ => s
  end.

Definition established (s : S) : S :=
  match get_status s with
  | Connecting => set_status s Established
  | _ => s
  end.

Definition shutdown (s : S) : bool * S :=
  match get_status s with
  | Established | PeerClosed | Connecting =>
      let '(ok, s) := close_conn s in
      if ok then (true, set_status s Shutdown) else (false, s)
  | Shutdown | Deregistered => (true, s)
  end.

(** One iteration of the loop of [check_status]; [true] is [continue]. *)
Definition check_status_body (s : S) : bool * S :=
  match get_status s with
  | Established | Connecting => (false, s)
  | PeerClosed =>
      let '(finished, s) := finish_send s in
      if finished then shutdown s else (false, s)
  | Shutdown =>
      let '(ok, s) := deregister s in
      (false, if ok then set_status s Deregistered else s)
  | Deregistered => (false, s)
  end.

(** [check_status] as a loop on fuel; [None] is running out of it. *)
Fixpoint check_status_loop (fuel : nat) (s : S) : option S :=
  match fuel with
  | O => None
  | Datatypes.S fuel =>
      let '(continue, s) := check_status_body s in
      if (continue : bool) then check_status_loop fuel s else Some s
  end.

(** Two iterations are enough ([check_status_terminates]). *)
Definition check_status (s : S) : S :=
  match check_status_loop 2 s with Some s => s | None => s end.
End Provided.

(** What every implementor provides: the status is a field that only
    [set_status] changes, and [finish_send] only reads. *)
Class LawfulStatus (S : Type) `{StatusProvider S} : Prop := {
  get_set_status s st : get_status (set_status s st) = st;
  get_close_conn s : get_status (close_conn s).2 = get_status s;
  get_deregister s : get_status (deregister s).2 = get_status s;
  finish_send_pure s : (finish_send s).2 = s
}.

(** The implementors of this program never fail to close or deregister. *)
Class InfallibleStatus (S : Type) `{StatusProvider S} : Prop := {
  close_conn_ok s : (close_conn s).1 = true;
  deregister_ok s : (deregister s).1 = true
}.

(** ** The abstract life cycle *)

Definition rank (st : ConnStatus) : nat :=
  match st with
  | Connecting => 0 | Established => 1 | PeerClosed => 2 | Shutdown => 3 | Deregistered => 4
  end.

(** One step of the life cycle.  [Connecting] may skip to any later state, but
    [Established] is only entered from it. *)
Inductive status_step : ConnStatus → ConnStatus → Prop :=
  | step_established : status_step Connecting Established
  | step_peer_closed st : st = Connecting ∨ st = Established → status_step st PeerClosed
  | step_shutdown st : (rank st < 3)%nat → status_step st Shutdown
  | step_deregister : status_step Shutdown Deregistered.

Definition status_steps : ConnStatus → ConnStatus → Prop := rtc status_step.

Lemma status_step_rank a b : status_step a b → (rank a < rank b)%nat.
Proof. destruct 1 as [|? []| |]; subst; simpl; lia. Qed.

Lemma status_steps_rank a b : status_steps a b → a = b ∨ (rank a < rank b)%nat.
Proof.
  induction 1 as [|x y z Hxy _ [->|IH]]; [by left|right..];
    apply status_step_rank in Hxy; lia.
Qed.

(** The life cycle has no cycle. *)
Lemma status_steps_antisym a b : status_steps a b → status_steps b a → a = b.
Proof. intros H1%status_steps_rank H2%status_steps_rank. destruct H1, H2; done || lia. Qed.

Section Lawful.
Context {S : Type} `{LawfulStatus S}.
Implicit Types s : S.

Lemma get_shutdown s :
  get_status (shutdown s).2 =
    match get_status s with
    | Deregistered => Deregistered
    | Shutdown => Shutdown
    | st => if (shutdown s).1 then Shutdown else st
    end.
Proof.
  unfold shutdown. pose proof (get_close_conn s) as Hc.
  destruct (get_status s) eqn:Hs; simpl; try done;
    destruct (close_conn s) as [[] s']; simpl in *; rewrite ?get_set_status; congruence.
Qed.

Lemma shutdown_steps s : status_steps (get_status s) (get_status (shutdown s).2).
Proof.
  rewrite get_shutdown.
  destruct (get_status s), (shutdown s).1; try apply rtc_refl;
    apply rtc_once; constructor; simpl; lia.
Qed.

Lemma peer_closed_steps s : status_steps (get_status s) (get_status (peer_closed s)).
Proof.
  unfold peer_closed. destruct (get_status s) eqn:Hs; rewrite ?get_set_status, ?Hs;
    (apply rtc_refl || (apply rtc_once; constructor; auto)).
Qed.

Lemma established_steps s : status_steps (get_status s) (get_status (established s)).
Proof.
  unfold established. destruct (get_status s) eqn:Hs; rewrite ?get_set_status, ?Hs;
    (apply rtc_refl || (apply rtc_once; constructor)).
Qed.

Lemma get_check_status_body s :
  check_status_body s =
    match get_status s with
    | Established | Connecting | Deregistered => (false, s)
    | PeerClosed => if (finish_send s).1 then shutdown s else (false, s)
    | Shutdown => (false, if (deregister s).1 then set_status (deregister s).2 Deregistered
                          else (deregister s).2)
    end.
Proof.
  unfold check_status_body. pose proof (finish_send_pure s) as Hf.
  destruct (get_status s); try done.
  - by destruct (finish_send s) as [[] s']; simpl in *; subst.
  - by destruct (deregister s) as [[] s'].
Qed.

Lemma check_status_loop_ge s n :
  check_status_loop (2 + n) s = check_status_loop 2 s ∧ is_Some (check_status_loop 2 s).
Proof.
  change (2 + n)%nat with (Datatypes.S (Datatypes.S n)). cbn [check_status_loop].
  rewrite get_check_status_body. destruct (get_status s) eqn:Hs; try by eauto.
  destruct (finish_send s).1; [|by eauto].
  pose proof (get_shutdown s) as Hsh. rewrite Hs in Hsh.
  destruct (shutdown s) as [[] s1]; simpl in *; [|by eauto].
  rewrite get_check_status_body, Hsh. by eauto.
Qed.

(** The loop of [check_status] ends: two iterations are enough for any
    provider, more fuel changes nothing. *)
Theorem check_status_terminates s n :
  check_status_loop (2 + n) s = Some (check_status s).
Proof.
  destruct (check_status_loop_ge s n) as [-> [s' Hs']].
  unfold check_status. by rewrite Hs'.
Qed.

Lemma check_status_unfold s :
  check_status s =
    match get_status s with
    | Established | Connecting | Deregistered => s
    | PeerClosed =>
        if (finish_send s).1 then
          let '(ok, s1) := shutdown s in
          if ok then (if (deregister s1).1 then set_status (deregister s1).2 Deregistered
                      else (deregister s1).2)
          else s1
        else s
    | Shutdown => if (deregister s).1 then set_status (deregister s).2 Deregistered
                  else (deregister s).2
    end.
Proof.
  unfold check_status. cbn [check_status_loop].
  rewrite get_check_status_body. destruct (get_status s) eqn:Hs; try done.
  destruct (finish_send s).1; [|done].
  pose proof (get_shutdown s) as Hsh. rewrite Hs in Hsh.
  destruct (shutdown s) as [[] s1]; simpl in *; [|done].
  by rewrite get_check_status_body, Hsh.
Qed.

(** [check_status] refines the life cycle. *)
Lemma check_status_steps s : status_steps (get_status s) (get_status (check_status s)).
Proof.
  rewrite check_status_unfold. destruct (get_status s) eqn:Hs; rewrite ?Hs; try apply rtc_refl.
  - destruct (finish_send s).1; rewrite ?Hs; [|apply rtc_refl].
    pose proof (get_shutdown s) as Hsh. rewrite Hs in Hsh.
    destruct (shutdown s) as [[] s1]; simpl in *; rewrite ?Hsh; [|apply rtc_refl].
    pose proof (get_deregister s1) as Hd.
    eapply rtc_l; [apply step_shutdown; simpl; lia|].
    destruct (deregister s1) as [[] s2]; simpl in *; rewrite ?get_set_status, ?Hd, ?Hsh;
      [apply rtc_once; constructor|apply rtc_refl].
  - pose proof (get_deregister s) as Hd.
    destruct (deregister s) as [[] s2]; simpl in *; rewrite ?get_set_status, ?Hd, ?Hs;
      [apply rtc_once; constructor|apply rtc_refl].
Qed.

Lemma set_status_established s :
  get_status s = Connecting → get_status (established s) = Established.
Proof. intros Hs. unfold established. by rewrite Hs, get_set_status. Qed.

Section Infallible.
Context `{!InfallibleStatus S}.

Lemma shutdown_ok s : (shutdown s).1 = true.
Proof.
  unfold shutdown. pose proof (close_conn_ok s).
  by destruct (get_status s), (close_conn s) as [[] ?].
Qed.

Lemma get_shutdown_ok s :
  get_status (shutdown s).2 =
    match get_status s with Deregistered => Deregistered | _ => Shutdown end.
Proof. rewrite get_shutdown, shutdown_ok. by destruct (get_status s). Qed.

Lemma is_shutdown_shutdown s : is_shutdown (shutdown s).2 = true.
Proof. unfold is_shutdown. rewrite get_shutdown_ok. by destruct (get_status s). Qed.

(** The exact effect of [check_status]: a shut-down connection is
    deregistered, a connection whose peer has closed is deregistered as soon
    as nothing is left to send, and any other connection is untouched. *)
Theorem check_status_spec s :
  get_status (check_status s) =
    match get_status s with
    | Shutdown | Deregistered => Deregistered
    | PeerClosed => if (finish_send s).1 then Deregistered else PeerClosed
    | st => st
    end
  ∧ (get_status (check_status s) = get_status s → check_status s = s).
Proof.
  rewrite check_status_unfold.
  destruct (get_status s) eqn:Hs; rewrite ?Hs; try done.
  - destruct (finish_send s).1 eqn:Hf; [|done].
    pose proof (shutdown_ok s) as Hok. destruct (shutdown s) as [ok s1]. simpl in *. subst.
    by rewrite deregister_ok, get_set_status.
  - by rewrite deregister_ok, get_set_status.
Qed.
End Infallible.

(** The trait's operations, as data. *)
Inductive status_op : Type := OpPeerClosed | OpEstablished | OpShutdown | OpCheck.

Definition apply_op (s : S) (op : status_op) : S :=
  match op with
  | OpPeerClosed => peer_closed s
  | OpEstablished => established s
  | OpShutdown => (shutdown s).2
  | OpCheck => check_status s
  end.

Lemma apply_op_steps s op : status_steps (get_status s) (get_status (apply_op s op)).
Proof.
  destruct op; [apply peer_closed_steps|apply established_steps
               |apply shutdown_steps|apply check_status_steps].
Qed.

(** Refinement of the life cycle: any sequence of the trait's operations
    moves the status along [status_step]; the status never goes back, so a
    state that was left is never entered again. *)
Theorem operations_refine_life_cycle s ops :
  status_steps (get_status s) (get_status (foldl apply_op s ops))
  ∧ (get_status (foldl apply_op s ops) = get_status s
     ∨ rank (get_status s) < rank (get_status (foldl apply_op s ops)))%nat.
Proof.
  assert (status_steps (get_status s) (get_status (foldl apply_op s ops))) as Hsteps.
  { revert s. induction ops as [|op ops IH]; intros s; simpl; [apply rtc_refl|].
    unfold status_steps. etrans; [apply apply_op_steps|apply IH]. }
  split; [done|]. apply status_steps_rank in Hsteps as [->|]; auto.
Qed.
End Lawful.

(** ** Frames

    An observation of a provider that its required methods do not change is not
    changed by the default methods either. *)

Class FrameStatus {S : Type} `{StatusProvider S} {A : Type} (f : S → A) : Prop := {
  frame_set_status s st : f (set_status s st) = f s;
  frame_close_conn s : f (close_conn s).2 = f s;
  frame_deregister s : f (deregister s).2 = f s;
  frame_finish_send s : f (finish_send s).2 = f s
}.

Section Frame.
Context {S : Type} `{StatusProvider S} {A : Type} (f : S → A) `{!FrameStatus f}.

Lemma frame_shutdown s : f (shutdown s).2 = f s.
Proof.
  unfold shutdown. pose proof (frame_close_conn s) as Hc.
  destruct (get_status s); try done; destruct (close_conn s) as [[] s1]; simpl in *;
    rewrite ?frame_set_status; done.
Qed.

Lemma frame_peer_closed s : f (peer_closed s) = f s.
Proof. unfold peer_closed. destruct (get_status s); rewrite ?frame_set_status; done. Qed.

Lemma frame_established s : f (established s) = f s.
Proof. unfold established. destruct (get_status s); rewrite ?frame_set_status; done. Qed.

Lemma frame_check_status_body s : f (check_status_body s).2 = f s.
Proof.
  unfold check_status_body. destruct (get_status s); try done.
  - pose proof (frame_finish_send s) as Hf. destruct (finish_send s) as [[] s1]; simpl in *; [|done].
    by rewrite frame_shutdown.
  - pose proof (frame_deregister s) as Hd. destruct (deregister s) as [[] s1]; simpl in *;
      rewrite ?frame_set_status; done.
Qed.

Lemma frame_check_status s : f (check_status s) = f s.
Proof.
  unfold check_status. cbn [check_status_loop].
  pose proof (frame_check_status_body s) as H1. destruct (check_status_body s) as [[] s1]; [|done].
  pose proof (frame_check_status_body s1) as H2. destruct (check_status_body s1) as [[] s2];
    simpl in *; [done|congruence].
Qed.
End Frame.

Section Down.
Context {S : Type} `{LawfulStatus S}.

Lemma is_shutdown_rank s : is_shutdown s = true ↔ (3 <= rank (get_status s))%nat.
Proof. unfold is_shutdown. destruct (get_status s); simpl; split; (done || lia). Qed.

Lemma is_shutdown_steps s s' :
  status_steps (get_status s) (get_status s') → is_shutdown s = true → is_shutdown s' = true.
Proof. rewrite !is_shutdown_rank. intros [-> | ?]%status_steps_rank ?; [done|lia]. Qed.

Lemma is_shutdown_check_status s : is_shutdown s = true → is_shutdown (check_status s) = true.
Proof. apply is_shutdown_steps, check_status_steps. Qed.

Lemma is_shutdown_peer_closed s : is_shutdown s = true → is_shutdown (peer_closed s) = true.
Proof. apply is_shutdown_steps, peer_closed_steps. Qed.

Lemma is_shutdown_established s : is_shutdown s = true → is_shutdown (established s) = true.
Proof. apply is_shutdown_steps, established_steps. Qed.
End Down.

(** ** Witnesses *)

Module StatusWitness.
(** A provider that holds a status and a count of bytes left to send. *)
#[export] Instance demo : StatusProvider (ConnStatus * nat) := {
  set_status s st := (st, s.2);
  get_status s := s.1;
  close_conn s := (true, s);
  deregister s := (true, s);
  finish_send s := ((s.2 =? 0)%nat, s)
}.

#[export] Instance demo_lawful : LawfulStatus (ConnStatus * nat).
Proof. by split. Qed.

#[export] Instance demo_infallible : InfallibleStatus (ConnStatus * nat).
Proof. by split. Qed.

Lemma check_status_terminates_witness :
  check_status_loop 7 (PeerClosed, 0%nat) = Some (Deregistered, 0%nat).
Proof. exact (check_status_terminates (PeerClosed, 0%nat) 5). Defined.

Lemma check_status_spec_witness :
  get_status (check_status (PeerClosed, 3%nat)) = PeerClosed.
Proof. exact (proj1 (check_status_spec (PeerClosed, 3%nat))). Defined.

Lemma operations_refine_life_cycle_witness :
  status_steps Connecting
    (get_status (foldl apply_op (Connecting, 1%nat) [OpEstablished; OpPeerClosed; OpCheck])).
Proof. exact (proj1 (operations_refine_life_cycle (Connecting, 1%nat) _)). Defined.
End StatusWitness.
