(* ===== verification/IpSet.v ===== *)
(** * IPv4 sets and their routes ([src/src/wintun/ipset.rs])

    CIDR blocks over 32-bit integers, the decomposition of a range into blocks,
    and the complement of a set.  Arithmetic is that of a release build: [u32]
    operations wrap and a shift amount is taken modulo 32. *)

From Stdlib Require Import ZArith Lia.
From stdpp Require Import base option list sorting sets.
From S2P Require Import Prelude Net.

Open Scope Z_scope.
Open Scope rust_scope.

(** ** [u32] operations *)

Definition u32 (z : Z) : Z := wrap 32 z.
(** [1 << k]. *)
Definition shl1 (k : Z) : Z := u32 (Z.shiftl 1 (k mod 32)).
(** [!x]. *)
Definition not32 (x : Z) : Z := u32_MAX - x.

Fixpoint count_trailing (bit : bool) (n : nat) (z : Z) : Z :=
  match n with
  | O => 0
  | S n => if eqb (Z.odd z) bit then 1 + count_trailing bit n (z / 2) else 0
  end.

Definition trailing_zeros (z : Z) : Z := count_trailing false 32 z.
Definition trailing_ones (z : Z) : Z := count_trailing true 32 z.

(** ** Blocks *)

Record Cidr : Type := mkCidr { c_ip : Z; c_prefix : Z }.

#[export] Instance Cidr_eq_dec : EqDecision Cidr.
Proof. solve_decision. Defined.

Definition prefix_mask (prefix : Z) : Z := not32 (u32 (shl1 (u32 (32 - prefix)) - 1)).

Definition cidr_mask (c : Cidr) : Z := prefix_mask (c_prefix c).

Definition cidr_new (ip prefix : Z) : Cidr := mkCidr (Z.land ip (prefix_mask prefix)) prefix.

Definition cidr_range (c : Cidr) : Z * Z := (c_ip c, u32 (c_ip c + not32 (cidr_mask c))).

(** [Ord for Cidr]: by address, then by descending prefix. *)
Definition cidr_cmp (a b : Cidr) : comparison :=
  match Z.compare (c_ip a) (c_ip b) with
  | Eq => Z.compare (c_prefix b) (c_prefix a)
  | result => result
  end.

Definition cidr_le (a b : Cidr) : Prop := cidr_cmp a b ≠ Gt.

#[export] Instance cidr_le_dec : RelDecision cidr_le.
Proof. intros a b. unfold cidr_le. apply _. Defined.

(** [self.data.sort()]. *)
Definition sort (data : list Cidr) : list Cidr := merge_sort cidr_le data.

(** ** [range_to_cidr] *)

(** The first loop: peel off the largest aligned block ending at [right]. *)
Fixpoint peel_right (fuel : nat) (left right : Z) (cidrs : list Cidr)
  : option (Z * list Cidr) :=
  match fuel with
  | O => None
  | S fuel =>
      let shift := trailing_ones right in
      let prefix := u32 (32 - shift) in
      let ip := Z.land right (not32 (u32 (shl1 shift - 1))) in
      if left <=? ip
      then peel_right fuel left (u32 (ip - 1)) (cidrs ++ [cidr_new ip prefix])
      else Some (right, cidrs)
  end.

(** The second loop: peel off the largest aligned block starting at [left]. *)
Fixpoint peel_left (fuel : nat) (left right : Z) (cidrs : list Cidr) : option (list Cidr) :=
  match fuel with
  | O => None
  | S fuel =>
      if left <=? right then
        let shift := trailing_zeros left in
        let prefix := u32 (32 - shift) in
        peel_left fuel (u32 (left + shl1 shift)) right (cidrs ++ [cidr_new left prefix])
      else Some cidrs
  end.

(** Every iteration uses a longer block than the one before, so 40 iterations
    are more than either loop can run ([range_to_cidr_cover]). *)
Definition loop_fuel : nat := 40.

Definition range_to_cidr (left right : Z) : option (list Cidr) :=
  if left =? right then Some [cidr_new left 32]
  else
    '(right, cidrs) ← peel_right loop_fuel left right [];
    cidrs ← peel_left loop_fuel left right cidrs;
    Some (sort cidrs).

(** ** Sets *)

(** [IPSet] is its [data] vector. *)
Definition add (data : list Cidr) (ip prefix : Z) : list Cidr := data ++ [cidr_new ip prefix].

Definition add_range (data : list Cidr) (left right : Z) : option (list Cidr) :=
  if right <? left then Some data
  else cidrs ← range_to_cidr left right; Some (data ++ cidrs).

(** The loop of [not]: [r] is the right end of the previous block. *)
Fixpoint not_loop (items set : list Cidr) (r : Z) : option (list Cidr * Z) :=
  match items with
  | [] => Some (set, r)
  | item :: items =>
      let '(left_, right_) := cidr_range item in
      set ← (if (0 <? left_) && (r <? u32_MAX)
             then add_range set (u32 (r + 1)) (u32 (left_ - 1)) else Some set);
      not_loop items set right_
  end.

Definition ipset_not (data : list Cidr) : option (list Cidr) :=
  '(set, r) ← not_loop (sort data) [] 0;
  set ← (if r <? u32_MAX then add_range set (u32 (r + 1)) u32_MAX else Some set);
  Some (sort set).

(** [u32::from_str]: an optional plus sign, then decimal digits, no overflow. *)
Fixpoint parse_digits (s : bytes) (acc : Z) : option Z :=
  match s with
  | [] => Some acc
  | c :: s => d ← to_digit 10 c;
              if acc * 10 + d <=? u32_MAX then parse_digits s (acc * 10 + d) else None
  end.

Definition parse_u32 (s : bytes) : option Z :=
  match s with
  | [] => None
  | 43 :: [] => None
  | 43 :: s => parse_digits s 0
  | s => parse_digits s 0
  end.

(** [add_str]; [None] is a panic of one of its [unwrap]s. *)
Definition add_str (data : list Cidr) (line : bytes) : option (list Cidr) :=
  let rows := split 47 line in
  row0 ← rows !! 0%nat;
  ip ← parse_ipv4 row0;
  row1 ← rows !! 1%nat;
  prefix ← parse_u32 row1;
  Some (add data (u32_of_octets ip) prefix).

Fixpoint add_lines (data : list Cidr) (lines : list bytes) : option (list Cidr) :=
  match lines with
  | [] => Some data
  | line :: lines => data ← add_str data line; add_lines data lines
  end.

(** The nine networks [with_file] adds before inverting: 0.0.0.0/8, 10.0.0.0/8,
    127.0.0.0/8, 169.254.0.0/16, 172.16.0.0/12, 192.168.0.0/16, 224.0.0.0/4,
    240.0.0.0/4, 255.255.255.255/32. *)
Definition reserved : list (bytes * Z) :=
  [([0;0;0;0], 8); ([10;0;0;0], 8); ([127;0;0;0], 8); ([169;254;0;0], 16);
   ([172;16;0;0], 12); ([192;168;0;0], 16); ([224;0;0;0], 4); ([240;0;0;0], 4);
   ([255;255;255;255], 32)].

Definition add_reserved (data : list Cidr) : list Cidr :=
  foldl (λ data '(o, p), add data (u32_of_octets o) p) data reserved.

(** [with_file], given the lines of the file. *)
Definition with_file (lines : list bytes) (inverse : bool) : option (list Cidr) :=
  data ← add_lines [] lines;
  if inverse then ipset_not (add_reserved data) else Some (sort data).

(** [add_route]: [route_add dst mask gw if_index] is the outcome of the system
    call; the first failure stops the loop. *)
Fixpoint add_route {E} (route_add : Z → Z → Z → Z → option E) (index : Z)
    (data : list Cidr) : option E :=
  match data with
  | [] => None
  | item :: data =>
      match route_add (c_ip item) (cidr_mask item) 0 index with
      | Some err => Some err
      | None => add_route route_add index data
      end
  end.

(** [is_private].  The classification of smoltcp's [Ipv4Address] is a parameter. *)
Record Ipv4Class : Type := mkIpv4Class {
  smol_is_unspecified : bytes → bool;
  smol_is_loopback : bytes → bool;
  smol_is_link_local : bytes → bool;
  smol_is_multicast : bytes → bool;
  smol_is_broadcast : bytes → bool
}.

Definition is_private (k : Ipv4Class) (endpoint : SocketAddr) : option bool :=
  match sa_ip endpoint with
  | V4 ip =>
      i0 ← ip.[0%nat]; i1 ← ip.[1%nat];
      Some ((sa_port endpoint =? 0)
        || smol_is_unspecified k ip
        || (i0 =? 10)
        || smol_is_loopback k ip
        || smol_is_link_local k ip
        || ((i0 =? 172) && (Z.land i1 240 =? 16))
        || ((i0 =? 192) && (i1 =? 168))
        || smol_is_multicast k ip
        || (Z.land i0 240 =? 240)
        || smol_is_broadcast k ip)
  | V6 _ => Some true
  end.

(** ** Membership *)

Definition in_cidr (x : Z) (c : Cidr) : Prop := (cidr_range c).1 ≤ x ≤ (cidr_range c).2.
Definition in_set (x : Z) (data : list Cidr) : Prop := ∃ c, c ∈ data ∧ in_cidr x c.

(** ** Arithmetic of blocks *)

Lemma u32_small z : 0 ≤ z ≤ u32_MAX → u32 z = z.
Proof. intros H. apply wrap_small. unfold u32_MAX in H. lia. Qed.

Lemma count_trailing_range bit n z : 0 ≤ count_trailing bit n z ≤ Z.of_nat n.
Proof.
  revert z. induction n as [|n IH]; intros z; [simpl; lia|]. cbn [count_trailing].
  destruct (eqb _ _); [|lia]. specialize (IH (z / 2)). lia.
Qed.

Lemma divide_odd_pow k z : 0 ≤ k → Z.odd z = true → (2 ^ k | z) ↔ k ≤ 0.
Proof.
  intros Hk Hodd. split.
  - intros [q ->]. destruct (Z.le_gt_cases k 0) as [|Hk']; [done|].
    replace k with (1 + (k - 1)) in Hodd by lia.
    rewrite Z.pow_add_r, Z.odd_mul, Z.odd_mul in Hodd by lia.
    by rewrite andb_false_r in Hodd.
  - intros. replace k with 0 by lia. apply Z.divide_1_l.
Qed.

Lemma divide_even_pow k z : 0 ≤ k → (2 ^ k | 2 * z) ↔ k = 0 ∨ (2 ^ (k - 1) | z).
Proof.
  intros Hk. destruct (Z.eq_dec k 0) as [->|Hne].
  { split; [by left|]. intros _. apply Z.divide_1_l. }
  replace (2 ^ k) with (2 * 2 ^ (k - 1)) by (rewrite <-Z.pow_succ_r by lia; f_equal; lia).
  split; [intros H; right|intros [|H]; [done|]].
  - by apply Z.mul_divide_cancel_l in H.
  - by apply Z.mul_divide_mono_l.
Qed.

(** [trailing_zeros] is the exponent of the largest power of two dividing. *)
Lemma count_zeros_spec n z k :
  0 < z < 2 ^ Z.of_nat n → 0 ≤ k → (2 ^ k | z) ↔ k ≤ count_trailing false n z.
Proof.
  revert z k. induction n as [|n IH]; intros z k Hz Hk; [simpl in Hz; lia|].
  rewrite Nat2Z.inj_succ, Z.pow_succ_r in Hz by lia. cbn [count_trailing].
  destruct (Z.odd z) eqn:Hodd; simpl.
  - by apply divide_odd_pow.
  - assert (z = 2 * (z / 2)) as Hz2.
    { rewrite <-Z.negb_even, negb_false_iff, Z.even_spec in Hodd. destruct Hodd as [m ->].
      rewrite (Z.mul_comm 2 m), Z.div_mul by lia. lia. }
    rewrite Hz2 at 1. rewrite divide_even_pow by done.
    pose proof (count_trailing_range false n (z / 2)).
    destruct (Z.eq_dec k 0) as [->|Hne]; [lia|].
    rewrite IH by lia. lia.
Qed.

(** [trailing_ones z] is that exponent for [z + 1]. *)
Lemma count_ones_spec n z k :
  0 ≤ z < 2 ^ Z.of_nat n - 1 → 0 ≤ k → (2 ^ k | z + 1) ↔ k ≤ count_trailing true n z.
Proof.
  revert z k. induction n as [|n IH]; intros z k Hz Hk; [simpl in Hz; lia|].
  rewrite Nat2Z.inj_succ, Z.pow_succ_r in Hz by lia. cbn [count_trailing].
  destruct (Z.odd z) eqn:Hodd; simpl.
  - assert (z + 1 = 2 * (z / 2 + 1)) as Hz2.
    { apply Z.odd_spec in Hodd as [m ->].
      rewrite (Z.mul_comm 2), Z.div_add_l by lia. change (1 / 2) with 0. lia. }
    rewrite Hz2. rewrite divide_even_pow by done.
    pose proof (count_trailing_range true n (z / 2)).
    destruct (Z.eq_dec k 0) as [->|Hne]; [lia|].
    rewrite IH by lia. lia.
  - apply divide_odd_pow; [done|]. rewrite Z.add_1_r, Z.odd_succ, <-Z.negb_odd, Hodd. done.
Qed.

Lemma trailing_zeros_spec z k :
  0 < z ≤ u32_MAX → 0 ≤ k → (2 ^ k | z) ↔ k ≤ trailing_zeros z.
Proof. intros Hz. apply (count_zeros_spec 32). unfold u32_MAX in Hz. simpl. lia. Qed.

Lemma trailing_ones_spec z k :
  0 ≤ z < u32_MAX → 0 ≤ k → (2 ^ k | z + 1) ↔ k ≤ trailing_ones z.
Proof. intros Hz. apply (count_ones_spec 32). unfold u32_MAX in Hz. simpl. lia. Qed.

Lemma pow2_divide_bound k z m : 0 ≤ k → 0 < z < 2 ^ m → 0 ≤ m → (2 ^ k | z) → k < m.
Proof.
  intros Hk Hz Hm Hd. apply Z.divide_pos_le in Hd; [|lia].
  apply (Z.pow_lt_mono_r_iff 2); lia.
Qed.

Lemma trailing_zeros_lt z : 0 < z ≤ u32_MAX → 0 ≤ trailing_zeros z < 32.
Proof.
  intros Hz. pose proof (count_trailing_range false 32 z) as H. split; [apply H|].
  apply (pow2_divide_bound _ z); [apply H|unfold u32_MAX in Hz; lia|lia|].
  apply trailing_zeros_spec; [done|apply H|reflexivity].
Qed.

Lemma trailing_ones_lt z : 0 ≤ z < u32_MAX → 0 ≤ trailing_ones z < 32.
Proof.
  intros Hz. pose proof (count_trailing_range true 32 z) as H. split; [apply H|].
  apply (pow2_divide_bound _ (z + 1)); [apply H|unfold u32_MAX in Hz; lia|lia|].
  apply trailing_ones_spec; [done|apply H|reflexivity].
Qed.

Lemma shl1_small k : 0 ≤ k < 32 → shl1 k = 2 ^ k.
Proof.
  intros Hk. unfold shl1. rewrite Z.mod_small, Z.shiftl_1_l by done.
  apply wrap_small. split; [lia|]. apply Z.pow_lt_mono_r; lia.
Qed.

(** Masking with the complement of [2 ^ k - 1] rounds down to a multiple of it. *)
Lemma land_mask z k :
  0 ≤ z ≤ u32_MAX → 0 ≤ k < 32 → Z.land z (not32 (u32 (shl1 k - 1))) = z / 2 ^ k * 2 ^ k.
Proof.
  intros Hz Hk. assert (0 < 2 ^ k <= 2 ^ 31) as Hp.
  { split; [lia|]. apply Z.pow_le_mono_r; lia. }
  rewrite shl1_small, u32_small by (unfold u32_MAX; lia).
  unfold not32. replace (u32_MAX - (2 ^ k - 1)) with (Z.shiftl (Z.ones (32 - k)) k).
  2: { rewrite Z.shiftl_mul_pow2, Z.ones_equiv, <-Z.sub_1_r, Z.mul_sub_distr_r by lia.
       rewrite <-Z.pow_add_r by lia. replace (32 - k + k) with 32 by lia.
       unfold u32_MAX. lia. }
  rewrite <-Z.shiftr_div_pow2, <-Z.shiftl_mul_pow2 by lia.
  apply Z.bits_inj'. intros i Hi. rewrite Z.land_spec.
  destruct (Z.lt_ge_cases i k).
  - by rewrite !Z.shiftl_spec_low, andb_false_r by lia.
  - rewrite !Z.shiftl_spec, Z.shiftr_spec by lia. replace (i - k + k) with i by lia.
    rewrite Z.testbit_ones_nonneg by lia. destruct (Z.ltb_spec (i - k) (32 - k)).
    + by rewrite andb_true_r.
    + rewrite andb_false_r. symmetry. apply Z.bits_above_log2; [lia|].
      destruct (Z.eq_dec z 0) as [->|]; [simpl; lia|].
      apply Z.log2_lt_pow2; [lia|]. apply Z.lt_le_trans with (2 ^ 32);
        [unfold u32_MAX in Hz; lia|apply Z.pow_le_mono_r; lia].
Qed.

(** A block of [2 ^ k] addresses starting at a multiple of [2 ^ k]. *)
Lemma cidr_new_block ip k :
  0 ≤ k < 32 → (2 ^ k | ip) → 0 ≤ ip ≤ u32_MAX →
  cidr_new ip (u32 (32 - k)) = mkCidr ip (32 - k)
  ∧ cidr_range (cidr_new ip (u32 (32 - k))) = (ip, ip + 2 ^ k - 1).
Proof.
  intros Hk [q Hq] Hip. assert (0 < 2 ^ k <= 2 ^ 31) as Hp.
  { split; [lia|]. apply Z.pow_le_mono_r; lia. }
  rewrite (u32_small (32 - k)) by (unfold u32_MAX; lia).
  unfold cidr_new, cidr_range, cidr_mask, prefix_mask. cbn [c_ip c_prefix].
  replace (32 - (32 - k)) with k by lia. rewrite (u32_small k) by (unfold u32_MAX; lia).
  assert (Z.land ip (not32 (u32 (shl1 k - 1))) = ip) as Hl.
  { rewrite land_mask by done. rewrite Hq at 1. by rewrite Z.div_mul, <-Hq by lia. }
  rewrite !Hl. split; [done|].
  enough (u32 (ip + not32 (not32 (u32 (shl1 k - 1)))) = ip + 2 ^ k - 1) as -> by done.
  rewrite shl1_small, (u32_small (2 ^ k - 1)) by (unfold u32_MAX; lia).
  unfold not32. replace (u32_MAX - (u32_MAX - (2 ^ k - 1))) with (2 ^ k - 1) by lia.
  rewrite u32_small; [lia|]. split; [lia|].
  assert (ip + 2 ^ k <= 2 ^ 32); [|unfold u32_MAX; lia].
  rewrite Hq. replace (2 ^ 32) with (2 ^ (32 - k) * 2 ^ k)
    by (rewrite <-Z.pow_add_r by lia; f_equal; lia).
  assert (q < 2 ^ (32 - k)); [|nia].
  apply (Z.mul_lt_mono_pos_r (2 ^ k)); [lia|].
  rewrite <-Z.pow_add_r by lia. replace (32 - k + k) with 32 by lia.
  rewrite <-Hq. unfold u32_MAX in Hip. lia.
Qed.

(** ** The decomposition of a range *)

Definition total (data : list Cidr) : Z :=
  foldr (λ c acc, (cidr_range c).2 - (cidr_range c).1 + 1 + acc) 0 data.

Lemma total_app a b : total (a ++ b) = total a + total b.
Proof. induction a as [|c a IH]; simpl; [done|]. rewrite IH. lia. Qed.

Lemma in_set_app x a b : in_set x (a ++ b) ↔ in_set x a ∨ in_set x b.
Proof. unfold in_set. setoid_rewrite elem_of_app. naive_solver. Qed.

Lemma in_set_nil x : ¬ in_set x [].
Proof. unfold in_set. set_solver. Qed.

Lemma in_set_cons x c a : in_set x (c :: a) ↔ in_cidr x c ∨ in_set x a.
Proof. unfold in_set. setoid_rewrite elem_of_cons. naive_solver. Qed.

Lemma in_set_Permutation x a b : a ≡ₚ b → in_set x a ↔ in_set x b.
Proof. intros H. unfold in_set. by setoid_rewrite H. Qed.

Lemma total_Permutation a b : a ≡ₚ b → total a = total b.
Proof. induction 1; simpl; lia. Qed.

#[export] Instance in_set_proper x : Proper ((≡ₚ) ==> iff) (in_set x).
Proof. intros a b. apply in_set_Permutation. Qed.

#[export] Instance total_proper : Proper ((≡ₚ) ==> eq) total.
Proof. intros a b. apply total_Permutation. Qed.

Lemma sort_Permutation data : sort data ≡ₚ data.
Proof. apply merge_sort_Permutation. Qed.

(** The largest aligned block that ends at [right]. *)
Lemma right_block right :
  0 ≤ right < u32_MAX →
  let t := trailing_ones right in
  let ip := right + 1 - 2 ^ t in
  0 ≤ t < 32 ∧ Z.land right (not32 (u32 (shl1 t - 1))) = ip ∧ 0 ≤ ip
  ∧ (2 ^ t | ip) ∧ (2 ^ (t + 1) | ip).
Proof.
  intros Hr t ip. pose proof (trailing_ones_lt right Hr) as Ht. fold t in Ht.
  assert (2 ^ t | right + 1) as [q Hq] by (apply trailing_ones_spec; lia).
  assert (0 < 2 ^ t) as Hp by lia.
  assert (¬ (2 ^ (t + 1) | right + 1)) as Hn
    by (rewrite trailing_ones_spec by lia; fold t; lia).
  destruct (Z.Even_or_Odd q) as [[m ->]|[m ->]].
  { destruct Hn. exists m. rewrite Z.pow_add_r by lia. lia. }
  assert (ip = m * 2 ^ (t + 1)) as Hip.
  { subst ip. rewrite Z.pow_add_r by lia. lia. }
  assert (0 ≤ m) by nia.
  split_and!; [lia..| | | |].
  - rewrite land_mask by (unfold u32_MAX in *; lia).
    assert (right = (2 * m) * 2 ^ t + (2 ^ t - 1)) as Hrt by lia.
    rewrite Hrt at 1. rewrite Z.div_add_l, Z.div_small by lia.
    rewrite Hip, Z.pow_add_r by lia. lia.
  - rewrite Hip. apply Z.mul_nonneg_nonneg; [done|]. lia.
  - rewrite Hip. exists (m * 2). rewrite Z.pow_add_r by lia. lia.
  - by exists m.
Qed.

Lemma block_range ip k :
  0 ≤ k < 32 → (2 ^ k | ip) → 0 ≤ ip ≤ u32_MAX →
  (∀ x, in_cidr x (cidr_new ip (u32 (32 - k))) ↔ ip ≤ x ≤ ip + 2 ^ k - 1)
  ∧ total [cidr_new ip (u32 (32 - k))] = 2 ^ k.
Proof.
  intros Hk Hd Hip. destruct (cidr_new_block ip k Hk Hd Hip) as [_ Hr].
  split; [intros x; unfold in_cidr; by rewrite Hr|].
  unfold total. cbn [foldr]. rewrite Hr. cbn [fst snd]. lia.
Qed.

Definition right_measure (right : Z) : nat :=
  if right =? u32_MAX then 34 else Z.to_nat (33 - trailing_ones right).

(** What a run of [peel_right] leaves behind. *)
Record peeled (left right right' : Z) (new : list Cidr) : Prop := {
  pr_bounds : left - 1 ≤ right' ≤ right ∧ right' < u32_MAX;
  pr_cover : ∀ x, in_set x new ↔ right' < x ≤ right;
  pr_total : total new = right - right';
  pr_stop : right' + 1 - 2 ^ trailing_ones right' < left
}.

Lemma peel_right_spec fuel left right acc :
  1 ≤ left ≤ u32_MAX → left - 1 ≤ right ≤ u32_MAX → (right_measure right < fuel)%nat →
  ∃ right' new, peel_right fuel left right acc = Some (right', acc ++ new)
    ∧ peeled left right right' new.
Proof.
  intros Hl. revert right acc. induction fuel as [|fuel IH]; intros right acc Hr Hf; [lia|].
  cbn [peel_right]. unfold right_measure in Hf. destruct (Z.eqb_spec right u32_MAX) as [->|Hne].
  { change (trailing_ones u32_MAX) with 32.
    change (Z.land u32_MAX (not32 (u32 (shl1 32 - 1)))) with u32_MAX.
    rewrite (proj2 (Z.leb_le left u32_MAX)) by lia.
    destruct (IH (u32_MAX - 1) (acc ++ [cidr_new u32_MAX (u32 (32 - 32))]))
      as (right' & new & Heq & Hp); [lia|vm_compute; lia|].
    exists right', (cidr_new u32_MAX (u32 (32 - 32)) :: new).
    split; [by rewrite <-app_assoc in Heq|].
    destruct Hp as [Hb Hc Ht Hs]. constructor; [lia| | |done].
    - intros x. rewrite in_set_cons, Hc. unfold in_cidr.
      change (cidr_range (cidr_new u32_MAX (u32 (32 - 32)))) with (u32_MAX, u32_MAX).
      simpl. lia.
    - change (total (cidr_new u32_MAX (u32 (32 - 32)) :: new)) with (1 + total new). lia. }
  destruct (right_block right) as (Ht & Hip & Hip0 & Hd & Hd2); [lia|].
  set (t := trailing_ones right) in *. set (ip := right + 1 - 2 ^ t) in *. rewrite Hip.
  assert (0 < 2 ^ t) by lia.
  destruct (Z.leb_spec left ip) as [Hle|Hgt].
  - rewrite (u32_small (ip - 1)) by lia.
    assert (t + 1 ≤ trailing_ones (ip - 1)) as Hmore.
    { apply trailing_ones_spec; [lia|lia|]. by replace (ip - 1 + 1) with ip by lia. }
    destruct (IH (ip - 1) (acc ++ [cidr_new ip (u32 (32 - t))]))
      as (right' & new & Heq & [Hb Hc Htot Hs]);
      [lia|unfold right_measure; case_match; lia|].
    destruct (block_range ip t) as [Hin Hsz]; [done|done|lia|].
    exists right', (cidr_new ip (u32 (32 - t)) :: new).
    split; [by rewrite <-app_assoc in Heq|]. constructor; [lia| | |done].
    + intros x. rewrite in_set_cons, Hc, Hin. lia.
    + change (_ :: new) with ([cidr_new ip (u32 (32 - t))] ++ new).
      rewrite total_app, Hsz, Htot. lia.
  - exists right, []. split; [by rewrite app_nil_r|]. constructor; [lia| |simpl; lia|done].
    intros x. split; [by intros ?%in_set_nil|lia].
Qed.

Lemma no_multiple_between q w P : 0 < P → q * P < w * P → w * P < q * P + P → False.
Proof.
  intros HP H1 H2. apply Z.mul_lt_mono_pos_r in H1; [|done].
  replace (q * P + P) with ((q + 1) * P) in H2 by ring.
  apply Z.mul_lt_mono_pos_r in H2; [lia|done].
Qed.

(** The largest aligned block that starts inside [(ip, ip + 2^t)] stays inside. *)
Lemma left_block left ip t :
  0 ≤ t < 32 → (2 ^ t | ip) → 0 ≤ ip → ip < left < ip + 2 ^ t → left ≤ u32_MAX →
  let z := trailing_zeros left in
  0 ≤ z < 32 ∧ (2 ^ z | left) ∧ left + 2 ^ z ≤ ip + 2 ^ t
  ∧ (2 ^ (z + 1) | left + 2 ^ z).
Proof.
  intros Ht [q Hq] Hip Hl Hmax z.
  pose proof (trailing_zeros_lt left ltac:(lia)) as Hz. fold z in Hz.
  assert (2 ^ z | left) as [m Hm] by (apply trailing_zeros_spec; lia).
  assert (¬ (2 ^ (z + 1) | left)) as Hn by (rewrite trailing_zeros_spec by lia; fold z; lia).
  assert (0 < 2 ^ z) as Hp by lia.
  destruct (Z.Even_or_Odd m) as [[n ->]|[n ->]].
  { destruct Hn. exists n. rewrite Z.pow_add_r by lia. lia. }
  assert (z < t) as Hzt.
  { destruct (Z.lt_ge_cases z t) as [|Hge]; [done|]. exfalso.
    assert (2 ^ z = 2 ^ (z - t) * 2 ^ t) as Hpow
      by (rewrite <-Z.pow_add_r by lia; f_equal; lia).
    assert (left = ((2 * n + 1) * 2 ^ (z - t)) * 2 ^ t) as Hl2 by (rewrite Hm, Hpow; ring).
    apply (no_multiple_between q ((2 * n + 1) * 2 ^ (z - t)) (2 ^ t)); lia. }
  split_and!; [lia..| | |].
  - exists (2 * n + 1). lia.
  - assert (2 ^ t = 2 ^ (t - z) * 2 ^ z) as Hpow
      by (rewrite <-Z.pow_add_r by lia; f_equal; lia).
    set (w := (q + 1) * 2 ^ (t - z)).
    assert (ip + 2 ^ t = w * 2 ^ z) as Hw by (subst w; rewrite Hq, Hpow; ring).
    assert (2 * n + 1 < w) as Hlt by (apply (Z.mul_lt_mono_pos_r (2 ^ z)); lia).
    rewrite Hw, Hm. replace ((2 * n + 1) * 2 ^ z + 2 ^ z) with ((2 * n + 2) * 2 ^ z) by ring.
    apply Z.mul_le_mono_pos_r; lia.
  - exists (n + 1). rewrite Z.pow_add_r by lia. lia.
Qed.

Lemma peel_left_spec fuel left right ip t acc :
  0 ≤ t < 32 → (2 ^ t | ip) → 0 ≤ ip → right + 1 = ip + 2 ^ t → right < u32_MAX →
  ip < left ≤ right + 1 → (Z.to_nat (33 - trailing_zeros left) < fuel)%nat →
  ∃ new, peel_left fuel left right acc = Some (acc ++ new)
    ∧ (∀ x, in_set x new ↔ left ≤ x ≤ right) ∧ total new = right + 1 - left.
Proof.
  intros Ht Hd Hip Hr Hmax. revert left acc.
  induction fuel as [|fuel IH]; intros left acc Hl Hf; [lia|].
  cbn [peel_left]. destruct (Z.leb_spec left right) as [Hle|Hgt].
  - destruct (left_block left ip t) as (Hz & Hdz & Hfit & Hd2); [done|done|done|lia|lia|].
    set (z := trailing_zeros left) in *. assert (0 < 2 ^ z) by lia.
    rewrite shl1_small, u32_small by lia.
    destruct (block_range left z) as [Hin Hsz]; [done|done|lia|].
    assert (z + 1 ≤ trailing_zeros (left + 2 ^ z)) as Hmore
      by (apply trailing_zeros_spec; [lia|lia|done]).
    destruct (IH (left + 2 ^ z) (acc ++ [cidr_new left (u32 (32 - z))]))
      as (new & Heq & Hc & Htot); [lia|lia|].
    exists (cidr_new left (u32 (32 - z)) :: new). split; [by rewrite <-app_assoc in Heq|].
    split.
    + intros x. rewrite in_set_cons, Hc, Hin. lia.
    + change (_ :: new) with ([cidr_new left (u32 (32 - z))] ++ new).
      rewrite total_app, Hsz, Htot. lia.
  - exists []. rewrite app_nil_r. split_and!; [done| |simpl; lia].
    intros x. split; [by intros ?%in_set_nil|lia].
Qed.

Lemma single_address x right :
  0 ≤ right ≤ u32_MAX → in_set x [cidr_new right 32] ↔ x = right.
Proof.
  intros Hr. destruct (block_range right 0) as [Hin Hsz]; [lia|apply Z.divide_1_l|lia|].
  change (u32 (32 - 0)) with 32 in Hin. rewrite in_set_cons, Hin.
  split; [intros [|?%in_set_nil]; [lia|done]|intros; left; lia].
Qed.

Lemma range_to_cidr_exact left right :
  1 ≤ left ≤ right → right ≤ u32_MAX →
  ∃ cidrs, range_to_cidr left right = Some cidrs
    ∧ (∀ x, in_set x cidrs ↔ left ≤ x ≤ right)
    ∧ total cidrs = right - left + 1.
Proof.
  intros Hl Hr. unfold range_to_cidr.
  assert (36 ≤ loop_fuel)%nat as Hfuel by (unfold loop_fuel; lia).
  generalize dependent loop_fuel. intros fuel Hfuel.
  destruct (Z.eqb_spec left right) as [->|Hne].
  { eexists. split; [reflexivity|]. split; [intros x; rewrite single_address; lia|].
    destruct (block_range right 0) as [_ Hsz]; [lia|apply Z.divide_1_l|lia|].
    change (u32 (32 - 0)) with 32 in Hsz. rewrite Hsz. lia. }
  destruct (peel_right_spec fuel left right []) as (right' & new & Heq & [[Hb Hm] Hc Ht Hs]);
    [lia|lia| |].
  { unfold right_measure. case_match; [lia|].
    pose proof (count_trailing_range true 32 right). unfold trailing_ones. lia. }
  rewrite Heq. cbn [mbind option_bind app]. clear Heq.
  destruct (right_block right') as (Htr & _ & Hip0 & Hd & _); [lia|].
  destruct (peel_left_spec fuel left right' (right' + 1 - 2 ^ trailing_ones right')
    (trailing_ones right') new) as (new2 & Heq & Hc2 & Ht2); [done|done|done|lia|lia|lia| |].
  { pose proof (count_trailing_range false 32 left). unfold trailing_zeros. lia. }
  rewrite Heq. cbn [mbind option_bind]. eexists. split; [reflexivity|]. split.
  - intros x. rewrite sort_Permutation, in_set_app, Hc, Hc2. lia.
  - rewrite sort_Permutation, total_app. lia.
Qed.

(** [range_to_cidr] terminates and is exact: for a range that does not
    start at address 0 it yields blocks that cover every address of the range
    and no other, without overlap (their sizes add up to the size of the
    range). *)
Theorem range_to_cidr_cover left right :
  1 ≤ left ≤ right → right ≤ u32_MAX →
  ∃ cidrs, range_to_cidr left right = Some cidrs
    ∧ (∀ x, in_set x cidrs ↔ left ≤ x ≤ right)
    ∧ total cidrs = right - left + 1.
Proof. apply range_to_cidr_exact. Qed.

(** ** The complement of a set *)

(** A block as [Cidr::new] makes it, for a prefix of 1 to 32 bits. *)
Record wf_cidr (c : Cidr) : Prop := {
  wc_ip : 0 ≤ c_ip c ≤ u32_MAX;
  wc_prefix : 1 ≤ c_prefix c ≤ 32;
  wc_aligned : (2 ^ (32 - c_prefix c) | c_ip c)
}.

Definition left_end (c : Cidr) : Z := (cidr_range c).1.
Definition right_end (c : Cidr) : Z := (cidr_range c).2.

Lemma wf_cidr_range c :
  wf_cidr c → cidr_range c = (c_ip c, c_ip c + 2 ^ (32 - c_prefix c) - 1).
Proof.
  intros [Hip Hp Ha]. destruct (cidr_new_block (c_ip c) (32 - c_prefix c)) as [Heq Hr];
    [lia|done|done|].
  rewrite <-Hr. f_equal. rewrite Heq. destruct c as [ip p]. cbn. f_equal. lia.
Qed.

Lemma wf_cidr_ends c : wf_cidr c → 0 ≤ left_end c ≤ right_end c ∧ right_end c ≤ u32_MAX.
Proof.
  intros H. unfold left_end, right_end. rewrite wf_cidr_range by done.
  destruct H as [Hip Hp [q Hq]]. cbn [fst snd].
  assert (0 < 2 ^ (32 - c_prefix c)) as Hpos by lia.
  split; [lia|]. set (P := 2 ^ (32 - c_prefix c)) in *.
  assert (2 ^ 32 = 2 ^ c_prefix c * P) as HP.
  { subst P. rewrite <-Z.pow_add_r by lia. f_equal. lia. }
  destruct (Z.le_gt_cases (c_ip c + P) (2 ^ 32)) as [|Hgt]; [unfold u32_MAX; lia|].
  exfalso. apply (no_multiple_between q (2 ^ c_prefix c) P); unfold u32_MAX in *; lia.
Qed.

Lemma cidr_new_wf ip prefix : 0 ≤ ip ≤ u32_MAX → 1 ≤ prefix ≤ 32 → wf_cidr (cidr_new ip prefix).
Proof.
  intros Hip Hp. unfold cidr_new, prefix_mask. rewrite (u32_small (32 - prefix)) by (unfold u32_MAX; lia).
  rewrite land_mask by lia. assert (0 < 2 ^ (32 - prefix)) as Hpos by lia.
  pose proof (Z.div_mod ip (2 ^ (32 - prefix)) ltac:(lia)).
  pose proof (Z.mod_pos_bound ip (2 ^ (32 - prefix)) Hpos).
  assert (0 ≤ ip / 2 ^ (32 - prefix)) by (apply Z.div_pos; lia).
  constructor; cbn [c_ip c_prefix]; [nia|done|apply Z.divide_factor_r].
Qed.

#[export] Instance cidr_le_total : Total cidr_le.
Proof.
  intros a b. unfold cidr_le, cidr_cmp.
  destruct (Z.compare_spec (c_ip a) (c_ip b)); destruct (Z.compare_spec (c_ip b) (c_ip a));
    try lia; try (left; discriminate); try (right; discriminate).
  destruct (Z.compare_spec (c_prefix b) (c_prefix a));
    destruct (Z.compare_spec (c_prefix a) (c_prefix b));
    try lia; try (left; discriminate); try (right; discriminate).
Qed.

Lemma cidr_le_iff a b :
  cidr_le a b ↔ c_ip a < c_ip b ∨ c_ip a = c_ip b ∧ c_prefix b ≤ c_prefix a.
Proof.
  unfold cidr_le, cidr_cmp. destruct (Z.compare_spec (c_ip a) (c_ip b)).
  - rewrite Z.compare_le_iff. lia.
  - split; [by left|done].
  - split; [done|lia].
Qed.

#[export] Instance cidr_le_trans : Transitive cidr_le.
Proof. intros a b c. rewrite !cidr_le_iff. lia. Qed.

Lemma cidr_le_antisym a b : cidr_le a b → cidr_le b a → a = b.
Proof. rewrite !cidr_le_iff. destruct a, b. cbn. intros. f_equal; lia. Qed.

Lemma sort_sorted data : StronglySorted cidr_le (sort data).
Proof. apply StronglySorted_merge_sort; apply _. Qed.

Lemma add_range_spec set left right :
  1 ≤ left → right ≤ u32_MAX →
  ∃ set', add_range set left right = Some set'
    ∧ ∀ x, in_set x set' ↔ in_set x set ∨ left ≤ x ≤ right.
Proof.
  intros Hl Hr. unfold add_range. destruct (Z.ltb_spec right left).
  { eexists. split; [done|]. intros x. split; [by left|intros [|]; [done|lia]]. }
  destruct (range_to_cidr_exact left right) as (cidrs & -> & Hin & _); [lia|lia|].
  eexists. split; [done|]. intros x. by rewrite in_set_app, Hin.
Qed.

(** One iteration of the loop of [not]: it adds the gap before [item]. *)
Lemma not_loop_cons item items set r :
  wf_cidr item → 0 ≤ r →
  ∃ set', not_loop (item :: items) set r = not_loop items set' (right_end item)
    ∧ ∀ x, in_set x set' ↔ in_set x set ∨ r < x < left_end item.
Proof.
  intros Hwf Hr. pose proof (wf_cidr_ends item Hwf) as [Hends Hmax].
  cbn [not_loop]. unfold left_end, right_end in *.
  destruct (cidr_range item) as [left_ right_]. cbn [fst snd] in *.
  destruct (Z.ltb_spec 0 left_); destruct (Z.ltb_spec r u32_MAX); cbn [andb];
    [|eexists; split; [done|]; intros x; split; [by left|intros [|]; [done|lia]]..].
  rewrite !u32_small by lia.
  destruct (add_range_spec set (r + 1) (left_ - 1)) as (set' & -> & Hin); [lia|lia|].
  eexists. split; [done|]. intros x. rewrite Hin. split; (intros [|]; [by left|right; lia]).
Qed.

(** The last step of [not]. *)
Lemma not_finish set r :
  0 ≤ r →
  ∃ set', (if r <? u32_MAX then add_range set (u32 (r + 1)) u32_MAX else Some set) = Some set'
    ∧ ∀ x, in_set x set' ↔ in_set x set ∨ r < x ≤ u32_MAX.
Proof.
  intros Hr. destruct (Z.ltb_spec r u32_MAX).
  - rewrite u32_small by lia.
    destruct (add_range_spec set (r + 1) u32_MAX) as (set' & -> & Hin); [lia|lia|].
    eexists. split; [done|]. intros x. rewrite Hin. split; (intros [|]; [by left|right; lia]).
  - eexists. split; [done|]. intros x. split; [by left|intros [|]; [done|lia]].
Qed.

(** No block ends before a block that starts further left. *)
Definition no_nesting (data : list Cidr) : Prop :=
  ∀ a b, a ∈ data → b ∈ data → left_end a < left_end b → right_end a ≤ right_end b.

Lemma sorted_ends a b :
  wf_cidr a → wf_cidr b → cidr_le a b →
  left_end a ≤ left_end b ∧ (left_end a = left_end b → right_end a ≤ right_end b).
Proof.
  intros Ha Hb. unfold left_end, right_end. rewrite !wf_cidr_range by done. cbn [fst snd].
  rewrite cidr_le_iff. intros Hle. split; [lia|]. intros Heq.
  destruct Ha as [_ ? _], Hb as [_ ? _].
  assert (2 ^ (32 - c_prefix a) ≤ 2 ^ (32 - c_prefix b)) by (apply Z.pow_le_mono_r; lia). lia.
Qed.

Lemma not_loop_spec items set r :
  StronglySorted cidr_le items → Forall wf_cidr items → no_nesting items →
  0 ≤ r → Forall (λ c, r ≤ right_end c) items →
  ∃ set' r', not_loop items set r = Some (set', r') ∧ r ≤ r' ∧
    (∀ x, in_set x items → x ≤ r') ∧
    (∀ x, in_set x set' ↔ in_set x set ∨ (r < x ≤ r' ∧ ¬ in_set x items)).
Proof.
  revert set r. induction items as [|item items IH]; intros set r Hs Hwf Hn Hr Hge.
  { exists set, r. split_and!; [done|lia|by intros x ?%in_set_nil|].
    intros x. split; [by left|intros [|[? _]]; [done|lia]]. }
  apply Forall_cons in Hwf as [Hc Hwf]. apply Forall_cons in Hge as [Hge _].
  apply StronglySorted_inv in Hs as [Hs Hle].
  destruct (not_loop_cons item items set r) as (set1 & -> & Hin1); [done|done|].
  pose proof (wf_cidr_ends item Hc) as [Hends _].
  assert (∀ c, c ∈ items → left_end item ≤ left_end c ∧ right_end item ≤ right_end c) as Hafter.
  { intros c Hin. rewrite Forall_forall in Hle, Hwf.
    destruct (sorted_ends item c) as [H1 H2]; [done|by apply Hwf|by apply Hle|].
    split; [done|]. destruct (Z.eq_dec (left_end item) (left_end c)); [by apply H2|].
    apply Hn; [by left|by right|lia]. }
  destruct (IH set1 (right_end item)) as (set2 & r' & -> & Hr' & Hup & Hin2);
    [done|done| |lia| |].
  { intros a b ? ?. by apply Hn; right. }
  { apply Forall_forall. intros c Hin. by apply Hafter. }
  exists set2, r'. split_and!; [done|lia| |].
  - intros x [[_ Hx]|Hx]%in_set_cons; [change (cidr_range item).2 with (right_end item) in Hx; lia|].
    by apply Hup.
  - intros x. rewrite Hin2, Hin1, in_set_cons. unfold in_cidr.
    change (cidr_range item).1 with (left_end item).
    change (cidr_range item).2 with (right_end item).
    assert (in_set x items → left_end item ≤ x) as Hlo.
    { intros (c & Hin & Hx & _). apply Hafter in Hin as [? _].
      change (cidr_range c).1 with (left_end c) in Hx. lia. }
    destruct (Z.le_gt_cases (left_end item) x); destruct (Z.le_gt_cases x (right_end item));
      intuition lia.
Qed.

Lemma sort_in_set x data : in_set x (sort data) ↔ in_set x data.
Proof. by rewrite sort_Permutation. Qed.

(** [IPSet::not] computes the complement: for blocks that are not nested in
    one another it terminates, and an address is in the result exactly when it
    is in no block of the set, address 0.0.0.0 excepted, which the result never
    holds. *)
Theorem ipset_not_complement data :
  Forall wf_cidr data → no_nesting data →
  ∃ s, ipset_not data = Some s ∧
    ∀ x, 0 ≤ x ≤ u32_MAX → in_set x s ↔ x ≠ 0 ∧ ¬ in_set x data.
Proof.
  intros Hwf Hn. unfold ipset_not.
  destruct (not_loop_spec (sort data) [] 0) as (set & r & -> & Hr & Hup & Hin).
  - apply sort_sorted.
  - by rewrite sort_Permutation.
  - intros a b. rewrite sort_Permutation. apply Hn.
  - done.
  - rewrite sort_Permutation. apply (Forall_impl _ _ _ Hwf). intros c Hc.
    pose proof (wf_cidr_ends c Hc). lia.
  - cbn [mbind option_bind]. destruct (not_finish set r) as (set' & -> & Hin'); [done|].
    eexists. split; [reflexivity|]. intros x Hx. rewrite sort_in_set, Hin', Hin, sort_in_set.
    specialize (Hup x). rewrite sort_in_set in Hup.
    split; [|destruct (Z.le_gt_cases x r); intuition lia].
    intros [[?%in_set_nil|]|]; [done|intuition lia|]. split; [lia|]. intros ?%Hup. lia.
Qed.

Lemma not_loop_last pre b set r :
  Forall wf_cidr (pre ++ [b]) → 0 ≤ r →
  ∃ set', not_loop (pre ++ [b]) set r = Some (set', right_end b).
Proof.
  revert set r. induction pre as [|c pre IH]; intros set r [Hc Hwf]%Forall_cons Hr.
  - cbn [app]. destruct (not_loop_cons b [] set r Hc Hr) as (set' & Heq & _).
    exists set'. by rewrite Heq.
  - destruct (not_loop_cons c (pre ++ [b]) set r Hc Hr) as (set' & Heq & _).
    cbn [app]. rewrite Heq. apply IH; [done|]. pose proof (wf_cidr_ends c Hc). lia.
Qed.

(** Nested blocks break the complement: [not] only remembers where the
    previous block ended, so the whole address space above the right end of the
    block sorted last is in the result, even the part of it that an earlier,
    larger block of the set covers. *)
Theorem ipset_not_leaks_nested data b :
  Forall wf_cidr data → b ∈ data → Forall (λ c, cidr_le c b) data →
  ∃ s, ipset_not data = Some s ∧ ∀ x, right_end b < x ≤ u32_MAX → in_set x s.
Proof.
  intros Hwf Hb Hmax. unfold ipset_not.
  assert (∃ pre, sort data = pre ++ [b]) as [pre Hpre].
  { destruct (exists_last (l := sort data)) as (pre & last & Hlast).
    { intros Hnil. rewrite <-sort_Permutation, Hnil in Hb. by apply not_elem_of_nil in Hb. }
    exists pre. rewrite Hlast. do 2 f_equal. apply cidr_le_antisym.
    - rewrite Forall_forall in Hmax. apply Hmax. rewrite <-sort_Permutation, Hlast.
      apply elem_of_app. right. by left.
    - pose proof (sort_sorted data) as Hs. rewrite <-sort_Permutation, Hlast in Hb.
      rewrite Hlast in Hs. apply elem_of_app in Hb as [Hb|Hb%list_elem_of_singleton].
      + apply (StronglySorted_app_1_elem_of cidr_le pre [last]); [done|done|by left].
      + subst last. apply cidr_le_iff. lia. }
  destruct (not_loop_last pre b [] 0) as [set Heq]; [by rewrite <-Hpre, sort_Permutation|done|].
  rewrite Hpre, Heq. cbn [mbind option_bind].
  assert (0 ≤ right_end b) as Hr.
  { rewrite Forall_forall in Hwf. pose proof (wf_cidr_ends b (Hwf b Hb)). lia. }
  destruct (not_finish set (right_end b)) as (set' & -> & Hin'); [done|].
  eexists. split; [reflexivity|]. intros x Hx. rewrite sort_in_set, Hin'. by right.
Qed.

Module IpSetWitness.

Ltac wf_blocks :=
  repeat first [apply Forall_nil_2
               | apply Forall_cons_2; [apply cidr_new_wf; unfold u32_MAX; lia|]].

Definition private_blocks : list Cidr := [cidr_new 167772160 8; cidr_new 3232235520 16].

Lemma private_blocks_wf : Forall wf_cidr private_blocks.
Proof. unfold private_blocks. wf_blocks. Qed.

Lemma range_to_cidr_cover_witness :
  ∃ cidrs, range_to_cidr 5 1000 = Some cidrs
    ∧ (∀ x, in_set x cidrs ↔ 5 ≤ x ≤ 1000) ∧ total cidrs = 996.
Proof. apply (range_to_cidr_cover 5 1000); unfold u32_MAX; lia. Defined.

Lemma ipset_not_complement_witness :
  ∃ s, ipset_not private_blocks = Some s ∧
    ∀ x, 0 ≤ x ≤ u32_MAX → in_set x s ↔ x ≠ 0 ∧ ¬ in_set x private_blocks.
Proof.
  apply (ipset_not_complement private_blocks private_blocks_wf).
  intros a b Ha Hb. unfold private_blocks in *.
  repeat match goal with
  | H : _ ∈ _ :: _ |- _ => apply elem_of_cons in H as [->|H]
  | H : _ ∈ [] |- _ => by apply not_elem_of_nil in H
  end; vm_compute; congruence.
Defined.

(** 10.0.0.0/8 holds 10.1.0.0/16: 10.2.0.0 (167903232) is in both the set and
    its complement. *)
Lemma ipset_not_leaks_nested_witness :
  in_set 167903232 [cidr_new 167772160 8; cidr_new 167837696 16] ∧
  ∃ s, ipset_not [cidr_new 167772160 8; cidr_new 167837696 16] = Some s ∧
    ∀ x, right_end (cidr_new 167837696 16) < x ≤ u32_MAX → in_set x s.
Proof.
  split.
  - exists (cidr_new 167772160 8). split; [by left|vm_compute; by split].
  - apply (ipset_not_leaks_nested [cidr_new 167772160 8; cidr_new 167837696 16]).
    + wf_blocks.
    + right. by left.
    + repeat constructor; vm_compute; congruence.
Defined.

End IpSetWitness.
