(* ===== verification/Domain.v ===== *)
(** * Domain lists ([src/src/dns/domain.rs])

    [DomainMap] holds the domains whose queries are poisoned; a name matches when
    it or one of its parent domains, down to two labels, is in the set. *)

From Stdlib Require Import ZArith Lia.
From stdpp Require Import base option list gmap sets.
From S2P Require Import Prelude.

Open Scope Z_scope.

(** '.' *)
Definition DOT : Z := 46.

Record DomainMap : Type := mkDomainMap { domains : gset bytes }.

Definition domain_map_new : DomainMap := mkDomainMap ∅.

Definition add_domain (m : DomainMap) (domain : bytes) : DomainMap :=
  mkDomainMap ({[ domain ]} ∪ domains m).

(** [str::ends_with], for one byte. *)
Definition ends_with (domain : bytes) (c : Z) : bool :=
  match last domain with Some x => x =? c | None => false end.

(** [for i in 0..end_index - 1], where [i] runs up. *)
Fixpoint contains_loop (m : DomainMap) (items : list bytes) (n i end_index : nat) : bool :=
  match n with
  | O => false
  | S n =>
      let domain := join DOT (take (end_index - i) (drop i items)) in
      if bool_decide (domain ∈ domains m) then true
      else contains_loop m items n (S i) end_index
  end.

Definition contains (m : DomainMap) (domain : bytes) : bool :=
  let items := split DOT domain in
  let end_index := if ends_with domain DOT then (length items - 1)%nat else length items in
  contains_loop m items (end_index - 1) 0 end_index.

(** ** Specification *)

(** The name without its root dot. *)
Definition strip_root (domain : bytes) : bytes :=
  if ends_with domain DOT then take (length domain - 1) domain else domain.

(** [parent] is [name] or one of the domains above it. *)
Definition parent_of (parent name : bytes) : Prop :=
  parent = name ∨ ∃ prefix, name = prefix ++ DOT :: parent.

Lemma ends_with_app domain : ends_with domain DOT = true → ∃ d, domain = d ++ [DOT].
Proof.
  unfold ends_with. destruct (last domain) as [x|] eqn:Hl; [|done].
  intros ->%Z.eqb_eq. apply last_Some in Hl as [d ->]. by exists d.
Qed.

(** The labels that the loop looks at are those of the stripped name. *)
Lemma items_strip_root domain :
  let items := split DOT domain in
  let end_index := if ends_with domain DOT then (length items - 1)%nat else length items in
  take end_index items = split DOT (strip_root domain)
  ∧ end_index = length (split DOT (strip_root domain)).
Proof.
  unfold strip_root. destruct (ends_with domain DOT) eqn:He; cbn zeta.
  - apply ends_with_app in He as [d ->].
    rewrite split_app, !length_app. cbn [length split].
    rewrite !Nat.add_sub, !take_app_length. done.
  - by rewrite take_ge.
Qed.

Lemma contains_loop_spec m items n i :
  contains_loop m items n i (length items) = true ↔
  ∃ j, (i <= j < i + n)%nat ∧ join DOT (drop j items) ∈ domains m.
Proof.
  revert i. induction n as [|n IH]; intros i; simpl.
  { split; [done|]. intros (j & ? & _). lia. }
  rewrite take_ge by (rewrite length_drop; lia).
  case_bool_decide as Hin.
  - split; [|done]. intros _. exists i. split; [lia|done].
  - rewrite IH. split; intros (j & Hj & Hd).
    + exists j. split; [lia|done].
    + destruct (decide (j = i)) as [->|]; [done|]. exists j. split; [lia|done].
Qed.

Lemma contains_loop_take m items n i e :
  (e <= length items)%nat →
  contains_loop m items n i e = contains_loop m (take e items) n i e.
Proof.
  intros He. revert i. induction n as [|n IH]; intros i; simpl; [done|].
  rewrite IH, skipn_firstn_comm, take_take, Nat.min_id. done.
Qed.

(** The suffixes of at least two labels are the parents that have a dot. *)
Lemma suffix_parent name s :
  (∃ j, (j < length (split DOT name) - 1)%nat ∧ join DOT (drop j (split DOT name)) = s)
  ↔ DOT ∈ s ∧ parent_of s name.
Proof.
  split.
  - intros (j & Hj & <-). set (items := split DOT name) in *.
    assert (join DOT (drop j items) = join DOT items ∨
      ∃ p, join DOT items = p ++ DOT :: join DOT (drop j items)) as Hp.
    { destruct (decide (j = 0)%nat) as [->|]; [by left|right].
      exists (join DOT (take j items)). rewrite <-join_rows_app, take_drop; [done| |].
      - intros H%(f_equal length). rewrite length_take in H. simpl in H. lia.
      - intros H%(f_equal length). rewrite length_drop in H. simpl in H. lia. }
    rewrite (join_split DOT name : join DOT items = name) in Hp. split; [|exact Hp].
    destruct (drop j items) as [|a [|b rest]] eqn:Hd;
      try (apply (f_equal length) in Hd; rewrite length_drop in Hd; simpl in Hd; lia).
    rewrite join_cons by done. apply elem_of_app. right. by left.
  - intros [Hdot [->|[p ->]]].
    + exists 0%nat. apply split_length in Hdot. rewrite drop_0, join_split. split; [lia|done].
    + exists (length (split DOT p)). apply split_length in Hdot.
      rewrite split_app, length_app, drop_app_length, join_split. split; [|done].
      pose proof (split_ne DOT p). lia.
Qed.

(** [DomainMap::contains] is the parent-domain test: it answers yes exactly
    when, a trailing root dot removed, the name itself or one of its parent
    domains is in the set and has at least two labels; a single label never
    matches.  Its slice bounds never underflow. *)
Theorem contains_spec m domain :
  contains m domain = true ↔
  ∃ parent, parent ∈ domains m ∧ DOT ∈ parent ∧ parent_of parent (strip_root domain).
Proof.
  unfold contains. destruct (items_strip_root domain) as [Ht He]. cbn zeta in *.
  rewrite contains_loop_take, Ht by (destruct (ends_with _ _); lia).
  rewrite He, contains_loop_spec. split.
  - intros (j & Hj & Hin). eexists. split; [exact Hin|].
    apply suffix_parent. exists j. split; [lia|done].
  - intros (parent & Hin & Hp). apply suffix_parent in Hp as (j & Hj & <-).
    exists j. split; [lia|done].
Qed.

(** google.com matches ab.google.com and ab.google.com. but not gle.com. *)
Example contains_examples :
  let m := add_domain domain_map_new [103; 46; 99] in
  contains m [97; 46; 103; 46; 99] = true ∧ contains m [97; 46; 103; 46; 99; 46] = true
  ∧ contains m [97; 103; 46; 99] = false ∧ contains m [46] = false.
Proof. by vm_compute. Qed.
