(* ===== verification/Env.v ===== *)
(** * The environment: sockets, TLS sessions, the operating system

    mio's sockets and registry, rustls' sessions and the system calls are not
    part of the program.  [Env] is their interface: abstract types and one
    operation for each call the program makes, a call on [&mut self] returning
    the object it leaves behind.  [EnvOk] states the documented behaviour the
    theorems rely on, through ghost observations of the bytes that went through.
    [Sim] is a scripted instance that satisfies all of it; the witnesses of the
    development run on it. *)

From Stdlib Require Import ZArith Lia.
From stdpp Require Import base option list.
From S2P Require Import Prelude Net.

Open Scope Z_scope.

(** [mio::event::Event]. *)
Record Event : Type := mkEvent { ev_token : Z; is_readable : bool; is_writable : bool }.

Class Env : Type := {
  TcpStream : Type;
  UdpSocket : Type;
  Session : Type;
  OS : Type;

  (** [mio::net::TcpStream].  [register] and its siblings are the calls on
      [poll.registry()] for the stream; [true] is [Ok]. *)
  tcp_stream_read : TcpStream → nat → io_result bytes * TcpStream;
  tcp_stream_write : TcpStream → bytes → io_result nat * TcpStream;
  tcp_shutdown : TcpStream → TcpStream;
  tcp_register : TcpStream → Z → bool * TcpStream;
  tcp_reregister : TcpStream → Z → bool * TcpStream;
  tcp_deregister : TcpStream → TcpStream;
  tcp_set_nodelay : TcpStream → bool * TcpStream;
  tcp_peer_addr : TcpStream → option SocketAddr;
  tcp_connect : OS → SocketAddr → option TcpStream * OS;
  (** [mio::net::TcpListener::accept], on the program's one listener. *)
  tcp_accept : OS → io_result (TcpStream * SocketAddr) * OS;

  (** [mio::net::UdpSocket]. *)
  udp_recv_from : UdpSocket → nat → io_result (bytes * SocketAddr) * UdpSocket;
  udp_send_to : UdpSocket → bytes → SocketAddr → io_result nat * UdpSocket;
  udp_register : UdpSocket → Z → bool * UdpSocket;
  udp_reregister : UdpSocket → Z → bool * UdpSocket;
  udp_deregister : UdpSocket → UdpSocket;
  udp_peer_addr : UdpSocket → option SocketAddr;
  udp_bind : OS → SocketAddr → option UdpSocket * OS;

  (** [rustls::Connection]. *)
  session_read_tls : Session → TcpStream → io_result nat * Session * TcpStream;
  session_write_tls : Session → TcpStream → io_result nat * Session * TcpStream;
  session_process_new_packets : Session → bool * Session;
  session_reader_read : Session → nat → io_result bytes * Session;
  session_reader_read_to_end : Session → io_result unit * bytes * Session;
  session_writer_write : Session → bytes → io_result nat * Session;
  session_writer_write_all : Session → bytes → bool * Session;
  session_wants_write : Session → bool;
  client_session_new : OS → option Session * OS;
  server_session_new : OS → Session * OS
}.

(** Ghost observations and the documented behaviour of the operations. *)
Class EnvOk (E : Env) : Type := {
  (** bytes accepted by [write] and handed out by [read] so far *)
  sent : TcpStream → bytes;
  received : TcpStream → bytes;
  (** what the kernel still has for [read]; finite *)
  rx_left : TcpStream → nat;
  (** plaintext accepted by the session's writer so far *)
  plain_out : Session → bytes;
  (** plaintext handed out by the session's reader so far *)
  plain_in : Session → bytes;
  (** what [read_tls] and [write_tls] still can move; finite *)
  tls_rx_left : Session → TcpStream → nat;
  tls_tx_left : Session → TcpStream → nat;
  (** the plaintext the session can still hand out; finite *)
  plain_left : Session → TcpStream → nat;
  udp_rx_left : UdpSocket → nat;
  accept_left : OS → nat;
  (** datagrams sent and handed out so far *)
  datagrams : UdpSocket → list (bytes * SocketAddr);
  taken : UdpSocket → list (bytes * SocketAddr);

  tcp_read_ok s n d s' : tcp_stream_read s n = (IoOk d, s') →
    (length d <= n)%nat ∧ received s' = received s ++ d ∧ sent s' = sent s
    ∧ (d ≠ [] → rx_left s' < rx_left s)%nat;
  tcp_read_err s n k s' : tcp_stream_read s n = (IoErr k, s') →
    received s' = received s ∧ sent s' = sent s;
  tcp_write_ok s d n s' : tcp_stream_write s d = (IoOk n, s') →
    (n <= length d)%nat ∧ sent s' = sent s ++ take n d ∧ received s' = received s;
  tcp_write_err s d k s' : tcp_stream_write s d = (IoErr k, s') →
    sent s' = sent s ∧ received s' = received s;
  tcp_shutdown_frame s : sent (tcp_shutdown s) = sent s;
  tcp_deregister_frame s : sent (tcp_deregister s) = sent s;
  tcp_register_frame s t : sent (tcp_register s t).2 = sent s;
  tcp_nodelay_frame s : sent (tcp_set_nodelay s).2 = sent s;
  tcp_shutdown_received s : received (tcp_shutdown s) = received s;
  tcp_deregister_received s : received (tcp_deregister s) = received s;
  tcp_register_received s t : received (tcp_register s t).2 = received s;
  tcp_nodelay_received s : received (tcp_set_nodelay s).2 = received s;
  tcp_connect_fresh w a s w' : tcp_connect w a = (Some s, w') → sent s = [];

  tcp_accept_ok w s a w' : tcp_accept w = (IoOk (s, a), w') → (accept_left w' < accept_left w)%nat;
  tcp_connect_left w a : (accept_left (tcp_connect w a).2 <= accept_left w)%nat;
  client_session_left w : (accept_left (client_session_new w).2 <= accept_left w)%nat;
  tcp_accept_fresh w s a w' : tcp_accept w = (IoOk (s, a), w') → sent s = [] ∧ received s = [];

  udp_recv_ok s n d a s' : udp_recv_from s n = (IoOk (d, a), s') →
    (length d <= n)%nat ∧ (udp_rx_left s' < udp_rx_left s)%nat
    ∧ datagrams s' = datagrams s ∧ taken s' = taken s ++ [(d, a)];
  udp_recv_err s n k s' : udp_recv_from s n = (IoErr k, s') →
    datagrams s' = datagrams s ∧ taken s' = taken s;
  udp_send_ok s d a n s' : udp_send_to s d a = (IoOk n, s') →
    (n <= length d)%nat ∧ datagrams s' = datagrams s ++ [(take n d, a)];
  udp_send_err s d a k s' : udp_send_to s d a = (IoErr k, s') → datagrams s' = datagrams s;
  udp_bind_fresh w a s w' : udp_bind w a = (Some s, w') → datagrams s = [] ∧ taken s = [];
  udp_deregister_frame s : datagrams (udp_deregister s) = datagrams s;
  (** a pending [ConnectionReset] is reported once; sending brings nothing in *)
  udp_recv_reset s n s' : udp_recv_from s n = (IoErr ConnectionReset, s') →
    (udp_rx_left s' < udp_rx_left s)%nat;
  udp_send_left s d a : (udp_rx_left (udp_send_to s d a).2 <= udp_rx_left s)%nat;
  udp_send_taken s d a : taken (udp_send_to s d a).2 = taken s;
  udp_reregister_frame s k : datagrams (udp_reregister s k).2 = datagrams s
    ∧ taken (udp_reregister s k).2 = taken s;

  read_tls_ok c s n c' s' : session_read_tls c s = (IoOk n, c', s') →
    plain_out c' = plain_out c ∧ plain_in c' = plain_in c
    ∧ (n ≠ 0 → tls_rx_left c' s' < tls_rx_left c s)%nat;
  read_tls_err c s k c' s' : session_read_tls c s = (IoErr k, c', s') →
    plain_out c' = plain_out c ∧ plain_in c' = plain_in c;
  process_frame c :
    plain_out (session_process_new_packets c).2 = plain_out c
    ∧ plain_in (session_process_new_packets c).2 = plain_in c;
  read_to_end_frame c r d c' : session_reader_read_to_end c = (r, d, c') →
    plain_out c' = plain_out c ∧ plain_in c' = plain_in c ++ d;
  write_tls_ok c s n c' s' : session_write_tls c s = (IoOk n, c', s') →
    session_wants_write c = true →
    plain_out c' = plain_out c ∧ plain_in c' = plain_in c
    ∧ (tls_tx_left c' s' < tls_tx_left c s)%nat;
  write_tls_err c s k c' s' : session_write_tls c s = (IoErr k, c', s') →
    plain_out c' = plain_out c ∧ plain_in c' = plain_in c;
  write_all_ok c d c' : session_writer_write_all c d = (true, c') →
    plain_out c' = plain_out c ++ d ∧ plain_in c' = plain_in c;
  write_all_err c d c' : session_writer_write_all c d = (false, c') →
    (∃ n, plain_out c' = plain_out c ++ take n d) ∧ plain_in c' = plain_in c;
  client_session_fresh w c w' : client_session_new w = (Some c, w') →
    plain_out c = [] ∧ plain_in c = [];

  read_tls_left c s r c' s' : session_read_tls c s = (r, c', s') →
    (plain_left c' s' <= plain_left c s)%nat;
  process_left c s : (plain_left (session_process_new_packets c).2 s <= plain_left c s)%nat;
  read_to_end_left c s r d c' : session_reader_read_to_end c = (r, d, c') →
    (plain_left c' s + length d <= plain_left c s)%nat;
  write_tls_left c s r c' s' : session_write_tls c s = (r, c', s') →
    (plain_left c' s' <= plain_left c s)%nat;
  tcp_shutdown_left c s : (plain_left c (tcp_shutdown s) <= plain_left c s)%nat;
  write_all_left c s d : (plain_left (session_writer_write_all c d).2 s <= plain_left c s)%nat
}.

(** ** A scripted environment *)

Module Sim.

Record stream : Type := mkStream {
  st_rx : list (io_result bytes);
  st_tx : list (io_result nat);
  st_received : bytes;
  st_sent : bytes
}.

Record session : Type := mkSession {
  ss_rx : list (io_result nat);
  ss_tx : list (io_result nat);
  ss_plain_in : list bytes;
  ss_plain_out : bytes;
  ss_room : nat;
  ss_heard : bytes
}.

Record socket : Type := mkSocket {
  sk_rx : list (bytes * SocketAddr);
  sk_tx : list (io_result nat);
  sk_sent : list (bytes * SocketAddr);
  sk_taken : list (bytes * SocketAddr)
}.

(** The peers that can be connected to, and the clients waiting to be accepted. *)
Record system : Type := mkSystem { os_peers : list stream; os_clients : list stream }.

Definition connect (w : system) : option stream * system :=
  match os_peers w with
  | s :: peers => (Some (mkStream (st_rx s) (st_tx s) [] []), mkSystem peers (os_clients w))
  | [] => (None, w)
  end.

Definition accept (w : system) : io_result (stream * SocketAddr) * system :=
  match os_clients w with
  | s :: clients =>
      (IoOk (mkStream (st_rx s) (st_tx s) [] [], mkSocketAddr (V4 [192; 0; 2; 7]) 40000), mkSystem (os_peers w) clients)
  | [] => (IoErr WouldBlock, w)
  end.

Definition read (s : stream) (n : nat) : io_result bytes * stream :=
  match st_rx s with
  | [] => (IoErr WouldBlock, s)
  | IoErr k :: rx => (IoErr k, mkStream rx (st_tx s) (st_received s) (st_sent s))
  | IoOk d :: rx =>
      if (length d <=? n)%nat
      then (IoOk d, mkStream rx (st_tx s) (st_received s ++ d) (st_sent s))
      else (IoOk (take n d),
            mkStream (IoOk (drop n d) :: rx) (st_tx s) (st_received s ++ take n d) (st_sent s))
  end.

Definition write (s : stream) (d : bytes) : io_result nat * stream :=
  match st_tx s with
  | [] => (IoOk (length d), mkStream (st_rx s) [] (st_received s) (st_sent s ++ d))
  | IoErr k :: tx => (IoErr k, mkStream (st_rx s) tx (st_received s) (st_sent s))
  | IoOk n :: tx =>
      (IoOk (min n (length d)), mkStream (st_rx s) tx (st_received s) (st_sent s ++ take n d))
  end.

Definition rx_item (r : io_result bytes) : nat :=
  match r with IoOk d => S (length d) | IoErr _ => 1 end.

Definition read_tls (c : session) (s : stream) : io_result nat * session * stream :=
  match ss_rx c with
  | [] => (IoErr WouldBlock, c, s)
  | r :: rx => (r, 
      mkSession rx (ss_tx c) (ss_plain_in c) (ss_plain_out c) (ss_room c) (ss_heard c), s)
  end.

Definition write_tls (c : session) (s : stream) : io_result nat * session * stream :=
  match ss_tx c with
  | [] => (IoErr WouldBlock, c, s)
  | r :: tx => (r, 
      mkSession (ss_rx c) tx (ss_plain_in c) (ss_plain_out c) (ss_room c) (ss_heard c), s)
  end.

(** Hand out [d], with [p] left to read. *)
Definition hand_out (c : session) (d : bytes) (p : list bytes) : session :=
  mkSession (ss_rx c) (ss_tx c) p (ss_plain_out c) (ss_room c) (ss_heard c ++ d).

Definition read_to_end (c : session) : io_result unit * bytes * session :=
  match ss_plain_in c with
  | [] => (IoErr WouldBlock, [], c)
  | d :: p => (IoErr WouldBlock, d, hand_out c d p)
  end.

(** One chunk, as much of it as fits the reader. *)
Definition reader_read (c : session) (n : nat) : io_result bytes * session :=
  match ss_plain_in c with
  | [] => (IoErr WouldBlock, c)
  | d :: p =>
      (IoOk (take n d), hand_out c (take n d) (match drop n d with [] => p | rest => rest :: p end))
  end.

Definition writer_write (c : session) (d : bytes) : io_result nat * session :=
  let n := Nat.min (ss_room c) (length d) in
  (IoOk n, mkSession (ss_rx c) (ss_tx c) (ss_plain_in c) (ss_plain_out c ++ take n d)
             (ss_room c - n) (ss_heard c)).

Definition writer_write_all (c : session) (d : bytes) : bool * session :=
  if (length d <=? ss_room c)%nat
  then (true, mkSession (ss_rx c) (ss_tx c) (ss_plain_in c) (ss_plain_out c ++ d)
                (ss_room c - length d) (ss_heard c))
  else (false, mkSession (ss_rx c) (ss_tx c) (ss_plain_in c)
                 (ss_plain_out c ++ take (ss_room c) d) 0 (ss_heard c)).

Definition recv_from (s : socket) (n : nat) : io_result (bytes * SocketAddr) * socket :=
  match sk_rx s with
  | [] => (IoErr WouldBlock, s)
  | (d, a) :: rx => (IoOk (take n d, a), mkSocket rx (sk_tx s) (sk_sent s) (sk_taken s ++ [(take n d, a)]))
  end.

Definition send_to (s : socket) (d : bytes) (a : SocketAddr) : io_result nat * socket :=
  match sk_tx s with
  | [] => (IoOk (length d), mkSocket (sk_rx s) [] (sk_sent s ++ [(d, a)]) (sk_taken s))
  | IoErr k :: tx => (IoErr k, mkSocket (sk_rx s) tx (sk_sent s) (sk_taken s))
  | IoOk n :: tx => 
      (IoOk (min n (length d)), mkSocket (sk_rx s) tx (sk_sent s ++ [(take n d, a)]) (sk_taken s))
  end.

Definition idle_stream : stream := mkStream [] [] [] [].
Definition idle_session : session := mkSession [] [] [] [] 65536 [].
Definition idle_socket : socket := mkSocket [] [] [] [].

#[export] Instance env : Env := {
  TcpStream := stream; UdpSocket := socket; Session := session; OS := system;
  tcp_stream_read := read;
  tcp_stream_write := write;
  tcp_shutdown s := s;
  tcp_register s _ := (true, s);
  tcp_reregister s _ := (true, s);
  tcp_deregister s := s;
  tcp_set_nodelay s := (true, s);
  tcp_peer_addr _ := Some (mkSocketAddr (V4 [192; 0; 2; 7]) 40000);

  tcp_connect w _ := connect w;
  tcp_accept := accept;
  udp_recv_from := recv_from;
  udp_send_to := send_to;
  udp_register s _ := (true, s);
  udp_reregister s _ := (true, s);
  udp_deregister s := s;
  udp_peer_addr _ := None;
  udp_bind w _ := (Some idle_socket, w);
  session_read_tls := read_tls;
  session_write_tls := write_tls;
  session_process_new_packets c := (true, c);
  session_reader_read := reader_read;
  session_reader_read_to_end := read_to_end;
  session_writer_write := writer_write;
  session_writer_write_all := writer_write_all;
  session_wants_write c := match ss_tx c with [] => false | _ => true end;
  client_session_new w := (Some idle_session, w);
  server_session_new w := (idle_session, w)
}.

#[export] Program Instance env_ok : EnvOk env := {
  sent := st_sent;
  received := st_received;
  rx_left s := sum_list_with rx_item (st_rx s);
  plain_out := ss_plain_out;
  plain_in := ss_heard;
  tls_rx_left c _ := length (ss_rx c);
  tls_tx_left c _ := length (ss_tx c);
  plain_left c _ := sum_list_with length (ss_plain_in c);
  udp_rx_left s := length (sk_rx s);
  accept_left w := length (os_clients w);
  datagrams := sk_sent;
  taken := sk_taken
}.
Next Obligation.
  intros [rx tx r t] n d s'. simpl. unfold read. simpl. destruct rx as [|[e|k] rx]; try done.
  destruct (Nat.leb_spec (length e) n) as [Hle|Hgt]; intros [= <- <-]; simpl; split_and!; try done.
  - intros _. lia.
  - rewrite length_take. lia.
  - intros Hne. rewrite length_drop.
    destruct n as [|n]; [done|]. lia.
Qed.
Next Obligation.
  intros [rx tx r t] n k s'. simpl. unfold read. simpl. destruct rx as [|[e|k'] rx]; try done.
  - by intros [= <- <-].
  - by case_match.
  - by intros [= <- <-].
Qed.
Next Obligation.
  intros [rx tx r t] d n s'. simpl. unfold write. simpl. destruct tx as [|[m|k] tx]; try done.
  - intros [= <- <-]. simpl. by rewrite firstn_all.
  - intros [= <- <-]. simpl. split_and!; [lia| |done]. f_equal.
    destruct (Nat.le_gt_cases m (length d)).
    + by rewrite Nat.min_l.
    + by rewrite Nat.min_r, !take_ge by lia.
Qed.
Next Obligation.
  intros [rx tx r t] d k s'. simpl. unfold write. simpl. destruct tx as [|[m|k'] tx]; try done.
  by intros [= <- <-].
Qed.
Next Obligation. done. Qed.
Next Obligation. done. Qed.
Next Obligation. done. Qed.
Next Obligation. done. Qed.
Next Obligation. done. Qed.
Next Obligation. done. Qed.
Next Obligation. done. Qed.
Next Obligation. done. Qed.
Next Obligation.
  intros [[|s' w] cl] a s w'; simpl; unfold connect; simpl; [done|]. by intros [= <- <-].
Qed.
Next Obligation.
  intros [pe [|s' cl]] s a w'; simpl; unfold accept; simpl; [done|]. intros [= <- <- <-]. simpl. lia.
Qed.
Next Obligation. by intros [[|s' pe] cl] a. Qed.
Next Obligation. done. Qed.
Next Obligation.
  intros [pe [|s' cl]] s a w'; simpl; unfold accept; simpl; [done|]. by intros [= <- <- <-].
Qed.
Next Obligation.
  intros [rx tx r tk] n d a s'. simpl. unfold recv_from. simpl. destruct rx as [|[e b] rx]; [done|].
  intros [= <- <- <-]. simpl. rewrite length_take. split_and!; [lia|lia|done|done].
Qed.
Next Obligation.
  intros [rx tx r tk] n k s'. simpl. unfold recv_from. simpl. destruct rx as [|[e b] rx]; [|done].
  by intros [= <- <-].
Qed.
Next Obligation.
  intros [rx tx r tk] d a n s'. simpl. unfold send_to. simpl. destruct tx as [|[m|k] tx]; [| |done].
  - intros [= <- <-]. simpl. by rewrite firstn_all.
  - intros [= <- <-]. simpl. split; [lia|]. do 3 f_equal.
    destruct (Nat.le_gt_cases m (length d)).
    + by rewrite Nat.min_l.
    + by rewrite Nat.min_r, !take_ge by lia.
Qed.
Next Obligation.
  intros [rx tx r tk] d a k s'. simpl. unfold send_to. simpl. destruct tx as [|[m|k'] tx]; try done.
  by intros [= <- <-].
Qed.
Next Obligation. by intros w a s w' [= <- <-]. Qed.
Next Obligation. done. Qed.
Next Obligation.
  intros [[|[e b] rx] tx r tk] n s'; simpl; unfold recv_from; simpl; [by intros [= ]|done].
Qed.
Next Obligation. by intros [rx [|[m|k] tx] r tk] d a. Qed.
Next Obligation. by intros [rx [|[m|k] tx] r tk] d a. Qed.
Next Obligation. done. Qed.
Next Obligation.
  intros [rx tx pi po room hd] s n c' s'. simpl. unfold read_tls. simpl. destruct rx as [|r rx]; [done|].
  intros [= -> <- <-]. simpl. split_and!; [done|done|lia].
Qed.
Next Obligation.
  intros [rx tx pi po room hd] s k c' s'. simpl. unfold read_tls. simpl.
  destruct rx as [|r rx]; by intros [= ? <- <-].
Qed.
Next Obligation. done. Qed.
Next Obligation.
  intros [rx tx [|d pi] po room hd] r e c'; intros [= <- <- <-]; simpl; by rewrite ?app_nil_r.
Qed.
Next Obligation.
  intros [rx tx pi po room hd] s n c' s'. simpl. unfold write_tls. simpl. destruct tx as [|r tx]; [done|].
  intros [= -> <- <-] _. simpl. split_and!; [done|done|lia].
Qed.
Next Obligation.
  intros [rx tx pi po room hd] s k c' s'. simpl. unfold write_tls. simpl.
  destruct tx as [|r tx]; by intros [= ? <- <-].
Qed.
Next Obligation.
  intros [rx tx pi po room hd] d c'. simpl. unfold writer_write_all. simpl.
  case_match; by intros [= <-].
Qed.
Next Obligation.
  intros [rx tx pi po room hd] d c'. simpl. unfold writer_write_all. simpl.
  case_match; intros [= <-]. split; [by exists room|done].
Qed.
Next Obligation. by intros w c w' [= <- <-]. Qed.
Next Obligation.
  intros [[|x rx] tx pi po room hd] s r c' s'; simpl; unfold read_tls; simpl;
    intros [= <- <- <-]; simpl; lia.
Qed.
Next Obligation. done. Qed.
Next Obligation.
  intros [rx tx [|d pi] po room hd] s r e c'; intros [= <- <- <-]; simpl; lia.
Qed.
Next Obligation.
  intros [rx [|x tx] pi po room hd] s r c' s'; simpl; unfold write_tls; simpl;
    intros [= <- <- <-]; simpl; lia.
Qed.
Next Obligation. done. Qed.
Next Obligation.
  intros [rx tx pi po room hd] s d. simpl. unfold writer_write_all. simpl. by case_match.
Qed.

End Sim.
