(* ===== verification/TlsConn.v ===== *)
(** * TLS connections ([src/src/tls_conn.rs])

    A non-blocking TLS connection: a rustls session over a TCP stream, with its
    token and its life-cycle status.  A loop takes [fuel]; [None] is a loop that
    ran out of it, which the [_total] lemmas exclude. *)

From Stdlib Require Import ZArith Lia.
From stdpp Require Import base option list.
From S2P Require Import Prelude Net Status Env.

Open Scope Z_scope.

Section TlsConn.
Context {E : Env}.

Record TlsConn : Type := mkTlsConn {
  session : Session;
  stream : TcpStream;
  index : Z;
  token : Z;
  status : ConnStatus;
  writable_ : bool
}.

Definition with_io (c : TlsConn) (s : Session) (t : TcpStream) : TlsConn :=
  mkTlsConn s t (index c) (token c) (status c) (writable_ c).
Definition with_session (c : TlsConn) (s : Session) : TlsConn := with_io c s (stream c).
Definition with_stream (c : TlsConn) (t : TcpStream) : TlsConn := with_io c (session c) t.
Definition with_writable (c : TlsConn) (w : bool) : TlsConn :=
  mkTlsConn (session c) (stream c) (index c) (token c) (status c) w.

Definition tls_conn_new (index token : Z) (session : Session) (stream : TcpStream) : TlsConn :=
  mkTlsConn session stream index token Connecting true.

#[export] Instance TlsConn_status : StatusProvider TlsConn := {
  set_status c st := mkTlsConn (session c) (stream c) (index c) (token c) st (writable_ c);
  get_status := status;
  close_conn c := (true, with_stream c (tcp_shutdown (stream c)));
  deregister c := (true, with_stream c (tcp_deregister (stream c)));
  finish_send c := (negb (session_wants_write (session c)), c)
}.

(** [self.shutdown();], its result dropped. *)
Definition tls_shutdown (c : TlsConn) : TlsConn := (shutdown c).2.

Definition close (c : TlsConn) : TlsConn :=
  with_stream c (tcp_deregister (tcp_shutdown (stream c))).

Definition source (c : TlsConn) : option IpAddr := sa_ip <$> tcp_peer_addr (stream c).

Definition reregister (c : TlsConn) : bool * TlsConn :=
  let '(ok, t) := tcp_reregister (stream c) (token c) in
  let c := with_stream c t in
  if (ok : bool) then (true, c) else (false, tls_shutdown c).

Definition reset_index (c : TlsConn) (index token : Z) : bool * TlsConn :=
  reregister (mkTlsConn (session c) (stream c) index token (status c) (writable_ c)).

Definition set_token (c : TlsConn) (token : Z) : bool * TlsConn :=
  let '(ok, t) := tcp_reregister (stream c) token in
  (ok, mkTlsConn (session c) t (index c) token (status c) (writable_ c)).

Definition register (c : TlsConn) : bool * TlsConn :=
  let '(ok, t) := tcp_register (stream c) (token c) in
  let c := with_stream c t in
  if (ok : bool) then (true, c) else (false, tls_shutdown c).

Definition writable (c : TlsConn) : bool := writable_ c && alive c.

(** The loop of [do_read]: take in TLS records until the stream blocks. *)
Fixpoint do_read_loop (fuel : nat) (c : TlsConn) : option TlsConn :=
  match fuel with
  | O => None
  | S fuel =>
      let '(r, s, t) := session_read_tls (session c) (stream c) in
      let c := with_io c s t in
      match r with
      | IoOk O => Some (tls_shutdown c)
      | IoOk (S _) => do_read_loop fuel c
      | IoErr WouldBlock | IoErr NotConnected => Some c
      | IoErr _ => Some (tls_shutdown c)
      end
  end.

(** The rest of [do_read]: decrypt and hand out the plaintext. *)
Definition do_read_plain (c : TlsConn) : option bytes * TlsConn :=
  let '(ok, s) := session_process_new_packets (session c) in
  let c := with_session c s in
  if (ok : bool) then
    let '(r, buffer, s) := session_reader_read_to_end (session c) in
    let c := with_session c s in
    let c := match r with
             | IoOk _ | IoErr WouldBlock => c
             | IoErr _ => tls_shutdown c
             end in
    (if decide (buffer = []) then None else Some buffer, c)
  else (None, tls_shutdown c).

Definition do_read (fuel : nat) (c : TlsConn) : option (option bytes * TlsConn) :=
  c ← do_read_loop fuel c; Some (do_read_plain c).

Fixpoint do_send_loop (fuel : nat) (c : TlsConn) : option TlsConn :=
  match fuel with
  | O => None
  | S fuel =>
      if negb (session_wants_write (session c)) then Some c
      else
        let '(r, s, t) := session_write_tls (session c) (stream c) in
        let c := with_io c s t in
        match r with
        | IoOk _ => do_send_loop fuel c
        | IoErr WouldBlock => Some (with_writable c false)
        | IoErr _ => Some (tls_shutdown c)
        end
  end.

Definition do_send (fuel : nat) (c : TlsConn) : option TlsConn :=
  if is_connecting c then Some c else do_send_loop fuel (with_writable c true).

Definition write_session (c : TlsConn) (data : bytes) : bool * TlsConn :=
  let '(ok, s) := session_writer_write_all (session c) data in
  let c := with_session c s in
  if (ok : bool) then (true, c) else (false, tls_shutdown c).

(** [impl Read for TlsConn]: the buffer's length is [n].  The recursive call
    retries once the session has taken in a record. *)
Fixpoint tls_read (fuel : nat) (c : TlsConn) (n : nat) : option (io_result bytes * TlsConn) :=
  match fuel with
  | O => None
  | S fuel =>
      let '(ret, s) := session_reader_read (session c) n in
      let c := with_session c s in
      match ret with
      | IoErr WouldBlock =>
          let '(ret, s, t) := session_read_tls (session c) (stream c) in
          let c := with_io c s t in
          match ret with
          | IoOk (S _) =>
              let '(ok, s) := session_process_new_packets (session c) in
              let c := with_session c s in
              if (ok : bool) then tls_read fuel c n else Some (IoErr OtherKind, c)
          | IoErr NotConnected => Some (IoErr WouldBlock, c)
          | IoOk O => Some (IoOk [], c)
          | IoErr k => Some (IoErr k, c)
          end
      | ret => Some (ret, c)
      end
  end.

(** [impl Write for TlsConn]. *)
Fixpoint tls_write (fuel : nat) (c : TlsConn) (buf : bytes) : option (io_result nat * TlsConn) :=
  match fuel with
  | O => None
  | S fuel =>
      let '(ret, s) := session_writer_write (session c) buf in
      let c := with_session c s in
      match ret with
      | IoOk O =>
          let '(ret, s, t) := session_write_tls (session c) (stream c) in
          let c := with_io c s t in
          match ret with
          | IoErr NotConnected => Some (IoErr WouldBlock, c)
          | IoOk (S _) => tls_write fuel c buf
          | ret => Some (ret, c)
          end
      | ret => Some (ret, c)
      end
  end.

Definition flush (c : TlsConn) : io_result unit * TlsConn :=
  let '(ret, s, t) := session_write_tls (session c) (stream c) in
  (match ret with
   | IoOk _ => IoOk tt
   | IoErr NotConnected => IoErr WouldBlock
   | IoErr k => IoErr k
   end, with_io c s t).

(** ** The interface of [status.rs] *)

#[export] Instance TlsConn_lawful : LawfulStatus TlsConn.
Proof. by split. Qed.

#[export] Instance TlsConn_infallible : InfallibleStatus TlsConn.
Proof. by split. Qed.

Lemma tls_shutdown_status c :
  status (tls_shutdown c) = match status c with Deregistered => Deregistered | _ => Shutdown end.
Proof. exact (get_shutdown_ok c). Qed.

Lemma session_tls_shutdown c : session (tls_shutdown c) = session c.
Proof. unfold tls_shutdown, shutdown. simpl. by destruct (status c). Qed.

Lemma index_tls_shutdown c : index (tls_shutdown c) = index c.
Proof. unfold tls_shutdown, shutdown. simpl. by destruct (status c). Qed.

Lemma token_tls_shutdown c : token (tls_shutdown c) = token c.
Proof. unfold tls_shutdown, shutdown. simpl. by destruct (status c). Qed.

(** ** Totality and conservation *)

Context `{!EnvOk E}.

(** The plaintext handed to the session so far. *)
Definition plain (c : TlsConn) : bytes := plain_out (session c).
(** The plaintext read from the session so far. *)
Definition heard (c : TlsConn) : bytes := plain_in (session c).
Definition rx_measure (c : TlsConn) : nat := tls_rx_left (session c) (stream c).
Definition tx_measure (c : TlsConn) : nat := tls_tx_left (session c) (stream c).

(** What no operation but [shutdown] changes. *)
Record same_identity (c c' : TlsConn) : Prop := {
  same_index : index c' = index c;
  same_token : token c' = token c;
  same_status : status c' = status c ∨ status c' = Shutdown
}.

Lemma same_identity_refl c : same_identity c c.
Proof. split; auto. Qed.

Lemma same_identity_shutdown c : same_identity c (tls_shutdown c).
Proof.
  split; [apply index_tls_shutdown|apply token_tls_shutdown|].
  rewrite tls_shutdown_status. destruct (status c); auto.
Qed.

Lemma same_identity_trans a b c : same_identity a b → same_identity b c → same_identity a c.
Proof.
  intros [Hi Ht Hs] [Hi' Ht' Hs']. split; [congruence|congruence|].
  destruct Hs' as [-> | ->]; auto.
Qed.

Lemma same_identity_io c s t : same_identity c (with_io c s t).
Proof. split; auto. Qed.

Lemma same_identity_io_shutdown c s t : same_identity c (tls_shutdown (with_io c s t)).
Proof. eapply same_identity_trans; [apply same_identity_io|apply same_identity_shutdown]. Qed.

(** [c'] is [c] after operations that move no plaintext. *)
Record quiet (c c' : TlsConn) : Prop := {
  quiet_plain : plain c' = plain c;
  quiet_heard : heard c' = heard c;
  quiet_identity : same_identity c c'
}.

Lemma quiet_refl c : quiet c c.
Proof. split; [done|done|apply same_identity_refl]. Qed.

Lemma quiet_trans a b c : quiet a b → quiet b c → quiet a c.
Proof.
  intros [H1 H2 H3] [H4 H5 H6]. split; [congruence|congruence|by eapply same_identity_trans].
Qed.

Lemma quiet_io c s t : plain_out s = plain c → plain_in s = heard c → quiet c (with_io c s t).
Proof. intros H1 H2. split; [done|done|apply same_identity_io]. Qed.

Lemma quiet_shutdown c : quiet c (tls_shutdown c).
Proof.
  split; [unfold plain|unfold heard|apply same_identity_shutdown]; by rewrite session_tls_shutdown.
Qed.

Lemma quiet_io_shutdown c s t :
  plain_out s = plain c → plain_in s = heard c → quiet c (tls_shutdown (with_io c s t)).
Proof. intros H1 H2. eapply quiet_trans; [by apply quiet_io|apply quiet_shutdown]. Qed.

Lemma same_identity_down c c' : same_identity c c' → is_shutdown c = true → is_shutdown c' = true.
Proof. intros [_ _ Hs]. unfold is_shutdown. simpl. by destruct Hs as [-> | ->]. Qed.

#[global] Instance heard_frame : FrameStatus heard.
Proof. by split. Qed.

#[global] Instance plain_frame : FrameStatus plain.
Proof. by split. Qed.

#[global] Instance index_frame : FrameStatus index.
Proof. by split. Qed.

#[global] Instance token_frame : FrameStatus token.
Proof. by split. Qed.

Lemma do_read_loop_terminates c : terminates (λ fuel, do_read_loop fuel c) (quiet c).
Proof.
  induction c as [c IH] using (induction_ltof1 _ rx_measure). unfold ltof in IH.
  apply terminates_S. cbn [do_read_loop].
  destruct (session_read_tls (session c) (stream c)) as [[[n|k] s] t] eqn:Hr.
  - destruct (read_tls_ok _ _ _ _ _ Hr) as (Hp & Hh & Hm). destruct n as [|n].
    { apply terminates_ret. by apply quiet_io_shutdown. }
    eapply terminates_weaken.
    { apply (IH (with_io c s t)). unfold rx_measure. simpl. by apply Hm. }
    intros c'. apply quiet_trans. by apply quiet_io.
  - destruct (read_tls_err _ _ _ _ _ Hr) as [Hp Hh].
    destruct k; apply terminates_ret; auto using quiet_io, quiet_io_shutdown.
Qed.

(** What a read hands out, and what it leaves behind. *)
Record heard_more (c : TlsConn) (d : bytes) (c' : TlsConn) : Prop := {
  hm_plain : plain c' = plain c;
  hm_heard : heard c' = heard c ++ d;
  hm_identity : same_identity c c'
}.

Lemma quiet_heard_more c c' : quiet c c' → heard_more c [] c'.
Proof. intros [H1 H2 H3]. split; [done|by rewrite app_nil_r|done]. Qed.

Lemma heard_more_trans a d b e c : heard_more a d b → heard_more b e c → heard_more a (d ++ e) c.
Proof.
  intros [H1 H2 H3] [H4 H5 H6].
  split; [congruence|by rewrite H5, H2, app_assoc|by eapply same_identity_trans].
Qed.

Lemma do_read_plain_heard c :
  heard_more c (default [] (do_read_plain c).1) (do_read_plain c).2 ∧ (do_read_plain c).1 ≠ Some [].
Proof.
  unfold do_read_plain. pose proof (process_frame (session c)) as [Hp Hh].
  destruct (session_process_new_packets (session c)) as [[] s]; simpl in Hp, Hh.
  2: { split; [|done]. apply quiet_heard_more. exact (quiet_io_shutdown c s (stream c) Hp Hh). }
  cbn [session with_session with_io].
  destruct (session_reader_read_to_end s) as [[r buffer] s2] eqn:Hr.
  destruct (read_to_end_frame _ _ _ _ Hr) as [Hp2 Hh2]. cbn [fst snd].
  split; [|case_decide; congruence].
  assert (heard_more c buffer (with_io c s2 (stream c))) as Hm.
  { split; [unfold plain in *; simpl; congruence|unfold heard in *; simpl; congruence
           |apply same_identity_io]. }
  replace (default [] (if decide (buffer = []) then None else Some buffer)) with buffer
    by (by case_decide).
  assert (heard_more c buffer (tls_shutdown (with_io c s2 (stream c)))) as Hs.
  { rewrite <-(app_nil_r buffer). eapply heard_more_trans; [exact Hm|].
    apply quiet_heard_more, quiet_shutdown. }
  destruct r as [[]|[]]; first [exact Hm | exact Hs].
Qed.

(** [do_read] ends; what it returns is what the session hands out. *)
Lemma do_read_terminates c :
  terminates (λ fuel, do_read fuel c) (λ r, heard_more c (default [] r.1) r.2 ∧ r.1 ≠ Some []).
Proof.
  unfold do_read. eapply terminates_bind; [apply do_read_loop_terminates|].
  intros c1 Hc1. apply terminates_ret. destruct (do_read_plain_heard c1) as [Hm Hne].
  split; [|done]. eapply (heard_more_trans c []); [by apply quiet_heard_more|done].
Qed.

Lemma do_send_loop_terminates c : terminates (λ fuel, do_send_loop fuel c) (quiet c).
Proof.
  induction c as [c IH] using (induction_ltof1 _ tx_measure). unfold ltof in IH.
  apply terminates_S. cbn [do_send_loop].
  destruct (session_wants_write (session c)) eqn:Hw; simpl.
  2: { apply terminates_ret, quiet_refl. }
  destruct (session_write_tls (session c) (stream c)) as [[[n|k] s] t] eqn:Hr.
  - destruct (write_tls_ok _ _ _ _ _ Hr Hw) as (Hp & Hh & Hm). eapply terminates_weaken.
    { by apply (IH (with_io c s t)). }
    intros c'. apply quiet_trans. by apply quiet_io.
  - destruct (write_tls_err _ _ _ _ _ Hr) as [Hp Hh].
    destruct k; apply terminates_ret; try (by apply quiet_io_shutdown).
    split; [done|done|by split; auto].
Qed.

Lemma do_send_terminates c : terminates (λ fuel, do_send fuel c) (quiet c).
Proof.
  unfold do_send. destruct (is_connecting c); [apply terminates_ret, quiet_refl|].
  eapply terminates_weaken; [apply do_send_loop_terminates|].
  intros c' [Hp Hh [Hi Ht Hs]]. by split; [| |split].
Qed.

Lemma write_session_true c d c' :
  write_session c d = (true, c') →
  plain c' = plain c ++ d ∧ heard c' = heard c
  ∧ index c' = index c ∧ token c' = token c ∧ status c' = status c.
Proof.
  unfold write_session. destruct (session_writer_write_all (session c) d) as [[] s] eqn:Hw;
    [|done]. intros [= <-]. destruct (write_all_ok _ _ _ Hw). by split_and!.
Qed.

Lemma write_session_false c d c' :
  write_session c d = (false, c') →
  (∃ n, plain c' = plain c ++ take n d) ∧ heard c' = heard c
  ∧ is_shutdown c' = true ∧ same_identity c c'.
Proof.
  unfold write_session. destruct (session_writer_write_all (session c) d) as [[] s] eqn:Hw;
    [done|]. intros [= <-]. destruct (write_all_err _ _ _ Hw) as [Hp Hh]. split_and!.
  - unfold plain. by rewrite session_tls_shutdown.
  - unfold heard. by rewrite session_tls_shutdown.
  - apply is_shutdown_shutdown.
  - apply same_identity_io_shutdown.
Qed.

(** ** What is left to hear *)

(** The plaintext a connection can still hand out; reading uses it up, and no
    operation adds to it. *)
Definition left (c : TlsConn) : nat := plain_left (session c) (stream c).

Lemma left_shutdown c : (left (tls_shutdown c) <= left c)%nat.
Proof.
  unfold left, tls_shutdown, shutdown. simpl.
  destruct (status c); simpl; try done; apply tcp_shutdown_left.
Qed.

Lemma left_io_shutdown c s t k :
  (plain_left s t <= k)%nat → (left (tls_shutdown (with_io c s t)) <= k)%nat.
Proof. intros Hk. etrans; [apply left_shutdown|done]. Qed.

Lemma do_read_loop_left fuel c c' : do_read_loop fuel c = Some c' → (left c' <= left c)%nat.
Proof.
  revert c. induction fuel as [|fuel IH]; intros c; [done|]. cbn [do_read_loop].
  destruct (session_read_tls (session c) (stream c)) as [[r s] t] eqn:Hr.
  apply read_tls_left in Hr.
  destruct r as [[|n]|[]]; first
    [intros [= <-]; by apply left_io_shutdown | by intros [= <-] | intros Hc; etrans; [by apply IH|done]].
Qed.

Lemma do_read_plain_left c :
  (left (do_read_plain c).2 + length (default [] (do_read_plain c).1) <= left c)%nat.
Proof.
  unfold do_read_plain. pose proof (process_left (session c) (stream c)) as Hp.
  destruct (session_process_new_packets (session c)) as [[] s]; simpl in Hp.
  2: { simpl. rewrite Nat.add_0_r. by apply left_io_shutdown. }
  cbn [session with_session with_io].
  destruct (session_reader_read_to_end s) as [[r d] s2] eqn:Hr.
  apply (read_to_end_left _ (stream c)) in Hr. cbn [fst snd].
  replace (default [] (if decide (d = []) then None else Some d)) with d by (by case_decide).
  unfold left in *. destruct r as [[]|[]]; simpl; try lia;
    (eapply Nat.le_trans; [apply Nat.add_le_mono_r, (left_shutdown (with_io c s2 (stream c)))
                       |unfold left; simpl; lia]).
Qed.

Lemma do_read_left fuel c r : do_read fuel c = Some r →
  (left r.2 + length (default [] r.1) <= left c)%nat.
Proof.
  unfold do_read. destruct (do_read_loop fuel c) as [c1|] eqn:H1; [|done].
  apply do_read_loop_left in H1. intros [= <-]. etrans; [apply do_read_plain_left|done].
Qed.

Lemma do_send_loop_left fuel c c' : do_send_loop fuel c = Some c' → (left c' <= left c)%nat.
Proof.
  revert c. induction fuel as [|fuel IH]; intros c; [done|]. cbn [do_send_loop].
  destruct (negb _); [by intros [= <-]|].
  destruct (session_write_tls (session c) (stream c)) as [[r s] t] eqn:Hr.
  apply write_tls_left in Hr.
  destruct r as [n|[]]; first
    [intros [= <-]; by apply left_io_shutdown | by intros [= <-] | intros Hc; etrans; [by apply IH|done]].
Qed.

Lemma do_send_left fuel c c' : do_send fuel c = Some c' → (left c' <= left c)%nat.
Proof.
  unfold do_send. destruct (is_connecting c); [by intros [= <-]|]. intros Hc. by apply do_send_loop_left in Hc.
Qed.

Lemma write_session_left c d : (left (write_session c d).2 <= left c)%nat.
Proof.
  unfold write_session. pose proof (write_all_left (session c) (stream c) d) as Hw.
  destruct (session_writer_write_all (session c) d) as [[] s]; [done|]. by apply left_io_shutdown.
Qed.
End TlsConn.

#[global] Arguments TlsConn E : clear implicits.
