(* ===== verification/TcpUtil.v ===== *)
(** * Stream relaying ([src/src/tcp_util.rs] and the stream part of [src/src/utils.rs])

    [tcp_read] and [tcp_send] move bytes between a plain TCP stream and a TLS
    connection; [send_all], [read_once] and [copy_stream] are their generic
    counterparts.  The theorems are byte conservation: nothing is lost,
    duplicated or reordered. *)

From Stdlib Require Import ZArith Lia.
From stdpp Require Import base option list.
From S2P Require Import Prelude Net Status Env TlsConn.

Open Scope Z_scope.
Open Scope rust_scope.

Section TcpUtil.
Context {E : Env}.

(** [tcp_read]: [recv_len] is the length of [recv_buf]; the result is the flag,
    the byte count, and the two connections. *)
Fixpoint tcp_read_loop (fuel : nat) (conn : TcpStream) (recv_len : nat) (server_conn : TlsConn E)
    (total : nat) : option (bool * nat * TcpStream * TlsConn E) :=
  match fuel with
  | O => None
  | S fuel =>
      let '(r, conn) := tcp_stream_read conn recv_len in
      match r with
      | IoOk data =>
          let size := length data in
          let total := (total + size)%nat in
          if (size =? 0)%nat then Some (false, total, conn, server_conn)
          else
            let '(ok, server_conn) := write_session server_conn data in
            if (ok : bool) then tcp_read_loop fuel conn recv_len server_conn total
            else Some (true, total, conn, server_conn)
      | IoErr WouldBlock => Some (true, total, conn, server_conn)
      | IoErr _ => Some (false, total, conn, server_conn)
      end
  end.

Definition tcp_read (fuel : nat) (conn : TcpStream) (recv_len : nat) (server_conn : TlsConn E) :=
  tcp_read_loop fuel conn recv_len server_conn 0.

(** [tcp_send]: the flag, the stream and the send buffer.  [data[size..]] panics
    on a size past the end. *)
Fixpoint tcp_send_loop (fuel : nat) (conn : TcpStream) (send_buffer data : bytes)
  : option (bool * TcpStream * bytes) :=
  match fuel with
  | O => None
  | S fuel =>
      if decide (data = []) then Some (true, conn, send_buffer)
      else
        let '(r, conn) := tcp_stream_write conn data in
        match r with
        | IoOk size =>
            if (size =? 0)%nat then Some (false, conn, send_buffer)
            else data ← data.[from size]; tcp_send_loop fuel conn send_buffer data
        | IoErr WouldBlock => Some (true, conn, send_buffer ++ data)
        | IoErr _ => Some (false, conn, send_buffer)
        end
  end.

(** Every iteration shortens [data]. *)
Definition tcp_send (conn : TcpStream) (send_buffer data : bytes) :=
  tcp_send_loop (S (length data)) conn send_buffer data.

Context `{!EnvOk E}.

Lemma tcp_send_loop_total fuel conn buffer data :
  (length data < fuel)%nat →
  ∃ ok conn' buffer' n, tcp_send_loop fuel conn buffer data = Some (ok, conn', buffer')
    ∧ (n <= length data)%nat
    ∧ sent conn' = sent conn ++ take n data
    ∧ buffer' = (if (ok : bool) then buffer ++ drop n data else buffer).
Proof.
  revert conn data. induction fuel as [|fuel IH]; intros conn data Hf; [lia|].
  cbn [tcp_send_loop]. case_decide as Hd.
  { subst. exists true, conn, buffer, 0%nat. by rewrite !app_nil_r. }
  destruct (tcp_stream_write conn data) as [[n|k] conn1] eqn:Hw.
  - destruct (tcp_write_ok _ _ _ _ Hw) as (Hn & Hs & _).
    destruct (Nat.eqb_spec n 0) as [->|Hn0].
    { exists false, conn1, buffer, 0%nat. split; [done|]. by rewrite Hs. }
    rewrite slice_from_le by done. cbn [mbind option_bind].
    destruct (IH conn1 (drop n data)) as (ok & conn' & buffer' & m & -> & Hm & Hs' & Hb).
    { rewrite length_drop. lia. }
    exists ok, conn', buffer', (n + m)%nat. rewrite length_drop in Hm.
    split; [done|]. split; [lia|]. split.
    + rewrite Hs', Hs, <-app_assoc, take_take_drop. done.
    + by rewrite drop_drop in Hb.
  - destruct (tcp_write_err _ _ _ _ Hw) as [Hs _].
    destruct k; [exists true, conn1, (buffer ++ data), 0%nat
                |exists false, conn1, buffer, 0%nat..];
      (split; [done|]; split; [lia|]; rewrite app_nil_r; by split).
Qed.

Lemma tcp_send_received conn buffer data ok conn' buffer' :
  tcp_send conn buffer data = Some (ok, conn', buffer') → received conn' = received conn.
Proof.
  unfold tcp_send. generalize (S (length data)) as fuel. intros fuel. revert conn data.
  induction fuel as [|fuel IH]; intros conn data; [done|]. cbn [tcp_send_loop].
  case_decide; [by intros [= _ <- _]|].
  destruct (tcp_stream_write conn data) as [[n|k] conn1] eqn:Hw.
  - apply tcp_write_ok in Hw as (_ & _ & Hr). destruct (n =? 0)%nat; [by intros [= _ <- _]|].
    destruct (data.[from n]) as [rest|]; [|done]. cbn [mbind option_bind]. intros Hl.
    by rewrite (IH _ _ Hl).
  - apply tcp_write_err in Hw as [_ Hr]. by destruct k; intros [= _ <- _].
Qed.

(** [tcp_send] terminates without panicking and conserves bytes: the
    stream accepts a prefix of [data]; when it reports success the rest, and
    nothing else, is appended to the send buffer. *)
Theorem tcp_send_conserves conn buffer data :
  ∃ ok conn' buffer' n, tcp_send conn buffer data = Some (ok, conn', buffer')
    ∧ (n <= length data)%nat
    ∧ sent conn' = sent conn ++ take n data
    ∧ buffer' = (if (ok : bool) then buffer ++ drop n data else buffer).
Proof. apply tcp_send_loop_total. lia. Qed.

(** What a run of [tcp_read] from [conn] and [c], with [total] bytes already
    counted, leaves behind. *)
Definition tcp_read_result (conn : TcpStream) (c : TlsConn E) (total : nat)
    (r : bool * nat * TcpStream * TlsConn E) : Prop :=
  let '(_, total', conn', c') := r in
  ∃ d, received conn' = received conn ++ d
    ∧ total' = (total + length d)%nat
    ∧ sent conn' = sent conn
    ∧ (∃ k, plain c' = plain c ++ take k d)
    ∧ (is_shutdown c' = false → plain c' = plain c ++ d)
    ∧ heard c' = heard c
    ∧ same_identity c c'.

Lemma tcp_read_loop_terminates conn n c total :
  terminates (λ fuel, tcp_read_loop fuel conn n c total) (tcp_read_result conn c total).
Proof.
  revert c total. induction conn as [conn IH] using (induction_ltof1 _ rx_left).
  unfold ltof in IH. intros c total. apply terminates_S. cbn [tcp_read_loop].
  destruct (tcp_stream_read conn n) as [[e|k] conn1] eqn:Hr.
  2: { destruct (tcp_read_err _ _ _ _ Hr) as [Hrc Hs].
       destruct k; apply terminates_ret; exists []; rewrite !app_nil_r;
         (split_and!; try done; try (simpl; lia); [by exists 0%nat; rewrite app_nil_r|];
          apply same_identity_refl). }
  destruct (tcp_read_ok _ _ _ _ Hr) as (_ & Hrc & Hs & Hm).
  destruct (Nat.eqb_spec (length e) 0) as [He|He].
  { apply nil_length_inv in He as ->. rewrite app_nil_r in Hrc. apply terminates_ret.
    exists []. rewrite !app_nil_r.
    split_and!; try done; [by exists 0%nat; rewrite app_nil_r|apply same_identity_refl]. }
  destruct (write_session c e) as [[] c1] eqn:Hw.
  - destruct (write_session_true _ _ _ Hw) as (Hp & Hh & Hi & Ht & Hst).
    eapply terminates_weaken; [apply IH; apply Hm; by intros ->|].
    intros [[[ok total'] conn'] c'] (d & Hrc' & Ht' & Hs' & [k Hk] & Hfull & Hh' & Hid).
    exists (e ++ d). rewrite length_app.
    split_and!; [by rewrite Hrc', Hrc, app_assoc|lia|congruence| | |congruence|].
    + exists (length e + k)%nat. rewrite take_app_add', Hk, Hp, app_assoc by done. done.
    + intros Hf'. by rewrite Hfull, Hp, app_assoc.
    + eapply same_identity_trans; [|exact Hid]. split; auto.
  - destruct (write_session_false _ _ _ Hw) as ([k Hk] & Hh & Hsh & Hid).
    apply terminates_ret. exists e. split_and!; try done; [by exists k|].
    intros Hf'. congruence.
Qed.

(** [tcp_read] terminates and conserves bytes: the count it returns is the
    number of bytes taken from the stream, and those bytes, in order, are what
    it handed to the TLS session, all of them unless the session refused and
    the connection was shut down. *)
Theorem tcp_read_conserves conn n c :
  terminates (λ fuel, tcp_read fuel conn n c) (λ '(_, total, conn', c'),
    ∃ d, received conn' = received conn ++ d
      ∧ total = length d
      ∧ (∃ k, plain c' = plain c ++ take k d)
      ∧ (is_shutdown c' = false → plain c' = plain c ++ d)).
Proof.
  eapply terminates_weaken; [apply tcp_read_loop_terminates|].
  intros [[[ok total] conn'] c'] (d & ? & ? & _ & ? & ? & _). by exists d.
Qed.
End TcpUtil.

(** ** Generic streams ([utils.rs]) *)

(** [std::io::Read] and [std::io::Write] on a stream [S]. *)
Class ReadWrite (S : Type) : Type := {
  rw_read : S → nat → io_result bytes * S;
  rw_write : S → bytes → io_result nat * S
}.

(** The contract of [std::io]. *)
Class LawfulReadWrite (S : Type) `{ReadWrite S} : Type := {
  rw_taken : S → bytes;
  rw_accepted : S → bytes;
  rw_left : S → nat;
  rw_read_ok s n d s' : rw_read s n = (IoOk d, s') →
    rw_taken s' = rw_taken s ++ d ∧ (d ≠ [] → rw_left s' < rw_left s)%nat;
  rw_read_err s n k s' : rw_read s n = (IoErr k, s') → rw_taken s' = rw_taken s;
  rw_write_ok s d n s' : rw_write s d = (IoOk n, s') →
    (n <= length d)%nat ∧ rw_accepted s' = rw_accepted s ++ take n d;
  rw_write_err s d k s' : rw_write s d = (IoErr k, s') → rw_accepted s' = rw_accepted s
}.

Inductive CopyResult : Type := RxBlock | TxBlock.

(** [TrojanError], the two variants of this file; the payload is the I/O error. *)
Inductive CopyError : Type :=
  | TxBreak (err : option ErrorKind)
  | RxBreak (err : option ErrorKind).

Inductive copy_result (A : Type) : Type :=
  | COk (a : A)
  | CErr (e : CopyError).
Arguments COk {A} _.
Arguments CErr {A} _.

Section Utils.
Context {R W : Type} `{ReadWrite R} `{ReadWrite W}.
(** The spare capacity [BytesMut::reserve(1500)] leaves behind a buffer; the
    allocator of the [bytes] crate decides. *)
Context (spare : bytes → nat).

(** The loop of [send_all]: its outcome and the bytes written. *)
Fixpoint send_all_loop (fuel : nat) (writer : W) (data : bytes) (offset : nat)
  : option (copy_result bool * nat * W) :=
  match fuel with
  | O => None
  | S fuel =>
      if decide (data = []) then Some (COk true, offset, writer)
      else
        let '(r, writer) := rw_write writer data in
        match r with
        | IoOk O => Some (CErr (TxBreak None), offset, writer)
        | IoOk n => data ← data.[from n]; send_all_loop fuel writer data (offset + n)
        | IoErr WouldBlock => Some (COk false, offset, writer)
        | IoErr k => Some (CErr (TxBreak (Some k)), offset, writer)
        end
  end.

Definition send_all (writer : W) (buffer : bytes) : option (copy_result bool * W * bytes) :=
  if decide (buffer = []) then Some (COk true, writer, buffer)
  else
    '(ret, offset, writer) ← send_all_loop (S (length buffer)) writer buffer 0;
    match ret with
    | CErr e => Some (CErr e, writer, [])
    | COk b => buffer ← (if (offset =? 0)%nat then Some buffer else buffer.[from offset]);
               Some (COk b, writer, buffer)
    end.

Definition read_once (reader : R) (buffer : bytes) : copy_result bool * R * bytes :=
  let '(r, reader) := rw_read reader (spare buffer) in
  match r with
  | IoOk [] => (CErr (RxBreak None), reader, buffer)
  | IoOk nb => (COk true, reader, buffer ++ nb)
  | IoErr WouldBlock => (COk false, reader, buffer)
  | IoErr k => (CErr (RxBreak (Some k)), reader, buffer)
  end.

Fixpoint copy_stream (fuel : nat) (from : R) (to : W) (buffer : bytes)
  : option (copy_result CopyResult * R * W * bytes) :=
  match fuel with
  | O => None
  | S fuel =>
      '(r, to, buffer) ← send_all to buffer;
      match r with
      | CErr e => Some (CErr e, from, to, buffer)
      | COk false => Some (COk TxBlock, from, to, buffer)
      | COk true =>
          let '(r, from, buffer) := read_once from buffer in
          match r with
          | CErr e => Some (CErr e, from, to, buffer)
          | COk false => Some (COk RxBlock, from, to, buffer)
          | COk true => copy_stream fuel from to buffer
          end
      end
  end.

Context `{!LawfulReadWrite R} `{!LawfulReadWrite W}.

Lemma send_all_loop_total fuel writer data offset :
  (length data < fuel)%nat →
  ∃ r writer' n, send_all_loop fuel writer data offset = Some (r, (offset + n)%nat, writer')
    ∧ (n <= length data)%nat
    ∧ rw_accepted writer' = rw_accepted writer ++ take n data
    ∧ (r = COk true → n = length data)
    ∧ (∀ e, r = CErr e → ∃ o, e = TxBreak o).
Proof.
  revert writer data offset. induction fuel as [|fuel IH]; intros writer data offset Hf; [lia|].
  cbn [send_all_loop]. case_decide as Hd.
  { subst. exists (COk true), writer, 0%nat. by rewrite Nat.add_0_r, app_nil_r. }
  destruct (rw_write writer data) as [[[|n]|k] w1] eqn:Hw.
  - exists (CErr (TxBreak None)), w1, 0%nat. destruct (rw_write_ok _ _ _ _ Hw) as [_ Ha].
    rewrite Nat.add_0_r. split_and!; [done|lia|done|done|naive_solver].
  - destruct (rw_write_ok _ _ _ _ Hw) as [Hn Ha].
    rewrite slice_from_le by done. cbn [mbind option_bind].
    destruct (IH w1 (drop (S n) data) (offset + S n)%nat) as (r & w' & m & -> & Hm & Ha' & Hr & He).
    { rewrite length_drop. lia. }
    rewrite length_drop in Hm, Hr. exists r, w', (S n + m)%nat.
    rewrite Nat.add_assoc. split_and!; [done|lia| |intros ->; specialize (Hr eq_refl); lia|done].
    rewrite Ha', Ha, <-app_assoc, take_take_drop. done.
  - pose proof (rw_write_err _ _ _ _ Hw) as Ha.
    destruct k; eexists _, w1, 0%nat; rewrite Nat.add_0_r, app_nil_r;
      (split; [reflexivity|]); split_and!; try done; try lia; naive_solver.
Qed.

Lemma send_all_total writer buffer :
  ∃ r writer' buffer', send_all writer buffer = Some (r, writer', buffer')
    ∧ match r with
      | COk b => rw_accepted writer' ++ buffer' = rw_accepted writer ++ buffer
                 ∧ (b = true → buffer' = [])
      | CErr e => buffer' = [] ∧ (∃ o, e = TxBreak o)
                  ∧ ∃ n, rw_accepted writer' = rw_accepted writer ++ take n buffer
      end.
Proof.
  unfold send_all. case_decide as Hb; [by subst; eexists _, _, _|].
  destruct (send_all_loop_total (S (length buffer)) writer buffer 0)
    as (r & w' & n & -> & Hn & Ha & Hr & He); [lia|].
  cbn [mbind option_bind]. destruct r as [b|e].
  2: { eexists _, _, _. split; [reflexivity|].
       split; [done|]. split; [by apply He|by exists n]. }
  assert ((if (0 + n =? 0)%nat then Some buffer else buffer.[from (0 + n)%nat])
          = Some (drop n buffer)) as ->.
  { destruct (Nat.eqb_spec (0 + n) 0); [by destruct n|]. by rewrite slice_from_le. }
  eexists _, _, _. split; [reflexivity|]. split.
  - by rewrite Ha, <-app_assoc, take_drop.
  - intros ->. rewrite Hr by done. by rewrite drop_all.
Qed.

Lemma read_once_spec reader buffer :
  ∃ r reader' d, read_once reader buffer = (r, reader', buffer ++ d)
    ∧ rw_taken reader' = rw_taken reader ++ d
    ∧ (r = COk true → rw_left reader' < rw_left reader)%nat
    ∧ (r ≠ COk true → d = []).
Proof.
  unfold read_once. destruct (rw_read reader (spare buffer)) as [[[|x e]|k] r'] eqn:Hr.
  - exists (CErr (RxBreak None)), r', []. destruct (rw_read_ok _ _ _ _ Hr) as [Ht _].
    rewrite app_nil_r. split_and!; try done; by rewrite Ht, app_nil_r.
  - exists (COk true), r', (x :: e). destruct (rw_read_ok _ _ _ _ Hr) as [Ht Hl].
    split_and!; try done. intros _. by apply Hl.
  - pose proof (rw_read_err _ _ _ _ Hr) as Ht.
    destruct k; eexists _, r', []; rewrite !app_nil_r; (split; [reflexivity|]);
      split_and!; try done; by rewrite Ht.
Qed.

(** [copy_stream] terminates and conserves bytes: what the
    writer accepts, followed by what stays in the buffer, is the old buffer
    followed by everything taken from the reader; when it stops because the
    reader blocks, the buffer is empty; only a broken writer loses the
    buffer, and then the writer has a prefix of those bytes. *)
Theorem copy_stream_conserves from to buffer :
  terminates (λ fuel, copy_stream fuel from to buffer) (λ '(r, from', to', buffer'),
    ∃ d, rw_taken from' = rw_taken from ++ d
      ∧ match r with
        | CErr (TxBreak _) =>
            buffer' = [] ∧ ∃ n, rw_accepted to' = rw_accepted to ++ take n (buffer ++ d)
        | _ => rw_accepted to' ++ buffer' = rw_accepted to ++ buffer ++ d
               ∧ (r ≠ COk TxBlock → buffer' = [])
        end).
Proof.
  revert to buffer. induction from as [from IH] using (induction_ltof1 _ rw_left).
  unfold ltof in IH. intros to buffer. apply terminates_S. cbn [copy_stream].
  destruct (send_all_total to buffer) as (r & to1 & buf1 & Hsend & Hs). rewrite Hsend.
  cbn [mbind option_bind]. destruct r as [[]|e].
  - destruct Hs as [Ha Hb]. rewrite Hb, app_nil_r in Ha by done. rewrite Hb by done. clear Hb.
    destruct (read_once_spec from []) as (r & from1 & d & -> & Ht & Hl & Hd).
    rewrite app_nil_l. destruct r as [[]|e].
    + eapply terminates_weaken; [apply IH; by apply Hl|].
      intros [[[r from2] to2] buf2] (d2 & Ht2 & Hm). exists (d ++ d2).
      rewrite Ht2, Ht, app_assoc. split; [done|].
      destruct r as [[]|[]]; rewrite Ha, <-?app_assoc in Hm; try exact Hm.
      destruct Hm as [-> [n ->]]. split; [done|].
      exists (length buffer + n)%nat. rewrite take_app_add', app_assoc by done. done.
    + rewrite Hd in * by done. apply terminates_ret. exists [].
      rewrite Ht, !app_nil_r. by split.
    + rewrite Hd in * by done. apply terminates_ret. exists [].
      rewrite Ht, !app_nil_r. split; [done|]. destruct e; [|by split].
      split; [done|]. exists (length buffer). by rewrite firstn_all, Ha.
  - destruct Hs as [Ha _]. apply terminates_ret. exists [].
    rewrite !app_nil_r. split; [done|]. by split.
  - destruct Hs as (-> & [o ->] & n & Hn). apply terminates_ret. exists [].
    rewrite !app_nil_r. split; [done|]. split; [done|]. by exists n.
Qed.
End Utils.

(** A [TlsConn] is such a stream, and so is a plain TCP stream. *)
#[export] Instance tcp_read_write {E : Env} : ReadWrite TcpStream := {
  rw_read := tcp_stream_read;
  rw_write := tcp_stream_write
}.

#[export] Program Instance tcp_lawful {E : Env} {H : EnvOk E} : LawfulReadWrite TcpStream := {
  rw_taken := received;
  rw_accepted := sent;
  rw_left := rx_left
}.
Next Obligation. intros E H s n d s' Hr. by apply tcp_read_ok in Hr as (_ & ? & _ & ?). Qed.
Next Obligation. intros E H s n k s' Hr. by apply tcp_read_err in Hr as [? _]. Qed.
Next Obligation. intros E H s d n s' Hr. by apply tcp_write_ok in Hr as (? & ? & _). Qed.
Next Obligation. intros E H s d k s' Hr. by apply tcp_write_err in Hr as [? _]. Qed.

Module TcpUtilWitness.
#[local] Existing Instance Sim.env.
#[local] Existing Instance Sim.env_ok.
#[local] Instance sim_read_write : ReadWrite Sim.stream := tcp_read_write (E := Sim.env).
#[local] Instance sim_lawful : LawfulReadWrite Sim.stream := tcp_lawful (E := Sim.env).

(** A peer that sends [1;2], then [3], then blocks. *)
Definition talking : Sim.stream := Sim.mkStream [IoOk [1; 2]; IoOk [3]; IoErr WouldBlock] [] [] [].
(** A peer whose window takes two bytes, then blocks. *)
Definition slow : Sim.stream := Sim.mkStream [] [IoOk 2%nat; IoErr WouldBlock] [] [].
Definition tls : TlsConn Sim.env := tls_conn_new 3 6 Sim.idle_session Sim.idle_stream.

Example tcp_read_talking :
  (λ '(ok, n, _, c), (ok, n, plain c)) <$> tcp_read 9 talking 4096 tls = Some (true, 3%nat, [1; 2; 3]).
Proof. by vm_compute. Qed.

Example tcp_send_slow :
  (λ '(ok, t, b), (ok, Sim.st_sent t, b)) <$> tcp_send (E := Sim.env) slow [] [5; 6; 7] = Some (true, [5; 6], [7]).
Proof. by vm_compute. Qed.

Example copy_stream_slow :
  (λ '(r, from, to, b), (r, Sim.st_received from, Sim.st_sent to, b)) <$>
    copy_stream (R := Sim.stream) (W := Sim.stream) (λ _, 1500%nat) 9 talking slow [9]
  = Some (COk TxBlock, [1; 2], [9], [1; 2]).
Proof. by vm_compute. Qed.
End TcpUtilWitness.
