(* ===== verification/TlsStream.v ===== *)
(** * TLS connections as streams

    [TlsConn] implements [std::io::Read] and [Write] ([TlsConn.tls_read],
    [TlsConn.tls_write]); the relays of the tunnels use it through them, and
    through [flush] and [close].  [Remote] is that interface.  The file shows that
    the two methods end and keep the contract of a stream, so that what is proved
    against the interface holds of a TLS connection. *)

From Stdlib Require Import ZArith Lia.
From stdpp Require Import base option list.
From S2P Require Import Prelude.
From S2P Require Import Net.
From S2P Require Import Env.
From S2P Require Import Status.
From S2P Require Import TlsConn.
From S2P Require Import TcpUtil.

(** What a tunnel asks of its connection to the server. *)
Class Remote (R : Type) : Type := {
  remote_rw :: ReadWrite R;
  remote_flush : R → io_result unit * R;
  remote_close : R → R
}.

(** The two directions of a stream are apart: reading sends nothing and writing
    reads nothing. *)
Class Duplex (S : Type) `{LawfulReadWrite S} : Prop := {
  read_accepted s n r s' : rw_read s n = (r, s') → rw_accepted s' = rw_accepted s;
  write_taken s d r s' : rw_write s d = (r, s') → rw_taken s' = rw_taken s
}.

Class LawfulRemote (R : Type) `{Remote R} : Type := {
  lawful_rw :: LawfulReadWrite R;
  lawful_duplex :: Duplex R;
  flush_accepted r : rw_accepted (remote_flush r).2 = rw_accepted r;
  flush_taken r : rw_taken (remote_flush r).2 = rw_taken r;
  close_accepted r : rw_accepted (remote_close r) = rw_accepted r;
  close_taken r : rw_taken (remote_close r) = rw_taken r
}.

Section Copy.
Context {A B : Type} `{Duplex A} `{Duplex B} (spare : bytes → nat).

Lemma send_all_loop_taken fuel (w : B) d o r o' w' :
  send_all_loop fuel w d o = Some (r, o', w') → rw_taken w' = rw_taken w.
Proof.
  revert w d o. induction fuel as [|fuel IH]; intros w d o; [done|]. cbn [send_all_loop].
  case_decide; [by intros [= _ _ <-]|].
  destruct (rw_write w d) as [r1 w1] eqn:Hw. apply write_taken in Hw. rewrite <-Hw.
  destruct r1 as [[|n]|[]]; try by intros [= _ _ <-].
  destruct (slice_from d (S n)); [apply IH|done].
Qed.

(** A copy sends nothing to the side it reads and reads nothing from the other. *)
Lemma copy_stream_keeps fuel (from : A) (to : B) b r from' to' b' :
  copy_stream spare fuel from to b = Some (r, from', to', b') →
  rw_accepted from' = rw_accepted from ∧ rw_taken to' = rw_taken to.
Proof.
  revert from to b. induction fuel as [|fuel IH]; intros from to b; [done|]. cbn [copy_stream].
  destruct (send_all to b) as [[[r1 to1] b1]|] eqn:Hs; [|done]. cbn [mbind option_bind].
  assert (rw_taken to1 = rw_taken to) as Ht.
  { revert Hs. unfold send_all. case_decide; [by intros [= _ <- _]|].
    destruct (send_all_loop _ _ _ _) as [[[r2 o] w]|] eqn:Hl; [|done]. cbn [mbind option_bind].
    apply send_all_loop_taken in Hl. destruct r2; [|by intros [= _ <- _]].
    destruct (if (o =? 0)%nat then _ else _); [|done]. cbn [mbind option_bind]. by intros [= _ <- _]. }
  destruct r1 as [[]|e]; [|by intros [= _ <- <- _]..].
  unfold read_once. destruct (rw_read from (spare b1)) as [r2 from1] eqn:Hr. apply read_accepted in Hr.
  rewrite <-Ht, <-Hr. destruct r2 as [[|x d]|[]]; first [apply IH|by intros [= _ <- <- _]].
Qed.
End Copy.

(** The documented behaviour of the calls of a rustls session that [Env.EnvOk]
    leaves out: [reader().read] hands out plaintext, [writer().write] takes a
    prefix of what it is given, [write_tls] moves what it says. *)
Class EnvRw (E : Env) {K : EnvOk E} : Prop := {
  reader_read_spec c n r c' : session_reader_read c n = (r, c') →
    plain_out c' = plain_out c
    ∧ plain_in c' = plain_in c ++ (match r with IoOk d => d | IoErr _ => [] end)
    ∧ ∀ s, (plain_left c' s + length (match r with IoOk d => d | IoErr _ => [] end) <= plain_left c s)%nat
        ∧ (tls_rx_left c' s <= tls_rx_left c s)%nat;
  process_rx_left c s : (tls_rx_left (session_process_new_packets c).2 s <= tls_rx_left c s)%nat;
  writer_write_spec c d r c' : session_writer_write c d = (r, c') →
    plain_in c' = plain_in c
    ∧ plain_out c' = plain_out c ++ (match r with IoOk n => take n d | IoErr _ => [] end)
    ∧ (match r with IoOk n => n <= length d | IoErr _ => True end)%nat
    ∧ (∀ s, plain_left c' s <= plain_left c s)%nat
    ∧ (r = IoOk 0%nat → ∀ s, tls_tx_left c' s <= tls_tx_left c s)%nat;
  write_tls_moves c s r c' s' : session_write_tls c s = (r, c', s') →
    plain_out c' = plain_out c ∧ plain_in c' = plain_in c
    ∧ (∀ n, r = IoOk (S n) → tls_tx_left c' s' < tls_tx_left c s)%nat
}.

#[export] Instance sim_rw : EnvRw Sim.env (K := Sim.env_ok).
Proof.
  split.
  - intros c n r c'. cbn. unfold Sim.reader_read.
    destruct (Sim.ss_plain_in c) as [|d p] eqn:Hp; intros [= <- <-].
    { cbn. rewrite app_nil_r, Hp. by split_and!. }
    cbn. split_and!; [done..|]. intros _.
    pose proof (length_drop d n) as Hd. pose proof (length_take d n) as Ht.
    destruct (drop n d); cbn in *; lia.
  - done.
  - intros c d r c'. cbn. unfold Sim.writer_write. intros [= <- <-]. cbn.
    split_and!; [done..|lia|done|done].
  - intros c s r c' s'. cbn. unfold Sim.write_tls.
    destruct (Sim.ss_tx c) eqn:Ht; intros [= <- <- <-]; cbn; split_and!; try done.
    intros n _. rewrite ?Ht. cbn. lia.
Qed.

Section TlsStream.
Context {E : Env} {K : EnvOk E} {Rw : EnvRw E}.
Implicit Types c : TlsConn E.

(** What a read leaves behind. *)
Definition after_read c (r : io_result bytes) c' : Prop :=
  plain c' = plain c ∧ same_identity c c'
  ∧ match r with
    | IoOk d => heard c' = heard c ++ d ∧ (d ≠ [] → left c' < left c)%nat
    | IoErr _ => heard c' = heard c
    end.

Definition quiet_left c c' : Prop := quiet c c' ∧ (left c' <= left c)%nat.

Lemma after_read_quiet c c1 r c' : quiet_left c c1 → after_read c1 r c' → after_read c r c'.
Proof.
  intros [[Hp Hh Hi] Hl] (Hp' & Hi' & Hr). split; [congruence|].
  split; [by eapply same_identity_trans|]. destruct r as [d|]; [|congruence].
  destruct Hr as [Hr Hd]. split; [congruence|]. intros Hne. specialize (Hd Hne). lia.
Qed.

(** One turn of the recursion: a result, or a quiet step that leaves less to read. *)
Lemma tls_read_step c n :
  (∃ r c', (∀ fuel, tls_read (S fuel) c n = Some (r, c')) ∧ after_read c r c')
  ∨ (∃ c1, (∀ fuel, tls_read (S fuel) c n = tls_read fuel c1 n) ∧ quiet_left c c1
       ∧ (rx_measure c1 < rx_measure c)%nat).
Proof.
  cbn [tls_read]. destruct (session_reader_read (session c) n) as [r s] eqn:Hr.
  destruct (reader_read_spec _ _ _ _ Hr) as (Ho & Hi & Hl).
  destruct r as [d|k]; [|destruct (decide (k = WouldBlock)) as [->|Hk]].
  - left. exists (IoOk d), (with_session c s). split; [done|]. split_and!; [done|apply same_identity_io|done|].
    intros Hne. unfold left. cbn. destruct (Hl (stream c)) as [Hl1 _]. destruct d; [done|cbn in *; lia].
  - rewrite app_nil_r in Hi. cbn [session stream with_session with_io].
    destruct (session_read_tls s (stream c)) as [[r s2] t] eqn:Ht.
    destruct (Hl (stream c)) as [Hl1 Hl2]. cbn [length] in Hl1. rewrite Nat.add_0_r in Hl1.
    pose proof (read_tls_left _ _ _ _ _ Ht) as Hl3.
    assert (∀ p, p = (r, s2, t) → plain_out s2 = plain_out s ∧ plain_in s2 = plain_in s) as Hf.
    { intros _ _. destruct r as [m|k]; [destruct (read_tls_ok _ _ _ _ _ Ht) as (? & ? & _)
        |destruct (read_tls_err _ _ _ _ _ Ht)]; done. }
    destruct (Hf _ eq_refl) as [Ho2 Hi2]. clear Hf.
    destruct r as [[|m]|k].
    + left. exists (IoOk []), (with_io c s2 t). split; [done|].
      split_and!; [unfold plain; cbn; congruence|apply same_identity_io| |done].
      rewrite app_nil_r. unfold heard. cbn. congruence.
    + pose proof (process_frame s2) as [Ho3 Hi3]. pose proof (process_left s2 t) as Hl4.
      pose proof (process_rx_left s2 t) as Hx.
      destruct (read_tls_ok _ _ _ _ _ Ht) as (_ & _ & Hm).
      destruct (session_process_new_packets s2) as [[] s3]; cbn in *.
      * right. exists (with_io c s3 t). split; [done|]. split_and!; [split|].
        -- apply quiet_io; unfold plain, heard; congruence.
        -- unfold left. cbn. lia.
        -- unfold rx_measure. cbn. specialize (Hm ltac:(done)). lia.
      * left. exists (IoErr OtherKind), (with_io c s3 t). split; [done|].
        split_and!; [unfold plain|apply same_identity_io|unfold heard]; cbn; congruence.
    + left. destruct k; (eexists _, (with_io c s2 t); split; [done|];
        split_and!; [unfold plain|apply same_identity_io|unfold heard]; cbn; congruence).
  - left. exists (IoErr k), (with_session c s). split; [by destruct k|].
    split_and!; [done|apply same_identity_io|]. unfold heard. cbn. by rewrite Hi, app_nil_r.
Qed.

Lemma tls_read_sound fuel c n r c' : tls_read fuel c n = Some (r, c') → after_read c r c'.
Proof.
  revert c. induction fuel as [|fuel IH]; intros c Hr; [done|].
  destruct (tls_read_step c n) as [(r1 & c1 & He & Ha)|(c1 & He & Hq & _)]; rewrite He in Hr.
  - by simplify_eq.
  - by eapply after_read_quiet; [|apply IH].
Qed.

(** [read] ends; what it returns is what the session hands out. *)
Lemma tls_read_terminates c n :
  terminates (λ fuel, tls_read fuel c n) (λ '(r, c'), after_read c r c').
Proof.
  induction c as [c IH] using (induction_ltof1 _ rx_measure). unfold ltof in IH.
  apply terminates_S. destruct (tls_read_step c n) as [(r1 & c1 & He & Ha)|(c1 & He & Hq & Hm)].
  - eapply terminates_ext; [|by apply (terminates_ret (r1, c1))]. done.
  - eapply terminates_ext; [exact He|]. eapply terminates_weaken; [by apply IH|].
    intros [r c']. by apply after_read_quiet.
Qed.

(** What a write leaves behind. *)
Definition after_write c (d : bytes) (r : io_result nat) c' : Prop :=
  heard c' = heard c ∧ same_identity c c' ∧ (left c' <= left c)%nat
  ∧ match r with
    | IoOk n => (n <= length d)%nat ∧ plain c' = plain c ++ take n d
    | IoErr _ => plain c' = plain c
    end.

Lemma after_write_quiet c c1 d r c' : quiet_left c c1 → after_write c1 d r c' → after_write c d r c'.
Proof.
  intros [[Hp Hh Hi] Hl] (Hh' & Hi' & Hl' & Hr). split; [congruence|].
  split; [by eapply same_identity_trans|]. split; [lia|]. by destruct r; rewrite <-Hp.
Qed.

Lemma tls_write_step c d :
  (∃ r c', (∀ fuel, tls_write (S fuel) c d = Some (r, c')) ∧ after_write c d r c')
  ∨ (∃ c1, (∀ fuel, tls_write (S fuel) c d = tls_write fuel c1 d) ∧ quiet_left c c1
       ∧ (tx_measure c1 < tx_measure c)%nat).
Proof.
  cbn [tls_write]. destruct (session_writer_write (session c) d) as [r s] eqn:Hr.
  destruct (writer_write_spec _ _ _ _ Hr) as (Hi & Ho & Hn & Hl & Hx).
  destruct r as [[|n]|k].
  - specialize (Hx eq_refl). cbn [take] in Ho. rewrite app_nil_r in Ho.
    cbn [session stream with_session with_io].
    destruct (session_write_tls s (stream c)) as [[r s2] t] eqn:Ht.
    destruct (write_tls_moves _ _ _ _ _ Ht) as (Ho2 & Hi2 & Hm).
    pose proof (write_tls_left _ _ _ _ _ Ht) as Hl2. specialize (Hl (stream c)). specialize (Hx (stream c)).
    destruct r as [[|m]|k].
    + left. exists (IoOk 0%nat), (with_io c s2 t). split; [done|].
      split_and!; [unfold heard; cbn; congruence|apply same_identity_io|unfold left; cbn; lia|lia|].
      unfold plain. cbn. rewrite app_nil_r. congruence.
    + right. exists (with_io c s2 t). split; [done|]. split_and!; [split|].
      * apply quiet_io; unfold plain, heard; congruence.
      * unfold left. cbn. lia.
      * unfold tx_measure. cbn. specialize (Hm m eq_refl). lia.
    + left. destruct k; (eexists _, (with_io c s2 t); split; [done|];
        split_and!; [unfold heard; cbn; congruence|apply same_identity_io|unfold left; cbn; lia
          |unfold plain; cbn; congruence]).
  - left. exists (IoOk (S n)), (with_session c s). split; [done|].
    split_and!; [unfold heard; cbn; congruence|apply same_identity_io|apply Hl|done|done].
  - left. exists (IoErr k), (with_session c s). split; [done|].
    split_and!; [unfold heard; cbn; congruence|apply same_identity_io|apply Hl|].
    unfold plain. cbn. by rewrite Ho, app_nil_r.
Qed.

Lemma tls_write_sound fuel c d r c' : tls_write fuel c d = Some (r, c') → after_write c d r c'.
Proof.
  revert c. induction fuel as [|fuel IH]; intros c Hr; [done|].
  destruct (tls_write_step c d) as [(r1 & c1 & He & Ha)|(c1 & He & Hq & _)]; rewrite He in Hr.
  - by simplify_eq.
  - by eapply after_write_quiet; [|apply IH].
Qed.

(** [write] ends; what it reports is what the session took. *)
Lemma tls_write_terminates c d :
  terminates (λ fuel, tls_write fuel c d) (λ '(r, c'), after_write c d r c').
Proof.
  induction c as [c IH] using (induction_ltof1 _ tx_measure). unfold ltof in IH.
  apply terminates_S. destruct (tls_write_step c d) as [(r1 & c1 & He & Ha)|(c1 & He & Hq & Hm)].
  - eapply terminates_ext; [|by apply (terminates_ret (r1, c1))]. done.
  - eapply terminates_ext; [exact He|]. eapply terminates_weaken; [by apply IH|].
    intros [r c']. by apply after_write_quiet.
Qed.

(** ** The interface

    [fuel] bounds the recursion of the two methods; by the lemmas above enough of
    it makes no difference. *)
#[export] Instance tls_remote (fuel : nat) : Remote (TlsConn E) := {
  remote_rw := {|
    rw_read c n := default (IoErr OtherKind, c) (tls_read fuel c n);
    rw_write c d := default (IoErr OtherKind, c) (tls_write fuel c d)
  |};
  remote_flush := flush;
  remote_close := close
}.

(** A TLS connection keeps the contract. *)
#[export] Program Instance tls_rw_lawful (fuel : nat) :
  LawfulReadWrite (H := remote_rw (Remote := tls_remote fuel)) (TlsConn E) := {
  rw_taken := heard;
  rw_accepted := plain;
  rw_left := left
}.
Next Obligation.
  intros fuel c n d c'. cbn. destruct (tls_read fuel c n) as [[r c1]|] eqn:Hr; [|done].
  apply tls_read_sound in Hr as (_ & _ & Hr). by intros [= -> ->].
Qed.
Next Obligation.
  intros fuel c n k c'. cbn. destruct (tls_read fuel c n) as [[r c1]|] eqn:Hr; cbn; [|by intros [= _ ->]].
  apply tls_read_sound in Hr as (_ & _ & Hr). by intros [= -> ->].
Qed.
Next Obligation.
  intros fuel c d n c'. cbn. destruct (tls_write fuel c d) as [[r c1]|] eqn:Hr; [|done].
  apply tls_write_sound in Hr as (_ & _ & _ & Hr). by intros [= -> ->].
Qed.
Next Obligation.
  intros fuel c d k c'. cbn. destruct (tls_write fuel c d) as [[r c1]|] eqn:Hr; cbn; [|by intros [= _ ->]].
  apply tls_write_sound in Hr as (_ & _ & _ & Hr). by intros [= -> ->].
Qed.

#[export] Instance tls_duplex (fuel : nat) :
  Duplex (H0 := tls_rw_lawful fuel) (TlsConn E).
Proof.
  split.
  - intros c n r c'. cbn. destruct (tls_read fuel c n) as [[r1 c1]|] eqn:Hr; cbn; intros [= _ <-]; [|done].
    by apply tls_read_sound in Hr as (? & _).
  - intros c d r c'. cbn. destruct (tls_write fuel c d) as [[r1 c1]|] eqn:Hr; cbn; intros [= _ <-]; [|done].
    by apply tls_write_sound in Hr as (? & _).
Qed.

Lemma flush_quiet c : plain (flush c).2 = plain c ∧ heard (flush c).2 = heard c.
Proof.
  unfold flush. destruct (session_write_tls (session c) (stream c)) as [[r s] t] eqn:Hr.
  destruct (write_tls_moves _ _ _ _ _ Hr) as (? & ? & _). done.
Qed.

Lemma close_quiet c : plain (close c) = plain c ∧ heard (close c) = heard c.
Proof. done. Qed.

#[export] Program Instance tls_lawful (fuel : nat) :
  LawfulRemote (H := tls_remote fuel) (TlsConn E) := {
  lawful_rw := tls_rw_lawful fuel;
  lawful_duplex := tls_duplex fuel
}.
Next Obligation. intros fuel c. apply flush_quiet. Qed.
Next Obligation. intros fuel c. apply flush_quiet. Qed.
Next Obligation. intros fuel c. apply close_quiet. Qed.
Next Obligation. intros fuel c. apply close_quiet. Qed.

End TlsStream.
