(* ===== verification/Resolver.v ===== *)
(** * The DNS resolver ([src/src/resolver.rs], and [resolve] of [src/src/utils.rs])

    A cache with expiry, and lookups run on other threads that answer through a
    channel.  [jobs] are the spawned closures that have not finished, [queue] the
    channel; the interleaving of the threads with the event loop is the order of
    the [event]s of a run. *)

From Stdlib Require Import ZArith Lia.
From stdpp Require Import base option list gmap.
From S2P Require Import Prelude Net Config.

Open Scope Z_scope.

(** ** [utils::resolve]

    The DNS messages are trust-dns', the socket is the system's; the query is
    sent and its answer awaited through them. *)
Class DnsTransport : Type := {
  Name : Type;
  Message : Type;
  parse_socket_addr : bytes → option SocketAddr;
  name_from_str : bytes → option Name;
  (** the encoded query for A records with this message id *)
  query_to_vec : Z → Name → option bytes;
  (** a fresh socket bound to 0.0.0.0:0: bytes sent, then the response *)
  dns_send_to : bytes → SocketAddr → option nat;
  dns_recv : option bytes;
  message_from_bytes : bytes → option Message;
  message_id : Message → Z;
  (** the data of the answers that are addresses *)
  answer_addrs : Message → list (option IpAddr)
}.

Section Lookup.
Context `{DnsTransport}.

(** [None] is [Err]. *)
Definition utils_resolve (name dns_server_addr : bytes) : option (list IpAddr) :=
  dns_server_addr ← parse_socket_addr dns_server_addr;
  name ← name_from_str name;
  request ← query_to_vec 1 name;
  sent ← dns_send_to request dns_server_addr;
  if negb (length request =? sent)%nat then None
  else
    response ← dns_recv;
    message ← message_from_bytes response;
    if negb (message_id message =? 1) then None
    else Some (omap id (answer_addrs message)).
End Lookup.

(** ** The resolver *)

Record DnsEntry : Type := mkDnsEntry { address : IpAddr; expired_time : Z }.

(** A spawned closure: what [resolve] moved into it. *)
Record Job : Type := mkJob { j_token : Z; j_domain : bytes; j_server : option bytes }.

Record DnsResolver : Type := mkDnsResolver {
  queue : list (Z * bytes * option IpAddr);
  jobs : list Job;
  dns_cache : gmap bytes DnsEntry;
  dns_cache_duration : Z;
  token : Z;
  dns_server : option bytes
}.

Definition dns_resolver_new (token : Z) (dns_server : option bytes) : DnsResolver :=
  mkDnsResolver [] [] ∅ (secs 10) token dns_server.

Definition with_cache (st : DnsResolver) (cache : gmap bytes DnsEntry) : DnsResolver :=
  mkDnsResolver (queue st) (jobs st) cache (dns_cache_duration st) (token st) (dns_server st).

Definition set_cache_timeout (st : DnsResolver) (timeout : Z) : DnsResolver :=
  mkDnsResolver (queue st) (jobs st) (dns_cache st) (secs timeout) (token st) (dns_server st).

Definition update_dns (now : Z) (st : DnsResolver) (domain : bytes) (addr : IpAddr) : DnsResolver :=
  with_cache st (<[domain := mkDnsEntry addr (now + dns_cache_duration st)]> (dns_cache st)).

Definition query_dns (now : Z) (st : DnsResolver) (domain : bytes) : option IpAddr * DnsResolver :=
  match dns_cache st !! domain with
  | Some entry =>
      if now <? expired_time entry then (Some (address entry), st)
      else (None, with_cache st (delete domain (dns_cache st)))
  | None => (None, st)
  end.

(** [resolve]: spawn a lookup for [token], or for the resolver's own. *)
Definition resolve (st : DnsResolver) (domain : bytes) (tok : option Z) : DnsResolver :=
  let tok := default (token st) tok in
  mkDnsResolver (queue st) (jobs st ++ [mkJob tok domain (dns_server st)]) (dns_cache st)
    (dns_cache_duration st) (token st) (dns_server st).

(** The scan of a lookup result; [None] is [unwrap] on no address. *)
Fixpoint pick_loop (ips : list IpAddr) (address : option IpAddr) : option (option IpAddr) :=
  match ips with
  | [] => Some address
  | addr :: ips =>
      let address := match address with
                     | None => Some addr
                     | Some a => if is_ipv4 addr then Some addr else Some a
                     end in
      match address with
      | None => None
      | Some a => if is_ipv4 a then Some (Some a) else pick_loop ips (Some a)
      end
  end.

(** The body of the spawned closure; [lookup_host] is the system's resolver,
    [via] is [utils::resolve]. *)
Definition job_result (lookup_host : bytes → option (list IpAddr))
    (via : bytes → bytes → option (list IpAddr)) (j : Job) : option (option IpAddr) :=
  let result := match j_server j with
                | Some server => via (j_domain j) server
                | None => lookup_host (j_domain j)
                end in
  match result with
  | Some ips => pick_loop ips None
  | None => Some None
  end.

(** A closure finishes: its answer enters the channel. *)
Definition finish_job (lookup_host : bytes → option (list IpAddr))
    (via : bytes → bytes → option (list IpAddr)) (st : DnsResolver) (i : nat) : option DnsResolver :=
  j ← jobs st !! i;
  ip ← job_result lookup_host via j;
  Some (mkDnsResolver (queue st ++ [(j_token j, j_domain j, ip)]) (delete i (jobs st))
          (dns_cache st) (dns_cache_duration st) (token st) (dns_server st)).

(** One message of [consume]: a [Some] answer is cached, and the answer passed to
    the callback [f], which acts on the caller's state. *)
Definition consume_step {A} (now : Z) (f : A → Z → option IpAddr → option A)
    (acc : option (DnsResolver * A)) (msg : Z * bytes * option IpAddr) : option (DnsResolver * A) :=
  '(st, a) ← acc;
  let '(tok, domain, ip) := msg in
  let st := match ip with Some ip => update_dns now st domain ip | None => st end in
  a ← f a tok ip; Some (st, a).

Definition consume {A} (now : Z) (f : A → Z → option IpAddr → option A) (st : DnsResolver) (a : A)
  : option (DnsResolver * A) :=
  '(st', a) ← foldl (consume_step now f) (Some (st, a)) (queue st);
  Some (mkDnsResolver [] (jobs st') (dns_cache st') (dns_cache_duration st') (token st')
          (dns_server st'), a).

(** ** Which address is picked *)

Lemma pick_loop_nonv4 ips a :
  is_ipv4 a = false →
  pick_loop ips (Some a) = Some (default (Some a) (Some <$> (snd <$> list_find (λ ip, is_ipv4 ip = true) ips))).
Proof.
  intros Ha. induction ips as [|ip ips IH]; [done|]. cbn [pick_loop list_find].
  destruct (is_ipv4 ip) eqn:Hip.
  - rewrite Hip. rewrite decide_True by done. done.
  - rewrite Ha, IH, decide_False by (simpl; congruence).
    by destruct (list_find _ ips) as [[]|].
Qed.

Lemma pick_loop_preferred ips : pick_loop ips None = Some (preferred ips).
Proof.
  destruct ips as [|ip ips]; [done|]. unfold preferred. cbn [pick_loop list_find head].
  destruct (is_ipv4 ip) eqn:Hip.
  - by rewrite decide_True.
  - rewrite pick_loop_nonv4, decide_False by (simpl; congruence).
    by destruct (list_find _ ips) as [[]|].
Qed.

Section Run.
Context (lookup_host : bytes → option (list IpAddr)).
Context (via : bytes → bytes → option (list IpAddr)).

(** What a job answers, without the scan. *)
Definition answer (j : Job) : option IpAddr :=
  match (match j_server j with
         | Some server => via (j_domain j) server
         | None => lookup_host (j_domain j)
         end) with
  | Some ips => preferred ips
  | None => None
  end.

Lemma job_result_answer j : job_result lookup_host via j = Some (answer j).
Proof.
  unfold job_result, answer. destruct (match j_server j with Some _ => _ | None => _ end); [|done].
  apply pick_loop_preferred.
Qed.

(** The callback of the specification: it records what it is given. *)
Definition record (log : list (Z * option IpAddr)) (tok : Z) (ip : option IpAddr)
  : option (list (Z * option IpAddr)) := Some (log ++ [(tok, ip)]).

(** One event: the loop asks for a lookup, a thread finishes, or the loop
    consumes the channel at a time [now]. *)
Inductive event : Type :=
  | EResolve (domain : bytes) (tok : option Z)
  | EFinish (i : nat)
  | EConsume (now : Z).

(** The state of a run: the resolver, the jobs asked for, the answers delivered. *)
Record trace : Type := mkTrace {
  tr_resolver : DnsResolver;
  tr_asked : list Job;
  tr_delivered : list (Z * option IpAddr)
}.

Definition run_event (t : trace) (e : event) : trace :=
  let st := tr_resolver t in
  match e with
  | EResolve domain tok =>
      mkTrace (resolve st domain tok)
        (tr_asked t ++ [mkJob (default (token st) tok) domain (dns_server st)]) (tr_delivered t)
  | EFinish i =>
      match finish_job lookup_host via st i with
      | Some st => mkTrace st (tr_asked t) (tr_delivered t)
      | None => t
      end
  | EConsume now =>
      match consume now record st (tr_delivered t) with
      | Some (st, log) => mkTrace st (tr_asked t) log
      | None => t
      end
  end.

Definition queued (st : DnsResolver) : list (Z * option IpAddr) :=
  (λ '(tok, _, ip), (tok, ip)) <$> queue st.

Definition reply (j : Job) : Z * option IpAddr := (j_token j, answer j).

Lemma consume_record_loop now msgs st log :
  ∃ cache, foldl (consume_step now record) (Some (st, log)) msgs
    = Some (with_cache st cache, log ++ ((λ '(tok, _, ip), (tok, ip)) <$> msgs)).
Proof.
  revert st log. induction msgs as [|[[tok domain] ip] msgs IH]; intros st log.
  { exists (dns_cache st). rewrite app_nil_r. by destruct st. }
  cbn [foldl]. destruct ip as [ip|].
  - destruct (IH (update_dns now st domain ip) (log ++ [(tok, Some ip)])) as [cache Hc].
    exists cache. rewrite <-app_assoc in Hc. exact Hc.
  - destruct (IH st (log ++ [(tok, None)])) as [cache Hc].
    exists cache. rewrite <-app_assoc in Hc. exact Hc.
Qed.

Lemma consume_record now st log :
  ∃ cache, consume now record st log =
    Some (mkDnsResolver [] (jobs st) cache (dns_cache_duration st) (token st) (dns_server st),
          log ++ queued st).
Proof.
  unfold consume. destruct (consume_record_loop now (queue st) st log) as [cache ->].
  exists cache. done.
Qed.

(** The invariant of a run. *)
Definition accounted (t : trace) : Prop :=
  reply <$> tr_asked t ≡ₚ
    tr_delivered t ++ queued (tr_resolver t) ++ (reply <$> jobs (tr_resolver t)).

Lemma run_event_accounted t e : accounted t → accounted (run_event t e).
Proof.
  unfold accounted. intros H. destruct t as [st asked log]. simpl in H.
  destruct e as [domain tok|i|now]; simpl.
  - rewrite !fmap_app, H. simpl. by rewrite !(assoc (++)).
  - unfold finish_job. destruct (jobs st !! i) as [j|] eqn:Hj; [|done].
    cbn [mbind option_bind]. rewrite job_result_answer. cbn [mbind option_bind tr_asked tr_resolver
      tr_delivered queue jobs]. rewrite H. unfold queued. simpl. rewrite fmap_app. simpl.
    rewrite <-(assoc (++)). do 2 f_equiv. simpl.
    rewrite (delete_Permutation (jobs st) i j Hj) at 1. done.
  - destruct (consume_record now st log) as [cache ->]. simpl. rewrite H.
    by rewrite (assoc (++)).
Qed.

(** Every lookup asked for is answered exactly once: at any moment of any
    interleaving of the lookup threads with the event loop, the answers
    delivered to the callback, those in the channel and those of the threads
    still running are, as a multiset, one answer for each lookup asked for,
    under its token; and the answer is the first IPv4 address of the lookup,
    or else its first address, or none when it failed. *)
Theorem resolver_answers_once events tok server :
  let t := foldl run_event (mkTrace (dns_resolver_new tok server) [] []) events in
  reply <$> tr_asked t ≡ₚ
    tr_delivered t ++ queued (tr_resolver t) ++ (reply <$> jobs (tr_resolver t)).
Proof.
  cbn zeta. change (accounted (foldl run_event (mkTrace (dns_resolver_new tok server) [] []) events)).
  assert (accounted (mkTrace (dns_resolver_new tok server) [] [])) as H by apply perm_nil.
  revert H. generalize (mkTrace (dns_resolver_new tok server) [] []).
  induction events as [|e events IH]; intros t Ht; [done|]. simpl.
  by apply IH, run_event_accounted.
Qed.
End Run.

(** The cache answers with the last address stored, and only before it
    expires: after an update at time [t], a query of that domain at [now] yields
    the address while [now < t + duration] and otherwise nothing, dropping the
    entry; other domains are not affected. *)
Theorem query_after_update t now st domain addr other :
  (query_dns now (update_dns t st domain addr) domain).1 =
    (if now <? t + dns_cache_duration st then Some addr else None)
  ∧ (now <? t + dns_cache_duration st = false →
     dns_cache (query_dns now (update_dns t st domain addr) domain).2 !! domain = None)
  ∧ (other ≠ domain →
     (query_dns now (update_dns t st domain addr) other).1 = (query_dns now st other).1).
Proof.
  unfold query_dns, update_dns. cbn [with_cache dns_cache]. rewrite lookup_insert_eq.
  cbn [expired_time address]. split_and!.
  - by case_match.
  - intros ->. simpl. apply lookup_delete_eq.
  - intros Hne. rewrite lookup_insert_ne by done.
    destruct (dns_cache st !! other) as [entry|]; [|done].
    by destruct (now <? expired_time entry).
Qed.

Module ResolverWitness.
(** A lookup that fails, one with no IPv4 address, one with both. *)
Definition lookup (d : bytes) : option (list IpAddr) :=
  match d with
  | [1] => Some [V6 (replicate 16 7); V4 [9; 9; 9; 9]]
  | [2] => Some [V6 (replicate 16 7)]
  | _ => None
  end.

Example run_demo :
  let t := foldl (run_event lookup (λ _ _, None)) (mkTrace (dns_resolver_new 2 None) [] [])
    [EResolve [1] (Some 7); EResolve [2] None; EFinish 1; EResolve [3] (Some 9); EConsume 5;
     EFinish 0; EFinish 0; EConsume 6] in
  tr_delivered t = [(2, Some (V6 (replicate 16 7))); (7, Some (V4 [9; 9; 9; 9])); (9, None)].
Proof. by vm_compute. Qed.

Lemma query_after_update_witness :
  dns_cache (query_dns 20 (update_dns 0 (set_cache_timeout (dns_resolver_new 2 None) 0) [1] (V4 [1])) [1]).2
    !! [1] = None.
Proof.
  exact (proj1 (proj2 (query_after_update 0 20 (set_cache_timeout (dns_resolver_new 2 None) 0)
    [1] (V4 [1]) [2])) eq_refl).
Defined.
End ResolverWitness.
