(* ===== verification/Stats.v ===== *)
(** * Traffic statistics ([src/src/server/stat.rs])

    Byte counters per remote address.  The counters are [usize] and wrap. *)

From Stdlib Require Import ZArith Lia.
From stdpp Require Import base option list gmap sets sorting.
From S2P Require Import Prelude Net.

Open Scope Z_scope.

Record TrafficData : Type := mkTrafficData {
  tcp_rx : Z;
  tcp_tx : Z;
  udp_rx : Z;
  udp_tx : Z;
  sources : gset IpAddr
}.

Definition traffic_default : TrafficData := mkTrafficData 0 0 0 0 ∅.

Definition all (d : TrafficData) : Z :=
  wrap 64 (wrap 64 (wrap 64 (tcp_rx d + tcp_tx d) + udp_rx d) + udp_tx d).

(** [Statistics] is its map. *)
Abbreviation Statistics := (gmap IpAddr TrafficData).
Definition statistics_new : Statistics := ∅.

(** The counter a use of the [add!] macro names. *)
Inductive counter : Type := TcpRx | TcpTx | UdpRx | UdpTx.

#[export] Instance counter_eq_dec : EqDecision counter.
Proof. solve_decision. Defined.

(** [data.$field += $bytes]. *)
Definition add_field (field : counter) (bytes : Z) (d : TrafficData) : TrafficData :=
  match field with
  | TcpRx => mkTrafficData (wrap 64 (tcp_rx d + bytes)) (tcp_tx d) (udp_rx d) (udp_tx d) (sources d)
  | TcpTx => mkTrafficData (tcp_rx d) (wrap 64 (tcp_tx d + bytes)) (udp_rx d) (udp_tx d) (sources d)
  | UdpRx => mkTrafficData (tcp_rx d) (tcp_tx d) (wrap 64 (udp_rx d + bytes)) (udp_tx d) (sources d)
  | UdpTx => mkTrafficData (tcp_rx d) (tcp_tx d) (udp_rx d) (wrap 64 (udp_tx d + bytes)) (sources d)
  end.

Definition insert_source (source : option IpAddr) (d : TrafficData) : TrafficData :=
  match source with
  | Some s => mkTrafficData (tcp_rx d) (tcp_tx d) (udp_rx d) (udp_tx d) ({[ s ]} ∪ sources d)
  | None => d
  end.

(** The [add!] macro. *)
Definition add_macro (field : counter) (self : Statistics) (bytes : Z)
    (dst source : option IpAddr) : Statistics :=
  match dst with
  | Some ip =>
      if is_loopback ip then self
      else
        let data := default traffic_default (self !! ip) in
        <[ip := add_field field bytes (insert_source source data)]> self
  | None => self
  end.

Definition add_tcp_rx := add_macro TcpRx.
Definition add_tcp_tx := add_macro TcpTx.
Definition add_udp_rx := add_macro UdpRx.
Definition add_udp_tx := add_macro UdpTx.

(** [save]: the lines it writes, in order.  [conns] is the map's iteration order;
    the rendering of a line is [write!]'s. *)
Definition busier (a b : IpAddr * TrafficData) : Prop := all b.2 ≤ all a.2.

#[export] Instance busier_dec : RelDecision busier.
Proof. intros a b. unfold busier. apply _. Defined.

Definition save_lines (conns : list (IpAddr * TrafficData)) (limit : nat)
  : list (IpAddr * TrafficData) :=
  let limit := if (limit =? 0)%nat then length conns else limit in
  take limit (merge_sort busier conns).

(** ** Accounting *)

Definition counted (field : counter) (d : TrafficData) : Z :=
  match field with
  | TcpRx => tcp_rx d | TcpTx => tcp_tx d | UdpRx => udp_rx d | UdpTx => udp_tx d
  end.

(** One call: the counter, the bytes, the remote address, the client. *)
Record call : Type := mkCall {
  c_field : counter; c_bytes : Z; c_dst : option IpAddr; c_source : option IpAddr
}.

Definition apply_call (s : Statistics) (c : call) : Statistics :=
  add_macro (c_field c) s (c_bytes c) (c_dst c) (c_source c).

(** The bytes a history of calls attributes to a counter of an address. *)
Definition total_of (field : counter) (ip : IpAddr) (calls : list call) : Z :=
  foldr (λ c acc, (if decide (c_dst c = Some ip ∧ c_field c = field) then c_bytes c else 0) + acc)
    0 calls.

Lemma counted_add_field f f' b d :
  counted f (add_field f' b d) = if decide (f' = f) then wrap 64 (counted f d + b) else counted f d.
Proof. by destruct f, f'. Qed.

Lemma counted_insert_source f s d : counted f (insert_source s d) = counted f d.
Proof. by destruct f, s. Qed.

Definition counter_at (s : Statistics) (f : counter) (ip : IpAddr) : Z :=
  counted f (default traffic_default (s !! ip)).

Lemma counter_at_apply s c f ip :
  is_loopback ip = false →
  counter_at (apply_call s c) f ip =
    if decide (c_dst c = Some ip ∧ c_field c = f) then wrap 64 (counter_at s f ip + c_bytes c)
    else counter_at s f ip.
Proof.
  intros Hl. unfold counter_at, apply_call, add_macro.
  destruct (c_dst c) as [dst|]; [|by rewrite decide_False by naive_solver].
  destruct (decide (dst = ip)) as [->|Hne].
  - rewrite Hl, lookup_insert_eq. simpl.
    rewrite counted_add_field, counted_insert_source.
    destruct (decide (c_field c = f)); [rewrite decide_True by done|rewrite decide_False by naive_solver]; done.
  - rewrite decide_False by naive_solver. destruct (is_loopback dst); [done|].
    by rewrite lookup_insert_ne.
Qed.

(** Accounting: after any history of calls, each counter of a non-loopback
    address is the sum, modulo the width of [usize], of the bytes reported for
    exactly that counter and address; loopback addresses are never recorded. *)
Theorem statistics_account calls f ip :
  if is_loopback ip then foldl apply_call statistics_new calls !! ip = None
  else counter_at (foldl apply_call statistics_new calls) f ip = wrap 64 (total_of f ip calls).
Proof.
  destruct (is_loopback ip) eqn:Hl.
  - assert (statistics_new !! ip = None) as H by done. revert H.
    generalize statistics_new. induction calls as [|c calls IH]; intros s Hs; [done|].
    simpl. apply IH. unfold apply_call, add_macro. destruct (c_dst c) as [dst|]; [|done].
    destruct (is_loopback dst) eqn:Hd; [done|]. rewrite lookup_insert_ne by congruence. done.
  - enough (∀ s n, counter_at s f ip = wrap 64 n →
      counter_at (foldl apply_call s calls) f ip = wrap 64 (n + total_of f ip calls)) as H.
    { specialize (H statistics_new 0). rewrite Z.add_0_l in H. apply H. by destruct f. }
    induction calls as [|c calls IH]; intros s n Hs; simpl; [by rewrite Z.add_0_r|].
    rewrite Z.add_assoc. apply IH. rewrite counter_at_apply, Hs by done.
    case_decide; [|by rewrite Z.add_0_r]. unfold wrap. by rewrite Zplus_mod_idemp_l.
Qed.

#[export] Instance busier_total : Total busier.
Proof. intros a b. unfold busier. lia. Qed.

#[export] Instance busier_trans : Transitive busier.
Proof. intros a b c. unfold busier. lia. Qed.

(** [save] reports the busiest addresses: with a limit of [n] (0 is no
    limit) it writes [min n] of the addresses, in descending order of traffic,
    and no address it leaves out has more traffic than one it writes. *)
Theorem save_busiest conns limit :
  let n := if (limit =? 0)%nat then length conns else limit in
  StronglySorted busier (save_lines conns limit)
  ∧ length (save_lines conns limit) = min n (length conns)
  ∧ ∃ rest, save_lines conns limit ++ rest ≡ₚ conns
    ∧ ∀ x y, x ∈ save_lines conns limit → y ∈ rest → all y.2 ≤ all x.2.
Proof.
  cbn zeta. unfold save_lines. set (n := if (limit =? 0)%nat then length conns else limit).
  pose proof (StronglySorted_merge_sort busier conns) as Hs.
  rewrite <-(take_drop n (merge_sort busier conns)) in Hs.
  apply StronglySorted_app in Hs as (Hc & Ht & _). split_and!.
  - exact Ht.
  - by rewrite length_take, merge_sort_Permutation.
  - exists (drop n (merge_sort busier conns)). rewrite take_drop. split.
    + apply merge_sort_Permutation.
    + intros x y Hx Hy. exact (Hc x y Hx Hy).
Qed.
