(* ===== verification/Backend.v ===== *)
(** * Backends ([trait Backend] of [src/src/server/tls_server.rs]) and the TCP
    backend ([src/src/server/tcp_backend.rs])

    A backend is the server's side of a target.  [Backend] is the trait as a
    class; the clock reading and the loop fuel an implementation may need are
    arguments.  The TCP backend relays a byte stream. *)

From Stdlib Require Import ZArith Lia.
From stdpp Require Import base option list gmap.
From S2P Require Import Prelude Net Config Proto Status Env TlsConn TcpUtil.
From S2P Require Import Stats.

Open Scope Z_scope.

(** [dispatch] takes data from the client; [do_read] moves data from the target to
    the client's connection.  [None] is a panic. *)
Class Backend {E : Env} (B : Type) `{StatusProvider B} : Type := {
  dispatch : nat → Z → B → bytes → Statistics → option (B * Statistics);
  get_timeout : B → Z;
  b_writable : B → bool;
  do_read_backend : nat → Z → B → TlsConn E → Statistics → option (B * TlsConn E * Statistics);
  dst_ip : B → option IpAddr
}.

(** The default method [timeout]. *)
Definition backend_timeout {E : Env} {B : Type} {SP : StatusProvider B} {BK : Backend B} (b : B) (t1 t2 : Z) : bool :=
  get_timeout b <? since t2 t1.

Module TcpBackend.
Section TcpBackend.
Context {E : Env} (OPTIONS : Opts).

Record t : Type := mk {
  conn : TcpStream;
  status : ConnStatus;
  index : Z;
  timeout : Z;
  send_buffer : bytes;
  recv_len : nat;
  dst_ip_ : option IpAddr
}.

Definition with_conn (b : t) (c : TcpStream) : t :=
  mk c (status b) (index b) (timeout b) (send_buffer b) (recv_len b) (dst_ip_ b).
Definition with_send_buffer (b : t) (s : bytes) : t :=
  mk (conn b) (status b) (index b) (timeout b) s (recv_len b) (dst_ip_ b).

(** [None] is [Err]: the connection is dropped. *)
Definition new (conn : TcpStream) (dst_ip : option IpAddr) (index token : Z) : option t :=
  let '(ok, conn) := tcp_register conn token in
  if negb ok then None
  else
    let '(ok, conn) := tcp_set_nodelay conn in
    if negb ok then None
    else Some (mk conn Established index (tcp_idle_duration OPTIONS) [] MAX_PACKET_SIZE dst_ip).

#[global] Instance status_provider : StatusProvider t := {
  set_status b st := mk (conn b) st (index b) (timeout b) (send_buffer b) (recv_len b) (dst_ip_ b);
  get_status := status;
  close_conn b := (true, with_conn b (tcp_shutdown (conn b)));
  deregister b := (true, with_conn b (tcp_deregister (conn b)));
  finish_send b := (bool_decide (send_buffer b = []), b)
}.

#[global] Instance lawful : LawfulStatus t.
Proof. by split. Qed.

#[global] Instance infallible : InfallibleStatus t.
Proof. by split. Qed.

Definition do_send (b : t) (data : bytes) : option t :=
  '(ok, conn, buffer) ← tcp_send (conn b) (send_buffer b) data;
  let b := with_send_buffer (with_conn b conn) buffer in
  Some (if (ok : bool) then b else (shutdown b).2).

Definition dispatch (b : t) (buffer : bytes) (stats : Statistics) : option (t * Statistics) :=
  let stats := add_tcp_rx stats (Z.of_nat (length buffer)) (dst_ip_ b) None in
  b ← (if decide (send_buffer b = []) then do_send b buffer
       else do_send (with_send_buffer b []) (send_buffer b ++ buffer));
  Some (b, stats).

Definition do_read (fuel : nat) (b : t) (c : TlsConn E) (stats : Statistics)
  : option (t * TlsConn E * Statistics) :=
  '(ret, total, conn, c) ← tcp_read fuel (conn b) (recv_len b) c;
  let b := with_conn b conn in
  let b := if (ret : bool) then b else (shutdown b).2 in
  let stats := add_tcp_tx stats (Z.of_nat total) (dst_ip_ b) None in
  c ← TlsConn.do_send fuel c;
  Some (b, c, stats).

#[global] Instance backend : Backend t := {
  dispatch _ _ := dispatch;
  get_timeout := timeout;
  b_writable b := bool_decide (send_buffer b = []) && alive b;
  do_read_backend fuel _ := do_read fuel;
  dst_ip := dst_ip_
}.

Context `{!EnvOk E}.

(** What the target was sent or will be. *)
Definition relayed (b : t) : bytes := sent (conn b) ++ send_buffer b.

#[global] Instance relayed_frame : FrameStatus relayed.
Proof.
  split; intros; unfold relayed; simpl; rewrite ?tcp_shutdown_frame, ?tcp_deregister_frame; done.
Qed.

Lemma shutdown_relayed b : relayed (shutdown b).2 = relayed b.
Proof. apply (frame_shutdown relayed). Qed.

Lemma sent_shutdown b : sent (conn (shutdown b).2) = sent (conn b).
Proof. unfold shutdown. simpl. by destruct (status b); simpl; rewrite ?tcp_shutdown_frame. Qed.

Lemma do_send_spec b data :
  send_buffer b = [] →
  ∃ b', do_send b data = Some b'
    ∧ (∃ n, sent (conn b') = sent (conn b) ++ take n data)
    ∧ (relayed b' = sent (conn b) ++ data ∧ status b' = status b ∨ is_shutdown b' = true)
    ∧ index b' = index b ∧ timeout b' = timeout b ∧ dst_ip_ b' = dst_ip_ b
    ∧ recv_len b' = recv_len b.
Proof.
  intros Hsb. unfold do_send, tcp_send.
  destruct (tcp_send_loop_total (S (length data)) (conn b) (send_buffer b) data)
    as (ok & conn' & buffer' & n & -> & Hn & Hs & Hb); [lia|].
  cbn [mbind option_bind]. eexists. split; [reflexivity|]. destruct ok.
  - split; [by exists n|]. split; [|done]. left. split; [|done].
    unfold relayed. simpl. by rewrite Hs, Hb, Hsb, app_nil_l, <-app_assoc, take_drop.
  - split; [exists n; rewrite sent_shutdown; done|]. split; [right; apply is_shutdown_shutdown|].
    unfold shutdown. simpl. by destruct (status b).
Qed.

(** The relay lemma for one [dispatch]. *)
Lemma dispatch_spec b buffer stats :
  ∃ b' stats', dispatch b buffer stats = Some (b', stats')
    ∧ (∃ n, sent (conn b') = sent (conn b) ++ take n (send_buffer b ++ buffer))
    ∧ (relayed b' = relayed b ++ buffer ∧ status b' = status b ∨ is_shutdown b' = true).
Proof.
  unfold dispatch. case_decide as Hsb.
  - destruct (do_send_spec b buffer Hsb) as (b' & -> & Hs & Hr & _).
    eexists _, _. split; [reflexivity|]. rewrite Hsb. split; [done|].
    unfold relayed at 2. by rewrite Hsb, app_nil_r.
  - destruct (do_send_spec (with_send_buffer b []) (send_buffer b ++ buffer))
      as (b' & -> & Hs & Hr & _); [done|].
    eexists _, _. split; [reflexivity|]. split; [done|].
    unfold relayed at 2. by rewrite <-app_assoc.
Qed.

Lemma do_read_spec b c stats :
  terminates (λ fuel, do_read fuel b c stats) (λ '(b', c', _),
    relayed b' = relayed b ∧ same_identity c c' ∧ heard c' = heard c
    ∧ (status b' = status b ∨ is_shutdown b' = true)
    ∧ ∃ k, plain c' = plain c ++ k).
Proof.
  unfold do_read, tcp_read. eapply terminates_bind; [apply tcp_read_loop_terminates|].
  intros [[[ok total] conn'] c1] (d & _ & _ & Hsent & [k Hk] & _ & Hh & Hid).
  eapply terminates_bind; [apply do_send_terminates|].
  intros c2 [Hp Hh2 Hid2]. apply terminates_ret. split_and!.
  - destruct ok; [|rewrite shutdown_relayed]; unfold relayed; simpl; by rewrite Hsent.
  - by eapply same_identity_trans.
  - congruence.
  - destruct ok; [by left|right; apply is_shutdown_shutdown].
  - exists (take k d). congruence.
Qed.

End TcpBackend.
#[global] Arguments t E : clear implicits.
End TcpBackend.
