(* ===== verification/UdpBackend.v ===== *)
(** * The UDP backend ([src/src/server/udp_backend.rs])

    Datagrams from the client arrive as a byte stream of [UdpAssociate] packets;
    each is sent from one socket, and what that socket receives goes back to the
    client as packets. *)

From Stdlib Require Import ZArith Lia.
From stdpp Require Import base option list gmap.
From S2P Require Import Prelude Framing Net Config Proto Status Env TlsConn.
From S2P Require Import Stats Backend.

Open Scope Z_scope.
Open Scope rust_scope.

Module UdpBackend.
Section UdpBackend.
Context {E : Env} (OPTIONS : Opts).

Record t : Type := mk {
  socket : UdpSocket;
  send_buffer : bytes;
  recv_len : nat;
  index : Z;
  status : ConnStatus;
  timeout : Z;
  bytes_read : Z;
  bytes_sent : Z;
  source_ : option IpAddr;
  sources : gmap SocketAddr Z
}.

Definition with_socket (b : t) (s : UdpSocket) : t :=
  mk s (send_buffer b) (recv_len b) (index b) (status b) (timeout b) (bytes_read b)
    (bytes_sent b) (source_ b) (sources b).
Definition with_send_buffer (b : t) (s : bytes) : t :=
  mk (socket b) s (recv_len b) (index b) (status b) (timeout b) (bytes_read b)
    (bytes_sent b) (source_ b) (sources b).
Definition with_sources (b : t) (m : gmap SocketAddr Z) : t :=
  mk (socket b) (send_buffer b) (recv_len b) (index b) (status b) (timeout b) (bytes_read b)
    (bytes_sent b) (source_ b) m.
Definition count_sent (b : t) (n : nat) : t :=
  mk (socket b) (send_buffer b) (recv_len b) (index b) (status b) (timeout b) (bytes_read b)
    (wrap 64 (bytes_sent b + Z.of_nat n)) (source_ b) (sources b).
Definition count_read (b : t) (n : nat) : t :=
  mk (socket b) (send_buffer b) (recv_len b) (index b) (status b) (timeout b)
    (wrap 64 (bytes_read b + Z.of_nat n)) (bytes_sent b) (source_ b) (sources b).

Definition new (socket : UdpSocket) (source : option IpAddr) (index token : Z) : option t :=
  let '(ok, socket) := udp_register socket token in
  if negb ok then None
  else Some (mk socket [] MAX_PACKET_SIZE index Established (udp_idle_duration OPTIONS) 0 0
               source ∅).

(** [finish_send]: no complete packet is left.  A panic of [parse] here reads as
    "finished". *)
Definition finished (b : t) : bool :=
  match UdpAssociate.parse (send_buffer b) with
  | Some (UdpAssociate.Packet _) => false
  | _ => true
  end.

#[global] Instance status_provider : StatusProvider t := {
  set_status b st := mk (socket b) (send_buffer b) (recv_len b) (index b) st (timeout b)
                       (bytes_read b) (bytes_sent b) (source_ b) (sources b);
  get_status := status;
  close_conn b := (true, b);
  deregister b := (true, with_socket b (udp_deregister (socket b)));
  finish_send b := (finished b, b)
}.

#[global] Instance lawful : LawfulStatus t.
Proof. by split. Qed.

#[global] Instance infallible : InfallibleStatus t.
Proof. by split. Qed.

(** [do_send]: each iteration takes a packet off [buffer]. *)
Fixpoint do_send_loop (fuel : nat) (now : Z) (b : t) (buffer : bytes) (stats : Statistics)
  : option (t * Statistics) :=
  match fuel with
  | O => None
  | S fuel =>
      r ← UdpAssociate.parse buffer;
      match r with
      | UdpAssociate.Packet packet =>
          match as_socket (UdpAssociate.address packet) with
          | None => Some ((shutdown b).2, stats)
          | Some addr =>
              let b := if disable_udp_hole (server_args OPTIONS)
                       then with_sources b (<[addr := now]> (sources b)) else b in
              let length_ := UdpAssociate.length_ packet in
              data ← (UdpAssociate.payload packet).[upto length_];
              let '(r, s) := udp_send_to (socket b) data addr in
              let b := with_socket b s in
              match r with
              | IoOk size =>
                  let stats := add_udp_rx stats (Z.of_nat size) (Some (sa_ip addr)) None in
                  let b := count_sent b size in
                  if negb (size =? length_)%nat then Some ((shutdown b).2, stats)
                  else buffer ← (UdpAssociate.payload packet).[from length_];
                       do_send_loop fuel now b buffer stats
              | IoErr WouldBlock => Some (with_send_buffer b (send_buffer b ++ buffer), stats)
              | IoErr _ => Some ((shutdown b).2, stats)
              end
          end
      | UdpAssociate.InvalidProtocol => Some ((shutdown b).2, stats)
      | UdpAssociate.Continued => Some (with_send_buffer b (send_buffer b ++ buffer), stats)
      end
  end.

Definition do_send (now : Z) (b : t) (buffer : bytes) (stats : Statistics) :=
  do_send_loop (S (length buffer)) now b buffer stats.

Definition dispatch (now : Z) (b : t) (buffer : bytes) (stats : Statistics)
  : option (t * Statistics) :=
  if decide (send_buffer b = []) then do_send now b buffer stats
  else do_send now (with_send_buffer b []) (send_buffer b ++ buffer) stats.

(** The hole-punching guard of [do_read]: whether a datagram from [addr] may
    pass at [now]. *)
Definition may_pass (now : Z) (b : t) (addr : SocketAddr) : bool :=
  if disable_udp_hole (server_args OPTIONS) then
    match sources b !! addr with
    | Some time => negb (secs 60 <? since now time)
    | None => false
    end
  else true.

Fixpoint do_read_loop (fuel : nat) (now : Z) (b : t) (c : TlsConn E) (stats : Statistics)
  : option (t * TlsConn E * Statistics) :=
  match fuel with
  | O => None
  | S fuel =>
      let '(r, s) := udp_recv_from (socket b) (recv_len b) in
      let b := with_socket b s in
      match r with
      | IoOk (data, addr) =>
          let size := length data in
          let stats := add_udp_tx stats (Z.of_nat size) (Some (sa_ip addr)) (source c) in
          let b := count_read b size in
          if may_pass now b addr then
            let recv_head := UdpAssociate.generate addr (wrap 16 (Z.of_nat size)) in
            let '(ok, c) := write_session c recv_head in
            if (ok : bool) then
              let '(ok, c) := write_session c data in
              if (ok : bool) then do_read_loop fuel now b c stats else Some (b, c, stats)
            else Some (b, c, stats)
          else do_read_loop fuel now b c stats
      | IoErr WouldBlock => Some (b, c, stats)
      | IoErr _ => Some ((shutdown b).2, c, stats)
      end
  end.

Definition do_read (fuel : nat) (now : Z) (b : t) (c : TlsConn E) (stats : Statistics)
  : option (t * TlsConn E * Statistics) :=
  '(b, c, stats) ← do_read_loop fuel now b c stats;
  c ← TlsConn.do_send fuel c;
  Some (b, c, stats).

#[global] Instance backend : Backend t := {
  dispatch _ := dispatch;
  get_timeout := timeout;
  b_writable := alive;
  do_read_backend := do_read;
  dst_ip _ := None
}.

(** ** The client's byte stream *)

(** The packets of a list of datagrams. *)
Definition packet (d : bytes * SocketAddr) : bytes :=
  UdpAssociate.generate d.2 (Z.of_nat (length d.1)) ++ d.1.
Definition wf_datagram (d : bytes * SocketAddr) : Prop :=
  wf_sa d.2 ∧ (length d.1 <= MAX_PACKET_SIZE)%nat.

Abbreviation encode := (Framing.encode packet).
Abbreviation partial := (Framing.partial packet wf_datagram).

Lemma packet_nonempty d : (0 < length (packet d))%nat.
Proof.
  unfold packet, UdpAssociate.generate. rewrite !length_app, length_u16_be. lia.
Qed.

Lemma parse_partial p : partial p → UdpAssociate.parse p = Some UdpAssociate.Continued.
Proof.
  intros [->|(d & [Ha Hd] & [rest Hp] & Hne)]; [done|]. unfold packet in *.
  assert (p = take (length p) (UdpAssociate.generate d.2 (Z.of_nat (length d.1)) ++ d.1)) as ->
    by (by rewrite Hp, take_app_length).
  apply UdpProps.udp_prefix_continues; [done|done|].
  rewrite Hp, length_app. destruct rest; [by rewrite app_nil_r in Hp|simpl; lia].
Qed.

Lemma parse_packet d rest :
  wf_datagram d →
  ∃ off, UdpAssociate.parse (packet d ++ rest) =
    Some (UdpAssociate.Packet (UdpAssociate.mk (Socket d.2) off (length d.1) (d.1 ++ rest))).
Proof.
  intros [Ha Hd]. unfold packet. rewrite <-app_assoc, UdpProps.udp_parse_generate by done.
  by eexists.
Qed.

Lemma packet_complete d rest : wf_datagram d → ¬ partial (packet d ++ rest).
Proof.
  intros Hd Hp%parse_partial. destruct (parse_packet d rest Hd) as [off Hpk]. congruence.
Qed.

(** ** Reassembly *)

Context `{!EnvOk E}.

(** A socket that takes every datagram whole, for as long as it is used. *)
Definition lossless (ready : UdpSocket → Prop) : Prop :=
  ∀ s d a, ready s → ∃ s', udp_send_to s d a = (IoOk (length d), s') ∧ ready s'.

(** The state between two events: the datagrams sent, the packet begun. *)
Record state_is (ready : UdpSocket → Prop) (b : t) (ds : list (bytes * SocketAddr))
    (p : bytes) (st : ConnStatus) : Prop := {
  si_ready : ready (socket b);
  si_sent : datagrams (socket b) = ds;
  si_buffer : send_buffer b = p;
  si_status : status b = st
}.

Lemma do_send_loop_encode ready fuel now b ds p stats ds0 st :
  lossless ready → Forall wf_datagram ds → partial p →
  (length (encode ds ++ p) < fuel)%nat → state_is ready b ds0 [] st →
  ∃ b' stats', do_send_loop fuel now b (encode ds ++ p) stats = Some (b', stats')
    ∧ state_is ready b' (ds0 ++ ds) p st.
Proof.
  intros Hl Hds Hp. revert fuel b stats ds0.
  induction Hds as [|d ds Hd Hds IH]; intros fuel b stats ds0 Hf Hst;
    (destruct fuel as [|fuel]; [lia|]); cbn [do_send_loop].
  - change (encode [] ++ p) with p. rewrite (parse_partial p Hp). cbn [mbind option_bind]. eexists _, _.
    split; [reflexivity|]. destruct Hst as [H1 H2 H3 H4]. rewrite app_nil_r.
    split; try done. simpl. by rewrite H3.
  - rewrite encode_cons, <-app_assoc.
    destruct (parse_packet d (encode ds ++ p) Hd) as [off ->]. cbn [mbind option_bind as_socket
      UdpAssociate.address UdpAssociate.payload UdpAssociate.length_].
    rewrite slice_to_app, slice_from_app. cbn [mbind option_bind].
    set (b1 := if disable_udp_hole (server_args OPTIONS) then _ else b).
    assert (state_is ready b1 ds0 [] st) as [H1 H2 H3 H4].
    { subst b1. destruct (disable_udp_hole _), Hst; by split. }
    destruct (Hl (socket b1) d.1 d.2 H1) as (s' & Hsend & Hr). rewrite Hsend.
    rewrite Nat.eqb_refl. cbn [negb].
    destruct (IH fuel (count_sent (with_socket b1 s') (length d.1))
      (add_udp_rx stats (Z.of_nat (length d.1)) (Some (sa_ip d.2)) None) (ds0 ++ [d]))
      as (b' & stats' & -> & Hst').
    { rewrite encode_cons, !length_app in Hf. pose proof (packet_nonempty d).
      rewrite length_app. lia. }
    { split; try done. simpl. destruct (udp_send_ok _ _ _ _ _ Hsend) as [_ ->].
      rewrite H2, firstn_all. by destruct d. }
    exists b', stats'. split; [done|]. by rewrite <-app_assoc in Hst'.
Qed.

Lemma dispatch_encode ready now b ds p0 p chunk stats ds0 st :
  lossless ready → Forall wf_datagram ds → partial p → p0 ++ chunk = encode ds ++ p →
  state_is ready b ds0 p0 st →
  ∃ b' stats', dispatch now b chunk stats = Some (b', stats') ∧ state_is ready b' (ds0 ++ ds) p st.
Proof.
  intros Hl Hds Hp Heq Hst. unfold dispatch, do_send. case_decide as Hb.
  - destruct Hst as [H1 H2 H3 H4]. assert (p0 = []) as -> by congruence.
    simpl in Heq. rewrite Heq.
    apply do_send_loop_encode; [done|done|done|lia|by split].
  - destruct Hst as [H1 H2 H3 H4]. rewrite H3, Heq.
    apply do_send_loop_encode; [done|done|done|lia|by split].
Qed.

(** A run of [dispatch] on the chunks of a stream. *)
Definition dispatch_all (now : Z) (b : t) (chunks : list bytes) (stats : Statistics)
  : option (t * Statistics) :=
  feed_all (λ s chunk, dispatch now s.1 chunk s.2) (b, stats) chunks.

(** C12: reassembly: however the stream of packets is cut into reads, on a
    socket that accepts datagrams the backend never panics or shuts down, sends
    exactly the datagrams whose packets have fully arrived, once each and in
    order, each to its own address, and keeps the incomplete rest. *)
Theorem dispatch_reassembles ready now b chunks stats ds p :
  lossless ready → Forall wf_datagram ds → partial p → mjoin chunks = encode ds ++ p →
  ready (socket b) → send_buffer b = [] →
  ∃ b' stats', dispatch_all now b chunks stats = Some (b', stats')
    ∧ datagrams (socket b') = datagrams (socket b) ++ ds
    ∧ send_buffer b' = p
    ∧ status b' = status b.
Proof.
  intros Hl Hds Hp Heq Hr Hb. unfold dispatch_all.
  destruct (feed_all_ok packet wf_datagram (λ s chunk, dispatch now s.1 chunk s.2)
    (λ ds p s, state_is ready s.1 (datagrams (socket b) ++ ds) p (status b)) packet_complete)
    with (done := @nil (bytes * SocketAddr)) (p0 := @nil Z) (s := (b, stats))
         (chunks := chunks) (xs := ds) (p := p)
    as ([b' stats'] & Hall & [_ H2 H3 H4]); [|split; simpl; rewrite ?app_nil_r; done|by left|done..|].
  - intros done p0 [b1 stats1] chunk xs p1 Hst Hxs Hp1 Hch. simpl in Hst |- *.
    destruct (dispatch_encode ready now b1 xs p0 p1 chunk stats1 (datagrams (socket b) ++ done)
      (status b)) as (b' & stats' & -> & Hst'); [done..|].
    eexists. split; [reflexivity|]. simpl. by rewrite app_assoc.
  - by exists b', stats'.
Qed.

(** ** The way back *)

Definition passing (now : Z) (b : t) (ds : list (bytes * SocketAddr)) : list (bytes * SocketAddr) :=
  filter (λ d, may_pass now b d.2 = true) ds.

(** What [do_read] leaves behind: [ds] came in, those that pass went out. *)
Definition read_result (now : Z) (b : t) (c : TlsConn E) (r : t * TlsConn E * Statistics) : Prop :=
  let '(b', c', _) := r in
  ∃ ds, taken (socket b') = taken (socket b) ++ ds
    ∧ datagrams (socket b') = datagrams (socket b)
    ∧ (is_shutdown c' = false → plain c' = plain c ++ encode (passing now b ds))
    ∧ (∃ k, plain c' = plain c ++ take k (encode (passing now b ds)))
    ∧ send_buffer b' = send_buffer b
    ∧ (status b' = status b ∨ is_shutdown b' = true)
    ∧ same_identity c c'.

Lemma passing_cons now b d ds :
  encode (passing now b (d :: ds)) =
    (if may_pass now b d.2 then packet d else []) ++ encode (passing now b ds).
Proof.
  unfold passing. rewrite filter_cons. simpl.
  destruct (may_pass now b d.2) eqn:H; [rewrite decide_True by done|rewrite decide_False by (by intros [=])];
    done.
Qed.

Lemma read_result_skip now b c s r data addr :
  may_pass now b addr = false →
  taken s = taken (socket b) ++ [(data, addr)] → datagrams s = datagrams (socket b) →
  read_result now (count_read (with_socket b s) (length data)) c r → read_result now b c r.
Proof.
  intros Hp Ht Hd. destruct r as [[b' c'] stats'].
  intros (ds & H1 & H2 & H3 & H4 & H5 & H6 & H7). exists ((data, addr) :: ds).
  assert (encode (passing now b ((data, addr) :: ds)) = encode (passing now b ds)) as He
    by (rewrite passing_cons; simpl; by rewrite Hp).
  rewrite He. simpl in H1, H2. split_and!; [|congruence|exact H3|exact H4|done|done|done].
  by rewrite H1, Ht, <-app_assoc.
Qed.

Lemma read_result_pass now b c c1 s r data addr :
  may_pass now b addr = true →
  taken s = taken (socket b) ++ [(data, addr)] → datagrams s = datagrams (socket b) →
  plain c1 = plain c ++ packet (data, addr) → same_identity c c1 →
  read_result now (count_read (with_socket b s) (length data)) c1 r → read_result now b c r.
Proof.
  intros Hp Ht Hd Hpl Hid. destruct r as [[b' c'] stats'].
  intros (ds & H1 & H2 & H3 & [k H4] & H5 & H6 & H7). exists ((data, addr) :: ds).
  rewrite passing_cons. cbn [snd]. rewrite Hp. simpl in H1, H2.
  split_and!; [|congruence| | |done|done|by eapply same_identity_trans].
  - by rewrite H1, Ht, <-app_assoc.
  - intros Hs. rewrite (H3 Hs), Hpl. by rewrite <-app_assoc.
  - exists (length (packet (data, addr)) + k)%nat.
    rewrite take_app_add', H4, Hpl, <-app_assoc by done. done.
Qed.

Lemma udp_do_read_loop_terminates now b c stats :
  (recv_len b <= MAX_PACKET_SIZE)%nat →
  terminates (λ fuel, do_read_loop fuel now b c stats) (read_result now b c).
Proof.
  remember (udp_rx_left (socket b)) as m eqn:Hm. revert b c stats Hm.
  induction m as [m IH] using (well_founded_induction lt_wf). intros b c stats Hm Hlen.
  apply terminates_S. cbn [do_read_loop].
  destruct (udp_recv_from (socket b) (recv_len b)) as [[[data addr]|k] s] eqn:Hr.
  2: { destruct (udp_recv_err _ _ _ _ Hr) as [H1 H2].
       destruct k; apply terminates_ret; exists [];
         rewrite !app_nil_r; unfold shutdown; simpl;
         (split_and!; [destruct (status b); simpl; congruence|destruct (status b); simpl; congruence
                      |done|exists 0%nat; by rewrite app_nil_r|by destruct (status b)
                      |first [by left | destruct (status b) eqn:Hst; simpl; auto; right; unfold is_shutdown; simpl;
                               by rewrite ?Hst]
                      |apply same_identity_refl]). }
  destruct (udp_recv_ok _ _ _ _ _ Hr) as (Hle & Hlt & H1 & H2). cbn zeta.
  set (b1 := count_read (with_socket b s) (length data)).
  change (may_pass now b1 addr) with (may_pass now b addr).
  destruct (may_pass now b addr) eqn:Hp.
  2: { eapply terminates_weaken; [eapply (IH (udp_rx_left s)); [lia|done|done]|].
       intros r. by apply (read_result_skip now b c s r data addr). }
  replace (wrap 16 (Z.of_nat (length data))) with (Z.of_nat (length data)).
  2: { rewrite wrap_small; [done|]. unfold MAX_PACKET_SIZE in Hlen. lia. }
  destruct (write_session c _) as [[] c1] eqn:Hw1.
  2: { destruct (write_session_false _ _ _ Hw1) as ([k Hk] & _ & Hsh & Hid). apply terminates_ret.
       exists [(data, addr)]. rewrite passing_cons. simpl. rewrite Hp.
       split_and!; [done|done|congruence| |done|by left|done].
       exists (min k (length (UdpAssociate.generate addr (Z.of_nat (length data))))).
       rewrite Hk. unfold packet. simpl. rewrite app_nil_r. f_equal.
       rewrite take_app_le by lia. by rewrite take_min. }
  destruct (write_session_true _ _ _ Hw1) as (Hp1 & _ & Hi1 & Ht1 & Hs1).
  assert (same_identity c c1) as Hid1 by (split; auto).
  destruct (write_session c1 data) as [[] c2] eqn:Hw2.
  - destruct (write_session_true _ _ _ Hw2) as (Hp2 & _ & Hi2 & Ht2 & Hs2).
    eapply terminates_weaken; [eapply (IH (udp_rx_left s)); [lia|done|done]|].
    intros r. apply (read_result_pass now b c c2 s r data addr); [done..| |].
    + rewrite Hp2, Hp1. by rewrite <-app_assoc.
    + eapply same_identity_trans; [exact Hid1|split; auto].
  - destruct (write_session_false _ _ _ Hw2) as ([k Hk] & _ & Hsh & Hid). apply terminates_ret.
    exists [(data, addr)]. rewrite passing_cons. simpl. rewrite Hp.
    split_and!; [done|done|congruence| |done|by left|by eapply same_identity_trans].
    exists (length (UdpAssociate.generate addr (Z.of_nat (length data))) + k)%nat.
    rewrite Hk, Hp1. unfold packet. simpl. rewrite app_nil_r, take_app_add', app_assoc by done.
    done.
Qed.

(** The way back: [do_read] terminates, frames the datagrams that came in,
    in order, as packets the client can parse, and nothing else reaches the
    client; when hole punching is disabled only datagrams from an address the
    client has sent to within the last 60 seconds pass. *)
Theorem do_read_guarded now b c stats :
  (recv_len b <= MAX_PACKET_SIZE)%nat →
  terminates (λ fuel, do_read fuel now b c stats) (λ '(b', c', _), ∃ ds,
    taken (socket b') = taken (socket b) ++ ds
    ∧ (is_shutdown c' = false → plain c' = plain c ++ encode (passing now b ds))
    ∧ (∃ k, plain c' = plain c ++ take k (encode (passing now b ds)))
    ∧ (disable_udp_hole (server_args OPTIONS) = true →
       Forall (λ d, ∃ time, sources b !! d.2 = Some time ∧ now - time <= secs 60)
         (passing now b ds))).
Proof.
  intros Hlen. unfold do_read. eapply terminates_bind; [by apply udp_do_read_loop_terminates|].
  intros [[b1 c1] stats1] (ds & H1 & _ & H3 & H4 & _).
  eapply terminates_bind; [apply do_send_terminates|].
  intros c2 [Hp _ [_ _ Hst]]. apply terminates_ret. exists ds. rewrite Hp. split_and!; [done| |done|].
  - intros Hs. apply H3. unfold is_shutdown in *. simpl in *.
    destruct Hst as [Hst|Hst]; rewrite Hst in Hs; [done|discriminate].
  - intros Hh. apply Forall_forall. intros d [Hd _]%list_elem_of_filter.
    unfold may_pass in Hd. rewrite Hh in Hd. destruct (sources b !! d.2) as [time|]; [|done].
    exists time. split; [done|]. apply negb_true_iff, Z.ltb_ge in Hd. unfold since in Hd. lia.
Qed.

End UdpBackend.
#[global] Arguments t E : clear implicits.
End UdpBackend.

Module UdpBackendWitness.
#[local] Existing Instance Sim.env.
#[local] Existing Instance Sim.env_ok.
Import UdpBackend.

Definition backend0 (s : Sim.socket) : UdpBackend.t Sim.env :=
  mk s [] MAX_PACKET_SIZE 3 Established (secs 60) 0 0 None {[ Witness.a4 := 0 ]}.

Definition tls0 : TlsConn Sim.env := tls_conn_new (E := Sim.env) 3 6 Sim.idle_session Sim.idle_stream.

Definition d1 : bytes * SocketAddr := ([1; 2; 3], Witness.a4).
Definition d2 : bytes * SocketAddr := ([4], Witness.a6).

Lemma wf_ds : Forall wf_datagram [d1; d2].
Proof.
  repeat apply Forall_cons_2; [split; [apply Witness.a4_ok|]|split; [apply Witness.a6_ok|]|by apply Forall_nil_2];
    vm_compute; lia.
Qed.

Definition chunks : list bytes :=
  [take 5 (packet d1); drop 5 (packet d1) ++ take 9 (packet d2); drop 9 (packet d2)].

Definition open_window (s : Sim.socket) : Prop := Sim.sk_tx s = [].

Lemma open_window_lossless : lossless (E := Sim.env) open_window.
Proof.
  intros [rx tx snt tk] d a Hs. exists (Sim.mkSocket rx [] (snt ++ [(d, a)]) tk).
  unfold open_window in Hs. simpl in *. by subst.
Qed.

Lemma dispatch_reassembles_witness :
  ∃ b' stats', dispatch_all Witness.opts 0 (backend0 Sim.idle_socket) chunks ∅ = Some (b', stats')
    ∧ datagrams (socket b') = [d1; d2] ∧ send_buffer b' = [] ∧ status b' = Established.
Proof.
  refine (dispatch_reassembles (E := Sim.env) Witness.opts open_window 0 (backend0 Sim.idle_socket)
           chunks ∅ [d1; d2] [] open_window_lossless wf_ds (or_introl eq_refl) _ eq_refl eq_refl).
  by vm_compute.
Defined.

(** A datagram from a known address passes, one from an unknown one does not. *)
Example do_read_example :
  (λ '(_, c, _), plain c) <$> do_read Witness.opts 9 (secs 5)
     (backend0 (Sim.mkSocket [d1; d2] [] [] [])) tls0 ∅
  = Some (packet d1).
Proof. by vm_compute. Qed.

Lemma do_read_guarded_witness :
  terminates (λ fuel, do_read Witness.opts fuel 0 (backend0 Sim.idle_socket)
      tls0 ∅) (λ '(b', c', _), ∃ ds,
    taken (socket b') = [] ++ ds
    ∧ (is_shutdown c' = false →
       plain c' = [] ++ Framing.encode packet (passing Witness.opts 0 (backend0 Sim.idle_socket) ds))
    ∧ (∃ k, plain c' = [] ++ take k (Framing.encode packet (passing Witness.opts 0 (backend0 Sim.idle_socket) ds)))
    ∧ (true = true →
       Forall (λ d, ∃ time, ({[ Witness.a4 := 0 ]} : gmap SocketAddr Z) !! d.2 = Some time
                ∧ 0 - time <= secs 60)
         (passing Witness.opts 0 (backend0 Sim.idle_socket) ds))).
Proof.
  refine (do_read_guarded (E := Sim.env) Witness.opts 0 (backend0 Sim.idle_socket) tls0 ∅ _).
  vm_compute. lia.
Defined.
End UdpBackendWitness.
