(* ===== verification/PingBackend.v ===== *)
(** * The ping backend ([src/src/server/ping_backend.rs])

    The client sends addresses; a check routine on another thread pings each a
    hundred times and its results go back to the client, from a cache when they
    are recent.  The channels between the backend and the routine are part of
    the state; [routine_step] and [finish_check] are the other threads' steps. *)

From Stdlib Require Import ZArith Lia.
From stdpp Require Import base option list gmap.
From S2P Require Import Prelude Framing Net Config Proto Status Env TlsConn.
From S2P Require Import Stats Backend.

Open Scope Z_scope.
Open Scope rust_scope.

Record PingResult : Type := mkPingResult {
  pr_time : Z;
  pr_ip : IpAddr;
  pr_lost : Z;
  pr_ping : Z
}.

Definition ping_result_default (now : Z) : PingResult :=
  mkPingResult now (ipv4_of_u32 0) u8_MAX 0.

(** ** [do_check]

    [outcome] is what surge-ping answered to one probe: the round trip in
    milliseconds, or a failure.  The running average is computed in [u128]. *)
Definition check_one (acc : Z * Z) (outcome : option Z) : Z * Z :=
  let '(received, avg_cost) := acc in
  match outcome with
  | Some cost => (received + 1, (avg_cost * received + cost) / (received + 1))
  | None => (received, avg_cost)
  end.

Definition do_check (now : Z) (ip : IpAddr) (outcomes : list (option Z)) : PingResult :=
  let '(received, avg_cost) := foldl check_one (0, 0) (take 100 outcomes) in
  mkPingResult now ip (wrap 8 (100 - received)) (wrap 16 avg_cost).

Module PingBackend.
Section PingBackend.
Context {E : Env} (OPTIONS : Opts).

Record t : Type := mk {
  status : ConnStatus;
  recv_buffer : bytes;
  send_buffer : bytes;
  (** the request channel, and whether the routine still receives from it *)
  requests : list IpAddr;
  routine_open : bool;
  (** the checks running, with their identifiers, and the next identifier *)
  checks : list (IpAddr * Z);
  next_check : Z;
  (** the response channel *)
  responses : list PingResult;
  responses_open : bool;
  cached_result : gmap IpAddr PingResult;
  cache_timeout : Z
}.

Definition new : t :=
  mk Established [] [] [] true [] 0 [] true ∅ (cached_ping_timeout (server_args OPTIONS)).

Definition with_status (b : t) (st : ConnStatus) : t :=
  mk st (recv_buffer b) (send_buffer b) (requests b) (routine_open b) (checks b) (next_check b)
    (responses b) (responses_open b) (cached_result b) (cache_timeout b).
Definition with_recv (b : t) (r : bytes) : t :=
  mk (status b) r (send_buffer b) (requests b) (routine_open b) (checks b) (next_check b)
    (responses b) (responses_open b) (cached_result b) (cache_timeout b).
Definition with_send (b : t) (s : bytes) : t :=
  mk (status b) (recv_buffer b) s (requests b) (routine_open b) (checks b) (next_check b)
    (responses b) (responses_open b) (cached_result b) (cache_timeout b).
Definition with_requests (b : t) (r : list IpAddr) : t :=
  mk (status b) (recv_buffer b) (send_buffer b) r (routine_open b) (checks b) (next_check b)
    (responses b) (responses_open b) (cached_result b) (cache_timeout b).
Definition with_routine (b : t) (r : list IpAddr) (o : bool) (cs : list (IpAddr * Z)) (n : Z) : t :=
  mk (status b) (recv_buffer b) (send_buffer b) r o cs n
    (responses b) (responses_open b) (cached_result b) (cache_timeout b).
Definition with_responses (b : t) (r : list PingResult) (o : bool) : t :=
  mk (status b) (recv_buffer b) (send_buffer b) (requests b) (routine_open b) (checks b)
    (next_check b) r o (cached_result b) (cache_timeout b).
Definition with_cache (b : t) (m : gmap IpAddr PingResult) : t :=
  mk (status b) (recv_buffer b) (send_buffer b) (requests b) (routine_open b) (checks b)
    (next_check b) (responses b) (responses_open b) m (cache_timeout b).

(** [req_sender.send]. *)
Definition send_request (b : t) (ip : IpAddr) : bool * t :=
  if routine_open b then (true, with_requests b (requests b ++ [ip])) else (false, b).

(** [set_status] stops the routine when the backend shuts down. *)
Definition set_status (b : t) (st : ConnStatus) : t :=
  let b := match st with
           | Shutdown =>
               let b := (send_request b (V4 [0; 0; 0; 0])).2 in
               with_responses b (responses b) false
           | _ => b
           end in
  with_status b st.

#[global] Instance status_provider : StatusProvider t := {
  set_status := set_status;
  get_status := status;
  close_conn b := (true, b);
  deregister b := (true, b);
  finish_send b := (bool_decide (send_buffer b = []), b)
}.

Lemma status_send_request b ip : status (send_request b ip).2 = status b.
Proof. unfold send_request. by destruct (routine_open b). Qed.

#[global] Instance lawful : LawfulStatus t.
Proof. by split. Qed.

#[global] Instance infallible : InfallibleStatus t.
Proof. by split. Qed.

(** [start_check_routine]: one iteration of its loop. *)
Definition routine_step (b : t) : t :=
  if routine_open b then
    match requests b with
    | [] => b
    | ip :: rest =>
        if is_unspecified ip then with_routine b [] false (checks b) (next_check b)
        else with_routine b rest true (checks b ++ [(ip, next_check b)])
               (wrap 16 (next_check b + 1))
    end
  else b.

(** A running check finishes and sends its result. *)
Definition finish_check (now : Z) (b : t) (i : nat) (outcomes : list (option Z)) : t :=
  match checks b !! i with
  | Some (ip, _) =>
      let b := with_routine b (requests b) (routine_open b) (delete i (checks b)) (next_check b) in
      if responses_open b
      then with_responses b (responses b ++ [do_check now ip outcomes]) true else b
  | None => b
  end.

(** The bytes of one result. *)
Definition result_bytes (pr : PingResult) : bytes :=
  match pr_ip pr with
  | V4 o => IPV4 :: o
  | V6 o => IPV6 :: o
  end ++ u16_be (pr_ping pr) ++ [pr_lost pr].

Definition send_result (b : t) (pr : PingResult) : t :=
  with_send b (send_buffer b ++ result_bytes pr).

(** The lookup of [dispatch]: the entry, a default one inserted if absent. *)
Definition cache_entry (now : Z) (b : t) (addr : IpAddr) : PingResult * t :=
  let result := default (ping_result_default now) (cached_result b !! addr) in
  (result, with_cache b (<[addr := result]> (cached_result b))).

Definition fresh (now : Z) (b : t) (result : PingResult) : bool :=
  (pr_lost result <=? 100) && (as_secs (since now (pr_time result)) <? cache_timeout b).

(** The part of an iteration of [dispatch] after the address is read; [false]
    is [break]. *)
Definition handle_addr (now : Z) (b : t) (addr : IpAddr) : bool * t :=
  if is_unspecified addr then (false, (shutdown b).2)
  else
    let '(result, b) := cache_entry now b addr in
    if fresh now b result then (true, send_result b result)
    else
      let '(ok, b) := send_request b addr in
      if (ok : bool) then (true, b) else (false, (shutdown b).2).

Fixpoint dispatch_loop (fuel : nat) (now : Z) (b : t) : option t :=
  match fuel with
  | O => None
  | S fuel =>
      if decide (recv_buffer b = []) then Some b
      else
        kind ← (recv_buffer b).[0%nat];
        let len := length (recv_buffer b) in
        if kind =? IPV4 then
          if (len <? 5)%nat then Some b
          else
            data ← (recv_buffer b).[between 1%nat & 5%nat];
            rest ← (recv_buffer b).[from 5%nat];
            let '(continue, b) := handle_addr now (with_recv b rest) (V4 data) in
            if (continue : bool) then dispatch_loop fuel now b else Some b
        else if kind =? IPV6 then
          if (len <? 17)%nat then Some b
          else
            data ← (recv_buffer b).[between 1%nat & 17%nat];
            rest ← (recv_buffer b).[from 17%nat];
            let '(continue, b) := handle_addr now (with_recv b rest) (V6 data) in
            if (continue : bool) then dispatch_loop fuel now b else Some b
        else Some (shutdown b).2
  end.

Definition dispatch (now : Z) (b : t) (data : bytes) : option t :=
  let b := with_recv b (recv_buffer b ++ data) in
  dispatch_loop (S (length (recv_buffer b))) now b.

(** [while let Ok(pr) = self.resp_receiver.try_recv()]. *)
Definition receive_all (b : t) : t :=
  foldl (λ b pr, with_cache (send_result b pr) (<[pr_ip pr := pr]> (cached_result b)))
    (with_responses b [] (responses_open b)) (responses b).

Definition do_read (fuel : nat) (b : t) (c : TlsConn E) : option (t * TlsConn E) :=
  let b := receive_all b in
  if decide (send_buffer b = []) then Some (b, c)
  else
    let data := send_buffer b in
    let b := with_send b [] in
    let '(ok, c) := write_session c data in
    if (ok : bool) then c ← TlsConn.do_send fuel c; Some (b, c)
    else Some (set_status b PeerClosed, c).

#[global] Instance backend : Backend t := {
  dispatch _ now b data stats := b ← dispatch now b data; Some (b, stats);
  get_timeout _ := secs (usize_MAX);
  b_writable := alive;
  do_read_backend fuel _ b c stats := '(b, c) ← do_read fuel b c; Some (b, c, stats);
  dst_ip _ := None
}.

(** ** Requests *)

Definition addr_bytes (ip : IpAddr) : bytes :=
  match ip with V4 o => IPV4 :: o | V6 o => IPV6 :: o end.

Definition wf_addr (ip : IpAddr) : Prop := wf_ip ip ∧ is_unspecified ip = false.

Abbreviation encode := (Framing.encode addr_bytes).
Abbreviation partial := (Framing.partial addr_bytes wf_addr).

(** The answer the cache of [b] has for an address at [now], if any. *)
Definition cached (now : Z) (b : t) (ip : IpAddr) : option PingResult :=
  let result := default (ping_result_default now) (cached_result b !! ip) in
  if fresh now b result then Some result else None.

(** [b] is [b0] after serving [ips], with [p] left to parse. *)
Record served (now : Z) (b0 : t) (ips : list IpAddr) (p : bytes) (b : t) : Prop := {
  sv_recv : recv_buffer b = p;
  sv_requests : requests b = requests b0 ++ filter (λ ip, cached now b0 ip = None) ips;
  sv_send : send_buffer b = send_buffer b0 ++ mjoin (result_bytes <$> omap (cached now b0) ips);
  sv_status : status b = status b0;
  sv_open : routine_open b = true;
  sv_cache : ∀ ip, cached now b ip = cached now b0 ip
}.

Lemma cached_insert_default now b addr ip :
  cached now (with_cache b (<[addr := default (ping_result_default now) (cached_result b !! addr)]>
    (cached_result b))) ip = cached now b ip.
Proof.
  unfold cached, fresh. simpl. destruct (decide (addr = ip)) as [->|Hne].
  - by rewrite lookup_insert_eq.
  - by rewrite lookup_insert_ne.
Qed.

Lemma handle_addr_ok now b0 ips p b ip :
  served now b0 ips p b → is_unspecified ip = false →
  ∃ b', handle_addr now b ip = (true, b') ∧ served now b0 (ips ++ [ip]) p b'.
Proof.
  intros [H1 H2 H3 H4 H5 H6] Hu. unfold handle_addr. rewrite Hu. unfold cache_entry.
  pose proof (H6 ip) as Hip. unfold cached in Hip at 1.
  set (r := default (ping_result_default now) (cached_result b !! ip)) in *.
  set (b1 := with_cache b (<[ip := r]> (cached_result b))).
  change (fresh now b1 r) with (fresh now b r).
  assert (∀ ip', cached now b1 ip' = cached now b0 ip') as Hc.
  { intros ip'. rewrite <-H6. apply cached_insert_default. }
  destruct (fresh now b r); symmetry in Hip.
  - eexists. split; [done|]. split; try done.
    + simpl. rewrite filter_app, filter_cons_False, filter_nil, app_nil_r by (by rewrite Hip).
      exact H2.
    + simpl. rewrite H3, omap_app, fmap_app, join_app, <-app_assoc. simpl.
      rewrite Hip. simpl. by rewrite app_nil_r.
  - unfold send_request. simpl. rewrite H5. eexists. split; [done|]. split; try done.
    + simpl. rewrite filter_app, filter_cons_True, filter_nil, H2, app_assoc by done. done.
    + simpl. rewrite H3, omap_app, fmap_app, join_app. simpl. rewrite Hip. simpl.
      by rewrite !app_nil_r.
Qed.

Lemma partial_short p :
  partial p → p = [] ∨ (∃ rest, p = IPV4 :: rest ∧ (length p < 5)%nat)
    ∨ (∃ rest, p = IPV6 :: rest ∧ (length p < 17)%nat).
Proof.
  intros [->|([o|o] & [[Hlen _] _] & [q Hq] & Hne)]; [by left|..]; simpl in Hq, Hne;
    (destruct p as [|k p]; [by left|right]); simpl in Hq; injection Hq as <- Ho;
    [left|right]; exists p; (split; [done|]);
    apply (f_equal length) in Ho as Hlo; rewrite length_app in Hlo;
    (destruct q; [rewrite app_nil_r in Ho; congruence|simpl in *; lia]).
Qed.

Lemma addr_complete ip rest : wf_addr ip → ¬ partial (addr_bytes ip ++ rest).
Proof.
  intros [Hip _] Hp%partial_short. destruct ip as [o|o]; destruct Hip as [Hlen _]; simpl in Hp;
    rewrite length_app in Hp;
    destruct Hp as [?|[(r & [= ] & ?)|(r & [= ] & ?)]]; try done; lia.
Qed.

Lemma dispatch_loop_partial fuel now b :
  partial (recv_buffer b) → dispatch_loop (S fuel) now b = Some b.
Proof.
  intros Hp. cbn [dispatch_loop]. case_decide; [done|].
  destruct (partial_short _ Hp) as [?|[(r & Hr & Hl)|(r & Hr & Hl)]]; [done|..]; rewrite Hr in *;
    simpl in *; by nat_leb.
Qed.

Lemma dispatch_loop_addr fuel now b ip rest :
  wf_addr ip → recv_buffer b = addr_bytes ip ++ rest →
  dispatch_loop (S fuel) now b =
    (let '(continue, b) := handle_addr now (with_recv b rest) ip in
     if (continue : bool) then dispatch_loop fuel now b else Some b).
Proof.
  intros [Hip _] Hb. cbn [dispatch_loop]. rewrite Hb.
  destruct ip as [o|o]; destruct Hip as [Hlen _]; cbn [addr_bytes app];
    (rewrite decide_False by done); change (?x :: ?l).[0%nat] with (Some x);
    cbn [mbind option_bind];
    [change (IPV4 =? IPV4) with true|change (IPV6 =? IPV4) with false; change (IPV6 =? IPV6) with true];
    cbv iota; cbn [length]; rewrite length_app; nat_leb;
    (rewrite slice_le by (simpl; rewrite length_app; lia));
    (rewrite slice_from_le by (simpl; rewrite length_app; lia));
    cbn [mbind option_bind Nat.sub drop];
    rewrite drop_0, take_app_length', drop_app_length' by done; done.
Qed.

Lemma dispatch_loop_serves now b0 fuel b done ips p :
  Forall wf_addr ips → partial p → served now b0 done (encode ips ++ p) b →
  (length (encode ips ++ p) < fuel)%nat →
  ∃ b', dispatch_loop fuel now b = Some b' ∧ served now b0 (done ++ ips) p b'.
Proof.
  intros Hips Hp. revert fuel b done.
  induction Hips as [|ip ips Hip Hips IH]; intros fuel b done Hs Hf;
    (destruct fuel as [|fuel]; [lia|]).
  - exists b. rewrite app_nil_r. split; [|done]. apply dispatch_loop_partial.
    by rewrite (sv_recv _ _ _ _ _ Hs).
  - rewrite encode_cons, <-app_assoc in Hs, Hf.
    rewrite (dispatch_loop_addr fuel now b ip (encode ips ++ p)) by (done || apply Hs).
    destruct (handle_addr_ok now b0 done (encode ips ++ p) (with_recv b (encode ips ++ p)) ip)
      as (b1 & -> & Hs1); [by destruct Hs; split|apply Hip|].
    destruct (IH fuel b1 (done ++ [ip]) Hs1) as (b' & -> & Hs').
    { rewrite length_app in Hf. destruct ip; simpl in Hf; lia. }
    exists b'. split; [done|]. by rewrite <-app_assoc in Hs'.
Qed.

Definition dispatch_all (now : Z) (b : t) (chunks : list bytes) : option t :=
  feed_all (dispatch now) b chunks.

(** The ping service reassembles its requests: however the list of
    addresses is cut into reads, every address that has fully arrived is served
    exactly once and in order, from the cache when it has a recent result and
    otherwise by one request to the check routine; the incomplete rest is
    kept and nothing panics. *)
Theorem dispatch_serves now b chunks ips p :
  Forall wf_addr ips → partial p → mjoin chunks = encode ips ++ p →
  recv_buffer b = [] → routine_open b = true →
  ∃ b', dispatch_all now b chunks = Some b'
    ∧ requests b' = requests b ++ filter (λ ip, cached now b ip = None) ips
    ∧ send_buffer b' = send_buffer b ++ mjoin (result_bytes <$> omap (cached now b) ips)
    ∧ recv_buffer b' = p ∧ status b' = status b.
Proof.
  intros Hips Hp Heq Hb Ho. unfold dispatch_all.
  destruct (feed_all_ok addr_bytes wf_addr (dispatch now) (served now b) addr_complete)
    with (done := @nil IpAddr) (p0 := @nil Z) (s := b) (chunks := chunks) (xs := ips) (p := p)
    as (b' & -> & [H1 H2 H3 H4 H5 H6]).
  - intros done p0 b1 chunk xs p1 Hs Hxs Hp1 Hch. unfold dispatch.
    apply dispatch_loop_serves; [done|done| |].
    + destruct Hs as [<- ? ? ? ? ?]. rewrite Hch in *. by split.
    + simpl. rewrite (sv_recv _ _ _ _ _ Hs), Hch. lia.
  - split; simpl; rewrite ?app_nil_r; done.
  - by left.
  - done.
  - done.
  - done.
  - by exists b'.
Qed.

End PingBackend.
End PingBackend.

(** ** The measurement *)

Lemma check_one_bounds lo hi received avg outcome :
  0 <= lo <= hi → 0 <= received →
  (received = 0 ∧ avg = 0 ∨ 0 < received ∧ lo <= avg <= hi) →
  (∀ cost, outcome = Some cost → lo <= cost <= hi) →
  let '(received', avg') := check_one (received, avg) outcome in
  received' = received + (if outcome then 1 else 0)
  ∧ (received' = 0 ∧ avg' = 0 ∨ 0 < received' ∧ lo <= avg' <= hi).
Proof.
  intros Hlo Hr Havg Hout. unfold check_one. destruct outcome as [cost|]; [|split; [lia|done]].
  specialize (Hout cost eq_refl). split; [done|]. right. split; [lia|]. destruct Havg as [[-> ->]|[Hr' Ha]].
  - rewrite Z.mul_0_l, Z.add_0_l, Z.add_0_l, Z.div_1_r. done.
  - split; [apply Z.div_le_lower_bound|apply Z.div_le_upper_bound]; nia.
Qed.

(** The measurement is sound: of a hundred probes whose round trips are
    between [lo] and [hi] milliseconds (and fit 16 bits), the loss reported is
    the number of probes that failed, at most 100, and the average reported lies
    between [lo] and [hi], or is 0 when no probe came back. *)
Theorem do_check_sound now ip outcomes lo hi :
  length outcomes = 100%nat → 0 <= lo <= hi → hi <= u16_MAX →
  Forall (λ o, ∀ cost, o = Some cost → lo <= cost <= hi) outcomes →
  let pr := do_check now ip outcomes in
  pr_lost pr = Z.of_nat (length (filter (λ o, o = None) outcomes))
  ∧ pr_lost pr <= 100
  ∧ (if pr_lost pr =? 100 then pr_ping pr = 0 else lo <= pr_ping pr <= hi).
Proof.
  intros Hlen Hlo Hhi Hall. unfold do_check. rewrite take_ge by lia.
  assert (∀ os r a, Forall (λ o, ∀ cost, o = Some cost → lo <= cost <= hi) os → 0 <= r →
    (r = 0 ∧ a = 0 ∨ 0 < r ∧ lo <= a <= hi) →
    let '(r', a') := foldl check_one (r, a) os in
    r' = r + Z.of_nat (length os) - Z.of_nat (length (filter (λ o, o = None) os))
    ∧ (r' = 0 ∧ a' = 0 ∨ 0 < r' ∧ lo <= a' <= hi)) as H.
  { clear outcomes Hlen Hall. induction os as [|o os IH]; intros r a Hos Hr Ha; [simpl; split; [lia|done]|].
    apply Forall_cons in Hos as [Ho Hos]. cbn [foldl].
    pose proof (check_one_bounds lo hi r a o Hlo Hr Ha Ho) as Hc.
    destruct (check_one (r, a) o) as [r1 a1]. destruct Hc as [Hr1 Ha1].
    specialize (IH r1 a1 Hos ltac:(destruct o; lia) Ha1).
    destruct (foldl check_one (r1, a1) os) as [r2 a2]. destruct IH as [-> Ha2]. split; [|done].
    rewrite filter_cons. destruct o; [rewrite decide_False by done|rewrite decide_True by done];
      simpl length; lia. }
  specialize (H outcomes 0 0 Hall). destruct (foldl check_one (0, 0) outcomes) as [r a].
  destruct H as [Hr Ha]; [lia|by left|].
  pose proof (length_filter (λ o : option Z, o = None) outcomes) as Hf.
  rewrite Hlen in Hr, Hf. cbn [pr_lost pr_ping].
  rewrite (wrap_small 8) by lia. split; [lia|]. split; [lia|].
  destruct (Z.eqb_spec (100 - r) 100).
  - destruct Ha as [[_ ->]|]; [done|lia].
  - destruct Ha as [[? _]|[_ Ha]]; [lia|]. rewrite wrap_small by (unfold u16_MAX in Hhi; lia). done.
Qed.

Module PingBackendWitness.
  Import PingBackend.

Definition ip1 : IpAddr := V4 [9; 9; 9; 9].
Definition ip2 : IpAddr := V6 (replicate 16 3).

Lemma dispatch_serves_witness :
  ∃ b', dispatch_all 0 (new Witness.opts) [[1; 9; 9]; [9; 9; 4]; replicate 16 3 ++ [1]] = Some b'
    ∧ requests b' = [] ++ filter (λ ip, cached 0 (new Witness.opts) ip = None) [ip1; ip2]
    ∧ send_buffer b' = [] ++ mjoin (result_bytes <$> omap (cached 0 (new Witness.opts)) [ip1; ip2])
    ∧ recv_buffer b' = [1] ∧ status b' = Established.
Proof.
  apply (dispatch_serves 0 (new Witness.opts) [[1; 9; 9]; [9; 9; 4]; replicate 16 3 ++ [1]]
           [ip1; ip2] [1]).
  - repeat apply Forall_cons_2; [by split; [apply (bool_decide_unpack _); vm_compute|]..|by apply Forall_nil_2].
  - right. exists ip1. split; [by split; [apply (bool_decide_unpack _); vm_compute|]|].
    split; [by exists [9; 9; 9; 9]|done].
  - done.
  - done.
  - done.
Defined.

Lemma do_check_sound_witness :
  let pr := do_check 7 ip1 (Some 20 :: None :: replicate 98 (Some 30)) in
  pr_lost pr = 1 ∧ pr_lost pr <= 100 ∧ (if pr_lost pr =? 100 then pr_ping pr = 0 else 20 <= pr_ping pr <= 30).
Proof.
  apply (do_check_sound 7 ip1 (Some 20 :: None :: replicate 98 (Some 30)) 20 30).
  - done.
  - lia.
  - unfold u16_MAX. lia.
  - apply Forall_cons_2; [intros cost [= <-]; lia|].
    apply Forall_cons_2; [done|]. apply Forall_replicate. intros cost [= <-]. lia.
Defined.
End PingBackendWitness.
