(* ===== verification/ServerConn.v ===== *)
(** * Server connections ([src/src/server/connection.rs])

    One client of the server: the handshake, the wait for a DNS answer, and the
    relay to a TCP, UDP or ping backend.  The objects a handler is passed besides
    the connection - the system, the resolver and the statistics - are threaded
    as a [Ctx]; the clock is read once per event.  [None] is a panic or exhausted
    fuel. *)

From Stdlib Require Import ZArith Lia.
From stdpp Require Import base option list gmap.
From S2P Require Import Prelude Net Config Proto Status Env TlsConn TcpUtil.
From S2P Require Import Resolver Stats Backend UdpBackend PingBackend.

Open Scope Z_scope.
Open Scope rust_scope.

(** ** Constants of [src/src/server/mod.rs] *)

Definition CHANNEL_CNT : Z := 2.
Definition CHANNEL_PROXY : Z := 0.
Definition CHANNEL_BACKEND : Z := 1.
Definition LISTENER : Z := 1.
Definition RESOLVER : Z := 2.
Definition MIN_INDEX : Z := 3.
Definition MAX_INDEX : Z := usize_MAX / CHANNEL_CNT.

(** [httparse::Request::parse] with a hundred headers: [Some offset] is
    [Complete(offset)]; the head it found ends with an empty line. *)
Class HttpParse : Type := {
  http_parse : bytes → option nat;
  http_parse_ok b offset : http_parse b = Some offset → (2 <= offset <= length b)%nat
}.

(** [Box<dyn Backend>]. *)
Inductive AnyBackend {E : Env} : Type :=
  | BTcp (b : TcpBackend.t E)
  | BUdp (b : UdpBackend.t E)
  | BPing (b : PingBackend.t).
#[global] Arguments AnyBackend E : clear implicits.

Section Dyn.
Context {E : Env} (OPTIONS : Opts).

#[export] Instance any_status : StatusProvider (AnyBackend E) := {
  set_status b st := match b with
    | BTcp b => BTcp (set_status b st)
    | BUdp b => BUdp (set_status b st)
    | BPing b => BPing (set_status b st) end;
  get_status b := match b with
    | BTcp b => get_status b | BUdp b => get_status b | BPing b => get_status b end;
  close_conn b := match b with
    | BTcp b => let '(r, b) := close_conn b in (r, BTcp b)
    | BUdp b => let '(r, b) := close_conn b in (r, BUdp b)
    | BPing b => let '(r, b) := close_conn b in (r, BPing b) end;
  deregister b := match b with
    | BTcp b => let '(r, b) := deregister b in (r, BTcp b)
    | BUdp b => let '(r, b) := deregister b in (r, BUdp b)
    | BPing b => let '(r, b) := deregister b in (r, BPing b) end;
  finish_send b := match b with
    | BTcp b => let '(r, b) := finish_send b in (r, BTcp b)
    | BUdp b => let '(r, b) := finish_send b in (r, BUdp b)
    | BPing b => let '(r, b) := finish_send b in (r, BPing b) end
}.

#[export] Instance any_lawful : LawfulStatus (AnyBackend E).
Proof.
  split.
  - by intros [b|b|b] st.
  - by intros [b|b|b].
  - by intros [b|b|b].
  - by intros [b|b|b].
Qed.

#[export] Instance any_infallible : InfallibleStatus (AnyBackend E).
Proof. split; by intros [b|b|b]. Qed.

#[export] Instance any_backend : Backend (AnyBackend E) := {
  dispatch fuel now b data stats := match b with
    | BTcp b => '(b, s) ← dispatch fuel now b data stats; Some (BTcp b, s)
    | BUdp b => '(b, s) ← dispatch (Backend := UdpBackend.backend OPTIONS) fuel now b data stats;
                Some (BUdp b, s)
    | BPing b => '(b, s) ← dispatch fuel now b data stats; Some (BPing b, s) end;
  get_timeout b := match b with
    | BTcp b => get_timeout b
    | BUdp b => get_timeout (Backend := UdpBackend.backend OPTIONS) b
    | BPing b => get_timeout b end;
  b_writable b := match b with
    | BTcp b => b_writable b
    | BUdp b => b_writable (Backend := UdpBackend.backend OPTIONS) b
    | BPing b => b_writable b end;
  do_read_backend fuel now b c stats := match b with
    | BTcp b => '(b, c, s) ← do_read_backend fuel now b c stats; Some (BTcp b, c, s)
    | BUdp b => '(b, c, s) ← do_read_backend (Backend := UdpBackend.backend OPTIONS) fuel now b c stats;
                Some (BUdp b, c, s)
    | BPing b => '(b, c, s) ← do_read_backend fuel now b c stats; Some (BPing b, c, s) end;
  dst_ip b := match b with
    | BTcp b => dst_ip b
    | BUdp b => dst_ip (Backend := UdpBackend.backend OPTIONS) b
    | BPing b => dst_ip b end
}.
End Dyn.

(** ** The connection *)

Inductive Status : Type := HandShake | DnsWait | TCPForward | UDPForward | PingServing.

#[export] Instance Status_eq_dec : EqDecision Status.
Proof. solve_decision. Defined.

Inductive PollEvent : Type :=
  | Network (event : Event)
  | Dns (token : Z) (ip : option IpAddr).

Definition poll_event_token (e : PollEvent) : Z :=
  match e with Network event => ev_token event | Dns token _ => token end.

Module Connection.
Section Connection.
Context {E : Env} {H : HttpParse} (OPTIONS : Opts).

(** What a handler is passed: the system, the resolver ([None] on a DNS event)
    and the statistics. *)
Record Ctx : Type := mkCtx { os : OS; resolver : option DnsResolver; stats : Statistics }.

Definition with_stats (w : Ctx) (s : Statistics) : Ctx := mkCtx (os w) (resolver w) s.
Definition with_os (w : Ctx) (o : OS) : Ctx := mkCtx o (resolver w) (stats w).
Definition with_resolver (w : Ctx) (r : DnsResolver) : Ctx := mkCtx (os w) (Some r) (stats w).

Record t : Type := mk {
  index : Z;
  proxy : TlsConn E;
  status : Status;
  sock5_addr : Sock5Address;
  command : Z;
  last_active_time : Z;
  backend : option (AnyBackend E);
  target_addr : option SocketAddr;
  data : bytes;
  read_backend : bool;
  read_proxy : bool
}.

Definition new (now index : Z) (proxy : TlsConn E) : t :=
  mk index proxy HandShake NoAddress 0 now None None [] false false.

Definition with_proxy (c : t) (p : TlsConn E) : t :=
  mk (index c) p (status c) (sock5_addr c) (command c) (last_active_time c) (backend c)
    (target_addr c) (data c) (read_backend c) (read_proxy c).
Definition with_status (c : t) (s : Status) : t :=
  mk (index c) (proxy c) s (sock5_addr c) (command c) (last_active_time c) (backend c)
    (target_addr c) (data c) (read_backend c) (read_proxy c).
Definition with_request (c : t) (cmd : Z) (a : Sock5Address) : t :=
  mk (index c) (proxy c) (status c) a cmd (last_active_time c) (backend c)
    (target_addr c) (data c) (read_backend c) (read_proxy c).
Definition with_active (c : t) (now : Z) : t :=
  mk (index c) (proxy c) (status c) (sock5_addr c) (command c) now (backend c)
    (target_addr c) (data c) (read_backend c) (read_proxy c).
Definition with_backend (c : t) (b : option (AnyBackend E)) : t :=
  mk (index c) (proxy c) (status c) (sock5_addr c) (command c) (last_active_time c) b
    (target_addr c) (data c) (read_backend c) (read_proxy c).
Definition with_target (c : t) (a : option SocketAddr) : t :=
  mk (index c) (proxy c) (status c) (sock5_addr c) (command c) (last_active_time c) (backend c)
    a (data c) (read_backend c) (read_proxy c).
Definition with_data (c : t) (d : bytes) : t :=
  mk (index c) (proxy c) (status c) (sock5_addr c) (command c) (last_active_time c) (backend c)
    (target_addr c) d (read_backend c) (read_proxy c).
Definition with_read_backend (c : t) (b : bool) : t :=
  mk (index c) (proxy c) (status c) (sock5_addr c) (command c) (last_active_time c) (backend c)
    (target_addr c) (data c) b (read_proxy c).
Definition with_read_proxy (c : t) (b : bool) : t :=
  mk (index c) (proxy c) (status c) (sock5_addr c) (command c) (last_active_time c) (backend c)
    (target_addr c) (data c) (read_backend c) b.

#[local] Existing Instance any_backend.
Abbreviation dyn := (any_backend OPTIONS).

Definition shutdown_proxy (c : t) : t := with_proxy c (tls_shutdown (proxy c)).

Definition destroy (c : t) : t :=
  let c := with_proxy c (check_status (tls_shutdown (proxy c))) in
  match backend c with
  | Some b => with_backend c (Some (check_status (shutdown b).2))
  | None => c
  end.

Definition poll_ping (fuel : nat) (now : Z) (c : t) (s : Statistics) : option (t * Statistics) :=
  if command c =? PING then
    match backend c with
    | Some b =>
        '(b, p, s) ← do_read_backend (Backend := dyn) fuel now b (proxy c) s;
        Some (with_proxy (with_backend c (Some b)) p, s)
    | None => Some (c, s)
    end
  else Some (c, s).

Definition timeout (now : Z) (c : t) (recent_active_time : Z) : bool :=
  match backend c with
  | Some b => backend_timeout (BK := dyn) b (last_active_time c) recent_active_time
  | None => tcp_idle_timeout OPTIONS <? as_secs (since now (last_active_time c))
  end.

Definition proxy_token (tok : Z) : bool := tok mod CHANNEL_CNT =? CHANNEL_PROXY.

Definition target_token (c : t) : Z := wrap 64 (wrap 64 (index c * CHANNEL_CNT) + CHANNEL_BACKEND).

(** [try_handshake]: the connection, the rest of [buffer] and the context. *)
Definition try_handshake (now : Z) (c : t) (buffer : bytes) (w : Ctx)
  : option (t * bytes * Ctx) :=
  r ← TrojanRequest.parse OPTIONS buffer;
  let '(c, buffer) :=
    match r with
    | TrojanRequest.Request request =>
        (with_request c (TrojanRequest.command request) (TrojanRequest.address request),
         TrojanRequest.payload request)
    | _ => (with_request c CONNECT NoAddress, buffer)
    end in
  match sock5_addr c with
  | Domain domain port =>
      if negb (command c =? CONNECT) then Some (c, buffer, w)
      else
        r ← resolver w;
        match query_dns now r domain with
        | (Some ip, r) =>
            Some (with_target c (Some (mkSocketAddr ip port)), buffer, with_resolver w r)
        | (None, r) =>
            Some (c, buffer, with_resolver w (resolve r domain (Some (target_token c))))
        end
  | Socket address => Some (with_target c (Some address), buffer, w)
  | NoAddress => Some (with_target c (back_addr OPTIONS), buffer, w)
  | Endpoint _ => None
  end.

(** The "X-Forwarded-For: " header. *)
Definition forwarded_for : bytes :=
  [88; 45; 70; 111; 114; 119; 97; 114; 100; 101; 100; 45; 70; 111; 114; 58; 32].

(** What [dispatch] caches for the target: a complete HTTP head sent to the
    default target is told the client's address. *)
Definition cache_data (c : t) (buffer : bytes) : option bytes :=
  match source (proxy c), bool_decide (target_addr c = back_addr OPTIONS) with
  | Some client_ip, true =>
      match http_parse buffer with
      | Some offset =>
          head ← buffer.[upto (offset - 2)%nat];
          rest ← buffer.[from offset];
          Some (data c ++ head ++ forwarded_for ++ ip_to_string client_ip
                  ++ [13; 10; 13; 10] ++ rest)
      | None => Some (data c ++ buffer)
      end
  | _, _ => Some (data c ++ buffer)
  end.

Definition try_setup_tcp_target (now : Z) (c : t) (w : Ctx) : option (bool * t * Ctx) :=
  addr ← target_addr c;
  match tcp_connect (os w) addr with
  | (Some tcp_target, o) =>
      let w := with_os w o in
      let dst_ip := Some (sa_ip addr) in
      let w := with_stats w (add_tcp_rx (stats w) 0 dst_ip (source (proxy c))) in
      match TcpBackend.new OPTIONS tcp_target dst_ip (index c) (target_token c) with
      | Some b =>
          if decide (data c = []) then Some (true, with_backend c (Some (BTcp b)), w)
          else
            '(b, s) ← TcpBackend.dispatch b (data c) (stats w);
            Some (true, with_backend (with_data c []) (Some (BTcp b)), with_stats w s)
      | None => Some (true, shutdown_proxy c, w)
      end
  | (None, o) => Some (false, shutdown_proxy c, with_os w o)
  end.

Definition try_setup_udp_target (c : t) (w : Ctx) : option (bool * t * Ctx) :=
  addr ← empty_addr OPTIONS;
  match udp_bind (os w) addr with
  | (None, o) => Some (false, shutdown_proxy c, with_os w o)
  | (Some udp_target, o) =>
      let w := with_os w o in
      let w := with_stats w (add_udp_rx (stats w) 0 (sa_ip <$> udp_peer_addr udp_target)
                               (source (proxy c))) in
      match UdpBackend.new OPTIONS udp_target (source (proxy c)) (index c) (target_token c) with
      | Some b => Some (true, with_backend c (Some (BUdp b)), w)
      | None => Some (true, shutdown_proxy c, w)
      end
  end.

Definition try_setup_ping_target (c : t) : bool * t :=
  (true, with_backend c (Some (BPing (PingBackend.new OPTIONS)))).

(** One iteration of the loop of [dispatch]; the flag is [continue]. *)
Definition dispatch_body (fuel : nat) (now : Z) (c : t) (buffer : bytes) (w : Ctx)
  : option (bool * t * bytes * Ctx) :=
  match status c with
  | HandShake =>
      _ ← resolver w;
      '(c, buffer, w) ← try_handshake now c buffer w;
      Some (true, with_status c DnsWait, buffer, w)
  | DnsWait =>
      if command c =? CONNECT then
        cached ← cache_data c buffer;
        let c := with_data c cached in
        match target_addr c with
        | None => Some (false, c, buffer, w)
        | Some _ =>
            '(ok, c, w) ← try_setup_tcp_target now c w;
            if (ok : bool) then Some (true, with_status c TCPForward, [], w)
            else Some (false, c, buffer, w)
        end
      else if command c =? PING then
        let '(ok, c) := try_setup_ping_target c in
        if (ok : bool) then Some (true, with_status c PingServing, buffer, w)
        else Some (false, c, buffer, w)
      else if command c =? UDP_ASSOCIATE then
        '(ok, c, w) ← try_setup_udp_target c w;
        if (ok : bool) then Some (true, with_status c UDPForward, buffer, w)
        else Some (false, c, buffer, w)
      else None
  | TCPForward | UDPForward | PingServing =>
      match backend c with
      | Some b =>
          '(b, s) ← dispatch (Backend := dyn) fuel now b buffer (stats w);
          Some (false, with_backend c (Some b), buffer, with_stats w s)
      | None => Some (false, c, buffer, w)
      end
  end.

Fixpoint dispatch_loop (n : nat) (fuel : nat) (now : Z) (c : t) (buffer : bytes) (w : Ctx)
  : option (t * Ctx) :=
  match n with
  | O => None
  | S n =>
      '(continue, c, buffer, w) ← dispatch_body fuel now c buffer w;
      if (continue : bool) then dispatch_loop n fuel now c buffer w else Some (c, w)
  end.

(** The status only advances, so three iterations are enough
    ([dispatch_loop_more]). *)
Definition dispatch (fuel : nat) (now : Z) (c : t) (buffer : bytes) (w : Ctx)
  : option (t * Ctx) :=
  dispatch_loop 3 fuel now c buffer w.

(** On a DNS event there is no resolver to pass. *)
Definition without_resolver (w : Ctx) : Ctx := mkCtx (os w) None (stats w).

Definition try_resolve (fuel : nat) (now : Z) (c : t) (ip : option IpAddr) (w : Ctx)
  : option (t * Ctx) :=
  match status c, sock5_addr c with
  | DnsWait, Domain _ port =>
      match ip with
      | Some address =>
          '(c, w') ← dispatch fuel now (with_target c (Some (mkSocketAddr address port))) []
                       (without_resolver w);
          Some (c, mkCtx (os w') (resolver w) (stats w'))
      | None => Some (shutdown_proxy c, w)
      end
  | _, _ => Some (c, w)
  end.

Definition try_send_proxy (fuel : nat) (c : t) : option t :=
  p ← do_send fuel (proxy c); Some (with_proxy c p).

Definition try_read_proxy (fuel : nat) (now : Z) (c : t) (w : Ctx) : option (t * Ctx) :=
  '(buffer, p) ← do_read fuel (proxy c);
  let c := with_proxy c p in
  match buffer with
  | Some buffer => dispatch fuel now c buffer w
  | None => Some (c, w)
  end.

Definition read_from_backend (fuel : nat) (now : Z) (c : t) (b : AnyBackend E) (w : Ctx)
  : option (t * Ctx) :=
  '(b, p, s) ← do_read_backend (Backend := dyn) fuel now b (proxy c) (stats w);
  Some (with_proxy (with_backend c (Some b)) p, with_stats w s).

(** The two halves of [ready] on an event of the client's socket. *)
Definition proxy_readable (fuel : nat) (now : Z) (c : t) (w : Ctx) : option (t * Ctx) :=
  let writable := match backend c with
                  | Some b => b_writable (Backend := dyn) b
                  | None => true
                  end in
  if (writable : bool) then try_read_proxy fuel now c w
  else Some (with_read_proxy c true, w).

Definition proxy_writable (fuel : nat) (now : Z) (c : t) (w : Ctx) : option (t * Ctx) :=
  let c := with_proxy c (established (proxy c)) in
  c ← try_send_proxy fuel c;
  if writable (proxy c) && read_backend c then
    '(c, w) ← (match backend c with
               | Some b => read_from_backend fuel now c b w
               | None => Some (c, w)
               end);
    Some (with_read_backend c false, w)
  else Some (c, w).

(** The two halves of [ready] on an event of the backend's socket. *)
Definition backend_readable (fuel : nat) (now : Z) (c : t) (b : AnyBackend E) (w : Ctx)
  : option (t * Ctx) :=
  if writable (proxy c) then read_from_backend fuel now c b w
  else Some (with_read_backend c true, w).

Definition backend_writable (fuel : nat) (now : Z) (c : t) (w : Ctx) : option (t * Ctx) :=
  match backend c with
  | Some b =>
      '(b, s) ← Backend.dispatch (Backend := dyn) fuel now b [] (stats w);
      let c := with_backend c (Some b) in
      let w := with_stats w s in
      if b_writable (Backend := dyn) b && read_proxy c then
        '(c, w) ← try_read_proxy fuel now c w;
        Some (with_read_proxy c false, w)
      else Some (c, w)
  | None => Some (c, w)
  end.

Definition ready_network (fuel : nat) (now : Z) (c : t) (event : Event) (w : Ctx)
  : option (t * Ctx) :=
  if proxy_token (ev_token event) then
    '(c, w) ← (if is_readable event then proxy_readable fuel now c w else Some (c, w));
    if is_writable event then proxy_writable fuel now c w else Some (c, w)
  else
    match status c, backend c with
    | UDPForward, Some b | TCPForward, Some b =>
        '(c, w) ← (if is_readable event then backend_readable fuel now c b w else Some (c, w));
        if is_writable event then backend_writable fuel now c w else Some (c, w)
    | _, _ => Some (c, w)
    end.

(** The end of [ready]: each side learns that the other is down. *)
Definition settle (c : t) : t :=
  let c := match backend c with
           | Some b =>
               let b := if is_shutdown (proxy c) then peer_closed b else b in
               let p := if is_shutdown b then peer_closed (proxy c) else proxy c in
               with_proxy (with_backend c (Some b)) p
           | None => c
           end in
  let c := with_proxy c (check_status (proxy c)) in
  match backend c with
  | Some b => with_backend c (Some (check_status b))
  | None => c
  end.

Definition ready (fuel : nat) (now : Z) (c : t) (event : PollEvent) (w : Ctx)
  : option (t * Ctx) :=
  let c := with_active c now in
  '(c, w) ← (match event with
             | Network event => ready_network fuel now c event w
             | Dns _ ip => try_resolve fuel now c ip w
             end);
  Some (settle c, w).

Definition destroyed (c : t) : bool :=
  match backend c with
  | Some b => deregistered (proxy c) && deregistered b
  | None => deregistered (proxy c)
  end.
End Connection.
#[global] Arguments t E : clear implicits.
#[global] Arguments Ctx E : clear implicits.
End Connection.
