(* ===== verification/ServerRelay.v ===== *)
(** * The relay of a server connection

    What [ServerConn] guarantees of a connection that carries TCP: from the
    handshake on, through DNS waits, blocked sockets and any interleaving of
    events, the target is sent exactly the bytes the client sent after its
    request. *)

From Stdlib Require Import ZArith Lia.
From stdpp Require Import base option list gmap.
From S2P Require Import Prelude Net Config Proto Status Env TlsConn TcpUtil.
From S2P Require Import Resolver Stats Backend UdpBackend PingBackend ServerConn.

Open Scope Z_scope.
Open Scope rust_scope.

Module Relay.
Import Connection.

Section Relay.
Context {E : Env} {HP : HttpParse} `{!EnvOk E} (OPTIONS : Opts) (back : SocketAddr).
Context (Hback : back_addr OPTIONS = Some back).

Abbreviation t := (Connection.t E).

(** What the target has been or will be sent. *)
Definition target_stream (c : t) : bytes :=
  match backend c with
  | Some (BTcp b) => TcpBackend.relayed b
  | _ => data c
  end.

(** One of the two sides has been shut down. *)
Definition down (c : t) : Prop :=
  is_shutdown (proxy c) = true ∨ ∃ b, backend c = Some b ∧ is_shutdown b = true.

(** A connection that has accepted a CONNECT request. *)
Definition tcp_phase (c : t) : Prop :=
  command c = CONNECT ∧
  match status c, backend c with
  | DnsWait, None | TCPForward, None | TCPForward, Some (BTcp _) => True
  | _, _ => False
  end.

(** The connection delivers [stream], unless it is down; while it waits it has
    no target yet. *)
Definition delivers (stream : bytes) (c : t) : Prop :=
  down c ∨ (target_stream c = stream ∧ (status c = DnsWait → target_addr c = None)
            ∧ (status c = TCPForward → backend c ≠ None)).

(** What a step of the relay may change of the client's side. *)
Record same_client (c c' : t) : Prop := {
  sc_phase : tcp_phase c';
  sc_heard : heard (proxy c') = heard (proxy c);
  sc_down : down c → down c'
}.

Lemma same_client_trans a b c : same_client a b → same_client b c → same_client a c.
Proof. intros [H1 H2 H3] [H4 H5 H6]. split; [done|congruence|auto]. Qed.

Lemma heard_shutdown (p : TlsConn E) : heard (tls_shutdown p) = heard p.
Proof. apply (frame_shutdown heard). Qed.

Lemma down_tls_shutdown (p : TlsConn E) : is_shutdown (tls_shutdown p) = true.
Proof. apply is_shutdown_shutdown. Qed.

(** *** Caching *)

Lemma cache_data_total (c : t) buffer :
  ∃ d, cache_data OPTIONS c buffer = Some d
    ∧ (target_addr c ≠ Some back ∨ buffer = [] → d = data c ++ buffer).
Proof.
  unfold cache_data. rewrite Hback.
  destruct (source (proxy c)) as [ip|]; [|by eexists].
  case_bool_decide as Ht; [|by eexists].
  destruct (http_parse buffer) as [offset|] eqn:Hp; [|by eexists].
  apply http_parse_ok in Hp. rewrite slice_to_le, slice_from_le by lia.
  eexists. split; [reflexivity|]. intros [| ->]; [done|]. simpl in Hp. lia.
Qed.

(** *** Connecting *)

Lemma new_relayed conn a i tok b :
  TcpBackend.new OPTIONS conn a i tok = Some b → sent conn = [] → TcpBackend.relayed b = [].
Proof.
  unfold TcpBackend.new. pose proof (tcp_register_frame conn tok) as Hr.
  destruct (tcp_register conn tok) as [[] conn1]; simpl in *; [|done].
  pose proof (tcp_nodelay_frame conn1) as Hn.
  destruct (tcp_set_nodelay conn1) as [[] conn2]; simpl in *; [|done].
  intros [= <-] Hs. unfold TcpBackend.relayed. simpl. rewrite app_nil_r. congruence.
Qed.

Lemma try_setup_tcp_target_spec now (c : t) w addr :
  target_addr c = Some addr → backend c = None →
  ∃ ok c' w', try_setup_tcp_target OPTIONS now c w = Some (ok, c', w')
    ∧ command c' = command c ∧ status c' = status c
    ∧ target_addr c' = Some addr ∧ os w' = (tcp_connect (os w) addr).2
    ∧ heard (proxy c') = heard (proxy c)
    ∧ (is_shutdown (proxy c) = true → is_shutdown (proxy c') = true)
    ∧ ((backend c' = None ∧ is_shutdown (proxy c') = true)
       ∨ ok = true ∧ ∃ b, backend c' = Some (BTcp b)
           ∧ (TcpBackend.relayed b = data c ∨ is_shutdown b = true)).
Proof.
  intros Ha Hb. unfold try_setup_tcp_target. rewrite Ha. cbn [mbind option_bind].
  destruct (tcp_connect (os w) addr) as [[conn|] o] eqn:Hc; cbn [snd].
  2: { eexists _, _, _. split; [reflexivity|]. simpl.
       rewrite heard_shutdown, down_tls_shutdown. auto 12. }
  apply tcp_connect_fresh in Hc.
  destruct (TcpBackend.new OPTIONS conn (Some (sa_ip addr)) (index c) (target_token c)) as [b|] eqn:Hn.
  2: { eexists _, _, _. split; [reflexivity|]. simpl.
       rewrite heard_shutdown, down_tls_shutdown. auto 12. }
  pose proof (new_relayed _ _ _ _ _ Hn Hc) as Hr.
  case_decide as Hd.
  - eexists _, _, _. split; [reflexivity|]. simpl. split_and!; try done. right.
    split; [done|]. exists b. split; [done|]. left. congruence.
  - edestruct (TcpBackend.dispatch_spec b (data c)) as (b' & stats' & Hdisp & _ & Hrel).
    rewrite Hdisp. cbn [mbind option_bind].
    eexists _, _, _. split; [reflexivity|]. simpl. split_and!; try done. right.
    split; [done|]. exists b'. split; [done|].
    destruct Hrel as [[Hrel _]|Hrel]; [left; by rewrite Hrel, Hr|by right].
Qed.

(** *** One call of [dispatch] *)

Lemma dispatch_loop_S n fuel now (c : t) buffer w :
  dispatch_loop OPTIONS (S n) fuel now c buffer w =
    ('(continue, c, buffer, w) ← dispatch_body OPTIONS fuel now c buffer w;
     if (continue : bool) then dispatch_loop OPTIONS n fuel now c buffer w else Some (c, w)).
Proof. done. Qed.

Lemma dispatch_forward n now (c : t) buffer w :
  status c = TCPForward → tcp_phase c →
  ∃ c' w', (∀ fuel, dispatch_loop OPTIONS (S n) fuel now c buffer w = Some (c', w'))
    ∧ same_client c c' ∧ (down c' ∨ status c' = TCPForward
         ∧ target_stream c' = target_stream c ++ buffer ∧ backend c' ≠ None ∨ backend c = None)
    ∧ target_addr c' = target_addr c ∧ os w' = os w.
Proof.
  intros Hs Hph. pose proof Hph as [Hcmd Hm]. rewrite Hs in Hm.
  destruct (backend c) as [[b|b|b]|] eqn:Hb; try done.
  - edestruct (TcpBackend.dispatch_spec b buffer (stats w)) as (b' & stats' & Hd & _ & Hrel).
    exists (with_backend c (Some (BTcp b'))), (with_stats w stats'). split; [|split; [|split; [|done]]].
    + intros f. cbn [dispatch_loop]. unfold dispatch_body. rewrite Hs, Hb.
      cbn [Backend.dispatch any_backend TcpBackend.backend]. rewrite Hd. done.
    + split; [split; [done|by simpl; rewrite Hs]|done|].
      intros [Hdn|(b0 & Hb0 & Hdn)]; [by left|right]. exists (BTcp b'). split; [done|].
      rewrite Hb in Hb0. injection Hb0 as <-.
      destruct Hrel as [[_ Hst]|Hsh]; [|done].
      unfold is_shutdown in *. simpl in *. by rewrite Hst.
    + destruct Hrel as [[Hrel _]|Hsh]; [right; left|left; right].
      * split; [done|]. unfold target_stream. simpl. by rewrite Hb.
      * by exists (BTcp b').
  - exists c, w. split; [|split; [|split; [|done]]].
    + intros f. cbn [dispatch_loop]. unfold dispatch_body. by rewrite Hs, Hb.
    + by split.
    + by right; right.
Qed.

Lemma dispatch_wait now (c : t) buffer w d :
  status c = DnsWait → tcp_phase c → cache_data OPTIONS c buffer = Some d →
  ∃ c' w', (∀ fuel, dispatch_loop OPTIONS 2 fuel now c buffer w = Some (c', w'))
    ∧ same_client c c' ∧ delivers d c'
    ∧ target_addr c' = target_addr c
    ∧ match target_addr c with
      | Some addr => os w' = (tcp_connect (os w) addr).2
      | None => w' = w ∧ status c' = DnsWait
      end.
Proof.
  intros Hs Hph Hd. pose proof Hph as [Hcmd Hm]. rewrite Hs in Hm.
  destruct (backend c) as [[]|] eqn:Hb; try done.
  assert (down c → is_shutdown (proxy c) = true) as Hdown.
  { intros [?|(b & Hb' & _)]; [done|congruence]. }
  destruct (target_addr c) as [addr|] eqn:Ht.
  2: { exists (with_data c d), w. split; [|split; [|split; [|by rewrite <-Ht]]].
       - intros fuel. cbn [dispatch_loop]. unfold dispatch_body.
         rewrite Hs, Hcmd, Hd. cbn [mbind option_bind]. simpl. by rewrite Ht.
       - split; [split; [done|simpl; by rewrite Hs, Hb]|done|intros ?; left; by apply Hdown].
       - right. unfold target_stream. simpl. rewrite Hb, Hs. split; [done|]. by split. }
  destruct (try_setup_tcp_target_spec now (with_data c d) w addr)
    as (ok & c1 & w1 & Hset & Hc1 & Hs1 & Ht1 & Ho1 & Hh1 & Hdn1 & Hres); [done|done|].
  simpl in Hc1, Hs1, Hh1, Hdn1.
  assert (∀ fuel, dispatch_loop OPTIONS 2 fuel now c buffer w =
    if (ok : bool) then dispatch_loop OPTIONS 1 fuel now (with_status c1 TCPForward) [] w1
    else Some (c1, w1)) as Hstep.
  { intros fuel. rewrite dispatch_loop_S. unfold dispatch_body.
    rewrite Hs, Hcmd, Hd. cbn [mbind option_bind]. simpl. rewrite Ht, Hset.
    cbn [mbind option_bind]. by destruct ok. }
  destruct ok.
  - destruct (dispatch_forward 0 now (with_status c1 TCPForward) [] w1)
      as (c' & w' & Hf & [Hph' Hh' Hdn'] & Hres' & Ht' & Ho'); [done| |].
    { split; [simpl; congruence|]. simpl. by destruct Hres as [[-> _]|(_ & b & -> & _)]. }
    exists c', w'. split; [intros fuel; rewrite Hstep; apply Hf|]. split; [|split; [|split]].
    + split; [done|simpl in Hh'; congruence|]. intros Hdn. apply Hdn'. left. simpl.
      by apply Hdn1, Hdown.
    + unfold delivers. destruct Hres as [[_ Hsh]|(_ & b & Hb1 & Hrel)]; [left; apply Hdn'; by left|].
      destruct Hrel as [Hrel|Hsh].
      2: { left. apply Hdn'. right. by exists (BTcp b). }
      destruct Hres' as [?|[(Hs' & Hts & Hb')|Hb']]; [by left| |simpl in Hb'; congruence].
      right. rewrite Hs'. split; [|by split]. rewrite Hts, app_nil_r. unfold target_stream. simpl.
      by rewrite Hb1.
    + by rewrite Ht'.
    + by rewrite Ho'.
  - destruct Hres as [[Hb1 Hsh]|[? _]]; [|done]. exists c1, w1.
    split; [intros; apply Hstep|]. split; [|split; [by left; left|by split]].
    split; [split; [congruence|by rewrite Hs1, Hs, Hb1]|done|by left].
Qed.

Lemma dispatch_loop_S_wait n fuel now (c : t) buffer w r :
  dispatch_loop OPTIONS n fuel now c buffer w = Some r →
  dispatch_loop OPTIONS (S n) fuel now c buffer w = Some r.
Proof.
  revert c buffer w. induction n as [|n IH]; intros c buffer w; [done|].
  rewrite !dispatch_loop_S. intros Hr.
  destruct (dispatch_body OPTIONS fuel now c buffer w) as [[[[[] c1] b1] w1]|]; [|done|done].
  cbn [mbind option_bind] in *. by apply IH.
Qed.

(** The relay step: what is dispatched is appended to what the target gets. *)
Lemma dispatch_delivers now (c : t) buffer w stream :
  tcp_phase c → delivers stream c →
  ∃ c' w', (∀ fuel, Connection.dispatch OPTIONS fuel now c buffer w = Some (c', w'))
    ∧ same_client c c' ∧ delivers (stream ++ buffer) c'.
Proof.
  intros Hph Hdel. unfold Connection.dispatch. pose proof Hph as [_ Hm].
  destruct (status c) eqn:Hs; try done.
  - destruct (cache_data_total c buffer) as (d & Hd & Hdeq).
    destruct (dispatch_wait now c buffer w d) as (c' & w' & Hrun & Hsc & Hdel' & _); [done..|].
    exists c', w'. split; [intros; by apply dispatch_loop_S_wait|]. split; [done|].
    destruct Hdel as [Hdn|(Hts & Ht & _)]; [left; by apply Hsc|].
    rewrite Ht in Hdeq by done. rewrite Hdeq in Hdel' by (by left).
    unfold target_stream in Hts. destruct (backend c); [done|]. by subst.
  - destruct (dispatch_forward 2 now c buffer w) as (c' & w' & Hrun & Hsc & Hres & _); [done..|].
    exists c', w'. split; [exact Hrun|]. split; [done|].
    destruct Hdel as [Hdn|(Hts & _ & Hb)]; [left; by apply Hsc|].
    destruct Hres as [?|[(Hs' & Hts' & Hb')|Hb']]; [by left| |by specialize (Hb Hs)].
    right. rewrite Hs', Hts', Hts. done.
Qed.

(** The answer of the resolver. *)
Lemma try_resolve_delivers now (c : t) ip w stream :
  tcp_phase c → delivers stream c →
  ∃ c' w', (∀ fuel, try_resolve OPTIONS fuel now c ip w = Some (c', w'))
    ∧ same_client c c' ∧ delivers stream c'.
Proof.
  intros Hph Hdel. unfold try_resolve.
  destruct (status c) eqn:Hs; try (by exists c, w; split_and!; [|by split|]).
  destruct (sock5_addr c) as [| |domain port|]; try (by exists c, w; split_and!; [|by split|]).
  destruct ip as [address|].
  2: { exists (shutdown_proxy c), w. split; [done|]. split; [|by left; left; apply down_tls_shutdown].
       split; [exact Hph|apply heard_shutdown|]. intros _. left. apply down_tls_shutdown. }
  set (c0 := with_target c (Some (mkSocketAddr address port))).
  destruct (cache_data_total c0 []) as (d & Hd & Hdeq).
  destruct (dispatch_wait now c0 [] (without_resolver w) d)
    as (c' & w' & Hrun & [Hph' Hh' Hdn'] & Hdel' & _); [done|exact Hph|done|].
  exists c', (mkCtx (os w') (resolver w) (stats w')). split; [|split].
  - intros fuel. unfold Connection.dispatch. fold c0.
    by rewrite (dispatch_loop_S_wait _ _ _ _ _ _ _ (Hrun fuel)).
  - split; [done|exact Hh'|exact Hdn'].
  - destruct Hdel as [Hdn|(Hts & _ & _)]; [left; by apply Hdn'|].
    rewrite Hdeq, app_nil_r in Hdel' by (by right).
    destruct Hph as [_ Hm]. unfold target_stream in Hts.
    rewrite Hs in Hm. destruct (backend c); [done|]. by subst.
Qed.

(** ** Events *)

(** The target has been or will be sent [base], then everything the client has
    sent after its first [n] bytes. *)
Definition relays (n : nat) (base : bytes) (c : t) : Prop :=
  tcp_phase c ∧ (n <= length (heard (proxy c)))%nat
  ∧ delivers (base ++ drop n (heard (proxy c))) c.

Definition backend_calm (b b' : option (AnyBackend E)) : Prop :=
  match b, b' with
  | None, None => True
  | Some (BTcp b), Some (BTcp b') =>
      (TcpBackend.relayed b' = TcpBackend.relayed b
       ∧ (is_shutdown b = true → is_shutdown b' = true))
      ∨ is_shutdown b' = true
  | _, _ => False
  end.

(** Steps that move no byte from the client to the target. *)
Record calm (c c' : t) : Prop := {
  calm_command : command c' = command c;
  calm_status : status c' = status c;
  calm_target : target_addr c' = target_addr c;
  calm_data : data c' = data c;
  calm_heard : heard (proxy c') = heard (proxy c);
  calm_proxy : is_shutdown (proxy c) = true → is_shutdown (proxy c') = true;
  calm_backend : tcp_phase c → backend_calm (backend c) (backend c')
}.

Lemma backend_calm_refl (c : t) : tcp_phase c → backend_calm (backend c) (backend c).
Proof.
  intros [_ Hm]. destruct (status c), (backend c) as [[b|b|b]|]; try done; simpl; auto.
Qed.

Lemma calm_phase c c' : calm c c' → tcp_phase c → tcp_phase c'.
Proof.
  intros [H1 H2 _ _ _ _ H7] Hph. specialize (H7 Hph). destruct Hph as [Hc Hm].
  split; [congruence|]. rewrite H2. destruct (status c); try done;
    destruct (backend c) as [[]|], (backend c') as [[]|]; done.
Qed.

Lemma calm_down c c' : calm c c' → tcp_phase c → down c → down c'.
Proof.
  intros Hcalm Hph [Hd|(b & Hb & Hd)]; [left; by apply Hcalm|right].
  pose proof (calm_backend _ _ Hcalm Hph) as Hbc. rewrite Hb in Hbc.
  destruct b as [b|b|b]; try done. destruct (backend c') as [[b'|b'|b']|]; try done.
  exists (BTcp b'). split; [done|]. change (is_shutdown b' = true).
  change (is_shutdown b = true) in Hd. destruct Hbc as [[_ H]|H]; auto.
Qed.

Lemma calm_delivers stream c c' :
  calm c c' → tcp_phase c → delivers stream c → delivers stream c'.
Proof.
  intros Hcalm Hph [Hd|(Hts & Ht & Hb)]; [left; by eapply calm_down|].
  pose proof (calm_backend _ _ Hcalm Hph) as Hbc. unfold delivers, target_stream in *.
  rewrite (calm_status _ _ Hcalm), (calm_target _ _ Hcalm).
  destruct (backend c) as [[b|b|b]|], (backend c') as [[b'|b'|b']|] eqn:Hb'; try done.
  - destruct Hbc as [[Hr _]|Hsh]; [right|left; right; by exists (BTcp b')].
    rewrite Hr. done.
  - right. by rewrite (calm_data _ _ Hcalm).
Qed.

Lemma calm_relays n base c c' : calm c c' → relays n base c → relays n base c'.
Proof.
  intros Hcalm (Hph & Hn & Hd). unfold relays. rewrite (calm_heard _ _ Hcalm).
  split; [by eapply calm_phase|]. split; [done|]. by eapply calm_delivers.
Qed.

Lemma quiet_calm c p : quiet (proxy c) p → calm c (with_proxy c p).
Proof.
  intros [_ Hh Hid]. split; try done; [exact (same_identity_down _ _ Hid)|apply backend_calm_refl].
Qed.

Lemma with_active_calm c now : calm c (with_active c now).
Proof. split; try done. apply backend_calm_refl. Qed.

Lemma established_calm c : calm c (with_proxy c (established (proxy c))).
Proof.
  split; try done; simpl.
  - apply (frame_established heard).
  - apply is_shutdown_established.
  - apply backend_calm_refl.
Qed.

Lemma try_read_proxy_relays n base now c w :
  relays n base c →
  terminates (λ fuel, try_read_proxy OPTIONS fuel now c w) (λ r, relays n base r.1).
Proof.
  intros (Hph & Hn & Hd). unfold try_read_proxy.
  eapply terminates_bind; [apply do_read_terminates|].
  intros [buffer p] [[_ Hh Hid] _]. cbn [fst snd] in Hh.
  set (c1 := with_proxy c p).
  assert (delivers (base ++ drop n (heard (proxy c))) c1) as Hd1.
  { destruct Hd as [[Hdn|Hdn]|Hd]; [left; left; by eapply same_identity_down|by left; right|by right]. }
  destruct buffer as [buffer|]; cbn [default] in Hh.
  - destruct (dispatch_delivers now c1 buffer w _ Hph Hd1) as (c' & w' & Hrun & [Hp' Hh' _] & Hd').
    exists 0%nat, (c', w'). split; [|intros; apply Hrun]. split; [done|].
    cbn [fst]. rewrite Hh'. simpl. rewrite Hh. split; [rewrite length_app; lia|].
    by rewrite drop_app_le, app_assoc by done.
  - apply terminates_ret. split; [exact Hph|]. simpl. rewrite Hh, app_nil_r. done.
Qed.

Lemma tcp_down_status (b b' : TcpBackend.t E) :
  TcpBackend.status b' = TcpBackend.status b ∨ is_shutdown b' = true →
  is_shutdown b = true → is_shutdown b' = true.
Proof. intros [H|H]; [|done]. unfold is_shutdown. simpl. by rewrite H. Qed.

Lemma read_from_backend_relays n base now c b w :
  backend c = Some b → relays n base c →
  terminates (λ fuel, read_from_backend OPTIONS fuel now c b w) (λ r, relays n base r.1).
Proof.
  intros Hb Hr. unfold read_from_backend. pose proof Hr as ([_ Hm] & _ & _).
  destruct b as [b|b|b]; [|by destruct (status c); rewrite ?Hb in Hm..].
  cbn [do_read_backend any_backend TcpBackend.backend].
  eapply terminates_bind.
  { eapply terminates_bind; [apply (TcpBackend.do_read_spec b (proxy c) (stats w))|].
    intros [[b' p] s] Hspec.
    apply (terminates_ret _ (λ '(b0, p, _), ∃ b', b0 = BTcp b'
      ∧ TcpBackend.relayed b' = TcpBackend.relayed b ∧ same_identity (proxy c) p
      ∧ heard p = heard (proxy c)
      ∧ (TcpBackend.status b' = TcpBackend.status b ∨ is_shutdown b' = true))).
    exists b'. split; [done|]. destruct Hspec as (H1 & H2 & H3 & H4 & _). done. }
  intros [[b0 p] s] (b' & -> & Hrel & Hid & Hh & Hst). apply terminates_ret.
  eapply calm_relays; [|exact Hr]. split; try done.
  - exact (same_identity_down _ _ Hid).
  - intros _. simpl. rewrite Hb. left. split; [done|by apply tcp_down_status].
Qed.

Lemma proxy_readable_relays n base now c w :
  relays n base c →
  terminates (λ fuel, proxy_readable OPTIONS fuel now c w) (λ r, relays n base r.1).
Proof.
  intros Hr. unfold proxy_readable.
  destruct (match backend c with Some b => b_writable b | None => true end).
  - by apply try_read_proxy_relays.
  - apply terminates_ret. eapply calm_relays; [|exact Hr]. split; try done. apply backend_calm_refl.
Qed.

Lemma with_read_backend_relays n base c r : relays n base c → relays n base (with_read_backend c r).
Proof. apply calm_relays. split; try done. apply backend_calm_refl. Qed.

Lemma with_read_proxy_relays n base c r : relays n base c → relays n base (with_read_proxy c r).
Proof. apply calm_relays. split; try done. apply backend_calm_refl. Qed.

Lemma proxy_writable_relays n base now c w :
  relays n base c →
  terminates (λ fuel, proxy_writable OPTIONS fuel now c w) (λ r, relays n base r.1).
Proof.
  intros Hr. unfold proxy_writable, try_send_proxy. cbn zeta.
  assert (relays n base (with_proxy c (established (proxy c)))) as Hr1
    by (eapply calm_relays; [apply established_calm|done]).
  eapply (terminates_bind _ _ (λ c1, relays n base c1)).
  { eapply terminates_bind; [apply do_send_terminates|]. intros p Hq. apply terminates_ret.
    eapply calm_relays; [by apply quiet_calm|done]. }
  intros c1 Hr2. destruct (writable (proxy c1) && read_backend c1); [|by apply terminates_ret].
  eapply (terminates_bind _ _ (λ r, relays n base r.1)).
  { destruct (backend c1) as [b|] eqn:Hb; [by apply read_from_backend_relays|by apply terminates_ret]. }
  intros [c2 w2] Hr3. apply terminates_ret. by apply with_read_backend_relays.
Qed.

Lemma backend_readable_relays n base now c b w :
  backend c = Some b → relays n base c →
  terminates (λ fuel, backend_readable OPTIONS fuel now c b w) (λ r, relays n base r.1).
Proof.
  intros Hb Hr. unfold backend_readable. destruct (writable (proxy c)).
  - by apply read_from_backend_relays.
  - apply terminates_ret. by apply with_read_backend_relays.
Qed.

Lemma backend_writable_relays n base now c w :
  relays n base c →
  terminates (λ fuel, backend_writable OPTIONS fuel now c w) (λ r, relays n base r.1).
Proof.
  intros Hr. unfold backend_writable.
  destruct (backend c) as [b|] eqn:Hb; [|by apply terminates_ret].
  pose proof Hr as ([_ Hm] & _ & _).
  destruct b as [b|b|b]; [|by destruct (status c); rewrite ?Hb in Hm..].
  cbn [Backend.dispatch any_backend TcpBackend.backend].
  edestruct (TcpBackend.dispatch_spec b [] (stats w)) as (b' & s & -> & _ & Hrel).
  cbn [mbind option_bind].
  assert (relays n base (with_backend c (Some (BTcp b')))) as Hr1.
  { eapply calm_relays; [|exact Hr]. split; try done. intros _. simpl. rewrite Hb.
    destruct Hrel as [[Hrel Hst]|Hsh]; [left|by right].
    rewrite app_nil_r in Hrel. split; [done|]. apply tcp_down_status. by left. }
  destruct (_ && _).
  2: { by apply terminates_ret. }
  eapply terminates_bind; [by apply try_read_proxy_relays|].
  intros [c2 w2] Hr2. apply terminates_ret. by apply with_read_proxy_relays.
Qed.

Lemma ready_network_relays n base now c event w :
  relays n base c →
  terminates (λ fuel, ready_network OPTIONS fuel now c event w) (λ r, relays n base r.1).
Proof.
  intros Hr. unfold ready_network. destruct (proxy_token (ev_token event)).
  - eapply (terminates_bind _ _ (λ r, relays n base r.1)).
    { destruct (is_readable event); [by apply proxy_readable_relays|by apply terminates_ret]. }
    intros [c1 w1] Hr1. destruct (is_writable event);
      [by apply proxy_writable_relays|by apply terminates_ret].
  - destruct (status c), (backend c) as [b|] eqn:Hb; try (by apply terminates_ret);
      (eapply (terminates_bind _ _ (λ r, relays n base r.1));
       [destruct (is_readable event); [by apply backend_readable_relays|by apply terminates_ret]|]);
      intros [c1 w1] Hr1; destruct (is_writable event);
      [by apply backend_writable_relays|by apply terminates_ret
      |by apply backend_writable_relays|by apply terminates_ret].
Qed.

Lemma settle_calm c : calm c (settle c).
Proof.
  unfold settle. destruct (backend c) as [b|] eqn:Hb.
  - assert (∀ (p : TlsConn E) (x : bool), let p' := check_status (if x then peer_closed p else p) in
      heard p' = heard p ∧ (is_shutdown p = true → is_shutdown p' = true)) as Hp.
    { intros p x. cbn zeta. split.
      - rewrite (frame_check_status heard). destruct x; [apply (frame_peer_closed heard)|done].
      - intros Hs. apply is_shutdown_check_status. destruct x; [by apply is_shutdown_peer_closed|done]. }
    destruct (Hp (proxy c) (is_shutdown (if is_shutdown (proxy c) then peer_closed b else b)))
      as [Hh Hs]. split; try done.
    intros [_ Hm]. rewrite Hb in Hm |- *. destruct b as [b|b|b]; [|by destruct (status c)..].
    assert (∀ x : bool, (if x then peer_closed (BTcp b) else BTcp b)
      = BTcp (if x then peer_closed b else b)) as Hx.
    { intros []; [|done]. unfold peer_closed. simpl. by destruct (TcpBackend.status b). }
    cbn [backend with_backend with_proxy]. rewrite Hx.
    set (b1 := if is_shutdown (proxy c) then peer_closed b else b).
    assert (check_status (BTcp b1) = BTcp (check_status b1)) as ->.
    { unfold check_status. cbn [check_status_loop]. unfold check_status_body, shutdown. simpl.
      destruct (TcpBackend.status b1) eqn:Hst; simpl; rewrite ?Hst; simpl; try done.
      by case_bool_decide; simpl; rewrite ?Hst; simpl. }
    left. split.
    + rewrite (frame_check_status TcpBackend.relayed). subst b1.
      destruct (is_shutdown (proxy c)); [apply (frame_peer_closed TcpBackend.relayed)|done].
    + intros Hsh. apply is_shutdown_check_status. subst b1.
      destruct (is_shutdown (proxy c)); [by apply is_shutdown_peer_closed|done].
  - cbn [backend with_proxy]. rewrite Hb. split; try done; simpl.
    + apply (frame_check_status heard).
    + apply is_shutdown_check_status.
    + by rewrite Hb.
Qed.

(** C1: the relay: once a connection carries TCP, no event - data, end of file
    or errors from either side, a DNS answer, a socket that blocks or becomes
    writable, in any order - makes its handler panic or loop, and unless the
    connection goes down, what the target has been or will be sent stays
    exactly [base] followed by everything the client has sent since: nothing
    lost, repeated or reordered. *)
Theorem ready_relays n base now c event w :
  relays n base c →
  terminates (λ fuel, ready OPTIONS fuel now c event w) (λ r, relays n base r.1).
Proof.
  intros Hr. unfold ready. cbn zeta.
  assert (relays n base (with_active c now)) as Hr1
    by (eapply calm_relays; [apply with_active_calm|done]).
  eapply (terminates_bind _ _ (λ r, relays n base r.1)).
  - destruct event as [event|tok ip]; [by apply ready_network_relays|].
    destruct Hr1 as (Hph & Hn & Hd).
    destruct (try_resolve_delivers now (with_active c now) ip w _ Hph Hd)
      as (c' & w' & Hrun & [Hp' Hh' _] & Hd').
    exists 0%nat, (c', w'). split; [|intros; apply Hrun].
    split; [done|]. cbn [fst]. by rewrite Hh'.
  - intros [c1 w1] Hr2. apply terminates_ret. eapply calm_relays; [apply settle_calm|done].
Qed.

(** ** The first request *)

(** A connection as [Connection::new] leaves it, which has just read [buffer]. *)
Record fresh (c : t) (buffer : bytes) : Prop := {
  fr_status : status c = HandShake;
  fr_backend : backend c = None;
  fr_target : target_addr c = None;
  fr_data : data c = [];
  fr_heard : heard (proxy c) = buffer
}.

Lemma dispatch_handshake now (c : t) buffer w c1 rest w1 d :
  fresh c buffer → is_Some (resolver w) →
  try_handshake OPTIONS now c buffer w = Some (c1, rest, w1) →
  command c1 = CONNECT → backend c1 = None → data c1 = [] → proxy c1 = proxy c →
  cache_data OPTIONS (with_status c1 DnsWait) rest = Some d →
  ∃ c' w', (∀ fuel, Connection.dispatch OPTIONS fuel now c buffer w = Some (c', w'))
    ∧ relays (length buffer) d c'
    ∧ target_addr c' = target_addr c1
    ∧ match target_addr c1 with
      | Some addr => os w' = (tcp_connect (os w1) addr).2
      | None => w' = w1 ∧ status c' = DnsWait
      end.
Proof.
  intros Hf [r Hr] Hh Hcmd Hb Hdat Hpr Hd.
  destruct (dispatch_wait now (with_status c1 DnsWait) rest w1 d)
    as (c' & w' & Hrun & [Hph Hhd _] & Hdel & Ht & Hw);
    [done|by split; [|simpl; rewrite Hb]|done|].
  exists c', w'. split; [|split_and!; [|exact Ht|exact Hw]].
  - intros fuel. unfold Connection.dispatch. rewrite dispatch_loop_S. unfold dispatch_body.
    rewrite (fr_status _ _ Hf), Hr. cbn [mbind option_bind]. rewrite Hh. cbn [mbind option_bind].
    apply Hrun.
  - simpl in Hhd. rewrite Hpr, (fr_heard _ _ Hf) in Hhd. unfold relays.
    rewrite Hhd, drop_all, app_nil_r. by split_and!.
Qed.

(** C5: an authenticated CONNECT to an address: the first dispatch of the
    request never panics, connects to that very address, and relays from then
    on: the payload that came with the request, then everything that follows. *)
Theorem connect_relays now (c : t) a p w :
  OptsOk OPTIONS → wf_sa a → a ≠ back → is_Some (resolver w) →
  fresh c (TrojanRequest.generate OPTIONS CONNECT a ++ p) →
  ∃ c' w', (∀ fuel, Connection.dispatch OPTIONS fuel now c
              (TrojanRequest.generate OPTIONS CONNECT a ++ p) w = Some (c', w'))
    ∧ os w' = (tcp_connect (os w) a).2
    ∧ relays (length (TrojanRequest.generate OPTIONS CONNECT a ++ p)) p c'.
Proof.
  intros Ho Ha Hne Hr Hf.
  set (c1 := with_target (with_request c CONNECT (Socket a)) (Some a)).
  destruct (cache_data_total (with_status c1 DnsWait) p) as (d & Hd & Heq).
  destruct (dispatch_handshake now c _ w c1 p w d Hf Hr) as (c' & w' & Hrun & Hrel & _ & Hos).
  - unfold try_handshake. rewrite RequestProps.parse_generate by (done || by left). done.
  - done.
  - simpl. apply Hf.
  - simpl. apply Hf.
  - done.
  - done.
  - exists c', w'. split; [done|]. split; [exact Hos|].
    rewrite Heq in Hrel by (left; simpl; congruence). simpl in Hrel.
    by rewrite (fr_data _ _ Hf) in Hrel.
Qed.

(** The bytes of an unauthenticated client as the default target sees them. *)
Definition forwarded (client : option IpAddr) (buffer : bytes) : bytes :=
  match client, http_parse buffer with
  | Some ip, Some offset =>
      take (offset - 2) buffer ++ forwarded_for ++ ip_to_string ip ++ [13; 10; 13; 10]
        ++ drop offset buffer
  | _, _ => buffer
  end.

(** C4: camouflage: a client whose first bytes are not the password digest
    never panics the server and is connected to the default target, and to no
    other; the target sees what the client sent, byte for byte, but for the
    X-Forwarded-For header added to a complete HTTP head. *)
Theorem unauthenticated_is_forwarded now (c : t) buffer w :
  OptsOk OPTIONS → take (pass_len OPTIONS) buffer ≠ sha_pass OPTIONS →
  is_Some (resolver w) → fresh c buffer →
  ∃ c' w', (∀ fuel, Connection.dispatch OPTIONS fuel now c buffer w = Some (c', w'))
    ∧ target_addr c' = Some back
    ∧ os w' = (tcp_connect (os w) back).2
    ∧ relays (length buffer) (forwarded (source (proxy c)) buffer) c'.
Proof.
  intros Ho Hpass Hr Hf.
  set (c1 := with_target (with_request c CONNECT NoAddress) (back_addr OPTIONS)).
  destruct (dispatch_handshake now c buffer w c1 buffer w (forwarded (source (proxy c)) buffer) Hf Hr)
    as (c' & w' & Hrun & Hrel & Ht & Hos).
  - unfold try_handshake.
    by destruct (RequestProps.parse_unauthenticated OPTIONS buffer Ho Hpass) as [-> | ->].
  - done.
  - simpl. apply Hf.
  - simpl. apply Hf.
  - done.
  - unfold cache_data, forwarded. simpl. rewrite bool_decide_eq_true_2, (fr_data _ _ Hf) by done.
    destruct (source (proxy c)) as [ip|]; [|done].
    destruct (http_parse buffer) as [offset|] eqn:Hp; [|done].
    apply http_parse_ok in Hp. by rewrite slice_to_le, slice_from_le by lia.
  - exists c', w'. simpl in Ht, Hos. rewrite Hback in Ht, Hos. done.
Qed.

(** A CONNECT to a name that is not cached: the request never panics, one
    lookup of that name is started under this connection's token, nothing is
    connected yet, and the connection relays from then on, starting with the
    payload ([ready_relays] covers the answer's arrival). *)
Theorem domain_waits now (c : t) buffer w r domain port p off :
  TrojanRequest.parse OPTIONS buffer
    = Some (TrojanRequest.Request (TrojanRequest.mk CONNECT (Domain domain port) p off)) →
  resolver w = Some r → (query_dns now r domain).1 = None → fresh c buffer →
  ∃ c', (∀ fuel, Connection.dispatch OPTIONS fuel now c buffer w =
           Some (c', with_resolver w (resolve (query_dns now r domain).2 domain
                                        (Some (target_token c)))))
    ∧ status c' = DnsWait ∧ relays (length buffer) p c'.
Proof.
  intros Hparse Hr Hq Hf. set (c1 := with_request c CONNECT (Domain domain port)).
  set (w1 := with_resolver w (resolve (query_dns now r domain).2 domain (Some (target_token c)))).
  destruct (cache_data_total (with_status c1 DnsWait) p) as (d & Hd & Heq).
  destruct (dispatch_handshake now c buffer w c1 p w1 d Hf) as (c' & w' & Hrun & Hrel & _ & Hos).
  - by rewrite Hr.
  - unfold try_handshake. rewrite Hparse. cbn [mbind option_bind]. simpl. rewrite Hr.
    cbn [mbind option_bind]. by destruct (query_dns now r domain) as [[ip|] r'].
  - done.
  - simpl. apply Hf.
  - simpl. apply Hf.
  - done.
  - done.
  - simpl in Hos. rewrite (fr_target _ _ Hf) in Hos. destruct Hos as [-> Hst].
    exists c'. split; [done|]. split; [done|].
    rewrite Heq in Hrel by (left; simpl; rewrite (fr_target _ _ Hf); done).
    simpl in Hrel. by rewrite (fr_data _ _ Hf) in Hrel.
Qed.

End Relay.
End Relay.

Module RelayWitness.
  Import Connection Relay.
#[local] Existing Instance Sim.env.
#[local] Existing Instance Sim.env_ok.

(** A parser that knows one head: "G\r\n\r\n". *)
#[local] Program Instance one_head : HttpParse := {
  http_parse b := if bool_decide (take 5 b = [71; 13; 10; 13; 10]) then Some 5%nat else None
}.
Next Obligation.
  intros b offset. simpl. case_bool_decide as Hb; [|done]. intros [= <-].
  apply (f_equal length) in Hb. rewrite length_take in Hb. cbn [length] in Hb. lia.
Qed.

Definition back : SocketAddr := mkSocketAddr (V4 [127; 0; 0; 1]) 80.
Lemma back_ok : back_addr Witness.opts = Some back.
Proof. done. Qed.

(** A system with one peer, whose window takes two bytes and then blocks twice. *)
Definition world : Sim.system :=
  Sim.mkSystem [Sim.mkStream [] [IoOk 2%nat; IoErr WouldBlock; IoErr WouldBlock] [] []] [].
Definition ctx : Ctx Sim.env :=
  mkCtx (E := Sim.env) world (Some (dns_resolver_new RESOLVER None)) ∅.

Definition client (heard : bytes) : Connection.t Sim.env :=
  Connection.new 0 3 (tls_conn_new (E := Sim.env) 3 6
    (Sim.mkSession [] [] [] [] 65536 heard) Sim.idle_stream).

Lemma client_fresh b : fresh (client b) b.
Proof. done. Qed.

Lemma connect_relays_witness :
  ∃ c' w', (∀ fuel, Connection.dispatch Witness.opts fuel 0
              (client (TrojanRequest.generate Witness.opts CONNECT Witness.a4 ++ [7; 8; 9]))
              (TrojanRequest.generate Witness.opts CONNECT Witness.a4 ++ [7; 8; 9]) ctx = Some (c', w'))
    ∧ os w' = (tcp_connect world Witness.a4).2
    ∧ relays (length (TrojanRequest.generate Witness.opts CONNECT Witness.a4 ++ [7; 8; 9])) [7; 8; 9] c'.
Proof.
  refine (connect_relays Witness.opts back back_ok 0 (client _) Witness.a4 [7; 8; 9] ctx
    Witness.opts_ok Witness.a4_ok _ _ (client_fresh _)); [done|by eexists].
Defined.

(** The relay after the handshake: two bytes sent, one in the send buffer. *)
Example connect_example :
  (λ '(c, _), match backend c with
              | Some (BTcp b) => (Sim.st_sent (TcpBackend.conn b), TcpBackend.send_buffer b)
              | _ => ([], [])
              end) <$>
    Connection.dispatch Witness.opts 0 0
      (client (TrojanRequest.generate Witness.opts CONNECT Witness.a4 ++ [7; 8; 9]))
      (TrojanRequest.generate Witness.opts CONNECT Witness.a4 ++ [7; 8; 9]) ctx
  = Some ([7; 8], [9]).
Proof. by vm_compute. Qed.

Definition request : bytes := [71; 13; 10; 13; 10; 33].

Lemma unauthenticated_is_forwarded_witness :
  ∃ c' w', (∀ fuel, Connection.dispatch Witness.opts fuel 0 (client request) request ctx = Some (c', w'))
    ∧ target_addr c' = Some back
    ∧ os w' = (tcp_connect world back).2
    ∧ relays (length request) (forwarded (source (proxy (client request))) request) c'.
Proof.
  refine (unauthenticated_is_forwarded Witness.opts back back_ok 0 (client request) request ctx
    Witness.opts_ok _ _ (client_fresh _)); [done|by eexists].
Defined.

Definition named : bytes := sha_pass Witness.opts ++ [13; 10; 1; 3; 1; 65; 0; 80; 13; 10; 5].

Lemma domain_waits_witness :
  ∃ c', (∀ fuel, Connection.dispatch Witness.opts fuel 0 (client named) named ctx =
           Some (c', with_resolver ctx (resolve (query_dns 0 (dns_resolver_new RESOLVER None) [65]).2
                                          [65] (Some 7))))
    ∧ status c' = DnsWait ∧ relays (length named) [5] c'.
Proof.
  refine (domain_waits Witness.opts back back_ok 0 (client named) named ctx
    (dns_resolver_new RESOLVER None) [65] 80 [5] _ _ _ _ (client_fresh _));
    [by vm_compute|done|done].
Defined.

Lemma ready_relays_witness :
  relays 0 [] (with_status (with_request (client []) CONNECT NoAddress) DnsWait) ∧
  terminates (λ fuel, ready Witness.opts fuel 5
      (with_status (with_request (client []) CONNECT NoAddress) DnsWait)
      (Network (mkEvent 6 true true)) ctx)
    (λ r, relays 0 [] r.1).
Proof.
  assert (relays 0 [] (with_status (with_request (client []) CONNECT NoAddress) DnsWait)) as H.
  { split; [done|]. split; [done|]. by right. }
  split; [exact H|]. exact (ready_relays Witness.opts back back_ok 0 [] 5 _ _ ctx H).
Defined.
End RelayWitness.
