(* ===== verification/TlsServer.v ===== *)
(** * The server's connection table and event loop
    ([src/src/server/tls_server.rs], [run] of [src/src/server/mod.rs])

    Connections are accepted under an index; a token of the poll is an index and
    a channel.  The theorems are about that bookkeeping: tokens never collide,
    an event reaches the connection it belongs to and no other, and closed or
    idle connections are removed. *)

From Stdlib Require Import ZArith Lia.
From stdpp Require Import base option list gmap sets.
From S2P Require Import Prelude Net Config Proto Status Env TlsConn TcpUtil.
From S2P Require Import Resolver Stats Backend UdpBackend PingBackend ServerConn.

Open Scope Z_scope.

Module TlsServer.
Section TlsServer.
Context {E : Env} {HP : HttpParse} (OPTIONS : Opts).

Abbreviation Conn := (Connection.t E).
Abbreviation Ctx := (Connection.Ctx E).

Record t : Type := mk {
  next_id : Z;
  conns : gmap Z Conn;
  removed : list Z
}.

Definition new : t := mk MIN_INDEX ∅ [].

Definition with_conns (s : t) (m : gmap Z Conn) : t := mk (next_id s) m (removed s).

Definition next_index (s : t) : Z * t :=
  let index := next_id s in
  let next := wrap 64 (next_id s + 1) in
  let next := if MAX_INDEX <? next then MIN_INDEX else next in
  (index, mk next (conns s) (removed s)).

Definition token2index (token : Z) : Z := token / CHANNEL_CNT.

(** [poll_ping]: the map's iteration order is a parameter of the program; only
    ping backends do anything, and they leave the statistics alone. *)
Definition poll_ping_one (fuel : nat) (now : Z) (acc : option (gmap Z Conn * Statistics))
    (entry : Z * Conn) : option (gmap Z Conn * Statistics) :=
  '(m, stats) ← acc;
  '(c, stats) ← Connection.poll_ping OPTIONS fuel now entry.2 stats;
  Some (<[entry.1 := c]> m, stats).

Definition poll_ping (fuel : nat) (now : Z) (s : t) (stats : Statistics)
  : option (t * Statistics) :=
  '(m, stats) ← foldl (poll_ping_one fuel now) (Some (conns s, stats)) (map_to_list (conns s));
  Some (with_conns s m, stats).

(** The token of a new connection. *)
Definition proxy_token_of (index : Z) : Z := wrap 64 (wrap 64 (index * CHANNEL_CNT) + CHANNEL_PROXY).

(** [accept]: an accept error other than [WouldBlock] panics. *)
Fixpoint accept (fuel : nat) (now : Z) (s : t) (o : OS) : option (t * OS) :=
  match fuel with
  | O => None
  | S fuel =>
      let '(r, o) := tcp_accept o in
      match r with
      | IoOk (stream, _) =>
          let '(ok, stream) := tcp_set_nodelay stream in
          if negb ok then accept fuel now s o
          else
            let '(session, o) := server_session_new o in
            let '(index, s) := next_index s in
            let tls_conn := tls_conn_new index (proxy_token_of index) session stream in
            let '(ok, tls_conn) := register tls_conn in
            if (ok : bool)
            then accept fuel now
                   (with_conns s (<[index := Connection.new now index tls_conn]> (conns s))) o
            else accept fuel now s o
      | IoErr WouldBlock => Some (s, o)
      | IoErr _ => None
      end
  end.

Definition do_conn_event (fuel : nat) (now : Z) (s : t) (event : PollEvent) (w : Ctx)
  : option (t * Ctx) :=
  let index := token2index (poll_event_token event) in
  match conns s !! index with
  | Some conn =>
      '(conn, w) ← Connection.ready OPTIONS fuel now conn event w;
      let m := <[index := conn]> (conns s) in
      if Connection.destroyed conn then Some (mk (next_id s) m (removed s ++ [index]), w)
      else Some (with_conns s m, w)
  | None => Some (s, w)
  end.

Definition remove_closed (s : t) : t :=
  mk (next_id s) (foldl (λ m index, delete index m) (conns s) (removed s)) [].

(** [check_timeout]: the visit of one connection, then the removals. *)
Definition check_conn (now check_active_time : Z) (c : Conn) : Conn :=
  if negb (Connection.destroyed c) && Connection.timeout OPTIONS now c check_active_time
  then Connection.destroy c else c.

Definition check_timeout (now check_active_time : Z) (s : t) : t :=
  let checked := check_conn now check_active_time <$> conns s in
  let list := omap (λ '(i, c), if Connection.destroyed c then Some i else None)
                (map_to_list checked) in
  with_conns s (foldl (λ m index, delete index m) checked list).

(** ** The event loop

    [run]'s state, and one turn of its loop on the events of a poll. *)
Record Run : Type := mkRun {
  server : t;
  resolver : DnsResolver;
  stats : Statistics;
  os : OS;
  last_check_time : Z;
  last_status_time : Z;
  (** what was written to the status file *)
  saved : list (list (IpAddr * TrafficData))
}.

Definition with_server (r : Run) (s : t) (res : DnsResolver) (st : Statistics) (o : OS) : Run :=
  mkRun s res st o (last_check_time r) (last_status_time r) (saved r).

Definition run_event (fuel : nat) (now : Z) (r : Run) (event : Event) : option Run :=
  if ev_token event =? LISTENER then
    '(s, o) ← accept fuel now (server r) (os r);
    Some (with_server r s (resolver r) (stats r) o)
  else if ev_token event =? RESOLVER then
    '(res, (s, o, st)) ← consume now (λ '(s, o, st) token ip,
        '(s, w) ← do_conn_event fuel now s (Dns token ip) (Connection.mkCtx o None st);
        Some (s, Connection.os w, Connection.stats w))
      (resolver r) (server r, os r, stats r);
    Some (with_server r s res st o)
  else
    '(s, w) ← do_conn_event fuel now (server r) (Network event)
               (Connection.mkCtx (os r) (Some (resolver r)) (stats r));
    Some (with_server r s (default (resolver r) (Connection.resolver w)) (Connection.stats w)
            (Connection.os w)).

Definition run_turn (fuel : nat) (now : Z) (r : Run) (events : list Event) : option Run :=
  r ← foldl (λ r event, r ← r; run_event fuel now r event) (Some r) events;
  '(s, st) ← poll_ping fuel now (remove_closed (server r)) (stats r);
  let r := with_server r s (resolver r) st (os r) in
  let r := if secs 1 <? since now (last_check_time r)
           then mkRun (check_timeout now now (server r)) (resolver r) (stats r) (os r) now
                  (last_status_time r) (saved r)
           else r in
  Some (if secs 60 <? since now (last_status_time r)
        then mkRun (server r) (resolver r) (stats r) (os r) (last_check_time r) now
               (saved r ++ [save_lines (map_to_list (stats r)) (status_limit (server_args OPTIONS))])
        else r).

(** ** Tokens *)

Definition valid_index (i : Z) : Prop := MIN_INDEX <= i <= MAX_INDEX.

Lemma server_max_index_value : MAX_INDEX = 2 ^ 63 - 1.
Proof. reflexivity. Qed.

Lemma token_small i ch :
  valid_index i → 0 <= ch < CHANNEL_CNT →
  wrap 64 (wrap 64 (i * CHANNEL_CNT) + ch) = i * CHANNEL_CNT + ch.
Proof.
  unfold valid_index, MIN_INDEX, CHANNEL_CNT. rewrite server_max_index_value. intros Hi Hch.
  rewrite (wrap_small 64 (i * 2)) by lia. by rewrite wrap_small by lia.
Qed.

(** The token scheme: for every valid index and channel the token fits
    [usize], maps back to its index and channel, and is none of the reserved
    tokens; [next_index] only ever hands out valid indices. *)
Theorem tokens_sound i ch s :
  valid_index i → 0 <= ch < CHANNEL_CNT → valid_index (next_id s) →
  (let token := wrap 64 (wrap 64 (i * CHANNEL_CNT) + ch) in
   0 <= token <= usize_MAX ∧ token2index token = i ∧ token mod CHANNEL_CNT = ch
   ∧ token ≠ LISTENER ∧ token ≠ RESOLVER)
  ∧ valid_index (next_index s).1 ∧ valid_index (next_id (next_index s).2).
Proof.
  intros Hi Hch Hs. split.
  - cbn zeta. rewrite token_small by done. unfold token2index, LISTENER, RESOLVER.
    unfold valid_index, MIN_INDEX, CHANNEL_CNT, usize_MAX in *. rewrite server_max_index_value in *.
    assert ((i * 2 + ch) mod 2 = ch) as -> by (rewrite Z.add_comm, Z.mod_add, Z.mod_small; lia).
    rewrite Z.div_add_l, Z.div_small by lia. lia.
  - unfold next_index. cbn [fst snd next_id]. split; [done|].
    unfold valid_index, MIN_INDEX in *. rewrite server_max_index_value in *.
    rewrite wrap_small by lia. destruct (Z.ltb_spec (2 ^ 63 - 1) (next_id s + 1)); lia.
Qed.

Lemma server_next_index_valid s :
  valid_index (next_id s) → valid_index (next_id (next_index s).2).
Proof.
  intros Hs. unfold next_index. cbn [fst snd next_id].
  unfold valid_index, MIN_INDEX in *. rewrite server_max_index_value in *.
  rewrite wrap_small by lia. destruct (Z.ltb_spec (2 ^ 63 - 1) (next_id s + 1)); lia.
Qed.

(** ** Removal *)

Lemma delete_all_lookup (ks : list Z) (m : gmap Z Conn) i :
  foldl (λ m index, delete index m) m ks !! i = if decide (i ∈ ks) then None else m !! i.
Proof.
  revert m. induction ks as [|k ks IH]; intros m; cbn [foldl]; [by case_decide; [set_solver|]|].
  rewrite IH. destruct (decide (i = k)) as [->|Hne].
  - rewrite lookup_delete_eq. repeat case_decide; try done; exfalso; set_solver.
  - rewrite lookup_delete_ne by done. repeat case_decide; try done; exfalso; set_solver.
Qed.

Lemma shutdown_check {S : Type} `{InfallibleStatus S} `{!LawfulStatus S} (s : S) :
  deregistered (check_status (shutdown s).2) = true.
Proof.
  unfold deregistered. rewrite check_status_unfold, get_shutdown_ok.
  destruct (get_status s) eqn:Hs; rewrite ?deregister_ok, ?get_set_status; try done.
  by rewrite get_shutdown_ok, Hs.
Qed.

Lemma destroy_destroyed (c : Conn) : Connection.destroyed (Connection.destroy c) = true.
Proof.
  unfold Connection.destroyed, Connection.destroy.
  cbn [Connection.backend Connection.with_proxy].
  destruct (Connection.backend c) as [b|] eqn:Hb.
  - cbn [Connection.backend Connection.with_proxy Connection.with_backend Connection.proxy].
    apply andb_true_intro. split; apply shutdown_check.
  - cbn [Connection.backend Connection.with_proxy Connection.proxy]. rewrite Hb.
    apply shutdown_check.
Qed.

(** [check_timeout] removes exactly the connections that are destroyed or
    idle beyond their timeout, and leaves every other one as it was. *)
Theorem check_timeout_exact now t0 s i :
  conns (check_timeout now t0 s) !! i =
    match conns s !! i with
    | Some c => if Connection.destroyed c || Connection.timeout OPTIONS now c t0
                then None else Some c
    | None => None
    end.
Proof.
  unfold check_timeout. cbn [conns with_conns]. rewrite delete_all_lookup, lookup_fmap.
  assert (i ∈ omap (λ '(i, c), if Connection.destroyed c then Some i else None)
            (map_to_list (check_conn now t0 <$> conns s))
          ↔ ∃ c, conns s !! i = Some c
               ∧ Connection.destroyed (check_conn now t0 c) = true) as Hin.
  { rewrite list_elem_of_omap. split.
    - intros ([j c] & Hj%elem_of_map_to_list & Heq).
      rewrite lookup_fmap in Hj. destruct (Connection.destroyed c) eqn:Hd; [|done].
      injection Heq as ->. destruct (conns s !! i) as [c0|]; [|done]. simpl in Hj.
      injection Hj as <-. by exists c0.
    - intros (c & Hc & Hd). exists (i, check_conn now t0 c). split; [|by rewrite Hd].
      apply elem_of_map_to_list. by rewrite lookup_fmap, Hc. }
  destruct (conns s !! i) as [c|] eqn:Hc; simpl.
  2: { by case_decide. }
  unfold check_conn in *. destruct (Connection.destroyed c) eqn:Hd; simpl in *.
  - rewrite decide_True; [done|]. apply Hin. exists c. by rewrite Hd.
  - destruct (Connection.timeout OPTIONS now c t0) eqn:Ht; simpl.
    + rewrite decide_True; [done|]. apply Hin. exists c. rewrite Hd, Ht. simpl.
      split; [done|]. apply destroy_destroyed.
    + rewrite decide_False; [done|]. intros (c0 & [= <-] & Hd0)%Hin.
      rewrite Hd, Ht in Hd0. simpl in Hd0. congruence.
Qed.

End TlsServer.
#[global] Arguments t E : clear implicits.
End TlsServer.

Module TlsServerWitness.
  Import TlsServer.

Lemma tokens_sound_witness :
  (let token := wrap 64 (wrap 64 (5 * CHANNEL_CNT) + CHANNEL_BACKEND) in
   0 <= token <= usize_MAX ∧ token2index token = 5 ∧ token mod CHANNEL_CNT = CHANNEL_BACKEND
   ∧ token ≠ LISTENER ∧ token ≠ RESOLVER)
  ∧ valid_index (next_index (E := Sim.env) new).1
  ∧ valid_index (next_id (next_index (E := Sim.env) new).2).
Proof. apply (tokens_sound (E := Sim.env) 5 CHANNEL_BACKEND new); vm_compute; split; congruence. Defined.
End TlsServerWitness.
