(* ===== verification/IdlePool.v ===== *)
(** * The pool of idle TLS connections ([src/src/idle_pool.rs])

    The proxy keeps connections to the server whose TLS handshake is under way
    or done, so that a new client does not wait for it.  The system and the
    resolver, which the methods are passed, are threaded.  The session's
    configuration and host name are the environment's
    ([client_session_new]). *)

From Stdlib Require Import ZArith Lia.
From stdpp Require Import base option list sorting.
From S2P Require Import Prelude Net Config Status Env TlsConn Resolver.

Open Scope Z_scope.

Module IdlePool.
Section IdlePool.
Context {E : Env} (OPTIONS : Opts).

Record t : Type := mk {
  pool : list (TlsConn E);
  next_index_ : Z;
  size : nat;
  addr : SocketAddr;
  domain : bytes;
  port : Z;
  channel_cnt : Z;
  channel_idle : Z;
  min_index : Z;
  max_index : Z
}.

Definition with_pool (p : t) (l : list (TlsConn E)) : t :=
  mk l (next_index_ p) (size p) (addr p) (domain p) (port p) (channel_cnt p) (channel_idle p)
    (min_index p) (max_index p).
Definition with_addr (p : t) (a : SocketAddr) : t :=
  mk (pool p) (next_index_ p) (size p) a (domain p) (port p) (channel_cnt p) (channel_idle p)
    (min_index p) (max_index p).
Definition with_next (p : t) (i : Z) : t :=
  mk (pool p) i (size p) (addr p) (domain p) (port p) (channel_cnt p) (channel_idle p)
    (min_index p) (max_index p).

(** [None] is the [unwrap] of an absent [back_addr]. *)
Definition new (size : nat) (port : Z) (domain : bytes) : option t :=
  back ← back_addr OPTIONS; Some (mk [] 0 size back domain port 0 0 0 0).

Definition init_index (p : t) (channel_cnt channel_idle min_index max_index : Z) : t :=
  mk (pool p) min_index (size p) (addr p) (domain p) (port p) channel_cnt channel_idle
    min_index max_index.

Definition next_index (p : t) : Z * t :=
  let index := next_index_ p in
  let next := wrap 64 (next_index_ p + 1) in
  (index, with_next p (if max_index p <=? next then min_index p else next)).

Definition token_of (p : t) (index : Z) : Z :=
  wrap 64 (wrap 64 (index * channel_cnt p) + channel_idle p).

(** [None] is [Err]: what was connected so far is dropped. *)
Definition new_conn (p : t) (o : OS) : option (TlsConn E) * t * OS :=
  let '(server, o) := tcp_connect o (addr p) in
  match server with
  | None => (None, p, o)
  | Some server =>
      let '(ok, server) := tcp_set_nodelay server in
      if negb ok then (None, p, o)
      else
        let '(session, o) := client_session_new o in
        match session with
        | None => (None, p, o)
        | Some session =>
            let '(index, p) := next_index p in
            (Some (tls_conn_new index (token_of p index) session server), p, o)
        end
  end.

Definition update_dns (p : t) (r : DnsResolver) : DnsResolver := resolve r (domain p) None.

(** What the methods are passed and change. *)
Abbreviation State := (t * OS * DnsResolver)%type.

(** One iteration of [alloc]. *)
Definition alloc_one (st : State) : State :=
  let '(p, o, r) := st in
  let '(conn, p, o) := new_conn p o in
  match conn with
  | Some conn =>
      let '(ok, conn) := register conn in
      (if (ok : bool) then with_pool p (pool p ++ [conn]) else p, o, r)
  | None => (p, o, update_dns p r)
  end.

Definition alloc (st : State) : State :=
  let p := st.1.1 in Nat.iter (size p - length (pool p)) alloc_one st.

(** The loop of [get], [n] times at most. *)
Fixpoint get_loop (n : nat) (st : State) : option (TlsConn E) * State :=
  match n with
  | O => (None, st)
  | S n =>
      let '(p, o, r) := alloc st in
      match last (pool p) with
      | Some conn => (Some conn, (with_pool p (take (length (pool p) - 1) (pool p)), o, r))
      | None => get_loop n (p, o, r)
      end
  end.

Definition get (st : State) : option (TlsConn E) * State := get_loop (size st.1.1) st.

Definition init (st : State) : State := if (1 <? size st.1.1)%nat then alloc st else st.

Definition resolve (p : t) (ip : option IpAddr) : t :=
  match ip with
  | Some address => with_addr p (mkSocketAddr address (port p))
  | None => p
  end.

(** The handling of a connection's event. *)
Definition ready_conn (fuel : nat) (event : Event) (conn : TlsConn E) : option (TlsConn E) :=
  conn ← (if is_readable event then '(_, conn) ← do_read fuel conn; Some conn else Some conn);
  conn ← (if is_writable event then do_send fuel (established conn) else Some conn);
  Some (check_status conn).

Definition ready (fuel : nat) (p : t) (event : Event) : option t :=
  match list_find (λ conn, TlsConn.token conn = ev_token event) (pool p) with
  | Some (index, conn) =>
      conn ← ready_conn fuel event conn;
      let l := <[index := conn]> (pool p) in
      if deregistered conn then l ← swap_remove l index; Some (with_pool p l)
      else Some (with_pool p l)
  | None => Some p
  end.

(** [check_timeout]: the visit of one connection, then the removals. *)
Definition check_conn (fuel : nat) (conn : TlsConn E) : option (TlsConn E) :=
  conn ← (if negb (deregistered conn) then '(_, conn) ← do_read fuel conn; Some conn
          else Some conn);
  Some (check_status conn).

Definition check_timeout (fuel : nat) (p : t) : option t :=
  visited ← mapM (check_conn fuel) (pool p);
  let closed := merge_sort Nat.le (positions deregistered 0 visited) in
  l ← swap_remove_all visited (reverse closed);
  Some (with_pool p l).

(** What the main loop does to the pool and its companions: the methods above,
    and [OOther], whatever the rest of the program and the system do in
    between. *)
Inductive op : Type :=
  | OInit
  | OGet
  | OReady (event : Event)
  | OCheckTimeout
  | OResolve (ip : option IpAddr)
  | OOther (o : OS) (r : DnsResolver).

Definition run_op (fuel : nat) (st : State) (x : op) : option State :=
  let '(p, o, r) := st in
  match x with
  | OInit => Some (init st)
  | OGet => Some (get st).2
  | OReady event => p ← ready fuel p event; Some (p, o, r)
  | OCheckTimeout => p ← check_timeout fuel p; Some (p, o, r)
  | OResolve ip => Some (resolve p ip, o, r)
  | OOther o r => Some (p, o, r)
  end.

Definition run_ops (fuel : nat) (st : State) (ops : list op) : option State :=
  foldl (λ st x, st ← st; run_op fuel st x) (Some st) ops.

Context `{!EnvOk E}.

(** ** The invariant *)

Definition valid_index (p : t) (i : Z) : Prop := min_index p <= i < max_index p.

(** A connection of the pool: it has an idle token, and nothing of the proxy's
    was written to it. *)
Definition pooled (p : t) (c : TlsConn E) : Prop :=
  valid_index p (TlsConn.index c)
  ∧ TlsConn.token c = token_of p (TlsConn.index c)
  ∧ plain c = [].

Definition params (p : t) : nat * Z * Z * Z * Z :=
  (size p, channel_cnt p, channel_idle p, min_index p, max_index p).

(** The parameters the pool was set up with. *)
Context (cfg : nat * Z * Z * Z * Z).

Record ok (p : t) : Prop := {
  ok_params : params p = cfg;
  ok_range : 0 <= min_index p < max_index p ∧ max_index p <= usize_MAX;
  ok_next : valid_index p (next_index_ p);
  ok_pool : Forall (pooled p) (pool p);
  ok_size : (length (pool p) <= size p)%nat
}.

Lemma ok_next_index p : ok p → ok (next_index p).2.
Proof.
  intros [Hc Hr Hn Hp Hs]. unfold next_index, valid_index in *. cbn [snd].
  split; [done|done| |exact Hp|done]. unfold valid_index. cbn [next_index_ with_next min_index max_index].
  unfold usize_MAX in Hr. rewrite wrap_small by lia.
  destruct (Z.leb_spec (max_index p) (next_index_ p + 1)); lia.
Qed.

Lemma new_conn_ok p o r p' o' :
  ok p → new_conn p o = (r, p', o') →
  ok p' ∧ pool p' = pool p ∧ size p' = size p ∧ (∀ c, r = Some c → pooled p' c).
Proof.
  intros Hp. unfold new_conn. destruct (tcp_connect o (addr p)) as [[server|] o1];
    [|by intros [= <- <- <-]; split_and!].
  destruct (tcp_set_nodelay server) as [[] server1]; simpl; [|by intros [= <- <- <-]; split_and!].
  destruct (client_session_new o1) as [[session|] o2] eqn:Hc; [|by intros [= <- <- <-]; split_and!].
  intros [= <- <- <-]. pose proof (ok_next_index p Hp) as Hn. unfold next_index in Hn.
  split_and!; [exact Hn|done|done|]. intros c [= <-]. destruct Hp as [_ _ Hp _ _].
  split_and!; [exact Hp|done|]. unfold plain. simpl. by apply client_session_fresh in Hc as [-> _].
Qed.

Lemma pooled_register p c ok c' : pooled p c → register c = (ok, c') → ok = true → pooled p c'.
Proof.
  intros (Hi & Ht & Hp). unfold register.
  destruct (tcp_register (stream c) (TlsConn.token c)) as [[] s]; intros [= <- <-] Hok; [|done].
  by split_and!.
Qed.

Lemma alloc_one_ok st :
  ok st.1.1 → (length (pool st.1.1) < size st.1.1)%nat →
  ok (alloc_one st).1.1 ∧ size (alloc_one st).1.1 = size st.1.1
  ∧ (length (pool (alloc_one st).1.1) <= S (length (pool st.1.1)))%nat
  ∧ pool st.1.1 `prefix_of` pool (alloc_one st).1.1.
Proof.
  destruct st as [[p o] r]. cbn [fst snd]. intros Hp Hlt. unfold alloc_one.
  destruct (new_conn p o) as [[c p1] o1] eqn:Hc.
  destruct (new_conn_ok _ _ _ _ _ Hp Hc) as (Hp1 & Hpool & Hsize & Hc1).
  destruct c as [c|]; simpl. 2: { rewrite Hpool, Hsize. split_and!; try done; lia. }
  destruct (register c) as [b c'] eqn:Hr.
  destruct b; simpl; rewrite Hpool, Hsize; [|split_and!; try done; lia].
  rewrite length_app. simpl. split_and!; [|done|lia|by apply prefix_app_r].
  destruct Hp1 as [H0 H1 H2 H3 H4]. split; [done|done|done| |].
  - simpl. rewrite Hpool in H3. apply Forall_app. split; [exact H3|]. constructor; [|done].
    by eapply (pooled_register p1); [apply Hc1| |].
  - simpl. rewrite length_app, Hsize. simpl. lia.
Qed.

Lemma alloc_iter_ok n st :
  ok st.1.1 → (length (pool st.1.1) + n <= size st.1.1)%nat →
  ok (Nat.iter n alloc_one st).1.1 ∧ size (Nat.iter n alloc_one st).1.1 = size st.1.1
  ∧ pool st.1.1 `prefix_of` pool (Nat.iter n alloc_one st).1.1.
Proof.
  revert st. induction n as [|n IH]; intros st Hp Hn; [done|]. rewrite Nat.iter_succ_r.
  destruct (alloc_one_ok st Hp) as (H1 & H2 & H3 & H4); [lia|].
  destruct (IH (alloc_one st) H1) as (H5 & H6 & H7); [lia|].
  split_and!; [done|congruence|by etrans].
Qed.

Lemma alloc_ok st :
  ok st.1.1 →
  ok (alloc st).1.1 ∧ size (alloc st).1.1 = size st.1.1
  ∧ pool st.1.1 `prefix_of` pool (alloc st).1.1.
Proof. intros Hp. apply alloc_iter_ok; [done|]. destruct Hp. lia. Qed.

Lemma get_loop_ok n st :
  ok st.1.1 →
  ok (get_loop n st).2.1.1
  ∧ (∀ c, (get_loop n st).1 = Some c → pooled (get_loop n st).2.1.1 c)
  ∧ (n ≠ 0%nat → pool st.1.1 ≠ [] → is_Some (get_loop n st).1).
Proof.
  revert st. induction n as [|n IH]; intros st Hp; [by split_and!|]. cbn [get_loop].
  destruct (alloc_ok st Hp) as (H1 & _ & H3).
  destruct (alloc st) as [[p o] r]. cbn [fst] in *.
  destruct (last (pool p)) as [c|] eqn:Hl; simpl.
  - destruct H1 as [R0 R1 R2 R3 R4].
    assert (pool p = take (length (pool p) - 1) (pool p) ++ [c]) as Hsplit.
    { apply last_Some in Hl as [l ->]. rewrite length_app. simpl.
      by rewrite Nat.add_sub, take_app_length. }
    rewrite Hsplit in R3. apply Forall_app in R3 as [R3 R5]. split_and!.
    + split; [done|done|done|exact R3|]. simpl. rewrite length_take. lia.
    + intros c' [= <-]. by inversion R5.
    + by eexists.
  - apply last_None in Hl. rewrite Hl in H3. destruct (IH (p, o, r) H1) as (I1 & I2 & _).
    split_and!; [done|done|]. intros _ Hne. by apply prefix_nil_inv in H3.
Qed.

(** ** Events and timeouts *)

(** What handling a connection leaves unchanged. *)
Record handled (c c' : TlsConn E) : Prop := {
  handled_index : TlsConn.index c' = TlsConn.index c;
  handled_token : TlsConn.token c' = TlsConn.token c;
  handled_plain : plain c' = plain c;
  handled_down : is_shutdown c = true → deregistered c' = true
}.

Lemma pooled_handled p c c' : pooled p c → handled c c' → pooled p c'.
Proof. intros (H1 & H2 & H3) [H4 H5 H6 _]. unfold pooled. by rewrite H4, H5, H6. Qed.

Lemma check_status_down (c : TlsConn E) : is_shutdown c = true → deregistered (check_status c) = true.
Proof.
  unfold is_shutdown, deregistered. rewrite check_status_unfold.
  destruct (get_status c) eqn:Hs; rewrite ?Hs; done.
Qed.

Lemma handled_check c c' :
  TlsConn.index c' = TlsConn.index c → TlsConn.token c' = TlsConn.token c → plain c' = plain c →
  (is_shutdown c = true → is_shutdown c' = true) → handled c (check_status c').
Proof.
  intros Hi Ht Hp Hs. split.
  - by rewrite (frame_check_status TlsConn.index).
  - by rewrite (frame_check_status TlsConn.token).
  - by rewrite (frame_check_status plain).
  - intros H. by apply check_status_down, Hs.
Qed.

Lemma read_handled c :
  terminates (λ fuel, '(_, c') ← do_read fuel c; Some c')
    (λ c', plain c' = plain c ∧ same_identity c c').
Proof.
  eapply terminates_bind; [apply do_read_terminates|].
  intros [r c'] [[H1 _ H3] _]. by apply terminates_ret.
Qed.

Lemma ready_conn_handled event c : terminates (λ fuel, ready_conn fuel event c) (handled c).
Proof.
  unfold ready_conn. eapply terminates_bind
    with (P := λ c', plain c' = plain c ∧ same_identity c c').
  { destruct (is_readable event); [apply read_handled|].
    apply terminates_ret. split; [done|apply same_identity_refl]. }
  intros c1 [Hp1 Hs1]. eapply terminates_bind
    with (P := λ c', plain c' = plain c ∧ TlsConn.index c' = TlsConn.index c
                     ∧ TlsConn.token c' = TlsConn.token c
                     ∧ (is_shutdown c = true → is_shutdown c' = true)).
  - destruct (is_writable event).
    + eapply terminates_weaken; [apply do_send_terminates|]. intros c2 [Hp2 _ Hs2].
      pose proof (same_identity_down _ _ Hs1) as Hd1.
      pose proof (same_identity_down _ _ Hs2) as Hd2.
      destruct Hs1 as [Hi1 Ht1 _], Hs2 as [Hi2 Ht2 _].
      rewrite (frame_established TlsConn.index) in Hi2.
      rewrite (frame_established TlsConn.token) in Ht2.
      rewrite (frame_established plain) in Hp2.
      split_and!; [congruence|congruence|congruence|].
      intros H. by apply Hd2, is_shutdown_established, Hd1.
    + apply terminates_ret. pose proof (same_identity_down _ _ Hs1).
      destruct Hs1. by split_and!.
  - intros c2 (? & ? & ? & ?). apply terminates_ret. by apply handled_check.
Qed.

Lemma check_conn_handled c : terminates (λ fuel, check_conn fuel c) (handled c).
Proof.
  unfold check_conn. eapply terminates_bind
    with (P := λ c', plain c' = plain c ∧ same_identity c c').
  { destruct (negb _); [apply read_handled|].
    apply terminates_ret. split; [done|apply same_identity_refl]. }
  intros c1 [Hp1 Hs1]. apply terminates_ret. pose proof (same_identity_down _ _ Hs1).
  destruct Hs1. by apply handled_check.
Qed.

Lemma ok_with_pool p l :
  ok p → Forall (pooled p) l → (length l <= size p)%nat → ok (with_pool p l).
Proof. intros [H0 H1 H2 _ _] Hl Hs. by split. Qed.

Lemma ready_ok p event : ok p → terminates (λ fuel, ready fuel p event) ok.
Proof.
  intros Hp. unfold ready. destruct (list_find _ (pool p)) as [[i c]|] eqn:Hf;
    [|by apply terminates_ret].
  apply list_find_Some in Hf as (Hi & _ & _).
  eapply terminates_bind; [apply ready_conn_handled|]. intros c' Hc'.
  pose proof (ok_pool p Hp) as Hall. pose proof (ok_size p Hp) as Hsize.
  assert (pooled p c') as Hpc.
  { eapply pooled_handled; [|done]. by eapply Forall_lookup_1. }
  pose proof (lookup_lt_Some _ _ _ Hi) as Hlt.
  assert (<[i:=c']> (pool p) = take i (pool p) ++ c' :: drop (S i) (pool p)) as Heq
    by by apply insert_take_drop.
  destruct (deregistered c').
  - rewrite Heq. destruct (swap_remove_app (take i (pool p)) c' (drop (S i) (pool p)))
      as (b' & Hsw & Hb). rewrite length_take_le in Hsw by lia.
    rewrite Hsw. apply terminates_ret. apply ok_with_pool; [done| |].
    + rewrite Hb. apply Forall_app. by split; [apply Forall_take|apply Forall_drop].
    + rewrite Hb, length_app, length_take, length_drop. lia.
  - apply terminates_ret. apply ok_with_pool; [done| |by rewrite length_insert].
    by apply Forall_insert.
Qed.

(** [check_timeout] always returns; the pool it leaves holds, up to order,
    every connection it visited that is not deregistered and no other - those
    already shut down are deregistered by the visit - and no connection's index,
    token or outgoing plaintext has changed. *)
Lemma check_timeout_visited p :
  terminates (λ fuel, check_timeout fuel p) (λ p', ∃ visited l,
    Forall2 handled (pool p) visited ∧ p' = with_pool p l
    ∧ l ≡ₚ filter (λ c, deregistered c = false) visited).
Proof.
  unfold check_timeout.
  eapply terminates_bind; [apply terminates_mapM, check_conn_handled|].
  intros visited Hv. rewrite (Sorted_unique Nat.le (merge_sort Nat.le (positions deregistered 0 visited))
    (positions deregistered 0 visited)).
  - destruct (swap_remove_positions deregistered visited []) as (l & Hl & Hp).
    rewrite !app_nil_r in *. rewrite Hl. apply terminates_ret. by exists visited, l.
  - apply Sorted_merge_sort. intros x y. unfold Nat.le. lia.
  - apply StronglySorted_Sorted, positions_sorted.
  - apply merge_sort_Permutation.
Qed.

Lemma check_timeout_ok p : ok p → terminates (λ fuel, check_timeout fuel p) ok.
Proof.
  intros Hp. eapply terminates_weaken; [apply check_timeout_visited|].
  intros p' (visited & l & Hv & -> & Hl). destruct Hp as [H0 H1 H2 H3 H4].
  pose proof (Forall2_length _ _ _ Hv) as Hlen. apply ok_with_pool; [by split| |].
  - rewrite Hl. apply Forall_forall. intros c [_ Hc]%list_elem_of_filter.
    apply list_elem_of_lookup in Hc as [i Hi].
    destruct (Forall2_lookup_r _ _ _ _ _ Hv Hi) as (c0 & Hc0 & Hh).
    eapply pooled_handled; [|done]. by eapply Forall_lookup_1.
  - rewrite Hl, <-H4, Hlen. apply length_filter.
Qed.

Lemma run_op_ok st x : ok st.1.1 → terminates (λ fuel, run_op fuel st x) (λ st', ok st'.1.1).
Proof.
  destruct st as [[p o] r]. cbn [fst]. intros Hp. destruct x as [| |event| |ip|o' r']; simpl.
  - apply terminates_ret. unfold init. simpl. destruct (1 <? size p)%nat; [|done].
    by apply (alloc_ok (p, o, r)).
  - apply terminates_ret. by apply (get_loop_ok (size p) (p, o, r)).
  - eapply terminates_bind; [by apply ready_ok|]. intros p' Hp'. by apply terminates_ret.
  - eapply terminates_bind; [by apply check_timeout_ok|]. intros p' Hp'. by apply terminates_ret.
  - apply terminates_ret. destruct ip; [|done]. destruct Hp. by split.
  - by apply terminates_ret.
Qed.

Lemma token_split p i :
  ok p → valid_index p i → 0 <= channel_idle p < channel_cnt p →
  max_index p * channel_cnt p <= usize_MAX →
  token_of p i = i * channel_cnt p + channel_idle p
  ∧ token_of p i / channel_cnt p = i ∧ token_of p i mod channel_cnt p = channel_idle p.
Proof.
  unfold valid_index, token_of, usize_MAX. intros [_ Hr _ _ _] Hi Hch Hmax.
  assert (i * channel_cnt p + channel_cnt p <= max_index p * channel_cnt p) by nia.
  rewrite (wrap_small 64 (i * channel_cnt p)), wrap_small by nia. split; [done|].
  rewrite Z.div_add_l, (Z.div_small (channel_idle p)) by lia. split; [lia|].
  by rewrite Z.add_comm, Z.mod_add, Z.mod_small by lia.
Qed.
End IdlePool.

Section HandsOut.
Context {E : Env} (OPTIONS : Opts) `{!EnvOk E}.

(** C24: after any sequence of the main loop's calls, interleaved with whatever
    the rest of the program and the system do, the pool holds at most [size]
    connections, and one that [get] hands out has an index in range, the idle
    token of that index, which decodes to index and channel, and nothing was
    written to it; while a connection is pooled, [get] hands one out. *)
Theorem pool_hands_out size port domain cnt idle lo hi ops o r p :
  new OPTIONS size port domain = Some p →
  0 <= lo < hi → 0 <= idle < cnt → hi * cnt <= usize_MAX →
  terminates (λ fuel, run_ops fuel (init_index p cnt idle lo hi, o, r) ops) (λ st,
    (length (pool st.1.1) <= size)%nat
    ∧ (size ≠ 0%nat → pool st.1.1 ≠ [] → is_Some (get st).1)
    ∧ ∀ c st', get st = (Some c, st') →
        lo <= TlsConn.index c < hi
        ∧ TlsConn.token c = TlsConn.index c * cnt + idle
        ∧ TlsConn.token c / cnt = TlsConn.index c ∧ TlsConn.token c mod cnt = idle
        ∧ plain c = []).
Proof.
  intros Hnew Hlo Hidle Hhi. set (cfg := (size, cnt, idle, lo, hi)).
  assert (ok cfg (init_index p cnt idle lo hi)) as Hok.
  { unfold new in Hnew. destruct (back_addr OPTIONS); [|done]. injection Hnew as <-.
    split; simpl; [done|nia|unfold valid_index; simpl; lia|done|lia]. }
  eapply terminates_weaken.
  { apply (terminates_foldl run_op (λ st, ok cfg st.1.1)); [|exact Hok].
    intros st x _. apply run_op_ok. }
  intros st Hst. destruct (get_loop_ok cfg (IdlePool.size st.1.1) st Hst) as (Hok' & Hget & Hsome).
  pose proof (ok_params _ _ Hst) as Hcfg. pose proof (ok_size _ _ Hst) as Hsz.
  injection Hcfg as Hc1 Hc2 Hc3 Hc4 Hc5. rewrite Hc1 in *.
  split_and!; [done|by unfold get; rewrite Hc1|]. intros c st' Hg.
  unfold get in Hg. rewrite Hc1 in Hg. rewrite Hg in *. cbn [fst snd] in *.
  pose proof (ok_params _ _ Hok') as Hcfg'. injection Hcfg' as ? D2 D3 D4 D5.
  destruct (Hget c eq_refl) as (Hi & Ht & Hp).
  destruct (token_split cfg _ _ Hok' Hi) as (T1 & T2 & T3); [rewrite D2, D3; lia|by rewrite D2, D5|].
  unfold valid_index in Hi. rewrite D2, D3, D4, D5, <-Ht in *. done.
Qed.
End HandsOut.
#[global] Arguments t E : clear implicits.
End IdlePool.

Module IdlePoolWitness.
  Import IdlePool.
#[local] Existing Instance Sim.env.
#[local] Existing Instance Sim.env_ok.

Definition back : SocketAddr := mkSocketAddr (V4 [127; 0; 0; 1]) 80.
Definition opts : Opts := mkOpts (mkServerArgs [] 300 false [] 100 [] true 600 false)
  (mkProxyArgs [] 443 1 true 3600 [] [] 70 false 0 []) [112] 60 600 [97; 98] 2
  (Some back) (Some (mkSocketAddr (V4 [0; 0; 0; 0]) 0)) (secs 60) (secs 600).

(** Two servers answer. *)
Definition world : Sim.system := Sim.mkSystem [Sim.idle_stream; Sim.idle_stream; Sim.idle_stream] [].
Definition fresh : t Sim.env := init_index (mk [] 0 2 back [65] 443 0 0 0 0) 4 0 3 1000.

Example get_example :
  (λ '(c, (p, _, r)), (TlsConn.token <$> c, TlsConn.token <$> pool p, length (jobs r)))
    (get (get (get (fresh, world, dns_resolver_new 3 None)).2).2)
  = (Some 12, [], 1%nat).
Proof. by vm_compute. Qed.

Lemma pool_hands_out_witness :
  terminates (λ fuel, run_ops fuel (fresh, world, dns_resolver_new 3 None)
      [OInit; OGet; OReady (mkEvent 12 true true); OCheckTimeout; OResolve None]) (λ st,
    (length (pool st.1.1) <= 2)%nat
    ∧ (2%nat ≠ 0%nat → pool st.1.1 ≠ [] → is_Some (get st).1)
    ∧ ∀ c st', get st = (Some c, st') →
        3 <= TlsConn.index c < 1000
        ∧ TlsConn.token c = TlsConn.index c * 4 + 0
        ∧ TlsConn.token c / 4 = TlsConn.index c ∧ TlsConn.token c mod 4 = 0
        ∧ plain c = []).
Proof.
  refine (pool_hands_out opts 2 443 [65] 4 0 3 1000 _ world (dns_resolver_new 3 None)
    (mk [] 0 2 back [65] 443 0 0 0 0) eq_refl _ _ _); [lia..|by vm_compute].
Defined.
End IdlePoolWitness.
