(* ===== verification/NetProfiler.v ===== *)
(** * The network profiler ([src/src/proxy/net_profiler.rs])

    The proxy asks the server to ping each destination, pings it itself, and
    lets a destination bypass the proxy when the direct route is better.  The
    check routine and the ipset routine run on other threads; the channels to
    and from them are part of the state, and [request_step] and [finish_check]
    are the steps of the check routine.  [set]'s iteration order is that of
    [map_to_list].  Within one call the clock is read once. *)

From Stdlib Require Import ZArith Lia SpecFloat.
From stdpp Require Import base option list gmap.
From S2P Require Import Prelude Framing Net Config Proto Status Env TlsConn.
From S2P Require Import Resolver Stats Backend PingBackend IdlePool.

Open Scope Z_scope.
Open Scope rust_scope.

(** The token of the profiler's connection ([src/src/proxy/mod.rs]). *)
Definition PINGER : Z := 4.

(** ** Single-precision arithmetic

    [f32] is IEEE binary32, rounding to nearest; [as u8] truncates and
    saturates. *)
Definition f32_of_Z (z : Z) : spec_float := binary_normalize 24 128 z 0 false.
Abbreviation f32_sub := (SFsub 24 128).
Abbreviation f32_mul := (SFmul 24 128).
Abbreviation f32_div := (SFdiv 24 128).

Definition f32_as_u8 (x : spec_float) : Z :=
  match x with
  | S754_finite false m e => Z.min u8_MAX (Z.shiftl (Z.pos m) e)
  | S754_infinity false => u8_MAX
  | _ => 0
  end.

(** A result as the server's ping backend has it. *)
Abbreviation Report := PingResult.
Abbreviation mkReport := mkPingResult.

(** [Itertools::group_by]: runs of consecutive entries with one key. *)
Class GroupBy : Type := {
  group_by {A} : (A → Z) → list A → list (Z * list A);
  group_by_join {A} (key : A → Z) l : mjoin (group_by key l).*2 = l;
  group_by_group {A} (key : A → Z) l k g :
    (k, g) ∈ group_by key l → g ≠ [] ∧ Forall (λ x, key x = k) g
}.

Module NetProfiler.

Record PingResult : Type := mkPingResult {
  last_time : Z;
  local_lost : Z;
  local_ping : Z;
  remote_lost : Z;
  remote_ping : Z;
  is_sent : bool
}.

Definition is_complete (pr : PingResult) : bool :=
  negb (local_lost pr =? u8_MAX) && negb (local_ping pr =? u16_MAX)
  && negb (remote_lost pr =? u8_MAX) && negb (remote_ping pr =? u16_MAX).

Definition is_no_bypass (pr : PingResult) : bool :=
  (local_ping pr =? u16_MAX - 1) && (local_lost pr =? u8_MAX - 1).

Definition ping_result_default (now : Z) : PingResult :=
  mkPingResult now u8_MAX u16_MAX u8_MAX u16_MAX true.

Definition with_time (pr : PingResult) (now : Z) : PingResult :=
  mkPingResult now (local_lost pr) (local_ping pr) (remote_lost pr) (remote_ping pr) (is_sent pr).
Definition with_sent (pr : PingResult) (b : bool) : PingResult :=
  mkPingResult (last_time pr) (local_lost pr) (local_ping pr) (remote_lost pr) (remote_ping pr) b.

(** [CONDITION]: the quality of the route to the server. *)
Record Condition : Type := mkCondition { ping : Z; lost : Z }.

Definition CONDITION : Condition := mkCondition 200 5.

(** ** The check routine *)

(** [do_check]: what the probes answered, a hundred at most. *)
Definition do_check (ip : IpAddr) (outcomes : list (option Z)) : IpAddr * Z * Z :=
  let '(received, avg_cost) := foldl check_one (0, 0) (take 100 outcomes) in
  (ip, wrap 16 avg_cost, wrap 8 (100 - received)).

(** ** The server check: the average over the last rounds *)

Section CheckServer.
(** [HeapRb::push_overwrite] on a buffer of the given capacity, oldest first. *)
Context (push_overwrite : nat → list Condition → Condition → list Condition).

(** One round of [check_server], once the host name has resolved. *)
Definition check_server_round (size : nat) (rb : list Condition) (outcomes : list (option Z))
  : option (list Condition * Condition) :=
  let '(received, avg_cost) := foldl check_one (0, 0) (take 100 outcomes) in
  let rb := push_overwrite size rb (mkCondition (wrap 16 avg_cost) (wrap 8 (100 - received))) in
  let total_ping := foldl (λ t c, wrap 64 (t + ping c)) 0 rb in
  let total_lost := foldl (λ t c, wrap 64 (t + lost c)) 0 rb in
  let len := Z.of_nat (length rb) in
  if len =? 0 then None
  else Some (rb, mkCondition (wrap 16 (total_ping / len)) (wrap 8 (total_lost / len))).

(** The capacity of the buffer. *)
Definition check_server_size (timeout ip_timeout : Z) : nat := Z.to_nat (ip_timeout / timeout + 1).
End CheckServer.

Section NetProfiler.
Context {E : Env} {GB : GroupBy} (OPTIONS : Opts).

(** The pool with what its methods are passed. *)
Abbreviation Pool := (IdlePool.t E * OS * DnsResolver)%type.

(** [enabled] is that [check_sender], [resp_receiver] and [ipset_sender] are
    [Some]; [routine_open] and [ipset_open] that their other ends live. *)
Record t : Type := mk {
  set : gmap IpAddr PingResult;
  enabled : bool;
  requests : list IpAddr;
  routine_open : bool;
  responses : list (IpAddr * Z * Z);
  ipset : list (IpAddr * bool);
  ipset_open : bool;
  conn : option (TlsConn E);
  send_buffer : bytes;
  recv_buffer : bytes;
  timeout : Z;
  ping_threshold : Z;
  next_check : Z
}.

Definition with_set (s : t) (m : gmap IpAddr PingResult) : t :=
  mk m (enabled s) (requests s) (routine_open s) (responses s) (ipset s) (ipset_open s)
    (conn s) (send_buffer s) (recv_buffer s) (timeout s) (ping_threshold s) (next_check s).
Definition with_requests (s : t) (l : list IpAddr) : t :=
  mk (set s) (enabled s) l (routine_open s) (responses s) (ipset s) (ipset_open s)
    (conn s) (send_buffer s) (recv_buffer s) (timeout s) (ping_threshold s) (next_check s).
Definition with_responses (s : t) (l : list (IpAddr * Z * Z)) : t :=
  mk (set s) (enabled s) (requests s) (routine_open s) l (ipset s) (ipset_open s)
    (conn s) (send_buffer s) (recv_buffer s) (timeout s) (ping_threshold s) (next_check s).
Definition with_ipset (s : t) (l : list (IpAddr * bool)) : t :=
  mk (set s) (enabled s) (requests s) (routine_open s) (responses s) l (ipset_open s)
    (conn s) (send_buffer s) (recv_buffer s) (timeout s) (ping_threshold s) (next_check s).
Definition with_conn (s : t) (c : option (TlsConn E)) : t :=
  mk (set s) (enabled s) (requests s) (routine_open s) (responses s) (ipset s) (ipset_open s)
    c (send_buffer s) (recv_buffer s) (timeout s) (ping_threshold s) (next_check s).
Definition with_send (s : t) (b : bytes) : t :=
  mk (set s) (enabled s) (requests s) (routine_open s) (responses s) (ipset s) (ipset_open s)
    (conn s) b (recv_buffer s) (timeout s) (ping_threshold s) (next_check s).
Definition with_recv (s : t) (b : bytes) : t :=
  mk (set s) (enabled s) (requests s) (routine_open s) (responses s) (ipset s) (ipset_open s)
    (conn s) (send_buffer s) b (timeout s) (ping_threshold s) (next_check s).
Definition with_next (s : t) (n : Z) : t :=
  mk (set s) (enabled s) (requests s) (routine_open s) (responses s) (ipset s) (ipset_open s)
    (conn s) (send_buffer s) (recv_buffer s) (timeout s) (ping_threshold s) n.

(** [new], and what it leaves in [CONDITION]. *)
Definition new (now : Z) (enable : bool) (timeout_secs local_threshold : Z) (cond : Condition)
  : t * Condition :=
  (mk ∅ enable [] true [] [] true None [] [] (secs timeout_secs) local_threshold
     (now + secs timeout_secs),
   if enable then mkCondition 200 3 else cond).

(** [set.get_mut]: an entry that is not there is logged. *)
Definition update_entry (s : t) (ip : IpAddr) (f : PingResult → PingResult) : t :=
  match set s !! ip with
  | Some pr => with_set s (<[ip := f pr]> (set s))
  | None => s
  end.

(** One message of [start_request]: [nobypass] is what [session.test] answers.
    [client.pinger] runs until [finish_check]. *)
Definition request_step (nobypass : IpAddr → bool) (s : t) (checks : list IpAddr)
  : t * list IpAddr :=
  match requests s with
  | [] => (s, checks)
  | ip :: rest =>
      let s := with_requests s rest in
      if nobypass ip then (with_responses s (responses s ++ [(ip, u16_MAX, u8_MAX)]), checks)
      else (s, checks ++ [ip])
  end.

Definition finish_check (s : t) (checks : list IpAddr) (i : nat) (outcomes : list (option Z))
  : t * list IpAddr :=
  match checks !! i with
  | Some ip => (with_responses s (responses s ++ [do_check ip outcomes]), delete i checks)
  | None => (s, checks)
  end.

(** ** The connection to the server *)

Definition ping_request : bytes :=
  TrojanRequest.generate OPTIONS PING (mkSocketAddr (V4 [0; 0; 0; 0]) 0).

Definition initialize (s : t) (st : Pool) : bool * t * Pool :=
  if negb (enabled s) then (true, s, st)
  else
    match IdlePool.get st with
    | (Some c, st) =>
        let '(ok, c) := reset_index c 0 PINGER in
        if (ok : bool) then
          let '(ok, c) := write_session c ping_request in
          if (ok : bool) then (true, with_conn s (Some c), st) else (false, s, st)
        else (false, s, st)
    | (None, st) => (false, s, st)
    end.

(** The connection that goes away is shut down and dropped. *)
Definition reset (s : t) (st : Pool) : t * Pool :=
  let '(_, s, st) := initialize (with_conn s None) st in (s, st).

(** ** Results from the server *)

Definition record_remote (s : t) (ip : IpAddr) (ping lost : Z) : t :=
  update_entry s ip (λ pr, mkPingResult (last_time pr) (local_lost pr) (local_ping pr)
    (Z.min lost (u8_MAX - 1)) (Z.min ping (u16_MAX - 1)) (is_sent pr)).

(** One record of [decode] with [n] octets of address: [None] is a panic, and
    [Some None] that the record has not fully arrived. *)
Definition decode_record (n : nat) (make : bytes → IpAddr) (s : t) : option (option t) :=
  if (length (recv_buffer s) <? n + 4)%nat then Some None
  else
    octets ← (recv_buffer s).[between 1%nat & n + 1];
    rest ← (recv_buffer s).[from n + 1];
    hi ← rest.[0%nat]; lo ← rest.[1%nat]; lost ← rest.[2%nat];
    rest ← rest.[from 3%nat];
    Some (Some (record_remote (with_recv s rest) (make octets) (Z.lor (Z.shiftl hi 8) lo) lost)).

Fixpoint decode_loop (fuel : nat) (s : t) : option t :=
  match fuel with
  | O => None
  | S fuel =>
      match recv_buffer s with
      | [] => Some s
      | atyp :: _ =>
          r ← (if atyp =? IPV4 then decode_record 4 V4 s
               else if atyp =? IPV6 then decode_record 16 V6 s
               else None);
          match r with
          | Some s => decode_loop fuel s
          | None => Some s
          end
      end
  end.

(** Each iteration takes a record off the buffer. *)
Definition decode (s : t) : option t := decode_loop (S (length (recv_buffer s))) s.

Definition receive (s : t) (data : bytes) : option t := decode (with_recv s (recv_buffer s ++ data)).

(** The two halves of [ready] on the connection. *)
Definition ready_readable (fuel : nat) (s : t) (c : TlsConn E) : option t :=
  '(data, c) ← do_read fuel c;
  let s := with_conn s (Some c) in
  match data with
  | Some data => receive s data
  | None => Some s
  end.

Definition ready_writable (fuel : nat) (s : t) (c : TlsConn E) : option t :=
  let data := send_buffer s in
  let s := with_send s [] in
  let c := if decide (data = []) then c else (write_session c data).2 in
  c ← do_send fuel (established c);
  Some (with_conn s (Some c)).

Definition ready (fuel : nat) (event : Event) (s : t) (st : Pool)
  : option (t * Pool) :=
  match conn s with
  | None => Some (s, st)
  | Some c =>
      s ← (if is_readable event then ready_readable fuel s c else Some s);
      s ← (if is_writable event then c ← conn s; ready_writable fuel s c else Some s);
      Some (match conn s with
            | Some c => if is_shutdown c then reset s st else (s, st)
            | None => (s, st)
            end)
  end.

(** ** Requests *)

Definition send_remote_ip (fuel : nat) (s : t) (ip : IpAddr) : option t :=
  let s := with_send s (send_buffer s ++ match ip with
                                         | V4 o => IPV4 :: o
                                         | V6 o => IPV6 :: o
                                         end) in
  match conn s with
  | Some c =>
      let '(ok, c) := write_session c (send_buffer s) in
      let s := with_send s [] in
      c ← (if (ok : bool) then do_send fuel c else Some c);
      Some (with_conn s (Some c))
  | None => Some s
  end.

(** Whether [check] passes over an entry. *)
Definition is_recent (now : Z) (s : t) (ip : IpAddr) : bool :=
  match set s !! ip with
  | Some pr => is_no_bypass pr || (since now (last_time pr) <? timeout s)
  | None => false
  end.

Definition check (fuel : nat) (now : Z) (s : t) (ip : IpAddr) : option t :=
  if negb (enabled s) then Some s
  else if is_recent now s ip then Some s
  else
    s ← send_remote_ip fuel s ip;
    Some (if routine_open s then
            let s := with_requests s (requests s ++ [ip]) in
            let pr := default (ping_result_default now) (set s !! ip) in
            with_set s (<[ip := with_sent (with_time pr now) false]> (set s))
          else s).

(** ** Decisions *)

(** Messages of the check routine. *)
Definition record_local (s : t) (msg : IpAddr * Z * Z) : t :=
  let '(ip, ping, lost) := msg in
  update_entry s ip (λ pr, mkPingResult (last_time pr) (Z.min lost (u8_MAX - 1))
    (Z.min ping (u16_MAX - 1)) (remote_lost pr) (remote_ping pr) (is_sent pr)).

Definition drain (s : t) : t := with_responses (foldl record_local s (responses s)) [].

(** 2: already sent; 1: should send; 0: not complete. *)
Definition group_key (pr : PingResult) : Z :=
  if is_complete pr then if is_sent pr || is_no_bypass pr then 2 else 1 else 0.

(** Whether an incomplete entry is asked for again. *)
Definition is_overdue (now : Z) (pr : PingResult) : bool :=
  negb (is_no_bypass pr) && (100 <? as_secs (since now (last_time pr))).

(** One group: [ips1] and [ips0] are overwritten. *)
Definition collect_step (now : Z) (acc : list IpAddr * list IpAddr) (kg : Z * list (IpAddr * PingResult))
  : list IpAddr * list IpAddr :=
  let '(ips1, ips0) := acc in
  let '(key, group) := kg in
  if key =? 1 then (group.*1, ips0)
  else if key =? 0 then (ips1, (filter (λ e, is_overdue now e.2 = true) group).*1)
  else (ips1, ips0).

(** [ips1] and [ips0] after the loop over the groups. *)
Definition collect (now : Z) (entries : list (IpAddr * PingResult)) : list IpAddr * list IpAddr :=
  foldl (collect_step now) ([], []) (group_by (λ e, group_key e.2) entries).

Definition proxy_lost (cond_lost remote_lost : Z) : Z :=
  wrap 8 (100 - f32_as_u8 (f32_div (f32_mul (f32_sub (f32_of_Z 100) (f32_of_Z cond_lost))
                                      (f32_sub (f32_of_Z 100) (f32_of_Z remote_lost)))
                             (f32_of_Z 100))).

Definition should_bypass (s : t) (cond : Condition) (pr : PingResult) : bool :=
  let proxy_ping := wrap 16 (ping cond + remote_ping pr) in
  let proxy_lost := proxy_lost (lost cond) (remote_lost pr) in
  if (remote_ping pr <? ping_threshold s) && (local_ping pr <? ping_threshold s) then false
  else (local_ping pr <? wrap 16 (proxy_ping + 5)) && (local_lost pr <? wrap 8 (proxy_lost + 2)).

(** One address of [ips1]: the result is sent to the ipset routine, if it
    still listens.  [None] is the [unwrap] of an entry that is not there. *)
Definition publish (cond : Condition) (s : t) (ip : IpAddr) : option t :=
  pr ← set s !! ip;
  let s := with_set s (<[ip := with_sent pr true]> (set s)) in
  Some (if ipset_open s then with_ipset s (ipset s ++ [(ip, should_bypass s cond pr)]) else s).

(** One address of [ips0]: asked for again. *)
Definition ask_again (fuel : nat) (now : Z) (s : t) (ip : IpAddr) : option t :=
  s ← send_remote_ip fuel s ip;
  pr ← set s !! ip;
  Some (with_set s (<[ip := with_time pr now]> (set s))).

(** The last part of [update]: the entries that are due, and the next time. *)
Definition due_step (s : t) (acc : Z * list IpAddr) (e : IpAddr * PingResult) : Z * list IpAddr :=
  let '(next, ips) := acc in
  if is_no_bypass e.2 then (next, ips)
  else
    let due_time := last_time e.2 + timeout s in
    if due_time <=? next_check s then (next, ips ++ [e.1])
    else if due_time <? next then (due_time, ips)
    else (next, ips).

Definition recheck (fuel : nat) (now : Z) (s : t) : option t :=
  if next_check s <? now then
    let '(next, ips) := foldl (due_step s) (now + timeout s, []) (map_to_list (set s)) in
    foldl (λ s ip, s ← s; check fuel now s ip) (Some (with_next s next)) ips
  else Some s.

(** [cond] is what [CONDITION] holds, [None] when its lock is poisoned. *)
Definition update (fuel : nat) (now : Z) (cond : option Condition) (s : t) : option t :=
  if negb (enabled s) then Some s
  else
    let s := drain s in
    match cond with
    | None => Some s
    | Some cond =>
        let '(ips1, ips0) := collect now (map_to_list (set s)) in
        s ← foldl (λ s ip, s ← s; ask_again fuel now s ip) (Some s) ips0;
        s ← foldl (λ s ip, s ← s; publish cond s ip) (Some s) ips1;
        recheck fuel now s
    end.

(** ** Reassembly of the server's results *)

Definition wf_report (pr : Report) : Prop :=
  wf_ip (pr_ip pr) ∧ 0 <= pr_ping pr < 65536 ∧ 0 <= pr_lost pr < 256.

Definition apply_report (s : t) (pr : Report) : t :=
  record_remote s (pr_ip pr) (pr_ping pr) (pr_lost pr).

Abbreviation report_bytes := PingBackend.result_bytes.
Abbreviation encode := (Framing.encode report_bytes).
Abbreviation partial := (Framing.partial report_bytes wf_report).

Lemma report_shape pr : wf_report pr →
  ∃ k r, report_bytes pr = k :: r
    ∧ (k = IPV4 ∧ length r = 7%nat ∨ k = IPV6 ∧ length r = 19%nat).
Proof.
  intros Hwf. destruct pr as [tm [o|o] ls pg], Hwf as [[Hlen _] _]; simpl in Hlen;
    eexists _, _; (split; [reflexivity|]); [left|right]; (split; [done|]);
    rewrite !length_app, Hlen; done.
Qed.

Lemma partial_report p :
  partial p → p = [] ∨ (∃ rest, p = IPV4 :: rest ∧ (length p < 8)%nat)
    ∨ (∃ rest, p = IPV6 :: rest ∧ (length p < 20)%nat).
Proof.
  intros [->|(pr & (k & r & Hk & Hl)%report_shape & [q Hq] & Hne)]; [by left|].
  rewrite Hk in Hq, Hne. destruct p as [|k' p]; [by left|right].
  injection Hq as <- Hr. assert (length q ≠ 0%nat).
  { intros ->%nil_length_inv. rewrite app_nil_r in Hr. congruence. }
  rewrite Hr, length_app in Hl.
  destruct Hl as [[-> Hl]|[-> Hl]]; [left|right]; exists p; (split; [done|simpl; lia]).
Qed.

Lemma report_complete pr q : wf_report pr → ¬ partial (report_bytes pr ++ q).
Proof.
  intros (k & r & -> & Hl)%report_shape Hp%partial_report. simpl in Hp. rewrite length_app in Hp.
  destruct Hl as [[-> Hl]|[-> Hl]], Hp as [?|[(r' & [= ] & ?)|(r' & [= ] & ?)]]; try done; lia.
Qed.

Lemma decode_loop_partial fuel s : partial (recv_buffer s) → decode_loop (S fuel) s = Some s.
Proof.
  intros Hp. cbn [decode_loop].
  destruct (partial_report _ Hp) as [-> |[(r & Hr & Hl)|(r & Hr & Hl)]]; [done|..];
    rewrite Hr; unfold decode_record; rewrite Hr in *; simpl in *; by nat_leb.
Qed.

Lemma decode_record_ok n make s o pr rest :
  length o = n → 0 <= pr_ping pr < 65536 →
  recv_buffer s = IPV4 :: o ++ u16_be (pr_ping pr) ++ pr_lost pr :: rest
  ∨ recv_buffer s = IPV6 :: o ++ u16_be (pr_ping pr) ++ pr_lost pr :: rest →
  decode_record n make s =
    Some (Some (record_remote (with_recv s rest) (make o) (pr_ping pr) (pr_lost pr))).
Proof.
  intros Ho Hping Hb. unfold decode_record.
  assert (∃ k, recv_buffer s = k :: o ++ u16_be (pr_ping pr) ++ pr_lost pr :: rest) as [k ->]
    by (destruct Hb as [-> | ->]; eauto).
  rewrite u16_be_div_mod. cbn [length app]. rewrite length_app. cbn [length]. nat_leb.
  rewrite slice_le by (simpl; rewrite length_app; simpl; lia).
  rewrite slice_from_le by (simpl; rewrite length_app; lia). cbn [mbind option_bind].
  rewrite Nat.add_1_r, !skipn_cons, drop_0, Nat.sub_succ, Nat.sub_0_r.
  rewrite take_app_length', drop_app_length' by done.
  change ((?a :: ?b :: ?c :: ?l).[0%nat]) with (Some a).
  change ((?a :: ?b :: ?c :: ?l).[1%nat]) with (Some b).
  change ((?a :: ?b :: ?c :: ?l).[2%nat]) with (Some c).
  cbn [mbind option_bind]. rewrite slice_from_le by (simpl; lia). cbn [mbind option_bind drop].
  rewrite lor_shiftl_8 by (apply Z.mod_pos_bound; lia).
  rewrite Z.mul_comm, <-Z.div_mod by lia. done.
Qed.

Lemma decode_loop_report fuel s pr rest :
  wf_report pr → recv_buffer s = report_bytes pr ++ rest →
  decode_loop (S fuel) s = decode_loop fuel (apply_report (with_recv s rest) pr).
Proof.
  intros Hwf Hb. unfold apply_report. cbn [decode_loop].
  destruct pr as [tm [o|o] ls pg] eqn:Hpr, Hwf as [[Hlen _] [Hping _]];
    unfold PingBackend.result_bytes in Hb; cbn [pr_ip pr_ping pr_lost app] in *;
    rewrite <-!app_assoc in Hb; cbn [app] in Hb; rewrite Hb.
  - rewrite (decode_record_ok 4 V4 s o pr rest) by (subst; auto). by subst.
  - rewrite (decode_record_ok 16 V6 s o pr rest) by (subst; auto). by subst.
Qed.

(** The buffer does not matter to what a record does. *)
Lemma apply_reports_recv s prs b p :
  with_recv (foldl apply_report (with_recv s b) prs) p = with_recv (foldl apply_report s prs) p.
Proof.
  revert s. induction prs as [|pr prs IH]; intros s; [done|]. cbn [foldl].
  assert (apply_report (with_recv s b) pr = with_recv (apply_report s pr) b) as ->; [|apply IH].
  unfold apply_report, record_remote, update_entry. simpl. by destruct (set s !! pr_ip pr).
Qed.

Lemma decode_loop_reports fuel s prs p :
  Forall wf_report prs → partial p → recv_buffer s = encode prs ++ p →
  (length (encode prs ++ p) < fuel)%nat →
  decode_loop fuel s = Some (with_recv (foldl apply_report s prs) p).
Proof.
  intros Hprs Hp. revert fuel s.
  induction Hprs as [|pr prs Hpr Hprs IH]; intros fuel s Hb Hf; (destruct fuel as [|fuel]; [lia|]).
  - simpl in Hb. rewrite decode_loop_partial by (by rewrite Hb).
    cbn [foldl]. rewrite <-Hb. by destruct s.
  - rewrite encode_cons, <-app_assoc in Hb, Hf.
    rewrite (decode_loop_report fuel s pr (encode prs ++ p)) by done.
    rewrite IH.
    + f_equal. exact (apply_reports_recv s (pr :: prs) _ p).
    + unfold apply_report, record_remote, update_entry. simpl. by destruct (set s !! pr_ip pr).
    + destruct (report_shape pr Hpr) as (k & r & Hk & _). rewrite Hk in Hf. simpl in Hf.
      rewrite (length_app r) in Hf. lia.
Qed.

(** The profiler reassembles the server's results: however the stream of
    results that the server's ping backend writes is cut into reads, every
    result that has fully arrived is recorded once and in order, the incomplete
    rest is kept, and nothing panics. *)
Theorem decode_reassembles s chunks prs p :
  Forall wf_report prs → partial p → mjoin chunks = encode prs ++ p → recv_buffer s = [] →
  feed_all receive s chunks = Some (with_recv (foldl apply_report s prs) p).
Proof.
  intros Hprs Hp Heq Hb.
  destruct (feed_all_ok report_bytes wf_report receive
    (λ done p s', s' = with_recv (foldl apply_report s done) p) report_complete)
    with (done := @nil Report) (p0 := @nil Z) (s := s) (chunks := chunks) (xs := prs) (p := p)
    as (s' & -> & ->); try done.
  - intros done p0 s1 chunk xs p1 -> Hxs Hp1 Hch. eexists. split; [|done].
    unfold receive, decode. rewrite (decode_loop_reports _ _ xs p1); try done.
    + rewrite foldl_app. f_equal. change (with_recv (with_recv ?s0 _) ?b) with (with_recv s0 b).
      apply apply_reports_recv.
    + simpl. rewrite Hch. lia.
  - simpl. rewrite <-Hb. by destruct s.
  - by left.
Qed.

(** A record behind a stray tag is read one byte early. *)
Lemma decode_shifted s pr o :
  wf_report pr → pr_ip pr = V4 o → pr_lost pr ≠ IPV4 → pr_lost pr ≠ IPV6 →
  decode (with_recv s ([IPV4] ++ report_bytes pr)) = None.
Proof.
  destruct pr as [tm ip ls pg]. simpl. intros Hwf -> H1 H2. destruct Hwf as ((Hlen & Ho) & Hpg & Hls). simpl in *.
  destruct o as [|o0 [|o1 [|o2 [|o3 [|]]]]]; try done.
  set (pr' := mkReport 0 (V4 [IPV4; o0; o1; o2]) (pg mod 256) (o3 * 256 + pg / 256)).
  assert (0 <= pg / 256 < 256) by (split; [apply Z.div_pos; lia|apply Z.div_lt_upper_bound; lia]).
  repeat (apply Forall_cons in Ho as [? Ho]).
  assert (wf_report pr') as Hwf'.
  { refine (conj (conj eq_refl _) (conj _ _)); simpl; [|lia|apply Z.mod_pos_bound; lia].
    repeat (apply Forall_cons_2; [done|]). by apply Forall_nil_2. }
  unfold decode. set (s1 := with_recv s _).
  assert (recv_buffer s1 = report_bytes pr' ++ [ls]) as Hb.
  { unfold s1, PingBackend.result_bytes. cbn -[u16_be Z.mul Z.div Z.modulo Z.add].
    rewrite !u16_be_div_mod, Z.div_add_l, (Z.div_small (pg / 256)), Z.add_0_r by lia.
    by rewrite (Z.add_comm (o3 * 256)), Z.mod_add, (Z.mod_small (pg / 256)) by lia. }
  rewrite Hb at 1. generalize (length (report_bytes pr' ++ [ls])) as n. intros n.
  rewrite (decode_loop_report n s1 pr' [ls] Hwf' Hb).
  assert (recv_buffer (apply_report (with_recv s1 [ls]) pr') = [ls]) as Hb2.
  { unfold apply_report, record_remote, update_entry. by destruct (set (with_recv s1 [ls]) !! _). }
  destruct n as [|n]; [done|]. cbn [decode_loop]. rewrite Hb2.
  by rewrite (proj2 (Z.eqb_neq ls IPV4)), (proj2 (Z.eqb_neq ls IPV6)).
Qed.

(** [reset] keeps the fragment of a record that the old connection left
    behind, so after one stray byte the first IPv4 result on the new
    connection - unless its loss happens to be 1 or 4 - panics the proxy. *)
Theorem reset_keeps_fragment s st pr o :
  recv_buffer s = [IPV4] → wf_report pr → pr_ip pr = V4 o →
  pr_lost pr ≠ IPV4 → pr_lost pr ≠ IPV6 →
  receive (reset s st).1 (report_bytes pr) = None.
Proof.
  intros Hb Hwf Ho H1 H2. unfold reset.
  assert (∀ b s' st', initialize (with_conn s None) st = (b, s', st') → recv_buffer s' = [IPV4]) as Hi.
  { intros b s' st'. unfold initialize. destruct (negb _); [by intros [= _ <- _]|].
    destruct (IdlePool.get st) as [[c|] st1]; [|by intros [= _ <- _]].
    destruct (reset_index c 0 PINGER) as [[] c1]; [|by intros [= _ <- _]].
    destruct (write_session c1 ping_request) as [[] c2]; by intros [= _ <- _]. }
  destruct (initialize (with_conn s None) st) as [[b s1] st1]. specialize (Hi b s1 st1 eq_refl).
  unfold receive. cbn [fst]. rewrite Hi. by apply (decode_shifted _ pr o).
Qed.

(** ** Requests *)

(** A step that only moves the connection and the send buffer. *)
Definition same_but_conn (s s' : t) : Prop :=
  ∃ c b, s' = with_conn (with_send s b) c.

Lemma same_but_conn_refl s : same_but_conn s s.
Proof. exists (conn s), (send_buffer s). by destruct s. Qed.

Context `{!EnvOk E}.

(** The address has been written to the connection, or buffered. *)
Definition asked (s : t) (ip : IpAddr) (s' : t) : Prop :=
  let data := send_buffer s ++ PingBackend.addr_bytes ip in
  match conn s with
  | Some c => ∃ c', conn s' = Some c' ∧ send_buffer s' = []
                ∧ (is_shutdown c' = false → plain c' = plain c ++ data)
  | None => conn s' = None ∧ send_buffer s' = data
  end.

Lemma send_remote_ip_ok s ip :
  terminates (λ fuel, send_remote_ip fuel s ip) (λ s', same_but_conn s s' ∧ asked s ip s').
Proof.
  unfold send_remote_ip, asked, same_but_conn.
  change (match ip with V4 o => IPV4 :: o | V6 o => IPV6 :: o end) with (PingBackend.addr_bytes ip).
  cbn [conn with_send send_buffer]. destruct (conn s) as [c|] eqn:Hc.
  2: { apply terminates_ret. split; [|done].
       exists None, (send_buffer s ++ PingBackend.addr_bytes ip). destruct s; simpl in *. by subst. }
  destruct (write_session c (send_buffer s ++ PingBackend.addr_bytes ip)) as [ok c1] eqn:Hw.
  eapply terminates_bind with (P := λ c', is_shutdown c' = false →
    plain c' = plain c ++ send_buffer s ++ PingBackend.addr_bytes ip).
  - destruct ok.
    + destruct (write_session_true _ _ _ Hw) as (Hp & _).
      eapply terminates_weaken; [apply do_send_terminates|]. intros c2 [Hp2 _ _]. congruence.
    + destruct (write_session_false _ _ _ Hw) as (_ & _ & Hd & _). apply terminates_ret. congruence.
  - intros c2 Hc2. apply terminates_ret. split; [by eexists _, []|]. by exists c2.
Qed.

(** [check] asks for an address exactly when the profiler is enabled and
    the entry is neither exempt nor recent: then the address is written to the
    server's connection in the form its ping backend reads (or buffered while
    there is none), and, if the check routine lives, it is queued for it and
    the entry starts over; otherwise nothing changes. *)
Theorem check_spec now s ip :
  terminates (λ fuel, check fuel now s ip) (λ s',
    if negb (enabled s) || is_recent now s ip then s' = s
    else asked s ip s' ∧ ipset s' = ipset s
      ∧ if routine_open s
        then requests s' = requests s ++ [ip]
          ∧ set s' = <[ip := with_sent (with_time
              (default (ping_result_default now) (set s !! ip)) now) false]> (set s)
        else requests s' = requests s ∧ set s' = set s).
Proof.
  unfold check. destruct (negb (enabled s)); [by apply terminates_ret|].
  destruct (is_recent now s ip); [by apply terminates_ret|]. cbn [orb].
  eapply terminates_bind; [apply send_remote_ip_ok|].
  intros s1 [(c & b & ->) Hs1]. apply terminates_ret. simpl. by destruct (routine_open s).
Qed.

(** Asking again for an address whose measurements are complete makes it
    publishable at once, with the old measurements: [update], which runs in
    the same turn of the main loop, publishes those and marks the entry sent,
    so the measurements asked for are not published when they arrive. *)
Lemma recheck_is_stale now s ip pr :
  enabled s = true → routine_open s = true → set s !! ip = Some pr →
  is_complete pr = true → is_recent now s ip = false →
  terminates (λ fuel, check fuel now s ip) (λ s',
    set s' !! ip = Some (with_sent (with_time pr now) false)
    ∧ group_key (with_sent (with_time pr now) false) = 1).
Proof.
  intros He Ho Hpr Hc Hr. unfold check. rewrite He, Hr. cbn [negb].
  eapply terminates_bind; [apply send_remote_ip_ok|].
  intros s1 [(c & b & ->) _]. apply terminates_ret. simpl. rewrite Ho. simpl.
  rewrite Hpr, lookup_insert_eq. split; [done|].
  unfold is_recent in Hr. rewrite Hpr in Hr. apply orb_false_iff in Hr as [Hr _].
  unfold group_key, is_complete, is_no_bypass in *. simpl. by rewrite Hc, Hr.
Qed.

(** The address is done for this turn: its result is marked as sent, or it has
    been asked for again just now. *)
Definition settled (now : Z) (s : t) (ip : IpAddr) : Prop :=
  ∃ pr, set s !! ip = Some pr ∧ (is_sent pr = true ∨ last_time pr = now).

Lemma check_keeps now s ip :
  terminates (λ fuel, check fuel now s ip) (λ s', ipset s' = ipset s
    ∧ ∀ ip', settled now s ip' → settled now s' ip').
Proof.
  unfold check. destruct (negb (enabled s)); [by apply terminates_ret|].
  destruct (is_recent now s ip); [by apply terminates_ret|].
  eapply terminates_bind; [apply send_remote_ip_ok|].
  intros s1 [(c & b & ->) _]. apply terminates_ret. simpl. destruct (routine_open s); [|done].
  split; [done|]. intros ip' (pr & Hpr & Hs). destruct (decide (ip = ip')) as [<-|Hn].
  - eexists. split; [apply lookup_insert_eq|]. by right.
  - exists pr. split; [|done]. simpl. by rewrite lookup_insert_ne.
Qed.

(** ** Which results are published *)

Abbreviation entry := (IpAddr * PingResult)%type.

Definition publishable (e : entry) : Prop := group_key e.2 = 1.

(** Each component keeps the last group of its key. *)
Definition last_group {B} (key : Z) (f : list entry → B) (gs : list (Z * list entry)) (b : B) : B :=
  foldl (λ b '(k, g), if k =? key then f g else b) b gs.

Lemma last_group_spec {B} key (f : list entry → B) gs b :
  (last_group key f gs b = b ∧ ∀ g, (key, g) ∉ gs)
  ∨ ∃ g, (key, g) ∈ gs ∧ last_group key f gs b = f g.
Proof.
  revert b. induction gs as [|[k g] gs IH]; intros b.
  { left. split; [done|]. intros g. apply not_elem_of_nil. }
  unfold last_group. cbn [foldl]. destruct (Z.eqb_spec k key) as [->|Hk].
  - right. destruct (IH (f g)) as [[H _]|(g' & Hg & H)].
    + exists g. split; [apply list_elem_of_here|exact H].
    + exists g'. split; [by apply list_elem_of_further|exact H].
  - destruct (IH b) as [[H Hn]|(g' & Hg & H)].
    + left. split; [exact H|]. intros g' [[= ? ?]|Hg]%elem_of_cons; [congruence|by apply (Hn g')].
    + right. exists g'. split; [by apply list_elem_of_further|exact H].
Qed.

Lemma collect_loop now gs acc :
  foldl (collect_step now) acc gs =
    (last_group 1 (λ g, g.*1) gs acc.1,
     last_group 0 (λ g, (filter (λ e, is_overdue now e.2 = true) g).*1) gs acc.2).
Proof.
  revert acc. induction gs as [|[k g] gs IH]; intros [i1 i0]; [done|]. cbn [foldl]. rewrite IH.
  unfold last_group. cbn [foldl collect_step].
  destruct (Z.eqb_spec k 1) as [->|Hk1]; [done|]. by destruct (k =? 0).
Qed.

Lemma group_sublist (key : entry → Z) entries k g :
  (k, g) ∈ group_by key entries → g `sublist_of` entries.
Proof.
  intros Hg. rewrite <-(group_by_join key entries). revert Hg.
  induction (group_by key entries) as [|[k' g'] gs IH]; [by intros ?%elem_of_nil|].
  intros [[= -> ->]|Hg]%elem_of_cons; cbn [fmap list_fmap mjoin list_join snd].
  - by apply sublist_inserts_r.
  - by apply sublist_inserts_l, IH.
Qed.

Lemma collect_spec now entries ips1 ips0 :
  NoDup entries.*1 → collect now entries = (ips1, ips0) →
  NoDup ips1
  ∧ (∀ ip, ip ∈ ips1 → ∃ pr, (ip, pr) ∈ entries ∧ group_key pr = 1)
  ∧ (∀ ip, ip ∈ ips0 → ∃ pr, (ip, pr) ∈ entries ∧ group_key pr = 0)
  ∧ ((∃ e, e ∈ entries ∧ publishable e) → ips1 ≠ []).
Proof.
  intros Hnd Hc. set (gs := group_by (λ e, group_key e.2) entries).
  pose proof (collect_loop now gs ([], [])) as Hl.
  change (foldl (collect_step now) ([], []) gs) with (collect now entries) in Hl.
  rewrite Hc in Hl. cbn [fst snd] in Hl. injection Hl as Hl1 Hl0.
  pose proof (last_group_spec 1 (λ g, g.*1) gs []) as H1. rewrite <-Hl1 in H1.
  pose proof (last_group_spec 0 (λ g, (filter (λ e, is_overdue now e.2 = true) g).*1) gs []) as H0.
  rewrite <-Hl0 in H0.
  assert (∀ k g ip, (k, g) ∈ gs → ip ∈ g.*1 → ∃ pr, (ip, pr) ∈ entries ∧ group_key pr = k) as Hin.
  { intros k g ip Hg ([ip' pr] & -> & Hip)%list_elem_of_fmap. exists pr. split.
    - eapply elem_of_sublist; [exact Hip|]. by eapply group_sublist.
    - apply group_by_group in Hg as [_ Hf]. rewrite Forall_forall in Hf. exact (Hf _ Hip). }
  split_and!.
  - destruct H1 as [[-> _]|(g & Hg & ->)]; [constructor|].
    eapply sublist_NoDup; [exact Hnd|]. by eapply fmap_sublist, group_sublist.
  - intros ip Hip. destruct H1 as [[-> _]|(g & Hg & ->)]; [by apply elem_of_nil in Hip|].
    by eapply Hin.
  - intros ip Hip. destruct H0 as [[-> _]|(g & Hg & ->)]; [by apply elem_of_nil in Hip|].
    apply list_elem_of_fmap in Hip as (e & -> & [_ He]%list_elem_of_filter).
    eapply Hin; [done|]. by apply list_elem_of_fmap_2.
  - intros (e & He & Hk). destruct H1 as [[-> Hn]|(g & Hg & ->)].
    + exfalso. rewrite <-(group_by_join (λ e, group_key e.2) entries) in He.
      apply list_elem_of_join in He as (g & He & ([k g'] & -> & Hg)%list_elem_of_fmap).
      pose proof (group_by_group _ _ _ _ Hg) as [_ Hf].
      rewrite Forall_forall in Hf. specialize (Hf _ He). cbn in Hf. apply (Hn g'). unfold publishable in Hk.
      rewrite Hk in Hf. by subst.
    + apply group_by_group in Hg as [Hne _]. by destruct g.
Qed.

(** The verdict on an address. *)
Definition verdict (s : t) (cond : Condition) (ip : IpAddr) : bool :=
  match set s !! ip with
  | Some pr => should_bypass s cond pr
  | None => false
  end.

Lemma publish_all cond ips s :
  ipset_open s = true → NoDup ips → (∀ ip, ip ∈ ips → is_Some (set s !! ip)) →
  ∃ s', foldl (λ s ip, s ← s; publish cond s ip) (Some s) ips = Some s'
    ∧ ipset s' = ipset s ++ ((λ ip, (ip, verdict s cond ip)) <$> ips)
    ∧ ∀ ip, set s' !! ip = if decide (ip ∈ ips) then (λ pr, with_sent pr true) <$> set s !! ip
                           else set s !! ip.
Proof.
  revert s. induction ips as [|ip ips IH]; intros s Ho Hnd Hin.
  { exists s. rewrite app_nil_r. split_and!; [done..|]. intros ip.
    by rewrite decide_False by apply not_elem_of_nil. }
  apply NoDup_cons in Hnd as [Hni Hnd]. destruct (Hin ip) as [pr Hpr]; [apply list_elem_of_here|].
  cbn [foldl mbind option_bind]. unfold publish at 2. rewrite Hpr. cbn [mbind option_bind].
  cbn [ipset_open with_set]. rewrite Ho.
  match goal with |- context [foldl _ (Some ?x) ips] => set (s1 := x) end.
  assert (∀ ip', ip' ≠ ip → set s1 !! ip' = set s !! ip') as Hs1.
  { intros ip' Hip'. simpl. by apply lookup_insert_ne. }
  destruct (IH s1) as (s' & Hs' & Hi & Hm); [done|done| |].
  { intros ip' Hip'. rewrite Hs1 by (by intros ->). by apply Hin, list_elem_of_further. }
  exists s'. split_and!; [exact Hs'| |].
  - rewrite Hi. cbn [ipset with_ipset s1 fmap list_fmap].
    rewrite <-app_assoc. cbn [app]. do 2 f_equal.
    + unfold verdict. by rewrite Hpr.
    + apply list_fmap_ext. intros i ip' Hip'%list_elem_of_lookup_2. unfold verdict.
      rewrite Hs1; [done|]. by intros ->.
  - intros ip'. rewrite Hm. destruct (decide (ip' = ip)) as [->|Hn].
    + rewrite decide_False, decide_True by (done || apply list_elem_of_here).
      rewrite Hpr. apply lookup_insert_eq.
    + rewrite Hs1 by done. apply decide_ext. rewrite elem_of_cons. naive_solver.
Qed.

Lemma drain_frame s :
  ipset (drain s) = ipset s ∧ ipset_open (drain s) = ipset_open s.
Proof.
  assert (∀ msgs s, ipset (foldl record_local s msgs) = ipset s
    ∧ ipset_open (foldl record_local s msgs) = ipset_open s) as H; [|apply (H (responses s) s)].
  clear. induction msgs as [|[[ip p] l] msgs IH]; intros s; [done|]. cbn [foldl].
  destruct (IH (record_local s (ip, p, l))) as [-> ->].
  unfold record_local, update_entry. by destruct (set s !! ip).
Qed.

(** What asking again for the addresses [ips] keeps of [s], of which the
    addresses [kept] are none. *)
Record asked_again (kept : list IpAddr) (s s' : t) : Prop := {
  aa_some : ∀ ip, is_Some (set s !! ip) → is_Some (set s' !! ip);
  aa_kept : ∀ ip, ip ∈ kept → set s' !! ip = set s !! ip;
  aa_ipset : ipset s' = ipset s;
  aa_open : ipset_open s' = ipset_open s;
  aa_threshold : ping_threshold s' = ping_threshold s
}.

Lemma ask_again_all now kept ips s :
  (∀ ip, ip ∈ ips → is_Some (set s !! ip) ∧ ip ∉ kept) →
  terminates (λ fuel, foldl (λ s ip, s ← s; ask_again fuel now s ip) (Some s) ips)
    (asked_again kept s).
Proof.
  intros Hips. apply terminates_foldl; [|by split].
  intros s1 ip Hip [H1 H2 H3 H4 H5]. destruct (Hips ip Hip) as [Hsome Hne].
  unfold ask_again. eapply terminates_bind; [apply send_remote_ip_ok|].
  intros s2 [(c & b & ->) _]. cbn [set with_conn with_send].
  destruct (H1 ip Hsome) as [pr ->]. apply terminates_ret. split; try done; simpl.
  - intros ip' Hip'. destruct (decide (ip = ip')) as [->|Hn].
    + rewrite lookup_insert_eq. by eexists.
    + rewrite lookup_insert_ne by done. by apply H1.
  - intros ip' Hip'. rewrite lookup_insert_ne by (by intros ->). by apply H2.
Qed.

Lemma recheck_keeps now s :
  terminates (λ fuel, recheck fuel now s) (λ s', ipset s' = ipset s
    ∧ ∀ ip, settled now s ip → settled now s' ip).
Proof.
  unfold recheck. destruct (next_check s <? now); [|by apply terminates_ret].
  destruct (foldl (due_step s) _ _) as [next ips].
  apply (terminates_foldl (λ fuel s ip, check fuel now s ip)
    (λ s', ipset s' = ipset s ∧ ∀ ip, settled now s ip → settled now s' ip)); [|done].
  intros s1 ip _ [H1 H2]. eapply terminates_weaken; [apply check_keeps|].
  intros s2 [-> H3]. split; [done|]. auto.
Qed.

(** [update] always returns; it publishes verdicts, one per address, only
    for addresses with complete and unpublished measurements, each verdict that
    of [should_bypass] on those measurements, and at least one whenever there
    is such an address; an address it publishes is marked as sent, unless the
    same call already asks for it again. *)
Theorem update_publishes now cond s :
  enabled s = true → ipset_open s = true →
  terminates (λ fuel, update fuel now (Some cond) s) (λ s', ∃ ips,
    NoDup ips
    ∧ ipset s' = ipset s ++ ((λ ip, (ip, verdict (drain s) cond ip)) <$> ips)
    ∧ (∀ ip, ip ∈ ips → ∃ pr, set (drain s) !! ip = Some pr ∧ group_key pr = 1)
    ∧ ((∃ ip pr, set (drain s) !! ip = Some pr ∧ group_key pr = 1) → ips ≠ [])
    ∧ ∀ ip, ip ∈ ips → settled now s' ip).
Proof.
  intros He Ho. unfold update. rewrite He. cbn [negb].
  destruct (drain_frame s) as [Hd1 Hd2]. rewrite <-Hd1. rewrite <-Hd2 in Ho. clear Hd1 Hd2 He.
  generalize dependent (drain s). clear s. intros s Ho.
  destruct (collect now (map_to_list (set s))) as [ips1 ips0] eqn:Hc.
  apply collect_spec in Hc as (Hnd & H1 & H0 & Hne); [|apply NoDup_fst_map_to_list].
  eapply terminates_bind; [apply (ask_again_all now ips1)|].
  { intros ip (pr & Hpr%elem_of_map_to_list & Hk)%H0. split; [by eexists|].
    intros (pr' & Hpr'%elem_of_map_to_list & Hk')%H1. congruence. }
  intros s1 [K1 K2 K3 K4 K5].
  assert (∀ ip, ip ∈ ips1 → ∃ pr, set s !! ip = Some pr ∧ group_key pr = 1) as Hin.
  { intros ip (pr & Hpr%elem_of_map_to_list & Hk)%H1. by exists pr. }
  destruct (publish_all cond ips1 s1) as (s2 & -> & Hi & Hm); [congruence|done| |].
  { intros ip (pr & Hpr & _)%Hin. apply K1. by eexists. }
  eapply terminates_weaken; [apply recheck_keeps|]. intros s3 [-> Hst]. exists ips1.
  split_and!; [done| |done| |].
  - rewrite Hi, K3. f_equal. apply list_fmap_ext. intros i ip Hip%list_elem_of_lookup_2.
    unfold verdict. rewrite K2 by done. destruct (set s !! ip); [|done].
    unfold should_bypass. by rewrite K5.
  - intros (ip & pr & Hpr & Hk). apply Hne. exists (ip, pr). split; [|done].
    by apply elem_of_map_to_list.
  - intros ip Hip. apply Hst. destruct (Hin ip Hip) as (pr & Hpr & _).
    exists (with_sent pr true). split; [|by left]. rewrite Hm, decide_True by done.
    by rewrite K2, Hpr.
Qed.
End NetProfiler.
#[global] Arguments t E : clear implicits.
End NetProfiler.

(** ** Floating point *)

Module ProxyLost.
Definition percents : list Z := seqZ 0 101.
Definition losses : list Z := seqZ 0 255.

(** The loss over the proxy in integers. *)
Definition combined_loss (a b : Z) : Z := 100 - Z.max 0 ((100 - a) * (100 - b) / 100).

Lemma proxy_lost_table :
  forallb (λ a, forallb (λ b, NetProfiler.proxy_lost a b =? combined_loss a b) losses) percents
  = true.
Proof. by vm_compute. Qed.

(** The single-precision computation of the loss over the proxy is exact:
    for every loss of the route to the server in percent and every loss the
    server can have reported it is the integer formula, rounded up, and it is
    a percentage, so that the [u8] arithmetic around it does not wrap. *)
Theorem proxy_lost_exact a b :
  0 <= a <= 100 → 0 <= b <= 254 →
  NetProfiler.proxy_lost a b = combined_loss a b ∧ 0 <= NetProfiler.proxy_lost a b <= 100.
Proof.
  intros Ha Hb. pose proof proxy_lost_table as Ht. rewrite forallb_forall in Ht.
  specialize (Ht a). rewrite forallb_forall in Ht.
  assert (NetProfiler.proxy_lost a b = combined_loss a b) as Heq.
  { apply Z.eqb_eq, Ht; apply list_elem_of_In, elem_of_seqZ; lia. }
  rewrite Heq. split; [done|]. unfold combined_loss.
  assert ((100 - a) * (100 - b) / 100 <= 100) by (apply Z.div_le_upper_bound; nia). lia.
Qed.
End ProxyLost.

Module NetProfilerWitness.
  Import NetProfiler.
#[local] Existing Instance Sim.env.
#[local] Existing Instance Sim.env_ok.

Fixpoint runs {A} (key : A → Z) (l : list A) : list (Z * list A) :=
  match l with
  | [] => []
  | x :: l =>
      match runs key l with
      | (k, g) :: gs => if key x =? k then (k, x :: g) :: gs else (key x, [x]) :: (k, g) :: gs
      | [] => [(key x, [x])]
      end
  end.

#[local] Program Instance consecutive : GroupBy := { group_by := @runs }.
Next Obligation.
  intros A key l. induction l as [|x l IH]; [done|]. simpl. revert IH.
  destruct (runs key l) as [|[k g] gs]; simpl; [by intros <-|].
  intros <-. by destruct (key x =? k).
Qed.
Next Obligation.
  intros A key l. induction l as [|x l IH]; intros k g; simpl; [by intros ?%elem_of_nil|].
  destruct (runs key l) as [|[k' g'] gs].
  { intros [= -> ->]%list_elem_of_singleton. split; [done|]. by constructor. }
  destruct (Z.eqb_spec (key x) k') as [<-|Hk].
  - intros [[= -> ->]|Hg]%elem_of_cons; [|by apply IH, list_elem_of_further].
    split; [done|]. constructor; [done|]. eapply IH, list_elem_of_here.
  - intros [[= -> ->]|Hg]%elem_of_cons; [|by apply IH].
    split; [done|]. by constructor.
Qed.

Definition ip1 : IpAddr := V4 [1; 2; 3; 4].
Definition ip2 : IpAddr := V4 [5; 6; 7; 8].
(** Two addresses measured locally. *)
Definition start : t Sim.env :=
  mk {[ ip1 := mkPingResult 0 2 90 255 65535 false; ip2 := mkPingResult 0 1 300 255 65535 false ]}
    true [] true [] [] true None [] [] (secs 3600) 70 (secs 3600).
Definition report1 : Report := mkReport 0 ip1 0 120.
Definition report2 : Report := mkReport 0 ip2 3 80.

Lemma reports_ok : Forall wf_report [report1; report2].
Proof.
  repeat apply Forall_cons_2; [..|by apply Forall_nil_2];
    (split; [apply (bool_decide_unpack _); by vm_compute|simpl; lia]).
Qed.

Lemma decode_reassembles_witness :
  feed_all receive start [[1; 1]; [2; 3; 4; 0; 120; 0; 1; 5]; [6; 7; 8; 0; 80; 3; 1]]
  = Some (with_recv (foldl apply_report start [report1; report2]) [1]).
Proof.
  refine (decode_reassembles start
    [[1; 1]; [2; 3; 4; 0; 120; 0; 1; 5]; [6; 7; 8; 0; 80; 3; 1]] [report1; report2] [1] reports_ok _ eq_refl eq_refl).
  right. exists report1. split; [exact (Forall_inv reports_ok)|]. split; [|done].
  by exists [1; 2; 3; 4; 0; 120; 0].
Defined.

(** An empty pool that cannot connect. *)
Definition pool : IdlePool.t Sim.env * Sim.system * DnsResolver :=
  (IdlePool.mk [] 3 2 (mkSocketAddr ip1 443) [65] 443 4 0 3 1000, Sim.mkSystem [] [],
   dns_resolver_new 3 None).

Lemma reset_keeps_fragment_witness :
  receive (reset IdlePoolWitness.opts (with_recv start [1]) pool).1 (PingBackend.result_bytes report1)
  = None.
Proof.
  exact (reset_keeps_fragment IdlePoolWitness.opts (with_recv start [1]) pool report1 [1; 2; 3; 4] eq_refl
    (Forall_inv reports_ok) eq_refl ltac:(done) ltac:(done)).
Defined.

(** After both results [ip1] is to bypass the proxy and [ip2] is not. *)
Definition measured : t Sim.env := foldl apply_report start [report1; report2].

Example update_example :
  ipset <$> update 9 (secs 5) (Some (mkCondition 50 3)) measured
  = Some [(ip2, false); (ip1, true)] ∨
  ipset <$> update 9 (secs 5) (Some (mkCondition 50 3)) measured
  = Some [(ip1, true); (ip2, false)].
Proof. vm_compute. by (left + right). Qed.

Lemma update_publishes_witness :
  terminates (λ fuel, update fuel (secs 5) (Some (mkCondition 50 3)) measured) (λ s', ∃ ips,
    NoDup ips
    ∧ ipset s' = ipset measured
        ++ ((λ ip, (ip, verdict (drain measured) (mkCondition 50 3) ip)) <$> ips)
    ∧ (∀ ip, ip ∈ ips → ∃ pr, set (drain measured) !! ip = Some pr ∧ group_key pr = 1)
    ∧ ((∃ ip pr, set (drain measured) !! ip = Some pr ∧ group_key pr = 1) → ips ≠ [])
    ∧ ∀ ip, ip ∈ ips → settled (secs 5) s' ip).
Proof. exact (update_publishes (secs 5) (mkCondition 50 3) measured eq_refl eq_refl). Defined.

Lemma proxy_lost_exact_witness :
  proxy_lost 3 10 = ProxyLost.combined_loss 3 10 ∧ 0 <= proxy_lost 3 10 <= 100.
Proof. apply (ProxyLost.proxy_lost_exact 3 10); lia. Defined.
End NetProfilerWitness.
