(* ===== verification/ProxyTokens.v ===== *)
(** * Indices, tokens and sockets of the proxy ([src/src/proxy/mod.rs])

    A token of the proxy's poll is an index and one of four channels.  [SocketApi]
    is the interface of the [socket2] calls [new_socket] makes and of the
    platform calls of [src/src/sys] for transparent proxying. *)

From Stdlib Require Import ZArith Lia.
From stdpp Require Import base option list.
From S2P Require Import Prelude Net Env.

Open Scope Z_scope.

Definition CHANNEL_CNT : Z := 4.
Definition MIN_INDEX : Z := 3.
Definition MAX_INDEX : Z := usize_MAX / CHANNEL_CNT.
Definition TCP_LISTENER : Z := 1.
Definition UDP_LISTENER : Z := 2.
Definition RESOLVER : Z := 3.
Definition CHANNEL_IDLE : Z := 0.
Definition CHANNEL_UDP : Z := 1.
Definition CHANNEL_CLIENT : Z := 2.
Definition CHANNEL_TCP : Z := 3.

(** The index handed out and the next one. *)
Definition next_index (index : Z) : Z * Z :=
  let current := index in
  let index := wrap 64 (index + 1) in
  (current, if MAX_INDEX <=? index then MIN_INDEX else index).

(** [Token(index * CHANNEL_CNT + channel)]. *)
Definition token_of (index channel : Z) : Z := wrap 64 (wrap 64 (index * CHANNEL_CNT) + channel).

Definition token2index (token : Z) : Z := token / CHANNEL_CNT.

Class SocketApi (E : Env) : Type := {
  RawSocket : Type;
  socket_new : OS → bool → bool → option RawSocket * OS;
  set_socket_opts : bool → bool → RawSocket → option RawSocket;
  set_nonblocking : RawSocket → option RawSocket;
  set_reuse_address : RawSocket → option RawSocket;
  socket_bind : RawSocket → SocketAddr → option RawSocket;
  socket_listen : RawSocket → option RawSocket;
  into_udp : RawSocket → UdpSocket;
  local_addr : UdpSocket → option SocketAddr;
  (** [sys::get_oridst_addr]: the address a redirected client asked for *)
  get_oridst_addr : TcpStream → io_result SocketAddr;
  (** [sys::recv_from_with_destination]: a datagram, its source and the address
      it was sent to *)
  recv_from_with_destination :
    UdpSocket → nat → io_result (bytes * SocketAddr * SocketAddr) * UdpSocket
}.

Section NewSocket.
Context {E : Env} {S : SocketApi E}.

(** [new_socket]; [None] is [Err]. *)
Definition new_socket (o : OS) (addr : SocketAddr) (is_udp : bool) : option RawSocket * OS :=
  let v4 := is_ipv4 (sa_ip addr) in
  let '(socket, o) := socket_new o v4 is_udp in
  (socket ← socket;
   socket ← set_socket_opts v4 is_udp socket;
   socket ← set_nonblocking socket;
   socket ← set_reuse_address socket;
   socket ← socket_bind socket addr;
   if negb is_udp then socket_listen socket else Some socket, o).
End NewSocket.

Definition valid_index (i : Z) : Prop := MIN_INDEX <= i < MAX_INDEX.

Lemma MAX_INDEX_value : MAX_INDEX = 2 ^ 62 - 1.
Proof. reflexivity. Qed.

Lemma next_index_valid i :
  valid_index i → valid_index (next_index i).1 ∧ valid_index (next_index i).2.
Proof.
  intros Hi. split; [done|]. unfold next_index, valid_index, MIN_INDEX in *.
  rewrite MAX_INDEX_value in *. cbn [snd]. rewrite wrap_small by lia.
  destruct (Z.leb_spec (2 ^ 62 - 1) (i + 1)); lia.
Qed.

(** A token decodes to its index and channel and is none of the reserved ones. *)
Lemma token_of_sound i ch :
  valid_index i → 0 <= ch < CHANNEL_CNT →
  token_of i ch = i * CHANNEL_CNT + ch
  ∧ token2index (token_of i ch) = i ∧ token_of i ch mod CHANNEL_CNT = ch
  ∧ 12 <= token_of i ch <= usize_MAX.
Proof.
  unfold valid_index, token_of, token2index, MIN_INDEX, CHANNEL_CNT, usize_MAX.
  rewrite MAX_INDEX_value. intros Hi Hch.
  rewrite (wrap_small 64 (i * 4)), wrap_small by lia.
  split; [done|]. rewrite Z.div_add_l, (Z.div_small ch) by lia.
  rewrite (Z.add_comm (i * 4)), Z.mod_add, Z.mod_small by lia. lia.
Qed.
