(* ===== verification/ProxyTcp.v ===== *)
(** * The proxy's TCP connections ([src/src/proxy/tcp_server.rs])

    A redirected client is relayed to the server over a pooled TLS connection.
    The client's side is the connection's own status; the server's side is the
    [TlsConn].  [None] is a panic or exhausted fuel; the clock is read once per
    call. *)

From Stdlib Require Import ZArith Lia.
From stdpp Require Import base option list gmap sets.
From S2P Require Import Prelude Net Config Proto Status Env TlsConn TcpUtil.
From S2P Require Import Resolver IdlePool NetProfiler ProxyTokens.

Open Scope Z_scope.

Module ProxyConn.
Section ProxyConn.
Context {E : Env} (OPTIONS : Opts).

Record t : Type := mk {
  index : Z;
  dst_addr : SocketAddr;
  client : TcpStream;
  recv_len : nat;
  send_buffer : bytes;
  status : ConnStatus;
  server_conn : TlsConn E;
  last_active_time : Z;
  read_client : bool;
  read_server : bool
}.

Definition with_client (c : t) (s : TcpStream) : t :=
  mk (index c) (dst_addr c) s (recv_len c) (send_buffer c) (status c) (server_conn c)
    (last_active_time c) (read_client c) (read_server c).
Definition with_send (c : t) (b : bytes) : t :=
  mk (index c) (dst_addr c) (client c) (recv_len c) b (status c) (server_conn c)
    (last_active_time c) (read_client c) (read_server c).
Definition with_status (c : t) (st : ConnStatus) : t :=
  mk (index c) (dst_addr c) (client c) (recv_len c) (send_buffer c) st (server_conn c)
    (last_active_time c) (read_client c) (read_server c).
Definition with_server (c : t) (s : TlsConn E) : t :=
  mk (index c) (dst_addr c) (client c) (recv_len c) (send_buffer c) (status c) s
    (last_active_time c) (read_client c) (read_server c).
Definition with_time (c : t) (now : Z) : t :=
  mk (index c) (dst_addr c) (client c) (recv_len c) (send_buffer c) (status c) (server_conn c)
    now (read_client c) (read_server c).
Definition with_reads (c : t) (rc rs : bool) : t :=
  mk (index c) (dst_addr c) (client c) (recv_len c) (send_buffer c) (status c) (server_conn c)
    (last_active_time c) rc rs.

Definition new (now index : Z) (server_conn : TlsConn E) (dst_addr : SocketAddr)
    (client : TcpStream) : t :=
  mk index dst_addr client MAX_PACKET_SIZE [] Connecting server_conn now false false.

#[global] Instance status_provider : StatusProvider t := {
  set_status := with_status;
  get_status := status;
  close_conn c := (true, with_client c (tcp_shutdown (client c)));
  deregister c := (true, with_client c (tcp_deregister (client c)));
  finish_send c := (bool_decide (send_buffer c = []), c)
}.

#[global] Instance lawful : LawfulStatus t.
Proof. by split. Qed.

#[global] Instance infallible : InfallibleStatus t.
Proof. by split. Qed.

Definition timeout (c : t) (now : Z) : bool :=
  tcp_idle_duration OPTIONS <? since now (last_active_time c).

Definition destroyed (c : t) : bool := deregistered c && deregistered (server_conn c).

Definition destroy (c : t) : t :=
  let c := (shutdown c).2 in
  let c := with_server c (tls_shutdown (server_conn c)) in
  let c := check_status c in
  with_server c (check_status (server_conn c)).

Definition client_token (c : t) : Z := token_of (index c) CHANNEL_CLIENT.

Definition request (c : t) : bytes := TrojanRequest.generate OPTIONS CONNECT (dst_addr c).

Definition setup (c : t) : bool * t :=
  let '(ok, s) := write_session (server_conn c) (request c) in
  let c := with_server c s in
  if negb ok then (false, c)
  else let '(ok, s) := tcp_register (client c) (client_token c) in (ok, with_client c s).

Definition conn_writable (c : t) : bool := bool_decide (send_buffer c = []) && alive c.

Definition do_send_client (c : t) (data : bytes) : option t :=
  '(ok, s, b) ← tcp_send (client c) (send_buffer c) data;
  let c := with_send (with_client c s) b in
  Some (if (ok : bool) then c else (shutdown c).2).

(** The first half of [try_send_client]. *)
Definition send_client (c : t) (buffer : bytes) : option t :=
  if is_connecting c then Some (with_send c (send_buffer c ++ buffer))
  else if decide (send_buffer c = []) then do_send_client c buffer
  else do_send_client (with_send c []) (send_buffer c ++ buffer).

(** [try_read_server] and [try_send_client] call each other while there is
    something to read and the client takes it. *)
Fixpoint try_send_client (fuel : nat) (c : t) (buffer : bytes) : option t :=
  match fuel with
  | O => None
  | S fuel =>
      c ← send_client c buffer;
      if conn_writable c && read_server c then
        c ← try_read_server fuel c;
        Some (with_reads c (read_client c) false)
      else Some c
  end
with try_read_server (fuel : nat) (c : t) : option t :=
  match fuel with
  | O => None
  | S fuel =>
      '(buffer, s) ← do_read fuel (server_conn c);
      let c := with_server c s in
      match buffer with
      | Some buffer => try_send_client fuel c buffer
      | None => Some c
      end
  end.

Fixpoint try_send_server (fuel : nat) (c : t) : option t :=
  match fuel with
  | O => None
  | S fuel =>
      s ← do_send fuel (server_conn c);
      let c := with_server c s in
      if writable (server_conn c) && read_client c then try_read_client fuel c else Some c
  end
with try_read_client (fuel : nat) (c : t) : option t :=
  match fuel with
  | O => None
  | S fuel =>
      '(ok, _, s, sc) ← tcp_read fuel (client c) (recv_len c) (server_conn c);
      let c := with_server (with_client c s) sc in
      let c := if (ok : bool) then c else (shutdown c).2 in
      try_send_server fuel (with_reads c false (read_server c))
  end.

(** The two channels of [ready]. *)
Definition ready_client (fuel : nat) (c : t) (event : Event) : option t :=
  c ← (if is_readable event then
         if writable (server_conn c) then try_read_client fuel c
         else Some (with_reads c true (read_server c))
       else Some c);
  if is_writable event then try_send_client fuel (established c) [] else Some c.

Definition ready_server (fuel : nat) (c : t) (event : Event) : option t :=
  c ← (if is_readable event then
         c ← (if conn_writable c then try_read_server fuel c
              else Some (with_reads c (read_client c) true));
         s ← do_send fuel (server_conn c);
         Some (with_server c s)
       else Some c);
  if is_writable event
  then try_send_server fuel (with_server c (established (server_conn c)))
  else Some c.

(** The end of [ready]: each side learns that the other is gone. *)
Definition settle (c : t) : t :=
  let c := if is_shutdown c then with_server c (peer_closed (server_conn c)) else c in
  let c := if is_shutdown (server_conn c) then peer_closed c else c in
  let c := check_status c in
  with_server c (check_status (server_conn c)).

Definition ready (fuel : nat) (now : Z) (c : t) (event : Event) : option t :=
  let c := with_time c now in
  let channel := ev_token event mod CHANNEL_CNT in
  c ← (if channel =? CHANNEL_CLIENT then ready_client fuel c event
       else if channel =? CHANNEL_TCP then ready_server fuel c event
       else Some (shutdown c).2);
  Some (settle c).

Context `{!EnvOk E}.

(** ** Conservation

    [req] is what was written before the client's bytes, [h0] what the session
    had handed out before the client, and [e] bytes taken from the session and
    not yet handled. *)
Record relays (req h0 e : bytes) (c : t) : Prop := {
  up_full : is_shutdown (server_conn c) = false →
    plain (server_conn c) = req ++ received (client c);
  up_prefix : ∃ n, plain (server_conn c) = take n (req ++ received (client c));
  down_full : is_shutdown c = false →
    heard (server_conn c) = h0 ++ sent (client c) ++ send_buffer c ++ e;
  down_prefix : ∃ d, heard (server_conn c) = h0 ++ sent (client c) ++ send_buffer c ++ e ++ d
}.

(** From [c] with [e] to handle to [c'] with [e'], a step that keeps the relay. *)
Record keeps (e e' : bytes) (c c' : t) : Prop := {
  k_index : index c' = index c;
  k_dst : dst_addr c' = dst_addr c;
  k_relays : ∀ req h0, relays req h0 e c → relays req h0 e' c'
}.

Lemma keeps_refl e c : keeps e e c c.
Proof. by split. Qed.

Lemma keeps_trans e1 e2 e3 a b c : keeps e1 e2 a b → keeps e2 e3 b c → keeps e1 e3 a c.
Proof. intros [H1 H2 H3] [H4 H5 H6]. split; [congruence|congruence|auto]. Qed.

(** A step that moves no byte and revives neither side. *)
Lemma keeps_still e c c' :
  index c' = index c → dst_addr c' = dst_addr c →
  sent (client c') = sent (client c) → received (client c') = received (client c) →
  send_buffer c' = send_buffer c →
  plain (server_conn c') = plain (server_conn c) →
  heard (server_conn c') = heard (server_conn c) →
  (is_shutdown c = true → is_shutdown c' = true) →
  (is_shutdown (server_conn c) = true → is_shutdown (server_conn c') = true) →
  keeps e e c c'.
Proof.
  intros Hi Hd Hs Hr Hb Hp Hh Hc Hsc. split; [done|done|].
  intros req h0 [H1 H2 H3 H4]. split; rewrite ?Hs, ?Hr, ?Hb, ?Hp, ?Hh; try done.
  - intros Hf. apply H1. destruct (is_shutdown (server_conn c)); [|done].
    by rewrite Hsc in Hf.
  - intros Hf. apply H3. destruct (is_shutdown c); [|done]. by rewrite Hc in Hf.
Qed.

Lemma keeps_quiet e c s : quiet (server_conn c) s → keeps e e c (with_server c s).
Proof. intros [Hp Hh Hs]. apply keeps_still; try done. exact (same_identity_down _ _ Hs). Qed.

#[local] Instance sent_frame : FrameStatus (λ c : t, sent (client c)).
Proof. split; intros; simpl; rewrite ?tcp_shutdown_frame, ?tcp_deregister_frame; done. Qed.
#[local] Instance received_frame : FrameStatus (λ c : t, received (client c)).
Proof. split; intros; simpl; rewrite ?tcp_shutdown_received, ?tcp_deregister_received; done. Qed.
#[local] Instance rest_frame :
  FrameStatus (λ c : t, (index c, dst_addr c, send_buffer c, server_conn c)).
Proof. by split. Qed.

(** The operations of the status on the client's side. *)
Lemma keeps_status e (op : t → t) c :
  (∀ (A : Type) (f : t → A), FrameStatus f → f (op c) = f c) →
  (is_shutdown c = true → is_shutdown (op c) = true) → keeps e e c (op c).
Proof.
  intros Hf Hd. pose proof (Hf _ _ sent_frame) as Hs. pose proof (Hf _ _ received_frame) as Hr.
  pose proof (Hf _ _ rest_frame) as Hrest. simpl in *.
  injection Hrest as Hi Hda Hb Hsc. apply keeps_still; rewrite ?Hsc; done.
Qed.

Lemma keeps_shutdown e c : keeps e e c (shutdown c).2.
Proof.
  apply (keeps_status e (λ c, (shutdown c).2)).
  - intros A f Hf. by apply frame_shutdown.
  - intros _. apply is_shutdown_shutdown.
Qed.

Lemma keeps_peer_closed e c : keeps e e c (peer_closed c).
Proof.
  apply (keeps_status e peer_closed).
  - intros A f Hf. by apply frame_peer_closed.
  - apply is_shutdown_peer_closed.
Qed.

Lemma keeps_established e c : keeps e e c (established c).
Proof.
  apply (keeps_status e established).
  - intros A f Hf. by apply frame_established.
  - apply is_shutdown_established.
Qed.

Lemma keeps_check_status e c : keeps e e c (check_status c).
Proof.
  apply (keeps_status e check_status).
  - intros A f Hf. by apply frame_check_status.
  - apply is_shutdown_check_status.
Qed.

Lemma keeps_settle e c : keeps e e c (settle c).
Proof.
  unfold settle. eapply keeps_trans with (b := if is_shutdown c
    then with_server c (peer_closed (server_conn c)) else c) (e2 := e).
  { destruct (is_shutdown c); [|apply keeps_refl].
    apply keeps_still; try done; simpl;
      [by rewrite (frame_peer_closed plain)|by rewrite (frame_peer_closed heard)
      |apply is_shutdown_peer_closed]. }
  generalize (if is_shutdown c then with_server c (peer_closed (server_conn c)) else c).
  clear c. intros c. eapply keeps_trans with (e2 := e)
    (b := if is_shutdown (server_conn c) then peer_closed c else c).
  { destruct (is_shutdown (server_conn c)); [apply keeps_peer_closed|apply keeps_refl]. }
  generalize (if is_shutdown (server_conn c) then peer_closed c else c). clear c. intros c.
  eapply keeps_trans; [apply keeps_check_status|].
  apply keeps_still; try done; simpl;
    [by rewrite (frame_check_status plain)|by rewrite (frame_check_status heard)
    |apply is_shutdown_check_status].
Qed.

(** ** From the client to the server *)

Lemma writable_up (s : TlsConn E) : writable s = true → is_shutdown s = false.
Proof.
  unfold writable, alive, is_shutdown. destruct (get_status s), (writable_ s); done.
Qed.

Lemma keeps_read e c :
  writable (server_conn c) = true →
  terminates (λ fuel, tcp_read fuel (client c) (recv_len c) (server_conn c))
    (λ '(_, _, s, sc), keeps e e c (with_server (with_client c s) sc)).
Proof.
  intros Hw%writable_up. eapply terminates_weaken; [apply tcp_read_loop_terminates|].
  intros [[[ok n] s] sc] (d & Hr & _ & Hs & [k Hk] & Hfull & Hh & Hid).
  split; [done|done|]. intros req h0 [H1 H2 H3 H4]. specialize (H1 Hw).
  split; simpl; rewrite ?Hs, ?Hh; try done.
  - intros Hf. by rewrite Hfull, H1, Hr, app_assoc.
  - exists (length (req ++ received (client c)) + k)%nat.
    by rewrite Hk, H1, Hr, (app_assoc req), take_app_add.
Qed.

Lemma keeps_do_send e c :
  terminates (λ fuel, do_send fuel (server_conn c)) (λ s, keeps e e c (with_server c s)).
Proof. eapply terminates_weaken; [apply do_send_terminates|]. intros s. apply keeps_quiet. Qed.

Lemma keeps_reads e c rc rs : keeps e e c (with_reads c rc rs).
Proof. by apply keeps_still. Qed.

Lemma try_read_client_keeps e c :
  writable (server_conn c) = true →
  terminates (λ fuel, try_read_client fuel c) (keeps e e c).
Proof.
  intros Hw. apply terminates_S. cbn [try_read_client].
  eapply terminates_bind; [by apply keeps_read|]. intros [[[ok n] s] sc] Hk.
  set (c1 := if ok then with_server (with_client c s) sc
             else (shutdown (with_server (with_client c s) sc)).2).
  assert (keeps e e c c1) as Hk1.
  { eapply keeps_trans; [exact Hk|]. subst c1. destruct ok; [apply keeps_refl|apply keeps_shutdown]. }
  clearbody c1. apply terminates_S. cbn [try_send_server].
  eapply terminates_bind; [apply (keeps_do_send e (with_reads c1 false (read_server c1)))|].
  intros s2 Hk2. cbn [read_client with_server with_reads]. rewrite andb_false_r.
  apply terminates_ret. eapply keeps_trans; [exact Hk1|].
  eapply keeps_trans; [apply keeps_reads|exact Hk2].
Qed.

Lemma try_send_server_keeps e c : terminates (λ fuel, try_send_server fuel c) (keeps e e c).
Proof.
  apply terminates_S. cbn [try_send_server].
  eapply terminates_bind; [apply (keeps_do_send e)|]. intros s Hk.
  destruct (writable _ && read_client _) eqn:Hw; [|by apply terminates_ret].
  apply andb_true_iff in Hw as [Hw _].
  eapply terminates_weaken; [by apply (try_read_client_keeps e)|]. intros c'. by apply keeps_trans.
Qed.

(** ** From the server to the client *)

Lemma do_send_client_keeps c data :
  send_buffer c = [] →
  ∃ c', do_send_client c data = Some c' ∧ keeps data [] c c' ∧ server_conn c' = server_conn c.
Proof.
  intros Hb. unfold do_send_client.
  destruct (tcp_send_loop_total (S (length data)) (client c) (send_buffer c) data)
    as (ok & s & b & n & Hsend & Hn & Hs & Hbuf); [lia|].
  pose proof (tcp_send_received (client c) (send_buffer c) data) as Hr.
  unfold tcp_send in *. rewrite Hsend in *. cbn [mbind option_bind].
  specialize (Hr _ _ _ eq_refl). rewrite Hb in Hbuf.
  eexists. split; [reflexivity|].
  assert (keeps data [] c (if ok then with_send (with_client c s) b
    else (shutdown (with_send (with_client c s) b)).2)) as Hk.
  { destruct ok.
    - split; [done|done|]. intros req h0 [H1 H2 H3 H4].
      split; simpl; rewrite ?Hr, ?Hs, ?Hbuf; try done.
      + intros Hf. rewrite H3, Hb by done. cbn [app]. by rewrite !app_nil_r, <-app_assoc, take_drop.
      + destruct H4 as [d ->]. exists d. rewrite Hb. cbn [app].
        rewrite <-(take_drop n data) at 1. by rewrite <-!app_assoc.
    - pose proof (is_shutdown_shutdown (with_send (with_client c s) b)) as Hsd.
      set (c1 := with_send (with_client c s) b) in *.
      pose proof (frame_shutdown (λ c : t, sent (client c)) c1) as F1.
      pose proof (frame_shutdown (λ c : t, received (client c)) c1) as F2.
      pose proof (frame_shutdown (λ c : t, (index c, dst_addr c, send_buffer c, server_conn c)) c1) as F3.
      simpl in F1, F2, F3. injection F3 as F3 F4 F5 F6. split; [done|done|].
      intros req h0 [H1 H2 H3 H4]. split; rewrite ?F1, ?F2, ?F5, ?F6, ?Hs, ?Hr, ?Hbuf; try done.
      + congruence.
      + destruct H4 as [d ->]. exists (drop n data ++ d). rewrite Hb. cbn [app].
        rewrite <-(take_drop n data) at 1. by rewrite <-!app_assoc. }
  split; [exact Hk|]. destruct ok; [done|].
  pose proof (frame_shutdown (λ c : t, (index c, dst_addr c, send_buffer c, server_conn c))
    (with_send (with_client c s) b)) as F. simpl in F. congruence.
Qed.

Lemma send_client_keeps c data :
  ∃ c', send_client c data = Some c' ∧ keeps data [] c c' ∧ server_conn c' = server_conn c.
Proof.
  unfold send_client. destruct (is_connecting c) eqn:Hc.
  - eexists. split; [reflexivity|]. split; [|done]. split; [done|done|].
    assert (is_shutdown c = false) as Hd.
    { unfold is_connecting, is_shutdown in *. by destruct (get_status c). }
    intros req h0 [H1 H2 H3 H4]. specialize (H3 Hd). split; simpl; try done.
    + intros _. by rewrite H3, <-!app_assoc, app_nil_r.
    + exists []. by rewrite H3, <-!app_assoc, app_nil_r.
  - case_decide as Hb; [by apply do_send_client_keeps|].
    destruct (do_send_client_keeps (with_send c []) (send_buffer c ++ data)) as (c' & -> & Hk & Hs);
      [done|]. exists c'. split; [done|]. split; [|done]. destruct Hk as [K1 K2 K3].
    split; [done|done|]. intros req h0 [H1 H2 H3 H4]. apply K3. split; try done.
    destruct H4 as [d H4]. exists d. simpl. by rewrite H4, <-!app_assoc.
Qed.

Lemma conn_writable_up c : conn_writable c = true → is_shutdown c = false.
Proof.
  unfold conn_writable, alive, is_shutdown. destruct (bool_decide _), (get_status c); done.
Qed.

(** What [do_read] brings in is left to handle. *)
Lemma keeps_do_read c :
  conn_writable c = true →
  terminates (λ fuel, do_read fuel (server_conn c)) (λ '(r, s),
    keeps [] (default [] r) c (with_server c s)
    ∧ (left s + length (default [] r) <= left (server_conn c))%nat ∧ r ≠ Some []).
Proof.
  intros Hw%conn_writable_up. destruct (do_read_terminates (server_conn c)) as (n & [r s] & [Hm Hne] & Hr).
  exists n, (r, s). split; [|exact Hr]. pose proof (do_read_left _ _ _ (Hr n ltac:(lia))) as Hl.
  split; [|done]. destruct Hm as [Hp Hh Hid]. simpl in *. split; [done|done|].
  intros req h0 [H1 H2 H3 H4]. specialize (H3 Hw).
  split; simpl; rewrite ?Hp, ?Hh; try done.
  - intros Hf. apply H1. destruct (is_shutdown (server_conn c)) eqn:Hd; [|done].
    by rewrite (same_identity_down _ _ Hid Hd) in Hf.
  - intros _. by rewrite H3, app_nil_r, <-!app_assoc.
  - exists []. by rewrite H3, !app_nil_r, <-!app_assoc.
Qed.

Lemma try_send_client_keeps c data : terminates (λ fuel, try_send_client fuel c data) (keeps data [] c).
Proof.
  remember (left (server_conn c)) as m eqn:Hm. revert c data Hm.
  induction m as [m IH] using lt_wf_ind. intros c data ->.
  apply terminates_S. cbn [try_send_client].
  destruct (send_client_keeps c data) as (c1 & -> & Hk1 & Hs1). cbn [mbind option_bind].
  destruct (conn_writable c1 && read_server c1) eqn:Hw; [|by apply terminates_ret].
  apply andb_true_iff in Hw as [Hw _].
  eapply terminates_bind with (P := keeps [] [] c1).
  - apply terminates_S. cbn [try_read_server].
    eapply terminates_bind; [by apply keeps_do_read|]. intros [r s] (Hk2 & Hl & Hne).
    destruct r as [d|]; [|by apply terminates_ret]. simpl in Hk2, Hl.
    eapply terminates_weaken; [apply (IH (left s)); [|done]|].
    + rewrite <-Hs1. destruct d; [done|]. simpl in Hl. lia.
    + intros c2. by apply keeps_trans.
  - intros c2 Hk2. apply terminates_ret. eapply keeps_trans; [exact Hk1|].
    eapply keeps_trans; [exact Hk2|]. apply keeps_reads.
Qed.

Lemma try_read_server_keeps c :
  conn_writable c = true → terminates (λ fuel, try_read_server fuel c) (keeps [] [] c).
Proof.
  intros Hw. apply terminates_S. cbn [try_read_server].
  eapply terminates_bind; [by apply keeps_do_read|]. intros [r s] (Hk & _ & _).
  destruct r as [d|]; [|by apply terminates_ret].
  eapply terminates_weaken; [apply try_send_client_keeps|]. intros c2. by apply keeps_trans.
Qed.

(** ** Events *)

Lemma ready_client_keeps c event : terminates (λ fuel, ready_client fuel c event) (keeps [] [] c).
Proof.
  unfold ready_client. eapply terminates_bind with (P := keeps [] [] c).
  { destruct (is_readable event); [|apply terminates_ret, keeps_refl].
    destruct (writable (server_conn c)) eqn:Hw; [by apply try_read_client_keeps|].
    apply terminates_ret, keeps_reads. }
  intros c1 Hk. destruct (is_writable event); [|by apply terminates_ret].
  eapply terminates_weaken; [apply try_send_client_keeps|]. intros c2 Hk2.
  eapply keeps_trans; [exact Hk|]. eapply keeps_trans; [apply keeps_established|exact Hk2].
Qed.

Lemma ready_server_keeps c event : terminates (λ fuel, ready_server fuel c event) (keeps [] [] c).
Proof.
  unfold ready_server. eapply terminates_bind with (P := keeps [] [] c).
  { destruct (is_readable event); [|apply terminates_ret, keeps_refl].
    eapply terminates_bind with (P := keeps [] [] c).
    - destruct (conn_writable c) eqn:Hw; [by apply try_read_server_keeps|].
      apply terminates_ret, keeps_reads.
    - intros c1 Hk. eapply terminates_bind; [apply (keeps_do_send [])|]. intros s Hk2.
      apply terminates_ret. by eapply keeps_trans. }
  intros c1 Hk. destruct (is_writable event); [|by apply terminates_ret].
  eapply terminates_weaken; [apply (try_send_server_keeps [])|]. intros c2 Hk2.
  eapply keeps_trans; [exact Hk|]. eapply keeps_trans; [|exact Hk2].
  apply keeps_still; try done; simpl;
    [by rewrite (frame_established plain)|by rewrite (frame_established heard)
    |apply is_shutdown_established].
Qed.

Lemma ready_keeps now c event : terminates (λ fuel, ready fuel now c event) (keeps [] [] c).
Proof.
  unfold ready. eapply terminates_bind with (P := keeps [] [] (with_time c now)).
  - destruct (_ =? CHANNEL_CLIENT); [apply ready_client_keeps|].
    destruct (_ =? CHANNEL_TCP); [apply ready_server_keeps|].
    apply terminates_ret, keeps_shutdown.
  - intros c1 Hk. apply terminates_ret.
    eapply keeps_trans with (e2 := []) (b := with_time c now); [by apply keeps_still|].
    eapply keeps_trans; [exact Hk|apply keeps_settle].
Qed.

Lemma keeps_destroy c : keeps [] [] c (destroy c).
Proof.
  unfold destroy. eapply keeps_trans; [apply (keeps_shutdown [])|].
  generalize (shutdown c).2. clear c. intros c.
  eapply keeps_trans; [apply (keeps_quiet []), quiet_shutdown|].
  generalize (with_server c (tls_shutdown (server_conn c))). clear c. intros c.
  eapply keeps_trans; [apply (keeps_check_status [])|].
  apply keeps_still; try done; simpl;
    [by rewrite (frame_check_status plain)|by rewrite (frame_check_status heard)
    |apply is_shutdown_check_status].
Qed.

(** A fresh client and a pooled connection nothing was written to. *)
Lemma setup_relays now index s dst client c :
  plain s = [] → sent client = [] → received client = [] →
  setup (new now index s dst client) = (true, c) →
  ProxyConn.index c = index ∧ dst_addr c = dst ∧ relays (request c) (heard s) [] c.
Proof.
  intros Hp Hs Hr. unfold setup. cbn [server_conn new].
  destruct (write_session s _) as [[] s1] eqn:Hw; cbn [negb]; [|done].
  destruct (tcp_register _ _) as [ok client1] eqn:Hreg. intros [= -> <-].
  destruct (write_session_true _ _ _ Hw) as (Hp1 & Hh1 & _). simpl in Hreg.
  match type of Hreg with tcp_register ?a ?b = _ =>
    pose proof (tcp_register_frame a b) as Hs1; pose proof (tcp_register_received a b) as Hr1;
    rewrite Hreg in Hs1, Hr1; simpl in Hs1, Hr1 end.
  split_and!; [done|done|].
  split; simpl; rewrite ?Hs1, ?Hr1, ?Hs, ?Hr, ?Hp1, ?Hh1, ?Hp; simpl; rewrite ?app_nil_r; try done.
  - exists (length (request (new now index s dst client))). by rewrite firstn_all.
  - exists []. by rewrite app_nil_r.
Qed.
End ProxyConn.
#[global] Arguments t E : clear implicits.
End ProxyConn.

Module TcpServer.
Section TcpServer.
Context {E : Env} {SA : SocketApi E} (OPTIONS : Opts).

Abbreviation Conn := (ProxyConn.t E).
Abbreviation Pool := (IdlePool.t E * OS * DnsResolver)%type.

Record t : Type := mk { conns : gmap Z Conn; next_id : Z; removed : list Z }.

Definition new : t := mk ∅ MIN_INDEX [].

(** One connection from the listener; [IoErr] is the error returned. *)
Definition accept_once (fuel : nat) (now : Z) (s : t) (st : Pool) (np : NetProfiler.t E)
  : option (io_result unit * t * Pool * NetProfiler.t E) :=
  let '(p, o, r) := st in
  let '(res, o) := tcp_accept o in
  match res with
  | IoErr k => Some (IoErr k, s, (p, o, r), np)
  | IoOk (client, _) =>
      let '(ok, client) := tcp_set_nodelay client in
      if negb ok then Some (IoErr OtherKind, s, (p, o, r), np)
      else
        match get_oridst_addr client with
        | IoErr k => Some (IoErr k, s, (p, o, r), np)
        | IoOk dst_addr =>
            np ← NetProfiler.check fuel now np (sa_ip dst_addr);
            let '(conn, st) := IdlePool.get (p, o, r) in
            Some (match conn with
                  | Some conn =>
                      let '(index, next) := next_index (next_id s) in
                      let s := mk (conns s) next (removed s) in
                      let '(ok, conn) := reset_index conn index (token_of index CHANNEL_TCP) in
                      if negb ok then (IoOk tt, s, st, np)
                      else
                        let '(ok, conn) := ProxyConn.setup OPTIONS
                          (ProxyConn.new now index conn dst_addr client) in
                        (IoOk tt,
                         if (ok : bool)
                         then mk (<[ProxyConn.index conn := conn]> (conns s)) next (removed s)
                         else s, st, np)
                  | None => (IoOk tt, s, st, np)
                  end)
        end
  end.

(** Errors but [WouldBlock] are logged. *)
Fixpoint accept (fuel : nat) (now : Z) (s : t) (st : Pool) (np : NetProfiler.t E)
  : option (t * Pool * NetProfiler.t E) :=
  match fuel with
  | O => None
  | S fuel =>
      '(res, s, st, np) ← accept_once fuel now s st np;
      match res with
      | IoErr WouldBlock => Some (s, st, np)
      | _ => accept fuel now s st np
      end
  end.

Definition ready (fuel : nat) (now : Z) (s : t) (event : Event) : option t :=
  let index := token2index (ev_token event) in
  match conns s !! index with
  | Some conn =>
      conn ← ProxyConn.ready fuel now conn event;
      let m := <[index := conn]> (conns s) in
      Some (mk m (next_id s)
              (if ProxyConn.destroyed conn then removed s ++ [index] else removed s))
  | None => Some s
  end.

Definition delete_all (m : gmap Z Conn) (l : list Z) : gmap Z Conn :=
  foldl (λ m index, delete index m) m l.

Definition remove_closed (s : t) : t := mk (delete_all (conns s) (removed s)) (next_id s) [].

(** [check_timeout]: the visit of one connection, then the removals. *)
Definition check_conn (now : Z) (c : Conn) : Conn :=
  if negb (ProxyConn.destroyed c) && ProxyConn.timeout OPTIONS c now
  then ProxyConn.destroy c else c.

Definition check_timeout (now : Z) (s : t) : t :=
  let checked := check_conn now <$> conns s in
  let list := omap (λ '(i, c), if ProxyConn.destroyed c then Some i else None)
                (map_to_list checked) in
  mk (delete_all checked list) (next_id s) (removed s).

(** The main loop's calls; [OOther] is what happens to the pool, the system and
    the profiler in between. *)
Inductive op : Type :=
  | OAccept (now : Z)
  | OReady (now : Z) (event : Event)
  | ORemoveClosed
  | OCheckTimeout (now : Z)
  | OOther (st : Pool) (np : NetProfiler.t E).

Abbreviation State := (t * Pool * NetProfiler.t E)%type.

Definition run_op (fuel : nat) (x : State) (o : op) : option State :=
  let '(s, st, np) := x in
  match o with
  | OAccept now => accept fuel now s st np
  | OReady now event => s ← ready fuel now s event; Some (s, st, np)
  | ORemoveClosed => Some (remove_closed s, st, np)
  | OCheckTimeout now => Some (check_timeout now s, st, np)
  | OOther st np => Some (s, st, np)
  end.

Definition run_ops (fuel : nat) (x : State) (ops : list op) : option State :=
  foldl (λ x o, x ← x; run_op fuel x o) (Some x) ops.

Context `{!EnvOk E} (cfg : nat * Z * Z * Z * Z).

(** A connection of the table relays its client, after the request to the
    client's original destination. *)
Definition conn_ok (i : Z) (c : Conn) : Prop :=
  ProxyConn.index c = i ∧ valid_index i
  ∧ ∃ h0, ProxyConn.relays (ProxyConn.request OPTIONS c) h0 [] c.

Definition server_ok (s : t) : Prop :=
  valid_index (next_id s) ∧ map_Forall conn_ok (conns s).

Lemma conn_ok_keeps i c c' : conn_ok i c → ProxyConn.keeps [] [] c c' → conn_ok i c'.
Proof.
  intros (Hi & Hv & h0 & Hr) [K1 K2 K3]. split_and!; [congruence|done|]. exists h0.
  replace (ProxyConn.request OPTIONS c') with (ProxyConn.request OPTIONS c)
    by (unfold ProxyConn.request; by rewrite K2).
  by apply K3.
Qed.

Lemma tcp_ready_ok now s event : server_ok s → terminates (λ fuel, ready fuel now s event) server_ok.
Proof.
  intros [Hn Hs]. unfold ready. destruct (conns s !! _) as [c|] eqn:Hc; [|by apply terminates_ret].
  eapply terminates_bind; [apply ProxyConn.ready_keeps|]. intros c' Hk. apply terminates_ret.
  split; [done|]. apply map_Forall_insert_2; [|done]. eapply conn_ok_keeps; [|done]. by apply Hs.
Qed.

Lemma delete_all_ok m l : map_Forall conn_ok m → map_Forall conn_ok (delete_all m l).
Proof.
  revert m. induction l as [|i l IH]; intros m Hm; [done|]. cbn. apply IH.
  by apply map_Forall_delete.
Qed.

Lemma tcp_check_timeout_ok now s : server_ok s → server_ok (check_timeout now s).
Proof.
  intros [Hn Hs]. split; [done|]. apply delete_all_ok. intros i c.
  rewrite lookup_fmap. destruct (conns s !! i) as [c0|] eqn:Hc; [|done]. intros [= <-].
  unfold check_conn. destruct (_ && _); [|by apply Hs].
  eapply conn_ok_keeps; [by apply Hs|]. apply ProxyConn.keeps_destroy.
Qed.

(** ** Accepting *)

Lemma new_conn_accept_left (p : IdlePool.t E) o :
  (accept_left (IdlePool.new_conn p o).2 <= accept_left o)%nat.
Proof.
  unfold IdlePool.new_conn. pose proof (tcp_connect_left o (IdlePool.addr p)) as H1.
  destruct (tcp_connect o (IdlePool.addr p)) as [[c|] o1]; [|done]. simpl in H1.
  destruct (tcp_set_nodelay c) as [[] c1]; [|done]. cbn [negb].
  pose proof (client_session_left o1) as H2.
  destruct (client_session_new o1) as [[s|] o2]; simpl in *; lia.
Qed.

Lemma alloc_accept_left n (st : Pool) :
  (accept_left (Nat.iter n IdlePool.alloc_one st).1.2 <= accept_left st.1.2)%nat.
Proof.
  induction n as [|n IH]; [done|]. etrans; [|exact IH]. simpl.
  destruct (Nat.iter n IdlePool.alloc_one st) as [[p o] r]. unfold IdlePool.alloc_one.
  pose proof (new_conn_accept_left p o) as H.
  destruct (IdlePool.new_conn p o) as [[[c|] p1] o1]; [|done].
  by destruct (register c) as [[] c1].
Qed.

Lemma get_loop_accept_left n (st : Pool) :
  (accept_left (IdlePool.get_loop n st).2.1.2 <= accept_left st.1.2)%nat.
Proof.
  revert st. induction n as [|n IH]; intros st; [done|]. cbn [IdlePool.get_loop].
  pose proof (alloc_accept_left (IdlePool.size st.1.1 - length (IdlePool.pool st.1.1)) st) as H.
  fold (IdlePool.alloc st) in H. destruct (IdlePool.alloc st) as [[p o] r].
  destruct (last (IdlePool.pool p)); [done|]. etrans; [apply IH|done].
Qed.

Definition state_ok (x : State) : Prop :=
  server_ok x.1.1 ∧ IdlePool.ok cfg x.1.2.1.1.

(** One turn of [accept]: it keeps the invariant, and it takes a client off the
    listener unless it reports the listener's error. *)
Lemma accept_once_ok now s st np :
  state_ok (s, st, np) →
  terminates (λ fuel, accept_once fuel now s st np) (λ '(res, s', st', np'),
    state_ok (s', st', np')
    ∧ ((accept_left st'.1.2 < accept_left st.1.2)%nat
       ∨ ∃ k o', res = IoErr k ∧ tcp_accept st.1.2 = (IoErr k, o'))).
Proof.
  destruct st as [[p o] r]. intros [[Hn Hs] Hp]. unfold accept_once.
  destruct (tcp_accept o) as [[[client src]|k] o1] eqn:Hacc.
  2: { apply terminates_ret. split; [done|]. right. by exists k, o1. }
  pose proof (tcp_accept_ok _ _ _ _ Hacc) as Hl.
  destruct (tcp_accept_fresh _ _ _ _ Hacc) as [Hsent Hrecv].
  pose proof (tcp_nodelay_frame client) as Hf1. pose proof (tcp_nodelay_received client) as Hf2.
  destruct (tcp_set_nodelay client) as [[] client1]; simpl in Hf1, Hf2; cbn [negb].
  2: { apply terminates_ret. split; [done|]. by left. }
  destruct (get_oridst_addr client1) as [dst|k].
  2: { apply terminates_ret. split; [done|]. by left. }
  eapply terminates_bind with (P := λ _, True).
  { eapply terminates_weaken; [apply NetProfiler.check_keeps|done]. }
  intros np1 _. pose proof (IdlePool.get_loop_ok cfg (IdlePool.size p) (p, o1, r) Hp) as (Hok & Hget & _).
  pose proof (get_loop_accept_left (IdlePool.size p) (p, o1, r)) as Hl2.
  change (IdlePool.get (p, o1, r)) with (IdlePool.get_loop (IdlePool.size p) (p, o1, r)).
  destruct (IdlePool.get_loop (IdlePool.size p) (p, o1, r)) as [[conn|] [[p2 o2] r2]]; simpl in Hok, Hget, Hl2.
  2: { apply terminates_ret. split; [exact (conj (conj Hn Hs) Hok)|]. left. simpl. lia. }
  apply terminates_ret. destruct (Hget conn eq_refl) as (_ & _ & Hplain).
  pose proof (next_index_valid (next_id s) Hn) as [Hv1 Hv2].
  destruct (next_index (next_id s)) as [index next]; simpl in Hv1, Hv2.
  destruct (reset_index conn index (token_of index CHANNEL_TCP)) as [[] conn1] eqn:Hreset; cbn [negb].
  2: { split; [exact (conj (conj Hv2 Hs) Hok)|]. left. simpl. lia. }
  assert (plain conn1 = []) as Hplain1.
  { revert Hreset. unfold reset_index, reregister.
    destruct (tcp_reregister _ _) as [[] t2]; [|done]. by intros [= <-]. }
  destruct (ProxyConn.setup OPTIONS (ProxyConn.new now index conn1 dst client1)) as [[] c] eqn:Hset.
  2: { split; [exact (conj (conj Hv2 Hs) Hok)|]. left. simpl. lia. }
  destruct (ProxyConn.setup_relays OPTIONS now index conn1 dst client1 c) as (H1 & _ & H3);
    [done|congruence|congruence|done|].
  split; [|left; simpl; lia]. split; [|exact Hok]. split; [exact Hv2|]. simpl.
  apply map_Forall_insert_2; [|done]. split_and!; [done|by rewrite H1|by eexists].
Qed.

(** The listener reports nothing but that no client waits. *)
Definition listener_ok : Prop :=
  ∀ o k o', tcp_accept o = (IoErr k, o') → k = WouldBlock.

Lemma accept_ok now s st np :
  listener_ok → state_ok (s, st, np) →
  terminates (λ fuel, accept fuel now s st np) state_ok.
Proof.
  intros Hacc. remember (accept_left st.1.2) as m eqn:Hm. revert s st np Hm.
  induction m as [m IH] using lt_wf_ind. intros s st np -> Hok.
  apply terminates_S. cbn [accept].
  eapply terminates_bind; [by apply accept_once_ok|]. intros [[[res s'] st'] np'] [Hok' Hl].
  destruct Hl as [Hl|(k & o' & -> & ->%Hacc)]; [|by apply terminates_ret].
  destruct res as [[]|[]]; try (by apply terminates_ret);
    (eapply IH; [exact Hl|reflexivity|exact Hok']).
Qed.

Lemma run_op_state_ok (o : op) x :
  listener_ok → (match o with OOther st _ => IdlePool.ok cfg st.1.1 | _ => True end) → state_ok x →
  terminates (λ fuel, run_op fuel x o) state_ok.
Proof.
  intros Hacc Ho. destruct x as [[s st] np]. intros Hx. destruct o as [now|now event| |now|st' np']; simpl.
  - by apply accept_ok.
  - destruct Hx as [Hs Hp]. eapply terminates_bind; [by apply tcp_ready_ok|].
    intros s' Hs'. by apply terminates_ret.
  - apply terminates_ret. destruct Hx as [[Hn Hs] Hp]. split; [|done]. split; [done|].
    by apply delete_all_ok.
  - apply terminates_ret. destruct Hx as [Hs Hp]. split; [by apply tcp_check_timeout_ok|done].
  - apply terminates_ret. by destruct Hx.
Qed.

(** An accept error that stays, such as running out of file descriptors, keeps
    [accept] from ever returning. *)
Lemma accept_spins fuel now s (p : IdlePool.t E) o r np k :
  tcp_accept o = (IoErr k, o) → k ≠ WouldBlock → accept fuel now s (p, o, r) np = None.
Proof.
  intros Ho Hk. induction fuel as [|fuel IH]; [done|]. cbn [accept].
  unfold accept_once. rewrite Ho. cbn [mbind option_bind]. by destruct k.
Qed.

End TcpServer.
#[global] Arguments t E : clear implicits.
End TcpServer.

Module ProxyTcpWitness.
  Import TcpServer.
#[local] Existing Instance Sim.env.
#[local] Existing Instance Sim.env_ok.

(** Every socket can be opened, and clients ask for one address. *)
#[local] Instance sockets : SocketApi Sim.env := {
  RawSocket := SocketAddr;
  socket_new w _ _ := (Some (mkSocketAddr (V4 [0; 0; 0; 0]) 0), w);
  set_socket_opts _ _ s := Some s;
  set_nonblocking := Some;
  set_reuse_address := Some;
  socket_bind _ a := Some a;
  socket_listen := Some;
  into_udp _ := Sim.idle_socket;
  local_addr _ := Some (mkSocketAddr (V4 [9; 9; 9; 9]) 53);
  get_oridst_addr _ := IoOk (mkSocketAddr (V4 [93; 184; 216; 34]) 443);
  recv_from_with_destination s _ := (IoErr WouldBlock, s)
}.

(** One client that talks, and servers for the pool. *)
Definition world : Sim.system :=
  Sim.mkSystem [Sim.idle_stream; Sim.idle_stream]
    [Sim.mkStream [IoOk [1; 2]; IoErr WouldBlock] [] [] []].
Definition profiler : NetProfiler.t Sim.env :=
  (NetProfiler.new 0 false 3600 70 NetProfiler.CONDITION).1.
Definition pool : IdlePool.t Sim.env * Sim.system * DnsResolver :=
  (IdlePoolWitness.fresh, world, dns_resolver_new 3 None).

Definition cfg : nat * Z * Z * Z * Z := (2%nat, 4, 0, 3, 1000).

Lemma pool_ok : IdlePool.ok cfg IdlePoolWitness.fresh.
Proof. by split; [reflexivity|vm_compute; split_and!..|constructor|simpl; lia]. Qed.

Lemma listener : listener_ok (E := Sim.env).
Proof. intros [pe [|c cl]] k o'; simpl; unfold Sim.accept; simpl; by intros [= <-]. Qed.

Definition ops : list (op (E := Sim.env)) :=
  [OAccept 0; OReady 1 (mkEvent 14 true true); OReady 2 (mkEvent 15 true true);
   OCheckTimeout 3; ORemoveClosed].

Example relay_example :
  (λ x, (λ c, plain (ProxyConn.server_conn c)) <$> conns x.1.1 !! 3) <$>
    run_ops IdlePoolWitness.opts 9 (new, pool, profiler) ops
  = Some (Some (TrojanRequest.generate IdlePoolWitness.opts CONNECT
                  (mkSocketAddr (V4 [93; 184; 216; 34]) 443) ++ [1; 2])).
Proof. by vm_compute. Qed.

End ProxyTcpWitness.
