(* ===== verification/UdpCache.v ===== *)
(** * The proxy's cache of UDP sockets ([src/src/proxy/udp_cache.rs])

    Replies reach a client from the address it wrote to, so the proxy keeps a
    socket bound to each such address.  The cache and the connections share the
    sockets as [Rc]s: [heap] holds the boxes with their strong counts, a pointer
    is a key of it. *)

From Stdlib Require Import ZArith Lia.
From stdpp Require Import base option list gmap sets.
From S2P Require Import Prelude Net Env ProxyTokens.

Open Scope Z_scope.

Module UdpSvrCache.
Section UdpSvrCache.
Context {E : Env} {SA : SocketApi E}.

Record rc_box : Type := mkRcBox { strong : nat; value : UdpSocket }.

Record t : Type := mk {
  conns : gmap SocketAddr nat;
  heap : gmap nat rc_box;
  (** a pointer not yet allocated *)
  next_ptr : nat
}.

Definition new : t := mk ∅ ∅ 0.

Definition with_heap (s : t) (h : gmap nat rc_box) : t := mk (conns s) h (next_ptr s).

(** [Rc::clone] and the drop of an [Rc]. *)
Definition rc_clone (h : gmap nat rc_box) (p : nat) : gmap nat rc_box :=
  alter (λ b, mkRcBox (S (strong b)) (value b)) p h.
Definition rc_drop (h : gmap nat rc_box) (p : nat) : gmap nat rc_box :=
  match h !! p with
  | Some b => if (strong b <=? 1)%nat then delete p h
              else <[p := mkRcBox (strong b - 1) (value b)]> h
  | None => h
  end.

Definition clone (s : t) (p : nat) : t := with_heap s (rc_clone (heap s) p).
Definition drop (s : t) (p : nat) : t := with_heap s (rc_drop (heap s) p).

(** The pointer is a new reference. *)
Definition get_socket (s : t) (o : OS) (addr : SocketAddr) : option nat * t * OS :=
  match conns s !! addr with
  | Some p => (Some p, clone s p, o)
  | None =>
      let '(socket, o) := new_socket o addr true in
      match socket with
      | Some socket =>
          let p := next_ptr s in
          (Some p,
           mk (<[addr := p]> (conns s)) (<[p := mkRcBox 2 (into_udp socket)]> (heap s)) (S p), o)
      | None => (None, s, o)
      end
  end.

Definition strong_count (s : t) (p : nat) : nat :=
  match heap s !! p with Some b => strong b | None => 0 end.

Definition evict (s : t) (addr : SocketAddr) : t :=
  match conns s !! addr with
  | Some p => drop (mk (delete addr (conns s)) (heap s) (next_ptr s)) p
  | None => s
  end.

Definition check_timeout (s : t) : t :=
  let list := omap (λ '(addr, p), if (strong_count s p =? 1)%nat then Some addr else None)
                (map_to_list (conns s)) in
  foldl evict s list.

(** ** The counts

    [users p] is how many references there are outside the cache.  Every box is
    in the cache under one address, and its count is right. *)
Record counted (users : nat → nat) (s : t) : Prop := {
  c_heap : ∀ p b, heap s !! p = Some b →
    strong b = S (users p) ∧ (p < next_ptr s)%nat ∧ ∃ a, conns s !! a = Some p;
  c_conns : ∀ a p, conns s !! a = Some p → is_Some (heap s !! p);
  c_inj : ∀ a a' p, conns s !! a = Some p → conns s !! a' = Some p → a = a';
  c_users : ∀ p, heap s !! p = None → users p = 0%nat
}.

(** One more, or one less, reference to [p]. *)
Definition plus (users : nat → nat) (p q : nat) : nat :=
  if decide (q = p) then S (users q) else users q.

Lemma counted_ext users users' s : (∀ p, users p = users' p) → counted users s → counted users' s.
Proof.
  intros H [H1 H2 H3 H4]. split; try done.
  - intros p b Hb. rewrite <-H. by apply H1.
  - intros p Hp. rewrite <-H. by apply H4.
Qed.

Lemma counted_new : counted (λ _, 0%nat) new.
Proof. by split. Qed.

Lemma counted_clone users s p :
  counted users s → is_Some (heap s !! p) → counted (plus users p) (clone s p).
Proof.
  intros [H1 H2 H3 H4] [b0 Hb0]. unfold clone, rc_clone, plus. split; simpl; try done.
  - intros q b. destruct (decide (p = q)) as [<-|Hne].
    + rewrite lookup_alter_eq, Hb0. simpl. intros [= <-]. simpl.
      destruct (H1 p b0 Hb0) as (-> & ? & ?). by rewrite decide_True.
    + rewrite lookup_alter_ne by done. intros Hb. rewrite decide_False by done. by apply H1.
  - intros a q Hq. apply H2 in Hq as [b Hb]. destruct (decide (p = q)) as [<-|Hne].
    + rewrite lookup_alter_eq, Hb. by eexists.
    + rewrite lookup_alter_ne by done. by eexists.
  - intros q. destruct (decide (p = q)) as [<-|Hne].
    + by rewrite lookup_alter_eq, Hb0.
    + rewrite lookup_alter_ne by done. rewrite decide_False by done. apply H4.
Qed.

(** A reference other than the cache's goes away. *)
Lemma counted_drop users s p : counted (plus users p) s → counted users (drop s p).
Proof.
  intros [H1 H2 H3 H4]. unfold drop, rc_drop.
  destruct (heap s !! p) as [b0|] eqn:Hb0.
  2: { specialize (H4 p Hb0). unfold plus in H4. by rewrite decide_True in H4. }
  destruct (H1 p b0 Hb0) as (Hs & _). unfold plus in Hs. rewrite decide_True in Hs by done.
  rewrite (proj2 (Nat.leb_gt _ _)) by lia.
  split; simpl; try done.
  - intros q b. destruct (decide (p = q)) as [<-|Hne].
    + rewrite lookup_insert_eq. intros [= <-]. simpl. rewrite Hs. split; [lia|]. by apply (H1 p b0).
    + rewrite lookup_insert_ne by done. intros Hb. destruct (H1 q b Hb) as (Hq & ? & ?).
      unfold plus in Hq. by rewrite decide_False in Hq.
  - intros a q Hq. apply H2 in Hq as [b Hb]. destruct (decide (p = q)) as [<-|Hne].
    + rewrite lookup_insert_eq. by eexists.
    + rewrite lookup_insert_ne by done. by eexists.
  - intros q. destruct (decide (p = q)) as [<-|Hne]; [by rewrite lookup_insert_eq|].
    rewrite lookup_insert_ne by done. intros Hq. specialize (H4 q Hq). unfold plus in H4.
    by rewrite decide_False in H4.
Qed.

Lemma get_socket_counted users s o addr r s' o' :
  counted users s → get_socket s o addr = (r, s', o') →
  match r with
  | Some p => counted (plus users p) s' ∧ conns s' !! addr = Some p ∧ is_Some (heap s' !! p)
  | None => s' = s
  end.
Proof.
  intros Hc. unfold get_socket. destruct (conns s !! addr) as [p|] eqn:Hp.
  { intros [= <- <- <-]. destruct (c_conns _ _ Hc _ _ Hp) as [b Hb]. split_and!; [|done|].
    - apply counted_clone; [done|by eexists].
    - simpl. unfold rc_clone. rewrite lookup_alter_eq, Hb. by eexists. }
  destruct (new_socket o addr true) as [[raw|] o1]; intros [= <- <- <-]; [|done].
  destruct Hc as [H1 H2 H3 H4].
  assert (heap s !! next_ptr s = None) as Hfresh.
  { destruct (heap s !! next_ptr s) as [b|] eqn:Hb; [|done].
    destruct (H1 _ _ Hb) as (_ & Hlt & _). lia. }
  assert (∀ a, conns s !! a ≠ Some (next_ptr s)) as Hnone.
  { intros a Ha. apply H2 in Ha as [b Hb]. congruence. }
  split_and!; [|simpl; by rewrite lookup_insert_eq|simpl; rewrite lookup_insert_eq; by eexists].
  split; simpl.
  - intros q b. unfold plus. destruct (decide (next_ptr s = q)) as [<-|Hne].
    + rewrite lookup_insert_eq. intros [= <-]. simpl. rewrite decide_True, H4 by done.
      split_and!; [done|lia|]. exists addr. by rewrite lookup_insert_eq.
    + rewrite lookup_insert_ne by done. intros Hb. rewrite decide_False by done.
      destruct (H1 q b Hb) as (Hs & Hlt & [a Ha]). split_and!; [done|lia|].
      exists a. rewrite lookup_insert_ne; [done|]. intros ->. congruence.
  - intros a q. destruct (decide (addr = a)) as [<-|Hne].
    + rewrite lookup_insert_eq. intros [= <-]. rewrite lookup_insert_eq. by eexists.
    + rewrite lookup_insert_ne by done. intros Hq. destruct (decide (next_ptr s = q)) as [<-|Hq'].
      * rewrite lookup_insert_eq. by eexists.
      * rewrite lookup_insert_ne by done. by eapply H2.
  - intros a a' q. destruct (decide (addr = a)) as [<-|Ha], (decide (addr = a')) as [<-|Ha'];
      rewrite ?lookup_insert_eq, ?lookup_insert_ne by done; try done.
    + intros [= <-] Hq. by apply Hnone in Hq.
    + intros Hq [= <-]. by apply Hnone in Hq.
    + apply H3.
  - intros q. unfold plus. destruct (decide (next_ptr s = q)) as [<-|Hne].
    + by rewrite lookup_insert_eq.
    + rewrite lookup_insert_ne by done. rewrite decide_False by done. apply H4.
Qed.

(** Evicting a socket that nothing else refers to drops it. *)
Lemma evict_counted users s addr :
  counted users s → (∀ p, conns s !! addr = Some p → users p = 0%nat) →
  counted users (evict s addr).
Proof.
  intros [H1 H2 H3 H4] Hu. unfold evict. destruct (conns s !! addr) as [p|] eqn:Hp; [|by split].
  destruct (H2 _ _ Hp) as [b Hb]. destruct (H1 _ _ Hb) as (Hs & _). rewrite (Hu p eq_refl) in Hs.
  unfold drop, rc_drop. simpl. rewrite Hb, Hs. simpl. split; simpl.
  - intros q b' Hq. apply lookup_delete_Some in Hq as [Hne Hq].
    destruct (H1 q b' Hq) as (? & ? & [a Ha]). split_and!; [done|done|]. exists a.
    rewrite lookup_delete_ne; [done|]. intros ->. congruence.
  - intros a q [Hne Hq]%lookup_delete_Some. rewrite lookup_delete_ne; [by eapply H2|].
    intros ->. apply Hne. by eapply H3.
  - intros a a' q [_ Ha]%lookup_delete_Some [_ Ha']%lookup_delete_Some. by eapply H3.
  - intros q. destruct (decide (p = q)) as [<-|Hne]; [intros _; by apply Hu|].
    rewrite lookup_delete_ne by done. apply H4.
Qed.

Lemma evict_conns s addr a : conns (evict s addr) !! a = if decide (a = addr) then None else conns s !! a.
Proof.
  unfold evict. destruct (conns s !! addr) as [p|] eqn:Hp; simpl.
  - destruct (decide (a = addr)) as [->|Hne]; [by rewrite lookup_delete_eq|].
    by rewrite lookup_delete_ne.
  - by destruct (decide (a = addr)) as [->|Hne].
Qed.

Lemma evict_all_counted users s l :
  counted users s → (∀ a p, a ∈ l → conns s !! a = Some p → users p = 0%nat) →
  counted users (foldl evict s l)
  ∧ ∀ a, conns (foldl evict s l) !! a = if decide (a ∈ l) then None else conns s !! a.
Proof.
  revert s. induction l as [|addr l IH]; intros s Hc Hu.
  { split; [done|]. intros a. rewrite decide_False; [done|apply not_elem_of_nil]. }
  cbn [foldl]. destruct (IH (evict s addr)) as [H1 H2].
  - apply evict_counted; [done|]. intros p. apply Hu, list_elem_of_here.
  - intros a p Ha. rewrite evict_conns. case_decide; [done|]. by apply Hu, list_elem_of_further.
  - split; [done|]. intros a. rewrite H2, evict_conns.
    repeat case_decide; try done; exfalso; set_solver.
Qed.

Lemma check_timeout_spec users s :
  counted users s →
  counted users (check_timeout s)
  ∧ ∀ a, conns (check_timeout s) !! a =
      match conns s !! a with
      | Some p => if (users p =? 0)%nat then None else Some p
      | None => None
      end.
Proof.
  intros Hc. unfold check_timeout.
  assert (∀ a p, conns s !! a = Some p → strong_count s p = S (users p)) as Hsc.
  { intros a p Ha. destruct (c_conns _ _ Hc _ _ Ha) as [b Hb]. unfold strong_count. rewrite Hb.
    by apply (c_heap _ _ Hc). }
  set (l := omap _ (map_to_list (conns s))).
  assert (∀ a, a ∈ l ↔ ∃ p, conns s !! a = Some p ∧ users p = 0%nat) as Hl.
  { intros a. unfold l. rewrite list_elem_of_omap. split.
    - intros ([a' p] & Hap%elem_of_map_to_list & Hcount). rewrite (Hsc _ _ Hap) in Hcount.
      destruct (Nat.eqb_spec (S (users p)) 1); [|done]. injection Hcount as <-. exists p.
      split; [done|lia].
    - intros (p & Ha & Hu). exists (a, p). split; [by apply elem_of_map_to_list|].
      by rewrite (Hsc _ _ Ha), Hu. }
  destruct (evict_all_counted users s l Hc) as [H1 H2].
  { intros a p (p' & Hp' & Hu)%Hl Ha. congruence. }
  split; [exact H1|]. intros a. rewrite H2. destruct (conns s !! a) as [p|] eqn:Ha; [|by case_decide].
  case_decide as Hin; [|].
  - apply Hl in Hin as (p' & Hp' & Hu). rewrite Ha in Hp'. injection Hp' as <-. by rewrite Hu.
  - destruct (Nat.eqb_spec (users p) 0); [|done]. exfalso. apply Hin, Hl. by exists p.
Qed.
Lemma check_timeout_counted users s : counted users s → counted users (check_timeout s).
Proof. intros Hc. by apply check_timeout_spec. Qed.

(** [check_timeout] evicts exactly the sockets no connection holds: with
    counts that are right, the addresses that stay are those whose socket is
    still referred to outside the cache, no socket in use is closed, and the
    counts are right after. *)
Theorem cache_evicts_unused users s :
  counted users s →
  counted users (check_timeout s)
  ∧ ∀ a, conns (check_timeout s) !! a =
      match conns s !! a with
      | Some p => if (users p =? 0)%nat then None else Some p
      | None => None
      end.
Proof. apply check_timeout_spec. Qed.
End UdpSvrCache.
#[global] Arguments t E : clear implicits.
End UdpSvrCache.

Module UdpCacheWitness.
  Import UdpSvrCache.
#[local] Existing Instance Sim.env.

(** Two sockets, one of them used by two connections. *)
Definition a1 : SocketAddr := mkSocketAddr (V4 [8; 8; 8; 8]) 53.
Definition a2 : SocketAddr := mkSocketAddr (V4 [9; 9; 9; 9]) 53.
Definition cache : t Sim.env :=
  mk {[ a1 := 0%nat; a2 := 1%nat ]}
    {[ 0%nat := mkRcBox 3 Sim.idle_socket; 1%nat := mkRcBox 1 Sim.idle_socket ]} 2.
Definition in_use (p : nat) : nat := if (p =? 0)%nat then 2%nat else 0%nat.

Lemma cache_counted : counted in_use cache.
Proof.
  split; unfold cache; cbn [heap conns next_ptr].
  - intros p b [[<- <-]|[Hne [<- <-]%lookup_singleton_Some]]%lookup_insert_Some;
      (split_and!; [done|simpl; lia|]); [by exists a1|by exists a2].
  - intros a p [[<- <-]|[Hne [<- <-]%lookup_singleton_Some]]%lookup_insert_Some; by eexists.
  - intros a a' p [[<- <-]|[Hne [<- <-]%lookup_singleton_Some]]%lookup_insert_Some
      [[<- H]|[Hne' [<- H]%lookup_singleton_Some]]%lookup_insert_Some; congruence.
  - intros p [_ H]%lookup_insert_None. unfold in_use. destruct (Nat.eqb_spec p 0); [|done].
    congruence.
Qed.

Lemma cache_evicts_unused_witness :
  counted in_use (check_timeout cache)
  ∧ ∀ a, conns (check_timeout cache) !! a =
      match conns cache !! a with
      | Some p => if (in_use p =? 0)%nat then None else Some p
      | None => None
      end.
Proof. exact (cache_evicts_unused in_use cache cache_counted). Defined.
End UdpCacheWitness.
