(* ===== verification/ProxyUdp.v ===== *)
(** * The proxy's UDP connections ([src/src/proxy/udp_server.rs])

    A client's datagrams travel to the server as packets in one TLS connection
    per source address; the packets that come back are sent from the address the
    client wrote to.  [conns] and [src_map] share their connections as [Arc]s:
    [store] holds them, and both maps hold pointers.  [None] is a panic or
    exhausted fuel; the clock is read once per call. *)

From Stdlib Require Import ZArith Lia.
From stdpp Require Import base option list gmap sets.
From S2P Require Import Prelude Framing Net Config Proto Status Env TlsConn.
From S2P Require Import Resolver Stats Backend UdpBackend IdlePool NetProfiler ProxyTokens UdpCache.

Open Scope Z_scope.
Open Scope rust_scope.

Module UdpConn.
Section UdpConn.
Context {E : Env} {SA : SocketApi E} (OPTIONS : Opts).

Abbreviation Cache := (UdpSvrCache.t E).

Record t : Type := mk {
  index : Z;
  src_addr : SocketAddr;
  send_buffer : bytes;
  recv_buffer : bytes;
  server_conn : TlsConn E;
  status : ConnStatus;
  socket : nat;
  dst_addr : SocketAddr;
  bytes_read : Z;
  bytes_sent : Z;
  last_active : Z
}.

Definition with_send (c : t) (b : bytes) : t :=
  mk (index c) (src_addr c) b (recv_buffer c) (server_conn c) (status c) (socket c) (dst_addr c)
    (bytes_read c) (bytes_sent c) (last_active c).
Definition with_recv (c : t) (b : bytes) : t :=
  mk (index c) (src_addr c) (send_buffer c) b (server_conn c) (status c) (socket c) (dst_addr c)
    (bytes_read c) (bytes_sent c) (last_active c).
Definition with_server (c : t) (s : TlsConn E) : t :=
  mk (index c) (src_addr c) (send_buffer c) (recv_buffer c) s (status c) (socket c) (dst_addr c)
    (bytes_read c) (bytes_sent c) (last_active c).
Definition with_status (c : t) (st : ConnStatus) : t :=
  mk (index c) (src_addr c) (send_buffer c) (recv_buffer c) (server_conn c) st (socket c)
    (dst_addr c) (bytes_read c) (bytes_sent c) (last_active c).
Definition with_target (c : t) (p : nat) (a : SocketAddr) : t :=
  mk (index c) (src_addr c) (send_buffer c) (recv_buffer c) (server_conn c) (status c) p a
    (bytes_read c) (bytes_sent c) (last_active c).
Definition with_time (c : t) (now : Z) : t :=
  mk (index c) (src_addr c) (send_buffer c) (recv_buffer c) (server_conn c) (status c) (socket c)
    (dst_addr c) (bytes_read c) (bytes_sent c) now.
Definition count_read (c : t) (n : nat) : t :=
  mk (index c) (src_addr c) (send_buffer c) (recv_buffer c) (server_conn c) (status c) (socket c)
    (dst_addr c) (wrap 64 (bytes_read c + Z.of_nat n)) (bytes_sent c) (last_active c).
Definition count_sent (c : t) (n : nat) : t :=
  mk (index c) (src_addr c) (send_buffer c) (recv_buffer c) (server_conn c) (status c) (socket c)
    (dst_addr c) (bytes_read c) (wrap 64 (bytes_sent c + Z.of_nat n)) (last_active c).

#[global] Instance status_provider : StatusProvider t := {
  set_status := with_status;
  get_status := status;
  close_conn c := (true, c);
  deregister c := (true, c);
  finish_send c := (bool_decide (send_buffer c = []), c)
}.

#[global] Instance lawful : LawfulStatus t.
Proof. by split. Qed.

#[global] Instance infallible : InfallibleStatus t.
Proof. by split. Qed.

(** The socket behind a pointer of the cache's heap. *)
Definition deref (h : Cache) (p : nat) : option UdpSocket :=
  UdpSvrCache.value <$> UdpSvrCache.heap h !! p.

Definition store_socket (h : Cache) (p : nat) (s : UdpSocket) : Cache :=
  UdpSvrCache.with_heap h
    (alter (λ b, UdpSvrCache.mkRcBox (UdpSvrCache.strong b) s) p (UdpSvrCache.heap h)).

(** [None] is the [unwrap] of a socket without a local address. *)
Definition new (now index : Z) (server_conn : TlsConn E) (src_addr : SocketAddr) (h : Cache)
    (socket : nat) : option t :=
  s ← deref h socket;
  dst_addr ← local_addr s;
  Some (mk index src_addr [] [] server_conn Established socket dst_addr 0 0 now).

Definition setup (c : t) : option (bool * t) :=
  empty ← empty_addr OPTIONS;
  let c := with_recv c (TrojanRequest.generate OPTIONS UDP_ASSOCIATE empty) in
  let '(ok, s) := write_session (server_conn c) (recv_buffer c) in
  Some (ok, with_server c s).

Definition destroyed (c : t) : bool := deregistered c && deregistered (server_conn c).

Definition do_status (c : t) : t :=
  let c := if is_shutdown c then with_server c (peer_closed (server_conn c)) else c in
  let c := if is_shutdown (server_conn c) then peer_closed c else c in
  let c := check_status c in
  with_server c (check_status (server_conn c)).

Definition try_send_server (fuel : nat) (c : t) : option t :=
  s ← do_send fuel (server_conn c); Some (with_server c s).

Definition send_request (fuel : nat) (now : Z) (c : t) (payload : bytes) (dst : SocketAddr)
  : option t :=
  if 120 <? as_secs (since now (last_active c)) then Some (do_status (shutdown c).2)
  else if negb (is_connecting (server_conn c)) && negb (writable (server_conn c)) then Some c
  else
    let c := count_read c (length payload) in
    let c := with_recv c (UdpAssociate.generate dst (wrap 16 (Z.of_nat (length payload)))) in
    let '(ok, s) := write_session (server_conn c) (recv_buffer c) in
    let s := if (ok : bool) then (write_session s payload).2 else s in
    c ← try_send_server fuel (with_server c s);
    Some (do_status c).

(** [do_send_udp]: the socket changes when the packet is from another address;
    without a socket for it, the packet is dropped. *)
Definition retarget (c : t) (h : Cache) (o : OS) (dst : SocketAddr) : bool * t * Cache * OS :=
  if decide (dst_addr c = dst) then (true, c, h, o)
  else
    match UdpSvrCache.get_socket h o dst with
    | (Some p, h, o) => (true, with_target c p dst, UdpSvrCache.drop h (socket c), o)
    | (None, h, o) => (false, c, h, o)
    end.

Definition do_send_udp (c : t) (h : Cache) (o : OS) (dst : SocketAddr) (data : bytes)
  : option (t * Cache * OS) :=
  let '(ok, c, h, o) := retarget c h o dst in
  if negb ok then Some (c, h, o)
  else
    s ← deref h (socket c);
    let '(r, s) := udp_send_to s data (src_addr c) in
    let h := store_socket h (socket c) s in
    Some (match r with IoOk size => count_sent c size | IoErr _ => c end, h, o).

(** Each iteration takes a packet off [buffer]. *)
Fixpoint do_send_client (fuel : nat) (c : t) (h : Cache) (o : OS) (buffer : bytes)
  : option (t * Cache * OS) :=
  match fuel with
  | O => None
  | S fuel =>
      r ← UdpAssociate.parse buffer;
      match r with
      | UdpAssociate.Continued => Some (with_send c (send_buffer c ++ buffer), h, o)
      | UdpAssociate.Packet packet =>
          payload ← (UdpAssociate.payload packet).[upto UdpAssociate.length_ packet];
          addr ← as_socket (UdpAssociate.address packet);
          '(c, h, o) ← do_send_udp c h o addr payload;
          buffer ← (UdpAssociate.payload packet).[from UdpAssociate.length_ packet];
          do_send_client fuel c h o buffer
      | UdpAssociate.InvalidProtocol => Some (with_server c (tls_shutdown (server_conn c)), h, o)
      end
  end.

Definition try_send_client (c : t) (h : Cache) (o : OS) (buffer : bytes)
  : option (t * Cache * OS) :=
  if decide (send_buffer c = []) then do_send_client (S (length buffer)) c h o buffer
  else
    let buffer := send_buffer c ++ buffer in
    do_send_client (S (length buffer)) (with_send c []) h o buffer.

Definition try_read_server (fuel : nat) (c : t) (h : Cache) (o : OS) : option (t * Cache * OS) :=
  '(buffer, s) ← do_read fuel (server_conn c);
  let c := with_server c s in
  match buffer with
  | Some buffer => try_send_client c h o buffer
  | None => Some (c, h, o)
  end.

Definition ready (fuel : nat) (now : Z) (c : t) (event : Event) (h : Cache) (o : OS)
  : option (t * Cache * OS) :=
  let c := with_time c now in
  '(c, h, o) ← (if is_readable event then
                  '(c, h, o) ← try_read_server fuel c h o;
                  s ← do_send fuel (server_conn c);
                  Some (with_server c s, h, o)
                else Some (c, h, o));
  c ← (if is_writable event
       then try_send_server fuel (with_server c (established (server_conn c)))
       else Some c);
  Some (do_status c, h, o).

(** ** The references to sockets

    A connection is one reference to its socket, [base] the others. *)
Definition held (base : nat → nat) (c : t) (h : Cache) : Prop :=
  UdpSvrCache.counted (UdpSvrCache.plus base (socket c)) h.

(** What identifies a connection in the tables. *)
Definition same_place (c c' : t) : Prop := index c' = index c ∧ src_addr c' = src_addr c.

Lemma same_place_refl c : same_place c c.
Proof. done. Qed.

Lemma same_place_trans a b c : same_place a b → same_place b c → same_place a c.
Proof. intros [? ?] [? ?]. split; congruence. Qed.

Lemma store_socket_counted users h p s :
  UdpSvrCache.counted users h → UdpSvrCache.counted users (store_socket h p s).
Proof.
  intros [H1 H2 H3 H4]. unfold store_socket. split; simpl; try done.
  - intros q b. destruct (decide (p = q)) as [<-|Hne].
    + rewrite lookup_alter_eq. destruct (UdpSvrCache.heap h !! p) as [b0|] eqn:Hb; [|done].
      intros [= <-]. exact (H1 p b0 Hb).
    + rewrite lookup_alter_ne by done. apply H1.
  - intros a q Hq. apply H2 in Hq as [b Hb]. destruct (decide (p = q)) as [<-|Hne].
    + rewrite lookup_alter_eq, Hb. by eexists.
    + rewrite lookup_alter_ne by done. by eexists.
  - intros q. destruct (decide (p = q)) as [<-|Hne].
    + rewrite lookup_alter_eq. destruct (UdpSvrCache.heap h !! p) eqn:Hb; [done|].
      intros _. by apply H4.
    + rewrite lookup_alter_ne by done. apply H4.
Qed.

Lemma retarget_held base c h o dst ok c' h' o' :
  held base c h → retarget c h o dst = (ok, c', h', o') →
  held base c' h' ∧ same_place c c' ∧ send_buffer c' = send_buffer c
  ∧ (ok = true → dst_addr c' = dst).
Proof.
  intros Hc. unfold retarget. case_decide as Hd; [by intros [= <- <- <- <-]|].
  destruct (UdpSvrCache.get_socket h o dst) as [[[p|] h1] o1] eqn:Hg.
  - intros [= <- <- <- <-]. split_and!; try done. unfold held in *. simpl.
    apply (UdpSvrCache.get_socket_counted _ _ _ _ _ _ _ Hc) in Hg as (Hg & _).
    apply UdpSvrCache.counted_drop. eapply UdpSvrCache.counted_ext; [|exact Hg].
    intros q. unfold UdpSvrCache.plus. repeat case_decide; done.
  - intros [= <- <- <- <-].
    by apply (UdpSvrCache.get_socket_counted _ _ _ _ _ _ _ Hc) in Hg as ->.
Qed.

Lemma held_deref base c h : held base c h → is_Some (deref h (socket c)).
Proof.
  intros [_ _ _ H4]. unfold deref. destruct (UdpSvrCache.heap h !! socket c) eqn:Hb; [by eexists|].
  specialize (H4 _ Hb). unfold UdpSvrCache.plus in H4. by rewrite decide_True in H4.
Qed.

(** [do_send_udp] never finds its socket gone, and keeps the counts. *)
Lemma do_send_udp_held base c h o dst data :
  held base c h →
  ∃ c' h' o', do_send_udp c h o dst data = Some (c', h', o')
    ∧ held base c' h' ∧ same_place c c' ∧ send_buffer c' = send_buffer c.
Proof.
  intros Hc. unfold do_send_udp. destruct (retarget c h o dst) as [[[ok c1] h1] o1] eqn:Hr.
  apply (retarget_held base) in Hr as (H1 & H2 & H3 & _); [|done].
  destruct ok; cbn [negb]; [|by eexists _, _, _].
  destruct (held_deref _ _ _ H1) as [s Hs]. rewrite Hs. cbn [mbind option_bind].
  destruct (udp_send_to s data (src_addr c1)) as [[n|k] s1];
    (eexists _, _, _; split; [reflexivity|]; split_and!; [|done|done]);
    by apply store_socket_counted.
Qed.

(** ** Reassembly *)

Abbreviation State := (t * Cache * OS)%type.

(** A datagram for the client, from its source. *)
Definition deliver (acc : option State) (d : bytes * SocketAddr) : option State :=
  '(c, h, o) ← acc; do_send_udp c h o d.2 d.1.

Definition deliver_all (x : State) (ds : list (bytes * SocketAddr)) : option State :=
  foldl deliver (Some x) ds.

Lemma deliver_all_held base ds c h o :
  held base c h →
  ∃ c' h' o', deliver_all (c, h, o) ds = Some (c', h', o')
    ∧ held base c' h' ∧ same_place c c' ∧ send_buffer c' = send_buffer c.
Proof.
  revert c h o. induction ds as [|d ds IH]; intros c h o Hc; [by eexists _, _, _|].
  destruct (do_send_udp_held base c h o d.2 d.1 Hc) as (c1 & h1 & o1 & H1 & H2 & H3 & H4).
  destruct (IH c1 h1 o1 H2) as (c2 & h2 & o2 & K1 & K2 & K3 & K4).
  exists c2, h2, o2. unfold deliver_all in *. cbn [foldl deliver mbind option_bind]. rewrite H1.
  split_and!; [exact K1|done|by eapply same_place_trans|congruence].
Qed.

(** The buffer does not matter to a delivery. *)
Definition buffered (b : bytes) (x : State) : State :=
  let '(c, h, o) := x in (with_send c b, h, o).

Lemma do_send_udp_buffered c h o dst data b :
  do_send_udp (with_send c b) h o dst data = buffered b <$> do_send_udp c h o dst data.
Proof.
  unfold do_send_udp, retarget. cbn [dst_addr with_send socket].
  case_decide; cbn [negb].
  - destruct (deref h (socket c)) as [s|] eqn:Hs; cbn [socket with_send]; rewrite Hs; [|done].
    cbn [mbind option_bind src_addr with_send]. by destruct (udp_send_to _ _ _) as [[] ?].
  - destruct (UdpSvrCache.get_socket h o dst) as [[[p|] h1] o1]; cbn [negb]; [|done].
    cbn [socket with_target]. destruct (deref _ p) as [s|]; [|done].
    cbn [mbind option_bind src_addr with_send with_target].
    by destruct (udp_send_to _ _ _) as [[] ?].
Qed.

Lemma deliver_all_buffered b ds x :
  deliver_all (buffered b x) ds = buffered b <$> deliver_all x ds.
Proof.
  revert x. induction ds as [|d ds IH]; intros [[c h] o]; [done|].
  unfold deliver_all in *. cbn [foldl deliver mbind option_bind buffered].
  rewrite do_send_udp_buffered.
  destruct (do_send_udp c h o d.2 d.1) as [[[c1 h1] o1]|]; cbn [fmap option_map option_fmap].
  - apply (IH (c1, h1, o1)).
  - clear. by induction ds.
Qed.

Abbreviation packet := UdpBackend.packet.
Abbreviation wf_datagram := UdpBackend.wf_datagram.
Abbreviation encode := (Framing.encode UdpBackend.packet).
Abbreviation partial := (Framing.partial UdpBackend.packet UdpBackend.wf_datagram).

Lemma do_send_client_encode base ds p fuel c h o :
  Forall wf_datagram ds → partial p → held base c h → send_buffer c = [] →
  (length (encode ds ++ p) < fuel)%nat →
  do_send_client fuel c h o (encode ds ++ p) = buffered p <$> deliver_all (c, h, o) ds.
Proof.
  intros Hds Hp. revert fuel c h o.
  induction Hds as [|d ds Hd Hds IH]; intros fuel c h o Hc Hb Hf; (destruct fuel as [|fuel]; [lia|]);
    cbn [do_send_client].
  - change (encode [] ++ p) with p. rewrite (UdpBackend.parse_partial p Hp).
    cbn [mbind option_bind]. by rewrite Hb.
  - rewrite encode_cons, <-app_assoc in *.
    destruct (UdpBackend.parse_packet d (encode ds ++ p) Hd) as [off ->].
    cbn [mbind option_bind as_socket UdpAssociate.address UdpAssociate.payload
      UdpAssociate.length_].
    rewrite slice_to_app, slice_from_app. cbn [mbind option_bind].
    unfold deliver_all. cbn [foldl deliver mbind option_bind].
    destruct (do_send_udp_held base c h o d.2 d.1 Hc) as (c1 & h1 & o1 & -> & H2 & _ & H4).
    cbn [mbind option_bind]. apply IH; [done|congruence|].
    pose proof (UdpBackend.packet_nonempty d). rewrite length_app in Hf. lia.
Qed.

Definition feed (x : State) (chunk : bytes) : option State :=
  let '(c, h, o) := x in try_send_client c h o chunk.

Lemma feed_encode base ds p p0 c h o chunk :
  Forall wf_datagram ds → partial p → held base c h → send_buffer c = p0 →
  p0 ++ chunk = encode ds ++ p →
  feed (c, h, o) chunk = buffered p <$> deliver_all (c, h, o) ds.
Proof.
  intros Hds Hp Hc Hb Heq. unfold feed, try_send_client. case_decide as Hbe.
  - rewrite Hbe in Hb. subst p0. simpl in Heq. rewrite Heq.
    apply (do_send_client_encode base); try done. lia.
  - rewrite Hb, Heq. rewrite (do_send_client_encode base); try done; [|lia].
    change (with_send c [], h, o) with (buffered [] (c, h, o)). rewrite deliver_all_buffered.
    by destruct (deliver_all (c, h, o) ds) as [[[c1 h1] o1]|].
Qed.

(** Replies: however the server's stream of packets is cut into reads, the
    datagrams whose packets have fully arrived are delivered to the client once
    each and in order, each from the source its packet names, exactly as if
    [do_send_udp] were called on them one by one; the incomplete rest is kept;
    and nothing panics: in particular the connection's socket, shared with the
    cache and other connections, is alive at every step. *)
Theorem udp_replies_reassemble base c h o chunks ds p :
  held base c h → send_buffer c = [] →
  Forall wf_datagram ds → partial p → mjoin chunks = encode ds ++ p →
  ∃ c' h' o', deliver_all (c, h, o) ds = Some (c', h', o')
    ∧ feed_all feed (c, h, o) chunks = Some (with_send c' p, h', o')
    ∧ held base c' h'.
Proof.
  intros Hc Hb Hds Hp Heq.
  destruct (feed_all_ok packet wf_datagram feed
    (λ done p x, ∃ y, deliver_all (c, h, o) done = Some y ∧ x = buffered p y) UdpBackend.packet_complete)
    with (done := @nil (bytes * SocketAddr)) (p0 := @nil Z) (s := (c, h, o)) (chunks := chunks)
         (xs := ds) (p := p) as (x & Hx & ([[c' h'] o'] & Hy & ->)); try done.
  - intros done p0 x chunk xs p1 ([[c1 h1] o1] & Hy & ->) Hxs Hp1 Hch.
    destruct (deliver_all_held base done c h o Hc) as (c2 & h2 & o2 & Hd & Hh & _).
    rewrite Hy in Hd. injection Hd as -> -> ->.
    destruct (deliver_all_held base xs c2 h2 o2 Hh) as (c3 & h3 & o3 & Hd3 & _).
    exists (buffered p1 (c3, h3, o3)). split.
    + change (buffered p0 (c2, h2, o2)) with (with_send c2 p0, h2, o2).
      rewrite (feed_encode base xs p1 p0); try done.
      change (with_send c2 p0, h2, o2) with (buffered p0 (c2, h2, o2)).
      rewrite deliver_all_buffered, Hd3. done.
    + exists (c3, h3, o3). split; [|done]. unfold deliver_all in *. rewrite foldl_app.
      by rewrite Hy.
  - exists (c, h, o). split; [done|]. simpl. rewrite <-Hb. by destruct c.
  - by left.
  - destruct (deliver_all_held base ds c h o Hc) as (c2 & h2 & o2 & Hd & Hh & _).
    exists c2, h2, o2. split; [exact Hd|]. cbn [app] in Hy. rewrite Hd in Hy.
    by injection Hy as <- <- <-.
Qed.

(** ** What any handler keeps *)

(** The same connection with the same socket. *)
Definition same_refs (c c' : t) : Prop := same_place c c' ∧ socket c' = socket c.

#[local] Instance refs_frame : FrameStatus (λ c : t, (index c, src_addr c, socket c)).
Proof. by split. Qed.

Lemma same_refs_frame (op : t → t) c :
  (∀ (A : Type) (f : t → A), FrameStatus f → f (op c) = f c) → same_refs c (op c).
Proof.
  intros H. pose proof (H _ _ refs_frame) as Hr. simpl in Hr. injection Hr as H1 H2 H3.
  by repeat split.
Qed.

Lemma same_refs_trans a b c : same_refs a b → same_refs b c → same_refs a c.
Proof. intros [[? ?] ?] [[? ?] ?]. repeat split; congruence. Qed.

Lemma do_status_refs c : same_refs c (do_status c).
Proof.
  unfold do_status.
  set (c1 := if is_shutdown c then with_server c (peer_closed (server_conn c)) else c).
  assert (same_refs c c1) as H1 by (subst c1; by destruct (is_shutdown c)). clearbody c1.
  set (c2 := if is_shutdown (server_conn c1) then peer_closed c1 else c1).
  assert (same_refs c1 c2) as H2.
  { subst c2. destruct (is_shutdown (server_conn c1)); [|done].
    apply (same_refs_frame peer_closed). intros A f Hf. by apply frame_peer_closed. }
  clearbody c2. eapply same_refs_trans; [exact H1|]. eapply same_refs_trans; [exact H2|].
  apply (same_refs_frame check_status c2). intros A f Hf. by apply frame_check_status.
Qed.

Lemma send_request_refs fuel now c payload dst c' :
  send_request fuel now c payload dst = Some c' → same_refs c c'.
Proof.
  unfold send_request. destruct (120 <? _).
  { intros [= <-]. eapply same_refs_trans; [|apply do_status_refs].
    apply (same_refs_frame (λ c, (shutdown c).2)). intros A f Hf. by apply frame_shutdown. }
  destruct (_ && _); [by intros [= <-]|]. cbn zeta.
  match goal with |- context [write_session ?a ?b] => destruct (write_session a b) as [ok s] end.
  unfold try_send_server. cbn [server_conn with_server].
  destruct (do_send fuel _) as [s1|]; [|done]. cbn [mbind option_bind]. intros [= <-].
  eapply same_refs_trans; [|apply do_status_refs]. done.
Qed.

Lemma do_send_client_held base fuel c h o buffer c' h' o' :
  held base c h → do_send_client fuel c h o buffer = Some (c', h', o') →
  held base c' h' ∧ same_place c c'.
Proof.
  revert c h o buffer. induction fuel as [|fuel IH]; intros c h o buffer Hc; [done|].
  cbn [do_send_client]. destruct (UdpAssociate.parse buffer) as [[]|]; [| |by intros [= <- <- <-]|done];
    cbn [mbind option_bind]; [|by intros [= <- <- <-]].
  destruct (slice_to _ _) as [data|]; [|done]. cbn [mbind option_bind].
  destruct (as_socket _) as [a|]; [|done]. cbn [mbind option_bind].
  destruct (do_send_udp_held base c h o a data Hc) as (c1 & h1 & o1 & -> & H2 & H3 & _).
  cbn [mbind option_bind]. destruct (slice_from _ _) as [rest|]; [|done]. cbn [mbind option_bind].
  intros H. destruct (IH _ _ _ _ H2 H) as [H4 H5]. split; [done|]. by eapply same_place_trans.
Qed.

Lemma ready_held base fuel now c event h o c' h' o' :
  held base c h → ready fuel now c event h o = Some (c', h', o') →
  held base c' h' ∧ same_place c c'.
Proof.
  intros Hc. unfold ready.
  match goal with |- context [if is_readable event then ?a else ?b] =>
    set (r := if is_readable event then a else b);
    assert (∀ c1 h1 o1, r = Some (c1, h1, o1) → held base c1 h1 ∧ same_place c c1) as Hr end.
  { subst r. intros c1 h1 o1. destruct (is_readable event); [|by intros [= <- <- <-]].
    unfold try_read_server. cbn [server_conn with_time].
    destruct (do_read fuel _) as [[[data|] s]|]; [| |done]; cbn [mbind option_bind].
    2: { destruct (do_send fuel _) as [s2|]; [|done]. by intros [= <- <- <-]. }
    destruct (try_send_client _ h o data) as [[[c2 h2] o2]|] eqn:Hts; [|done].
    cbn [mbind option_bind].
    assert (held base c2 h2 ∧ same_place c c2) as H2.
    { unfold try_send_client in Hts. case_decide;
        (eapply do_send_client_held in Hts; [exact Hts|exact Hc]). }
    destruct (do_send fuel _) as [s2|]; [|done]. by intros [= <- <- <-]. }
  clearbody r. destruct r as [[[c1 h1] o1]|]; [|done]. cbn [mbind option_bind].
  destruct (Hr _ _ _ eq_refl) as [H1 H2]. clear Hr.
  match goal with |- context [if is_writable event then ?a else ?b] =>
    set (r := if is_writable event then a else b);
    assert (∀ c2, r = Some c2 → same_refs c1 c2) as Hr end.
  { subst r. intros c2. destruct (is_writable event); [|by intros [= <-]].
    unfold try_send_server. destruct (do_send fuel _); [|done]. by intros [= <-]. }
  clearbody r. destruct r as [c2|]; [|done]. cbn [mbind option_bind]. intros [= <- <- <-].
  destruct (same_refs_trans _ _ _ (Hr _ eq_refl) (do_status_refs c2)) as [Hp Hs].
  split; [|by eapply same_place_trans]. unfold held in *. by rewrite Hs.
Qed.

Context `{!EnvOk E}.

(** [ready] does not loop: beyond some fuel it returns or panics. *)
Lemma ready_decided base now c event h o :
  held base c h →
  decided (λ fuel, ready fuel now c event h o) (λ r, match r with
    | Some (c', h', _) => held base c' h' ∧ same_place c c'
    | None => True
    end).
Proof.
  intros Hc.
  assert (decided (λ fuel, ready fuel now c event h o) (λ _, True)) as (n & r & _ & Hr).
  { unfold ready. eapply decided_bind with (P := λ _, True); [|done|].
    - destruct (is_readable event); [|by apply decided_ret].
      eapply decided_bind with (P := λ _, True); [|done|].
      + unfold try_read_server. eapply decided_bind; [|done|].
        * eapply decided_terminates, do_read_terminates.
        * intros [[data|] s] _; by apply decided_ret.
      + intros [[c1 h1] o1] _. eapply decided_bind; [|done|].
        * eapply decided_terminates, do_send_terminates.
        * intros s _. by apply decided_ret.
    - intros [[c1 h1] o1] _. eapply decided_bind with (P := λ _, True); [|done|].
      + destruct (is_writable event); [|by apply decided_ret].
        unfold try_send_server. eapply decided_bind; [|done|].
        * eapply decided_terminates, do_send_terminates.
        * intros s _. by apply decided_ret.
      + intros c2 _. by apply decided_ret. }
  exists n, r. split; [|done]. destruct r as [[[c' h'] o']|]; [|done].
  exact (ready_held base n now c event h o c' h' o' Hc (Hr n ltac:(lia))).
Qed.

Lemma send_request_terminates now c payload dst :
  terminates (λ fuel, send_request fuel now c payload dst) (λ _, True).
Proof.
  unfold send_request. destruct (120 <? _); [by apply terminates_ret|].
  destruct (_ && _); [by apply terminates_ret|]. cbn zeta.
  match goal with |- context [write_session ?a ?b] => destruct (write_session a b) as [ok s] end.
  eapply terminates_bind with (P := λ _, True); [|intros c1 _; by apply terminates_ret].
  unfold try_send_server. eapply terminates_bind; [apply do_send_terminates|].
  intros s1 _. by apply terminates_ret.
Qed.
End UdpConn.
#[global] Arguments t E : clear implicits.
End UdpConn.

Module UdpServer.
Section UdpServer.
Context {E : Env} {GB : GroupBy} {SA : SocketApi E} (OPTIONS : Opts).

Abbreviation Conn := (UdpConn.t E).
Abbreviation Cache := (UdpSvrCache.t E).
Abbreviation Pool := (IdlePool.t E * OS * DnsResolver)%type.

Record t : Type := mk {
  listener : UdpSocket;
  conns : gmap Z nat;
  src_map : gmap SocketAddr nat;
  removed : list Z;
  next_id : Z;
  recv_len : nat;
  store : gmap nat Conn;
  next_ptr : nat
}.

Definition new (udp_listener : UdpSocket) : t :=
  mk udp_listener ∅ ∅ [] MIN_INDEX MAX_PACKET_SIZE ∅ 0.

Definition with_maps (s : t) (m : gmap Z nat) (a : gmap SocketAddr nat) : t :=
  mk (listener s) m a (removed s) (next_id s) (recv_len s) (store s) (next_ptr s).
Definition with_store (s : t) (m : gmap nat Conn) : t :=
  mk (listener s) (conns s) (src_map s) (removed s) (next_id s) (recv_len s) m (next_ptr s).
Definition with_removed (s : t) (l : list Z) : t :=
  mk (listener s) (conns s) (src_map s) l (next_id s) (recv_len s) (store s) (next_ptr s).
Definition with_next (s : t) (i : Z) : t :=
  mk (listener s) (conns s) (src_map s) (removed s) i (recv_len s) (store s) (next_ptr s).
Definition with_listener (s : t) (l : UdpSocket) : t :=
  mk l (conns s) (src_map s) (removed s) (next_id s) (recv_len s) (store s) (next_ptr s).

(** Whether an [Arc] to the connection is left, and its drop. *)
Definition referenced (s : t) (p : nat) : bool :=
  bool_decide (p ∈ (map_to_list (conns s)).*2 ++ (map_to_list (src_map s)).*2).

Definition release (s : t) (h : Cache) (p : nat) : t * Cache :=
  if referenced s p then (s, h)
  else match store s !! p with
       | Some c => (with_store s (delete p (store s)), UdpSvrCache.drop h (UdpConn.socket c))
       | None => (s, h)
       end.

Definition release_opt (s : t) (h : Cache) (p : option nat) : t * Cache :=
  match p with Some p => release s h p | None => (s, h) end.

(** A new connection for a source: [None] inside is that none could be made.  A
    pointer that [insert] replaces is dropped. *)
Definition connect (now : Z) (s : t) (st : Pool) (h : Cache) (src_addr dst_addr : SocketAddr)
  : option (option nat * t * Pool * Cache) :=
  let '(conn, st) := IdlePool.get st in
  match conn with
  | None => Some (None, s, st, h)
  | Some conn =>
      let '(p, o, r) := st in
      let '(socket, h, o) := UdpSvrCache.get_socket h o dst_addr in
      let st := (p, o, r) in
      match socket with
      | None => Some (None, s, st, h)
      | Some socket =>
          let '(index, next) := next_index (next_id s) in
          let s := with_next s next in
          let '(ok, conn) := reset_index conn index (token_of index CHANNEL_UDP) in
          if negb ok then Some (None, s, st, UdpSvrCache.drop h socket)
          else
            conn ← UdpConn.new now index conn src_addr h socket;
            '(ok, conn) ← UdpConn.setup OPTIONS conn;
            if negb (ok : bool) then Some (None, s, st, UdpSvrCache.drop h socket)
            else
              let ptr := next_ptr s in
              let old := conns s !! index in
              let s := mk (listener s) (<[index := ptr]> (conns s))
                         (<[src_addr := ptr]> (src_map s)) (removed s) (next_id s) (recv_len s)
                         (<[ptr := conn]> (store s)) (S ptr) in
              let '(s, h) := release_opt s h old in
              Some (Some ptr, s, st, h)
      end
  end.

Definition accept_once (fuel : nat) (now : Z) (s : t) (st : Pool) (h : Cache)
    (np : NetProfiler.t E)
  : option (io_result unit * t * Pool * Cache * NetProfiler.t E) :=
  let '(r, l) := recv_from_with_destination (listener s) (recv_len s) in
  let s := with_listener s l in
  match r with
  | IoErr k => Some (IoErr k, s, st, h, np)
  | IoOk (payload, src_addr, dst_addr) =>
      np ← NetProfiler.check fuel now np (sa_ip dst_addr);
      '(ptr, s, st, h) ← (match src_map s !! src_addr with
                          | Some ptr => Some (Some ptr, s, st, h)
                          | None => connect now s st h src_addr dst_addr
                          end);
      match ptr with
      | None => Some (IoOk tt, s, st, h, np)
      | Some ptr =>
          conn ← store s !! ptr;
          conn ← UdpConn.send_request fuel now conn payload dst_addr;
          let s := with_store s (<[ptr := conn]> (store s)) in
          Some (IoOk tt,
                if UdpConn.destroyed conn
                then with_removed s (removed s ++ [UdpConn.index conn]) else s, st, h, np)
      end
  end.

(** Errors but [WouldBlock] are logged. *)
Fixpoint accept (fuel : nat) (now : Z) (s : t) (st : Pool) (h : Cache) (np : NetProfiler.t E)
  : option (t * Pool * Cache * NetProfiler.t E) :=
  match fuel with
  | O => None
  | S fuel =>
      '(r, s, st, h, np) ← accept_once fuel now s st h np;
      match r with
      | IoErr WouldBlock => Some (s, st, h, np)
      | _ => accept fuel now s st h np
      end
  end.

Definition ready (fuel : nat) (now : Z) (s : t) (event : Event) (h : Cache) (o : OS)
  : option (t * Cache * OS) :=
  let index := token2index (ev_token event) in
  match conns s !! index with
  | Some ptr =>
      conn ← store s !! ptr;
      '(conn, h, o) ← UdpConn.ready fuel now conn event h o;
      let s := with_store s (<[ptr := conn]> (store s)) in
      Some (if UdpConn.destroyed conn then with_removed s (removed s ++ [index]) else s, h, o)
  | None => Some (s, h, o)
  end.

(** One index of [remove_closed]. *)
Definition remove_one (acc : option (t * Cache)) (index : Z) : option (t * Cache) :=
  '(s, h) ← acc;
  match conns s !! index with
  | Some ptr =>
      conn ← store s !! ptr;
      let src := UdpConn.src_addr conn in
      let other := src_map s !! src in
      let s := with_maps s (delete index (conns s)) (delete src (src_map s)) in
      let '(s, h) := release s h ptr in
      Some (release_opt s h other)
  | None => Some (s, h)
  end.

Definition remove_closed (s : t) (h : Cache) : option (t * Cache) :=
  foldl remove_one (Some (with_removed s [], h)) (removed s).

(** ** The tables *)

(** The references the connections of the store hold to a socket. *)
Definition users (m : gmap nat Conn) (p : nat) : nat :=
  size (filter (λ kv : nat * Conn, UdpConn.socket kv.2 = p) m).

Lemma users_insert m ptr c p :
  m !! ptr = None →
  users (<[ptr := c]> m) p = UdpSvrCache.plus (users m) (UdpConn.socket c) p.
Proof.
  intros Hm. unfold users, UdpSvrCache.plus. case_decide as Hp.
  - rewrite map_filter_insert_True by done. apply map_size_insert_None.
    by apply map_lookup_filter_None_2; left.
  - rewrite map_filter_insert_False by (simpl; congruence). by rewrite delete_id.
Qed.

(** The two tables and the store describe the same connections, and the counts
    of the sockets are right. *)
Record tables_ok (s : t) (h : Cache) : Prop := {
  t_store : ∀ p c, store s !! p = Some c →
    conns s !! UdpConn.index c = Some p ∧ src_map s !! UdpConn.src_addr c = Some p
    ∧ (p < next_ptr s)%nat;
  t_conns : ∀ i p, conns s !! i = Some p →
    ∃ c, store s !! p = Some c ∧ UdpConn.index c = i;
  t_src : ∀ a p, src_map s !! a = Some p →
    ∃ c, store s !! p = Some c ∧ UdpConn.src_addr c = a;
  t_counted : UdpSvrCache.counted (users (store s)) h
}.

Lemma tables_ok_new l : tables_ok (new l) UdpSvrCache.new.
Proof. by split. Qed.

Lemma referenced_spec s p :
  referenced s p = true ↔ (∃ i, conns s !! i = Some p) ∨ (∃ a, src_map s !! a = Some p).
Proof.
  unfold referenced. rewrite bool_decide_eq_true, elem_of_app, !list_elem_of_fmap. split.
  - intros [([i q] & -> & H)|([a q] & -> & H)]; apply elem_of_map_to_list in H; eauto.
  - intros [[i H]|[a H]]; [left; exists (i, p)|right; exists (a, p)];
      (split; [done|by apply elem_of_map_to_list]).
Qed.

(** A connection of the store is one reference, the others are the rest's. *)
Lemma held_of_counted s h ptr c :
  store s !! ptr = Some c → UdpSvrCache.counted (users (store s)) h →
  UdpConn.held (users (delete ptr (store s))) c h.
Proof.
  intros Hc. apply UdpSvrCache.counted_ext. intros p.
  rewrite <-(insert_delete_id (store s) ptr c Hc) at 1.
  apply users_insert. apply lookup_delete_eq.
Qed.

(** A handler ran on a connection of the store. *)
Lemma tables_ok_update s h h' ptr c c' :
  tables_ok s h → store s !! ptr = Some c → UdpConn.same_place c c' →
  UdpConn.held (users (delete ptr (store s))) c' h' →
  tables_ok (with_store s (<[ptr := c']> (store s))) h'.
Proof.
  intros [H1 H2 H3 H4] Hc [Hi Ha] Hh. split; simpl.
  - intros p d. destruct (decide (ptr = p)) as [<-|Hne].
    + rewrite lookup_insert_eq. intros [= <-]. rewrite Hi, Ha. by apply H1.
    + rewrite lookup_insert_ne by done. apply H1.
  - intros i p Hp. apply H2 in Hp as (d & Hd & Hdi). destruct (decide (ptr = p)) as [<-|Hne].
    + rewrite lookup_insert_eq. exists c'. split; [done|congruence].
    + rewrite lookup_insert_ne by done. by exists d.
  - intros a p Hp. apply H3 in Hp as (d & Hd & Hda). destruct (decide (ptr = p)) as [<-|Hne].
    + rewrite lookup_insert_eq. exists c'. split; [done|congruence].
    + rewrite lookup_insert_ne by done. by exists d.
  - rewrite <-insert_delete_eq. eapply UdpSvrCache.counted_ext; [|exact Hh].
    intros p. symmetry. apply users_insert, lookup_delete_eq.
Qed.

Lemma release_gone s h ptr c :
  UdpSvrCache.counted (users (store s)) h → store s !! ptr = Some c →
  (∀ i, conns s !! i ≠ Some ptr) → (∀ a, src_map s !! a ≠ Some ptr) →
  ∃ h', release s h ptr = (with_store s (delete ptr (store s)), h')
    ∧ UdpSvrCache.counted (users (delete ptr (store s))) h'.
Proof.
  intros Hc Hp Hi Ha. unfold release. destruct (referenced s ptr) eqn:Hr.
  { apply referenced_spec in Hr as [[i H]|[a H]]; [by apply Hi in H|by apply Ha in H]. }
  rewrite Hp. eexists. split; [done|]. apply UdpSvrCache.counted_drop.
  exact (held_of_counted s h ptr c Hp Hc).
Qed.

Lemma remove_one_ok s h index :
  tables_ok s h →
  ∃ s' h', remove_one (Some (s, h)) index = Some (s', h') ∧ tables_ok s' h'
    ∧ conns s' = delete index (conns s).
Proof.
  intros Hok. pose proof Hok as [H1 H2 H3 H4]. unfold remove_one. cbn [mbind option_bind].
  destruct (conns s !! index) as [ptr|] eqn:Hi.
  2: { exists s, h. by rewrite delete_id. }
  destruct (H2 _ _ Hi) as (c & Hc & Hci). rewrite Hc. cbn [mbind option_bind].
  destruct (H1 _ _ Hc) as (_ & Hsrc & _). rewrite Hsrc.
  set (s1 := with_maps s (delete index (conns s)) (delete (UdpConn.src_addr c) (src_map s))).
  assert (∀ i, delete index (conns s) !! i ≠ Some ptr) as Hni.
  { intros i [Hne Hp]%lookup_delete_Some. destruct (H2 _ _ Hp) as (d & Hd & Hdi). congruence. }
  assert (∀ a, delete (UdpConn.src_addr c) (src_map s) !! a ≠ Some ptr) as Hna.
  { intros a [Hne Hp]%lookup_delete_Some. destruct (H3 _ _ Hp) as (d & Hd & Hda). congruence. }
  destruct (release_gone s1 h ptr c H4 Hc Hni Hna) as (h' & -> & Hcount).
  unfold release_opt, release.
  destruct (referenced _ ptr) eqn:Hr.
  { apply referenced_spec in Hr as [[i H]|[a H]]; [by apply Hni in H|by apply Hna in H]. }
  cbn [store with_store]. rewrite lookup_delete_eq. eexists _, _. split; [reflexivity|].
  split; [|done]. split; simpl; [| | |exact Hcount].
  - intros p d [Hne Hd]%lookup_delete_Some. destruct (H1 _ _ Hd) as (K1 & K2 & K3).
    rewrite !lookup_delete_ne; [done|..].
    + intros Heq. rewrite Heq in Hsrc. congruence.
    + intros Heq. rewrite Heq in Hi. congruence.
  - intros i p [Hne Hp]%lookup_delete_Some. destruct (H2 _ _ Hp) as (d & Hd & Hdi).
    exists d. rewrite lookup_delete_ne; [done|]. intros <-. congruence.
  - intros a p [Hne Hp]%lookup_delete_Some. destruct (H3 _ _ Hp) as (d & Hd & Hda).
    exists d. rewrite lookup_delete_ne; [done|]. intros <-. congruence.
Qed.

Lemma remove_all_ok l s h :
  tables_ok s h →
  ∃ s' h', foldl remove_one (Some (s, h)) l = Some (s', h') ∧ tables_ok s' h'
    ∧ conns s' = foldl (λ m i, delete i m) (conns s) l.
Proof.
  revert s h. induction l as [|i l IH]; intros s h Hok; [by exists s, h|].
  destruct (remove_one_ok s h i Hok) as (s1 & h1 & H1 & Hok1 & Hm).
  cbn [foldl]. rewrite H1. destruct (IH s1 h1 Hok1) as (s2 & h2 & H2 & Hok2 & Hm2).
  exists s2, h2. split_and!; [done|done|]. by rewrite Hm2, Hm.
Qed.

(** ** The main loop's calls *)

Inductive op : Type :=
  | OAcceptOnce (now : Z)
  | OReady (now : Z) (event : Event)
  | ORemoveClosed
  | OCacheTimeout
  | OOther (st : Pool) (np : NetProfiler.t E).

Abbreviation State := (t * Cache * Pool * NetProfiler.t E)%type.

Definition run_op (fuel : nat) (x : State) (a : op) : option State :=
  let '(s, h, st, np) := x in
  match a with
  | OAcceptOnce now => '(_, s, st, h, np) ← accept_once fuel now s st h np; Some (s, h, st, np)
  | OReady now event =>
      let '(p, o, r) := st in
      '(s, h, o) ← ready fuel now s event h o; Some (s, h, (p, o, r), np)
  | ORemoveClosed => '(s, h) ← remove_closed s h; Some (s, h, st, np)
  | OCacheTimeout => Some (s, UdpSvrCache.check_timeout h, st, np)
  | OOther st np => Some (s, h, st, np)
  end.

Definition run_ops (fuel : nat) (x : State) (ops : list op) : option State :=
  foldl (λ x a, x ← x; run_op fuel x a) (Some x) ops.

Context `{!EnvOk E}.
(** The configuration is complete, and a bound socket has an address. *)
Context (Hempty : is_Some (empty_addr OPTIONS)) (Hlocal : ∀ s, is_Some (local_addr s)).

(** The invariant, with [n] indices left before they wrap. *)
Record inv (n : Z) (x : State) : Prop := {
  i_tables : tables_ok x.1.1.1 x.1.1.2;
  i_below : ∀ i p, conns x.1.1.1 !! i = Some p → i < next_id x.1.1.1;
  i_next : MIN_INDEX <= next_id x.1.1.1 /\ next_id x.1.1.1 + n < MAX_INDEX
}.

(** What [connect] leaves. *)
Record connected (s : t) (r : option nat) (s' : t) (h' : Cache) : Prop := {
  cn_tables : tables_ok s' h';
  cn_below : ∀ i p, conns s' !! i = Some p → i < next_id s';
  cn_next : next_id s <= next_id s' <= next_id s + 1;
  cn_result : ∀ ptr, r = Some ptr → is_Some (store s' !! ptr)
}.

Lemma connect_ok now s st h np src dst n :
  0 < n → inv n (s, h, st, np) → src_map s !! src = None →
  ∃ r s' st' h', connect now s st h src dst = Some (r, s', st', h') ∧ connected s r s' h'.
Proof.
  intros Hn [Hok Hbelow [Hmin Hmax]] Hsrc. cbn [fst snd] in *. unfold connect.
  assert (next_index (next_id s) = (next_id s, next_id s + 1)) as Hnext.
  { unfold next_index, MIN_INDEX in *. rewrite MAX_INDEX_value in *. rewrite wrap_small by lia.
    destruct (Z.leb_spec (2 ^ 62 - 1) (next_id s + 1)); [lia|done]. }
  assert (∀ h' i, UdpSvrCache.counted (users (store s)) h' → next_id s <= i <= next_id s + 1 →
    connected s None (with_next s i) h') as Hnone.
  { intros h' i Hh Hi. destruct Hok. split; [by split|simpl; intros j q Hq;
      specialize (Hbelow j q Hq); lia|simpl; lia|done]. }
  assert (connected s None s h) as Hsame.
  { pose proof (Hnone h (next_id s) (t_counted _ _ Hok) ltac:(lia)) as H0. by destruct s. }
  destruct (IdlePool.get st) as [[conn|] [[p o] r]].
  2: { eexists _, _, _, _. split; [reflexivity|exact Hsame]. }
  pose proof Hok as [K1 K2 K3 K4].
  destruct (UdpSvrCache.get_socket h o dst) as [[[sock|] h1] o1] eqn:Hg;
    pose proof (UdpSvrCache.get_socket_counted _ _ _ _ _ _ _ K4 Hg) as Hg'; cbn [mbind option_bind].
  2: { rewrite Hg'. eexists _, _, _, _. split; [reflexivity|exact Hsame]. }
  destruct Hg' as (Hc1 & _ & [b Hb]). rewrite Hnext.
  pose proof (UdpSvrCache.counted_drop _ _ _ Hc1) as Hdrop.
  destruct (reset_index conn (next_id s) _) as [[] conn1]; cbn [negb].
  2: { eexists _, _, _, _. split; [reflexivity|]. apply Hnone; [exact Hdrop|lia]. }
  unfold UdpConn.new, UdpConn.deref. rewrite Hb. cbn [fmap option_fmap option_map mbind option_bind].
  destruct (Hlocal (UdpSvrCache.value b)) as [la ->]. cbn [mbind option_bind].
  unfold UdpConn.setup. destruct Hempty as [empty ->]. cbn [mbind option_bind].
  match goal with |- context [write_session ?a ?b] => destruct (write_session a b) as [ok sc] end.
  cbn [mbind option_bind]. destruct ok; cbn [negb].
  2: { eexists _, _, _, _. split; [reflexivity|]. apply Hnone; [exact Hdrop|lia]. }
  cbn [conns with_next]. destruct (conns s !! next_id s) as [q|] eqn:Hq.
  { specialize (Hbelow _ _ Hq). lia. }
  cbn [release_opt]. match goal with |- context [<[next_ptr _ := ?x]> _] => set (c := x) end.
  assert (store s !! next_ptr s = None) as Hfresh.
  { destruct (store s !! next_ptr s) as [d|] eqn:Hd; [|done].
    destruct (K1 _ _ Hd) as (_ & _ & ?). lia. }
  eexists _, _, _, _. split; [reflexivity|]. split; cbn.
  - split; cbn.
    + intros p' d. destruct (decide (next_ptr s = p')) as [<-|Hne].
      * rewrite lookup_insert_eq. intros [= <-]. rewrite !lookup_insert_eq. split_and!; [done|done|lia].
      * rewrite lookup_insert_ne by done. intros Hd. destruct (K1 _ _ Hd) as (A1 & A2 & A3).
        rewrite !lookup_insert_ne; [split_and!; [done|done|lia]|..].
        -- intros Heq. rewrite <-Heq in A2. congruence.
        -- intros Heq. rewrite <-Heq in A1. congruence.
    + intros i p'. destruct (decide (next_id s = i)) as [<-|Hne].
      * rewrite lookup_insert_eq. intros [= <-]. rewrite lookup_insert_eq. by eexists.
      * rewrite lookup_insert_ne by done. intros Hp'. destruct (K2 _ _ Hp') as (d & Hd & Hdi).
        exists d. rewrite lookup_insert_ne; [done|]. intros <-. congruence.
    + intros a p'. destruct (decide (src = a)) as [<-|Hne].
      * rewrite lookup_insert_eq. intros [= <-]. rewrite lookup_insert_eq. by eexists.
      * rewrite lookup_insert_ne by done. intros Hp'. destruct (K3 _ _ Hp') as (d & Hd & Hda).
        exists d. rewrite lookup_insert_ne; [done|]. intros <-. congruence.
    + eapply UdpSvrCache.counted_ext; [|exact Hc1]. intros q. symmetry.
      by apply (users_insert (store s) (next_ptr s) c).
  - intros i p'. destruct (decide (next_id s = i)) as [<-|Hne]; [lia|].
    rewrite lookup_insert_ne by done. intros Hp'. specialize (Hbelow _ _ Hp'). lia.
  - lia.
  - intros ptr [= <-]. rewrite lookup_insert_eq. by eexists.
Qed.

Lemma accept_once_inv now s st h np n :
  0 < n → inv n (s, h, st, np) →
  terminates (λ fuel, accept_once fuel now s st h np)
    (λ '(_, s', st', h', np'), inv (n - 1) (s', h', st', np')).
Proof.
  intros Hn Hinv. unfold accept_once.
  destruct (recv_from_with_destination (listener s) (recv_len s)) as [r l].
  assert (inv n (with_listener s l, h, st, np)) as Hinv1 by (by destruct Hinv as [[] ? ?]; split; [split|..]).
  revert Hinv1. generalize (with_listener s l). clear s Hinv. intros s Hinv.
  assert (inv (n - 1) (s, h, st, np)) as Hless.
  { destruct Hinv as [H1 H2 H3]. split; [done|done|]. simpl in *. lia. }
  destruct r as [[[payload src] dst]|k]; [|by apply terminates_ret].
  eapply terminates_bind with (P := λ _, True).
  { eapply terminates_weaken; [apply NetProfiler.check_keeps|done]. }
  intros np1 _.
  assert (∃ r s' st' h', match src_map s !! src with
      | Some ptr => Some (Some ptr, s, st, h)
      | None => connect now s st h src dst
      end = Some (r, s', st', h') ∧ connected s r s' h') as (r & s' & st' & h' & -> & Hcn).
  { destruct (src_map s !! src) as [ptr|] eqn:Hsrc; [|by eapply connect_ok].
    eexists _, _, _, _. split; [reflexivity|]. destruct Hinv as [H1 H2 H3].
    split; [done|done|simpl; lia|]. intros ptr' [= <-].
    destruct (t_src _ _ H1 _ _ Hsrc) as (c & Hc & _). by exists c. }
  cbn [mbind option_bind]. destruct Hinv as [_ _ H3]. destruct Hcn as [C1 C2 C3 C4]. simpl in H3.
  destruct r as [ptr|].
  2: { apply terminates_ret. split; [done|done|simpl; lia]. }
  destruct (C4 ptr eq_refl) as [c Hc]. rewrite Hc. cbn [mbind option_bind].
  pose proof (UdpConn.send_request_terminates now c payload dst) as (m & c' & _ & Hsend).
  exists m. eexists. split; [|intros fuel Hf; rewrite Hsend by done; reflexivity].
  pose proof (UdpConn.send_request_refs _ _ _ _ _ _ (Hsend m ltac:(lia))) as [Hplace Hsock].
  assert (tables_ok (with_store s' (<[ptr := c']> (store s'))) h') as Hok.
  { eapply tables_ok_update; [done|done|done|]. unfold UdpConn.held. rewrite Hsock.
    eapply held_of_counted; [done|apply C1]. }
  destruct (UdpConn.destroyed c'); (split; [by destruct Hok; split|done|simpl; lia]).
Qed.

Lemma ready_inv now s event h o n (p : IdlePool.t E) (r : DnsResolver) np :
  inv n (s, h, (p, o, r), np) →
  decided (λ fuel, ready fuel now s event h o) (λ x, match x with
    | Some (s', h', o') => inv n (s', h', (p, o', r), np)
    | None => True
    end).
Proof.
  intros [H1 H2 H3]. cbn [fst snd] in *. unfold ready.
  destruct (conns s !! _) as [ptr|] eqn:Hp; [|by apply decided_ret].
  destruct (t_conns _ _ H1 _ _ Hp) as (c & Hc & _). rewrite Hc. cbn [mbind option_bind].
  pose proof (held_of_counted s h ptr c Hc (t_counted _ _ H1)) as Hh.
  eapply decided_bind; [exact (UdpConn.ready_decided _ now c event h o Hh)|done|].
  intros [[c' h'] o'] [Hh' Hplace]. apply decided_ret.
  pose proof (tables_ok_update s h h' ptr c c' H1 Hc Hplace Hh') as Hok.
  destruct (UdpConn.destroyed c'); (split; [by destruct Hok; split|done|done]).
Qed.

Lemma delete_below (m : gmap Z nat) l (b : Z) :
  (∀ i p, m !! i = Some p → i < b) → ∀ i p, foldl (λ m i, delete i m) m l !! i = Some p → i < b.
Proof.
  revert m. induction l as [|j l IH]; intros m Hm; [done|]. cbn [foldl]. apply IH.
  intros i p [_ Hp]%lookup_delete_Some. by eapply Hm.
Qed.

Lemma remove_all_next l s h s' h' :
  foldl remove_one (Some (s, h)) l = Some (s', h') → next_id s' = next_id s.
Proof.
  revert s h. induction l as [|i l IH]; intros s h; [by intros [= <- <-]|]. cbn [foldl].
  destruct (remove_one (Some (s, h)) i) as [[s1 h1]|] eqn:H1.
  - intros H2%IH. rewrite H2. revert H1. unfold remove_one. cbn [mbind option_bind].
    destruct (conns s !! i) as [ptr|]; [|by intros [= <- <-]].
    destruct (store s !! ptr) as [c|]; [|done]. cbn [mbind option_bind].
    assert (∀ s0 h0 p, next_id (release s0 h0 p).1 = next_id s0) as Hrel.
    { intros s0 h0 p. unfold release. destruct (referenced s0 p); [done|]. by destruct (store s0 !! p). }
    match goal with |- context [release ?a ?b ?c] => pose proof (Hrel a b c) as Hr;
      destruct (release a b c) as [s2 h2] end. simpl in Hr.
    unfold release_opt. destruct (src_map s !! _) as [q|]; [|by intros [= <- <-]].
    pose proof (Hrel s2 h2 q) as Hr2. intros [= Heq]. by rewrite Heq in Hr2; simpl in Hr2; rewrite Hr2.
  - clear. assert (foldl remove_one None l = None) as -> by (by induction l). done.
Qed.

Lemma run_op_inv x a n :
  0 < n → inv n x →
  decided (λ fuel, run_op fuel x a) (λ r, match r with
    | Some y => inv (n - 1) y
    | None => ∃ now event, a = OReady now event
    end).
Proof.
  intros Hn Hinv. destruct x as [[[s h] st] np].
  assert (∀ m s h st np, inv n (s, h, st, np) → m = n - 1 → inv m (s, h, st, np)) as Hless.
  { intros m s0 h0 st0 np0 [H1 H2 H3] ->. split; [done|done|]. simpl in *. lia. }
  destruct a as [now|now event| | |st' np']; simpl.
  - eapply decided_weaken; [eapply decided_terminates, terminates_bind;
      [by apply accept_once_inv|]|].
    + intros [[[[r s'] st'] h'] np'] H'. apply terminates_ret. exact H'.
    + by intros [[[[s' h'] st'] np']|].
  - destruct st as [[p o] r]. eapply decided_bind; [by apply ready_inv| |].
    + intros _. by eexists _, _.
    + intros [[s' h'] o'] H'. apply decided_ret. by eapply Hless.
  - apply decided_ret. destruct Hinv as [H1 H2 H3]. cbn [fst snd] in *.
    destruct (remove_all_ok (removed s) (with_removed s []) h) as (s' & h' & Hr & Hok & Hm).
    { by destruct H1; split. }
    unfold remove_closed. rewrite Hr. pose proof (remove_all_next _ _ _ _ _ Hr) as Hnext.
    simpl in Hnext, Hm. split; [exact Hok| |simpl; lia]. cbn [fst snd]. rewrite Hm, Hnext.
    by apply delete_below.
  - apply decided_ret. destruct Hinv as [[K1 K2 K3 K4] H2 H3]. split; [|done|simpl in *; lia].
    split; [done|done|done|]. by apply UdpSvrCache.check_timeout_counted.
  - apply decided_ret. destruct Hinv as [H1 H2 H3]. split; [done|done|simpl in *; lia].
Qed.

Lemma run_ops_inv ops x n :
  inv n x → Z.of_nat (length ops) <= n →
  decided (λ fuel, run_ops fuel x ops) (λ r, match r with
    | Some y => tables_ok y.1.1.1 y.1.1.2
    | None => ∃ now event, OReady now event ∈ ops
    end).
Proof.
  revert x n. induction ops as [|a ops IH]; intros x n Hinv Hlen.
  { exists 0%nat, (Some x). split; [apply Hinv|done]. }
  cbn [length] in Hlen.
  assert (∀ fuel, run_ops fuel x (a :: ops) = y ← run_op fuel x a; run_ops fuel y ops) as Heq.
  { intros fuel. unfold run_ops. cbn [foldl mbind option_bind]. apply foldl_bind. }
  assert (decided (λ fuel, y ← run_op fuel x a; run_ops fuel y ops) (λ r, match r with
    | Some y => tables_ok y.1.1.1 y.1.1.2
    | None => ∃ now event, OReady now event ∈ a :: ops
    end)) as (m & r & Hr & Hrun).
  { eapply decided_bind; [apply (run_op_inv x a n); [lia|done]| |].
    - intros (now & event & ->). exists now, event. apply list_elem_of_here.
    - intros y Hy. eapply decided_weaken; [apply (IH y (n - 1)); [done|lia]|].
      intros [z|]; [done|]. intros (now & event & Hin). exists now, event.
      by apply list_elem_of_further. }
  exists m, r. split; [done|]. intros fuel Hf. rewrite Heq. by apply Hrun.
Qed.
End UdpServer.

Section Tables.
Context {E : Env} {GB : GroupBy} {SA : SocketApi E} (OPTIONS : Opts) `{!EnvOk E}.

(** C14: after any sequence of datagrams accepted, events, removals and cache
    sweeps, the index table, the source table and the store describe the same
    connections - each connection is in both tables, under its own index and its
    own source, and no table refers to one that is gone - and each socket's
    count is one for the cache plus one for each connection that uses it.  No
    call loops, and only an event can panic, on a packet of the server. *)
Theorem udp_tables_agree ops l st np :
  is_Some (empty_addr OPTIONS) → (∀ s, is_Some (local_addr s)) →
  Z.of_nat (length ops) < MAX_INDEX - MIN_INDEX →
  decided (λ fuel, run_ops OPTIONS fuel (new l, UdpSvrCache.new, st, np) ops) (λ r, match r with
    | Some (s, h, _, _) =>
        (∀ p c, store s !! p = Some c →
           conns s !! UdpConn.index c = Some p ∧ src_map s !! UdpConn.src_addr c = Some p)
        ∧ (∀ i p, conns s !! i = Some p → ∃ c, store s !! p = Some c ∧ UdpConn.index c = i)
        ∧ (∀ a p, src_map s !! a = Some p → ∃ c, store s !! p = Some c ∧ UdpConn.src_addr c = a)
        ∧ (∀ p b, UdpSvrCache.heap h !! p = Some b → UdpSvrCache.strong b = S (users (store s) p))
        ∧ (∀ p c, store s !! p = Some c → is_Some (UdpSvrCache.heap h !! UdpConn.socket c))
    | None => ∃ now event, OReady now event ∈ ops
    end).
Proof.
  intros Hempty Hlocal Hlen.
  eapply decided_weaken; [apply (run_ops_inv OPTIONS Hempty Hlocal ops _ (Z.of_nat (length ops)));
    [|done]|].
  - split; [apply tables_ok_new|done|]. simpl. unfold MIN_INDEX in *. lia.
  - intros [[[[s h] st'] np']|]; [|done]. simpl. intros [K1 K2 K3 K4]. split_and!; try done.
    + intros p c Hc. by destruct (K1 p c Hc) as (? & ? & _).
    + intros p b Hb. by apply (UdpSvrCache.c_heap _ _ K4).
    + intros p c Hc. pose proof (held_of_counted s h p c Hc K4) as Hh.
      apply UdpConn.held_deref in Hh as [v Hv]. unfold UdpConn.deref in Hv.
      destruct (UdpSvrCache.heap h !! UdpConn.socket c); [by eexists|done].
Qed.
End Tables.
#[global] Arguments t E : clear implicits.
End UdpServer.

Module ProxyUdpWitness.
#[local] Existing Instance Sim.env.
#[local] Existing Instance Sim.env_ok.
#[local] Existing Instance NetProfilerWitness.consecutive.

Definition back : SocketAddr := mkSocketAddr (V4 [9; 9; 9; 9]) 53.
Definition src : SocketAddr := mkSocketAddr (V4 [10; 0; 0; 7]) 4000.

(** Every socket can be opened; the listener hands out what [sk_rx] holds. *)
#[local] Instance sockets : SocketApi Sim.env := {
  RawSocket := SocketAddr;
  socket_new w _ _ := (Some back, w);
  set_socket_opts _ _ s := Some s;
  set_nonblocking := Some;
  set_reuse_address := Some;
  socket_bind _ a := Some a;
  socket_listen := Some;
  into_udp _ := Sim.idle_socket;
  local_addr _ := Some back;
  get_oridst_addr _ := IoOk back;
  recv_from_with_destination s n :=
    match Sim.recv_from s n with
    | (IoOk (d, a), s) => (IoOk (d, a, back), s)
    | (IoErr k, s) => (IoErr k, s)
    end
}.

Definition tls : TlsConn Sim.env := tls_conn_new 3 13 Sim.idle_session Sim.idle_stream.
Definition conn : UdpConn.t Sim.env :=
  UdpConn.mk 3 src [] [] tls Established 0 UdpCacheWitness.a1 0 0 0.

Lemma conn_held :
  UdpConn.held (λ p, if (p =? 0)%nat then 1%nat else 0%nat) conn UdpCacheWitness.cache.
Proof.
  eapply UdpSvrCache.counted_ext; [|exact UdpCacheWitness.cache_counted].
  intros p. unfold UdpCacheWitness.in_use, UdpSvrCache.plus. simpl.
  destruct (Nat.eqb_spec p 0) as [->|Hp]; [done|]. by rewrite decide_False.
Qed.

Definition d1 : bytes * SocketAddr := ([1; 2; 3], UdpCacheWitness.a1).
Definition d2 : bytes * SocketAddr := ([4], UdpCacheWitness.a2).
Definition world : Sim.system := Sim.mkSystem [] [].

Lemma udp_replies_reassemble_witness :
  ∃ c' h' o', UdpConn.deliver_all (conn, UdpCacheWitness.cache, world) [d1; d2] = Some (c', h', o')
    ∧ feed_all UdpConn.feed (conn, UdpCacheWitness.cache, world)
        [take 4 (UdpBackend.packet d1); drop 4 (UdpBackend.packet d1) ++ take 9 (UdpBackend.packet d2);
         drop 9 (UdpBackend.packet d2) ++ [1]] = Some (UdpConn.with_send c' [1], h', o')
    ∧ UdpConn.held (λ p, if (p =? 0)%nat then 1%nat else 0%nat) c' h'.
Proof.
  refine (UdpConn.udp_replies_reassemble _ conn UdpCacheWitness.cache world _ [d1; d2] [1]
    conn_held eq_refl _ _ _).
  - repeat apply Forall_cons_2; [..|by apply Forall_nil_2];
      (split; [apply (bool_decide_unpack _); by vm_compute|by apply (bool_decide_unpack _); vm_compute]).
  - right. exists d1. split; [|by split; [exists (drop 1 (UdpBackend.packet d1))|]].
    split; [apply (bool_decide_unpack _); by vm_compute|by apply (bool_decide_unpack _); vm_compute].
  - by vm_compute.
Defined.

Import UdpServer.

Definition listener : Sim.socket := Sim.mkSocket [([7; 7], src); ([8], src)] [] [] [].
Definition pool : IdlePool.t Sim.env * Sim.system * DnsResolver :=
  (IdlePoolWitness.fresh, IdlePoolWitness.world, dns_resolver_new 3 None).
Definition profiler : NetProfiler.t Sim.env :=
  (NetProfiler.new 0 false 3600 70 NetProfiler.CONDITION).1.
Definition ops : list (op (E := Sim.env)) :=
  [OAcceptOnce 0; OAcceptOnce 1; OReady 2 (mkEvent 13 true true); OCacheTimeout; ORemoveClosed].

(** One connection carries both datagrams. *)
Example accept_example :
  (λ '(s, _, _, _), (λ c, drop (length (TrojanRequest.generate IdlePoolWitness.opts UDP_ASSOCIATE
      (mkSocketAddr (V4 [0; 0; 0; 0]) 0))) (plain (UdpConn.server_conn c))) <$> store s !! 0%nat) <$>
    run_ops IdlePoolWitness.opts 9 (new listener, UdpSvrCache.new, pool, profiler) ops
  = Some (Some (UdpBackend.packet ([7; 7], back) ++ UdpBackend.packet ([8], back))).
Proof. vm_compute. reflexivity. Qed.

Lemma udp_tables_agree_witness :
  decided (λ fuel, run_ops IdlePoolWitness.opts fuel (new listener, UdpSvrCache.new, pool, profiler) ops)
    (λ r, match r with
    | Some (s, h, _, _) =>
        (∀ p c, store s !! p = Some c →
           conns s !! UdpConn.index c = Some p ∧ src_map s !! UdpConn.src_addr c = Some p)
        ∧ (∀ i p, conns s !! i = Some p → ∃ c, store s !! p = Some c ∧ UdpConn.index c = i)
        ∧ (∀ a p, src_map s !! a = Some p → ∃ c, store s !! p = Some c ∧ UdpConn.src_addr c = a)
        ∧ (∀ p b, UdpSvrCache.heap h !! p = Some b → UdpSvrCache.strong b = S (users (store s) p))
        ∧ (∀ p c, store s !! p = Some c → is_Some (UdpSvrCache.heap h !! UdpConn.socket c))
    | None => ∃ now event, OReady now event ∈ ops
    end).
Proof.
  refine (udp_tables_agree IdlePoolWitness.opts ops listener pool profiler _ _ _);
    [by eexists|by eexists|by vm_compute].
Defined.
End ProxyUdpWitness.
