(* ===== verification/ProxyRun.v ===== *)
(** * The proxy's main loop ([run] of [src/src/proxy/mod.rs])

    The state of [run] and one turn of its loop on the events of a poll.  What
    the check thread has left in [CONDITION] is an argument of the turn.  [None]
    is a panic or exhausted fuel; a turn reads the clock once. *)

From Stdlib Require Import ZArith Lia.
From stdpp Require Import base option list gmap.
From S2P Require Import Prelude Net Config Proto Status Env TlsConn Resolver.
From S2P Require Import Stats Backend PingBackend IdlePool NetProfiler ProxyTokens ProxyTcp UdpCache.
From S2P Require Import ProxyUdp.

Open Scope Z_scope.

Module ProxyRun.
Section ProxyRun.
Context {E : Env} {GB : GroupBy} {SA : SocketApi E} (OPTIONS : Opts).

Record t : Type := mk {
  tcp_server : TcpServer.t E;
  udp_server : UdpServer.t E;
  udp_cache : UdpSvrCache.t E;
  pool : IdlePool.t E;
  os : OS;
  resolver : DnsResolver;
  net_profiler : NetProfiler.t E;
  last_check_time : Z
}.

Definition with_pool (r : t) (st : IdlePool.t E * OS * DnsResolver) : t :=
  let '(p, o, d) := st in
  mk (tcp_server r) (udp_server r) (udp_cache r) p o d (net_profiler r) (last_check_time r).
Definition pool_state (r : t) : IdlePool.t E * OS * DnsResolver := (pool r, os r, resolver r).
Definition with_tcp (r : t) (s : TcpServer.t E) : t :=
  mk s (udp_server r) (udp_cache r) (pool r) (os r) (resolver r) (net_profiler r)
    (last_check_time r).
Definition with_udp (r : t) (s : UdpServer.t E) (h : UdpSvrCache.t E) : t :=
  mk (tcp_server r) s h (pool r) (os r) (resolver r) (net_profiler r) (last_check_time r).
Definition with_profiler (r : t) (np : NetProfiler.t E) : t :=
  mk (tcp_server r) (udp_server r) (udp_cache r) (pool r) (os r) (resolver r) np
    (last_check_time r).

(** The setup before the loop: the sockets, the pool and the profiler.  [None]
    is an error returned, a panic, or exhausted fuel.  [local_addr] is the
    parsed address to listen on; the TCP listener is the system's. *)
Definition start (now : Z) (o : OS) (local_addr : SocketAddr) (cond : NetProfiler.Condition)
  : option (t * NetProfiler.Condition) :=
  let args := proxy_args OPTIONS in
  let '(tcp, o) := new_socket o local_addr false in
  _ ← tcp;
  let '(udp, o) := new_socket o local_addr true in
  udp ← udp;
  p ← IdlePool.new OPTIONS (pool_size args + 1) (port args) (hostname args);
  let p := IdlePool.init_index p CHANNEL_CNT CHANNEL_IDLE MIN_INDEX MAX_INDEX in
  let st := IdlePool.init (p, o, dns_resolver_new RESOLVER None) in
  let '(np, cond) := NetProfiler.new now (enable_bypass args) (bypass_timeout args)
                       (ping_threshold args) cond in
  let '(ok, np, st) := NetProfiler.initialize OPTIONS np st in
  if (ok : bool) then
    let '(p, o, d) := st in
    Some (mk TcpServer.new (UdpServer.new (into_udp udp)) UdpSvrCache.new p o d np now, cond)
  else None.

(** The handling of one event. *)
Definition run_event (fuel : nat) (now : Z) (r : t) (event : Event) : option t :=
  let token := ev_token event in
  if token =? TCP_LISTENER then
    '(s, st, np) ← TcpServer.accept OPTIONS fuel now (tcp_server r) (pool_state r) (net_profiler r);
    Some (with_profiler (with_pool (with_tcp r s) st) np)
  else if token =? UDP_LISTENER then
    '(s, st, h, np) ← UdpServer.accept OPTIONS fuel now (udp_server r) (pool_state r)
      (udp_cache r) (net_profiler r);
    Some (with_profiler (with_pool (with_udp r s h) st) np)
  else if token =? RESOLVER then
    '(d, p) ← consume now (λ p _ ip, Some (IdlePool.resolve p ip)) (resolver r) (pool r);
    Some (with_pool r (p, os r, d))
  else if token =? PINGER then
    '(np, st) ← NetProfiler.ready OPTIONS fuel event (net_profiler r) (pool_state r);
    Some (with_profiler (with_pool r st) np)
  else if token mod CHANNEL_CNT =? CHANNEL_IDLE then
    p ← IdlePool.ready fuel (pool r) event; Some (with_pool r (p, os r, resolver r))
  else if token mod CHANNEL_CNT =? CHANNEL_UDP then
    '(s, h, o) ← UdpServer.ready fuel now (udp_server r) event (udp_cache r) (os r);
    Some (with_pool (with_udp r s h) (pool r, o, resolver r))
  else
    s ← TcpServer.ready fuel now (tcp_server r) event; Some (with_tcp r s).

(** What follows the events of a poll. *)
Definition run_after (fuel : nat) (now : Z) (cond : option NetProfiler.Condition) (r : t)
  : option t :=
  '(s, h) ← UdpServer.remove_closed (udp_server r) (udp_cache r);
  let r := with_udp r s h in
  let r := with_tcp r (TcpServer.remove_closed (tcp_server r)) in
  np ← NetProfiler.update fuel now cond (net_profiler r);
  let r := with_profiler r np in
  if secs 1 <? since now (last_check_time r) then
    let r := with_tcp r (TcpServer.check_timeout OPTIONS now (tcp_server r)) in
    let r := with_udp r (udp_server r) (UdpSvrCache.check_timeout (udp_cache r)) in
    p ← IdlePool.check_timeout fuel (pool r);
    Some (mk (tcp_server r) (udp_server r) (udp_cache r) p (os r) (resolver r)
            (net_profiler r) now)
  else Some r.

Definition run_turn (fuel : nat) (now : Z) (cond : option NetProfiler.Condition) (r : t)
    (events : list Event) : option t :=
  r ← foldl (λ r event, r ← r; run_event fuel now r event) (Some r) events;
  run_after fuel now cond r.

(** Routing: an event under the token of a connection - any valid index with
    any channel - is never taken for one of the listeners, the resolver or the
    profiler, and reaches the component of its channel: the pool, the UDP server
    or the TCP server, the last two under the connection's own index. *)
Theorem run_event_routes fuel now r i ch readable writable :
  valid_index i → 0 <= ch < CHANNEL_CNT →
  let event := mkEvent (token_of i ch) readable writable in
  token2index (ev_token event) = i
  ∧ run_event fuel now r event =
      if ch =? CHANNEL_IDLE then
        p ← IdlePool.ready fuel (pool r) event; Some (with_pool r (p, os r, resolver r))
      else if ch =? CHANNEL_UDP then
        '(s, h, o) ← UdpServer.ready fuel now (udp_server r) event (udp_cache r) (os r);
        Some (with_pool (with_udp r s h) (pool r, o, resolver r))
      else
        s ← TcpServer.ready fuel now (tcp_server r) event; Some (with_tcp r s).
Proof.
  intros Hi Hch. destruct (token_of_sound i ch Hi Hch) as (_ & H2 & H3 & H4).
  cbn zeta. split; [exact H2|]. unfold run_event. cbn [ev_token].
  rewrite !(proj2 (Z.eqb_neq (token_of i ch) _))
    by (unfold TCP_LISTENER, UDP_LISTENER, RESOLVER, PINGER; lia).
  by rewrite H3.
Qed.
End ProxyRun.
#[global] Arguments t E : clear implicits.
End ProxyRun.

Module ProxyRunWitness.
  Import ProxyRun.
#[local] Existing Instance Sim.env.
#[local] Existing Instance Sim.env_ok.
#[local] Existing Instance NetProfilerWitness.consecutive.
#[local] Existing Instance ProxyUdpWitness.sockets.

Definition local : SocketAddr := mkSocketAddr (V4 [0; 0; 0; 0]) 1080.

(** The proxy starts, accepts both kinds of clients and runs its checks. *)
Example run_example :
  ('(r, cond) ← start IdlePoolWitness.opts 0 ProxyTcpWitness.world local NetProfiler.CONDITION;
   r ← run_turn IdlePoolWitness.opts 20 (secs 2) (Some cond) r
         [mkEvent TCP_LISTENER true false; mkEvent (token_of 3 CHANNEL_CLIENT) true true;
          mkEvent (token_of 3 CHANNEL_TCP) true true];
   Some ((λ c, drop (length (TrojanRequest.generate IdlePoolWitness.opts CONNECT ProxyUdpWitness.back))
                 (plain (ProxyConn.server_conn c))) <$> TcpServer.conns (tcp_server r) !! 3))
  = Some (Some [1; 2]).
Proof. vm_compute. reflexivity. Qed.

Definition state : t Sim.env :=
  mk TcpServer.new (UdpServer.new ProxyUdpWitness.listener) UdpSvrCache.new IdlePoolWitness.fresh
    ProxyTcpWitness.world (dns_resolver_new 3 None) ProxyTcpWitness.profiler 0.

Lemma run_event_routes_witness :
  run_event IdlePoolWitness.opts 9 5 state (mkEvent (token_of 3 CHANNEL_UDP) true true) =
    '(s, h, o) ← UdpServer.ready 9 5 (udp_server state)
                   (mkEvent (token_of 3 CHANNEL_UDP) true true) (udp_cache state) (os state);
    Some (with_pool (with_udp state s h) (pool state, o, resolver state)).
Proof.
  refine (proj2 (run_event_routes IdlePoolWitness.opts 9 5 state 3 CHANNEL_UDP true true _ _));
    [by vm_compute|by vm_compute].
Defined.
End ProxyRunWitness.
