(* ===== verification/DnsHosts.v ===== *)
(** * The hosts file ([update_hosts] of [src/src/dns/server.rs])

    A line of the hosts file is scanned by a five-state machine over its
    characters.  The file shows that the machine takes the first two fields of
    the line, in the sense of [str::split_whitespace].  A [char] is its code
    point; a [String] built from characters is their UTF-8 encoding. *)

From Stdlib Require Import ZArith Lia.
From stdpp Require Import base option list gmap sets.
From S2P Require Import Prelude Net Domain.

Open Scope Z_scope.

(** [char::is_whitespace]: the Unicode property White_Space. *)
Definition is_whitespace (c : Z) : bool :=
  ((9 <=? c) && (c <=? 13)) || (c =? 32) || (c =? 133) || (c =? 160) || (c =? 5760)
  || ((8192 <=? c) && (c <=? 8202)) || (c =? 8232) || (c =? 8233) || (c =? 8239)
  || (c =? 8287) || (c =? 12288).

(** [str::trim]. *)
Fixpoint trim_start (cs : list Z) : list Z :=
  match cs with
  | c :: cs' => if is_whitespace c then trim_start cs' else cs
  | [] => []
  end.
Definition trim (cs : list Z) : list Z := reverse (trim_start (reverse (trim_start cs))).

Definition encode_utf8 (c : Z) : bytes :=
  if c <? 128 then [c]
  else if c <? 2048 then [192 + c / 64; 128 + c mod 64]
  else if c <? 65536 then [224 + c / 4096; 128 + c / 64 mod 64; 128 + c mod 64]
  else [240 + c / 262144; 128 + c / 4096 mod 64; 128 + c / 64 mod 64; 128 + c mod 64].

(** [String::from_iter] on characters. *)
Definition string_of (cs : list Z) : bytes := mjoin (encode_utf8 <$> cs).

(** '#' *)
Definition HASH : Z := 35.

Inductive HostParserState : Type := LineStart | IpStart | IpEnd | HostStart | HostEnd.

(** One iteration over [line.chars()]: [None] is [break]. *)
Definition scan_char (st : HostParserState * list Z * list Z) (c : Z)
  : option (HostParserState * list Z * list Z) :=
  let '(state, ip, host) := st in
  match state with
  | LineStart =>
      if is_whitespace c then Some (LineStart, ip, host)
      else if c =? HASH then None
      else Some (IpStart, ip ++ [c], host)
  | IpStart =>
      if is_whitespace c then Some (IpEnd, ip, host) else Some (IpStart, ip ++ [c], host)
  | IpEnd =>
      if is_whitespace c then Some (IpEnd, ip, host) else Some (HostStart, ip, host ++ [c])
  | HostStart =>
      if is_whitespace c then Some (HostEnd, ip, host) else Some (HostStart, ip, host ++ [c])
  | HostEnd => None
  end.

Fixpoint scan_line (st : HostParserState * list Z * list Z) (line : list Z)
  : HostParserState * list Z * list Z :=
  match line with
  | [] => st
  | c :: line => match scan_char st c with Some st => scan_line st line | None => st end
  end.

(** [if *host.last().unwrap() != '.' { host.push('.') }], on a host that is not
    empty. *)
Definition rooted (host : list Z) : list Z :=
  match last host with
  | Some c => if c =? DOT then host else host ++ [DOT]
  | None => host
  end.

(** The closure on a line: the address and the name it defines. *)
Definition parse_line (line : list Z) : option (IpAddr * bytes) :=
  let '(_, ip, host) := scan_line (LineStart, [], []) line in
  if decide (host = []) then None
  else
    ip ← parse_ip (string_of ip);
    Some (ip, string_of (rooted host)).

(** The lines of the file; [None] is a line that cannot be read. *)
Definition parse_lines (lines : list (option (list Z))) : list (IpAddr * bytes) :=
  omap (λ line, line ≫= parse_line) lines.

Abbreviation Hosts := (gmap bytes (gset IpAddr)).

(** [self.hosts.entry(host).or_insert_with(HashSet::new).insert(ip)]. *)
Definition add_host (hosts : Hosts) (entry : IpAddr * bytes) : Hosts :=
  <[entry.2 := {[ entry.1 ]} ∪ default ∅ (hosts !! entry.2)]> hosts.

Definition hosts_of (lines : list (option (list Z))) : Hosts :=
  foldl add_host ∅ (parse_lines lines).

(** ** Reference: the fields of a line *)

(** [str::split_whitespace], with the field under way. *)
Fixpoint fields_from (cur line : list Z) : list (list Z) :=
  match line with
  | [] => if decide (cur = []) then [] else [cur]
  | c :: line =>
      if is_whitespace c then (if decide (cur = []) then [] else [cur]) ++ fields_from [] line
      else fields_from (cur ++ [c]) line
  end.

Definition split_whitespace (line : list Z) : list (list Z) := fields_from [] line.

(** The entry a line defines: its first field, unless that begins with a '#', is
    the address, and its second field the name, with a dot at its end. *)
Definition line_entry (line : list Z) : option (IpAddr * bytes) :=
  match split_whitespace line with
  | ip :: host :: _ =>
      if bool_decide (head ip = Some HASH) then None
      else ip ← parse_ip (string_of ip); Some (ip, string_of (rooted host))
  | _ => None
  end.

Lemma fields_from_ne cur line : cur ≠ [] → ∃ w ws, fields_from cur line = (cur ++ w) :: ws.
Proof.
  revert cur. induction line as [|c line IH]; intros cur Hne; simpl.
  - rewrite decide_False by done. exists [], []. by rewrite app_nil_r.
  - destruct (is_whitespace c).
    + rewrite decide_False by done. exists [], (fields_from [] line). by rewrite app_nil_r.
    + destruct (IH (cur ++ [c])) as (w & ws & ->); [by destruct cur|].
      exists (c :: w), ws. by rewrite <-app_assoc.
Qed.

(** Each state of the scan and the fields still to come. *)
Lemma scan_host line ip host : host ≠ [] →
  ∃ st ws, scan_line (HostStart, ip, host) line = (st, ip, default [] (head (fields_from host line)))
    ∧ fields_from host line = default [] (head (fields_from host line)) :: ws
    ∧ default [] (head (fields_from host line)) ≠ [].
Proof.
  revert host. induction line as [|c line IH]; intros host Hne; simpl.
  - rewrite decide_False by done. by eexists _, _.
  - destruct (is_whitespace c); simpl.
    + rewrite decide_False by done. destruct line as [|c' line]; simpl; eexists _, _; by split_and!.
    + apply IH. by destruct host.
Qed.

Lemma scan_gap line ip :
  ∃ st, scan_line (IpEnd, ip, []) line = (st, ip, default [] (head (fields_from [] line))).
Proof.
  induction line as [|c line IH]; simpl; [by eexists|].
  destruct (is_whitespace c); simpl; [done|].
  destruct (scan_host line ip [c]) as (st & ws & Hs & _); [done|]. eexists. exact Hs.
Qed.

Lemma scan_ip line ip : ip ≠ [] →
  ∃ st, scan_line (IpStart, ip, []) line =
    (st, default [] (head (fields_from ip line)), default [] (fields_from ip line !! 1%nat)).
Proof.
  revert ip. induction line as [|c line IH]; intros ip Hne; simpl.
  - rewrite decide_False by done. by eexists.
  - destruct (is_whitespace c); simpl.
    + rewrite decide_False by done. simpl. destruct (scan_gap line ip) as [st ->].
      exists st. by destruct (fields_from [] line).
    + apply IH. by destruct ip.
Qed.

(** No field is empty. *)
Lemma fields_ne cur line : Forall (λ f, f ≠ []) (fields_from cur line).
Proof.
  revert cur. induction line as [|c line IH]; intros cur; simpl.
  - case_decide; [constructor|]. by repeat constructor.
  - destruct (is_whitespace c); [|apply IH]. apply Forall_app. split; [|apply IH].
    case_decide; [constructor|]. by repeat constructor.
Qed.

Lemma parse_line_entry line : parse_line line = line_entry line.
Proof.
  unfold parse_line, line_entry, split_whitespace.
  assert (∃ st ip host, scan_line (LineStart, [], []) line = (st, ip, host)
    ∧ match fields_from [] line with
      | w :: _ => if bool_decide (head w = Some HASH) then host = []
                  else ip = w ∧ host = default [] (fields_from [] line !! 1%nat)
      | [] => host = []
      end) as (st & ip & host & -> & H).
  { induction line as [|c line IH]; simpl; [by eexists _, _, _|].
    destruct (is_whitespace c) eqn:Hw; simpl; [done|].
    destruct (fields_from_ne [c] line) as (w & ws & Hf); [done|]. rewrite Hf. simpl.
    destruct (Z.eqb_spec c HASH) as [->|Hne].
    - eexists _, _, _. split; [done|]. by rewrite bool_decide_true by done.
    - destruct (scan_ip line [c]) as [st Hst]; [done|]. rewrite Hf in Hst.
      eexists _, _, _. split; [exact Hst|]. rewrite bool_decide_false by congruence. done. }
  pose proof (fields_ne [] line) as Hne.
  destruct (fields_from [] line) as [|w [|h ws]].
  - by rewrite H.
  - destruct (bool_decide _); [by rewrite H|]. destruct H as [_ ->]. done.
  - destruct (bool_decide _); [by rewrite H|]. destruct H as [-> ->]. cbn [lookup list_lookup default].
    rewrite decide_False; [done|]. apply Forall_cons in Hne as [_ Hne]. by apply Forall_inv in Hne.
Qed.

Lemma add_hosts_lookup entries hosts name ip :
  ip ∈ default ∅ (foldl add_host hosts entries !! name)
  ↔ ip ∈ default ∅ (hosts !! name) ∨ (ip, name) ∈ entries.
Proof.
  revert hosts. induction entries as [|[ip' name'] entries IH]; intros hosts; simpl.
  - split; [by left|]. intros [|H]; [done|by apply elem_of_nil in H].
  - rewrite IH, elem_of_cons. unfold add_host. simpl.
    destruct (decide (name' = name)) as [->|Hne].
    + rewrite lookup_insert_eq. simpl. rewrite elem_of_union, elem_of_singleton. naive_solver.
    + rewrite lookup_insert_ne by done. naive_solver.
Qed.

Lemma hosts_of_spec lines ip name :
  ip ∈ default ∅ (hosts_of lines !! name)
  ↔ ∃ line, Some line ∈ lines ∧ line_entry line = Some (ip, name).
Proof.
  unfold hosts_of, parse_lines. rewrite add_hosts_lookup, lookup_empty. simpl.
  rewrite list_elem_of_omap. split.
  - intros [H|([line|] & Hl & H)]; [by apply elem_of_empty in H| |done].
    exists line. split; [done|]. rewrite <-parse_line_entry. exact H.
  - intros (line & Hl & H). right. exists (Some line). split; [done|].
    simpl. by rewrite parse_line_entry.
Qed.

(** Every name in the table has an address, so a lookup that finds the name
    finds addresses. *)
Lemma hosts_of_ne lines name ips : hosts_of lines !! name = Some ips → ips ≠ ∅.
Proof.
  unfold hosts_of. generalize (parse_lines lines). intros entries.
  assert (∀ hosts : Hosts, (∀ n i, hosts !! n = Some i → i ≠ ∅) →
    ∀ n i, foldl add_host hosts entries !! n = Some i → i ≠ ∅) as H.
  { induction entries as [|[ip' name'] entries IH]; intros hosts Hh; simpl; [done|].
    apply IH. unfold add_host. intros n i [[_ <-]|[_ Hn]]%lookup_insert_Some; [|by eapply Hh].
    simpl. set_solver. }
  apply H. intros n i Hn. by rewrite lookup_empty in Hn.
Qed.

(** "1.2.3.4 a.b  # x" *)
Example parse_line_example :
  parse_line [32; 49; 46; 50; 46; 51; 46; 52; 9; 97; 46; 98; 32; 32; 35; 32; 120]
  = Some (V4 [1; 2; 3; 4], [97; 46; 98; 46]).
Proof. by vm_compute. Qed.
