(* ===== verification/DnsServer.v ===== *)
(** * The DNS server ([src/src/dns/server.rs])

    Queries for names of the hosts file are answered at once; the others go to
    the trusted server when the name is on the blocked list and to the poisoned
    server when it is not, and the answers are cached.  DNS messages are those of
    the [trust_dns_proto] crate, which the class [DnsProto] stands for; the
    sockets and the system are the environment's.  [None] is a panic or exhausted
    fuel; the clock is read once per event. *)

From Stdlib Require Import ZArith Lia.
From stdpp Require Import base option list gmap sets.
From S2P Require Import Prelude Net Config Proto Env Domain DnsHosts.

Open Scope Z_scope.
Open Scope rust_scope.

(** [DnsArgs] (the fields read after start-up). *)
Record DnsArgs : Type := mkDnsArgs {
  blocked_domain_list : bytes;
  dns_listen_address : SocketAddr;
  trusted_dns : SocketAddr;
  poisoned_dns : SocketAddr;
  dns_cache_time : Z;
  add_route : bool;
  hosts_path : bytes
}.

(** [trust_dns_proto]: messages, their questions and their records. *)
Class DnsProto : Type := {
  Message : Type;
  Query : Type;
  Name : Type;
  Rr : Type;
  RecordType : Type;
  record_type_eq_dec :: EqDecision RecordType;
  rt_A : RecordType;
  rt_AAAA : RecordType;
  rt_PTR : RecordType;
  (** [RecordType::to_string] *)
  rt_to_string : RecordType → bytes;
  from_bytes : bytes → option Message;
  to_vec : Message → option bytes;
  query_count : Message → nat;
  queries : Message → list Query;
  query_name : Query → Name;
  query_type : Query → RecordType;
  to_utf8 : Name → bytes;
  msg_id : Message → Z;
  set_id : Message → Z → Message;
  (** [set_message_type(MessageType::Response)] *)
  set_response : Message → Message;
  add_answer : Message → Rr → Message;
  take_additionals : Message → Message;
  take_name_servers : Message → Message;
  (** the header with [truncated] and the two section counts cleared *)
  clear_header : Message → Message;
  answers : Message → list Rr;
  (** a record of class IN: type, name, time to live, address *)
  record_new : RecordType → Name → Z → IpAddr → Rr;
  rr_ttl : Rr → Z;
  rr_ip : Rr → option IpAddr;
  (** the encoded response to a PTR question for the server's own name, [None]
      when it is not a name *)
  ptr_response : bytes → option bytes
}.

(** A parsed message holds the questions its header announces; [set_id] only
    replaces the identifier. *)
Class DnsProtoOk (D : DnsProto) : Prop := {
  query_count_ok d m : from_bytes d = Some m → query_count m = length (queries m);
  set_id_id m i : msg_id (set_id m i) = i;
  set_id_set_id m i j : set_id (set_id m i) j = set_id m j
}.

(** The system calls of the server besides its sockets. *)
Class DnsApi (E : Env) : Type := {
  (** [route_add_with_if(dst, mask, gw, if_index)] of [src/src/wintun/route.rs] *)
  route_add_with_if : OS → Z → Z → Z → Z → bool * OS;
  (** the lines of a file, [None] inside for one that cannot be decoded *)
  read_lines : OS → bytes → option (list (option (list Z)));
  udp_local_addr : UdpSocket → option SocketAddr
}.

Definition DNS_TRUSTED : Z := 2.
Definition DNS_POISONED : Z := 3.
Definition DNS_LOCAL : Z := 4.

Module DnsServer.
Section DnsServer.
Context {E : Env} {D : DnsProto} {A : DnsApi E} (ARGS : DnsArgs).

Record QueryResult : Type := mkQueryResult {
  addresses : list (SocketAddr * Z);
  response : option Message;
  expire_time : Z
}.

Abbreviation Store := (gmap bytes QueryResult).

Record t : Type := mk {
  listener : UdpSocket;
  trusted : UdpSocket;
  poisoned : UdpSocket;
  arp_data : bytes;
  blocked_domains : DomainMap;
  store : Store;
  ptr_name : bytes;
  trusted_addr : SocketAddr;
  poisoned_addr : SocketAddr;
  route_added : gset Z;
  adapter_index : Z;
  hosts : Hosts
}.

Definition with_listener (s : t) (l : UdpSocket) : t :=
  mk l (trusted s) (poisoned s) (arp_data s) (blocked_domains s) (store s) (ptr_name s)
    (trusted_addr s) (poisoned_addr s) (route_added s) (adapter_index s) (hosts s).
Definition with_trusted (s : t) (x : UdpSocket) : t :=
  mk (listener s) x (poisoned s) (arp_data s) (blocked_domains s) (store s) (ptr_name s)
    (trusted_addr s) (poisoned_addr s) (route_added s) (adapter_index s) (hosts s).
Definition with_poisoned (s : t) (x : UdpSocket) : t :=
  mk (listener s) (trusted s) x (arp_data s) (blocked_domains s) (store s) (ptr_name s)
    (trusted_addr s) (poisoned_addr s) (route_added s) (adapter_index s) (hosts s).
Definition with_store (s : t) (m : Store) : t :=
  mk (listener s) (trusted s) (poisoned s) (arp_data s) (blocked_domains s) m (ptr_name s)
    (trusted_addr s) (poisoned_addr s) (route_added s) (adapter_index s) (hosts s).
Definition with_routes (s : t) (r : gset Z) : t :=
  mk (listener s) (trusted s) (poisoned s) (arp_data s) (blocked_domains s) (store s) (ptr_name s)
    (trusted_addr s) (poisoned_addr s) r (adapter_index s) (hosts s).
Definition with_hosts (s : t) (h : Hosts) : t :=
  mk (listener s) (trusted s) (poisoned s) (arp_data s) (blocked_domains s) (store s) (ptr_name s)
    (trusted_addr s) (poisoned_addr s) (route_added s) (adapter_index s) h.
Definition with_blocked (s : t) (d : DomainMap) : t :=
  mk (listener s) (trusted s) (poisoned s) (arp_data s) d (store s) (ptr_name s)
    (trusted_addr s) (poisoned_addr s) (route_added s) (adapter_index s) (hosts s).
Definition with_ptr (s : t) (name data : bytes) : t :=
  mk (listener s) (trusted s) (poisoned s) data (blocked_domains s) (store s) name
    (trusted_addr s) (poisoned_addr s) (route_added s) (adapter_index s) (hosts s).

(** ** Set-up *)

(** "0.0.0.0:0" *)
Definition any_addr : SocketAddr := mkSocketAddr (V4 [0; 0; 0; 0]) 0.

Definition new (index : Z) (o : OS) : option (t * OS) :=
  let '(l, o) := udp_bind o (dns_listen_address ARGS) in
  l ← l;
  let '(tr, o) := udp_bind o any_addr in
  tr ← tr;
  let '(po, o) := udp_bind o any_addr in
  po ← po;
  Some (mk l tr po [] domain_map_new ∅ [] (trusted_dns ARGS) (poisoned_dns ARGS) ∅ index ∅, o).

Definition update_hosts (s : t) (o : OS) : option t :=
  if decide (hosts_path ARGS = []) then Some s
  else lines ← read_lines o (hosts_path ARGS); Some (with_hosts s (hosts_of lines)).

(** The order of the lines, which the source sorts, does not matter to a set. *)
Definition domains_of (lines : list (option (list Z))) : DomainMap :=
  foldl (λ m line, add_domain m (string_of (trim line))) domain_map_new (omap id lines).

Definition update_domain (s : t) (o : OS) : option t :=
  lines ← read_lines o (blocked_domain_list ARGS); Some (with_blocked s (domains_of lines)).

(** ".in-addr.arpa." *)
Definition IN_ADDR_ARPA : bytes := [46; 105; 110; 45; 97; 100; 100; 114; 46; 97; 114; 112; 97; 46].

Definition setup (s : t) (o : OS) : option t :=
  let '(ok, x) := udp_register (trusted s) DNS_TRUSTED in
  if negb ok then None
  else
    let s := with_trusted s x in
    let '(ok, x) := udp_register (poisoned s) DNS_POISONED in
    if negb ok then None
    else
      let s := with_poisoned s x in
      let '(ok, x) := udp_register (listener s) DNS_LOCAL in
      if negb ok then None
      else
        let s := with_listener s x in
        s ← update_domain s o;
        s ← update_hosts s o;
        addr ← udp_local_addr (listener s);
        let address := join DOT (reverse (split DOT (ip_to_string (sa_ip addr)))) in
        let name := address ++ IN_ADDR_ARPA in
        data ← ptr_response name;
        Some (with_ptr s name data).

(** ** Queries *)

(** '|' *)
Definition BAR : Z := 124.

(** [queries()[0]] panics on a message without a question. *)
Definition get_message_key (message : Message) : option bytes :=
  query ← head (queries message);
  Some (to_utf8 (query_name query) ++ BAR :: rt_to_string (query_type query)).

Definition is_blocked (s : t) (name : bytes) : bool := Domain.contains (blocked_domains s) name.

Definition send_local (s : t) (data : bytes) (to : SocketAddr) : t :=
  with_listener s (udp_send_to (listener s) data to).2.

(** The addresses of a hosts entry that answer a question of the type.  For a
    type that is neither A nor AAAA the source takes a [transmute] of a closure,
    whose target type is inferred: [transmuted] is the function that results. *)
Context (transmuted : IpAddr → bool).

Definition host_filter (ty : RecordType) : IpAddr → bool :=
  if decide (ty = rt_A) then is_ipv4
  else if decide (ty = rt_AAAA) then (λ ip, negb (is_ipv4 ip))
  else transmuted.

Definition host_response (message : Message) (query : Query) (ips : gset IpAddr) : Message :=
  foldl (λ m ip, add_answer m (record_new (query_type query) (query_name query) 600 ip))
    (set_response message)
    (filter (λ ip, host_filter (query_type query) ip = true) (elements ips)).

Definition add_request (now : Z) (s : t) (name : bytes) (address : SocketAddr) (id : Z) : t :=
  let result := default (mkQueryResult [] None (now + secs (dns_cache_time ARGS)))
                  (store s !! name) in
  with_store s (<[name := mkQueryResult (addresses result ++ [(address, id)]) (response result)
                            (expire_time result)]> (store s)).

(** Send the query on; [false] is an error. *)
Definition forward (s : t) (name data : bytes) : bool * t :=
  if is_blocked s name then
    let '(r, x) := udp_send_to (trusted s) data (trusted_addr s) in
    (io_is_ok r, with_trusted s x)
  else
    let '(r, x) := udp_send_to (poisoned s) data (poisoned_addr s) in
    (io_is_ok r, with_poisoned s x).

(** The lookup in the cache: a cached response is sent at once.  The flags are
    [renew] and [respond]. *)
Definition try_cache (now : Z) (s : t) (key : bytes) (message : Message) (from : SocketAddr)
  : option (bool * bool * t) :=
  match store s !! key with
  | Some (mkQueryResult addrs (Some response) expire) =>
      let response := set_id response (msg_id message) in
      data ← to_vec response;
      let s := with_store s (<[key := mkQueryResult addrs (Some response) expire]> (store s)) in
      Some (expire <=? now, false, send_local s data from)
  | _ => Some (true, true, s)
  end.

(** One datagram of [dispatch_local]. *)
Definition handle_query (now : Z) (s : t) (data : bytes) (from : SocketAddr) : option t :=
  match from_bytes data with
  | None => Some s
  | Some message =>
      if negb (query_count message =? 1)%nat then Some s
      else
        query ← head (queries message);
        let name := to_utf8 (query_name query) in
        match hosts s !! name with
        | Some ips =>
            answer ← to_vec (host_response message query ips);
            Some (send_local s answer from)
        | None =>
            if bool_decide (query_type query = rt_PTR) && bool_decide (name = ptr_name s)
            then Some (send_local s (arp_data s) from)
            else
              key ← get_message_key message;
              '(renew, respond, s) ← try_cache now s key message from;
              if negb renew then Some s
              else
                let '(ok, s) := forward s name data in
                if negb ok || negb respond then Some s
                else Some (add_request now s key from (msg_id message))
        end
  end.

Fixpoint dispatch_local (fuel : nat) (now : Z) (s : t) : option t :=
  match fuel with
  | O => None
  | S fuel =>
      let '(r, l) := udp_recv_from (listener s) MAX_PACKET_SIZE in
      let s := with_listener s l in
      match r with
      | IoOk (data, from) => s ← handle_query now s data from; dispatch_local fuel now s
      | IoErr WouldBlock => Some s
      | IoErr ConnectionReset => dispatch_local fuel now s
      | IoErr _ =>
          let '(ok, l) := udp_reregister (listener s) DNS_LOCAL in
          if (ok : bool) then Some (with_listener s l) else None
      end
  end.

(** ** Responses *)

(** The loop over the clients that wait; the message keeps the last identifier. *)
Definition answer_one (acc : option (Message * UdpSocket)) (client : SocketAddr * Z)
  : option (Message * UdpSocket) :=
  '(message, socket) ← acc;
  let '(address, id) := client in
  let message := set_id message id in
  data ← to_vec message;
  Some (message, (udp_send_to socket data address).2).

(** One record of the answer: the time to live, and the route. *)
Definition note_record (blocked : bool) (index : Z) (acc : Z * gset Z * OS) (record : Rr)
  : Z * gset Z * OS :=
  let '(_, routes, o) := acc in
  let timeout := rr_ttl record in
  match rr_ip record with
  | Some (V4 octets) =>
      let addr := u32_of_octets octets in
      if add_route ARGS && blocked && negb (bool_decide (addr ∈ routes)) then
        let '(ok, o) := route_add_with_if o addr u32_MAX 0 index in
        (timeout, if (ok : bool) then {[ addr ]} ∪ routes else routes, o)
      else (timeout, routes, o)
  | _ => (timeout, routes, o)
  end.

(** What [dispatch_server] is passed besides its socket. *)
Record Shared : Type := mkShared {
  send_socket : UdpSocket;
  sh_store : Store;
  sh_routes : gset Z;
  sh_os : OS
}.

(** One datagram of [dispatch_server]. *)
Definition handle_response (now index : Z) (blocked : bool) (h : Shared) (data : bytes)
  : option Shared :=
  match from_bytes data with
  | None => Some h
  | Some message =>
      name ← get_message_key message;
      let message := clear_header (take_name_servers (take_additionals message)) in
      match sh_store h !! name with
      | Some result =>
          '(message, socket) ← foldl answer_one (Some (message, send_socket h)) (addresses result);
          let '(timeout, routes, o) :=
            foldl (note_record blocked index) (0, sh_routes h, sh_os h) (answers message) in
          Some (mkShared socket
                  (<[name := mkQueryResult [] (Some message) (now + secs timeout)]> (sh_store h))
                  routes o)
      | None => Some h
      end
  end.

(** The flag is the result of the source's function. *)
Fixpoint dispatch_server (fuel : nat) (now index : Z) (blocked : bool) (recv_socket : UdpSocket)
    (h : Shared) : option (bool * UdpSocket * Shared) :=
  match fuel with
  | O => None
  | S fuel =>
      let '(r, recv_socket) := udp_recv_from recv_socket MAX_PACKET_SIZE in
      match r with
      | IoOk (data, _) =>
          h ← handle_response now index blocked h data;
          dispatch_server fuel now index blocked recv_socket h
      | IoErr WouldBlock => Some (true, recv_socket, h)
      | IoErr ConnectionReset => dispatch_server fuel now index blocked recv_socket h
      | IoErr _ => Some (false, recv_socket, h)
      end
  end.

Definition shared (s : t) (o : OS) : Shared := mkShared (listener s) (store s) (route_added s) o.
Definition with_shared (s : t) (h : Shared) : t :=
  with_routes (with_store (with_listener s (send_socket h)) (sh_store h)) (sh_routes h).

Definition dispatch_trusted (fuel : nat) (now : Z) (s : t) (o : OS) : option (t * OS) :=
  '(ok, x, h) ← dispatch_server fuel now (adapter_index s) true (trusted s) (shared s o);
  let s := with_trusted (with_shared s h) x in
  if (ok : bool) then Some (s, sh_os h)
  else
    let '(ok, x) := udp_reregister (trusted s) DNS_TRUSTED in
    if (ok : bool) then Some (with_trusted s x, sh_os h) else None.

Definition dispatch_poisoned (fuel : nat) (now : Z) (s : t) (o : OS) : option (t * OS) :=
  '(ok, x, h) ← dispatch_server fuel now (adapter_index s) false (poisoned s) (shared s o);
  let s := with_poisoned (with_shared s h) x in
  if (ok : bool) then Some (s, sh_os h)
  else
    let '(ok, x) := udp_reregister (poisoned s) DNS_POISONED in
    if (ok : bool) then Some (with_poisoned s x, sh_os h) else None.

Definition ready (fuel : nat) (now : Z) (s : t) (o : OS) (event : Event) : option (t * OS) :=
  if ev_token event =? DNS_LOCAL then s ← dispatch_local fuel now s; Some (s, o)
  else if ev_token event =? DNS_TRUSTED then dispatch_trusted fuel now s o
  else if ev_token event =? DNS_POISONED then dispatch_poisoned fuel now s o
  else None.

(** ** Specification

    What the server promises, over the cache and the datagrams its sockets have
    sent. *)

Context `{!EnvOk E} `{!DnsProtoOk D}.

Record view : Type := mkView {
  v_store : Store;
  v_out : list (bytes * SocketAddr);
  v_trusted : list (bytes * SocketAddr);
  v_poisoned : list (bytes * SocketAddr)
}.

Definition view_of (s : t) : view :=
  mkView (store s) (datagrams (listener s)) (datagrams (trusted s)) (datagrams (poisoned s)).

(** The attempt to send a datagram: it may be lost. *)
Definition attempt (ds : list (bytes * SocketAddr)) (d : bytes) (a : SocketAddr)
    (ds' : list (bytes * SocketAddr)) : Prop :=
  ds' = ds ∨ ∃ n, ds' = ds ++ [(take n d, a)].

(** Attempts to send several, in order. *)
Definition attempts : list (bytes * SocketAddr) → list (bytes * SocketAddr) →
    list (bytes * SocketAddr) → Prop :=
  steps (λ ds e ds', attempt ds e.1 e.2 ds').

(** The parts of the state that no event changes. *)
Record config : Type := mkConfig {
  cf_hosts : Hosts;
  cf_blocked : DomainMap;
  cf_ptr : bytes * bytes;
  cf_trusted : SocketAddr;
  cf_poisoned : SocketAddr
}.

Definition config_of (s : t) : config :=
  mkConfig (hosts s) (blocked_domains s) (ptr_name s, arp_data s) (trusted_addr s) (poisoned_addr s).

(** [d] is one question, with message [m]. *)
Definition asks (d : bytes) (m : Message) (q : Query) : Prop :=
  from_bytes d = Some m ∧ queries m = [q].

(** It is answered from the configuration. *)
Inductive local_answer (cf : config) (m : Message) (q : Query) : bytes → Prop :=
  | la_hosts ips d :
      cf_hosts cf !! to_utf8 (query_name q) = Some ips →
      to_vec (host_response m q ips) = Some d → local_answer cf m q d
  | la_ptr :
      cf_hosts cf !! to_utf8 (query_name q) = None → query_type q = rt_PTR →
      to_utf8 (query_name q) = (cf_ptr cf).1 → local_answer cf m q (cf_ptr cf).2.

Definition not_local (cf : config) (q : Query) : Prop :=
  cf_hosts cf !! to_utf8 (query_name q) = None
  ∧ ¬ (query_type q = rt_PTR ∧ to_utf8 (query_name q) = (cf_ptr cf).1).

Definition key_of (q : Query) : bytes :=
  to_utf8 (query_name q) ++ BAR :: rt_to_string (query_type q).

(** The question is sent on: to the trusted server if its name is blocked, to the
    poisoned one if not. *)
Definition forwarded (cf : config) (v : view) (q : Query) (d : bytes) (v' : view) : Prop :=
  if Domain.contains (cf_blocked cf) (to_utf8 (query_name q))
  then ∃ n, v' = mkView (v_store v) (v_out v) (v_trusted v ++ [(take n d, cf_trusted cf)]) (v_poisoned v)
  else ∃ n, v' = mkView (v_store v) (v_out v) (v_trusted v) (v_poisoned v ++ [(take n d, cf_poisoned cf)]).

Definition with_out (v : view) (out : list (bytes * SocketAddr)) : view :=
  mkView (v_store v) out (v_trusted v) (v_poisoned v).
Definition with_v_store (v : view) (st : Store) : view :=
  mkView st (v_out v) (v_trusted v) (v_poisoned v).

(** A cached response, and its form for another client. *)
Definition cached (v : view) (k : bytes) (r : QueryResult) (m : Message) : Prop :=
  v_store v !! k = Some r ∧ response r = Some m.

Definition waits (now : Z) (v : view) (k : bytes) (from : SocketAddr) (id : Z) : view :=
  let r := default (mkQueryResult [] None (now + secs (dns_cache_time ARGS))) (v_store v !! k) in
  with_v_store v (<[k := mkQueryResult (addresses r ++ [(from, id)]) (response r) (expire_time r)]>
    (v_store v)).

(** What a client's datagram does. *)
Inductive query_step (now : Z) (cf : config) (v : view) : bytes * SocketAddr → view → Prop :=
  | q_ignored d from :
      (∀ m q, ¬ asks d m q) → query_step now cf v (d, from) v
  | q_local d from m q answer out :
      asks d m q → local_answer cf m q answer →
      attempt (v_out v) answer from out →
      query_step now cf v (d, from) (with_out v out)
  | q_cached d from m q r resp answer out v' :
      asks d m q → not_local cf q → cached v (key_of q) r resp →
      to_vec (set_id resp (msg_id m)) = Some answer → attempt (v_out v) answer from out →
      let v1 := with_out (with_v_store v (<[key_of q := mkQueryResult (addresses r)
                  (Some (set_id resp (msg_id m))) (expire_time r)]> (v_store v))) out in
      (if expire_time r <=? now then v' = v1 ∨ forwarded cf v1 q d v' else v' = v1) →
      query_step now cf v (d, from) v'
  | q_lost d from m q :
      asks d m q → not_local cf q → (∀ r resp, ¬ cached v (key_of q) r resp) →
      query_step now cf v (d, from) v
  | q_waits d from m q v1 :
      asks d m q → not_local cf q → (∀ r resp, ¬ cached v (key_of q) r resp) →
      forwarded cf v q d v1 →
      query_step now cf v (d, from) (waits now v1 (key_of q) from (msg_id m)).

(** The response stored and sent, but for its identifier. *)
Definition stripped (m : Message) : Message :=
  clear_header (take_name_servers (take_additionals m)).

(** The time to live the cache takes: that of the last record. *)
Definition last_ttl (m : Message) : Z := default 0 (rr_ttl <$> last (answers m)).

(** What a datagram of an upstream server does: whoever waits under the key of
    its question is sent the response under the identifier of his own question,
    and the response is kept. *)
Inductive response_step (now : Z) (v : view) : bytes * SocketAddr → view → Prop :=
  | r_invalid d from : from_bytes d = None → response_step now v (d, from) v
  | r_unknown d from m k :
      from_bytes d = Some m → get_message_key m = Some k → v_store v !! k = None →
      response_step now v (d, from) v
  | r_answer d from m m' k r ds out :
      from_bytes d = Some m → get_message_key m = Some k → v_store v !! k = Some r →
      Forall2 (λ client e, e.2 = client.1 ∧ to_vec (set_id (stripped m) client.2) = Some e.1)
        (addresses r) ds →
      attempts (v_out v) ds out →
      m' = stripped m ∨ (∃ id, m' = set_id (stripped m) id) →
      response_step now v (d, from)
        (with_out (with_v_store v (<[k := mkQueryResult [] (Some m')
          (now + secs (last_ttl m'))]> (v_store v))) out).

Inductive label : Type := FromClient (e : bytes * SocketAddr) | FromServer (e : bytes * SocketAddr).

Definition dns_step (now : Z) (cf : config) (v : view) (l : label) (v' : view) : Prop :=
  match l with
  | FromClient e => query_step now cf v e v'
  | FromServer e => response_step now v e v'
  end.

Lemma attempt_send s d a :
  attempt (datagrams s) d a (datagrams (udp_send_to s d a).2).
Proof.
  destruct (udp_send_to s d a) as [[n|k] s'] eqn:Hs; simpl.
  - right. exists n. by apply udp_send_ok in Hs as [_ ->].
  - left. by apply udp_send_err in Hs.
Qed.

Lemma forward_spec cf s q d :
  config_of s = cf →
  let '(ok, s') := forward s (to_utf8 (query_name q)) d in
  config_of s' = cf ∧ store s' = store s ∧ listener s' = listener s
  ∧ if ok then forwarded cf (view_of s) q d (view_of s') else view_of s' = view_of s.
Proof.
  intros <-. unfold forward, forwarded, is_blocked.
  change (cf_blocked (config_of s)) with (blocked_domains s).
  destruct (Domain.contains (blocked_domains s) (to_utf8 (query_name q))).
  - destruct (udp_send_to (trusted s) d (trusted_addr s)) as [[n|k] x] eqn:Hs; simpl; split_and!; try done.
    + exists n. apply udp_send_ok in Hs as [_ Hs]. unfold view_of. simpl. by rewrite Hs.
    + apply udp_send_err in Hs. unfold view_of. simpl. by rewrite Hs.
  - destruct (udp_send_to (poisoned s) d (poisoned_addr s)) as [[n|k] x] eqn:Hs; simpl; split_and!; try done.
    + exists n. apply udp_send_ok in Hs as [_ Hs]. unfold view_of. simpl. by rewrite Hs.
    + apply udp_send_err in Hs. unfold view_of. simpl. by rewrite Hs.
Qed.

(** What handling a datagram does to the listener: nothing is taken from it. *)
Definition listens (s s' : t) : Prop :=
  (udp_rx_left (listener s') <= udp_rx_left (listener s))%nat
  ∧ taken (listener s') = taken (listener s).

#[local] Instance listens_preorder : PreOrder listens.
Proof.
  split; [done|]. intros s1 s2 s3 [H1 H2] [H3 H4]. split; [lia|congruence].
Qed.

Lemma listens_send s d a : listens s (send_local s d a).
Proof. split; [apply udp_send_left|apply udp_send_taken]. Qed.

Lemma listens_eq s s' : listener s' = listener s → listens s s'.
Proof. unfold listens. by intros ->. Qed.

(** Only an encoding error panics. *)
Definition encodes (r : option t) : Prop := r = None → ∃ m, to_vec m = None.

Lemma asks_query d m :
  from_bytes d = Some m → (query_count m =? 1)%nat = true → ∃ q, asks d m q.
Proof.
  intros Hd Hc%Nat.eqb_eq. rewrite (query_count_ok _ _ Hd) in Hc.
  destruct (queries m) as [|q [|q' l]] eqn:Hq; try done. by exists q.
Qed.

Lemma try_cache_spec now s m q d from :
  asks d m q →
  match try_cache now s (key_of q) m from with
  | Some (renew, respond, s') =>
      config_of s' = config_of s ∧ listens s s' ∧ trusted s' = trusted s ∧ poisoned s' = poisoned s
      ∧ if respond
        then renew = true ∧ s' = s ∧ ∀ r resp, ¬ cached (view_of s) (key_of q) r resp
        else ∃ r resp answer out,
          cached (view_of s) (key_of q) r resp ∧ to_vec (set_id resp (msg_id m)) = Some answer
          ∧ attempt (v_out (view_of s)) answer from out ∧ renew = (expire_time r <=? now)
          ∧ view_of s' = with_out (with_v_store (view_of s)
              (<[key_of q := mkQueryResult (addresses r) (Some (set_id resp (msg_id m)))
                 (expire_time r)]> (v_store (view_of s)))) out
  | None => ∃ m, to_vec m = None
  end.
Proof.
  intros _. unfold try_cache, cached. simpl.
  destruct (store s !! key_of q) as [[addrs [resp|] expire]|] eqn:Hst.
  - destruct (to_vec (set_id resp (msg_id m))) as [answer|] eqn:Hv; simpl; [|by eexists].
    split_and!; try done; [apply (listens_send s)|].
    eexists _, resp, answer, _. split_and!; try done. apply attempt_send.
  - split_and!; try done. by intros r resp [[= <-] ?].
  - split_and!; try done. by intros r resp [? ?].
Qed.

Lemma handle_query_ok now s d from :
  match handle_query now s d from with
  | Some s' => config_of s' = config_of s ∧ listens s s'
      ∧ query_step now (config_of s) (view_of s) (d, from) (view_of s')
  | None => ∃ m, to_vec m = None
  end.
Proof.
  unfold handle_query. destruct (from_bytes d) as [m|] eqn:Hd.
  2: { split_and!; try done. apply q_ignored. intros m q [? _]. congruence. }
  destruct (query_count m =? 1)%nat eqn:Hc; cbn [negb].
  2: { split_and!; try done. apply q_ignored. intros m' q [Hd' Hq].
       assert (m' = m) as -> by congruence.
       rewrite (query_count_ok _ _ Hd), Hq in Hc. done. }
  destruct (asks_query d m) as [q Hq]; [done..|]. pose proof Hq as [_ Hq2]. rewrite Hq2.
  cbn [head mbind option_bind]. destruct (hosts s !! to_utf8 (query_name q)) as [ips|] eqn:Hh.
  { destruct (to_vec (host_response m q ips)) as [answer|] eqn:Hv; cbn [mbind option_bind]; [|by eexists].
    split_and!; [done|apply listens_send|].
    eapply q_local; [done|by eapply la_hosts|apply attempt_send]. }
  destruct (bool_decide (query_type q = rt_PTR) && bool_decide (to_utf8 (query_name q) = ptr_name s)) eqn:Hp.
  { apply andb_true_iff in Hp as [Ht%bool_decide_eq_true Hn%bool_decide_eq_true].
    split_and!; [done|apply listens_send|].
    eapply q_local; [done|by apply la_ptr|apply attempt_send]. }
  assert (not_local (config_of s) q) as Hnl.
  { split; [done|]. intros [Ht Hn]. apply andb_false_iff in Hp as [Hp|Hp];
      by apply bool_decide_eq_false in Hp. }
  unfold get_message_key. rewrite Hq2. cbn [head mbind option_bind].
  change (to_utf8 (query_name q) ++ BAR :: rt_to_string (query_type q)) with (key_of q).
  pose proof (try_cache_spec now s m q d from Hq) as Ht.
  destruct (try_cache now s (key_of q) m from) as [[[renew respond] s1]|]; cbn [mbind option_bind]; [|done].
  destruct Ht as (Hcf & Hl & Htr & Hpo & Ht).
  pose proof (forward_spec (config_of s) s1 q d Hcf) as Hf.
  destruct (forward s1 (to_utf8 (query_name q)) d) as [ok s2]. destruct Hf as (Hcf2 & Hst2 & Hl2 & Hf).
  assert (listens s s2) as Hls by (etrans; [exact Hl|by apply listens_eq]).
  destruct respond.
  - destruct Ht as (-> & -> & Hn). cbn [negb]. destruct ok; cbn [negb orb].
    + split_and!; [exact Hcf2|etrans; [exact Hls|by apply listens_eq]|].
      assert (view_of (add_request now s2 (key_of q) from (msg_id m))
        = waits now (view_of s2) (key_of q) from (msg_id m)) as -> by done.
      eapply q_waits; done.
    + split_and!; [done..|]. rewrite Hf. by eapply q_lost.
  - destruct Ht as (r & resp & answer & out & Hca & Hv & Ha & -> & Hview).
    destruct (expire_time r <=? now) eqn:He; cbn [negb].
    + rewrite orb_true_r. split_and!; [done..|].
      eapply q_cached; [done..|]. rewrite He. cbn zeta. rewrite <-Hview. destruct ok; [by right|by left].
    + split_and!; [done..|]. eapply q_cached; [done..|]. rewrite He. cbn zeta. by rewrite <-Hview.
Qed.

(** ** The loops *)

Lemma udp_recv_left s n :
  match udp_recv_from s n with
  | (IoOk e, s') => (udp_rx_left s' < udp_rx_left s)%nat ∧ taken s' = taken s ++ [e]
                    ∧ datagrams s' = datagrams s
  | (IoErr k, s') => (k = ConnectionReset → udp_rx_left s' < udp_rx_left s)%nat
                     ∧ taken s' = taken s ∧ datagrams s' = datagrams s
  end.
Proof.
  destruct (udp_recv_from s n) as [[[d a]|k] s'] eqn:Hr.
  - apply udp_recv_ok in Hr as (_ & ? & ? & ?). done.
  - pose proof (udp_recv_err _ _ _ _ Hr) as [? ?]. split; [|done]. intros ->.
    by apply udp_recv_reset in Hr.
Qed.

(** [dispatch_local] handles the datagrams it takes, one step each. *)
Definition local_served (now : Z) (s s' : t) : Prop :=
  ∃ qs, taken (listener s') = taken (listener s) ++ qs
    ∧ config_of s' = config_of s
    ∧ steps (query_step now (config_of s)) (view_of s) qs (view_of s').

Lemma dispatch_local_ok now s :
  decided (λ fuel, dispatch_local fuel now s) (λ r, returns (local_served now s) r
    ∧ (r = None → (∃ m, to_vec m = None) ∨ ∃ u k, (udp_reregister u k).1 = false)).
Proof.
  remember (udp_rx_left (listener s)) as n eqn:Hn. revert s Hn.
  induction n as [n IH] using lt_wf_ind. intros s ->. apply decided_S. cbn [dispatch_local].
  pose proof (udp_recv_left (listener s) MAX_PACKET_SIZE) as Hr.
  destruct (udp_recv_from (listener s) MAX_PACKET_SIZE) as [[[d from]|k] l].
  - destruct Hr as (Hlt & Htk & Hds).
    pose proof (handle_query_ok now (with_listener s l) d from) as Hq.
    destruct (handle_query now (with_listener s l) d from) as [s1|]; cbn [mbind option_bind].
    2: { apply decided_ret. split; [auto with trojan|]. by left. }
    destruct Hq as (Hcf & [Hl Htk1] & Hstep).
    assert (view_of (with_listener s l) = view_of s) as Hv by (unfold view_of; simpl; by rewrite Hds).
    rewrite Hv in Hstep. simpl in Hl, Htk1.
    eapply decided_weaken; [apply (IH (udp_rx_left (listener s1))); [lia|done]|].
    intros r [Hr He]. split; [|done]. intros s' Hs'. destruct (Hr s' Hs') as (qs & H1 & H2 & H3).
    exists ((d, from) :: qs). split_and!.
    + by rewrite H1, Htk1, Htk, <-app_assoc.
    + by rewrite H2.
    + econstructor; [exact Hstep|]. by rewrite Hcf in H3.
  - destruct Hr as (Hlt & Htk & Hds).
    assert (∀ s', listener s' = l → config_of s' = config_of s → store s' = store s →
      trusted s' = trusted s → poisoned s' = poisoned s → local_served now s s') as Hdone.
    { intros s' Hl Hcf H1 H2 H3. exists []. rewrite Hl, app_nil_r. split_and!; [done..|].
      assert (view_of s' = view_of s) as -> by (unfold view_of; by rewrite Hl, H1, H2, H3, Hds).
      constructor. }
    destruct k; try (
      destruct (udp_reregister l DNS_LOCAL) as [ok l'] eqn:Hre; simpl; rewrite Hre;
      pose proof (udp_reregister_frame l DNS_LOCAL) as [Hf1 Hf2]; rewrite Hre in Hf1, Hf2; simpl in Hf1, Hf2;
      apply decided_ret; destruct ok;
      [split; [|done]; apply returns_some; exists []; simpl; rewrite Hf2, Htk, app_nil_r;
       split_and!; [done..|]; unfold view_of; simpl; rewrite Hf1, Hds; constructor
      |split; [auto with trojan|]; intros _; right; exists l, DNS_LOCAL; by rewrite Hre]).
    + apply (decided_ret (Some _)). split; [|done]. apply returns_some. by apply Hdone.
    + eapply decided_weaken; [apply (IH (udp_rx_left l)); [by apply Hlt|done]|].
      intros r [Hr He]. split; [|done]. intros s' Hs'. destruct (Hr s' Hs') as (qs & H1 & H2 & H3).
      exists qs. split_and!; [by rewrite H1; simpl; rewrite Htk|done|].
      assert (view_of (with_listener s l) = view_of s) as Hv by (unfold view_of; simpl; by rewrite Hds).
      by rewrite Hv in H3.
Qed.

(** ** Responses *)

Lemma set_id_chain m m' i : m' = m ∨ (∃ j, m' = set_id m j) → set_id m' i = set_id m i.
Proof. intros [->|[j ->]]; [done|]. apply set_id_set_id. Qed.

Lemma answer_none clients : foldl answer_one None clients = None.
Proof. by induction clients. Qed.

(** Nothing but [send_to] happens to the socket. *)
Definition same_rx (u u' : UdpSocket) : Prop :=
  (udp_rx_left u' <= udp_rx_left u)%nat ∧ taken u' = taken u.

Lemma same_rx_trans u1 u2 u3 : same_rx u1 u2 → same_rx u2 u3 → same_rx u1 u3.
Proof. intros [H1 H2] [H3 H4]. split; [lia|congruence]. Qed.

Lemma answer_all_ok base m u clients :
  m = base ∨ (∃ j, m = set_id base j) →
  match foldl answer_one (Some (m, u)) clients with
  | Some (m', u') =>
      (m' = base ∨ ∃ j, m' = set_id base j) ∧ same_rx u u'
      ∧ ∃ ds, Forall2 (λ client e, e.2 = client.1 ∧ to_vec (set_id base client.2) = Some e.1) clients ds
        ∧ attempts (datagrams u) ds (datagrams u')
  | None => ∃ m, to_vec m = None
  end.
Proof.
  revert m u. induction clients as [|[a i] clients IH]; intros m u Hm; simpl.
  { split_and!; [done|done|]. exists []. split; constructor. }
  rewrite (set_id_chain base m i Hm).
  destruct (to_vec (set_id base i)) as [d|] eqn:Hv; simpl; [|rewrite answer_none; by eexists].
  specialize (IH (set_id base i) (udp_send_to u d a).2 ltac:(by right; eexists)).
  destruct (foldl answer_one _ clients) as [[m' u']|]; [|done].
  destruct IH as (H1 & H2 & ds & H3 & H4). split_and!; [done| |].
  - eapply same_rx_trans; [|exact H2]. split; [apply udp_send_left|apply udp_send_taken].
  - exists ((d, a) :: ds). split; [by constructor|]. econstructor; [|exact H4]. apply attempt_send.
Qed.

Lemma note_records_ttl blocked index acc records :
  (foldl (note_record blocked index) acc records).1.1 = default acc.1.1 (rr_ttl <$> last records).
Proof.
  induction records as [|x records IH] using rev_ind; [done|].
  rewrite foldl_snoc, last_snoc. destruct (foldl _ acc records) as [[ttl routes] o]. simpl.
  unfold note_record. destruct (rr_ip x) as [[b|b]|]; try done.
  case_match; [|done]. by destruct (route_add_with_if _ _ _ _ _).
Qed.

Definition shared_view (tr po : list (bytes * SocketAddr)) (h : Shared) : view :=
  mkView (sh_store h) (datagrams (send_socket h)) tr po.

Definition panics : Prop :=
  (∃ m, to_vec m = None) ∨ ∃ d m, from_bytes d = Some m ∧ queries m = [].

Lemma handle_response_ok now index blocked h d from tr po :
  match handle_response now index blocked h d with
  | Some h' => same_rx (send_socket h) (send_socket h')
      ∧ response_step now (shared_view tr po h) (d, from) (shared_view tr po h')
  | None => panics
  end.
Proof.
  unfold handle_response. destruct (from_bytes d) as [m|] eqn:Hd; [|by split; [|apply r_invalid]].
  destruct (get_message_key m) as [k|] eqn:Hk; cbn [mbind option_bind].
  2: { right. exists d, m. split; [done|]. unfold get_message_key in Hk.
       by destruct (queries m). }
  destruct (sh_store h !! k) as [r|] eqn:Hr; [|by split; [|eapply r_unknown]].
  pose proof (answer_all_ok (stripped m) (stripped m) (send_socket h) (addresses r) ltac:(by left)) as Ha.
  change (clear_header (take_name_servers (take_additionals m))) with (stripped m).
  destruct (foldl answer_one (Some (stripped m, send_socket h)) (addresses r)) as [[m' u]|];
    cbn [mbind option_bind]; [|by left].
  destruct Ha as (Hm & Hu & ds & H1 & H2).
  pose proof (note_records_ttl blocked index (0, sh_routes h, sh_os h) (answers m')) as Ht.
  destruct (foldl (note_record blocked index) _ (answers m')) as [[ttl routes] o]. simpl in Ht. subst ttl.
  split; [done|]. by apply (r_answer now (shared_view tr po h) d from m m' k r ds).
Qed.

(** [dispatch_server] handles the datagrams it takes, one step each. *)
Lemma dispatch_server_ok now index blocked u h tr po :
  decided (λ fuel, dispatch_server fuel now index blocked u h)
    (λ r, match r with
          | Some (_, u', h') => same_rx (send_socket h) (send_socket h')
              ∧ datagrams u' = datagrams u
              ∧ ∃ qs, taken u' = taken u ++ qs
                ∧ steps (response_step now) (shared_view tr po h) qs (shared_view tr po h')
          | None => panics
          end).
Proof.
  remember (udp_rx_left u) as n eqn:Hn. revert u h Hn.
  induction n as [n IH] using lt_wf_ind. intros u h ->. apply decided_S. cbn [dispatch_server].
  pose proof (udp_recv_left u MAX_PACKET_SIZE) as Hr.
  destruct (udp_recv_from u MAX_PACKET_SIZE) as [[[d from]|k] u1].
  - destruct Hr as (Hlt & Htk & Hds).
    pose proof (handle_response_ok now index blocked h d from tr po) as Hq.
    destruct (handle_response now index blocked h d) as [h1|]; cbn [mbind option_bind].
    2: { by apply decided_ret. }
    destruct Hq as [Hs Hstep].
    eapply decided_weaken; [by apply (IH (udp_rx_left u1)); [lia|]|].
    intros [[[ok u2] h2]|] Hr; [|done]. destruct Hr as (H1 & H2 & qs & H3 & H4). split_and!.
    + by eapply same_rx_trans.
    + congruence.
    + exists ((d, from) :: qs). split; [by rewrite H3, Htk, <-app_assoc|]. by econstructor.
  - destruct Hr as (Hlt & Htk & Hds).
    assert (∀ ok : bool, decided (λ _, Some (ok, u1, h)) (λ r, match r with
          | Some (_, u', h') => same_rx (send_socket h) (send_socket h')
              ∧ datagrams u' = datagrams u
              ∧ ∃ qs, taken u' = taken u ++ qs
                ∧ steps (response_step now) (shared_view tr po h) qs (shared_view tr po h')
          | None => panics
          end)) as Hdone.
    { intros ok. apply (decided_ret (Some (ok, u1, h))). split_and!; [done..|]. exists [].
      rewrite app_nil_r. split; [done|constructor]. }
    destruct k; [apply Hdone..| |apply Hdone].
    eapply decided_weaken; [by apply (IH (udp_rx_left u1)); [apply Hlt|]|].
    intros [[[ok u2] h2]|] Hr; [|done]. destruct Hr as (H1 & H2 & qs & H3 & H4).
    split_and!; [done|congruence|]. exists qs. split; [congruence|done].
Qed.

(** ** Events *)

(** The datagrams an event takes, from the client socket or from an upstream one. *)
Definition takes (event : Event) (s s' : t) (ls : list label) : Prop :=
  if ev_token event =? DNS_LOCAL
  then ∃ qs, taken (listener s') = taken (listener s) ++ qs ∧ ls = FromClient <$> qs
  else if ev_token event =? DNS_TRUSTED
  then ∃ qs, taken (trusted s') = taken (trusted s) ++ qs ∧ ls = FromServer <$> qs
  else ∃ qs, taken (poisoned s') = taken (poisoned s) ++ qs ∧ ls = FromServer <$> qs.

Definition refines (now : Z) (event : Event) (s s' : t) : Prop :=
  ∃ ls, takes event s s' ls ∧ config_of s' = config_of s
    ∧ steps (dns_step now (config_of s)) (view_of s) ls (view_of s').

Definition system_fails : Prop := ∃ u k, (udp_reregister u k).1 = false.

(** The events the server registers for. *)
Definition own_event (event : Event) : Prop :=
  ev_token event = DNS_LOCAL ∨ ev_token event = DNS_TRUSTED ∨ ev_token event = DNS_POISONED.

Lemma steps_labels now cf (f : bytes * SocketAddr → label) (R : view → bytes * SocketAddr → view → Prop) v qs v' :
  (∀ v e v', R v e v' → dns_step now cf v (f e) v') →
  steps R v qs v' → steps (dns_step now cf) v (f <$> qs) v'.
Proof. intros HR. induction 1; [constructor|]. econstructor; eauto. Qed.

(** What both upstream sockets share: [u] is the socket read, [put] writes it
    back. *)
Lemma upstream_ok now index blocked u token s o event (put : t → UdpSocket → t) :
  (∀ h x qs, datagrams x = datagrams u → taken x = taken u ++ qs →
    steps (response_step now) (view_of s) qs
      (shared_view (datagrams (trusted s)) (datagrams (poisoned s)) h) →
    refines now event s (put (with_shared s h) x)) →
  decided (λ fuel,
      '(ok, x, h) ← dispatch_server fuel now index blocked u (shared s o);
      if (ok : bool) then Some (put (with_shared s h) x, sh_os h)
      else
        let '(ok, x) := udp_reregister x token in
        if (ok : bool) then Some (put (with_shared s h) x, sh_os h) else None)
    (λ r, returns (λ so, refines now event s so.1) r ∧ (r = None → panics ∨ system_fails)).
Proof.
  intros Hput. eapply decided_bind;
    [apply (dispatch_server_ok now index blocked u (shared s o)
       (datagrams (trusted s)) (datagrams (poisoned s)))| |].
  { intros Hp. split; [auto with trojan|]. by left. }
  intros [[ok x] h] (Hs & Hd & qs & Ht & Hst). destruct ok.
  - apply (decided_ret (Some (_, _))). split; [|done]. apply returns_some. by eapply Hput.
  - pose proof (udp_reregister_frame x token) as [Hf1 Hf2].
    destruct (udp_reregister x token) as [ok x'] eqn:Hre. simpl in Hf1, Hf2. destruct ok.
    + apply (decided_ret (Some (_, _))). split; [|done]. apply returns_some.
      apply (Hput h x' qs); [congruence..|exact Hst].
    + apply (decided_ret None). split; [auto with trojan|]. intros _. right.
      exists x, token. by rewrite Hre.
Qed.

Lemma ready_refines now s o event :
  own_event event →
  decided (λ fuel, ready fuel now s o event) (λ r,
    returns (λ so, refines now event s so.1) r ∧ (r = None → panics ∨ system_fails)).
Proof.
  intros Hev. unfold ready. destruct Hev as [Hev | [Hev | Hev]]; rewrite Hev; cbn [Z.eqb Pos.eqb].
  - eapply decided_bind; [apply dispatch_local_ok| |].
    { intros [_ He]. split; [auto with trojan|]. intros _. unfold panics.
      destruct (He eq_refl); auto. }
    intros s' [Hr _]. apply (decided_ret (Some (s', o))). split; [|done]. apply returns_some.
    destruct (Hr s' eq_refl) as (qs & H1 & H2 & H3). exists (FromClient <$> qs). unfold takes.
    rewrite Hev. split_and!; [by exists qs|done|]. by eapply steps_labels; [|exact H3].
  - refine (upstream_ok now (adapter_index s) true (trusted s) DNS_TRUSTED s o event with_trusted _).
    intros h x qs Hd Ht Hst. exists (FromServer <$> qs). unfold takes. rewrite Hev.
    split_and!; [by exists qs|done|]. eapply steps_labels with (R := response_step now); [done|].
    unfold view_of at 2. simpl. by rewrite Hd.
  - refine (upstream_ok now (adapter_index s) false (poisoned s) DNS_POISONED s o event with_poisoned _).
    intros h x qs Hd Ht Hst. exists (FromServer <$> qs). unfold takes. rewrite Hev.
    split_and!; [by exists qs|done|]. eapply steps_labels with (R := response_step now); [done|].
    unfold view_of at 2. simpl. by rewrite Hd.
Qed.


(** ** Runs *)

Definition run (fuel : nat) (st : t * OS) (es : list (Z * Event)) : option (t * OS) :=
  foldl (λ acc e, st ← acc; ready fuel e.1 st.1 st.2 e.2) (Some st) es.

(** A datagram sent to an upstream server is the question of a client for a
    name that server is to be asked about. *)
Definition proper_question (cf : config) (blocked : bool) (e : bytes * SocketAddr) : Prop :=
  e.2 = (if blocked then cf_trusted cf else cf_poisoned cf)
  ∧ ∃ d m q, e.1 `prefix_of` d ∧ asks d m q ∧ not_local cf q
    ∧ Domain.contains (cf_blocked cf) (to_utf8 (query_name q)) = blocked.

(** [P] holds of what was sent to the server for blocked names, or the other. *)
Record sound (P : bool → bytes * SocketAddr → Prop) (v : view) : Prop := {
  so_waiting : ∀ k r, v_store v !! k = Some r → response r ≠ None → addresses r = [];
  so_trusted : Forall (P true) (v_trusted v);
  so_poisoned : Forall (P false) (v_poisoned v)
}.

Lemma sound_store P v k r out :
  sound P v → (response r ≠ None → addresses r = []) →
  sound P (with_out (with_v_store v (<[k := r]> (v_store v))) out).
Proof.
  intros [H1 H2 H3] Hr. split; [|done..]. intros k' r'. simpl.
  intros [[_ <-]|[_ Hk]]%lookup_insert_Some; [done|by eapply H1].
Qed.

Section Sound.
Context (cf : config) (P : bool → bytes * SocketAddr → Prop) (proper : ∀ b e, proper_question cf b e → P b e).

Lemma sound_forwarded v q d v' m :
  sound P v → asks d m q → not_local cf q → forwarded cf v q d v' →
  sound P v' ∧ v_store v' = v_store v.
Proof.
  intros [H1 H2 H3] Hq Hn. unfold forwarded.
  destruct (Domain.contains (cf_blocked cf) (to_utf8 (query_name q))) eqn:Hb;
    intros [n ->]; (split; [|done]); split; simpl; try done; apply Forall_app; (split; [done|]);
    constructor; [|done| |done]; apply proper; (split; [done|]); exists d, m, q;
    (split; [exists (drop n d); simpl; by rewrite take_drop|done]).
Qed.

Lemma query_step_sound now v e v' : query_step now cf v e v' → sound P v → sound P v'.
Proof.
  intros Hs Hv. destruct Hs as [d from _|d from m q answer out _ _ _
    |d from m q r resp answer out v' Hq Hn [Hst Hr] _ _ v1 Hv1|d from m q _ _ _|d from m q v1 Hq Hn Hc Hf].
  - done.
  - by destruct Hv.
  - assert (sound P v1) as Hsv1.
    { apply sound_store; [done|]. intros _. apply (so_waiting _ _ Hv _ _ Hst). congruence. }
    destruct (expire_time r <=? now); [|by subst]. destruct Hv1 as [->|Hf]; [done|].
    by eapply sound_forwarded.
  - done.
  - destruct (sound_forwarded _ _ _ _ _ Hv Hq Hn Hf) as [Hv1 Hst].
    unfold waits. apply (sound_store P v1 (key_of q) _ (v_out v1)); [done|].
    cbn [response addresses]. intros Hr. exfalso. apply Hr. clear Hr.
    destruct (v_store v1 !! key_of q) as [r|] eqn:Hk; [|done]. simpl.
    rewrite Hst in Hk. destruct (response r) as [resp|] eqn:Hresp; [|done]. exfalso.
    by eapply Hc.
Qed.

Lemma response_step_sound now v e v' : response_step now v e v' → sound P v → sound P v'.
Proof. intros Hs Hv. destruct Hs; [done|done|]. by apply sound_store. Qed.

Lemma dns_step_sound now v l v' : dns_step now cf v l v' → sound P v → sound P v'.
Proof. destruct l; [apply query_step_sound|apply response_step_sound]. Qed.

(** A run of events at one configuration. *)
Lemma run_sound s o es :
  config_of s = cf → sound P (view_of s) → Forall (λ e, own_event e.2) es →
  decided (λ fuel, run fuel (s, o) es) (λ r, returns (λ so, config_of so.1 = cf ∧ sound P (view_of so.1)) r).
Proof.
  intros Hcf Hs Hes. unfold run.
  refine (decided_weaken _ _ _ (decided_foldl (λ fuel st e, ready fuel e.1 st.1 st.2 e.2)
    (λ so, config_of so.1 = cf ∧ sound P (view_of so.1)) (s, o) es _ _) _).
  - intros [s1 o1] [now event] He [Hcf1 Hs1]. simpl in *.
    rewrite Forall_forall in Hes. apply Hes in He.
    eapply decided_weaken; [by apply ready_refines|]. intros r [Hr _] so Hso.
    destruct (Hr so Hso) as (ls & _ & H1 & H2). rewrite Hcf1 in H1, H2. split; [done|].
    by eapply steps_invariant; [apply dns_step_sound|exact H2|].
  - done.
  - intros r Hr so Hso. by apply Hr.
Qed.
End Sound.

(** Along any run of events, a question reaches the trusted server only if
    its name is blocked and the poisoned server only if it is not, no question
    the server can answer itself leaves it, and nobody is kept waiting for a
    response the cache already holds. *)
Theorem dns_splits_questions s o es :
  store s = ∅ → datagrams (trusted s) = [] → datagrams (poisoned s) = [] →
  Forall (λ e, own_event e.2) es →
  decided (λ fuel, run fuel (s, o) es) (returns (λ so, sound (proper_question (config_of s)) (view_of so.1))).
Proof.
  intros Hst Ht Hp Hes. eapply decided_weaken; [apply (run_sound (config_of s) (proper_question (config_of s))); try done|].
  - split; simpl; [|by rewrite Ht|by rewrite Hp]. intros k r. by rewrite Hst.
  - intros r Hr so Hso. by apply Hr.
Qed.

(** A datagram without a question, from whatever address it comes, panics. *)
Lemma dns_no_question_panics fuel now index blocked u h d from u' m :
  udp_recv_from u MAX_PACKET_SIZE = (IoOk (d, from), u') →
  from_bytes d = Some m → queries m = [] →
  dispatch_server fuel now index blocked u h = None.
Proof.
  intros Hr Hd Hq. destruct fuel as [|fuel]; [done|]. cbn [dispatch_server]. rewrite Hr.
  unfold handle_response, get_message_key. by rewrite Hd, Hq.
Qed.

(** C36: the table of the hosts file holds exactly the addresses and names the
    lines of the file define, a line's fields being those of
    [split_whitespace]; a name of the table has an address. *)
Theorem hosts_table s o lines s' :
  hosts_path ARGS ≠ [] → read_lines o (hosts_path ARGS) = Some lines →
  update_hosts s o = Some s' →
  (∀ ip name, ip ∈ default ∅ (hosts s' !! name)
    ↔ ∃ line, Some line ∈ lines ∧ line_entry line = Some (ip, name))
  ∧ (∀ name ips, hosts s' !! name = Some ips → ips ≠ ∅)
  ∧ view_of s' = view_of s.
Proof.
  unfold update_hosts. intros Hp Hl. rewrite decide_False, Hl by done. intros [= <-].
  split_and!; [|apply hosts_of_ne|done]. intros ip name. apply hosts_of_spec.
Qed.
End DnsServer.
#[global] Arguments t E {D} : assert.
End DnsServer.

Module DnsWitness.
(** A small protocol: a message is its identifier, the question's type and name,
    and addresses with a time to live. *)
Record message : Type := mkMessage {
  m_id : Z; m_questions : list (Z * bytes); m_answers : list (Z * IpAddr)
}.

Definition parse (d : bytes) : option message :=
  match d with
  | [] => None
  | [i] => Some (mkMessage i [] [])
  | [i; ty; ttl; a; b; c; e; n] => Some (mkMessage i [(ty, [n; DOT])] [(ttl, V4 [a; b; c; e])])
  | i :: ty :: name => Some (mkMessage i [(ty, name)] [])
  end.

Definition print (m : message) : option bytes :=
  Some (m_id m :: mjoin ((λ q, q.1 :: q.2) <$> m_questions m)
          ++ mjoin ((λ a, a.1 :: octets a.2) <$> m_answers m)).

#[local] Instance proto : DnsProto := {
  Message := message; Query := Z * bytes; Name := bytes; Rr := Z * IpAddr; RecordType := Z;
  rt_A := 1; rt_AAAA := 28; rt_PTR := 12;
  rt_to_string ty := [ty];
  from_bytes := parse; to_vec := print;
  query_count m := length (m_questions m); queries := m_questions;
  query_name := snd; query_type := fst; to_utf8 n := n;
  msg_id := m_id; set_id m i := mkMessage i (m_questions m) (m_answers m);
  set_response m := m;
  add_answer m r := mkMessage (m_id m) (m_questions m) (m_answers m ++ [r]);
  take_additionals m := m; take_name_servers m := m; clear_header m := m;
  answers := m_answers;
  record_new _ _ ttl ip := (ttl, ip);
  rr_ttl := fst; rr_ip r := Some r.2;
  ptr_response n := Some n
}.

#[local] Instance proto_ok : DnsProtoOk proto.
Proof. by split. Qed.

#[local] Instance api : DnsApi Sim.env := {
  route_add_with_if o _ _ _ _ := (true, o);
  (** "9.9.9.9 h" *)
  read_lines _ _ := Some [Some [57; 46; 57; 46; 57; 46; 57; 32; 104]];
  udp_local_addr _ := Some (mkSocketAddr (V4 [127; 0; 0; 1]) 53)
}.

#[local] Existing Instance Sim.env.
#[local] Existing Instance Sim.env_ok.

Definition client1 : SocketAddr := mkSocketAddr (V4 [10; 0; 0; 1]) 1001.
Definition client2 : SocketAddr := mkSocketAddr (V4 [10; 0; 0; 2]) 1002.
Definition safe : SocketAddr := mkSocketAddr (V4 [8; 8; 8; 8]) 53.
Definition unsafe : SocketAddr := mkSocketAddr (V4 [114; 114; 114; 114]) 53.

Definition args : DnsArgs := mkDnsArgs [98] (mkSocketAddr (V4 [127; 0; 0; 1]) 53) safe unsafe 600 true [104].

(** The name "x.y." is blocked; "h." is in the hosts file. *)
Definition xy : bytes := [120; DOT; 121; DOT].
Definition h : bytes := [104; DOT].

Definition socket (rx : list (bytes * SocketAddr)) : Sim.socket := Sim.mkSocket rx [] [] [].

(** Two clients ask for "x.y.", one for "z.", one for "h."; both upstream servers
    answer. *)
Definition start : DnsServer.t Sim.env :=
  DnsServer.mk
    (socket [([7; 1] ++ xy, client1); ([8; 1] ++ xy, client2);
             ([9; 1; 122; DOT], client1); ([6; 1] ++ h, client2)])
    (socket [([7; 1; 60; 1; 2; 3; 4; 120], safe)])
    (socket [([9; 1; 60; 5; 6; 7; 8; 122], unsafe)])
    [] (mkDomainMap {[ [120; DOT; 121] ]}) ∅ [] safe unsafe ∅ 1
    (hosts_of [Some [57; 46; 57; 46; 57; 46; 57; 32; 104]]).

Definition at_token (k : Z) : Event := mkEvent k true false.

(** The questions are split and the hosts name is answered at once; the poisoned
    server's answer reaches the client that waits for it. *)
Example split_example :
  (λ so, (datagrams (DnsServer.trusted so.1), datagrams (DnsServer.poisoned so.1),
          datagrams (DnsServer.listener so.1))) <$>
    DnsServer.run args (λ _, false) 9 (start, Sim.mkSystem [] [])
      [(0, at_token DNS_LOCAL); (1, at_token DNS_POISONED)]
  = Some ([([7; 1] ++ xy, safe); ([8; 1] ++ xy, safe)], [([9; 1; 122; DOT], unsafe)],
          [([6; 1; 104; DOT; 600; 9; 9; 9; 9], client2);
           ([9; 1; 122; DOT; 60; 5; 6; 7; 8], client1)]).
Proof. vm_compute. done. Qed.


Lemma dns_splits_questions_witness :
  decided (λ fuel, DnsServer.run args (λ _, false) fuel (start, Sim.mkSystem [] [])
      [(0, at_token DNS_LOCAL); (1, at_token DNS_POISONED); (2, at_token DNS_TRUSTED)])
    (returns (λ so, DnsServer.sound (DnsServer.proper_question (DnsServer.config_of start)) (DnsServer.view_of so.1))).
Proof.
  apply (DnsServer.dns_splits_questions args (λ _, false) start (Sim.mkSystem [] [])); try done.
  constructor; [by left|]. constructor; [by right; right|]. constructor; [by right; left|constructor].
Defined.

Lemma hosts_table_witness :
  ∃ s', DnsServer.update_hosts args start (Sim.mkSystem [] []) = Some s'
    ∧ V4 [9; 9; 9; 9] ∈ default ∅ (DnsServer.hosts s' !! h).
Proof.
  eexists. split; [reflexivity|].
  apply (DnsServer.hosts_table args start (Sim.mkSystem [] []) [Some [57; 46; 57; 46; 57; 46; 57; 32; 104]] _
    ltac:(done) eq_refl eq_refl).
  eexists. split; [apply list_elem_of_here|]. by vm_compute.
Defined.
End DnsWitness.
