(* ===== verification/AsyncIo.v ===== *)
(** * Awaited input and output

    The asynchronous modes run a task per connection.  A task is a function of
    the outcomes of the reads and writes it awaits, in order; the executor and
    the streams are not part of the program.  The file also models the copy
    loop the relays share ([src/src/async_utils.rs]). *)

From Stdlib Require Import ZArith Lia.
From stdpp Require Import base option list.
From S2P Require Import Prelude.

(** [timeout(d, stream.read(..))]: the bytes read, none of them at the end of the
    stream; an error; or the timeout. *)
Inductive read_outcome : Type :=
  | ReadBytes (data : bytes)
  | ReadError
  | ReadTimeout.

(** [write_all]: an error or a timeout may leave a part of the data written. *)
Inductive write_outcome : Type :=
  | WriteOk
  | WriteFailed (written : nat).

Definition write_is_ok (w : write_outcome) : bool :=
  match w with WriteOk => true | WriteFailed _ => false end.

(** What the peer has of [data] after the outcome. *)
Definition written (w : write_outcome) (data : bytes) : bytes :=
  match w with WriteOk => data | WriteFailed n => take n data end.

(** [copy]: an iteration per pair of outcomes.  The result is what has been
    written and whether the loop has ended and shut the writer down. *)
Fixpoint copy (io : list (read_outcome * write_outcome)) (out : bytes) : bytes * bool :=
  match io with
  | [] => (out, false)
  | (ReadBytes ((_ :: _) as data), w) :: io =>
      if write_is_ok w then copy io (out ++ data) else (out ++ written w data, true)
  | _ :: _ => (out, true)
  end.

(** What the reader handed over. *)
Definition read_data (r : read_outcome) : bytes :=
  match r with ReadBytes data => data | _ => [] end.

(** The writer gets a prefix of what was read, all of it while the loop runs. *)
Lemma copy_prefix io out :
  ∃ rest, (copy io out).1 ++ rest = out ++ mjoin ((λ e, read_data e.1) <$> io)
    ∧ ((copy io out).2 = false → rest = []).
Proof.
  revert out. induction io as [|[[[|x data]| |] w] io IH]; intros out; cbn -[app];
    try (by eexists; split; [reflexivity|done]).
  destruct w as [|n]; cbn [write_is_ok written].
  - destruct (IH (out ++ x :: data)) as (rest & Hr & Hd). exists rest. split; [|done].
    rewrite Hr, <-app_assoc. done.
  - exists (drop n (x :: data) ++ mjoin ((λ e, read_data e.1) <$> io)). split; [|done].
    cbn [fst]. rewrite <-app_assoc, (app_assoc (take n _)), take_drop. done.
Qed.

Lemma copy_extends io out :
  ∃ data, (copy io out).1 = out ++ data ∧ data `prefix_of` mjoin ((λ e, read_data e.1) <$> io).
Proof.
  revert out. induction io as [|[[[|x data]| |] w] io IH]; intros out; cbn -[app];
    try (exists []; rewrite app_nil_r; split; [done|apply prefix_nil]).
  destruct w as [|n]; cbn [write_is_ok written].
  - destruct (IH (out ++ x :: data)) as (more & -> & Hm). exists ((x :: data) ++ more).
    split; [by rewrite <-app_assoc|]. by apply prefix_app.
  - exists (take n (x :: data)). split; [done|]. apply prefix_app_r, prefix_take.
Qed.

(** Reads and writes that succeed move everything. *)
Lemma copy_all chunks out :
  Forall (λ c, c ≠ []) chunks →
  copy (zip (ReadBytes <$> chunks) (replicate (length chunks) WriteOk)) out = (out ++ mjoin chunks, false).
Proof.
  intros Hne. revert out. induction Hne as [|[|x c] chunks Hc _ IH]; intros out; [by rewrite app_nil_r|done|].
  cbn [length replicate zip zip_with fmap list_fmap copy write_is_ok].
  rewrite IH, <-app_assoc. done.
Qed.

Lemma written_prefix w data : ∃ k, written w data = take k data ∧ (write_is_ok w = true → written w data = data).
Proof.
  destruct w as [|k]; [exists (length data); by rewrite firstn_all|by exists k].
Qed.
