(* ===== verification/AServer.v ===== *)
(** * The asynchronous server: handshake and TCP
    ([src/src/aserver/mod.rs], [src/src/aserver/tcp.rs])

    A task serves one client: it reads until the request is complete, resolves
    the target and becomes a TCP, UDP or ping service.  A task is a function of
    the outcomes of its reads.  [None] is a panic of the task. *)

From Stdlib Require Import ZArith Lia.
From stdpp Require Import base option list gmap.
From S2P Require Import Prelude Net Config Proto AsyncIo.
From S2P Require Import Env ServerConn.

Open Scope Z_scope.
Open Scope rust_scope.

Module AServer.
Section AServer.
Context (OPTIONS : Opts).
(** [tokio::net::lookup_host]: [None] is an error. *)
Context (lookup_host : bytes → Z → option (list SocketAddr)).

(** ** The handshake *)

(** What the handshake loop of [start_proxy_internal] breaks with. *)
Inductive handshake : Type :=
  | Wait (buffer : bytes)
  | Serve (cmd : Z) (target : SocketAddr) (buffer : bytes)
  | Refuse (buffer : bytes)
  | Fail.

Definition resolve_target (cmd : Z) (address : Sock5Address) (buffer : bytes) : option handshake :=
  match address with
  | Socket addr => Some (Serve cmd addr buffer)
  | Domain domain port =>
      match lookup_host domain port with
      | Some (addr :: _) => Some (Serve cmd addr buffer)
      | _ => Some Fail
      end
  | NoAddress => addr ← back_addr OPTIONS; Some (Serve cmd addr buffer)
  | Endpoint _ => None
  end.

(** One iteration. *)
Definition handshake_step (buffer : bytes) (r : read_outcome) : option handshake :=
  match r with
  | ReadBytes [] => Some (Refuse buffer)
  | ReadBytes data =>
      let buffer := buffer ++ data in
      r ← TrojanRequest.parse OPTIONS buffer;
      match r with
      | TrojanRequest.PassThrough => addr ← back_addr OPTIONS; Some (Serve CONNECT addr buffer)
      | TrojanRequest.Request request =>
          rest ← buffer.[from TrojanRequest.offset request];
          resolve_target (TrojanRequest.command request) (TrojanRequest.address request) rest
      | TrojanRequest.InvalidProtocol => Some (Refuse buffer)
      | TrojanRequest.Continue => Some (Wait buffer)
      end
  | ReadError | ReadTimeout => Some (Refuse buffer)
  end.

(** The loop; the outcomes it does not use are left. *)
Fixpoint handshake_loop (buffer : bytes) (io : list read_outcome)
  : option (handshake * list read_outcome) :=
  match io with
  | [] => Some (Wait buffer, [])
  | r :: io =>
      h ← handshake_step buffer r;
      match h with
      | Wait buffer => handshake_loop buffer io
      | _ => Some (h, io)
      end
  end.

(** ** TCP *)

Context {H : HttpParse}.

Inductive tcp_start : Type :=
  | Connects (target : SocketAddr) (buffer : bytes)
  | Closed
  | Failed.

(** The "X-Forwarded-For" line. *)
Definition forwarded_line (ip : IpAddr) : bytes := Connection.forwarded_for ++ ip_to_string ip ++ [CR; LF].

(** The header loop of [start_tcp], [n] retries left: [inl] is the buffer after
    it, [inr] an early return. *)
Fixpoint add_header (n : nat) (src : IpAddr) (buffer : bytes) (io : list read_outcome)
  : option ((bytes * list read_outcome) + tcp_start) :=
  match n with
  | O => Some (inl (buffer, io))
  | S n =>
      match http_parse buffer with
      | Some offset =>
          head ← buffer.[upto (offset - 2)%nat];
          data ← buffer.[from (offset - 2)%nat];
          Some (inl (head ++ forwarded_line src ++ data, io))
      | None =>
          match io with
          | ReadBytes [] :: _ => Some (inr Closed)
          | ReadBytes data :: io => add_header n src (buffer ++ data) io
          | _ => Some (inr Failed)
          end
      end
  end.

(** [start_tcp] up to the connection to the target. *)
Definition start_tcp (target : SocketAddr) (buffer : bytes) (src : SocketAddr)
    (io : list read_outcome) : option (tcp_start * list read_outcome) :=
  back ← back_addr OPTIONS;
  if decide (target = back) then
    r ← add_header 10 (sa_ip src) buffer io;
    match r with
    | inl (buffer, io) => Some (Connects target buffer, io)
    | inr result => Some (result, io)
    end
  else if negb (allow_private (server_args OPTIONS)) && utils_is_private target
  then Some (Closed, io)
  else Some (Connects target buffer, io).

(** The relay from the client to the target: the buffer, then the copy loop on
    the reads that are left, each with the outcome of its write. *)
Definition relay (buffer : bytes) (first : write_outcome)
    (io : list (read_outcome * write_outcome)) : bytes * bool :=
  if write_is_ok first then copy io buffer else (written first buffer, true).

(** The service a command starts; [None] is the [unreachable!]. *)
Inductive service : Type := TcpService | UdpService | PingService.

Definition service_of (cmd : Z) : option service :=
  if cmd =? CONNECT then Some TcpService
  else if cmd =? UDP_ASSOCIATE then Some UdpService
  else if cmd =? PING then Some PingService
  else None.

(** ** The handshake reassembles the request *)

Definition reads (chunks : list bytes) : list read_outcome := ReadBytes <$> chunks.

Lemma handshake_step_read buffer data :
  data ≠ [] → handshake_step buffer (ReadBytes data) =
    (let buffer := buffer ++ data in
     r ← TrojanRequest.parse OPTIONS buffer;
     match r with
     | TrojanRequest.PassThrough => addr ← back_addr OPTIONS; Some (Serve CONNECT addr buffer)
     | TrojanRequest.Request request =>
         rest ← buffer.[from TrojanRequest.offset request];
         resolve_target (TrojanRequest.command request) (TrojanRequest.address request) rest
     | TrojanRequest.InvalidProtocol => Some (Refuse buffer)
     | TrojanRequest.Continue => Some (Wait buffer)
     end).
Proof. by destruct data. Qed.

Context `{!OptsOk OPTIONS}.

Lemma handshake_complete buffer data cmd a payload :
  RequestProps.valid_command cmd → wf_sa a → data ≠ [] →
  buffer ++ data = TrojanRequest.generate OPTIONS cmd a ++ payload →
  handshake_step buffer (ReadBytes data) = Some (Serve cmd a payload).
Proof.
  intros Hc Ha Hd Heq. rewrite handshake_step_read, Heq by done. cbn zeta.
  rewrite RequestProps.parse_generate by done. cbn [mbind option_bind TrojanRequest.offset].
  by rewrite slice_from_app.
Qed.

(** A well-formed request and any bytes after it, in reads of any size. *)
Lemma handshake_serves cmd a payload chunks :
  RequestProps.valid_command cmd → wf_sa a → Forall (λ c, c ≠ []) chunks →
  mjoin chunks = TrojanRequest.generate OPTIONS cmd a ++ payload →
  (∃ buffer rest, handshake_loop [] (reads chunks) = Some (Serve cmd a buffer, reads rest)
     ∧ buffer ++ mjoin rest = payload ∧ rest `suffix_of` chunks)
  ∨ (handshake_loop [] (reads chunks) = None
     ∧ ∃ got rest, chunks = got ++ rest
       ∧ (length (mjoin got) < length (TrojanRequest.generate OPTIONS cmd a)
          <= length (mjoin got) + 2)%nat).
Proof.
  intros Hc Ha Hne Heq. set (g := TrojanRequest.generate OPTIONS cmd a) in *.
  assert (∀ chunks buffer, Forall (λ c, c ≠ []) chunks → (length buffer < length g)%nat →
    buffer ++ mjoin chunks = g ++ payload →
    (∃ buffer' rest, handshake_loop buffer (reads chunks) = Some (Serve cmd a buffer', reads rest)
       ∧ buffer' ++ mjoin rest = payload ∧ rest `suffix_of` chunks)
    ∨ (handshake_loop buffer (reads chunks) = None
       ∧ ∃ got rest, chunks = got ++ rest
         ∧ (length (buffer ++ mjoin got) < length g <= length (buffer ++ mjoin got) + 2)%nat)) as Hgen.
  { clear chunks Hne Heq. induction chunks as [|c chunks IH]; intros buffer Hne Hlt Heq.
    { simpl in Heq. rewrite app_nil_r in Heq. apply (f_equal length) in Heq.
      rewrite length_app in Heq. lia. }
    apply Forall_cons in Hne as [Hn Hne]. cbn [reads fmap list_fmap handshake_loop mjoin list_join] in *.
    rewrite app_assoc in Heq.
    destruct (Nat.lt_ge_cases (length (buffer ++ c)) (length g)) as [Hl|Hl].
    - assert (buffer ++ c = take (length (buffer ++ c)) g) as Hp.
      { apply (f_equal (take (length (buffer ++ c)))) in Heq.
        by rewrite take_app_length, take_app_le in Heq by lia. }
      pose proof (RequestProps.parse_prefix OPTIONS cmd a (length (buffer ++ c)) OptsOk0 Hc Ha Hl) as Hpp.
      fold g in Hpp. rewrite <-Hp in Hpp.
      assert (handshake_step buffer (ReadBytes c) =
        if (length (buffer ++ c) + 2 <? length g)%nat then Some (Wait (buffer ++ c)) else None) as ->.
      { rewrite handshake_step_read by done. cbn zeta. rewrite Hpp. by destruct (_ <? _)%nat. }
      destruct (Nat.ltb_spec (length (buffer ++ c) + 2) (length g)) as [Hs|Hs]; cbn [mbind option_bind].
      + destruct (IH (buffer ++ c)) as [(b' & rest & H1 & H2 & H3)|[Hr (got & rest & -> & Hb)]]; [done..| |].
        { left. exists b', rest. split_and!; [done..|by apply suffix_cons_r]. }
        right. split; [done|]. exists (c :: got), rest. split; [done|].
        change (mjoin (c :: got)) with (c ++ mjoin got). by rewrite app_assoc.
      + right. split; [done|]. exists [c], chunks. split; [done|]. simpl.
        rewrite app_nil_r. fold g in Hs. lia.
    - left. assert (∃ q, buffer ++ c = g ++ q ∧ q ++ mjoin chunks = payload) as (q & Hq & Hp).
      { exists (drop (length g) (buffer ++ c)).
        assert (buffer ++ c = g ++ drop (length g) (buffer ++ c)) as Hb.
        { apply (f_equal (take (length g))) in Heq. rewrite take_app_length, take_app_le in Heq by lia.
          rewrite <-Heq at 1. by rewrite take_drop. }
        split; [done|]. rewrite Hb, <-app_assoc in Heq. by apply app_inv_head in Heq. }
      rewrite (handshake_complete _ _ cmd a q) by done. cbn [mbind option_bind].
      exists q, chunks. split_and!; [done..|by apply suffix_cons_r]. }
  destruct (Hgen chunks [] Hne) as [?|(Hr & got & rest & Hg & Hb)]; [| |by left|].
  - unfold g, TrojanRequest.generate. rewrite !length_app. simpl. lia.
  - done.
  - right. split; [done|]. by exists got, rest.
Qed.

(** However the request arrives, a client that sends a well-formed request
    to an address and then any bytes is served that command for that address,
    and the bytes after the request are all kept for the service, unless a read
    ends inside the request's last two bytes, where the parser panics. *)
Theorem handshake_reassembles cmd a payload chunks :
  RequestProps.valid_command cmd → wf_sa a → Forall (λ c, c ≠ []) chunks →
  mjoin chunks = TrojanRequest.generate OPTIONS cmd a ++ payload →
  (∃ buffer rest, handshake_loop [] (reads chunks) = Some (Serve cmd a buffer, reads rest)
     ∧ buffer ++ mjoin rest = payload)
  ∨ (handshake_loop [] (reads chunks) = None
     ∧ ∃ got rest, chunks = got ++ rest
       ∧ (length (mjoin got) < length (TrojanRequest.generate OPTIONS cmd a)
          <= length (mjoin got) + 2)%nat).
Proof.
  intros Hc Ha Hne Heq.
  destruct (handshake_serves cmd a payload chunks Hc Ha Hne Heq) as [(b & rest & Hl & Hb & _)|Hp]; [left|by right].
  by exists b, rest.
Qed.

(** ** Clients that do not know the password *)

(** [b] is [p], perhaps with the client's address added to a complete HTTP head. *)
Definition head_added (src : IpAddr) (p b : bytes) : Prop :=
  b = p ∨ ∃ k, http_parse p = Some k
    ∧ b = take (k - 2) p ++ forwarded_line src ++ drop (k - 2) p.

Lemma add_header_spec n src buffer chunks :
  Forall (λ c, c ≠ []) chunks →
  match add_header n src buffer (reads chunks) with
  | Some (inl (b, io)) => ∃ p rest, io = reads rest ∧ p ++ mjoin rest = buffer ++ mjoin chunks
      ∧ head_added src p b
  | Some (inr result) => ∀ t b, result ≠ Connects t b
  | None => False
  end.
Proof.
  revert buffer chunks. induction n as [|n IH]; intros buffer chunks Hne; cbn [add_header].
  { exists buffer, chunks. split_and!; [done..|by left]. }
  destruct (http_parse buffer) as [k|] eqn:Hk.
  - pose proof (http_parse_ok _ _ Hk) as Hk2.
    rewrite slice_to_le, slice_from_le by lia. cbn [mbind option_bind].
    exists buffer, chunks. split_and!; [done..|]. right. by exists k.
  - destruct Hne as [|c chunks Hc Hne]; [done|]. cbn [reads fmap list_fmap].
    destruct c as [|x c]; [done|]. specialize (IH (buffer ++ x :: c) chunks Hne).
    fold (reads chunks). destruct (add_header n src _ _) as [[[b io]|result]|]; [|done..].
    destruct IH as (p & rest & H1 & H2 & H3). exists p, rest. split_and!; [done| |done].
    rewrite H2. change (mjoin ((x :: c) :: chunks)) with ((x :: c) ++ mjoin chunks).
    by rewrite <-app_assoc.
Qed.

Lemma handshake_unauthenticated buffer chunks :
  back_addr OPTIONS ≠ None → Forall (λ c, c ≠ []) chunks →
  take (pass_len OPTIONS) (buffer ++ mjoin chunks) ≠ sha_pass OPTIONS →
  match handshake_loop buffer (reads chunks) with
  | Some (Serve cmd a b, io) => cmd = CONNECT ∧ back_addr OPTIONS = Some a
      ∧ ∃ rest, io = reads rest ∧ Forall (λ c, c ≠ []) rest ∧ b ++ mjoin rest = buffer ++ mjoin chunks
  | Some (Wait b, io) => io = [] ∧ b = buffer ++ mjoin chunks
  | _ => False
  end.
Proof.
  intros Hb Hne. revert buffer. induction Hne as [|c chunks Hc Hne IH]; intros buffer Hp.
  { simpl. by rewrite app_nil_r. }
  cbn [reads fmap list_fmap handshake_loop]. rewrite handshake_step_read by done. cbn zeta.
  change (mjoin (c :: chunks)) with (c ++ mjoin chunks) in *. rewrite app_assoc in *.
  assert (take (pass_len OPTIONS) (buffer ++ c) ≠ sha_pass OPTIONS) as Hp'.
  { intros Heq. apply Hp. rewrite <-Heq. rewrite take_app_le; [done|].
    apply (f_equal length) in Heq. rewrite length_take in Heq. rewrite pass_len_eq in *. lia. }
  destruct (back_addr OPTIONS) as [back|]; [|done].
  destruct (RequestProps.parse_unauthenticated OPTIONS (buffer ++ c) OptsOk0 Hp') as [-> | ->];
    cbn [mbind option_bind].
  - split_and!; [done..|]. by exists chunks.
  - by apply IH.
Qed.


(** The service connects to the target it was asked for or to none, and
    with private addresses disabled never to one, other than the default
    target; a command that the parser accepts always has a service. *)
Theorem private_targets_refused target buffer src io t b io' :
  start_tcp target buffer src io = Some (Connects t b, io') →
  t = target
  ∧ (allow_private (server_args OPTIONS) = false → back_addr OPTIONS ≠ Some t →
     utils_is_private t = false).
Proof.
  unfold start_tcp. destruct (back_addr OPTIONS) as [back|]; [|done]. cbn [mbind option_bind].
  destruct (decide (target = back)) as [->|Hne].
  - destruct (add_header 10 (sa_ip src) buffer io) as [[[b' io'']|result]|] eqn:Ha;
      cbn [mbind option_bind]; [| |done].
    + intros [= <- _ _]. split; [done|]. by intros _ [].
    + intros [= -> _]. exfalso. clear -Ha. revert buffer io Ha.
      induction (10%nat) as [|n IH]; intros buffer io; cbn [add_header]; [done|].
      destruct (http_parse buffer).
      { by destruct (buffer.[upto _]), (buffer.[from _]). }
      destruct io as [|[[|x d]| |] io]; try done. apply IH.
  - destruct (negb (allow_private (server_args OPTIONS)) && utils_is_private target) eqn:Hp; [done|].
    intros [= <- _ _]. split; [done|]. intros Ha _. by rewrite Ha in Hp.
Qed.

(** What the target receives: the buffer and what the relay copies. *)
Lemma relay_prefix buffer first io :
  ∃ rest, (relay buffer first io).1 ++ rest = buffer ++ mjoin ((λ e, read_data e.1) <$> io)
    ∧ ((relay buffer first io).2 = false → rest = []).
Proof.
  unfold relay. destruct first as [|n]; cbn [write_is_ok written]; [apply copy_prefix|].
  exists (drop n buffer ++ mjoin ((λ e, read_data e.1) <$> io)). split; [|done].
  cbn [fst]. by rewrite app_assoc, take_drop.
Qed.
End AServer.
End AServer.

Module AServerWitness.
Import Witness.

(** A head ends with the first empty line. *)
Fixpoint head_end (b : bytes) : option nat :=
  match b with
  | 13 :: ((10 :: 13 :: 10 :: _) as b') => Some 4%nat
  | _ :: b' => S <$> head_end b'
  | [] => None
  end.

#[local] Program Instance http : HttpParse := { http_parse := head_end }.
Next Obligation.
  intros b. induction b as [|x b IH]; intros offset; [done|]. intros Hp.
  assert (Some 4%nat = Some offset ∧ (4 <= length (x :: b))%nat ∨ S <$> head_end b = Some offset) as [[[= <-] H]|H].
  { revert Hp. cbn [head_end]. repeat case_match; subst; simpl; intros; try (by right); left; (split; [done|lia]). }
  - simpl in *. lia.
  - destruct (head_end b) as [o|]; [|done]. injection H as <-. specialize (IH o eq_refl). simpl. lia.
Qed.

Definition lookup (d : bytes) (p : Z) : option (list SocketAddr) := None.

Definition request : bytes := TrojanRequest.generate opts CONNECT a4.

Lemma handshake_reassembles_witness :
  (∃ buffer rest, AServer.handshake_loop opts lookup [] (AServer.reads [take 9 request; drop 9 request ++ [1; 2]; [3]])
       = Some (AServer.Serve CONNECT a4 buffer, AServer.reads rest) ∧ buffer ++ mjoin rest = [1; 2; 3])
  ∨ (AServer.handshake_loop opts lookup [] (AServer.reads [take 9 request; drop 9 request ++ [1; 2]; [3]]) = None
     ∧ ∃ got rest, [take 9 request; drop 9 request ++ [1; 2]; [3]] = got ++ rest
       ∧ (length (mjoin got) < length request <= length (mjoin got) + 2)%nat).
Proof.
  apply (AServer.handshake_reassembles opts lookup CONNECT a4 [1; 2; 3]); [by left|exact a4_ok| |].
  - apply (bool_decide_unpack _). by vm_compute.
  - by vm_compute.
Defined.

(** "GET / HTTP/1.1" in two reads. *)
Definition get : list bytes :=
  [[71; 69; 84; 32; 47; 32; 72; 84; 84; 80]; [47; 49; 46; 49; 13; 10; 13; 10; 1]].


(** The head is complete after the second read and gets the header. *)
Example header_example :
  (h ← AServer.handshake_loop opts lookup [] (AServer.reads get);
   match h with
   | (AServer.Serve _ a buffer, io) => AServer.start_tcp opts a buffer a4 io
   | _ => None
   end)
  = Some (AServer.Connects (mkSocketAddr (V4 [127; 0; 0; 1]) 80)
      (take 16 (mjoin get) ++ AServer.forwarded_line (V4 [10; 0; 0; 1]) ++ [13; 10; 1]), []).
Proof. by vm_compute. Qed.

Definition public : SocketAddr := mkSocketAddr (V4 [1; 2; 3; 4]) 80.

Lemma private_targets_refused_witness :
  public = public
  ∧ (allow_private (server_args opts) = false → back_addr opts ≠ Some public →
     utils_is_private public = false).
Proof.
  exact (AServer.private_targets_refused opts public [1] a4 [] public [1] [] eq_refl).
Defined.
End AServerWitness.
