(* ===== verification/AServerPing.v ===== *)
(** * The asynchronous ping service ([src/src/aserver/ping.rs])

    One check routine serves all connections.  A connection's task reads
    addresses and asks the routine; the routine runs one check per address at a
    time, keeps who waits for it and caches the results.  The channels between
    the tasks are part of the state ([CheckRoutine]); a task of a connection is
    [PingTask].  A channel to a connection is named by a number. *)

From Stdlib Require Import ZArith Lia.
From stdpp Require Import base option list gmap relations.
From S2P Require Import Prelude Framing Net Config Proto AsyncIo.
From S2P Require Import PingBackend.

Open Scope Z_scope.
Open Scope rust_scope.

Abbreviation Sender := nat.

Module CheckRoutine.
Section CheckRoutine.
Context (OPTIONS : Opts).

Record t : Type := mk {
  (** the request channel *)
  requests : list (IpAddr * Sender);
  (** the checks running, with their identifiers, and the next identifier *)
  running : list (IpAddr * Z);
  id : Z;
  (** the channel of the checks' results *)
  responses : list PingResult;
  cache_results : gmap IpAddr PingResult;
  cache_senders : gmap IpAddr (list Sender);
  (** what has been sent to the connections *)
  delivered : list (Sender * PingResult)
}.

Definition start : t := mk [] [] 0 [] ∅ ∅ [].

(** The running checks are [do_check] of the file, which is that of the
    synchronous server. *)
Definition do_check (now : Z) (ip : IpAddr) (outcomes : list (option Z)) : PingResult :=
  PingBackend.do_check now ip outcomes.

(** A connection asks. *)
Definition send_request (s : t) (ip : IpAddr) (sender : Sender) : t :=
  mk (requests s ++ [(ip, sender)]) (running s) (id s) (responses s) (cache_results s)
    (cache_senders s) (delivered s).

(** A cached result that is recent. *)
Definition recent (now : Z) (s : t) (ip : IpAddr) : option PingResult :=
  match cache_results s !! ip with
  | Some result =>
      if as_secs (since now (pr_time result)) <? cached_ping_timeout (server_args OPTIONS)
      then Some result else None
  | None => None
  end.

(** [SelectResult::Request], the request taken off the channel. *)
Definition on_request (now : Z) (s : t) (ip : IpAddr) (sender : Sender) : t :=
  match recent now s ip with
  | Some result =>
      mk (requests s) (running s) (id s) (responses s) (cache_results s) (cache_senders s)
        (delivered s ++ [(sender, result)])
  | None =>
      let '(running, id) :=
        match cache_senders s !! ip with
        | None => (running s ++ [(ip, id s)], wrap 16 (id s + 1))
        | Some _ => (running s, id s)
        end in
      mk (requests s) running id (responses s) (cache_results s)
        (<[ip := default [] (cache_senders s !! ip) ++ [sender]]> (cache_senders s)) (delivered s)
  end.

(** [SelectResult::Response]. *)
Definition on_response (s : t) (result : PingResult) : t :=
  let senders := default [] (cache_senders s !! pr_ip result) in
  mk (requests s) (running s) (id s) (responses s) (<[pr_ip result := result]> (cache_results s))
    (delete (pr_ip result) (cache_senders s))
    (delivered s ++ ((λ sender, (sender, result)) <$> senders)).

(** One step of the tasks: the routine takes a request or a result, or a check
    finishes. *)
Inductive step : t → t → Prop :=
  | take_request now ip sender rest s :
      requests s = (ip, sender) :: rest →
      step s (on_request now (mk rest (running s) (id s) (responses s) (cache_results s)
                (cache_senders s) (delivered s)) ip sender)
  | finish now l ip k r outcomes s :
      running s = l ++ (ip, k) :: r →
      step s (mk (requests s) (l ++ r) (id s) (responses s ++ [do_check now ip outcomes])
                (cache_results s) (cache_senders s) (delivered s))
  | take_response result rest s :
      responses s = result :: rest →
      step s (on_response (mk (requests s) (running s) (id s) rest (cache_results s)
                (cache_senders s) (delivered s)) result).

(** A history: connections ask, in between the tasks run. *)
Inductive reachable : list (IpAddr * Sender) → t → Prop :=
  | reach_start : reachable [] start
  | reach_ask asked s ip sender :
      reachable asked s → reachable (asked ++ [(ip, sender)]) (send_request s ip sender)
  | reach_step asked s s' : reachable asked s → step s s' → reachable asked s'.

(** ** Every request is answered exactly once *)

(** Who still waits, and for which address. *)
Definition waiting (m : gmap IpAddr (list Sender)) : list (IpAddr * Sender) :=
  map_to_list m ≫= λ e, (λ sender, (e.1, sender)) <$> e.2.

Definition answered (ds : list (Sender * PingResult)) : list (IpAddr * Sender) :=
  (λ d, (pr_ip d.2, d.1)) <$> ds.

(** The addresses whose check is under way or has a result on its way. *)
Definition pending (s : t) : list IpAddr := (running s).*1 ++ (pr_ip <$> responses s).

Lemma do_check_ip now ip outcomes : pr_ip (do_check now ip outcomes) = ip.
Proof.
  unfold do_check, PingBackend.do_check. by destruct (foldl check_one (0, 0) (take 100 outcomes)).
Qed.

Lemma waiting_insert m ip sender :
  waiting (<[ip := default [] (m !! ip) ++ [sender]]> m) ≡ₚ (ip, sender) :: waiting m.
Proof.
  unfold waiting. destruct (m !! ip) as [senders|] eqn:Hm; simpl.
  - rewrite <-insert_delete_eq. rewrite <-(insert_delete_id m ip senders Hm) at 2.
    rewrite !map_to_list_insert by apply lookup_delete_eq. simpl.
    rewrite fmap_app. simpl. rewrite <-app_assoc. simpl.
    by rewrite <-Permutation_middle.
  - by rewrite map_to_list_insert.
Qed.

Lemma waiting_delete m ip :
  waiting m ≡ₚ ((λ sender, (ip, sender)) <$> default [] (m !! ip)) ++ waiting (delete ip m).
Proof.
  unfold waiting. destruct (m !! ip) as [senders|] eqn:Hm; simpl.
  - rewrite <-(insert_delete_id m ip senders Hm) at 1.
    by rewrite map_to_list_insert by apply lookup_delete_eq.
  - by rewrite delete_id.
Qed.

Record consistent (asked : list (IpAddr * Sender)) (s : t) : Prop := {
  co_asked : asked ≡ₚ requests s ++ waiting (cache_senders s) ++ answered (delivered s);
  co_pending : NoDup (pending s);
  co_waiting : ∀ ip, is_Some (cache_senders s !! ip) ↔ ip ∈ pending s;
  co_cached : ∀ ip r, cache_results s !! ip = Some r → pr_ip r = ip
}.

Lemma consistent_request asked now s ip sender rest :
  requests s = (ip, sender) :: rest → consistent asked s →
  consistent asked (on_request now (mk rest (running s) (id s) (responses s) (cache_results s)
    (cache_senders s) (delivered s)) ip sender).
Proof.
  intros Hr [H1 H2 H3 H4]. rewrite Hr in H1. unfold on_request, recent. cbn [cache_results cache_senders running].
  assert (consistent asked (mk rest
    (match cache_senders s !! ip with None => running s ++ [(ip, id s)] | Some _ => running s end)
    (match cache_senders s !! ip with None => wrap 16 (id s + 1) | Some _ => id s end)
    (responses s) (cache_results s)
    (<[ip := default [] (cache_senders s !! ip) ++ [sender]]> (cache_senders s)) (delivered s))) as Hw.
  { split; simpl; [| | |done].
    - rewrite waiting_insert, H1. simpl. by rewrite <-Permutation_middle.
    - unfold pending in *. simpl. destruct (cache_senders s !! ip) eqn:Hs; [done|].
      rewrite fmap_app, <-app_assoc. simpl. rewrite <-Permutation_middle. constructor; [|done].
      rewrite <-H3, Hs. by intros [? ?].
    - intros ip'. unfold pending in *. simpl. destruct (decide (ip = ip')) as [<-|Hne].
      + rewrite lookup_insert_eq. split; [|by eexists]. intros _.
        destruct (cache_senders s !! ip) eqn:Hs; [apply H3; by eexists|].
        rewrite fmap_app. simpl. set_solver.
      + rewrite lookup_insert_ne, H3 by done.
        destruct (cache_senders s !! ip) eqn:Hs; [done|]. rewrite fmap_app. simpl. set_solver. }
  destruct (cache_results s !! ip) as [result|] eqn:Hc.
  - destruct (_ <? _).
    + split; simpl; [|done..]. rewrite H1. unfold answered. rewrite fmap_app. simpl.
      rewrite (H4 _ _ Hc), !app_assoc. by rewrite <-Permutation_cons_append.
    + by destruct (cache_senders s !! ip).
  - by destruct (cache_senders s !! ip).
Qed.

Lemma consistent_response asked s result rest :
  responses s = result :: rest → consistent asked s →
  consistent asked (on_response (mk (requests s) (running s) (id s) rest (cache_results s)
    (cache_senders s) (delivered s)) result).
Proof.
  intros Hr [H1 H2 H3 H4]. unfold pending in *. rewrite Hr in H2, H3. simpl in H2, H3.
  rewrite <-Permutation_middle in H2. apply NoDup_cons in H2 as [Hn H2].
  split; unfold pending; simpl; [|done| |].
  - rewrite H1. unfold answered. rewrite fmap_app, (waiting_delete (cache_senders s) (pr_ip result)).
    rewrite <-list_fmap_compose. simpl. unfold compose. simpl.
    f_equiv. rewrite <-app_assoc, Permutation_app_comm, <-app_assoc. done.
  - intros ip. rewrite lookup_delete_is_Some, H3, !elem_of_app, elem_of_cons. split; [naive_solver|].
    intros Hip. split; [|set_solver]. intros <-. apply Hn. by apply elem_of_app.
  - intros ip r [[<- <-]|[_ Hc]]%lookup_insert_Some; [done|]. by apply H4.
Qed.

Lemma routine_consistent asked s : reachable asked s → consistent asked s.
Proof.
  induction 1 as [|asked s ip sender _ [H1 H2 H3 H4]|asked s s' _ IH Hs].
  - split; simpl; try done; [constructor|]. intros ip. rewrite lookup_empty. unfold pending. simpl.
    split; [by intros [? ?]|by intros ?%elem_of_nil].
  - split; simpl; try done. rewrite H1, <-!Permutation_cons_append. done.
  - destruct Hs as [now ip sender rest s Hr|now l ip k r outcomes s Hr|result rest s Hr].
    + by apply consistent_request.
    + destruct IH as [H1 H2 H3 H4].
      assert (((l ++ r).*1 ++ (pr_ip <$> responses s ++ [do_check now ip outcomes])) ≡ₚ pending s) as Hp.
      { unfold pending. rewrite Hr, !fmap_app. simpl. rewrite do_check_ip.
        rewrite <-!app_assoc. f_equiv. rewrite app_assoc. by rewrite <-Permutation_cons_append. }
      split; simpl; [done| | |done].
      * unfold pending at 1. simpl. by rewrite Hp.
      * intros ip'. unfold pending at 1. simpl. rewrite Hp. apply H3.
    + by apply consistent_response.
Qed.

(** The work that is left: a request costs a check, a check a result. *)
Definition work (s : t) : nat :=
  3 * length (requests s) + 2 * length (running s) + length (responses s).

Lemma step_works s s' : step s s' → (work s' < work s)%nat.
Proof.
  intros [now ip sender rest s0 Hr|now l ip k r outcomes s0 Hr|result rest s0 Hr]; unfold work; simpl;
    rewrite Hr; [|rewrite !length_app; simpl; lia|simpl; lia].
  unfold on_request. destruct (recent _ _ _); simpl; [lia|].
  destruct (cache_senders s0 !! ip); simpl; rewrite ?length_app; simpl; lia.
Qed.

Lemma steps_stop s : sn step s.
Proof.
  induction s as [s IH] using (well_founded_induction (Wf_nat.well_founded_ltof _ work)).
  constructor. intros s' Hs. apply IH. by apply step_works.
Qed.

Lemma step_progress s : (∃ s', step s s') ∨ requests s = [] ∧ running s = [] ∧ responses s = [].
Proof.
  destruct (requests s) as [|[ip sender] rest] eqn:H1.
  - destruct (running s) as [|[ip k] r] eqn:H2.
    + destruct (responses s) as [|result rest] eqn:H3; [by right|].
      left. eexists. by apply take_response.
    + left. eexists. by apply (finish 0 [] ip k r []).
  - left. eexists. by apply (take_request 0).
Qed.

Lemma reachable_steps asked s s' : reachable asked s → rtc step s s' → reachable asked s'.
Proof. intros Hr Hs. induction Hs; [done|]. eauto using reach_step. Qed.

Lemma idle_answered asked s :
  consistent asked s → requests s = [] → pending s = [] → asked ≡ₚ answered (delivered s).
Proof.
  intros [H1 _ H3 _] Hr Hp. rewrite H1, Hr.
  assert (cache_senders s = ∅) as ->; [|done].
  apply map_empty. intros ip. apply eq_None_not_Some. rewrite H3, Hp. by intros ?%elem_of_nil.
Qed.

(** C11: whatever the connections have asked and however the tasks were
    scheduled, the tasks finish their work: no run of theirs goes on for ever,
    one that stops has answered every request, each exactly once with a result
    for the address it asked about, and before that one of them can run. *)
Theorem ping_answers_all asked s :
  reachable asked s →
  sn step s
  ∧ (∃ s', rtc step s s' ∧ nf step s')
  ∧ (∀ s', rtc step s s' → nf step s' → asked ≡ₚ answered (delivered s'))
  ∧ (asked ≡ₚ answered (delivered s) ∨ red step s).
Proof.
  intros Hr.
  assert (∀ s', reachable asked s' → red step s' ∨ asked ≡ₚ answered (delivered s')) as Hp.
  { intros s' Hr'. destruct (step_progress s') as [[s'' Hs]|(H1 & H2 & H3)]; [left; by eexists|right].
    eapply idle_answered; [by apply routine_consistent|done|]. unfold pending. by rewrite H2, H3. }
  split; [apply steps_stop|]. split; [|split].
  - clear Hp Hr asked. induction (steps_stop s) as [s _ IH].
    destruct (step_progress s) as [[s1 Hs]|(H1 & H2 & H3)].
    + destruct (IH s1 Hs) as (s2 & H & Hn). exists s2. split; [by econstructor|done].
    + exists s. split; [done|]. intros [s' Hs]. apply step_works in Hs. unfold work in Hs.
      rewrite H1, H2, H3 in Hs. simpl in Hs. lia.
  - intros s' Hs Hn. by destruct (Hp s' (reachable_steps _ _ _ Hr Hs)).
  - destruct (Hp s Hr); [by right|by left].
Qed.
End CheckRoutine.
End CheckRoutine.

Module PingTask.

(** What the task of a connection keeps, with the requests it has sent and the
    bytes it has written. *)
Record t : Type := mk {
  recv_buffer : bytes;
  requests : list IpAddr;
  out : bytes
}.

(** [while !recv_buffer.is_empty()]; [false] is [break 'main]. *)
Fixpoint parse (fuel : nat) (s : t) : option (bool * t) :=
  match fuel with
  | O => None
  | S fuel =>
      if decide (recv_buffer s = []) then Some (true, s)
      else
        kind ← (recv_buffer s).[0%nat];
        let serve addr rest :=
          if is_unspecified addr then Some (false, mk rest (requests s) (out s))
          else parse fuel (mk rest (requests s ++ [addr]) (out s)) in
        let len := length (recv_buffer s) in
        if kind =? IPV4 then
          if (len <? 5)%nat then Some (true, s)
          else
            data ← (recv_buffer s).[between 1%nat & 5%nat];
            rest ← (recv_buffer s).[from 5%nat];
            serve (V4 data) rest
        else if kind =? IPV6 then
          if (len <? 17)%nat then Some (true, s)
          else
            data ← (recv_buffer s).[between 1%nat & 17%nat];
            rest ← (recv_buffer s).[from 17%nat];
            serve (V6 data) rest
        else Some (false, s)
  end.

Definition parse_all (s : t) : option (bool * t) := parse (S (length (recv_buffer s))) s.

(** What [select!] returns, a result with the outcome of writing it. *)
Inductive event : Type :=
  | Result (result : PingResult) (w : write_outcome)
  | Read (r : read_outcome).

(** The task after the events, and whether its loop goes on. *)
Fixpoint run (s : t) (events : list event) : option (bool * t) :=
  match events with
  | [] => Some (true, s)
  | Result result w :: events =>
      let s := mk (recv_buffer s) (requests s)
                 (out s ++ written w (PingBackend.result_bytes result)) in
      if write_is_ok w then run s events else Some (false, s)
  | Read (ReadBytes ((_ :: _) as data)) :: events =>
      '(go, s) ← parse_all (mk (recv_buffer s ++ data) (requests s) (out s));
      if (go : bool) then run s events else Some (false, s)
  | Read _ :: _ => Some (false, s)
  end.

(** [start_ping]. *)
Definition start_ping (buffer : bytes) (events : list event) : option (bool * t) :=
  '(go, s) ← parse_all (mk buffer [] []);
  if (go : bool) then run s events else Some (false, s).

(** ** The requests do not depend on the schedule *)

Abbreviation encode := (Framing.encode PingBackend.addr_bytes).
Abbreviation partial := (Framing.partial PingBackend.addr_bytes PingBackend.wf_addr).

Lemma parse_ips_partial fuel s : partial (recv_buffer s) → parse (S fuel) s = Some (true, s).
Proof.
  intros Hp. cbn [parse]. case_decide; [done|].
  destruct (PingBackend.partial_short _ Hp) as [?|[(r & Hr & Hl)|(r & Hr & Hl)]]; [done|..];
    rewrite Hr in *; simpl in *; by nat_leb.
Qed.

Lemma parse_addr fuel s ip rest :
  PingBackend.wf_addr ip → recv_buffer s = PingBackend.addr_bytes ip ++ rest →
  parse (S fuel) s = parse fuel (mk rest (requests s ++ [ip]) (out s)).
Proof.
  intros [Hip Hu] Hb. cbn [parse]. rewrite Hb.
  destruct ip as [o|o]; destruct Hip as [Hlen _]; cbn [PingBackend.addr_bytes app];
    (rewrite decide_False by done); change (?x :: ?l).[0%nat] with (Some x);
    cbn [mbind option_bind];
    [change (IPV4 =? IPV4) with true|change (IPV6 =? IPV4) with false; change (IPV6 =? IPV6) with true];
    cbv iota; cbn [length]; rewrite length_app; nat_leb;
    (rewrite slice_le by (simpl; rewrite length_app; lia));
    (rewrite slice_from_le by (simpl; rewrite length_app; lia));
    cbn [mbind option_bind Nat.sub drop];
    rewrite drop_0, take_app_length', drop_app_length', Hu by done; done.
Qed.

Lemma parse_ok fuel s ips p :
  Forall PingBackend.wf_addr ips → partial p → recv_buffer s = encode ips ++ p →
  (length (recv_buffer s) < fuel)%nat →
  parse fuel s = Some (true, mk p (requests s ++ ips) (out s)).
Proof.
  intros Hips Hp. revert fuel s. induction Hips as [|ip ips Hip Hips IH]; intros fuel s Hs Hf;
    (destruct fuel as [|fuel]; [lia|]).
  - simpl in Hs. rewrite parse_ips_partial by (by rewrite Hs). destruct s. simpl in *. subst.
    by rewrite app_nil_r.
  - rewrite encode_cons, <-app_assoc in Hs. rewrite (parse_addr _ _ ip (encode ips ++ p)) by done.
    rewrite IH; [simpl; by rewrite <-app_assoc|done|]. rewrite Hs, length_app in Hf. simpl.
    assert (1 <= length (PingBackend.addr_bytes ip))%nat by (destruct ip; simpl; lia). lia.
Qed.

(** The client's bytes and the results of the events. *)
Definition data_of (e : event) : bytes := match e with Read r => read_data r | _ => [] end.
Definition result_of (e : event) : option PingResult :=
  match e with Result r _ => Some r | _ => None end.

(** An event that does not end the task. *)
Definition succeeds (e : event) : Prop :=
  match e with Result _ w => w = WriteOk | Read r => ∃ d, r = ReadBytes d ∧ d ≠ [] end.

Lemma ping_run_ok events s ips p :
  Forall succeeds events → Forall PingBackend.wf_addr ips → partial (recv_buffer s) → partial p →
  recv_buffer s ++ mjoin (data_of <$> events) = encode ips ++ p →
  run s events = Some (true, mk p (requests s ++ ips)
    (out s ++ mjoin (PingBackend.result_bytes <$> omap result_of events))).
Proof.
  intros He. revert s ips. induction He as [|e events He _ IH]; intros s ips Hips Hs Hp Heq.
  - simpl in Heq. rewrite app_nil_r in Heq. destruct Hips as [|ip ips Hip _].
    + simpl in *. subst. destruct s. by rewrite !app_nil_r.
    + exfalso. rewrite Heq, encode_cons, <-app_assoc in Hs. by apply PingBackend.addr_complete in Hs.
  - destruct e as [result w|r]; simpl in He.
    + subst w. cbn [run write_is_ok written]. rewrite (IH _ ips) by done.
      do 3 f_equal. simpl. by rewrite <-app_assoc.
    + destruct He as (d & -> & Hd). destruct d as [|x d]; [done|]. cbn [run fmap list_fmap] in *.
      change (mjoin (?c :: ?l)) with (c ++ mjoin l) in Heq. rewrite app_assoc in Heq.
      destruct (encode_prefix PingBackend.addr_bytes PingBackend.wf_addr ips p _ _ Hips Hp Heq)
        as (xs1 & xs2 & p1 & -> & H1 & H2 & H3).
      apply Forall_app in Hips as [Hx1 Hx2]. cbn [data_of read_data] in *.
      unfold parse_all. rewrite (parse_ok _ _ xs1 p1) by (done || simpl; lia).
      cbn [mbind option_bind]. rewrite (IH _ xs2) by done. simpl. by rewrite <-app_assoc.
Qed.

(** A ping connection asks for exactly the addresses its client sends, in
    their order, and keeps the incomplete rest, however the stream is cut and
    wherever results come in between; and the client receives the results
    complete and in the order they came. *)
Theorem ping_task_reassembles buffer events ips p :
  Forall succeeds events → Forall PingBackend.wf_addr ips → partial p →
  buffer ++ mjoin (data_of <$> events) = encode ips ++ p →
  start_ping buffer events = Some (true, mk p ips
    (mjoin (PingBackend.result_bytes <$> omap result_of events))).
Proof.
  intros He Hips Hp Heq. unfold start_ping, parse_all.
  destruct (encode_prefix PingBackend.addr_bytes PingBackend.wf_addr ips p _ _ Hips Hp Heq)
    as (xs1 & xs2 & p1 & -> & H1 & H2 & H3).
  apply Forall_app in Hips as [Hx1 Hx2].
  rewrite (parse_ok _ _ xs1 p1) by (done || simpl; lia). cbn [mbind option_bind].
  by rewrite (ping_run_ok _ _ xs2 p).
Qed.
End PingTask.

Module AServerPingWitness.
Import Witness.

Definition one : IpAddr := V4 [1; 1; 1; 1].
Definition two : IpAddr := V4 [2; 2; 2; 2].
Definition asked : list (IpAddr * Sender) := [(one, 0%nat); (one, 1%nat); (two, 0%nat)].

Definition busy : CheckRoutine.t :=
  CheckRoutine.on_request opts 0
    (CheckRoutine.mk [(one, 1%nat); (two, 0%nat)] [] 0 [] ∅ ∅ []) one 0%nat.

Lemma busy_routine_reachable : CheckRoutine.reachable opts asked busy.
Proof.
  eapply CheckRoutine.reach_step;
    [|by apply (CheckRoutine.take_request opts 0 one 0%nat [(one, 1%nat); (two, 0%nat)]
        (CheckRoutine.mk asked [] 0 [] ∅ ∅ []))].
  change asked with ((([] ++ [(one, 0%nat)]) ++ [(one, 1%nat)]) ++ [(two, 0%nat)]).
  exact (CheckRoutine.reach_ask opts _ _ _ _ (CheckRoutine.reach_ask opts _ _ _ _
    (CheckRoutine.reach_ask opts _ _ _ _ (CheckRoutine.reach_start opts)))).
Qed.

Lemma ping_answers_all_witness :
  sn (CheckRoutine.step opts) busy
  ∧ (∃ s', rtc (CheckRoutine.step opts) busy s' ∧ nf (CheckRoutine.step opts) s')
  ∧ (∀ s', rtc (CheckRoutine.step opts) busy s' → nf (CheckRoutine.step opts) s' →
      asked ≡ₚ CheckRoutine.answered (CheckRoutine.delivered s'))
  ∧ (asked ≡ₚ CheckRoutine.answered (CheckRoutine.delivered busy)
     ∨ red (CheckRoutine.step opts) busy).
Proof. exact (CheckRoutine.ping_answers_all opts asked busy busy_routine_reachable). Defined.

Definition events : list PingTask.event :=
  [PingTask.Read (ReadBytes [1; 1]); PingTask.Result (mkPingResult 0 one 0 7) WriteOk;
   PingTask.Read (ReadBytes [1; IPV4; 2])].

Lemma ping_task_reassembles_witness :
  PingTask.start_ping [IPV4; 1] events
  = Some (true, PingTask.mk [IPV4; 2] [one] [IPV4; 1; 1; 1; 1; 0; 7; 0]).
Proof.
  apply (PingTask.ping_task_reassembles [IPV4; 1] events [one] [IPV4; 2]).
  - repeat constructor; by eexists.
  - repeat constructor; simpl; lia.
  - right. exists two. split; [repeat constructor; simpl; lia|]. split; [by exists [2; 2; 2]|done].
  - reflexivity.
Defined.
End AServerPingWitness.
