(* ===== verification/AServerUdp.v ===== *)
(** * The asynchronous UDP service ([src/src/aserver/udp.rs])

    Two tasks serve a UDP client over one socket: [Requests] takes the packets
    off the client's stream and sends them, [Answers] frames what the socket
    receives.  With [disable_udp_hole] the first tells the second which
    addresses may answer. *)

From Stdlib Require Import ZArith Lia.
From stdpp Require Import base option list gmap.
From S2P Require Import Prelude Framing Net Config Proto AsyncIo.
From S2P Require Import Env Backend UdpBackend AServer.

Open Scope Z_scope.
Open Scope rust_scope.

Module Requests.
Section Requests.
Context (OPTIONS : Opts).
(** The outcome of the [k]-th call of [tokio::net::lookup_host]; [None] is an
    error. *)
Context (lookup_host : nat → bytes → Z → option (list SocketAddr)).
(** Whether the [k]-th datagram is sent. *)
Context (send_to : nat → bool).

(** [start_udp] keeps a buffer and a cache; [lookups] counts the calls of
    [lookup_host], [told] is what [Answers] has been told and [sent] what the
    socket has been given. *)
Record t : Type := mk {
  buffer : bytes;
  dns_cache_store : gmap bytes IpAddr;
  lookups : nat;
  told : list SocketAddr;
  sent : list (bytes * SocketAddr)
}.

Definition start (buffer : bytes) : t := mk buffer ∅ 0 [] [].

(** The address of a packet, [None] when a lookup fails. *)
Definition resolve (s : t) (address : Sock5Address) : option (option SocketAddr * t) :=
  match address with
  | Socket addr => Some (Some addr, s)
  | Domain domain port =>
      match dns_cache_store s !! domain with
      | Some ip => Some (Some (mkSocketAddr ip port), s)
      | None =>
          let asked m := mk (buffer s) m (S (lookups s)) (told s) (sent s) in
          match lookup_host (lookups s) domain port with
          | Some (addr :: _) =>
              Some (Some addr, asked (<[domain := sa_ip addr]> (dns_cache_store s)))
          | _ => Some (None, asked (dns_cache_store s))
          end
      end
  | NoAddress | Endpoint _ => None
  end.

(** What an iteration of the inner loop ends with. *)
Inductive outcome : Type :=
  | Loop (s : t)
  | NeedData (s : t)
  | Break (s : t).

Definition step (s : t) : option outcome :=
  r ← UdpAssociate.parse (buffer s);
  match r with
  | UdpAssociate.Packet packet =>
      '(found, s) ← resolve s (UdpAssociate.address packet);
      match found with
      | None => Some (Loop s)
      | Some address =>
          if negb (allow_private (server_args OPTIONS)) && utils_is_private address
          then Some (Break s)
          else
            let told := if disable_udp_hole (server_args OPTIONS)
                        then told s ++ [address] else told s in
            data ← (UdpAssociate.payload packet).[upto UdpAssociate.length_ packet];
            let s' := mk (buffer s) (dns_cache_store s) (lookups s) told (sent s) in
            if send_to (length (sent s)) then
              rest ← (buffer s).[from UdpAssociate.offset packet];
              Some (Loop (mk rest (dns_cache_store s) (lookups s) told (sent s ++ [(data, address)])))
            else Some (Break s')
      end
  | UdpAssociate.InvalidProtocol => Some (Break s)
  | UdpAssociate.Continued => Some (NeedData s)
  end.

(** The inner loop; the outer [None] is an exhausted fuel. *)
Fixpoint drain (fuel : nat) (s : t) : option (option outcome) :=
  match fuel with
  | O => None
  | S fuel =>
      match step s with
      | Some (Loop s) => drain fuel s
      | r => Some r
      end
  end.

(** The task after the reads: [true] when it waits for more. *)
Fixpoint run (fuel : nat) (s : t) (reads : list read_outcome) : option (option (bool * t)) :=
  r ← drain fuel s;
  match r with
  | Some (NeedData s) =>
      match reads with
      | [] => Some (Some (true, s))
      | ReadBytes ((_ :: _) as data) :: reads =>
          run fuel (mk (buffer s ++ data) (dns_cache_store s) (lookups s) (told s) (sent s)) reads
      | _ :: _ => Some (Some (false, s))
      end
  | Some (Break s) => Some (Some (false, s))
  | _ => Some None
  end.

Definition start_udp (fuel : nat) (buffer : bytes) (reads : list read_outcome) :=
  run fuel (start buffer) reads.

(** ** A packet at a time *)

Lemma resolve_buffer s a r s' :
  resolve s a = Some (r, s') → buffer s' = buffer s ∧ sent s' = sent s ∧ told s' = told s.
Proof.
  destruct a as [e|addr|domain port|]; simpl; try done; [by intros [= _ <-]|].
  destruct (dns_cache_store s !! domain); [by intros [= _ <-]|].
  by destruct (lookup_host (lookups s) domain port) as [[|addr rest]|]; intros [= _ <-].
Qed.

(** What an iteration does to the part of the state that leaves the task. *)
Definition allowed (d : bytes * SocketAddr) : Prop :=
  allow_private (server_args OPTIONS) = true ∨ utils_is_private d.2 = false.

Definition state_of (o : outcome) : t :=
  match o with Loop s | NeedData s | Break s => s end.

Lemma step_sent s o :
  step s = Some o →
  sent (state_of o) = sent s
  ∨ ∃ data address, sent (state_of o) = sent s ++ [(data, address)] ∧ allowed (data, address)
    ∧ (disable_udp_hole (server_args OPTIONS) = true → told (state_of o) = told s ++ [address]).
Proof.
  unfold step. destruct (UdpAssociate.parse (buffer s)) as [[p| |]|]; cbn [mbind option_bind];
    [|by intros [= <-]; left..|done].
  destruct (resolve s (UdpAssociate.address p)) as [[[address|] s1]|] eqn:Hr; cbn [mbind option_bind];
    [| |done].
  2: { intros [= <-]. left. by apply resolve_buffer in Hr as (_ & ? & _). }
  apply resolve_buffer in Hr as (_ & Hs & Ht).
  destruct (negb (allow_private (server_args OPTIONS)) && utils_is_private address) eqn:Hp;
    [by intros [= <-]; left|].
  destruct (_.[upto _]) as [data|]; [|done]. cbn [mbind option_bind].
  destruct (send_to (length (sent s1))); [|by intros [= <-]; left].
  destruct (_.[from _]) as [rest|]; [|done]. intros [= <-]. right. exists data, address.
  simpl. rewrite Hs, Ht. split; [done|]. split.
  - unfold allowed. simpl. destruct (allow_private _); [by left|right]. by apply andb_false_iff in Hp as [].
  - by intros ->.
Qed.

Lemma drain_sent fuel s r :
  Forall allowed (sent s) → drain fuel s = Some (Some r) → Forall allowed (sent (state_of r)).
Proof.
  revert s. induction fuel as [|fuel IH]; intros s Hs; cbn [drain]; [done|].
  destruct (step s) as [o|] eqn:Ho; [|done].
  assert (Forall allowed (sent (state_of o))) as Ha.
  { destruct (step_sent _ _ Ho) as [->|(data & address & -> & ? & _)]; [done|].
    apply Forall_app. by rewrite Forall_singleton. }
  destruct o; [by apply IH|by intros [= <-]..].
Qed.

(** With private addresses disabled no datagram goes to one, whatever the
    client sends, whatever names resolve to and however the task ends. *)
Theorem udp_task_private fuel buffer reads go s :
  start_udp fuel buffer reads = Some (Some (go, s)) →
  allow_private (server_args OPTIONS) = false →
  Forall (λ d, utils_is_private d.2 = false) (sent s).
Proof.
  intros Hr Hp. assert (Forall allowed (sent s)) as Ha.
  { assert (∀ s0, Forall allowed (sent s0) → run fuel s0 reads = Some (Some (go, s)) →
      Forall allowed (sent s)) as Hgen; [|by apply (Hgen (start buffer)); [constructor|]].
    clear Hr. induction reads as [|r reads IH]; intros s0 Hs0 Hr; cbn [run] in Hr;
      destruct (drain fuel s0) as [[[s1|s1|s1]|]|] eqn:Hd; cbn [mbind option_bind] in Hr; try done;
      pose proof (drain_sent _ _ _ Hs0 Hd) as Hs1; simpl in Hs1; try by injection Hr as _ <-.
    destruct r as [[|x d]| |]; try by injection Hr as _ <-. by apply IH in Hr. }
  eapply Forall_impl; [exact Ha|]. intros d [Hd|Hd]; [congruence|done].
Qed.

(** ** Failed lookups *)

Definition failed (k : nat) (domain : bytes) (port : Z) : Prop :=
  match lookup_host k domain port with Some (_ :: _) => False | _ => True end.

Lemma step_failed s p domain port :
  UdpAssociate.parse (buffer s) = Some (UdpAssociate.Packet p) →
  UdpAssociate.address p = Domain domain port → dns_cache_store s !! domain = None →
  failed (lookups s) domain port →
  step s = Some (Loop (mk (buffer s) (dns_cache_store s) (S (lookups s)) (told s) (sent s))).
Proof.
  intros Hp Ha Hc Hf. unfold step. rewrite Hp. cbn [mbind option_bind]. rewrite Ha. cbn [resolve].
  rewrite Hc. unfold failed in Hf. by destruct (lookup_host (lookups s) domain port) as [[|]|].
Qed.

(** The lookup is repeated until it succeeds. *)
Lemma drain_failed n fuel s p domain port :
  UdpAssociate.parse (buffer s) = Some (UdpAssociate.Packet p) →
  UdpAssociate.address p = Domain domain port → dns_cache_store s !! domain = None →
  (∀ k, (lookups s <= k < lookups s + n)%nat → failed k domain port) →
  drain (n + fuel) s =
    drain fuel (mk (buffer s) (dns_cache_store s) (lookups s + n) (told s) (sent s)).
Proof.
  revert s. induction n as [|n IH]; intros s Hp Ha Hc Hf.
  - rewrite Nat.add_0_r. by destruct s.
  - cbn [Nat.add drain]. rewrite (step_failed _ p domain port) by (done || apply Hf; lia).
    rewrite IH; [|done..|intros k Hk; apply Hf; simpl in Hk; lia]. simpl.
    by rewrite <-Nat.add_succ_comm.
Qed.

(** C19: a packet for a name whose lookup fails is not skipped: the loop asks
    again at once, without reading or sending in between, and goes on exactly
    when an attempt succeeds; the packet then goes to the address found.  If no
    attempt does, the loop never ends. *)
Theorem lookup_failure_retries s p domain port :
  UdpAssociate.parse (buffer s) = Some (UdpAssociate.Packet p) →
  UdpAssociate.address p = Domain domain port → dns_cache_store s !! domain = None →
  ((∀ k, (lookups s <= k)%nat → failed k domain port) → ∀ fuel, drain fuel s = None)
  ∧ ∀ n address rest,
      (∀ k, (lookups s <= k < lookups s + n)%nat → failed k domain port) →
      lookup_host (lookups s + n) domain port = Some (address :: rest) → allowed ([], address) →
      send_to (length (sent s)) = true →
      ∃ s', (∀ fuel, drain (n + S fuel) s = drain fuel s')
        ∧ sent s' = sent s ++ [(take (UdpAssociate.length_ p) (UdpAssociate.payload p), address)]
        ∧ buffer s' = drop (UdpAssociate.offset p) (buffer s)
        ∧ dns_cache_store s' !! domain = Some (sa_ip address).
Proof.
  intros Hp Ha Hc. split.
  - intros Hf fuel. rewrite <-(Nat.add_0_r fuel).
    rewrite (drain_failed _ _ _ p domain port); [done..|]. intros k [Hk _]. by apply Hf.
  - intros n address rest Hf Hl Hok Hs. eexists. split.
    + intros fuel. rewrite (drain_failed _ _ _ p domain port) by done. cbn [drain]. unfold step.
      cbn [buffer]. rewrite Hp. cbn [mbind option_bind]. rewrite Ha. cbn [resolve dns_cache_store lookups].
      rewrite Hc, Hl. cbn [mbind option_bind]. unfold allowed in Hok. simpl in Hok.
      replace (negb (allow_private (server_args OPTIONS)) && utils_is_private address) with false
        by (destruct Hok as [-> | ->]; [done|by rewrite andb_false_r]).
      cbn [sent told buffer]. destruct (UdpProps.parse_bounds _ _ Hp) as [H1 H2].
      rewrite slice_to_le, slice_from_le by lia. cbn [mbind option_bind]. rewrite Hs. reflexivity.
    + simpl. by rewrite lookup_insert_eq.
Qed.

(** ** Reassembly *)

Abbreviation encode := (Framing.encode UdpBackend.packet).
Abbreviation partial := (Framing.partial UdpBackend.packet UdpBackend.wf_datagram).

Context (sends : ∀ k, send_to k = true).

Lemma step_packet s d rest :
  UdpBackend.wf_datagram d → allowed d → buffer s = UdpBackend.packet d ++ rest →
  step s = Some (Loop (mk rest (dns_cache_store s) (lookups s)
    (if disable_udp_hole (server_args OPTIONS) then told s ++ [d.2] else told s) (sent s ++ [d]))).
Proof.
  intros [Ha Hd] Hok Hb. unfold step. unfold UdpBackend.packet in Hb. rewrite <-app_assoc in Hb.
  rewrite Hb, UdpProps.udp_parse_generate by done. cbn [mbind option_bind UdpAssociate.address resolve].
  replace (negb (allow_private (server_args OPTIONS)) && utils_is_private d.2) with false
    by (destruct Hok as [-> | ->]; [done|by rewrite andb_false_r]).
  cbn [UdpAssociate.payload UdpAssociate.length_ UdpAssociate.offset].
  rewrite slice_to_app. cbn [mbind option_bind]. rewrite sends, Hb, app_assoc, <-length_app, slice_from_app.
  cbn [mbind option_bind]. by destruct d.
Qed.

Lemma drain_ok fuel s ds p :
  Forall UdpBackend.wf_datagram ds → Forall allowed ds → partial p → buffer s = encode ds ++ p →
  (length (buffer s) < fuel)%nat →
  drain fuel s = Some (Some (NeedData (mk p (dns_cache_store s) (lookups s)
    (if disable_udp_hole (server_args OPTIONS) then told s ++ ds.*2 else told s) (sent s ++ ds)))).
Proof.
  intros Hds Hok Hp. revert fuel s. induction Hds as [|d ds Hd Hds IH]; intros fuel s Hs Hf;
    (destruct fuel as [|fuel]; [lia|]); cbn [drain].
  - simpl in Hs. unfold step. rewrite Hs, UdpBackend.parse_partial by done. cbn [mbind option_bind].
    destruct s. simpl in *. subst. rewrite !app_nil_r. by destruct (disable_udp_hole _).
  - apply Forall_cons in Hok as [Hd1 Hok]. rewrite encode_cons, <-app_assoc in Hs.
    rewrite (step_packet s d (encode ds ++ p)) by done. rewrite IH; [|done..|].
    + simpl. by destruct (disable_udp_hole _); rewrite <-!app_assoc.
    + rewrite Hs, length_app in Hf. pose proof (UdpBackend.packet_nonempty d). simpl. lia.
Qed.

Lemma run_ok fuel s chunks ds p :
  Forall UdpBackend.wf_datagram ds → Forall allowed ds → partial p → Forall (λ c, c ≠ []) chunks →
  buffer s ++ mjoin chunks = encode ds ++ p → (length (buffer s ++ mjoin chunks) < fuel)%nat →
  run fuel s (AServer.reads chunks) = Some (Some (true, mk p (dns_cache_store s) (lookups s)
    (if disable_udp_hole (server_args OPTIONS) then told s ++ ds.*2 else told s) (sent s ++ ds))).
Proof.
  intros Hds Hok Hp Hne. revert s ds Hds Hok. induction Hne as [|c chunks Hc Hne IH];
    intros s ds Hds Hok Heq Hf; cbn [AServer.reads fmap list_fmap run].
  - simpl in Heq, Hf. rewrite app_nil_r in Heq, Hf. by rewrite (drain_ok fuel s ds p).
  - destruct (encode_prefix UdpBackend.packet UdpBackend.wf_datagram ds p (buffer s) (mjoin (c :: chunks)))
      as (xs1 & xs2 & p1 & -> & H1 & H2 & H3); [done..|].
    apply Forall_app in Hds as [Hd1 Hd2]. apply Forall_app in Hok as [Ho1 Ho2].
    rewrite length_app in Hf. rewrite (drain_ok fuel s xs1 p1) by (done || lia).
    cbn [mbind option_bind]. destruct c as [|x c]; [done|].
    change (mjoin (?c :: ?l)) with (c ++ mjoin l) in *. rewrite app_assoc in H3.
    fold (AServer.reads chunks). rewrite (IH _ xs2); simpl; try done.
    + rewrite fmap_app. by destruct (disable_udp_hole _); rewrite <-!app_assoc.
    + rewrite H1, !length_app in Hf. rewrite !length_app in *. simpl in *. lia.
Qed.

(** Reassembly: however the client's stream is cut into reads, the task
    sends exactly the datagrams whose packets have fully arrived, once each and
    in order, each to its own address, tells the answering task about exactly
    those addresses, keeps the incomplete rest, and waits for more. *)
Theorem udp_task_reassembles buffer chunks ds p :
  Forall UdpBackend.wf_datagram ds → Forall allowed ds → partial p → Forall (λ c, c ≠ []) chunks →
  buffer ++ mjoin chunks = encode ds ++ p →
  ∃ s, (∀ fuel, (length (buffer ++ mjoin chunks) < fuel)%nat →
      start_udp fuel buffer (AServer.reads chunks) = Some (Some (true, s)))
    ∧ sent s = ds ∧ Requests.buffer s = p
    ∧ told s = if disable_udp_hole (server_args OPTIONS) then ds.*2 else [].
Proof.
  intros Hds Hok Hp Hne Heq. eexists. split; [|split; [|split]].
  - intros fuel Hf. unfold start_udp. by rewrite (run_ok _ _ _ ds p).
  - done.
  - done.
  - by destruct (disable_udp_hole _).
Qed.
End Requests.
End Requests.

Module Answers.
Section Answers.
Context (OPTIONS : Opts).

(** [target_to_source] keeps when each address was last written to; [out] is
    what it has written. *)
Record t : Type := mk {
  sources : gmap SocketAddr Z;
  out : bytes
}.

Definition start : t := mk ∅ [].

(** [SelectResult], with the clock after [select!] and the outcomes of the two
    writes. *)
Inductive event : Type :=
  | Sleep
  | Receiver (now : Z) (ret : option SocketAddr)
  | RemoteRecv (now : Z) (ret : option (bytes * SocketAddr)) (header body : write_outcome).

(** The hole-punching guard. *)
Definition may_pass (now : Z) (s : t) (addr : SocketAddr) : bool :=
  if disable_udp_hole (server_args OPTIONS) then
    match sources s !! addr with
    | Some timeout => as_secs (since now timeout) <? 60
    | None => false
    end
  else true.

Definition write (s : t) (w : write_outcome) (data : bytes) : bool * t :=
  (write_is_ok w, mk (sources s) (out s ++ written w data)).

(** One iteration; [false] is [break].  A datagram longer than the 1500 bytes of
    [body] is cut. *)
Definition step (s : t) (e : event) : bool * t :=
  match e with
  | Sleep => (false, s)
  | Receiver now (Some addr) => (true, mk (<[addr := now]> (sources s)) (out s))
  | Receiver _ None => (false, s)
  | RemoteRecv now (Some (data, addr)) header body =>
      let data := take 1500 data in
      if may_pass now s addr then
        let '(ok, s) := write s header (UdpAssociate.generate addr (wrap 16 (Z.of_nat (length data)))) in
        if (ok : bool) then write s body data else (false, s)
      else (true, s)
  | RemoteRecv _ None _ _ => (false, s)
  end.

Fixpoint run (s : t) (events : list event) : bool * t :=
  match events with
  | [] => (true, s)
  | e :: events =>
      let '(go, s) := step s e in
      if (go : bool) then run s events else (false, s)
  end.

(** ** What the client may receive, from the history alone *)

(** When [addr] was last written to. *)
Definition last_told (history : list event) (addr : SocketAddr) : option Z :=
  last (omap (λ e, match e with
                   | Receiver now (Some a) => if decide (a = addr) then Some now else None
                   | _ => None
                   end) history).

Definition permitted (history : list event) (now : Z) (addr : SocketAddr) : bool :=
  negb (disable_udp_hole (server_args OPTIONS))
  || match last_told history addr with Some told => as_secs (since now told) <? 60 | None => false end.

(** The datagrams of [events] that pass, after [history]. *)
Fixpoint answers (history events : list event) : list (bytes * SocketAddr) :=
  match events with
  | [] => []
  | e :: events =>
      match e with
      | RemoteRecv now (Some (data, addr)) _ _ =>
          if permitted history now addr then [(take 1500 data, addr)] else []
      | _ => []
      end ++ answers (history ++ [e]) events
  end.

Definition knows (s : t) (history : list event) : Prop :=
  ∀ addr, sources s !! addr = last_told history addr.

Lemma knows_step s history e :
  knows s history → (step s e).1 = true → knows (step s e).2 (history ++ [e]).
Proof.
  intros Hk Hgo addr. unfold last_told. rewrite omap_app, <-(app_nil_r (omap _ history ++ _)).
  specialize (Hk addr). unfold last_told in Hk.
  destruct e as [|now [a|]|now [[data a]|] w1 w2]; try done; simpl in *.
  - destruct (decide (a = addr)) as [->|Hne]; simpl; rewrite app_nil_r.
    + by rewrite lookup_insert_eq, last_snoc.
    + by rewrite lookup_insert_ne, app_nil_r.
  - rewrite !app_nil_r, <-Hk. destruct (may_pass now s a); [|done]. by destruct (write_is_ok w1).
Qed.

Lemma knows_pass s history now addr :
  knows s history → may_pass now s addr = permitted history now addr.
Proof. intros Hk. unfold may_pass, permitted. rewrite Hk. by destruct (disable_udp_hole _). Qed.

Lemma step_out s history e :
  knows s history →
  let d := encode UdpBackend.packet (answers history [e]) in
  (∃ k, out (step s e).2 = out s ++ take k d) ∧ ((step s e).1 = true → out (step s e).2 = out s ++ d).
Proof.
  intros Hk. destruct e as [|now [a|]|now [[data a]|] w1 w2]; cbn -[take encode wrap];
    try (split; [exists 0%nat|]; by rewrite app_nil_r).
  rewrite <-(knows_pass s) by done. destruct (may_pass now s a); [|split; [exists 0%nat|]; by rewrite app_nil_r].
  set (dat := take 1500 data). cbn [app]. rewrite encode_cons. cbn [encode fmap list_fmap mjoin list_join].
  rewrite app_nil_r. unfold UdpBackend.packet. cbn [fst snd].
  rewrite wrap_small by (subst dat; rewrite length_take; change (2 ^ 16) with 65536; lia).
  set (h := UdpAssociate.generate a _). unfold write. destruct w1 as [|k]; cbn -[take].
  - destruct (written_prefix w2 dat) as (k & Hw & Hok). split.
    + exists (length h + k)%nat. rewrite Hw, take_app_add', app_assoc by done. done.
    + intros H. by rewrite Hok, app_assoc.
  - split; [|done]. exists (min k (length h)). rewrite take_app_le by lia. by rewrite take_min.
Qed.

End Answers.
End Answers.

Module AServerUdpWitness.
Import Witness.

Definition no_lookup (k : nat) (d : bytes) (p : Z) : option (list SocketAddr) := None.
Definition accepts (k : nat) : bool := true.

Definition public : SocketAddr := mkSocketAddr (V4 [1; 2; 3; 4]) 80.

Lemma udp_task_private_witness :
  Forall (λ d : bytes * SocketAddr, utils_is_private d.2 = false) [([7], public)].
Proof.
  exact (Requests.udp_task_private opts no_lookup accepts 40
    (UdpBackend.packet ([7], public)) [] true
    (Requests.mk [] ∅ 0 (if disable_udp_hole (server_args opts) then [public] else []) [([7], public)])
    ltac:(by vm_compute) eq_refl).
Defined.

(** A name that resolves at the third attempt. *)
Definition third (k : nat) (d : bytes) (p : Z) : option (list SocketAddr) :=
  if (k <? 2)%nat then None else Some [mkSocketAddr (V4 [1; 2; 3; 4]) p].

Definition named : bytes := [DOMAIN; 1; 97; 0; 80; 0; 1; CR; LF; 42].

Lemma lookup_failure_retries_witness :
  ∃ s', (∀ fuel, Requests.drain opts third accepts (2 + S fuel) (Requests.start named)
           = Requests.drain opts third accepts fuel s')
    ∧ Requests.sent s' = [] ++ [([42], public)]
    ∧ Requests.buffer s' = drop 10 named
    ∧ Requests.dns_cache_store s' !! [97] = Some (V4 [1; 2; 3; 4]).
Proof.
  refine (proj2 (Requests.lookup_failure_retries opts third accepts (Requests.start named)
    (UdpAssociate.mk (Domain [97] 80) 10 1 [42]) [97] 80 _ _ _) 2%nat public [] _ _ _ _).
  - by vm_compute.
  - done.
  - done.
  - intros [|[|k]] [_ Hk]; simpl in *; [done..|lia].
  - done.
  - right. done.
  - done.
Defined.

(** Two datagrams, and the beginning of a third in the second read. *)
Definition public2 : list (bytes * SocketAddr) := [([1; 2], public); ([], public)].

Lemma udp_task_reassembles_witness :
  ∃ s, (∀ fuel, (length ([] ++ mjoin [take 9 (encode UdpBackend.packet public2);
        drop 9 (encode UdpBackend.packet public2) ++ [IPV4; 1%Z]]) < fuel)%nat →
      Requests.start_udp opts no_lookup accepts fuel []
        (AServer.reads [take 9 (encode UdpBackend.packet public2);
          drop 9 (encode UdpBackend.packet public2) ++ [IPV4; 1%Z]]) = Some (Some (true, s)))
    ∧ Requests.sent s = public2 ∧ Requests.buffer s = [IPV4; 1%Z]
    ∧ Requests.told s = if disable_udp_hole (server_args opts) then public2.*2 else [].
Proof.
  apply (Requests.udp_task_reassembles opts no_lookup accepts (λ _, eq_refl)).
  - repeat constructor; simpl; lia.
  - repeat constructor; right; done.
  - right. exists ([], public). split; [repeat constructor; simpl; lia|].
    split; [by eexists [2; 3; 4; 0; 80; 0; 0; CR; LF]|done].
  - repeat constructor; done.
  - reflexivity.
Defined.
End AServerUdpWitness.
