(* ===== verification/AProfiler.v ===== *)
(** * The asynchronous profiler ([src/src/aproxy/profiler.rs])

    The asynchronous proxy measures destinations as the synchronous one does
    ([NetProfiler], whose entries it shares) in a single task that selects over
    three channels.  [Profiler] is that task with its channels as part of the
    state, [ServerCheck] the task that measures the route to the server,
    [CheckTasks] the local measurements and [RemoteResponse] the task that reads
    the server's results. *)

From Stdlib Require Import ZArith Lia.
From stdpp Require Import base option list gmap.
From S2P Require Import Prelude Framing Net Config Proto Env AsyncIo.
From S2P Require Import PingBackend IdlePool NetProfiler.

Open Scope Z_scope.
Open Scope rust_scope.

Abbreviation PingResult := NetProfiler.PingResult.
Abbreviation Condition := NetProfiler.Condition.

(** A result: address, round trip, loss. *)
Abbreviation Response := (IpAddr * Z * Z)%type.

(** ** The route to the server *)

Module ServerCheck.

(** [ping_server]: the average and the number of answers of at most a hundred
    probes. *)
Definition ping_server (outcomes : list (option Z)) : Z * Z :=
  let '(received, avg_cost) := foldl check_one (0, 0) (take 100 outcomes) in (avg_cost, received).

(** The number of rounds the average runs over. *)
Definition size (timeout ip_timeout : Z) : nat := Z.to_nat (ip_timeout / timeout + 1).

Section ServerCheck.
(** [HeapRb::push_overwrite] on a buffer of the given capacity, oldest first. *)
Context (push_overwrite : nat → list Condition → Condition → list Condition).

(** The averages of one address after a round, [None] for a division by zero. *)
Definition check_address (size : nat) (rb : list Condition) (avg_cost received : Z)
  : option (list Condition * Z * Z) :=
  let rb := push_overwrite size rb
              (NetProfiler.mkCondition (wrap 16 avg_cost) (wrap 8 (100 - received))) in
  let total_ping := foldl (λ t c, wrap 64 (t + NetProfiler.ping c)) 0 rb in
  let total_lost := foldl (λ t c, wrap 64 (t + NetProfiler.lost c)) 0 rb in
  let len := Z.of_nat (length rb) in
  if len =? 0 then None else Some (rb, total_ping / len, total_lost / len).

(** The loop over the results of a round: the buffers and the two totals. *)
Definition check_step (size : nat) (acc : gmap IpAddr (list Condition) * Z * Z)
    (task : IpAddr * list (option Z)) : option (gmap IpAddr (list Condition) * Z * Z) :=
  let '(all_rb, total_avg_ping, total_avg_lost) := acc in
  let '(avg_cost, received) := ping_server task.2 in
  '(rb, avg_ping, avg_lost) ← check_address size (default [] (all_rb !! task.1)) avg_cost received;
  Some (<[task.1 := rb]> all_rb, wrap 64 (total_avg_ping + avg_ping),
    wrap 64 (total_avg_lost + avg_lost)).

(** An iteration of [check_server]: [tasks] are the IPv4 addresses the host name
    resolved to with their probes; the second component is what [CONDITION]
    becomes, if anything. *)
Definition check_server_round (size : nat) (all_rb : gmap IpAddr (list Condition))
    (tasks : list (IpAddr * list (option Z)))
  : option (gmap IpAddr (list Condition) * option Condition) :=
  if decide (tasks = []) then Some (all_rb, None)
  else
    '(all_rb, total_avg_ping, total_avg_lost) ←
      foldl (λ acc task, acc ← acc; check_step size acc task) (Some (all_rb, 0, 0)) tasks;
    let task_count := Z.of_nat (length tasks) in
    Some (all_rb, Some (NetProfiler.mkCondition (wrap 16 (total_avg_ping / task_count))
                          (wrap 8 (total_avg_lost / task_count)))).

(** The rounds of [check_server], and the last [CONDITION]. *)
Fixpoint check_server (size : nat) (all_rb : gmap IpAddr (list Condition)) (cond : Condition)
    (rounds : list (list (IpAddr * list (option Z)))) : option Condition :=
  match rounds with
  | [] => Some cond
  | tasks :: rounds =>
      '(all_rb, c) ← check_server_round size all_rb tasks;
      check_server size all_rb (default cond c) rounds
  end.

(** The buffer overwrites its oldest element: it holds the new one and some of
    the old. *)
Context (push_spec : ∀ size rb c, (0 < size)%nat →
  c ∈ push_overwrite size rb c ∧ ∀ x, x ∈ push_overwrite size rb c → x = c ∨ x ∈ rb).

Definition percent (c : Condition) : Prop := 0 ≤ NetProfiler.lost c ≤ 100.

Lemma foldl_check_one outcomes r a :
  0 ≤ r → 0 ≤ (foldl check_one (r, a) outcomes).1 ≤ r + Z.of_nat (length outcomes).
Proof.
  revert r a. induction outcomes as [|o outcomes IH]; intros r a Hr; [simpl; lia|].
  cbn [foldl length]. destruct o as [cost|]; cbn [check_one];
    match goal with |- context [foldl check_one (?r', ?a') _] => specialize (IH r' a' ltac:(lia)) end; lia.
Qed.

Lemma foldl_sum_le {A} (f : A → Z) b l t :
  (∀ x, x ∈ l → 0 ≤ f x ≤ b) → 0 ≤ t →
  0 ≤ foldl (λ t x, wrap 64 (t + f x)) t l ≤ t + b * Z.of_nat (length l).
Proof.
  revert t. induction l as [|x l IH]; intros t Hl Ht; [simpl; lia|]. cbn [foldl].
  assert (0 ≤ f x ≤ b) by (apply Hl, list_elem_of_here).
  assert (0 ≤ wrap 64 (t + f x) ≤ t + f x).
  { unfold wrap. split; [apply Z.mod_pos_bound; lia|apply Z.mod_le; lia]. }
  specialize (IH (wrap 64 (t + f x)) ltac:(intros y Hy; apply Hl; by apply list_elem_of_further) ltac:(lia)).
  cbn [length]. lia.
Qed.

Lemma check_address_percent size rb outcomes :
  (0 < size)%nat → Forall percent rb →
  ∃ rb' p l, check_address size rb (ping_server outcomes).1 (ping_server outcomes).2 = Some (rb', p, l)
    ∧ Forall percent rb' ∧ 0 ≤ l ≤ 100.
Proof.
  intros Hs Hrb. unfold ping_server. pose proof (foldl_check_one (take 100 outcomes) 0 0 ltac:(lia)) as Hr.
  rewrite length_take in Hr.
  destruct (foldl check_one (0, 0) (take 100 outcomes)) as [received avg_cost]. cbn [fst snd] in *.
  unfold check_address. set (c := NetProfiler.mkCondition _ _).
  assert (percent c) as Hc.
  { unfold percent, c. simpl. rewrite wrap_small by (change (2 ^ 8) with 256; lia). lia. }
  destruct (push_spec size rb c Hs) as [Hin Hsub].
  assert (Forall percent (push_overwrite size rb c)) as Hp.
  { apply Forall_forall. intros x [-> |Hx]%Hsub; [done|]. rewrite Forall_forall in Hrb. auto. }
  assert (0 < Z.of_nat (length (push_overwrite size rb c))).
  { destruct (push_overwrite size rb c); [by apply elem_of_nil in Hin|simpl; lia]. }
  rewrite (proj2 (Z.eqb_neq _ _)) by lia. eexists _, _, _. split; [done|]. split; [done|].
  pose proof (foldl_sum_le NetProfiler.lost 100 (push_overwrite size rb c) 0) as Hsum.
  destruct Hsum as [H1 H2]; [|lia|].
  { intros x Hx. rewrite Forall_forall in Hp. by apply Hp. }
  split; [by apply Z.div_pos|]. apply Z.div_le_upper_bound; lia.
Qed.

(** What the rounds keep of the buffers. *)
Definition percents (all_rb : gmap IpAddr (list Condition)) : Prop :=
  ∀ ip rb, all_rb !! ip = Some rb → Forall percent rb.

Lemma check_steps_percent size tasks all_rb p l n :
  (0 < size)%nat → percents all_rb → 0 ≤ l ≤ 100 * n →
  ∃ all_rb' p' l',
    foldl (λ acc task, acc ← acc; check_step size acc task) (Some (all_rb, p, l)) tasks
      = Some (all_rb', p', l')
    ∧ percents all_rb' ∧ 0 ≤ l' ≤ 100 * (n + Z.of_nat (length tasks)).
Proof.
  intros Hs. revert all_rb p l n. induction tasks as [|[ip outcomes] tasks IH]; intros all_rb p l n Ha Hl.
  { exists all_rb, p, l. split_and!; [done..|simpl; lia|simpl; lia]. }
  cbn [foldl mbind option_bind]. unfold check_step at 2. cbn [fst snd].
  destruct (check_address_percent size (default [] (all_rb !! ip)) outcomes Hs) as (rb & ap & al & Hc & Hrb & Hal).
  { destruct (all_rb !! ip) eqn:Hip; [by eapply Ha|constructor]. }
  destruct (ping_server outcomes) as [avg_cost received]. cbn [fst snd] in Hc. rewrite Hc.
  cbn [mbind option_bind].
  destruct (IH (<[ip := rb]> all_rb) (wrap 64 (p + ap)) (wrap 64 (l + al)) (n + 1)) as (a' & p' & l' & -> & H1 & H2).
  - intros ip' rb' [[<- <-]|[_ Hip']]%lookup_insert_Some; [done|by eapply Ha].
  - unfold wrap. pose proof (Z.mod_pos_bound (l + al) (2 ^ 64)). pose proof (Z.mod_le (l + al) (2 ^ 64)). lia.
  - exists a', p', l'. split_and!; [done..|lia|cbn [length]; lia].
Qed.

(** C33: however many rounds, whatever the name resolves to and the probes
    answer, the task that measures the route to the server does not panic and
    the loss it publishes is a percentage: none of its [u8] conversions cuts a
    value off. *)
Theorem server_loss_is_percent timeout ip_timeout rounds :
  0 < timeout → 0 ≤ ip_timeout →
  ∃ cond, check_server (size timeout ip_timeout) ∅ NetProfiler.CONDITION rounds = Some cond
    ∧ 0 ≤ NetProfiler.lost cond ≤ 100.
Proof.
  intros Ht Hi. assert (0 < size timeout ip_timeout)%nat as Hs.
  { unfold size. pose proof (Z.div_pos ip_timeout timeout). lia. }
  assert (percents ∅) as Ha by (intros ip rb Hip; by rewrite lookup_empty in Hip).
  assert (percent NetProfiler.CONDITION) as Hc by (unfold percent; simpl; lia). revert Ha Hc.
  generalize (∅ : gmap IpAddr (list Condition)) as all_rb. generalize NetProfiler.CONDITION as cond.
  induction rounds as [|tasks rounds IH]; intros cond all_rb Ha Hc; cbn [check_server]; [by exists cond|].
  unfold check_server_round. destruct (decide (tasks = [])) as [->|Hne]; cbn [mbind option_bind]; [by apply IH|].
  destruct (check_steps_percent _ tasks all_rb 0 0 0 Hs Ha ltac:(lia)) as (a & p & l & -> & H1 & H2).
  cbn [mbind option_bind]. apply IH; [done|]. unfold percent. cbn [default NetProfiler.lost].
  assert (0 < Z.of_nat (length tasks)) by (destruct tasks; [done|simpl; lia]).
  assert (0 ≤ l / Z.of_nat (length tasks) ≤ 100).
  { split; [apply Z.div_pos; lia|apply Z.div_le_upper_bound; lia]. }
  simpl. rewrite wrap_small by (change (2 ^ 8) with 256; lia). lia.
Qed.
End ServerCheck.
End ServerCheck.

(** ** The local measurements *)

Module CheckTasks.

(** [do_check]: the message of a measurement. *)
Definition do_check (ip : IpAddr) (outcomes : list (option Z)) : Response :=
  let '(received, avg_cost) := foldl check_one (0, 0) (take 100 outcomes) in
  (ip, wrap 16 avg_cost, wrap 8 (100 - received)).

(** [start_request]: one message; [nobypass] is what [session.test] answers. The
    result is what is sent at once, or the measurement that starts with its
    identifier, and the next identifier. *)
Definition start_request (nobypass : IpAddr → bool) (id : Z) (ip : IpAddr)
  : (Response + IpAddr * Z) * Z :=
  if nobypass ip then (inl (ip, u16_MAX, u8_MAX), id) else (inr (ip, id), wrap 16 (id + 1)).

(** [start_response]: one message; the set is that of the session, flushed at
    the start, an operation of which may fail. *)
Definition start_response (set : list IpAddr) (msg : IpAddr * bool) (ok : bool) : list IpAddr :=
  let '(ip, add) := msg in
  if ok then
    if (add : bool) then (if decide (ip ∈ set) then set else set ++ [ip])
    else filter (λ ip', ip' ≠ ip) set
  else set.

Definition flushed : list IpAddr := [].
End CheckTasks.

(** ** The server's results *)

Module RemoteResponse.

(** The task keeps a buffer; [sent] is what it has sent to the profiler. *)
Record t : Type := mk { recv_buffer : bytes; sent : list Response }.

(** A record with [n] octets of address, if it has arrived. *)
Definition record (n : nat) (make : bytes → IpAddr) (s : t) : option (option t) :=
  if (length (recv_buffer s) <? n + 4)%nat then Some None
  else
    octets ← (recv_buffer s).[between 1%nat & n + 1];
    rest ← (recv_buffer s).[from n + 1];
    hi ← rest.[0%nat]; lo ← rest.[1%nat]; lost ← rest.[2%nat];
    rest ← rest.[from 3%nat];
    Some (Some (mk rest (sent s ++ [(make octets, Z.lor (Z.shiftl hi 8) lo, lost)]))).

(** [while !recv_buffer.is_empty()]; [None] is the [unreachable!]. *)
Fixpoint parse (fuel : nat) (s : t) : option t :=
  match fuel with
  | O => None
  | S fuel =>
      match recv_buffer s with
      | [] => Some s
      | atyp :: _ =>
          r ← (if atyp =? IPV4 then record 4 V4 s
               else if atyp =? IPV6 then record 16 V6 s
               else None);
          match r with
          | Some s => parse fuel s
          | None => Some s
          end
      end
  end.

(** The message for a closed connection. *)
Definition closed : Response := (ipv4_of_u32 0, 0, 0).

(** [start_remote_response] after the reads, and whether it goes on. *)
Fixpoint run (s : t) (reads : list read_outcome) : option (bool * t) :=
  match reads with
  | [] => Some (true, s)
  | ReadBytes ((_ :: _) as data) :: reads =>
      let s := mk (recv_buffer s ++ data) (sent s) in
      s ← parse (S (length (recv_buffer s))) s;
      run s reads
  | _ :: _ => Some (false, mk (recv_buffer s) (sent s ++ [closed]))
  end.

Definition start : t := mk [] [].

Abbreviation report_bytes := PingBackend.result_bytes.
Abbreviation encode := (Framing.encode report_bytes).
Abbreviation partial := (Framing.partial report_bytes NetProfiler.wf_report).

Definition response (pr : NetProfiler.Report) : Response := (pr_ip pr, pr_ping pr, pr_lost pr).

Lemma parse_rows_partial fuel s : partial (recv_buffer s) → parse (S fuel) s = Some s.
Proof.
  intros Hp. cbn [parse].
  destruct (NetProfiler.partial_report _ Hp) as [-> |[(r & Hr & Hl)|(r & Hr & Hl)]]; [done|..];
    rewrite Hr; unfold record; rewrite Hr in *; simpl in *; by nat_leb.
Qed.

Lemma record_ok n make s k o pr rest :
  length o = n → 0 <= pr_ping pr < 65536 →
  recv_buffer s = k :: o ++ u16_be (pr_ping pr) ++ pr_lost pr :: rest →
  record n make s = Some (Some (mk rest (sent s ++ [(make o, pr_ping pr, pr_lost pr)]))).
Proof.
  intros Ho Hping Hb. unfold record. rewrite Hb.
  rewrite u16_be_div_mod. cbn [length app]. rewrite length_app. cbn [length]. nat_leb.
  rewrite slice_le by (simpl; rewrite length_app; simpl; lia).
  rewrite slice_from_le by (simpl; rewrite length_app; lia). cbn [mbind option_bind].
  rewrite Nat.add_1_r, !skipn_cons, drop_0, Nat.sub_succ, Nat.sub_0_r.
  rewrite take_app_length', drop_app_length' by done.
  change ((?a :: ?b :: ?c :: ?l).[0%nat]) with (Some a).
  change ((?a :: ?b :: ?c :: ?l).[1%nat]) with (Some b).
  change ((?a :: ?b :: ?c :: ?l).[2%nat]) with (Some c).
  cbn [mbind option_bind]. rewrite slice_from_le by (simpl; lia). cbn [mbind option_bind drop].
  rewrite lor_shiftl_8 by (apply Z.mod_pos_bound; lia).
  by rewrite Z.mul_comm, <-Z.div_mod by lia.
Qed.

Lemma parse_report fuel s pr rest :
  NetProfiler.wf_report pr → recv_buffer s = report_bytes pr ++ rest →
  parse (S fuel) s = parse fuel (mk rest (sent s ++ [response pr])).
Proof.
  intros Hwf Hb. cbn [parse].
  destruct pr as [tm [o|o] ls pg] eqn:Hpr, Hwf as [[Hlen _] [Hping _]];
    unfold PingBackend.result_bytes in Hb; cbn [pr_ip pr_ping pr_lost app] in *;
    rewrite <-!app_assoc in Hb; cbn [app] in Hb; rewrite Hb.
  - by rewrite (record_ok 4 V4 s IPV4 o pr rest) by (subst; auto); subst.
  - by rewrite (record_ok 16 V6 s IPV6 o pr rest) by (subst; auto); subst.
Qed.

Lemma parse_reports fuel s prs p :
  Forall NetProfiler.wf_report prs → partial p → recv_buffer s = encode prs ++ p →
  (length (encode prs ++ p) < fuel)%nat →
  parse fuel s = Some (mk p (sent s ++ (response <$> prs))).
Proof.
  intros Hprs Hp. revert fuel s.
  induction Hprs as [|pr prs Hpr Hprs IH]; intros fuel s Hb Hf; (destruct fuel as [|fuel]; [lia|]).
  - simpl in Hb. rewrite parse_rows_partial by (by rewrite Hb). destruct s. simpl in *. subst.
    by rewrite app_nil_r.
  - rewrite encode_cons, <-app_assoc in Hb, Hf.
    rewrite (parse_report fuel s pr (encode prs ++ p)) by done.
    rewrite IH; [simpl; by rewrite <-app_assoc|done|].
    destruct (NetProfiler.report_shape pr Hpr) as (k & r & Hk & _). rewrite Hk in Hf. simpl in Hf.
      rewrite (length_app r) in Hf. lia.
Qed.

Lemma run_reports s chunks prs p :
  Forall NetProfiler.wf_report prs → partial (recv_buffer s) → partial p → Forall (λ c, c ≠ []) chunks →
  recv_buffer s ++ mjoin chunks = encode prs ++ p →
  run s (ReadBytes <$> chunks) = Some (true, mk p (sent s ++ (response <$> prs))).
Proof.
  intros Hprs Hs Hp Hne. revert s prs Hprs Hs. induction Hne as [|c chunks Hc Hne IH]; intros s prs Hprs Hs Heq.
  - simpl in Heq. rewrite app_nil_r in Heq. destruct Hprs as [|pr prs Hpr _].
    + simpl in *. subst. destruct s. simpl. by rewrite app_nil_r.
    + exfalso. rewrite Heq, encode_cons, <-app_assoc in Hs. by apply NetProfiler.report_complete in Hs.
  - change (mjoin (c :: chunks)) with (c ++ mjoin chunks) in Heq. rewrite app_assoc in Heq.
    destruct (encode_prefix report_bytes NetProfiler.wf_report prs p _ _ Hprs Hp Heq)
      as (xs1 & xs2 & p1 & -> & H1 & H2 & H3).
    apply Forall_app in Hprs as [Hx1 Hx2]. destruct c as [|x c]; [done|].
    cbn [fmap list_fmap run] in *. rewrite (parse_reports _ _ xs1 p1); [|done..|simpl; rewrite H1; lia].
    cbn [mbind option_bind]. rewrite (IH _ xs2) by done. simpl. by rewrite fmap_app, <-app_assoc.
Qed.

(** The profiler hears every result of the server once, in order and with
    its values, however the stream of results is cut, and nothing of an
    incomplete one; when the stream then ends it hears that it is closed. *)
Theorem remote_results_reassemble chunks prs p :
  Forall NetProfiler.wf_report prs → partial p → Forall (λ c, c ≠ []) chunks →
  mjoin chunks = encode prs ++ p →
  run start (ReadBytes <$> chunks) = Some (true, mk p (response <$> prs))
  ∧ run start ((ReadBytes <$> chunks) ++ [ReadBytes []])
    = Some (false, mk p ((response <$> prs) ++ [closed])).
Proof.
  intros Hprs Hp Hne Heq.
  assert (run start (ReadBytes <$> chunks) = Some (true, mk p (response <$> prs))) as Hr.
  { apply (run_reports start chunks prs p); try done. by left. }
  split; [done|]. assert (∀ s reads s' more, run s reads = Some (true, s') → run s (reads ++ more) = run s' more)
    as Happ; [|by rewrite (Happ _ _ _ _ Hr)].
  clear. intros s reads. revert s. induction reads as [|r reads IH]; intros s s' more; [by intros [= <-]|].
  destruct r as [[|x d]| |]; cbn [run app]; try done.
  destruct (parse _ _) as [s1|]; [|done]. cbn [mbind option_bind]. apply IH.
Qed.
End RemoteResponse.

(** ** The profiler *)

Module Profiler.
Section Profiler.
Context {GB : GroupBy} (OPTIONS : Opts).

Definition timeout : Z := secs (bypass_timeout (proxy_args OPTIONS)).
Definition threshold : Z := ping_threshold (proxy_args OPTIONS).

(** What [run_profiler] keeps.  [receiver] is the channel of the addresses to
    measure, which the profiler also sends to; [routine] and [ipset] are the
    channels to the check tasks, [responses] and [remote] those from them and
    from the reader of the server's results, [remote_open] that the reader still
    holds its end; [streams] is what each connection to the server has been
    sent, the newest first. *)
Record t : Type := mk {
  set : gmap IpAddr PingResult;
  receiver : list IpAddr;
  routine : list IpAddr;
  routine_open : bool;
  responses : list Response;
  remote : list Response;
  remote_open : bool;
  ipset : list (IpAddr * bool);
  ipset_open : bool;
  send_buffer : bytes;
  next_check : Z;
  reconnect : bool;
  streams : list bytes
}.

Definition with_set (s : t) (m : gmap IpAddr PingResult) : t :=
  mk m (receiver s) (routine s) (routine_open s) (responses s) (remote s) (remote_open s) (ipset s)
    (ipset_open s) (send_buffer s) (next_check s) (reconnect s) (streams s).
Definition with_receiver (s : t) (l : list IpAddr) : t :=
  mk (set s) l (routine s) (routine_open s) (responses s) (remote s) (remote_open s) (ipset s)
    (ipset_open s) (send_buffer s) (next_check s) (reconnect s) (streams s).
Definition with_routine (s : t) (l : list IpAddr) : t :=
  mk (set s) (receiver s) l (routine_open s) (responses s) (remote s) (remote_open s) (ipset s)
    (ipset_open s) (send_buffer s) (next_check s) (reconnect s) (streams s).
Definition with_responses (s : t) (l : list Response) : t :=
  mk (set s) (receiver s) (routine s) (routine_open s) l (remote s) (remote_open s) (ipset s)
    (ipset_open s) (send_buffer s) (next_check s) (reconnect s) (streams s).
Definition with_remote (s : t) (l : list Response) (o : bool) : t :=
  mk (set s) (receiver s) (routine s) (routine_open s) (responses s) l o (ipset s)
    (ipset_open s) (send_buffer s) (next_check s) (reconnect s) (streams s).
Definition with_ipset (s : t) (l : list (IpAddr * bool)) : t :=
  mk (set s) (receiver s) (routine s) (routine_open s) (responses s) (remote s) (remote_open s) l
    (ipset_open s) (send_buffer s) (next_check s) (reconnect s) (streams s).
Definition with_next (s : t) (n : Z) : t :=
  mk (set s) (receiver s) (routine s) (routine_open s) (responses s) (remote s) (remote_open s)
    (ipset s) (ipset_open s) (send_buffer s) n (reconnect s) (streams s).
Definition with_conn (s : t) (b : bytes) (r : bool) (l : list bytes) : t :=
  mk (set s) (receiver s) (routine s) (routine_open s) (responses s) (remote s) (remote_open s)
    (ipset s) (ipset_open s) b (next_check s) r l.

Definition request : bytes := TrojanRequest.generate OPTIONS PING (mkSocketAddr (V4 [0; 0; 0; 0]) 0).

(** The state when the loop starts: the first connection has been made and [w]
    is the outcome of its handshake. *)
Definition start (now : Z) (w : write_outcome) : t :=
  mk ∅ [] [] true [] [] true [] true [] now (negb (write_is_ok w)) [written w request].

(** [writer.write_all]. *)
Definition write (s : t) (w : write_outcome) (data : bytes) : t :=
  match streams s with
  | stream :: rest => with_conn s (send_buffer s) (reconnect s) ((stream ++ written w data) :: rest)
  | [] => s
  end.

(** [SelectReturn]; [None] is what a closed channel returns. *)
Inductive SelectReturn : Type :=
  | LocalResponse (resp : option Response)
  | RemoteResponse (resp : option Response)
  | Request (req : option IpAddr).

(** What [select!] may return, and the channels after it. *)
Inductive select : t → SelectReturn → t → Prop :=
  | select_request s ip rest :
      receiver s = ip :: rest → select s (Request (Some ip)) (with_receiver s rest)
  | select_local s r rest :
      responses s = r :: rest → select s (LocalResponse (Some r)) (with_responses s rest)
  | select_local_closed s :
      responses s = [] → routine_open s = false → select s (LocalResponse None) s
  | select_remote s r rest :
      remote s = r :: rest →
      select s (RemoteResponse (Some r)) (with_remote s rest (remote_open s))
  | select_remote_closed s :
      remote s = [] → remote_open s = false → select s (RemoteResponse None) s.

(** [set.get_mut(&ip)]: an address that is not there is logged. *)
Definition update_entry (s : t) (ip : IpAddr) (f : PingResult → PingResult) : t :=
  match set s !! ip with
  | Some pr => with_set s (<[ip := f pr]> (set s))
  | None => s
  end.

Definition on_local (s : t) (resp : Response) : t :=
  let '(ip, ping, lost) := resp in
  update_entry s ip (λ pr, NetProfiler.mkPingResult (NetProfiler.last_time pr)
    (Z.min lost (u8_MAX - 1)) (Z.min ping (u16_MAX - 1)) (NetProfiler.remote_lost pr)
    (NetProfiler.remote_ping pr) (NetProfiler.is_sent pr)).

Definition on_remote (s : t) (resp : Response) : t :=
  let '(ip, ping, lost) := resp in
  if is_unspecified ip && (ping =? 0) && (lost =? 0)
  then with_conn s (send_buffer s) true (streams s)
  else update_entry s ip (λ pr, NetProfiler.mkPingResult (NetProfiler.last_time pr)
         (NetProfiler.local_lost pr) (NetProfiler.local_ping pr) (Z.min lost (u8_MAX - 1))
         (Z.min ping (u16_MAX - 1)) (NetProfiler.is_sent pr)).

(** Whether a request is passed over. *)
Definition is_recent (now : Z) (s : t) (ip : IpAddr) : bool :=
  match set s !! ip with
  | Some pr => NetProfiler.is_no_bypass pr || (since now (NetProfiler.last_time pr) <? timeout)
  | None => false
  end.

(** A request that is not passed over.  [send_buffer] is appended to and
    written out; nothing clears it. *)
Definition on_request (now : Z) (w : write_outcome) (s : t) (ip : IpAddr) : t :=
  let data := send_buffer s ++ PingBackend.addr_bytes ip in
  let s := write (with_conn s data (reconnect s) (streams s)) w data in
  let s := with_conn s data (reconnect s || negb (write_is_ok w)) (streams s) in
  if routine_open s then
    let pr := default (NetProfiler.ping_result_default now) (set s !! ip) in
    with_set (with_routine s (routine s ++ [ip]))
      (<[ip := NetProfiler.with_sent (NetProfiler.with_time pr now) false]> (set s))
  else s.

(** [if reconnect]: [c] is whether a connection is made and the outcome of its
    handshake.  The old receiver is dropped only when the handshake succeeds. *)
Definition try_reconnect (c : option write_outcome) (s : t) : t :=
  if reconnect s then
    match c with
    | Some w =>
        let s := with_conn s (send_buffer s) (negb (write_is_ok w)) (written w request :: streams s) in
        if write_is_ok w then with_remote s [] true else s
    | None => s
    end
  else s.

(** The verdict on an address. *)
Definition should_bypass (cond : Condition) (pr : PingResult) : bool :=
  let proxy_ping := wrap 16 (NetProfiler.ping cond + NetProfiler.remote_ping pr) in
  let proxy_lost := NetProfiler.proxy_lost (NetProfiler.lost cond) (NetProfiler.remote_lost pr) in
  if (NetProfiler.remote_ping pr <? threshold) && (NetProfiler.local_ping pr <? threshold) then false
  else (NetProfiler.local_ping pr <? wrap 16 (proxy_ping + 5))
    && (NetProfiler.local_lost pr <? wrap 8 (proxy_lost + 2)).

(** [ips0]: asked for again through the profiler's own channel. *)
Definition ask_again (now : Z) (s : t) (ip : IpAddr) : option t :=
  let s := with_receiver s (receiver s ++ [ip]) in
  pr ← set s !! ip;
  Some (with_set s (<[ip := NetProfiler.with_time pr now]> (set s))).

(** [ips1]. *)
Definition publish (cond : Condition) (s : t) (ip : IpAddr) : option t :=
  pr ← set s !! ip;
  let s := with_set s (<[ip := NetProfiler.with_sent pr true]> (set s)) in
  Some (if ipset_open s then with_ipset s (ipset s ++ [(ip, should_bypass cond pr)]) else s).

(** The loop over the entries that are due. *)
Definition due_step (acc : Z * list IpAddr) (e : IpAddr * PingResult) : Z * list IpAddr :=
  let '(next, ips) := acc in
  if NetProfiler.is_no_bypass e.2 then (next, ips)
  else
    let due_time := NetProfiler.last_time e.2 + timeout in
    if due_time <=? next then (next, ips ++ [e.1])
    else if due_time <? next then (due_time, ips)
    else (next, ips).

Definition recheck (now : Z) (s : t) : t :=
  if next_check s <? now then
    let '(_, ips) := foldl due_step (next_check s, []) (map_to_list (set s)) in
    let s := with_next s (now + timeout) in
    with_receiver s (receiver s ++ ips)
  else s.

(** The part of an iteration after a response. *)
Definition decide_all (now : Z) (cond : Condition) (s : t) : option t :=
  let '(ips1, ips0) := NetProfiler.collect now (map_to_list (set s)) in
  s ← foldl (λ s ip, s ← s; ask_again now s ip) (Some s) ips0;
  s ← foldl (λ s ip, s ← s; publish cond s ip) (Some s) ips1;
  Some (recheck now s).

(** An iteration of the loop after [select!]; [cond] is what [CONDITION] holds,
    [None] when its lock is poisoned.  [None] is a panic. *)
Definition iterate (now : Z) (cond : option Condition) (w : write_outcome)
    (c : option write_outcome) (s : t) (ret : SelectReturn) : option t :=
  match ret with
  | Request req =>
      ip ← req;
      Some (if is_recent now s ip then s else try_reconnect c (on_request now w s ip))
  | LocalResponse resp =>
      resp ← resp;
      let s := try_reconnect c (on_local s resp) in
      match cond with Some cond => decide_all now cond s | None => Some s end
  | RemoteResponse resp =>
      resp ← resp;
      let s := try_reconnect c (on_remote s resp) in
      match cond with Some cond => decide_all now cond s | None => Some s end
  end.

(** *** Decisions *)

Lemma aprofiler_publishes cond ips s :
  ipset_open s = true → NoDup ips → (∀ ip, ip ∈ ips → is_Some (set s !! ip)) →
  ∃ m, foldl (λ s ip, s ← s; publish cond s ip) (Some s) ips
      = Some (with_ipset (with_set s m) (ipset s ++
          ((λ ip, (ip, from_option (should_bypass cond) false (set s !! ip))) <$> ips)))
    ∧ ∀ ip, m !! ip = if decide (ip ∈ ips) then (λ pr, NetProfiler.with_sent pr true) <$> set s !! ip
                      else set s !! ip.
Proof.
  revert s. induction ips as [|ip ips IH]; intros s Ho Hnd Hin.
  { exists (set s). rewrite app_nil_r. split; [by destruct s|]. intros ip.
    by rewrite decide_False by apply not_elem_of_nil. }
  apply NoDup_cons in Hnd as [Hni Hnd]. destruct (Hin ip) as [pr Hpr]; [apply list_elem_of_here|].
  cbn [foldl mbind option_bind]. unfold publish at 2. rewrite Hpr. cbn [mbind option_bind].
  cbn [ipset_open with_set]. rewrite Ho.
  match goal with |- context [foldl _ (Some ?x) ips] => set (s1 := x) end.
  assert (∀ ip', ip' ≠ ip → set s1 !! ip' = set s !! ip') as Hs1.
  { intros ip' Hip'. simpl. by apply lookup_insert_ne. }
  destruct (IH s1) as (m & -> & Hm); [done|done| |].
  { intros ip' Hip'. rewrite Hs1 by (by intros ->). by apply Hin, list_elem_of_further. }
  exists m. split.
  - assert (((λ ip, (ip, from_option (should_bypass cond) false (set s1 !! ip))) <$> ips)
      = ((λ ip, (ip, from_option (should_bypass cond) false (set s !! ip))) <$> ips)) as ->.
    { apply list_fmap_ext. intros i ip' Hip'%list_elem_of_lookup_2. by rewrite Hs1 by (by intros ->). }
    unfold s1, with_ipset. cbn. by rewrite Hpr, <-app_assoc.
  - intros ip'. rewrite Hm. destruct (decide (ip' = ip)) as [->|Hn].
    + rewrite decide_False, decide_True by (done || apply list_elem_of_here).
      rewrite Hpr. apply lookup_insert_eq.
    + rewrite Hs1 by done. apply decide_ext. rewrite elem_of_cons. naive_solver.
Qed.

(** Asking again queues the addresses and restarts their clocks. *)
Lemma aprofiler_asks_again now ips s :
  (∀ ip, ip ∈ ips → is_Some (set s !! ip)) →
  ∃ m, foldl (λ s ip, s ← s; ask_again now s ip) (Some s) ips
      = Some (with_receiver (with_set s m) (receiver s ++ ips))
    ∧ ∀ ip, m !! ip = if decide (ip ∈ ips) then (λ pr, NetProfiler.with_time pr now) <$> set s !! ip
                      else set s !! ip.
Proof.
  revert s. induction ips as [|ip ips IH]; intros s Hin.
  { exists (set s). rewrite app_nil_r. split; [by destruct s|]. intros ip.
    by rewrite decide_False by apply not_elem_of_nil. }
  destruct (Hin ip) as [pr Hpr]; [apply list_elem_of_here|].
  cbn [foldl mbind option_bind]. unfold ask_again at 2. cbn [set with_receiver]. rewrite Hpr.
  cbn [mbind option_bind].
  match goal with |- context [foldl _ (Some ?x) ips] => set (s1 := x) end.
  destruct (IH s1) as (m & -> & Hm).
  { intros ip' Hip'. simpl. destruct (decide (ip = ip')) as [<-|Hn].
    - rewrite lookup_insert_eq. by eexists.
    - rewrite lookup_insert_ne by done. by apply Hin, list_elem_of_further. }
  exists m. split.
  - unfold s1, with_receiver. cbn. by rewrite <-app_assoc.
  - intros ip'. rewrite Hm. simpl. destruct (decide (ip = ip')) as [<-|Hn].
    + rewrite lookup_insert_eq, (decide_True (P := ip ∈ ip :: ips)) by apply list_elem_of_here.
      rewrite Hpr. by destruct (decide (ip ∈ ips)).
    + rewrite lookup_insert_ne by done. apply decide_ext. rewrite elem_of_cons. naive_solver.
Qed.

(** The entries that are due when [next_check] passes; the branch that would
    move [next_check] is never taken. *)
Definition due (next : Z) (e : IpAddr * PingResult) : Prop :=
  NetProfiler.is_no_bypass e.2 = false ∧ NetProfiler.last_time e.2 + timeout ≤ next.

#[local] Instance due_dec next e : Decision (due next e).
Proof. unfold due. apply _. Defined.

Lemma due_steps next ips entries :
  ∃ next', foldl due_step (next, ips) entries = (next', ips ++ (filter (due next) entries).*1)
    ∧ next' = next.
Proof.
  revert ips. induction entries as [|e entries IH]; intros ips.
  { exists next. by rewrite app_nil_r. }
  cbn [foldl]. unfold due_step at 2. rewrite filter_cons.
  destruct (decide (due next e)) as [[-> Hl]|Hn].
  - rewrite (proj2 (Z.leb_le _ _)) by done. destruct (IH (ips ++ [e.1])) as (n & -> & ->). exists next.
    by rewrite <-app_assoc.
  - unfold due in Hn. destruct (NetProfiler.is_no_bypass e.2); [apply IH|].
    assert (next < NetProfiler.last_time e.2 + timeout).
    { apply Z.lt_nge. intros H. by apply Hn. }
    rewrite (proj2 (Z.leb_gt _ _)), (proj2 (Z.ltb_ge _ _)) by lia. apply IH.
Qed.

Lemma recheck_spec now s :
  ∃ n, recheck now s = with_next (with_receiver s (receiver s ++
    if next_check s <? now then (filter (due (next_check s)) (map_to_list (set s))).*1 else [])) n.
Proof.
  unfold recheck. destruct (next_check s <? now).
  - destruct (due_steps (next_check s) [] (map_to_list (set s))) as (n & -> & _). by eexists.
  - exists (next_check s). rewrite app_nil_r. by destruct s.
Qed.

(** What a response leads to: [ips1] are published, [ips0] asked again. *)
Lemma decide_all_spec now cond s :
  ipset_open s = true →
  ∃ s' ips1 ips0 due_ips, decide_all now cond s = Some s'
    ∧ NetProfiler.collect now (map_to_list (set s)) = (ips1, ips0)
    ∧ NoDup ips1
    ∧ (∀ ip, ip ∈ ips1 → ∃ pr, set s !! ip = Some pr ∧ NetProfiler.group_key pr = 1)
    ∧ (∀ ip, ip ∈ ips0 → ∃ pr, set s !! ip = Some pr ∧ NetProfiler.group_key pr = 0)
    ∧ ((∃ ip pr, set s !! ip = Some pr ∧ NetProfiler.group_key pr = 1) → ips1 ≠ [])
    ∧ ipset s' = ipset s ++ ((λ ip, (ip, from_option (should_bypass cond) false (set s !! ip))) <$> ips1)
    ∧ receiver s' = receiver s ++ ips0 ++ due_ips
    ∧ ∀ ip, set s' !! ip =
        if decide (ip ∈ ips1) then (λ pr, NetProfiler.with_sent pr true) <$> set s !! ip
        else if decide (ip ∈ ips0) then (λ pr, NetProfiler.with_time pr now) <$> set s !! ip
        else set s !! ip.
Proof.
  intros Ho. unfold decide_all.
  destruct (NetProfiler.collect now (map_to_list (set s))) as [ips1 ips0] eqn:Hc.
  pose proof (NetProfiler.collect_spec _ _ _ _ (NoDup_fst_map_to_list (set s)) Hc) as (Hnd & H1' & H0' & Hne).
  assert (∀ ip, ip ∈ ips1 → ∃ pr, set s !! ip = Some pr ∧ NetProfiler.group_key pr = 1) as H1.
  { intros ip (pr & Hpr%elem_of_map_to_list & Hk)%H1'. by exists pr. }
  assert (∀ ip, ip ∈ ips0 → ∃ pr, set s !! ip = Some pr ∧ NetProfiler.group_key pr = 0) as H0.
  { intros ip (pr & Hpr%elem_of_map_to_list & Hk)%H0'. by exists pr. }
  assert (∀ ip, ip ∈ ips1 → ip ∉ ips0) as Hdis.
  { intros ip (pr & Hpr & Hk)%H1 (pr' & Hpr' & Hk')%H0. congruence. }
  destruct (aprofiler_asks_again now ips0 s) as (m & -> & Hm).
  { intros ip (pr & Hpr & _)%H0. by eexists. }
  cbn [mbind option_bind].
  destruct (aprofiler_publishes cond ips1 (with_receiver (with_set s m) (receiver s ++ ips0))) as (m' & -> & Hm');
    [done|done| |].
  { intros ip Hip. cbn [set with_receiver with_set]. rewrite Hm, decide_False by auto.
    destruct (H1 ip Hip) as (pr & -> & _). by eexists. }
  cbn [mbind option_bind].
  match goal with |- context [recheck now ?x] => destruct (recheck_spec now x) as [n ->] end.
  eexists _, ips1, ips0, _. split_and!; try done.
  - intros (ip & pr & Hpr & Hk). apply Hne. exists (ip, pr). split; [|done]. by apply elem_of_map_to_list.
  - cbn [ipset with_next with_receiver with_ipset set with_set]. f_equal.
    apply list_fmap_ext. intros i ip Hip%list_elem_of_lookup_2. by rewrite Hm, decide_False by auto.
  - cbn [receiver with_next with_receiver with_ipset with_set]. by rewrite <-app_assoc.
  - intros ip. cbn [set with_next with_receiver with_ipset with_set]. rewrite Hm'.
    cbn [set with_receiver with_set]. rewrite Hm. destruct (decide (ip ∈ ips1)) as [Hi|]; [|done].
    by rewrite decide_False by auto.
Qed.

(** The state after a response has been recorded. *)
Definition heard (c : option write_outcome) (s : t) (ret : SelectReturn) : option t :=
  match ret with
  | LocalResponse (Some resp) => Some (try_reconnect c (on_local s resp))
  | RemoteResponse (Some resp) => Some (try_reconnect c (on_remote s resp))
  | _ => None
  end.

Lemma heard_ipset c s ret s1 :
  heard c s ret = Some s1 → ipset s1 = ipset s ∧ ipset_open s1 = ipset_open s.
Proof.
  assert (∀ s ip f, ipset (update_entry s ip f) = ipset s
    ∧ ipset_open (update_entry s ip f) = ipset_open s) as Hu.
  { intros s0 ip f. unfold update_entry. by destruct (set s0 !! ip). }
  assert (∀ s0, ipset (try_reconnect c s0) = ipset s0
    ∧ ipset_open (try_reconnect c s0) = ipset_open s0) as Ht.
  { intros s0. unfold try_reconnect. destruct (reconnect s0); [|done]. destruct c as [[|n]|]; done. }
  destruct ret as [[r|]|[r|]|]; cbn [heard]; try done; intros [= <-]; rewrite !(proj1 (Ht _)), !(proj2 (Ht _)).
  - destruct r as [[ip p] l]. apply Hu.
  - destruct r as [[ip p] l]. unfold on_remote. destruct (_ && _); [done|apply Hu].
Qed.

Lemma iterate_heard now cond w c s ret s1 :
  heard c s ret = Some s1 → iterate now (Some cond) w c s ret = decide_all now cond s1.
Proof. by destruct ret as [[r|]|[r|]|]; intros [= <-]. Qed.

(** C25: after a response the profiler does not panic; it publishes verdicts,
    one per address, only for addresses whose four measurements are in and not
    published yet, each the verdict on those measurements, and at least one
    whenever there is such an address, which is then marked as sent. *)
Theorem aprofiler_decides now cond w c s ret s1 :
  heard c s ret = Some s1 → ipset_open s = true →
  ∃ s' ips, iterate now (Some cond) w c s ret = Some s'
    ∧ NoDup ips
    ∧ ipset s' = ipset s ++ ((λ ip, (ip, from_option (should_bypass cond) false (set s1 !! ip))) <$> ips)
    ∧ (∀ ip, ip ∈ ips → ∃ pr, set s1 !! ip = Some pr ∧ NetProfiler.group_key pr = 1
        ∧ set s' !! ip = Some (NetProfiler.with_sent pr true))
    ∧ ((∃ ip pr, set s1 !! ip = Some pr ∧ NetProfiler.group_key pr = 1) → ips ≠ []).
Proof.
  intros Hh Ho. rewrite (iterate_heard _ _ _ _ _ _ _ Hh). apply heard_ipset in Hh as [<- Ho1].
  rewrite <-Ho1 in Ho.
  destruct (decide_all_spec now cond s1 Ho)
    as (s' & ips1 & ips0 & ds & -> & Hc & Hnd & H1 & H0 & Hne & Hi & Hr & Hs).
  exists s', ips1. split_and!; [done..| |done]. intros ip Hip. destruct (H1 ip Hip) as (pr & Hpr & Hk).
  exists pr. split_and!; [done..|]. by rewrite Hs, decide_True, Hpr.
Qed.

(** An unanswered address that the profiler decides to ask for again is
    queued with its clock restarted, and so passed over when the request is
    taken, unless it has waited in the queue for the whole bypass timeout: the
    retry is lost and the state does not change. *)
Theorem retry_is_passed_over now cond s s' ip now' w c :
  decide_all now cond s = Some s' → ipset_open s = true →
  ip ∈ (NetProfiler.collect now (map_to_list (set s))).2 →
  now ≤ now' < now + timeout →
  ip ∈ receiver s'
  ∧ iterate now' (Some cond) w c s' (Request (Some ip)) = Some s'.
Proof.
  intros Hd Ho Hip Hnow. destruct (decide_all_spec now cond s Ho)
    as (s2 & ips1 & ips0 & ds & Hd' & Hc & Hnd & H1 & H0 & Hne & Hi & Hr & Hs).
  rewrite Hd in Hd'. injection Hd' as <-. rewrite Hc in Hip. cbn [snd] in Hip. split.
  - rewrite Hr. set_solver.
  - unfold iterate. cbn [mbind option_bind]. unfold is_recent. rewrite Hs.
    destruct (H0 ip Hip) as (pr & Hpr & Hk).
    rewrite decide_False by (intros (pr' & Hpr' & Hk')%H1; congruence).
    rewrite decide_True, Hpr by done. cbn [fmap option_fmap option_map].
    cbn [NetProfiler.with_time NetProfiler.last_time].
    rewrite (proj2 (Z.ltb_lt _ _)) by (unfold since; lia). by rewrite orb_true_r.
Qed.

(** *** The requests that reach the server *)

Fixpoint iterate_requests (now : Z) (cond : option Condition) (s : t) (ips : list IpAddr) : option t :=
  match ips with
  | [] => Some s
  | ip :: ips => s ← iterate now cond WriteOk None s (Request (Some ip)); iterate_requests now cond s ips
  end.

Abbreviation encode := (Framing.encode PingBackend.addr_bytes).

(** All the addresses asked for so far, once for each request. *)
Fixpoint repeated (before ips : list IpAddr) : bytes :=
  match ips with
  | [] => []
  | ip :: ips => encode (before ++ [ip]) ++ repeated (before ++ [ip]) ips
  end.

Lemma on_request_stream now s ip before stream rest :
  set s !! ip = None → routine_open s = true → reconnect s = false →
  send_buffer s = encode before → streams s = stream :: rest →
  let s' := on_request now WriteOk s ip in
  set s' = <[ip := NetProfiler.with_sent (NetProfiler.with_time
             (NetProfiler.ping_result_default now) now) false]> (set s)
  ∧ routine_open s' = true ∧ reconnect s' = false ∧ routine s' = routine s ++ [ip]
  ∧ send_buffer s' = encode (before ++ [ip])
  ∧ streams s' = (stream ++ encode (before ++ [ip])) :: rest.
Proof.
  intros Hs Ho Hr Hb Hst. unfold on_request, write. cbn [streams with_conn send_buffer reconnect].
  rewrite Hst, Hb. cbn [routine_open with_conn]. rewrite Ho. cbn.
  assert (encode (before ++ [ip]) = encode before ++ PingBackend.addr_bytes ip) as ->.
  { rewrite encode_app, encode_cons. simpl. by rewrite app_nil_r. }
  by rewrite Hs, Hr.
Qed.

(** A new address is asked for with every address asked for before it: the
    buffer of requests is written out again each time, so that after [n]
    addresses the server has been sent [n * (n + 1) / 2] of them. *)
Theorem requests_accumulate now cond s ips stream rest :
  NoDup ips → (∀ ip, ip ∈ ips → set s !! ip = None) → routine_open s = true → reconnect s = false →
  send_buffer s = [] → streams s = stream :: rest →
  ∃ s', iterate_requests now cond s ips = Some s'
    ∧ routine s' = routine s ++ ips
    ∧ streams s' = (stream ++ repeated [] ips) :: rest.
Proof.
  intros Hnd Hn Ho Hr Hb Hst. change (send_buffer s = encode []) in Hb. revert Hb.
  generalize (@nil IpAddr) as before. revert s stream Hn Ho Hr Hst.
  induction Hnd as [|ip ips Hni Hnd IH]; intros s stream Hn Ho Hr Hst before Hb; cbn [iterate_requests repeated].
  { exists s. by rewrite !app_nil_r. }
  cbn [iterate mbind option_bind]. unfold is_recent. rewrite Hn by apply list_elem_of_here.
  destruct (on_request_stream now s ip before stream rest) as (H1 & H2 & H3 & H4 & H5 & H6);
    [by apply Hn, list_elem_of_here|done..|].
  unfold try_reconnect. rewrite H3.
  destruct (IH (on_request now WriteOk s ip) (stream ++ encode (before ++ [ip])))
    with (before := before ++ [ip]) as (s' & -> & Hr' & Hs'); try done.
  { intros ip' Hip'. rewrite H1, lookup_insert_ne by (by intros ->). by apply Hn, list_elem_of_further. }
  exists s'. rewrite Hr', Hs', H4, <-!app_assoc. done.
Qed.

(** *** A connection that cannot be replaced *)

Definition same_remote (s s' : t) : Prop :=
  remote s' = remote s ∧ remote_open s' = remote_open s ∧ reconnect s' = reconnect s.

Lemma fold_same_remote (step : t → IpAddr → option t) ips s s' :
  (∀ a ip b, step a ip = Some b → same_remote a b) →
  foldl (λ s ip, s ← s; step s ip) (Some s) ips = Some s' → same_remote s s'.
Proof.
  intros Hstep. revert s. induction ips as [|ip ips IH]; intros s; [by intros [= <-]|].
  cbn [foldl mbind option_bind]. rewrite foldl_bind. destruct (step s ip) as [s1|] eqn:Hs; [|done].
  intros H%IH. apply Hstep in Hs as (E1 & E2 & E3). unfold same_remote in *. by rewrite <-E1, <-E2, <-E3.
Qed.

Lemma decide_all_same_remote now cond s s' : decide_all now cond s = Some s' → same_remote s s'.
Proof.
  unfold decide_all. destruct (NetProfiler.collect now _) as [ips1 ips0].
  destruct (foldl (λ s ip, s ← s; ask_again now s ip) (Some s) ips0) as [s1|] eqn:H0; [|done].
  cbn [mbind option_bind].
  destruct (foldl (λ s ip, s ← s; publish cond s ip) (Some s1) ips1) as [s2|] eqn:H1; [|done].
  intros [= <-]. destruct (recheck_spec now s2) as [n ->].
  apply fold_same_remote in H0 as (E1 & E2 & E3).
  2: { intros a ip b. unfold ask_again. simpl. destruct (set a !! ip); [|done]. by intros [= <-]. }
  apply fold_same_remote in H1 as (F1 & F2 & F3); [unfold same_remote; simpl; by rewrite F1, F2, F3|].
  intros a ip b. unfold publish. destruct (set a !! ip); [|done]. cbn [mbind option_bind].
  intros [= <-]. unfold same_remote. simpl. by destruct (ipset_open a).
Qed.

(** When the server closes the connection and the profiler cannot make a
    new one, the closed channel of the old one stays in the loop: it may be
    selected at once, and the profiler panics on what it returns. *)
Theorem failed_reconnect_panics now cond w s s1 :
  remote s = [RemoteResponse.closed] → remote_open s = false →
  iterate now cond w None (with_remote s [] false) (RemoteResponse (Some RemoteResponse.closed)) = Some s1 →
  select s (RemoteResponse (Some RemoteResponse.closed)) (with_remote s [] false)
  ∧ reconnect s1 = true
  ∧ select s1 (RemoteResponse None) s1
  ∧ iterate now cond w None s1 (RemoteResponse None) = None.
Proof.
  intros Hr Ho Hi. assert (remote s1 = [] ∧ remote_open s1 = false ∧ reconnect s1 = true) as (H1 & H2 & H3).
  { destruct cond as [cond|]; [|by injection Hi as <-].
    cbn [iterate mbind option_bind] in Hi. by apply decide_all_same_remote in Hi. }
  split_and!; [|done| |done].
  - rewrite <-Ho. by apply select_remote.
  - by apply select_remote_closed.
Qed.
End Profiler.
End Profiler.

Module AProfilerWitness.
#[local] Existing Instance NetProfilerWitness.consecutive.

Definition opts : Opts := IdlePoolWitness.opts.

Definition one : IpAddr := V4 [1; 1; 1; 1].
Definition two : IpAddr := V4 [2; 2; 2; 2].

(** A buffer of the given size that drops its oldest element. *)
Definition push (size : nat) (rb : list Condition) (c : Condition) : list Condition :=
  drop (length rb + 1 - size) rb ++ [c].

Lemma push_ok size rb c :
  (0 < size)%nat → c ∈ push size rb c ∧ ∀ x, x ∈ push size rb c → x = c ∨ x ∈ rb.
Proof.
  intros _. unfold push. split; [apply elem_of_app; right; by apply list_elem_of_singleton|].
  intros x [Hx| ->%list_elem_of_singleton]%elem_of_app; [right|by left].
  eapply elem_of_sublist; [exact Hx|]. apply sublist_drop.
Qed.

Lemma server_loss_is_percent_witness :
  ∃ cond, ServerCheck.check_server push (ServerCheck.size 150 3600) ∅ NetProfiler.CONDITION
      [[(one, replicate 90 (Some 20) ++ replicate 10 None)]; []; [(one, []); (two, [Some 5])]] = Some cond
    ∧ 0 ≤ NetProfiler.lost cond ≤ 100.
Proof. apply (ServerCheck.server_loss_is_percent push push_ok 150 3600); lia. Defined.

Definition report : NetProfiler.Report := mkPingResult 0 one 2 300.

Lemma report_ok : NetProfiler.wf_report report.
Proof. split; [apply (bool_decide_unpack _); by vm_compute|simpl; lia]. Qed.

Lemma remote_results_reassemble_witness :
  RemoteResponse.run RemoteResponse.start (ReadBytes <$> [[1; 1]; [1; 1; 1; 1; 44; 2; 1]])
    = Some (true, RemoteResponse.mk [1] [(one, 300, 2)])
  ∧ RemoteResponse.run RemoteResponse.start
      ((ReadBytes <$> [[1; 1]; [1; 1; 1; 1; 44; 2; 1]]) ++ [ReadBytes []])
    = Some (false, RemoteResponse.mk [1] ([(one, 300, 2)] ++ [RemoteResponse.closed])).
Proof.
  apply (RemoteResponse.remote_results_reassemble [[1; 1]; [1; 1; 1; 1; 44; 2; 1]] [report] [1]).
  - apply Forall_cons_2; [exact report_ok|by apply Forall_nil_2].
  - right. exists report. split; [exact report_ok|]. split; [by exists [1; 1; 1; 1; 1; 44; 2]|done].
  - repeat (apply Forall_cons_2; [done|]). by apply Forall_nil_2.
  - reflexivity.
Defined.

(** [one] is measured on both sides but for its last value; [two] has been
    silent for 200 seconds. *)
Definition measuring : Profiler.t :=
  Profiler.with_set (Profiler.start opts 0 WriteOk)
    {[ one := NetProfiler.mkPingResult 0 0 90 255 65535 false;
       two := NetProfiler.mkPingResult 0 255 65535 255 65535 false ]}.

Definition heard : Profiler.t :=
  Profiler.on_remote measuring (one, 300, 2).

Lemma aprofiler_decides_witness :
  ∃ s' ips, Profiler.iterate opts (secs 200) (Some NetProfiler.CONDITION) WriteOk None measuring
      (Profiler.RemoteResponse (Some (one, 300, 2))) = Some s'
    ∧ NoDup ips
    ∧ Profiler.ipset s' = Profiler.ipset measuring ++ ((λ ip, (ip, from_option
        (Profiler.should_bypass opts NetProfiler.CONDITION) false (Profiler.set heard !! ip))) <$> ips)
    ∧ (∀ ip, ip ∈ ips → ∃ pr, Profiler.set heard !! ip = Some pr ∧ NetProfiler.group_key pr = 1
        ∧ Profiler.set s' !! ip = Some (NetProfiler.with_sent pr true))
    ∧ ((∃ ip pr, Profiler.set heard !! ip = Some pr ∧ NetProfiler.group_key pr = 1) → ips ≠ []).
Proof.
  exact (Profiler.aprofiler_decides opts (secs 200) NetProfiler.CONDITION WriteOk None measuring
    (Profiler.RemoteResponse (Some (one, 300, 2))) heard eq_refl eq_refl).
Defined.

Lemma retry_is_passed_over_witness :
  two ∈ Profiler.receiver (default heard (Profiler.decide_all opts (secs 200) NetProfiler.CONDITION heard))
  ∧ Profiler.iterate opts (secs 300) (Some NetProfiler.CONDITION) WriteOk None
      (default heard (Profiler.decide_all opts (secs 200) NetProfiler.CONDITION heard))
      (Profiler.Request (Some two))
    = Some (default heard (Profiler.decide_all opts (secs 200) NetProfiler.CONDITION heard)).
Proof.
  apply (Profiler.retry_is_passed_over opts (secs 200) NetProfiler.CONDITION heard _ two (secs 300) WriteOk None);
    [|done| |].
  - destruct (Profiler.decide_all opts (secs 200) NetProfiler.CONDITION heard) eqn:Hd; [done|].
    exfalso. revert Hd. by vm_compute.
  - apply (bool_decide_unpack _). by vm_compute.
  - vm_compute. split; [discriminate|reflexivity].
Defined.

Lemma requests_accumulate_witness :
  ∃ s', Profiler.iterate_requests opts 0 None (Profiler.start opts 0 WriteOk) [one; two] = Some s'
    ∧ Profiler.routine s' = [one; two]
    ∧ Profiler.streams s' =
        [Profiler.request opts ++ [IPV4; 1; 1; 1; 1; IPV4; 1; 1; 1; 1; IPV4; 2; 2; 2; 2]].
Proof.
  apply (Profiler.requests_accumulate opts 0 None (Profiler.start opts 0 WriteOk) [one; two]
    (Profiler.request opts) []); try done.
  apply (bool_decide_unpack _). by vm_compute.
Defined.

Definition closing : Profiler.t :=
  Profiler.with_remote (Profiler.start opts 0 WriteOk) [RemoteResponse.closed] false.

Lemma failed_reconnect_panics_witness :
  Profiler.select closing (Profiler.RemoteResponse (Some RemoteResponse.closed))
    (Profiler.with_remote closing [] false)
  ∧ Profiler.reconnect (Profiler.on_remote (Profiler.with_remote closing [] false) RemoteResponse.closed) = true
  ∧ Profiler.select (Profiler.on_remote (Profiler.with_remote closing [] false) RemoteResponse.closed)
      (Profiler.RemoteResponse None)
      (Profiler.on_remote (Profiler.with_remote closing [] false) RemoteResponse.closed)
  ∧ Profiler.iterate opts 0 None WriteOk None
      (Profiler.on_remote (Profiler.with_remote closing [] false) RemoteResponse.closed)
      (Profiler.RemoteResponse None) = None.
Proof.
  exact (Profiler.failed_reconnect_panics opts 0 None WriteOk closing _ eq_refl eq_refl eq_refl).
Defined.
End AProfilerWitness.
