(* ===== verification/AProxy.v ===== *)
(** * The asynchronous proxy: TCP
    ([src/src/aproxy/mod.rs], [src/src/aproxy/tcp.rs])

    A redirected client is relayed over a connection of its own to the server.
    While it is served its destination is kept in the session set of addresses
    that do not bypass the proxy.  [EndToEnd] composes the proxy with the
    asynchronous server. *)

From Stdlib Require Import ZArith Lia.
From stdpp Require Import base option list.
From S2P Require Import Prelude Net Config Proto Env AsyncIo ServerConn AServer.

Open Scope Z_scope.
Open Scope rust_scope.

Module AProxy.

(** ** Connecting to the server *)

(** The part of [ProxyData] that [init_tls_conn] changes: the server's addresses
    and those added to the bypass session. *)
Record ProxyData : Type := mkProxyData {
  server_ips : list IpAddr;
  bypass_session : list IpAddr
}.

Definition note_server (data : ProxyData) (ip : IpAddr) : ProxyData :=
  if decide (ip ∈ server_ips data) then data
  else mkProxyData (server_ips data ++ [ip]) (bypass_session data ++ [ip]).

(** [init_tls_conn]: [ips] is what the server's name resolves to, if it does;
    [connected] whether the connection and its handshake succeed. *)
Definition init_tls_conn (ips : option (list SocketAddr)) (connected : bool) (data : ProxyData)
  : bool * ProxyData :=
  match ips with
  | Some ips => (connected, foldl (λ data a, note_server data (sa_ip a)) data ips)
  | None => (false, data)
  end.

(** ** The session set *)

Section Session.
Context (OPTIONS : Opts).

(** One iteration of the loop of [wait_until_stop]: the counter after it and
    whether the address is added, with which expiry in seconds. *)
Definition tick (counter : Z) : Z * option Z :=
  let timeout := ipset_timeout (proxy_args OPTIONS) in
  let counter := wrap 64 (counter + 1) in
  (counter, if counter mod timeout =? 1 then Some (wrap 32 (wrap 32 timeout + 5)) else None).

Fixpoint ticks (n : nat) (counter : Z) : list (option Z) :=
  match n with
  | O => []
  | S n => let '(counter, add) := tick counter in add :: ticks n counter
  end.

(** [wait_until_stop] over [n] ticks, one a second: what each tick adds.
    [skip_dns] is the address exempt from the session. *)
Definition wait_until_stop (skip_dns : option IpAddr) (ip : IpAddr) (n : nat) : list (option Z) :=
  if (ipset_timeout (proxy_args OPTIONS) =? 0) || bool_decide (skip_dns = Some ip) then []
  else ticks n 0.

(** At second [t] the address is in the set: it was added at a second [a] and
    has not expired. *)
Definition in_session (adds : list (option Z)) (t : nat) : Prop :=
  ∃ (a : nat) d, adds !! a = Some (Some d) ∧ (a <= t)%nat ∧ Z.of_nat t < Z.of_nat a + d.

Lemma ticks_lookup n (c i : nat) :
  Z.of_nat (c + n) < 2 ^ 64 → (i < n)%nat →
  ticks n (Z.of_nat c) !! i = Some (tick (Z.of_nat (c + i))).2.
Proof.
  revert c i. induction n as [|n IH]; intros c i Hc Hi; [lia|]. cbn [ticks].
  unfold tick at 1. rewrite wrap_small by lia. destruct i as [|i].
  - cbn [lookup list_lookup]. unfold tick. rewrite Nat.add_0_r, (wrap_small 64) by lia. done.
  - cbn [lookup list_lookup]. replace (Z.of_nat c + 1) with (Z.of_nat (S c)) by lia.
    fold (lookup (M := list (option Z)) i). rewrite <-Nat.add_succ_comm. apply IH; lia.
Qed.

(** While a connection is served its destination stays in the session set:
    the entry is added at the first second and again before it expires; this
    fails for a timeout of one second, with which nothing is ever added. *)
Theorem session_is_kept skip_dns ip n t :
  let timeout := ipset_timeout (proxy_args OPTIONS) in
  0 < timeout < 2 ^ 32 - 5 → skip_dns ≠ Some ip → (t < n)%nat → Z.of_nat n < 2 ^ 64 →
  if timeout =? 1 then Forall (λ add, add = None) (wait_until_stop skip_dns ip n)
  else in_session (wait_until_stop skip_dns ip n) t.
Proof.
  intros timeout Ht Hs Hn Hn64. unfold wait_until_stop. fold timeout.
  rewrite (proj2 (Z.eqb_neq timeout 0)), bool_decide_eq_false_2 by (done || lia). cbn [orb].
  pose proof (λ i, ticks_lookup n 0 i) as Hl. cbn [Z.of_nat Nat.add] in Hl.
  assert (∀ i, (i < n)%nat → ticks n 0 !! i = Some (if Z.of_nat (S i) mod timeout =? 1 then Some (timeout + 5) else None)) as Hk.
  { intros i Hi. rewrite Hl by lia. unfold tick. fold timeout. cbn [snd].
    rewrite (wrap_small 64), (wrap_small 32 timeout), (wrap_small 32) by lia.
    by replace (Z.of_nat i + 1) with (Z.of_nat (S i)) by lia. }
  destruct (Z.eqb_spec timeout 1) as [H1|H1].
  - apply Forall_lookup_2. intros i add Hi. assert (i < n)%nat as Hin.
    { apply lookup_lt_Some in Hi. clear -Hi. assert (∀ n c, length (ticks n c) = n) as Hlen; [|by rewrite Hlen in Hi].
      clear. induction n as [|n IH]; intros c; [done|]. cbn [ticks]. unfold tick. cbn [length]. by rewrite IH. }
    rewrite Hk, H1, Z.mod_1_r in Hi by done. by injection Hi as <-.
  - set (a := (t - t mod Z.to_nat timeout)%nat). pose proof (Nat.mod_upper_bound t (Z.to_nat timeout)) as Hm.
    pose proof (Nat.mod_le t (Z.to_nat timeout)) as Hle.
    exists a, (timeout + 5). split; [|lia]. rewrite Hk by lia.
    assert (Z.of_nat (S a) mod timeout = 1) as ->; [|done].
    assert (Z.of_nat a = timeout * (Z.of_nat t / timeout)) as Ha.
    { subst a. rewrite Nat2Z.inj_sub, Nat2Z.inj_mod, Z2Nat.id by lia.
      pose proof (Z.div_mod (Z.of_nat t) timeout). lia. }
    rewrite Nat2Z.inj_succ, Ha, <-Z.add_1_l, Z.mul_comm, Z_mod_plus_full. apply Z.mod_small. lia.
Qed.
End Session.

(** ** The relay *)

(** What a client's task does once the connection to the server is made: [first]
    is the outcome of writing the request, [up] and [down] what the two copy
    loops await.  The result is what the server and the client have been
    written, and whether the relay was started. *)
Definition start_tcp_proxy (OPTIONS : Opts) (dst_addr : SocketAddr) (first : write_outcome)
    (up down : list (read_outcome * write_outcome)) : bytes * bytes * bool :=
  let request := TrojanRequest.generate OPTIONS CONNECT dst_addr in
  if write_is_ok first then ((copy up request).1, (copy down []).1, true)
  else (written first request, [], false).

(** [run_tcp]: an accepted client, with the address it was redirected from, if
    that is known; the first component is what the profiler is told. *)
Definition accept (bypass : bool) (dst : option SocketAddr) : option (list IpAddr * SocketAddr) :=
  dst ← dst; Some (if bypass then [sa_ip dst] else [], dst).

(** What was read from one side. *)
Definition data_of (io : list (read_outcome * write_outcome)) : bytes := mjoin ((λ e, read_data e.1) <$> io).

End AProxy.

(** ** Proxy and server together *)

Module EndToEnd.
Section EndToEnd.
Context (P S : Opts) `{!OptsOk P} `{!OptsOk S} {H : HttpParse}.
Context (lookup_host : bytes → Z → option (list SocketAddr)).
(** Both sides are configured with one password. *)
Context (same_pass : get_pass P = get_pass S).

Lemma generate_same cmd a : TrojanRequest.generate P cmd a = TrojanRequest.generate S cmd a.
Proof. unfold TrojanRequest.generate. by rewrite same_pass. Qed.

(** What the target is sent when the server serves a client: the relay of its
    buffer and of the reads that are left, with the outcomes of the writes. *)
Definition target_gets (b : bytes) (first : write_outcome) (io : list read_outcome)
    (writes : list write_outcome) : bytes := (AServer.relay b first (zip io writes)).1.

Lemma target_prefix b first rest writes :
  target_gets b first (AServer.reads rest) writes `prefix_of` b ++ mjoin rest.
Proof.
  unfold target_gets. destruct (AServer.relay_prefix b first (zip (AServer.reads rest) writes))
    as (more & Hr & _).
  trans (b ++ mjoin ((λ e, read_data e.1) <$> zip (AServer.reads rest) writes)).
  { rewrite <-Hr. by exists more. }
  apply prefix_app. clear. revert writes. induction rest as [|c rest IH]; intros [|w writes];
    try apply prefix_nil. apply prefix_app, IH.
Qed.

(** A relay has written the request and then [data]. *)
Lemma relayed_data_reaches_target dst data chunks src :
  wf_sa dst → back_addr S ≠ Some dst → Forall (λ c, c ≠ []) chunks →
  mjoin chunks = TrojanRequest.generate P CONNECT dst ++ data →
  match AServer.handshake_loop S lookup_host [] (AServer.reads chunks) with
  | Some (AServer.Serve cmd a b, io) =>
      cmd = CONNECT ∧ a = dst
      ∧ ∀ t b' io' first writes, AServer.start_tcp S a b src io = Some (AServer.Connects t b', io') →
          t = dst ∧ target_gets b' first io' writes `prefix_of` data
          ∧ (first = WriteOk → writes = replicate (length io') WriteOk →
             TrojanRequest.generate P CONNECT dst ++ target_gets b' first io' writes = mjoin chunks)
  | Some _ => False
  | None => ∃ got rest, chunks = got ++ rest
      ∧ (length (mjoin got) < length (TrojanRequest.generate P CONNECT dst) <= length (mjoin got) + 2)%nat
  end.
Proof.
  intros Hd Hb Hne Hdata. rewrite generate_same in *.
  destruct (AServer.handshake_serves S lookup_host CONNECT dst data chunks)
    as [(b & rest & -> & Hrest & Hsuf)|[-> Hp]];
    [by left|done..| |exact Hp].
  split_and!; [done..|]. intros t b' io' first writes Hs.
  unfold AServer.start_tcp in Hs. destruct (back_addr S) as [back|]; [|done]. cbn [mbind option_bind] in Hs.
  rewrite decide_False in Hs by congruence.
  destruct (negb _ && _); [done|]. injection Hs as <- <- <-. split; [done|].
  split; [etrans; [apply target_prefix|]; by rewrite Hrest|].
  intros -> ->. rewrite Hdata. f_equal. rewrite <-Hrest. unfold target_gets, AServer.relay. cbn [write_is_ok].
  unfold AServer.reads. rewrite length_fmap, copy_all; [done|].
  destruct Hsuf as [got ->]. by apply Forall_app in Hne as [_ ?].
Qed.

(** C2: end to end: when the proxy relays a client that was going to [dst] and
    the server reads what the proxy wrote in pieces of any size, then, unless
    the server panics inside the request's last bytes, it serves CONNECT for
    [dst]; and if it connects, it connects to [dst] and what [dst] is sent is a
    prefix of what the client sent - all of what the server has read when its
    writes succeed. *)
Theorem proxied_client_reaches_target dst up down chunks src :
  wf_sa dst → back_addr S ≠ Some dst → Forall (λ c, c ≠ []) chunks →
  mjoin chunks = (AProxy.start_tcp_proxy P dst WriteOk up down).1.1 →
  match AServer.handshake_loop S lookup_host [] (AServer.reads chunks) with
  | Some (AServer.Serve cmd a b, io) =>
      cmd = CONNECT ∧ a = dst
      ∧ ∀ t b' io' first writes, AServer.start_tcp S a b src io = Some (AServer.Connects t b', io') →
          t = dst ∧ target_gets b' first io' writes `prefix_of` AProxy.data_of up
          ∧ (first = WriteOk → writes = replicate (length io') WriteOk →
             TrojanRequest.generate P CONNECT dst ++ target_gets b' first io' writes = mjoin chunks)
  | Some _ => False
  | None => ∃ got rest, chunks = got ++ rest
      ∧ (length (mjoin got) < length (TrojanRequest.generate P CONNECT dst) <= length (mjoin got) + 2)%nat
  end.
Proof.
  intros Hd Hb Hne Heq. unfold AProxy.start_tcp_proxy in Heq. cbn [write_is_ok fst] in Heq.
  destruct (copy_extends up (TrojanRequest.generate P CONNECT dst)) as (data & Hdata & Hpre). rewrite Hdata in Heq.
  pose proof (relayed_data_reaches_target dst data chunks src Hd Hb Hne Heq) as H'.
  destruct (AServer.handshake_loop _ _ _ _) as [[[] io]|]; try done.
  destruct H' as (-> & -> & H'). split_and!; [done..|]. intros t b' io' first writes Hs.
  destruct (H' t b' io' first writes Hs) as (-> & Hp & Hall). split_and!; [done| |done].
  by trans data.
Qed.
End EndToEnd.
End EndToEnd.

Module AProxyWitness.
Import Witness.
#[local] Existing Instance AServerWitness.http.

Definition dst : SocketAddr := mkSocketAddr (V4 [1; 2; 3; 4]) 443.

Lemma dst_ok : wf_sa dst.
Proof. apply (bool_decide_unpack _). by vm_compute. Qed.

(** Options with an entry kept for 60 seconds. *)
Definition session_opts : Opts :=
  mkOpts sargs (mkProxyArgs [] 443 1 true 3600 [] [] 70 false 60 []) [112] 60 600 [97; 98] 2
    None None (secs 60) (secs 600).

Lemma session_is_kept_witness :
  AProxy.in_session (AProxy.wait_until_stop session_opts None (sa_ip dst) 200) 130.
Proof. apply (AProxy.session_is_kept session_opts None (sa_ip dst) 200 130); simpl; [lia|done|lia|lia]. Defined.

(** The client sends two pieces. *)
Definition up : list (read_outcome * write_outcome) :=
  [(ReadBytes [1; 2], WriteOk); (ReadBytes [3], WriteOk)].
Definition stream : bytes := TrojanRequest.generate opts CONNECT dst ++ [1; 2; 3].

Lemma proxied_client_reaches_target_witness :
  match AServer.handshake_loop opts AServerWitness.lookup [] (AServer.reads [take 9 stream; drop 9 stream]) with
  | Some (AServer.Serve cmd a b, io) =>
      cmd = CONNECT ∧ a = dst
      ∧ ∀ t b' io' first writes, AServer.start_tcp opts a b a4 io = Some (AServer.Connects t b', io') →
          t = dst ∧ EndToEnd.target_gets b' first io' writes `prefix_of` AProxy.data_of up
          ∧ (first = WriteOk → writes = replicate (length io') WriteOk →
             TrojanRequest.generate opts CONNECT dst ++ EndToEnd.target_gets b' first io' writes
             = mjoin [take 9 stream; drop 9 stream])
  | Some _ => False
  | None => ∃ got rest, [take 9 stream; drop 9 stream] = got ++ rest
      ∧ (length (mjoin got) < length (TrojanRequest.generate opts CONNECT dst) <= length (mjoin got) + 2)%nat
  end.
Proof.
  apply (EndToEnd.proxied_client_reaches_target opts opts AServerWitness.lookup eq_refl dst up []).
  - exact dst_ok.
  - done.
  - apply (bool_decide_unpack _). by vm_compute.
  - by vm_compute.
Defined.
End AProxyWitness.
