(* ===== verification/AProxyUdp.v ===== *)
(** * The asynchronous proxy: UDP ([src/src/aproxy/udp.rs])

    The listener's task hands each datagram to the task of its client, which
    forwards it over a connection of its own to the server; a third task returns
    the server's answers.  A task that ends says so through a channel, and the
    listener then forgets the client.  The tasks with their channels are one
    state, and their interleavings a step relation.  Channels are unbounded: that
    a full one blocks the listener is not modelled. *)

From Stdlib Require Import ZArith Lia.
From stdpp Require Import base option list gmap relations.
From S2P Require Import Prelude Framing Net Config Proto Env AsyncIo.
From S2P Require Import Backend UdpBackend AServer AServerUdp.

Open Scope Z_scope.
Open Scope rust_scope.

Module AProxyUdp.
Section AProxyUdp.
Context (OPTIONS : Opts).

(** A datagram with its destination. *)
Abbreviation datagram := (bytes * SocketAddr)%type.

(** [local_to_remote]: connecting, in its loop, or returned. *)
Inductive writer : Type := Starting | Forwarding | Ended.

(** [remote_to_local]: not spawned yet, in its loop with a buffer, returned, or
    ended by a panic. *)
Inductive reader : Type := NotSpawned | Reading (buffer : bytes) | Returned | Panicked.

(** The tasks of a client.  [socket] is the address of the socket that answers,
    [queue] the channel of datagrams, [out] what the server has been sent,
    [answers] what the client has been sent; [routed] are all the datagrams that
    were put in the channel. *)
Record task : Type := mkTask {
  src_addr : SocketAddr;
  socket : SocketAddr;
  queue : list datagram;
  writer_of : writer;
  reader_of : reader;
  out : bytes;
  answers : list bytes;
  routed : list datagram
}.

Record t : Type := mk {
  remotes : gmap SocketAddr nat;
  locals : list SocketAddr;
  (** the channel of the clients whose tasks have ended *)
  ended : list SocketAddr;
  tasks : list task
}.

Definition start : t := mk ∅ [] [] [].

Definition empty : SocketAddr := mkSocketAddr (V4 [0; 0; 0; 0]) 0.
Definition request : bytes := TrojanRequest.generate OPTIONS UDP_ASSOCIATE empty.

Definition with_queue (k : task) (q : list datagram) (r : list datagram) : task :=
  mkTask (src_addr k) (socket k) q (writer_of k) (reader_of k) (out k) (answers k) r.
Definition with_writer (k : task) (q : list datagram) (w : writer) (o : bytes) : task :=
  mkTask (src_addr k) (socket k) q w (reader_of k) o (answers k) (routed k).
Definition with_reader (k : task) (r : reader) (a : list bytes) : task :=
  mkTask (src_addr k) (socket k) (queue k) (writer_of k) r (out k) a (routed k).

(** Whether a task still holds its socket ([Arc::strong_count] above one). *)
Definition holds (k : task) : bool :=
  match writer_of k, reader_of k with
  | Starting, _ | _, Reading _ => true
  | _, _ => false
  end.

(** ** The listener *)

(** The task of a client, spawned if there is none. *)
Definition task_for (s : t) (src dst : SocketAddr) : nat * t :=
  match remotes s !! src with
  | Some i => (i, s)
  | None =>
      let i := length (tasks s) in
      (i, mk (<[src := i]> (remotes s)) (if decide (dst ∈ locals s) then locals s else locals s ++ [dst])
            (ended s) (tasks s ++ [mkTask src dst [] Starting NotSpawned [] [] []]))
  end.

(** [remote.send]: nothing happens when the receiver has been closed. *)
Definition send (s : t) (i : nat) (d : datagram) : t :=
  match tasks s !! i with
  | Some k =>
      match writer_of k with
      | Ended => s
      | _ => mk (remotes s) (locals s) (ended s)
               (<[i := with_queue k (queue k ++ [d]) (routed k ++ [d])]> (tasks s))
      end
  | None => s
  end.

(** The sockets no task holds are dropped.  [last_check] is never updated, so
    after an hour this happens with every datagram. *)
Definition expire (s : t) : t :=
  mk (remotes s) (filter (λ a, Exists (λ k, holds k = true ∧ socket k = a) (tasks s)) (locals s))
    (ended s) (tasks s).

(** [SelectResult::Listener]: a datagram of [src] to [dst]; [since_start] is the
    time since the listener started. *)
Definition on_datagram (since_start : Z) (s : t) (data : bytes) (src dst : SocketAddr) : t :=
  let '(i, s) := task_for s src dst in
  let s := send s i (data, dst) in
  if 3600 <? as_secs since_start then expire s else s.

(** [SelectResult::Receiver]. *)
Definition on_ended (s : t) (src : SocketAddr) (rest : list SocketAddr) : t :=
  mk (delete src (remotes s)) (locals s) rest (tasks s).

(** ** A client's tasks *)

(** The connection to the server has failed, or its handshake has ([w] is its
    outcome then). *)
Definition fail_start (k : task) (w : option write_outcome) : task :=
  with_writer k [] Ended (match w with Some w => written w request | None => [] end).

(** The handshake has been written: the reader is spawned. *)
Definition finish_start (k : task) : task :=
  with_reader (with_writer k (queue k) Forwarding request) (Reading []) (answers k).

(** An iteration of [local_to_remote] on a datagram, with the outcomes of its two
    writes. *)
Definition forward (k : task) (d : datagram) (rest : list datagram) (header body : write_outcome) : task :=
  let head := UdpAssociate.generate d.2 (wrap 16 (Z.of_nat (length d.1))) in
  let o := out k ++ written header head in
  if write_is_ok header then
    let o := o ++ written body d.1 in
    if write_is_ok body then with_writer k rest Forwarding o else with_writer k [] Ended o
  else with_writer k [] Ended o.

(** How the inner loop of [remote_to_local] ends: it waits for more, it ends the
    task, or the parser panics. *)
Inductive received : Type := More (buffer : bytes) | Invalid | ParserPanic.

(** The inner loop: the payloads it has sent and how it ends. *)
Fixpoint receive (fuel : nat) (buffer : bytes) : option (list bytes * received) :=
  match fuel with
  | O => None
  | S fuel =>
      match UdpAssociate.parse buffer with
      | Some UdpAssociate.Continued => Some ([], More buffer)
      | Some (UdpAssociate.Packet packet) =>
          payload ← (UdpAssociate.payload packet).[upto UdpAssociate.length_ packet];
          rest ← buffer.[from UdpAssociate.offset packet];
          '(payloads, r) ← receive fuel rest;
          Some (payload :: payloads, r)
      | Some UdpAssociate.InvalidProtocol => Some ([], Invalid)
      | None => Some ([], ParserPanic)
      end
  end.

(** The reader's task after a read, with what it has sent, and whether it
    reports its end.  The fuel is enough ([receive_total]). *)
Definition on_read (k : task) (buffer : bytes) (r : read_outcome) : option (task * bool) :=
  match r with
  | ReadBytes ((_ :: _) as data) =>
      '(payloads, r) ← receive (S (length (buffer ++ data))) (buffer ++ data);
      Some (match r with
            | More rest => (with_reader k (Reading rest) (answers k ++ payloads), false)
            | Invalid => (with_reader k Returned (answers k ++ payloads), true)
            | ParserPanic => (with_reader k Panicked (answers k ++ payloads), false)
            end)
  | _ => Some (with_reader k Returned (answers k), true)
  end.

Definition set_task (s : t) (i : nat) (k : task) (notice : list SocketAddr) : t :=
  mk (remotes s) (locals s) (ended s ++ notice) (<[i := k]> (tasks s)).

(** One step of one task. *)
Inductive step : t → t → Prop :=
  | step_datagram now data src dst s :
      (length data <= 1500)%nat → wf_sa dst → step s (on_datagram now s data src dst)
  | step_ended src rest s : ended s = src :: rest → step s (on_ended s src rest)
  | step_fail i k w s :
      tasks s !! i = Some k → writer_of k = Starting →
      (∀ o, w = Some o → write_is_ok o = false) →
      step s (set_task s i (fail_start k w) [src_addr k])
  | step_start i k s :
      tasks s !! i = Some k → writer_of k = Starting → step s (set_task s i (finish_start k) [])
  | step_forward i k d rest header body s :
      tasks s !! i = Some k → writer_of k = Forwarding → queue k = d :: rest →
      step s (set_task s i (forward k d rest header body) [])
  | step_closed i k s :
      tasks s !! i = Some k → writer_of k = Forwarding → queue k = [] →
      remotes s !! src_addr k ≠ Some i →
      step s (set_task s i (with_writer k [] Ended (out k)) [])
  | step_read i k buffer r k' report s :
      tasks s !! i = Some k → reader_of k = Reading buffer → on_read k buffer r = Some (k', report) →
      step s (set_task s i k' (if (report : bool) then [src_addr k] else [])).

Abbreviation reachable := (rtc step start).

Lemma receive_total fuel buffer : (length buffer < fuel)%nat → is_Some (receive fuel buffer).
Proof.
  revert buffer. induction fuel as [|fuel IH]; intros buffer Hf; [lia|]. cbn [receive].
  destruct (UdpAssociate.parse buffer) as [[p| |]|] eqn:Hp; try by eexists.
  pose proof (UdpProps.packet_bounds _ _ Hp) as (_ & [H1 H2] & H3 & _).
  destruct (UdpProps.parse_bounds _ _ Hp) as [H4 _].
  rewrite slice_to_le, slice_from_le by lia. cbn [mbind option_bind].
  destruct (IH (drop (UdpAssociate.offset p) buffer)) as [[ps r] ->]; [rewrite length_drop; lia|].
  by eexists.
Qed.

(** ** One live connection per client *)

(** The task has not reported its end yet. *)
Abbreviation alive := holds.

Record consistent (s : t) : Prop := {
  (** a task that is alive is the one its client's entry leads to *)
  co_alive i k : tasks s !! i = Some k → alive k = true → remotes s !! src_addr k = Some i;
  (** an entry leads to a task of its client, which is alive, has reported its
      end, or has panicked *)
  co_entry src i : remotes s !! src = Some i → ∃ k, tasks s !! i = Some k ∧ src_addr k = src
      ∧ (alive k = true ∨ src ∈ ended s ∨ reader_of k = Panicked);
  (** a report that is on its way is the only one of its client, and the entry
      it will remove is that of a task that has ended *)
  co_ended : NoDup (ended s);
  co_report src : src ∈ ended s → ∃ i k, remotes s !! src = Some i ∧ tasks s !! i = Some k ∧ alive k = false;
  (** a socket in use is known to the listener *)
  co_socket i k : tasks s !! i = Some k → alive k = true → socket k ∈ locals s;
  co_locals : NoDup (locals s);
  (** reading goes with forwarding or having ended *)
  co_stage i k : tasks s !! i = Some k → writer_of k = Starting → reader_of k = NotSpawned;
  co_waiting i k : tasks s !! i = Some k → writer_of k = Forwarding → reader_of k ≠ NotSpawned
}.

Lemma consistent_start : consistent start.
Proof.
  split; unfold start; cbn -[lookup]; try done; try constructor; by intros src ?%elem_of_nil.
Qed.

(** A task moves on, perhaps to its end. *)
Definition moves (k k' : task) (notice : list SocketAddr) : Prop :=
  src_addr k' = src_addr k ∧ socket k' = socket k
  ∧ (writer_of k' = Starting → reader_of k' = NotSpawned)
  ∧ (writer_of k' = Forwarding → reader_of k' ≠ NotSpawned)
  ∧ ((alive k' = alive k ∧ notice = [] ∧ (reader_of k = Panicked → reader_of k' = Panicked))
     ∨ (alive k = true ∧ alive k' = false
        ∧ (notice = [src_addr k] ∨ notice = [] ∧ reader_of k' = Panicked))).

Lemma consistent_set s i k k' notice :
  consistent s → tasks s !! i = Some k → moves k k' notice → consistent (set_task s i k' notice).
Proof.
  intros [H1 H2 H3 H4 H5 H6 H7 H8] Hi (Hsrc & Hsock & Hst & Hfw & Hk).
  assert (i < length (tasks s))%nat as Hlt by (by eapply lookup_lt_Some).
  assert (alive k' = true → alive k = true) as Hal.
  { destruct Hk as [(-> & _)|(_ & -> & _)]; done. }
  assert (alive k = true → src_addr k ∉ ended s) as Hnew.
  { intros Ha Hin. destruct (H4 _ Hin) as (j & kj & Hj & Hkj & Hd).
    rewrite (H1 i k Hi Ha) in Hj. injection Hj as <-. congruence. }
  split; simpl; try done.
  - intros j kj [(<- & -> & _)|[Hn Hj]]%list_lookup_insert_Some Ha; [rewrite Hsrc; by apply H1, Hal|by apply H1].
  - intros src j Hj. destruct (H2 _ _ Hj) as (kj & Hkj & Hs & Hor). destruct (decide (i = j)) as [<-|Hn].
    + rewrite list_lookup_insert_eq by done. exists k'. split; [done|]. rewrite Hi in Hkj. injection Hkj as <-.
      split; [congruence|]. rewrite elem_of_app.
      destruct Hk as [(-> & -> & Hp)|(Ha & Ha' & [-> |[-> Hp]])].
      * destruct Hor as [?|[?|?]]; auto.
      * subst src. right. left. right. apply list_elem_of_here.
      * auto.
    + rewrite list_lookup_insert_ne by done. exists kj. rewrite elem_of_app. naive_solver.
  - destruct Hk as [(_ & -> & _)|(Ha & _ & [-> |[-> _]])]; rewrite ?app_nil_r; try done.
    apply NoDup_app. split; [done|]. split; [|apply NoDup_singleton].
    intros x Hx ->%list_elem_of_singleton. by apply Hnew.
  - assert (∀ src, src ∈ ended s → ∃ j kj, remotes s !! src = Some j ∧ <[i:=k']> (tasks s) !! j = Some kj
      ∧ alive kj = false) as Hold.
    { intros src (j & kj & Hj & Hkj & Hd)%H4. exists j. destruct (decide (i = j)) as [<-|Hn].
      - exists k'. rewrite list_lookup_insert_eq by done. split_and!; [done..|].
        rewrite Hi in Hkj. injection Hkj as <-. destruct (alive k') eqn:Ha'; [|done].
        rewrite Hal in Hd by done. done.
      - exists kj. by rewrite list_lookup_insert_ne. }
    intros src [Hin|Hin]%elem_of_app; [by apply Hold|].
    destruct Hk as [(_ & -> & _)|(Ha & Ha' & [-> |[-> _]])]; try by apply elem_of_nil in Hin.
    apply list_elem_of_singleton in Hin as ->. exists i, k'. rewrite list_lookup_insert_eq by done. auto.
  - intros j kj [(<- & -> & _)|[Hn Hj]]%list_lookup_insert_Some Ha; [rewrite Hsock; apply (H5 i k); auto|by apply (H5 j kj)].
  - intros j kj [(<- & -> & _)|[Hn Hj]]%list_lookup_insert_Some; [done|by apply (H7 j kj)].
  - intros j kj [(<- & -> & _)|[Hn Hj]]%list_lookup_insert_Some; [done|by apply (H8 j kj)].
Qed.

Lemma consistent_send s i d : consistent s → consistent (send s i d).
Proof.
  intros Hc. unfold send. destruct (tasks s !! i) as [k|] eqn:Hi; [|done].
  assert (consistent (set_task s i (with_queue k (queue k ++ [d]) (routed k ++ [d])) [])) as Hs.
  { apply (consistent_set s i k); [done..|]. split_and!; simpl; [done|done|by eapply co_stage|by eapply co_waiting|].
    left. by split_and!. }
  unfold set_task in Hs. rewrite app_nil_r in Hs. by destruct (writer_of k).
Qed.

Lemma consistent_task_for s src dst : consistent s → consistent (task_for s src dst).2.
Proof.
  intros Hc. unfold task_for. destruct (remotes s !! src) as [i|] eqn:Hr; [done|].
  destruct Hc as [H1 H2 H3 H4 H5 H6 H7 H8].
  set (k := mkTask src dst [] Starting NotSpawned [] [] []).
  assert (∀ j kj, (tasks s ++ [k]) !! j = Some kj →
    (tasks s !! j = Some kj ∧ j ≠ length (tasks s)) ∨ (j = length (tasks s) ∧ kj = k)) as Hl.
  { intros j kj [Hj|[Hj Hk]]%lookup_app_Some.
    - left. split; [done|]. apply lookup_lt_Some in Hj. lia.
    - right. apply list_lookup_singleton_Some in Hk as [? ->]. split; [lia|done]. }
  assert (∀ j kj, tasks s !! j = Some kj → alive kj = true → src_addr kj ≠ src) as Hne.
  { intros j kj Hj Ha <-. rewrite (H1 j kj Hj Ha) in Hr. done. }
  split; simpl; try done.
  - intros j kj [[Hj _]|[-> ->]]%Hl Ha; [|apply lookup_insert_eq].
    rewrite lookup_insert_ne by (intros Heq; by apply (Hne j kj)). by apply H1.
  - intros src' j [[<- <-]|[Hn Hj]]%lookup_insert_Some.
    + exists k. rewrite lookup_app_r, Nat.sub_diag by lia. by split_and!; [..|left].
    + destruct (H2 _ _ Hj) as (kj & Hkj & ?). exists kj. split; [by apply lookup_app_l_Some|done].
  - intros src' (j & kj & Hj & Hkj & Hd)%H4. exists j, kj.
    rewrite lookup_insert_ne by congruence. split_and!; [done| |done]. by apply lookup_app_l_Some.
  - intros j kj [[Hj _]|[-> ->]]%Hl Ha.
    + pose proof (H5 j kj Hj Ha). destruct (decide (dst ∈ locals s)); [done|]. apply elem_of_app. by left.
    + destruct (decide (dst ∈ locals s)); [done|]. apply elem_of_app. right. apply list_elem_of_here.
  - destruct (decide (dst ∈ locals s)) as [|Hn]; [done|]. apply NoDup_app. split; [done|].
    split; [|apply NoDup_singleton]. intros x Hx ->%list_elem_of_singleton. done.
  - intros j kj [[Hj _]|[-> ->]]%Hl; [by eapply H7|done].
  - intros j kj [[Hj _]|[-> ->]]%Hl; [by eapply H8|done].
Qed.

Lemma consistent_expire s : consistent s → consistent (expire s).
Proof.
  intros [H1 H2 H3 H4 H5 H6 H7 H8]. split; simpl; try done; [|by apply NoDup_filter].
  intros i k Hi Ha. apply list_elem_of_filter. split; [|by apply (H5 i k)].
  apply Exists_exists. exists k. split; [by eapply list_elem_of_lookup_2|done].
Qed.

Lemma consistent_ended s src rest :
  ended s = src :: rest → consistent s → consistent (on_ended s src rest).
Proof.
  intros He [H1 H2 H3 H4 H5 H6 H7 H8]. rewrite He in H3, H4. apply NoDup_cons in H3 as [Hn H3].
  split; simpl; try done.
  - intros i k Hi Ha. rewrite lookup_delete_ne; [by apply H1|]. intros ->.
    destruct (H4 (src_addr k)) as (j & kj & Hj & Hkj & Hd); [apply list_elem_of_here|].
    rewrite (H1 i k Hi Ha) in Hj. injection Hj as <-. congruence.
  - intros src' i [Hne Hi]%lookup_delete_Some. destruct (H2 _ _ Hi) as (k & Hk & Hs & Hor).
    exists k. rewrite He, elem_of_cons in Hor. naive_solver.
  - intros src' Hin. destruct (H4 src') as (j & kj & Hj & ?); [by apply list_elem_of_further|].
    exists j, kj. rewrite lookup_delete_ne by (by intros ->). done.
Qed.

Lemma holds_reading k buffer : reader_of k = Reading buffer → alive k = true.
Proof. unfold holds. intros ->. by destruct (writer_of k). Qed.

Lemma consistent_step s s' : step s s' → consistent s → consistent s'.
Proof.
  intros Hs Hc. destruct Hs as [now data src dst s _ _|src rest s He|i k w s Hi Hw Ho|i k s Hi Hw
    |i k d rest header body s Hi Hw Hq|i k s Hi Hw Hq Hr|i k buffer r k' report s Hi Hr Hk].
  - unfold on_datagram. pose proof (consistent_task_for s src dst Hc) as Ht.
    destruct (task_for s src dst) as [i s1]. apply consistent_send with (i := i) (d := (data, dst)) in Ht.
    destruct (_ <? _); [by apply consistent_expire|done].
  - by apply consistent_ended.
  - apply (consistent_set s i k); [done..|]. pose proof (co_stage _ Hc i k Hi Hw) as Hn.
    split_and!; try done. right. unfold holds. simpl. rewrite Hw, Hn. auto.
  - apply (consistent_set s i k); [done..|]. split_and!; try done.
    left. unfold holds. simpl. rewrite Hw. split_and!; try done.
    by rewrite (co_stage _ Hc i k Hi Hw).
  - pose proof (co_waiting _ Hc i k Hi Hw) as Hn.
    apply (consistent_set s i k); [done..|]. unfold forward, moves, holds. rewrite Hw.
    destruct header as [|n]; [destruct body as [|n]|]; simpl; split_and!; try done; left;
      rewrite ?Hw; by destruct (reader_of k).
  - pose proof (co_waiting _ Hc i k Hi Hw) as Hn.
    apply (consistent_set s i k); [done..|]. unfold moves, holds. rewrite Hw. simpl. split_and!; try done.
    left. by destruct (reader_of k).
  - pose proof (holds_reading _ _ Hr) as Ha.
    assert (writer_of k ≠ Starting) as Hns.
    { intros Hw. rewrite (co_stage _ Hc i k Hi Hw) in Hr. done. }
    apply (consistent_set s i k); [done..|].
    assert (∀ r' a, src_addr (with_reader k r' a) = src_addr k ∧ socket (with_reader k r' a) = socket k
      ∧ (writer_of (with_reader k r' a) = Starting → reader_of (with_reader k r' a) = NotSpawned)) as Hw
      by done.
    assert (∀ r' a, alive (with_reader k r' a) = match r' with Reading _ => true | _ => false end) as Hal.
    { intros r' a. unfold holds. simpl. by destruct (writer_of k). }
    unfold moves. unfold on_read in Hk. destruct r as [[|x data]| |];
      [injection Hk as <- <-|destruct (receive _ _) as [[ps [b| |]]|]; [injection Hk as <- <-..|done]
      |injection Hk as <- <-|injection Hk as <- <-]; rewrite Hal; (split_and!; [done..|]);
      first [left; by rewrite Hr|right; auto].
Qed.

Lemma reachable_consistent s : reachable s → consistent s.
Proof.
  intros Hr. assert (∀ s0, consistent s0 → rtc step s0 s → consistent s) as H.
  { intros s0 Hc H. induction H; eauto using consistent_step. }
  by apply (H start); [apply consistent_start|].
Qed.

(** C7: however the tasks interleave, a client has at most one live task and
    the listener's entry leads to it; a report that is being processed never
    makes the listener forget a client whose task is alive, even when the client
    has come back in between; and the socket a live task answers from is known
    to the listener, once. *)
Theorem one_live_task_per_client s :
  reachable s →
  (∀ i j ki kj, tasks s !! i = Some ki → tasks s !! j = Some kj → alive ki = true → alive kj = true →
     src_addr ki = src_addr kj → i = j ∧ remotes s !! src_addr ki = Some i)
  ∧ (∀ src rest s', ended s = src :: rest → s' = on_ended s src rest →
     ∀ i k, tasks s' !! i = Some k → alive k = true → remotes s' !! src_addr k = Some i)
  ∧ (∀ i k, tasks s !! i = Some k → alive k = true → socket k ∈ locals s)
  ∧ NoDup (locals s).
Proof.
  intros Hc%reachable_consistent. split_and!.
  - intros i j ki kj Hi Hj Hai Haj Heq. pose proof (co_alive _ Hc i ki Hi Hai) as H1.
    pose proof (co_alive _ Hc j kj Hj Haj) as H2. split; congruence.
  - intros src rest s' He -> i k. apply co_alive. by apply consistent_ended.
  - intros i k. by apply co_socket.
  - by apply co_locals.
Qed.

(** ** What the server is sent *)

Abbreviation encode := (Framing.encode UdpBackend.packet).

(** What the receive buffer can hold; the protocol's limit is lower
    ([MAX_PACKET_SIZE]). *)
Definition received_datagram (d : datagram) : Prop := wf_sa d.2 ∧ (length d.1 <= 1500)%nat.

(** The datagrams that were put in a task's channel are sent in their order,
    after the request; a task that has ended has sent a prefix. *)
Record faithful (k : task) : Prop := {
  fa_stream : match writer_of k with
    | Starting => out k = [] ∧ queue k = routed k
    | Forwarding => ∃ done, routed k = done ++ queue k ∧ out k = request ++ encode done
    | Ended => out k `prefix_of` request ++ encode (routed k)
    end;
  fa_wf : Forall received_datagram (routed k);
  fa_socket : ∃ data r, routed k = (data, socket k) :: r
}.

Lemma written_is_prefix w data : written w data `prefix_of` data.
Proof. destruct (written_prefix w data) as (n & -> & _). apply prefix_take. Qed.

Lemma faithful_forward k d rest header body :
  faithful k → writer_of k = Forwarding → queue k = d :: rest → faithful (forward k d rest header body).
Proof.
  intros [H1 H2 H3] Hw Hq. rewrite Hw, Hq in H1. destruct H1 as (done & Hr & Ho).
  assert (received_datagram d) as [Hd1 Hd2].
  { rewrite Hr in H2. by apply Forall_app in H2 as [_ ?%Forall_inv]. }
  set (head := UdpAssociate.generate d.2 (wrap 16 (Z.of_nat (length d.1)))).
  assert (head ++ d.1 = UdpBackend.packet d) as Hp.
  { unfold head, UdpBackend.packet. rewrite wrap_small; [done|].
    change (2 ^ 16) with 65536. lia. }
  assert (encode (routed k) = encode done ++ (head ++ d.1) ++ encode rest) as He.
  { by rewrite Hp, Hr, encode_app, encode_cons. }
  unfold forward. fold head. destruct header as [|n]; cbn [write_is_ok written].
  - destruct body as [|n]; cbn [write_is_ok written]; (split; [|done|done]); simpl.
    + exists (done ++ [d]). rewrite Hr, <-app_assoc. split; [done|].
      rewrite Ho, encode_app, encode_cons, <-Hp. simpl. by rewrite app_nil_r, <-!app_assoc.
    + rewrite Ho, He, <-!app_assoc. do 3 apply prefix_app. apply prefix_app_r, prefix_take.
  - split; [|done|done]. simpl. rewrite Ho, He, <-!app_assoc. do 2 apply prefix_app.
    apply prefix_app_r, prefix_take.
Qed.

Definition all_faithful (s : t) : Prop := ∀ i k, tasks s !! i = Some k → faithful k.

Lemma faithful_send k d :
  faithful k → received_datagram d → writer_of k ≠ Ended →
  faithful (with_queue k (queue k ++ [d]) (routed k ++ [d])).
Proof.
  intros [H1 H2 (data & r & H3)] Hd Hw. split; simpl.
  - destruct (writer_of k); [by destruct H1 as [-> ->]| |done].
    destruct H1 as (done & -> & ->). exists done. by rewrite app_assoc.
  - apply Forall_app. by rewrite Forall_singleton.
  - exists data, (r ++ [d]). by rewrite H3.
Qed.

Lemma faithful_set s i k notice : all_faithful s → faithful k → all_faithful (set_task s i k notice).
Proof. intros Hs Hk j kj [(<- & <- & _)|[_ Hj]]%list_lookup_insert_Some; [done|by eapply Hs]. Qed.

Lemma faithful_datagram now s data src dst :
  consistent s → all_faithful s → (length data <= 1500)%nat → wf_sa dst →
  all_faithful (on_datagram now s data src dst).
Proof.
  intros Hc Hs Hl Hd. assert (received_datagram (data, dst)) as Hwf by done.
  unfold on_datagram. assert (all_faithful (send (task_for s src dst).2 (task_for s src dst).1 (data, dst))) as Hf.
  { unfold task_for. destruct (remotes s !! src) as [i|] eqn:Hr; unfold send; cbn [fst snd tasks].
    - destruct (tasks s !! i) as [k|] eqn:Hi; [|done].
      assert (writer_of k ≠ Ended → faithful (with_queue k (queue k ++ [(data, dst)]) (routed k ++ [(data, dst)]))).
      { intros. apply faithful_send; [by eapply Hs|done|done]. }
      destruct (writer_of k) eqn:Hw; [..|done];
        (intros j kj [(<- & <- & _)|[_ Hj]]%list_lookup_insert_Some; [auto|by eapply Hs]).
    - rewrite lookup_app_r, Nat.sub_diag by lia. cbn [lookup list_lookup writer_of tasks].
      rewrite insert_app_r_alt, Nat.sub_diag by lia.
      intros j kj [Hj|[_ Hj]]%lookup_app_Some; [by eapply Hs|].
      cbn in Hj. destruct (j - length (tasks s))%nat; [|done]. injection Hj as <-.
      split; simpl; [done|by apply Forall_singleton|by exists data, []]. }
  destruct (task_for s src dst) as [i s1]. cbn [fst snd] in Hf. by destruct (_ <? _).
Qed.

Lemma faithful_step s s' : step s s' → consistent s → all_faithful s → all_faithful s'.
Proof.
  intros Hst Hc Hs. destruct Hst as [now data src dst s Hl Hd|src rest s He|i k w s Hi Hw Ho|i k s Hi Hw
    |i k d rest header body s Hi Hw Hq|i k s Hi Hw Hq Hr|i k buffer r k' report s Hi Hr Hk].
  - by apply faithful_datagram.
  - exact Hs.
  - apply faithful_set; [done|]. destruct (Hs i k Hi) as [H1 H2 H3]. split; simpl; [|done|done].
    destruct w as [w|]; [|apply prefix_nil]. apply prefix_app_r, written_is_prefix.
  - apply faithful_set; [done|]. destruct (Hs i k Hi) as [H1 H2 H3]. rewrite Hw in H1. split; simpl; [|done|done].
    exists []. destruct H1 as [_ ->]. by rewrite app_nil_r.
  - apply faithful_set; [done|]. apply faithful_forward; [by eapply Hs|done|done].
  - apply faithful_set; [done|]. destruct (Hs i k Hi) as [H1 H2 H3]. rewrite Hw, Hq in H1.
    destruct H1 as (done & Hr' & Ho). split; simpl; [|done|done].
    rewrite app_nil_r in Hr'. by rewrite Ho, Hr'.
  - apply faithful_set; [done|]. destruct (Hs i k Hi) as [H1 H2 H3].
    unfold on_read in Hk. destruct r as [[|x data]| |];
      [injection Hk as <- <-|destruct (receive _ _) as [[ps [b| |]]|]; [injection Hk as <- <-..|done]
      |injection Hk as <- <-|injection Hk as <- <-]; by split.
Qed.

Lemma reachable_faithful s : reachable s → all_faithful s.
Proof.
  intros Hr. assert (∀ s0, consistent s0 → all_faithful s0 → rtc step s0 s → all_faithful s) as H.
  { intros s0 Hc Hf H. induction H; eauto using consistent_step, faithful_step. }
  apply (H start); [apply consistent_start|by intros i k|done].
Qed.

(** ** The way back *)

Abbreviation partial := (Framing.partial UdpBackend.packet UdpBackend.wf_datagram).

Lemma receive_ok fuel ds p :
  Forall UdpBackend.wf_datagram ds → partial p → (length (encode ds ++ p) < fuel)%nat →
  receive fuel (encode ds ++ p) = Some (ds.*1, More p).
Proof.
  intros Hds Hp. revert fuel. induction Hds as [|d ds [Ha Hd] Hds IH]; intros fuel Hf;
    (destruct fuel as [|fuel]; [lia|]); cbn [receive].
  - change (encode [] ++ p) with p. by rewrite UdpBackend.parse_partial.
  - rewrite encode_cons, <-app_assoc in *. pose proof (UdpBackend.packet_nonempty d) as Hn.
    unfold UdpBackend.packet in *. rewrite <-app_assoc, UdpProps.udp_parse_generate by done.
    cbn [UdpAssociate.payload UdpAssociate.length_ UdpAssociate.offset].
    rewrite slice_to_app, app_assoc, <-length_app, slice_from_app. cbn [mbind option_bind].
    rewrite IH; [done|]. rewrite !length_app in *. lia.
Qed.

Definition feed (k : task) (data : bytes) : option task :=
  match data with
  | [] => Some k
  | _ =>
      match reader_of k with
      | Reading buffer => '(k, _) ← on_read k buffer (ReadBytes data); Some k
      | _ => None
      end
  end.

(** Whatever the cuts in the server's stream, the client is sent the
    payload of every packet that has fully arrived, once and in order, and
    nothing of an incomplete one; the addresses in the packets are not used:
    all go out of the socket of the client's first destination. *)
Theorem aproxy_answers_reassemble s i k chunks ds p :
  reachable s → tasks s !! i = Some k → reader_of k = Reading [] →
  Forall UdpBackend.wf_datagram ds → partial p → mjoin chunks = encode ds ++ p →
  ∃ k', feed_all feed k chunks = Some k'
    ∧ answers k' = answers k ++ ds.*1
    ∧ reader_of k' = Reading p
    ∧ socket k' = socket k ∧ ∃ data r, routed k = (data, socket k') :: r.
Proof.
  intros Hs Hi Hr Hds Hp Heq.
  destruct (feed_all_ok UdpBackend.packet UdpBackend.wf_datagram feed
    (λ ds p k', answers k' = answers k ++ ds.*1 ∧ reader_of k' = Reading p ∧ socket k' = socket k ∧ partial p)
    UdpBackend.packet_complete)
    with (done := @nil datagram) (p0 := @nil Z) (s := k) (chunks := chunks) (xs := ds) (p := p)
    as (k' & Hk & Ha & Hb & Hsock & _); try done.
  - intros done p0 k1 chunk xs p1 (Ha & Hb & Hsock & Hp0) Hxs Hp1 Hch. unfold feed. destruct chunk as [|x chunk].
    + rewrite app_nil_r in Hch. exists k1. split; [done|]. destruct Hxs as [|x xs Hx Hxs].
      * rewrite app_nil_r. simpl in Hch. by rewrite <-Hch.
      * exfalso. rewrite encode_cons, <-app_assoc in Hch. subst p0. by apply UdpBackend.packet_complete in Hp0.
    + rewrite Hb. unfold on_read. rewrite Hch, receive_ok by (done || lia). cbn [mbind option_bind].
      eexists. split; [done|]. simpl. by rewrite Ha, fmap_app, app_assoc.
  - rewrite app_nil_r. split_and!; try done. by left.
  - by left.
  - exists k'. split_and!; try done. rewrite Hsock. by eapply fa_socket, reachable_faithful.
Qed.
End AProxyUdp.
End AProxyUdp.

(** ** Proxy and server together *)

Module UdpEndToEnd.
Section UdpEndToEnd.
Context (P S : Opts) `{!OptsOk P} `{!OptsOk S}.
Context (lookup : bytes → Z → option (list SocketAddr)).
Context (lookup_host : nat → bytes → Z → option (list SocketAddr)) (send_to : nat → bool).
Context (same_pass : get_pass P = get_pass S) (sends : ∀ k, send_to k = true).

Lemma empty_ok : wf_sa AProxyUdp.empty.
Proof. apply (bool_decide_unpack _). by vm_compute. Qed.

(** C3: end to end: while a client's task forwards, the server that has read
    what the task wrote, in pieces of any size, serves UDP and has sent exactly
    the datagrams the task took from its channel, in the client's order and each
    to its destination - if they fit the protocol's packets and are allowed, and
    unless the server panicked inside the request's last bytes. *)
Theorem proxied_datagrams_reach_targets s i k chunks :
  rtc (AProxyUdp.step P) AProxyUdp.start s → AProxyUdp.tasks s !! i = Some k →
  AProxyUdp.writer_of k = AProxyUdp.Forwarding →
  Forall UdpBackend.wf_datagram (AProxyUdp.routed k) → Forall (Requests.allowed S) (AProxyUdp.routed k) →
  Forall (λ c, c ≠ []) chunks → mjoin chunks = AProxyUdp.out k →
  match AServer.handshake_loop S lookup [] (AServer.reads chunks) with
  | Some (AServer.Serve cmd a b, io) =>
      AServer.service_of cmd = Some AServer.UdpService
      ∧ ∃ done r, AProxyUdp.routed k = done ++ AProxyUdp.queue k
          ∧ (∀ fuel, (length (AProxyUdp.out k) < fuel)%nat →
               Requests.start_udp S lookup_host send_to fuel b io = Some (Some (true, r)))
          ∧ Requests.sent r = done ∧ Requests.buffer r = []
  | Some _ => False
  | None => ∃ got rest, chunks = got ++ rest
      ∧ (length (mjoin got) < length (AProxyUdp.request P) <= length (mjoin got) + 2)%nat
  end.
Proof.
  intros Hr Hi Hw Hwf Hok Hne Heq. destruct (AProxyUdp.reachable_faithful P s Hr i k Hi) as [Hst _ _].
  rewrite Hw in Hst. destruct Hst as (done & Hrt & Ho).
  assert (AProxyUdp.request P = TrojanRequest.generate S UDP_ASSOCIATE AProxyUdp.empty) as Hreq.
  { unfold AProxyUdp.request, TrojanRequest.generate. by rewrite same_pass. }
  rewrite Hrt in Hwf, Hok. apply Forall_app in Hwf as [Hwf _]. apply Forall_app in Hok as [Hok _].
  rewrite Ho, Hreq in Heq. rewrite Hreq.
  destruct (AServer.handshake_serves S lookup UDP_ASSOCIATE AProxyUdp.empty
    (Framing.encode UdpBackend.packet done) chunks) as [(b & rest & -> & Hrest & [got Hgot])|[-> Hp]];
    [by right; right|exact empty_ok|done|done| |exact Hp].
  split; [done|]. eexists done, _. split; [done|]. split.
  - intros fuel Hf. unfold Requests.start_udp.
    rewrite (Requests.run_ok S lookup_host send_to sends fuel (Requests.start b) rest done []); try done.
    + by left.
    + rewrite Hgot in Hne. by apply Forall_app in Hne as [_ ?].
    + by rewrite app_nil_r.
    + cbn [Requests.buffer Requests.start]. rewrite Hrest. rewrite Ho, length_app in Hf. lia.
  - done.
Qed.

(** A datagram that the proxy's buffer holds but the protocol does not
    carry ends the service: the server takes its packet for a protocol error. *)
Theorem oversized_datagram_ends_service d rest fuel (r : Requests.t) :
  wf_sa d.2 → (MAX_PACKET_SIZE < length d.1 <= 1500)%nat →
  Requests.buffer r = UdpBackend.packet d ++ rest →
  Requests.drain S lookup_host send_to (Datatypes.S fuel) r = Some (Some (Requests.Break r)).
Proof.
  intros Ha Hd Hb. cbn [Requests.drain]. unfold Requests.step. rewrite Hb. unfold UdpBackend.packet.
  rewrite <-app_assoc, UdpProps.parse_oversized by (done || lia). done.
Qed.
End UdpEndToEnd.
End UdpEndToEnd.

Module AProxyUdpWitness.
Import Witness.
Import AProxyUdp.

Definition client : SocketAddr := mkSocketAddr (V4 [192; 168; 0; 2]) 5000.
Definition public : SocketAddr := mkSocketAddr (V4 [1; 2; 3; 4]) 53.
Definition public2 : SocketAddr := mkSocketAddr (V4 [5; 6; 7; 8]) 53.

Lemma public_ok : wf_sa public.
Proof. apply (bool_decide_unpack _). by vm_compute. Qed.

(** A client has sent one datagram, its task has connected and forwarded it. *)
Definition arrived : t := on_datagram 0 start [1; 2] client public.
Definition spawned : task := mkTask client public [([1; 2], public)] Starting NotSpawned [] [] [([1; 2], public)].
Definition connected : task := finish_start opts spawned.
Definition forwarded : task := forward connected ([1; 2], public) [] WriteOk WriteOk.
Definition busy : t := set_task (set_task arrived 0 connected []) 0 forwarded [].

Lemma busy_reachable : rtc (step opts) start busy.
Proof.
  eapply rtc_l; [apply (step_datagram opts 0 [1; 2] client public start); [simpl; lia|exact public_ok]|].
  eapply rtc_l; [by apply (step_start opts 0 spawned arrived)|].
  eapply rtc_l; [|apply rtc_refl].
  by apply (step_forward opts 0 connected ([1; 2], public) [] WriteOk WriteOk).
Qed.

Lemma one_live_task_per_client_witness :
  (∀ i j ki kj, tasks busy !! i = Some ki → tasks busy !! j = Some kj → holds ki = true → holds kj = true →
     src_addr ki = src_addr kj → i = j ∧ remotes busy !! src_addr ki = Some i)
  ∧ (∀ src rest s', ended busy = src :: rest → s' = on_ended busy src rest →
     ∀ i k, tasks s' !! i = Some k → holds k = true → remotes s' !! src_addr k = Some i)
  ∧ (∀ i k, tasks busy !! i = Some k → holds k = true → socket k ∈ locals busy)
  ∧ NoDup (locals busy).
Proof. exact (one_live_task_per_client opts busy busy_reachable). Defined.

(** An answer from another address than the first destination. *)
Definition answers_stream : bytes := encode UdpBackend.packet [([9], public2)] ++ [IPV4].

Lemma aproxy_answers_reassemble_witness :
  ∃ k', feed_all feed forwarded [take 5 answers_stream; drop 5 answers_stream] = Some k'
    ∧ answers k' = [] ++ [[9]]
    ∧ reader_of k' = Reading [IPV4]
    ∧ socket k' = public ∧ ∃ data r, routed forwarded = (data, socket k') :: r.
Proof.
  apply (aproxy_answers_reassemble opts busy 0 forwarded
    [take 5 answers_stream; drop 5 answers_stream] [([9], public2)] [IPV4] busy_reachable).
  - by vm_compute.
  - by vm_compute.
  - apply Forall_cons_2; [|by apply Forall_nil_2].
    split; [apply (bool_decide_unpack _); by vm_compute|unfold MAX_PACKET_SIZE; simpl; lia].
  - right. exists ([9], public2).
    split; [split; [apply (bool_decide_unpack _); by vm_compute|unfold MAX_PACKET_SIZE; simpl; lia]|].
    split; [by eexists [5; 6; 7; 8; 0; 53; 0; 1; CR; LF; 9]|done].
  - by vm_compute.
Defined.

Definition no_lookup (d : bytes) (p : Z) : option (list SocketAddr) := None.

Lemma proxied_datagrams_reach_targets_witness :
  match AServer.handshake_loop opts no_lookup [] (AServer.reads [take 9 (out forwarded); drop 9 (out forwarded)]) with
  | Some (AServer.Serve cmd a b, io) =>
      AServer.service_of cmd = Some AServer.UdpService
      ∧ ∃ done r, routed forwarded = done ++ queue forwarded
          ∧ (∀ fuel, (length (out forwarded) < fuel)%nat →
               Requests.start_udp opts (λ _, no_lookup) (λ _, true) fuel b io = Some (Some (true, r)))
          ∧ Requests.sent r = done ∧ Requests.buffer r = []
  | Some _ => False
  | None => ∃ got rest, [take 9 (out forwarded); drop 9 (out forwarded)] = got ++ rest
      ∧ (length (mjoin got) < length (request opts) <= length (mjoin got) + 2)%nat
  end.
Proof.
  apply (UdpEndToEnd.proxied_datagrams_reach_targets opts opts no_lookup (λ _, no_lookup) (λ _, true)
    eq_refl (λ _, eq_refl) busy 0 forwarded).
  - exact busy_reachable.
  - by vm_compute.
  - done.
  - apply Forall_cons_2; [|by apply Forall_nil_2]. split; [exact public_ok|unfold MAX_PACKET_SIZE; simpl; lia].
  - apply Forall_cons_2; [by right|by apply Forall_nil_2].
  - apply (bool_decide_unpack _). by vm_compute.
  - by vm_compute.
Defined.

Definition oversized : bytes := replicate 1490 7.
Definition stuck : Requests.t := Requests.start (UdpBackend.packet (oversized, public)).

Lemma oversized_datagram_ends_service_witness :
  Requests.drain opts (λ _, no_lookup) (λ _, true) 1 stuck = Some (Some (Requests.Break stuck)).
Proof.
  apply (UdpEndToEnd.oversized_datagram_ends_service opts (λ _, no_lookup) (λ _, true)
    (oversized, public) [] 0 stuck public_ok).
  - unfold oversized. cbn [fst]. rewrite length_replicate. unfold MAX_PACKET_SIZE. lia.
  - cbn [stuck Requests.start Requests.buffer]. by rewrite app_nil_r.
Defined.
End AProxyUdpWitness.
