(* ===== verification/Smoltcp.v ===== *)
(** * The user-space TCP/IP stack (smoltcp) and bounded channels

    The tunnels take packets from a virtual network device and hand them to
    smoltcp, whose sockets they then read and write.  smoltcp is not part of the
    program: [Smoltcp] is the interface of the calls the program makes, and
    [SmoltcpOk] their documented behaviour, through ghost observations of what a
    socket has received, what of it was read and what it accepted to send.  What
    the stack itself does to the sockets between two calls is [evolves].
    [SimStack] is an executable instance.  The file also has tokio's bounded
    channels. *)

From Stdlib Require Import ZArith Lia.
From stdpp Require Import base option list gmap fin_maps.
From S2P Require Import Prelude.
From S2P Require Import Net.

Open Scope Z_scope.

(** ** The interface *)

(** [smoltcp::socket::tcp::State]. *)
Inductive State : Type :=
  | Closed | Listen | SynSent | SynReceived | Established | FinWait1 | FinWait2
  | CloseWait | Closing | LastAck | TimeWait.

#[export] Instance State_eq_dec : EqDecision State.
Proof. solve_decision. Defined.

(** [smoltcp::socket::Socket]: the two kinds the program adds to a set. *)
Inductive Socket (T U : Type) : Type :=
  | Tcp (socket : T)
  | Udp (socket : U).
Arguments Tcp {T U} socket.
Arguments Udp {T U} socket.

(** A registered waker: the message it sends when the stack wakes it, nothing for
    the dummy. *)
Abbreviation Waker := (option (nat * Z)).

(** What [new_checked] and the accessors give of a packet's headers. *)
Inductive IpProtocol : Type := ProtoTcp | ProtoUdp | ProtoOther.
Record IpHeader : Type :=
  mkIpHeader { dst_addr : IpAddr; src_addr : IpAddr; ip_payload : bytes; next_header : IpProtocol }.
Record TcpHeader : Type :=
  mkTcpHeader { tcp_dst_port : Z; tcp_src_port : Z; tcp_syn : bool; tcp_ack : bool }.
Record UdpHeader : Type := mkUdpHeader { udp_dst_port : Z; udp_src_port : Z }.
Inductive IpVersion : Type := Ipv4 | Ipv6.

Class Smoltcp : Type := {
  TcpSocket : Type;
  UdpSocket : Type;
  SocketSet : Type;

  (** [smoltcp::wire]: [None] is an error. *)
  ip_version : bytes → option IpVersion;
  ipv4_new_checked : bytes → option IpHeader;
  ipv6_new_checked : bytes → option IpHeader;
  tcp_new_checked : bytes → option TcpHeader;
  udp_new_checked : bytes → option UdpHeader;

  (** [smoltcp::socket::tcp::Socket]; [tcp_new] takes the sizes of the receive and
      the send buffer. *)
  tcp_new : Z → Z → TcpSocket;
  tcp_listen : TcpSocket → SocketAddr → option TcpSocket;
  set_nagle_enabled : bool → TcpSocket → TcpSocket;
  set_ack_delay : option Z → TcpSocket → TcpSocket;
  tcp_state : TcpSocket → State;
  may_recv : TcpSocket → bool;
  may_send : TcpSocket → bool;
  tcp_can_recv : TcpSocket → bool;
  is_active : TcpSocket → bool;
  is_listening : TcpSocket → bool;
  remote_endpoint : TcpSocket → option SocketAddr;
  local_endpoint : TcpSocket → option SocketAddr;
  recv_queue : TcpSocket → nat;
  send_queue : TcpSocket → nat;
  tcp_recv_slice : TcpSocket → nat → option bytes * TcpSocket;
  tcp_send_slice : TcpSocket → bytes → option nat * TcpSocket;
  tcp_close : TcpSocket → TcpSocket;
  tcp_abort : TcpSocket → TcpSocket;
  tcp_register_recv : Waker → TcpSocket → TcpSocket;
  tcp_register_send : Waker → TcpSocket → TcpSocket;

  (** [smoltcp::socket::udp::Socket]; [udp_new] takes the metadata and the payload
      size of either buffer. *)
  udp_new : Z → Z → Z → Z → UdpSocket;
  udp_bind : UdpSocket → SocketAddr → option UdpSocket;
  udp_endpoint : UdpSocket → option IpAddr * Z;
  udp_can_recv : UdpSocket → bool;
  udp_is_open : UdpSocket → bool;
  udp_recv_slice : UdpSocket → nat → option (bytes * SocketAddr) * UdpSocket;
  udp_recv : UdpSocket → option (bytes * SocketAddr) * UdpSocket;
  udp_send_slice : UdpSocket → bytes → SocketAddr → bool * UdpSocket;
  udp_close : UdpSocket → UdpSocket;
  udp_register_recv : Waker → UdpSocket → UdpSocket;
  udp_register_send : Waker → UdpSocket → UdpSocket;

  (** [smoltcp::iface::SocketSet].  [get_mut] and [remove] panic on a handle that
      is not in the set; [sockets_put] is the write through the reference
      [get_mut] returns. *)
  sockets_empty : SocketSet;
  sockets_add : SocketSet → Socket TcpSocket UdpSocket → nat * SocketSet;
  sockets_get : SocketSet → nat → option (Socket TcpSocket UdpSocket);
  sockets_put : SocketSet → nat → Socket TcpSocket UdpSocket → SocketSet;
  sockets_remove : SocketSet → nat → option SocketSet;
  sockets_iter : SocketSet → list (nat * Socket TcpSocket UdpSocket)
}.

(** [get_mut::<TcpSocket>] and [get_mut::<UdpSocket>]: also panic on a socket of
    the other kind. *)
Definition get_tcp `{Smoltcp} (ss : SocketSet) (h : nat) : option TcpSocket :=
  match sockets_get ss h with Some (Tcp s) => Some s | _ => None end.

Definition get_udp `{Smoltcp} (ss : SocketSet) (h : nat) : option UdpSocket :=
  match sockets_get ss h with Some (Udp s) => Some s | _ => None end.

(** ** Documented behaviour *)

Class Observed (S : Smoltcp) : Type := {
  (** Everything a TCP socket has received and accepted to send, and how much of
      the former was read. *)
  tcp_rx : TcpSocket → bytes;
  tcp_read : TcpSocket → nat;
  tcp_tx : TcpSocket → bytes;
  (** The same of a UDP socket. *)
  udp_rx : UdpSocket → list (bytes * SocketAddr);
  udp_read : UdpSocket → nat;
  udp_tx : UdpSocket → list (bytes * SocketAddr);
  (** The sockets of a set by handle. *)
  sockets_view : SocketSet → gmap nat (Socket TcpSocket UdpSocket)
}.

(** A call that neither reads nor sends. *)
Definition tcp_keeps `{Observed} (s s' : TcpSocket) : Prop :=
  tcp_rx s' = tcp_rx s ∧ tcp_read s' = tcp_read s ∧ tcp_tx s' = tcp_tx s
  ∧ (remote_endpoint s' = None ∨ remote_endpoint s' = remote_endpoint s).

Definition udp_keeps `{Observed} (s s' : UdpSocket) : Prop :=
  udp_rx s' = udp_rx s ∧ udp_read s' = udp_read s ∧ udp_tx s' = udp_tx s
  ∧ udp_endpoint s' = udp_endpoint s.

Class SmoltcpOk (S : Smoltcp) {O : Observed S} : Prop := {
  tcp_listen_new rx tx e : sa_port e ≠ 0 →
    ∃ s, tcp_listen (tcp_new rx tx) e = Some s ∧ remote_endpoint s = None
      ∧ tcp_rx s = [] ∧ tcp_read s = 0%nat ∧ tcp_tx s = [];
  (** A registered waker does not open a socket. *)
  tcp_listen_registered w rx tx e : sa_port e ≠ 0 →
    ∃ s, tcp_listen (tcp_register_send w (tcp_new rx tx)) e = Some s ∧ remote_endpoint s = None
      ∧ tcp_rx s = [] ∧ tcp_read s = 0%nat ∧ tcp_tx s = [];
  set_nagle_keeps b s : tcp_keeps s (set_nagle_enabled b s);
  set_ack_delay_keeps d s : tcp_keeps s (set_ack_delay d s);
  tcp_close_keeps s : tcp_keeps s (tcp_close s);
  tcp_abort_keeps s : tcp_keeps s (tcp_abort s);
  tcp_register_recv_keeps w s : tcp_keeps s (tcp_register_recv w s);
  tcp_register_send_keeps w s : tcp_keeps s (tcp_register_send w s);

  (** The receive queue is what was received and not read; a read takes from its
      front as much as fits, and an error takes nothing. *)
  recv_queue_spec s : recv_queue s = (length (tcp_rx s) - tcp_read s)%nat;
  tcp_read_le s : (tcp_read s ≤ length (tcp_rx s))%nat;
  tcp_recv_spec s n r s' : tcp_recv_slice s n = (r, s') →
    tcp_rx s' = tcp_rx s ∧ tcp_tx s' = tcp_tx s ∧ remote_endpoint s' = remote_endpoint s
    ∧ match r with
      | Some d => d = take n (drop (tcp_read s) (tcp_rx s))
                  ∧ tcp_read s' = (tcp_read s + length d)%nat
      | None => tcp_read s' = tcp_read s
      end;
  (** A write accepts a prefix; an error accepts nothing. *)
  tcp_send_spec s b r s' : tcp_send_slice s b = (r, s') →
    tcp_rx s' = tcp_rx s ∧ tcp_read s' = tcp_read s ∧ remote_endpoint s' = remote_endpoint s
    ∧ match r with
      | Some n => (n ≤ length b)%nat ∧ tcp_tx s' = tcp_tx s ++ take n b
      | None => tcp_tx s' = tcp_tx s
      end;
  (** A socket that may send takes what has room, and may still send. *)
  tcp_may_send_spec s b : may_send s = true →
    ∃ n s', tcp_send_slice s b = (Some n, s') ∧ may_send s' = true;

  udp_bind_new a b c d e : sa_port e ≠ 0 →
    ∃ s, udp_bind (udp_new a b c d) e = Some s ∧ udp_endpoint s = (Some (sa_ip e), sa_port e)
      ∧ udp_rx s = [] ∧ udp_read s = 0%nat ∧ udp_tx s = [];
  udp_recv_slice_spec s n r s' : udp_recv_slice s n = (r, s') →
    udp_rx s' = udp_rx s ∧ udp_tx s' = udp_tx s ∧ udp_endpoint s' = udp_endpoint s
    ∧ match r with
      | Some p => udp_rx s !! udp_read s = Some p ∧ udp_read s' = Datatypes.S (udp_read s)
      | None => (udp_read s ≤ udp_read s')%nat
      end;
  (** [recv] lends the whole datagram; without one nothing changes. *)
  udp_recv_spec s r s' : udp_recv s = (r, s') →
    udp_rx s' = udp_rx s ∧ udp_tx s' = udp_tx s ∧ udp_endpoint s' = udp_endpoint s
    ∧ match r with
      | Some p => udp_rx s !! udp_read s = Some p ∧ udp_read s' = Datatypes.S (udp_read s)
      | None => udp_read s' = udp_read s
      end;
  udp_register_recv_keeps w s : udp_keeps s (udp_register_recv w s);
  udp_register_send_keeps w s : udp_keeps s (udp_register_send w s);
  udp_send_spec s b e r s' : udp_send_slice s b e = (r, s') →
    udp_rx s' = udp_rx s ∧ udp_read s' = udp_read s ∧ udp_endpoint s' = udp_endpoint s
    ∧ udp_tx s' = if r then udp_tx s ++ [(b, e)] else udp_tx s;

  sockets_view_empty : sockets_view sockets_empty = ∅;
  sockets_add_spec ss s h ss' : sockets_add ss s = (h, ss') →
    sockets_view ss !! h = None ∧ sockets_view ss' = <[h := s]> (sockets_view ss);
  sockets_get_spec ss h : sockets_get ss h = sockets_view ss !! h;
  sockets_put_spec ss h s : is_Some (sockets_view ss !! h) →
    sockets_view (sockets_put ss h s) = <[h := s]> (sockets_view ss);
  sockets_remove_spec ss h :
    match sockets_remove ss h with
    | Some ss' => is_Some (sockets_view ss !! h) ∧ sockets_view ss' = delete h (sockets_view ss)
    | None => sockets_view ss !! h = None
    end;
  sockets_iter_spec ss : sockets_iter ss ≡ₚ map_to_list (sockets_view ss)
}.

(** ** What the stack does between two calls

    It feeds the sockets from the packets it takes and sends what they hold; it
    neither reads nor writes for the program and never adds or removes sockets. *)
Definition socket_evolves `{Observed} (s s' : Socket TcpSocket UdpSocket) : Prop :=
  match s, s' with
  | Tcp s, Tcp s' => tcp_rx s `prefix_of` tcp_rx s' ∧ tcp_read s' = tcp_read s ∧ tcp_tx s' = tcp_tx s
  | Udp s, Udp s' => udp_rx s `prefix_of` udp_rx s' ∧ udp_read s' = udp_read s ∧ udp_tx s' = udp_tx s
                     ∧ udp_endpoint s' = udp_endpoint s
  | _, _ => False
  end.

Definition evolves `{Observed} (ss ss' : SocketSet) : Prop :=
  ∀ h, option_Forall2 socket_evolves (sockets_view ss !! h) (sockets_view ss' !! h).

Section Sets.
Context {Stk : Smoltcp} {Obs : Observed Stk} {K : SmoltcpOk Stk}.

Implicit Types (ss : SocketSet) (h : nat).

#[export] Instance tcp_keeps_preorder : PreOrder tcp_keeps.
Proof.
  split; [by intros s; split_and!; auto|].
  intros s1 s2 s3 (R1 & E1 & T1 & H1) (R2 & E2 & T2 & H2). split_and!; [congruence..|].
  destruct H2 as [H2|H2]; rewrite H2; auto.
Qed.

Lemma get_tcp_Some ss h s : get_tcp ss h = Some s ↔ sockets_view ss !! h = Some (Tcp s).
Proof. unfold get_tcp. rewrite sockets_get_spec. destruct (_ !! _) as [[]|]; naive_solver. Qed.

Lemma get_udp_Some ss h s : get_udp ss h = Some s ↔ sockets_view ss !! h = Some (Udp s).
Proof. unfold get_udp. rewrite sockets_get_spec. destruct (_ !! _) as [[]|]; naive_solver. Qed.

Lemma sockets_remove_Some ss h s :
  sockets_view ss !! h = Some s →
  ∃ ss', sockets_remove ss h = Some ss' ∧ sockets_view ss' = delete h (sockets_view ss).
Proof.
  intros Hs. pose proof (sockets_remove_spec ss h) as Hr.
  destruct (sockets_remove ss h) as [ss'|]; [|congruence]. exists ss'. split; [done|apply Hr].
Qed.

Lemma sockets_iter_elem ss h s : (h, s) ∈ sockets_iter ss ↔ sockets_view ss !! h = Some s.
Proof. by rewrite sockets_iter_spec, elem_of_map_to_list. Qed.

Lemma sockets_iter_nodup ss : NoDup (sockets_iter ss).*1.
Proof. rewrite sockets_iter_spec. apply NoDup_fst_map_to_list. Qed.

Lemma evolves_Some ss ss' h s :
  evolves ss ss' → sockets_view ss !! h = Some s →
  ∃ s', sockets_view ss' !! h = Some s' ∧ socket_evolves s s'.
Proof. intros He Hs. specialize (He h). rewrite Hs in He. inversion He; eauto. Qed.

Lemma evolves_Some_inv ss ss' h s' :
  evolves ss ss' → sockets_view ss' !! h = Some s' →
  ∃ s, sockets_view ss !! h = Some s ∧ socket_evolves s s'.
Proof. intros He Hs. specialize (He h). rewrite Hs in He. inversion He; eauto. Qed.

Lemma socket_evolves_refl s : socket_evolves s s.
Proof. by destruct s; cbn; split_and!. Qed.

(** The stack works on one socket. *)
Lemma evolves_put ss h s s' :
  sockets_view ss !! h = Some s → socket_evolves s s' → evolves ss (sockets_put ss h s').
Proof.
  intros Hs He h'. rewrite sockets_put_spec by eauto. destruct (decide (h = h')) as [<-|].
  - rewrite lookup_insert_eq, Hs. by constructor.
  - rewrite lookup_insert_ne by done. destruct (sockets_view ss !! h') eqn:Hh; constructor.
    apply socket_evolves_refl.
Qed.

(** *** The sockets of either kind *)

Definition tcps ss : gmap nat TcpSocket :=
  omap (λ s, match s with Tcp s => Some s | Udp _ => None end) (sockets_view ss).
Definition udps ss : gmap nat UdpSocket :=
  omap (λ s, match s with Tcp _ => None | Udp s => Some s end) (sockets_view ss).

Lemma lookup_tcps ss h s : tcps ss !! h = Some s ↔ sockets_view ss !! h = Some (Tcp s).
Proof. unfold tcps. rewrite lookup_omap. destruct (_ !! h) as [[]|]; naive_solver. Qed.

Lemma lookup_udps ss h s : udps ss !! h = Some s ↔ sockets_view ss !! h = Some (Udp s).
Proof. unfold udps. rewrite lookup_omap. destruct (_ !! h) as [[]|]; naive_solver. Qed.

Lemma tcps_None ss h : sockets_view ss !! h = None → tcps ss !! h = None.
Proof. unfold tcps. rewrite lookup_omap. by intros ->. Qed.

Lemma udps_None ss h : sockets_view ss !! h = None → udps ss !! h = None.
Proof. unfold udps. rewrite lookup_omap. by intros ->. Qed.

Lemma sockets_put_tcp ss h s s' :
  tcps ss !! h = Some s →
  tcps (sockets_put ss h (Tcp s')) = <[h := s']> (tcps ss)
  ∧ udps (sockets_put ss h (Tcp s')) = udps ss.
Proof.
  intros Hs%lookup_tcps. unfold tcps, udps. rewrite sockets_put_spec by eauto.
  split; [by apply omap_insert_Some|]. rewrite omap_insert_None by done.
  apply delete_id. rewrite lookup_omap. by rewrite Hs.
Qed.

Lemma sockets_put_udp ss h s s' :
  udps ss !! h = Some s →
  udps (sockets_put ss h (Udp s')) = <[h := s']> (udps ss)
  ∧ tcps (sockets_put ss h (Udp s')) = tcps ss.
Proof.
  intros Hs%lookup_udps. unfold tcps, udps. rewrite sockets_put_spec by eauto.
  split; [by apply omap_insert_Some|]. rewrite omap_insert_None by done.
  apply delete_id. rewrite lookup_omap. by rewrite Hs.
Qed.

Lemma sockets_add_tcp ss s h ss' :
  sockets_add ss (Tcp s) = (h, ss') →
  tcps ss !! h = None ∧ tcps ss' = <[h := s]> (tcps ss) ∧ udps ss' = udps ss.
Proof.
  intros (Hh & Hv)%sockets_add_spec. split; [by apply tcps_None|]. unfold tcps, udps. rewrite Hv.
  split; [by apply omap_insert_Some|]. rewrite omap_insert_None by done. apply delete_id.
  rewrite lookup_omap. by rewrite Hh.
Qed.

Lemma sockets_add_udp ss s h ss' :
  sockets_add ss (Udp s) = (h, ss') →
  udps ss !! h = None ∧ udps ss' = <[h := s]> (udps ss) ∧ tcps ss' = tcps ss.
Proof.
  intros (Hh & Hv)%sockets_add_spec. split; [by apply udps_None|]. unfold tcps, udps. rewrite Hv.
  split; [by apply omap_insert_Some|]. rewrite omap_insert_None by done. apply delete_id.
  rewrite lookup_omap. by rewrite Hh.
Qed.

Lemma sockets_remove_tcp ss h s :
  tcps ss !! h = Some s →
  ∃ ss', sockets_remove ss h = Some ss' ∧ tcps ss' = delete h (tcps ss) ∧ udps ss' = udps ss.
Proof.
  intros Hs%lookup_tcps. destruct (sockets_remove_Some _ _ _ Hs) as (ss' & -> & Hv).
  exists ss'. split; [done|]. unfold tcps, udps. rewrite Hv, !omap_delete. split; [done|].
  apply delete_id. rewrite lookup_omap. by rewrite Hs.
Qed.

Lemma sockets_remove_udp ss h s :
  udps ss !! h = Some s →
  ∃ ss', sockets_remove ss h = Some ss' ∧ udps ss' = delete h (udps ss) ∧ tcps ss' = tcps ss.
Proof.
  intros Hs%lookup_udps. destruct (sockets_remove_Some _ _ _ Hs) as (ss' & -> & Hv).
  exists ss'. split; [done|]. unfold tcps, udps. rewrite Hv, !omap_delete. split; [done|].
  apply delete_id. rewrite lookup_omap. by rewrite Hs.
Qed.

Lemma evolves_tcp ss ss' h s :
  evolves ss ss' → tcps ss !! h = Some s →
  ∃ s', tcps ss' !! h = Some s' ∧ socket_evolves (Tcp s) (Tcp s').
Proof.
  intros He Hs%lookup_tcps. destruct (evolves_Some _ _ _ _ He Hs) as ([s'|s'] & Hs' & Hk); [|done].
  exists s'. by rewrite lookup_tcps.
Qed.

Lemma evolves_udp ss ss' h s :
  evolves ss ss' → udps ss !! h = Some s →
  ∃ s', udps ss' !! h = Some s' ∧ socket_evolves (Udp s) (Udp s').
Proof.
  intros He Hs%lookup_udps. destruct (evolves_Some _ _ _ _ He Hs) as ([s'|s'] & Hs' & Hk); [done|].
  exists s'. by rewrite lookup_udps.
Qed.

Lemma evolves_tcp_inv ss ss' h s' :
  evolves ss ss' → tcps ss' !! h = Some s' → ∃ s, tcps ss !! h = Some s.
Proof.
  intros He Hs%lookup_tcps. destruct (evolves_Some_inv _ _ _ _ He Hs) as ([s|s] & Hs' & Hk); [|done].
  exists s. by rewrite lookup_tcps.
Qed.

Lemma evolves_udp_inv ss ss' h s' :
  evolves ss ss' → udps ss' !! h = Some s' → ∃ s, udps ss !! h = Some s.
Proof.
  intros He Hs%lookup_udps. destruct (evolves_Some_inv _ _ _ _ He Hs) as ([s|s] & Hs' & Hk); [done|].
  exists s. by rewrite lookup_udps.
Qed.

End Sets.

(** ** Bounded channels ([tokio::sync::mpsc::channel])

    The ends share the channel: everything that was ever sent, how much of it was
    received, and whether the receiver has closed it. *)

Record Chan (A : Type) : Type := mkChan {
  chan_log : list A;
  chan_taken : nat;
  chan_limit : nat;
  chan_closed : bool
}.
Arguments mkChan {A} _ _ _ _.
Arguments chan_log {A} _.
Arguments chan_taken {A} _.
Arguments chan_limit {A} _.
Arguments chan_closed {A} _.

Definition channel {A} (n : nat) : Chan A := mkChan [] 0 n false.

(** What waits in the channel. *)
Definition chan_queue {A} (c : Chan A) : list A := drop (chan_taken c) (chan_log c).

Definition capacity {A} (c : Chan A) : nat := chan_limit c - length (chan_queue c).

(** [Sender::try_send]: fails on a closed or full channel. *)
Definition try_send {A} (c : Chan A) (x : A) : option (Chan A) :=
  if chan_closed c || (capacity c =? 0)%nat then None
  else Some (mkChan (chan_log c ++ [x]) (chan_taken c) (chan_limit c) (chan_closed c)).

(** [Receiver::try_recv]: [None] when nothing waits. *)
Definition try_recv {A} (c : Chan A) : option (A * Chan A) :=
  match chan_queue c with
  | x :: _ => Some (x, mkChan (chan_log c) (S (chan_taken c)) (chan_limit c) (chan_closed c))
  | [] => None
  end.

(** [Receiver::close]. *)
Definition chan_close {A} (c : Chan A) : Chan A :=
  mkChan (chan_log c) (chan_taken c) (chan_limit c) true.

Definition wf_chan {A} (c : Chan A) : Prop := (chan_taken c ≤ length (chan_log c))%nat.

Lemma wf_channel {A} n : wf_chan (A := A) (channel n).
Proof. unfold wf_chan. cbn. lia. Qed.

Lemma take_le_prefix {A} (l : list A) n m : (n ≤ m)%nat → take n l `prefix_of` take m l.
Proof. intros Hn. rewrite <-(Nat.min_l n m), <-take_take by done. apply prefix_take. Qed.

Lemma take_le_sublist {A} (l : list A) n m : (n ≤ m)%nat → take n l `sublist_of` take m l.
Proof. intros Hn. destruct (take_le_prefix l n m Hn) as (r & ->). by apply sublist_inserts_r. Qed.

#[export] Hint Resolve wf_channel : trojan.

Lemma try_send_Some {A} (c c' : Chan A) x :
  try_send c x = Some c' →
  chan_log c' = chan_log c ++ [x] ∧ chan_taken c' = chan_taken c ∧ chan_limit c' = chan_limit c
  ∧ chan_closed c' = chan_closed c ∧ (wf_chan c → capacity c = S (capacity c')).
Proof.
  unfold try_send, wf_chan. destruct (_ || _) eqn:Hb; [done|]. intros [= <-]. cbn.
  apply orb_false_iff in Hb as [_ Hc%Nat.eqb_neq]. split_and!; try done. intros Hw.
  revert Hc. unfold capacity, chan_queue. cbn. rewrite !length_drop, length_app. cbn. lia.
Qed.

Lemma try_recv_Some {A} (c c' : Chan A) x :
  try_recv c = Some (x, c') →
  chan_queue c = x :: chan_queue c' ∧ chan_log c' = chan_log c
  ∧ chan_limit c' = chan_limit c ∧ chan_closed c' = chan_closed c ∧ (wf_chan c → wf_chan c').
Proof.
  unfold try_recv, wf_chan, chan_queue. destruct (drop _ _) as [|y q] eqn:Hd; [done|].
  intros [= <- <-]. cbn.
  assert (chan_taken c < length (chan_log c))%nat as Hlt.
  { apply (f_equal length) in Hd. rewrite length_drop in Hd. simpl in Hd. lia. }
  split_and!; [|done..|lia]. f_equal.
  rewrite <-(Nat.add_1_r (chan_taken c)), <-drop_drop, Hd. done.
Qed.

(** ** An executable instance

    Packets have a short header: version and protocol, the two addresses, the two
    ports and for TCP a flag byte.  A TCP socket is connected and fed by whoever
    steps it. *)

Module SimStack.

Record tcp : Type := mkTcp {
  st : State; rem : option SocketAddr; loc : option SocketAddr;
  seen : bytes; unseen : bytes; tx : bytes; room : nat }.

Record udp : Type := mkUdp {
  ep : option IpAddr * Z; useen : list (bytes * SocketAddr);
  uunseen : list (bytes * SocketAddr); utx : list (bytes * SocketAddr) }.

Abbreviation sock := (Socket tcp udp).

Definition can_receive (s : tcp) : bool := match unseen s with [] => false | _ => true end.

Definition closed_state (x : State) : State :=
  match x with
  | Established | SynReceived => FinWait1
  | CloseWait => LastAck
  | Listen | SynSent => Closed
  | _ => x
  end.

Definition with_st (s : tcp) (x : State) : tcp :=
  mkTcp x (rem s) (loc s) (seen s) (unseen s) (tx s) (room s).

Definition header (p : bytes) : option IpHeader :=
  match p with
  | _ :: proto :: a :: b :: c :: d :: e :: f :: g :: h :: payload =>
      Some (mkIpHeader (V4 [e; f; g; h]) (V4 [a; b; c; d]) payload
        (if proto =? 6 then ProtoTcp else if proto =? 17 then ProtoUdp else ProtoOther))
  | _ => None
  end.

Definition recv_datagram (s : udp) (n : nat) : option (bytes * SocketAddr) * udp :=
  match uunseen s with
  | p :: rest =>
      (if (length p.1 <=? n)%nat then Some p else None,
       mkUdp (ep s) (useen s ++ [p]) rest (utx s))
  | [] => (None, s)
  end.

#[export] Instance smoltcp : Smoltcp := {
  TcpSocket := tcp;
  UdpSocket := udp;
  SocketSet := gmap nat sock;
  ip_version p := match p with 4 :: _ => Some Ipv4 | 6 :: _ => Some Ipv6 | _ => None end;
  ipv4_new_checked := header;
  ipv6_new_checked _ := None;
  tcp_new_checked p :=
    match p with
    | a :: b :: c :: d :: flags :: _ =>
        Some (mkTcpHeader (a * 256 + b) (c * 256 + d) (Z.testbit flags 1) (Z.testbit flags 4))
    | _ => None
    end;
  udp_new_checked p :=
    match p with
    | a :: b :: c :: d :: _ => Some (mkUdpHeader (a * 256 + b) (c * 256 + d))
    | _ => None
    end;
  tcp_new _ tx := mkTcp Closed None None [] [] [] (Z.to_nat tx);
  tcp_listen s e :=
    if (sa_port e =? 0) then None
    else Some (mkTcp Listen None (Some e) (seen s) (unseen s) (tx s) (room s));
  set_nagle_enabled _ s := s;
  set_ack_delay _ s := s;
  tcp_state := st;
  may_recv s := can_receive s || bool_decide (st s = Established);
  may_send s := bool_decide (st s = Established) || bool_decide (st s = CloseWait);
  tcp_can_recv := can_receive;
  is_active s := negb (bool_decide (st s = Closed) || bool_decide (st s = Listen)
                       || bool_decide (st s = TimeWait));
  is_listening s := bool_decide (st s = Listen);
  remote_endpoint := rem;
  local_endpoint := loc;
  recv_queue s := length (unseen s);
  send_queue s := 0%nat;
  tcp_recv_slice s n :=
    (Some (take n (unseen s)),
     mkTcp (st s) (rem s) (loc s) (seen s ++ take n (unseen s)) (drop n (unseen s)) (tx s) (room s));
  tcp_send_slice s b :=
    if bool_decide (st s = Established) || bool_decide (st s = CloseWait) then
      let n := Nat.min (room s) (length b) in
      (Some n, mkTcp (st s) (rem s) (loc s) (seen s) (unseen s) (tx s ++ take n b) (room s - n))
    else (None, s);
  tcp_close s := with_st s (closed_state (st s));
  tcp_abort s := with_st s Closed;
  tcp_register_recv _ s := s;
  tcp_register_send _ s := s;
  udp_new _ _ _ _ := mkUdp (None, 0) [] [] [];
  udp_bind s e :=
    if sa_port e =? 0 then None
    else Some (mkUdp (Some (sa_ip e), sa_port e) (useen s) (uunseen s) (utx s));
  udp_endpoint := ep;
  udp_can_recv s := match uunseen s with [] => false | _ => true end;
  udp_is_open s := negb ((ep s).2 =? 0);
  udp_recv_slice := recv_datagram;
  udp_recv s := match uunseen s with p :: _ => recv_datagram s (length p.1) | [] => (None, s) end;
  udp_send_slice s b e := (true, mkUdp (ep s) (useen s) (uunseen s) (utx s ++ [(b, e)]));
  udp_close s := mkUdp (None, 0) (useen s) (uunseen s) (utx s);
  udp_register_recv _ s := s;
  udp_register_send _ s := s;
  sockets_empty := ∅;
  sockets_add ss s := let h := fresh (dom ss) in (h, <[h := s]> ss);
  sockets_get ss h := ss !! h;
  sockets_put ss h s := <[h := s]> ss;
  sockets_remove ss h := match ss !! h with Some _ => Some (delete h ss) | None => None end;
  sockets_iter ss := map_to_list ss
}.

#[export] Instance observed : Observed smoltcp := {
  tcp_rx s := seen s ++ unseen s;
  tcp_read s := length (seen s);
  tcp_tx := tx;
  udp_rx s := useen s ++ uunseen s;
  udp_read s := length (useen s);
  udp_tx := utx;
  sockets_view ss := ss
}.

Lemma recv_datagram_spec s n r s' :
  recv_datagram s n = (r, s') →
  useen s' ++ uunseen s' = useen s ++ uunseen s ∧ utx s' = utx s ∧ ep s' = ep s
  ∧ match r with
    | Some p => (useen s ++ uunseen s) !! length (useen s) = Some p
                ∧ length (useen s') = S (length (useen s))
    | None => (length (useen s) ≤ length (useen s'))%nat
    end.
Proof.
  unfold recv_datagram. destruct (uunseen s) as [|p rest] eqn:Hu; intros [= <- <-]; cbn.
  - by rewrite Hu.
  - rewrite <-app_assoc, length_app. cbn. split_and!; [done..|].
    destruct (_ <=? _)%nat; [|lia]. split; [|lia]. by rewrite lookup_app_r, Nat.sub_diag.
Qed.

#[export] Instance smoltcp_ok : SmoltcpOk smoltcp.
Proof.
  split; cbn; try done.
  - intros _ b e He. rewrite (proj2 (Z.eqb_neq _ _)) by done. by eexists.
  - intros _ _ b e He. rewrite (proj2 (Z.eqb_neq _ _)) by done. by eexists.
  - intros s. split_and!; [done..|by right].
  - intros s. split_and!; [done..|by right].
  - intros s. rewrite length_app. lia.
  - intros s. rewrite length_app. lia.
  - intros s n r s' [= <- <-]. cbn. rewrite <-app_assoc, take_drop, drop_app_length, length_app. done.
  - intros s b r s'. destruct (_ || _); intros [= <- <-]; cbn; [|done].
    split_and!; try done. lia.
  - intros s b Hm. rewrite Hm. do 2 eexists. split; [reflexivity|exact Hm].
  - intros _ _ _ _ e He. rewrite (proj2 (Z.eqb_neq _ _)) by done. by eexists.
  - apply recv_datagram_spec.
  - intros s r s' Hr. destruct (uunseen s) as [|p rest] eqn:Hu.
    { injection Hr as <- <-. by rewrite Hu. }
    pose proof (recv_datagram_spec _ _ _ _ Hr) as H. unfold recv_datagram in Hr. rewrite Hu in Hr.
    rewrite Nat.leb_refl in Hr. injection Hr as <- <-. by rewrite Hu in H.
  - by intros s b e r s' [= <- <-].
  - intros ss s h ss' [= <- <-]. split; [|done]. apply not_elem_of_dom, is_fresh.
  - intros ss h. destruct (ss !! h) eqn:He; [|done]. by split; [eexists|].
Qed.

End SimStack.
