(* ===== verification/SocketTables.v ===== *)
(** * Tables of sockets and streams

    A device keeps, for every endpoint it serves, the handle of its socket and
    the channel of its stream.  [agree] says that the sockets of the stack, the
    table of handles, the list of endpoints no stream was made for yet, the table
    of senders and the channels fit together; the lemmas are the changes a device
    makes to them.  TCP and UDP are two instances. *)

From Stdlib Require Import ZArith Lia.
From stdpp Require Import base option list gmap fin_maps.
From S2P Require Import Prelude.
From S2P Require Import Net.
From S2P Require Import Smoltcp.

Section Tables.
Context {X Y : Type}.
(** The socket [x] serves the endpoint; a socket nothing was read from; the
    channel has been given what was read from the socket. *)
Context (own : SocketAddr → X → Prop) (unread : X → Prop) (given : X → Chan Y → Prop).

Implicit Types (V : gmap nat X) (I T : gmap SocketAddr nat) (N : list SocketAddr).
Implicit Types (C : list (Chan Y)) (e : SocketAddr) (h id : nat) (x : X) (c : Chan Y).

Record agree V I N T C : Prop := {
  a_live e h : I !! e = Some h → ∃ x, V !! h = Some x ∧ own e x;
  a_owner h x : V !! h = Some x → ∃ e, I !! e = Some h;
  a_inj e e' h : I !! e = Some h → I !! e' = Some h → e = e';
  a_nodup : NoDup N;
  a_new e : e ∈ N → T !! e = None ∧ ∃ h x, I !! e = Some h ∧ V !! h = Some x ∧ unread x;
  a_known e h : I !! e = Some h → e ∈ N ∨ is_Some (T !! e);
  a_sender e id : T !! e = Some id →
    ∃ h x c, I !! e = Some h ∧ V !! h = Some x ∧ C !! id = Some c ∧ given x c;
  a_sender_inj e e' id : T !! e = Some id → T !! e' = Some id → e = e'
}.

Lemma agree_empty : agree ∅ ∅ [] ∅ [].
Proof. split; first [by constructor|by intros ? ?%elem_of_nil|by intros]. Qed.

(** A new socket for a new endpoint. *)
Lemma agree_add V I N T C e h x :
  agree V I N T C → V !! h = None → I !! e = None → own e x → unread x →
  agree (<[h := x]> V) (<[e := h]> I) (N ++ [e]) T C.
Proof.
  intros [] Hh He Ho Hu.
  assert (∀ e', I !! e' = Some h → False) as Hfree.
  { intros e' (y & Hy & _)%a_live0. congruence. }
  assert (T !! e = None) as Hte.
  { destruct (T !! e) eqn:Hs; [|done]. apply a_sender0 in Hs as (? & ? & ? & ? & _). congruence. }
  split.
  - intros e' h' [[<- <-]|[Hne Hi]]%lookup_insert_Some; [exists x; by rewrite lookup_insert_eq|].
    destruct (a_live0 _ _ Hi) as (y & Hy & ?). exists y.
    rewrite lookup_insert_ne by congruence. done.
  - intros h' y [[<- <-]|[Hne Hi]]%lookup_insert_Some; [exists e; by rewrite lookup_insert_eq|].
    destruct (a_owner0 _ _ Hi) as (e' & He'). exists e'. rewrite lookup_insert_ne by congruence. done.
  - intros e1 e2 h' [[<- <-]|[? ?]]%lookup_insert_Some [[<- Hx]|[? ?]]%lookup_insert_Some;
      simplify_eq; try done; [exfalso..|]; eauto.
  - apply NoDup_app. split_and!; [done| |apply NoDup_singleton].
    intros e' Hn ->%list_elem_of_singleton. destruct (a_new0 _ Hn) as (_ & ? & ? & ? & _). congruence.
  - intros e' [Hn|Hs%list_elem_of_singleton]%elem_of_app.
    + destruct (a_new0 _ Hn) as (? & h' & y & ? & ? & ?). split; [done|]. exists h', y.
      rewrite !lookup_insert_ne by congruence. done.
    + subst. split; [done|]. exists h, x. by rewrite !lookup_insert_eq.
  - intros e' h' [[<- _]|[_ Hi]]%lookup_insert_Some; [set_solver|].
    destruct (a_known0 _ _ Hi); [|auto]. set_solver.
  - intros e' id Ht. destruct (a_sender0 _ _ Ht) as (h' & y & c & ? & ? & ? & ?). exists h', y, c.
    rewrite !lookup_insert_ne by congruence. done.
  - done.
Qed.

(** A stream for the first endpoint without one. *)
Lemma agree_accept V I e N T C c :
  agree V I (e :: N) T C → (∀ x, unread x → given x c) →
  agree V I N (<[e := length C]> T) (C ++ [c]).
Proof.
  intros [] Hc. apply NoDup_cons in a_nodup0 as [Hne Hnd].
  assert (∀ e' id, T !! e' = Some id → (id < length C)%nat) as Hlt.
  { intros e' id (? & ? & ? & _ & _ & ?%lookup_lt_Some & _)%a_sender0. done. }
  split; try done.
  - intros e' He'. destruct (a_new0 e') as (? & ?); [set_solver|]. split; [|done].
    rewrite lookup_insert_ne; [done|set_solver].
  - intros e' h Hi. destruct (decide (e = e')) as [<-|?]; [rewrite lookup_insert_eq; eauto|].
    rewrite lookup_insert_ne by done. destruct (a_known0 _ _ Hi); [set_solver|auto].
  - intros e' id [[<- <-]|[Hn Ht]]%lookup_insert_Some.
    + destruct (a_new0 e) as (_ & h & x & ? & ? & ?); [set_solver|]. exists h, x, c.
      rewrite lookup_app_r, Nat.sub_diag by done. auto.
    + destruct (a_sender0 _ _ Ht) as (h' & y & c' & ? & ? & ? & ?). exists h', y, c'.
      rewrite lookup_app_l by eauto. done.
  - intros e1 e2 id [[<- <-]|[? H1]]%lookup_insert_Some [[<- Hx]|[? H2]]%lookup_insert_Some;
      [done|..|eauto].
    + apply Hlt in H2. lia.
    + apply Hlt in H1. lia.
Qed.

(** A socket that changes, and with it possibly its channel. *)
Lemma agree_update V I N T C e h x x' :
  agree V I N T C → V !! h = Some x → I !! e = Some h →
  (own e x → own e x') → (unread x → unread x') → (∀ c, given x c → given x' c) →
  agree (<[h := x']> V) I N T C.
Proof.
  intros [] Hx He Ho Hu Hg. split; try done.
  - intros e' h' Hi. destruct (a_live0 _ _ Hi) as (y & Hy & Hoy).
    destruct (decide (h = h')) as [<-|?]; [|by rewrite lookup_insert_ne by done; eauto].
    rewrite lookup_insert_eq. simplify_eq. rewrite (a_inj0 _ _ _ Hi He) in *. eauto.
  - intros h' y [[<- <-]|[_ Hv]]%lookup_insert_Some; eauto.
  - intros e' Hn. destruct (a_new0 _ Hn) as (? & h' & y & ? & ? & ?). split; [done|].
    destruct (decide (h = h')) as [<-|?].
    + exists h, x'. rewrite lookup_insert_eq. simplify_eq. auto.
    + exists h', y. by rewrite lookup_insert_ne.
  - intros e' id Ht. destruct (a_sender0 _ _ Ht) as (h' & y & c & ? & ? & ? & ?).
    destruct (decide (h = h')) as [<-|?].
    + exists h, x', c. rewrite lookup_insert_eq. simplify_eq. auto.
    + exists h', y, c. by rewrite lookup_insert_ne.
Qed.

Lemma agree_give V I T C e h x x' id c c' :
  agree V I [] T C → V !! h = Some x → I !! e = Some h → T !! e = Some id → C !! id = Some c →
  (own e x → own e x') → given x' c' →
  agree (<[h := x']> V) I [] T (<[id := c']> C).
Proof.
  intros [] Hx He Ht Hc Ho Hg. split; try done.
  - intros e' h' Hi. destruct (a_live0 _ _ Hi) as (y & Hy & Hoy).
    destruct (decide (h = h')) as [<-|?]; [|by rewrite lookup_insert_ne by done; eauto].
    rewrite lookup_insert_eq. simplify_eq. rewrite (a_inj0 _ _ _ Hi He) in *. eauto.
  - intros h' y [[<- <-]|[_ Hv]]%lookup_insert_Some; eauto.
  - by intros e' ?%elem_of_nil.
  - intros e' id' Ht'. destruct (a_sender0 _ _ Ht') as (h' & y & c'' & Hi & ? & ? & ?).
    destruct (decide (e = e')) as [<-|Hne].
    + simplify_eq. exists h, x', c'. rewrite lookup_insert_eq.
      rewrite list_lookup_insert_eq by (by eapply lookup_lt_Some). done.
    + exists h', y, c''. rewrite lookup_insert_ne, list_lookup_insert_ne; [done| |].
      * intros ->. by rewrite (a_sender_inj0 _ _ _ Ht Ht') in Hne.
      * intros ->. by rewrite (a_inj0 _ _ _ He Hi) in Hne.
Qed.

(** The end of an endpoint that has a stream. *)
Lemma agree_remove V I T C e h :
  agree V I [] T C → I !! e = Some h →
  agree (delete h V) (delete e I) [] (delete e T) C.
Proof.
  intros [] He.
  assert (∀ e' h', e ≠ e' → I !! e' = Some h' → h ≠ h') as Hne.
  { intros e' h' Hn Hi ->. by destruct Hn; eauto. }
  split; try done.
  - intros e' h' [Hn Hi]%lookup_delete_Some. destruct (a_live0 _ _ Hi) as (x & ? & ?).
    exists x. rewrite lookup_delete_ne by eauto. done.
  - intros h' x [Hn Hv]%lookup_delete_Some. destruct (a_owner0 _ _ Hv) as (e' & Hi).
    exists e'. rewrite lookup_delete_ne; [done|]. intros ->. congruence.
  - intros e1 e2 h' [_ H1]%lookup_delete_Some [_ H2]%lookup_delete_Some. eauto.
  - by intros e' ?%elem_of_nil.
  - intros e' h' [Hn Hi]%lookup_delete_Some. rewrite lookup_delete_ne by done. eauto.
  - intros e' id [Hn Ht]%lookup_delete_Some. destruct (a_sender0 _ _ Ht) as (h' & x & c & ? & ? & ? & ?).
    exists h', x, c. rewrite !lookup_delete_ne by eauto. done.
  - intros e1 e2 id [_ H1]%lookup_delete_Some [_ H2]%lookup_delete_Some. eauto.
Qed.

Lemma agree_forget V I N T C e :
  agree V I N T C → I !! e = None → agree V I N (delete e T) C.
Proof.
  intros [] He.
  assert (T !! e = None) as Hte.
  { destruct (T !! e) eqn:Hs; [|done]. apply a_sender0 in Hs as (? & ? & ? & ? & _). congruence. }
  by rewrite delete_id.
Qed.

(** Sockets and channels that change by themselves. *)
Lemma agree_evolve V V' I N T C C' :
  agree V I N T C →
  (∀ h x', V' !! h = Some x' → ∃ x, V !! h = Some x) →
  (∀ e h x, I !! e = Some h → V !! h = Some x →
     ∃ x', V' !! h = Some x' ∧ (own e x → own e x') ∧ (unread x → unread x')
       ∧ ∀ id c, T !! e = Some id → C !! id = Some c → given x c →
           ∃ c', C' !! id = Some c' ∧ given x' c') →
  agree V' I N T C'.
Proof.
  intros [] Hback Hfwd. split; try done.
  - intros e h Hi. destruct (a_live0 _ _ Hi) as (x & Hx & ?).
    destruct (Hfwd _ _ _ Hi Hx) as (x' & ? & ? & _). eauto.
  - intros h x' (x & Hx)%Hback. eauto.
  - intros e Hn. destruct (a_new0 _ Hn) as (? & h & x & Hi & Hx & ?). split; [done|].
    destruct (Hfwd _ _ _ Hi Hx) as (x' & ? & _ & ? & _). eauto 10.
  - intros e id Ht. destruct (a_sender0 _ _ Ht) as (h & x & c & Hi & Hx & Hc & Hg).
    destruct (Hfwd _ _ _ Hi Hx) as (x' & ? & _ & _ & Hch).
    destruct (Hch _ _ Ht Hc Hg) as (c' & ? & ?). eauto 10.
Qed.

End Tables.

Arguments agree {X Y} own unread given V I N T C.
