(* ===== verification/TunDevice.v ===== *)
(** * The tunnel device of the asynchronous tunnels
    ([async_smoltcp/src/device.rs])

    [TunDevice] stands between a virtual network device, smoltcp and the
    asynchronous tasks: it makes a socket for every new destination it allows,
    hands what the sockets receive to the tasks' channels and what the tasks
    write to the sockets.  The receiving ends of the channels belong to the
    tasks; all channels are in the state ([tcp_chans], [udp_chans]), and the
    tables of senders name them by their index.  [None] is a panic. *)

From Stdlib Require Import ZArith Lia SpecFloat.
From stdpp Require Import base option list gmap fin_maps relations.
From S2P Require Import Prelude.
From S2P Require Import Net.
From S2P Require Import IpSet.
From S2P Require Import Smoltcp.
From S2P Require Import SocketTables.

Open Scope Z_scope.

(** [is_private_v4]; the classification of smoltcp's addresses is a parameter. *)
Definition is_private_v4 (k : Ipv4Class) (addr : IpAddr) : option bool :=
  match addr with
  | V4 ip =>
      i0 ← ip.[0%nat]; i1 ← ip.[1%nat];
      Some (smol_is_unspecified k ip
        || (i0 =? 10)
        || smol_is_loopback k ip
        || smol_is_link_local k ip
        || ((i0 =? 172) && (Z.land i1 240 =? 16))
        || ((i0 =? 192) && (i1 =? 168))
        || smol_is_multicast k ip
        || (Z.land i0 240 =? 240)
        || smol_is_broadcast k ip)
  | V6 _ => Some true
  end.

(** The streams [accept_tcp] and [accept_udp] return: the channel of the reader,
    the client's address and the destination. *)
Record TcpStream : Type :=
  mkTcpStream { ts_receiver : nat; ts_local : SocketAddr; ts_peer : SocketAddr }.
Record UdpStream : Type := mkUdpStream { us_receiver : nat; us_peer : SocketAddr }.

Record Traffic : Type := mkTraffic { rx_bytes : Z; tx_bytes : Z; begin_traffic : Z }.

(** The fields that are set before the device runs. *)
Record Limits : Type := mkLimits {
  mtu : Z;
  white_ip_list : gset IpAddr;
  black_ip_list : gset IpAddr;
  private_allowed : bool;
  channel_buffer_size : Z;
  tcp_tx_buffer_size : Z;
  tcp_rx_buffer_size : Z;
  udp_tx_buffer_size : Z;
  udp_rx_buffer_size : Z
}.

Module TunDevice.

Section Device.
Context {Stk : Smoltcp} (k : Ipv4Class).

Record t : Type := mk {
  traffic : Traffic;
  limits : Limits;
  sockets : SocketSet;
  tcp_ip2handle : gmap SocketAddr (nat * SocketAddr);
  tcp_handle2ip : gmap nat SocketAddr;
  udp_ip2handle : gmap SocketAddr nat;
  new_tcp : list SocketAddr;
  new_udp : list SocketAddr;
  tcp_receiver : Chan (SocketAddr * bytes);
  tcp_req_senders : gmap SocketAddr nat;
  tcp_chans : list (Chan bytes);
  udp_receiver : Chan (SocketAddr * SocketAddr * bytes);
  udp_req_senders : gmap SocketAddr nat;
  udp_chans : list (Chan (SocketAddr * bytes));
  tcp_response : gmap SocketAddr (list bytes);
  last_shrink : Z
}.

Definition with_traffic (d : t) (x : Traffic) : t :=
  mk x (limits d) (sockets d) (tcp_ip2handle d) (tcp_handle2ip d) (udp_ip2handle d) (new_tcp d)
    (new_udp d) (tcp_receiver d) (tcp_req_senders d) (tcp_chans d) (udp_receiver d)
    (udp_req_senders d) (udp_chans d) (tcp_response d) (last_shrink d).
Definition with_limits (d : t) (x : Limits) : t :=
  mk (traffic d) x (sockets d) (tcp_ip2handle d) (tcp_handle2ip d) (udp_ip2handle d) (new_tcp d)
    (new_udp d) (tcp_receiver d) (tcp_req_senders d) (tcp_chans d) (udp_receiver d)
    (udp_req_senders d) (udp_chans d) (tcp_response d) (last_shrink d).
Definition with_sockets (d : t) (x : SocketSet) : t :=
  mk (traffic d) (limits d) x (tcp_ip2handle d) (tcp_handle2ip d) (udp_ip2handle d) (new_tcp d)
    (new_udp d) (tcp_receiver d) (tcp_req_senders d) (tcp_chans d) (udp_receiver d)
    (udp_req_senders d) (udp_chans d) (tcp_response d) (last_shrink d).
Definition with_tcp_tables (d : t) (i : gmap SocketAddr (nat * SocketAddr))
    (h : gmap nat SocketAddr) (n : list SocketAddr) : t :=
  mk (traffic d) (limits d) (sockets d) i h (udp_ip2handle d) n
    (new_udp d) (tcp_receiver d) (tcp_req_senders d) (tcp_chans d) (udp_receiver d)
    (udp_req_senders d) (udp_chans d) (tcp_response d) (last_shrink d).
Definition with_udp_tables (d : t) (i : gmap SocketAddr nat) (n : list SocketAddr) : t :=
  mk (traffic d) (limits d) (sockets d) (tcp_ip2handle d) (tcp_handle2ip d) i (new_tcp d)
    n (tcp_receiver d) (tcp_req_senders d) (tcp_chans d) (udp_receiver d)
    (udp_req_senders d) (udp_chans d) (tcp_response d) (last_shrink d).
Definition with_tcp_senders (d : t) (x : gmap SocketAddr nat) (c : list (Chan bytes)) : t :=
  mk (traffic d) (limits d) (sockets d) (tcp_ip2handle d) (tcp_handle2ip d) (udp_ip2handle d)
    (new_tcp d) (new_udp d) (tcp_receiver d) x c (udp_receiver d)
    (udp_req_senders d) (udp_chans d) (tcp_response d) (last_shrink d).
Definition with_udp_senders (d : t) (x : gmap SocketAddr nat)
    (c : list (Chan (SocketAddr * bytes))) : t :=
  mk (traffic d) (limits d) (sockets d) (tcp_ip2handle d) (tcp_handle2ip d) (udp_ip2handle d)
    (new_tcp d) (new_udp d) (tcp_receiver d) (tcp_req_senders d) (tcp_chans d) (udp_receiver d)
    x c (tcp_response d) (last_shrink d).
Definition with_receivers (d : t) (x : Chan (SocketAddr * bytes))
    (y : Chan (SocketAddr * SocketAddr * bytes)) : t :=
  mk (traffic d) (limits d) (sockets d) (tcp_ip2handle d) (tcp_handle2ip d) (udp_ip2handle d)
    (new_tcp d) (new_udp d) x (tcp_req_senders d) (tcp_chans d) y
    (udp_req_senders d) (udp_chans d) (tcp_response d) (last_shrink d).
Definition with_response (d : t) (x : gmap SocketAddr (list bytes)) : t :=
  mk (traffic d) (limits d) (sockets d) (tcp_ip2handle d) (tcp_handle2ip d) (udp_ip2handle d)
    (new_tcp d) (new_udp d) (tcp_receiver d) (tcp_req_senders d) (tcp_chans d) (udp_receiver d)
    (udp_req_senders d) (udp_chans d) x (last_shrink d).
Definition with_last_shrink (d : t) (x : Z) : t :=
  mk (traffic d) (limits d) (sockets d) (tcp_ip2handle d) (tcp_handle2ip d) (udp_ip2handle d)
    (new_tcp d) (new_udp d) (tcp_receiver d) (tcp_req_senders d) (tcp_chans d) (udp_receiver d)
    (udp_req_senders d) (udp_chans d) (tcp_response d) x.

(** [new]; the interface itself is smoltcp's. *)
Definition new (mtu now : Z) : t :=
  let channel_buffer := 1024 in
  mk (mkTraffic 0 0 now)
    (mkLimits mtu ∅ ∅ false channel_buffer (wrap 64 (mtu * channel_buffer)) (wrap 64 (mtu * 128))
       (wrap 64 (mtu * channel_buffer)) (wrap 64 (mtu * 128)))
    sockets_empty ∅ ∅ ∅ [] [] (channel 1024) ∅ [] (channel 1024) ∅ [] ∅ now.

(** ** Configuration *)

Definition set_lists (l : Limits) (white black : gset IpAddr) (allow : bool) : Limits :=
  mkLimits (mtu l) white black allow (channel_buffer_size l) (tcp_tx_buffer_size l)
    (tcp_rx_buffer_size l) (udp_tx_buffer_size l) (udp_rx_buffer_size l).

Definition add_black_ip (server_addr : IpAddr) (d : t) : t :=
  let l := limits d in
  with_limits d (set_lists l (white_ip_list l) ({[server_addr]} ∪ black_ip_list l)
    (private_allowed l)).

Definition add_white_ip (addr : IpAddr) (d : t) : t :=
  let l := limits d in
  with_limits d (set_lists l ({[addr]} ∪ white_ip_list l) (black_ip_list l)
    (private_allowed l)).

Definition allow_private (allow : bool) (d : t) : t :=
  let l := limits d in
  with_limits d (set_lists l (white_ip_list l) (black_ip_list l) allow).

Definition set_tcp_buffer_size (rx tx : Z) (d : t) : t :=
  let l := limits d in
  with_limits d (mkLimits (mtu l) (white_ip_list l) (black_ip_list l) (private_allowed l)
    (channel_buffer_size l)
    (Z.max tx (wrap 64 (mtu l * channel_buffer_size l))) (Z.max rx (wrap 64 (mtu l * 128)))
    (udp_tx_buffer_size l) (udp_rx_buffer_size l)).

Definition set_udp_buffer_size (rx tx : Z) (d : t) : t :=
  let l := limits d in
  with_limits d (mkLimits (mtu l) (white_ip_list l) (black_ip_list l) (private_allowed l)
    (channel_buffer_size l) (tcp_tx_buffer_size l) (tcp_rx_buffer_size l)
    (Z.max tx (wrap 64 (mtu l * channel_buffer_size l))) (Z.max rx (wrap 64 (mtu l * 128)))).

Definition set_channel_buffer_size (channel : Z) (d : t) : t :=
  let l := limits d in
  let d := with_limits d (mkLimits (mtu l) (white_ip_list l) (black_ip_list l)
    (private_allowed l) (Z.max channel (channel_buffer_size l)) (tcp_tx_buffer_size l)
    (tcp_rx_buffer_size l) (udp_tx_buffer_size l) (udp_rx_buffer_size l)) in
  let d := set_tcp_buffer_size (tcp_rx_buffer_size (limits d)) (tcp_tx_buffer_size (limits d)) d in
  set_udp_buffer_size (udp_rx_buffer_size (limits d)) (udp_tx_buffer_size (limits d)) d.

(** ** New destinations *)

Definition allowed (d : t) (endpoint : SocketAddr) : option bool :=
  let l := limits d in
  if (sa_port endpoint =? 0) || bool_decide (sa_ip endpoint ∈ black_ip_list l) then Some false
  else if bool_decide (sa_ip endpoint ∈ white_ip_list l) then Some true
  else if private_allowed l then Some true
  else p ← is_private_v4 k (sa_ip endpoint); Some (negb p).

Definition ensure_tcp_socket (d : t) (dst_endpoint src_endpoint : SocketAddr) : option t :=
  match tcp_ip2handle d !! src_endpoint with
  | Some _ => Some d
  | None =>
      let socket := tcp_new (tcp_rx_buffer_size (limits d)) (tcp_tx_buffer_size (limits d)) in
      let '(handle, ss) := sockets_add (sockets d) (Tcp socket) in
      socket ← get_tcp ss handle;
      socket ← tcp_listen socket dst_endpoint;
      let socket := set_ack_delay None (set_nagle_enabled false socket) in
      Some (with_tcp_tables (with_sockets d (sockets_put ss handle (Tcp socket)))
              (<[src_endpoint := (handle, dst_endpoint)]> (tcp_ip2handle d))
              (<[handle := src_endpoint]> (tcp_handle2ip d))
              (new_tcp d ++ [src_endpoint]))
  end.

(** Division by [mtu] panics when it is zero. *)
Definition ensure_udp_socket (d : t) (dst_endpoint : SocketAddr) : option t :=
  match udp_ip2handle d !! dst_endpoint with
  | Some _ => Some d
  | None =>
      let l := limits d in
      if mtu l =? 0 then None
      else
        socket ← udp_bind (udp_new (udp_rx_buffer_size l / mtu l) (udp_rx_buffer_size l)
                             (udp_tx_buffer_size l / mtu l) (udp_tx_buffer_size l)) dst_endpoint;
        let '(handle, ss) := sockets_add (sockets d) (Udp socket) in
        Some (with_udp_tables (with_sockets d ss)
                (<[dst_endpoint := handle]> (udp_ip2handle d)) (new_udp d ++ [dst_endpoint]))
  end.

(** [preprocess_packet]: what it takes from the headers, and what it does. *)
Inductive preprocessed : Type :=
  | PreIgnored
  | PreUdp (dst src : SocketAddr)
  | PreTcp (dst src : SocketAddr) (connect : bool).

Definition packet_headers (packet : bytes) : option preprocessed :=
  version ← ip_version packet;
  ip ← match version with
       | Ipv4 => ipv4_new_checked packet
       | Ipv6 => ipv6_new_checked packet
       end;
  match next_header ip with
  | ProtoUdp =>
      p ← udp_new_checked (ip_payload ip);
      Some (PreUdp (mkSocketAddr (dst_addr ip) (udp_dst_port p))
                   (mkSocketAddr (src_addr ip) (udp_src_port p)))
  | ProtoTcp =>
      p ← tcp_new_checked (ip_payload ip);
      Some (PreTcp (mkSocketAddr (dst_addr ip) (tcp_dst_port p))
                   (mkSocketAddr (src_addr ip) (tcp_src_port p)) (tcp_syn p && negb (tcp_ack p)))
  | ProtoOther => Some PreIgnored
  end.

Definition preprocess_packet (d : t) (packet : bytes) : option t :=
  pre ← packet_headers packet;
  match pre with
  | PreIgnored => Some d
  | PreUdp dst _ =>
      ok ← allowed d dst;
      if ok : bool then ensure_udp_socket d dst else Some d
  | PreTcp dst src connect =>
      ok ← allowed d dst;
      if (ok : bool) && connect then ensure_tcp_socket d dst src else Some d
  end.

(** ** The device smoltcp drives *)

Definition count_rx (d : t) (n : Z) : t :=
  with_traffic d (mkTraffic (wrap 64 (rx_bytes (traffic d) + n)) (tx_bytes (traffic d))
                    (begin_traffic (traffic d))).

(** [Device::receive] on the outcome of [tun.receive()]: an error panics. *)
Definition receive (d : t) (r : io_result (option bytes)) : option t :=
  match r with
  | IoErr _ => None
  | IoOk None => Some d
  | IoOk (Some packet) => preprocess_packet (count_rx d (Z.of_nat (length packet))) packet
  end.

(** [TxToken::consume] on whether a packet could be allocated and sent. *)
Definition consume (d : t) (len : Z) (allocated sent : bool) : option t :=
  if allocated && sent
  then Some (with_traffic d (mkTraffic (rx_bytes (traffic d)) (wrap 64 (tx_bytes (traffic d) + len))
                               (begin_traffic (traffic d))))
  else None.

(** [calculate_speed]: [f64] is IEEE binary64, rounding to nearest. *)
Definition f64_of_Z (z : Z) : spec_float := binary_normalize 53 1024 z 0 false.
Definition as_secs_f64 (d : Z) : spec_float :=
  SFadd 53 1024 (f64_of_Z (as_secs d)) (SFdiv 53 1024 (f64_of_Z (d mod 1000000000)) (f64_of_Z 1000000000)).

Definition calculate_speed (now : Z) (d : t) : (spec_float * spec_float) * t :=
  let time := as_secs_f64 (since now (begin_traffic (traffic d))) in
  let speed (n : Z) := SFdiv 53 1024 (SFdiv 53 1024 (f64_of_Z n) time) (f64_of_Z 1024) in
  ((speed (rx_bytes (traffic d)), speed (tx_bytes (traffic d))),
   with_traffic d (mkTraffic 0 0 now)).

(** ** Handing out streams *)

Definition accept_one (acc : option (list TcpStream * t)) (source : SocketAddr) :
    option (list TcpStream * t) :=
  '(streams, d) ← acc;
  let id := length (tcp_chans d) in
  let d := with_tcp_senders d (<[source := id]> (tcp_req_senders d))
             (tcp_chans d ++ [channel (Z.to_nat (channel_buffer_size (limits d)))]) in
  e ← tcp_ip2handle d !! source;
  Some (streams ++ [mkTcpStream id source e.2], d).

Definition accept_tcp (d : t) : option (list TcpStream * t) :=
  foldl accept_one (Some ([], with_tcp_tables d (tcp_ip2handle d) (tcp_handle2ip d) [])) (new_tcp d).

Definition accept_one_udp (acc : list UdpStream * t) (target : SocketAddr) : list UdpStream * t :=
  let '(streams, d) := acc in
  let id := length (udp_chans d) in
  (streams ++ [mkUdpStream id target],
   with_udp_senders d (<[target := id]> (udp_req_senders d))
     (udp_chans d ++ [channel (Z.to_nat (channel_buffer_size (limits d)))])).

Definition accept_udp (d : t) : list UdpStream * t :=
  foldl accept_one_udp ([], with_udp_tables d (udp_ip2handle d) []) (new_udp d).

(** ** Removal *)

Definition remove_tcp (source : SocketAddr) (d : t) : option t :=
  d ← match tcp_ip2handle d !! source with
      | Some (handle, _) =>
          ss ← sockets_remove (sockets d) handle;
          Some (with_tcp_tables (with_sockets d ss) (delete source (tcp_ip2handle d))
                  (tcp_handle2ip d) (new_tcp d))
      | None => Some d
      end;
  Some (with_response (with_tcp_senders d (delete source (tcp_req_senders d)) (tcp_chans d))
          (delete source (tcp_response d))).

Definition remove_tcp_handle (handle : nat) (d : t) : option t :=
  match tcp_handle2ip d !! handle with
  | Some source =>
      d ← remove_tcp source d;
      Some (with_tcp_tables d (tcp_ip2handle d) (delete handle (tcp_handle2ip d)) (new_tcp d))
  | None => Some d
  end.

Definition remove_udp (target : SocketAddr) (d : t) : option t :=
  d ← match udp_ip2handle d !! target with
      | Some handle =>
          ss ← sockets_remove (sockets d) handle;
          Some (with_udp_tables (with_sockets d ss) (delete target (udp_ip2handle d)) (new_udp d))
      | None => Some d
      end;
  Some (with_udp_senders d (delete target (udp_req_senders d)) (udp_chans d)).

Definition get_tcp_socket (d : t) (source : SocketAddr) : option (nat * TcpSocket) :=
  e ← tcp_ip2handle d !! source;
  s ← get_tcp (sockets d) e.1;
  Some (e.1, s).

Definition get_udp_socket (d : t) (target : SocketAddr) : option (nat * UdpSocket) :=
  h ← udp_ip2handle d !! target;
  s ← get_udp (sockets d) h;
  Some (h, s).

(** ** From the sockets to the tasks *)

(** The loop over what a TCP socket has received: each turn drains its receive
    queue into one message.  [S (capacity c)] is enough fuel. *)
Fixpoint dispatch_tcp (fuel : nat) (socket : TcpSocket) (sender : Chan bytes) :
    option (TcpSocket * Chan bytes) :=
  match fuel with
  | O => None
  | S fuel =>
      if tcp_can_recv socket && (0 <? capacity sender)%nat then
        let '(r, socket) := tcp_recv_slice socket (recv_queue socket) in
        match r with
        | Some buffer =>
            match try_send sender buffer with
            | Some sender => dispatch_tcp fuel socket sender
            | None => Some (tcp_close socket, sender)
            end
        | None => Some (tcp_close socket, sender)
        end
      else Some (socket, sender)
  end.

(** The end of the client's half is passed on as an empty message. *)
Definition close_wait (socket : TcpSocket) (sender : Chan bytes) : TcpSocket * Chan bytes :=
  if bool_decide (tcp_state socket = CloseWait) && (send_queue socket =? 0)%nat
  then (tcp_close socket, default sender (try_send sender []))
  else (socket, sender).

(** The same loop for a UDP socket; the result says whether the socket is to be
    removed. *)
Fixpoint dispatch_udp (fuel : nat) (mtu : nat) (socket : UdpSocket)
    (sender : Chan (SocketAddr * bytes)) : option (UdpSocket * Chan (SocketAddr * bytes) * bool) :=
  match fuel with
  | O => None
  | S fuel =>
      if udp_can_recv socket && (0 <? capacity sender)%nat then
        let '(r, socket) := udp_recv_slice socket mtu in
        match r with
        | Some (buffer, source) =>
            match try_send sender (source, buffer) with
            | Some sender => dispatch_udp fuel mtu socket sender
            | None => Some (socket, sender, true)
            end
        | None => Some (socket, sender, true)
        end
      else Some (socket, sender, false)
  end.

(** What the visits of the sockets collect. *)
Record Ingress : Type := mkIngress {
  in_device : t;
  handles : list nat;
  tcp_endpoints : list SocketAddr;
  udp_endpoints : list SocketAddr
}.

Definition visit_tcp (st : Ingress) (handle : nat) (socket : TcpSocket) : option Ingress :=
  let d := in_device st in
  if negb (tcp_can_recv socket) then Some st
  else
    match remote_endpoint socket with
    | Some source =>
        id ← tcp_req_senders d !! source;
        sender ← tcp_chans d !! id;
        '(socket, sender) ← dispatch_tcp (S (capacity sender)) socket sender;
        let '(socket, sender) := close_wait socket sender in
        Some (mkIngress
                (with_tcp_senders (with_sockets d (sockets_put (sockets d) handle (Tcp socket)))
                   (tcp_req_senders d) (<[id := sender]> (tcp_chans d)))
                (handles st)
                (tcp_endpoints st ++ if is_active socket then [] else [source])
                (udp_endpoints st))
    | None => Some (mkIngress d (handles st ++ [handle]) (tcp_endpoints st) (udp_endpoints st))
    end.

Definition visit_udp (st : Ingress) (handle : nat) (socket : UdpSocket) : option Ingress :=
  let d := in_device st in
  if negb (udp_can_recv socket) then Some st
  else
    addr ← (udp_endpoint socket).1;
    let target := mkSocketAddr addr (udp_endpoint socket).2 in
    id ← udp_req_senders d !! target;
    sender ← udp_chans d !! id;
    '(socket, sender, failed) ←
      dispatch_udp (S (capacity sender)) (Z.to_nat (mtu (limits d))) socket sender;
    Some (mkIngress
            (with_udp_senders (with_sockets d (sockets_put (sockets d) handle (Udp socket)))
               (udp_req_senders d) (<[id := sender]> (udp_chans d)))
            (handles st) (tcp_endpoints st)
            (udp_endpoints st ++ (if failed : bool then [target] else [])
               ++ (if udp_is_open socket then [] else [target]))).

Definition visit (acc : option Ingress) (handle : nat) : option Ingress :=
  st ← acc;
  socket ← sockets_get (sockets (in_device st)) handle;
  match socket with
  | Tcp socket => visit_tcp st handle socket
  | Udp socket => visit_udp st handle socket
  end.

Definition remove_all {A} (remove : A → t → option t) (l : list A) (d : t) : option t :=
  foldl (λ acc x, d ← acc; remove x d) (Some d) l.

Definition process_ingress (d : t) : option t :=
  st ← foldl visit (Some (mkIngress d [] [] [])) (sockets_iter (sockets d)).*1;
  d ← remove_all remove_tcp (tcp_endpoints st) (in_device st);
  d ← remove_all remove_udp (udp_endpoints st) d;
  remove_all remove_tcp_handle (handles st) d.

(** ** From the tasks to the sockets *)

(** [while let Ok(x) = receiver.try_recv()]. *)
Definition recv_all {A} (c : Chan A) : list A * Chan A :=
  (chan_queue c, mkChan (chan_log c) (length (chan_log c)) (chan_limit c) (chan_closed c)).

(** What a source's packets become and the socket they were sent on.  An empty
    packet, and one the socket refuses, closes it; what the socket cannot take
    yet stays.  ([advance(n)] does not panic: a socket takes at most what it is
    given.) *)
Fixpoint send_packets (packets : list bytes) (socket : TcpSocket) : list bytes * TcpSocket :=
  match packets with
  | [] => ([], socket)
  | [] :: packets => send_packets packets (tcp_close socket)
  | data :: packets =>
      let '(r, socket) := tcp_send_slice socket data in
      match r with
      | Some n =>
          match drop n data with
          | [] => send_packets packets socket
          | rest => (rest :: packets, socket)
          end
      | None => send_packets packets (tcp_close socket)
      end
  end.

Definition push_response {K V} `{Countable K} (m : gmap K (list V)) (kv : K * V) : gmap K (list V) :=
  <[kv.1 := default [] (m !! kv.1) ++ [kv.2]]> m.

(** One entry of [response]: it stays, with what its socket has not taken, when
    the source has a socket. *)
Definition respond (acc : option (t * gmap SocketAddr (list bytes)))
    (e : SocketAddr * list bytes) : option (t * gmap SocketAddr (list bytes)) :=
  '(d, response) ← acc;
  let '(source, packets) := e in
  match tcp_ip2handle d !! source with
  | None => Some (d, delete source response)
  | Some _ =>
      '(handle, socket) ← get_tcp_socket d source;
      let '(packets, socket) := send_packets packets socket in
      Some (with_sockets d (sockets_put (sockets d) handle (Tcp socket)),
            <[source := packets]> response)
  end.

(** [true] when the socket is to be removed: an empty packet, or one the socket
    refuses. *)
Fixpoint send_datagrams (packets : list (SocketAddr * bytes)) (socket : UdpSocket) :
    bool * UdpSocket :=
  match packets with
  | [] => (false, socket)
  | (source, []) :: _ => (true, socket)
  | (source, data) :: packets =>
      let '(ok, socket) := udp_send_slice socket data source in
      if ok : bool then send_datagrams packets socket else (true, socket)
  end.

Definition respond_udp (acc : option t) (e : SocketAddr * list (SocketAddr * bytes)) : option t :=
  d ← acc;
  let '(target, packets) := e in
  match udp_ip2handle d !! target with
  | None => Some d
  | Some _ =>
      '(handle, socket) ← get_udp_socket d target;
      let '(remove, socket) := send_datagrams packets socket in
      let d := with_sockets d (sockets_put (sockets d) handle (Udp socket)) in
      if remove : bool then remove_udp target d else Some d
  end.

Definition process_egress (d : t) : option t :=
  let '(msgs, receiver) := recv_all (tcp_receiver d) in
  let response := foldl push_response (tcp_response d) msgs in
  let d := with_receivers (with_response d ∅) receiver (udp_receiver d) in
  '(d, response) ← foldl respond (Some (d, response)) (map_to_list response);
  let d := with_response d response in
  let '(msgs, receiver) := recv_all (udp_receiver d) in
  let response : gmap SocketAddr (list (SocketAddr * bytes)) :=
    foldl (λ m '(source, target, data), push_response m (target, (source, data))) ∅ msgs in
  foldl respond_udp (Some (with_receivers d (tcp_receiver d) receiver)) (map_to_list response).

(** [poll] after smoltcp's interface has been polled; [shrink_to_fit] does not
    change a map. *)
Definition poll (now : Z) (d : t) : option (list TcpStream * list UdpStream * t) :=
  '(tcp, d) ← accept_tcp d;
  let '(udp, d) := accept_udp d in
  d ← process_ingress d;
  d ← process_egress d;
  Some (tcp, udp, if 1 <? as_secs (since now (last_shrink d)) then with_last_shrink d now else d).

(** ** The environment's steps *)

(** The tasks: they take from their channels, close them, and write. *)
Inductive task_step : t → t → Prop :=
  | task_reads d id c x c' :
      tcp_chans d !! id = Some c → try_recv c = Some (x, c') →
      task_step d (with_tcp_senders d (tcp_req_senders d) (<[id := c']> (tcp_chans d)))
  | task_closes d id c :
      tcp_chans d !! id = Some c →
      task_step d (with_tcp_senders d (tcp_req_senders d) (<[id := chan_close c]> (tcp_chans d)))
  | task_writes d x c' :
      try_send (tcp_receiver d) x = Some c' →
      task_step d (with_receivers d c' (udp_receiver d))
  | task_receives_from d id c x c' :
      udp_chans d !! id = Some c → try_recv c = Some (x, c') →
      task_step d (with_udp_senders d (udp_req_senders d) (<[id := c']> (udp_chans d)))
  | task_closes_udp d id c :
      udp_chans d !! id = Some c →
      task_step d (with_udp_senders d (udp_req_senders d) (<[id := chan_close c]> (udp_chans d)))
  | task_sends_to d x c' :
      try_send (udp_receiver d) x = Some c' →
      task_step d (with_receivers d (tcp_receiver d) c').

(** smoltcp: it calls the device, and changes the sockets.  A TCP socket that
    listens for a source's connection is connected to that source: the packet that
    made the socket is the next the stack handles. *)
Inductive stack_step `{!Observed Stk} : t → t → Prop :=
  | stack_receives d r d' : receive d r = Some d' → stack_step d d'
  | stack_transmits d len a b d' : consume d len a b = Some d' → stack_step d d'
  | stack_works d ss' :
      evolves (sockets d) ss' →
      (∀ h s e, sockets_view ss' !! h = Some (Tcp s) → remote_endpoint s = Some e →
         tcp_handle2ip d !! h = Some e) →
      stack_step d (with_sockets d ss').

Inductive step `{!Observed Stk} : t → t → Prop :=
  | step_task d d' : task_step d d' → step d d'
  | step_stack d d' : stack_step d d' → step d d'
  | step_poll now d out d' : poll now d = Some (out, d') → step d d'
  | step_speed now d : step d (calculate_speed now d).2.

End Device.

(** ** The invariant *)

Definition tcp_own `{Smoltcp} (e : SocketAddr) (s : TcpSocket) : Prop :=
  remote_endpoint s = None ∨ remote_endpoint s = Some e.
Definition tcp_unread `{Observed} (s : TcpSocket) : Prop := tcp_read s = 0%nat.
(** The channel has been given what was read, in order; once it is closed what was
    read last may be missing. *)
Definition tcp_given `{Observed} (s : TcpSocket) (c : Chan bytes) : Prop :=
  wf_chan c ∧ mjoin (chan_log c) `prefix_of` take (tcp_read s) (tcp_rx s)
  ∧ (chan_closed c = false → mjoin (chan_log c) = take (tcp_read s) (tcp_rx s)).

Definition udp_own `{Smoltcp} (e : SocketAddr) (s : UdpSocket) : Prop :=
  udp_endpoint s = (Some (sa_ip e), sa_port e).
Definition udp_unread `{Observed} (s : UdpSocket) : Prop := udp_read s = 0%nat.
(** The datagrams given arrived, in this order, none of them twice. *)
Definition udp_given `{Observed} (s : UdpSocket) (c : Chan (SocketAddr * bytes)) : Prop :=
  wf_chan c ∧ ((λ m, (m.2, m.1)) <$> chan_log c) `sublist_of` take (udp_read s) (udp_rx s).

Section Invariant.
Context {Stk : Smoltcp} {Obs : Observed Stk} {K : SmoltcpOk Stk} (k : Ipv4Class).

Abbreviation tcp_agree := (agree tcp_own tcp_unread tcp_given).
Abbreviation udp_agree := (agree udp_own udp_unread udp_given).

Record inv (d : t) : Prop := mkInv {
  i_mtu : mtu (limits d) ≠ 0;
  i_tcp : tcp_agree (tcps (sockets d)) (fst <$> tcp_ip2handle d) (new_tcp d) (tcp_req_senders d)
            (tcp_chans d);
  i_udp : udp_agree (udps (sockets d)) (udp_ip2handle d) (new_udp d) (udp_req_senders d)
            (udp_chans d);
  i_back src h dst : tcp_ip2handle d !! src = Some (h, dst) → tcp_handle2ip d !! h = Some src;
  i_tcp_allowed src h dst : tcp_ip2handle d !! src = Some (h, dst) → allowed k d dst = Some true;
  i_udp_allowed e h : udp_ip2handle d !! e = Some h → allowed k d e = Some true
}.

(** Every new endpoint has its stream. *)
Definition settled (d : t) : Prop := inv d ∧ new_tcp d = [] ∧ new_udp d = [].

Lemma fst_lookup (I : gmap SocketAddr (nat * SocketAddr)) e h :
  (fst <$> I) !! e = Some h ↔ ∃ dst, I !! e = Some (h, dst).
Proof.
  rewrite lookup_fmap. destruct (I !! e) as [[h' dst]|]; simpl; naive_solver.
Qed.

(** *** What a socket's calls change *)

(** Calls that read nothing from a TCP socket. *)
Definition tcp_sends (s s' : TcpSocket) : Prop :=
  tcp_rx s' = tcp_rx s ∧ tcp_read s' = tcp_read s
  ∧ (remote_endpoint s' = None ∨ remote_endpoint s' = remote_endpoint s).

#[export] Instance tcp_sends_preorder : PreOrder tcp_sends.
Proof.
  split; [by intros s; split_and!; auto|].
  intros s1 s2 s3 (R1 & E1 & H1) (R2 & E2 & H2). split_and!; [congruence..|].
  destruct H2 as [H2|H2]; rewrite H2; auto.
Qed.

Lemma tcp_keeps_sends s s' : tcp_keeps s s' → tcp_sends s s'.
Proof. by intros (? & ? & ? & ?). Qed.

Lemma tcp_sends_own e s s' : tcp_sends s s' → tcp_own e s → tcp_own e s'.
Proof. unfold tcp_own. intros (_ & _ & [H|H]); rewrite H; auto. Qed.

Lemma tcp_sends_unread s s' : tcp_sends s s' → tcp_unread s → tcp_unread s'.
Proof. unfold tcp_unread. by intros (_ & -> & _). Qed.

Lemma tcp_sends_given s s' c : tcp_sends s s' → tcp_given s c → tcp_given s' c.
Proof. unfold tcp_given. by intros (-> & -> & _). Qed.

Lemma tcp_unread_given s n : tcp_unread s → tcp_given s (channel n).
Proof. unfold tcp_unread, tcp_given. intros ->. split_and!; [apply wf_channel|apply prefix_nil|done]. Qed.

Lemma udp_unread_given s n : udp_unread s → udp_given s (channel n).
Proof. intros _. split; [apply wf_channel|apply sublist_nil_l]. Qed.

(** A message of what was read extends what the channel was given. *)
Lemma tcp_given_recv s n d s' c :
  tcp_given s c → tcp_recv_slice s n = (Some d, s') →
  (∀ c', try_send c d = Some c' → tcp_given s' c')
  ∧ (chan_closed c = true → tcp_given s' c).
Proof.
  intros (Hw & Hp & Ho) (Hrx & _ & _ & Hd & Hr)%tcp_recv_spec.
  assert (take (tcp_read s') (tcp_rx s') = take (tcp_read s) (tcp_rx s) ++ d) as Ht.
  { rewrite Hr, Hrx, <-take_take_drop. f_equal. rewrite Hd, length_take. apply take_min. }
  unfold tcp_given. rewrite Ht. split.
  - intros c' Hc. pose proof Hc as Hc'. apply try_send_Some in Hc as (Hl & Htk & _ & Hcl & _).
    assert (chan_closed c = false) as Hopen.
    { unfold try_send in Hc'. destruct (chan_closed c); [done|reflexivity]. }
    unfold wf_chan. rewrite Hl, Htk, Hcl, join_app, length_app, Ho by done. simpl. rewrite app_nil_r.
    unfold wf_chan in Hw. split_and!; [lia|done|done].
  - intros Hcl. split_and!; [done|by apply prefix_app_r|congruence].
Qed.

Lemma dispatch_tcp_ok fuel s c :
  tcp_given s c → (capacity c < fuel)%nat →
  ∃ s' c', dispatch_tcp fuel s c = Some (s', c') ∧ tcp_given s' c'
    ∧ (remote_endpoint s' = None ∨ remote_endpoint s' = remote_endpoint s).
Proof.
  revert s c. induction fuel as [|fuel IH]; intros s c Hg Hf; [lia|]. cbn [dispatch_tcp].
  destruct (tcp_can_recv s && (0 <? capacity c)%nat) eqn:Hb; [|eauto 10].
  apply andb_true_iff in Hb as [_ Hcap%Nat.ltb_lt].
  destruct (tcp_recv_slice s (recv_queue s)) as [[d|] s1] eqn:Hr.
  - destruct (tcp_given_recv _ _ _ _ _ Hg Hr) as [Hsend Hclosed].
    apply tcp_recv_spec in Hr as (_ & _ & He & _).
    destruct (try_send c d) as [c'|] eqn:Hs.
    + specialize (Hsend _ eq_refl). apply try_send_Some in Hs as (_ & _ & _ & _ & Hc).
      destruct (IH s1 c' Hsend) as (s' & c2 & Hd & Hg2 & He2); [rewrite Hc in Hf by apply Hg; lia|].
      exists s', c2. split_and!; [done..|]. by rewrite <-He.
    + exists (tcp_close s1), c. pose proof (tcp_keeps_sends _ _ (tcp_close_keeps s1)) as Hk.
      split_and!; [done| |rewrite <-He; apply Hk]. eapply tcp_sends_given; [done|]. apply Hclosed.
      revert Hs. unfold try_send. destruct (chan_closed c); [done|].
      by rewrite (proj2 (Nat.eqb_neq _ _)) by lia.
  - apply tcp_recv_spec in Hr as (Hrx & _ & He & Hrd).
    exists (tcp_close s1), c. pose proof (tcp_keeps_sends _ _ (tcp_close_keeps s1)) as Hk.
    split_and!; [done| |rewrite <-He; apply Hk]. eapply tcp_sends_given; [done|].
    revert Hg. unfold tcp_given. by rewrite Hrx, Hrd.
Qed.

Lemma close_wait_ok s c :
  tcp_given s c →
  tcp_given (close_wait s c).1 (close_wait s c).2
  ∧ (remote_endpoint (close_wait s c).1 = None ∨ remote_endpoint (close_wait s c).1 = remote_endpoint s).
Proof.
  intros Hg. unfold close_wait. destruct (_ && _); [|by auto].
  pose proof (tcp_keeps_sends _ _ (tcp_close_keeps s)) as Hk. split; [|apply Hk]. cbn [fst snd].
  apply (tcp_sends_given _ _ _ Hk) in Hg. destruct (try_send c []) as [c'|] eqn:Hs; [|done].
  destruct Hg as (Hw & Hp & Ho). apply try_send_Some in Hs as (Hl & Ht & _ & Hcl & _).
  change (default c (Some c')) with c'. unfold tcp_given, wf_chan. rewrite Hl, Ht, Hcl, join_app, length_app. simpl.
  rewrite app_nil_r.
  unfold wf_chan in Hw. split_and!; [lia|done|done].
Qed.

Lemma dispatch_udp_ok fuel n s c :
  udp_given s c → (capacity c < fuel)%nat →
  ∃ s' c' b, dispatch_udp fuel n s c = Some (s', c', b) ∧ udp_given s' c'
    ∧ udp_endpoint s' = udp_endpoint s.
Proof.
  revert s c. induction fuel as [|fuel IH]; intros s c [Hw Hg] Hf; [lia|]. cbn [dispatch_udp].
  destruct (udp_can_recv s && (0 <? capacity c)%nat) eqn:Hb; [|exists s, c, false; done].
  destruct (udp_recv_slice s n) as [[[d src]|] s1] eqn:Hr;
    apply udp_recv_slice_spec in Hr as (Hrx & _ & He & Hd).
  - destruct Hd as [Hl Hrd].
    assert (take (udp_read s1) (udp_rx s1) = take (udp_read s) (udp_rx s) ++ [(d, src)]) as Ht.
    { rewrite Hrx, Hrd. by apply take_S_r. }
    destruct (try_send c (src, d)) as [c'|] eqn:Hs.
    + apply try_send_Some in Hs as (Hlog & Htk & _ & _ & Hc).
      destruct (IH s1 c') as (s' & c2 & b & Hd2 & Hg2 & He2).
      * unfold udp_given, wf_chan. rewrite Hlog, Htk, Ht, fmap_app, length_app. unfold wf_chan in Hw.
        split; [lia|]. by apply sublist_app.
      * rewrite Hc in Hf by done. lia.
      * exists s', c2, b. split_and!; [done..|congruence].
    + exists s1, c, true. split_and!; [done| |done]. split; [done|]. rewrite Ht.
      etrans; [done|]. by apply sublist_inserts_r.
  - exists s1, c, true. split_and!; [done| |done]. split; [done|]. etrans; [done|].
    rewrite Hrx. by apply take_le_sublist.
Qed.

(** *** The operations keep the invariant and do not panic *)

Lemma accept_fold N : ∀ d streams,
  tcp_agree (tcps (sockets d)) (fst <$> tcp_ip2handle d) N (tcp_req_senders d) (tcp_chans d) →
  ∃ more T C, foldl accept_one (Some (streams, d)) N = Some (streams ++ more, with_tcp_senders d T C)
    ∧ ts_local <$> more = N
    ∧ tcp_agree (tcps (sockets d)) (fst <$> tcp_ip2handle d) [] T C.
Proof.
  induction N as [|e N IH]; intros d streams Ha.
  { exists [], (tcp_req_senders d), (tcp_chans d). rewrite app_nil_r. by destruct d. }
  destruct (a_new _ _ _ _ _ _ _ _ Ha e) as (_ & h & s & (dst & Hi)%fst_lookup & _); [set_solver|].
  cbn [foldl]. unfold accept_one at 2. cbn. rewrite Hi. cbn.
  set (d1 := with_tcp_senders d _ _).
  destruct (IH d1 (streams ++ [mkTcpStream (length (tcp_chans d)) e dst]))
    as (more & T & C & Hf & Hm & Hr).
  { eapply agree_accept; [exact Ha|]. intros. by apply tcp_unread_given. }
  eexists (_ :: more), T, C. rewrite Hf, <-app_assoc. split_and!; [done| |done]. by rewrite <-Hm.
Qed.

Lemma accept_fold_udp N : ∀ d streams,
  udp_agree (udps (sockets d)) (udp_ip2handle d) N (udp_req_senders d) (udp_chans d) →
  ∃ more T C, foldl accept_one_udp (streams, d) N = (streams ++ more, with_udp_senders d T C)
    ∧ us_peer <$> more = N
    ∧ udp_agree (udps (sockets d)) (udp_ip2handle d) [] T C.
Proof.
  induction N as [|e N IH]; intros d streams Ha.
  { exists [], (udp_req_senders d), (udp_chans d). rewrite app_nil_r. by destruct d. }
  cbn [foldl]. unfold accept_one_udp at 2. set (d1 := with_udp_senders d _ _).
  destruct (IH d1 (streams ++ [mkUdpStream (length (udp_chans d)) e])) as (more & T & C & Hf & Hm & Hr).
  { eapply agree_accept; [exact Ha|]. intros. by apply udp_unread_given. }
  eexists (_ :: more), T, C. rewrite Hf, <-app_assoc. split_and!; [done| |done]. by rewrite <-Hm.
Qed.

(** The streams are those of the endpoints that are new. *)
Lemma device_accept_ok d :
  inv d →
  ∃ tcp udp d1 d2, accept_tcp d = Some (tcp, d1) ∧ accept_udp d1 = (udp, d2) ∧ settled d2
    ∧ ts_local <$> tcp = new_tcp d ∧ us_peer <$> udp = new_udp d.
Proof.
  intros [Hm Ht Hu Hb Hta Hua]. unfold accept_tcp.
  destruct (accept_fold (new_tcp d) (with_tcp_tables d (tcp_ip2handle d) (tcp_handle2ip d) []) [])
    as (tcp & T & C & -> & Hl & Hr); [exact Ht|].
  set (d1 := with_tcp_senders _ T C).
  destruct (accept_fold_udp (new_udp d) (with_udp_tables d1 (udp_ip2handle d) []) [])
    as (udp & T2 & C2 & Hf & Hl2 & Hr2); [exact Hu|].
  exists tcp, udp, d1, (with_udp_senders (with_udp_tables d1 (udp_ip2handle d) []) T2 C2).
  split_and!; [done|exact Hf| |done..]. split; [|done]. by constructor.
Qed.

(** **** Removal *)

Lemma remove_tcp_ok src d :
  settled d → ∃ d', remove_tcp src d = Some d' ∧ settled d' ∧ limits d' = limits d
    ∧ tcp_handle2ip d' = tcp_handle2ip d ∧ tcp_ip2handle d' !! src = None.
Proof.
  intros ([Hm Ht Hu Hb Hta Hua] & Hn & Hn2). rewrite Hn, Hn2 in *. unfold remove_tcp.
  destruct (tcp_ip2handle d !! src) as [[h dst]|] eqn:Hi.
  - assert ((fst <$> tcp_ip2handle d) !! src = Some h) as Hf by (rewrite fst_lookup; eauto).
    destruct (a_live _ _ _ _ _ _ _ _ Ht _ _ Hf) as (s & Hs & _).
    destruct (sockets_remove_tcp _ _ _ Hs) as (ss & -> & Htc & Hud). eexists. split; [reflexivity|].
    split_and!; [|done..|apply lookup_delete_eq]. split; [|done]. constructor; cbn.
    + done.
    + rewrite Htc, fmap_delete, Hn. by apply agree_remove.
    + rewrite Hud, Hn2. done.
    + intros e h' dst' [_ He]%lookup_delete_Some. eauto.
    + intros e h' dst' [_ He]%lookup_delete_Some. eauto.
    + done.
  - eexists. split; [reflexivity|]. split_and!; [|done..]. split; [|done]. constructor; cbn; try done.
    + rewrite Hn. apply agree_forget; [done|]. by rewrite lookup_fmap, Hi.
    + by rewrite Hn2.
Qed.

Lemma remove_udp_ok e d :
  settled d → ∃ d', remove_udp e d = Some d' ∧ settled d'.
Proof.
  intros ([Hm Ht Hu Hb Hta Hua] & Hn & Hn2). rewrite Hn, Hn2 in *. unfold remove_udp.
  destruct (udp_ip2handle d !! e) as [h|] eqn:Hi.
  - destruct (a_live _ _ _ _ _ _ _ _ Hu _ _ Hi) as (s & Hs & _).
    destruct (sockets_remove_udp _ _ _ Hs) as (ss & -> & Hud & Htc). eexists. split; [reflexivity|].
    split; [|done]. constructor; cbn; try done.
    + by rewrite Htc, Hn.
    + rewrite Hud, Hn2. by apply agree_remove.
    + intros e' h' [_ He]%lookup_delete_Some. eauto.
  - eexists. split; [reflexivity|]. split; [|done]. constructor; cbn; try done.
    + by rewrite Hn.
    + rewrite Hn2. by apply agree_forget.
Qed.

Lemma remove_tcp_handle_ok h d :
  settled d → ∃ d', remove_tcp_handle h d = Some d' ∧ settled d'.
Proof.
  intros Hs. unfold remove_tcp_handle. destruct (tcp_handle2ip d !! h) as [src|] eqn:Hh; [|eauto].
  destruct (remove_tcp_ok src d Hs) as (d1 & -> & ([Hm Ht Hu Hb Hta Hua] & Hn & Hn2) & _ & Hh2 & Hnone).
  eexists. split; [reflexivity|]. split; [|done]. constructor; try done.
  intros e h' dst He. cbn in *. rewrite lookup_delete_ne; [by eapply Hb|]. intros <-.
  apply Hb in He as He2. rewrite Hh2, Hh in He2. congruence.
Qed.

Lemma device_remove_all_ok {A} (remove : A → t → option t) l d :
  (∀ x d, settled d → ∃ d', remove x d = Some d' ∧ settled d') → settled d →
  ∃ d', remove_all remove l d = Some d' ∧ settled d'.
Proof.
  intros Hr. revert d. induction l as [|x l IH]; intros d Hd; [by exists d|].
  destruct (Hr x d Hd) as (d1 & Hx & Hd1). destruct (IH d1 Hd1) as (d2 & Hl & ?). exists d2.
  split; [|done]. unfold remove_all in *. cbn [foldl mbind option_bind]. by rewrite Hx.
Qed.

(** **** Ingress *)

Definition live (d : t) (h : nat) : Prop := is_Some (sockets_view (sockets d) !! h).

Lemma visit_tcp_ok st h s :
  settled (in_device st) → tcps (sockets (in_device st)) !! h = Some s →
  ∃ st', visit_tcp st h s = Some st' ∧ settled (in_device st')
    ∧ (∀ h', live (in_device st) h' → live (in_device st') h').
Proof.
  intros Hset Hs. pose proof Hset as ([Hm Ht Hu Hb Hta Hua] & Hn & Hn2). rewrite Hn, Hn2 in *.
  set (d := in_device st) in *. unfold visit_tcp. fold d.
  destruct (tcp_can_recv s); cbn [negb]; [|by exists st].
  destruct (remote_endpoint s) as [src|] eqn:Hrem; [|by eexists].
  destruct (a_owner _ _ _ _ _ _ _ _ Ht _ _ Hs) as (e & He).
  destruct (a_live _ _ _ _ _ _ _ _ Ht _ _ He) as (s2 & Hs2 & Ho).
  assert (e = src) as -> by (destruct Ho; congruence).
  destruct (a_known _ _ _ _ _ _ _ _ Ht _ _ He) as [?%elem_of_nil|(id & Hid)]; [done|].
  destruct (a_sender _ _ _ _ _ _ _ _ Ht _ _ Hid) as (h' & x & c & Hh' & Hx & Hc & Hg).
  rewrite Hid. cbn [mbind option_bind]. rewrite Hc. cbn [mbind option_bind].
  assert (h' = h) as -> by congruence. assert (x = s) as -> by congruence.
  destruct (dispatch_tcp_ok (S (capacity c)) s c Hg) as (s1 & c1 & -> & Hg1 & Hr1); [lia|].
  cbn [mbind option_bind]. destruct (close_wait_ok s1 c1 Hg1) as (Hg3 & Hr3).
  destruct (close_wait s1 c1) as [s3 c3]. cbn [fst snd] in *.
  destruct (sockets_put_tcp _ _ _ s3 Hs) as (Htc & Hud).
  eexists. split; [reflexivity|]. cbn [in_device]. split.
  - split; [|done]. constructor; try done; cbn.
    + rewrite Htc, Hn. eapply agree_give; eauto. intros _. unfold tcp_own. rewrite Hrem in *.
      destruct Hr3 as [-> | ->]; [by left|]. destruct Hr1 as [-> | ->]; auto.
    + by rewrite Hud, Hn2.
  - intros h' Hl. unfold live in *. cbn. apply lookup_tcps in Hs. fold d in Hl.
    rewrite sockets_put_spec by eauto. destruct (decide (h = h')) as [<-|];
      [by rewrite lookup_insert_eq|by rewrite lookup_insert_ne].
Qed.

Lemma visit_udp_ok st h s :
  settled (in_device st) → udps (sockets (in_device st)) !! h = Some s →
  ∃ st', visit_udp st h s = Some st' ∧ settled (in_device st')
    ∧ (∀ h', live (in_device st) h' → live (in_device st') h').
Proof.
  intros Hset Hs. pose proof Hset as ([Hm Ht Hu Hb Hta Hua] & Hn & Hn2). rewrite Hn, Hn2 in *.
  set (d := in_device st) in *. unfold visit_udp. fold d.
  destruct (udp_can_recv s); cbn [negb]; [|by exists st].
  destruct (a_owner _ _ _ _ _ _ _ _ Hu _ _ Hs) as ([ip port] & He).
  destruct (a_live _ _ _ _ _ _ _ _ Hu _ _ He) as (s2 & Hs2 & Ho).
  assert (s2 = s) as -> by congruence. unfold udp_own in Ho. rewrite Ho. cbn [fst snd mbind option_bind sa_ip sa_port].
  destruct (a_known _ _ _ _ _ _ _ _ Hu _ _ He) as [?%elem_of_nil|(id & Hid)]; [done|].
  destruct (a_sender _ _ _ _ _ _ _ _ Hu _ _ Hid) as (h' & x & c & Hh' & Hx & Hc & Hg).
  rewrite Hid. cbn [mbind option_bind]. rewrite Hc. cbn [mbind option_bind].
  assert (h' = h) as -> by congruence. assert (x = s) as -> by congruence.
  destruct (dispatch_udp_ok (S (capacity c)) (Z.to_nat (mtu (limits d))) s c Hg)
    as (s1 & c1 & b & -> & Hg1 & Hr1); [lia|]. cbn [mbind option_bind].
  destruct (sockets_put_udp _ _ _ s1 Hs) as (Hud & Htc).
  eexists. split; [reflexivity|]. cbn [in_device]. split.
  - split; [|done]. constructor; try done; cbn.
    + by rewrite Htc, Hn.
    + rewrite Hud, Hn2. eapply agree_give; eauto. intros _. unfold udp_own. congruence.
  - intros h' Hl. unfold live in *. cbn. apply lookup_udps in Hs. fold d in Hl.
    rewrite sockets_put_spec by eauto. destruct (decide (h = h')) as [<-|];
      [by rewrite lookup_insert_eq|by rewrite lookup_insert_ne].
Qed.

Lemma visits_ok hs : ∀ st,
  settled (in_device st) → (∀ h, h ∈ hs → live (in_device st) h) →
  ∃ st', foldl visit (Some st) hs = Some st' ∧ settled (in_device st').
Proof.
  induction hs as [|h hs IH]; intros st Hs Hl; [by exists st|].
  destruct (Hl h) as (x & Hx); [set_solver|]. cbn [foldl]. unfold visit at 2.
  cbn [mbind option_bind]. rewrite sockets_get_spec, Hx. cbn [mbind option_bind].
  assert (∃ st', match x with Tcp s => visit_tcp st h s | Udp s => visit_udp st h s end = Some st'
    ∧ settled (in_device st') ∧ ∀ h', live (in_device st) h' → live (in_device st') h')
    as (st' & -> & Hs' & Hl').
  { destruct x as [s|s]; [apply visit_tcp_ok|apply visit_udp_ok]; try done;
      [by apply lookup_tcps|by apply lookup_udps]. }
  apply IH; [done|]. set_solver.
Qed.

Lemma process_ingress_ok d : settled d → ∃ d', process_ingress d = Some d' ∧ settled d'.
Proof.
  intros Hd. unfold process_ingress.
  destruct (visits_ok (sockets_iter (sockets d)).*1 (mkIngress d [] [] [])) as (st & -> & Hs); [done| |].
  { intros h ([h' x] & -> & Hin%sockets_iter_elem)%list_elem_of_fmap. by exists x. }
  cbn [mbind option_bind].
  destruct (device_remove_all_ok remove_tcp (tcp_endpoints st) (in_device st)) as (d1 & -> & Hd1); [|done|].
  { intros e d0 (d' & ? & ? & _)%(remove_tcp_ok e). eauto. }
  cbn [mbind option_bind].
  destruct (device_remove_all_ok remove_udp (udp_endpoints st) d1) as (d2 & -> & Hd2); [|done|].
  { intros e d0. apply remove_udp_ok. }
  cbn [mbind option_bind]. apply device_remove_all_ok; [|done]. intros h d0. apply remove_tcp_handle_ok.
Qed.

(** **** Egress *)

Lemma tcp_send_sends s b r s' : tcp_send_slice s b = (r, s') → tcp_sends s s'.
Proof. intros (? & ? & ? & _)%tcp_send_spec. split_and!; auto. Qed.

Lemma send_packets_sends packets s : tcp_sends s (send_packets packets s).2.
Proof.
  revert s. induction packets as [|[|x data] packets IH]; intros s; cbn [send_packets]; [done|..].
  - etrans; [apply tcp_keeps_sends, tcp_close_keeps|apply IH].
  - destruct (tcp_send_slice s (x :: data)) as [[n|] s1] eqn:Hr; apply tcp_send_sends in Hr.
    + destruct (drop n (x :: data)); [|done]. etrans; [exact Hr|apply IH].
    + etrans; [exact Hr|]. etrans; [apply tcp_keeps_sends, tcp_close_keeps|apply IH].
Qed.

(** A TCP socket written to, or closed. *)
Lemma settled_put_tcp d h s s' :
  settled d → tcps (sockets d) !! h = Some s → tcp_sends s s' →
  settled (with_sockets d (sockets_put (sockets d) h (Tcp s'))).
Proof.
  intros ([Hm Ht Hu Hb Hta Hua] & Hn & Hn2) Hs Hk. split; [|done].
  destruct (sockets_put_tcp _ _ _ s' Hs) as (Htc & Hud).
  destruct (a_owner _ _ _ _ _ _ _ _ Ht _ _ Hs) as (e & He).
  constructor; try done; cbn.
  - rewrite Htc. eapply agree_update; eauto using tcp_sends_own, tcp_sends_unread, tcp_sends_given.
  - by rewrite Hud.
Qed.

Lemma respond_ok d response e :
  settled d → ∃ d' response', respond (Some (d, response)) e = Some (d', response') ∧ settled d'.
Proof.
  intros Hset. destruct e as [src packets]. unfold respond. cbn [mbind option_bind].
  destruct (tcp_ip2handle d !! src) as [[h dst]|] eqn:Hi; [|by eauto].
  pose proof Hset as ([_ Ht _ _ _ _] & _).
  assert ((fst <$> tcp_ip2handle d) !! src = Some h) as Hf by (rewrite fst_lookup; eauto).
  destruct (a_live _ _ _ _ _ _ _ _ Ht _ _ Hf) as (s & Hs & _).
  unfold get_tcp_socket. rewrite Hi. cbn [mbind option_bind fst].
  rewrite (proj2 (get_tcp_Some _ _ _) (proj1 (lookup_tcps _ _ _) Hs)). cbn [mbind option_bind].
  pose proof (send_packets_sends packets s) as Hk. destruct (send_packets packets s) as [p s'].
  do 2 eexists. split; [reflexivity|]. by eapply settled_put_tcp.
Qed.

Lemma respond_all_ok es : ∀ d response,
  settled d → ∃ d' response', foldl respond (Some (d, response)) es = Some (d', response') ∧ settled d'.
Proof.
  induction es as [|e es IH]; intros d response Hd; [by exists d, response|]. cbn [foldl].
  destruct (respond_ok d response e Hd) as (d1 & r1 & -> & Hd1). by apply IH.
Qed.

Lemma send_datagrams_keeps packets s :
  udp_endpoint (send_datagrams packets s).2 = udp_endpoint s
  ∧ udp_rx (send_datagrams packets s).2 = udp_rx s
  ∧ udp_read (send_datagrams packets s).2 = udp_read s.
Proof.
  revert s. induction packets as [|[src [|x data]] packets IH]; intros s; cbn [send_datagrams]; try done.
  destruct (udp_send_slice s (x :: data) src) as [b s1] eqn:Hr.
  apply udp_send_spec in Hr as (Hrx & Hrd & He & _).
  destruct b; [|done]. destruct (IH s1) as (-> & -> & ->). done.
Qed.

Lemma respond_udp_ok d e :
  settled d → ∃ d', respond_udp (Some d) e = Some d' ∧ settled d'.
Proof.
  intros Hset. destruct e as [dst packets]. unfold respond_udp. cbn [mbind option_bind].
  destruct (udp_ip2handle d !! dst) as [h|] eqn:Hi; [|by eauto].
  pose proof Hset as ([Hm Ht Hu Hb Hta Hua] & Hn & Hn2).
  destruct (a_live _ _ _ _ _ _ _ _ Hu _ _ Hi) as (s & Hs & _).
  unfold get_udp_socket. rewrite Hi. cbn [mbind option_bind fst].
  rewrite (proj2 (get_udp_Some _ _ _) (proj1 (lookup_udps _ _ _) Hs)). cbn [mbind option_bind].
  destruct (send_datagrams_keeps packets s) as (He & Hrx & Hrd).
  destruct (send_datagrams packets s) as [b s']. cbn [fst snd] in *.
  assert (settled (with_sockets d (sockets_put (sockets d) h (Udp s')))) as Hs'.
  { split; [|done]. destruct (sockets_put_udp _ _ _ s' Hs) as (Hud & Htc).
    constructor; try done; cbn; [by rewrite Htc|]. rewrite Hud.
    eapply agree_update; eauto; unfold udp_own, udp_unread, udp_given; congruence. }
  destruct b; [by apply remove_udp_ok|eauto].
Qed.

Lemma respond_udp_all_ok es : ∀ d,
  settled d → ∃ d', foldl respond_udp (Some d) es = Some d' ∧ settled d'.
Proof.
  induction es as [|e es IH]; intros d Hd; [by exists d|]. cbn [foldl].
  destruct (respond_udp_ok d e Hd) as (d1 & -> & Hd1). by apply IH.
Qed.

Lemma settled_receivers d a b : settled d → settled (with_receivers d a b).
Proof. intros ([] & ?). by split; [constructor|]. Qed.

Lemma settled_response d m : settled d → settled (with_response d m).
Proof. intros ([] & ?). by split; [constructor|]. Qed.

#[local] Hint Resolve settled_receivers settled_response : trojan.

Lemma process_egress_ok d : settled d → ∃ d', process_egress d = Some d' ∧ settled d'.
Proof.
  intros Hd. unfold process_egress. unfold recv_all. cbv beta iota zeta.
  match goal with |- context [foldl respond (Some (?d0, ?r)) ?l] =>
    destruct (respond_all_ok l d0 r) as (d1 & r1 & -> & Hd1); [auto with trojan|] end.
  cbn [mbind option_bind]. apply respond_udp_all_ok. auto with trojan.
Qed.

Lemma poll_ok now d :
  inv d → ∃ tcp udp d', poll now d = Some (tcp, udp, d') ∧ settled d'
    ∧ ts_local <$> tcp = new_tcp d ∧ us_peer <$> udp = new_udp d.
Proof.
  intros Hd. destruct (device_accept_ok d Hd) as (tcp & udp & d1 & d2 & Ha & Hb & Hs & Hl1 & Hl2).
  destruct (process_ingress_ok d2 Hs) as (d3 & Hi & Hs3).
  destruct (process_egress_ok d3 Hs3) as (d4 & He & Hs4).
  unfold poll. rewrite Ha. cbn [mbind option_bind]. rewrite Hb, Hi. cbn [mbind option_bind].
  rewrite He. cbn [mbind option_bind]. do 3 eexists. split; [reflexivity|]. split; [|done].
  destruct (1 <? _); [|done]. destruct Hs4 as ([] & ?). by split; [constructor|].
Qed.

(** **** New packets *)

(** The headers of a packet can be read, and its destination has the octets of its
    address family. *)
Definition packet_ok (p : bytes) : Prop :=
  match packet_headers p with
  | Some PreIgnored => True
  | Some (PreUdp dst _) | Some (PreTcp dst _ _) => wf_ip (sa_ip dst)
  | None => False
  end.

Lemma is_private_v4_total ip : wf_ip ip → is_Some (is_private_v4 k ip).
Proof.
  destruct ip as [[|a [|b o]]|o]; cbn; [by intros [? _]..| |by eauto]. by eauto.
Qed.

Lemma allowed_total d e : wf_ip (sa_ip e) → is_Some (allowed k d e).
Proof.
  intros Hw. unfold allowed. repeat case_match; eauto.
  destruct (is_private_v4_total _ Hw) as (p & ->). eauto.
Qed.

Lemma allowed_port d e : allowed k d e = Some true → sa_port e ≠ 0.
Proof. unfold allowed. destruct (Z.eqb_spec (sa_port e) 0); [done|]. by intros _. Qed.

Lemma ensure_tcp_socket_ok d dst src :
  inv d → allowed k d dst = Some true →
  ∃ d', ensure_tcp_socket d dst src = Some d' ∧ inv d' ∧ is_Some (tcp_ip2handle d' !! src).
Proof.
  intros Hd Ha. pose proof Hd as [Hm Ht Hu Hb Hta Hua]. unfold ensure_tcp_socket.
  destruct (tcp_ip2handle d !! src) as [[h0 dst0]|] eqn:Hi; [exists d; by rewrite Hi|].
  destruct (sockets_add _ _) as [h ss] eqn:Hadd. apply sockets_add_tcp in Hadd as (Hh & Htc & Hud).
  assert (tcps ss !! h = Some (tcp_new (tcp_rx_buffer_size (limits d)) (tcp_tx_buffer_size (limits d))))
    as Hn by (by rewrite Htc, lookup_insert_eq).
  rewrite (proj2 (get_tcp_Some _ _ _) (proj1 (lookup_tcps _ _ _) Hn)). cbn [mbind option_bind].
  destruct (tcp_listen_new (tcp_rx_buffer_size (limits d)) (tcp_tx_buffer_size (limits d)) dst)
    as (s & -> & Hrem & _ & Hrd & _); [by eapply allowed_port|]. cbn [mbind option_bind].
  assert (tcp_sends s (set_ack_delay None (set_nagle_enabled false s))) as Hk.
  { etrans; apply tcp_keeps_sends; [apply set_nagle_keeps|apply set_ack_delay_keeps]. }
  set (s' := set_ack_delay _ _) in *. destruct (sockets_put_tcp _ _ _ s' Hn) as (Htc2 & Hud2).
  eexists. split; [reflexivity|]. split; [|cbn; rewrite lookup_insert_eq; by eauto].
  constructor; cbn; try done.
  - rewrite Htc2, Htc, insert_insert_eq, fmap_insert. apply agree_add; try done.
    + by rewrite lookup_fmap, Hi.
    + apply (tcp_sends_own _ _ _ Hk). by left.
    + by apply (tcp_sends_unread _ _ Hk).
  - by rewrite Hud2, Hud.
  - intros e h' dst' [[<- [= <- <-]]|[Hne He]]%lookup_insert_Some; [by rewrite lookup_insert_eq|].
    rewrite lookup_insert_ne; [eauto|]. intros <-.
    destruct (a_live _ _ _ _ _ _ _ _ Ht e h) as (? & ? & _); [rewrite fst_lookup; eauto|congruence].
  - intros e h' dst' [[<- [= <- <-]]|[Hne He]]%lookup_insert_Some; [done|eauto].
Qed.

Lemma ensure_udp_socket_ok d dst :
  inv d → allowed k d dst = Some true →
  ∃ d', ensure_udp_socket d dst = Some d' ∧ inv d' ∧ is_Some (udp_ip2handle d' !! dst).
Proof.
  intros Hd Ha. pose proof Hd as [Hm Ht Hu Hb Hta Hua]. unfold ensure_udp_socket.
  destruct (udp_ip2handle d !! dst) as [h0|] eqn:Hi; [exists d; by rewrite Hi|].
  rewrite (proj2 (Z.eqb_neq _ _)) by done.
  match goal with |- context [udp_bind (udp_new ?a ?b ?c ?e) _] =>
    destruct (udp_bind_new a b c e dst) as (s & -> & Hep & _ & Hrd & _); [by eapply allowed_port|] end.
  cbn [mbind option_bind].
  destruct (sockets_add _ _) as [h ss] eqn:Hadd. apply sockets_add_udp in Hadd as (Hh & Hud & Htc).
  eexists. split; [reflexivity|]. split; [|cbn; rewrite lookup_insert_eq; by eauto].
  constructor; cbn; try done.
  - by rewrite Htc.
  - rewrite Hud. by apply agree_add.
  - intros e h' [[<- <-]|[Hne He]]%lookup_insert_Some; [done|eauto].
Qed.

Lemma preprocess_packet_ok d p :
  inv d → packet_ok p → ∃ d', preprocess_packet k d p = Some d' ∧ inv d'.
Proof.
  unfold packet_ok, preprocess_packet. intros Hd Hp.
  destruct (packet_headers p) as [[|dst src|dst src b]|]; [by eauto|..|done]; cbn [mbind option_bind].
  - destruct (allowed_total d dst Hp) as ([] & Ha); rewrite Ha; cbn [mbind option_bind]; [|by eauto].
    destruct (ensure_udp_socket_ok d dst Hd Ha) as (d' & ? & ? & _). eauto.
  - destruct (allowed_total d dst Hp) as ([] & Ha); rewrite Ha; cbn [mbind option_bind andb]; [|by eauto].
    destruct b; [|by eauto]. destruct (ensure_tcp_socket_ok d dst src Hd Ha) as (d' & ? & ? & _). eauto.
Qed.

Lemma preprocess_packet_inv d p d' : inv d → preprocess_packet k d p = Some d' → inv d'.
Proof.
  unfold preprocess_packet. intros Hd.
  destruct (packet_headers p) as [[|dst src|dst src b]|]; cbn [mbind option_bind]; [by intros [= <-]|..|done].
  - destruct (allowed k d dst) as [[]|] eqn:Ha; cbn [mbind option_bind]; [|by intros [= <-]|done].
    destruct (ensure_udp_socket_ok d dst Hd Ha) as (d1 & -> & ? & _). by intros [= <-].
  - destruct (allowed k d dst) as [[]|] eqn:Ha; cbn [mbind option_bind andb]; [|by intros [= <-]|done].
    destruct b; [|by intros [= <-]].
    destruct (ensure_tcp_socket_ok d dst src Hd Ha) as (d1 & -> & ? & _). by intros [= <-].
Qed.

Lemma inv_traffic d x : inv d → inv (with_traffic d x).
Proof. by intros []; constructor. Qed.

(** *** Every step keeps the invariant *)

Lemma inv_tcp_chan d id c c' :
  inv d → tcp_chans d !! id = Some c → chan_log c' = chan_log c → (wf_chan c → wf_chan c') →
  (chan_closed c' = false → chan_closed c = false) →
  inv (with_tcp_senders d (tcp_req_senders d) (<[id := c']> (tcp_chans d))).
Proof.
  intros [Hm Ht Hu Hb Hta Hua] Hc Hl Hw Ho. constructor; try done; cbn.
  eapply agree_evolve; [done|by eauto|]. intros e h x Hi Hx. exists x. split_and!; [done..|].
  intros id' c0 Hid Hc0 Hg. destruct (decide (id = id')) as [<-|].
  - rewrite list_lookup_insert_eq by (by eapply lookup_lt_Some). exists c'. split; [done|].
    simplify_eq. destruct Hg as (? & ? & ?). unfold tcp_given. rewrite Hl. auto.
  - rewrite list_lookup_insert_ne by done. eauto.
Qed.

Lemma inv_udp_chan d id c c' :
  inv d → udp_chans d !! id = Some c → chan_log c' = chan_log c → (wf_chan c → wf_chan c') →
  inv (with_udp_senders d (udp_req_senders d) (<[id := c']> (udp_chans d))).
Proof.
  intros [Hm Ht Hu Hb Hta Hua] Hc Hl Hw. constructor; try done; cbn.
  eapply agree_evolve; [done|by eauto|]. intros e h x Hi Hx. exists x. split_and!; [done..|].
  intros id' c0 Hid Hc0 Hg. destruct (decide (id = id')) as [<-|].
  - rewrite list_lookup_insert_eq by (by eapply lookup_lt_Some). exists c'. split; [done|].
    simplify_eq. destruct Hg as (? & ?). unfold udp_given. rewrite Hl. auto.
  - rewrite list_lookup_insert_ne by done. eauto.
Qed.

Lemma task_step_inv d d' : task_step d d' → inv d → inv d'.
Proof.
  intros Hst Hd.
  destruct Hst as [d id c x c' Hc (_ & ? & _ & Hcl & ?)%try_recv_Some|d id c Hc|d x c' _
    |d id c x c' Hc (_ & ? & _ & _ & ?)%try_recv_Some|d id c Hc|d x c' _].
  - eapply inv_tcp_chan; eauto with congruence.
  - by eapply inv_tcp_chan.
  - by destruct Hd; constructor.
  - by eapply inv_udp_chan.
  - by eapply inv_udp_chan.
  - by destruct Hd; constructor.
Qed.

Lemma tcp_evolves_given s s' c :
  socket_evolves (Tcp s) (Tcp s') → tcp_given s c → tcp_given s' c.
Proof.
  intros ((r & Hrx) & Hrd & _). unfold tcp_given. rewrite Hrx, Hrd.
  pose proof (tcp_read_le s). by rewrite take_app_le.
Qed.

Lemma udp_evolves_given s s' c :
  socket_evolves (Udp s) (Udp s') → udp_given s c → udp_given s' c.
Proof.
  intros ((r & Hrx) & Hrd & _) (Hw & Hs). split; [done|]. rewrite Hrx, Hrd, take_app.
  etrans; [exact Hs|]. by apply sublist_inserts_r.
Qed.

Lemma inv_works d ss' :
  inv d → evolves (sockets d) ss' →
  (∀ h s e, sockets_view ss' !! h = Some (Tcp s) → remote_endpoint s = Some e →
     tcp_handle2ip d !! h = Some e) →
  inv (with_sockets d ss').
Proof.
  intros [Hm Ht Hu Hb Hta Hua] He Hr. constructor; try done; cbn.
  - eapply agree_evolve; [done|by intros; eapply evolves_tcp_inv|].
    intros e h s (dst & Hi)%fst_lookup Hs. destruct (evolves_tcp _ _ _ _ He Hs) as (s' & Hs' & Hk).
    exists s'. split_and!; [done| | |].
    + intros _. unfold tcp_own. destruct (remote_endpoint s') as [e'|] eqn:Hre; [right|by left].
      apply Hb in Hi. apply lookup_tcps in Hs'. rewrite <-Hi. symmetry. by eapply Hr.
    + unfold tcp_unread. destruct Hk as (_ & -> & _). done.
    + intros id c _ Hc Hg. exists c. split; [done|]. by eapply tcp_evolves_given.
  - eapply agree_evolve; [done|by intros; eapply evolves_udp_inv|].
    intros e h s Hi Hs. destruct (evolves_udp _ _ _ _ He Hs) as (s' & Hs' & Hk).
    exists s'. split_and!; [done| | |].
    + unfold udp_own. destruct Hk as (_ & _ & _ & ->). done.
    + unfold udp_unread. destruct Hk as (_ & -> & _). done.
    + intros id c _ Hc Hg. exists c. split; [done|]. by eapply udp_evolves_given.
Qed.

Lemma receive_inv d r d' : inv d → receive k d r = Some d' → inv d'.
Proof.
  intros Hd. destruct r as [[p|]|]; cbn; [|by intros [= <-]|done].
  apply preprocess_packet_inv. by apply inv_traffic.
Qed.

Lemma stack_step_inv d d' : stack_step k d d' → inv d → inv d'.
Proof.
  intros [d0 r d0' Hr|d0 len a b d0' Hc|d0 ss' He Hr] Hd; [by eapply receive_inv| |by apply inv_works].
  unfold consume in Hc. destruct (a && b); [|done]. injection Hc as <-. by apply inv_traffic.
Qed.

Lemma step_inv d d' : step k d d' → inv d → inv d'.
Proof.
  intros [? ? Hs|? ? Hs|now d0 out d0' Hp|now d0] Hd.
  - by eapply task_step_inv.
  - by eapply stack_step_inv.
  - destruct (poll_ok now d0 Hd) as (tcp & udp & d1 & Hp' & [Hd1 _] & _). by simplify_eq.
  - by apply inv_traffic.
Qed.

(** A new device with any configuration. *)
Definition start (now : Z) (l : Limits) : t := with_limits (new (mtu l) now) l.

Lemma inv_start now l : mtu l ≠ 0 → inv (start now l).
Proof.
  intros Hm. constructor; try done; cbn.
  - unfold tcps. rewrite sockets_view_empty, omap_empty, fmap_empty. apply agree_empty.
  - unfold udps. rewrite sockets_view_empty, omap_empty. apply agree_empty.
Qed.

Lemma reachable_inv now l d : mtu l ≠ 0 → rtc (step k) (start now l) d → inv d.
Proof.
  intros Hm Hr. pose proof (inv_start now l Hm) as Hi.
  induction Hr; eauto using step_inv.
Qed.

(** The stack works on one TCP socket. *)
Lemma stack_works_on d h s s' :
  inv d → sockets_view (sockets d) !! h = Some (Tcp s) → socket_evolves (Tcp s) (Tcp s') →
  (∀ e, remote_endpoint s' = Some e → tcp_handle2ip d !! h = Some e) →
  stack_step k d (with_sockets d (sockets_put (sockets d) h (Tcp s'))).
Proof.
  intros [_ Ht _ Hb _ _] Hs He Hr. apply stack_works; [by eapply evolves_put|].
  intros h2 s2 e Hs2 Hre. rewrite sockets_put_spec in Hs2 by eauto.
  apply lookup_insert_Some in Hs2 as [[<- [= ->]]|[Hne Hs2%lookup_tcps]]; [eauto|].
  destruct (a_owner _ _ _ _ _ _ _ _ Ht _ _ Hs2) as (src & Hi).
  destruct (a_live _ _ _ _ _ _ _ _ Ht _ _ Hi) as (s3 & Hs3 & Ho).
  apply fst_lookup in Hi as (dst & Hi%Hb). destruct Ho; congruence.
Qed.


(** At any moment of any run the channel of a client's stream has been given
    what was read from its socket, once and in order, unless the task has closed it;
    and the channel of a destination's datagrams has been given datagrams that
    arrived for it, in order and none twice. *)
Theorem device_streams_in_order now l d :
  mtu l ≠ 0 → rtc (step k) (start now l) d →
  (∀ src id, tcp_req_senders d !! src = Some id →
     ∃ h dst s c, tcp_ip2handle d !! src = Some (h, dst) ∧ sockets_view (sockets d) !! h = Some (Tcp s)
       ∧ tcp_chans d !! id = Some c
       ∧ mjoin (chan_log c) `prefix_of` tcp_rx s
       ∧ (chan_closed c = false → mjoin (chan_log c) = take (tcp_read s) (tcp_rx s)))
  ∧ (∀ dst id, udp_req_senders d !! dst = Some id →
     ∃ h s c, udp_ip2handle d !! dst = Some h ∧ sockets_view (sockets d) !! h = Some (Udp s)
       ∧ udp_chans d !! id = Some c
       ∧ ((λ m, (m.2, m.1)) <$> chan_log c) `sublist_of` udp_rx s).
Proof.
  intros Hm Hr. pose proof (reachable_inv _ _ _ Hm Hr) as [_ Ht Hu _ _ _]. split.
  - intros src id Hid. destruct (a_sender _ _ _ _ _ _ _ _ Ht _ _ Hid)
      as (h & s & c & (dst & Hi)%fst_lookup & Hs%lookup_tcps & Hc & _ & Hp & Ho).
    exists h, dst, s, c. split_and!; try done. etrans; [exact Hp|apply prefix_take].
  - intros dst id Hid. destruct (a_sender _ _ _ _ _ _ _ _ Hu _ _ Hid)
      as (h & s & c & Hi & Hs%lookup_udps & Hc & _ & Hp).
    exists h, s, c. split_and!; try done. etrans; [exact Hp|apply sublist_take].
Qed.

(** ** A connection that ends quietly is never removed *)

(** The entry of a source and its socket, which has nothing left to be read. *)
Definition has_socket (src : SocketAddr) (h : nat) (d : t) : Prop :=
  ∃ dst s, tcp_ip2handle d !! src = Some (h, dst) ∧ tcps (sockets d) !! h = Some s.
Definition drained (src : SocketAddr) (h : nat) (d : t) : Prop :=
  ∃ dst s, tcp_ip2handle d !! src = Some (h, dst) ∧ tcps (sockets d) !! h = Some s
    ∧ tcp_can_recv s = false.

Lemma remove_tcp_keeps e src h d d' :
  settled d → e ≠ src → has_socket src h d → remove_tcp e d = Some d' → has_socket src h d'.
Proof.
  intros ([_ Ht _ Hb _ _] & _) Hne (dst & s & Hi & Hs). unfold remove_tcp.
  destruct (tcp_ip2handle d !! e) as [[h' dst']|] eqn:He; cbn [mbind option_bind].
  - destruct (a_live _ _ _ _ _ _ _ _ Ht e h') as (s' & Hs' & _); [rewrite fst_lookup; by eauto|].
    destruct (sockets_remove_tcp _ _ _ Hs') as (ss & -> & Htc & _). cbn. intros [= <-].
    exists dst, s. cbn. rewrite Htc, !lookup_delete_ne; [done| |done].
    intros ->. apply Hb in He, Hi. congruence.
  - intros [= <-]. by exists dst, s.
Qed.

Lemma remove_udp_keeps e src h d d' :
  settled d → has_socket src h d → remove_udp e d = Some d' → has_socket src h d'.
Proof.
  intros ([_ _ Hu _ _ _] & _) (dst & s & Hi & Hs). unfold remove_udp.
  destruct (udp_ip2handle d !! e) as [h'|] eqn:He; cbn [mbind option_bind].
  - destruct (a_live _ _ _ _ _ _ _ _ Hu e h' He) as (s' & Hs' & _).
    destruct (sockets_remove_udp _ _ _ Hs') as (ss & -> & _ & Htc). cbn. intros [= <-].
    exists dst, s. cbn. by rewrite Htc.
  - intros [= <-]. by exists dst, s.
Qed.

Lemma remove_all_keeps {A} (remove : A → t → option t) (P : A → t → Prop) (Q : t → Prop) l d d' :
  (∀ x d, settled d → ∃ d', remove x d = Some d' ∧ settled d') →
  (∀ x y d d', settled d → P x d → P y d → remove x d = Some d' → P y d') →
  (∀ x d d', settled d → P x d → Q d → remove x d = Some d' → Q d') →
  settled d → (∀ x, x ∈ l → P x d) → Q d → remove_all remove l d = Some d' → Q d'.
Proof.
  intros Hok HP HQ. revert d. induction l as [|x l IH]; intros d Hd Hl Hq; [by intros [= <-]|].
  unfold remove_all in *. cbn [foldl mbind option_bind].
  destruct (Hok x d Hd) as (d1 & Hx & Hd1). rewrite Hx. apply IH; [done| |].
  - intros y Hy. eapply HP; [exact Hd| | |exact Hx]; apply Hl; set_solver.
  - eapply HQ; [exact Hd| |exact Hq|exact Hx]. apply Hl. set_solver.
Qed.

(** What the visits collect never names a drained socket. *)
Definition spared (src : SocketAddr) (h : nat) (st : Ingress) : Prop :=
  drained src h (in_device st) ∧ src ∉ tcp_endpoints st
  ∧ (∀ h', h' ∈ handles st → tcp_handle2ip (in_device st) !! h' ≠ Some src).

Lemma visit_tcp_spares src h st h' s st' :
  settled (in_device st) → tcps (sockets (in_device st)) !! h' = Some s → spared src h st →
  visit_tcp st h' s = Some st' → spared src h st'.
Proof.
  intros ([_ Ht _ Hb _ _] & _) Hs ((dst & s0 & Hi & Hs0 & Hc) & He & Hh). unfold visit_tcp.
  destruct (tcp_can_recv s) eqn:Hcan; cbn [negb]; [|intros [= <-]; by split_and!; [exists dst, s0|..]].
  assert (h' ≠ h) as Hne by congruence.
  destruct (a_owner _ _ _ _ _ _ _ _ Ht _ _ Hs) as (e & He2).
  assert (e ≠ src) as Hes. { intros ->. apply fst_lookup in He2 as (? & ?). congruence. }
  destruct (a_live _ _ _ _ _ _ _ _ Ht _ _ He2) as (s1 & Hs1 & Ho).
  assert (s1 = s) as -> by congruence.
  destruct (remote_endpoint s) as [src'|] eqn:Hrem.
  - assert (e = src') as -> by (destruct Ho; congruence).
    destruct (tcp_req_senders _ !! src') as [id|]; [|done]. cbn [mbind option_bind].
    destruct (tcp_chans _ !! id) as [c|]; [|done]. cbn [mbind option_bind].
    destruct (dispatch_tcp _ s c) as [[s2 c2]|]; [|done]. cbn [mbind option_bind].
    destruct (close_wait s2 c2) as [s3 c3]. intros [= <-]. split_and!; cbn; [|destruct (is_active s3); set_solver|done].
    exists dst, s0. cbn. destruct (sockets_put_tcp _ _ _ s3 Hs) as (-> & _).
    by rewrite lookup_insert_ne.
  - intros [= <-]. split_and!; cbn; [by exists dst, s0|done|].
    intros h2 [?|Heq%list_elem_of_singleton]%elem_of_app; [auto|]. subst h2.
    apply fst_lookup in He2 as (dst2 & He2%Hb). congruence.
Qed.

Lemma visit_udp_spares src h st h' s st' :
  udps (sockets (in_device st)) !! h' = Some s → spared src h st →
  visit_udp st h' s = Some st' → spared src h st'.
Proof.
  intros Hs ((dst & s0 & Hi & Hs0 & Hc) & He & Hh). unfold visit_udp.
  destruct (udp_can_recv s); cbn [negb]; [|intros [= <-]; by split_and!; [exists dst, s0|..]].
  destruct (udp_endpoint s).1; [|done]. cbn [mbind option_bind].
  destruct (udp_req_senders _ !! _) as [id|]; [|done]. cbn [mbind option_bind].
  destruct (udp_chans _ !! id) as [c|]; [|done]. cbn [mbind option_bind].
  destruct (dispatch_udp _ _ s c) as [[[s2 c2] b]|]; [|done]. cbn [mbind option_bind].
  intros [= <-]. split_and!; cbn; [|done..]. exists dst, s0. cbn.
  destruct (sockets_put_udp _ _ _ s2 Hs) as (_ & ->). done.
Qed.

Lemma visits_spare src h hs : ∀ st st',
  settled (in_device st) → (∀ h, h ∈ hs → live (in_device st) h) → spared src h st →
  foldl visit (Some st) hs = Some st' → settled (in_device st') ∧ spared src h st'.
Proof.
  induction hs as [|h' hs IH]; intros st st' Hs Hl Hsp; [by intros [= <-]|].
  destruct (Hl h') as (x & Hx); [set_solver|]. cbn [foldl]. unfold visit at 2.
  cbn [mbind option_bind]. rewrite sockets_get_spec, Hx. cbn [mbind option_bind].
  destruct x as [s|s].
  - apply lookup_tcps in Hx. destruct (visit_tcp_ok st h' s Hs Hx) as (st1 & Hv & Hs1 & Hl1).
    rewrite Hv. apply IH; [done|set_solver|eapply (visit_tcp_spares src h st h' s); eauto].
  - apply lookup_udps in Hx. destruct (visit_udp_ok st h' s Hs Hx) as (st1 & Hv & Hs1 & Hl1).
    rewrite Hv. apply IH; [done|set_solver|eapply (visit_udp_spares src h st h' s); eauto].
Qed.

(** The three removals of a turn; those of endpoints leave the handles alone. *)
Definition holds (src : SocketAddr) (h : nat) (m : gmap nat SocketAddr) (d : t) : Prop :=
  has_socket src h d ∧ tcp_handle2ip d = m.

Lemma remove_tcps_keep src h m l d d' :
  settled d → src ∉ l → holds src h m d → remove_all remove_tcp l d = Some d' →
  settled d' ∧ holds src h m d'.
Proof.
  assert (∀ x d0, settled d0 → ∃ d1, remove_tcp x d0 = Some d1 ∧ settled d1) as Hok.
  { intros x d0 (d1 & ? & ? & _)%(remove_tcp_ok x). eauto. }
  intros Hd Hl Hk Hr. split.
  { destruct (device_remove_all_ok remove_tcp l d Hok Hd) as (d1 & ? & ?). by simplify_eq. }
  eapply (remove_all_keeps remove_tcp (λ e _, e ≠ src) (holds src h m)); [..|exact Hr]; try done.
  - intros e d0 d2 H0 Hne [Hk0 Hh] Hr0. split; [by eapply remove_tcp_keeps|].
    destruct (remove_tcp_ok e d0 H0) as (d3 & Hr' & _ & _ & Hh3 & _). congruence.
  - by intros e Hin ->.
Qed.

Lemma remove_udps_keep src h m l d d' :
  settled d → holds src h m d → remove_all remove_udp l d = Some d' →
  settled d' ∧ holds src h m d'.
Proof.
  intros Hd Hk Hr. split.
  { destruct (device_remove_all_ok remove_udp l d) as (d1 & ? & ?);
      [intros; by apply remove_udp_ok|done|by simplify_eq]. }
  eapply (remove_all_keeps remove_udp (λ _ _, True) (holds src h m)); [..|exact Hr]; try done.
  - intros; by apply remove_udp_ok.
  - intros e d0 d3 H0 _ [Hk0 Hh] Hr0. split; [by eapply remove_udp_keeps|]. rewrite <-Hh.
    revert Hr0. unfold remove_udp. destruct (udp_ip2handle d0 !! e); cbn; [|by intros [= <-]].
    destruct (sockets_remove _ _); cbn; [|done]. by intros [= <-].
Qed.

Lemma remove_handles_keep src h l d d' :
  settled d → (∀ h', h' ∈ l → tcp_handle2ip d !! h' ≠ Some src) → has_socket src h d →
  remove_all remove_tcp_handle l d = Some d' → has_socket src h d'.
Proof.
  apply (remove_all_keeps remove_tcp_handle (λ h' d0, tcp_handle2ip d0 !! h' ≠ Some src)).
  - intros. by apply remove_tcp_handle_ok.
  - intros h1 h2 d0 d3 H0 _ Hne. unfold remove_tcp_handle.
    destruct (tcp_handle2ip d0 !! h1) as [e|]; [|by intros [= <-]].
    destruct (remove_tcp_ok e d0 H0) as (d4 & -> & _ & _ & Hh4 & _). intros [= <-]. cbn.
    rewrite Hh4. by intros [_ ?]%lookup_delete_Some.
  - intros h1 d0 d3 H0 Hne Hk. unfold remove_tcp_handle.
    destruct (tcp_handle2ip d0 !! h1) as [e|] eqn:He; [|by intros [= <-]].
    destruct (remove_tcp_ok e d0 H0) as (d4 & Hr & _). rewrite Hr. intros [= <-].
    apply (remove_tcp_keeps e src h d0 d4) in Hr; [done|done|congruence|done].
Qed.

Lemma process_ingress_keeps src h d d' :
  settled d → drained src h d → process_ingress d = Some d' → has_socket src h d'.
Proof.
  intros Hd Hdr. unfold process_ingress.
  assert (∀ h', h' ∈ (sockets_iter (sockets d)).*1 → live d h') as Hlive.
  { intros h' ([h2 x] & -> & Hin%sockets_iter_elem)%list_elem_of_fmap. by exists x. }
  destruct (foldl visit _ _) as [st|] eqn:Hf; [|done]. cbn [mbind option_bind].
  apply (visits_spare src h) in Hf as (Hs & Hsp & He & Hh);
    [|done..|by split_and!; cbn; [done|set_solver..]].
  destruct (remove_all remove_tcp _ _) as [d1|] eqn:H1; [|done]. cbn [mbind option_bind].
  apply (remove_tcps_keep src h (tcp_handle2ip (in_device st))) in H1 as (Hd1 & Hk1); [|done..|].
  2: { destruct Hsp as (dst & s & ? & ? & _). split; [by exists dst, s|done]. }
  destruct (remove_all remove_udp _ _) as [d2|] eqn:H2; [|done]. cbn [mbind option_bind].
  apply (remove_udps_keep src h (tcp_handle2ip (in_device st))) in H2 as (Hd2 & Hk2 & Hm2); [|done..].
  apply remove_handles_keep; [done| |done]. by rewrite Hm2.
Qed.

(** *** Egress removes no TCP socket *)

Lemma respond_keeps src h e d r d' r' :
  has_socket src h d → respond (Some (d, r)) e = Some (d', r') → has_socket src h d'.
Proof.
  intros (dst & s & Hi & Hs). destruct e as [e packets]. unfold respond. cbn [mbind option_bind].
  destruct (tcp_ip2handle d !! e) as [[h' dst']|] eqn:He; [|intros [= <- _]; by exists dst, s].
  unfold get_tcp_socket. rewrite He. cbn [mbind option_bind fst].
  destruct (get_tcp (sockets d) h') as [s'|] eqn:Hg; [|done]. cbn [mbind option_bind].
  destruct (send_packets packets s') as [p s2]. intros [= <- _].
  apply get_tcp_Some, lookup_tcps in Hg. destruct (sockets_put_tcp _ _ _ s2 Hg) as (Htc & _).
  destruct (decide (h' = h)) as [->|Hne]; [exists dst, s2|exists dst, s]; cbn; rewrite Htc.
  - by rewrite lookup_insert_eq.
  - by rewrite lookup_insert_ne.
Qed.

Lemma respond_all_keeps src h es : ∀ d r d' r',
  has_socket src h d → foldl respond (Some (d, r)) es = Some (d', r') → has_socket src h d'.
Proof.
  induction es as [|e es IH]; intros d r d' r' Hk; [by intros [= <- _]|]. cbn [foldl].
  destruct (respond (Some (d, r)) e) as [[d1 r1]|] eqn:Hr.
  - intros Hf. eapply IH; [|exact Hf]. by eapply respond_keeps.
  - assert (foldl respond None es = None) as ->; [|done].
    clear. induction es as [|e0 es IHe]; [done|exact IHe].
Qed.

Lemma respond_udp_keeps src h e d d' :
  has_socket src h d → respond_udp (Some d) e = Some d' → has_socket src h d'.
Proof.
  intros (dst & s & Hi & Hs). destruct e as [e packets]. unfold respond_udp. cbn [mbind option_bind].
  destruct (udp_ip2handle d !! e) as [h'|] eqn:He; [|intros [= <-]; by exists dst, s].
  unfold get_udp_socket. rewrite He. cbn [mbind option_bind].
  destruct (get_udp (sockets d) h') as [s'|] eqn:Hg; [|done]. cbn [mbind option_bind].
  destruct (send_datagrams packets s') as [b s2]. apply get_udp_Some, lookup_udps in Hg.
  destruct (sockets_put_udp _ _ _ s2 Hg) as (Hud & Htc).
  destruct b; [|intros [= <-]; exists dst, s; cbn; by rewrite Htc].
  unfold remove_udp. cbn. rewrite He. cbn [mbind option_bind].
  destruct (sockets_remove_udp (sockets_put (sockets d) h' (Udp s2)) h' s2) as (ss & -> & _ & Htc2);
    [by rewrite Hud, lookup_insert_eq|]. cbn. intros [= <-]. exists dst, s. cbn. by rewrite Htc2, Htc.
Qed.

Lemma respond_udp_all_keeps src h es : ∀ d d',
  settled d → has_socket src h d → foldl respond_udp (Some d) es = Some d' → has_socket src h d'.
Proof.
  induction es as [|e es IH]; intros d d' Hd Hk; [by intros [= <-]|]. cbn [foldl].
  destruct (respond_udp_ok d e Hd) as (d1 & Hr & Hd1). rewrite Hr. apply IH; [done|].
  by apply (respond_udp_keeps src h e d).
Qed.

Lemma process_egress_keeps src h d d' :
  settled d → has_socket src h d → process_egress d = Some d' → has_socket src h d'.
Proof.
  intros Hd Hk. unfold process_egress, recv_all. cbv beta iota zeta.
  match goal with |- context [foldl respond (Some (?d0, ?r)) ?l] =>
    destruct (respond_all_ok l d0 r) as (d1 & r1 & Hf & Hd1); [auto with trojan|] end.
  rewrite Hf. cbn [mbind option_bind]. apply respond_udp_all_keeps; [auto with trojan|].
  apply respond_all_keeps with (src := src) (h := h) in Hf; done.
Qed.

Lemma accept_keeps src h d tcp udp d1 d2 :
  accept_tcp d = Some (tcp, d1) → accept_udp d1 = (udp, d2) → inv d → drained src h d →
  drained src h d2.
Proof.
  intros H1 H2 Hd Hdr. pose proof Hd as [Hm Ht Hu Hb Hta Hua]. unfold accept_tcp in H1.
  destruct (accept_fold (new_tcp d) (with_tcp_tables d (tcp_ip2handle d) (tcp_handle2ip d) []) [])
    as (more & T & C & Hf & _); [exact Ht|]. rewrite Hf in H1. injection H1 as <- <-.
  unfold accept_udp in H2.
  match type of H2 with foldl _ (_, ?d0) ?l = _ =>
    destruct (accept_fold_udp l d0 []) as (more2 & T2 & C2 & Hf2 & _); [exact Hu|] end.
  rewrite Hf2 in H2. by injection H2 as <- <-.
Qed.

(** As long as the socket of a client has nothing to be read the device keeps
    it, whatever its state: no poll removes it, so the end of a connection that
    comes without data, and the socket it leaves closed, stay unnoticed, and a new
    connection from the same source address gets no socket. *)
Theorem quiet_end_is_kept now l now' d src h dst s :
  mtu l ≠ 0 → rtc (step k) (start now l) d →
  tcp_ip2handle d !! src = Some (h, dst) → sockets_view (sockets d) !! h = Some (Tcp s) →
  tcp_can_recv s = false →
  ∃ tcp udp d' s', poll now' d = Some (tcp, udp, d')
    ∧ sockets_view (sockets d') !! h = Some (Tcp s')
    ∧ ∀ dst', ensure_tcp_socket d' dst' src = Some d'.
Proof.
  intros Hm Hr Hi Hs%lookup_tcps Hc. pose proof (reachable_inv _ _ _ Hm Hr) as Hd.
  assert (drained src h d) as Hdr by (by exists dst, s).
  destruct (device_accept_ok d Hd) as (tcp & udp & d1 & d2 & Ha & Hb & Hset & _).
  pose proof (accept_keeps _ _ _ _ _ _ _ Ha Hb Hd Hdr) as Hdr2.
  destruct (process_ingress_ok d2 Hset) as (d3 & Hin & Hs3).
  pose proof (process_ingress_keeps _ _ _ _ Hset Hdr2 Hin) as Hk3.
  destruct (process_egress_ok d3 Hs3) as (d4 & He & Hs4).
  destruct (process_egress_keeps _ _ _ _ Hs3 Hk3 He) as (dst4 & s4 & Hi4 & Hs4').
  unfold poll. rewrite Ha. cbn [mbind option_bind]. rewrite Hb, Hin. cbn [mbind option_bind].
  rewrite He. cbn [mbind option_bind]. exists tcp, udp. eexists _, s4. split; [reflexivity|].
  destruct (1 <? _); (split; [by apply lookup_tcps|]); intros dst'; unfold ensure_tcp_socket; cbn; by rewrite Hi4.
Qed.

End Invariant.
End TunDevice.

(** ** Witnesses

    A client at 10.0.0.2:4096 connects to 1.2.3.4:80 and sends two bytes. *)

Module TunDeviceWitness.
Import SimStack TunDevice.

Definition class : Ipv4Class :=
  mkIpv4Class (λ o, bool_decide (o = [0; 0; 0; 0])) (λ o, bool_decide (o !! 0%nat = Some 127))
    (λ o, bool_decide (take 2 o = [169; 254])) (λ _, false) (λ _, false).

Definition limits0 : Limits := mkLimits 100 ∅ ∅ false 4 1000 1000 1000 1000.

Definition client : SocketAddr := mkSocketAddr (V4 [10; 0; 0; 2]) 4096.
Definition target : SocketAddr := mkSocketAddr (V4 [1; 2; 3; 4]) 80.
Definition syn : bytes := [4; 6; 10; 0; 0; 2; 1; 2; 3; 4; 0; 80; 16; 0; 2].

Definition device0 : t := start 0 limits0.
Definition device1 : t := default device0 (receive class device0 (IoOk (Some syn))).

(** The stack connects the socket and feeds it; then the device is polled. *)
Definition connected : tcp := mkTcp Established (Some client) (Some target) [] [104; 105] [] 1000.
Definition device2 : t := with_sockets device1 (sockets_put (sockets device1) 0 (Tcp connected)).
Definition device3 : t := match poll 5 device2 with Some (_, _, d) => d | None => device2 end.

Lemma run1 : rtc (step class) device0 device1.
Proof. apply rtc_once, step_stack. apply stack_receives with (r := IoOk (Some syn)). by vm_compute. Qed.

Lemma run2 : rtc (step class) device0 device2.
Proof.
  eapply rtc_r; [exact run1|]. apply step_stack.
  refine (stack_works_on class device1 0 (mkTcp Listen None (Some target) [] [] [] 1000) connected
    (reachable_inv class 0 limits0 device1 _ run1) _ _ _); [done|by vm_compute|..].
  - split_and!; [apply prefix_nil|done..].
  - intros e [= <-]. by vm_compute.
Qed.

Lemma run3 : rtc (step class) device0 device3.
Proof.
  eapply rtc_r; [exact run2|].
  apply (step_poll _ 5 device2 (match poll 5 device2 with Some (a, b, _) => (a, b) | None => ([], []) end)).
  by vm_compute.
Qed.


(** The task's channel has the two bytes. *)
Lemma device_streams_in_order_witness :
  chan_log <$> tcp_chans device3 !! 0%nat = Some [[104; 105]]
  ∧ ∃ h dst s c, tcp_ip2handle device3 !! client = Some (h, dst)
       ∧ sockets_view (sockets device3) !! h = Some (Tcp s)
       ∧ tcp_chans device3 !! 0%nat = Some c
       ∧ mjoin (chan_log c) `prefix_of` tcp_rx s
       ∧ (chan_closed c = false → mjoin (chan_log c) = take (tcp_read s) (tcp_rx s)).
Proof.
  split; [by vm_compute|].
  exact (proj1 (device_streams_in_order class 0 limits0 device3 ltac:(done) run3) client 0%nat
    ltac:(by vm_compute)).
Defined.

(** The client's end arrives after its bytes were handed on: the socket is closed,
    and stays. *)
Definition ended : tcp := mkTcp Closed None (Some target) [104; 105] [] [] 1000.
Definition device4 : t := with_sockets device3 (sockets_put (sockets device3) 0 (Tcp ended)).

Lemma run4 : rtc (step class) device0 device4.
Proof.
  eapply rtc_r; [exact run3|]. apply step_stack.
  refine (stack_works_on class device3 0 (mkTcp Established (Some client) (Some target) [104; 105] [] [] 1000)
    ended (reachable_inv class 0 limits0 device3 _ run3) _ _ _); [done|by vm_compute| |done].
  by split_and!.
Qed.

Lemma quiet_end_is_kept_witness :
  ∃ tcp udp d' s', poll 9 device4 = Some (tcp, udp, d')
    ∧ sockets_view (sockets d') !! 0%nat = Some (Tcp s')
    ∧ ∀ dst', ensure_tcp_socket d' dst' client = Some d'.
Proof.
  exact (quiet_end_is_kept class 0 limits0 9 device4 client 0 target ended ltac:(done) run4
    ltac:(by vm_compute) ltac:(by vm_compute) ltac:(by vm_compute)).
Defined.

End TunDeviceWitness.
