(* ===== verification/TunStream.v ===== *)
(** * The streams of the tunnel device
    ([async_smoltcp/src/tcp.rs], [async_smoltcp/src/udp.rs])

    The tasks' side of the channels of [TunDevice]: [TcpReadHalf] and
    [TcpWriteHalf] are the halves of a client's stream, [UdpStream] a
    destination's datagrams.  A poll that would block is [Pending]. *)

From Stdlib Require Import ZArith Lia.
From stdpp Require Import base option list gmap relations.
From S2P Require Import Prelude.
From S2P Require Import Net.
From S2P Require Import IpSet.
From S2P Require Import Smoltcp.
From S2P Require Import SocketTables.
From S2P Require Import TunDevice.

Open Scope Z_scope.

(** [std::task::Poll]. *)
Inductive Poll (A : Type) : Type :=
  | Pending
  | Ready (a : A).
Arguments Pending {A}.
Arguments Ready {A} a.

(** ** TCP *)

Module TcpHalves.

(** [TcpReadHalf::poll_read] into a buffer of [n] bytes: the bytes it yields, none
    of them at the end of the stream, what is left in its own buffer, and the
    channel.  [dropped] says that the device has dropped the sender.  The recursion
    takes one message a turn. *)
Fixpoint poll_read (fuel n : nat) (dropped : bool) (buffer : bytes) (receiver : Chan bytes) :
    option (Poll bytes * bytes * Chan bytes) :=
  match fuel with
  | O => None
  | S fuel =>
      match buffer with
      | _ :: _ =>
          let len := Nat.min n (length buffer) in
          Some (Ready (take len buffer), drop len buffer, receiver)
      | [] =>
          match try_recv receiver with
          | Some (data, receiver) => poll_read fuel n dropped data receiver
          | None =>
              if dropped || chan_closed receiver then Some (Ready [], buffer, receiver)
              else Some (Pending, buffer, receiver)
          end
      end
  end.

(** [TcpWriteHalf::poll_write]: a closed channel takes nothing. *)
Definition poll_write (local_addr : SocketAddr) (buf : bytes) (sender : Chan (SocketAddr * bytes)) :
    Poll nat * Chan (SocketAddr * bytes) :=
  if chan_closed sender then (Ready 0%nat, sender)
  else
    match try_send sender (local_addr, buf) with
    | Some sender => (Ready (length buf), sender)
    | None => (Pending, sender)
    end.

(** [TcpWriteHalf::poll_shutdown] and [TcpStream::poll_shutdown]. *)
Definition poll_shutdown (local_addr : SocketAddr) (sender : Chan (SocketAddr * bytes)) :
    Poll nat * Chan (SocketAddr * bytes) := poll_write local_addr [] sender.

Definition stream_shutdown (local_addr : SocketAddr) (receiver : Chan bytes)
    (sender : Chan (SocketAddr * bytes)) : Poll nat * Chan bytes * Chan (SocketAddr * bytes) :=
  let '(r, sender) := poll_shutdown local_addr sender in (r, chan_close receiver, sender).

Definition yields (r : Poll bytes) : bytes := match r with Ready d => d | Pending => [] end.

(** What a poll yields and leaves is what was there; fuel for one turn per waiting
    message and two more is enough. *)
Lemma poll_read_spec fuel n dropped buffer c :
  wf_chan c → (S (length (chan_queue c)) < fuel)%nat →
  ∃ r buffer' c', poll_read fuel n dropped buffer c = Some (r, buffer', c')
    ∧ chan_log c' = chan_log c ∧ wf_chan c' ∧ chan_closed c' = chan_closed c
    ∧ buffer ++ mjoin (chan_queue c)
      = yields r ++ buffer' ++ mjoin (chan_queue c')
    ∧ match r with
      | Pending => buffer' = [] ∧ chan_queue c' = [] ∧ dropped = false ∧ chan_closed c = false
      | Ready [] => n = 0%nat ∨ buffer' = [] ∧ chan_queue c' = [] ∧ (dropped = true ∨ chan_closed c = true)
      | Ready _ => True
      end.
Proof.
  revert buffer c. induction fuel as [|fuel IH]; intros buffer c Hw Hf; [lia|]. cbn [poll_read].
  destruct buffer as [|x buffer].
  - destruct (try_recv c) as [[data c1]|] eqn:Hr.
    + apply try_recv_Some in Hr as (Hq & Hl & _ & Hc & Hw1). rewrite Hq in *.
      destruct (IH data c1 (Hw1 Hw)) as (r & b' & c' & Hp & Hl' & Hw' & Hc' & Hj & Hr); [simpl in Hf; lia|].
      exists r, b', c'. rewrite Hc in *. split_and!; try done; congruence.
    + assert (chan_queue c = []) as Hq by (revert Hr; unfold try_recv; by destruct (chan_queue c)).
      destruct dropped, (chan_closed c) eqn:Hcl; cbn [orb]; do 3 eexists;
        (split; [reflexivity|]); rewrite Hq; split_and!; auto.
  - do 3 eexists. split; [reflexivity|]. split_and!; try done.
    + cbn [yields]. by rewrite (app_assoc (take _ _)), take_drop.
    + destruct n as [|n]; [by left|]. done.
Qed.

(** What a reader has obtained and holds, while the device fills its channel. *)
Inductive reading : Chan bytes → bytes → bytes → Prop :=
  | reading_start n : reading (channel n) [] []
  | reading_filled c c' got buffer :
      reading c got buffer → chan_log c `prefix_of` chan_log c' → chan_taken c' = chan_taken c →
      reading c' got buffer
  | reading_polled c got buffer fuel n dropped d buffer' c' :
      reading c got buffer → poll_read fuel n dropped buffer c = Some (Ready d, buffer', c') →
      reading c' (got ++ d) buffer'
  | reading_blocked c got buffer fuel n dropped buffer' c' :
      reading c got buffer → poll_read fuel n dropped buffer c = Some (Pending, buffer', c') →
      reading c' got buffer'.

Lemma poll_read_taken fuel n dropped : ∀ buffer c r buffer' c',
  wf_chan c → poll_read fuel n dropped buffer c = Some (r, buffer', c') →
  wf_chan c' ∧ chan_log c' = chan_log c
  ∧ ∀ got, got ++ buffer = mjoin (take (chan_taken c) (chan_log c)) →
      (got ++ yields r) ++ buffer' = mjoin (take (chan_taken c') (chan_log c')).
Proof.
  induction fuel as [|fuel IH]; intros buffer c r buffer' c' Hw; [done|]. cbn [poll_read].
  destruct buffer as [|x buffer].
  - destruct (try_recv c) as [[data c1]|] eqn:Hr.
    + pose proof Hr as Hr'. unfold try_recv in Hr'.
      apply try_recv_Some in Hr as (Hq & Hl & _ & Hc & Hw1).
      intros Hp. destruct (IH _ _ _ _ _ (Hw1 Hw) Hp) as (Hw' & Hl' & Hg).
      split_and!; [done|congruence|]. intros got Hgot. apply Hg.
      rewrite Hq in Hr'. injection Hr' as <-. cbn [chan_taken chan_log].
      unfold chan_queue in Hq. rewrite (take_S_r _ _ data), join_app, <-Hgot.
      * cbn. by rewrite !app_nil_r.
      * by rewrite <-(Nat.add_0_r (chan_taken c)), <-lookup_drop, Hq.
    + destruct (dropped || chan_closed c); intros [= <- <- <-]; split_and!; try done;
        intros got Hgot; by rewrite app_nil_r.
  - intros [= <- <- <-]. split_and!; try done. intros got Hgot. cbn [yields].
    by rewrite <-app_assoc, take_drop.
Qed.

(** A reader has what it took from its channel, some of it in its buffer. *)
Lemma reading_spec c got buffer :
  reading c got buffer → wf_chan c ∧ got ++ buffer = mjoin (take (chan_taken c) (chan_log c)).
Proof.
  induction 1 as [n|c c' got buffer _ [Hw IH] (r & Hl) Ht|c got buffer fuel n dropped d buffer' c' _ [Hw IH] Hp
    |c got buffer fuel n dropped buffer' c' _ [Hw IH] Hp].
  - split; [apply wf_channel|done].
  - unfold wf_chan in *. rewrite Hl, Ht, length_app, take_app_le by done. split; [lia|done].
  - destruct (poll_read_taken _ _ _ _ _ _ _ _ Hw Hp) as (Hw' & _ & Hg). split; [done|]. by apply Hg.
  - destruct (poll_read_taken _ _ _ _ _ _ _ _ Hw Hp) as (Hw' & _ & Hg). split; [done|].
    rewrite <-(Hg got IH). cbn [yields]. by rewrite app_nil_r.
Qed.

(** An empty message does not end the stream. *)
Lemma poll_read_skips_empty fuel n dropped c c' :
  try_recv c = Some ([], c') → poll_read (S fuel) n dropped [] c = poll_read fuel n dropped [] c'.
Proof. intros Hr. cbn [poll_read]. by rewrite Hr. Qed.

End TcpHalves.

(** ** UDP *)

Module UdpHalves.

(** [UdpSocket::recv_from]: [None] inside is [BrokenPipe]. *)
Definition recv_from (dropped : bool) (receiver : Chan (SocketAddr * bytes)) :
    Poll (option (SocketAddr * bytes)) * Chan (SocketAddr * bytes) :=
  match try_recv receiver with
  | Some (m, receiver) => (Ready (Some m), receiver)
  | None => (if dropped || chan_closed receiver then Ready None else Pending, receiver)
  end.

(** [UdpWriteHalf::send_to]: it reports success on a closed channel too. *)
Definition send_to (peer_addr : SocketAddr) (data : bytes) (from : SocketAddr)
    (sender : Chan (SocketAddr * SocketAddr * bytes)) :
    Poll nat * Chan (SocketAddr * SocketAddr * bytes) :=
  if chan_closed sender then (Ready (length data), sender)
  else
    match try_send sender (from, peer_addr, data) with
    | Some sender => (Ready (length data), sender)
    | None => (Pending, sender)
    end.

(** [UdpSocket::close], when the channel has room. *)
Definition close (peer_addr : SocketAddr) (receiver : Chan (SocketAddr * bytes))
    (sender : Chan (SocketAddr * SocketAddr * bytes)) :
    Chan (SocketAddr * bytes) * Chan (SocketAddr * SocketAddr * bytes) :=
  (chan_close receiver, (send_to peer_addr [] peer_addr sender).2).

End UdpHalves.

(** ** End to end *)

Module TunStream.
Import TcpHalves.

Section EndToEnd.
Context {Stk : Smoltcp} {Obs : Observed Stk} {K : SmoltcpOk Stk} (k : Ipv4Class).

(** What a task has read belongs to the socket of its client. *)
Lemma reading_of_socket now l d src id c got buffer :
  mtu l ≠ 0 → rtc (TunDevice.step k) (TunDevice.start now l) d →
  TunDevice.tcp_req_senders d !! src = Some id → TunDevice.tcp_chans d !! id = Some c →
  reading c got buffer →
  ∃ h dst s, TunDevice.tcp_ip2handle d !! src = Some (h, dst)
    ∧ sockets_view (TunDevice.sockets d) !! h = Some (Tcp s)
    ∧ TunDevice.tcp_given s c ∧ got ++ buffer = mjoin (take (chan_taken c) (chan_log c))
    ∧ got `prefix_of` tcp_rx s.
Proof.
  intros Hm Hr Hid Hc [Hw Hg]%reading_spec.
  destruct (TunDevice.reachable_inv _ _ _ _ Hm Hr) as [_ Ht _ _ _ _].
  destruct (a_sender _ _ _ _ _ _ _ _ Ht _ _ Hid)
    as (h & s & c' & (dst & Hi)%TunDevice.fst_lookup & Hs%lookup_tcps & Hc' & Hgiven).
  assert (c' = c) as -> by congruence. exists h, dst, s. split_and!; try done.
  destruct Hgiven as (_ & Hp & _). trans (mjoin (chan_log c)); [|etrans; [exact Hp|apply prefix_take]].
  rewrite <-(take_drop (chan_taken c) (chan_log c)), join_app, <-Hg, <-app_assoc. by apply prefix_app_r.
Qed.

(** Whenever and in whatever portions a task reads its client's stream, it has
    obtained a prefix of what the client's socket received; once its buffer and its
    channel are empty, and it has not closed the channel, that is everything the
    device took from the socket. *)
Theorem reader_gets_stream now l d src id c got buffer :
  mtu l ≠ 0 → rtc (TunDevice.step k) (TunDevice.start now l) d →
  TunDevice.tcp_req_senders d !! src = Some id → TunDevice.tcp_chans d !! id = Some c →
  reading c got buffer →
  ∃ h dst s, TunDevice.tcp_ip2handle d !! src = Some (h, dst)
    ∧ sockets_view (TunDevice.sockets d) !! h = Some (Tcp s)
    ∧ got `prefix_of` tcp_rx s
    ∧ (buffer = [] → chan_queue c = [] → chan_closed c = false →
       got = take (tcp_read s) (tcp_rx s)).
Proof.
  intros Hm Hr Hid Hc Hread.
  destruct (reading_of_socket now l d src id c got buffer Hm Hr Hid Hc Hread)
    as (h & dst & s & Hi & Hs & (_ & _ & Ho) & Hg & Hp).
  exists h, dst, s. split_and!; [done..|]. intros -> Hq Hcl. rewrite <-Ho by done. rewrite app_nil_r in Hg.
  rewrite Hg. f_equal. unfold chan_queue in Hq.
  by rewrite <-(take_drop (chan_taken c) (chan_log c)) at 2; rewrite Hq, app_nil_r.
Qed.

(** What tasks write for a client whose socket may send goes to the socket in
    order and without loss: the packets it has no room for stay, and the socket is
    closed only after everything written before the end of the stream. *)
Theorem writer_reaches_socket packets s :
  may_send s = true → Forall (λ p, p ≠ []) packets →
  ∃ rest s' sent, TunDevice.send_packets packets s = (rest, s') ∧ may_send s' = true
    ∧ tcp_tx s' = tcp_tx s ++ sent ∧ sent ++ mjoin rest = mjoin packets
    ∧ Forall (λ p, p ≠ []) rest
    ∧ TunDevice.send_packets (packets ++ [[]]) s
      = match rest with [] => ([], tcp_close s') | _ => (rest ++ [[]], s') end.
Proof.
  intros Hs Hne. revert s Hs. induction Hne as [|[|x p] packets Hp Hne IH]; intros s Hs; [|done|].
  { exists [], s, []. rewrite app_nil_r. done. }
  destruct (tcp_may_send_spec s (x :: p) Hs) as (n & s1 & Hr & Hs1).
  pose proof Hr as (_ & _ & _ & Hn & Htx)%tcp_send_spec.
  cbn [TunDevice.send_packets app]. rewrite Hr.
  destruct (drop n (x :: p)) as [|y q] eqn:Hd.
  - destruct (IH s1 Hs1) as (rest & s' & sent & -> & Hs' & Ht & Hj & Hf & ->).
    exists rest, s', (x :: p ++ sent). split_and!; try done.
    + rewrite Ht, Htx, <-app_assoc. f_equal. change (x :: p ++ sent) with ((x :: p) ++ sent). f_equal.
      by rewrite <-(take_drop n (x :: p)) at 2; rewrite Hd, app_nil_r.
    + change (mjoin ((x :: p) :: packets)) with (x :: p ++ mjoin packets). by rewrite <-Hj, app_assoc.
  - exists ((y :: q) :: packets), s1, (take n (x :: p)). split_and!; try done; [|by constructor].
    change (mjoin ((y :: q) :: packets)) with ((y :: q) ++ mjoin packets).
    by rewrite <-Hd, app_assoc, take_drop.
Qed.

End EndToEnd.
End TunStream.

(** ** Witnesses *)

Module TunStreamWitness.
Import SimStack TcpHalves TunDevice TunDeviceWitness.

(** The task reads one of the two bytes. *)
Definition filled : Chan bytes := mkChan [[104; 105]] 0 4 false.
Definition read_one : Chan bytes := mkChan [[104; 105]] 1 4 false.
Definition device5 : t :=
  with_tcp_senders device3 (tcp_req_senders device3) (<[0%nat := read_one]> (tcp_chans device3)).

Lemma run5 : rtc (step class) device0 device5.
Proof.
  eapply rtc_r; [exact run3|]. apply step_task.
  apply (task_reads device3 0 filled [104; 105] read_one); by vm_compute.
Qed.

Lemma read_one_reading : reading read_one [104] [105].
Proof.
  apply (reading_polled filled [] [] 3 1 false [104] [105]); [|by vm_compute].
  apply (reading_filled (channel 4)); [apply reading_start|apply prefix_nil|done].
Qed.

Lemma reader_gets_stream_witness :
  ∃ h dst s, tcp_ip2handle device5 !! client = Some (h, dst)
    ∧ sockets_view (sockets device5) !! h = Some (Tcp s) ∧ [104] `prefix_of` tcp_rx s
    ∧ ([105] = [] → chan_queue read_one = [] → chan_closed read_one = false →
       [104] = take (tcp_read s) (tcp_rx s)).
Proof.
  exact (TunStream.reader_gets_stream class 0 limits0 device5 client 0 read_one [104] [105]
    ltac:(done) run5 ltac:(by vm_compute) ltac:(by vm_compute) read_one_reading).
Defined.

(** A socket with room for three bytes. *)
Definition narrow : tcp := mkTcp Established (Some client) (Some target) [] [] [] 3.

Lemma writer_reaches_socket_witness :
  ∃ rest s' sent, send_packets [[1; 2]; [3; 4]] narrow = (rest, s') ∧ may_send s' = true
    ∧ tcp_tx s' = tcp_tx narrow ++ sent ∧ sent ++ mjoin rest = [1; 2; 3; 4]
    ∧ Forall (λ p, p ≠ []) rest
    ∧ send_packets ([[1; 2]; [3; 4]] ++ [[]]) narrow
      = match rest with [] => ([], tcp_close s') | _ => (rest ++ [[]], s') end.
Proof.
  exact (TunStream.writer_reaches_socket [[1; 2]; [3; 4]] narrow ltac:(by vm_compute)
    ltac:(by repeat constructor)).
Defined.

End TunStreamWitness.
