(* ===== verification/WinTun.v ===== *)
(** * The tunnel device of the synchronous Windows tunnel
    ([src/src/wintun/tun.rs], [src/src/wintun/waker.rs] and the tokens of
    [src/src/wintun/mod.rs])

    [WintunDevice] makes sockets for the packets that come in from the virtual
    adapter; the wakers of its sockets send events to two queues, which the
    servers of the tunnel drain.  The references [get_tcp_socket_mut] and
    [get_udp_socket_mut] return are written back with [put_tcp] and [put_udp].
    [None] is a panic. *)

From Stdlib Require Import ZArith Lia SpecFloat.
From stdpp Require Import base option list gmap fin_maps.
From S2P Require Import Prelude.
From S2P Require Import Net.
From S2P Require Import IpSet.
From S2P Require Import Smoltcp.
From S2P Require Import TunDevice.

Open Scope Z_scope.

(** ** Tokens *)

Definition CHANNEL_CNT : Z := 3.
Definition MIN_INDEX : Z := 2.
Definition MAX_INDEX : Z := usize_MAX / CHANNEL_CNT.
Definition CHANNEL_IDLE : Z := 0.
Definition CHANNEL_UDP : Z := 1.
Definition CHANNEL_TCP : Z := 2.

(** [next_token] of a channel: the token and the next index. *)
Definition next_token (channel NEXT_INDEX : Z) : Z * Z :=
  let index := NEXT_INDEX in
  let next := wrap 64 (NEXT_INDEX + 1) in
  (wrap 64 (wrap 64 (index * CHANNEL_CNT) + channel), if MAX_INDEX <=? next then MIN_INDEX else next).

Lemma WIN_MAX_INDEX_value : MAX_INDEX = 6148914691236517205.
Proof. reflexivity. Qed.

Lemma next_token_small channel i :
  0 <= channel < CHANNEL_CNT → MIN_INDEX <= i < MAX_INDEX →
  (next_token channel i).1 = i * CHANNEL_CNT + channel.
Proof.
  unfold next_token, CHANNEL_CNT, MIN_INDEX. rewrite WIN_MAX_INDEX_value. intros Hc Hi. cbn [fst].
  rewrite (wrap_small 64 (i * 3)), wrap_small by lia. done.
Qed.

Lemma next_token_next channel i :
  MIN_INDEX <= i → i + 1 < MAX_INDEX → (next_token channel i).2 = i + 1.
Proof.
  unfold next_token, MIN_INDEX. rewrite WIN_MAX_INDEX_value. intros Hl Hi. cbn [snd].
  rewrite wrap_small by lia. by rewrite (proj2 (Z.leb_gt _ _)) by lia.
Qed.

(** The token was given out on the channel before the index reached [next]. *)
Definition issued (channel next tok : Z) : Prop :=
  ∃ i, MIN_INDEX <= i < next ∧ tok = i * CHANNEL_CNT + channel.

Lemma issued_mono channel n n' tok : n <= n' → issued channel n tok → issued channel n' tok.
Proof. intros Hn (i & Hi & ->). exists i. split; [lia|done]. Qed.

Lemma issued_next channel n : MIN_INDEX <= n → issued channel (n + 1) (n * CHANNEL_CNT + channel).
Proof. intros Hn. exists n. split; [lia|done]. Qed.

Lemma issued_fresh channel n : ¬ issued channel n (n * CHANNEL_CNT + channel).
Proof. intros (i & Hi & He). unfold CHANNEL_CNT in He. lia. Qed.

Lemma issued_channel channel n tok :
  0 <= channel < CHANNEL_CNT → issued channel n tok → tok mod CHANNEL_CNT = channel ∧ CHANNEL_CNT < tok.
Proof.
  unfold CHANNEL_CNT, MIN_INDEX. intros Hc (i & Hi & ->). rewrite Z.add_comm, Z.mod_add, Z.mod_small by lia.
  unfold MIN_INDEX in *. split; [done|]. unfold CHANNEL_CNT. lia.
Qed.

(** ** Wakers *)

Module Wakers.

(** [Event(u8)]. *)
Definition Event : Type := Z.
Definition ev_rx : Event := 1.
Definition ev_tx : Event := 2.
Definition is_readable (e : Event) : bool := negb (Z.land e ev_rx =? 0).
Definition is_writable (e : Event) : bool := negb (Z.land e ev_tx =? 0).
Definition add (e event : Event) : Event := Z.lor e event.

(** [TunWaker::create]; [wake] sends the pair. *)
Definition create (event : Event) (handle : nat) : Waker := Some (handle, event).

(** The two ends of the channel share its queue. *)
Record t : Type := mk {
  wakers : gmap nat (Waker * Waker);
  queue : list (nat * Event)
}.

Definition new : t := mk ∅ [].

Definition get_wakers (handle : nat) (w : t) : option ((Waker * Waker) * t) :=
  let w :=
    match wakers w !! handle with
    | None => mk (<[handle := (create ev_rx handle, create ev_tx handle)]> (wakers w)) (queue w)
    | Some _ => w
    end in
  ws ← wakers w !! handle;
  Some (ws, w).

Definition get_dummy_waker : Waker := None.

(** [wake]; the dummy does nothing. *)
Definition wake (k : Waker) (w : t) : t :=
  match k with
  | Some e => mk (wakers w) (queue w ++ [e])
  | None => w
  end.

Definition add_event (events : gmap nat Event) (e : nat * Event) : gmap nat Event :=
  <[e.1 := add (default e.2 (events !! e.1)) e.2]> events.

Definition get_events (w : t) : gmap nat Event * t :=
  (foldl add_event ∅ (queue w), mk (wakers w) []).

(** The wakers of a handle are its own. *)
Definition ok (w : t) : Prop :=
  ∀ h ws, wakers w !! h = Some ws → ws = (create ev_rx h, create ev_tx h).

Lemma ok_new : ok new.
Proof. intros h ws. cbn. by rewrite lookup_empty. Qed.

Lemma get_wakers_spec handle w :
  ok w → ∃ w', get_wakers handle w = Some ((create ev_rx handle, create ev_tx handle), w')
    ∧ ok w' ∧ queue w' = queue w.
Proof.
  intros Hw. unfold get_wakers. destruct (wakers w !! handle) as [ws|] eqn:Hh.
  - rewrite Hh. cbn. rewrite (Hw _ _ Hh). by eexists.
  - cbn. rewrite lookup_insert_eq. cbn. eexists. split; [done|]. split; [|done].
    intros h ws. cbn. intros [[<- <-]|[_ Hx]]%lookup_insert_Some; [done|by apply Hw].
Qed.

Lemma get_wakers_frame handle w ws w' :
  get_wakers handle w = Some (ws, w') →
  queue w' = queue w ∧ ∀ h, h ≠ handle → wakers w' !! h = wakers w !! h.
Proof.
  unfold get_wakers. intros (ws' & _ & [= _ <-])%bind_Some. destruct (wakers w !! handle); [done|].
  split; [done|]. intros h Hh. cbn. by rewrite lookup_insert_ne.
Qed.

Lemma wake_ok k w : ok w → ok (wake k w).
Proof. by destruct k. Qed.

Lemma get_events_ok w : ok w → ok (get_events w).2.
Proof. done. Qed.

Lemma add_events_spec l m h :
  foldl add_event m l !! h =
    match m !! h with
    | None => (λ es, foldr Z.lor 0 es) <$> (match snd <$> filter (λ e, e.1 = h) l with [] => None | es => Some es end)
    | Some e => Some (Z.lor e (foldr Z.lor 0 (snd <$> filter (λ e, e.1 = h) l)))
    end.
Proof.
  revert m. induction l as [|[h' e] l IH]; intros m.
  { cbn. destruct (m !! h) as [e|]; [by rewrite Z.lor_0_r|done]. }
  cbn [foldl]. rewrite IH, filter_cons. unfold add_event. cbn [fst snd].
  destruct (decide (h' = h)) as [->|Hne].
  - rewrite lookup_insert_eq. destruct (m !! h) as [e0|]; cbn.
    + by rewrite Z.lor_assoc.
    + unfold add. by rewrite Z.lor_diag.
  - by rewrite lookup_insert_ne by done.
Qed.

(** What a server is told of a handle: nothing, or all the events of the queue. *)
Lemma get_events_spec w h :
  (get_events w).1 !! h =
    match snd <$> filter (λ e, e.1 = h) (queue w) with
    | [] => None
    | es => Some (foldr Z.lor 0 es)
    end.
Proof. unfold get_events. cbn [fst]. rewrite add_events_spec, lookup_empty. by destruct (snd <$> _). Qed.

(** A server hears of no handle that was not woken. *)
Lemma events_queued w h : is_Some ((get_events w).1 !! h) → h ∈ (queue w).*1.
Proof.
  rewrite get_events_spec. intros [x Hx]. destruct (filter (λ e, e.1 = h) (queue w)) as [|e l] eqn:Hl; [done|].
  assert (e ∈ filter (λ e, e.1 = h) (queue w)) as [He Hin]%list_elem_of_filter by (rewrite Hl; set_solver).
  apply list_elem_of_fmap. exists e. by split.
Qed.

Lemma size_events w : (size (get_events w).1 <= length (queue w))%nat.
Proof.
  unfold get_events. cbn [fst]. assert (∀ l m, (size (foldl add_event m l) <= size m + length l)%nat) as H.
  { induction l as [|e l IH]; intros m; simpl; [lia|]. etrans; [apply IH|]. unfold add_event.
    destruct (m !! e.1) eqn:He; [rewrite map_size_insert_Some by done|rewrite map_size_insert_None by done]; lia. }
  specialize (H (queue w) ∅). by rewrite map_size_empty in H.
Qed.

End Wakers.

(** [WakerMode]. *)
Inductive WakerMode : Type := ModeRecv | ModeSend | ModeBoth | ModeNone | ModeDummy.

(** The fields of [WintunArgs] the device reads. *)
Record WintunArgs : Type := mkWintunArgs {
  udp_rx_meta_size : Z;
  udp_rx_buffer_size : Z;
  udp_tx_buffer_size : Z;
  tcp_rx_buffer_size : Z;
  tcp_tx_buffer_size : Z
}.

(** The handle of a UDP socket that is made by hand and that the servers leave
    alone; the Windows tunnel has none, the mobile one that of its DNS server. *)
Class Reserved : Type := reserved : option nat.

#[export] Instance nothing_reserved : Reserved := None.

Module WinTun.

Section Device.
Context {Stk : Smoltcp} (k : Ipv4Class) (args : WintunArgs).

Record t : Type := mk {
  sockets : SocketSet;
  tcp_wakers : Wakers.t;
  udp_wakers : Wakers.t;
  udp_set : gset SocketAddr;
  mtu : Z;
  traffic : Traffic
}.

Definition with_sockets (d : t) (x : SocketSet) : t :=
  mk x (tcp_wakers d) (udp_wakers d) (udp_set d) (mtu d) (traffic d).
Definition with_tcp_wakers (d : t) (x : Wakers.t) : t :=
  mk (sockets d) x (udp_wakers d) (udp_set d) (mtu d) (traffic d).
Definition with_udp_wakers (d : t) (x : Wakers.t) : t :=
  mk (sockets d) (tcp_wakers d) x (udp_set d) (mtu d) (traffic d).
Definition with_udp_set (d : t) (x : gset SocketAddr) : t :=
  mk (sockets d) (tcp_wakers d) (udp_wakers d) x (mtu d) (traffic d).
Definition with_traffic (d : t) (x : Traffic) : t :=
  mk (sockets d) (tcp_wakers d) (udp_wakers d) (udp_set d) (mtu d) x.

Definition new (mtu : Z) (sockets : SocketSet) (now : Z) : t :=
  mk sockets Wakers.new Wakers.new ∅ mtu (mkTraffic 0 0 now).

Definition put_tcp (d : t) (handle : nat) (socket : TcpSocket) : t :=
  with_sockets d (sockets_put (sockets d) handle (Tcp socket)).
Definition put_udp (d : t) (handle : nat) (socket : UdpSocket) : t :=
  with_sockets d (sockets_put (sockets d) handle (Udp socket)).

Definition ensure_tcp_socket (d : t) (endpoint : SocketAddr) : option t :=
  let socket := tcp_new (tcp_rx_buffer_size args) (tcp_tx_buffer_size args) in
  let '(handle, ss) := sockets_add (sockets d) (Tcp socket) in
  socket ← get_tcp ss handle;
  '((_, tx), w) ← Wakers.get_wakers handle (tcp_wakers d);
  let socket := tcp_register_send tx socket in
  socket ← tcp_listen socket endpoint;
  let socket := set_nagle_enabled false socket in
  let socket := set_ack_delay None socket in
  Some (put_tcp (with_tcp_wakers (with_sockets d ss) w) handle socket).

(** Both buffers have [udp_rx_meta_size] entries. *)
Definition ensure_udp_socket (d : t) (endpoint : SocketAddr) : option t :=
  if bool_decide (endpoint ∈ udp_set d) then Some d
  else
    let socket := udp_new (udp_rx_meta_size args) (udp_rx_buffer_size args)
                    (udp_rx_meta_size args) (udp_tx_buffer_size args) in
    socket ← udp_bind socket endpoint;
    let '(handle, ss) := sockets_add (sockets d) (Udp socket) in
    socket ← get_udp ss handle;
    '((rx, tx), w) ← Wakers.get_wakers handle (udp_wakers d);
    let socket := udp_register_recv rx socket in
    let socket := udp_register_send tx socket in
    Some (with_udp_set (put_udp (with_udp_wakers (with_sockets d ss) w) handle socket)
            ({[endpoint]} ∪ udp_set d)).

(** The last step panics on a handle that is not in the set. *)
Definition remove_socket (d : t) (handle : nat) : option t :=
  d ← match sockets_get (sockets d) handle with
      | Some (Udp socket) =>
          addr ← (udp_endpoint socket).1;
          let endpoint := mkSocketAddr addr (udp_endpoint socket).2 in
          let socket := udp_register_send Wakers.get_dummy_waker socket in
          let socket := udp_register_recv Wakers.get_dummy_waker socket in
          let socket := udp_close socket in
          Some (with_udp_set (put_udp d handle socket) (udp_set d ∖ {[endpoint]}))
      | Some (Tcp socket) =>
          let socket := tcp_register_send Wakers.get_dummy_waker socket in
          let socket := tcp_register_recv Wakers.get_dummy_waker socket in
          Some (put_tcp d handle (tcp_close socket))
      | None => Some d
      end;
  ss ← sockets_remove (sockets d) handle;
  Some (with_sockets d ss).

Definition get_udp_events (d : t) : gmap nat Wakers.Event * t :=
  let '(events, w) := Wakers.get_events (udp_wakers d) in (events, with_udp_wakers d w).
Definition get_tcp_events (d : t) : gmap nat Wakers.Event * t :=
  let '(events, w) := Wakers.get_events (tcp_wakers d) in (events, with_tcp_wakers d w).

Definition get_tcp_socket_mut (d : t) (handle : nat) (waker : WakerMode) : option (TcpSocket * t) :=
  socket ← get_tcp (sockets d) handle;
  match waker with
  | ModeRecv =>
      '((rx, _), w) ← Wakers.get_wakers handle (tcp_wakers d);
      let socket := tcp_register_recv rx socket in
      Some (socket, put_tcp (with_tcp_wakers d w) handle socket)
  | ModeSend =>
      '((_, tx), w) ← Wakers.get_wakers handle (tcp_wakers d);
      let socket := tcp_register_send tx socket in
      Some (socket, put_tcp (with_tcp_wakers d w) handle socket)
  | ModeBoth =>
      '((rx, tx), w) ← Wakers.get_wakers handle (tcp_wakers d);
      let socket := tcp_register_send tx (tcp_register_recv rx socket) in
      Some (socket, put_tcp (with_tcp_wakers d w) handle socket)
  | ModeDummy =>
      let waker := Wakers.get_dummy_waker in
      let socket := tcp_register_send waker (tcp_register_recv waker socket) in
      Some (socket, put_tcp d handle socket)
  | ModeNone => Some (socket, d)
  end.

Definition get_udp_socket_mut (d : t) (handle : nat) (waker : WakerMode) : option (UdpSocket * t) :=
  socket ← get_udp (sockets d) handle;
  match waker with
  | ModeRecv =>
      '((rx, _), w) ← Wakers.get_wakers handle (udp_wakers d);
      let socket := udp_register_recv rx socket in
      Some (socket, put_udp (with_udp_wakers d w) handle socket)
  | ModeSend =>
      '((_, tx), w) ← Wakers.get_wakers handle (udp_wakers d);
      let socket := udp_register_send tx socket in
      Some (socket, put_udp (with_udp_wakers d w) handle socket)
  | ModeBoth =>
      '((rx, tx), w) ← Wakers.get_wakers handle (udp_wakers d);
      let socket := udp_register_send tx (udp_register_recv rx socket) in
      Some (socket, put_udp (with_udp_wakers d w) handle socket)
  | ModeNone => Some (socket, d)
  | ModeDummy =>
      let waker := Wakers.get_dummy_waker in
      let socket := udp_register_recv waker (udp_register_send waker socket) in
      Some (socket, put_udp d handle socket)
  end.

Definition calculate_speed (now : Z) (d : t) : (spec_float * spec_float) * t :=
  let time := TunDevice.as_secs_f64 (since now (begin_traffic (traffic d))) in
  let speed (n : Z) :=
    SFdiv 53 1024 (SFdiv 53 1024 (SFdiv 53 1024 (TunDevice.f64_of_Z n) time) (TunDevice.f64_of_Z 1024))
      (TunDevice.f64_of_Z 1024) in
  ((speed (rx_bytes (traffic d)), speed (tx_bytes (traffic d))),
   with_traffic d (mkTraffic 0 0 now)).

(** *** Packets *)

(** What [preprocess_packet] reads: the destination, and of a TCP packet whether
    it asks for a connection. *)
Inductive heading : Type :=
  | HeadOther
  | HeadTo (dst_endpoint : SocketAddr) (connect : option bool).

Definition heading_of (packet : bytes) : option heading :=
  version ← ip_version packet;
  ip ← match version with
       | Ipv4 => ipv4_new_checked packet
       | Ipv6 => ipv6_new_checked packet
       end;
  match next_header ip with
  | ProtoUdp =>
      p ← udp_new_checked (ip_payload ip);
      Some (HeadTo (mkSocketAddr (dst_addr ip) (udp_dst_port p)) None)
  | ProtoTcp =>
      p ← tcp_new_checked (ip_payload ip);
      Some (HeadTo (mkSocketAddr (dst_addr ip) (tcp_dst_port p)) (Some (tcp_syn p && negb (tcp_ack p))))
  | ProtoOther => Some HeadOther
  end.

Definition preprocess_packet (packet : bytes) (d : t) : option t :=
  h ← heading_of packet;
  match h with
  | HeadOther => Some d
  | HeadTo dst_endpoint connect =>
      private ← is_private k dst_endpoint;
      if private : bool then Some d
      else
        match connect with
        | Some true => ensure_tcp_socket d dst_endpoint
        | None => ensure_udp_socket d dst_endpoint
        | _ => Some d
        end
  end.

(** [Device::receive] on the outcome of [try_receive]; an error is no packet. *)
Definition receive (d : t) (r : io_result (option bytes)) : option t :=
  match r with
  | IoErr _ | IoOk None => Some d
  | IoOk (Some packet) =>
      let d := with_traffic d (mkTraffic (wrap 64 (rx_bytes (traffic d) + Z.of_nat (length packet)))
                                 (tx_bytes (traffic d)) (begin_traffic (traffic d))) in
      preprocess_packet packet d
  end.

(** [TxToken::consume] on whether a packet could be allocated. *)
Definition consume (d : t) (len : Z) (allocated : bool) : option t :=
  let d := with_traffic d (mkTraffic (rx_bytes (traffic d)) (wrap 64 (tx_bytes (traffic d) + len))
                             (begin_traffic (traffic d))) in
  if allocated then Some d else None.

End Device.

(** ** The sockets *)

(** The socket is bound to the endpoint. *)
Definition serves `{Smoltcp} (s : UdpSocket) (e : SocketAddr) : Prop :=
  udp_endpoint s = (Some (sa_ip e), sa_port e).

Section Invariant.
Context {Stk : Smoltcp} {Rs : Reserved} {Obs : Observed Stk} {K : SmoltcpOk Stk} (k : Ipv4Class) (args : WintunArgs).

(** Wakers are their handle's own, and the reserved socket has none and is not
    told of. *)
Record wakers_ok (w : Wakers.t) : Prop := {
  k_own : Wakers.ok w;
  k_apart h : reserved = Some h → Wakers.wakers w !! h = None ∧ h ∉ (Wakers.queue w).*1
}.

Lemma wakers_ok_get h w :
  wakers_ok w → reserved ≠ Some h → ∃ w', Wakers.get_wakers h w
    = Some ((Wakers.create Wakers.ev_rx h, Wakers.create Wakers.ev_tx h), w') ∧ wakers_ok w'.
Proof.
  intros [Hw Ha] Hh. destruct (Wakers.get_wakers_spec h w Hw) as (w' & Hg & Hok & Hq). exists w'. split; [done|].
  apply Wakers.get_wakers_frame in Hg as [_ Hf]. split; [done|]. intros h' Hr. rewrite Hq, Hf by congruence. auto.
Qed.

Lemma wakers_ok_events w : wakers_ok w → wakers_ok (Wakers.get_events w).2.
Proof. intros [Hw Ha]. split; [done|]. intros h Hr. split; [by apply Ha|by apply not_elem_of_nil]. Qed.

(** [udp_set] lists the endpoints of the UDP sockets, one socket each; the reserved
    socket is there and is not counted. *)
Record inv (d : t) : Prop := mkInv {
  i_tcp_wakers : Wakers.ok (tcp_wakers d);
  i_udp_wakers : wakers_ok (udp_wakers d);
  i_listed h s : reserved ≠ Some h → udps (sockets d) !! h = Some s → ∃ e, serves s e ∧ e ∈ udp_set d;
  i_served e : e ∈ udp_set d → ∃ h s, reserved ≠ Some h ∧ udps (sockets d) !! h = Some s ∧ serves s e;
  i_unique h h' s s' e : reserved ≠ Some h → reserved ≠ Some h' →
    udps (sockets d) !! h = Some s → udps (sockets d) !! h' = Some s' → serves s e → serves s' e → h = h';
  i_reserved h : reserved = Some h → is_Some (udps (sockets d) !! h)
}.

Lemma serves_inj `{Smoltcp} s e e' : serves s e → serves s e' → e = e'.
Proof. unfold serves. destruct e, e'. cbn. intros ->. congruence. Qed.

Lemma serves_keeps s s' e : udp_endpoint s' = udp_endpoint s → serves s' e ↔ serves s e.
Proof. unfold serves. by intros ->. Qed.

(** What does not change the endpoints keeps the table. *)
Lemma inv_same d d' :
  inv d → Wakers.ok (tcp_wakers d') → wakers_ok (udp_wakers d') → udp_set d' = udp_set d →
  (∀ h, option_Forall2 (λ s s', udp_endpoint s' = udp_endpoint s) (udps (sockets d) !! h) (udps (sockets d') !! h)) →
  inv d'.
Proof.
  intros [Ht Hu Hl Hs Hq Hr] Ht' Hu' He Hall.
  assert (∀ h s', udps (sockets d') !! h = Some s' →
    ∃ s, udps (sockets d) !! h = Some s ∧ ∀ e, serves s' e ↔ serves s e) as Hback.
  { intros h s' Hs'. specialize (Hall h). rewrite Hs' in Hall. inversion Hall as [s ? Hk Heq|]; subst.
    exists s. split; [done|]. intros e. by apply serves_keeps. }
  assert (∀ h s, udps (sockets d) !! h = Some s →
    ∃ s', udps (sockets d') !! h = Some s' ∧ ∀ e, serves s' e ↔ serves s e) as Hfwd.
  { intros h s Hs'. specialize (Hall h). rewrite Hs' in Hall. inversion Hall as [? s' Hk Heq|]; subst.
    exists s'. split; [done|]. intros e. by apply serves_keeps. }
  split; [done..| | | |]; rewrite ?He.
  - intros h s' Hh (s & Hs' & Hk)%Hback. destruct (Hl _ _ Hh Hs') as (e & ? & ?). exists e. by rewrite Hk.
  - intros e (h & s & ? & Hh & He')%Hs. destruct (Hfwd _ _ Hh) as (s' & ? & Hk). exists h, s'. by rewrite Hk.
  - intros h h' s s' e Hh Hh' (s1 & H1 & Hk1)%Hback (s2 & H2 & Hk2)%Hback. rewrite Hk1, Hk2. eauto.
  - intros h [s Hh]%Hr. destruct (Hfwd _ _ Hh) as (s' & ? & _). by exists s'.
Qed.

Lemma option_Forall2_refl_udp (m : gmap nat UdpSocket) h :
  option_Forall2 (λ s s' : UdpSocket, udp_endpoint s' = udp_endpoint s) (m !! h) (m !! h).
Proof. destruct (m !! h); by constructor. Qed.

Lemma inv_keep_udps d d' :
  inv d → Wakers.ok (tcp_wakers d') → wakers_ok (udp_wakers d') → udp_set d' = udp_set d →
  udps (sockets d') = udps (sockets d) → inv d'.
Proof. intros Hd ? ? ? He. eapply inv_same; [done..|]. intros h. rewrite He. apply option_Forall2_refl_udp. Qed.

Lemma inv_update_udp d d' h s s' :
  inv d → Wakers.ok (tcp_wakers d') → wakers_ok (udp_wakers d') → udp_set d' = udp_set d →
  udps (sockets d) !! h = Some s → udps (sockets d') = <[h := s']> (udps (sockets d)) →
  udp_endpoint s' = udp_endpoint s → inv d'.
Proof.
  intros Hd ? ? ? Hs He Hk. eapply inv_same; [done..|]. intros h'. rewrite He.
  destruct (decide (h = h')) as [<-|?].
  - rewrite lookup_insert_eq, Hs. by constructor.
  - rewrite lookup_insert_ne by done. apply option_Forall2_refl_udp.
Qed.

(** *** The operations *)

Lemma put_tcp_spec d h s s' :
  tcps (sockets d) !! h = Some s →
  tcps (sockets (put_tcp d h s')) = <[h := s']> (tcps (sockets d))
  ∧ udps (sockets (put_tcp d h s')) = udps (sockets d).
Proof. apply sockets_put_tcp. Qed.

Lemma put_udp_spec d h s s' :
  udps (sockets d) !! h = Some s →
  udps (sockets (put_udp d h s')) = <[h := s']> (udps (sockets d))
  ∧ tcps (sockets (put_udp d h s')) = tcps (sockets d).
Proof. apply sockets_put_udp. Qed.

#[export] Instance udp_keeps_preorder : PreOrder udp_keeps.
Proof.
  split; [by intros s|]. intros s1 s2 s3 (R1 & E1 & T1 & H1) (R2 & E2 & T2 & H2). split_and!; congruence.
Qed.

(** A socket that is in the set is returned, changed in its wakers alone. *)
Lemma get_tcp_socket_mut_spec d h s m :
  Wakers.ok (tcp_wakers d) → tcps (sockets d) !! h = Some s →
  ∃ s' d', get_tcp_socket_mut d h m = Some (s', d') ∧ tcp_keeps s s'
    ∧ tcps (sockets d') = <[h := s']> (tcps (sockets d)) ∧ udps (sockets d') = udps (sockets d)
    ∧ Wakers.ok (tcp_wakers d') ∧ udp_wakers d' = udp_wakers d ∧ udp_set d' = udp_set d.
Proof.
  intros Hw Hs. unfold get_tcp_socket_mut.
  rewrite (proj2 (get_tcp_Some _ _ _) (proj1 (lookup_tcps _ _ _) Hs)). cbn [mbind option_bind].
  destruct (Wakers.get_wakers_spec h (tcp_wakers d) Hw) as (w & Hg & Hok & _). rewrite Hg. cbn [mbind option_bind].
  assert (∀ ws s', tcp_keeps s s' → Wakers.ok ws → ∃ s1 d', Some (s', put_tcp (with_tcp_wakers d ws) h s') = Some (s1, d')
    ∧ tcp_keeps s s1
    ∧ tcps (sockets d') = <[h := s1]> (tcps (sockets d)) ∧ udps (sockets d') = udps (sockets d)
    ∧ Wakers.ok (tcp_wakers d') ∧ udp_wakers d' = udp_wakers d ∧ udp_set d' = udp_set d) as Hput.
  { intros ws s' Hk Hok'. destruct (put_tcp_spec (with_tcp_wakers d ws) h s s' Hs) as [H1 H2].
    exists s', (put_tcp (with_tcp_wakers d ws) h s'). rewrite H1, H2. by split_and!. }
  assert (put_tcp d h = put_tcp (with_tcp_wakers d (tcp_wakers d)) h) as Hid by (by destruct d).
  destruct m; rewrite ?Hid; try (apply Hput; [|done];
    repeat (etrans; [|apply tcp_register_send_keeps || apply tcp_register_recv_keeps]); reflexivity).
  exists s, d. split_and!; try done. by rewrite insert_id.
Qed.

Lemma get_udp_socket_mut_spec d h s m :
  wakers_ok (udp_wakers d) → reserved ≠ Some h → udps (sockets d) !! h = Some s →
  ∃ s' d', get_udp_socket_mut d h m = Some (s', d') ∧ udp_keeps s s'
    ∧ udps (sockets d') = <[h := s']> (udps (sockets d)) ∧ tcps (sockets d') = tcps (sockets d)
    ∧ wakers_ok (udp_wakers d') ∧ tcp_wakers d' = tcp_wakers d ∧ udp_set d' = udp_set d.
Proof.
  intros Hw Hrs Hs. unfold get_udp_socket_mut.
  rewrite (proj2 (get_udp_Some _ _ _) (proj1 (lookup_udps _ _ _) Hs)). cbn [mbind option_bind].
  destruct (wakers_ok_get h (udp_wakers d) Hw Hrs) as (w & Hg & Hok). rewrite Hg. cbn [mbind option_bind].
  assert (∀ ws s', udp_keeps s s' → wakers_ok ws → ∃ s1 d', Some (s', put_udp (with_udp_wakers d ws) h s') = Some (s1, d')
    ∧ udp_keeps s s1
    ∧ udps (sockets d') = <[h := s1]> (udps (sockets d)) ∧ tcps (sockets d') = tcps (sockets d)
    ∧ wakers_ok (udp_wakers d') ∧ tcp_wakers d' = tcp_wakers d ∧ udp_set d' = udp_set d) as Hput.
  { intros ws s' Hk Hok'. destruct (put_udp_spec (with_udp_wakers d ws) h s s' Hs) as [H1 H2].
    exists s', (put_udp (with_udp_wakers d ws) h s'). rewrite H1, H2. by split_and!. }
  assert (put_udp d h = put_udp (with_udp_wakers d (udp_wakers d)) h) as Hid by (by destruct d).
  destruct m; rewrite ?Hid; try (apply Hput; [|done];
    repeat (etrans; [|apply udp_register_send_keeps || apply udp_register_recv_keeps]); reflexivity).
  exists s, d. split_and!; try done. by rewrite insert_id.
Qed.

(** A connection request adds a listening socket, whatever sockets there are. *)
Lemma ensure_tcp_socket_spec d e :
  Wakers.ok (tcp_wakers d) → sa_port e ≠ 0 →
  ∃ h s d', ensure_tcp_socket args d e = Some d' ∧ tcps (sockets d) !! h = None
    ∧ tcps (sockets d') = <[h := s]> (tcps (sockets d)) ∧ udps (sockets d') = udps (sockets d)
    ∧ Wakers.ok (tcp_wakers d') ∧ udp_wakers d' = udp_wakers d ∧ udp_set d' = udp_set d
    ∧ remote_endpoint s = None ∧ tcp_rx s = [] ∧ tcp_tx s = [] ∧ tcp_read s = 0%nat.
Proof.
  intros Hw He. unfold ensure_tcp_socket. set (s0 := tcp_new _ _).
  destruct (sockets_add _ _) as [h ss] eqn:Hadd. apply sockets_add_tcp in Hadd as (Hh & Htc & Hud).
  assert (tcps ss !! h = Some s0) as Hn by (by rewrite Htc, lookup_insert_eq).
  rewrite (proj2 (get_tcp_Some _ _ _) (proj1 (lookup_tcps _ _ _) Hn)). cbn [mbind option_bind].
  destruct (Wakers.get_wakers_spec h (tcp_wakers d) Hw) as (w & Hg & Hok & _). rewrite Hg. cbn [mbind option_bind].
  destruct (tcp_listen_registered (Wakers.create Wakers.ev_tx h) (tcp_rx_buffer_size args) (tcp_tx_buffer_size args) e He)
    as (s & Hl & Hr & Hrx & Hrd & Htx).
  subst s0. rewrite Hl. cbn [mbind option_bind].
  assert (tcp_keeps s (set_ack_delay None (set_nagle_enabled false s))) as (Hk1 & Hk2 & Hk3 & Hk4).
  { etrans; [apply set_nagle_keeps|apply set_ack_delay_keeps]. }
  destruct (put_tcp_spec (with_tcp_wakers (with_sockets d ss) w) h _ (set_ack_delay None (set_nagle_enabled false s)) Hn)
    as [H1 H2].
  exists h, (set_ack_delay None (set_nagle_enabled false s)). eexists. split; [reflexivity|].
  rewrite H1, H2. cbn [sockets with_tcp_wakers with_sockets]. rewrite Htc, Hud, insert_insert_eq.
  split_and!; try done; [|congruence..]. rewrite Hr in Hk4. by destruct Hk4.
Qed.

(** A socket for a new destination. *)
Lemma inv_add_udp d d' h s e :
  inv d → Wakers.ok (tcp_wakers d') → wakers_ok (udp_wakers d') → udp_set d' = {[e]} ∪ udp_set d →
  udps (sockets d) !! h = None → udps (sockets d') = <[h := s]> (udps (sockets d)) → serves s e → e ∉ udp_set d →
  inv d'.
Proof.
  intros [Ht Hu Hl Hs Hq Hr] Ht' Hu' Hset Hh Hus Hse Hin.
  assert (reserved ≠ Some h) as Hne by (intros [x Hx]%Hr; congruence).
  split; [done|done| | | |]; rewrite ?Hset, Hus.
  - intros h' x Hr' [[<- <-]|[_ Hx]]%lookup_insert_Some; [exists e; set_solver|].
    destruct (Hl _ _ Hr' Hx) as (e' & ? & ?). exists e'. set_solver.
  - intros e' [->%elem_of_singleton|Hx]%elem_of_union; [exists h, s; by rewrite lookup_insert_eq|].
    destruct (Hs _ Hx) as (h' & x & ? & Hh' & ?). exists h', x. rewrite lookup_insert_ne by congruence. done.
  - intros h1 h2 s1 s2 e' Hr1 Hr2 [[<- <-]|[? H3]]%lookup_insert_Some [[<- <-]|[? H4]]%lookup_insert_Some Hs1 Hs2;
      [done|..|by eauto]; exfalso.
    + destruct (Hl _ _ Hr2 H4) as (e2 & Hs3 & ?). by rewrite (serves_inj _ _ _ Hse Hs1), (serves_inj _ _ _ Hs2 Hs3) in Hin.
    + destruct (Hl _ _ Hr1 H3) as (e2 & Hs3 & ?). by rewrite (serves_inj _ _ _ Hse Hs2), (serves_inj _ _ _ Hs1 Hs3) in Hin.
  - intros h' Hh'%Hr. rewrite lookup_insert_is_Some'. by right.
Qed.

Lemma ensure_udp_socket_spec d e :
  inv d → sa_port e ≠ 0 →
  ∃ d', ensure_udp_socket args d e = Some d' ∧ inv d' ∧ tcps (sockets d') = tcps (sockets d)
    ∧ ∀ h, is_Some (udps (sockets d) !! h) → is_Some (udps (sockets d') !! h).
Proof.
  intros Hd He. unfold ensure_udp_socket.
  case_bool_decide as Hin; [by exists d|].
  destruct (udp_bind_new (udp_rx_meta_size args) (udp_rx_buffer_size args) (udp_rx_meta_size args)
    (udp_tx_buffer_size args) e He) as (s & -> & Hep & _). cbn [mbind option_bind].
  destruct (sockets_add _ _) as [h ss] eqn:Hadd. apply sockets_add_udp in Hadd as (Hh & Hud & Htc).
  assert (udps ss !! h = Some s) as Hn by (by rewrite Hud, lookup_insert_eq).
  assert (reserved ≠ Some h) as Hne by (intros [x Hx]%(i_reserved _ Hd); congruence).
  rewrite (proj2 (get_udp_Some _ _ _) (proj1 (lookup_udps _ _ _) Hn)). cbn [mbind option_bind].
  destruct (wakers_ok_get h (udp_wakers d) (i_udp_wakers _ Hd) Hne) as (w & -> & Hok). cbn [mbind option_bind].
  set (s' := udp_register_send _ _).
  assert (udp_keeps s s') as (_ & _ & _ & Hk).
  { subst s'. etrans; [apply udp_register_recv_keeps|apply udp_register_send_keeps]. }
  destruct (put_udp_spec (with_udp_wakers (with_sockets d ss) w) h s s' Hn) as [H1 H2].
  cbn [sockets with_sockets with_udp_wakers] in H1, H2. rewrite Hud, insert_insert_eq in H1.
  eexists. split; [reflexivity|]. cbn [sockets with_udp_set]. split; [|split; [by rewrite H2|]].
  2: { intros h' [x Hx]. rewrite H1, lookup_insert_is_Some'. right. by eexists. }
  eapply (inv_add_udp d); [done|apply Hd|done|done|exact Hh|exact H1| |done]. unfold serves. by rewrite Hk.
Qed.

Lemma remove_udp_socket_serving d h s e :
  udps (sockets d) !! h = Some s → serves s e →
  ∃ d', remove_socket d h = Some d'
    ∧ udps (sockets d') = delete h (udps (sockets d)) ∧ tcps (sockets d') = tcps (sockets d)
    ∧ udp_set d' = udp_set d ∖ {[e]} ∧ tcp_wakers d' = tcp_wakers d ∧ udp_wakers d' = udp_wakers d.
Proof.
  intros Hs He. unfold remove_socket. rewrite sockets_get_spec, (proj1 (lookup_udps _ _ _) Hs).
  cbv iota zeta. rewrite He. cbn [fst snd mbind option_bind].
  set (s' := udp_close _). destruct (put_udp_spec d h s s' Hs) as [H1 H2].
  cbn [sockets with_udp_set].
  destruct (sockets_remove_udp (sockets (put_udp d h s')) h s') as (ss & -> & Hss & Htt).
  { by rewrite H1, lookup_insert_eq. }
  cbn [mbind option_bind]. eexists. split; [reflexivity|]. rewrite H1, delete_insert_eq in Hss. rewrite H2 in Htt.
  replace (mkSocketAddr (sa_ip e) (sa_port e)) with e by by destruct e. by split_and!.
Qed.

Lemma remove_udp_socket_spec d h s :
  inv d → reserved ≠ Some h → udps (sockets d) !! h = Some s →
  ∃ d', remove_socket d h = Some d' ∧ inv d'
    ∧ udps (sockets d') = delete h (udps (sockets d)) ∧ tcps (sockets d') = tcps (sockets d)
    ∧ udp_set d' ⊆ udp_set d.
Proof.
  intros Hd Hr Hs. pose proof Hd as [Ht Hu Hl Hsv Hq Hrs]. destruct (Hl _ _ Hr Hs) as (e & He & Hin).
  destruct (remove_udp_socket_serving d h s e Hs He) as (d' & -> & Hss & Htt & Hset & Htw & Huw).
  exists d'. split; [done|]. split; [|split_and!; [done|done|set_solver]].
  split; [by rewrite Htw|by rewrite Huw|..]; rewrite ?Hset, ?Hss.
  - intros h' x Hr' [Hne Hx]%lookup_delete_Some. destruct (Hl _ _ Hr' Hx) as (e' & Hs' & ?). exists e'.
    split; [done|]. apply elem_of_difference. split; [done|]. intros ->%elem_of_singleton. eauto.
  - intros e' [Hx Hne]%elem_of_difference. destruct (Hsv _ Hx) as (h' & x & Hr' & Hh & Hs').
    exists h', x. rewrite lookup_delete_ne; [done|]. intros <-. simplify_eq.
    apply Hne, elem_of_singleton. by eapply serves_inj.
  - intros h1 h2 s1 s2 e' ?? [_ ?]%lookup_delete_Some [_ ?]%lookup_delete_Some. eauto.
  - intros h' Hh'. rewrite lookup_delete_ne by congruence. auto.
Qed.

Lemma remove_tcp_socket_spec d h s :
  tcps (sockets d) !! h = Some s →
  ∃ d', remove_socket d h = Some d' ∧ tcps (sockets d') = delete h (tcps (sockets d))
    ∧ udps (sockets d') = udps (sockets d) ∧ udp_set d' = udp_set d
    ∧ tcp_wakers d' = tcp_wakers d ∧ udp_wakers d' = udp_wakers d.
Proof.
  intros Hs. unfold remove_socket. rewrite sockets_get_spec, (proj1 (lookup_tcps _ _ _) Hs).
  cbv iota zeta. cbn [mbind option_bind]. set (s' := tcp_close _).
  destruct (put_tcp_spec d h s s' Hs) as [H1 H2].
  destruct (sockets_remove_tcp (sockets (put_tcp d h s')) h s') as (ss & -> & Hss & Htt).
  { by rewrite H1, lookup_insert_eq. }
  cbn [mbind option_bind]. eexists. split; [reflexivity|].
  rewrite H1, delete_insert_eq in Hss. rewrite H2 in Htt. by split_and!.
Qed.

Definition packet_ok (p : bytes) : Prop :=
  match heading_of p with
  | Some HeadOther => True
  | Some (HeadTo e _) => wf_ip (sa_ip e)
  | None => False
  end.

Lemma is_private_total e : wf_ip (sa_ip e) → is_Some (is_private k e).
Proof.
  unfold is_private. destruct (sa_ip e) as [[|a [|b o]]|o]; cbn; [by intros [? _]..| |by eauto]. by eauto.
Qed.

Lemma is_private_port e : wf_ip (sa_ip e) → is_private k e = Some false → sa_port e ≠ 0.
Proof.
  unfold is_private. destruct (sa_ip e) as [[|a [|b o]]|o]; cbn; [by intros [? _]..| |done].
  intros _. by destruct (Z.eqb_spec (sa_port e) 0).
Qed.

(** Well-formed packets are taken. *)
Lemma receive_spec d p :
  inv d → packet_ok p → ∃ d', receive k args d (IoOk (Some p)) = Some d' ∧ inv d'.
Proof.
  intros Hd Hp. cbn [receive]. set (d0 := with_traffic _ _).
  assert (inv d0) as Hd0 by (by destruct Hd; split).
  clearbody d0. clear d Hd. unfold preprocess_packet, packet_ok in *.
  destruct (heading_of p) as [[|e c]|]; [by eexists| |done]. cbn [mbind option_bind].
  destruct (is_private_total e Hp) as (pr & Hpr). rewrite Hpr. cbn [mbind option_bind].
  destruct pr; [by eexists|]. pose proof (is_private_port e Hp Hpr) as Hport.
  destruct c as [[]|].
  - destruct (ensure_tcp_socket_spec d0 e) as (h & s & d' & -> & _ & _ & Hu & ? & Huw & Hset & _);
      [by apply i_tcp_wakers|done|].
    exists d'. split; [done|]. eapply inv_keep_udps; [exact Hd0|done| |done|done].
    rewrite Huw. by apply i_udp_wakers.
  - by eexists.
  - destruct (ensure_udp_socket_spec d0 e Hd0 Hport) as (d' & -> & ? & _). by eexists.
Qed.

End Invariant.

(** *** The life of the device *)

Section Life.
Context {Stk : Smoltcp} {Obs : Observed Stk} {K : SmoltcpOk Stk} (k : Ipv4Class) (args : WintunArgs).

Lemma wakers_ok_own w : Wakers.ok w → wakers_ok w.
Proof. by split. Qed.

(** The calls of the servers and of the stack.  A server changes a socket through
    the reference it was given; the stack feeds the sockets and wakes their
    wakers. *)
Inductive step : t → t → Prop :=
  | step_receive d p d' : packet_ok p → receive k args d (IoOk (Some p)) = Some d' → step d d'
  | step_stack d ss tq uq : evolves (sockets d) ss →
      step d (with_udp_wakers (with_tcp_wakers (with_sockets d ss)
                (Wakers.mk (Wakers.wakers (tcp_wakers d)) tq)) (Wakers.mk (Wakers.wakers (udp_wakers d)) uq))
  | step_get_tcp d h m s d' : get_tcp_socket_mut d h m = Some (s, d') → step d d'
  | step_get_udp d h m s d' : get_udp_socket_mut d h m = Some (s, d') → step d d'
  | step_put_tcp d h s s' : tcps (sockets d) !! h = Some s → step d (put_tcp d h s')
  | step_put_udp d h s s' : udps (sockets d) !! h = Some s → udp_endpoint s' = udp_endpoint s →
      step d (put_udp d h s')
  | step_tcp_events d : step d (get_tcp_events d).2
  | step_udp_events d : step d (get_udp_events d).2
  | step_remove d h d' : remove_socket d h = Some d' → step d d'
  | step_consume d n d' : consume d n true = Some d' → step d d'
  | step_speed d now : step d (calculate_speed now d).2.

Lemma win_step_inv d d' : step d d' → inv d → inv d'.
Proof.
  intros Hstep Hd. pose proof Hd as [Ht Hu _ _ _ _]. destruct Hstep.
  - destruct (receive_spec k args d p Hd) as (d1 & ? & ?); [done|]. by simplify_eq.
  - eapply inv_same; [exact Hd|done|by apply wakers_ok_own, Hu|done|]. cbn [sockets with_udp_wakers with_tcp_wakers with_sockets].
    intros h. destruct (udps (sockets d) !! h) as [s|] eqn:Hs.
    + destruct (evolves_udp _ _ _ _ H Hs) as (s' & -> & _ & _ & _ & ?). by constructor.
    + destruct (udps ss !! h) as [s'|] eqn:Hs'; [|by constructor].
      destruct (evolves_udp_inv _ _ _ _ H Hs'). congruence.
  - destruct (tcps (sockets d) !! h) as [s0|] eqn:Hs.
    + destruct (get_tcp_socket_mut_spec d h s0 m Ht Hs) as (s' & d1 & Hg & _ & _ & Hud & ? & Huw & ?).
      simplify_eq. eapply inv_keep_udps; [exact Hd|done|by rewrite Huw|done|done].
    + exfalso. revert H. unfold get_tcp_socket_mut. destruct (get_tcp _ _) as [s0|] eqn:Hg; [|done].
      apply get_tcp_Some, lookup_tcps in Hg. congruence.
  - destruct (udps (sockets d) !! h) as [s0|] eqn:Hs.
    + destruct (get_udp_socket_mut_spec d h s0 m Hu ltac:(done) Hs) as (s' & d1 & Hg & (_ & _ & _ & ?) & ? & _ & ? & Huw & ?).
      simplify_eq. eapply inv_update_udp; [exact Hd|by rewrite Huw|done..].
    + exfalso. revert H. unfold get_udp_socket_mut. destruct (get_udp _ _) as [s0|] eqn:Hg; [|done].
      apply get_udp_Some, lookup_udps in Hg. congruence.
  - destruct (put_tcp_spec d h s s' H) as [_ H2]. eapply inv_keep_udps; done.
  - destruct (put_udp_spec d h s s' H) as [H1 _]. eapply inv_update_udp; done.
  - by eapply inv_keep_udps.
  - eapply inv_keep_udps; [exact Hd|done|by apply wakers_ok_events|done..].
  - destruct (sockets_view (sockets d) !! h) as [[s|s]|] eqn:Hv.
    + destruct (remove_tcp_socket_spec d h s) as (d1 & ? & _ & ? & ? & Htw & Huw); [by apply lookup_tcps|].
      simplify_eq. eapply inv_keep_udps; [exact Hd|by rewrite ?Htw, ?Huw..|done|done].
    + destruct (remove_udp_socket_spec d h s Hd) as (d1 & ? & ? & _); [done|by apply lookup_udps|]. by simplify_eq.
    + exfalso. revert H. unfold remove_socket. rewrite sockets_get_spec, Hv. cbn [mbind option_bind].
      pose proof (sockets_remove_spec (sockets d) h) as Hrm. destruct (sockets_remove _ _); [|done].
      destruct Hrm as [[? ?] _]. congruence.
  - injection H as <-. by eapply inv_keep_udps.
  - by eapply inv_keep_udps.
Qed.

(** What a change leaves the server of the TCP sockets: its sockets are fed at
    most, and those that are new were not read from. *)
Record others (d d' : t) : Prop := {
  o_wakers : Wakers.ok (tcp_wakers d) → Wakers.ok (tcp_wakers d');
  o_kept h s : tcps (sockets d) !! h = Some s →
    ∃ s', tcps (sockets d') !! h = Some s' ∧ socket_evolves (Tcp s) (Tcp s');
  o_new h s' : tcps (sockets d') !! h = Some s' →
    is_Some (tcps (sockets d) !! h) ∨ tcp_read s' = 0%nat
}.

(** The change concerns no TCP socket. *)
Definition quiet (d d' : t) : Prop :=
  tcps (sockets d') = tcps (sockets d) ∧ tcp_wakers d' = tcp_wakers d.

#[global] Instance quiet_preorder : PreOrder quiet.
Proof. split; [by intros d|]. intros d1 d2 d3 [H1 H2] [H3 H4]. split; congruence. Qed.

Lemma others_quiet d d' :
  tcps (sockets d') = tcps (sockets d) → (Wakers.ok (tcp_wakers d) → Wakers.ok (tcp_wakers d')) → others d d'.
Proof.
  intros He Hw. split; [done|..]; rewrite He; intros h s Hs; [|left; by eexists].
  exists s. split; [done|apply socket_evolves_refl].
Qed.

Lemma receive_others d p d' :
  inv d → packet_ok p → receive k args d (IoOk (Some p)) = Some d' → others d d'.
Proof.
  intros Hd Hp Hr. cbn [receive] in Hr. revert Hr. set (d0 := with_traffic _ _). intros Hr.
  assert (inv d0) as Hd0 by (by destruct Hd; split).
  enough (others d0 d') as [] by by split. clearbody d0. clear d Hd. revert Hr.
  unfold preprocess_packet, packet_ok in *.
  destruct (heading_of p) as [[|e c]|]; [by intros [= <-]; apply others_quiet| |done]. cbn [mbind option_bind].
  destruct (is_private_total k e Hp) as (pr & Hpr). rewrite Hpr. cbn [mbind option_bind].
  destruct pr; [by intros [= <-]; apply others_quiet|]. pose proof (is_private_port k e Hp Hpr) as Hport.
  destruct c as [[]|].
  - destruct (ensure_tcp_socket_spec args d0 e) as (h & s & d1 & -> & Hh & Ht & _ & Hw & _ & _ & _ & _ & _ & Hrd);
      [by apply i_tcp_wakers|done|]. intros [= <-]. split; [done|..]; rewrite Ht.
    + intros h' s' Hs'. exists s'. rewrite lookup_insert_ne by congruence. split; [done|apply socket_evolves_refl].
    + intros h' s' [[<- <-]|[_ Hs']]%lookup_insert_Some; [by right|left; by eexists].
  - intros [= <-]. by apply others_quiet.
  - destruct (ensure_udp_socket_spec args d0 e Hd0 Hport) as (d1 & -> & Hd1 & Ht & _). intros [= <-].
    apply others_quiet; [done|]. intros _. apply Hd1.
Qed.

(** A packet takes no socket away. *)
Lemma receive_keeps_udps d p d' h :
  inv d → packet_ok p → receive k args d (IoOk (Some p)) = Some d' →
  is_Some (udps (sockets d) !! h) → is_Some (udps (sockets d') !! h).
Proof.
  intros Hd Hp Hr Hh. cbn [receive] in Hr. revert Hr. set (d0 := with_traffic _ _). intros Hr.
  assert (inv d0) as Hd0 by (by destruct Hd; split). change (sockets d) with (sockets d0) in Hh.
  clearbody d0. clear d Hd. revert Hr. unfold preprocess_packet, packet_ok in *.
  destruct (heading_of p) as [[|e c]|]; [by intros [= <-]| |done]. cbn [mbind option_bind].
  destruct (is_private_total k e Hp) as (pr & Hpr). rewrite Hpr. cbn [mbind option_bind].
  destruct pr; [by intros [= <-]|]. pose proof (is_private_port k e Hp Hpr) as Hport.
  destruct c as [[]|].
  - destruct (ensure_tcp_socket_spec args d0 e) as (h' & s & d1 & -> & _ & _ & Hu & _); [by apply i_tcp_wakers|done|].
    intros [= <-]. by rewrite Hu.
  - by intros [= <-].
  - destruct (ensure_udp_socket_spec args d0 e Hd0 Hport) as (d1 & -> & _ & _ & Hu). intros [= <-]. auto.
Qed.

Lemma stack_others d ss tq uq :
  evolves (sockets d) ss →
  others d (with_udp_wakers (with_tcp_wakers (with_sockets d ss)
    (Wakers.mk (Wakers.wakers (tcp_wakers d)) tq)) (Wakers.mk (Wakers.wakers (udp_wakers d)) uq)).
Proof.
  intros He. split; cbn [sockets tcp_wakers with_udp_wakers with_tcp_wakers with_sockets]; [done|..].
  - intros h s. by apply evolves_tcp.
  - intros h s' Hs'. left. by destruct (evolves_tcp_inv _ _ _ _ He Hs') as [s ->].
Qed.

Lemma win_new_inv mtu now : inv (new mtu sockets_empty now).
Proof.
  assert (udps sockets_empty = ∅) as He.
  { unfold udps. rewrite sockets_view_empty. apply omap_empty. }
  split; cbn [sockets udp_set new tcp_wakers udp_wakers]; rewrite ?He; try apply wakers_ok_own; try apply Wakers.ok_new;
    by set_solver.
Qed.

(** Whatever packets arrive and whatever the servers do, [udp_set] lists the
    destinations that have a UDP socket, each has exactly one, and a socket is
    bound to its destination; the table panics on no packet with readable headers. *)
Theorem one_socket_per_destination mtu now d :
  rtc step (new mtu sockets_empty now) d →
  (∀ e, e ∈ udp_set d ↔ ∃ h s, udps (sockets d) !! h = Some s ∧ serves s e)
  ∧ (∀ h s, udps (sockets d) !! h = Some s → ∃ e, serves s e)
  ∧ (∀ h h' s s' e, udps (sockets d) !! h = Some s → udps (sockets d) !! h' = Some s' →
       serves s e → serves s' e → h = h')
  ∧ (∀ p, packet_ok p → ∃ d', receive k args d (IoOk (Some p)) = Some d' ∧ step d d').
Proof.
  intros Hr. assert (inv d) as Hd.
  { revert Hr. generalize (win_new_inv mtu now). generalize (new mtu sockets_empty now).
    intros d0 Hd0 Hr. induction Hr; [done|]. eauto using win_step_inv. }
  pose proof Hd as [_ _ Hl Hs Hq _]. split_and!.
  - intros e. split; [intros (h & s & _ & H)%Hs; eauto|]. intros (h & s & Hh & He).
    destruct (Hl h s) as (e' & He' & ?); [done..|]. by rewrite (serves_inj _ _ _ He He').
  - intros h s Hh. destruct (Hl h s) as (e & ? & _); [done..|]. by exists e.
  - intros h h' s s' e. by apply Hq.
  - intros p Hp. destruct (receive_spec k args d p Hd Hp) as (d' & Hr' & _). exists d'.
    split; [done|]. by eapply step_receive.
Qed.

Lemma receive_request d p e :
  inv d → heading_of p = Some (HeadTo e (Some true)) → wf_ip (sa_ip e) → is_private k e = Some false →
  ∃ h s d', receive k args d (IoOk (Some p)) = Some d' ∧ inv d'
    ∧ tcps (sockets d) !! h = None ∧ tcps (sockets d') = <[h := s]> (tcps (sockets d)).
Proof.
  intros Hd Hp Hw Hpr. cbn [receive]. set (d0 := with_traffic _ _).
  assert (inv d0) as Hd0 by (by destruct Hd; split).
  unfold preprocess_packet. rewrite Hp. cbn [mbind option_bind]. rewrite Hpr. cbn [mbind option_bind].
  destruct (ensure_tcp_socket_spec args d0 e (i_tcp_wakers _ Hd0) (is_private_port k e Hw Hpr))
    as (h & s & d1 & -> & Hh & Htc & Hu & ? & Huw & Hset & _).
  exists h, s, d1. split_and!; try done. eapply inv_keep_udps; [exact Hd0|done| |done|done].
  rewrite Huw. by apply i_udp_wakers.
Qed.

(** Every packet that asks for a TCP connection to a public destination adds a
    listening socket, also one that repeats an earlier request: [n] copies of the
    packet make [n] sockets. *)
Theorem every_request_adds_socket mtu now d p e n :
  rtc step (new mtu sockets_empty now) d →
  heading_of p = Some (HeadTo e (Some true)) → wf_ip (sa_ip e) → is_private k e = Some false →
  ∃ d', foldl (λ acc p, d ← acc; receive k args d (IoOk (Some p))) (Some d) (replicate n p) = Some d'
    ∧ size (tcps (sockets d')) = (n + size (tcps (sockets d)))%nat
    ∧ tcps (sockets d) ⊆ tcps (sockets d').
Proof.
  intros Hr Hp Hw Hpr. assert (inv d) as Hd.
  { revert Hr. generalize (win_new_inv mtu now). generalize (new mtu sockets_empty now).
    intros d0 Hd0 Hr. induction Hr; [done|]. eauto using win_step_inv. }
  clear Hr. revert d Hd. induction n as [|n IH]; intros d Hd; [by exists d|]. cbn [replicate foldl].
  destruct (receive_request d p e Hd Hp Hw Hpr) as (h & s & d1 & Hrec & Hd1 & Hh & Htc).
  change (Some d ≫= _) with (receive k args d (IoOk (Some p))). rewrite Hrec.
  destruct (IH d1 Hd1) as (d' & -> & Hsz & Hsub). exists d'. split; [done|].
  rewrite Htc in Hsz, Hsub. rewrite map_size_insert_None in Hsz by done. split; [lia|].
  etrans; [|done]. by apply insert_subseteq.
Qed.

End Life.

(** ** Examples *)

Module Witness.
Import SimStack.

Definition class : Ipv4Class :=
  mkIpv4Class (λ _, false) (λ _, false) (λ _, false) (λ _, false) (λ _, false).
Definition args : WintunArgs := mkWintunArgs 10 1000 1000 1000 1000.
Definition target : SocketAddr := mkSocketAddr (V4 [1; 2; 3; 4]) 80.
Definition syn : bytes := [4; 6; 10; 0; 0; 2; 1; 2; 3; 4; 0; 80; 16; 0; 2].
Definition query : bytes := [4; 17; 10; 0; 0; 2; 1; 2; 3; 4; 0; 80; 16; 0; 1; 1].
Definition start : t := new 1500 sockets_empty 0.
Definition device1 : t := default start (receive class args start (IoOk (Some query))).

Lemma one_socket_per_destination_witness :
  target ∈ udp_set device1 ↔ ∃ h s, udps (sockets device1) !! h = Some s ∧ serves s target.
Proof.
  refine (proj1 (one_socket_per_destination class args 1500 0 device1 _) target).
  apply rtc_once. eapply (step_receive _ _ _ query); [|vm_compute; reflexivity].
  apply (bool_decide_unpack _). by vm_compute.
Defined.

Lemma every_request_adds_socket_witness :
  ∃ d', foldl (λ acc p, d ← acc; receive class args d (IoOk (Some p))) (Some start) (replicate 3 syn) = Some d'
    ∧ size (tcps (sockets d')) = 3%nat ∧ tcps (sockets start) ⊆ tcps (sockets d').
Proof.
  refine (every_request_adds_socket class args 1500 0 start syn target 3 (rtc_refl _ _) _ _ _);
    [by vm_compute| |by vm_compute].
  apply (bool_decide_unpack _). by vm_compute.
Defined.
End Witness.

End WinTun.
