(* ===== verification/ArcTables.v ===== *)
(** * Objects shared by two tables

    The servers of the tunnels keep a connection as an [Arc] in two tables, by its
    token and by the socket or address it serves.  An [Arc] is its index in a
    store.  [shared] says that both tables lead to exactly the stored objects by
    their keys; the lemmas are the changes the servers make. *)

From Stdlib Require Import ZArith Lia.
From stdpp Require Import base option list gmap fin_maps.
From S2P Require Import Prelude.

Section Shared.
Context {X K1 K2 : Type} `{Countable K1} `{Countable K2} (key1 : X → K1) (key2 : X → K2).

Implicit Types (C : gmap nat X) (id n : nat) (x : X).

Record shared C n (T1 : gmap K1 nat) (T2 : gmap K2 nat) : Prop := {
  sh_fresh id : is_Some (C !! id) → (id < n)%nat;
  sh_key1 k id : T1 !! k = Some id ↔ ∃ x, C !! id = Some x ∧ key1 x = k;
  sh_key2 k id : T2 !! k = Some id ↔ ∃ x, C !! id = Some x ∧ key2 x = k
}.

Lemma shared_empty n : shared ∅ n ∅ ∅.
Proof.
  split; [by intros id [x Hx]; rewrite lookup_empty in Hx|..];
    intros k id; rewrite lookup_empty; (split; [done|]); intros (x & Hx & _); by rewrite lookup_empty in Hx.
Qed.

Section Laws.
Context {C : gmap nat X} {n : nat} {T1 : gmap K1 nat} {T2 : gmap K2 nat} (Sh : shared C n T1 T2).

Lemma shared_lookup id x : C !! id = Some x → T1 !! key1 x = Some id ∧ T2 !! key2 x = Some id.
Proof. intros Hx. rewrite (sh_key1 _ _ _ _ Sh), (sh_key2 _ _ _ _ Sh). split; eauto. Qed.

Lemma shared_inj1 id id' x x' : C !! id = Some x → C !! id' = Some x' → key1 x = key1 x' → id = id'.
Proof.
  intros [Hx _]%shared_lookup [Hx' _]%shared_lookup He. rewrite He in Hx. by simplify_eq.
Qed.

Lemma shared_inj2 id id' x x' : C !! id = Some x → C !! id' = Some x' → key2 x = key2 x' → id = id'.
Proof.
  intros [_ Hx]%shared_lookup [_ Hx']%shared_lookup He. rewrite He in Hx. by simplify_eq.
Qed.

Lemma shared_next : C !! n = None.
Proof. destruct (C !! n) eqn:Hn; [|done]. pose proof (sh_fresh _ _ _ _ Sh n ltac:(by eexists)). lia. Qed.

(** An object that changes and keeps its keys. *)
Lemma shared_update id x x' :
  C !! id = Some x → key1 x' = key1 x → key2 x' = key2 x → shared (<[id := x']> C) n T1 T2.
Proof.
  intros Hx He1 He2. destruct Sh as [Hf H1 H2]. split.
  - intros id' Hs. apply Hf. destruct (decide (id = id')) as [<-|]; [by eexists|].
    by rewrite lookup_insert_ne in Hs.
  - intros k id'. rewrite H1. destruct (decide (id = id')) as [<-|]; [|by rewrite lookup_insert_ne].
    rewrite lookup_insert_eq, Hx. split; intros (y & [= <-] & <-); eauto.
  - intros k id'. rewrite H2. destruct (decide (id = id')) as [<-|]; [|by rewrite lookup_insert_ne].
    rewrite lookup_insert_eq, Hx. split; intros (y & [= <-] & <-); eauto.
Qed.

(** A new object under new keys. *)
Lemma shared_insert x :
  T1 !! key1 x = None → T2 !! key2 x = None →
  shared (<[n := x]> C) (S n) (<[key1 x := n]> T1) (<[key2 x := n]> T2).
Proof.
  intros Hn1 Hn2. pose proof shared_next as Hnext. destruct Sh as [Hf H1 H2]. split.
  - intros id Hs. destruct (decide (n = id)) as [<-|]; [lia|]. rewrite lookup_insert_ne in Hs by done.
    apply Hf in Hs. lia.
  - intros k id. destruct (decide (key1 x = k)) as [<-|Hne].
    + rewrite lookup_insert_eq. split; [intros [= <-]; exists x; by rewrite lookup_insert_eq|].
      intros (y & [[<- _]|[_ Hy]]%lookup_insert_Some & He); [done|].
      exfalso. assert (T1 !! key1 x = Some id) by (rewrite H1; eauto). congruence.
    + rewrite lookup_insert_ne, H1 by done. split; intros (y & Hy & He).
      * exists y. rewrite lookup_insert_ne by congruence. done.
      * apply lookup_insert_Some in Hy as [[_ <-]|[_ Hy]]; [done|eauto].
  - intros k id. destruct (decide (key2 x = k)) as [<-|Hne].
    + rewrite lookup_insert_eq. split; [intros [= <-]; exists x; by rewrite lookup_insert_eq|].
      intros (y & [[<- _]|[_ Hy]]%lookup_insert_Some & He); [done|].
      exfalso. assert (T2 !! key2 x = Some id) by (rewrite H2; eauto). congruence.
    + rewrite lookup_insert_ne, H2 by done. split; intros (y & Hy & He).
      * exists y. rewrite lookup_insert_ne by congruence. done.
      * apply lookup_insert_Some in Hy as [[_ <-]|[_ Hy]]; [done|eauto].
Qed.

(** An object that both tables drop. *)
Lemma shared_delete id x :
  C !! id = Some x → shared (delete id C) n (delete (key1 x) T1) (delete (key2 x) T2).
Proof.
  intros Hx. pose proof (shared_inj1 id) as I1. pose proof (shared_inj2 id) as I2.
  destruct Sh as [Hf H1 H2]. split.
  - intros id' [y [_ Hy]%lookup_delete_Some]. eauto.
  - intros k id'. rewrite lookup_delete_Some, H1. split.
    + intros (Hne & y & Hy & He). exists y. rewrite lookup_delete_ne; [done|]. intros <-. congruence.
    + intros (y & [Hne Hy]%lookup_delete_Some & He). split; [|by exists y]. intros <-. by destruct Hne; eauto.
  - intros k id'. rewrite lookup_delete_Some, H2. split.
    + intros (Hne & y & Hy & He). exists y. rewrite lookup_delete_ne; [done|]. intros <-. congruence.
    + intros (y & [Hne Hy]%lookup_delete_Some & He). split; [|by exists y]. intros <-. by destruct Hne; eauto.
Qed.

(** What is left has other keys. *)
Lemma shared_filter id x : C !! id = Some x → delete id C = filter (λ e : nat * X, key1 e.2 ≠ key1 x) C.
Proof.
  intros Hx. apply map_eq. intros id'. destruct (decide (id = id')) as [<-|Hne].
  - rewrite lookup_delete_eq. symmetry. apply map_lookup_filter_None. right. intros y Hy. simplify_eq. naive_solver.
  - rewrite lookup_delete_ne by done. destruct (C !! id') as [y|] eqn:Hy; symmetry.
    + apply map_lookup_filter_Some. split; [done|]. cbn. intros He. by destruct Hne; eapply shared_inj1.
    + apply map_lookup_filter_None. by left.
Qed.

(** Then no reference is left. *)
Lemma shared_dropped id x :
  C !! id = Some x →
  bool_decide (map_Exists (λ _ i, i = id) (delete (key1 x) T1))
  || bool_decide (map_Exists (λ _ i, i = id) (delete (key2 x) T2)) = false.
Proof.
  intros Hx. destruct Sh as [_ H1 H2]. apply orb_false_iff. split; apply bool_decide_eq_false.
  - intros (k & ? & [Hne (y & Hy & He)%H1]%lookup_delete_Some & ->). congruence.
  - intros (k & ? & [Hne (y & Hy & He)%H2]%lookup_delete_Some & ->). congruence.
Qed.
End Laws.

End Shared.

Arguments shared {X K1 K2 _ _ _ _} key1 key2 C n T1 T2.

(** The tables in the other order. *)
Lemma shared_sym {X K1 K2} `{Countable K1} `{Countable K2} (key1 : X → K1) (key2 : X → K2) C n T1 T2 :
  shared key1 key2 C n T1 T2 → shared key2 key1 C n T2 T1.
Proof. by intros []. Qed.
