(* ===== verification/TunPool.v ===== *)
(** * Where the tunnels take their connections from

    A server of a tunnel asks the pool for a connection to the trojan server and
    gives it a token of its own.  [RemotePool] is that interface, [idle_pool] its
    implementation by [IdlePool]. *)

From Stdlib Require Import ZArith.
From stdpp Require Import base option.
From S2P Require Import Prelude.
From S2P Require Import Net.
From S2P Require Import Env.
From S2P Require Import TlsConn.
From S2P Require Import TcpUtil.
From S2P Require Import TlsStream.
From S2P Require Import IdlePool.

Class RemotePool (P R : Type) `{Remote R} : Type := {
  pool_get : P → option R * P;
  remote_set_token : R → Z → R
}.

(** Giving a token moves no bytes. *)
Class LawfulPool (P R : Type) `{RemotePool P R, !LawfulRemote R} : Prop := {
  set_token_taken r t : rw_taken (LawfulReadWrite := lawful_rw) (remote_set_token r t)
    = rw_taken (LawfulReadWrite := lawful_rw) r;
  set_token_accepted r t : rw_accepted (LawfulReadWrite := lawful_rw) (remote_set_token r t)
    = rw_accepted (LawfulReadWrite := lawful_rw) r
}.

Section IdlePool.
Context {E : Env}.

#[export] Instance idle_pool (fuel : nat) :
  RemotePool (H := tls_remote fuel) (IdlePool.t E * OS * Resolver.DnsResolver) (TlsConn E) := {
  pool_get := IdlePool.get;
  remote_set_token c t := (set_token c t).2
}.

#[export] Instance idle_pool_lawful {K : EnvOk E} {Rw : EnvRw E} (fuel : nat) :
  LawfulPool (H0 := idle_pool fuel) (IdlePool.t E * OS * Resolver.DnsResolver) (TlsConn E)
    (LawfulRemote0 := tls_lawful fuel).
Proof. split; intros c t; cbn; unfold set_token; by destruct (tcp_reregister _ _). Qed.
End IdlePool.
