(* ===== verification/WinUdp.v ===== *)
(** * The tunnel's UDP connections ([src/src/wintun/udp.rs])

    A source behind the tunnel gets a TLS connection to the server; its datagrams
    are framed into it, whatever their destination, and the answers go back
    through the socket of the first destination.  [WinUdpConn] is one source's
    connection, over any [Remote]; [WinUdpServer] is [UdpServer], its tables over
    the tunnel's device and any [RemotePool].  [None] is a panic or exhausted
    fuel; the clock is an argument. *)

From Stdlib Require Import ZArith Lia.
From stdpp Require Import base option list gmap fin_maps relations.
From S2P Require Import Prelude.
From S2P Require Import Framing.
From S2P Require Import Net.
From S2P Require Import Config.
From S2P Require Import Proto.
From S2P Require Import Env.
From S2P Require Import Status.
From S2P Require Import TlsConn.
From S2P Require Import TcpUtil.
From S2P Require Import Resolver.
From S2P Require Import IdlePool.
From S2P Require Import TlsStream.
From S2P Require Import Smoltcp.
From S2P Require Import ArcTables.
From S2P Require Import TunPool.
From S2P Require Import WinTun.

Open Scope Z_scope.

(** The parser of the server's answers, of which the mobile tunnel's copy of this
    file has another with a smaller limit. *)
Class PacketReader : Type := {
  read_packet : bytes → option UdpAssociate.UdpParseResultEndpoint;
  max_packet : nat
}.

Class PacketReaderOk (Pk : PacketReader) : Prop := {
  reader_empty : read_packet [] = Some UdpAssociate.ContinuedEndpoint;
  reader_roundtrip a data rest :
    wf_sa a → is_ipv4 (sa_ip a) = true → (length data <= max_packet)%nat →
    read_packet (UdpAssociate.generate_endpoint a (Z.of_nat (length data)) ++ data ++ rest)
      = Some (UdpAssociate.PacketEndpoint (UdpAssociate.mkEndpoint a (length data)
          (length (UdpAssociate.generate_endpoint a (Z.of_nat (length data))) + length data) (data ++ rest)));
  reader_continues a data n :
    wf_sa a → is_ipv4 (sa_ip a) = true → (length data <= max_packet)%nat →
    (n < length (UdpAssociate.generate_endpoint a (Z.of_nat (length data)) ++ data))%nat →
    read_packet (take n (UdpAssociate.generate_endpoint a (Z.of_nat (length data)) ++ data))
      = Some UdpAssociate.ContinuedEndpoint;
  reader_bounds b p :
    read_packet b = Some (UdpAssociate.PacketEndpoint p) →
    (UdpAssociate.e_length p <= length (UdpAssociate.e_payload p))%nat
    ∧ (0 < UdpAssociate.e_offset p <= length b)%nat
}.

Lemma endpoint_bounds {Oct : Ipv6FromBytes} b p :
  UdpAssociate.parse_endpoint b = Some (UdpAssociate.PacketEndpoint p) →
  (UdpAssociate.e_length p <= length (UdpAssociate.e_payload p))%nat
  ∧ (0 < UdpAssociate.e_offset p <= length b)%nat.
Proof.
  unfold UdpAssociate.parse_endpoint. destruct (length b <? 11)%nat eqn:Hl; [done|].
  intros (atyp & _ & (b1 & Hb1 & (x & _ & H)%bind_Some)%bind_Some)%bind_Some.
  destruct x as [[size addr]|u]; [|done].
  apply bind_Some in H as (b2 & Hb2 & H). destruct (length b2 <? 4)%nat eqn:H4; [done|].
  apply bind_Some in H as (len & _ & H). destruct (MAX_PACKET_SIZE <? Z.to_nat len)%nat; [done|].
  destruct (length b2 <? Z.to_nat len + 4)%nat eqn:Hlen; [done|].
  apply bind_Some in H as (c & _ & (d & _ & H)%bind_Some).
  destruct (_ || _); [done|]. destruct addr; try done.
  apply bind_Some in H as (b3 & Hb3 & H). injection H as <-.
  apply Nat.ltb_ge in Hlen, Hl. cbn [UdpAssociate.e_length UdpAssociate.e_payload UdpAssociate.e_offset].
  unfold slice_from in Hb1, Hb2, Hb3.
  repeat (case_match; simplify_eq).
  repeat match goal with H : (_ <=? _)%nat = true |- _ => apply Nat.leb_le in H end.
  rewrite !length_drop in *. lia.
Qed.

#[export] Instance windows_reader `{Ipv6FromBytes} : PacketReader :=
  {| read_packet := UdpAssociate.parse_endpoint; max_packet := MAX_PACKET_SIZE |}.

#[export] Instance windows_reader_ok `{Ipv6FromBytes} : PacketReaderOk windows_reader.
Proof.
  split; [done|..].
  - intros a data rest ? ? ?. by apply EndpointProps.endpoint_roundtrip.
  - intros a data n ? ? ? ?. by apply EndpointProps.endpoint_prefix_continues.
  - apply endpoint_bounds.
Qed.

Module WinUdpConn.

(** What the write loop ended with. *)
Inductive written : Type := AllWritten | WriteBlocked | WriteBroken.

Section Connection.
Context {R : Type} {Rem : Remote R} {Stk : Smoltcp} {Pk : PacketReader} (OPTIONS : Opts) (spare : bytes → nat).
#[local] Existing Instance remote_rw.

Record t : Type := mk {
  token : Z;
  local : nat;
  remote : R;
  rclosed : bool;
  rbuffer : bytes;
  lbuffer : bytes;
  endpoint : SocketAddr;
  established : bool;
  last_remote : Z
}.

Definition with_remote (c : t) (r : R) : t :=
  mk (token c) (local c) r (rclosed c) (rbuffer c) (lbuffer c) (endpoint c) (established c) (last_remote c).
Definition with_rclosed (c : t) (b : bool) : t :=
  mk (token c) (local c) (remote c) b (rbuffer c) (lbuffer c) (endpoint c) (established c) (last_remote c).
Definition with_rbuffer (c : t) (b : bytes) : t :=
  mk (token c) (local c) (remote c) (rclosed c) b (lbuffer c) (endpoint c) (established c) (last_remote c).
Definition with_lbuffer (c : t) (b : bytes) : t :=
  mk (token c) (local c) (remote c) (rclosed c) (rbuffer c) b (endpoint c) (established c) (last_remote c).
Definition with_established (c : t) (b : bool) : t :=
  mk (token c) (local c) (remote c) (rclosed c) (rbuffer c) (lbuffer c) (endpoint c) b (last_remote c).
Definition with_last_remote (c : t) (x : Z) : t :=
  mk (token c) (local c) (remote c) (rclosed c) (rbuffer c) (lbuffer c) (endpoint c) (established c) x.

Definition is_closed (c : t) : bool := rclosed c.

Definition close_remote (c : t) : t :=
  if rclosed c then c else with_rclosed (with_remote c (remote_close (remote c))) true.

Definition flush_remote (c : t) : t :=
  let '(r, remote) := remote_flush (remote c) in
  let c := with_remote c remote in
  match r with
  | IoErr WouldBlock => c
  | IoErr _ => close_remote c
  | IoOk _ => c
  end.

(** The loop over header and body: its outcome, the offset, what was being written
    and the connection. *)
Fixpoint write_loop (fuel : nat) (header body : bytes) (remote : R) (data : bytes) (offset : nat) :
    option (written * nat * bytes * R) :=
  match fuel with
  | O => None
  | S fuel =>
      match data with
      | [] => Some (AllWritten, offset, data, remote)
      | _ =>
          let '(r, remote) := rw_write remote data in
          match r with
          | IoOk O => Some (WriteBroken, offset, data, remote)
          | IoOk n =>
              let offset := (offset + n)%nat in
              data ← data.[from n];
              let data := if bool_decide (data = []) && (offset =? length header)%nat then body else data in
              write_loop fuel header body remote data offset
          | IoErr WouldBlock => Some (WriteBlocked, offset, data, remote)
          | IoErr _ => Some (WriteBroken, offset, data, remote)
          end
      end
  end.

(** What is kept of a request after [offset] bytes of it were written, [data] being
    what was being written. *)
Definition cache_rest (header body rbuffer data : bytes) (offset : nat) : bytes :=
  let remaining := (length header + length body - offset)%nat in
  if (remaining =? 0)%nat then rbuffer
  else
    let rbuffer := rbuffer ++ data in
    if (length data <? length header)%nat then rbuffer ++ body else rbuffer.

Definition write_request (c : t) (header body : bytes) : option t :=
  '(r, offset, data, remote) ←
    write_loop (S (S (length header + length body))) header body (remote c) header 0;
  let c := with_remote c remote in
  match r with
  | WriteBroken => Some (close_remote c)
  | _ => Some (flush_remote (with_rbuffer c (cache_rest header body (rbuffer c) data offset)))
  end.

Definition local_to_remote (c : t) (header body : bytes) : option t :=
  match rbuffer c with
  | [] => write_request c header body
  | _ =>
      '(r, remote, rest) ← send_all (remote c) (rbuffer c);
      let c := with_rbuffer (with_remote c remote) rest in
      match r with
      | COk true => write_request c header body
      | COk false => Some (flush_remote c)
      | CErr _ => Some (close_remote c)
      end
  end.

Definition do_local (now : Z) (c : t) (header body : bytes) : option t :=
  if 120 <? as_secs (since now (last_remote c)) then Some (close_remote c)
  else if negb (bool_decide (rbuffer c = [])) then Some c
  else if negb (established c) then Some (with_rbuffer c (rbuffer c ++ header ++ body))
  else local_to_remote c header body.

(** The packets of what was read: each payload is sent, the loop ends with the rest
    or a protocol error. *)
Fixpoint deliver (fuel : nat) (endpoint : SocketAddr) (socket : Smoltcp.UdpSocket) (buffer : bytes) :
    option (option bytes * Smoltcp.UdpSocket) :=
  match fuel with
  | O => None
  | S fuel =>
      r ← read_packet buffer;
      match r with
      | UdpAssociate.ContinuedEndpoint => Some (Some buffer, socket)
      | UdpAssociate.PacketEndpoint packet =>
          payload ← slice_to (UdpAssociate.e_payload packet) (UdpAssociate.e_length packet);
          let '(_, socket) := udp_send_slice socket payload endpoint in
          rest ← (UdpAssociate.e_payload packet).[from UdpAssociate.e_length packet];
          deliver fuel endpoint socket rest
      | UdpAssociate.InvalidProtocolEndpoint => Some (None, socket)
      end
  end.

Fixpoint remote_to_local (fuel : nat) (c : t) (socket : Smoltcp.UdpSocket) :
    option (t * Smoltcp.UdpSocket) :=
  match fuel with
  | O => None
  | S fuel =>
      let '(r, remote, buffer) := read_once spare (remote c) (lbuffer c) in
      let c := with_lbuffer (with_remote c remote) buffer in
      match r with
      | COk false => Some (c, socket)
      | CErr _ => Some (close_remote c, socket)
      | COk true =>
          '(r, socket) ← deliver (S (length (lbuffer c))) (endpoint c) socket (lbuffer c);
          match r with
          | Some rest => remote_to_local fuel (with_lbuffer c rest) socket
          | None => Some (close_remote c, socket)
          end
      end
  end.

Definition do_remote (fuel : nat) (now : Z) (c : t) (socket : Smoltcp.UdpSocket) (event : Event) :
    option (t * Smoltcp.UdpSocket) :=
  let c := with_last_remote c now in
  '(c, ok) ← (if is_writable event then
      '(c, ok) ←
        (if negb (established c) then
           empty ← empty_addr OPTIONS;
           let buffer := TrojanRequest.generate OPTIONS UDP_ASSOCIATE empty in
           let '(r, remote) := rw_write (remote c) buffer in
           let c := with_remote c remote in
           Some (if io_is_ok r then (with_established c true, true) else (close_remote c, false))
         else Some (c, true));
      if ok : bool then c ← local_to_remote c [] []; Some (c, true) else Some (c, false)
    else Some (c, true));
  if negb ok then Some (c, socket)
  else if is_readable event then
    '(c, socket) ← remote_to_local fuel c socket;
    Some (flush_remote c, socket)
  else Some (c, socket).

(** ** What is written and what is kept *)

Section Writes.
Context {Law : LawfulRemote R}.
#[local] Existing Instance lawful_rw.

(** What is left of the segment being written after [offset] bytes. *)
Definition segment (header body : bytes) (offset : nat) : bytes :=
  if (offset <? length header)%nat then drop offset header else drop (offset - length header) body.

Lemma length_segment h b o :
  (o <= length h + length b)%nat →
  length (segment h b o) = (if (o <? length h)%nat then length h - o else length h + length b - o)%nat.
Proof. intros Ho. unfold segment. destruct (Nat.ltb_spec o (length h)); rewrite length_drop; lia. Qed.

(** A write moves on within a segment, or from the header to the body. *)
Lemma segment_next h b o n :
  (S n <= length (segment h b o))%nat → (o <= length h + length b)%nat →
  (if bool_decide (drop (S n) (segment h b o) = []) && (o + S n =? length h)%nat then b
   else drop (S n) (segment h b o)) = segment h b (o + S n).
Proof.
  intros Hn Ho. rewrite length_segment in Hn by done. unfold segment.
  destruct (Nat.ltb_spec o (length h)) as [Hlt|Hge]; rewrite drop_drop;
    destruct (Nat.eqb_spec (o + S n) (length h)) as [He|He]; try lia.
  - rewrite He, Nat.ltb_irrefl, Nat.sub_diag, drop_all. by rewrite bool_decide_true.
  - rewrite andb_false_r, (proj2 (Nat.ltb_lt _ _)) by lia. done.
  - rewrite andb_false_r, (proj2 (Nat.ltb_ge _ _)) by lia. f_equal. lia.
Qed.

Lemma take_header_body n (h b : bytes) :
  (n <= length h)%nat → ∀ k, (k <= length (drop n h))%nat →
  take n (h ++ b) ++ take k (drop n h) = take (n + k) (h ++ b).
Proof.
  intros Hn k Hk. rewrite length_drop in Hk. rewrite !take_app_le by lia. apply take_take_drop.
Qed.

Lemma take_body n (h b : bytes) k :
  (length h <= n)%nat →
  take n (h ++ b) ++ take k (drop (n - length h) b) = take (n + k) (h ++ b).
Proof.
  intros Hn. rewrite !take_app, !(firstn_all2 h) by lia. rewrite <-app_assoc, take_take_drop.
  do 2 f_equal. lia.
Qed.

Lemma write_loop_spec fuel h b r offset :
  (offset <= length h + length b)%nat → (length h + length b - offset < fuel)%nat →
  ∃ w n r', write_loop fuel h b r (segment h b offset) offset = Some (w, n, segment h b n, r')
    ∧ (offset <= n <= length h + length b)%nat
    ∧ (∀ acc, rw_accepted r = acc ++ take offset (h ++ b) → rw_accepted r' = acc ++ take n (h ++ b))
    ∧ (w = AllWritten → n = length h + length b)%nat.
Proof.
  revert r offset. induction fuel as [|fuel IH]; intros r offset Ho Hf; [lia|].
  cbn [write_loop]. destruct (segment h b offset) as [|x data] eqn:Hs.
  - exists AllWritten, offset, r. split_and!; [by rewrite Hs|lia|lia|done|]. intros _.
    apply (f_equal length) in Hs. rewrite length_segment in Hs by done. simpl in Hs.
    destruct (Nat.ltb_spec offset (length h)); lia.
  - assert (x :: data = segment h b offset) as Heq by done. rewrite Heq.
    destruct (rw_write r (segment h b offset)) as [[[|n]|e] r1] eqn:Hw.
    + exists WriteBroken, offset, r1. destruct (rw_write_ok _ _ _ _ Hw) as [_ Ha].
      split_and!; [done|lia|lia| |done]. intros acc Hacc. by rewrite Ha, Hacc, app_nil_r.
    + destruct (rw_write_ok _ _ _ _ Hw) as [Hn Ha]. rewrite slice_from_le by done. cbn [mbind option_bind].
      rewrite segment_next by done. set (o := (offset + S n)%nat).
      assert (o <= length h + length b)%nat as Hle.
      { unfold o. rewrite length_segment in Hn by done. destruct (_ <? _)%nat; lia. }
      destruct (IH r1 o) as (w & m & r' & -> & Hm & Hacc & Hall); [done|unfold o in *; lia|].
      exists w, m, r'. split_and!; [done|unfold o in *; lia|lia| |done]. intros acc Hr. apply Hacc.
      rewrite Ha, Hr, <-app_assoc. f_equal. unfold segment in *. unfold o.
      destruct (Nat.ltb_spec offset (length h)); [apply take_header_body; [lia|done]|by apply take_body].
    + pose proof (rw_write_err _ _ _ _ Hw) as Ha.
      destruct e; eexists _, offset, r1; (split; [reflexivity|]); split_and!; try lia; try done;
        intros acc Hr; by rewrite Ha.
Qed.

Lemma cache_rest_spec h b n :
  (n <= length h + length b)%nat →
  cache_rest h b [] (segment h b n) n =
    if (n =? length h + length b)%nat then []
    else if (n =? 0)%nat && (0 <? length h)%nat then h
    else if (length h <=? n)%nat && (length h + length b - n <? length h)%nat
    then drop n (h ++ b) ++ b
    else drop n (h ++ b).
Proof.
  intros Hn. unfold cache_rest. rewrite length_segment by done. cbn [app].
  destruct (Nat.eqb_spec n (length h + length b)) as [->|Hne].
  { by rewrite Nat.sub_diag. }
  rewrite (proj2 (Nat.eqb_neq _ _)) by lia. unfold segment.
  destruct (Nat.ltb_spec n (length h)) as [Hlt|Hge].
  - rewrite (proj2 (Nat.leb_gt _ _)) by done. cbn [andb].
    destruct (Nat.eqb_spec n 0) as [->|H0]; cbn [andb].
    + rewrite (proj2 (Nat.ltb_lt 0 _)) by lia. rewrite (proj2 (Nat.ltb_ge _ _)) by lia. done.
    + rewrite (proj2 (Nat.ltb_lt _ (length h))) by lia. by rewrite drop_app_le by lia.
  - rewrite (proj2 (Nat.leb_le _ _)) by done. cbn [andb].
    assert ((n =? 0)%nat && (0 <? length h)%nat = false) as ->.
    { destruct (Nat.eqb_spec n 0), (Nat.ltb_spec 0 (length h)); lia || done. }
    by rewrite drop_app_ge by lia.
Qed.

Lemma flush_remote_frame c :
  rbuffer (flush_remote c) = rbuffer c
  ∧ rw_accepted (remote (flush_remote c)) = rw_accepted (remote c)
  ∧ rw_taken (remote (flush_remote c)) = rw_taken (remote c)
  ∧ lbuffer (flush_remote c) = lbuffer c
  ∧ (rclosed (flush_remote c) = false → rclosed c = false).
Proof.
  unfold flush_remote. pose proof (flush_accepted (remote c)) as Ha. pose proof (flush_taken (remote c)) as Ht.
  destruct (remote_flush (remote c)) as [r1 r] eqn:Hf. cbn [snd] in *.
  assert (∀ c0, rclosed (close_remote c0) = true) as Hc.
  { intros c0. unfold close_remote. by destruct (rclosed c0) eqn:?. }
  assert (rw_accepted (remote (close_remote (with_remote c r))) = rw_accepted (remote c)
    ∧ rw_taken (remote (close_remote (with_remote c r))) = rw_taken (remote c)) as [Ha2 Ht2].
  { unfold close_remote. cbn. destruct (rclosed c); cbn; [by split|]. by rewrite close_accepted, close_taken. }
  assert (rbuffer (close_remote (with_remote c r)) = rbuffer c
    ∧ lbuffer (close_remote (with_remote c r)) = lbuffer c) as [Hr2 Hl2].
  { unfold close_remote. cbn. by destruct (rclosed c). }
  destruct r1 as [|[]]; split_and!; try done; by rewrite Hc.
Qed.

(** Of a request on an idle connection that the server's side takes in part the
    rest is kept, so that the stream stays whole, in two cases out of four: when the
    cut is inside the header, and when at least as much of the body is left as the
    header is long.  When nothing was taken only the header is kept, and when less
    of the body is left than the header is long the body is repeated after it. *)
Theorem request_is_cached now c header body :
  rbuffer c = [] → established c = true → rclosed c = false → header ≠ [] →
  as_secs (since now (last_remote c)) <= 120 →
  ∃ c' n, do_local now c header body = Some c' ∧ (n <= length header + length body)%nat
    ∧ rw_accepted (remote c') = rw_accepted (remote c) ++ take n (header ++ body)
    ∧ (rclosed c' = false →
        rbuffer c' =
          if (n =? length header + length body)%nat then []
          else if (n =? 0)%nat then header
          else if (length header <=? n)%nat && (length header + length body - n <? length header)%nat
          then drop n (header ++ body) ++ body
          else drop n (header ++ body)).
Proof.
  intros Hb He Hc Hh Ht. unfold do_local. rewrite (proj2 (Z.ltb_ge _ _)) by done.
  rewrite Hb, He. cbn. unfold local_to_remote. rewrite Hb. unfold write_request.
  assert (0 < length header)%nat as Hl by (destruct header; [done|simpl; lia]).
  destruct (write_loop_spec (S (S (length header + length body))) header body (remote c) 0)
    as (w & n & r' & Hw & Hn & Hacc & Hall); [lia..|].
  assert (segment header body 0 = header) as Hs by (unfold segment; by rewrite (proj2 (Nat.ltb_lt _ _))).
  rewrite Hs in Hw. rewrite Hw. cbn [mbind option_bind].
  specialize (Hacc (rw_accepted (remote c)) ltac:(by rewrite app_nil_r)).
  destruct w.
  1,2: eexists _, n; split; [reflexivity|]; split; [lia|];
    destruct (flush_remote_frame (with_rbuffer (with_remote c r')
      (cache_rest header body (rbuffer (with_remote c r')) (segment header body n) n))) as (-> & -> & _);
    cbn [rbuffer remote with_rbuffer with_remote]; split; [done|];
    intros _; rewrite Hb, cache_rest_spec by lia; by rewrite (proj2 (Nat.ltb_lt 0 _)), andb_true_r.
  eexists _, n. split; [reflexivity|]. split; [lia|].
  unfold close_remote. cbn. rewrite Hc. cbn. by rewrite close_accepted.
Qed.

End Writes.

(** ** What is handed to the tunnel *)

Definition frame (a : SocketAddr * bytes) : bytes :=
  UdpAssociate.generate_endpoint a.1 (Z.of_nat (length a.2)) ++ a.2.

(** An answer the reader of endpoints can take. *)
Definition answer4 (a : SocketAddr * bytes) : Prop :=
  wf_sa a.1 ∧ is_ipv4 (sa_ip a.1) = true ∧ (length a.2 <= max_packet)%nat.

Definition send_each (endpoint : SocketAddr) (socket : Smoltcp.UdpSocket) (payloads : list bytes)
    : Smoltcp.UdpSocket :=
  foldl (λ socket payload, (udp_send_slice socket payload endpoint).2) socket payloads.

(** What reading can make of a connection. *)
Inductive reads : R → R → Prop :=
  | reads_refl r : reads r r
  | reads_step r n x r' r'' : rw_read r n = (x, r') → reads r' r'' → reads r r''.

Section Answers.
Context {Law : LawfulRemote R} {PkOk : PacketReaderOk Pk}.
#[local] Existing Instance lawful_rw.

Lemma reads_taken r r' : reads r r' → ∃ d, rw_taken r' = rw_taken r ++ d.
Proof.
  induction 1 as [r|r n x r' r'' Hr _ [d ->]]; [by exists []; rewrite app_nil_r|].
  destruct x as [y|k].
  - destruct (rw_read_ok _ _ _ _ Hr) as [-> _]. exists (y ++ d). by rewrite app_assoc.
  - rewrite (rw_read_err _ _ _ _ Hr). by exists d.
Qed.

Lemma frame_nonempty a : (0 < length (frame a))%nat.
Proof.
  unfold frame, UdpAssociate.generate_endpoint. rewrite !length_app, length_u16_be. lia.
Qed.

Lemma length_encode_frame xs : (length xs <= length (encode frame xs))%nat.
Proof.
  induction xs as [|x xs IH]; [done|]. rewrite encode_cons, length_app. simpl.
  pose proof (frame_nonempty x). lia.
Qed.

Lemma partial_continues p : partial frame answer4 p → read_packet p = Some UdpAssociate.ContinuedEndpoint.
Proof.
  intros [->|([e data] & (Hw & H4 & Hd) & [q Hq] & Hne)]; [apply reader_empty|]. cbn [fst snd] in *.
  unfold frame in Hq. cbn [fst snd] in Hq.
  assert (p = take (length p) (UdpAssociate.generate_endpoint e (Z.of_nat (length data)) ++ data)) as ->.
  { by rewrite Hq, take_app_length. }
  apply reader_continues; [done..|]. rewrite Hq, length_app.
  destruct q; [|simpl; lia]. rewrite app_nil_r in Hq. by destruct Hne.
Qed.

(** Complete answers are sent in order; the rest is kept. *)
Lemma deliver_framed fuel e socket xs p :
  Forall answer4 xs → partial frame answer4 p → (length xs < fuel)%nat →
  deliver fuel e socket (encode frame xs ++ p) = Some (Some p, send_each e socket (snd <$> xs)).
Proof.
  intros Hxs Hp. revert fuel socket. induction Hxs as [|[a data] xs (Hw & H4 & Hd) Hxs IH];
    intros [|fuel] socket Hf; try (simpl in Hf; lia).
  - cbn [deliver encode mjoin list_join fmap list_fmap app].
    by rewrite (partial_continues p Hp).
  - cbn [deliver]. rewrite encode_cons, <-app_assoc. cbn [fst snd] in *.
    change (frame (a, data)) with (UdpAssociate.generate_endpoint a (Z.of_nat (length data)) ++ data).
    rewrite <-app_assoc, reader_roundtrip by done.
    cbn [mbind option_bind UdpAssociate.e_payload UdpAssociate.e_length].
    rewrite slice_to_app. cbn [mbind option_bind].
    rewrite slice_from_app. cbn [mbind option_bind].
    destruct (udp_send_slice socket data e) as [ok s1] eqn:Hs. rewrite IH by (simpl in Hf; lia).
    change (((a, data) :: xs).*2) with (data :: xs.*2). unfold send_each. cbn [foldl]. by rewrite Hs.
Qed.

Lemma read_once_reads r0 buffer :
  ∃ r r1 d, read_once spare r0 buffer = (r, r1, buffer ++ d)
    ∧ (∃ n x, rw_read r0 n = (x, r1))
    ∧ rw_taken r1 = rw_taken r0 ++ d
    ∧ (r = COk true → rw_left r1 < rw_left r0)%nat
    ∧ (r ≠ COk true → d = []).
Proof.
  destruct (read_once_spec spare r0 buffer) as (r & r1 & d & Hread & H). exists r, r1, d.
  split; [done|]. split; [|done]. exists (spare buffer). unfold read_once in Hread.
  destruct (rw_read r0 (spare buffer)) as [[[|y ys]|[]] r2]; injection Hread; intros; subst; eauto.
Qed.

Lemma close_remote_frame c :
  rbuffer (close_remote c) = rbuffer c
  ∧ rw_taken (remote (close_remote c)) = rw_taken (remote c)
  ∧ lbuffer (close_remote c) = lbuffer c
  ∧ endpoint (close_remote c) = endpoint c.
Proof. unfold close_remote. destruct (rclosed c); [done|]. cbn. by rewrite close_taken. Qed.

(** What has arrived of a stream of answers: the complete ones are sent, the rest is
    the beginning of one. *)
Lemma deliver_stream e socket b d xs rest :
  Forall answer4 xs → b ++ d ++ rest = encode frame xs →
  ∃ xs1 xs2 p, xs = xs1 ++ xs2 ∧ p ++ rest = encode frame xs2 ∧ partial frame answer4 p
    ∧ Forall answer4 xs2
    ∧ deliver (S (length (b ++ d))) e socket (b ++ d) = Some (Some p, send_each e socket (snd <$> xs1)).
Proof.
  intros Hxs Heq.
  destruct (encode_prefix frame answer4 xs [] (b ++ d) rest)
    as (xs1 & xs2 & p1 & -> & H1 & H2 & H3); [done|by left|by rewrite app_nil_r, <-app_assoc|].
  apply Forall_app in Hxs as [Hxs1 Hxs2]. exists xs1, xs2, p1. rewrite app_nil_r in H3.
  split_and!; try done. rewrite H1. apply deliver_framed; [done..|].
  rewrite length_app. pose proof (length_encode_frame xs1). lia.
Qed.

(** More fuel changes nothing. *)
Lemma remote_to_local_more fuel n c socket x :
  remote_to_local fuel c socket = Some x → remote_to_local (fuel + n) c socket = Some x.
Proof.
  revert c socket. induction fuel as [|fuel IH]; intros c socket; [done|]. cbn [remote_to_local Nat.add].
  destruct (read_once _ _ _) as [[r rm] b]. destruct r as [[]|e]; [|done|done].
  destruct (deliver _ _ _ _) as [[[rest|] s]|]; [|done|done]. cbn [mbind option_bind]. apply IH.
Qed.

(** The answers of the server come to the tunnel complete, once and in order,
    however the reads of the TLS connection cut them, and each goes to the source
    of the connection; an incomplete answer is kept for the next read.  Reading
    ends.  A panic needs a stream that is no sequence of IPv4 answers. *)
Theorem answers_delivered c socket :
  decided (λ fuel, remote_to_local fuel c socket) (λ res,
    match res with
    | Some (c', socket') =>
        ∃ d, rw_taken (remote c') = rw_taken (remote c) ++ d ∧
        ∀ xs rest, partial frame answer4 (lbuffer c) → Forall answer4 xs →
          lbuffer c ++ d ++ rest = encode frame xs →
          ∃ xs1 xs2, xs = xs1 ++ xs2
            ∧ socket' = send_each (endpoint c) socket (snd <$> xs1)
            ∧ lbuffer c' ++ rest = encode frame xs2 ∧ partial frame answer4 (lbuffer c')
            ∧ endpoint c' = endpoint c
    | None =>
        ∃ r' d, reads (remote c) r' ∧ rw_taken r' = rw_taken (remote c) ++ d ∧
        ∀ xs rest, partial frame answer4 (lbuffer c) → Forall answer4 xs →
          lbuffer c ++ d ++ rest ≠ encode frame xs
    end).
Proof.
  remember (remote c) as r0 eqn:Hr0. revert c socket Hr0.
  induction r0 as [r0 IH] using (induction_ltof1 _ rw_left). unfold ltof in IH.
  intros c socket ->. apply decided_S. cbn [remote_to_local].
  destruct (read_once_reads (remote c) (lbuffer c)) as (r & r1 & d & Hread & (n & x & Hx) & Ht & Hl & Hd).
  rewrite Hread. destruct r as [[]|k].
  2: { rewrite Hd in * by done. apply decided_ret. exists []. split; [done|]. rewrite app_nil_r.
       intros xs rest Hp Hxs Heq. by exists [], xs. }
  2: { rewrite Hd in * by done. apply decided_ret. exists []. rewrite !app_nil_r in *.
       destruct (close_remote_frame (with_lbuffer (with_remote c r1) (lbuffer c))) as (_ & -> & -> & ->).
       split; [cbn; congruence|]. intros xs rest Hp Hxs Heq. by exists [], xs. }
  pose proof (deliver_stream (endpoint c) socket (lbuffer c) d) as Hdel.
  cbn [lbuffer endpoint with_lbuffer with_remote].
  destruct (deliver _ _ _ _) as [[[q|] s]|]; cbn [mbind option_bind].
  - set (c1 := with_lbuffer (with_lbuffer (with_remote c r1) (lbuffer c ++ d)) q).
    eapply decided_weaken; [apply (IH r1 (Hl eq_refl) c1 s eq_refl)|].
    intros [[c' s']|].
    + intros (d2 & Ht2 & Hd2). exists (d ++ d2). change (remote c1) with r1 in Ht2.
      rewrite Ht2, Ht, app_assoc. split; [done|]. intros xs rest Hp Hxs Heq.
      rewrite <-app_assoc in Heq. destruct (Hdel xs (d2 ++ rest) Hxs Heq) as (xs1 & xs2 & p & -> & Heq2 & Hp2 & Hxs2 & [= -> ->]).
      destruct (Hd2 xs2 rest Hp2 Hxs2 Heq2) as (xs3 & xs4 & -> & -> & Hr & Hp4 & He).
      exists (xs1 ++ xs3), xs4. rewrite fmap_app. unfold send_each. rewrite foldl_app.
      split_and!; try done. by rewrite app_assoc.
    + intros (r' & d2 & Hrd & Ht2 & Hd2). exists r', (d ++ d2). change (remote c1) with r1 in Hrd, Ht2.
      split_and!; [by eapply reads_step|by rewrite Ht2, Ht, app_assoc|].
      intros xs rest Hp Hxs Heq. rewrite <-app_assoc in Heq.
      destruct (Hdel xs (d2 ++ rest) Hxs Heq) as (xs1 & xs2 & p & -> & Heq2 & Hp2 & Hxs2 & [= -> ->]).
      by apply (Hd2 xs2 rest Hp2 Hxs2).
  - apply decided_ret. exists d.
    destruct (close_remote_frame (with_lbuffer (with_remote c r1) (lbuffer c ++ d))) as (_ & -> & _).
    split; [done|]. intros xs rest _ Hxs Heq.
    by destruct (Hdel xs rest Hxs Heq) as (? & ? & ? & _ & _ & _ & _ & ?).
  - apply decided_ret. exists r1, d. split_and!; [|done|]; [by eapply reads_step, reads_refl|].
    intros xs rest _ Hxs Heq. by destruct (Hdel xs rest Hxs Heq) as (? & ? & ? & _ & _ & _ & _ & ?).
Qed.

End Answers.

(** ** Identity *)

(** No operation changes what the tables know a connection by. *)
Definition same_identity (c c' : t) : Prop :=
  token c' = token c ∧ local c' = local c ∧ endpoint c' = endpoint c.

#[export] Instance same_identity_preorder : PreOrder same_identity.
Proof.
  split; [done|]. intros c1 c2 c3 (A1 & B1 & C1) (A2 & B2 & C2). split_and!; congruence.
Qed.

Lemma close_remote_same c : same_identity c (close_remote c).
Proof. unfold close_remote. by destruct (rclosed c). Qed.

Lemma flush_remote_same c : same_identity c (flush_remote c).
Proof.
  unfold flush_remote. destruct (remote_flush (remote c)) as [[|[]] r];
    first [apply (close_remote_same (with_remote c r))|done].
Qed.

Lemma write_request_same c h b c' : write_request c h b = Some c' → same_identity c c'.
Proof.
  unfold write_request. destruct (write_loop _ _ _ _ _ _) as [[[[w o] data] r]|]; [|done].
  cbn [mbind option_bind]. destruct w; intros [= <-].
  - apply (flush_remote_same (with_rbuffer (with_remote c r) _)).
  - apply (flush_remote_same (with_rbuffer (with_remote c r) _)).
  - apply (close_remote_same (with_remote c r)).
Qed.

Lemma local_to_remote_same c h b c' : local_to_remote c h b = Some c' → same_identity c c'.
Proof.
  unfold local_to_remote. destruct (rbuffer c) as [|x rb] eqn:Hr; [apply write_request_same|].
  rewrite <-Hr. destruct (send_all _ _) as [[[r rm] rest]|]; [|done]. cbn [mbind option_bind].
  destruct r as [[]|e].
  - intros H%write_request_same. exact H.
  - intros [= <-]. apply (flush_remote_same (with_rbuffer (with_remote c rm) rest)).
  - intros [= <-]. apply (close_remote_same (with_rbuffer (with_remote c rm) rest)).
Qed.

Lemma do_local_same now c h b c' : do_local now c h b = Some c' → same_identity c c'.
Proof.
  unfold do_local. destruct (_ <? _).
  { intros [= <-]. apply close_remote_same. }
  destruct (negb _); [by intros [= <-]|]. destruct (negb _); [by intros [= <-]|].
  apply local_to_remote_same.
Qed.

Lemma deliver_endpoint {Obs : Observed Stk} {Ok : SmoltcpOk Stk} fuel e s b r s' :
  deliver fuel e s b = Some (r, s') → udp_endpoint s' = udp_endpoint s.
Proof.
  revert s b. induction fuel as [|fuel IH]; intros s b; [done|]. cbn [deliver].
  destruct (read_packet b) as [[p| |]|]; try done; cbn [mbind option_bind].
  2: by intros [= _ <-].
  2: by intros [= _ <-].
  destruct (slice_to _ _) as [payload|]; [|done]. cbn [mbind option_bind].
  destruct (udp_send_slice s payload e) as [ok s1] eqn:Hs. apply udp_send_spec in Hs as (_ & _ & He & _).
  destruct (slice_from _ _) as [rest|]; [|done]. cbn [mbind option_bind]. intros H%IH. congruence.
Qed.

Lemma remote_to_local_same {Obs : Observed Stk} {Ok : SmoltcpOk Stk} fuel c s c' s' :
  remote_to_local fuel c s = Some (c', s') → same_identity c c' ∧ udp_endpoint s' = udp_endpoint s.
Proof.
  revert c s. induction fuel as [|fuel IH]; intros c s; [done|]. cbn [remote_to_local].
  destruct (read_once _ _ _) as [[r rm] b]. destruct r as [[]|e].
  - destruct (deliver _ _ _ _) as [[r s1]|] eqn:Hd; [|done]. cbn [mbind option_bind].
    apply deliver_endpoint in Hd. destruct r as [rest|].
    + intros [H1 H2]%IH. split; [exact H1|congruence].
    + intros [= <- <-]. split; [apply (close_remote_same (with_lbuffer (with_remote c rm) b))|done].
  - by intros [= <- <-].
  - intros [= <- <-]. split; [apply (close_remote_same (with_lbuffer (with_remote c rm) b))|done].
Qed.

Lemma do_remote_same {Obs : Observed Stk} {Ok : SmoltcpOk Stk} fuel now c s e c' s' :
  do_remote fuel now c s e = Some (c', s') → same_identity c c' ∧ udp_endpoint s' = udp_endpoint s.
Proof.
  unfold do_remote. set (c0 := with_last_remote c now).
  match goal with |- (?x ≫= _) = _ → _ => destruct x as [[c1 ok]|] eqn:Hw end; [|done].
  assert (same_identity c0 c1) as H01.
  { revert Hw. destruct (Env.is_writable e); [|by intros [= <- <-]].
    match goal with |- (?x ≫= _) = _ → _ => destruct x as [[c2 ok2]|] eqn:Hq end; [|done].
    assert (same_identity c0 c2) as H02.
    { revert Hq. destruct (negb _); [|by intros [= <- <-]].
      destruct (empty_addr OPTIONS); [|done]. cbn [mbind option_bind].
      destruct (rw_write _ _) as [r rm]. destruct (io_is_ok r); intros [= <- _]; [done|].
      apply (close_remote_same (with_remote c0 rm)). }
    cbn [mbind option_bind]. destruct ok2; [|by intros [= <- <-]].
    destruct (local_to_remote c2 [] []) as [c3|] eqn:Hl; [|done]. cbn [mbind option_bind]. intros [= <- <-].
    apply local_to_remote_same in Hl. by etrans. }
  cbn [mbind option_bind]. destruct (negb ok); [by intros [= <- <-]|].
  destruct (Env.is_readable e); [|by intros [= <- <-]].
  destruct (remote_to_local fuel c1 s) as [[c2 s2]|] eqn:Hr; [|done]. cbn [mbind option_bind].
  intros [= <- <-]. apply remote_to_local_same in Hr as [Hr ?]. split; [|done].
  etrans; [exact H01|]. etrans; [exact Hr|]. apply flush_remote_same.
Qed.

End Connection.
#[global] Arguments t R : clear implicits.
End WinUdpConn.

(** ** The server *)

Module WinUdpServer.

Section Server.
Context {R P : Type} {Rem : Remote R} {Pool : RemotePool P R} {Stk : Smoltcp} {Pk : PacketReader}.
Context (OPTIONS : Opts) (spare : bytes → nat).
#[local] Existing Instance remote_rw.

(** An [Arc<Connection>] is its index in [conns]; both tables hold it. *)
Record t : Type := mk {
  conns : gmap nat (WinUdpConn.t R);
  next_conn : nat;
  token2conns : gmap Z nat;
  addr2conns : gmap SocketAddr nat;
  handles : gmap nat (Z * Z);
  buffer : bytes;
  removed : gset Z;
  NEXT_INDEX : Z
}.

Definition with_conns (s : t) (x : gmap nat (WinUdpConn.t R)) : t :=
  mk x (next_conn s) (token2conns s) (addr2conns s) (handles s) (buffer s) (removed s) (NEXT_INDEX s).
Definition with_token2conns (s : t) (x : gmap Z nat) : t :=
  mk (conns s) (next_conn s) x (addr2conns s) (handles s) (buffer s) (removed s) (NEXT_INDEX s).
Definition with_handles (s : t) (x : gmap nat (Z * Z)) : t :=
  mk (conns s) (next_conn s) (token2conns s) (addr2conns s) x (buffer s) (removed s) (NEXT_INDEX s).
Definition with_buffer (s : t) (x : bytes) : t :=
  mk (conns s) (next_conn s) (token2conns s) (addr2conns s) (handles s) x (removed s) (NEXT_INDEX s).
Definition with_removed (s : t) (x : gset Z) : t :=
  mk (conns s) (next_conn s) (token2conns s) (addr2conns s) (handles s) (buffer s) x (NEXT_INDEX s).

Definition new (NEXT_INDEX : Z) : t := mk ∅ 0 ∅ ∅ ∅ [] ∅ NEXT_INDEX.

(** The connection of the source, a new one if there is none: its index, the
    server and the pool. *)
Definition conn_for (now : Z) (handle : nat) (src_endpoint : SocketAddr) (s : t) (pool : P) :
    option (nat * t * P) :=
  match addr2conns s !! src_endpoint with
  | Some id => Some (id, s, pool)
  | None =>
      let info := default (now, 0) (handles s !! handle) in
      let '(tls, pool) := pool_get pool in
      tls ← tls;
      let '(token, NEXT_INDEX) := next_token CHANNEL_UDP (NEXT_INDEX s) in
      let tls := remote_set_token tls token in
      let conn := WinUdpConn.mk token handle tls false [] [] src_endpoint false now in
      let id := next_conn s in
      Some (id, mk (<[id := conn]> (conns s)) (S id) (token2conns s)
                  (<[src_endpoint := id]> (addr2conns s))
                  (<[handle := (info.1, wrap 64 (info.2 + 1))]> (handles s))
                  (buffer s) (removed s) NEXT_INDEX, pool)
  end.

(** One datagram of [do_local]. *)
Definition do_datagram (now : Z) (handle : nat) (dst : IpAddr * Z) (data : bytes) (src_endpoint : SocketAddr)
    (s : t) (pool : P) : option (t * P) :=
  let s := with_buffer s (UdpAssociate.generate_endpoint (mkSocketAddr dst.1 dst.2)
                            (wrap 16 (Z.of_nat (length data)))) in
  '(id, s, pool) ← conn_for now handle src_endpoint s pool;
  conn ← conns s !! id;
  let tok := WinUdpConn.token conn in
  let s := match token2conns s !! tok with
           | Some _ => s
           | None => with_token2conns s (<[tok := id]> (token2conns s))
           end in
  conn ← WinUdpConn.do_local now conn (buffer s) data;
  let s := with_conns s (<[id := conn]> (conns s)) in
  Some (if WinUdpConn.is_closed conn then with_removed s ({[WinUdpConn.token conn]} ∪ removed s) else s, pool).

(** The loop over the datagrams of a socket; [fuel] bounds it. *)
Fixpoint recv_loop (fuel : nat) (now : Z) (handle : nat) (dst_endpoint : option IpAddr * Z)
    (socket : Smoltcp.UdpSocket) (s : t) (pool : P) : option (Smoltcp.UdpSocket * t * P) :=
  match fuel with
  | O => None
  | S fuel =>
      let '(r, socket) := udp_recv socket in
      match r with
      | Some (data, src_endpoint) =>
          addr ← dst_endpoint.1;
          '(s, pool) ← do_datagram now handle (addr, dst_endpoint.2) data src_endpoint s pool;
          recv_loop fuel now handle dst_endpoint socket s pool
      | None => Some (socket, s, pool)
      end
  end.

Definition do_handle (fuel : nat) (now : Z) (st : t * P * WinTun.t) (handle : nat) :
    option (t * P * WinTun.t) :=
  let '(s, pool, device) := st in
  '(socket, device) ← WinTun.get_udp_socket_mut device handle ModeRecv;
  let dst_endpoint := udp_endpoint socket in
  let info := default (now, 0) (handles s !! handle) in
  let s := with_handles s (<[handle := (now, info.2)]> (handles s)) in
  '(socket, s, pool) ← recv_loop fuel now handle dst_endpoint socket s pool;
  Some (s, pool, WinTun.put_udp device handle socket).

Definition do_local (fuel : nat) (now : Z) (st : t * P * WinTun.t) : option (t * P * WinTun.t) :=
  let '(s, pool, device) := st in
  let '(events, device) := WinTun.get_udp_events device in
  foldl (λ acc handle, st ← acc; do_handle fuel now st handle) (Some (s, pool, device))
    (map_to_list events).*1.

Definition do_remote (fuel : nat) (now : Z) (event_token : Z) (event : Event) (s : t) (device : WinTun.t) :
    option (t * WinTun.t) :=
  match token2conns s !! event_token with
  | Some id =>
      conn ← conns s !! id;
      '(socket, device) ← WinTun.get_udp_socket_mut device (WinUdpConn.local conn) ModeNone;
      '(conn, socket) ← WinUdpConn.do_remote OPTIONS spare fuel now conn socket event;
      let s := with_conns s (<[id := conn]> (conns s)) in
      Some (if WinUdpConn.is_closed conn then with_removed s ({[WinUdpConn.token conn]} ∪ removed s) else s,
            WinTun.put_udp device (WinUdpConn.local conn) socket)
  | None => Some (s, device)
  end.

Definition remove_token (acc : option t) (token : Z) : option t :=
  s ← acc;
  match token2conns s !! token with
  | Some id =>
      conn ← conns s !! id;
      e ← handles s !! WinUdpConn.local conn;
      let token2conns := delete (WinUdpConn.token conn) (token2conns s) in
      let addr2conns := delete (WinUdpConn.endpoint conn) (addr2conns s) in
      (* the connection is dropped with its last reference *)
      let held := bool_decide (map_Exists (λ _ i, i = id) token2conns)
                  || bool_decide (map_Exists (λ _ i, i = id) addr2conns) in
      Some (mk (if held then conns s else delete id (conns s)) (next_conn s) token2conns addr2conns
              (<[WinUdpConn.local conn := (e.1, wrap 64 (e.2 - 1))]> (handles s))
              (buffer s) (removed s) (NEXT_INDEX s))
  | None => Some s
  end.

Definition remove_closed (s : t) : option t :=
  s ← foldl remove_token (Some s) (elements (removed s));
  Some (with_removed s ∅).

Definition idle_handles (now : Z) (s : t) : list nat :=
  (filter (λ e, e.2.2 <= 0 ∧ secs 600 < since now e.2.1) (map_to_list (handles s))).*1.

Definition remove_handle (acc : option (t * WinTun.t)) (handle : nat) : option (t * WinTun.t) :=
  '(s, device) ← acc;
  device ← WinTun.remove_socket device handle;
  Some (with_handles s (delete handle (handles s)), device).

Definition check_timeout (now : Z) (s : t) (device : WinTun.t) : option (t * WinTun.t) :=
  foldl remove_handle (Some (s, device)) (idle_handles now s).

End Server.
#[global] Arguments t R : clear implicits.

(** ** The tables *)

(** How many of the connections use a handle. *)
Definition refs (m : gmap nat nat) (h : nat) : nat := size (filter (λ e : nat * nat, e.2 = h) m).

Lemma refs_insert m id h h' :
  m !! id = None → refs (<[id := h]> m) h' = ((if decide (h = h') then 1 else 0) + refs m h')%nat.
Proof.
  intros Hid. unfold refs. destruct (decide (h = h')) as [->|Hne].
  - rewrite map_filter_insert_True by done. rewrite map_size_insert_None; [done|].
    apply map_lookup_filter_None. by left.
  - rewrite map_filter_insert_False by done. by rewrite delete_id.
Qed.

Lemma refs_delete m id h h' :
  m !! id = Some h → refs m h' = ((if decide (h = h') then 1 else 0) + refs (delete id m) h')%nat.
Proof.
  intros Hid. rewrite <-(insert_delete_id m id h) at 1 by done.
  apply refs_insert, lookup_delete_eq.
Qed.

Lemma refs_le m h : (refs m h <= size m)%nat.
Proof. apply map_subseteq_size, map_filter_subseteq. Qed.

Lemma refs_pos m id h : m !! id = Some h → (0 < refs m h)%nat.
Proof. intros Hid. rewrite (refs_delete _ _ _ _ Hid). rewrite decide_True by done. lia. Qed.

Section Tables.
Context {R P : Type} {Rem : Remote R} {Pool : RemotePool P R}.
Context {Stk : Smoltcp} {Rs : Reserved} {Obs : Observed Stk} {K : SmoltcpOk Stk} {Pk : PacketReader}.
Context (OPTIONS : Opts) (spare : bytes → nat).

Definition locals (s : t R) : gmap nat nat := WinUdpConn.local <$> conns s.

(** The tables and the device agree. *)
Record inv (s : t R) (d : WinTun.t) : Prop := mkInv {
  v_device : WinTun.inv d;
  v_tables : shared WinUdpConn.token WinUdpConn.endpoint (conns s) (next_conn s) (token2conns s) (addr2conns s);
  v_refs h : default 0 (snd <$> handles s !! h) = Z.of_nat (refs (locals s) h);
  v_live h : is_Some (handles s !! h) → reserved ≠ Some h ∧ is_Some (udps (WinTun.sockets d) !! h);
  v_index : MIN_INDEX <= NEXT_INDEX s < MAX_INDEX;
  v_used id c : conns s !! id = Some c → issued CHANNEL_UDP (NEXT_INDEX s) (WinUdpConn.token c);
  v_count : Z.of_nat (size (conns s)) <= NEXT_INDEX s - MIN_INDEX
}.

Lemma lookup_locals s id h :
  locals s !! id = Some h ↔ ∃ c, conns s !! id = Some c ∧ WinUdpConn.local c = h.
Proof. unfold locals. rewrite lookup_fmap. destruct (conns s !! id); naive_solver. Qed.

(** A connection's handle is listed and its socket is there. *)
Lemma inv_local s d id c :
  inv s d → conns s !! id = Some c →
  is_Some (handles s !! WinUdpConn.local c) ∧ reserved ≠ Some (WinUdpConn.local c)
  ∧ is_Some (udps (WinTun.sockets d) !! WinUdpConn.local c).
Proof.
  intros Hi Hc. assert (is_Some (handles s !! WinUdpConn.local c)) as Hh; [|by split; [|by eapply v_live]].
  pose proof (v_refs _ _ Hi (WinUdpConn.local c)) as Hr.
  assert (locals s !! id = Some (WinUdpConn.local c)) as Hl by (rewrite lookup_locals; eauto).
  pose proof (refs_pos _ _ _ Hl). destruct (handles s !! _); [done|]. cbn in Hr. lia.
Qed.

Lemma inv_refs_small s d h : inv s d → Z.of_nat (refs (locals s) h) + 1 < 2 ^ 64.
Proof.
  intros Hi. pose proof (refs_le (locals s) h) as Hle. pose proof (v_count _ _ Hi) as Hc. pose proof (v_index _ _ Hi) as Hn.
  unfold locals in Hle at 2. rewrite map_size_fmap in Hle. rewrite WIN_MAX_INDEX_value in Hn. unfold MIN_INDEX in *. lia.
Qed.

(** Fields the invariant does not read. *)
Lemma inv_frame s d b r : inv s d → inv (with_removed (with_buffer s b) r) d.
Proof. by intros []. Qed.

(** A connection that changes but keeps its identity. *)
Lemma inv_update s d d' id c c' :
  inv s d → WinTun.inv d' →
  (∀ h, is_Some (udps (WinTun.sockets d) !! h) → is_Some (udps (WinTun.sockets d') !! h)) →
  conns s !! id = Some c → WinUdpConn.same_identity c c' →
  inv (with_conns s (<[id := c']> (conns s))) d' ∧ locals (with_conns s (<[id := c']> (conns s))) = locals s.
Proof.
  intros Hi Hd Hu Hc (Ht & Hl & He). pose proof Hi as [Hdev Htab Hr Hlv Hx Hus Hct].
  assert (locals (with_conns s (<[id := c']> (conns s))) = locals s) as Hloc.
  { unfold locals. cbn. rewrite fmap_insert. apply insert_id. rewrite lookup_fmap, Hc. cbn. by rewrite Hl. }
  split; [|done]. split; try done; cbn [conns with_conns token2conns addr2conns next_conn].
  - by eapply shared_update.
  - intros h. rewrite Hloc. apply Hr.
  - intros h [? Hh]%Hlv. split; [done|]. by apply Hu.
  - intros id' x [[<- <-]|[_ Hx']]%lookup_insert_Some; [rewrite Ht|]; by eapply Hus.
  - by rewrite map_size_insert_Some.
Qed.

(** A new source. *)
Lemma inv_new s d c :
  inv s d → NEXT_INDEX s + 1 < MAX_INDEX → is_Some (handles s !! WinUdpConn.local c) →
  addr2conns s !! WinUdpConn.endpoint c = None → WinUdpConn.token c = (next_token CHANNEL_UDP (NEXT_INDEX s)).1 →
  ∀ a b r, inv (mk (<[next_conn s := c]> (conns s)) (S (next_conn s))
         (<[WinUdpConn.token c := next_conn s]> (token2conns s))
         (<[WinUdpConn.endpoint c := next_conn s]> (addr2conns s))
         (<[WinUdpConn.local c := (a, wrap 64 (default 0 (snd <$> handles s !! WinUdpConn.local c) + 1))]> (handles s))
         b r (next_token CHANNEL_UDP (NEXT_INDEX s)).2) d
    ∧ token2conns s !! WinUdpConn.token c = None.
Proof.
  intros Hi Hx Hh Ha Ht a b r. pose proof Hi as [Hdev Htab Hr Hlv Hix Hus Hct].
  rewrite next_token_small in Ht by (unfold CHANNEL_UDP, CHANNEL_CNT; lia || done).
  rewrite next_token_next by lia. pose proof (shared_next _ _ Htab) as Hnone.
  assert (token2conns s !! WinUdpConn.token c = None) as Htn.
  { destruct (token2conns s !! WinUdpConn.token c) as [id|] eqn:Htc; [|done].
    apply (sh_key1 _ _ _ _ _ _ Htab) in Htc as (x & Hx1 & Hx2). apply Hus in Hx1.
    rewrite Hx2, Ht in Hx1. by apply issued_fresh in Hx1. }
  split; [|done]. split; cbn [conns next_conn token2conns addr2conns handles NEXT_INDEX].
  - done.
  - by apply shared_insert.
  - intros h. unfold locals. cbn [conns]. rewrite fmap_insert, refs_insert
      by (rewrite lookup_fmap, Hnone; done). fold (locals s).
    pose proof (inv_refs_small s d h Hi) as Hsm.
    destruct (decide (WinUdpConn.local c = h)) as [<-|Hne].
    + rewrite lookup_insert_eq. cbn. rewrite Hr, wrap_small by lia. lia.
    + rewrite lookup_insert_ne by done. rewrite Hr. lia.
  - intros h Hs. destruct (decide (WinUdpConn.local c = h)) as [<-|Hne]; [by apply Hlv|].
    rewrite lookup_insert_ne in Hs by done. by apply Hlv.
  - lia.
  - intros id x [[<- <-]|[_ Hx1]]%lookup_insert_Some; [rewrite Ht; apply issued_next; lia|].
    apply Hus in Hx1. eapply issued_mono; [|done]. lia.
  - rewrite map_size_insert_None by done. lia.
Qed.

Lemma server_new_inv d : WinTun.inv d → inv (new MIN_INDEX) d.
Proof.
  intros Hd. split; cbn [conns new token2conns addr2conns handles NEXT_INDEX locals].
  - done.
  - apply shared_empty.
  - intros h. unfold refs, locals. cbn. by rewrite fmap_empty, map_filter_empty, map_size_empty.
  - by intros h [? ?].
  - by vm_compute.
  - intros id c. by rewrite lookup_empty.
  - by vm_compute.
Qed.

(** *** Datagrams of the tunnel *)

Lemma conn_for_spec now handle src s pool id s1 pool1 d :
  inv s d → NEXT_INDEX s + 1 < MAX_INDEX → is_Some (handles s !! handle) →
  conn_for now handle src s pool = Some (id, s1, pool1) →
  ∃ c, conns s1 !! id = Some c ∧ buffer s1 = buffer s ∧ is_Some (handles s1 !! handle)
    ∧ NEXT_INDEX s1 <= NEXT_INDEX s + 1
    ∧ inv (match token2conns s1 !! WinUdpConn.token c with
           | Some _ => s1
           | None => with_token2conns s1 (<[WinUdpConn.token c := id]> (token2conns s1))
           end) d.
Proof.
  intros Hi Hx Hh. unfold conn_for.
  pose proof (next_token_next CHANNEL_UDP (NEXT_INDEX s) (proj1 (v_index _ _ Hi)) Hx) as Hnext.
  destruct (addr2conns s !! src) as [id0|] eqn:Ha.
  - intros [= <- <- <-]. pose proof (proj1 (sh_key2 _ _ _ _ _ _ (v_tables _ _ Hi) _ _) Ha) as (c & Hc & _).
    exists c. split_and!; try done; [lia|]. by destruct (shared_lookup _ _ (v_tables _ _ Hi) _ _ Hc) as [-> _].
  - destruct (pool_get pool) as [[tls|] pool2]; [|done]. cbn [mbind option_bind].
    destruct (next_token CHANNEL_UDP (NEXT_INDEX s)) as [tk nx] eqn:Hnt. intros [= <- <- <-].
    set (c := WinUdpConn.mk tk handle (remote_set_token tls tk) false [] [] src false now).
    destruct Hh as [[ha hb] Hh]. rewrite Hh.
    destruct (inv_new s d c Hi Hx) with (a := ha) (b := buffer s) (r := removed s) as [Hi1 Htn];
      [by eexists; exact Hh|done|by rewrite Hnt|].
    exists c. cbn [conns handles NEXT_INDEX buffer token2conns]. rewrite !lookup_insert_eq, Htn.
    cbn [snd] in Hnext. split_and!; try done; [lia|].
    rewrite Hnt in Hi1. change (WinUdpConn.local c) with handle in Hi1. rewrite Hh in Hi1. exact Hi1.
Qed.

Lemma do_datagram_ok now handle dst data src s pool s' pool' d :
  inv s d → NEXT_INDEX s + 1 < MAX_INDEX → is_Some (handles s !! handle) →
  do_datagram now handle dst data src s pool = Some (s', pool') →
  inv s' d ∧ is_Some (handles s' !! handle) ∧ NEXT_INDEX s' <= NEXT_INDEX s + 1.
Proof.
  intros Hi Hx Hh. unfold do_datagram. set (s0 := with_buffer s _).
  intros ([[id s1] pool1] & Hc & H)%bind_Some.
  destruct (conn_for_spec now handle src s0 pool id s1 pool1 d) as (c & Hc1 & Hb & Hh1 & Hn & Hi1); try done;
    [apply (inv_frame _ _ _ (removed s) Hi)|].
  clear Hc. apply bind_Some in H as (c0 & Hc0 & H). rewrite Hc1 in Hc0. injection Hc0 as <-.
  set (s2 := match token2conns s1 !! _ with Some _ => _ | None => _ end) in *.
  assert (conns s2 = conns s1 ∧ handles s2 = handles s1 ∧ NEXT_INDEX s2 = NEXT_INDEX s1) as (Hs1 & Hs2 & Hs3).
  { subst s2. by destruct (token2conns s1 !! _). }
  clearbody s2. apply bind_Some in H as (c' & Hl & H). apply WinUdpConn.do_local_same in Hl.
  destruct (inv_update s2 d d id c c' Hi1 (v_device _ _ Hi1) ltac:(done)) as [Hi' _];
    [by rewrite Hs1|exact Hl|]. rewrite <-Hs2 in Hh1. rewrite <-Hs3 in Hn.
  destruct (WinUdpConn.is_closed c'); injection H as <- <-; split; try done.
  apply (inv_frame _ _ (buffer s2) _ Hi').
Qed.

(** A call makes at most as many connections as it takes datagrams. *)
Lemma recv_loop_ok fuel now handle dst socket s pool socket' s' pool' d :
  inv s d → NEXT_INDEX s + Z.of_nat fuel < MAX_INDEX → is_Some (handles s !! handle) →
  recv_loop fuel now handle dst socket s pool = Some (socket', s', pool') →
  inv s' d ∧ is_Some (handles s' !! handle) ∧ NEXT_INDEX s' <= NEXT_INDEX s + Z.of_nat fuel
  ∧ udp_endpoint socket' = udp_endpoint socket.
Proof.
  revert socket s pool. induction fuel as [|fuel IH]; intros socket s pool Hi Hx Hh; [done|].
  cbn [recv_loop]. destruct (udp_recv socket) as [[[data src]|] socket1] eqn:Hr;
    apply udp_recv_spec in Hr as (_ & _ & He & _).
  - intros (a & _ & H)%bind_Some. apply bind_Some in H as ([s1 pool1] & Hd & H).
    apply (do_datagram_ok _ _ _ _ _ _ _ _ _ d) in Hd as (Hi1 & Hh1 & Hn1); [|done|lia|done].
    apply IH in H as (Hi2 & Hh2 & Hn2 & He2); [|done|lia|done]. split_and!; [done|done|lia|congruence].
  - intros [= <- <- <-]. split_and!; [done..|lia|done].
Qed.

(** Writing a socket back. *)
Lemma put_udp_inv s d h sk sk' :
  inv s d → udps (WinTun.sockets d) !! h = Some sk → udp_endpoint sk' = udp_endpoint sk →
  inv s (WinTun.put_udp d h sk').
Proof.
  intros [] Hs He. destruct (WinTun.put_udp_spec d h sk sk' Hs) as [H1 _]. split; try done.
  - eapply WinTun.inv_update_udp; try done; apply v_device0.
  - intros h' [? Hh]%v_live0. split; [done|]. rewrite H1.
    destruct (decide (h = h')) as [<-|]; [by rewrite lookup_insert_eq|]. by rewrite lookup_insert_ne.
Qed.

(** The device changed, no UDP socket went. *)
Lemma inv_device s d d' :
  inv s d → WinTun.inv d' →
  (∀ h, is_Some (udps (WinTun.sockets d) !! h) → is_Some (udps (WinTun.sockets d') !! h)) → inv s d'.
Proof. intros [] Hd Hu. split; try done. intros h [? Hh]%v_live0. auto. Qed.

(** What the server's work leaves of the device: the TCP sockets, the endpoints of
    the UDP sockets, and the reserved socket whole. *)
Record leaves (d d' : WinTun.t) : Prop := {
  l_quiet : WinTun.quiet d d';
  l_endpoints h s' : udps (WinTun.sockets d') !! h = Some s' →
    ∃ s, udps (WinTun.sockets d) !! h = Some s ∧ udp_endpoint s' = udp_endpoint s;
  l_reserved h : reserved = Some h → udps (WinTun.sockets d') !! h = udps (WinTun.sockets d) !! h
}.

#[local] Instance leaves_preorder : PreOrder leaves.
Proof.
  split.
  - intros d. split; [done|by eauto|done].
  - intros d1 d2 d3 [Q1 E1 R1] [Q2 E2 R2]. split; [by etrans| |].
    + intros h s3 (s2 & (s1 & ? & ?)%E1 & ?)%E2. exists s1. split; [done|congruence].
    + intros h Hh. by rewrite R2, R1.
Qed.

Lemma leaves_same d d' :
  WinTun.quiet d d' → udps (WinTun.sockets d') = udps (WinTun.sockets d) → leaves d d'.
Proof. intros Hq He. split; rewrite ?He; eauto. Qed.

Lemma leaves_insert d d' h s s' :
  WinTun.quiet d d' → reserved ≠ Some h → udps (WinTun.sockets d) !! h = Some s → udp_endpoint s' = udp_endpoint s →
  udps (WinTun.sockets d') = <[h := s']> (udps (WinTun.sockets d)) → leaves d d'.
Proof.
  intros Hq Hr Hs He Hu. split; rewrite ?Hu; [done| |].
  - intros h' x [[<- <-]|[_ Hx]]%lookup_insert_Some; eauto.
  - intros h' Hh'. by rewrite lookup_insert_ne by congruence.
Qed.

Lemma put_udp_leaves d h s s' :
  reserved ≠ Some h → udps (WinTun.sockets d) !! h = Some s → udp_endpoint s' = udp_endpoint s →
  leaves d (WinTun.put_udp d h s').
Proof.
  intros Hr Hs He. destruct (WinTun.put_udp_spec d h s s' Hs) as [H1 H2].
  eapply leaves_insert; [|done|exact Hs|exact He|exact H1]. by split.
Qed.

Lemma get_udp_socket_mut_ok s d h m sk d' :
  inv s d → reserved ≠ Some h → WinTun.get_udp_socket_mut d h m = Some (sk, d') →
  inv s d' ∧ (∃ sk', udps (WinTun.sockets d') !! h = Some sk' ∧ udp_endpoint sk' = udp_endpoint sk)
  ∧ leaves d d'.
Proof.
  intros Hi Hrs Hg. pose proof (WinTun.i_udp_wakers _ (v_device _ _ Hi)) as Hw.
  destruct (udps (WinTun.sockets d) !! h) as [s0|] eqn:Hs.
  - destruct (WinTun.get_udp_socket_mut_spec d h s0 m Hw Hrs Hs) as (s1 & d1 & Hg1 & Hk & Hu & Htc & Hw1 & Htw & Hset).
    simplify_eq. split_and!; [|exists sk; by rewrite Hu, lookup_insert_eq
      |eapply leaves_insert; [by split|done|exact Hs|apply Hk|exact Hu]].
    apply (inv_device s d); [done| |].
    { eapply WinTun.inv_update_udp; [apply Hi|rewrite Htw; apply Hi|done..|apply Hk]. }
    intros h' Hh. rewrite Hu.
    destruct (decide (h = h')) as [<-|]; [by rewrite lookup_insert_eq|]. by rewrite lookup_insert_ne.
  - exfalso. revert Hg. unfold WinTun.get_udp_socket_mut. destruct (get_udp _ _) as [x|] eqn:Hx; [|done].
    apply get_udp_Some, lookup_udps in Hx. congruence.
Qed.

Lemma do_handle_ok fuel now s pool d h s' pool' d' :
  inv s d → reserved ≠ Some h → NEXT_INDEX s + Z.of_nat fuel < MAX_INDEX →
  do_handle fuel now (s, pool, d) h = Some (s', pool', d') →
  inv s' d' ∧ NEXT_INDEX s' <= NEXT_INDEX s + Z.of_nat fuel
  ∧ leaves d d'.
Proof.
  intros Hi Hrs Hx. unfold do_handle. intros ([sk d1] & Hg & H)%bind_Some.
  destruct (get_udp_socket_mut_ok _ _ _ _ _ _ Hi Hrs Hg) as (Hi1 & (sk1 & Hsk & He) & Htc).
  assert (inv (with_handles s (<[h := (now, (default (now, 0) (handles s !! h)).2)]> (handles s))) d1) as Hi2.
  { destruct Hi1. split; try done; cbn [handles with_handles].
    - intros h'. rewrite <-v_refs0. destruct (decide (h = h')) as [<-|]; [|by rewrite lookup_insert_ne].
      rewrite lookup_insert_eq. by destruct (handles s !! h).
    - intros h' Hh. destruct (decide (h = h')) as [<-|]; [split; [done|by eexists]|].
      rewrite lookup_insert_ne in Hh by done. auto. }
  apply bind_Some in H as ([[sk2 s1] pool1] & Hl & H).
  apply (recv_loop_ok _ _ _ _ _ _ _ _ _ _ d1) in Hl as (Hi3 & _ & Hn & He2);
    [|done|done|cbn; by rewrite lookup_insert_eq].
  injection H as <- <- <-. split_and!; [|exact Hn|etrans; [exact Htc|eapply put_udp_leaves; [done|exact Hsk|congruence]]].
  eapply put_udp_inv; [done|exact Hsk|congruence].
Qed.

Lemma do_local_ok fuel now s pool d s' pool' d' :
  inv s d →
  NEXT_INDEX s + Z.of_nat (fuel * length (Wakers.queue (WinTun.udp_wakers d))) < MAX_INDEX →
  do_local fuel now (s, pool, d) = Some (s', pool', d') →
  inv s' d' ∧ leaves d d'.
Proof.
  intros Hi Hx. unfold do_local. destruct (WinTun.get_udp_events d) as [events d1] eqn:Hev.
  assert (length (map_to_list events).*1 <= length (Wakers.queue (WinTun.udp_wakers d)))%nat as Hlen.
  { rewrite length_fmap. rewrite length_map_to_list.
    injection Hev as <- _. apply Wakers.size_events. }
  pose proof (v_device _ _ Hi) as Hd. pose proof (WinTun.i_udp_wakers _ Hd) as Hw.
  assert (∀ h, h ∈ (map_to_list events).*1 → reserved ≠ Some h) as Hev'.
  { intros h ([h' e] & -> & Hin%elem_of_map_to_list)%list_elem_of_fmap Hrs.
    destruct (WinTun.k_apart _ Hw h' Hrs) as [_ []]. apply Wakers.events_queued. injection Hev as Hev _. unfold Wakers.get_events. cbn [fst].
    rewrite Hev. by eexists. }
  assert (inv s d1) as Hi1.
  { injection Hev as _ <-. apply (inv_device s d); [done| |done].
    eapply WinTun.inv_keep_udps;
      [exact Hd|exact (WinTun.i_tcp_wakers _ Hd)|by apply WinTun.wakers_ok_events|done..]. }
  assert (leaves d d1) as Hq by by injection Hev as _ <-; apply leaves_same.
  clear Hev Hi Hd Hw. revert Hev' s pool d1 Hi1 Hx Hq. generalize (length (Wakers.queue (WinTun.udp_wakers d))) Hlen. clear Hlen.
  induction (map_to_list events).*1 as [|h l IH]; intros n Hlen Hev' s pool d1 Hi1 Hx Hq; [by intros [= <- <- <-]|].
  cbn [foldl]. change (Some (s, pool, d1) ≫= _) with (do_handle fuel now (s, pool, d1) h).
  destruct (do_handle fuel now (s, pool, d1) h) as [[[s1 pool1] d2]|] eqn:Hh.
  - simpl in Hlen. apply do_handle_ok in Hh as (Hi2 & Hn & Hq2); [|done|by apply Hev'; left|nia].
    apply (IH (n - 1)%nat); [lia|by intros h' ?; apply Hev'; right|done| |by etrans]. destruct n as [|n]; [lia|].
    replace (S n - 1)%nat with n by lia. nia.
  - intros H. exfalso. clear -H. induction l; [done|]. by apply IHl.
Qed.

Lemma do_remote_ok fuel now tk e s d s' d' :
  inv s d → do_remote OPTIONS spare fuel now tk e s d = Some (s', d') →
  inv s' d' ∧ leaves d d'.
Proof.
  intros Hi. unfold do_remote. destruct (token2conns s !! tk) as [id|]; [|by intros [= <- <-]].
  intros (c & Hc & H)%bind_Some. apply bind_Some in H as ([sk d1] & Hg & H).
  destruct (inv_local s d id c Hi Hc) as (_ & Hrs & _).
  destruct (get_udp_socket_mut_ok _ _ _ _ _ _ Hi Hrs Hg) as (Hi1 & (sk1 & Hsk & He) & Htc).
  apply bind_Some in H as ([c' sk'] & Hr & H). apply (WinUdpConn.do_remote_same OPTIONS spare) in Hr as [Hid He2].
  assert (inv s (WinTun.put_udp d1 (WinUdpConn.local c) sk')) as Hi2.
  { eapply put_udp_inv; [done|exact Hsk|congruence]. }
  destruct (inv_update _ _ _ id c c' Hi2 (v_device _ _ Hi2) ltac:(done) Hc Hid) as [Hi3 _].
  pose proof Hid as (_ & Hlc & _). rewrite Hlc in H.
  assert (leaves d (WinTun.put_udp d1 (WinUdpConn.local c) sk')) as Hq.
  { etrans; [exact Htc|]. eapply put_udp_leaves; [done|exact Hsk|congruence]. }
  destruct (WinUdpConn.is_closed c'); injection H as <- <-; (split; [|done]);
    [apply (inv_frame _ _ (buffer s) _ Hi3)|exact Hi3].
Qed.

(** *** Connections and sockets that go *)

Lemma remove_token_ok s d tk :
  inv s d → ∃ s', remove_token (Some s) tk = Some s' ∧ inv s' d
    ∧ conns s' = filter (λ e : nat * WinUdpConn.t R, WinUdpConn.token e.2 ≠ tk) (conns s).
Proof.
  intros Hi. pose proof Hi as [Hdev Htab Hr Hlv Hx Hus Hct]. unfold remove_token.
  cbn [mbind option_bind]. destruct (token2conns s !! tk) as [id|] eqn:Ht.
  2: { exists s. split_and!; try done. symmetry. apply map_filter_id. intros id c Hc Heq. cbn in Heq.
       destruct (shared_lookup _ _ Htab _ _ Hc). congruence. }
  pose proof (proj1 (sh_key1 _ _ _ _ _ _ Htab _ _) Ht) as (c & Hc & Hct'). rewrite Hc. cbn [mbind option_bind].
  destruct (inv_local s d id c Hi Hc) as [[e He] _]. rewrite He. cbn [mbind option_bind].
  rewrite (shared_dropped _ _ Htab id c Hc). pose proof (Hr (WinUdpConn.local c)) as Hrc. rewrite He in Hrc. cbn in Hrc.
  assert (locals s !! id = Some (WinUdpConn.local c)) as Hl by (rewrite lookup_locals; eauto).
  pose proof (refs_pos _ _ _ Hl) as Hpos. pose proof (inv_refs_small s d (WinUdpConn.local c) Hi) as Hsm.
  rewrite wrap_small by lia. eexists. split; [reflexivity|]. split; [|by subst tk; eapply shared_filter].
  split; cbn [conns next_conn token2conns addr2conns handles NEXT_INDEX].
  - done.
  - by apply shared_delete.
  - intros h. unfold locals. cbn [conns]. rewrite fmap_delete. fold (locals s).
    pose proof (Hr h) as Hrh. rewrite (refs_delete _ id _ h Hl) in Hrh.
    destruct (decide (WinUdpConn.local c = h)) as [<-|Hne].
    + rewrite lookup_insert_eq. rewrite He in Hrh. cbn in *. lia.
    + rewrite lookup_insert_ne by done. rewrite Hrh. done.
  - intros h Hh. apply Hlv. destruct (decide (WinUdpConn.local c = h)) as [<-|Hne]; [by eexists|].
    by rewrite lookup_insert_ne in Hh.
  - done.
  - intros id' x [_ Hx1]%lookup_delete_Some. eauto.
  - rewrite map_size_delete_Some by eauto. lia.
Qed.

Lemma remove_tokens_ok l s d :
  inv s d → ∃ s', foldl remove_token (Some s) l = Some s' ∧ inv s' d
    ∧ conns s' = filter (λ e : nat * WinUdpConn.t R, WinUdpConn.token e.2 ∉ l) (conns s).
Proof.
  revert s. induction l as [|tk l IH]; intros s Hi.
  - exists s. split_and!; try done. symmetry. apply map_filter_id. intros ? ? _. by apply not_elem_of_nil.
  - cbn [foldl]. destruct (remove_token_ok s d tk Hi) as (s1 & -> & Hi1 & Hc1).
    destruct (IH s1 Hi1) as (s2 & -> & Hi2 & Hc2). exists s2. split_and!; try done.
    rewrite Hc2, Hc1, map_filter_filter. apply map_filter_ext. intros id c _. cbn. set_solver.
Qed.

(** Exactly the connections listed go. *)
Lemma remove_closed_ok s d :
  inv s d → ∃ s', remove_closed s = Some s' ∧ inv s' d
    ∧ conns s' = filter (λ e : nat * WinUdpConn.t R, WinUdpConn.token e.2 ∉ removed s) (conns s).
Proof.
  intros Hi. unfold remove_closed. destruct (remove_tokens_ok (elements (removed s)) s d Hi) as (s' & -> & Hi' & Hc).
  cbn [mbind option_bind]. eexists. split; [done|]. split; [by apply (inv_frame _ _ (buffer s'))|].
  cbn [conns with_removed]. rewrite Hc. apply map_filter_ext. intros id c _. cbn. set_solver.
Qed.

Lemma remove_handle_ok s d h e :
  inv s d → handles s !! h = Some e → e.2 <= 0 →
  ∃ d', remove_handle (Some (s, d)) h = Some (with_handles s (delete h (handles s)), d')
    ∧ inv (with_handles s (delete h (handles s))) d'
    ∧ udps (WinTun.sockets d') = delete h (udps (WinTun.sockets d)) ∧ tcps (WinTun.sockets d') = tcps (WinTun.sockets d)
    ∧ reserved ≠ Some h.
Proof.
  intros Hi He Hz. destruct (v_live _ _ Hi h ltac:(by eexists)) as [Hrs [sk Hsk]].
  destruct (WinTun.remove_udp_socket_spec d h sk (v_device _ _ Hi) Hrs Hsk) as (d' & Hrm & Hd' & Hu & Ht & _).
  exists d'. unfold remove_handle. cbn [mbind option_bind]. rewrite Hrm. cbn [mbind option_bind].
  split_and!; try done. pose proof Hi as []. split; try done; cbn [handles with_handles].
  - intros h'. change (locals (with_handles s _)) with (locals s). rewrite <-v_refs0.
    destruct (decide (h = h')) as [<-|]; [|by rewrite lookup_delete_ne].
    rewrite lookup_delete_eq. cbn. pose proof (v_refs0 h) as Hr. rewrite He in *. cbn in *. lia.
  - intros h' [x [Hne Hx]%lookup_delete_Some]. rewrite Hu, lookup_delete_ne by done. apply v_live0. eauto.
Qed.

Lemma remove_handles_ok l s d :
  inv s d → NoDup l → (∀ h, h ∈ l → ∃ e, handles s !! h = Some e ∧ e.2 <= 0) →
  ∃ s' d', foldl remove_handle (Some (s, d)) l = Some (s', d') ∧ inv s' d' ∧ conns s' = conns s
    ∧ (∀ h, h ∉ l → udps (WinTun.sockets d') !! h = udps (WinTun.sockets d) !! h)
    ∧ tcps (WinTun.sockets d') = tcps (WinTun.sockets d)
    ∧ udps (WinTun.sockets d') ⊆ udps (WinTun.sockets d)
    ∧ (∀ h, reserved = Some h → h ∉ l).
Proof.
  revert s d. induction l as [|h l IH]; intros s d Hi Hnd Hl.
  { exists s, d. split_and!; try done. intros h _. apply not_elem_of_nil. }
  apply NoDup_cons in Hnd as [Hnot Hnd]. destruct (Hl h) as (e & He & Hz); [set_solver|].
  cbn [foldl]. destruct (remove_handle_ok s d h e Hi He Hz) as (d1 & -> & Hi1 & Hu1 & Ht1 & Hr1).
  destruct (IH _ d1 Hi1 Hnd) as (s2 & d2 & -> & Hi2 & Hc2 & Hu2 & Ht2 & Hs2 & Hr2).
  { intros h' Hh'. cbn. rewrite lookup_delete_ne by set_solver. apply Hl. set_solver. }
  exists s2, d2. split_and!; try done; [|congruence|rewrite Hu1 in Hs2; by etrans; [|apply delete_subseteq]|].
  - intros h' Hh'. rewrite Hu2 by set_solver. rewrite Hu1, lookup_delete_ne by set_solver. done.
  - intros h' Hh' [->|Hin]%elem_of_cons; [done|by eapply Hr2].
Qed.

(** No socket a connection uses goes. *)
Lemma check_timeout_keeps now s d :
  inv s d → ∃ s' d', check_timeout now s d = Some (s', d') ∧ inv s' d' ∧ conns s' = conns s
    ∧ (∀ id c, conns s !! id = Some c →
         udps (WinTun.sockets d') !! WinUdpConn.local c = udps (WinTun.sockets d) !! WinUdpConn.local c)
    ∧ tcps (WinTun.sockets d') = tcps (WinTun.sockets d)
    ∧ udps (WinTun.sockets d') ⊆ udps (WinTun.sockets d)
    ∧ (∀ h, reserved = Some h → udps (WinTun.sockets d') !! h = udps (WinTun.sockets d) !! h).
Proof.
  intros Hi. unfold check_timeout.
  assert (∀ h, h ∈ idle_handles now s → ∃ e, handles s !! h = Some e ∧ e.2 <= 0) as Hidle.
  { intros h ([h' e] & -> & [[He _] Hm]%list_elem_of_filter)%list_elem_of_fmap.
    apply elem_of_map_to_list in Hm. by exists e. }
  destruct (remove_handles_ok (idle_handles now s) s d Hi) as (s' & d' & -> & Hi' & Hc & Hu & Ht & Hsub & Hres); [|done|].
  { apply (sublist_NoDup _ (map_to_list (handles s)).*1); [apply NoDup_fst_map_to_list|].
    apply fmap_sublist, sublist_filter. }
  exists s', d'. split_and!; try done; [|by intros h Hh; apply Hu, Hres]. intros id c Hid. apply Hu. intros (e & He & Hz)%Hidle.
  pose proof (v_refs _ _ Hi (WinUdpConn.local c)) as Hr. rewrite He in Hr. cbn in Hr.
  assert (locals s !! id = Some (WinUdpConn.local c)) as Hl by (rewrite lookup_locals; eauto).
  pose proof (refs_pos _ _ _ Hl). lia.
Qed.

End Tables.

(** *** Runs of the server *)

Section Runs.
Context {R P : Type} {Rem : Remote R} {Pool : RemotePool P R}.
Context {Stk : Smoltcp} {Obs : Observed Stk} {K : SmoltcpOk Stk} {Pk : PacketReader}.
Context (OPTIONS : Opts) (spare : bytes → nat).

(** What the main loop does with the server and the device, and what else happens
    to the device: no other part removes a UDP socket.  A call is not to reach the
    end of the indices, after which tokens are used again. *)
Inductive step : t R * WinTun.t → t R * WinTun.t → Prop :=
  | step_local fuel now s pool d s' pool' d' :
      NEXT_INDEX s + Z.of_nat (fuel * length (Wakers.queue (WinTun.udp_wakers d))) < MAX_INDEX →
      do_local fuel now (s, pool, d) = Some (s', pool', d') → step (s, d) (s', d')
  | step_remote fuel now tk e s d s' d' :
      do_remote OPTIONS spare fuel now tk e s d = Some (s', d') → step (s, d) (s', d')
  | step_removed s d s' : remove_closed s = Some s' → step (s, d) (s', d)
  | step_timeout now s d s' d' : check_timeout now s d = Some (s', d') → step (s, d) (s', d')
  | step_device k args s d d' : WinTun.step k args d d' →
      (∀ h, is_Some (udps (WinTun.sockets d) !! h) → is_Some (udps (WinTun.sockets d') !! h)) →
      step (s, d) (s, d').

Lemma server_step_inv st st' : step st st' → inv st.1 st.2 → inv st'.1 st'.2.
Proof.
  destruct 1; cbn; intros Hi.
  - by eapply do_local_ok in Hi as [? _].
  - by eapply do_remote_ok in Hi as [? _].
  - destruct (remove_closed_ok spare s d Hi) as (? & ? & ? & _). by simplify_eq.
  - destruct (check_timeout_keeps now s d Hi) as (? & ? & ? & ? & _). by simplify_eq.
  - apply (inv_device s d); [done| |done]. by eapply WinTun.win_step_inv; [|apply Hi].
Qed.

(** The tables of the UDP server: every connection is reached by its token and by
    its source's address, and nothing else is; the count kept of a socket's
    connections is their number, so a connection's socket is in the device, no
    connection loses its socket to a timeout, and [remove_closed], which panics on
    a handle without count, always returns and takes exactly the connections it
    was asked to take. *)
Theorem tunnel_udp_tables_agree mtu now s d :
  rtc step (new MIN_INDEX, WinTun.new mtu sockets_empty now) (s, d) →
  (∀ id c, conns s !! id = Some c →
     token2conns s !! WinUdpConn.token c = Some id ∧ addr2conns s !! WinUdpConn.endpoint c = Some id
     ∧ is_Some (udps (WinTun.sockets d) !! WinUdpConn.local c))
  ∧ (∀ tk id, token2conns s !! tk = Some id → ∃ c, conns s !! id = Some c ∧ WinUdpConn.token c = tk)
  ∧ (∀ a id, addr2conns s !! a = Some id → ∃ c, conns s !! id = Some c ∧ WinUdpConn.endpoint c = a)
  ∧ (∀ h, default 0 (snd <$> handles s !! h) = Z.of_nat (refs (locals s) h))
  ∧ (∃ s', remove_closed s = Some s'
       ∧ conns s' = filter (λ e : nat * WinUdpConn.t R, WinUdpConn.token e.2 ∉ removed s) (conns s))
  ∧ (∀ now', ∃ s' d', check_timeout now' s d = Some (s', d') ∧ conns s' = conns s
       ∧ ∀ id c, conns s !! id = Some c →
           udps (WinTun.sockets d') !! WinUdpConn.local c = udps (WinTun.sockets d) !! WinUdpConn.local c).
Proof.
  intros Hr. assert (∀ st0 st, rtc step st0 st → inv st0.1 st0.2 → inv st.1 st.2) as Hrun.
  { induction 1; eauto using server_step_inv. }
  pose proof (Hrun _ _ Hr (server_new_inv _ (WinTun.win_new_inv mtu now))) as Hi. cbn [fst snd] in Hi.
  split_and!.
  - intros id c Hc. destruct (shared_lookup _ _ (v_tables _ _ Hi) _ _ Hc) as [? ?]. split_and!; [done..|].
    by eapply inv_local.
  - intros tk id. apply (sh_key1 _ _ _ _ _ _ (v_tables _ _ Hi)).
  - intros a id. apply (sh_key2 _ _ _ _ _ _ (v_tables _ _ Hi)).
  - apply (v_refs _ _ Hi).
  - destruct (remove_closed_ok spare s d Hi) as (s' & ? & _ & ?). eauto.
  - intros now'. destruct (check_timeout_keeps now' s d Hi) as (s' & d' & ? & _ & ? & ? & _). eauto 10.
Qed.

End Runs.

Section Shared.
Context {R P : Type} {Rem : Remote R} {Pool : RemotePool P R}.
Context {Stk : Smoltcp} {Obs : Observed Stk} {K : SmoltcpOk Stk} {Pk : PacketReader}.
Context (OPTIONS : Opts) (spare : bytes → nat).

(** What handling a connection's event does to the other sockets: nothing. *)
Lemma do_remote_frame fuel now tk e s d s' d' id (c : WinUdpConn.t R) h :
  WinTun.inv d → do_remote OPTIONS spare fuel now tk e s d = Some (s', d') → token2conns s !! tk = Some id →
  conns s !! id = Some c → h ≠ WinUdpConn.local c →
  udps (WinTun.sockets d') !! h = udps (WinTun.sockets d) !! h.
Proof.
  intros Hd Hr Ht Hc Hh. unfold do_remote in Hr. rewrite Ht in Hr.
  apply bind_Some in Hr as (c0 & Hc0 & Hr). rewrite Hc in Hc0. injection Hc0 as <-.
  apply bind_Some in Hr as ([sk d1] & Hg & Hr). apply bind_Some in Hr as ([c' sk'] & Hrem & Hr).
  apply (WinUdpConn.do_remote_same OPTIONS spare) in Hrem as [(_ & Hl & _) _].
  assert (∃ sk0, udps (WinTun.sockets d) !! WinUdpConn.local c = Some sk0) as [sk0 Hsk0].
  { unfold WinTun.get_udp_socket_mut in Hg. apply bind_Some in Hg as (x & Hx & _).
    apply get_udp_Some, lookup_udps in Hx. eauto. }
  destruct (WinTun.get_udp_socket_mut_spec d _ sk0 ModeNone (WinTun.i_udp_wakers _ Hd) ltac:(done) Hsk0)
    as (s1 & d2 & Hg2 & _ & Hu & _). rewrite Hg in Hg2. injection Hg2 as <- <-.
  destruct (WinTun.put_udp_spec d1 (WinUdpConn.local c) sk sk') as [Hp _]; [by rewrite Hu, lookup_insert_eq|].
  assert (d' = WinTun.put_udp d1 (WinUdpConn.local c) sk') as ->.
  { rewrite Hl in Hr. destruct (WinUdpConn.is_closed c'); by injection Hr. }
  by rewrite Hp, Hu, !lookup_insert_ne by congruence.
Qed.

(** A source has one connection, whatever the destinations of its datagrams: a
    datagram to another destination goes into the connection the first one made,
    and what the server answers is sent by the socket of the first destination,
    whose address the source then sees as the sender's. *)
Theorem answers_leave_through_first now h dst data src s pool s' pool' id (c : WinUdpConn.t R) :
  addr2conns s !! src = Some id → conns s !! id = Some c →
  do_datagram now h dst data src s pool = Some (s', pool') →
  addr2conns s' !! src = Some id
  ∧ ∃ c', conns s' !! id = Some c' ∧ WinUdpConn.local c' = WinUdpConn.local c
    ∧ ∀ fuel now' tk e d s2 d2, WinTun.inv d → token2conns s' !! tk = Some id →
        do_remote OPTIONS spare fuel now' tk e s' d = Some (s2, d2) →
        ∀ h', h' ≠ WinUdpConn.local c →
          udps (WinTun.sockets d2) !! h' = udps (WinTun.sockets d) !! h'.
Proof.
  intros Ha Hc. unfold do_datagram, conn_for. cbn [addr2conns with_buffer]. rewrite Ha.
  cbn [mbind option_bind]. intros (c0 & Hc0 & H)%bind_Some. cbn [conns with_buffer] in Hc0.
  rewrite Hc in Hc0. injection Hc0 as <-. apply bind_Some in H as (c' & Hl & H).
  apply WinUdpConn.do_local_same in Hl as (_ & Hl & _).
  assert (addr2conns s' = addr2conns s ∧ conns s' = <[id := c']> (conns s)) as [Ha' Hc'].
  { destruct (WinUdpConn.is_closed c'); injection H as <- _; cbn; by destruct (token2conns s !! _). }
  rewrite Ha', Hc', lookup_insert_eq. split; [done|]. exists c'. split_and!; try done.
  intros fuel now' tk e d s2 d2 Hd Ht Hr h' Hh'.
  eapply do_remote_frame; [done|exact Hr|exact Ht|by rewrite Hc', lookup_insert_eq|congruence].
Qed.

(** A datagram of a new source panics when no connection can be made. *)
Lemma no_connection_panics now h dst data src (s : t R) pool pool' :
  addr2conns s !! src = None → pool_get pool = (None, pool') →
  do_datagram now h dst data src s pool = None.
Proof.
  intros Ha Hp. unfold do_datagram, conn_for. cbn [addr2conns with_buffer]. by rewrite Ha, Hp.
Qed.
End Shared.

End WinUdpServer.

(** ** Examples *)

Module WinUdpWitness.
#[local] Existing Instance Sim.env.
#[local] Existing Instance Sim.env_ok.
#[local] Existing Instance sim_rw.
#[local] Existing Instance SimStack.smoltcp.
#[local] Existing Instance SimStack.observed.
#[local] Existing Instance SimStack.smoltcp_ok.
#[local] Existing Instance Witness.from_bytes.
#[local] Instance rem : Remote (TlsConn Sim.env) := tls_remote 100.
#[local] Instance law : LawfulRemote (TlsConn Sim.env) := tls_lawful (Rw := sim_rw) 100.
#[local] Instance idle : RemotePool (IdlePool.t Sim.env * OS * DnsResolver) (TlsConn Sim.env) := idle_pool 100.

Definition spare (b : bytes) : nat := 1500.
Definition source : SocketAddr := mkSocketAddr (V4 [10; 0; 0; 2]) 4096.
Definition other : SocketAddr := mkSocketAddr (V4 [1; 2; 3; 5]) 53.

(** A connection on which the server's answers arrive in the given pieces and the
    writer has room for [room] bytes. *)
Definition conn (pieces : list bytes) (room : nat) : WinUdpConn.t (TlsConn Sim.env) :=
  WinUdpConn.mk 7 0 (mkTlsConn (E := Sim.env) (Sim.mkSession [] [] pieces [] room []) Sim.idle_stream 2 7
    Status.Established true) false [] [] source true 0.

(** *** A request of which five bytes of six are taken: the body is repeated *)

Example body_repeated :
  (λ c, (Sim.ss_plain_out (session (WinUdpConn.remote c)), WinUdpConn.rbuffer c))
    <$> WinUdpConn.do_local 0 (conn [] 5) [1; 2; 3] [4; 5; 6]
  = Some ([1; 2; 3; 4; 5], [6; 4; 5; 6]).
Proof. by vm_compute. Qed.

Lemma request_is_cached_witness :
  ∃ c' n, WinUdpConn.do_local 0 (conn [] 5) [1; 2; 3] [4; 5; 6] = Some c' ∧ (n <= 6)%nat
    ∧ rw_accepted (LawfulReadWrite := lawful_rw) (WinUdpConn.remote c') = [] ++ take n [1; 2; 3; 4; 5; 6]
    ∧ (WinUdpConn.rclosed c' = false →
        WinUdpConn.rbuffer c' =
          if (n =? 6)%nat then []
          else if (n =? 0)%nat then [1; 2; 3]
          else if (3 <=? n)%nat && (6 - n <? 3)%nat
          then drop n [1; 2; 3; 4; 5; 6] ++ [4; 5; 6]
          else drop n [1; 2; 3; 4; 5; 6]).
Proof.
  refine (WinUdpConn.request_is_cached (Law := law) 0 (conn [] 5) [1; 2; 3] [4; 5; 6] eq_refl eq_refl eq_refl _ _);
    [done|by vm_compute].
Defined.

(** *** Two answers in three pieces *)

Definition answers : list (SocketAddr * bytes) := [(other, [9; 9]); (other, [8])].
Definition stream : bytes := encode WinUdpConn.frame answers.
Definition socket : Smoltcp.UdpSocket := SimStack.mkUdp (Some (V4 [1; 2; 3; 4]), 80) [] [] [].
Definition served : WinUdpConn.t (TlsConn Sim.env) := conn [take 5 stream; take 12 (drop 5 stream); drop 17 stream] 0.

(** What the connection is after all pieces, whatever fuel is left. *)
Definition after : WinUdpConn.t (TlsConn Sim.env) * Smoltcp.UdpSocket :=
  default (served, socket) (WinUdpConn.remote_to_local spare 5 served socket).

Lemma after_run f : WinUdpConn.remote_to_local spare (5 + f) served socket = Some after.
Proof.
  apply WinUdpConn.remote_to_local_more.
  assert (is_Some (WinUdpConn.remote_to_local spare 5 served socket)) as [x Hx]
    by (apply (bool_decide_unpack _); vm_compute; exact I).
  unfold after. by rewrite Hx.
Qed.

Lemma answers_delivered_witness :
  after.2 = WinUdpConn.send_each source socket [[9; 9]; [8]] ∧ WinUdpConn.lbuffer after.1 = [].
Proof.
  destruct (WinUdpConn.answers_delivered (Law := law) spare served socket) as (n & res & H & Hrun).
  specialize (Hrun (5 + n)%nat ltac:(lia)). rewrite after_run in Hrun. subst res.
  destruct after as [c' s'] eqn:Ha. destruct H as (d & Hd & H).
  assert (d = stream) as ->.
  { apply (f_equal fst) in Ha. cbn [fst] in Ha. subst c'. vm_compute in Hd. by rewrite <-Hd. }
  destruct (H answers []) as (xs1 & xs2 & Hxs & Hs & Hl & _).
  - by left.
  - apply (bool_decide_unpack _). by vm_compute.
  - by rewrite app_nil_r.
  - rewrite app_nil_r in Hl.
    assert (WinUdpConn.lbuffer c' = []) as Hc.
    { apply (f_equal fst) in Ha. cbn [fst] in Ha. subst c'. by vm_compute. }
    rewrite Hc in Hl. destruct xs2 as [|x xs2]; [|by destruct x as [[[]] ?]].
    rewrite app_nil_r in Hxs. subst xs1. by split.
Defined.

(** *** A first and a second datagram of one source *)

Definition pool : IdlePool.t Sim.env * OS * DnsResolver :=
  (IdlePool.init_index (IdlePool.mk [] 0 2 source [65] 443 0 0 0 0) 3 0 2 1000,
   Sim.mkSystem [Sim.idle_stream; Sim.idle_stream; Sim.idle_stream] [], dns_resolver_new 3 None).
Definition empty : WinUdpServer.t (TlsConn Sim.env) := WinUdpServer.new MIN_INDEX.

(** The device made the socket of the first destination, and the stack gave it a
    datagram and woke its waker. *)
Definition device1 : WinTun.t := WinTun.Witness.device1.
Definition fed : Smoltcp.SocketSet :=
  sockets_put (WinTun.sockets device1) 0 (Udp (SimStack.mkUdp (Some (V4 [1; 2; 3; 4]), 80) [] [([7], source)] [])).
Definition device2 : WinTun.t :=
  WinTun.with_udp_wakers (WinTun.with_tcp_wakers (WinTun.with_sockets device1 fed)
    (Wakers.mk (Wakers.wakers (WinTun.tcp_wakers device1)) []))
    (Wakers.mk (Wakers.wakers (WinTun.udp_wakers device1)) [(0%nat, 1)]).
Definition first : WinUdpServer.t (TlsConn Sim.env) * (IdlePool.t Sim.env * OS * DnsResolver) * WinTun.t :=
  default (empty, pool, device2) (WinUdpServer.do_local 5 0 (empty, pool, device2)).

Lemma first_run : WinUdpServer.do_local 5 0 (empty, pool, device2) = Some first.
Proof.
  assert (is_Some (WinUdpServer.do_local 5 0 (empty, pool, device2))) as [x Hx]
    by (apply (bool_decide_unpack _); vm_compute; exact I).
  unfold first. by rewrite Hx.
Qed.

Lemma fed_evolves : evolves (WinTun.sockets device1) fed.
Proof.
  eapply evolves_put; [by vm_compute|]. split_and!; try done. by apply prefix_nil.
Qed.

Lemma first_reachable :
  rtc (WinUdpServer.step IdlePoolWitness.opts spare (Pool := idle))
    (empty, WinTun.new 1500 sockets_empty 0) (first.1.1, first.2).
Proof.
  eapply rtc_l; [|eapply rtc_l; [|apply rtc_once]].
  - eapply (WinUdpServer.step_device _ _ WinTun.Witness.class WinTun.Witness.args _ _ device1).
    + eapply (WinTun.step_receive _ _ _ WinTun.Witness.query); [|by vm_compute].
      apply (bool_decide_unpack _). by vm_compute.
    + intros h [s Hs]. by vm_compute in Hs.
  - eapply (WinUdpServer.step_device _ _ WinTun.Witness.class WinTun.Witness.args _ _ device2).
    + apply (WinTun.step_stack _ _ _ fed), fed_evolves.
    + intros h [s Hs]. destruct (evolves_udp _ _ _ _ fed_evolves Hs) as (s' & Hs' & _). by exists s'.
  - apply (WinUdpServer.step_local _ _ 5 0 empty pool device2 first.1.1 first.1.2 first.2); [by vm_compute|].
    by rewrite first_run, <-!surjective_pairing.
Qed.

Lemma tunnel_udp_tables_agree_witness :
  ∃ c, WinUdpServer.conns first.1.1 !! 0%nat = Some c
    ∧ WinUdpServer.token2conns first.1.1 !! WinUdpConn.token c = Some 0%nat
    ∧ WinUdpServer.addr2conns first.1.1 !! WinUdpConn.endpoint c = Some 0%nat
    ∧ is_Some (udps (WinTun.sockets first.2) !! WinUdpConn.local c).
Proof.
  assert (is_Some (WinUdpServer.conns first.1.1 !! 0%nat)) as [c Hc]
    by (apply (bool_decide_unpack _); vm_compute; exact I).
  exists c. split; [exact Hc|].
  exact (proj1 (WinUdpServer.tunnel_udp_tables_agree _ _ 1500 0 _ _ first_reachable) 0%nat c Hc).
Defined.

(** A second datagram of the source, by another socket. *)
Lemma answers_leave_through_first_witness :
  ∃ s' pool', WinUdpServer.do_datagram 0 3 (sa_ip other, sa_port other) [1] source first.1.1 first.1.2 = Some (s', pool')
    ∧ WinUdpServer.addr2conns s' !! source = Some 0%nat
    ∧ ∃ c', WinUdpServer.conns s' !! 0%nat = Some c' ∧ WinUdpConn.local c' = 0%nat.
Proof.
  assert (is_Some (WinUdpServer.conns first.1.1 !! 0%nat)) as [c Hc]
    by (apply (bool_decide_unpack _); vm_compute; exact I).
  assert (is_Some (WinUdpServer.do_datagram 0 3 (sa_ip other, sa_port other) [1] source first.1.1 first.1.2))
    as [[s' pool'] Hd] by (apply (bool_decide_unpack _); vm_compute; exact I).
  exists s', pool'. split; [done|].
  destruct (WinUdpServer.answers_leave_through_first IdlePoolWitness.opts spare 0 3 (sa_ip other, sa_port other) [1] source
    first.1.1 first.1.2 s' pool' 0 c) as (Ha & c' & Hc' & Hl & _); [by vm_compute|exact Hc|exact Hd|].
  split; [exact Ha|]. exists c'. split; [exact Hc'|]. rewrite Hl.
  assert (WinUdpConn.local <$> WinUdpServer.conns first.1.1 !! 0%nat = Some 0%nat) as Hz by by vm_compute.
  rewrite Hc in Hz. by injection Hz.
Defined.

End WinUdpWitness.
