(* ===== verification/WinTcp.v ===== *)
(** * The tunnel's TCP connections ([src/src/wintun/tcp.rs])

    A TCP socket the tunnel accepted gets a TLS connection to the server, over
    which the two streams are copied.  [WinTcpConn] is [Connection], over the
    tunnel's device and any [Remote]; [WinTcpServer] is [TcpServer], its tables
    over any [RemotePool].  [None] is a panic or exhausted fuel; the clock is an
    argument. *)

From Stdlib Require Import ZArith Lia.
From stdpp Require Import base option list gmap fin_maps relations.
From S2P Require Import Prelude.
From S2P Require Import Net.
From S2P Require Import Config.
From S2P Require Import Proto.
From S2P Require Import Env.
From S2P Require Import Status.
From S2P Require Import TlsConn.
From S2P Require Import TcpUtil.
From S2P Require Import Resolver.
From S2P Require Import IdlePool.
From S2P Require Import TlsStream.
From S2P Require Import Smoltcp.
From S2P Require Import ArcTables.
From S2P Require Import TunPool.
From S2P Require Import WinTun.

Open Scope Z_scope.

(** ** A socket of the stack as a stream ([TcpStreamRef]) *)

(** When a socket that has nothing to read may still get something; the mobile
    tunnel's copy of this file decides it by another test. *)
Class ReadLive {Stk : Smoltcp} : Type := still_open : TcpSocket → bool.

#[export] Instance windows_live {Stk : Smoltcp} : ReadLive :=
  λ socket, bool_decide (tcp_state socket = Smoltcp.Established).

Section StreamRef.
Context {Stk : Smoltcp} {L : ReadLive}.

Definition stream_ref_read (socket : TcpSocket) (len : nat) : io_result bytes * TcpSocket :=
  if may_recv socket then
    match tcp_recv_slice socket len with
    | (Some [], socket) => (IoErr WouldBlock, socket)
    | (Some data, socket) => (IoOk data, socket)
    | (None, socket) => (IoErr OtherKind, socket)
    end
  else if still_open socket then (IoErr WouldBlock, socket)
  else (IoErr OtherKind, socket).

Definition stream_ref_write (socket : TcpSocket) (buf : bytes) : io_result nat * TcpSocket :=
  if may_send socket then
    match tcp_send_slice socket buf with
    | (Some O, socket) => (IoErr WouldBlock, socket)
    | (Some n, socket) => (IoOk n, socket)
    | (None, socket) => (IoErr OtherKind, socket)
    end
  else if is_active socket then (IoErr WouldBlock, socket)
  else (IoErr OtherKind, socket).

#[export] Instance stream_ref : ReadWrite TcpSocket := {
  rw_read := stream_ref_read;
  rw_write := stream_ref_write
}.

(** It keeps the contract of a stream: what was read is the front of what the
    socket received, what was written is what it accepted. *)
#[export] Program Instance stream_ref_lawful {Obs : Observed Stk} {K : SmoltcpOk Stk} :
  LawfulReadWrite TcpSocket := {
  rw_taken s := take (tcp_read s) (tcp_rx s);
  rw_accepted := tcp_tx;
  rw_left s := (length (tcp_rx s) - tcp_read s)%nat
}.
Next Obligation.
  intros Obs K s n d s'. cbn. unfold stream_ref_read. destruct (may_recv s); [|by destruct (still_open _)].
  destruct (tcp_recv_slice s n) as [[[|x e]|] s1] eqn:Hr; try done. intros [= <- ->].
  apply tcp_recv_spec in Hr as (Hrx & _ & _ & Hd & Hrd). pose proof (tcp_read_le s') as Hle.
  rewrite Hrx, Hrd in *. split.
  - rewrite <-take_take_drop. f_equal. rewrite Hd, length_take. by rewrite take_min.
  - cbn in *. lia.
Qed.
Next Obligation.
  intros Obs K s n k s'. cbn. unfold stream_ref_read.
  destruct (may_recv s); [|by destruct (still_open _); intros [= _ <-]].
  destruct (tcp_recv_slice s n) as [[[|x e]|] s1] eqn:Hr; try done; intros [= _ <-];
    apply tcp_recv_spec in Hr as (Hrx & _ & _ & Hr); rewrite Hrx.
  - destruct Hr as [_ Hr]. by rewrite Hr, Nat.add_0_r.
  - by rewrite Hr.
Qed.
Next Obligation.
  intros Obs K s d n s'. cbn. unfold stream_ref_write. destruct (may_send s); [|by destruct (is_active s)].
  destruct (tcp_send_slice s d) as [[[|m]|] s1] eqn:Hr; try done. intros [= <- <-].
  by apply tcp_send_spec in Hr as (_ & _ & _ & ?).
Qed.
Next Obligation.
  intros Obs K s d k s'. cbn. unfold stream_ref_write.
  destruct (may_send s); [|by destruct (is_active s); intros [= _ <-]].
  destruct (tcp_send_slice s d) as [[[|m]|] s1] eqn:Hr; try done; intros [= _ <-];
    apply tcp_send_spec in Hr as (_ & _ & _ & Hr); [|done].
  destruct Hr as [_ ->]. by rewrite app_nil_r.
Qed.
#[export] Instance stream_ref_duplex {Obs : Observed Stk} {K : SmoltcpOk Stk} : Duplex TcpSocket.
Proof.
  split.
  - intros s n r s'. cbn. unfold stream_ref_read.
    destruct (may_recv s); [|by destruct (still_open _); intros [= _ <-]].
    destruct (tcp_recv_slice s n) as [r1 s1] eqn:Hr. apply tcp_recv_spec in Hr as (_ & Ht & _).
    destruct r1 as [[|x e]|]; by intros [= _ <-].
  - intros s d r s'. cbn. unfold stream_ref_write.
    destruct (may_send s); [|by destruct (is_active s); intros [= _ <-]].
    destruct (tcp_send_slice s d) as [r1 s1] eqn:Hr. apply tcp_send_spec in Hr as (Hx & Hd & _).
    destruct r1 as [[|n]|]; intros [= _ <-]; by rewrite Hx, Hd.
Qed.
End StreamRef.

(** ** One connection *)

Module WinTcpConn.

Section Connection.
Context {R : Type} {Rem : Remote R} {Stk : Smoltcp} {L : ReadLive} (OPTIONS : Opts) (spare : bytes → nat).
#[local] Existing Instance remote_rw.

Record t : Type := mk {
  token : Z;
  local : nat;
  remote : R;
  lbuffer : bytes;
  rbuffer : bytes;
  lclosed : bool;
  rclosed : bool;
  established : bool;
  last_active : Z
}.

Definition new (token : Z) (local : nat) (remote : R) (now : Z) : t :=
  mk token local remote [] [] false false false now.

Definition with_remote (c : t) (r : R) : t :=
  mk (token c) (local c) r (lbuffer c) (rbuffer c) (lclosed c) (rclosed c) (established c) (last_active c).
Definition with_lbuffer (c : t) (b : bytes) : t :=
  mk (token c) (local c) (remote c) b (rbuffer c) (lclosed c) (rclosed c) (established c) (last_active c).
Definition with_rbuffer (c : t) (b : bytes) : t :=
  mk (token c) (local c) (remote c) (lbuffer c) b (lclosed c) (rclosed c) (established c) (last_active c).
Definition with_lclosed (c : t) (b : bool) : t :=
  mk (token c) (local c) (remote c) (lbuffer c) (rbuffer c) b (rclosed c) (established c) (last_active c).
Definition with_rclosed (c : t) (b : bool) : t :=
  mk (token c) (local c) (remote c) (lbuffer c) (rbuffer c) (lclosed c) b (established c) (last_active c).
Definition with_established (c : t) (b : bool) : t :=
  mk (token c) (local c) (remote c) (lbuffer c) (rbuffer c) (lclosed c) (rclosed c) b (last_active c).
Definition with_last_active (c : t) (x : Z) : t :=
  mk (token c) (local c) (remote c) (lbuffer c) (rbuffer c) (lclosed c) (rclosed c) (established c) x.

(** The handlers change the connection and the device. *)
Abbreviation State := (t * WinTun.t)%type.

Definition close_stream (is_local : bool) (st : State) : option State :=
  let '(c, device) := st in
  if is_local && negb (lclosed c) then
    '(socket, device) ← WinTun.get_tcp_socket_mut device (local c) ModeDummy;
    Some (with_lclosed c true, WinTun.put_tcp device (local c) (tcp_close socket))
  else if negb is_local && negb (rclosed c) then
    Some (with_rclosed (with_remote c (remote_close (remote c))) true, device)
  else Some (c, device).

Definition close (st : State) : option State :=
  st ← close_stream true st; close_stream false st.

Definition reregister_local (st : State) : option State :=
  let '(c, device) := st in
  if lclosed c then Some (c, device)
  else
    let mode :=
      match negb (bool_decide (lbuffer c = [])), bool_decide (rbuffer c = []) && negb (rclosed c) with
      | true, true => ModeBoth
      | true, false => ModeSend
      | false, true => ModeRecv
      | false, false => ModeNone
      end in
    '(_, device) ← WinTun.get_tcp_socket_mut device (local c) mode;
    Some (c, device).

Definition flush_remote (st : State) : option State :=
  let '(c, device) := st in
  let '(r, remote) := remote_flush (remote c) in
  let c := with_remote c remote in
  match r with
  | IoErr WouldBlock => Some (c, device)
  | IoErr _ => close_stream false (c, device)
  | IoOk _ => Some (c, device)
  end.

(** What a copy ended with, for the side that is read. *)
Definition after_copy (reader_is_local : bool) (r : copy_result CopyResult) (st : State) : option State :=
  match r with
  | COk _ => Some st
  | CErr (RxBreak _) => close_stream reader_is_local st
  | CErr (TxBreak _) => close_stream (negb reader_is_local) st
  end.

Definition local_to_remote (fuel : nat) (st : State) : option State :=
  let '(c, device) := st in
  '(socket, device) ← WinTun.get_tcp_socket_mut device (local c) ModeNone;
  if negb (established c) then
    if negb (is_active socket) then close_stream true (c, device) else Some (c, device)
  else
    '(r, socket, remote, buffer) ← copy_stream spare fuel socket (remote c) (rbuffer c);
    let c := with_rbuffer (with_remote c remote) buffer in
    '(c, device) ← after_copy true r (c, WinTun.put_tcp device (local c) socket);
    if negb (rclosed c) then flush_remote (c, device) else Some (c, device).

Definition remote_to_local (fuel : nat) (st : State) : option State :=
  let '(c, device) := st in
  '(socket, device) ← WinTun.get_tcp_socket_mut device (local c) ModeNone;
  '(ret, remote, socket, buffer) ← copy_stream spare fuel (remote c) socket (lbuffer c);
  let send_size := send_queue socket in
  let c := with_lbuffer (with_remote c remote) buffer in
  '(c, device) ← after_copy false ret (c, WinTun.put_tcp device (local c) socket);
  if rclosed c && negb (lclosed c) && bool_decide (lbuffer c = []) && (send_size =? 0)%nat
  then close_stream true (c, device) else Some (c, device).

Definition check_half_close (st : State) : option State :=
  let '(c, _) := st in
  st ← (if lclosed c && negb (rclosed c) && bool_decide (rbuffer c = [])
        then close_stream false st else Some st);
  let '(c, _) := st in
  if rclosed c && negb (lclosed c) && bool_decide (lbuffer c = [])
  then close_stream true st else Some st.

Definition do_local (fuel : nat) (now : Z) (event : Wakers.Event) (st : State) : option State :=
  let st := (with_last_active st.1 now, st.2) in
  st ← (if Wakers.is_readable event then local_to_remote fuel st else Some st);
  st ← (if Wakers.is_writable event then remote_to_local fuel st else Some st);
  st ← check_half_close st;
  reregister_local st.

(** The request of a connection that has none; [false] is an early return. *)
Definition establish (st : State) : option (bool * State) :=
  let '(c, device) := st in
  if established c then Some (true, (c, device))
  else if lclosed c then st ← close_stream false (c, device); Some (false, st)
  else
    '(socket, device) ← WinTun.get_tcp_socket_mut device (local c) ModeNone;
    match local_endpoint socket with
    | Some endpoint =>
        let request := TrojanRequest.generate_endpoint OPTIONS CONNECT endpoint in
        let '(r, remote) := rw_write (remote c) request in
        let c := with_remote c remote in
        if io_is_ok r then Some (true, (with_established c true, device))
        else st ← close (c, device); Some (false, st)
    | None => st ← close (c, device); Some (false, st)
    end.

Definition do_remote (fuel : nat) (now : Z) (event : Event) (st : State) : option State :=
  let st := (with_last_active st.1 now, st.2) in
  '(ok, st) ← (if is_writable event then
                 '(ok, st) ← establish st;
                 if ok : bool then st ← local_to_remote fuel st; Some (true, st) else Some (false, st)
               else Some (true, st));
  if negb ok then Some st
  else
    st ← (if is_readable event then st ← remote_to_local fuel st; flush_remote st else Some st);
    st ← check_half_close st;
    reregister_local st.

(** [None] also when the socket is not there. *)
Definition is_closed (st : State) : option bool :=
  let '(c, device) := st in
  '(socket, _) ← WinTun.get_tcp_socket_mut device (local c) ModeNone;
  Some (rclosed c && bool_decide (tcp_state socket = Closed)).

Definition abort_local (st : State) : option State :=
  let '(c, device) := st in
  '(socket, device) ← WinTun.get_tcp_socket_mut device (local c) ModeNone;
  Some (c, WinTun.put_tcp device (local c) (tcp_abort socket)).

(** *** The end of the client's stream *)

Lemma copy_stream_ended fuel (socket : TcpSocket) (remote : R) :
  may_recv socket = false →
  copy_stream spare (S fuel) socket remote [] =
    Some (if still_open socket then COk RxBlock else CErr (RxBreak (Some OtherKind)), socket, remote, []).
Proof.
  intros Hm. cbn [copy_stream]. unfold send_all. rewrite decide_True by done. cbn [mbind option_bind].
  unfold read_once. cbn [rw_read stream_ref]. unfold stream_ref_read. rewrite Hm. by destruct (still_open socket).
Qed.

Lemma close_stream_lclosed is_local c d c' d' :
  close_stream is_local (c, d) = Some (c', d') → lclosed c' = lclosed c || is_local.
Proof.
  unfold close_stream. destruct is_local, (lclosed c) eqn:Hl; cbn [negb andb orb].
  - by intros [= <- _].
  - by intros ([s d1] & _ & [= <- _])%bind_Some.
  - destruct (negb (rclosed c)); by intros [= <- _].
  - destruct (negb (rclosed c)); by intros [= <- _].
Qed.

(** A connection whose client has nothing more to say closes that side exactly if
    the socket counts as ended. *)
Lemma local_to_remote_ended fuel c d socket c' d' :
  get_tcp (WinTun.sockets d) (local c) = Some socket → established c = true → rbuffer c = [] → may_recv socket = false →
  local_to_remote (S fuel) (c, d) = Some (c', d') → lclosed c' = lclosed c || negb (still_open socket).
Proof.
  intros Hs He Hb Hm. unfold local_to_remote, WinTun.get_tcp_socket_mut. rewrite Hs. cbn [mbind option_bind].
  rewrite He, Hb. cbn [negb]. rewrite copy_stream_ended by done. cbn [mbind option_bind].
  set (c1 := with_rbuffer _ _). intros ([c2 d2] & Ha & Hf)%bind_Some.
  assert (lclosed c2 = lclosed c || negb (still_open socket)) as <-.
  { destruct (still_open socket); cbn [after_copy] in Ha; [injection Ha as <- _; by rewrite orb_false_r|].
    by apply close_stream_lclosed in Ha. }
  destruct (negb (rclosed c2)); [|by injection Hf as <- _]. unfold flush_remote in Hf.
  destruct (remote_flush (remote c2)) as [[u|[]] r]; try (by injection Hf as <- _);
    apply close_stream_lclosed in Hf; by rewrite Hf, orb_false_r.
Qed.

(** *** Fuel *)

Section Steady.

Lemma copy_stream_steady {A B} `{ReadWrite A} `{ReadWrite B} (from : A) (to : B) buffer :
  steady (λ fuel, copy_stream spare fuel from to buffer).
Proof.
  intros fuel n x. revert from to buffer. induction fuel as [|fuel IH]; intros from to buffer; [done|].
  cbn [copy_stream Nat.add]. destruct (send_all to buffer) as [[[r to1] b1]|]; [|done]. cbn [mbind option_bind].
  destruct r as [[]|e]; [|done..]. destruct (read_once _ _ _) as [[[[]|e] from1] b2]; [apply IH|done..].
Qed.

Lemma local_to_remote_steady st : steady (λ fuel, local_to_remote fuel st).
Proof.
  unfold local_to_remote. destruct st as [c d]. destruct (WinTun.get_tcp_socket_mut _ _ _) as [[s d1]|];
    cbn [mbind option_bind]; [|apply steady_ret]. destruct (negb _); [apply steady_ret|].
  apply steady_bind; [apply copy_stream_steady|]. intros [[[r s'] rm] b]. apply steady_ret.
Qed.

Lemma remote_to_local_steady st : steady (λ fuel, remote_to_local fuel st).
Proof.
  unfold remote_to_local. destruct st as [c d]. destruct (WinTun.get_tcp_socket_mut _ _ _) as [[s d1]|];
    cbn [mbind option_bind]; [|apply steady_ret].
  apply steady_bind; [apply copy_stream_steady|]. intros [[[r s'] rm] b]. apply steady_ret.
Qed.

Lemma do_local_steady now ev st : steady (λ fuel, do_local fuel now ev st).
Proof.
  unfold do_local. apply steady_bind.
  { destruct (Wakers.is_readable ev); [apply local_to_remote_steady|apply steady_ret]. }
  intros st1. apply steady_bind.
  { destruct (Wakers.is_writable ev); [apply remote_to_local_steady|apply steady_ret]. }
  intros st2. apply steady_ret.
Qed.

Lemma do_remote_steady now ev st : steady (λ fuel, do_remote fuel now ev st).
Proof.
  unfold do_remote. apply steady_bind.
  { destruct (is_writable ev); [|apply steady_ret].
    destruct (establish _) as [[ok st1]|]; cbn [mbind option_bind]; [|apply steady_ret].
    destruct ok; [|apply steady_ret]. apply steady_bind; [apply local_to_remote_steady|].
    intros st2. apply steady_ret. }
  intros [ok st1]. destruct (negb ok); [apply steady_ret|]. apply steady_bind.
  { destruct (is_readable ev); [|apply steady_ret].
    apply steady_bind; [apply remote_to_local_steady|]. intros st2. apply steady_ret. }
  intros st2. apply steady_ret.
Qed.
End Steady.

(** ** What the handlers leave alone *)

Section Laws.
Context {Law : LawfulRemote R} {Obs : Observed Stk} {K : SmoltcpOk Stk}.
#[local] Existing Instance lawful_rw.
#[local] Existing Instance lawful_duplex.

(** A change of the device that concerns one TCP socket. *)
Record touches (h : nat) (d d' : WinTun.t) : Prop := {
  t_udps : udps (WinTun.sockets d') = udps (WinTun.sockets d);
  t_set : WinTun.udp_set d' = WinTun.udp_set d;
  t_udp_wakers : WinTun.udp_wakers d' = WinTun.udp_wakers d;
  t_tcp_wakers : Wakers.ok (WinTun.tcp_wakers d) → Wakers.ok (WinTun.tcp_wakers d');
  t_others h' : h' ≠ h → tcps (WinTun.sockets d') !! h' = tcps (WinTun.sockets d) !! h';
  t_live : is_Some (tcps (WinTun.sockets d) !! h) → is_Some (tcps (WinTun.sockets d') !! h)
}.

#[export] Instance touches_preorder h : PreOrder (touches h).
Proof.
  split; [by intros d; split|]. intros d1 d2 d3 [] []. split; [congruence..|auto| |auto].
  intros h' Hh. rewrite t_others1 by done. auto.
Qed.

(** A later state of the same connection. *)
Record follows (st st' : State) : Prop := {
  f_token : token st'.1 = token st.1;
  f_local : local st'.1 = local st.1;
  f_device : touches (local st.1) st.2 st'.2;
  f_lclosed : lclosed st.1 = true → lclosed st'.1 = true;
  f_rclosed : rclosed st.1 = true → rclosed st'.1 = true
}.

#[export] Instance follows_preorder : PreOrder follows.
Proof.
  split; [by intros st; split|]. intros st1 st2 st3 [] []. split; [congruence..| |auto|auto].
  rewrite f_local0 in *. by etrans.
Qed.

(** The connection's socket is in the device. *)
Definition socket_of (st : State) (s : TcpSocket) : Prop :=
  Wakers.ok (WinTun.tcp_wakers st.2) ∧ tcps (WinTun.sockets st.2) !! local st.1 = Some s.

Lemma get_socket c d s m :
  socket_of (c, d) s →
  ∃ s' d', WinTun.get_tcp_socket_mut d (local c) m = Some (s', d') ∧ tcp_keeps s s'
    ∧ socket_of (c, d') s' ∧ follows (c, d) (c, d').
Proof.
  intros [Hw Hs]. destruct (WinTun.get_tcp_socket_mut_spec d (local c) s m Hw Hs)
    as (s' & d' & Hg & Hk & Ht & Hu & Hw' & Huw & Hset).
  exists s', d'. split_and!; [done..|split; [done|]|].
  - cbn. by rewrite Ht, lookup_insert_eq.
  - split; [done..| |done|done]. split; cbn; try done.
    + intros h' Hh. by rewrite Ht, lookup_insert_ne.
    + intros _. rewrite Ht, lookup_insert_eq. by eexists.
Qed.

(** Without registering, the socket is returned as it is. *)
Lemma get_socket_none c d s :
  socket_of (c, d) s → WinTun.get_tcp_socket_mut d (local c) ModeNone = Some (s, d).
Proof.
  intros [Hw Hs]. unfold WinTun.get_tcp_socket_mut.
  by rewrite (proj2 (get_tcp_Some (WinTun.sockets d) (local c) s) (proj1 (lookup_tcps _ _ _) Hs)).
Qed.

Lemma put_socket c d s s' :
  socket_of (c, d) s →
  socket_of (c, WinTun.put_tcp d (local c) s') s' ∧ follows (c, d) (c, WinTun.put_tcp d (local c) s').
Proof.
  intros [Hw Hs]. destruct (WinTun.put_tcp_spec d (local c) s s' Hs) as [Ht Hu]. split; [split|].
  - done.
  - cbn [fst snd]. by rewrite Ht, lookup_insert_eq.
  - split; [done..| |done|done]. split; cbn [fst snd]; try done.
    + intros h' Hh. by rewrite Ht, lookup_insert_ne.
    + intros _. rewrite Ht, lookup_insert_eq. by eexists.
Qed.

(** ** The two streams *)

Section Streams.
(** What the connection to the server had been sent and had handed out, and what
    the socket had accepted, when the connection was made. *)
Context (a0 t0 x0 : bytes).

(** To the server: the request, then what the client sent; what was not taken yet
    is kept. *)
Definition up (c : t) (s : TcpSocket) : Prop :=
  if established c then
    rclosed c = false → ∃ e n, rw_accepted (remote c) ++ rbuffer c
      = a0 ++ take n (TrojanRequest.generate_endpoint OPTIONS CONNECT e) ++ rw_taken s
  else rbuffer c = [] ∧ rw_taken s = [] ∧ (rclosed c = false → rw_accepted (remote c) = a0).

(** To the client: what the server sent. *)
Definition down (c : t) (s : TcpSocket) : Prop :=
  lclosed c = false → ∃ h, rw_taken (remote c) = t0 ++ h ∧ rw_accepted s ++ lbuffer c = x0 ++ h.

Definition good (st : State) : Prop := ∃ s, socket_of st s ∧ up st.1 s ∧ down st.1 s.

Lemma keeps_streams c s s' : tcp_keeps s s' → (up c s → up c s') ∧ (down c s → down c s').
Proof.
  intros (Hr & Hd & Ht & _). unfold up, down. cbn. by rewrite Hr, Hd, Ht.
Qed.

(** Ending a side keeps the other side's stream. *)
Lemma close_local_good st s :
  socket_of st s → up st.1 s →
  ∃ st', close_stream true st = Some st' ∧ good st' ∧ follows st st' ∧ lclosed st'.1 = true
    ∧ rclosed st'.1 = rclosed st.1 ∧ rbuffer st'.1 = rbuffer st.1 ∧ established st'.1 = established st.1.
Proof.
  destruct st as [c d]. intros Hs Hu. cbn in Hu. unfold close_stream. cbn [andb].
  destruct (lclosed c) eqn:Hl; cbn [negb andb].
  - exists (c, d). split_and!; try done. exists s. split_and!; try done. by intros ?; cbn in *; congruence.
  - destruct (get_socket c d s ModeDummy Hs) as (s1 & d1 & -> & Hk & Hs1 & Hf1). cbn [mbind option_bind].
    destruct (put_socket c d1 s1 (tcp_close s1) Hs1) as [Hs2 Hf2]. eexists. split; [reflexivity|].
    split_and!; try done.
    + exists (tcp_close s1). split_and!; [exact Hs2| |by intros ?].
      destruct (keeps_streams c _ _ Hk) as [H1 _]. destruct (keeps_streams c _ _ (tcp_close_keeps s1)) as [H2 _].
      by apply H2, H1.
    + etrans; [exact Hf1|]. destruct Hf2. by split.
Qed.

Lemma close_remote_good st s :
  socket_of st s → down st.1 s → (established st.1 = false → rbuffer st.1 = [] ∧ rw_taken s = []) →
  ∃ st', close_stream false st = Some st' ∧ good st' ∧ follows st st' ∧ rclosed st'.1 = true
    ∧ lclosed st'.1 = lclosed st.1 ∧ lbuffer st'.1 = lbuffer st.1 ∧ established st'.1 = established st.1.
Proof.
  destruct st as [c d]. intros Hs Hd He. cbn in Hd, He. unfold close_stream. cbn [andb negb].
  destruct (rclosed c) eqn:Hr; cbn [negb].
  - exists (c, d). split_and!; try done. exists s. split_and!; try done. unfold up. cbn [fst].
    destruct (established c); [congruence|]. destruct (He eq_refl). split_and!; try done. congruence.
  - eexists. split; [reflexivity|]. split_and!; try done. exists s. split_and!; [exact Hs| |].
    + unfold up. cbn. destruct (established c); [done|]. by destruct (He eq_refl).
    + intros Hl. destruct (Hd Hl) as (h & ? & ?). exists h. cbn. by rewrite close_taken.
Qed.

Lemma good_close_local st :
  good st → ∃ st', close_stream true st = Some st' ∧ good st' ∧ follows st st' ∧ lclosed st'.1 = true
    ∧ rclosed st'.1 = rclosed st.1 ∧ rbuffer st'.1 = rbuffer st.1 ∧ established st'.1 = established st.1.
Proof. intros (s & Hs & Hu & _). by apply (close_local_good st s). Qed.

Lemma good_close_remote st :
  good st → ∃ st', close_stream false st = Some st' ∧ good st' ∧ follows st st' ∧ rclosed st'.1 = true
    ∧ lclosed st'.1 = lclosed st.1 ∧ lbuffer st'.1 = lbuffer st.1 ∧ established st'.1 = established st.1.
Proof.
  intros (s & Hs & Hu & Hd). apply (close_remote_good st s); [done..|].
  unfold up in Hu. intros He. rewrite He in Hu. by destruct Hu as (? & ? & _).
Qed.

Lemma good_close st :
  good st → ∃ st', close st = Some st' ∧ good st' ∧ follows st st' ∧ lclosed st'.1 = true ∧ rclosed st'.1 = true.
Proof.
  intros Hg. unfold close. destruct (good_close_local st Hg) as (st1 & -> & Hg1 & Hf1 & Hl & _).
  cbn [mbind option_bind]. destruct (good_close_remote st1 Hg1) as (st2 & -> & Hg2 & Hf2 & Hr & Hl2 & _).
  exists st2. split_and!; try done; [by etrans|congruence].
Qed.

Lemma good_flush st :
  good st → ∃ st', flush_remote st = Some st' ∧ good st' ∧ follows st st' ∧ lclosed st'.1 = lclosed st.1.
Proof.
  destruct st as [c d]. intros (s & Hs & Hu & Hd). cbn [fst] in *. unfold flush_remote.
  pose proof (flush_accepted (remote c)) as Ha. pose proof (flush_taken (remote c)) as Ht.
  destruct (remote_flush (remote c)) as [r rm]. cbn [snd] in *. set (c1 := with_remote c rm).
  assert (good (c1, d)) as Hg.
  { exists s. split_and!; [exact Hs| |].
    - unfold up in *. cbn. rewrite Ha. exact Hu.
    - unfold down in *. cbn. rewrite Ht. exact Hd. }
  assert (follows (c, d) (c1, d)) as Hf by by split.
  destruct r as [|[]]; try (by exists (c1, d));
    destruct (good_close_remote _ Hg) as (st' & -> & ? & ? & _ & Hl & _);
    exists st'; (split_and!; [done|done|by etrans|exact Hl]).
Qed.

(** *** The copies *)

Lemma local_to_remote_good st :
  good st → terminates (λ fuel, local_to_remote fuel st) (λ st', good st' ∧ follows st st').
Proof.
  destruct st as [c d]. intros Hg. pose proof Hg as (s & Hs & Hu & Hd). cbn [fst] in *. unfold local_to_remote.
  rewrite (get_socket_none c d s Hs). cbn [mbind option_bind]. destruct (established c) eqn:He; cbn [negb].
  2: { destruct (negb (is_active s)); [|by apply terminates_ret].
       destruct (good_close_local _ Hg) as (st' & -> & ? & ? & _). by apply terminates_ret. }
  eapply terminates_bind.
  { apply terminates_with; [apply (copy_stream_conserves spare s (remote c) (rbuffer c))|].
    instantiate (1 := λ x, rw_accepted x.1.1.2 = rw_accepted s ∧ rw_taken x.1.2 = rw_taken (remote c)).
    intros fuel [[[r s'] rm] b] Hc. by apply copy_stream_keeps in Hc. }
  intros [[[r s'] rm] b] [(h & Hts & Hm) [Has Htr]]. cbn [fst snd] in Has, Htr. apply terminates_ext with
    (run := λ _ : nat, let c1 := with_rbuffer (with_remote c rm) b in
       '(c1, device) ← after_copy true r (c1, WinTun.put_tcp d (local c) s');
       if negb (rclosed c1) then flush_remote (c1, device) else Some (c1, device)); [done|].
  cbv zeta. set (c1 := with_rbuffer _ _). destruct (put_socket c d s s' Hs) as [Hs1 Hf1].
  set (d1 := WinTun.put_tcp _ _ _) in *. change (socket_of (c1, d1) s') in Hs1.
  assert (follows (c, d) (c1, d1)) as Hf by (by destruct Hf1; split). clear Hf1.
  assert (down c1 s') as Hd1.
  { intros Hl. destruct (Hd Hl) as (h' & ? & ?). exists h'. cbn [c1 remote lbuffer with_rbuffer with_remote].
    by rewrite Htr, Has. }
  assert ((∀ e, r ≠ CErr (TxBreak e)) → up c1 s') as Hu1.
  { intros Hr. unfold up in *. rewrite He in Hu. cbn [c1 established with_rbuffer with_remote rclosed remote rbuffer].
    rewrite He. intros Hc. destruct (Hu Hc) as (e & n & Heq). exists e, n.
    assert (rw_accepted rm ++ b = rw_accepted (remote c) ++ rbuffer c ++ h) as ->.
    { destruct r as [|[]]; [by destruct Hm|by destruct (Hr err)|by destruct Hm]. }
    by rewrite app_assoc, Heq, Hts, <-!app_assoc. }
  assert (∃ st', after_copy true r (c1, d1) = Some st' ∧ good st' ∧ follows (c1, d1) st') as ([c2 d2] & -> & Hg2 & Hf2).
  { destruct r as [|[e|e]]; cbn [after_copy negb].
    - exists (c1, d1). split_and!; try done. exists s'. split_and!; [done| |done]. by apply Hu1.
    - destruct (close_remote_good (c1, d1) s' Hs1 Hd1) as (st' & ? & ? & ? & _); [cbn; congruence|]. eauto.
    - destruct (close_local_good (c1, d1) s' Hs1) as (st' & ? & ? & ? & _); [by apply Hu1|]. eauto. }
  cbn [mbind option_bind]. destruct (negb (rclosed c2)).
  - destruct (good_flush _ Hg2) as (st' & -> & ? & ? & _). apply terminates_ret. split; [done|].
    etrans; [exact Hf|]. by etrans.
  - apply terminates_ret. split; [done|]. by etrans.
Qed.

Lemma remote_to_local_good st :
  good st → terminates (λ fuel, remote_to_local fuel st) (λ st', good st' ∧ follows st st').
Proof.
  destruct st as [c d]. intros Hg. pose proof Hg as (s & Hs & Hu & Hd). cbn [fst] in *. unfold remote_to_local.
  rewrite (get_socket_none c d s Hs). cbn [mbind option_bind].
  eapply terminates_bind.
  { apply terminates_with; [apply (copy_stream_conserves spare (remote c) s (lbuffer c))|].
    instantiate (1 := λ x, rw_accepted x.1.1.2 = rw_accepted (remote c) ∧ rw_taken x.1.2 = rw_taken s).
    intros fuel [[[r rm] s'] b] Hc. by apply copy_stream_keeps in Hc. }
  intros [[[r rm] s'] b] [(h & Htr & Hm) [Har Hts]]. cbn [fst snd] in Har, Hts.
  set (c1 := with_lbuffer (with_remote c rm) b). destruct (put_socket c d s s' Hs) as [Hs1 Hf1].
  set (d1 := WinTun.put_tcp _ _ _) in *. change (socket_of (c1, d1) s') in Hs1.
  assert (follows (c, d) (c1, d1)) as Hf by (by destruct Hf1; split). clear Hf1.
  assert (up c1 s') as Hu1.
  { unfold up in *. cbn [c1 established with_lbuffer with_remote rclosed remote rbuffer]. by rewrite Har, Hts. }
  assert ((∀ e, r ≠ CErr (TxBreak e)) → down c1 s') as Hd1.
  { intros Hr Hl. destruct (Hd Hl) as (h' & Hh1 & Hh2). exists (h' ++ h).
    cbn [c1 remote lbuffer with_lbuffer with_remote]. rewrite Htr, Hh1, <-app_assoc. split; [done|].
    assert (rw_accepted s' ++ b = rw_accepted s ++ lbuffer c ++ h) as ->.
    { destruct r as [|[]]; [by destruct Hm|by destruct (Hr err)|by destruct Hm]. }
    by rewrite app_assoc, Hh2, <-app_assoc. }
  assert (∃ st', after_copy false r (c1, d1) = Some st' ∧ good st' ∧ follows (c1, d1) st') as ([c2 d2] & Hac & Hg2 & Hf2).
  { destruct r as [|[e|e]]; cbn [after_copy negb].
    - exists (c1, d1). split_and!; try done. exists s'. split_and!; [done|done|]. by apply Hd1.
    - destruct (close_local_good (c1, d1) s' Hs1 Hu1) as (st' & ? & ? & ? & _). eauto.
    - destruct (close_remote_good (c1, d1) s' Hs1) as (st' & ? & ? & ? & _); [by apply Hd1| |eauto].
      unfold up in Hu1. cbn [fst]. intros He. rewrite He in Hu1. by destruct Hu1 as (? & ? & _). }
  apply terminates_ext with (run := λ _ : nat,
    if rclosed c2 && negb (lclosed c2) && bool_decide (lbuffer c2 = []) && (send_queue s' =? 0)%nat
    then close_stream true (c2, d2) else Some (c2, d2)); [intros _; by rewrite Hac|].
  destruct (_ && _).
  - destruct (good_close_local _ Hg2) as (st' & -> & ? & ? & _). apply terminates_ret. split; [done|].
    etrans; [exact Hf|]. by etrans.
  - apply terminates_ret. split; [done|]. by etrans.
Qed.

(** *** The ends *)

(** A side that ended and whose data is all passed on has ended the other. *)
Definition settled (c : t) : Prop :=
  (lclosed c = true → rbuffer c = [] → rclosed c = true)
  ∧ (rclosed c = true → lbuffer c = [] → lclosed c = true).

Lemma check_half_close_good st :
  good st → ∃ st', check_half_close st = Some st' ∧ good st' ∧ follows st st' ∧ settled st'.1.
Proof.
  intros Hg. unfold check_half_close. destruct st as [c d].
  assert (∃ st1, (if lclosed c && negb (rclosed c) && bool_decide (rbuffer c = [])
        then close_stream false (c, d) else Some (c, d)) = Some st1 ∧ good st1 ∧ follows (c, d) st1
    ∧ (lclosed st1.1 = true → rbuffer st1.1 = [] → rclosed st1.1 = true)) as ([c1 d1] & -> & Hg1 & Hf1 & H1).
  { destruct (_ && _) eqn:Hb.
    - destruct (good_close_remote _ Hg) as (st1 & -> & ? & ? & ? & _). eauto 10.
    - exists (c, d). split_and!; try done. cbn. intros Hl Hr.
      rewrite Hl, Hr, bool_decide_true in Hb by done. by destruct (rclosed c). }
  cbn [mbind option_bind]. destruct (rclosed c1 && _ && _) eqn:Hb.
  - destruct (good_close_local _ Hg1) as (st2 & -> & ? & ? & Hl & Hr & _).
    apply andb_true_iff in Hb as [[Hrc _]%andb_true_iff _].
    exists st2. split_and!; try done; [by etrans|]. split; [|done]. by rewrite Hr.
  - exists (c1, d1). split_and!; try done. split; [exact H1|]. cbn. intros Hr Hl.
    rewrite Hl, Hr, bool_decide_true in Hb by done. by destruct (lclosed c1).
Qed.

Lemma reregister_good st :
  good st → ∃ st', reregister_local st = Some st' ∧ good st' ∧ follows st st' ∧ st'.1 = st.1.
Proof.
  intros Hg. unfold reregister_local. destruct st as [c d]. destruct (lclosed c) eqn:Hl.
  { by exists (c, d). }
  destruct Hg as (s & Hs & Hu & Hd). cbv zeta.
  match goal with |- context [WinTun.get_tcp_socket_mut d (local c) ?m] => generalize m; intros mode end.
  destruct (get_socket c d s mode Hs) as (s1 & d1 & -> & Hk & Hs1 & Hf1). cbn [mbind option_bind].
  exists (c, d1). split_and!; try done. exists s1. split; [exact Hs1|].
  destruct (keeps_streams c _ _ Hk). cbn in *. auto.
Qed.

Lemma establish_good st :
  good st → ∃ ok st', establish st = Some (ok, st') ∧ good st' ∧ follows st st'
    ∧ (ok = false → lclosed st'.1 = true ∧ rclosed st'.1 = true).
Proof.
  intros Hg. unfold establish. destruct st as [c d]. pose proof Hg as (s & Hs & Hu & Hd). cbn [fst] in *.
  destruct (established c) eqn:He; [by exists true, (c, d)|]. unfold up in Hu. rewrite He in Hu.
  destruct (lclosed c) eqn:Hl.
  { destruct (good_close_remote _ Hg) as (st' & -> & ? & ? & Hr & Hl' & _). exists false, st'.
    cbn in Hl'. split_and!; try done. intros _. by rewrite Hl'. }
  rewrite (get_socket_none c d s Hs). cbn [mbind option_bind].
  destruct (local_endpoint s) as [e|].
  2: { destruct (good_close _ Hg) as (st' & -> & ? & ? & ? & ?). by exists false, st'. }
  destruct (rw_write _ _) as [r rm] eqn:Hw. pose proof (write_taken _ _ _ _ Hw) as Ht.
  destruct Hu as (Hb & Hrd & Ha). set (c1 := with_remote c rm).
  assert (follows (c, d) (c1, d)) as Hf by by split.
  assert (down c1 s) as Hd1 by (unfold down in *; cbn; by rewrite Ht).
  destruct r as [n|k]; cbn [io_is_ok].
  - exists true, (with_established c1 true, d). split_and!; [done| |by destruct Hf; split|done].
    exists s. split_and!; [exact Hs| |exact Hd1]. unfold up. cbn. intros Hrc. exists e, n.
    destruct (rw_write_ok _ _ _ _ Hw) as [_ ->]. cbn in Hrd. by rewrite Hb, Hrd, Ha, !app_nil_r.
  - assert (good (c1, d)) as Hg1.
    { exists s. split_and!; [exact Hs| |exact Hd1]. unfold up. cbn. rewrite He.
      by rewrite (rw_write_err _ _ _ _ Hw). }
    destruct (good_close _ Hg1) as (st' & -> & ? & ? & ? & ?). exists false, st'. split_and!; try done. by etrans.
Qed.

(** *** Events *)

Lemma good_active now st : good st → good (with_last_active st.1 now, st.2) ∧ follows st (with_last_active st.1 now, st.2).
Proof. intros (s & Hs & Hu & Hd). split; [by exists s|by split]. Qed.

Lemma good_end st :
  good st → ∃ st', (st ← check_half_close st; reregister_local st) = Some st' ∧ good st' ∧ follows st st' ∧ settled st'.1.
Proof.
  intros Hg. destruct (check_half_close_good st Hg) as (st1 & -> & Hg1 & Hf1 & Hs1). cbn [mbind option_bind].
  destruct (reregister_good st1 Hg1) as (st2 & -> & Hg2 & Hf2 & He). exists st2.
  split_and!; try done; [by etrans|by rewrite He].
Qed.

Lemma do_local_good now ev st :
  good st → terminates (λ fuel, do_local fuel now ev st) (λ st', good st' ∧ follows st st' ∧ settled st'.1).
Proof.
  intros Hg. unfold do_local. destruct (good_active now st Hg) as [Hg0 Hf0].
  set (st0 := (with_last_active st.1 now, st.2)) in *.
  eapply (terminates_bind _ _ (λ st', good st' ∧ follows st st')).
  { destruct (Wakers.is_readable ev); [|by apply terminates_ret].
    eapply terminates_weaken; [by apply local_to_remote_good|]. intros st1 [? ?]. split; [done|by etrans]. }
  intros st1 [Hg1 Hf1]. eapply (terminates_bind _ _ (λ st', good st' ∧ follows st st')).
  { destruct (Wakers.is_writable ev); [|by apply terminates_ret].
    eapply terminates_weaken; [by apply remote_to_local_good|]. intros st2 [? ?]. split; [done|by etrans]. }
  intros st2 [Hg2 Hf2]. destruct (good_end st2 Hg2) as (st' & -> & ? & ? & ?).
  apply terminates_ret. split_and!; try done. by etrans.
Qed.

Lemma do_remote_good now ev st :
  good st → terminates (λ fuel, do_remote fuel now ev st) (λ st', good st' ∧ follows st st' ∧ settled st'.1).
Proof.
  intros Hg. unfold do_remote. destruct (good_active now st Hg) as [Hg0 Hf0].
  set (st0 := (with_last_active st.1 now, st.2)) in *.
  eapply (terminates_bind _ _ (λ x, good x.2 ∧ follows st x.2 ∧ (x.1 = false → lclosed x.2.1 = true ∧ rclosed x.2.1 = true))).
  { destruct (is_writable ev); [|by apply terminates_ret].
    destruct (establish_good st0 Hg0) as (ok & st1 & -> & Hg1 & Hf1 & He). cbn [mbind option_bind].
    destruct ok; [|apply terminates_ret; split_and!; [done|by etrans|done]].
    eapply terminates_bind; [by apply local_to_remote_good|]. intros st2 [? ?].
    apply terminates_ret. split_and!; [done|etrans; [exact Hf0|by etrans]|done]. }
  intros [ok st1] (Hg1 & Hf1 & He). cbn [fst snd] in *. destruct ok; cbn [negb].
  2: { apply terminates_ret. split_and!; [done..|]. destruct (He eq_refl). by split. }
  eapply (terminates_bind _ _ (λ st', good st' ∧ follows st st')).
  { destruct (is_readable ev); [|by apply terminates_ret].
    eapply terminates_bind; [by apply remote_to_local_good|]. intros st2 [Hg2 Hf2].
    destruct (good_flush st2 Hg2) as (st3 & -> & ? & ? & _). apply terminates_ret. split; [done|].
    etrans; [done|]. by etrans. }
  intros st2 [Hg2 Hf2]. destruct (good_end st2 Hg2) as (st' & -> & ? & ? & ?).
  apply terminates_ret. split_and!; try done. by etrans.
Qed.

End Streams.

(** *** The life of a connection *)

(** An event, or what the stack, the peer and the rest of the program do. *)
Inductive op : Type :=
  | OpLocal (now : Z) (event : Wakers.Event)
  | OpRemote (now : Z) (event : Event)
  | OpElse (f : WinTun.t → WinTun.t) (g : R → R).

Definition run_op (fuel : nat) (st : State) (x : op) : option State :=
  match x with
  | OpLocal now event => do_local fuel now event st
  | OpRemote now event => do_remote fuel now event st
  | OpElse f g => Some (with_remote st.1 (g (remote st.1)), f st.2)
  end.

(** Others neither read nor write the socket and the connection. *)
Definition op_ok (h : nat) (x : op) : Prop :=
  match x with
  | OpElse f g =>
      (∀ d s, Wakers.ok (WinTun.tcp_wakers d) → tcps (WinTun.sockets d) !! h = Some s →
         Wakers.ok (WinTun.tcp_wakers (f d))
         ∧ ∃ s', tcps (WinTun.sockets (f d)) !! h = Some s' ∧ socket_evolves (Tcp s) (Tcp s'))
      ∧ ∀ r, rw_accepted (g r) = rw_accepted r ∧ rw_taken (g r) = rw_taken r
  | _ => True
  end.

(** The stack fed the socket, the server's side changed quietly. *)
Lemma good_evolves a0 t0 x0 c d d' r :
  good a0 t0 x0 (c, d) →
  (∀ s, Wakers.ok (WinTun.tcp_wakers d) → tcps (WinTun.sockets d) !! local c = Some s →
     Wakers.ok (WinTun.tcp_wakers d')
     ∧ ∃ s', tcps (WinTun.sockets d') !! local c = Some s' ∧ socket_evolves (Tcp s) (Tcp s')) →
  rw_accepted r = rw_accepted (remote c) → rw_taken r = rw_taken (remote c) →
  good a0 t0 x0 (with_remote c r, d').
Proof.
  intros (s & [Hw Hs] & Hu & Hd) Hf Ha Ht. destruct (Hf s Hw Hs) as (Hw' & s' & Hs' & Hpre & Hrd & Htx).
  exists s'. split_and!; [by split| |].
  - assert (rw_taken s' = rw_taken s) as He.
    { cbn. rewrite Hrd. destruct Hpre as [q ->]. apply take_app_le, tcp_read_le. }
    unfold up in *. cbn [fst established with_remote rclosed remote rbuffer]. by rewrite He, Ha.
  - unfold down in *. cbn in *. by rewrite Ht, Htx.
Qed.

(** Another socket was touched. *)
Lemma good_touched a0 t0 x0 c d d' h :
  good a0 t0 x0 (c, d) → touches h d d' → h ≠ local c → good a0 t0 x0 (c, d').
Proof.
  intros (s & [Hw Hs] & Hu & Hd) [] Hh. exists s. split_and!; [|done|done].
  split; [by apply t_tcp_wakers0|]. cbn. by rewrite t_others0 by congruence.
Qed.

Lemma run_op_steady st x : steady (λ fuel, run_op fuel st x).
Proof. destruct x; [apply do_local_steady|apply do_remote_steady|exact (steady_ret _)]. Qed.

Lemma run_ops_steady ops acc : steady (λ fuel, foldl (λ acc x, st ← acc; run_op fuel st x) acc ops).
Proof.
  revert acc. induction ops as [|x ops IH]; intros acc; [exact (steady_ret _)|]. cbn [foldl].
  destruct acc as [st|]; cbn [mbind option_bind]; [|apply IH].
  intros fuel n y Hr. destruct (run_op fuel st x) as [st1|] eqn:Hx.
  - rewrite (run_op_steady st x fuel n st1 Hx). by apply (IH (Some st1)).
  - exfalso. clear -Hr. induction ops; [done|]. by apply IHops.
Qed.

Lemma run_op_good a0 t0 x0 h st x :
  op_ok h x → local st.1 = h → good a0 t0 x0 st → settled st.1 →
  terminates (λ fuel, run_op fuel st x) (λ st', good a0 t0 x0 st' ∧ settled st'.1 ∧ local st'.1 = h).
Proof.
  intros Hx Hh Hg Hset. destruct x as [now ev|now ev|f g]; cbn [run_op].
  - eapply terminates_weaken; [by apply do_local_good|]. intros st' (? & [] & ?). split_and!; [done..|congruence].
  - eapply terminates_weaken; [by apply do_remote_good|]. intros st' (? & [] & ?). split_and!; [done..|congruence].
  - apply terminates_ret. destruct Hx as [Hf Hgq]. destruct (Hgq (remote st.1)) as [Ha Ht].
    split_and!; [|done|done]. apply (good_evolves a0 t0 x0 st.1 st.2 (f st.2)); [by destruct st|by rewrite Hh; apply Hf|done|done].
Qed.


End Laws.
End Connection.
#[global] Arguments t R : clear implicits.
End WinTcpConn.

(** ** The server *)

Module WinTcpServer.

Section Server.
Context {R P : Type} {Rem : Remote R} {Pool : RemotePool P R} {Stk : Smoltcp} {L : ReadLive}.
Context (OPTIONS : Opts) (spare : bytes → nat).

(** An [Arc<Connection>] is its index in [conns]; both tables hold it. *)
Record t : Type := mk {
  conns : gmap nat (WinTcpConn.t R);
  next_conn : nat;
  token2conns : gmap Z nat;
  handle2conns : gmap nat nat;
  removed : gset nat;
  NEXT_INDEX : Z
}.

Definition with_conns (s : t) (x : gmap nat (WinTcpConn.t R)) : t :=
  mk x (next_conn s) (token2conns s) (handle2conns s) (removed s) (NEXT_INDEX s).
Definition with_token2conns (s : t) (x : gmap Z nat) : t :=
  mk (conns s) (next_conn s) x (handle2conns s) (removed s) (NEXT_INDEX s).
Definition with_removed (s : t) (x : gset nat) : t :=
  mk (conns s) (next_conn s) (token2conns s) (handle2conns s) x (NEXT_INDEX s).

Definition new (NEXT_INDEX : Z) : t := mk ∅ 0 ∅ ∅ ∅ NEXT_INDEX.

Definition put_conn (s : t) (id : nat) (conn : WinTcpConn.t R) : t :=
  with_conns s (<[id := conn]> (conns s)).
Definition remove_later (s : t) (handle : nat) : t := with_removed s ({[handle]} ∪ removed s).

(** The connection of the socket, a new one if there is none. *)
Definition conn_for (now : Z) (handle : nat) (s : t) (pool : P) : option (nat * t * P) :=
  match handle2conns s !! handle with
  | Some id => Some (id, s, pool)
  | None =>
      let '(token, NEXT_INDEX) := next_token CHANNEL_TCP (NEXT_INDEX s) in
      let '(remote, pool) := pool_get pool in
      remote ← remote;
      let remote := remote_set_token remote token in
      let conn := WinTcpConn.new token handle remote now in
      let id := next_conn s in
      Some (id, mk (<[id := conn]> (conns s)) (S id) (token2conns s) (<[handle := id]> (handle2conns s))
                  (removed s) NEXT_INDEX, pool)
  end.

(** What follows an event: a closed connection is to be removed. *)
Definition note_closed (id : nat) (conn : WinTcpConn.t R) (s : t) (device : WinTun.t) : option (t * WinTun.t) :=
  let s := put_conn s id conn in
  closed ← WinTcpConn.is_closed (conn, device);
  Some (if closed : bool then remove_later s (WinTcpConn.local conn) else s, device).

(** One event of [do_local]. *)
Definition do_handle (fuel : nat) (now : Z) (st : t * P * WinTun.t) (e : nat * Wakers.Event) :
    option (t * P * WinTun.t) :=
  let '(s, pool, device) := st in
  let '(handle, event) := e in
  '(socket, device) ← WinTun.get_tcp_socket_mut device handle ModeNone;
  if is_listening socket then
    '(s, device) ←
      match handle2conns s !! handle with
      | Some id =>
          conn ← conns s !! id;
          '(conn, device) ← WinTcpConn.close (conn, device);
          Some (put_conn s id conn, device)
      | None => Some (s, device)
      end;
    Some (remove_later s handle, pool, device)
  else
    '(id, s, pool) ← conn_for now handle s pool;
    conn ← conns s !! id;
    let tok := WinTcpConn.token conn in
    let s := match token2conns s !! tok with
             | Some _ => s
             | None => with_token2conns s (<[tok := id]> (token2conns s))
             end in
    '(conn, device) ← WinTcpConn.do_local spare fuel now event (conn, device);
    '(s, device) ← note_closed id conn s device;
    Some (s, pool, device).

Definition do_local (fuel : nat) (now : Z) (st : t * P * WinTun.t) : option (t * P * WinTun.t) :=
  let '(s, pool, device) := st in
  let '(events, device) := WinTun.get_tcp_events device in
  foldl (λ acc e, st ← acc; do_handle fuel now st e) (Some (s, pool, device)) (map_to_list events).

Definition do_remote (fuel : nat) (now : Z) (event_token : Z) (event : Event) (s : t) (device : WinTun.t) :
    option (t * WinTun.t) :=
  match token2conns s !! event_token with
  | Some id =>
      conn ← conns s !! id;
      '(conn, device) ← WinTcpConn.do_remote OPTIONS spare fuel now event (conn, device);
      note_closed id conn s device
  | None => Some (s, device)
  end.

Definition remove_handle (acc : option (t * WinTun.t)) (handle : nat) : option (t * WinTun.t) :=
  '(s, device) ← acc;
  s ← match handle2conns s !! handle with
      | Some id =>
          conn ← conns s !! id;
          let handle2conns := delete handle (handle2conns s) in
          let token2conns := delete (WinTcpConn.token conn) (token2conns s) in
          (* the connection is dropped with its last reference *)
          let held := bool_decide (map_Exists (λ _ i, i = id) token2conns)
                      || bool_decide (map_Exists (λ _ i, i = id) handle2conns) in
          Some (mk (if held then conns s else delete id (conns s)) (next_conn s) token2conns handle2conns
                  (removed s) (NEXT_INDEX s))
      | None => Some s
      end;
  device ← WinTun.remove_socket device handle;
  Some (s, device).

Definition remove_closed (s : t) (device : WinTun.t) : option (t * WinTun.t) :=
  '(s, device) ← foldl remove_handle (Some (s, device)) (elements (removed s));
  Some (with_removed s ∅, device).

(** The connections that are to be closed; the sockets of those whose side has long
    ended are aborted. *)
Definition expire (now : Z) (acc : option (list nat * t * WinTun.t)) (id : nat) :
    option (list nat * t * WinTun.t) :=
  '(ids, s, device) ← acc;
  conn ← conns s !! id;
  let elapsed := since now (WinTcpConn.last_active conn) in
  if WinTcpConn.lclosed conn && (secs 120 <? elapsed) then
    '(_, device) ← WinTcpConn.abort_local (conn, device);
    Some (ids ++ [id], s, device)
  else if secs 3600 <? elapsed then Some (ids ++ [id], s, device)
  else Some (ids, s, device).

Definition close_conn (acc : option (t * WinTun.t)) (id : nat) : option (t * WinTun.t) :=
  '(s, device) ← acc;
  conn ← conns s !! id;
  '(conn, device) ← WinTcpConn.close (conn, device);
  Some (remove_later (put_conn s id conn) (WinTcpConn.local conn), device).

Definition check_timeout (now : Z) (s : t) (device : WinTun.t) : option (t * WinTun.t) :=
  '(ids, s, device) ← foldl (expire now) (Some ([], s, device)) (map_to_list (token2conns s)).*2;
  '(s, device) ← foldl close_conn (Some (s, device)) ids;
  remove_closed s device.

End Server.
#[global] Arguments t R : clear implicits.

(** ** The tables *)

Section Tables.
Context {R P : Type} {Rem : Remote R} {Pool : RemotePool P R} {Law : LawfulRemote R}.
Context {Stk : Smoltcp} {Rs : Reserved} {L : ReadLive} {Obs : Observed Stk} {K : SmoltcpOk Stk}.
Context (OPTIONS : Opts) (spare : bytes → nat).

(** The connection's socket is there and its streams are whole. *)
Definition healthy (c : WinTcpConn.t R) (d : WinTun.t) : Prop :=
  ∃ a0 t0 x0, WinTcpConn.good OPTIONS a0 t0 x0 (c, d).

(** Both tables hold exactly the connections, whose sockets are in the device; a
    socket that has none was not read from. *)
Record inv (s : t R) (d : WinTun.t) : Prop := mkInv {
  w_device : WinTun.inv d;
  w_tables : shared WinTcpConn.token WinTcpConn.local (conns s) (next_conn s) (token2conns s) (handle2conns s);
  w_good id c : conns s !! id = Some c → healthy c d;
  w_removed h : h ∈ removed s → is_Some (tcps (WinTun.sockets d) !! h);
  w_unread h sk : tcps (WinTun.sockets d) !! h = Some sk → handle2conns s !! h = None → tcp_read sk = 0%nat;
  w_index : MIN_INDEX <= NEXT_INDEX s < MAX_INDEX;
  w_used id c : conns s !! id = Some c → issued CHANNEL_TCP (NEXT_INDEX s) (WinTcpConn.token c)
}.

Lemma healthy_live c d : healthy c d → is_Some (tcps (WinTun.sockets d) !! WinTcpConn.local c).
Proof. intros (? & ? & ? & s & [_ Hs] & _). by exists s. Qed.

Lemma touches_device h d d' : WinTcpConn.touches h d d' → WinTun.inv d → WinTun.inv d'.
Proof.
  intros [Htu Hts Htuw Htw _ _] Hd. pose proof Hd as [Ht Hu _ _ _ _]. eapply WinTun.inv_keep_udps; [exact Hd|auto|by rewrite Htuw|done..].
Qed.

(** An event of one connection. *)
Lemma inv_conn s d id c c' d' :
  inv s d → conns s !! id = Some c → healthy c' d' → WinTcpConn.follows (c, d) (c', d') →
  inv (put_conn s id c') d'.
Proof.
  intros Hi Hc Hg []. cbn [fst snd] in *. pose proof Hi as [Hd Ht Hgd Hr Hu Hx Hus].
  destruct (shared_lookup _ _ Ht _ _ Hc) as [_ Hh].
  split; cbn [conns put_conn with_conns next_conn token2conns handle2conns removed NEXT_INDEX].
  - by eapply touches_device.
  - by eapply shared_update.
  - intros id' x [[<- <-]|[Hne Hx']]%lookup_insert_Some; [done|].
    destruct (Hgd _ _ Hx') as (a & t0 & x0 & Hgx). exists a, t0, x0.
    eapply WinTcpConn.good_touched; [exact Hgx|exact f_device|]. intros He. apply Hne.
    by eapply (shared_inj2 _ _ Ht).
  - intros h Hin. destruct (decide (h = WinTcpConn.local c)) as [->|Hne].
    + apply (WinTcpConn.t_live _ _ _ f_device). by apply Hr.
    + rewrite (WinTcpConn.t_others _ _ _ f_device) by done. by apply Hr.
  - intros h sk Hsk Hn. destruct (decide (h = WinTcpConn.local c)) as [->|Hne]; [congruence|].
    rewrite (WinTcpConn.t_others _ _ _ f_device) in Hsk by done. eauto.
  - done.
  - intros id' x [[<- <-]|[_ Hx']]%lookup_insert_Some; [rewrite f_token|]; eauto.
Qed.

Lemma inv_remove_later s d h : inv s d → is_Some (tcps (WinTun.sockets d) !! h) → inv (remove_later s h) d.
Proof.
  intros [] Hh. split; try done. cbn. intros h' [->%elem_of_singleton|]%elem_of_union; auto.
Qed.

(** Whatever else happens to the device. *)
Lemma inv_others s d d' : inv s d → WinTun.inv d' → WinTun.others d d' → inv s d'.
Proof.
  intros [] Hd' [Hw Hk Hn]. split; try done.
  - intros id c Hc. destruct (w_good0 _ _ Hc) as (a & t0 & x0 & Hg). exists a, t0, x0.
    replace (c, d') with (WinTcpConn.with_remote c (WinTcpConn.remote c), d') by by destruct c.
    eapply WinTcpConn.good_evolves; [exact Hg| |done..]. intros sk Hok Hsk. split; [by apply Hw|eauto].
  - intros h Hh. destruct (w_removed0 _ Hh) as [sk Hsk]. destruct (Hk _ _ Hsk) as (sk' & -> & _). eauto.
  - intros h sk' Hsk' Hnone. destruct (Hn _ _ Hsk') as [[sk Hsk]|]; [|done].
    destruct (Hk _ _ Hsk) as (sk1 & Hsk1 & _ & Hrd & _). simplify_eq. rewrite Hrd. eauto.
Qed.

(** A new connection for an unread socket. *)
Lemma conn_for_good now h s pool id s1 pool1 d sk :
  inv s d → NEXT_INDEX s + 1 < MAX_INDEX → tcps (WinTun.sockets d) !! h = Some sk →
  conn_for now h s pool = Some (id, s1, pool1) →
  ∃ c, conns s1 !! id = Some c ∧ NEXT_INDEX s1 <= NEXT_INDEX s + 1 ∧ WinTcpConn.local c = h
    ∧ inv (match token2conns s1 !! WinTcpConn.token c with
           | Some _ => s1
           | None => with_token2conns s1 (<[WinTcpConn.token c := id]> (token2conns s1))
           end) d.
Proof.
  intros Hi Hx Hsk. pose proof Hi as [Hd Htab Hgd Hr Hu Hix Hus]. unfold conn_for.
  pose proof (next_token_next CHANNEL_TCP (NEXT_INDEX s) (proj1 Hix) Hx) as Hnext.
  destruct (handle2conns s !! h) as [id0|] eqn:Hh.
  - intros [= <- <- <-]. pose proof (proj1 (sh_key2 _ _ _ _ _ _ Htab _ _) Hh) as (c & Hc & Hl).
    exists c. split_and!; try done; [lia|]. by destruct (shared_lookup _ _ Htab _ _ Hc) as [-> _].
  - pose proof (next_token_small CHANNEL_TCP (NEXT_INDEX s)) as Htk.
    destruct (next_token CHANNEL_TCP (NEXT_INDEX s)) as [tk nx].
    destruct (pool_get pool) as [[r|] pool2]; [|done]. cbn [mbind option_bind fst snd] in *. intros [= <- <- <-].
    set (c := WinTcpConn.new tk h (remote_set_token r tk) now). exists c.
    cbn [conns NEXT_INDEX token2conns]. rewrite lookup_insert_eq. split_and!; [done|lia|done|].
    assert (tk = NEXT_INDEX s * CHANNEL_CNT + CHANNEL_TCP) as Htk' by (apply Htk; unfold CHANNEL_TCP, CHANNEL_CNT; lia || done).
    clear Htk. subst tk.
    assert (token2conns s !! WinTcpConn.token c = None) as Htn.
    { destruct (token2conns s !! WinTcpConn.token c) as [id|] eqn:Htc; [|done].
      apply (sh_key1 _ _ _ _ _ _ Htab) in Htc as (x & Hx1 & Hx2). apply Hus in Hx1.
      rewrite Hx2 in Hx1. by apply issued_fresh in Hx1. }
    rewrite Htn. split; cbn [conns next_conn token2conns handle2conns removed NEXT_INDEX with_token2conns].
    + done.
    + by apply (shared_insert _ _ Htab c).
    + intros id x [[<- <-]|[_ Hx1]]%lookup_insert_Some; [|by eauto].
      do 3 eexists. exists sk. split_and!; [split; [apply Hd|exact Hsk]|split_and!; [done|cbn; by rewrite (Hu _ _ Hsk Hh)|]|].
      * by intros _.
      * intros _. exists []. cbn. by rewrite !app_nil_r.
    + done.
    + intros h' sk' Hsk' [Hn _]%lookup_insert_None. eauto.
    + lia.
    + intros id x [[<- <-]|[_ Hx1]]%lookup_insert_Some; [rewrite Hnext; apply (issued_next CHANNEL_TCP); lia|].
      apply Hus in Hx1. eapply issued_mono; [|done]. lia.
Qed.

(** What the handlers of a connection do to a healthy one. *)
Lemma healthy_op (f : WinTcpConn.t R * WinTun.t → option (WinTcpConn.t R * WinTun.t)) c d :
  (∀ a0 t0 x0, WinTcpConn.good OPTIONS a0 t0 x0 (c, d) →
     ∃ st', f (c, d) = Some st' ∧ WinTcpConn.good OPTIONS a0 t0 x0 st' ∧ WinTcpConn.follows (c, d) st') →
  healthy c d →
  ∃ c' d', f (c, d) = Some (c', d') ∧ healthy c' d' ∧ WinTcpConn.follows (c, d) (c', d').
Proof.
  intros Hf (a0 & t0 & x0 & Hg). destruct (Hf _ _ _ Hg) as ([c' d'] & ? & ? & ?).
  exists c', d'. split_and!; [done| |done]. by exists a0, t0, x0.
Qed.

Lemma is_closed_total c d : healthy c d → is_Some (WinTcpConn.is_closed (c, d)).
Proof.
  intros (a0 & t0 & x0 & s & Hs & _). unfold WinTcpConn.is_closed.
  rewrite (WinTcpConn.get_socket_none c d s Hs). by eexists.
Qed.

(** The end of an event. *)
Lemma note_closed_good s d id c c' d' :
  inv s d → conns s !! id = Some c → healthy c' d' → WinTcpConn.follows (c, d) (c', d') →
  ∃ s', note_closed id c' s d' = Some (s', d') ∧ inv s' d' ∧ NEXT_INDEX s' = NEXT_INDEX s.
Proof.
  intros Hi Hc Hg Hf. pose proof (inv_conn s d id c c' d' Hi Hc Hg Hf) as Hi'. unfold note_closed.
  destruct (is_closed_total c' d' Hg) as [b ->]. cbn [mbind option_bind]. eexists. split; [reflexivity|].
  destruct b; (split; [|done]); [|done]. apply inv_remove_later; [done|]. by apply healthy_live.
Qed.

Lemma do_remote_terminates now tk e s d :
  inv s d →
  terminates (λ fuel, do_remote OPTIONS spare fuel now tk e s d)
    (λ x, inv x.1 x.2 ∧ udps (WinTun.sockets x.2) = udps (WinTun.sockets d)).
Proof.
  intros Hi. unfold do_remote. destruct (token2conns s !! tk) as [id|] eqn:Ht; [|by apply terminates_ret].
  pose proof (proj1 (sh_key1 _ _ _ _ _ _ (w_tables _ _ Hi) _ _) Ht) as (c & Hc & _). rewrite Hc.
  cbn [mbind option_bind]. destruct (w_good _ _ Hi _ _ Hc) as (a0 & t0 & x0 & Hg).
  eapply terminates_bind; [by apply WinTcpConn.do_remote_good|]. intros [c' d'] (Hg' & Hf & _).
  destruct (note_closed_good s d id c c' d' Hi Hc) as (s' & -> & Hi' & _); [by exists a0, t0, x0|done|].
  apply terminates_ret. split; [done|]. apply Hf.
Qed.

Lemma server_remote_steady now tk e s d : steady (λ fuel, do_remote OPTIONS spare fuel now tk e s d).
Proof.
  unfold do_remote. destruct (token2conns s !! tk) as [id|]; [|apply steady_ret].
  destruct (conns s !! id) as [c|]; cbn [mbind option_bind]; [|apply steady_ret].
  apply steady_bind; [apply WinTcpConn.do_remote_steady|]. intros [c' d']. apply steady_ret.
Qed.

Lemma close_good c d : healthy c d → ∃ c' d', WinTcpConn.close (c, d) = Some (c', d') ∧ healthy c' d' ∧ WinTcpConn.follows (c, d) (c', d').
Proof.
  apply healthy_op. intros a0 t0 x0 Hg.
  destruct (WinTcpConn.good_close OPTIONS a0 t0 x0 _ Hg) as (st' & ? & ? & ? & _). eauto.
Qed.

Lemma put_inv s d id c c' d' :
  inv s d → conns s !! id = Some c → healthy c' d' → WinTcpConn.follows (c, d) (c', d') →
  inv (remove_later (put_conn s id c') (WinTcpConn.local c')) d'.
Proof.
  intros Hi Hc Hg Hf. apply inv_remove_later; [by eapply inv_conn|by apply healthy_live].
Qed.

(** *** Events of the tunnel *)

Lemma handle_good fuel now s pool d e s' pool' d' :
  inv s d → NEXT_INDEX s + 1 < MAX_INDEX →
  do_handle spare fuel now (s, pool, d) e = Some (s', pool', d') →
  inv s' d' ∧ NEXT_INDEX s' <= NEXT_INDEX s + 1 ∧ udps (WinTun.sockets d') = udps (WinTun.sockets d).
Proof.
  intros Hi Hx. unfold do_handle. destruct e as [h event]. intros ([sk d1] & Hg & H)%bind_Some.
  unfold WinTun.get_tcp_socket_mut in Hg. apply bind_Some in Hg as (sk0 & Hg & [= <- <-]).
  apply get_tcp_Some, lookup_tcps in Hg. destruct (is_listening sk0).
  - apply bind_Some in H as ([s1 d1] & Hm & [= <- <- <-]). destruct (handle2conns s !! h) as [id|] eqn:Hh.
    + pose proof (proj1 (sh_key2 _ _ _ _ _ _ (w_tables _ _ Hi) _ _) Hh) as (c & Hc & Hl).
      rewrite Hc in Hm. cbn [mbind option_bind] in Hm.
      destruct (close_good c d (w_good _ _ Hi _ _ Hc)) as (c' & d2 & Hcl & Hg' & Hf). rewrite Hcl in Hm.
      injection Hm as <- <-. pose proof (WinTcpConn.f_local _ _ Hf) as Hl'. cbn in Hl'.
      rewrite <-Hl, <-Hl'. split_and!; [by eapply put_inv|cbn; lia|apply Hf].
    + injection Hm as <- <-. split_and!; [|cbn; lia|done]. apply inv_remove_later; [done|by eexists].
  - apply bind_Some in H as ([[id s1] pool1] & Hc & H).
    destruct (conn_for_good now h s pool id s1 pool1 d sk0 Hi Hx Hg Hc) as (c & Hc1 & Hn & Hl & Hi1).
    apply bind_Some in H as (c0 & Hc0 & H). rewrite Hc1 in Hc0. injection Hc0 as <-. cbv zeta in H.
    set (s2 := match token2conns s1 !! _ with Some _ => _ | None => _ end) in *.
    assert (conns s2 !! id = Some c ∧ NEXT_INDEX s2 = NEXT_INDEX s1) as [Hc2 Hn2].
    { subst s2. by destruct (token2conns s1 !! _). }
    clearbody s2. apply bind_Some in H as ([c' d1] & Hl' & H).
    destruct (w_good _ _ Hi1 _ _ Hc2) as (a0 & t0 & x0 & Hgd).
    apply (terminates_steady _ _ _ _ (WinTcpConn.do_local_steady spare now event (c, d))
      (WinTcpConn.do_local_good OPTIONS spare a0 t0 x0 now event _ Hgd)) in Hl' as (Hg' & Hf & _).
    destruct (note_closed_good s2 d id c c' d1 Hi1 Hc2) as (s3 & He & Hi3 & Hn3); [by exists a0, t0, x0|done|].
    rewrite He in H. injection H as <- <- <-. split_and!; [done|lia|apply Hf].
Qed.

Lemma local_good fuel now s pool d s' pool' d' :
  inv s d → NEXT_INDEX s + Z.of_nat (length (Wakers.queue (WinTun.tcp_wakers d))) < MAX_INDEX →
  do_local spare fuel now (s, pool, d) = Some (s', pool', d') →
  inv s' d' ∧ udps (WinTun.sockets d') = udps (WinTun.sockets d).
Proof.
  intros Hi Hx. unfold do_local. destruct (WinTun.get_tcp_events d) as [events d1] eqn:Hev.
  assert (length (map_to_list events) <= length (Wakers.queue (WinTun.tcp_wakers d)))%nat as Hlen.
  { rewrite length_map_to_list. injection Hev as <- _. apply Wakers.size_events. }
  assert (inv s d1) as Hi1.
  { injection Hev as _ <-. pose proof (w_device _ _ Hi) as Hd. apply (inv_others s d); [done| |by apply WinTun.others_quiet].
    eapply WinTun.inv_keep_udps;
      [exact Hd|exact (WinTun.i_tcp_wakers _ Hd)|exact (WinTun.i_udp_wakers _ Hd)|done..]. }
  assert (udps (WinTun.sockets d1) = udps (WinTun.sockets d)) as <- by by injection Hev as _ <-.
  clear Hev Hi. revert s pool d1 Hi1 Hx. generalize dependent (length (Wakers.queue (WinTun.tcp_wakers d))).
  induction (map_to_list events) as [|h l IH]; intros n Hlen s pool d1 Hi1 Hx; [by intros [= <- <- <-]|].
  cbn [foldl]. change (Some (s, pool, d1) ≫= _) with (do_handle spare fuel now (s, pool, d1) h).
  destruct (do_handle spare fuel now (s, pool, d1) h) as [[[s1 pool1] d2]|] eqn:Hh.
  - simpl in Hlen. apply handle_good in Hh as (Hi2 & Hn & <-); [|done|lia].
    apply (IH (n - 1)%nat); [lia|done|lia].
  - intros H. exfalso. clear -H. induction l; [done|]. by apply IHl.
Qed.

(** *** Connections and sockets that go *)

(** [removed] is read once. *)
Lemma inv_cleared s d : inv s d → inv (with_removed s ∅) d.
Proof. intros []. by split. Qed.

Lemma remove_handle_good s d h :
  inv (with_removed s ∅) d → is_Some (tcps (WinTun.sockets d) !! h) →
  ∃ s' d', remove_handle (Some (s, d)) h = Some (s', d') ∧ inv (with_removed s' ∅) d'
    ∧ conns s' = filter (λ e : nat * WinTcpConn.t R, WinTcpConn.local e.2 ≠ h) (conns s)
    ∧ tcps (WinTun.sockets d') = delete h (tcps (WinTun.sockets d))
    ∧ udps (WinTun.sockets d') = udps (WinTun.sockets d).
Proof.
  intros Hi [sk Hsk]. pose proof Hi as [Hd Htab Hgd Hr Hu Hix Hus].
  cbn [conns next_conn token2conns handle2conns removed NEXT_INDEX with_removed] in *.
  destruct (WinTun.remove_tcp_socket_spec d h sk Hsk) as (d' & Hrm & Ht' & Hud & Hset & Htw & Huw).
  assert (WinTun.inv d') as Hd'.
  { eapply WinTun.inv_keep_udps; [exact Hd|rewrite Htw; apply Hd|rewrite Huw; apply Hd|done..]. }
  assert (∀ c, healthy c d → WinTcpConn.local c ≠ h → healthy c d') as Hkeep.
  { intros c (a & t0 & x0 & sk' & [Hw Hs'] & Hrest) Hne. exists a, t0, x0, sk'. split; [|done].
    split; cbn in *; [by rewrite Htw|]. by rewrite Ht', lookup_delete_ne. }
  unfold remove_handle. cbn [mbind option_bind].
  destruct (handle2conns s !! h) as [id|] eqn:Hh.
  - pose proof (proj1 (sh_key2 _ _ _ _ _ _ Htab _ _) Hh) as (c & Hc & Hl). rewrite Hc. cbn [mbind option_bind].
    pose proof (shared_dropped _ _ Htab id c Hc) as Hdr. rewrite Hl in Hdr. rewrite Hdr, Hrm. cbn [mbind option_bind].
    eexists _, d'. split; [reflexivity|]. cbn [conns]. split_and!; [|subst h; exact (shared_filter _ _ (shared_sym _ _ _ _ _ _ Htab) id c Hc)|done|done].
    pose proof (shared_delete _ _ Htab _ _ Hc) as Htab'. rewrite Hl in Htab'.
    split; cbn [conns next_conn token2conns handle2conns removed NEXT_INDEX with_removed]; [done|done| | | |done|].
    + intros id' x [Hne Hx]%lookup_delete_Some. apply Hkeep; [eauto|]. intros He. apply Hne.
      eapply (shared_inj2 _ _ Htab); [done..|congruence].
    + by intros h' ?%not_elem_of_empty.
    + intros h' sk' Hs' Hn. rewrite Ht' in Hs'. apply lookup_delete_Some in Hs' as [Hne Hs'].
      rewrite lookup_delete_ne in Hn by done. eauto.
    + intros id' x [_ Hx]%lookup_delete_Some. eauto.
  - rewrite Hrm. cbn [mbind option_bind]. exists s, d'. split; [done|].
    assert (∀ id c, conns s !! id = Some c → WinTcpConn.local c ≠ h) as Hother.
    { intros id c Hc He. destruct (shared_lookup _ _ Htab _ _ Hc). congruence. }
    split_and!; [|symmetry; apply map_filter_id; by intros; eapply Hother|done|done].
    split; cbn [conns next_conn token2conns handle2conns removed NEXT_INDEX with_removed]; try done.
    + intros id c Hc. eauto.
    + intros h' sk' Hs' Hn. rewrite Ht' in Hs'. apply lookup_delete_Some in Hs' as [_ Hs']. eauto.
Qed.

Lemma handles_removed l s d :
  inv (with_removed s ∅) d → NoDup l → (∀ h, h ∈ l → is_Some (tcps (WinTun.sockets d) !! h)) →
  ∃ s' d', foldl remove_handle (Some (s, d)) l = Some (s', d') ∧ inv (with_removed s' ∅) d'
    ∧ conns s' = filter (λ e : nat * WinTcpConn.t R, WinTcpConn.local e.2 ∉ l) (conns s)
    ∧ tcps (WinTun.sockets d') = filter (λ e : nat * TcpSocket, e.1 ∉ l) (tcps (WinTun.sockets d))
    ∧ udps (WinTun.sockets d') = udps (WinTun.sockets d).
Proof.
  revert s d. induction l as [|h l IH]; intros s d Hi Hnd Hl.
  - exists s, d. split_and!; try done; symmetry; apply map_filter_id; intros ? ? _; apply not_elem_of_nil.
  - apply NoDup_cons in Hnd as [Hnot Hnd]. cbn [foldl].
    destruct (remove_handle_good s d h Hi) as (s1 & d1 & -> & Hi1 & Hc1 & Ht1 & Hu1); [apply Hl; set_solver|].
    destruct (IH s1 d1 Hi1 Hnd) as (s2 & d2 & -> & Hi2 & Hc2 & Ht2 & Hu2).
    { intros h' Hh'. rewrite Ht1, lookup_delete_ne by set_solver. apply Hl. set_solver. }
    exists s2, d2. split_and!; try done; [| |congruence].
    + rewrite Hc2, Hc1, map_filter_filter. apply map_filter_ext. intros id c _. cbn. set_solver.
    + rewrite Ht2, Ht1. apply map_eq. intros h'. destruct (decide (h = h')) as [<-|Hne].
      * rewrite (proj2 (map_lookup_filter_None _ _ _)) by (left; by rewrite lookup_delete_eq).
        symmetry. apply map_lookup_filter_None. right. intros x _ Hx. apply Hx. cbn. set_solver.
      * apply option_eq. intros x. rewrite !map_lookup_filter_Some, lookup_delete_ne by done. cbn. set_solver.
Qed.

(** Exactly the sockets listed and their connections go. *)
Lemma remove_closed_good s d :
  inv s d → ∃ s' d', remove_closed s d = Some (s', d') ∧ inv s' d' ∧ removed s' = ∅
    ∧ conns s' = filter (λ e : nat * WinTcpConn.t R, WinTcpConn.local e.2 ∉ removed s) (conns s)
    ∧ tcps (WinTun.sockets d') = filter (λ e : nat * TcpSocket, e.1 ∉ removed s) (tcps (WinTun.sockets d))
    ∧ udps (WinTun.sockets d') = udps (WinTun.sockets d).
Proof.
  intros Hi. unfold remove_closed.
  destruct (handles_removed (elements (removed s)) s d) as (s' & d' & -> & Hi' & Hc & Ht & Hu);
    [by apply inv_cleared|apply NoDup_elements| |].
  { intros h Hh%elem_of_elements. by apply (w_removed _ _ Hi). }
  cbn [mbind option_bind]. exists (with_removed s' ∅), d'. split_and!; try done; cbn [conns with_removed].
  - rewrite Hc. apply map_filter_ext. intros id c _. cbn. set_solver.
  - rewrite Ht. apply map_filter_ext. intros id c _. cbn. set_solver.
Qed.

(** *** Timeouts *)

Lemma abort_good c d :
  healthy c d → ∃ c' d', WinTcpConn.abort_local (c, d) = Some (c', d') ∧ healthy c' d' ∧ WinTcpConn.follows (c, d) (c', d').
Proof.
  apply healthy_op. intros a0 t0 x0 (s & Hs & Hu & Hd). unfold WinTcpConn.abort_local.
  rewrite (WinTcpConn.get_socket_none c d s Hs). cbn [mbind option_bind].
  destruct (WinTcpConn.put_socket c d s (tcp_abort s) Hs) as [Hs' Hf]. eexists. split_and!; [reflexivity| |exact Hf].
  exists (tcp_abort s). split; [done|]. destruct (WinTcpConn.keeps_streams OPTIONS a0 t0 x0 c _ _ (tcp_abort_keeps s)).
  cbn in *. auto.
Qed.

(** An aborted socket is all that changes. *)
Lemma inv_conn_same s d id c c' d' :
  inv s d → conns s !! id = Some c → healthy c' d' → c' = c → WinTcpConn.follows (c, d) (c', d') → inv s d'.
Proof.
  intros Hi Hc Hg -> Hf. replace s with (put_conn s id c); [by eapply inv_conn|].
  destruct s. unfold put_conn, with_conns. cbn in *. by rewrite insert_id.
Qed.

Lemma expire_good now ids s d id :
  inv s d → is_Some (conns s !! id) → (∀ i, i ∈ ids → is_Some (conns s !! i)) →
  ∃ ids' d', expire now (Some (ids, s, d)) id = Some (ids', s, d') ∧ inv s d'
    ∧ udps (WinTun.sockets d') = udps (WinTun.sockets d) ∧ (∀ i, i ∈ ids' → is_Some (conns s !! i)).
Proof.
  intros Hi [c Hc] Hids. unfold expire. cbn [mbind option_bind]. rewrite Hc. cbn [mbind option_bind].
  assert (∀ i, i ∈ ids ++ [id] → is_Some (conns s !! i)) as Hids'.
  { intros i [Hin| ->%list_elem_of_singleton]%elem_of_app; eauto. }
  destruct (_ && _).
  - destruct (abort_good c d (w_good _ _ Hi _ _ Hc)) as (c' & d' & Ha & Hg & Hf). rewrite Ha. cbn [mbind option_bind].
    exists (ids ++ [id]), d'. split_and!; [done| |apply Hf|done]. eapply inv_conn_same; [done..| |done].
    unfold WinTcpConn.abort_local in Ha. by apply bind_Some in Ha as ([? ?] & _ & [= -> _]).
  - destruct (_ <? _); eexists _, d; by split_and!.
Qed.

Lemma expires_good now l : ∀ ids s d,
  inv s d → (∀ i, i ∈ l → is_Some (conns s !! i)) → (∀ i, i ∈ ids → is_Some (conns s !! i)) →
  ∃ ids' d', foldl (expire now) (Some (ids, s, d)) l = Some (ids', s, d') ∧ inv s d'
    ∧ udps (WinTun.sockets d') = udps (WinTun.sockets d) ∧ (∀ i, i ∈ ids' → is_Some (conns s !! i)).
Proof.
  induction l as [|id l IH]; intros ids s d Hi Hl Hids; [by exists ids, d|]. cbn [foldl].
  destruct (expire_good now ids s d id Hi) as (ids1 & d1 & -> & Hi1 & <- & Hids1); [apply Hl; set_solver|done|].
  apply IH; [done| |done]. intros i Hin. apply Hl. set_solver.
Qed.

Lemma closes_good ids : ∀ s d,
  inv s d → (∀ i, i ∈ ids → is_Some (conns s !! i)) →
  ∃ s' d', foldl close_conn (Some (s, d)) ids = Some (s', d') ∧ inv s' d'
    ∧ udps (WinTun.sockets d') = udps (WinTun.sockets d).
Proof.
  induction ids as [|id ids IH]; intros s d Hi Hl; [by exists s, d|]. cbn [foldl]. unfold close_conn at 2.
  cbn [mbind option_bind]. destruct (Hl id) as [c Hc]; [set_solver|]. rewrite Hc. cbn [mbind option_bind].
  destruct (close_good c d (w_good _ _ Hi _ _ Hc)) as (c' & d1 & -> & Hg & Hf). cbn [mbind option_bind].
  pose proof (WinTcpConn.t_udps _ _ _ (WinTcpConn.f_device _ _ Hf)) as Hu. cbn [fst snd] in Hu. rewrite <-Hu.
  apply IH; [by eapply put_inv|]. intros i Hin. cbn.
  destruct (decide (id = i)) as [<-|Hne]; [rewrite lookup_insert_eq; by eexists|].
  rewrite lookup_insert_ne by done. apply Hl. set_solver.
Qed.

Lemma check_timeout_good now s d :
  inv s d → ∃ s' d', check_timeout now s d = Some (s', d') ∧ inv s' d' ∧ removed s' = ∅
    ∧ udps (WinTun.sockets d') = udps (WinTun.sockets d).
Proof.
  intros Hi. unfold check_timeout.
  destruct (expires_good now (map_to_list (token2conns s)).*2 [] s d Hi) as (ids & d1 & -> & Hi1 & Hu1 & Hids).
  - intros id ([tk i] & -> & Hin)%list_elem_of_fmap. apply elem_of_map_to_list in Hin.
    apply (sh_key1 _ _ _ _ _ _ (w_tables _ _ Hi)) in Hin as (c & Hc & _). by exists c.
  - by intros i ?%elem_of_nil.
  - cbn [mbind option_bind]. destruct (closes_good ids s d1 Hi1 Hids) as (s2 & d2 & -> & Hi2 & Hu2).
    cbn [mbind option_bind]. destruct (remove_closed_good s2 d2 Hi2) as (s3 & d3 & ? & ? & ? & _ & _ & Hu3).
    exists s3, d3. split_and!; try done. congruence.
Qed.

Lemma tcp_new_inv d :
  WinTun.inv d → (∀ h sk, tcps (WinTun.sockets d) !! h = Some sk → tcp_read sk = 0%nat) → inv (new MIN_INDEX) d.
Proof.
  intros Hd Hun. split; cbn [conns new token2conns handle2conns removed NEXT_INDEX next_conn].
  - done.
  - apply shared_empty.
  - intros id c. by rewrite lookup_empty.
  - by intros h ?%elem_of_empty.
  - eauto.
  - by vm_compute.
  - intros id c. by rewrite lookup_empty.
Qed.
End Tables.

(** *** Runs of the server *)

Section Runs.
Context {R P : Type} {Rem : Remote R} {Pool : RemotePool P R} {Law : LawfulRemote R}.
Context {Stk : Smoltcp} {L : ReadLive} {Obs : Observed Stk} {K : SmoltcpOk Stk}.
Context (OPTIONS : Opts) (spare : bytes → nat).

(** What the main loop does with the server and the device, and what else happens
    to the device.  A call is not to reach the end of the indices, after which
    tokens are used again. *)
Inductive step : t R * WinTun.t → t R * WinTun.t → Prop :=
  | step_local fuel now s pool d s' pool' d' :
      NEXT_INDEX s + Z.of_nat (length (Wakers.queue (WinTun.tcp_wakers d))) < MAX_INDEX →
      do_local spare fuel now (s, pool, d) = Some (s', pool', d') → step (s, d) (s', d')
  | step_remote fuel now tk e s d s' d' :
      do_remote OPTIONS spare fuel now tk e s d = Some (s', d') → step (s, d) (s', d')
  | step_removed s d s' d' : remove_closed s d = Some (s', d') → step (s, d) (s', d')
  | step_timeout now s d s' d' : check_timeout now s d = Some (s', d') → step (s, d) (s', d')
  | step_device k args s d d' : WinTun.step k args d d' → WinTun.others d d' → step (s, d) (s, d').

Lemma no_tcps_unread mtu now h sk :
  tcps (WinTun.sockets (WinTun.new mtu sockets_empty now)) !! h = Some sk → tcp_read sk = 0%nat.
Proof. intros Hs%lookup_tcps. cbn in Hs. by rewrite sockets_view_empty in Hs. Qed.

Lemma tcp_step_inv st st' : step st st' → inv OPTIONS st.1 st.2 → inv OPTIONS st'.1 st'.2.
Proof.
  destruct 1 as [| |s d s' d' H|now s d s' d' H|]; cbn; intros Hi.
  - by eapply (local_good OPTIONS).
  - by destruct (terminates_steady _ _ _ _ (server_remote_steady OPTIONS spare now tk e s d) (do_remote_terminates OPTIONS spare now tk e s d Hi) H) as [? _].
  - destruct (remove_closed_good OPTIONS s d Hi) as (? & ? & ? & ? & _). by simplify_eq.
  - destruct (check_timeout_good OPTIONS now s d Hi) as (? & ? & ? & ? & _). by simplify_eq.
  - apply (inv_others OPTIONS s d); [done| |done]. by eapply WinTun.win_step_inv; [|apply Hi].
Qed.

(** The tables of the tunnel's TCP server: whatever events are served, a connection
    is reached by its token and by its socket's handle, and nothing else is, and its
    socket is in the device.  No event of a connection to the server panics or runs
    forever; [remove_closed], which panics on a handle without socket, always returns
    and takes exactly the sockets it was asked to take and their connections;
    [check_timeout] always returns and leaves nothing to remove. *)
Theorem tunnel_tcp_tables_agree mtu now s d :
  rtc step (new MIN_INDEX, WinTun.new mtu sockets_empty now) (s, d) →
  (∀ id c, conns s !! id = Some c →
     token2conns s !! WinTcpConn.token c = Some id ∧ handle2conns s !! WinTcpConn.local c = Some id
     ∧ is_Some (tcps (WinTun.sockets d) !! WinTcpConn.local c))
  ∧ (∀ tk id, token2conns s !! tk = Some id → ∃ c, conns s !! id = Some c ∧ WinTcpConn.token c = tk)
  ∧ (∀ h id, handle2conns s !! h = Some id → ∃ c, conns s !! id = Some c ∧ WinTcpConn.local c = h)
  ∧ (∀ now' tk e, terminates (λ fuel, do_remote OPTIONS spare fuel now' tk e s d) (step (s, d)))
  ∧ (∃ s' d', remove_closed s d = Some (s', d')
       ∧ conns s' = filter (λ e : nat * WinTcpConn.t R, WinTcpConn.local e.2 ∉ removed s) (conns s)
       ∧ tcps (WinTun.sockets d') = filter (λ e : nat * TcpSocket, e.1 ∉ removed s) (tcps (WinTun.sockets d))
       ∧ udps (WinTun.sockets d') = udps (WinTun.sockets d))
  ∧ (∀ now', ∃ s' d', check_timeout now' s d = Some (s', d') ∧ removed s' = ∅).
Proof.
  intros Hr. assert (∀ st0 st, rtc step st0 st → inv OPTIONS st0.1 st0.2 → inv OPTIONS st.1 st.2) as Hrun.
  { induction 1; eauto using tcp_step_inv. }
  pose proof (Hrun _ _ Hr (tcp_new_inv OPTIONS _ (WinTun.win_new_inv mtu now) (no_tcps_unread mtu now))) as Hi. cbn [fst snd] in Hi. split_and!.
  - intros id c Hc. destruct (shared_lookup _ _ (w_tables _ _ _ Hi) _ _ Hc) as [? ?]. split_and!; [done..|].
    eapply healthy_live, (w_good OPTIONS); [exact Hi|exact Hc].
  - intros tk id. apply (sh_key1 _ _ _ _ _ _ (w_tables _ _ _ Hi)).
  - intros h id. apply (sh_key2 _ _ _ _ _ _ (w_tables _ _ _ Hi)).
  - intros now' tk e. eapply terminates_weaken.
    { apply terminates_with; [by apply do_remote_terminates|].
      instantiate (1 := step (s, d)). intros fuel [s' d'] H. by eapply step_remote. }
    by intros ? [_ ?].
  - destruct (remove_closed_good OPTIONS s d Hi) as (s' & d' & ? & _ & _ & ?). eauto.
  - intros now'. destruct (check_timeout_good OPTIONS now' s d Hi) as (s' & d' & ? & _ & ? & _). eauto.
Qed.

End Runs.

(** A socket's first event panics when no connection can be made. *)
Lemma no_remote_panics {R P} {Rem : Remote R} {Pool : RemotePool P R} now h (s : t R) (pool pool' : P) :
  handle2conns s !! h = None → pool_get pool = (None, pool') → conn_for now h s pool = None.
Proof. intros Hh Hp. unfold conn_for. rewrite Hh. destruct (next_token _ _). by rewrite Hp. Qed.

End WinTcpServer.

(** ** Examples *)

Module WinTcpWitness.
#[local] Existing Instance Sim.env.
#[local] Existing Instance Sim.env_ok.
#[local] Existing Instance sim_rw.
#[local] Existing Instance SimStack.smoltcp.
#[local] Existing Instance SimStack.observed.
#[local] Existing Instance SimStack.smoltcp_ok.
#[local] Instance rem : Remote (TlsConn Sim.env) := tls_remote 100.
#[local] Instance law : LawfulRemote (TlsConn Sim.env) := tls_lawful (Rw := sim_rw) 100.
#[local] Instance idle : RemotePool (IdlePool.t Sim.env * OS * DnsResolver) (TlsConn Sim.env) := idle_pool 100.

Definition opts : Opts := IdlePoolWitness.opts.
Definition spare (b : bytes) : nat := 1500.
Definition client : SocketAddr := mkSocketAddr (V4 [10; 0; 0; 2]) 4096.
Definition target : SocketAddr := WinTun.Witness.target.

(** A packet asked for a connection; the stack accepted it, took three bytes and
    woke the socket's waker. *)
Definition device1 : WinTun.t :=
  default WinTun.Witness.start
    (WinTun.receive WinTun.Witness.class WinTun.Witness.args WinTun.Witness.start (IoOk (Some WinTun.Witness.syn))).
Definition socket : Smoltcp.TcpSocket :=
  SimStack.mkTcp Established (Some client) (Some target) [] [1; 2; 3] [] 100.
Definition fed : Smoltcp.SocketSet := sockets_put (WinTun.sockets device1) 0 (Tcp socket).
Definition device2 : WinTun.t :=
  WinTun.with_udp_wakers (WinTun.with_tcp_wakers (WinTun.with_sockets device1 fed)
    (Wakers.mk (Wakers.wakers (WinTun.tcp_wakers device1)) [(0%nat, 3)]))
    (Wakers.mk (Wakers.wakers (WinTun.udp_wakers device1)) []).

(** The server's side: what it answers, and room for what it is sent. *)
Definition remote (answer : bytes) : TlsConn Sim.env :=
  mkTlsConn (E := Sim.env) (Sim.mkSession [] [] [answer] [] 500 []) Sim.idle_stream 2 8 Status.Established true.
Definition run (fuel : nat) (ops : list WinTcpConn.op) : option (WinTcpConn.t (TlsConn Sim.env) * WinTun.t) :=
  foldl (λ acc x, st ← acc; WinTcpConn.run_op opts spare fuel st x)
    (Some (WinTcpConn.new 8 0 (remote [7; 7]) 0, device2)) ops.

Definition ops : list (WinTcpConn.op (R := TlsConn Sim.env)) :=
  [WinTcpConn.OpLocal 1 3; WinTcpConn.OpRemote 2 (mkEvent 8 true true); WinTcpConn.OpLocal 3 1].

Example relayed :
  (λ '(c, d), (Sim.ss_plain_out (session (WinTcpConn.remote c)), WinTcpConn.lclosed c,
     SimStack.tx <$> tcps (WinTun.sockets d) !! 0%nat)) <$> run 20 ops
  = Some (TrojanRequest.generate_endpoint opts CONNECT target ++ [1; 2; 3], false, Some [7; 7]).
Proof. by vm_compute. Qed.


(** *** The server's tables after the socket's first event *)

Definition pool : IdlePool.t Sim.env * OS * DnsResolver :=
  (IdlePool.init_index (IdlePool.mk [] 0 2 client [65] 443 0 0 0 0) 3 0 2 1000,
   Sim.mkSystem [Sim.idle_stream; Sim.idle_stream; Sim.idle_stream] [], dns_resolver_new 3 None).
Definition empty : WinTcpServer.t (TlsConn Sim.env) := WinTcpServer.new MIN_INDEX.
Definition first : WinTcpServer.t (TlsConn Sim.env) * (IdlePool.t Sim.env * OS * DnsResolver) * WinTun.t :=
  default (empty, pool, device2) (WinTcpServer.do_local spare 5 0 (empty, pool, device2)).

Lemma tcp_first_run : WinTcpServer.do_local spare 5 0 (empty, pool, device2) = Some first.
Proof.
  assert (is_Some (WinTcpServer.do_local spare 5 0 (empty, pool, device2))) as [x Hx]
    by (apply (bool_decide_unpack _); vm_compute; exact I).
  unfold first. by rewrite Hx.
Qed.

Lemma tcp_fed_evolves : evolves (WinTun.sockets device1) fed.
Proof.
  eapply evolves_put; [by vm_compute|]. split_and!; try done. by apply prefix_nil.
Qed.

Lemma tcp_first_reachable :
  rtc (WinTcpServer.step opts spare (Pool := idle))
    (empty, WinTun.new 1500 sockets_empty 0) (first.1.1, first.2).
Proof.
  assert (WinTun.receive WinTun.Witness.class WinTun.Witness.args WinTun.Witness.start
    (IoOk (Some WinTun.Witness.syn)) = Some device1) as Hr by by vm_compute.
  assert (WinTun.packet_ok WinTun.Witness.syn) as Hp by (apply (bool_decide_unpack _); by vm_compute).
  eapply rtc_l; [|eapply rtc_l; [|apply rtc_once]].
  - eapply (WinTcpServer.step_device _ _ WinTun.Witness.class WinTun.Witness.args _ _ device1).
    + by eapply (WinTun.step_receive _ _ _ WinTun.Witness.syn).
    + eapply WinTun.receive_others; [apply WinTun.win_new_inv|exact Hp|exact Hr].
  - eapply (WinTcpServer.step_device _ _ WinTun.Witness.class WinTun.Witness.args _ _ device2).
    + apply (WinTun.step_stack _ _ _ fed), tcp_fed_evolves.
    + apply WinTun.stack_others, tcp_fed_evolves.
  - apply (WinTcpServer.step_local _ _ 5 0 empty pool device2 first.1.1 first.1.2 first.2); [by vm_compute|].
    by rewrite tcp_first_run, <-!surjective_pairing.
Qed.

Lemma tunnel_tcp_tables_agree_witness :
  ∃ c, WinTcpServer.conns first.1.1 !! 0%nat = Some c
    ∧ WinTcpServer.token2conns first.1.1 !! WinTcpConn.token c = Some 0%nat
    ∧ WinTcpServer.handle2conns first.1.1 !! WinTcpConn.local c = Some 0%nat
    ∧ is_Some (tcps (WinTun.sockets first.2) !! WinTcpConn.local c).
Proof.
  assert (is_Some (WinTcpServer.conns first.1.1 !! 0%nat)) as [c Hc]
    by (apply (bool_decide_unpack _); vm_compute; exact I).
  exists c. split; [exact Hc|].
  exact (proj1 (WinTcpServer.tunnel_tcp_tables_agree (Law := law) _ _ 1500 0 _ _ tcp_first_reachable) 0%nat c Hc).
Defined.
End WinTcpWitness.
