(* ===== verification/WinRun.v ===== *)
(** * The tunnel's main loop ([run] of [src/src/wintun/mod.rs])

    The two servers of the tunnel over one device, with the pool they take their
    connections from.  What the TCP/IP stack does when it is polled, the events of a
    poll and whether the status file could be written are arguments of a turn, the
    adapter and the routes are set up outside.  [None] is a panic, an error that ends
    the loop, or exhausted fuel; a turn reads the clock once. *)

From Stdlib Require Import ZArith Lia Floats.SpecFloat.
From stdpp Require Import base option list gmap fin_maps relations.
From S2P Require Import Prelude.
From S2P Require Import Net.
From S2P Require Import Config.
From S2P Require Import Proto.
From S2P Require Import Env.
From S2P Require Import Status.
From S2P Require Import TlsConn.
From S2P Require Import TcpUtil.
From S2P Require Import Resolver.
From S2P Require Import IdlePool.
From S2P Require Import TlsStream.
From S2P Require Import Smoltcp.
From S2P Require Import IpSet.
From S2P Require Import ArcTables.
From S2P Require Import TunPool.
From S2P Require Import WinTun.
From S2P Require Import WinUdp.
From S2P Require Import WinTcp.

Open Scope Z_scope.

Definition WIN_RESOLVER : Z := 1.

(** ** The servers change the pool by [get] alone *)

Section Pool.
Context {R P : Type} {Rem : Remote R} {Pool : RemotePool P R} {Stk : Smoltcp} {L : ReadLive}.
Context (spare : bytes → nat) (Q : P → Prop) (Hget : ∀ p, Q p → Q (pool_get p).2).

Lemma udp_local_pool fuel now s pool d s' pool' d' :
  WinUdpServer.do_local fuel now (s, pool, d) = Some (s', pool', d') → Q pool → Q pool'.
Proof.
  assert (∀ handle src (s0 : WinUdpServer.t R) p id s1 p1,
    WinUdpServer.conn_for now handle src s0 p = Some (id, s1, p1) → Q p → Q p1) as Hconn.
  { intros handle src s0 p id s1 p1. unfold WinUdpServer.conn_for.
    destruct (WinUdpServer.addr2conns s0 !! src); [by intros [= _ _ <-]|]. intros H Hp. apply Hget in Hp.
    destruct (pool_get p) as [[r|] p2]; [|done]. cbn [mbind option_bind snd] in *.
    destruct (next_token _ _). by injection H as _ _ <-. }
  assert (∀ fuel handle dst sk (s0 : WinUdpServer.t R) p sk1 s1 p1,
    WinUdpServer.recv_loop fuel now handle dst sk s0 p = Some (sk1, s1, p1) → Q p → Q p1) as Hloop.
  { clear fuel. intros fuel. induction fuel as [|fuel IH]; intros handle dst sk s0 p sk1 s1 p1; [done|].
    cbn [WinUdpServer.recv_loop]. destruct (udp_recv sk) as [[[data src]|] sk2]; [|by intros [= _ _ <-]].
    intros (a & _ & H)%bind_Some Hp. apply bind_Some in H as ([s2 p2] & Hd & H). eapply IH; [exact H|].
    unfold WinUdpServer.do_datagram in Hd. apply bind_Some in Hd as ([[id s3] p3] & Hc & Hd).
    apply bind_Some in Hd as (c & _ & Hd). apply bind_Some in Hd as (c' & _ & [= _ <-]). eauto. }
  unfold WinUdpServer.do_local. destruct (WinTun.get_udp_events d) as [ev d1].
  intros H Hp. revert s pool d1 Hp H.
  induction ((map_to_list ev).*1) as [|h l IH]; intros s pool d1 Hp; [by intros [= _ <- _]|]. cbn [foldl].
  change (Some (s, pool, d1) ≫= _) with (WinUdpServer.do_handle fuel now (s, pool, d1) h).
  destruct (WinUdpServer.do_handle fuel now (s, pool, d1) h) as [[[s1 p1] d2]|] eqn:Hh.
  - apply IH. unfold WinUdpServer.do_handle in Hh. apply bind_Some in Hh as ([sk d3] & _ & Hh).
    apply bind_Some in Hh as ([[sk1 s2] p2] & Hl & [= _ <- _]). by eapply Hloop.
  - intros H. exfalso. clear -H. induction l; [done|]. by apply IHl.
Qed.

Lemma tcp_local_pool fuel now s pool d s' pool' d' :
  WinTcpServer.do_local spare fuel now (s, pool, d) = Some (s', pool', d') → Q pool → Q pool'.
Proof.
  unfold WinTcpServer.do_local. destruct (WinTun.get_tcp_events d) as [ev d1].
  intros H Hp. revert s pool d1 Hp H.
  induction (map_to_list ev) as [|h l IH]; intros s pool d1 Hp; [by intros [= _ <- _]|]. cbn [foldl].
  change (Some (s, pool, d1) ≫= _) with (WinTcpServer.do_handle spare fuel now (s, pool, d1) h).
  destruct (WinTcpServer.do_handle spare fuel now (s, pool, d1) h) as [[[s1 p1] d2]|] eqn:Hh.
  - apply IH. unfold WinTcpServer.do_handle in Hh. destruct h as [h e].
    apply bind_Some in Hh as ([sk d3] & _ & Hh). destruct (is_listening sk).
    + by apply bind_Some in Hh as ([s2 d4] & _ & [= _ <- _]).
    + apply bind_Some in Hh as ([[id s2] p2] & Hc & Hh). apply bind_Some in Hh as (c & _ & Hh).
      apply bind_Some in Hh as ([c' d4] & _ & Hh). apply bind_Some in Hh as ([s3 d5] & _ & [= _ <- _]).
      revert Hc. unfold WinTcpServer.conn_for. destruct (WinTcpServer.handle2conns s !! h); [by intros [= _ _ <-]|].
      destruct (next_token _ _). intros Hc. apply Hget in Hp. destruct (pool_get pool) as [[r|] p3]; [|done].
      cbn [mbind option_bind snd] in *. by injection Hc as _ _ <-.
  - intros H. exfalso. clear -H. induction l; [done|]. by apply IHl.
Qed.
End Pool.

(** ** More fuel changes nothing *)

Section Steady.
Context {E : Env}.

Lemma do_read_steady (c : TlsConn E) : steady (λ fuel, do_read fuel c).
Proof.
  unfold do_read. apply steady_bind; [|intros c1; exact (steady_ret _)]. intros fuel n x.
  revert c. induction fuel as [|fuel IH]; intros c; [done|]. cbn [do_read_loop Nat.add].
  destruct (session_read_tls _ _) as [[r s] o]. destruct r as [[|m]|[]]; try done. apply IH.
Qed.

Lemma do_send_steady (c : TlsConn E) : steady (λ fuel, do_send fuel c).
Proof.
  unfold do_send. destruct (is_connecting c); [exact (steady_ret _)|]. generalize (with_writable c true).
  clear c. intros c fuel n x. revert c. induction fuel as [|fuel IH]; intros c; [done|].
  cbn [do_send_loop Nat.add]. destruct (negb _); [done|].
  destruct (session_write_tls _ _) as [[r s] o]. destruct r as [|[]]; try done. apply IH.
Qed.

Lemma pool_ready_steady (p : IdlePool.t E) event : steady (λ fuel, IdlePool.ready fuel p event).
Proof.
  unfold IdlePool.ready. destruct (list_find _ _) as [[i c]|]; [|exact (steady_ret _)].
  apply steady_bind; [|intros c1; exact (steady_ret _)]. unfold IdlePool.ready_conn. apply steady_bind.
  - destruct (is_readable event); [|exact (steady_ret _)].
    apply steady_bind; [apply do_read_steady|]. intros [? ?]. exact (steady_ret _).
  - intros c1. apply steady_bind; [|intros c2; exact (steady_ret _)].
    destruct (is_writable event); [apply do_send_steady|exact (steady_ret _)].
Qed.

Lemma mapM_steady {A B} (f : nat → A → option B) l :
  (∀ x, steady (λ fuel, f fuel x)) → steady (λ fuel, mapM (f fuel) l).
Proof.
  intros Hf. induction l as [|x l IH]; [exact (steady_ret _)|]. cbn [mapM].
  apply (steady_bind (λ fuel, f fuel x)); [apply Hf|]. intros y.
  apply (steady_bind (λ fuel, mapM (f fuel) l)); [done|]. intros ys. exact (steady_ret _).
Qed.

Lemma pool_timeout_steady (p : IdlePool.t E) : steady (λ fuel, IdlePool.check_timeout fuel p).
Proof.
  unfold IdlePool.check_timeout. apply steady_bind; [|intros v; exact (steady_ret _)]. apply mapM_steady.
  intros c. unfold IdlePool.check_conn. apply steady_bind; [|intros c1; exact (steady_ret _)].
  destruct (negb _); [|exact (steady_ret _)]. apply steady_bind; [apply do_read_steady|].
  intros [? ?]. exact (steady_ret _).
Qed.
End Steady.

(** ** What the stack does when it is polled *)

Section Stack.
Context {Stk : Smoltcp} {Obs : Observed Stk} {K : SmoltcpOk Stk} (k : Ipv4Class) (args : WintunArgs).

(** It takes packets from the device, feeds the sockets, wakes their wakers and sends
    packets. *)
Inductive fed : WinTun.t → WinTun.t → Prop :=
  | fed_receive d p d' : WinTun.packet_ok p → WinTun.receive k args d (IoOk (Some p)) = Some d' → fed d d'
  | fed_stack d ss tq uq : evolves (WinTun.sockets d) ss →
      fed d (WinTun.with_udp_wakers (WinTun.with_tcp_wakers (WinTun.with_sockets d ss)
               (Wakers.mk (Wakers.wakers (WinTun.tcp_wakers d)) tq))
               (Wakers.mk (Wakers.wakers (WinTun.udp_wakers d)) uq))
  | fed_consume d n d' : WinTun.consume d n true = Some d' → fed d d'.

(** What that leaves the servers. *)
Record kept (d d' : WinTun.t) : Prop := {
  k_inv : WinTun.inv d';
  k_tcp : WinTun.others d d';
  k_udp h : is_Some (udps (WinTun.sockets d) !! h) → is_Some (udps (WinTun.sockets d') !! h)
}.

Lemma fed_kept d d' : WinTun.inv d → fed d d' → kept d d'.
Proof.
  intros Hd Hf. destruct Hf as [d p d' Hp Hr|d ss tq uq He|d n d' Hc].
  - split; [|by eapply WinTun.receive_others|by intros h; eapply WinTun.receive_keeps_udps].
    eapply (WinTun.win_step_inv k args); [by eapply WinTun.step_receive|done].
  - split; [|by apply WinTun.stack_others|].
    + eapply (WinTun.win_step_inv k args); [by apply WinTun.step_stack|done].
    + intros h [s Hs]. destruct (evolves_udp _ _ _ _ He Hs) as (s' & Hs' & _). by exists s'.
  - split; [eapply (WinTun.win_step_inv k args); [by eapply WinTun.step_consume|done]| |].
    + injection Hc as <-. by apply WinTun.others_quiet.
    + by injection Hc as <-.
Qed.
End Stack.

(** ** The loop *)

Module WinRun.
Section Run.
Context {E : Env} {Stk : Smoltcp} {Oct : Ipv6FromBytes}.
Context (OPTIONS : Opts) (spare : bytes → nat) (io_fuel : nat).
#[local] Instance remote : Remote (TlsConn E) := tls_remote io_fuel.
#[local] Instance remote_pool : RemotePool (IdlePool.t E * OS * DnsResolver) (TlsConn E) := idle_pool io_fuel.

Record t : Type := mk {
  resolver : DnsResolver;
  pool : IdlePool.t E;
  os : OS;
  udp_server : WinUdpServer.t (TlsConn E);
  tcp_server : WinTcpServer.t (TlsConn E);
  device : WinTun.t;
  last_check_time : Z;
  last_speed_time : Z;
  status : option (spec_float * spec_float)  (* the status file *)
}.

Definition with_pool (r : t) (st : IdlePool.t E * OS * DnsResolver) : t :=
  mk st.2 st.1.1 st.1.2 (udp_server r) (tcp_server r) (device r) (last_check_time r) (last_speed_time r) (status r).
Definition pool_state (r : t) : IdlePool.t E * OS * DnsResolver := (pool r, os r, resolver r).
Definition with_udp (r : t) (s : WinUdpServer.t (TlsConn E)) (d : WinTun.t) : t :=
  mk (resolver r) (pool r) (os r) s (tcp_server r) d (last_check_time r) (last_speed_time r) (status r).
Definition with_tcp (r : t) (s : WinTcpServer.t (TlsConn E)) (d : WinTun.t) : t :=
  mk (resolver r) (pool r) (os r) (udp_server r) s d (last_check_time r) (last_speed_time r) (status r).
Definition with_device (r : t) (d : WinTun.t) : t :=
  mk (resolver r) (pool r) (os r) (udp_server r) (tcp_server r) d (last_check_time r) (last_speed_time r) (status r).

(** [hostname] is checked as a server name outside. *)
Definition prepare_idle_pool (pool_size : nat) (port : Z) (hostname : bytes) (o : OS) (resolver : DnsResolver) :
    option (IdlePool.t E * OS * DnsResolver) :=
  pool ← IdlePool.new OPTIONS (pool_size + 1) port hostname;
  let pool := IdlePool.init_index pool CHANNEL_CNT CHANNEL_IDLE MIN_INDEX MAX_INDEX in
  Some (IdlePool.init (pool, o, resolver)).

Definition start (now : Z) (pool_size : nat) (port : Z) (hostname : bytes) (dns_server : option bytes) (mtu : Z) (o : OS) :
    option t :=
  '(pool, o, resolver) ← prepare_idle_pool pool_size port hostname o (dns_resolver_new WIN_RESOLVER dns_server);
  Some (mk resolver pool o (WinUdpServer.new MIN_INDEX) (WinTcpServer.new MIN_INDEX)
          (WinTun.new mtu sockets_empty now) now now None).

(** The servers take what the stack has for them. *)
Definition serve_local (fuel : nat) (now : Z) (r : t) : option t :=
  '(s, st, d) ← WinUdpServer.do_local fuel now (udp_server r, pool_state r, device r);
  let r := with_pool (with_udp r s d) st in
  '(s, st, d) ← WinTcpServer.do_local spare fuel now (tcp_server r, pool_state r, device r);
  Some (with_pool (with_tcp r s d) st).

Definition run_event (fuel : nat) (now : Z) (r : t) (event : Event) : option t :=
  let i := ev_token event in
  if i =? WIN_RESOLVER then
    '(d, p) ← consume now (λ p _ ip, Some (IdlePool.resolve p ip)) (resolver r) (pool r);
    Some (with_pool r (p, os r, d))
  else if i mod CHANNEL_CNT =? CHANNEL_IDLE then
    p ← IdlePool.ready fuel (pool r) event; Some (with_pool r (p, os r, resolver r))
  else if i mod CHANNEL_CNT =? CHANNEL_UDP then
    '(s, d) ← WinUdpServer.do_remote OPTIONS spare fuel now i event (udp_server r) (device r);
    Some (with_udp r s d)
  else
    '(s, d) ← WinTcpServer.do_remote OPTIONS spare fuel now i event (tcp_server r) (device r);
    Some (with_tcp r s d).

(** What follows the events of a poll. *)
Definition remove_closed (r : t) : option t :=
  '(s, d) ← WinTcpServer.remove_closed (tcp_server r) (device r);
  let r := with_tcp r s d in
  s ← WinUdpServer.remove_closed (udp_server r);
  Some (with_udp r s (device r)).

Definition report_speed (now : Z) (written : bool) (r : t) : option t :=
  if 1000 <? since now (last_speed_time r) / 1000000 then
    let '(speed, d) := WinTun.calculate_speed now (device r) in
    if written then
      Some (mk (resolver r) (pool r) (os r) (udp_server r) (tcp_server r) d (last_check_time r) now (Some speed))
    else None
  else Some r.

Definition check_timeout (fuel : nat) (now : Z) (r : t) : option t :=
  if secs 60 <? since now (last_check_time r) then
    '(s, d) ← WinTcpServer.check_timeout now (tcp_server r) (device r);
    let r := with_tcp r s d in
    '(s, d) ← WinUdpServer.check_timeout now (udp_server r) (device r);
    let r := with_udp r s d in
    p ← IdlePool.check_timeout fuel (pool r);
    Some (mk (resolver r) p (os r) (udp_server r) (tcp_server r) (device r) now (last_speed_time r) (status r))
  else Some r.

Definition run_turn (fuel : nat) (now : Z) (poll : WinTun.t → bool * WinTun.t) (written : bool) (events : list Event)
    (r : t) : option t :=
  let '(progress, d) := poll (device r) in
  let r := with_device r d in
  r ← (if progress then serve_local fuel now r else Some r);
  r ← foldl (λ acc event, r ← acc; run_event fuel now r event) (Some r) events;
  r ← remove_closed r;
  r ← report_speed now written r;
  check_timeout fuel now r.

(** ** The servers together *)

Section Invariant.
Context {Ok : EnvOk E} {Rw : EnvRw E} {Obs : Observed Stk} {K : SmoltcpOk Stk}.
Context (k : Ipv4Class) (args : WintunArgs) (cfg : nat * Z * Z * Z * Z).
#[local] Instance lawful : LawfulRemote (TlsConn E) := tls_lawful io_fuel.

Record inv (r : t) : Prop := mkInv {
  n_udp : WinUdpServer.inv (udp_server r) (device r);
  n_tcp : WinTcpServer.inv OPTIONS (tcp_server r) (device r);
  n_pool : IdlePool.ok cfg (pool r)
}.

Lemma pool_get_ok (st : IdlePool.t E * OS * DnsResolver) :
  IdlePool.ok cfg st.1.1 → IdlePool.ok cfg (pool_get st).2.1.1.
Proof. intros Hp. by apply (IdlePool.get_loop_ok cfg (IdlePool.size st.1.1) st). Qed.

(** One server's work leaves the other's tables. *)
Lemma udp_others s d d' :
  WinTcpServer.inv OPTIONS s d → WinTun.inv d' → WinTun.quiet d d' → WinTcpServer.inv OPTIONS s d'.
Proof.
  intros Hi Hd [Ht Hw]. apply (WinTcpServer.inv_others OPTIONS s d); [done..|].
  apply WinTun.others_quiet; [done|by rewrite Hw].
Qed.

Lemma tcp_others (s : WinUdpServer.t (TlsConn E)) d d' :
  WinUdpServer.inv s d → WinTun.inv d' → udps (WinTun.sockets d') = udps (WinTun.sockets d) → WinUdpServer.inv s d'.
Proof. intros Hi Hd He. apply (WinUdpServer.inv_device s d); [done..|]. by rewrite He. Qed.

(** A call of [serve_local] does not reach the end of the indices. *)
Definition room (fuel : nat) (r : t) : Prop :=
  WinUdpServer.NEXT_INDEX (udp_server r)
    + Z.of_nat (fuel * length (Wakers.queue (WinTun.udp_wakers (device r)))) < MAX_INDEX
  ∧ WinTcpServer.NEXT_INDEX (tcp_server r)
    + Z.of_nat (length (Wakers.queue (WinTun.tcp_wakers (device r)))) < MAX_INDEX.

Lemma serve_local_inv fuel now r r' :
  inv r → room fuel r → serve_local fuel now r = Some r' → inv r'.
Proof.
  intros [Hu Ht Hp] [Hru Hrt]. unfold serve_local.
  intros ([[su st] d1] & H1 & H)%bind_Some. apply bind_Some in H as ([[s2 st2] d2] & H2 & [= <-]).
  pose proof (udp_local_pool (λ st, IdlePool.ok cfg st.1.1) pool_get_ok _ _ _ _ _ _ _ _ H1 Hp) as Hp1.
  apply WinUdpServer.do_local_ok in H1 as [Hu1 [Hq _ _]]; [|done..].
  pose proof (udp_others _ _ _ Ht (WinUdpServer.v_device _ _ Hu1) Hq) as Ht1.
  change (tcp_server (with_pool (with_udp r su d1) st)) with (tcp_server r) in H2.
  change (device (with_pool (with_udp r su d1) st)) with d1 in H2.
  change (pool_state (with_pool (with_udp r su d1) st)) with (st.1.1, st.1.2, st.2) in H2.
  pose proof (tcp_local_pool spare (λ st, IdlePool.ok cfg st.1.1) pool_get_ok _ _ _ _ _ _ _ _ H2 Hp1) as Hp2.
  apply (WinTcpServer.local_good OPTIONS) in H2 as [Ht2 Hud]; [|done|by rewrite (proj2 Hq)].
  split; [|done|done]. cbn. apply (tcp_others su d1); [done|apply Ht2|done].
Qed.

Lemma consume_total {A} (Q : A → Prop) now f st a :
  (∀ x tok ip, Q x → ∃ y, f x tok ip = Some y ∧ Q y) → Q a →
  ∃ st' a', consume now f st a = Some (st', a') ∧ Q a'.
Proof.
  intros Hf Ha. unfold consume.
  assert (∃ st' a', foldl (consume_step now f) (Some (st, a)) (queue st) = Some (st', a') ∧ Q a')
    as (st' & a' & -> & Ha'); [|by eexists _, a'].
  generalize (queue st) as l. intros l. revert st a Ha. induction l as [|[[tok dom] ip] l IH]; intros st a Ha.
  - by exists st, a.
  - cbn [foldl consume_step mbind option_bind]. destruct (Hf a tok ip Ha) as (y & -> & Hy). by apply IH.
Qed.

(** Events of the pool, the resolver and the TCP connections are handled in finite
    time and without a panic; for those of UDP connections see [WinUdp]. *)
Lemma run_event_terminates now r event :
  inv r → ev_token event = WIN_RESOLVER ∨ ev_token event mod CHANNEL_CNT ≠ CHANNEL_UDP →
  terminates (λ fuel, run_event fuel now r event) inv.
Proof.
  intros [Hu Ht Hp] Htok. unfold run_event. destruct (Z.eqb_spec (ev_token event) WIN_RESOLVER) as [He|He].
  - destruct (consume_total (IdlePool.ok cfg) now (λ p _ ip, Some (IdlePool.resolve p ip)) (resolver r) (pool r))
      as (d & p & -> & Hp'); [|done|by apply terminates_ret].
    intros p tok ip Hk. exists (IdlePool.resolve p ip). split; [done|]. destruct ip; [|done]. by destruct Hk.
  - destruct (Z.eqb_spec (ev_token event mod CHANNEL_CNT) CHANNEL_IDLE).
    + eapply terminates_bind; [by apply (IdlePool.ready_ok cfg)|]. intros p' Hp'. by apply terminates_ret.
    + destruct (Z.eqb_spec (ev_token event mod CHANNEL_CNT) CHANNEL_UDP); [by destruct Htok|].
      eapply terminates_bind; [by apply WinTcpServer.do_remote_terminates|].
      intros [s' d'] [Ht' Hud]. apply terminates_ret. split; [|done|done].
      apply (tcp_others _ (device r)); [done|apply Ht'|done].
Qed.

Lemma run_event_inv fuel now r event r' :
  inv r → run_event fuel now r event = Some r' →
  ev_token event mod CHANNEL_CNT = CHANNEL_UDP → ev_token event ≠ WIN_RESOLVER → inv r'.
Proof.
  intros [Hu Ht Hp] H Htok Hne. unfold run_event in H. rewrite (proj2 (Z.eqb_neq _ _) Hne), Htok in H.
  cbn [Z.eqb CHANNEL_UDP CHANNEL_IDLE Pos.eqb] in H. apply bind_Some in H as ([s' d'] & H & [= <-]).
  apply WinUdpServer.do_remote_ok in H as [Hu' [Hq _ _]]; [|done].
  split; [done| |done]. by apply (udp_others _ (device r)); [|apply Hu'|].
Qed.

Lemma run_event_steady now r event :
  ev_token event = WIN_RESOLVER ∨ ev_token event mod CHANNEL_CNT ≠ CHANNEL_UDP →
  steady (λ fuel, run_event fuel now r event).
Proof.
  intros Htok. unfold run_event. destruct (Z.eqb_spec (ev_token event) WIN_RESOLVER); [exact (steady_ret _)|].
  destruct (_ =? CHANNEL_IDLE).
  - apply steady_bind; [apply pool_ready_steady|]. intros p. exact (steady_ret _).
  - destruct (Z.eqb_spec (ev_token event mod CHANNEL_CNT) CHANNEL_UDP); [by destruct Htok|].
    apply steady_bind; [apply WinTcpServer.server_remote_steady|]. intros [s d]. exact (steady_ret _).
Qed.

Lemma run_event_keeps fuel now r event r' : inv r → run_event fuel now r event = Some r' → inv r'.
Proof.
  intros Hi H. destruct (decide (ev_token event = WIN_RESOLVER)) as [He|He].
  - apply (terminates_steady _ _ fuel r' (run_event_steady now r event (or_introl He))
      (run_event_terminates now r event Hi (or_introl He)) H).
  - destruct (decide (ev_token event mod CHANNEL_CNT = CHANNEL_UDP)) as [Hu|Hu]; [by eapply run_event_inv|].
    apply (terminates_steady _ _ fuel r' (run_event_steady now r event (or_intror Hu))
      (run_event_terminates now r event Hi (or_intror Hu)) H).
Qed.

(** What follows the events never panics. *)
Lemma remove_closed_inv r : inv r → ∃ r', remove_closed r = Some r' ∧ inv r'.
Proof.
  intros [Hu Ht Hp]. unfold remove_closed.
  destruct (WinTcpServer.remove_closed_good OPTIONS (tcp_server r) (device r) Ht)
    as (s1 & d1 & -> & Ht1 & _ & _ & _ & Hud). cbn [mbind option_bind].
  assert (WinUdpServer.inv (udp_server r) d1) as Hu1 by (eapply tcp_others; [done|apply Ht1|done]).
  destruct (WinUdpServer.remove_closed_ok spare (udp_server r) d1 Hu1) as (s2 & Hrm & Hu2 & _).
  cbn [udp_server with_tcp]. rewrite Hrm. cbn [mbind option_bind]. eexists. split; [reflexivity|]. by split.
Qed.

Lemma report_speed_inv now written r r' : inv r → report_speed now written r = Some r' → inv r'.
Proof.
  intros [Hu Ht Hp]. unfold report_speed. destruct (_ <? _); [|by intros [= <-]].
  destruct (WinTun.calculate_speed now (device r)) as [speed d] eqn:Hc. destruct written; [|done]. intros [= <-].
  assert (WinTun.inv d ∧ WinTun.sockets d = WinTun.sockets (device r) ∧ WinTun.quiet (device r) d) as (Hd & Hs & Hq).
  { injection Hc as _ <-. split_and!; [|done|done]. by destruct (WinUdpServer.v_device _ _ Hu). }
  split; [|by eapply udp_others|done]. eapply tcp_others; [done|done|]. cbn. by rewrite Hs.
Qed.

Lemma check_timeout_terminates now r : inv r → terminates (λ fuel, check_timeout fuel now r) inv.
Proof.
  intros Hi. pose proof Hi as [Hu Ht Hp]. unfold check_timeout. destruct (_ <? _); [|by apply terminates_ret].
  destruct (WinTcpServer.check_timeout_good OPTIONS now (tcp_server r) (device r) Ht)
    as (s1 & d1 & -> & Ht1 & _ & Hud). cbn [mbind option_bind udp_server device with_tcp].
  assert (WinUdpServer.inv (udp_server r) d1) as Hu1 by (eapply tcp_others; [done|apply Ht1|done]).
  destruct (WinUdpServer.check_timeout_keeps now (udp_server r) d1 Hu1) as (s2 & d2 & -> & Hu2 & _ & _ & Htc & _).
  cbn [mbind option_bind]. eapply terminates_bind; [by apply (IdlePool.check_timeout_ok cfg)|].
  intros p' Hp'. apply terminates_ret. split; [done| |done].
  apply (WinTcpServer.inv_others OPTIONS s1 d1); [done|apply Hu2|]. apply WinTun.others_quiet; [done|].
  intros _. apply (WinUdpServer.v_device _ _ Hu2).
Qed.

Lemma check_timeout_steady now r : steady (λ fuel, check_timeout fuel now r).
Proof.
  unfold check_timeout. destruct (_ <? _); [|exact (steady_ret _)].
  destruct (WinTcpServer.check_timeout now _ _) as [[s1 d1]|]; cbn [mbind option_bind]; [|exact (steady_ret _)].
  destruct (WinUdpServer.check_timeout now _ _) as [[s2 d2]|]; cbn [mbind option_bind]; [|exact (steady_ret _)].
  apply steady_bind; [apply pool_timeout_steady|]. intros p. exact (steady_ret _).
Qed.

Lemma run_events_keeps fuel now events r r' :
  inv r → foldl (λ acc event, r ← acc; run_event fuel now r event) (Some r) events = Some r' → inv r'.
Proof.
  revert r. induction events as [|ev evs IH]; intros r Hi; [by intros [= <-]|]. cbn [foldl].
  change (Some r ≫= _) with (run_event fuel now r ev).
  destruct (run_event fuel now r ev) as [r1|] eqn:He; [intros H; eapply IH; [by eapply run_event_keeps|done]|].
  intros H. exfalso. clear -H. induction evs; [done|]. by apply IHevs.
Qed.

(** *** Turns *)

(** The stack does what stacks do. *)
Definition stack_ok (poll : WinTun.t → bool * WinTun.t) : Prop := ∀ d, rtc (fed k args) d (poll d).2.

Lemma poll_inv poll r : stack_ok poll → inv r → inv (with_device r (poll (device r)).2).
Proof.
  intros Hpoll Hi. specialize (Hpoll (device r)). revert Hpoll. generalize (poll (device r)).2. intros d Hd.
  assert (∀ d0 d1, rtc (fed k args) d0 d1 → inv (with_device r d0) → inv (with_device r d1)) as Hrun.
  { clear d Hd. induction 1 as [|d0 d1 d2 Hf _ IH]; [done|]. intros [Hu Ht Hp]. apply IH.
    destruct (fed_kept k args d0 d1 (WinUdpServer.v_device _ _ Hu) Hf) as [Hd Ho Hk].
    split; [by apply (WinUdpServer.inv_device _ d0)|by apply (WinTcpServer.inv_others OPTIONS _ d0)|done]. }
  apply (Hrun _ _ Hd). by destruct r.
Qed.

Inductive turn : t → t → Prop :=
  | turn_intro fuel now poll written events r r' :
      stack_ok poll → room fuel (with_device r (poll (device r)).2) →
      run_turn fuel now poll written events r = Some r' → turn r r'.

Lemma turn_inv r r' : turn r r' → inv r → inv r'.
Proof.
  intros [fuel now poll written events r0 r1 Hpoll Hroom H] Hi. pose proof (poll_inv poll r0 Hpoll Hi) as Hi1.
  unfold run_turn in H. destruct (poll (device r0)) as [progress d]. cbn [snd] in *.
  apply bind_Some in H as (r2 & H2 & H). apply bind_Some in H as (r3 & H3 & H).
  apply bind_Some in H as (r4 & H4 & H). apply bind_Some in H as (r5 & H5 & H6).
  assert (inv r2) as Hi2 by (destruct progress; [by eapply serve_local_inv|by injection H2 as <-]).
  pose proof (run_events_keeps _ _ _ _ _ Hi2 H3) as Hi3.
  destruct (remove_closed_inv r3 Hi3) as (r4' & H4' & Hi4). rewrite H4 in H4'. injection H4' as <-.
  pose proof (report_speed_inv _ _ _ _ Hi4 H5) as Hi5.
  by apply (terminates_steady _ _ _ _ (check_timeout_steady now r5) (check_timeout_terminates now r5 Hi5) H6).
Qed.
End Invariant.

Lemma start_inv {Ok : EnvOk E} {Rw : EnvRw E} {Obs : Observed Stk} {K : SmoltcpOk Stk} now size port hostname dns mtu o r :
  start now size port hostname dns mtu o = Some r →
  inv (size + 1, CHANNEL_CNT, CHANNEL_IDLE, MIN_INDEX, MAX_INDEX)%nat r.
Proof.
  unfold start. intros ([[p o1] d1] & Hp & [= <-])%bind_Some. split; cbn [udp_server tcp_server device pool].
  - apply WinUdpServer.server_new_inv, WinTun.win_new_inv.
  - apply WinTcpServer.tcp_new_inv; [apply WinTun.win_new_inv|apply WinTcpServer.no_tcps_unread].
  - unfold prepare_idle_pool in Hp. apply bind_Some in Hp as (p0 & Hnew & [= Hp]).
    unfold IdlePool.new in Hnew. destruct (back_addr OPTIONS) as [back|]; [|done]. injection Hnew as <-.
    set (p1 := IdlePool.init_index _ _ _ _ _) in Hp.
    assert (IdlePool.ok (size + 1, CHANNEL_CNT, CHANNEL_IDLE, MIN_INDEX, MAX_INDEX)%nat p1) as Hok.
    { split; cbn; [done|by vm_compute|by vm_compute|done|lia]. }
    unfold IdlePool.init in Hp. destruct (1 <? _)%nat; [|by injection Hp as <- _ _].
    pose proof (IdlePool.alloc_ok _ (p1, o, dns_resolver_new WIN_RESOLVER dns) Hok) as [Ha _].
    by rewrite Hp in Ha.
Qed.

Section Theorems.
Context {Ok : EnvOk E} {Rw : EnvRw E} {Obs : Observed Stk} {K : SmoltcpOk Stk}.

(** The servers' connections have their sockets in the device. *)
Definition connected (r : t) : Prop :=
  (∀ id c, WinTcpServer.conns (tcp_server r) !! id = Some c →
     is_Some (tcps (WinTun.sockets (device r)) !! WinTcpConn.local c))
  ∧ (∀ id c, WinUdpServer.conns (udp_server r) !! id = Some c →
     is_Some (udps (WinTun.sockets (device r)) !! WinUdpConn.local c)).

Lemma inv_connected cfg r : inv cfg r → connected r.
Proof.
  intros [Hu Ht _]. split; intros id c Hc.
  - eapply WinTcpServer.healthy_live, (WinTcpServer.w_good OPTIONS); [exact Ht|exact Hc].
  - by eapply WinUdpServer.inv_local.
Qed.

(** Where the event of a token goes. *)
Lemma route_tcp fuel now r n tok rd wr :
  issued CHANNEL_TCP n tok →
  run_event fuel now r (mkEvent tok rd wr) =
    '(s, d) ← WinTcpServer.do_remote OPTIONS spare fuel now tok (mkEvent tok rd wr) (tcp_server r) (device r);
    Some (with_tcp r s d).
Proof.
  intros Hi. apply issued_channel in Hi as [Hm Hl]; [|by unfold CHANNEL_TCP, CHANNEL_CNT; lia].
  unfold run_event. cbn [ev_token]. rewrite (proj2 (Z.eqb_neq _ _)) by (unfold WIN_RESOLVER, CHANNEL_CNT in *; lia).
  by rewrite Hm.
Qed.

Lemma route_udp fuel now r n tok rd wr :
  issued CHANNEL_UDP n tok →
  run_event fuel now r (mkEvent tok rd wr) =
    '(s, d) ← WinUdpServer.do_remote OPTIONS spare fuel now tok (mkEvent tok rd wr) (udp_server r) (device r);
    Some (with_udp r s d).
Proof.
  intros Hi. apply issued_channel in Hi as [Hm Hl]; [|by unfold CHANNEL_UDP, CHANNEL_CNT; lia].
  unfold run_event. cbn [ev_token]. rewrite (proj2 (Z.eqb_neq _ _)) by (unfold WIN_RESOLVER, CHANNEL_CNT in *; lia).
  by rewrite Hm.
Qed.

(** C29: the tunnel's main loop, with its two servers, the pool and the device
    together: after any turns, whatever the stack does when it is polled, every
    connection has its socket in the device; an event under a connection's token
    goes to the server that has the connection and finds it there, and to no other
    part; the events of the pool, of the resolver and of the TCP connections are
    handled in finite time and without a panic, and so is all that follows the
    events of a poll. *)
Theorem tunnel_loop_serves k args now0 size port hostname dns mtu o r0 r :
  start now0 size port hostname dns mtu o = Some r0 → rtc (turn k args) r0 r →
  connected r
  ∧ (∀ id c, WinTcpServer.conns (tcp_server r) !! id = Some c →
       let tok := WinTcpConn.token c in
       WinTcpServer.token2conns (tcp_server r) !! tok = Some id
       ∧ ∀ fuel now rd wr, run_event fuel now r (mkEvent tok rd wr) =
           '(s, d) ← WinTcpServer.do_remote OPTIONS spare fuel now tok (mkEvent tok rd wr) (tcp_server r) (device r);
           Some (with_tcp r s d))
  ∧ (∀ id c, WinUdpServer.conns (udp_server r) !! id = Some c →
       let tok := WinUdpConn.token c in
       WinUdpServer.token2conns (udp_server r) !! tok = Some id
       ∧ ∀ fuel now rd wr, run_event fuel now r (mkEvent tok rd wr) =
           '(s, d) ← WinUdpServer.do_remote OPTIONS spare fuel now tok (mkEvent tok rd wr) (udp_server r) (device r);
           Some (with_udp r s d))
  ∧ (∀ now event, ev_token event = WIN_RESOLVER ∨ ev_token event mod CHANNEL_CNT ≠ CHANNEL_UDP →
       terminates (λ fuel, run_event fuel now r event) connected)
  ∧ (∀ now, terminates (λ fuel, r1 ← remove_closed r; r2 ← report_speed now true r1; check_timeout fuel now r2)
       connected).
Proof.
  intros Hs Hr. set (cfg := (size + 1, CHANNEL_CNT, CHANNEL_IDLE, MIN_INDEX, MAX_INDEX)%nat).
  assert (inv cfg r) as Hi.
  { apply start_inv in Hs. revert Hs. induction Hr as [|r1 r2 r3 Ht _ IH]; [done|]. eauto using turn_inv. }
  clear Hs Hr. pose proof Hi as [Hu Ht Hp]. split_and!.
  - by eapply inv_connected.
  - intros id c Hc. split; [apply (shared_lookup _ _ (WinTcpServer.w_tables _ _ _ Ht) _ _ Hc)|].
    intros fuel now rd wr. eapply route_tcp, (WinTcpServer.w_used OPTIONS); [exact Ht|exact Hc].
  - intros id c Hc. split; [apply (shared_lookup _ _ (WinUdpServer.v_tables _ _ Hu) _ _ Hc)|].
    intros fuel now rd wr. eapply route_udp, WinUdpServer.v_used; [exact Hu|exact Hc].
  - intros now event He. eapply terminates_weaken; [by apply (run_event_terminates cfg)|apply inv_connected].
  - intros now. destruct (remove_closed_inv cfg r Hi) as (r1 & -> & Hi1). cbn [mbind option_bind].
    assert (is_Some (report_speed now true r1)) as [r2 H2].
    { unfold report_speed. destruct (_ <? _); [|by eexists]. destruct (WinTun.calculate_speed _ _). by eexists. }
    rewrite H2. cbn [mbind option_bind]. eapply terminates_weaken;
      [apply (check_timeout_terminates cfg); by eapply report_speed_inv|apply inv_connected].
Qed.

End Theorems.
End Run.
#[global] Arguments t E {Stk}.
End WinRun.

(** ** An example *)

Module WinRunWitness.
Import WinRun.
#[local] Existing Instance Sim.env.
#[local] Existing Instance Sim.env_ok.
#[local] Existing Instance sim_rw.
#[local] Existing Instance SimStack.smoltcp.
#[local] Existing Instance SimStack.observed.
#[local] Existing Instance SimStack.smoltcp_ok.
#[local] Existing Instance Witness.from_bytes.

Definition opts : Opts := IdlePoolWitness.opts.
Definition spare (b : bytes) : nat := 1500.
Definition world : OS := Sim.mkSystem [Sim.idle_stream; Sim.idle_stream; Sim.idle_stream] [].
Definition state : Type := WinRun.t Sim.env.

(** A stack that takes a request for a connection, then completes the connection,
    gives the socket three bytes and wakes its waker. *)
Definition accepted (s : SimStack.tcp) : SimStack.tcp :=
  SimStack.mkTcp Established (Some WinTcpWitness.client) (Some WinTcpWitness.target)
    (SimStack.seen s) (SimStack.unseen s ++ [1; 2; 3]) (SimStack.tx s) 100.
Definition poll (d : WinTun.t) : bool * WinTun.t :=
  match tcps (WinTun.sockets d) !! 0%nat with
  | Some s =>
      (true, WinTun.with_udp_wakers (WinTun.with_tcp_wakers
         (WinTun.with_sockets d (sockets_put (WinTun.sockets d) 0 (Tcp (accepted s))))
         (Wakers.mk (Wakers.wakers (WinTun.tcp_wakers d)) [(0%nat, 3)]))
         (Wakers.mk (Wakers.wakers (WinTun.udp_wakers d)) []))
  | None =>
      match WinTun.receive WinTun.Witness.class WinTun.Witness.args d (IoOk (Some WinTun.Witness.syn)) with
      | Some d' => (true, d')
      | None => (false, d)
      end
  end.

Lemma stack_poll_ok : stack_ok WinTun.Witness.class WinTun.Witness.args poll.
Proof.
  intros d. unfold poll. destruct (tcps (WinTun.sockets d) !! 0%nat) as [s|] eqn:Hs.
  - apply rtc_once. apply (fed_stack _ _ d (sockets_put (WinTun.sockets d) 0 (Tcp (accepted s)))).
    pose proof (proj1 (lookup_tcps (WinTun.sockets d) 0%nat s) Hs) as Hv. eapply evolves_put; [exact Hv|]. cbn. split_and!; try done.
    rewrite app_assoc. by apply prefix_app_r.
  - destruct (WinTun.receive _ _ _ _) as [d'|] eqn:Hr; [|apply rtc_refl]. apply rtc_once.
    eapply (fed_receive _ _ _ WinTun.Witness.syn); [|exact Hr]. apply (bool_decide_unpack _). by vm_compute.
Qed.

Definition turn_of (r : option state) : option state := r ← r; run_turn opts spare 100 9 1 poll true [] r.
Definition begin : option state := start opts 0 1 443 [65] None 1500 world.
Definition state0 : state :=
  WinRun.mk (dns_resolver_new 0 None) IdlePoolWitness.fresh world (WinUdpServer.new 0) (WinTcpServer.new 0)
    (WinTun.new 0 sockets_empty 0) 0 0 None.
Definition first : state := default state0 begin.
Definition second : state := default state0 (turn_of (Some first)).
Definition third : state := default state0 (turn_of (Some second)).

(** The second turn's connection. *)
Example third_conn :
  (λ c, (WinTcpConn.token c, WinTcpConn.local c)) <$> WinTcpServer.conns (tcp_server third) !! 0%nat = Some (8, 0%nat).
Proof. by vm_compute. Qed.

Lemma third_reachable :
  begin = Some first ∧ rtc (turn opts spare 100 WinTun.Witness.class WinTun.Witness.args) first third.
Proof.
  assert (is_Some begin) as [x Hx] by (apply (bool_decide_unpack _); vm_compute; exact I).
  assert (is_Some (turn_of (Some first))) as [y Hy] by (apply (bool_decide_unpack _); vm_compute; exact I).
  assert (is_Some (turn_of (Some second))) as [z Hz] by (apply (bool_decide_unpack _); vm_compute; exact I).
  split; [unfold first; by rewrite Hx|]. eapply rtc_l; [|apply rtc_once].
  - apply (turn_intro _ _ _ _ _ 9 1 poll true [] first second); [apply stack_poll_ok|by split; vm_compute|].
    change (turn_of (Some first) = Some second). unfold second. by rewrite Hy.
  - apply (turn_intro _ _ _ _ _ 9 1 poll true [] second third); [apply stack_poll_ok|by split; vm_compute|].
    change (turn_of (Some second) = Some third). unfold third. by rewrite Hz.
Qed.

Lemma tunnel_loop_serves_witness :
  ∃ c, WinTcpServer.conns (tcp_server third) !! 0%nat = Some c
    ∧ WinTcpServer.token2conns (tcp_server third) !! WinTcpConn.token c = Some 0%nat
    ∧ is_Some (tcps (WinTun.sockets (device third)) !! WinTcpConn.local c).
Proof.
  assert (is_Some (WinTcpServer.conns (tcp_server third) !! 0%nat)) as [c Hc]
    by (apply (bool_decide_unpack _); vm_compute; exact I).
  destruct third_reachable as [Hb Hr].
  destruct (tunnel_loop_serves opts spare 100 WinTun.Witness.class WinTun.Witness.args 0 1 443 [65] None 1500 world first third
    Hb Hr) as ([Hconn _] & Htcp & _).
  exists c. split; [exact Hc|]. split; [exact (proj1 (Htcp 0%nat c Hc))|exact (Hconn 0%nat c Hc)].
Defined.
End WinRunWitness.
