(* ===== verification/TlsAsync.v ===== *)
(** * TLS over an asynchronous stream ([tokio_rustls/src/tls_stream.rs])

    [TlsStream] is the stream the mobile tunnel's tasks read and write: a rustls
    session over a tokio TCP stream, each poll of which moves what it can.  rustls
    and tokio are the class [AsyncTls], their documented behaviour [AsyncTlsOk],
    through ghost observations of what passed.  A poll that would block is [Pending];
    [None] is a panic or exhausted fuel. *)

From Stdlib Require Import ZArith Lia.
From stdpp Require Import base option list.
From S2P Require Import Prelude.
From S2P Require Import TunStream.

Open Scope Z_scope.

(** ** rustls and tokio *)

(** [write_tls] is called with a writer that takes everything; [process_new_packets]
    returns whether the records were valid. *)
Class AsyncTls : Type := {
  AStream : Type;
  ASession : Type;
  io_poll_read : AStream → nat → Poll (io_result bytes) * AStream;
  io_poll_write : AStream → bytes → Poll (io_result nat) * AStream;
  io_poll_shutdown : AStream → Poll (io_result unit) * AStream;
  set_buffer_limit : option nat → ASession → ASession;
  reader_read : ASession → nat → io_result bytes * ASession;
  writer_write : ASession → bytes → io_result nat * ASession;
  wants_write : ASession → bool;
  write_tls : ASession → io_result bytes * ASession;
  read_tls : ASession → bytes → io_result nat * ASession;
  process_new_packets : ASession → bool * ASession
}.

(** What a stream handed out and accepted; what a session was fed, what it decrypted
    and was read, what was written to it and the records it gave out. *)
Class AsyncObserved (S : AsyncTls) : Type := {
  st_taken : AStream → bytes;
  st_accepted : AStream → bytes;
  st_left : AStream → nat;
  se_fed : ASession → bytes;
  se_plain : ASession → bytes;
  se_written : ASession → bytes;
  se_out : ASession → bytes;
  se_left : ASession → nat
}.

Class AsyncTlsOk (S : AsyncTls) {O : AsyncObserved S} : Prop := {
  (** A read yields what arrived, at most as much as fits; what has arrived is
      finite.  Whatever is read was not written. *)
  io_poll_read_spec s n r s' : io_poll_read s n = (r, s') →
    st_accepted s' = st_accepted s
    ∧ match r with
      | Ready (IoOk d) => st_taken s' = st_taken s ++ d ∧ (length d <= n)%nat ∧ (d ≠ [] → (st_left s' < st_left s)%nat)
      | _ => st_taken s' = st_taken s
      end;
  (** A write takes a prefix, an error nothing. *)
  io_poll_write_spec s b r s' : io_poll_write s b = (r, s') →
    st_taken s' = st_taken s ∧ st_left s' = st_left s
    ∧ match r with
      | Ready (IoOk n) => (n <= length b)%nat ∧ st_accepted s' = st_accepted s ++ take n b
      | _ => st_accepted s' = st_accepted s
      end;
  io_poll_shutdown_spec s r s' : io_poll_shutdown s = (r, s') →
    st_taken s' = st_taken s ∧ st_accepted s' = st_accepted s;

  set_buffer_limit_spec l s :
    se_fed (set_buffer_limit l s) = se_fed s ∧ se_plain (set_buffer_limit l s) = se_plain s
    ∧ se_written (set_buffer_limit l s) = se_written s ∧ se_out (set_buffer_limit l s) = se_out s;
  reader_read_spec s n r s' : reader_read s n = (r, s') →
    se_fed s' = se_fed s ∧ se_written s' = se_written s ∧ se_out s' = se_out s
    ∧ match r with
      | IoOk d => (length d <= n)%nat ∧ se_plain s' = se_plain s ++ d
      | IoErr _ => se_plain s' = se_plain s
      end;
  writer_write_spec s b r s' : writer_write s b = (r, s') →
    se_fed s' = se_fed s ∧ se_plain s' = se_plain s ∧ se_out s' = se_out s
    ∧ match r with
      | IoOk n => (n <= length b)%nat ∧ se_written s' = se_written s ++ take n b
      | IoErr _ => se_written s' = se_written s
      end;
  (** There are finitely many records to write. *)
  write_tls_spec s r s' : write_tls s = (r, s') →
    se_fed s' = se_fed s ∧ se_plain s' = se_plain s ∧ se_written s' = se_written s
    ∧ match r with
      | IoOk b => se_out s' = se_out s ++ b ∧ (wants_write s = true → (se_left s' < se_left s)%nat)
      | IoErr _ => se_out s' = se_out s
      end;
  (** Of bytes that are there some are taken. *)
  read_tls_spec s b r s' : read_tls s b = (r, s') →
    se_plain s' = se_plain s ∧ se_written s' = se_written s ∧ se_out s' = se_out s
    ∧ match r with
      | IoOk n => (n <= length b)%nat ∧ se_fed s' = se_fed s ++ take n b ∧ (b ≠ [] → n ≠ 0%nat)
      | IoErr _ => se_fed s' = se_fed s
      end;
  process_new_packets_spec s r s' : process_new_packets s = (r, s') →
    se_fed s' = se_fed s ∧ se_plain s' = se_plain s ∧ se_written s' = se_written s ∧ se_out s' = se_out s
}.

(** ** The stream *)

Module TlsAsync.
Section Stream.
Context {T : AsyncTls}.

(** The scratch buffer [recv_buf] of 4096 bytes has no content between two polls. *)
Record t : Type := mk { stream : AStream; session : ASession; send_buf : bytes }.

Definition with_stream (c : t) (s : AStream) : t := mk s (session c) (send_buf c).
Definition with_session (c : t) (s : ASession) : t := mk (stream c) s (send_buf c).
Definition with_send_buf (c : t) (b : bytes) : t := mk (stream c) (session c) b.

Definition RECV_BUF : nat := 4096.

Definition new (s : AStream) (session : ASession) : t := mk s (set_buffer_limit None session) [].

(** The first half of a turn of [poll_tls_flush]: the session's records go behind what
    is kept.  On an error what was kept is dropped. *)
Definition take_records (c : t) : io_result unit * t :=
  if wants_write (session c) then
    match write_tls (session c) with
    | (IoOk b, s) => (IoOk (), with_send_buf (with_session c s) (send_buf c ++ b))
    | (IoErr e, s) => (IoErr e, with_send_buf (with_session c s) [])
    end
  else (IoOk (), c).

Fixpoint poll_tls_flush (fuel : nat) (c : t) : option (Poll (io_result unit) * t) :=
  match fuel with
  | O => None
  | S fuel =>
      if wants_write (session c) || negb (bool_decide (send_buf c = [])) then
        match take_records c with
        | (IoErr e, c) => Some (Ready (IoErr e), c)
        | (IoOk _, c) =>
            match send_buf c with
            | [] => poll_tls_flush fuel c
            | _ =>
                let '(r, s) := io_poll_write (stream c) (send_buf c) in
                let c := with_stream c s in
                match r with
                | Ready (IoOk O) => Some (Ready (IoErr OtherKind), c)
                | Ready (IoOk n) => rest ← (send_buf c).[from n]; poll_tls_flush fuel (with_send_buf c rest)
                | Ready (IoErr e) => Some (Ready (IoErr e), c)
                | Pending => Some (Pending, c)
                end
            end
        end
      else Some (Ready (IoOk ()), c)
  end.

(** The loop that hands what was read to the session; of no progress it panics. *)
Fixpoint feed (fuel : nat) (s : ASession) (data : bytes) : option (io_result unit * ASession) :=
  match fuel with
  | O => None
  | S fuel =>
      match read_tls s data with
      | (IoErr e, s) => Some (IoErr e, s)
      | (IoOk O, _) => None
      | (IoOk n, s) =>
          rest ← data.[from n];
          match rest with [] => Some (IoOk (), s) | _ => feed fuel s rest end
      end
  end.

(** [n] is the room in the reader's buffer; no bytes are the end of the stream. *)
Fixpoint poll_read (fuel n : nat) (c : t) : option (Poll (io_result bytes) * t) :=
  match fuel with
  | O => None
  | S fuel' =>
      let '(r, s) := reader_read (session c) n in
      let c := with_session c s in
      match r with
      | IoOk d => Some (Ready (IoOk d), c)
      | IoErr WouldBlock =>
          let '(r, s) := io_poll_read (stream c) RECV_BUF in
          let c := with_stream c s in
          match r with
          | Ready (IoOk []) => Some (Ready (IoOk []), c)
          | Ready (IoOk data) =>
              '(r, s) ← feed (length data) (session c) data;
              let c := with_session c s in
              match r with
              | IoErr e => Some (Ready (IoErr e), c)
              | IoOk _ =>
                  let '(valid, s) := process_new_packets (session c) in
                  let c := with_session c s in
                  if negb valid then Some (Ready (IoErr OtherKind), c)
                  else
                    '(r, c) ← poll_tls_flush fuel' c;
                    match r with
                    | Ready (IoErr e) => Some (Ready (IoErr e), c)
                    | _ => poll_read fuel' n c
                    end
              end
          | Ready (IoErr e) => Some (Ready (IoErr e), c)
          | Pending => Some (Pending, c)
          end
      | IoErr e => Some (Ready (IoErr e), c)
      end
  end.

Definition poll_write (fuel : nat) (buf : bytes) (c : t) : option (Poll (io_result nat) * t) :=
  '(r, c) ← poll_tls_flush fuel c;
  match r with
  | Pending => Some (Pending, c)
  | Ready (IoErr e) => Some (Ready (IoErr e), c)
  | Ready (IoOk _) =>
      match writer_write (session c) buf with
      | (IoOk n, s) =>
          '(r, c) ← poll_tls_flush fuel (with_session c s);
          match r with
          | Ready (IoErr e) => Some (Ready (IoErr e), c)
          | _ => Some (Ready (IoOk n), c)
          end
      | (IoErr e, s) => Some (Ready (IoErr e), with_session c s)
      end
  end.

Definition poll_flush (fuel : nat) (c : t) : option (Poll (io_result unit) * t) := poll_tls_flush fuel c.

Definition poll_shutdown (c : t) : Poll (io_result unit) * t :=
  let '(r, s) := io_poll_shutdown (stream c) in (r, with_stream c s).

(** The halves of a split stream share it under a lock: a poll that finds it taken
    does nothing. *)
Definition half_poll {A} (locked : bool) (c : t) (poll : t → option (Poll A * t)) : option (Poll A * t) :=
  if locked then Some (Pending, c) else poll c.

Definition half_read (fuel : nat) (locked : bool) (n : nat) (c : t) : option (Poll (io_result bytes) * t) :=
  half_poll locked c (poll_read fuel n).
Definition half_write (fuel : nat) (locked : bool) (buf : bytes) (c : t) : option (Poll (io_result nat) * t) :=
  half_poll locked c (poll_write fuel buf).
Definition half_flush (fuel : nat) (locked : bool) (c : t) : option (Poll (io_result unit) * t) :=
  half_poll locked c (poll_flush fuel).
Definition half_shutdown (locked : bool) (c : t) : option (Poll (io_result unit) * t) :=
  half_poll locked c (λ c, Some (poll_shutdown c)).

(** ** What is conserved *)

Section Laws.
Context {Obs : AsyncObserved T} {K : AsyncTlsOk T}.

(** A change that moves no plaintext and takes nothing from the stream. *)
Record frame (c c' : t) : Prop := {
  f_taken : st_taken (stream c') = st_taken (stream c);
  f_left : st_left (stream c') = st_left (stream c);
  f_fed : se_fed (session c') = se_fed (session c);
  f_plain : se_plain (session c') = se_plain (session c);
  f_written : se_written (session c') = se_written (session c)
}.

#[export] Instance frame_preorder : PreOrder frame.
Proof. split; [by intros c; split|]. intros c1 c2 c3 [] []. split; congruence. Qed.

(** The records the session gives out go to the stream or are kept, in order. *)
Definition sends (c c' : t) : Prop :=
  ∃ h, st_accepted (stream c') ++ send_buf c' = (st_accepted (stream c) ++ send_buf c) ++ h
    ∧ se_out (session c') = se_out (session c) ++ h.

(** What is taken from the stream is fed to the session. *)
Definition takes (c c' : t) : Prop :=
  ∃ g, st_taken (stream c') = st_taken (stream c) ++ g ∧ se_fed (session c') = se_fed (session c) ++ g.

#[export] Instance sends_preorder : PreOrder sends.
Proof.
  split; [intros c; exists []; by rewrite !app_nil_r|].
  intros c1 c2 c3 (h & H1 & H2) (h' & H3 & H4). exists (h ++ h'). split.
  - by rewrite H3, H1, <-!app_assoc.
  - by rewrite H4, H2, app_assoc.
Qed.

#[export] Instance takes_preorder : PreOrder takes.
Proof.
  split; [intros c; exists []; by rewrite !app_nil_r|].
  intros c1 c2 c3 (h & H1 & H2) (h' & H3 & H4). exists (h ++ h').
  by rewrite H3, H1, H4, H2, !app_assoc.
Qed.

(** Nothing was sent, or nothing taken. *)
Lemma sends_same c c' :
  st_accepted (stream c') = st_accepted (stream c) → send_buf c' = send_buf c →
  se_out (session c') = se_out (session c) → sends c c'.
Proof. intros H1 H2 H3. exists []. by rewrite H1, H2, H3, !app_nil_r. Qed.

Lemma takes_same c c' :
  st_taken (stream c') = st_taken (stream c) → se_fed (session c') = se_fed (session c) → takes c c'.
Proof. intros H1 H2. exists []. by rewrite H1, H2, !app_nil_r. Qed.

Lemma frame_takes c c' : frame c c' → takes c c'.
Proof. intros []. by apply takes_same. Qed.

Lemma take_records_spec c r c' :
  take_records c = (r, c') →
  frame c c' ∧ stream c' = stream c
  ∧ match r with
    | IoOk _ => sends c c'
        ∧ (if wants_write (session c) then (se_left (session c') < se_left (session c))%nat else c' = c)
    | IoErr _ => True
    end.
Proof.
  unfold take_records. destruct (wants_write (session c)) eqn:Hw; [|by intros [= <- <-]].
  destruct (write_tls (session c)) as [[b|e] s] eqn:Ht; intros [= <- <-];
    apply write_tls_spec in Ht as (Hf & Hp & Hwr & Ho); (split; [by split|]); [|done].
  destruct Ho as [Ho Hl]. split_and!; [done| |by apply Hl]. exists b. cbn. by rewrite Ho, app_assoc.
Qed.

Lemma tls_flush_spec c :
  terminates (λ fuel, poll_tls_flush fuel c) (λ '(r, c'), frame c c'
    ∧ match r with
      | Ready (IoErr _) => True
      | Pending => sends c c' ∧ send_buf c' ≠ []
      | Ready (IoOk _) => sends c c' ∧ send_buf c' = [] ∧ wants_write (session c') = false
      end).
Proof.
  remember (se_left (session c)) as m eqn:Hm. revert c Hm. induction m as [m IHm] using lt_wf_ind.
  intros c Hm. remember (length (send_buf c)) as l eqn:Hl. revert c Hm Hl. induction l as [l IHl] using lt_wf_ind.
  intros c -> ->. apply terminates_S. cbn [poll_tls_flush].
  destruct (wants_write (session c) || negb (bool_decide (send_buf c = []))) eqn:Hc.
  2: { apply orb_false_iff in Hc as [Hw Hb]. apply negb_false_iff, bool_decide_eq_true in Hb.
       apply terminates_ret. by split_and!. }
  destruct (take_records c) as [r c1] eqn:Ht. destruct (take_records_spec _ _ _ Ht) as (Hf & Hs & Hr).
  destruct r as [u|e]; [|by apply terminates_ret]. destruct Hr as [Ho Hd].
  destruct (send_buf c1) as [|x b] eqn:Hb.
  - destruct (wants_write (session c)); [|subst c1; rewrite Hb in Hc; by case_bool_decide].
    eapply terminates_weaken; [by apply (IHm _ Hd c1)|]. intros [r c2] [Hf2 H2].
    split; [by etrans|]. destruct r as [|[]]; [destruct H2; by (split; [by etrans|])|destruct H2; by (split; [by etrans|])|done].
  - rewrite <-Hb in *. destruct (io_poll_write (stream c1) (send_buf c1)) as [r s] eqn:Hp.
    apply io_poll_write_spec in Hp as (Htk & Hlf & Hr).
    assert (frame c (with_stream c1 s)) as Hf1 by (destruct Hf; split; cbn; congruence).
    assert (st_accepted s = st_accepted (stream c1) → sends c (with_stream c1 s)) as Hsame.
    { intros He. etrans; [exact Ho|]. by apply sends_same. }
    destruct r as [|[n|e]].
    + apply terminates_ret. split_and!; [done|by apply Hsame|cbn; by rewrite Hb].
    + destruct Hr as [Hn Ha]. destruct n as [|n]; [by apply terminates_ret|].
      cbn [send_buf with_stream]. rewrite slice_from_le by done. cbn [mbind option_bind].
      set (c2 := with_send_buf _ _).
      assert (sends c c2) as Ho2.
      { etrans; [exact Ho|]. exists []. cbn. by rewrite Ha, <-app_assoc, take_drop, !app_nil_r. }
      assert (frame c c2) as Hf2 by (destruct Hf1; by split).
      assert (terminates (λ fuel, poll_tls_flush fuel c2) (λ '(r, c'), frame c2 c'
        ∧ match r with
          | Ready (IoErr _) => True
          | Pending => sends c2 c' ∧ send_buf c' ≠ []
          | Ready (IoOk _) => sends c2 c' ∧ send_buf c' = [] ∧ wants_write (session c') = false
          end)) as Hrec.
      { destruct (wants_write (session c)); [by apply (IHm _ Hd c2)|]. subst c1.
        refine (IHl (length (send_buf c2)) _ c2 _ _); [|done|done]. cbn. rewrite length_drop, Hb. simpl. lia. }
      eapply terminates_weaken; [exact Hrec|]. intros [r c3] [Hf3 H3].
      split; [by etrans|]. destruct r as [|[]]; [destruct H3; by (split; [by etrans|])|destruct H3; by (split; [by etrans|])|done].
    + by apply terminates_ret.
Qed.

(** The session is fed everything. *)
Lemma tls_feed_spec fuel : ∀ s data,
  (length data <= fuel)%nat → data ≠ [] →
  ∃ r s', feed fuel s data = Some (r, s')
    ∧ se_plain s' = se_plain s ∧ se_written s' = se_written s ∧ se_out s' = se_out s
    ∧ match r with IoOk _ => se_fed s' = se_fed s ++ data | IoErr _ => True end.
Proof.
  induction fuel as [|fuel IH]; intros s data Hl Hne; [destruct data; [done|simpl in Hl; lia]|].
  cbn [feed]. destruct (read_tls s data) as [r s1] eqn:Hr. apply read_tls_spec in Hr as (Hp & Hw & Ho & Hr).
  destruct r as [n|e]; [|by exists (IoErr e), s1]. destruct Hr as (Hn & Hf & Hz). specialize (Hz Hne).
  destruct n as [|n]; [done|]. rewrite slice_from_le by done. cbn [mbind option_bind].
  destruct (drop (S n) data) as [|x rest] eqn:Hd.
  - exists (IoOk ()), s1. split_and!; try done.
    pose proof (take_drop (S n) data) as Htd. rewrite Hd, app_nil_r in Htd. by rewrite Hf, Htd.
  - rewrite <-Hd. destruct (IH s1 (drop (S n) data)) as (r & s2 & -> & Hp2 & Hw2 & Ho2 & Hf2).
    { rewrite length_drop. lia. }
    { by rewrite Hd. }
    exists r, s2. split_and!; [done|congruence..|]. destruct r; [|done].
    by rewrite Hf2, Hf, <-app_assoc, take_drop.
Qed.

(** What a poll for reading may do to the stream. *)
Definition read_step (c : t) (r : Poll (io_result bytes)) (c' : t) : Prop :=
  se_written (session c') = se_written (session c)
  ∧ match r with
    | Ready (IoErr _) => se_plain (session c') = se_plain (session c)
    | Ready (IoOk d) => se_plain (session c') = se_plain (session c) ++ d ∧ sends c c' ∧ takes c c'
    | Pending => se_plain (session c') = se_plain (session c) ∧ sends c c' ∧ takes c c'
    end.

Lemma read_step_after c c1 r c2 :
  se_written (session c1) = se_written (session c) → se_plain (session c1) = se_plain (session c) →
  sends c c1 → takes c c1 → read_step c1 r c2 → read_step c r c2.
Proof.
  intros Hw Hp Hs Ht [Hw2 H]. split; [congruence|].
  destruct r as [|[d|e]]; [destruct H as (? & ? & ?)|destruct H as (? & ? & ?)|congruence];
    (split_and!; [congruence|by etrans|by etrans]).
Qed.

Lemma tls_poll_read_spec n c : terminates (λ fuel, poll_read fuel n c) (λ '(r, c'), read_step c r c').
Proof.
  remember (st_left (stream c)) as m eqn:Hm. revert c Hm. induction m as [m IH] using lt_wf_ind. intros c ->.
  apply terminates_S. cbn [poll_read]. destruct (reader_read (session c) n) as [r s] eqn:Hr.
  apply reader_read_spec in Hr as (Hfd & Hwr & Hout & Hr). set (c1 := with_session c s).
  assert (sends c c1) as Hs1 by by apply sends_same.
  assert (takes c c1) as Ht1 by by apply takes_same.
  destruct r as [d|e]; [apply terminates_ret; by destruct Hr|].
  destruct e; try (by apply terminates_ret).
  destruct (io_poll_read (stream c1) RECV_BUF) as [r st] eqn:Hp. apply io_poll_read_spec in Hp as [Hac Hp].
  set (c2 := with_stream c1 st). assert (sends c c2) as Hs2 by (etrans; [exact Hs1|by apply sends_same]).
  assert (st_taken st = st_taken (stream c1) → takes c c2) as Ht2.
  { intros He. etrans; [exact Ht1|by apply takes_same]. }
  destruct r as [|[data|e]]; [apply terminates_ret; split_and!; auto| |by apply terminates_ret].
  destruct Hp as (Htk & _ & Hleft). destruct data as [|x data].
  { rewrite app_nil_r in Htk. apply terminates_ret. split_and!; auto. by rewrite app_nil_r. }
  destruct (tls_feed_spec (length (x :: data)) (session c2) (x :: data)) as (r & s3 & -> & Hpl & Hw3 & Ho3 & Hf3); [done..|].
  cbn [mbind option_bind]. set (c3 := with_session c2 s3). cbn in Hpl, Hw3, Ho3.
  destruct r as [u|e]; [|apply terminates_ret; split; cbn; congruence].
  destruct (process_new_packets (session c3)) as [valid s4] eqn:Hpn.
  apply process_new_packets_spec in Hpn as (Hf4 & Hpl4 & Hw4 & Ho4). set (c4 := with_session c3 s4).
  cbn in Hf4, Hpl4, Hw4, Ho4. destruct valid; cbn [negb]; [|apply terminates_ret; split; cbn; congruence].
  assert (sends c c4) as Hs4 by (etrans; [exact Hs2|]; apply sends_same; cbn; congruence).
  assert (takes c c4) as Ht4.
  { etrans; [exact Ht1|]. exists (x :: data). split; [exact Htk|]. cbn. by rewrite Hf4, Hf3. }
  eapply terminates_bind; [apply (tls_flush_spec c4)|]. intros [r c5] [Hfr Hr5].
  pose proof (frame_takes _ _ Hfr) as Ht5. destruct Hfr as [_ Hl5 _ Hp5 Hw5]. cbn in Hl5, Hp5, Hw5.
  assert (sends c4 c5 → terminates (λ fuel, poll_read fuel n c5) (λ '(r, c'), read_step c r c')) as Hrec.
  { intros Hs5. eapply terminates_weaken; [apply (IH (st_left (stream c5))); [|done]|].
    { rewrite Hl5. by apply Hleft. }
    intros [r' c6]. apply read_step_after; [congruence|congruence|by etrans|by etrans]. }
  destruct r as [|[[]|e]]; [apply Hrec, Hr5|apply Hrec, Hr5|]. apply terminates_ret. split; congruence.
Qed.

(** What a poll for writing may do; an error after the session took the bytes leaves
    the caller without their number. *)
Lemma tls_poll_write_spec buf c :
  terminates (λ fuel, poll_write fuel buf c) (λ '(r, c'),
    se_plain (session c') = se_plain (session c)
    ∧ match r with
      | Ready (IoErr _) => True
      | Ready (IoOk n) => (n <= length buf)%nat ∧ se_written (session c') = se_written (session c) ++ take n buf
          ∧ sends c c' ∧ takes c c'
      | Pending => se_written (session c') = se_written (session c) ∧ sends c c' ∧ takes c c'
      end).
Proof.
  unfold poll_write. eapply terminates_bind; [apply tls_flush_spec|]. intros [r c1] [Hf1 H1].
  pose proof (frame_takes _ _ Hf1) as Ht1. destruct Hf1 as [_ _ _ Hp1 Hw1].
  destruct r as [|[[]|e]]; [|destruct H1 as (Hs1 & _)|by apply terminates_ret].
  { apply terminates_ret. by destruct H1. }
  destruct (writer_write (session c1) buf) as [r s] eqn:Hwr. apply writer_write_spec in Hwr as (Hf & Hp & Ho & Hr).
  destruct r as [n|e]; [|apply terminates_ret; split; [cbn; congruence|done]]. destruct Hr as [Hn Hw].
  set (c2 := with_session c1 s). assert (sends c c2) as Hs2 by (etrans; [exact Hs1|by apply sends_same]).
  assert (takes c c2) as Ht2 by (etrans; [exact Ht1|by apply takes_same]).
  eapply terminates_bind; [apply (tls_flush_spec c2)|]. intros [r c3] [Hf3 H3].
  pose proof (frame_takes _ _ Hf3) as Ht3. destruct Hf3 as [_ _ _ Hp3 Hw3]. cbn in Hp3, Hw3.
  destruct r as [|[[]|e]]; apply terminates_ret; (split; [congruence|]); [destruct H3 as [Hs3 _]..|done];
    (split_and!; [done|congruence|by etrans|by etrans]).
Qed.

(** *** The life of a stream *)

(** The polls of its two halves, and what the peer and the system do to the stream. *)
Inductive op : Type :=
  | ORead (locked : bool) (n : nat)
  | OWrite (locked : bool) (buf : bytes)
  | OFlush (locked : bool)
  | OShutdown (locked : bool)
  | OElse (f : AStream → AStream).

(** What the tasks have seen: the bytes read, those whose write was reported, and
    whether a poll has failed. *)
Record log : Type := mkLog { l_read : bytes; l_written : bytes; l_failed : bool }.

Definition failed {A} (r : Poll (io_result A)) : bool :=
  match r with Ready (IoErr _) => true | _ => false end.

Definition run_op (fuel : nat) (st : t * log) (x : op) : option (t * log) :=
  let '(c, l) := st in
  match x with
  | ORead locked n =>
      '(r, c) ← half_read fuel locked n c;
      let d := match r with Ready (IoOk d) => d | _ => [] end in
      Some (c, mkLog (l_read l ++ d) (l_written l) (l_failed l || failed r))
  | OWrite locked buf =>
      '(r, c) ← half_write fuel locked buf c;
      let n := match r with Ready (IoOk n) => n | _ => 0%nat end in
      Some (c, mkLog (l_read l) (l_written l ++ take n buf) (l_failed l || failed r))
  | OFlush locked =>
      '(r, c) ← half_flush fuel locked c;
      Some (c, mkLog (l_read l) (l_written l) (l_failed l || failed r))
  | OShutdown locked =>
      '(r, c) ← half_shutdown locked c;
      Some (c, mkLog (l_read l) (l_written l) (l_failed l || failed r))
  | OElse f => Some (with_stream c (f (stream c)), l)
  end.

Definition op_ok (x : op) : Prop :=
  match x with
  | OElse f => ∀ s, st_taken (f s) = st_taken s ∧ st_accepted (f s) = st_accepted s
  | _ => True
  end.

(** Nothing is lost or repeated while no poll failed. *)
Definition faithful (c0 : t) (st : t * log) : Prop :=
  l_failed st.2 = false →
  sends c0 st.1 ∧ takes c0 st.1
  ∧ se_plain (session st.1) = se_plain (session c0) ++ l_read st.2
  ∧ se_written (session st.1) = se_written (session c0) ++ l_written st.2.

Lemma faithful_log c0 c l c' d w b :
  faithful c0 (c, l) →
  (b = false → sends c c' ∧ takes c c' ∧ se_plain (session c') = se_plain (session c) ++ d
    ∧ se_written (session c') = se_written (session c) ++ w) →
  faithful c0 (c', mkLog (l_read l ++ d) (l_written l ++ w) (l_failed l || b)).
Proof.
  intros Hf Hs. unfold faithful in *. cbn [fst snd l_read l_written l_failed] in *.
  intros [Hl Hb]%orb_false_iff. destruct (Hf Hl) as (H1 & H2 & H3 & H4). destruct (Hs Hb) as (H5 & H6 & H7 & H8).
  split_and!; [by etrans|by etrans|by rewrite H7, H3, app_assoc|by rewrite H8, H4, app_assoc].
Qed.

Lemma faithful_quiet c0 c l c' b :
  faithful c0 (c, l) →
  (b = false → sends c c' ∧ takes c c' ∧ se_plain (session c') = se_plain (session c)
    ∧ se_written (session c') = se_written (session c)) →
  faithful c0 (c', mkLog (l_read l) (l_written l) (l_failed l || b)).
Proof.
  intros Hf Hs. rewrite <-(app_nil_r (l_read l)), <-(app_nil_r (l_written l)).
  eapply faithful_log; [done|]. intros Hb. rewrite !app_nil_r. auto.
Qed.

Lemma run_op_faithful c0 st x :
  op_ok x → faithful c0 st → terminates (λ fuel, run_op fuel st x) (faithful c0).
Proof.
  intros Hx Hf. destruct st as [c l]. destruct x as [[] n|[] buf|[]|[]|f]; cbn [run_op half_read half_write half_flush half_shutdown half_poll].
  - apply terminates_ret. rewrite <-(app_nil_r (l_written l)). eapply faithful_log; [done|].
    intros _. by rewrite !app_nil_r.
  - eapply terminates_bind; [apply tls_poll_read_spec|]. intros [r c1] [Hw Hr]. apply terminates_ret.
    rewrite <-(app_nil_r (l_written l)). eapply faithful_log; [done|]. intros Hb. rewrite app_nil_r.
    destruct r as [|[d|e]]; [|destruct Hr as (? & ? & ?)|done]; [|auto].
    destruct Hr as (? & ? & ?). by rewrite app_nil_r.
  - apply terminates_ret. rewrite <-(app_nil_r (l_read l)). cbn [take].
    eapply faithful_log; [done|]. intros _. by rewrite !app_nil_r.
  - eapply terminates_bind; [apply tls_poll_write_spec|]. intros [r c1] [Hp Hr]. apply terminates_ret.
    rewrite <-(app_nil_r (l_read l)). eapply faithful_log; [done|]. intros Hb. rewrite app_nil_r.
    destruct r as [|[n|e]]; [|destruct Hr as (_ & ? & ? & ?)|done]; [|auto].
    destruct Hr as (? & ? & ?). cbn [take]. by rewrite app_nil_r.
  - apply terminates_ret. by eapply faithful_quiet.
  - eapply terminates_bind; [apply tls_flush_spec|]. intros [r c1] [Hfr Hr]. apply terminates_ret.
    apply faithful_quiet with (c := c); [done|]. intros Hb. pose proof (frame_takes _ _ Hfr). destruct Hfr.
    destruct r as [|[[]|e]]; [destruct Hr|destruct Hr|done]; auto.
  - apply terminates_ret. by eapply faithful_quiet.
  - unfold poll_shutdown. destruct (io_poll_shutdown (stream c)) as [r s] eqn:Hs. cbn [mbind option_bind].
    apply io_poll_shutdown_spec in Hs as [Ht Ha]. apply terminates_ret. apply faithful_quiet with (c := c); [done|].
    intros _. split_and!; [by apply sends_same|by apply takes_same|done..].
  - apply terminates_ret. destruct (Hx (stream c)) as [Ht Ha]. intros Hl. destruct (Hf Hl) as (H1 & H2 & H3 & H4).
    split_and!; [etrans; [exact H1|by apply sends_same]|etrans; [exact H2|by apply takes_same]|done..].
Qed.

(** C31: The asynchronous TLS stream: however its halves are polled, by two tasks that
    may find it locked, and whatever the peer does, every poll ends without a panic,
    and while none has failed nothing is lost, repeated or reordered: the session's
    records are on the TCP stream, the last of them kept in [send_buf]; the session
    was fed what was taken from the TCP stream; the reader has what the session
    decrypted, and the session was given the bytes whose writes were reported.  A
    flush that succeeds leaves nothing behind. *)
Theorem tls_stream_conserves s0 se0 ops :
  Forall op_ok ops →
  terminates (λ fuel, foldl (λ acc x, st ← acc; run_op fuel st x) (Some (new s0 se0, mkLog [] [] false)) ops)
    (λ '(c, l), l_failed l = false →
      (∃ h, st_accepted (stream c) ++ send_buf c = st_accepted s0 ++ h ∧ se_out (session c) = se_out se0 ++ h)
      ∧ (∃ g, st_taken (stream c) = st_taken s0 ++ g ∧ se_fed (session c) = se_fed se0 ++ g)
      ∧ se_plain (session c) = se_plain se0 ++ l_read l
      ∧ se_written (session c) = se_written se0 ++ l_written l
      ∧ terminates (λ fuel, poll_flush fuel c) (λ '(r, c'), r = Ready (IoOk ()) →
          send_buf c' = [] ∧ wants_write (session c') = false)).
Proof.
  intros Hops. eapply (terminates_weaken _ (faithful (new s0 se0))).
  { apply (terminates_foldl run_op (faithful (new s0 se0))).
    - intros st x Hx Hf. apply run_op_faithful; [|done]. by eapply Forall_forall in Hops.
    - intros _. cbn [fst snd l_read l_written]. by rewrite !app_nil_r. }
  intros [c l] Hf Hl. destruct (Hf Hl) as ((h & H1 & H2) & (g & H3 & H4) & H5 & H6).
  destruct (set_buffer_limit_spec None se0) as (E1 & E2 & E3 & E4). cbn in H1, H2, H3, H4, H5, H6.
  rewrite app_nil_r in H1. rewrite E4 in H2. rewrite E1 in H4. rewrite E2 in H5. rewrite E3 in H6.
  split_and!; [by exists h|by exists g|done|done|].
  eapply terminates_weaken; [apply tls_flush_spec|]. intros [r c'] [_ H] ->. naive_solver.
Qed.

(** *** The end of a stream *)

(** [poll_shutdown] does not flush: records that wait for the socket are left behind,
    also those of writes that were reported. *)
Lemma shutdown_leaves_records c :
  send_buf (poll_shutdown c).2 = send_buf c ∧ session (poll_shutdown c).2 = session c
  ∧ st_accepted (stream (poll_shutdown c).2) = st_accepted (stream c).
Proof.
  unfold poll_shutdown. destruct (io_poll_shutdown _) as [r s] eqn:Hs. by apply io_poll_shutdown_spec in Hs as [_ ?].
Qed.

(** The end of the TCP stream is reported as the end of the data, whether or not the
    session has seen the peer close it. *)
Lemma truncation_is_an_end n c s st :
  reader_read (session c) n = (IoErr WouldBlock, s) → io_poll_read (stream c) RECV_BUF = (Ready (IoOk []), st) →
  poll_read 1 n c = Some (Ready (IoOk []), mk st s (send_buf c)).
Proof. intros Hr Hp. cbn [poll_read]. rewrite Hr. cbn [stream with_session]. by rewrite Hp. Qed.

End Laws.
End Stream.
End TlsAsync.

(** ** Examples

    A session that does not encrypt and a stream with room for so many bytes. *)

Module SimTls.

Record sock : Type := mkSock { arriving : list bytes; taken : bytes; accepted : bytes; room : nat }.
Record sess : Type := mkSess { fed : bytes; inbuf : bytes; ready : bytes; plain : bytes; pend : bytes; out : bytes }.

#[export] Instance tls : AsyncTls := {
  AStream := sock;
  ASession := sess;
  io_poll_read s n :=
    match arriving s with
    | [] => (Pending, s)
    | d :: rest =>
        (Ready (IoOk (take n d)),
         mkSock (if bool_decide (drop n d = []) then rest else drop n d :: rest)
           (taken s ++ take n d) (accepted s) (room s))
    end;
  io_poll_write s b :=
    if (room s =? 0)%nat then (Pending, s)
    else
      let n := Nat.min (room s) (length b) in
      (Ready (IoOk n), mkSock (arriving s) (taken s) (accepted s ++ take n b) (room s - n));
  io_poll_shutdown s := (Ready (IoOk ()), s);
  set_buffer_limit _ s := s;
  reader_read s n :=
    match ready s with
    | [] => (IoErr WouldBlock, s)
    | d => (IoOk (take n d), mkSess (fed s) (inbuf s) (drop n d) (plain s ++ take n d) (pend s) (out s))
    end;
  writer_write s b := (IoOk (length b), mkSess (fed s) (inbuf s) (ready s) (plain s) (pend s ++ b) (out s));
  wants_write s := negb (bool_decide (pend s = []));
  write_tls s := (IoOk (pend s), mkSess (fed s) (inbuf s) (ready s) (plain s) [] (out s ++ pend s));
  read_tls s b := (IoOk (length b), mkSess (fed s ++ b) (inbuf s ++ b) (ready s) (plain s) (pend s) (out s));
  process_new_packets s := (true, mkSess (fed s) [] (ready s ++ inbuf s) (plain s) (pend s) (out s))
}.

#[export] Instance observed : AsyncObserved tls := {
  st_taken := taken;
  st_accepted := accepted;
  st_left s := length (mjoin (arriving s));
  se_fed := fed;
  se_plain := plain;
  se_written s := out s ++ pend s;
  se_out := out;
  se_left s := length (pend s)
}.

#[export] Instance tls_ok : AsyncTlsOk tls.
Proof.
  split; cbn; try done.
  - intros s n r s'. destruct (arriving s) as [|d rest]; intros [= <- <-]; [done|]. cbn.
    split_and!; [done|done|rewrite length_take; lia|]. intros Hne.
    change (length (mjoin (if bool_decide (drop n d = []) then rest else drop n d :: rest)) < length (d ++ mjoin rest))%nat.
    rewrite length_app.
    assert (0 < length (take n d))%nat as Hl by (destruct (take n d); [done|simpl; lia]).
    rewrite length_take in Hl. case_bool_decide; [lia|].
    change (length (drop n d ++ mjoin rest) < length d + length (mjoin rest))%nat.
    rewrite length_app, length_drop. lia.
  - intros s b r s'. destruct (_ =? 0)%nat; intros [= <- <-]; [done|]. cbn. split_and!; try done. lia.
  - by intros s r s' [= <- <-].
  - intros s n r s'. destruct (ready s) as [|x d]; intros [= <- <-]; [done|]. cbn -[take]. split_and!; try done.
    rewrite length_take. lia.
  - intros s b r s' [= <- <-]. cbn. split_and!; try done. by rewrite app_assoc, firstn_all.
  - intros s r s' [= <- <-]. cbn. split_and!; try done; [by rewrite app_nil_r|].
    intros H%negb_true_iff%bool_decide_eq_false. destruct (pend s); [done|simpl; lia].
  - intros s b r s' [= <- <-]. cbn. split_and!; try done; [by rewrite firstn_all|by destruct b].
  - by intros s r s' [= <- <-].
Qed.
End SimTls.

Module TlsAsyncWitness.
Import TlsAsync SimTls.

Definition sock0 : AStream := mkSock [] [] [] 2.
Definition sess0 : ASession := mkSess [] [] [] [] [] [].
Definition arrives (d : bytes) (n : nat) (s : sock) : sock := mkSock (arriving s ++ [d]) (taken s) (accepted s) n.
Definition run (ops : list op) : option (t * log) :=
  foldl (λ acc x, st ← acc; run_op 9 st x) (Some (new sock0 sess0, mkLog [] [] false)) ops.

(** A write of which the socket takes two bytes, then room for more, a flush, and an
    answer. *)
Definition ops : list op :=
  [OWrite false [1; 2; 3]; OFlush true; OElse (arrives [7; 8] 5); OFlush false; ORead false 9; ORead true 9].

Example carried :
  (λ '(c, l), (accepted (stream c), send_buf c, l_read l, l_written l, l_failed l)) <$> run ops
  = Some ([1; 2; 3], [], [7; 8], [1; 2; 3], false).
Proof. by vm_compute. Qed.

(** Shut down right after the write the last byte never leaves. *)
Example cut_off :
  (λ '(c, l), (accepted (stream c), send_buf c, l_written l, l_failed l))
    <$> run [OWrite false [1; 2; 3]; OShutdown false]
  = Some ([1; 2], [3], [1; 2; 3], false).
Proof. by vm_compute. Qed.

Lemma tls_stream_conserves_witness :
  terminates (λ fuel, foldl (λ acc x, st ← acc; run_op fuel st x) (Some (new sock0 sess0, mkLog [] [] false)) ops)
    (λ '(c, l), l_failed l = false →
      (∃ h, st_accepted (stream c) ++ send_buf c = [] ++ h ∧ se_out (session c) = [] ++ h)
      ∧ se_written (session c) = [] ++ l_written l).
Proof.
  eapply terminates_weaken; [apply (tls_stream_conserves sock0 sess0 ops)|].
  - repeat constructor.
  - intros [c l] H Hl. destruct (H Hl) as (H1 & _ & _ & H4 & _). split; [exact H1|exact H4].
Defined.
End TlsAsyncWitness.
