(* ===== verification/AWinUdp.v ===== *)
(** * The asynchronous tunnel: UDP ([src/src/awintun/udp.rs])

    The tunnel's device hands out a socket per destination.  A task per socket
    passes the received datagrams to the dispatcher, which gives every source a
    connection of its own to the server: one task writes to it, another returns
    the answers through the socket of the source's first destination.  The tasks,
    the dispatcher and their bounded channels are one state, their interleavings
    a step relation; a task that waits for room in a channel takes no step until
    there is some.  The device always takes what it is sent. *)

From Stdlib Require Import ZArith Lia.
From stdpp Require Import base option list gmap relations.
From S2P Require Import Prelude Framing Net Config Proto Env AsyncIo.
From S2P Require Import Backend UdpBackend AServer AServerUdp TlsStream Smoltcp TunDevice WinUdp.

Open Scope Z_scope.
Open Scope rust_scope.

Module AWinUdp.
Section AWinUdp.
Context {Pk : PacketReader} (OPTIONS : Opts).
(** [OPTIONS.wintun_args().mtu], the capacity of a source's channel; the mobile
    tunnel's copy of the file has its own, and another parser. *)
Context (mtu : nat).

(** A datagram with its destination. *)
Abbreviation datagram := (bytes * SocketAddr)%type.

(** [channel(128)] of [async_run]. *)
Definition CHANNEL : nat := 128.

(** [start_udp]: receiving, waiting to hand a datagram over, waiting to report
    that the socket is closed, or returned. *)
Inductive listener : Type := Listening | Handing (source : SocketAddr) (data : bytes) | Closing | Stopped.

(** A socket of the device, with its task. *)
Record sock : Type := mkSock { peer_addr : SocketAddr; listener_of : listener }.

(** [local_to_remote]: connecting; failed and about to report; in its loop; out of
    its loop, shutting the connection down; returned. *)
Inductive writer : Type := Starting | Failed | Forwarding | Shutting | Ended.

(** [remote_to_local]: not spawned yet; in its loop with a buffer; about to report;
    returned; ended by a panic. *)
Inductive reader : Type :=
  | NotSpawned
  | Reading (buffer : bytes)
  | Reporting
  | Returned
  | Panicked.

(** The two tasks of a source.  [local] is the socket that answers, [queue] the
    channel of datagrams, [out] what the server has been sent; [routed] are all
    the datagrams that were put in the channel. *)
Record task : Type := mkTask {
  src_addr : SocketAddr;
  local : SocketAddr;
  queue : list datagram;
  writer_of : writer;
  reader_of : reader;
  out : bytes;
  routed : list datagram
}.

(** [run_udp_dispatch]: at its [select!], or sending to a task; [Dead] when it has
    panicked. *)
Inductive dispatcher : Type := Selecting | Sending (i : nat) (d : datagram) | Dead.

Record t : Type := mk {
  locals : gmap SocketAddr nat;
  req_senders : gmap SocketAddr nat;
  dispatch : dispatcher;
  data_queue : list (SocketAddr * datagram);
  socket_queue : list nat;
  close_queue : list (SocketAddr * bool);
  sockets : list sock;
  tasks : list task;
  (** what the device has been given: source, destination, data *)
  responses : list (SocketAddr * SocketAddr * bytes);
  (** the datagrams the dispatcher has taken *)
  taken : list (SocketAddr * datagram)
}.

Definition start : t := mk ∅ ∅ Selecting [] [] [] [] [] [] [].

Definition empty : SocketAddr := mkSocketAddr (V4 [0; 0; 0; 0]) 0.
Definition request : bytes := TrojanRequest.generate OPTIONS UDP_ASSOCIATE empty.

Definition with_queue (k : task) (q r : list datagram) : task :=
  mkTask (src_addr k) (local k) q (writer_of k) (reader_of k) (out k) r.
Definition with_writer (k : task) (q : list datagram) (w : writer) (o : bytes) : task :=
  mkTask (src_addr k) (local k) q w (reader_of k) o (routed k).
Definition with_reader (k : task) (r : reader) : task :=
  mkTask (src_addr k) (local k) (queue k) (writer_of k) r (out k) (routed k).

(** ** The dispatcher *)

Definition with_dispatch (s : t) (x : dispatcher) : t :=
  mk (locals s) (req_senders s) x (data_queue s) (socket_queue s) (close_queue s) (sockets s) (tasks s)
    (responses s) (taken s).
Definition with_tasks (s : t) (m : gmap SocketAddr nat) (x : list task) : t :=
  mk (locals s) m (dispatch s) (data_queue s) (socket_queue s) (close_queue s) (sockets s) x
    (responses s) (taken s).

(** The datagram leaves the channel. *)
Definition take_data (s : t) (d : SocketAddr * datagram) (rest : list (SocketAddr * datagram)) : t :=
  mk (locals s) (req_senders s) (dispatch s) rest (socket_queue s) (close_queue s) (sockets s) (tasks s)
    (responses s) (taken s ++ [d]).

(** [DispatchReturn::Data]: the datagram is dropped if its socket is not known;
    otherwise the dispatcher goes on to send it to the task of its source, which
    it may have to spawn ([channel] panics without a capacity). *)
Definition on_data (s : t) (src dst : SocketAddr) (data : bytes) (rest : list (SocketAddr * datagram)) : t :=
  let s := take_data s (src, (data, dst)) rest in
  match locals s !! dst with
  | None => s
  | Some _ =>
      match req_senders s !! src with
      | Some i => with_dispatch s (Sending i (data, dst))
      | None =>
          if (mtu =? 0)%nat then with_dispatch s Dead
          else
            let i := length (tasks s) in
            with_dispatch (with_tasks s (<[src := i]> (req_senders s))
              (tasks s ++ [mkTask src dst [] Starting NotSpawned [] []])) (Sending i (data, dst))
      end
  end.

(** [sender.send] goes through: the task's channel has room, or its receiver is
    gone. *)
Definition on_sent (s : t) (i : nat) (k : task) (d : datagram) : t :=
  match writer_of k with
  | Ended => with_dispatch s Selecting
  | _ => with_dispatch (with_tasks s (req_senders s)
           (<[i := with_queue k (queue k ++ [d]) (routed k ++ [d])]> (tasks s))) Selecting
  end.

Definition sendable (k : task) : bool :=
  match writer_of k with Ended => true | _ => (length (queue k) <? mtu)%nat end.

(** [DispatchReturn::Socket]. *)
Definition on_socket (s : t) (x : nat) (addr : SocketAddr) (rest : list nat) : t :=
  mk (<[addr := x]> (locals s)) (req_senders s) (dispatch s) (data_queue s) rest (close_queue s)
    (sockets s) (tasks s) (responses s) (taken s).

(** [DispatchReturn::Close]. *)
Definition on_close (s : t) (addr : SocketAddr) (is_remote : bool) (rest : list (SocketAddr * bool)) : t :=
  if is_remote then
    mk (locals s) (delete addr (req_senders s)) (dispatch s) (data_queue s) (socket_queue s) rest
      (sockets s) (tasks s) (responses s) (taken s)
  else
    mk (delete addr (locals s)) (req_senders s) (dispatch s) (data_queue s) (socket_queue s) rest
      (sockets s) (tasks s) (responses s) (taken s).

(** ** The main loop and the sockets *)

(** [async_run]: a socket of the device is announced to the dispatcher and its
    task spawned. *)
Definition on_accept (s : t) (target : SocketAddr) : t :=
  mk (locals s) (req_senders s) (dispatch s) (data_queue s) (socket_queue s ++ [length (sockets s)])
    (close_queue s) (sockets s ++ [mkSock target Listening]) (tasks s) (responses s) (taken s).

Definition set_sock (s : t) (x : nat) (a : sock) (data : list (SocketAddr * datagram))
    (close : list (SocketAddr * bool)) (sent : list (SocketAddr * SocketAddr * bytes)) : t :=
  mk (locals s) (req_senders s) (dispatch s) (data_queue s ++ data) (socket_queue s) (close_queue s ++ close)
    (<[x := a]> (sockets s)) (tasks s) (responses s ++ sent) (taken s).

Definition with_listener (a : sock) (l : listener) : sock := mkSock (peer_addr a) l.

(** [recv_from] in [start_udp]: a datagram, or the end of the loop, with which the
    device is told to close the socket. *)
Definition on_recv (s : t) (x : nat) (a : sock) (r : option (SocketAddr * bytes)) : t :=
  match r with
  | Some (source, data) => set_sock s x (with_listener a (Handing source data)) [] [] []
  | None => set_sock s x (with_listener a Closing) [] [] [(peer_addr a, peer_addr a, [])]
  end.

(** ** A source's tasks *)

(** The connection to the server has failed, or its handshake has ([w] is its
    outcome then). *)
Definition fail_start (k : task) (w : option write_outcome) : task :=
  with_writer k (queue k) Failed (match w with Some w => written w request | None => [] end).

(** The handshake has been written: the reader is spawned. *)
Definition finish_start (k : task) : task :=
  with_reader (with_writer k (queue k) Forwarding request) (Reading []).

(** An iteration of [local_to_remote] on a datagram, with the outcomes of its two
    writes. *)
Definition forward (k : task) (d : datagram) (rest : list datagram) (header body : write_outcome) : task :=
  match d.1 with
  | [] => with_writer k rest Forwarding (out k)
  | _ =>
      let head := UdpAssociate.generate_endpoint d.2 (wrap 16 (Z.of_nat (length d.1))) in
      let o := out k ++ written header head in
      if write_is_ok header then
        let o := o ++ written body d.1 in
        if write_is_ok body then with_writer k rest Forwarding o else with_writer k rest Shutting o
      else with_writer k rest Shutting o
  end.

(** How the inner loop of [remote_to_local] ends: it waits for more, it ends the
    task, or the parser panics. *)
Inductive received : Type := More (buffer : bytes) | Invalid | ParserPanic.

(** The inner loop: the payloads it has sent and how it ends. *)
Fixpoint receive (fuel : nat) (buffer : bytes) : option (list bytes * received) :=
  match fuel with
  | O => None
  | S fuel =>
      match read_packet buffer with
      | Some UdpAssociate.ContinuedEndpoint => Some ([], More buffer)
      | Some (UdpAssociate.PacketEndpoint packet) =>
          payload ← (UdpAssociate.e_payload packet).[upto UdpAssociate.e_length packet];
          rest ← buffer.[from UdpAssociate.e_offset packet];
          '(payloads, r) ← receive fuel rest;
          Some (payload :: payloads, r)
      | Some UdpAssociate.InvalidProtocolEndpoint => Some ([], Invalid)
      | None => Some ([], ParserPanic)
      end
  end.

(** The reader's task after a read, with the payloads it has sent.  The fuel is
    enough ([tunnel_receive_total]). *)
Definition on_read (k : task) (buffer : bytes) (r : read_outcome) : option (task * list bytes) :=
  match r with
  | ReadBytes ((_ :: _) as data) =>
      '(payloads, r) ← receive (S (length (buffer ++ data))) (buffer ++ data);
      Some (with_reader k (match r with More rest => Reading rest | Invalid => Reporting | ParserPanic => Panicked end),
            payloads)
  | _ => Some (with_reader k Reporting, [])
  end.

(** [local.send_to(payload, source)]: the destination is the socket's, whatever
    the packet says. *)
Definition answer (k : task) (payload : bytes) : SocketAddr * SocketAddr * bytes :=
  (src_addr k, local k, payload).

Definition set_task (s : t) (i : nat) (k : task) (close : list (SocketAddr * bool))
    (sent : list (SocketAddr * SocketAddr * bytes)) : t :=
  mk (locals s) (req_senders s) (dispatch s) (data_queue s) (socket_queue s) (close_queue s ++ close)
    (sockets s) (<[i := k]> (tasks s)) (responses s ++ sent) (taken s).

(** One step of one task. *)
Inductive step : t → t → Prop :=
  | step_accept target s :
      wf_sa target → (length (socket_queue s) < CHANNEL)%nat → step s (on_accept s target)
  | step_recv x a r s :
      sockets s !! x = Some a → listener_of a = Listening →
      (∀ source data, r = Some (source, data) → wf_sa source ∧ Z.of_nat (length data) < 2 ^ 16) →
      step s (on_recv s x a r)
  | step_hand x a source data s :
      sockets s !! x = Some a → listener_of a = Handing source data →
      (length (data_queue s) < CHANNEL)%nat →
      step s (set_sock s x (with_listener a Listening) [(source, (data, peer_addr a))] [] [])
  | step_stop x a s :
      sockets s !! x = Some a → listener_of a = Closing → (length (close_queue s) < CHANNEL)%nat →
      step s (set_sock s x (with_listener a Stopped) [] [(peer_addr a, false)] [])
  | step_data src dst data rest s :
      dispatch s = Selecting → data_queue s = (src, (data, dst)) :: rest → step s (on_data s src dst data rest)
  | step_socket x a rest s :
      dispatch s = Selecting → socket_queue s = x :: rest → sockets s !! x = Some a →
      step s (on_socket s x (peer_addr a) rest)
  | step_close addr is_remote rest s :
      dispatch s = Selecting → close_queue s = (addr, is_remote) :: rest → step s (on_close s addr is_remote rest)
  | step_sent i k d s :
      dispatch s = Sending i d → tasks s !! i = Some k → sendable k = true → step s (on_sent s i k d)
  | step_fail i k w s :
      tasks s !! i = Some k → writer_of k = Starting → (∀ o, w = Some o → write_is_ok o = false) →
      step s (set_task s i (fail_start k w) [] [])
  | step_start i k s :
      tasks s !! i = Some k → writer_of k = Starting → step s (set_task s i (finish_start k) [] [])
  | step_report i k s :
      tasks s !! i = Some k → writer_of k = Failed → (length (close_queue s) < CHANNEL)%nat →
      step s (set_task s i (with_writer k [] Ended (out k)) [(src_addr k, true)] [])
  | step_forward i k d rest header body s :
      tasks s !! i = Some k → writer_of k = Forwarding → queue k = d :: rest →
      step s (set_task s i (forward k d rest header body) [] [])
  | step_disconnected i k s :
      tasks s !! i = Some k → writer_of k = Forwarding → queue k = [] → req_senders s !! src_addr k ≠ Some i →
      step s (set_task s i (with_writer k [] Shutting (out k)) [] [])
  | step_shutdown i k s :
      tasks s !! i = Some k → writer_of k = Shutting →
      step s (set_task s i (with_writer k [] Ended (out k)) [] [])
  | step_read i k buffer r k' payloads s :
      tasks s !! i = Some k → reader_of k = Reading buffer → on_read k buffer r = Some (k', payloads) →
      step s (set_task s i k' [] (answer k <$> payloads))
  | step_return i k s :
      tasks s !! i = Some k → reader_of k = Reporting → (length (close_queue s) < CHANNEL)%nat →
      step s (set_task s i (with_reader k Returned) [(src_addr k, true)] []).

Abbreviation reachable := (rtc step start).

Context {PkOk : PacketReaderOk Pk}.

Lemma tunnel_receive_total fuel buffer : (length buffer < fuel)%nat → is_Some (receive fuel buffer).
Proof.
  revert buffer. induction fuel as [|fuel IH]; intros buffer Hf; [lia|]. cbn [receive].
  destruct (read_packet buffer) as [[p| |]|] eqn:Hp; try by eexists.
  destruct (reader_bounds _ _ Hp) as [H1 H2].
  rewrite slice_to_le, slice_from_le by lia. cbn [mbind option_bind].
  destruct (IH (drop (UdpAssociate.e_offset p) buffer)) as [[ps r] ->]; [rewrite length_drop; lia|].
  by eexists.
Qed.

(** ** One live pair of tasks per source *)

(** The task has not reported its end yet. *)
Definition alive (k : task) : bool :=
  match writer_of k, reader_of k with
  | Starting, _ | Failed, _ | _, Reading _ | _, Reporting => true
  | _, _ => false
  end.

(** The sources whose tasks have reported their end. *)
Definition reports (q : list (SocketAddr * bool)) : list SocketAddr := (filter (λ e, e.2 = true) q).*1.

Lemma reports_app q q' : reports (q ++ q') = reports q ++ reports q'.
Proof. unfold reports. by rewrite filter_app, fmap_app. Qed.

(** The reader is there once the handshake has been written. *)
Definition staged (k : task) : Prop :=
  match writer_of k with
  | Starting | Failed => reader_of k = NotSpawned
  | Forwarding | Shutting => reader_of k ≠ NotSpawned
  | Ended => True
  end.

Record consistent (s : t) : Prop := {
  (** a task that is alive is the one its source's entry leads to *)
  co_alive i k : tasks s !! i = Some k → alive k = true → req_senders s !! src_addr k = Some i;
  (** an entry leads to a task of its source, which is alive, has reported its
      end, or has panicked *)
  co_entry src i : req_senders s !! src = Some i → ∃ k, tasks s !! i = Some k ∧ src_addr k = src
    ∧ (alive k = true ∨ src ∈ reports (close_queue s) ∨ reader_of k = Panicked);
  (** a report that is on its way is the only one of its source, and comes from
      the task of the entry it will remove *)
  co_reports : NoDup (reports (close_queue s));
  co_report src : src ∈ reports (close_queue s) →
    ∃ i k, req_senders s !! src = Some i ∧ tasks s !! i = Some k ∧ alive k = false ∧ reader_of k ≠ Panicked;
  co_stage i k : tasks s !! i = Some k → staged k;
  co_room i k : tasks s !! i = Some k → (length (queue k) <= mtu)%nat;
  (** the dispatcher waits for a task that has an entry *)
  co_sending i d : dispatch s = Sending i d →
    ∃ k, tasks s !! i = Some k ∧ req_senders s !! src_addr k = Some i
}.

Lemma tunnel_consistent_start : consistent start.
Proof. split; unfold start; cbn -[lookup reports]; try done; [constructor|by intros src ?%elem_of_nil]. Qed.

(** Only some of the fields matter. *)
Lemma consistent_ext s s' :
  consistent s → req_senders s' = req_senders s → tasks s' = tasks s →
  reports (close_queue s') = reports (close_queue s) →
  (dispatch s' = dispatch s ∨ ∀ i d, dispatch s' ≠ Sending i d) → consistent s'.
Proof.
  intros [H1 H2 H3 H4 H5 H6 H7] Hr Ht Hq Hd. split; rewrite ?Hr, ?Ht, ?Hq; try done.
  intros i d Hs. destruct Hd as [Hd|Hd]; [rewrite Hd in Hs; by eapply H7|by apply Hd in Hs].
Qed.

(** A task moves on, perhaps to its end. *)
Definition moves (k k' : task) (notice : list SocketAddr) : Prop :=
  src_addr k' = src_addr k ∧ (length (queue k') <= mtu)%nat ∧ staged k'
  ∧ (alive k' = alive k ∧ notice = [] ∧ (reader_of k = Panicked ↔ reader_of k' = Panicked)
     ∨ alive k = true ∧ alive k' = false
       ∧ (notice = [src_addr k] ∧ reader_of k' ≠ Panicked ∨ notice = [] ∧ reader_of k' = Panicked)).

Lemma consistent_moved s s' i k k' notice :
  consistent s → tasks s !! i = Some k → moves k k' notice →
  req_senders s' = req_senders s → tasks s' = <[i := k']> (tasks s) →
  reports (close_queue s') = reports (close_queue s) ++ notice →
  (dispatch s' = dispatch s ∨ ∀ i d, dispatch s' ≠ Sending i d) → consistent s'.
Proof.
  intros [H1 H2 H3 H4 H5 H6 H7] Hi (Hsrc & Hroom & Hst & Hk) Hr Ht Hq Hd.
  assert (i < length (tasks s))%nat as Hlt by (by eapply lookup_lt_Some).
  assert (alive k' = true → alive k = true) as Hal.
  { destruct Hk as [(-> & _)|(_ & -> & _)]; done. }
  assert (alive k = true → src_addr k ∉ reports (close_queue s)) as Hnew.
  { intros Ha Hin. destruct (H4 _ Hin) as (j & kj & Hj & Hkj & Hn & _).
    rewrite (H1 i k Hi Ha) in Hj. injection Hj as <-. congruence. }
  split; rewrite ?Hr, ?Ht, ?Hq.
  - intros j kj [(<- & -> & _)|[Hn Hj]]%list_lookup_insert_Some Ha; [rewrite Hsrc; by apply H1, Hal|by apply H1].
  - intros src j Hj. destruct (H2 _ _ Hj) as (kj & Hkj & Hs & Hor). destruct (decide (i = j)) as [<-|Hn].
    + rewrite list_lookup_insert_eq by done. exists k'. split; [done|]. rewrite Hi in Hkj. injection Hkj as <-.
      split; [congruence|]. rewrite elem_of_app.
      destruct Hk as [(-> & -> & Hp)|(Ha & Ha' & [[-> _]|[-> Hp]])].
      * destruct Hor as [?|[?|?%Hp]]; auto.
      * subst src. right. left. right. apply list_elem_of_here.
      * auto.
    + rewrite list_lookup_insert_ne by done. exists kj. rewrite elem_of_app. naive_solver.
  - destruct Hk as [(_ & -> & _)|(Ha & _ & [[-> _]|[-> _]])]; rewrite ?app_nil_r; try done.
    apply NoDup_app. split; [done|]. split; [|apply NoDup_singleton].
    intros x Hx ->%list_elem_of_singleton. by apply Hnew.
  - assert (∀ src, src ∈ reports (close_queue s) → ∃ j kj, req_senders s !! src = Some j
      ∧ <[i:=k']> (tasks s) !! j = Some kj ∧ alive kj = false ∧ reader_of kj ≠ Panicked) as Hold.
    { intros src (j & kj & Hj & Hkj & Hn & Hp)%H4. exists j. destruct (decide (i = j)) as [<-|Hne].
      - exists k'. rewrite list_lookup_insert_eq by done. rewrite Hi in Hkj. injection Hkj as <-.
        destruct Hk as [(Ha & _ & Hpp)|(Ha & _)]; [|congruence]. rewrite <-Hpp, Ha. done.
      - exists kj. by rewrite list_lookup_insert_ne. }
    intros src [Hin|Hin]%elem_of_app; [by apply Hold|].
    destruct Hk as [(_ & -> & _)|(Ha & Ha' & [[-> Hp]|[-> _]])]; try by apply elem_of_nil in Hin.
    apply list_elem_of_singleton in Hin as ->. exists i, k'. rewrite list_lookup_insert_eq by done. auto.
  - intros j kj [(<- & -> & _)|[Hn Hj]]%list_lookup_insert_Some; [done|by apply (H5 j kj)].
  - intros j kj [(<- & -> & _)|[Hn Hj]]%list_lookup_insert_Some; [done|by apply (H6 j kj)].
  - intros j d Hs. destruct Hd as [Hd|Hd]; [|by apply Hd in Hs]. rewrite Hd in Hs.
    destruct (H7 j d Hs) as (kj & Hkj & He). destruct (decide (i = j)) as [<-|Hne].
    + exists k'. rewrite list_lookup_insert_eq by done. split; [done|]. rewrite Hsrc. congruence.
    + exists kj. by rewrite list_lookup_insert_ne.
Qed.

Lemma tunnel_consistent_set s i k k' close sent :
  consistent s → tasks s !! i = Some k → moves k k' (reports close) → consistent (set_task s i k' close sent).
Proof.
  intros Hc Hi Hm. apply (consistent_moved s _ i k k' (reports close)); try done; [|by left].
  unfold set_task. cbn [close_queue]. apply reports_app.
Qed.

Lemma consistent_data s src dst data rest : consistent s → dispatch s = Selecting → consistent (on_data s src dst data rest).
Proof.
  intros Hc Hd. set (s1 := take_data s (src, (data, dst)) rest).
  assert (consistent s1) as Hc1 by (apply (consistent_ext s); by auto).
  unfold on_data. fold s1. change (locals s !! dst) with (locals s1 !! dst).
  destruct (locals s1 !! dst); [|done]. destruct (req_senders s1 !! src) as [i|] eqn:Hr.
  - destruct Hc1 as [H1 H2 H3 H4 H5 H6 H7]. split; try done. intros j d [= -> <-].
    destruct (H2 _ _ Hr) as (k & Hk & Hs & _). exists k. split; [done|]. by rewrite Hs.
  - destruct (Nat.eqb_spec mtu 0) as [Hm|Hm]; [by apply (consistent_ext s1); auto|].
    destruct Hc1 as [H1 H2 H3 H4 H5 H6 H7].
    set (k := mkTask src dst [] Starting NotSpawned [] []). set (i := length (tasks s1)).
    assert (∀ j kj, (tasks s1 ++ [k]) !! j = Some kj → tasks s1 !! j = Some kj ∨ j = i ∧ kj = k) as Hl.
    { intros j kj [Hj|[Hj Hk]]%lookup_app_Some; [by left|]. right.
      apply list_lookup_singleton_Some in Hk as [Hz <-]. split; [unfold i; lia|done]. }
    assert ((tasks s1 ++ [k]) !! i = Some k) as Hi by (by apply list_lookup_middle).
    assert (∀ j kj, tasks s1 !! j = Some kj → (tasks s1 ++ [k]) !! j = Some kj) as Ho
      by (intros; by apply lookup_app_l_Some).
    split; cbn [req_senders tasks close_queue dispatch with_dispatch with_tasks]; try done.
    + intros j kj [Hj|[-> ->]]%Hl Ha; [|by rewrite lookup_insert_eq].
      rewrite lookup_insert_ne; [by apply H1|]. intros ->. specialize (H1 j kj Hj Ha). congruence.
    + intros src' j [[<- <-]|[Hne Hj]]%lookup_insert_Some; [by exists k; auto|].
      destruct (H2 _ _ Hj) as (kj & Hkj & ?). exists kj. auto.
    + intros src' (j & kj & Hj & Hkj & ?)%H4. exists j, kj.
      rewrite lookup_insert_ne by (intros ->; congruence). auto.
    + intros j kj [Hj|[-> ->]]%Hl; [by eapply H5|done].
    + intros j kj [Hj|[-> ->]]%Hl; [by eapply H6|simpl; lia].
    + intros j d [= <- <-]. exists k. split; [done|]. by rewrite lookup_insert_eq.
Qed.

Lemma consistent_close s addr is_remote rest :
  consistent s → dispatch s = Selecting → close_queue s = (addr, is_remote) :: rest →
  consistent (on_close s addr is_remote rest).
Proof.
  intros Hc Hd Hq. destruct is_remote; [|apply (consistent_ext s); [done..|by rewrite Hq|by left]].
  destruct Hc as [H1 H2 H3 H4 H5 H6 H7]. rewrite Hq in H2, H3, H4.
  change (reports ((addr, true) :: rest)) with (addr :: reports rest) in *. apply NoDup_cons in H3 as [Hn H3].
  split; cbn [on_close req_senders tasks close_queue dispatch]; try done.
  - intros i k Hi Ha. rewrite lookup_delete_ne; [by apply H1|]. intros ->.
    destruct (H4 (src_addr k)) as (j & kj & Hj & Hkj & Hal & _); [apply list_elem_of_here|].
    rewrite (H1 i k Hi Ha) in Hj. injection Hj as <-. congruence.
  - intros src' i [Hne Hi]%lookup_delete_Some. destruct (H2 _ _ Hi) as (k & Hk & Hs & Hor).
    exists k. rewrite elem_of_cons in Hor. naive_solver.
  - intros src' Hin. destruct (H4 src') as (j & kj & Hj & ?); [by apply list_elem_of_further|].
    exists j, kj. rewrite lookup_delete_ne by (by intros ->). done.
  - intros i d Hs. congruence.
Qed.

Lemma consistent_sent s i k d :
  consistent s → dispatch s = Sending i d → tasks s !! i = Some k → sendable k = true → consistent (on_sent s i k d).
Proof.
  intros Hc Hd Hi Hs. unfold on_sent. pose proof (co_stage _ Hc i k Hi) as Hst.
  assert (writer_of k = Ended ∨ length (queue k) < mtu)%nat as [He|Hr].
  { unfold sendable in Hs. destruct (writer_of k); auto; right; by apply Nat.ltb_lt. }
  { rewrite He. apply (consistent_ext s); try done. by right. }
  assert (consistent (with_dispatch (with_tasks s (req_senders s)
    (<[i := with_queue k (queue k ++ [d]) (routed k ++ [d])]> (tasks s))) Selecting)) as Hc'.
  { eapply (consistent_moved s _ i k _ []); [done..| |done|done|by rewrite app_nil_r|by right].
    split; [done|]. split; [simpl; rewrite length_app; simpl; lia|]. split; [done|]. by left. }
  destruct (writer_of k) eqn:Hw; try done. by apply (consistent_ext s); auto.
Qed.

Ltac by_stage Hst :=
  unfold moves, staged, alive, fail_start, finish_start in *; cbn [with_writer with_reader writer_of reader_of src_addr queue length] in *;
  repeat match goal with H : writer_of _ = _ |- _ => rewrite H in * end;
  repeat match goal with H : reader_of _ = _ |- _ => rewrite H in * end.

Lemma forward_moves k d rest header body :
  staged k → writer_of k = Forwarding → queue k = d :: rest → (length (queue k) <= mtu)%nat →
  moves k (forward k d rest header body) [].
Proof.
  intros Hst Hw Hq Hr. rewrite Hq in Hr. simpl in Hr. unfold forward.
  destruct d.1; [|destruct header; cbn [write_is_ok]; [destruct body; cbn [write_is_ok]|]];
    (split; [done|]; split; [simpl; lia|]); by_stage Hst; (split; [done|]); left;
    by destruct (reader_of k).
Qed.

Lemma read_moves k buffer r k' payloads :
  staged k → reader_of k = Reading buffer → (length (queue k) <= mtu)%nat →
  on_read k buffer r = Some (k', payloads) → moves k k' [].
Proof.
  intros Hst Hr Hq Hk.
  assert (∀ x, (∃ b, x = Reading b) ∨ x = Reporting ∨ x = Panicked → moves k (with_reader k x) []) as Hm.
  { intros x Hx. split; [done|]. split; [done|]. by_stage Hst.
    destruct (writer_of k); try done;
      (split; [by destruct Hx as [[b ->]|[-> | ->]]|]);
      (destruct Hx as [[b ->]|[-> | ->]]; [by left|by left|by right; auto]). }
  unfold on_read in Hk. destruct r as [[|x data]| |];
    [injection Hk as <- _| |injection Hk as <- _|injection Hk as <- _]; try (apply Hm; auto).
  apply bind_Some in Hk as ([ps []] & _ & Hk); injection Hk as <- _; apply Hm; eauto.
Qed.

Lemma tunnel_consistent_step s s' : step s s' → consistent s → consistent s'.
Proof.
  intros Hs Hc. destruct Hs as [target s _ _|x a r s Hx Hl _|x a source data s Hx Hl Hr|x a s Hx Hl Hr
    |src dst data rest s Hd Hq|x a rest s Hd Hq Hx|addr b rest s Hd Hq|i k d s Hd Hi Hk|i k w s Hi Hw _|i k s Hi Hw
    |i k s Hi Hw Hr|i k d rest header body s Hi Hw Hq|i k s Hi Hw Hq Hr|i k s Hi Hw|i k buffer r k' payloads s Hi Hr Hk
    |i k s Hi Hr Hroom];
    try (pose proof (co_stage _ Hc i k Hi) as Hst; pose proof (co_room _ Hc i k Hi) as Hrm).
  - by apply (consistent_ext s); auto.
  - unfold on_recv. destruct r as [[source data]|];
      (apply (consistent_ext s); try done; [|by left]); cbn; by rewrite app_nil_r.
  - apply (consistent_ext s); try done; [|by left]. cbn. by rewrite app_nil_r.
  - apply (consistent_ext s); try done; [|by left]. cbn [set_sock close_queue].
    rewrite reports_app. by rewrite app_nil_r.
  - by apply consistent_data.
  - by apply (consistent_ext s); auto.
  - by apply consistent_close.
  - by apply consistent_sent.
  - apply (tunnel_consistent_set s i k); [done..|]. split; [done|]. split; [done|]. by_stage Hst.
    split; [done|]. by left.
  - apply (tunnel_consistent_set s i k); [done..|]. split; [done|]. split; [done|]. by_stage Hst.
    split; [done|]. by left.
  - apply (tunnel_consistent_set s i k); [done..|]. split; [done|]. split; [simpl; lia|]. by_stage Hst.
    split; [done|]. by right; auto.
  - apply (tunnel_consistent_set s i k); [done..|]. by apply forward_moves.
  - apply (tunnel_consistent_set s i k); [done..|]. split; [done|]. split; [simpl; lia|]. by_stage Hst.
    split; [done|]. by left; destruct (reader_of k).
  - apply (tunnel_consistent_set s i k); [done..|]. split; [done|]. split; [simpl; lia|]. by_stage Hst.
    split; [done|]. by left; destruct (reader_of k).
  - apply (tunnel_consistent_set s i k); [done..|]. by eapply read_moves.
  - apply (tunnel_consistent_set s i k); [done..|]. split; [done|]. split; [done|]. by_stage Hst.
    destruct (writer_of k); try done; (split; [done|]); right; auto.
Qed.

Lemma consistent_rtc s s' : rtc step s s' → consistent s → consistent s'.
Proof. induction 1; eauto using tunnel_consistent_step. Qed.

Lemma tunnel_reachable_consistent s : reachable s → consistent s.
Proof. intros Hr. eapply consistent_rtc, tunnel_consistent_start. exact Hr. Qed.

(** However the tasks interleave, a source has at most one pair of tasks that
    has not reported its end, and the dispatcher's entry leads to it; a report
    that is processed never makes the dispatcher forget a live pair, even when
    the source has come back in between; every source's channel stays within its
    capacity; and the task the dispatcher waits for keeps its entry while it does. *)
Theorem one_live_pair_per_source s :
  reachable s →
  (∀ i j ki kj, tasks s !! i = Some ki → tasks s !! j = Some kj → alive ki = true → alive kj = true →
     src_addr ki = src_addr kj → i = j ∧ req_senders s !! src_addr ki = Some i)
  ∧ (∀ addr is_remote rest s', dispatch s = Selecting → close_queue s = (addr, is_remote) :: rest →
       s' = on_close s addr is_remote rest →
       ∀ i k, tasks s' !! i = Some k → alive k = true → req_senders s' !! src_addr k = Some i)
  ∧ (∀ i k, tasks s !! i = Some k → (length (queue k) <= mtu)%nat)
  ∧ (∀ i d, dispatch s = Sending i d → ∃ k, tasks s !! i = Some k ∧ req_senders s !! src_addr k = Some i).
Proof.
  intros Hc%tunnel_reachable_consistent. split_and!.
  - intros i j ki kj Hi Hj Hai Haj Heq. pose proof (co_alive _ Hc i ki Hi Hai) as H1.
    pose proof (co_alive _ Hc j kj Hj Haj) as H2. split; congruence.
  - intros addr b rest s' Hd Hq -> i k. apply co_alive. by apply consistent_close.
  - apply co_room, Hc.
  - apply co_sending, Hc.
Qed.

(** ** What a panic of the parser costs *)

(** What every step keeps of a task. *)
Definition grows (k k' : task) : Prop :=
  src_addr k' = src_addr k ∧ local k' = local k ∧ (reader_of k = Panicked → reader_of k' = Panicked).

Lemma grows_insert (l : list task) i k k' :
  l !! i = Some k → grows k k' → ∀ j kj, l !! j = Some kj → ∃ kj', <[i := k']> l !! j = Some kj' ∧ grows kj kj'.
Proof.
  intros Hi Hg j kj Hj. assert (i < length l)%nat by (by eapply lookup_lt_Some).
  destruct (decide (i = j)) as [<-|Hne].
  - exists k'. rewrite list_lookup_insert_eq by done. split; [done|congruence].
  - exists kj. rewrite list_lookup_insert_ne by done. by repeat split.
Qed.

(** A close of a socket, or an answer a reader passes on. *)
Definition from_reader (s : t) (r : SocketAddr * SocketAddr * bytes) : Prop :=
  (∃ a, r = (a, a, []))
  ∨ ∃ i k buffer, tasks s !! i = Some k ∧ reader_of k = Reading buffer ∧ r.1 = (src_addr k, local k).

Record keeps (s s' : t) : Prop := {
  ke_tasks i k : tasks s !! i = Some k → ∃ k', tasks s' !! i = Some k' ∧ grows k k';
  ke_entry src i : req_senders s !! src = Some i →
    req_senders s' !! src = Some i ∨ src ∈ reports (close_queue s);
  ke_responses : ∃ more, responses s' = responses s ++ more ∧ Forall (from_reader s) more
}.

Lemma keeps_ext s s' :
  tasks s' = tasks s → req_senders s' = req_senders s → responses s' = responses s → keeps s s'.
Proof.
  intros Ht Hr Hp. split; rewrite ?Ht, ?Hr, ?Hp; auto.
  - intros i k Hi. exists k. by repeat split.
  - exists []. by rewrite app_nil_r.
Qed.

Lemma keeps_set s i k k' close sent :
  tasks s !! i = Some k → grows k k' → Forall (from_reader s) sent → keeps s (set_task s i k' close sent).
Proof.
  intros Hi Hg Hs. split; [by apply (grows_insert _ i k)|by left|]. by exists sent.
Qed.

Lemma keeps_data s src dst data rest : keeps s (on_data s src dst data rest).
Proof.
  unfold on_data. destruct (locals _ !! dst); [|by apply keeps_ext].
  destruct (req_senders _ !! src) eqn:Hr; [by apply keeps_ext|]. destruct (mtu =? 0)%nat; [by apply keeps_ext|].
  split; cbn.
  - intros i k Hi. exists k. split; [by apply lookup_app_l_Some|by repeat split].
  - intros src' i Hi. left. rewrite lookup_insert_ne; [done|]. intros ->. cbn in Hr. congruence.
  - exists []. by rewrite app_nil_r.
Qed.

Lemma keeps_step s s' : step s s' → consistent s → keeps s s'.
Proof.
  intros Hs Hc. destruct Hs as [target s _ _|x a r s Hx Hl _|x a source data s Hx Hl Hr|x a s Hx Hl Hr
    |src dst data rest s Hd Hq|x a rest s Hd Hq Hx|addr b rest s Hd Hq|i k d s Hd Hi Hk|i k w s Hi Hw _|i k s Hi Hw
    |i k s Hi Hw Hr|i k d rest header body s Hi Hw Hq|i k s Hi Hw Hq Hr|i k s Hi Hw|i k buffer r k' payloads s Hi Hr Hk
    |i k s Hi Hr Hroom].
  all: try by apply keeps_ext.
  all: try (apply (keeps_set s i k); [done| |by apply Forall_nil_2]; repeat split; intros Hp;
    by pose proof (co_stage _ Hc i k Hi) as Hst; unfold staged in Hst; destruct (writer_of k); cbn in *; congruence).
  - destruct r as [[source data]|]; [by apply keeps_ext; cbn; rewrite ?app_nil_r|].
    split; [|by left|].
    + intros i k Hi. exists k. by repeat split.
    + eexists. split; [reflexivity|]. apply Forall_singleton. left. by exists (peer_addr a).
  - apply keeps_ext; cbn; by rewrite ?app_nil_r.
  - apply keeps_ext; cbn; by rewrite ?app_nil_r.
  - apply keeps_data.
  - destruct b; [|by apply keeps_ext]. split; cbn.
    + intros i k Hi. exists k. by repeat split.
    + intros src i Hi. destruct (decide (src = addr)) as [->|Hne].
      * right. rewrite Hq. apply list_elem_of_here.
      * left. by rewrite lookup_delete_ne.
    + exists []. by rewrite app_nil_r.
  - unfold on_sent. assert (keeps s (with_dispatch (with_tasks s (req_senders s)
      (<[i := with_queue k (queue k ++ [d]) (routed k ++ [d])]> (tasks s))) Selecting)) as H.
    { split; [by apply (grows_insert _ i k)|by left|]. exists []. by rewrite app_nil_r. }
    by destruct (writer_of k); [..|apply keeps_ext].
  - apply (keeps_set s i k); [done| |by apply Forall_nil_2]. unfold forward.
    destruct d.1; [|destruct header; cbn [write_is_ok]; [destruct body; cbn [write_is_ok]|]]; by repeat split.
  - apply (keeps_set s i k); [done| |].
    + assert (∀ x, grows k (with_reader k x)) as Hg by (intros x; repeat split; intros ?; congruence).
      unfold on_read in Hk. destruct r as [[|y data]| |]; [by injection Hk as <- _| |by injection Hk as <- _..].
      apply bind_Some in Hk as ([ps r] & _ & Hk). by injection Hk as <- _.
    + apply Forall_fmap, Forall_true. intros p. right. by exists i, k, buffer.
Qed.

(** One answer whose parsing panics - an answer with an IPv6 address is
    enough ([ipv6_answer_panics]) - loses its source for good: the pair of tasks
    that answered it never reports its end, so the dispatcher keeps giving it the
    source's datagrams, and no answer comes back to the source any more. *)
Theorem panicked_source_is_lost s s' src i k :
  reachable s → req_senders s !! src = Some i → tasks s !! i = Some k → reader_of k = Panicked →
  rtc step s s' →
  req_senders s' !! src = Some i
  ∧ (∃ k', tasks s' !! i = Some k' ∧ reader_of k' = Panicked)
  ∧ ∃ more, responses s' = responses s ++ more ∧ Forall (λ r, r.1.1 = src → r = (src, src, [])) more.
Proof.
  intros Hc%tunnel_reachable_consistent Hr Hi Hp Hs. revert k Hr Hi Hp. induction Hs as [s|s s1 s' Hs Hss IH]; intros k Hr Hi Hp.
  { split; [done|]. split; [by exists k|]. exists []. by rewrite app_nil_r. }
  assert (alive k = false) as Ha.
  { pose proof (co_stage _ Hc i k Hi) as Hst. unfold staged, alive in *. rewrite Hp in *. by destruct (writer_of k). }
  destruct (keeps_step s s1 Hs Hc) as [Ht He (more & Hm & Hf)].
  destruct (Ht i k Hi) as (k1 & Hk1 & _ & _ & Hp1).
  destruct (IH (tunnel_consistent_step _ _ Hs Hc) k1) as (H1 & H2 & more' & Hm' & Hf'); [|done|by apply Hp1|].
  { destruct (He _ _ Hr) as [?|Hin]; [done|]. destruct (co_report _ Hc src Hin) as (j & kj & Hj & Hkj & _ & Hn).
    congruence. }
  split; [done|]. split; [done|]. exists (more ++ more'). rewrite Hm', Hm, app_assoc. split; [done|].
  apply Forall_app. split; [|done]. eapply Forall_impl; [exact Hf|].
  intros r [[a ->]|(j & kj & buffer & Hj & Hb & Hrr)] Hsrc; [by cbn in Hsrc; subst a|].
  exfalso. rewrite Hrr in Hsrc. cbn in Hsrc.
  assert (alive kj = true) as Haj by (unfold alive; rewrite Hb; by destruct (writer_of kj)).
  pose proof (co_alive _ Hc j kj Hj Haj) as Hrj. rewrite Hsrc in Hrj. congruence.
Qed.

(** ** A socket that is closed late *)

Section Late.
Context (target : SocketAddr).

(** The dispatcher neither knows a socket of the target nor will be told of one. *)
Record unknown (s : t) : Prop := {
  un_local : locals s !! target = None;
  un_queue x a : x ∈ socket_queue s → sockets s !! x = Some a → peer_addr a ≠ target;
  un_sending i d : dispatch s = Sending i d → d.2 ≠ target
}.

(** A step in which the device hands out no socket of the target. *)
Definition step_without (s s' : t) : Prop :=
  step s s' ∧ ∀ x a, (length (sockets s) <= x)%nat → sockets s' !! x = Some a → peer_addr a ≠ target.

Definition to_target (k : task) : list datagram := filter (λ d, d.2 = target) (routed k).

(** Every task has been given the same datagrams for the target. *)
Definition none_routed (l l' : list task) : Prop := ∃ n, to_target <$> l' = (to_target <$> l) ++ replicate n [].

Lemma none_routed_refl l : none_routed l l.
Proof. exists 0%nat. by rewrite app_nil_r. Qed.

Lemma none_routed_trans l l' l'' : none_routed l l' → none_routed l' l'' → none_routed l l''.
Proof. intros [n Hn] [m Hm]. exists (n + m)%nat. by rewrite Hm, Hn, <-app_assoc, replicate_add. Qed.

Lemma none_routed_insert l i k k' : l !! i = Some k → to_target k' = to_target k → none_routed l (<[i := k']> l).
Proof.
  intros Hi Hk. exists 0%nat. rewrite app_nil_r, list_fmap_insert, Hk. apply list_insert_id.
  by rewrite list_lookup_fmap, Hi.
Qed.

Lemma none_routed_new l k : to_target k = [] → none_routed l (l ++ [k]).
Proof. intros Hk. exists 1%nat. by rewrite fmap_app; cbn; rewrite Hk. Qed.

Lemma unknown_ext s s' :
  unknown s → locals s' = locals s → socket_queue s' = socket_queue s → sockets s' = sockets s →
  (dispatch s' = dispatch s ∨ ∀ i d, dispatch s' = Sending i d → d.2 ≠ target) → unknown s'.
Proof.
  intros [H1 H2 H3] Hl Hq Hs Hd. split; rewrite ?Hl, ?Hq, ?Hs; try done.
  intros i d Hi. destruct Hd as [Hd|Hd]; [rewrite Hd in Hi; by eapply H3|by eapply Hd].
Qed.

Lemma unknown_sock s x a l data close sent :
  unknown s → sockets s !! x = Some a → unknown (set_sock s x (with_listener a l) data close sent).
Proof.
  intros [H1 H2 H3] Hx. split; try done. cbn. intros y b Hy [(<- & <- & _)|[_ Hb]]%list_lookup_insert_Some.
  - exact (H2 x a Hy Hx).
  - by eapply H2.
Qed.

Lemma unknown_data s src dst data rest :
  unknown s → dispatch s = Selecting →
  unknown (on_data s src dst data rest) ∧ none_routed (tasks s) (tasks (on_data s src dst data rest)).
Proof.
  intros Hu Hd. unfold on_data. set (s1 := take_data s _ rest).
  assert (unknown s1) as Hu1 by (apply (unknown_ext s); by auto).
  destruct (locals s1 !! dst) eqn:Hl; [|by split; [|apply none_routed_refl]].
  assert (dst ≠ target) as Hne by (intros ->; by rewrite (un_local _ Hu1) in Hl).
  assert (∀ i j d, Sending i (data, dst) = Sending j d → d.2 ≠ target) as Hs by (by intros i j d [= _ <-]).
  destruct (req_senders s1 !! src) as [i|]; [|destruct (mtu =? 0)%nat].
  - split; [|apply none_routed_refl]. apply (unknown_ext s1); try done. right. apply Hs.
  - split; [|apply none_routed_refl]. apply (unknown_ext s1); try done. by right.
  - split; [|by apply none_routed_new]. apply (unknown_ext s1); try done. right. apply Hs.
Qed.

Lemma to_target_snoc k q d : d.2 ≠ target → to_target (with_queue k q (routed k ++ [d])) = to_target k.
Proof.
  intros Hd. unfold to_target. cbn. rewrite filter_app, filter_cons_False by done. by rewrite app_nil_r.
Qed.

Lemma unknown_step s s' : step_without s s' → unknown s → unknown s' ∧ none_routed (tasks s) (tasks s').
Proof.
  intros [Hs Hnew] Hu. destruct Hs as [tgt s _ _|x a r s Hx Hl _|x a source data s Hx Hl Hr|x a s Hx Hl Hr
    |src dst data rest s Hd Hq|x a rest s Hd Hq Hx|addr b rest s Hd Hq|i k d s Hd Hi Hk|i k w s Hi Hw _|i k s Hi Hw
    |i k s Hi Hw Hr|i k d rest header body s Hi Hw Hq|i k s Hi Hw Hq Hr|i k s Hi Hw|i k buffer r k' payloads s Hi Hr Hk
    |i k s Hi Hr Hroom].
  all: try (split; [by apply (unknown_ext s); auto|by eapply none_routed_insert]).
  all: try (split; [by apply unknown_sock|apply none_routed_refl]).
  - split; [|apply none_routed_refl]. destruct Hu as [H1 H2 H3]. split; try done. cbn in *.
    intros y b Hy [Hb|[Hlen Hb]]%lookup_app_Some; [|apply (Hnew y b); [lia|]; by apply lookup_app_Some; right].
    apply elem_of_app in Hy as [Hy|Hy%list_elem_of_singleton]; [by eapply H2|].
    subst y. apply lookup_lt_Some in Hb. lia.
  - split; [|by destruct r as [[]|]; apply none_routed_refl].
    destruct r as [[source data]|]; by apply unknown_sock.
  - by apply unknown_data.
  - split; [|apply none_routed_refl]. destruct Hu as [H1 H2 H3]. split; cbn.
    + rewrite lookup_insert_ne; [done|]. apply (H2 x); [rewrite Hq; apply list_elem_of_here|done].
    + intros y b Hy. apply H2. rewrite Hq. by apply list_elem_of_further.
    + done.
  - destruct b; (split; [|apply none_routed_refl]); [by apply (unknown_ext s); auto|].
    destruct Hu as [H1 H2 H3]. split; try done. cbn. rewrite lookup_delete_None. by right.
  - assert (none_routed (tasks s) (<[i := with_queue k (queue k ++ [d]) (routed k ++ [d])]> (tasks s))) as Hn.
    { eapply none_routed_insert; [done|]. apply to_target_snoc. by eapply un_sending. }
    unfold on_sent. destruct (writer_of k);
      (split; [apply (unknown_ext s); try done; by right|]); try exact Hn; apply none_routed_refl.
  - split; [by apply (unknown_ext s); auto|]. eapply none_routed_insert; [done|]. unfold forward.
    by destruct d.1, header, body.
  - split; [by apply (unknown_ext s); auto|]. eapply none_routed_insert; [done|].
    unfold on_read in Hk. destruct r as [[|y data]| |]; [by injection Hk as <- _| |by injection Hk as <- _..].
    apply bind_Some in Hk as ([ps r] & _ & Hk). by injection Hk as <- _.
Qed.

Lemma unknown_steps s s' : rtc step_without s s' → unknown s → unknown s' ∧ none_routed (tasks s) (tasks s').
Proof.
  induction 1 as [s|s s1 s' H _ IH]; intros Hu; [by split; [|apply none_routed_refl]|].
  destruct (unknown_step _ _ H Hu) as [Hu1 H1]. destruct (IH Hu1) as [Hu' H2].
  split; [done|]. by eapply none_routed_trans.
Qed.
End Late.

(** The report of an old socket of a target removes the entry of whichever
    socket of that target is the newest.  If the device has already handed out a
    new one, that socket keeps receiving, but as long as the device keeps it every
    datagram to the target is dropped. *)
Theorem late_close_strands_target s target x a rest s' :
  dispatch s = Selecting → close_queue s = (target, false) :: rest →
  locals s !! target = Some x → sockets s !! x = Some a → listener_of a = Listening →
  (∀ y b, y ∈ socket_queue s → sockets s !! y = Some b → peer_addr b ≠ target) →
  rtc (step_without target) (on_close s target false rest) s' →
  locals s' !! target = None
  ∧ (∀ src data rest', dispatch s' = Selecting → tasks (on_data s' src target data rest') = tasks s'
       ∧ dispatch (on_data s' src target data rest') = Selecting)
  ∧ none_routed target (tasks s) (tasks s').
Proof.
  intros Hd Hq Hl Hx Ha Hn Hs.
  assert (unknown target (on_close s target false rest)) as Hu.
  { split; cbn; [by rewrite lookup_delete_eq|done|intros i d; congruence]. }
  destruct (unknown_steps target _ _ Hs Hu) as [Hu' Hr]. split; [apply Hu'|]. split; [|exact Hr].
  intros src data rest' Hd'. unfold on_data. cbn [locals take_data]. by rewrite (un_local _ _ Hu').
Qed.

(** ** When the dispatcher waits *)

(** The dispatcher waits for a task whose connection has failed, which waits to
    report it to the dispatcher. *)
Definition blocked (s : t) : Prop :=
  ∃ i k d, dispatch s = Sending i d ∧ tasks s !! i = Some k ∧ writer_of k = Failed
    ∧ (mtu <= length (queue k))%nat ∧ (CHANNEL <= length (close_queue s))%nat.

(** A dispatcher that waits can get through, unless it is blocked. *)
Lemma dispatcher_gets_through s i d :
  (0 < mtu)%nat → consistent s → dispatch s = Sending i d → ¬ blocked s →
  ∃ s', rtc step s s' ∧ dispatch s' = Selecting.
Proof.
  intros Hm Hc Hd Hb. destruct (co_sending _ Hc i d Hd) as (k & Hi & _).
  assert (i < length (tasks s))%nat as Hlt by (by eapply lookup_lt_Some).
  assert (∀ s1 k1, rtc step s s1 → dispatch s1 = Sending i d → tasks s1 !! i = Some k1 → sendable k1 = true →
    ∃ s', rtc step s s' ∧ dispatch s' = Selecting) as Hlast.
  { intros s1 k1 Hr Hd1 Hi1 Hs1. exists (on_sent s1 i k1 d).
    split; [eapply rtc_r; [done|by apply step_sent]|]. unfold on_sent. by destruct (writer_of k1). }
  destruct (sendable k) eqn:Hs; [by eapply (Hlast s), Hs; [apply rtc_refl|..]|].
  assert (mtu <= length (queue k))%nat as Hq.
  { unfold sendable in Hs. destruct (writer_of k); try done; by apply Nat.ltb_ge. }
  destruct (queue k) as [|d0 rest] eqn:Hk; [simpl in Hq; lia|].
  pose proof (co_room _ Hc i k Hi) as Hr. rewrite Hk in Hr. simpl in Hr, Hq.
  assert (∀ k', step s (set_task s i k' [] []) → writer_of k' = Ended →
    ∃ s', rtc step s s' ∧ dispatch s' = Selecting) as Hended.
  { intros k' Hst Hw. apply (Hlast (set_task s i k' [] []) k'); [by apply rtc_once|done|by apply list_lookup_insert_eq|].
    unfold sendable. by rewrite Hw. }
  assert (∀ s1 k1, rtc step s s1 → dispatch s1 = Sending i d → tasks s1 !! i = Some k1 →
    writer_of k1 = Forwarding → queue k1 = d0 :: rest →
    ∃ s', rtc step s s' ∧ dispatch s' = Selecting) as Hforward.
  { intros s1 k1 Hr1 Hd1 Hi1 Hw1 Hq1. assert (i < length (tasks s1))%nat by (by eapply lookup_lt_Some).
    apply (Hlast (set_task s1 i (forward k1 d0 rest WriteOk WriteOk) [] []) (forward k1 d0 rest WriteOk WriteOk)).
    - eapply rtc_r; [done|by apply step_forward].
    - done.
    - by apply list_lookup_insert_eq.
    - unfold sendable, forward. destruct d0.1; cbn; apply Nat.ltb_lt; lia. }
  destruct (writer_of k) eqn:Hw.
  - apply (Hforward (set_task s i (finish_start k) [] []) (finish_start k)); try done.
    + apply rtc_once. by apply step_start.
    + by apply list_lookup_insert_eq.
  - destruct (decide (length (close_queue s) < CHANNEL)%nat) as [Hroom|Hfull].
    + apply (Hlast (set_task s i (with_writer k [] Ended (out k)) [(src_addr k, true)] []) (with_writer k [] Ended (out k)));
        try done; [apply rtc_once; by apply step_report|by apply list_lookup_insert_eq].
    + destruct Hb. exists i, k, d. rewrite Hk. simpl. repeat split; try done; lia.
  - by apply (Hforward s k).
  - eapply Hended; [by apply step_shutdown|done].
  - unfold sendable in Hs. by rewrite Hw in Hs.
Qed.

(** What a blocked dispatcher is in charge of does not change any more. *)
Lemma blocked_step s s' :
  step s s' → blocked s →
  blocked s' ∧ taken s' = taken s ∧ locals s' = locals s ∧ req_senders s' = req_senders s.
Proof.
  intros Hs (j & kj & d0 & Hd0 & Hj & Hwj & Hqj & Hcj).
  assert (∀ s1 i k k', tasks s1 = <[i := k']> (tasks s) → tasks s !! i = Some k → writer_of k ≠ Failed →
    dispatch s1 = dispatch s → (length (close_queue s) <= length (close_queue s1))%nat → blocked s1) as Hset.
  { intros s1 i k k' Ht Hi Hw Hd Hc. exists j, kj, d0. rewrite Hd, Ht. split; [done|].
    rewrite list_lookup_insert_ne by congruence. repeat split; try done. lia. }
  assert (∀ s1, tasks s1 = tasks s → dispatch s1 = dispatch s →
    (length (close_queue s) <= length (close_queue s1))%nat → blocked s1) as Hext.
  { intros s1 Ht Hd Hc. exists j, kj, d0. rewrite Hd, Ht. repeat split; try done. lia. }
  destruct Hs as [target s _ _|x a r s Hx Hl _|x a source data s Hx Hl Hr|x a s Hx Hl Hr
    |src dst data rest s Hd Hq|x a rest s Hd Hq Hx|addr b rest s Hd Hq|i k d s Hd Hi Hk|i k w s Hi Hw _|i k s Hi Hw
    |i k s Hi Hw Hr|i k d rest header body s Hi Hw Hq|i k s Hi Hw Hq Hr|i k s Hi Hw|i k buffer r k' payloads s Hi Hr Hk
    |i k s Hi Hr Hroom]; try congruence; try lia;
    try (repeat split; eapply Hset; [done..|congruence|done|]; cbn; rewrite length_app; lia).
  - by repeat split; apply Hext.
  - destruct r as [[source data]|]; repeat split; apply Hext; try done; cbn; rewrite length_app; lia.
  - repeat split; apply Hext; try done; cbn; rewrite length_app; lia.
  - rewrite Hd0 in Hd. injection Hd as <- <-. rewrite Hj in Hi. injection Hi as <-.
    unfold sendable in Hk. rewrite Hwj in Hk. apply Nat.ltb_lt in Hk. lia.
  - repeat split. destruct (decide (i = j)) as [<-|Hne].
    + rewrite Hj in Hi. injection Hi as <-. exists i, k', d0.
      assert (i < length (tasks s))%nat by (by eapply lookup_lt_Some).
      cbn. rewrite list_lookup_insert_eq, app_nil_r by done.
      assert (writer_of k' = writer_of kj ∧ queue k' = queue kj) as [-> ->]; [|done].
      unfold on_read in Hk. destruct r as [[|y data]| |]; [by injection Hk as <- _| |by injection Hk as <- _..].
      apply bind_Some in Hk as ([ps r] & _ & Hk). by injection Hk as <- _.
    + exists j, kj, d0. cbn. by rewrite list_lookup_insert_ne, app_nil_r.
Qed.

Lemma blocked_steps s s' :
  rtc step s s' → blocked s →
  taken s' = taken s ∧ locals s' = locals s ∧ req_senders s' = req_senders s ∧ dispatch s' ≠ Selecting.
Proof.
  induction 1 as [s|s s1 s' H _ IH]; intros Hb.
  - repeat split. destruct Hb as (i & k & d & Hd & _). congruence.
  - destruct (blocked_step _ _ H Hb) as (Hb1 & H1 & H2 & H3). destruct (IH Hb1) as (H4 & H5 & H6 & H7).
    repeat split; congruence.
Qed.

(** ** A run that blocks the dispatcher *)

Lemma tunnel_empty_ok : wf_sa empty.
Proof. apply (bool_decide_unpack _). by vm_compute. Qed.

(** The first socket is known and listening, and nothing waits in the channels. *)
Record quiet (s : t) : Prop := {
  qu_reachable : reachable s;
  qu_data : data_queue s = [];
  qu_queue : socket_queue s = [];
  qu_close : close_queue s = [];
  qu_socket : sockets s !! 0%nat = Some (mkSock empty Listening);
  qu_local : locals s !! empty = Some 0%nat
}.

(** The source's task is connecting and has [n] datagrams to send. *)
Definition pending (n i : nat) (s : t) : Prop :=
  req_senders s !! empty = Some i
  ∧ ∃ k, tasks s !! i = Some k ∧ writer_of k = Starting ∧ length (queue k) = n.

Lemma quiet_first : ∃ s, quiet s ∧ dispatch s = Selecting ∧ req_senders s = ∅ ∧ tasks s = [].
Proof.
  exists (on_socket (on_accept start empty) 0 empty []). split; [split; try done|done].
  eapply rtc_l; [apply (step_accept empty); [apply tunnel_empty_ok|unfold CHANNEL; simpl; lia]|].
  apply rtc_once. by apply (step_socket 0 (mkSock empty Listening) []).
Qed.

(** A datagram reaches the dispatcher. *)
Lemma quiet_receives s :
  quiet s → dispatch s = Selecting → ∃ s1, locals s1 = locals s ∧ req_senders s1 = req_senders s ∧ tasks s1 = tasks s
    ∧ socket_queue s1 = [] ∧ close_queue s1 = [] ∧ sockets s1 !! 0%nat = Some (mkSock empty Listening)
    ∧ reachable (on_data s1 empty empty [0] []).
Proof.
  intros [Hr Hq Hs Hc Hx Hl] Hd. assert (0 < length (sockets s))%nat as Hlt by (by eapply lookup_lt_Some).
  set (a := mkSock empty Listening) in *.
  set (s1 := on_recv s 0 a (Some (empty, [0]))).
  assert (sockets s1 !! 0%nat = Some (with_listener a (Handing empty [0]))) as Hx1 by (by apply list_lookup_insert_eq).
  assert (step s s1) as H1.
  { apply (step_recv 0 a); [done..|]. intros source data [= <- <-]. split; [apply tunnel_empty_ok|simpl; lia]. }
  set (s2 := set_sock s1 0 (with_listener (with_listener a (Handing empty [0])) Listening) [(empty, ([0], empty))] [] []).
  assert (step s1 s2) as H2.
  { apply (step_hand 0 (with_listener a (Handing empty [0])) empty [0] s1); [done..|].
    cbn. rewrite Hq. unfold CHANNEL. simpl. lia. }
  exists s2. split_and!; try done; cbn; rewrite ?app_nil_r; try done.
  - by rewrite list_insert_insert_eq, list_lookup_insert_eq.
  - eapply rtc_r; [eapply rtc_r; [eapply rtc_r; [exact Hr|exact H1]|exact H2]|].
    apply step_data; [done|]. cbn. by rewrite Hq.
Qed.

Lemma waits_for n s :
  (0 < mtu)%nat → quiet s → dispatch s = Selecting →
  (n = 0%nat ∧ req_senders s = ∅ ∧ tasks s = [] ∨ ∃ i, pending n i s) →
  ∃ s' i d, quiet s' ∧ dispatch s' = Sending i d ∧ pending n i s'.
Proof.
  intros Hm Hs Hd Hn. destruct (quiet_receives s Hs Hd) as (s1 & Hl & Hr & Ht & Hq & Hc & Hx & Hreach).
  pose proof (qu_local _ Hs) as Hl0. rewrite <-Hl in Hl0.
  assert (∀ s', s' = on_data s1 empty empty [0] [] → data_queue s' = [] → locals s' = locals s1 →
    socket_queue s' = socket_queue s1 → close_queue s' = close_queue s1 → sockets s' = sockets s1 → quiet s') as Hqs.
  { intros s' -> H1 H2 H3 H4 H5. split; [done|done|by rewrite H3|by rewrite H4|by rewrite H5|by rewrite H2]. }
  destruct Hn as [(-> & He & Ht0)|(i & Hi & k & Hk & Hw & Hlen)].
  - exists (on_data s1 empty empty [0] []), 0%nat, ([0], empty).
    specialize (Hqs _ eq_refl). unfold on_data in *. cbn [locals req_senders tasks take_data] in *.
    rewrite Hl0, Hr, He, Ht, Ht0 in *. rewrite lookup_empty in *. rewrite (proj2 (Nat.eqb_neq mtu 0)) in * by lia.
    split; [by apply Hqs|]. split; [done|]. split; [apply lookup_insert_eq|]. by eexists.
  - exists (on_data s1 empty empty [0] []), i, ([0], empty).
    specialize (Hqs _ eq_refl). unfold on_data in *. cbn [locals req_senders tasks take_data] in *.
    rewrite Hl0, Hr, Hi in *. split; [by apply Hqs|]. split; [done|]. split; [by rewrite <-Hi, <-Hr|].
    exists k. by rewrite <-Ht in Hk.
Qed.

Lemma sends_on n s i d :
  (n < mtu)%nat → quiet s → dispatch s = Sending i d → pending n i s →
  ∃ s', quiet s' ∧ dispatch s' = Selecting ∧ pending (S n) i s'.
Proof.
  intros Hn [Hr H1 H2 H3 H4 H5] Hd (Hi & k & Hk & Hw & Hl).
  assert (i < length (tasks s))%nat by (by eapply lookup_lt_Some).
  assert (step s (on_sent s i k d)) as Hs.
  { apply step_sent; [done..|]. unfold sendable. rewrite Hw. apply Nat.ltb_lt. lia. }
  exists (on_sent s i k d). unfold on_sent in *. rewrite Hw in *.
  split; [split; try done; by eapply rtc_r|]. split; [done|]. split; [done|].
  eexists. cbn. rewrite list_lookup_insert_eq by done. split; [done|]. split; [done|].
  cbn. rewrite length_app. simpl. lia.
Qed.

Lemma fills_up n :
  (0 < mtu)%nat → (n <= mtu)%nat → ∃ s i d, quiet s ∧ dispatch s = Sending i d ∧ pending n i s.
Proof.
  intros Hm. induction n as [|n IH]; intros Hn.
  - destruct quiet_first as (s & Hs & Hd & He & Ht). by apply (waits_for 0 s); auto.
  - destruct IH as (s & i & d & Hs & Hd & Hp); [lia|].
    destruct (sends_on n s i d) as (s' & Hs' & Hd' & Hp'); [lia|done..|].
    apply (waits_for (S n) s'); [done..|]. right. by exists i.
Qed.

(** While the dispatcher waits, sockets come and go and fill its channels. *)
Lemma closes_up n :
  (0 < mtu)%nat → (n <= CHANNEL)%nat →
  ∃ s i d k, reachable s ∧ dispatch s = Sending i d ∧ tasks s !! i = Some k ∧ writer_of k = Starting
    ∧ length (queue k) = mtu ∧ length (socket_queue s) = n ∧ length (close_queue s) = n.
Proof.
  intros Hm. induction n as [|n IH]; intros Hn.
  - destruct (fills_up mtu) as (s & i & d & [Hr _ Hq Hc _ _] & Hd & _ & k & Hk & Hw & Hl); [done..|].
    exists s, i, d, k. by rewrite Hq, Hc.
  - destruct IH as (s & i & d & k & Hr & Hd & Hk & Hw & Hl & Hq & Hc); [lia|].
    set (s1 := on_accept s empty). set (x := length (sockets s)). set (a := mkSock empty Listening).
    assert (sockets s1 !! x = Some a) as Hx by (by apply list_lookup_middle).
    set (s2 := on_recv s1 x a None).
    assert (x < length (sockets s1))%nat as Hlt by (by eapply lookup_lt_Some).
    set (s3 := set_sock s2 x (with_listener (with_listener a Closing) Stopped) [] [(empty, false)] []).
    exists s3, i, d, k. split_and!; try done.
    + eapply rtc_r; [eapply rtc_r; [eapply rtc_r; [exact Hr|]|]|].
      * apply (step_accept empty); [apply tunnel_empty_ok|lia].
      * by apply (step_recv x a None s1).
      * apply (step_stop x (with_listener a Closing) s2); [by apply list_lookup_insert_eq|done|].
        cbn. rewrite app_nil_r. lia.
    + cbn. rewrite length_app. simpl. lia.
    + cbn. rewrite !length_app. simpl. lia.
Qed.

(** C17: the dispatcher waits for room in the channel of one source, and can get
    through - but not when that source's connection has failed while the
    channel of reports is full: the task then waits for the dispatcher, and the
    dispatcher for the task.  Such a state is reachable, and from it no datagram,
    socket or report is ever processed again. *)
Theorem dispatcher_gets_through_or_deadlocks :
  (0 < mtu)%nat →
  (∀ s i d, reachable s → dispatch s = Sending i d → ¬ blocked s → ∃ s', rtc step s s' ∧ dispatch s' = Selecting)
  ∧ (∃ s, reachable s ∧ blocked s)
  ∧ (∀ s s', blocked s → rtc step s s' →
       taken s' = taken s ∧ locals s' = locals s ∧ req_senders s' = req_senders s ∧ dispatch s' ≠ Selecting).
Proof.
  intros Hm. split_and!.
  - intros s i d Hs. by apply dispatcher_gets_through, tunnel_reachable_consistent.
  - destruct (closes_up CHANNEL) as (s & i & d & k & Hr & Hd & Hk & Hw & Hl & Hq & Hc); [done..|].
    exists (set_task s i (fail_start k None) [] []).
    split; [eapply rtc_r; [exact Hr|]; by apply step_fail|].
    exists i, (fail_start k None), d. assert (i < length (tasks s))%nat by (by eapply lookup_lt_Some).
    cbn. rewrite list_lookup_insert_eq, app_nil_r by done. split_and!; try done; cbn; lia.
  - intros s s' Hb Hs. by apply blocked_steps.
Qed.

(** ** What a source's task is given *)

(** What the protocol's length field can hold. *)
Definition received_datagram (d : datagram) : Prop := wf_sa d.2 ∧ Z.of_nat (length d.1) < 2 ^ 16.

Record received_ok (s : t) : Prop := {
  rc_sock x a : sockets s !! x = Some a → wf_sa (peer_addr a)
    ∧ match listener_of a with Handing _ data => Z.of_nat (length data) < 2 ^ 16 | _ => True end;
  rc_queue : Forall (λ e, received_datagram e.2) (data_queue s);
  rc_taken : Forall (λ e, received_datagram e.2) (taken s)
}.

Lemma received_ext s s' :
  received_ok s → sockets s' = sockets s → data_queue s' = data_queue s → taken s' = taken s → received_ok s'.
Proof. intros [H1 H2 H3] Hs Hq Ht. by split; rewrite ?Hs, ?Hq, ?Ht. Qed.

Lemma received_sock s x a l data close sent :
  received_ok s → sockets s !! x = Some a →
  match l with Handing _ b => Z.of_nat (length b) < 2 ^ 16 | _ => True end →
  Forall (λ e, received_datagram e.2) data → received_ok (set_sock s x (with_listener a l) data close sent).
Proof.
  intros [H1 H2 H3] Hx Hl Hd. split; cbn; [|by apply Forall_app|done].
  intros y b [(<- & <- & _)|[_ Hy]]%list_lookup_insert_Some; [|by eapply H1].
  split; [by apply (H1 x a)|done].
Qed.

Lemma received_step s s' : step s s' → received_ok s → received_ok s'.
Proof.
  intros Hs Hc. destruct Hs as [target s Ht _|x a r s Hx Hl Hr|x a source data s Hx Hl Hr|x a s Hx Hl Hr
    |src dst data rest s Hd Hq|x a rest s Hd Hq Hx|addr b rest s Hd Hq|i k d s Hd Hi Hk|i k w s Hi Hw _|i k s Hi Hw
    |i k s Hi Hw Hr|i k d rest header body s Hi Hw Hq|i k s Hi Hw Hq Hr|i k s Hi Hw|i k buffer r k' payloads s Hi Hr Hk
    |i k s Hi Hr Hroom]; try by apply (received_ext s).
  - destruct Hc as [H1 H2 H3]. split; try done. cbn. intros y b [Hb|[_ Hb]]%lookup_app_Some; [by eapply H1|].
    by apply list_lookup_singleton_Some in Hb as [_ <-].
  - unfold on_recv. destruct r as [[source data]|]; apply received_sock; try done.
    by apply (Hr source data).
  - apply received_sock; [done..|]. apply Forall_singleton. destruct (rc_sock _ Hc x a Hx) as [Hp Hh].
    by rewrite Hl in Hh.
  - by apply received_sock.
  - assert (received_ok (take_data s (src, (data, dst)) rest)) as H.
    { destruct Hc as [H1 H2 H3]. rewrite Hq in H2. apply Forall_cons in H2 as [Hh H2].
      split; [done|done|]. cbn. apply Forall_app. by rewrite Forall_singleton. }
    unfold on_data. destruct (locals _ !! dst); [|done]. destruct (req_senders _ !! src), (mtu =? 0)%nat;
      by apply (received_ext _ _ H).
  - by destruct b; apply (received_ext s).
  - unfold on_sent. by destruct (writer_of k); apply (received_ext s).
Qed.

(** The datagram the dispatcher is sending to a task. *)
Definition pend (s : t) (i : nat) : list datagram :=
  match dispatch s with Sending j d => if decide (j = i) then [d] else [] | _ => [] end.

(** What a task is given are datagrams of its source, in order, the first of them
    for the socket that answers. *)
Record tracked (s : t) (i : nat) (k : task) : Prop := {
  tr_order : (routed k ++ pend s i) `sublist_of` (filter (λ e, e.1 = src_addr k) (taken s)).*2;
  tr_first : writer_of k = Ended ∨ match routed k ++ pend s i with d :: _ => d.2 = local k | [] => False end
}.

Definition all_tracked (s : t) : Prop := ∀ i k, tasks s !! i = Some k → tracked s i k.

Lemma tracked_ext s s' :
  all_tracked s → tasks s' = tasks s → dispatch s' = dispatch s → taken s' = taken s → all_tracked s'.
Proof.
  intros Hc Ht Hd Hk i k Hi. rewrite Ht in Hi. destruct (Hc i k Hi) as [H1 H2].
  split; unfold pend; by rewrite ?Hd, ?Hk.
Qed.

Lemma tracked_set s i k k' close sent :
  all_tracked s → tasks s !! i = Some k → src_addr k' = src_addr k → local k' = local k → routed k' = routed k →
  (writer_of k = Ended → writer_of k' = Ended) → all_tracked (set_task s i k' close sent).
Proof.
  intros Hc Hi Hs Hl Hr He j kj [(<- & <- & _)|[_ Hj]]%list_lookup_insert_Some.
  - destruct (Hc i k Hi) as [H1 H2]. split; rewrite ?Hs, ?Hl, ?Hr; [done|]. naive_solver.
  - by destruct (Hc j kj Hj).
Qed.

Lemma tracked_data s src dst data rest :
  consistent s → all_tracked s → dispatch s = Selecting → all_tracked (on_data s src dst data rest).
Proof.
  intros Hc Hs Hd. set (e := (src, (data, dst))).
  assert (∀ j kj x, dispatch x = dispatch s ∨ dispatch x = Dead → tracked s j kj → taken x = taken s ++ [e] → tracked x j kj)
    as Hold.
  { intros j kj x Hx [H1 H2] Ht. assert (pend x j = pend s j) as Hp.
    { unfold pend. by destruct Hx as [-> | ->]; rewrite ?Hd. }
    split; rewrite Hp; [|done]. rewrite Ht, filter_app, fmap_app. by apply sublist_inserts_r. }
  assert (∀ j kj, tracked s j kj →
    routed kj `sublist_of` (filter (λ e, e.1 = src_addr kj) (taken s)).*2) as Hr.
  { intros j kj [H1 _]. unfold pend in H1. rewrite Hd in H1. by rewrite app_nil_r in H1. }
  assert (∀ kj, src_addr kj = src → routed kj `sublist_of` (filter (λ e, e.1 = src_addr kj) (taken s)).*2 →
    (routed kj ++ [(data, dst)]) `sublist_of` (filter (λ e, e.1 = src_addr kj) (taken s ++ [e])).*2) as Hnew.
  { intros kj Hk Hsub. rewrite filter_app, fmap_app, (filter_cons_True _ e) by done. by apply sublist_app. }
  unfold on_data. fold e. destruct (locals (take_data s e rest) !! dst); [|intros j kj Hj; apply (Hold j kj); auto].
  cbn [req_senders take_data]. destruct (req_senders s !! src) as [i|] eqn:He; [|destruct (mtu =? 0)%nat].
  - intros j kj Hj. cbn in Hj. destruct (decide (i = j)) as [<-|Hne].
    + destruct (co_entry _ Hc src i He) as (k & Hk & Hsrc & _). rewrite Hj in Hk. injection Hk as <-.
      pose proof (Hs i kj Hj) as Ht. split; unfold pend; cbn; rewrite decide_True by done.
      * by apply Hnew, (Hr i).
      * destruct (tr_first _ _ _ Ht) as [?|Hf]; [by left|]. unfold pend in Hf. rewrite Hd, app_nil_r in Hf.
        right. by destruct (routed kj).
    + destruct (Hs j kj Hj) as [H1 H2]. unfold pend in *. rewrite Hd in *. split; unfold pend; cbn;
        rewrite decide_False by done; [|done]. rewrite filter_app, fmap_app. by apply sublist_inserts_r.
  - intros j kj Hj. apply (Hold j kj); auto.
  - intros j kj Hj. cbn in Hj. apply lookup_app_Some in Hj as [Hj|[Hlen Hj]].
    + destruct (Hs j kj Hj) as [H1 H2]. unfold pend in *. rewrite Hd in *. apply lookup_lt_Some in Hj.
      split; unfold pend; cbn; rewrite decide_False by lia; [|done].
      rewrite filter_app, fmap_app. by apply sublist_inserts_r.
    + apply list_lookup_singleton_Some in Hj as [Hj <-].
      split; unfold pend; cbn; rewrite decide_True by lia; [|by right].
      apply (Hnew (mkTask src dst [] Starting NotSpawned [] [])); [done|]. apply sublist_nil_l.
Qed.

Lemma tracked_sent s i k d :
  all_tracked s → dispatch s = Sending i d → tasks s !! i = Some k → all_tracked (on_sent s i k d).
Proof.
  intros Hc Hd Hi.
  assert (∀ j kj x, tracked s j kj → j ≠ i ∨ writer_of kj = Ended → dispatch x = Selecting → taken x = taken s → tracked x j kj)
    as Hold.
  { intros j kj x [H1 H2] Hj Hx Ht. unfold pend in *. rewrite Hd in *. split; unfold pend; rewrite Hx, ?Ht, app_nil_r.
    - etrans; [|exact H1]. by apply sublist_inserts_r.
    - destruct Hj as [Hj|Hj]; [|by left]. rewrite decide_False, app_nil_r in H2 by done. done. }
  assert (writer_of k ≠ Ended → all_tracked (with_dispatch (with_tasks s (req_senders s)
    (<[i := with_queue k (queue k ++ [d]) (routed k ++ [d])]> (tasks s))) Selecting)) as Hpush.
  { intros Hw j kj [(<- & <- & _)|[Hne Hj]]%list_lookup_insert_Some; [|by apply Hold; auto].
    destruct (Hc i k Hi) as [H1 H2]. unfold pend in *. rewrite Hd, decide_True in * by done.
    split; unfold pend; cbn; by rewrite app_nil_r. }
  unfold on_sent. destruct (writer_of k) eqn:Hw; try by apply Hpush.
  intros j kj Hj. cbn in Hj. destruct (decide (j = i)) as [->|Hne]; [|by apply Hold; auto].
  apply Hold; auto. right. congruence.
Qed.

Lemma tracked_step s s' : step s s' → consistent s → all_tracked s → all_tracked s'.
Proof.
  intros Hst Hc Hs. destruct Hst as [target s Ht _|x a r s Hx Hl Hr|x a source data s Hx Hl Hr|x a s Hx Hl Hr
    |src dst data rest s Hd Hq|x a rest s Hd Hq Hx|addr b rest s Hd Hq|i k d s Hd Hi Hk|i k w s Hi Hw _|i k s Hi Hw
    |i k s Hi Hw Hr|i k d rest header body s Hi Hw Hq|i k s Hi Hw Hq Hr|i k s Hi Hw|i k buffer r k' payloads s Hi Hr Hk
    |i k s Hi Hr Hroom]; try by apply (tracked_ext s).
  all: try (apply (tracked_set s i k); done || (cbn; congruence)).
  - by destruct r as [[]|]; apply (tracked_ext s).
  - by apply tracked_data.
  - by destruct b; apply (tracked_ext s).
  - by apply tracked_sent.
  - apply (tracked_set s i k); try done; unfold forward; destruct d.1, header, body; done || congruence.
  - unfold on_read in Hk.
    assert (∃ x, k' = with_reader k x) as [y ->].
    { destruct r as [[|y data]| |]; [injection Hk as <- _; eauto| |injection Hk as <- _; eauto..].
      apply bind_Some in Hk as ([ps r] & _ & Hk). injection Hk as <- _. eauto. }
    by apply (tracked_set s i k).
Qed.

(** ** What the server is sent *)

Abbreviation encode := (Framing.encode UdpBackend.packet).

(** Empty datagrams are not forwarded. *)
Definition nonempty (ds : list datagram) : list datagram := filter (λ d, d.1 ≠ []) ds.

(** The datagrams of a task are sent in their order, after the request; a task
    that has left its loop has sent a prefix. *)
Definition stream (k : task) : Prop :=
  match writer_of k with
  | Starting => out k = [] ∧ queue k = routed k
  | Forwarding => ∃ done, routed k = done ++ queue k ∧ out k = request ++ encode (nonempty done)
  | _ => out k `prefix_of` request ++ encode (nonempty (routed k))
  end.

Definition all_streams (s : t) : Prop := ∀ i k, tasks s !! i = Some k → stream k.

Lemma sublist_Forall {A} (P : A → Prop) l l' : l `sublist_of` l' → Forall P l' → Forall P l.
Proof. rewrite !Forall_forall. intros Hs H x Hx. apply H. by eapply elem_of_sublist. Qed.

Lemma routed_received s i k :
  received_ok s → tracked s i k → Forall received_datagram (routed k).
Proof.
  intros Hr [Ho _]. assert (Forall received_datagram (filter (λ e, e.1 = src_addr k) (taken s)).*2) as H.
  { apply Forall_fmap. eapply sublist_Forall; [apply sublist_filter|exact (rc_taken _ Hr)]. }
  eapply sublist_Forall in H; [|exact Ho]. by apply Forall_app in H as [? _].
Qed.

Lemma tunnel_written_is_prefix w data : written w data `prefix_of` data.
Proof. destruct (written_prefix w data) as (n & -> & _). apply prefix_take. Qed.

Lemma encode_nonempty_cons d ds :
  encode (nonempty (d :: ds)) = (if decide (d.1 ≠ []) then UdpBackend.packet d else []) ++ encode (nonempty ds).
Proof. unfold nonempty. rewrite filter_cons. by case_decide; rewrite ?encode_cons. Qed.

Lemma encode_nonempty_app ds ds' : encode (nonempty (ds ++ ds')) = encode (nonempty ds) ++ encode (nonempty ds').
Proof. unfold nonempty. by rewrite filter_app, encode_app. Qed.

Lemma stream_forward k d rest header body :
  stream k → Forall received_datagram (routed k) → writer_of k = Forwarding → queue k = d :: rest →
  stream (forward k d rest header body).
Proof.
  intros Hs Hr Hw Hq. unfold stream in Hs. rewrite Hw, Hq in Hs. destruct Hs as (done & Hd & Ho).
  assert (received_datagram d) as [Ha Hl].
  { rewrite Hd in Hr. by apply Forall_app in Hr as [_ ?%Forall_inv]. }
  assert (routed k = (done ++ [d]) ++ rest) as Hd' by (by rewrite Hd, <-app_assoc).
  unfold forward. destruct d.1 as [|b bs] eqn:Hb.
  { unfold stream. cbn [with_writer writer_of out routed queue]. exists (done ++ [d]). split; [done|]. rewrite Ho, encode_nonempty_app, encode_nonempty_cons.
    rewrite decide_False by (rewrite Hb; naive_solver). by rewrite !app_nil_r. }
  set (head := UdpAssociate.generate_endpoint d.2 _).
  assert (UdpBackend.packet d = head ++ b :: bs) as Hp.
  { unfold UdpBackend.packet, head. rewrite Hb in *. rewrite wrap_small by lia. done. }
  assert (encode (nonempty (routed k)) = encode (nonempty done) ++ (head ++ b :: bs) ++ encode (nonempty rest)) as He.
  { rewrite Hd, encode_nonempty_app, encode_nonempty_cons, decide_True by (by rewrite Hb). by rewrite Hp. }
  destruct header as [|n]; cbn [write_is_ok written]; [destruct body as [|n]|]; cbn [write_is_ok written]; unfold stream; cbn [with_writer writer_of out routed queue].
  - exists (done ++ [d]). split; [done|].
    rewrite Ho, encode_nonempty_app, encode_nonempty_cons, decide_True by (by rewrite Hb).
    rewrite Hp. change (encode (nonempty [])) with (@nil Z). by rewrite app_nil_r, <-!app_assoc.
  - rewrite Ho, He, <-!app_assoc. do 3 apply prefix_app. apply prefix_app_r. apply (prefix_take (b :: bs)).
  - rewrite Ho, He, <-!app_assoc. do 2 apply prefix_app. apply prefix_app_r, prefix_take.
Qed.

Lemma stream_left k w q :
  stream k → (w = Shutting ∨ w = Ended) → writer_of k ≠ Starting → stream (with_writer k q w (out k)).
Proof.
  intros Hs Hw Hn. unfold stream in *. destruct (writer_of k); try done.
  1,3,4: by destruct Hw as [-> | ->].
  destruct Hs as (ds & Hd & ->).
  assert (request ++ encode (nonempty ds) `prefix_of` request ++ encode (nonempty (routed k))) as Hp.
  { rewrite Hd, encode_nonempty_app. apply prefix_app, prefix_app_r. done. }
  by destruct Hw as [-> | ->].
Qed.

Lemma stream_step s s' :
  step s s' → received_ok s → all_tracked s → all_streams s → all_streams s'.
Proof.
  intros Hst Hr Ht Hs.
  assert (∀ i k close sent, tasks s !! i = Some k → stream k → ∀ k', stream k' →
    all_streams (set_task s i k' close sent)) as Hset.
  { intros i k close sent Hi _ k' Hk' j kj [(<- & <- & _)|[_ Hj]]%list_lookup_insert_Some; [done|by eapply Hs]. }
  destruct Hst as [target s Hta _|x a r s Hx Hl Hrr|x a source data s Hx Hl Hrr|x a s Hx Hl Hrr
    |src dst data rest s Hd Hq|x a rest s Hd Hq Hx|addr b rest s Hd Hq|i k d s Hd Hi Hk|i k w s Hi Hw _|i k s Hi Hw
    |i k s Hi Hw Hrr|i k d rest header body s Hi Hw Hq|i k s Hi Hw Hq Hrr|i k s Hi Hw|i k buffer r k' payloads s Hi Hrr Hk
    |i k s Hi Hrr Hroom]; try (exact Hs);
    try (pose proof (Hs i k Hi) as Hsk; apply (Hset i k); [done..|]).
  - by destruct r as [[]|].
  - unfold on_data. destruct (locals _ !! dst); [|done]. destruct (req_senders _ !! src); [done|].
    destruct (mtu =? 0)%nat; [done|]. intros j kj [Hj|[_ Hj]]%lookup_app_Some; [by eapply Hs|].
    by apply list_lookup_singleton_Some in Hj as [_ <-].
  - by destruct b.
  - unfold on_sent. pose proof (Hs i k Hi) as Hsk. unfold stream in Hsk.
    destruct (writer_of k) eqn:Hw; [..|done];
      (intros j kj [(<- & <- & _)|[_ Hj]]%list_lookup_insert_Some; [|by eapply Hs]); unfold stream;
      cbn [with_queue writer_of out routed queue]; rewrite Hw.
    + by destruct Hsk as [-> ->].
    + rewrite encode_nonempty_app, app_assoc. by apply prefix_app_r.
    + destruct Hsk as (ds & -> & ->). exists ds. by rewrite app_assoc.
    + rewrite encode_nonempty_app, app_assoc. by apply prefix_app_r.
  - unfold stream in *. rewrite Hw in Hsk. cbn. destruct w as [w|]; [|apply prefix_nil].
    apply prefix_app_r, tunnel_written_is_prefix.
  - unfold stream in *. rewrite Hw in Hsk. cbn. exists []. destruct Hsk as [_ ->]. by rewrite app_nil_r.
  - apply stream_left; auto. congruence.
  - apply stream_forward; try done. by eapply routed_received, Ht.
  - apply stream_left; auto. congruence.
  - apply stream_left; auto. congruence.
  - assert (∃ x, k' = with_reader k x) as [y ->]; [|done].
    unfold on_read in Hk. destruct r as [[|y data]| |]; [injection Hk as <- _; eauto| |injection Hk as <- _; eauto..].
    apply bind_Some in Hk as ([ps r] & _ & Hk). injection Hk as <- _. eauto.
  - done.
Qed.

Lemma tunnel_reachable_faithful s : reachable s → received_ok s ∧ all_tracked s ∧ all_streams s.
Proof.
  intros Hr. assert (∀ s0, consistent s0 → received_ok s0 → all_tracked s0 → all_streams s0 → rtc step s0 s →
    received_ok s ∧ all_tracked s ∧ all_streams s) as H.
  { intros s0 Hc H1 H2 H3 H. induction H; [done|].
    eauto 8 using tunnel_consistent_step, received_step, tracked_step, stream_step. }
  apply (H start); try done. apply tunnel_consistent_start.
Qed.

(** A source's connection carries the request and then only datagrams of that
    source, complete and in the order the dispatcher took them, each with its
    destination; empty ones are left out.  While the task forwards, all it took
    from its channel is sent; afterwards a prefix is. *)
Theorem source_datagrams_in_order s i k :
  reachable s → tasks s !! i = Some k →
  routed k `sublist_of` (filter (λ e, e.1 = src_addr k) (taken s)).*2
  ∧ (∀ d ds, routed k = d :: ds → writer_of k ≠ Ended → d.2 = local k)
  ∧ out k `prefix_of` request ++ encode (nonempty (routed k))
  ∧ (writer_of k = Forwarding →
       ∃ done, routed k = done ++ queue k ∧ out k = request ++ encode (nonempty done)).
Proof.
  intros (_ & Ht & Hs)%tunnel_reachable_faithful Hi. specialize (Ht i k Hi). specialize (Hs i k Hi). split_and!.
  - etrans; [|exact (tr_order _ _ _ Ht)]. by apply sublist_inserts_r.
  - intros d ds Hr Hw. destruct (tr_first _ _ _ Ht) as [?|Hf]; [done|]. by rewrite Hr in Hf.
  - unfold stream in Hs. destruct (writer_of k); try done; [destruct Hs as [-> _]; apply prefix_nil|].
    destruct Hs as (ds & -> & ->). rewrite encode_nonempty_app. apply prefix_app, prefix_app_r. done.
  - intros Hw. unfold stream in Hs. by rewrite Hw in Hs.
Qed.

(** ** The way back *)

Abbreviation partial := (Framing.partial WinUdpConn.frame WinUdpConn.answer4).
Abbreviation answers := (Framing.encode WinUdpConn.frame).

Lemma udp_partial_continues p : partial p → read_packet p = Some UdpAssociate.ContinuedEndpoint.
Proof. exact (WinUdpConn.partial_continues p). Qed.

Lemma tunnel_receive_ok fuel xs p :
  Forall WinUdpConn.answer4 xs → partial p → (length (answers xs ++ p) < fuel)%nat →
  receive fuel (answers xs ++ p) = Some (xs.*2, More p).
Proof.
  intros Hds Hp. revert fuel. induction Hds as [|[a data] xs (Ha & H4 & Hd) Hds IH]; intros fuel Hf;
    (destruct fuel as [|fuel]; [lia|]); cbn [receive].
  - change (answers [] ++ p) with p. by rewrite (udp_partial_continues p Hp).
  - cbn [fst snd] in *. rewrite encode_cons, <-app_assoc in *. pose proof (WinUdpConn.frame_nonempty (a, data)) as Hn.
    change (WinUdpConn.frame (a, data)) with (UdpAssociate.generate_endpoint a (Z.of_nat (length data)) ++ data) in *.
    rewrite <-app_assoc, reader_roundtrip by done.
    cbn [mbind option_bind UdpAssociate.e_payload UdpAssociate.e_length UdpAssociate.e_offset].
    rewrite slice_to_app, app_assoc, <-length_app, slice_from_app. cbn [mbind option_bind].
    rewrite IH; [done|]. rewrite !length_app in *. lia.
Qed.

(** A reader that is fed the pieces of a stream: the payloads it passes on. *)
Definition feed (st : task * list bytes) (data : bytes) : option (task * list bytes) :=
  match data with
  | [] => Some st
  | _ =>
      match reader_of st.1 with
      | Reading buffer => '(k, payloads) ← on_read st.1 buffer (ReadBytes data); Some (k, st.2 ++ payloads)
      | _ => None
      end
  end.

Lemma answer_complete a q : WinUdpConn.answer4 a → ¬ partial (WinUdpConn.frame a ++ q).
Proof.
  intros (Ha & H4 & Hd) Hp%udp_partial_continues. unfold WinUdpConn.frame in Hp.
  rewrite <-app_assoc, reader_roundtrip in Hp by done. done.
Qed.

(** Whatever the cuts in the server's stream of IPv4 answers, the payload of
    every packet that has fully arrived is passed on, once and in order, and
    nothing of an incomplete one; the address in the packet is not used: all go
    to the source through the socket of its first destination. *)
Theorem tunnel_answers_reassemble k chunks xs p :
  reader_of k = Reading [] → Forall WinUdpConn.answer4 xs → partial p → mjoin chunks = answers xs ++ p →
  ∃ k' payloads, feed_all feed (k, []) chunks = Some (k', payloads)
    ∧ reader_of k' = Reading p
    ∧ answer k' <$> payloads = (λ x, (src_addr k, local k, x.2)) <$> xs.
Proof.
  intros Hr Hxs Hp Heq.
  destruct (feed_all_ok WinUdpConn.frame WinUdpConn.answer4 feed
    (λ xs p st, st.2 = xs.*2 ∧ reader_of st.1 = Reading p ∧ src_addr st.1 = src_addr k ∧ local st.1 = local k ∧ partial p)
    answer_complete)
    with (done := @nil (SocketAddr * bytes)) (p0 := @nil Z) (s := (k, @nil bytes)) (chunks := chunks) (xs := xs) (p := p)
    as ([k' ps] & Hk & Ha & Hb & Hsrc & Hloc & _); try done.
  - intros done p0 [k1 ps] chunk ys p1 (Ha & Hb & Hsrc & Hloc & Hp0) Hys Hp1 Hch. cbn [fst snd] in *.
    unfold feed. destruct chunk as [|x chunk].
    + rewrite app_nil_r in Hch. exists (k1, ps). split; [done|]. destruct Hys as [|y ys Hy Hys].
      * rewrite app_nil_r. simpl in Hch. by rewrite <-Hch.
      * exfalso. rewrite encode_cons, <-app_assoc in Hch. subst p0. by apply answer_complete in Hp0.
    + cbn [fst snd]. rewrite Hb. unfold on_read. rewrite Hch, tunnel_receive_ok by (done || lia). cbn [mbind option_bind].
      eexists. split; [done|]. cbn. by rewrite Ha, fmap_app.
  - split_and!; try done. by left.
  - by left.
  - exists k', ps. split; [done|]. split; [done|]. cbn in Ha. subst ps. rewrite <-list_fmap_compose.
    apply list_fmap_ext. intros j [a d] _. unfold answer. cbn in *. by rewrite Hsrc, Hloc.
Qed.
End AWinUdp.

(** The first answer with an IPv6 address ends the reader with a panic, or with a
    report if its address is cut. *)
Lemma ipv6_answer_panics `{Ipv6FromBytes} k o port data n :
  Ipv6FromBytesOk → wf_sa (mkSocketAddr (V6 o) port) → (length data <= MAX_PACKET_SIZE)%nat →
  let packet := UdpAssociate.generate_endpoint (mkSocketAddr (V6 o) port) (Z.of_nat (length data)) ++ data in
  (11 <= n <= length packet)%nat →
  on_read (Pk := windows_reader) k [] (ReadBytes (take n packet))
    = Some (with_reader k (if (n <? 19)%nat then Reporting else Panicked), []).
Proof.
  intros Hok Ha Hd packet Hn.
  destruct (EndpointProps.endpoint_rejects_ipv6 o port data n Hok Ha Hd Hn) as [He _]. fold packet in He.
  unfold on_read. destruct (take n packet) as [|x rest] eqn:Ht.
  { apply (f_equal length) in Ht. rewrite length_take in Ht. simpl in Ht. lia. }
  cbn [app receive read_packet windows_reader]. rewrite He. by destruct (n <? 19)%nat.
Qed.
End AWinUdp.

(** ** Tunnel and server together *)

Module TunnelEndToEnd.
Section TunnelEndToEnd.
Context {Oct : Ipv6FromBytes} {Pk : PacketReader} (P S : Opts) `{!OptsOk P} `{!OptsOk S} (mtu : nat).
Context (lookup : bytes → Z → option (list SocketAddr)).
Context (lookup_host : nat → bytes → Z → option (list SocketAddr)) (send_to : nat → bool).
Context (same_pass : get_pass P = get_pass S) (sends : ∀ k, send_to k = true).

(** A server that reads a request for UDP and whole packets serves them, or has
    panicked inside the request's last bytes. *)
Lemma packets_served a ds chunks :
  wf_sa a → Forall UdpBackend.wf_datagram ds → Forall (Requests.allowed S) ds → Forall (λ c, c ≠ []) chunks →
  mjoin chunks = TrojanRequest.generate S UDP_ASSOCIATE a ++ Framing.encode UdpBackend.packet ds →
  (∃ b io r, AServer.handshake_loop S lookup [] (AServer.reads chunks) = Some (AServer.Serve UDP_ASSOCIATE a b, io)
     ∧ (∀ fuel, (length (mjoin chunks) < fuel)%nat →
          Requests.start_udp S lookup_host send_to fuel b io = Some (Some (true, r)))
     ∧ Requests.sent r = ds ∧ Requests.buffer r = [])
  ∨ (AServer.handshake_loop S lookup [] (AServer.reads chunks) = None
     ∧ ∃ got rest, chunks = got ++ rest
       ∧ (length (mjoin got) < length (TrojanRequest.generate S UDP_ASSOCIATE a) <= length (mjoin got) + 2)%nat).
Proof.
  intros Ha Hwf Hok Hne Heq.
  destruct (AServer.handshake_serves S lookup UDP_ASSOCIATE a
    (Framing.encode UdpBackend.packet ds) chunks) as [(b & rest & -> & Hrest & [got Hgot])|[-> Hp]];
    [by right; right|done..| |by right].
  left. do 3 eexists. split; [done|]. split.
  - intros fuel Hf. unfold Requests.start_udp.
    rewrite (Requests.run_ok S lookup_host send_to sends fuel (Requests.start b) rest ds []); try done.
    + by left.
    + rewrite Hgot in Hne. by apply Forall_app in Hne as [_ ?].
    + by rewrite app_nil_r.
    + cbn [Requests.buffer Requests.start]. rewrite Hrest. rewrite Heq, length_app in Hf. lia.
  - done.
Qed.

(** C13: end to end: while a source's task forwards, the asynchronous server that
    has read what the task wrote, in pieces of any size, serves UDP and has sent
    exactly the datagrams the task took from its channel, without the empty ones,
    in the source's order and each to its destination - if they fit the
    protocol's packets and are allowed, and unless the server panicked inside the
    request's last bytes. *)
Theorem tunnelled_datagrams_reach_targets s i k chunks :
  rtc (AWinUdp.step P mtu) AWinUdp.start s → AWinUdp.tasks s !! i = Some k →
  AWinUdp.writer_of k = AWinUdp.Forwarding →
  Forall UdpBackend.wf_datagram (AWinUdp.routed k) → Forall (Requests.allowed S) (AWinUdp.routed k) →
  Forall (λ c, c ≠ []) chunks → mjoin chunks = AWinUdp.out k →
  match AServer.handshake_loop S lookup [] (AServer.reads chunks) with
  | Some (AServer.Serve cmd a b, io) =>
      AServer.service_of cmd = Some AServer.UdpService
      ∧ ∃ done r, AWinUdp.routed k = done ++ AWinUdp.queue k
          ∧ (∀ fuel, (length (AWinUdp.out k) < fuel)%nat →
               Requests.start_udp S lookup_host send_to fuel b io = Some (Some (true, r)))
          ∧ Requests.sent r = AWinUdp.nonempty done ∧ Requests.buffer r = []
  | Some _ => False
  | None => ∃ got rest, chunks = got ++ rest
      ∧ (length (mjoin got) < length (AWinUdp.request P) <= length (mjoin got) + 2)%nat
  end.
Proof.
  intros Hr Hi Hw Hwf Hok Hne Heq.
  destruct (AWinUdp.tunnel_reachable_faithful P mtu s Hr) as (_ & _ & Hst). specialize (Hst i k Hi).
  unfold AWinUdp.stream in Hst. rewrite Hw in Hst. destruct Hst as (done & Hrt & Ho).
  assert (AWinUdp.request P = TrojanRequest.generate S UDP_ASSOCIATE AWinUdp.empty) as Hreq.
  { unfold AWinUdp.request, TrojanRequest.generate. by rewrite same_pass. }
  rewrite Hrt in Hwf, Hok. apply Forall_app in Hwf as [Hwf _]. apply Forall_app in Hok as [Hok _].
  assert (Forall UdpBackend.wf_datagram (AWinUdp.nonempty done) ∧ Forall (Requests.allowed S) (AWinUdp.nonempty done))
    as [Hwf' Hok'] by (split; by eapply AWinUdp.sublist_Forall; [apply sublist_filter|]).
  rewrite <-Heq. rewrite Ho, Hreq in Heq. rewrite Hreq.
  destruct (packets_served AWinUdp.empty (AWinUdp.nonempty done) chunks) as [(b & io & r & -> & Hrun & Hs & Hb)|[-> Hp]];
    [exact AWinUdp.tunnel_empty_ok|done..| |exact Hp].
  split; [reflexivity|]. by exists done, r.
Qed.
End TunnelEndToEnd.

Section Device.
Context {Oct : Ipv6FromBytes} {Stk : Smoltcp}.

(** An answer without data is what the device takes for the end of the socket: it
    forgets the socket the task that answers still uses. *)
Lemma empty_answer_closes_socket (k : AWinUdp.task) d d' rest h socket :
  let '(source, target, data) := AWinUdp.answer k [] in
  TunDevice.udp_ip2handle d !! target = Some h → TunDevice.get_udp_socket d target = Some (h, socket) →
  TunDevice.respond_udp (Some d) (target, (source, data) :: rest) = Some d' →
  TunDevice.udp_ip2handle d' !! target = None.
Proof.
  cbn. intros Hh Hs. rewrite Hh, Hs. cbn.
  unfold TunDevice.remove_udp. cbn. rewrite Hh. destruct (sockets_remove _ h) as [ss|]; [|done]. cbn.
  intros [= <-]. cbn. apply lookup_delete_eq.
Qed.
End Device.
End TunnelEndToEnd.

(** ** Examples *)

Module AWinUdpWitness.
Import Witness.
Import AWinUdp.
#[local] Existing Instance Witness.from_bytes.
#[local] Existing Instance Witness.from_bytes_ok.

Definition client : SocketAddr := mkSocketAddr (V4 [10; 0; 0; 2]) 5000.
Definition public : SocketAddr := mkSocketAddr (V4 [1; 2; 3; 4]) 53.
Definition listening : sock := mkSock public Listening.

Lemma client_ok : wf_sa client.
Proof. apply (bool_decide_unpack _). by vm_compute. Qed.
Lemma tunnel_public_ok : wf_sa public.
Proof. apply (bool_decide_unpack _). by vm_compute. Qed.

Abbreviation reach := (rtc (step opts 4) start).

(** A socket is accepted, and a datagram goes from it to the dispatcher. *)
Definition known : t := on_socket (on_accept start public) 0 public [].

Lemma known_reachable : reach known.
Proof.
  eapply rtc_l; [apply (step_accept opts 4 public); [exact tunnel_public_ok|unfold CHANNEL; simpl; lia]|].
  apply rtc_once. by apply (step_socket opts 4 0 listening []).
Qed.

Definition handing : sock := with_listener listening (Handing client [1; 2]).
Definition received : t :=
  set_sock (on_recv known 0 listening (Some (client, [1; 2]))) 0 (with_listener handing Listening)
    [(client, ([1; 2], public))] [] [].

Lemma received_reachable : reach received.
Proof.
  etrans; [exact known_reachable|]. eapply rtc_l.
  - apply (step_recv opts 4 0 listening (Some (client, [1; 2])) known); [done..|].
    intros source data [= <- <-]. split; [exact client_ok|simpl; lia].
  - apply rtc_once. apply (step_hand opts 4 0 handing client [1; 2]); [done..|]. unfold CHANNEL. simpl. lia.
Qed.

(** The dispatcher spawns the client's task, which connects and forwards. *)
Definition spawned : task := mkTask client public [] Starting NotSpawned [] [].
Definition given : task := with_queue spawned [([1; 2], public)] [([1; 2], public)].
Definition connected : task := finish_start opts given.
Definition forwarded : task := forward connected ([1; 2], public) [] WriteOk WriteOk.
Definition dispatched : t := on_sent (on_data 4 received client public [1; 2] []) 0 spawned ([1; 2], public).
Definition busy : t := set_task (set_task dispatched 0 connected [] []) 0 forwarded [] [].

Lemma tunnel_busy_reachable : reach busy.
Proof.
  etrans; [exact received_reachable|].
  eapply rtc_l; [by apply (step_data opts 4 client public [1; 2] [])|].
  eapply rtc_l; [by apply (step_sent opts 4 0 spawned)|].
  eapply rtc_l; [by apply (step_start opts 4 0 given)|].
  apply rtc_once. by apply (step_forward opts 4 0 connected ([1; 2], public) [] WriteOk WriteOk).
Qed.

Lemma one_live_pair_per_source_witness :
  (∀ i j ki kj, tasks busy !! i = Some ki → tasks busy !! j = Some kj → alive ki = true → alive kj = true →
     src_addr ki = src_addr kj → i = j ∧ req_senders busy !! src_addr ki = Some i)
  ∧ (∀ addr is_remote rest s', dispatch busy = Selecting → close_queue busy = (addr, is_remote) :: rest →
       s' = on_close busy addr is_remote rest →
       ∀ i k, tasks s' !! i = Some k → alive k = true → req_senders s' !! src_addr k = Some i)
  ∧ (∀ i k, tasks busy !! i = Some k → (length (queue k) <= 4)%nat)
  ∧ (∀ i d, dispatch busy = Sending i d →
       ∃ k, tasks busy !! i = Some k ∧ req_senders busy !! src_addr k = Some i).
Proof. exact (one_live_pair_per_source opts 4 busy tunnel_busy_reachable). Defined.

Lemma source_datagrams_in_order_witness :
  routed forwarded `sublist_of` (filter (λ e, e.1 = client) (taken busy)).*2
  ∧ (∀ d ds, routed forwarded = d :: ds → writer_of forwarded ≠ Ended → d.2 = public)
  ∧ out forwarded `prefix_of` request opts ++ encode UdpBackend.packet (nonempty (routed forwarded))
  ∧ (writer_of forwarded = Forwarding →
       ∃ done, routed forwarded = done ++ queue forwarded ∧ out forwarded = request opts ++ encode UdpBackend.packet (nonempty done)).
Proof. exact (source_datagrams_in_order opts 4 busy 0 forwarded tunnel_busy_reachable eq_refl). Defined.

(** An answer with an IPv6 address arrives. *)
Definition six : bytes := UdpAssociate.generate_endpoint a6 1 ++ [9].
Definition panicked : task := with_reader forwarded Panicked.
Definition lost : t := set_task busy 0 panicked [] [].

Lemma lost_reachable : reach lost.
Proof.
  eapply rtc_r; [exact tunnel_busy_reachable|].
  apply (step_read opts 4 0 forwarded [] (ReadBytes six) panicked [] busy); [done..|].
  by apply (ipv6_answer_panics forwarded (match sa_ip a6 with V6 o => o | _ => [] end) 53 [9] (length six)
    from_bytes_ok a6_ok); [unfold MAX_PACKET_SIZE; simpl; lia|simpl; lia].
Qed.

Lemma panicked_source_is_lost_witness :
  req_senders (on_recv lost 0 listening None) !! client = Some 0%nat
  ∧ (∃ k', tasks (on_recv lost 0 listening None) !! 0%nat = Some k' ∧ reader_of k' = Panicked)
  ∧ ∃ more, responses (on_recv lost 0 listening None) = responses lost ++ more
      ∧ Forall (λ r, r.1.1 = client → r = (client, client, [])) more.
Proof.
  apply (panicked_source_is_lost opts 4 lost (on_recv lost 0 listening None) client 0 panicked lost_reachable).
  - by vm_compute.
  - done.
  - done.
  - apply rtc_once. by apply (step_recv opts 4 0 listening None lost).
Defined.

(** The first socket of the target times out; the device hands out a second one,
    of which the dispatcher is told before the first reports. *)
Definition closing : sock := with_listener listening Closing.
Definition again : t := on_socket (on_accept (on_recv known 0 listening None) public) 1 public [].
Definition late : t := set_sock again 0 (with_listener closing Stopped) [] [(public, false)] [].

Lemma late_reachable : reach late.
Proof.
  etrans; [exact known_reachable|].
  eapply rtc_l; [by apply (step_recv opts 4 0 listening None known)|].
  eapply rtc_l; [apply (step_accept opts 4 public); [exact tunnel_public_ok|unfold CHANNEL; simpl; lia]|].
  eapply rtc_l; [by apply (step_socket opts 4 1 listening [])|].
  apply rtc_once. apply (step_stop opts 4 0 closing again); [done..|]. unfold CHANNEL. simpl. lia.
Qed.

Lemma late_close_strands_target_witness :
  reach late
  ∧ locals (on_close late public false []) !! public = None
  ∧ (∀ src data rest', dispatch (on_close late public false []) = Selecting →
       tasks (on_data 4 (on_close late public false []) src public data rest') = tasks (on_close late public false [])
       ∧ dispatch (on_data 4 (on_close late public false []) src public data rest') = Selecting)
  ∧ none_routed public (tasks late) (tasks (on_close late public false [])).
Proof.
  split; [exact late_reachable|].
  apply (late_close_strands_target opts 4 late public 1 listening []).
  - done.
  - done.
  - by vm_compute.
  - done.
  - done.
  - intros y b Hy. by apply elem_of_nil in Hy.
  - apply rtc_refl.
Defined.

Lemma dispatcher_gets_through_or_deadlocks_witness :
  (∀ s i d, reach s → dispatch s = Sending i d → ¬ blocked 4 s → ∃ s', rtc (step opts 4) s s' ∧ dispatch s' = Selecting)
  ∧ (∃ s, reach s ∧ blocked 4 s)
  ∧ (∀ s s', blocked 4 s → rtc (step opts 4) s s' →
       taken s' = taken s ∧ locals s' = locals s ∧ req_senders s' = req_senders s ∧ dispatch s' ≠ Selecting).
Proof. apply (dispatcher_gets_through_or_deadlocks opts 4). lia. Defined.

(** Two answers in two pieces, and the beginning of a third. *)
Definition answer1 : SocketAddr * bytes := (public, [7; 8]).
Definition answer2 : SocketAddr * bytes := (client, [9]).
Definition stream_of_answers : bytes := encode WinUdpConn.frame [answer1; answer2] ++ [IPV4].

Lemma answer_ok a : bool_decide (wf_sa a.1) = true → is_ipv4 (sa_ip a.1) = true →
  (length a.2 <=? MAX_PACKET_SIZE)%nat = true → WinUdpConn.answer4 a.
Proof. intros H1%bool_decide_eq_true H2 H3%Nat.leb_le. by split. Qed.

Lemma tunnel_answers_reassemble_witness :
  ∃ k' payloads, feed_all feed (forwarded, []) [take 5 stream_of_answers; drop 5 stream_of_answers]
      = Some (k', payloads)
    ∧ reader_of k' = Reading [IPV4]
    ∧ answer k' <$> payloads = [(client, public, [7; 8]); (client, public, [9])].
Proof.
  apply (tunnel_answers_reassemble forwarded [take 5 stream_of_answers; drop 5 stream_of_answers]
    [answer1; answer2] [IPV4]).
  - done.
  - repeat apply Forall_cons_2; [by apply answer_ok; vm_compute..|by apply Forall_nil_2].
  - right. exists answer1. split; [by apply answer_ok; vm_compute|].
    split; [|done]. by exists (drop 1 (WinUdpConn.frame answer1)).
  - by vm_compute.
Defined.

Definition no_lookup (d : bytes) (p : Z) : option (list SocketAddr) := None.
Definition pieces : list bytes := [take 9 (out forwarded); drop 9 (out forwarded)].

Lemma tunnelled_datagrams_reach_targets_witness :
  match AServer.handshake_loop opts no_lookup [] (AServer.reads pieces) with
  | Some (AServer.Serve cmd a b, io) =>
      AServer.service_of cmd = Some AServer.UdpService
      ∧ ∃ done r, routed forwarded = done ++ queue forwarded
          ∧ (∀ fuel, (length (out forwarded) < fuel)%nat →
               Requests.start_udp opts (λ _, no_lookup) (λ _, true) fuel b io = Some (Some (true, r)))
          ∧ Requests.sent r = nonempty done ∧ Requests.buffer r = []
  | Some _ => False
  | None => ∃ got rest, pieces = got ++ rest
      ∧ (length (mjoin got) < length (request opts) <= length (mjoin got) + 2)%nat
  end.
Proof.
  apply (TunnelEndToEnd.tunnelled_datagrams_reach_targets opts opts 4 no_lookup (λ _, no_lookup) (λ _, true)
    eq_refl (λ _, eq_refl) busy 0 forwarded).
  - exact tunnel_busy_reachable.
  - by vm_compute.
  - done.
  - apply Forall_cons_2; [|by apply Forall_nil_2]. split; [exact tunnel_public_ok|unfold MAX_PACKET_SIZE; simpl; lia].
  - apply Forall_cons_2; [by right|by apply Forall_nil_2].
  - apply (bool_decide_unpack _). by vm_compute.
  - by vm_compute.
Defined.
End AWinUdpWitness.
