(* ===== verification/AWinTcp.v ===== *)
(** * The asynchronous tunnel: TCP and the main loop
    ([src/src/awintun/tcp.rs], [src/src/awintun/mod.rs])

    A client's stream of the tunnel's device is relayed over a connection of its
    own to the server, by one task for each direction.  [AWinTcp] is the relay,
    composed with the device ([TunDevice], [TunStream]) on one side and with the
    asynchronous server on the other; [AWinRun] is the main loop's device, which
    never tunnels the connections to the server itself. *)

From Stdlib Require Import ZArith Lia.
From stdpp Require Import base option list gmap relations.
From S2P Require Import Prelude Net Config Proto Env AsyncIo ServerConn AServer AProxy.
From S2P Require Import IpSet Smoltcp SocketTables TunDevice TunStream.

Open Scope Z_scope.

Module AWinTcp.

(** ** The relay *)

(** [copy_stream]: an iteration per pair of outcomes of a read and a write.  The
    result is the pieces that have been written and whether the loop has ended. *)
Fixpoint copy_stream (io : list (read_outcome * write_outcome)) : list bytes * bool :=
  match io with
  | [] => ([], false)
  | (ReadBytes ((_ :: _) as data), w) :: io =>
      if write_is_ok w then let '(pieces, ended) := copy_stream io in (data :: pieces, ended)
      else (match written w data with [] => [] | part => [part] end, true)
  | _ :: _ => ([], true)
  end.

(** [init_tls_conn]: whether the connection and its handshake succeed. *)
Definition init_tls_conn (connected handshake : bool) : bool := connected && handshake.

(** [local_to_remote]: what the server has been written, and whether the task has
    shut the connection down. *)
Definition local_to_remote (OPTIONS : Opts) (peer_addr : SocketAddr) (first : write_outcome)
    (io : list (read_outcome * write_outcome)) : bytes * bool :=
  let request := TrojanRequest.generate OPTIONS CONNECT peer_addr in
  if write_is_ok first then let '(pieces, ended) := copy_stream io in (request ++ mjoin pieces, ended)
  else (written first request, true).

(** [remote_to_local]: the messages the device has been given for the client; the
    shutdown is an empty one. *)
Definition remote_to_local (io : list (read_outcome * write_outcome)) : list bytes :=
  let '(pieces, ended) := copy_stream io in pieces ++ (if ended : bool then [[]] else []).

(** [start_tcp]: nothing is relayed if there is no connection to the server. *)
Definition start_tcp (OPTIONS : Opts) (connected handshake : bool) (peer_addr : SocketAddr) (first : write_outcome)
    (up down : list (read_outcome * write_outcome)) : option (bytes * bool * list bytes) :=
  if init_tls_conn connected handshake then Some (local_to_remote OPTIONS peer_addr first up, remote_to_local down) else None.

(** The loop writes what [copy] writes. *)
Lemma copy_stream_copy io out :
  copy io out = (out ++ mjoin (copy_stream io).1, (copy_stream io).2).
Proof.
  revert out. induction io as [|[[[|x data]| |] w] io IH]; intros out; cbn -[app];
    try (by rewrite app_nil_r).
  destruct w as [|n]; cbn [write_is_ok written].
  - rewrite IH. destruct (copy_stream io) as [ps e]. cbn [fst snd].
    change (mjoin ((x :: data) :: ps)) with ((x :: data) ++ mjoin ps). by rewrite app_assoc.
  - cbn [fst snd]. destruct (take n (x :: data)) as [|y l]; [done|].
    change (mjoin [y :: l]) with ((y :: l) ++ []). by rewrite app_nil_r.
Qed.

(** ** The client's side *)

Section Client.
Context {Stk : Smoltcp} {Obs : Observed Stk} {K : SmoltcpOk Stk}.

Lemma copy_stream_nonempty io : Forall (λ p, p ≠ []) (copy_stream io).1.
Proof.
  induction io as [|[[[|x data]| |] w] io IH]; try by apply Forall_nil_2. cbn [copy_stream].
  destruct w as [|n]; cbn [write_is_ok written].
  - destruct (copy_stream io) as [ps e]. by apply Forall_cons.
  - destruct (take n (x :: data)); [by apply Forall_nil_2|by apply Forall_singleton].
Qed.

Lemma copy_stream_prefix io : mjoin (copy_stream io).1 `prefix_of` AProxy.data_of io.
Proof.
  pose proof (copy_stream_copy io []) as Hc. destruct (copy_extends io []) as (data & Hd & Hpre).
  rewrite Hc in Hd. cbn [fst app] in Hd. by rewrite Hd.
Qed.

(** What the server answers reaches the client's socket in order and without
    loss: of what the task has passed on, the socket has been given the beginning,
    and the rest stays for the next poll; the socket is closed only after all of
    it, and only when the task has ended. *)
Theorem tunnelled_answers_reach_client io s :
  may_send s = true →
  ∃ rest s' sent,
    TunDevice.send_packets (remote_to_local io) s
      = (if (copy_stream io).2
         then match rest with [] => ([], tcp_close s') | _ => (rest ++ [[]], s') end
         else (rest, s'))
    ∧ may_send s' = true
    ∧ tcp_tx s' = tcp_tx s ++ sent
    ∧ sent ++ mjoin rest = mjoin (copy_stream io).1
    ∧ mjoin (copy_stream io).1 `prefix_of` AProxy.data_of io.
Proof.
  intros Hs. pose proof (copy_stream_nonempty io) as Hne. pose proof (copy_stream_prefix io) as Hp.
  unfold remote_to_local. destruct (copy_stream io) as [ps ended]. cbn [fst snd] in *.
  destruct (TunStream.writer_reaches_socket ps s Hs Hne) as (rest & s' & sent & Hsend & Hs' & Ht & Hj & _ & Hclose).
  exists rest, s', sent. split_and!; try done. by destruct ended; [|rewrite app_nil_r].
Qed.

End Client.
End AWinTcp.

(** ** The main loop *)

Module AWinRun.
Import TunDevice.

Section Run.
Context {Stk : Smoltcp} (k : Ipv4Class).

(** The device of [async_run]: connections to the server are not tunnelled. *)
Definition device (mtu now : Z) (server_addr : SocketAddr) : t :=
  add_black_ip (sa_ip server_addr) (new mtu now).

(** What is spawned for the streams and sockets of a poll: [start_tcp] with a
    client's destination, [start_udp] for a destination. *)
Definition spawned (tcp : list TcpStream) (udp : list UdpStream) : list SocketAddr * list SocketAddr :=
  (ts_peer <$> tcp, us_peer <$> udp).

(** The traffic is reported when more than a second has passed since the last
    report, which resets the counters; [written] is whether the status file could
    be written, without which the program ends. *)
Definition report_speed (now last_speed_time : Z) (written : bool) (d : t) :
    option (option (SpecFloat.spec_float * SpecFloat.spec_float) * Z * t) :=
  if 1000 <? since now last_speed_time / 1000000 then
    let '(speed, d) := calculate_speed now d in
    if written then Some (Some speed, now, d) else None
  else Some (None, last_speed_time, d).

(** One turn of the loop of [async_run]; [None] is a panic of the device or the
    end of the program. *)
Definition turn (now last_speed_time : Z) (written : bool) (d : t) :
    option (list SocketAddr * list SocketAddr * option (SpecFloat.spec_float * SpecFloat.spec_float) * Z * t) :=
  '(tcp, udp, d) ← poll now d;
  '(report, last_speed_time, d) ← report_speed now last_speed_time written d;
  Some (spawned tcp udp, report, last_speed_time, d).

(** ** The configuration stays *)

Lemma foldl_none {A S} (f : option S → A → option S) l : (∀ x, f None x = None) → foldl f None l = None.
Proof. intros Hn. induction l as [|x l IH]; [done|]. cbn [foldl]. by rewrite Hn. Qed.

(** What each step of a loop keeps, the loop keeps. *)
Lemma foldl_keeps {A S L} (f : option S → A → option S) (g : S → L) l s s' :
  (∀ x, f None x = None) → (∀ s s' x, f (Some s) x = Some s' → g s' = g s) →
  foldl f (Some s) l = Some s' → g s' = g s.
Proof.
  intros Hn Hf. revert s. induction l as [|x l IH]; intros s; cbn [foldl]; [congruence|].
  destruct (f (Some s) x) as [s1|] eqn:H1; [|by rewrite foldl_none].
  intros H. rewrite (IH s1 H). by eapply Hf.
Qed.

Ltac binds :=
  repeat match goal with
    | H : _ ≫= _ = Some _ |- _ => apply bind_Some in H; destruct H as (? & ? & H)
    | H : context [match ?x with _ => _ end] |- _ => destruct x eqn:?; try done
    end; simplify_eq; try done.

Lemma limits_remove_tcp src d d' : remove_tcp src d = Some d' → limits d' = limits d.
Proof. unfold remove_tcp. intros H. binds. Qed.

Lemma limits_remove_udp e d d' : remove_udp e d = Some d' → limits d' = limits d.
Proof. unfold remove_udp. intros H. binds. Qed.

Lemma limits_remove_tcp_handle h d d' : remove_tcp_handle h d = Some d' → limits d' = limits d.
Proof.
  unfold remove_tcp_handle. destruct (tcp_handle2ip d !! h) as [src|]; [|by intros [= ->]].
  intros (d1 & H1 & H)%bind_Some. injection H as <-. by apply limits_remove_tcp in H1.
Qed.

Lemma limits_remove_all {A} (remove : A → t → option t) l d d' :
  (∀ x d d', remove x d = Some d' → limits d' = limits d) → remove_all remove l d = Some d' → limits d' = limits d.
Proof. intros Hr. unfold remove_all. apply foldl_keeps; [done|]. intros s s' x H. by eapply Hr. Qed.

Lemma limits_visit st h st' : visit (Some st) h = Some st' → limits (in_device st') = limits (in_device st).
Proof.
  unfold visit, visit_tcp, visit_udp. cbn [mbind option_bind]. intros (s & _ & H)%bind_Some.
  destruct s as [s|s].
  - destruct (negb _); [by injection H as <-|]. destruct (remote_endpoint s) as [src|]; [|by injection H as <-].
    apply bind_Some in H as (id & _ & (c & _ & ([s1 c1] & _ & H)%bind_Some)%bind_Some).
    destruct (close_wait s1 c1). by injection H as <-.
  - destruct (negb _); [by injection H as <-|].
    apply bind_Some in H as (a & _ & (id & _ & (c & _ & ([[s1 c1] b] & _ & H)%bind_Some)%bind_Some)%bind_Some).
    by injection H as <-.
Qed.

Lemma limits_process_ingress d d' : process_ingress d = Some d' → limits d' = limits d.
Proof.
  unfold process_ingress. intros (st & H1 & (d1 & H2 & (d2 & H3 & H4)%bind_Some)%bind_Some)%bind_Some.
  apply (foldl_keeps visit (λ st, limits (in_device st))) in H1; [|done|intros ???; apply limits_visit].
  apply limits_remove_all in H2; [|apply limits_remove_tcp].
  apply limits_remove_all in H3; [|apply limits_remove_udp].
  apply limits_remove_all in H4; [|apply limits_remove_tcp_handle]. cbn in H1. congruence.
Qed.

Lemma limits_process_egress d d' : process_egress d = Some d' → limits d' = limits d.
Proof.
  unfold process_egress, recv_all. cbv beta iota zeta. intros ([d1 r1] & H1 & H2)%bind_Some.
  apply (foldl_keeps respond (λ x, limits x.1)) in H1; [|done|].
  - apply (foldl_keeps respond_udp limits) in H2; [|done|].
    + rewrite H2. exact H1.
    + clear. intros d d' [dst ps]. unfold respond_udp. cbn [mbind option_bind].
      destruct (udp_ip2handle d !! dst); [|by intros [= ->]]. intros ([h s] & _ & H)%bind_Some.
      destruct (send_datagrams ps s) as [[] s']; [by apply limits_remove_udp in H|by injection H as <-].
  - clear. intros [d r] [d' r'] [src ps]. unfold respond. cbn [mbind option_bind].
    destruct (tcp_ip2handle d !! src); [|by intros [= ->]]. intros ([h s] & _ & H)%bind_Some.
    destruct (send_packets ps s). by injection H as <- _.
Qed.

Lemma limits_accept_tcp d tcp d' :
  accept_tcp d = Some (tcp, d') →
  limits d' = limits d ∧ tcp_ip2handle d' = tcp_ip2handle d
  ∧ Forall (λ s, ∃ src h, tcp_ip2handle d !! src = Some (h, ts_peer s)) tcp.
Proof.
  unfold accept_tcp. set (d0 := with_tcp_tables _ _ _ _). set (I := tcp_ip2handle d).
  assert (∀ l acc, (limits acc.2 = limits d ∧ tcp_ip2handle acc.2 = I
      ∧ Forall (λ s, ∃ src h, I !! src = Some (h, ts_peer s)) acc.1) →
    foldl accept_one (Some acc) l = Some (tcp, d') →
    limits d' = limits d ∧ tcp_ip2handle d' = I ∧ Forall (λ s, ∃ src h, I !! src = Some (h, ts_peer s)) tcp) as Hall.
  { induction l as [|src l IH]; intros [ss x] Hacc; cbn [foldl]; [by intros [= <- <-]|].
    destruct (accept_one _ _) as [[ss1 x1]|] eqn:H1; [|by rewrite foldl_none].
    apply IH. unfold accept_one in H1. cbn [mbind option_bind] in H1.
    apply bind_Some in H1 as ([h dst] & He & H1). injection H1 as <- <-.
    destruct Hacc as (Hl & Hi & Hf). cbn in *. split_and!; [done|done|]. apply Forall_app. split; [done|].
    apply Forall_singleton. exists src, h. by rewrite <-Hi. }
  apply (Hall _ ([], d0)). by split_and!; [| |apply Forall_nil_2].
Qed.

Lemma limits_accept_udp d :
  limits (accept_udp d).2 = limits d ∧ us_peer <$> (accept_udp d).1 = new_udp d.
Proof.
  unfold accept_udp. set (d0 := with_udp_tables _ _ _).
  assert (∀ l acc, limits (foldl accept_one_udp acc l).2 = limits acc.2
    ∧ us_peer <$> (foldl accept_one_udp acc l).1 = (us_peer <$> acc.1) ++ l) as Hall.
  { induction l as [|x l IH]; intros [ss d1]; cbn [foldl]; [by rewrite app_nil_r|].
    destruct (IH (accept_one_udp (ss, d1) x)) as [-> ->]. cbn. by rewrite fmap_app, <-app_assoc. }
  apply (Hall (new_udp d) ([], d0)).
Qed.

Lemma poll_spec now d tcp udp d' :
  poll now d = Some (tcp, udp, d') →
  limits d' = limits d ∧ Forall (λ s, ∃ src h, tcp_ip2handle d !! src = Some (h, ts_peer s)) tcp
  ∧ us_peer <$> udp = new_udp d.
Proof.
  unfold poll. intros ([tcp1 d1] & H1 & H)%bind_Some. pose proof (limits_accept_udp d1) as [Hl2 Hp].
  destruct (accept_udp d1) as [udp1 d2]. apply bind_Some in H as (d3 & H3 & (d4 & H4 & H)%bind_Some).
  injection H as <- <- <-. assert (new_udp d1 = new_udp d) as Hn.
  { clear -H1. unfold accept_tcp in H1. set (d0 := with_tcp_tables _ _ _ _) in H1.
    change (new_udp d) with (new_udp (([] : list TcpStream), d0).2).
    change (new_udp d1) with (new_udp (tcp1, d1).2).
    apply (foldl_keeps accept_one (λ x, new_udp x.2)) in H1; [done|done|].
    clear. intros [ss d] [ss' d'] src. unfold accept_one. cbn [mbind option_bind].
    intros ([h dst] & _ & [= _ <-])%bind_Some. done. }
  apply limits_accept_tcp in H1 as (Hl1 & _ & Hf).
  apply limits_process_ingress in H3. apply limits_process_egress in H4. cbn [fst snd] in *.
  split_and!; [|done|by rewrite Hp]. destruct (1 <? _); cbn; congruence.
Qed.

Lemma limits_step `{!Observed Stk} d d' : step k d d' → limits d' = limits d.
Proof.
  intros [? ? []|? ? [d1 r d2 H|d1 len a b d2 H|]|now d1 [tcp udp] d2 H|]; try done.
  - destruct r as [[p|]|]; cbn in H; [|by injection H as ->|done].
    unfold preprocess_packet in H. apply bind_Some in H as (pre & _ & H).
    destruct pre as [|dst src|dst src b]; [by injection H as <-|..]; apply bind_Some in H as ([] & _ & H);
      cbn [andb] in H; try by injection H as <-.
    + unfold ensure_udp_socket in H. cbn in H. binds.
    + destruct b; [|by injection H as <-]. unfold ensure_tcp_socket in H. cbn in H. binds.
  - unfold consume in H. destruct (a && b); [by injection H as <-|done].
  - by apply poll_spec in H as [? _].
Qed.

(** ** Nothing of the server's is tunnelled *)

Lemma device_start mtu now server : ∃ l, device mtu now server = start now l ∧ limits (device mtu now server) = l
  ∧ TunDevice.mtu l = mtu ∧ sa_ip server ∈ black_ip_list l.
Proof. eexists. split_and!; [reflexivity|done|done|]. cbn. set_solver. Qed.

Lemma black_not_allowed d server dst :
  sa_ip server ∈ black_ip_list (limits d) → allowed k d dst = Some true → sa_ip dst ≠ sa_ip server.
Proof.
  intros Hb Ha He. unfold allowed in Ha. rewrite He, bool_decide_eq_true_2, orb_true_r in Ha by done. done.
Qed.

End Run.
End AWinRun.

(** ** Examples *)

Module AWinTcpWitness.
Import Witness SimStack TcpHalves TunDevice TunDeviceWitness TunStreamWitness.
#[local] Existing Instance AServerWitness.http.

(** The tunnel has read the first of the client's two bytes. *)
Definition up : list (read_outcome * write_outcome) := [(ReadBytes [104], WriteOk)].
Definition stream : bytes := (AWinTcp.local_to_remote opts target WriteOk up).1.


(** Two pieces of the server's answer for a socket with room for three bytes, and
    then its end. *)
Definition down : list (read_outcome * write_outcome) :=
  [(ReadBytes [1; 2], WriteOk); (ReadBytes [3; 4], WriteOk); (ReadBytes [], WriteOk)].

Lemma tunnelled_answers_reach_client_witness :
  ∃ rest s' sent,
    send_packets (AWinTcp.remote_to_local down) narrow
      = match rest with [] => ([], tcp_close s') | _ => (rest ++ [[]], s') end
    ∧ may_send s' = true
    ∧ tcp_tx s' = tcp_tx narrow ++ sent
    ∧ sent ++ mjoin rest = [1; 2; 3; 4]
    ∧ [1; 2; 3; 4] `prefix_of` AProxy.data_of down.
Proof. exact (AWinTcp.tunnelled_answers_reach_client down narrow ltac:(by vm_compute)). Defined.

(** The tunnel's server is elsewhere; a client connects. *)
Definition server : SocketAddr := mkSocketAddr (V4 [9; 9; 9; 9]) 443.
Definition tunnel0 : t := AWinRun.device 1500 0 server.
Definition tunnel1 : t := default tunnel0 (receive class tunnel0 (IoOk (Some syn))).

Lemma tunnel1_run : rtc (step class) tunnel0 tunnel1.
Proof.
  apply rtc_once, step_stack. apply (stack_receives class tunnel0 (IoOk (Some syn))).
  assert (is_Some (receive class tunnel0 (IoOk (Some syn)))) as [d Hd]
    by (apply (bool_decide_unpack _); vm_compute; exact I).
  unfold tunnel1. by rewrite Hd.
Qed.

End AWinTcpWitness.
