(* ===== verification/MobileProto.v ===== *)
(** * The protocol of the mobile tunnel
    ([src/mobile/src-tauri/src/atun/proto.rs])

    The mobile application carries a copy of [src/src/proto.rs] that has
    diverged: packets are limited to 1450 bytes, where the server sends up to
    [MAX_PACKET_SIZE], and an incomplete address is a protocol error.  [tun/proto.rs]
    is this file without the field [offset], and [src/mobile2] has it unchanged.
    [parse_address_endpoint] and the writing of addresses are those of [Proto]. *)

From Stdlib Require Import ZArith Lia.
From stdpp Require Import base option list.
From S2P Require Import Prelude Net Config Proto.

Open Scope Z_scope.
Open Scope rust_scope.

Module MobileProto.

Definition MAX_PACKET_SIZE : nat := 1450.

(** ** Requests *)

Module TrojanRequest.

Definition generate (cmd : Z) (pass : bytes) (addr : SocketAddr) : bytes :=
  pass ++ [CR; LF; cmd] ++ generate_address addr ++ [CR; LF].

Definition generate_endpoint (cmd : Z) (pass : bytes) (addr : SocketAddr) : bytes :=
  pass ++ [CR; LF; cmd] ++ generate_address_endpoint addr ++ [CR; LF].

End TrojanRequest.

(** ** Packets *)

(** [parse_address]: [None] inside is its [None]. *)
Definition parse_address (atyp : Z) (buffer : bytes) : option (option (nat * Sock5Address)) :=
  if atyp =? IPV4 then
    if (length buffer <? 6)%nat then Some None
    else
      ptail ← buffer.[from 4%nat];
      port ← to_u16 ptail;
      a ← buffer.[0%nat]; b ← buffer.[1%nat]; c ← buffer.[2%nat]; d ← buffer.[3%nat];
      Some (Some (6%nat, Socket (mkSocketAddr (V4 [a; b; c; d]) port)))
  else if atyp =? DOMAIN then
    len ← buffer.[0%nat];
    let length_ := Z.to_nat len in
    if (length buffer <? length_ + 3)%nat then Some None
    else
      raw ← buffer.[between 1%nat & length_ + 1];
      let domain := from_utf8_lossy raw in
      ptail ← buffer.[from length_ + 1];
      port ← to_u16 ptail;
      match parse_ip domain with
      | Some ip => Some (Some ((length_ + 3)%nat, Socket (mkSocketAddr ip port)))
      | None => Some (Some ((length_ + 3)%nat, Domain domain port))
      end
  else if atyp =? IPV6 then
    if (length buffer <? 18)%nat then Some None
    else
      segs ← read_segments 8 0 buffer;
      ptail ← buffer.[from 16%nat];
      port ← to_u16 ptail;
      Some (Some (18%nat, Socket (mkSocketAddr (ipv6_new segs) port)))
  else Some None.

Module UdpAssociate.

Record t : Type := mk {
  address : SocketAddr;
  length_ : nat;
  payload : bytes
}.

Inductive UdpParseResult : Type :=
  | Packet (p : t)
  | InvalidProtocol
  | Continued.

Definition parse (buffer : bytes) : option UdpParseResult :=
  if (length buffer <? 11)%nat then Some Continued
  else
    atyp ← buffer.[0%nat];
    buffer ← buffer.[from 1%nat];
    r ← parse_address atyp buffer;
    match r with
    | Some (size, addr) =>
        buffer ← buffer.[from size];
        if (length buffer <? 4)%nat then Some Continued
        else
          len ← to_u16 buffer;
          let length_ := Z.to_nat len in
          if (MAX_PACKET_SIZE <? length_)%nat then Some InvalidProtocol
          else if (length buffer <? length_ + 4)%nat then Some Continued
          else
            b2 ← buffer.[2%nat];
            b3 ← buffer.[3%nat];
            if negb (b2 =? CR) || negb (b3 =? LF) then Some InvalidProtocol
            else
              match addr with
              | Socket address => payload ← buffer.[from 4%nat]; Some (Packet (mk address length_ payload))
              | _ => Some InvalidProtocol
              end
    | None => Some InvalidProtocol
    end.

(** The packets are those of [Proto]; only the limit differs. *)
Definition parse_endpoint `{Ipv6FromBytes} (buffer : bytes) : option Proto.UdpAssociate.UdpParseResultEndpoint :=
  if (length buffer <? 11)%nat then Some Proto.UdpAssociate.ContinuedEndpoint
  else
    atyp ← buffer.[0%nat];
    buffer ← buffer.[from 1%nat];
    r ← parse_address_endpoint atyp buffer;
    match r with
    | inl (size, addr) =>
        buffer ← buffer.[from size];
        let offset := (1 + size)%nat in
        if (length buffer <? 4)%nat then Some Proto.UdpAssociate.ContinuedEndpoint
        else
          len ← to_u16 buffer;
          let length_ := Z.to_nat len in
          if (MAX_PACKET_SIZE <? length_)%nat then Some Proto.UdpAssociate.InvalidProtocolEndpoint
          else if (length buffer <? length_ + 4)%nat then Some Proto.UdpAssociate.ContinuedEndpoint
          else
            b2 ← buffer.[2%nat];
            b3 ← buffer.[3%nat];
            if negb (b2 =? CR) || negb (b3 =? LF) then Some Proto.UdpAssociate.InvalidProtocolEndpoint
            else
              let offset := (offset + (length_ + 4))%nat in
              match addr with
              | Endpoint endpoint =>
                  payload ← buffer.[from 4%nat];
                  Some (Proto.UdpAssociate.PacketEndpoint (Proto.UdpAssociate.mkEndpoint endpoint length_ offset payload))
              | _ => Some Proto.UdpAssociate.InvalidProtocolEndpoint
              end
    | inr _ => Some Proto.UdpAssociate.InvalidProtocolEndpoint
    end.

End UdpAssociate.

(** ** Requests are those of the program *)

(** A request of the mobile tunnel, sealed with a password the server knows,
    is accepted by the server with its command, its address and what follows. *)
Theorem mobile_request_accepted (OPTIONS : Opts) `{!OptsOk OPTIONS} cmd pass a payload :
  pass = get_pass OPTIONS → RequestProps.valid_command cmd → wf_sa a →
  Proto.TrojanRequest.parse OPTIONS (TrojanRequest.generate cmd pass a ++ payload)
    = Some (Proto.TrojanRequest.Request
        (Proto.TrojanRequest.mk cmd (Socket a) payload (length (TrojanRequest.generate cmd pass a)))).
Proof.
  intros -> Hc Ha. change (TrojanRequest.generate cmd (get_pass OPTIONS) a) with (Proto.TrojanRequest.generate OPTIONS cmd a).
  by apply RequestProps.parse_generate.
Qed.

(** ** The two parsers *)

(** What the mobile parser makes of an outcome of the server's. *)
Definition narrowed (r : option Proto.UdpAssociate.UdpParseResult) (r' : option UdpAssociate.UdpParseResult) : Prop :=
  match r with
  | Some (Proto.UdpAssociate.Packet p) =>
      match Proto.UdpAssociate.address p with
      | Socket a =>
          r' = Some (if (MAX_PACKET_SIZE <? Proto.UdpAssociate.length_ p)%nat then UdpAssociate.InvalidProtocol
                     else UdpAssociate.Packet (UdpAssociate.mk a (Proto.UdpAssociate.length_ p) (Proto.UdpAssociate.payload p)))
      | _ => r' = Some UdpAssociate.InvalidProtocol
      end
  | Some Proto.UdpAssociate.InvalidProtocol => r' = Some UdpAssociate.InvalidProtocol
  | Some Proto.UdpAssociate.Continued => r' = Some UdpAssociate.Continued ∨ r' = Some UdpAssociate.InvalidProtocol
  | None => r' = None
  end.

(** The two parsers read the same bytes in the same order. *)
Ltac same_reads :=
  repeat match goal with
    | |- context [@mbind option _ _ _ _ ?x] => destruct x; cbn [mbind option_bind]; try done
    | |- context [if ?x then _ else _] => destruct x; try done
    | |- context [match parse_ip ?x with _ => _ end] => destruct (parse_ip x); try done
    end.

Lemma parse_address_same atyp b :
  match Proto.parse_address atyp b with
  | Some (Address size a) => parse_address atyp b = Some (Some (size, a))
  | Some _ => parse_address atyp b = Some None
  | None => parse_address atyp b = None
  end.
Proof. unfold Proto.parse_address, parse_address. same_reads. Qed.

(** On a buffer of at least eleven bytes, which every packet has, the mobile
    parser is the server's restricted to smaller packets of numeric addresses: it
    takes the packets of at most 1450 bytes alike, rejects larger ones and those
    of domains, panics where the server's does, and may reject a packet that has
    not fully arrived. *)
Theorem mobile_parser_narrows b :
  (11 <= length b)%nat → narrowed (Proto.UdpAssociate.parse b) (UdpAssociate.parse b).
Proof.
  intros Hb. unfold Proto.UdpAssociate.parse, UdpAssociate.parse.
  rewrite (proj2 (Nat.ltb_ge (length b) 1)), (proj2 (Nat.ltb_ge (length b) 11)) by lia.
  destruct b.[0%nat] as [atyp|]; cbn [mbind option_bind]; [|done].
  destruct b.[from 1%nat] as [b1|]; cbn [mbind option_bind]; [|done].
  pose proof (parse_address_same atyp b1) as Hs.
  destruct (Proto.parse_address atyp b1) as [[size a| |]|]; rewrite Hs; cbn [mbind option_bind]; try done; [|by right].
  destruct b1.[from size] as [b2|]; cbn [mbind option_bind]; [|done].
  destruct (length b2 <? 4)%nat; [by left|]. destruct (to_u16 b2) as [len|]; cbn [mbind option_bind]; [|done].
  destruct (Nat.ltb_spec Proto.MAX_PACKET_SIZE (Z.to_nat len)) as [Hl|Hl].
  { rewrite (proj2 (Nat.ltb_lt MAX_PACKET_SIZE (Z.to_nat len))); [done|]. unfold MAX_PACKET_SIZE, Proto.MAX_PACKET_SIZE in *. lia. }
  destruct (Nat.ltb_spec (length b2) (Z.to_nat len + 4)) as [H4|H4].
  { destruct (MAX_PACKET_SIZE <? Z.to_nat len)%nat; [by right|by left]. }
  destruct b2.[2%nat] as [x2|] eqn:E2; cbn [mbind option_bind].
  2: { exfalso. unfold at_ in E2. apply lookup_ge_None in E2. lia. }
  destruct b2.[3%nat] as [x3|] eqn:E3; cbn [mbind option_bind].
  2: { exfalso. unfold at_ in E3. apply lookup_ge_None in E3. lia. }
  rewrite slice_from_le by lia. cbn [mbind option_bind].
  destruct (negb (x2 =? CR) || negb (x3 =? LF)); [by destruct (_ <? _)%nat|].
  unfold narrowed. cbn [Proto.UdpAssociate.address Proto.UdpAssociate.length_ Proto.UdpAssociate.payload].
  by destruct a, (MAX_PACKET_SIZE <? Z.to_nat len)%nat.
Qed.

(** ** Answers *)

Section Endpoint.
Context {Oct : Ipv6FromBytes}.
Import Proto.UdpAssociate.

Lemma parse_endpoint_eleven a b :
  wf_sa a → is_ipv4 (sa_ip a) = true →
  (4 <= length b)%nat →
  UdpAssociate.parse_endpoint (generate_address a ++ b) =
    len ← to_u16 b;
    if (MAX_PACKET_SIZE <? Z.to_nat len)%nat then Some InvalidProtocolEndpoint
    else if (length b <? Z.to_nat len + 4)%nat then Some ContinuedEndpoint
    else
      b2 ← b.[2%nat];
      b3 ← b.[3%nat];
      if negb (b2 =? CR) || negb (b3 =? LF) then Some InvalidProtocolEndpoint
      else
        payload ← b.[from 4%nat];
        Some (PacketEndpoint (mkEndpoint a (Z.to_nat len) (7 + (Z.to_nat len + 4)) payload)).
Proof.
  intros Ha H4 Hb. destruct (EndpointProps.generate_address_v4 a Ha H4) as (body & Hg & Hl & Hp).
  rewrite Hg. unfold UdpAssociate.parse_endpoint. cbn [app].
  rewrite (proj2 (Nat.ltb_ge _ _)) by (cbn [length]; rewrite length_app; lia).
  cbn [at_ lookup list_lookup mbind option_bind].
  change ((IPV4 :: body ++ b).[from 1%nat]) with (Some (body ++ b)). cbn [mbind option_bind].
  rewrite Hp. cbn [mbind option_bind]. rewrite <-Hl, slice_from_app. cbn [mbind option_bind].
  rewrite (proj2 (Nat.ltb_ge (length b) 4)) by done. by rewrite Hl.
Qed.

(** What the server writes for a datagram of a size the mobile takes. *)
Lemma mobile_endpoint_roundtrip a data rest :
  wf_sa a → is_ipv4 (sa_ip a) = true → (length data <= MAX_PACKET_SIZE)%nat →
  UdpAssociate.parse_endpoint (generate_endpoint a (Z.of_nat (length data)) ++ data ++ rest)
    = Some (PacketEndpoint (mkEndpoint a (length data)
              (length (generate_endpoint a (Z.of_nat (length data))) + length data) (data ++ rest))).
Proof.
  intros Ha H4 Hd. destruct (EndpointProps.generate_address_v4 a Ha H4) as (body & Hg & Hl & _).
  unfold generate_endpoint. rewrite EndpointProps.generate_address_endpoint_eq, <-!app_assoc.
  rewrite parse_endpoint_eleven by (done || (rewrite !length_app, length_u16_be; simpl; lia)).
  destruct (u16_be_pair (Z.of_nat (length data))) as (h & l & Hbe & Hj). rewrite Hbe. simpl.
  rewrite Hj, Nat2Z.id. rewrite (proj2 (Nat.ltb_ge MAX_PACKET_SIZE _)) by done.
  rewrite (proj2 (Nat.ltb_ge _ _)) by (rewrite length_app; lia). simpl. do 3 f_equal.
  rewrite Hg, length_app. simpl. lia.
Qed.

Lemma mobile_endpoint_prefix a data n :
  wf_sa a → is_ipv4 (sa_ip a) = true → (length data <= MAX_PACKET_SIZE)%nat →
  (n < length (generate_endpoint a (Z.of_nat (length data)) ++ data))%nat →
  UdpAssociate.parse_endpoint (take n (generate_endpoint a (Z.of_nat (length data)) ++ data)) = Some ContinuedEndpoint.
Proof.
  intros Ha H4 Hd Hn. destruct (Nat.lt_ge_cases n 11) as [Hlt|Hge].
  { unfold UdpAssociate.parse_endpoint. by rewrite (proj2 (Nat.ltb_lt _ _)) by (rewrite length_take; lia). }
  destruct (EndpointProps.generate_address_v4 a Ha H4) as (body & Hg & Hl & _).
  unfold generate_endpoint in *. rewrite EndpointProps.generate_address_endpoint_eq, <-!app_assoc in *.
  assert (length (generate_address a) = 7%nat) as H7 by (by rewrite Hg; simpl; rewrite Hl).
  rewrite !length_app, length_u16_be in Hn. simpl in Hn.
  rewrite take_app_ge by lia. rewrite H7.
  replace (n - 7)%nat with (4 + (n - 11))%nat by lia.
  destruct (u16_be_pair (Z.of_nat (length data))) as (h & l & Hbe & Hj). rewrite Hbe. cbn [Nat.add app take].
  rewrite parse_endpoint_eleven by (done || (simpl; lia)). simpl. rewrite Hj, Nat2Z.id.
  rewrite (proj2 (Nat.ltb_ge MAX_PACKET_SIZE _)) by done.
  by rewrite (proj2 (Nat.ltb_lt _ _)) by (rewrite length_take; lia).
Qed.

(** A datagram of 1451 to 1480 bytes that the server passes back is a protocol
    error for the mobile tunnel as soon as the packet's length has arrived, which
    ends the connection; the other clients take it. *)
Theorem mobile_rejects_server_packets a data n :
  wf_sa a → is_ipv4 (sa_ip a) = true →
  (MAX_PACKET_SIZE < length data <= Proto.MAX_PACKET_SIZE)%nat →
  let packet := generate_endpoint a (Z.of_nat (length data)) ++ data in
  (11 <= n <= length packet)%nat →
  UdpAssociate.parse_endpoint (take n packet) = Some InvalidProtocolEndpoint
  ∧ ∃ off payload, Proto.UdpAssociate.parse_endpoint packet
      = Some (PacketEndpoint (mkEndpoint a (length data) off payload)) ∧ take (length data) payload = data.
Proof.
  intros Ha H4 Hd packet Hn. split.
  - subst packet. destruct (EndpointProps.generate_address_v4 a Ha H4) as (body & Hg & Hl & _).
    unfold generate_endpoint in *. rewrite EndpointProps.generate_address_endpoint_eq, <-!app_assoc in *.
    assert (length (generate_address a) = 7%nat) as H7 by (by rewrite Hg; simpl; rewrite Hl).
    rewrite take_app_ge by lia. rewrite H7. replace (n - 7)%nat with (4 + (n - 11))%nat by lia.
    destruct (u16_be_pair (Z.of_nat (length data))) as (h & l & Hbe & Hj). rewrite Hbe. cbn [Nat.add app take].
    rewrite parse_endpoint_eleven by (done || (simpl; lia)). simpl. rewrite Hj, Nat2Z.id.
    by rewrite (proj2 (Nat.ltb_lt MAX_PACKET_SIZE _)) by lia.
  - subst packet. do 2 eexists. split.
    + rewrite <-(app_nil_r data) at 2. apply EndpointProps.endpoint_roundtrip; [done..|lia].
    + by rewrite app_nil_r, firstn_all.
Qed.
End Endpoint.
End MobileProto.

(** ** Examples *)

Module MobileProtoWitness.
Import Witness.

Lemma mobile_request_accepted_witness :
  Proto.TrojanRequest.parse opts (MobileProto.TrojanRequest.generate UDP_ASSOCIATE (get_pass opts) a4 ++ [9])
    = Some (Proto.TrojanRequest.Request (Proto.TrojanRequest.mk UDP_ASSOCIATE (Socket a4) [9]
        (length (MobileProto.TrojanRequest.generate UDP_ASSOCIATE (get_pass opts) a4)))).
Proof.
  apply (MobileProto.mobile_request_accepted opts); [done|by right; right|exact a4_ok].
Defined.

(** An IPv6 address of which twelve bytes have arrived. *)
Definition cut : bytes := take 12 (generate_address a6).

Lemma mobile_parser_narrows_witness :
  Proto.UdpAssociate.parse cut = Some Proto.UdpAssociate.Continued
  ∧ MobileProto.narrowed (Proto.UdpAssociate.parse cut) (MobileProto.UdpAssociate.parse cut).
Proof. split; [by vm_compute|]. apply MobileProto.mobile_parser_narrows. simpl. lia. Defined.

Definition large : bytes := replicate 1460 7.

Lemma mobile_rejects_server_packets_witness :
  MobileProto.UdpAssociate.parse_endpoint (take 11 (Proto.UdpAssociate.generate_endpoint a4 (Z.of_nat (length large)) ++ large))
    = Some Proto.UdpAssociate.InvalidProtocolEndpoint
  ∧ ∃ off payload, Proto.UdpAssociate.parse_endpoint (Proto.UdpAssociate.generate_endpoint a4 (Z.of_nat (length large)) ++ large)
      = Some (Proto.UdpAssociate.PacketEndpoint (Proto.UdpAssociate.mkEndpoint a4 (length large) off payload))
    ∧ take (length large) payload = large.
Proof.
  apply (MobileProto.mobile_rejects_server_packets a4 large 11 a4_ok eq_refl).
  - unfold large. rewrite length_replicate. unfold MobileProto.MAX_PACKET_SIZE, MAX_PACKET_SIZE. lia.
  - unfold large. rewrite length_app, length_replicate. simpl. lia.
Defined.
End MobileProtoWitness.
