(* ===== verification/MobileDns.v ===== *)
(** * The DNS relay of the mobile tunnel ([src/mobile/src-tauri/src/atun/dns.rs])

    The tunnel serves the queries for its own DNS address itself: the ones for
    listed names go to a trusted resolver through the server, the others as plain
    datagrams to a distrusted one, and answers are cached until they expire.  The
    main task, which owns the cache and both connections, and the tasks that read
    the connections are one state, their interleavings a step relation; the tasks
    meet in one bounded channel.  [src/mobile2/backend/src/tun/dns.rs] is the same
    file.  DNS messages are those of [DnsServer.DnsProto]; the clock is read once
    per event; [None] is a panic. *)

From Stdlib Require Import ZArith Lia.
From stdpp Require Import base option list gmap sets relations.
From S2P Require Import Prelude Framing Net Config Proto Env AsyncIo.
From S2P Require Import Backend UdpBackend AServer AServerUdp Domain DnsServer AWinUdp MobileProto.

Open Scope Z_scope.
Open Scope rust_scope.

(** [trust_dns_proto]: the answers of a message can be changed in place. *)
Class DnsRecords (D : DnsProto) : Type := {
  set_ttl : Rr → Z → Rr;
  (** [for record in message.answers_mut()] *)
  answers_mut : (Rr → Rr) → Message → Message
}.

(** The setters change what they are named after and nothing else. *)
Class DnsRecordsOk (D : DnsProto) (R : DnsRecords D) : Prop := {
  set_id_queries m i : queries (set_id m i) = queries m;
  take_additionals_queries m : queries (take_additionals m) = queries m;
  take_name_servers_queries m : queries (take_name_servers m) = queries m;
  answers_mut_queries f m : queries (answers_mut f m) = queries m;
  set_id_answers m i : answers (set_id m i) = answers m;
  take_additionals_answers m : answers (take_additionals m) = answers m;
  take_name_servers_answers m : answers (take_name_servers m) = answers m;
  answers_mut_answers f m : answers (answers_mut f m) = f <$> answers m;
  take_additionals_id m : msg_id (take_additionals m) = msg_id m;
  take_name_servers_id m : msg_id (take_name_servers m) = msg_id m;
  set_ttl_ttl r t : rr_ttl (set_ttl r t) = t
}.

Module MobileDns.

(** A datagram and whom it is sent to. *)
Abbreviation reply := (SocketAddr * bytes)%type.

(** ** Cached questions *)

Module DnsItem.
Section DnsItem.
Context {D : DnsProto} {R : DnsRecords D}.

(** The message is the latest answer, or the first query when there is none. *)
Record t : Type := mk {
  message : Message;
  expire : Z;
  clients : list (SocketAddr * Z)
}.

Definition new (now : Z) (message : Message) : t := mk message now [].

Definition has_response (item : t) : bool := (0 <? length (answers (message item)))%nat.

Definition add_client (item : t) (client : SocketAddr) (id : Z) : t :=
  mk (message item) (expire item) (clients item ++ [(client, id)]).

(** The loop over the clients; the message is changed for each of them. *)
Definition notify_one (acc : option (Message * list reply)) (client : SocketAddr * Z)
  : option (Message * list reply) :=
  '(message, sent) ← acc;
  let '(source, id) := client in
  let message := take_name_servers (take_additionals (set_id message id)) in
  data ← to_vec message;
  Some (message, sent ++ [(source, data)]).

Definition notify (now : Z) (item : t) (message : Message) : option (t * list reply) :=
  '(message, sent) ← foldl notify_one (Some (message, [])) (clients item);
  let expire := match head (answers message) with
                | Some answer => now + secs (rr_ttl answer)
                | None => expire item
                end in
  Some (mk message expire [], sent).

(** The flag says that the query is to be sent on. *)
Definition respond (now : Z) (item : t) (source : SocketAddr) (id : Z) : option (bool * t * list reply) :=
  if negb (has_response item) then Some (true, add_client item source id, [])
  else
    let ttl := since (expire item) now in
    let message := answers_mut (λ record, set_ttl record (wrap 32 (as_secs ttl))) (message item) in
    let message := set_id message id in
    data ← to_vec message;
    Some (ttl =? 0, mk message (expire item) (clients item), [(source, data)]).

End DnsItem.
End DnsItem.

Section MobileDns.
Context {Oct : Ipv6FromBytes} {D : DnsProto} {R : DnsRecords D}.
(** What [start_dns] is passed. *)
Context (request : bytes) (trusted_addr : SocketAddr) (blocked_domains : gset bytes).

Inductive Response : Type :=
  | Answer (message : Message)
  | TrustClosed
  | DistrustClosed.

(** [channel(1024)] *)
Definition CHANNEL : nat := 1024.

(** '|' *)
Definition BAR : Z := 124.

(** [queries()[0]] panics on a message without a question. *)
Definition get_message_key (message : Message) : option bytes :=
  query ← head (queries message);
  Some (to_utf8 (query_name query) ++ BAR :: rt_to_string (query_type query)).

(** [for i in 0..(len - 1)]. *)
Definition is_blocked (blocked : gset bytes) (name : bytes) : bool :=
  let split := split DOT name in
  let len := if ends_with name DOT then (length split - 1)%nat else length split in
  existsb (λ i, bool_decide (join DOT (take (len - i) (drop i split)) ∈ blocked)) (seq 0 (len - 1)).

(** ** Reading a connection *)

(** How the inner loop of [do_trust_response] ends: it waits for more, it ends the
    task, or the parser panics. *)
Inductive received : Type := More (buffer : bytes) | Invalid | ParserPanic.

(** The inner loop: the messages it sends and how it ends. *)
Fixpoint receive (fuel : nat) (buffer : bytes) : option (list Message * received) :=
  match fuel with
  | O => None
  | S fuel =>
      match MobileProto.UdpAssociate.parse_endpoint buffer with
      | Some UdpAssociate.ContinuedEndpoint => Some ([], More buffer)
      | Some (UdpAssociate.PacketEndpoint packet) =>
          payload ← (UdpAssociate.e_payload packet).[upto UdpAssociate.e_length packet];
          rest ← buffer.[from UdpAssociate.e_offset packet];
          '(messages, r) ← receive fuel rest;
          Some (match from_bytes payload with Some message => message :: messages | None => messages end, r)
      | Some UdpAssociate.InvalidProtocolEndpoint => Some ([], Invalid)
      | None => Some ([], ParserPanic)
      end
  end.

(** A reading task: reading with a buffer, sending the messages of what it has
    read, sending that its connection is closed, returned, or ended by a panic. *)
Inductive reader : Type :=
  | Reading (buffer : bytes)
  | Handing (message : Message) (messages : list Message) (next : received)
  | Leaving
  | Left
  | Crashed.

(** After the inner loop. *)
Definition settle (messages : list Message) (r : received) : reader :=
  match messages with
  | message :: messages => Handing message messages r
  | [] => match r with More buffer => Reading buffer | Invalid => Leaving | ParserPanic => Crashed end
  end.

(** [do_trust_response] after a read: [None] is an error.  The fuel is enough
    ([relay_receive_total]). *)
Definition on_trust_read (buffer : bytes) (r : option bytes) : option reader :=
  match r with
  | Some ((_ :: _) as data) =>
      '(messages, r) ← receive (S (length (buffer ++ data))) (buffer ++ data);
      Some (settle messages r)
  | _ => Some Leaving
  end.

(** [vec![0u8; 1500]] of [do_distrust_response]. *)
Definition BUFFER : nat := 1500.

(** [do_distrust_response] after a read. *)
Definition on_distrust_read (buffer : bytes) (r : option bytes) : option reader :=
  match r with
  | Some data =>
      Some (match from_bytes (take BUFFER data) with Some message => settle [message] (More []) | None => Reading [] end)
  | None => Some Leaving
  end.

(** A connection: what has been written to it, datagram by datagram for the
    distrusted resolver, whether it has been shut down, and the task that reads
    it. *)
Record conn : Type := mkConn {
  pieces : list bytes;
  shut : bool;
  reader_of : reader
}.

Definition with_reader (c : conn) (r : reader) : conn := mkConn (pieces c) (shut c) r.

(** The connection and the outcome of writing the request; [None] is the [None] of
    the source. *)
Definition start_trust_response (connected : option write_outcome) : option conn :=
  w ← connected;
  if write_is_ok w then Some (mkConn [request] false (Reading [])) else None.

Definition start_distrust_response (bound : bool) : option conn :=
  if bound then Some (mkConn [] false (Reading [])) else None.

(** ** The main task *)

Inductive main : Type := Running | Dead.

(** The connections are kept newest first; the head is the one in use.  [asked]
    are the questions the main task has taken. *)
Record t : Type := mk {
  main_of : main;
  dns_store : gmap bytes DnsItem.t;
  queue : list Response;
  trusts : list conn;
  distrusts : list conn;
  out : list reply;
  asked : list (bytes * SocketAddr * Z)
}.

(** [start_dns] before its loop; a failure panics. *)
Definition start (bound : bool) (connected : option write_outcome) : option t :=
  distrust ← start_distrust_response bound;
  trust ← start_trust_response connected;
  Some (mk Running ∅ [] [trust] [distrust] [] []).

Definition dead (s : t) : t :=
  mk Dead (dns_store s) (queue s) (trusts s) (distrusts s) (out s) (asked s).
Definition with_queue (s : t) (q : list Response) : t :=
  mk (main_of s) (dns_store s) q (trusts s) (distrusts s) (out s) (asked s).
Definition with_trusts (s : t) (cs : list conn) : t :=
  mk (main_of s) (dns_store s) (queue s) cs (distrusts s) (out s) (asked s).
Definition with_distrusts (s : t) (cs : list conn) : t :=
  mk (main_of s) (dns_store s) (queue s) (trusts s) cs (out s) (asked s).
Definition with_item (s : t) (key : bytes) (item : DnsItem.t) (sent : list reply)
    (new : list (bytes * SocketAddr * Z)) : t :=
  mk (main_of s) (<[key := item]> (dns_store s)) (queue s) (trusts s) (distrusts s) (out s ++ sent) (asked s ++ new).

(** The connection in use. *)
Definition on_head (f : conn → conn) (cs : list conn) : list conn :=
  match cs with c :: cs => f c :: cs | [] => [] end.

(** [trust.write_all] of the header and of the data, and the shutdown when one
    fails. *)
Definition ask_trusted (data : bytes) (header body : write_outcome) (c : conn) : conn :=
  let head := UdpAssociate.generate trusted_addr (wrap 16 (Z.of_nat (length data))) in
  if write_is_ok header then
    mkConn (pieces c ++ [head; written body data]) (shut c || negb (write_is_ok body)) (reader_of c)
  else mkConn (pieces c ++ [written header head]) true (reader_of c).

(** [distrust.send_to]. *)
Definition ask_distrusted (data : bytes) (c : conn) : conn :=
  mkConn (pieces c ++ [data]) (shut c) (reader_of c).

(** [SelectResult::Socket]: a datagram of a client, with the outcomes of the two
    writes to the trusted resolver. *)
Definition on_query (s : t) (now : Z) (source : SocketAddr) (data : bytes) (header body : write_outcome) : option t :=
  match from_bytes data with
  | None => Some s
  | Some message =>
      if negb (query_count message =? 1)%nat then Some s
      else
        key ← get_message_key message;
        let item := default (DnsItem.new now message) (dns_store s !! key) in
        '(ask, item, sent) ← DnsItem.respond now item source (msg_id message);
        let s := with_item s key item sent [(key, source, msg_id message)] in
        if (ask : bool) then
          query ← head (queries message);
          if is_blocked blocked_domains (to_utf8 (query_name query))
          then Some (with_trusts s (on_head (ask_trusted data header body) (trusts s)))
          else Some (with_distrusts s (on_head (ask_distrusted data) (distrusts s)))
        else Some s
  end.

(** [SelectResult::Receiver], with the outcome of connecting again. *)
Definition on_response (s : t) (now : Z) (r : Response) (bound : bool) (connected : option write_outcome) : option t :=
  match r with
  | Answer message =>
      key ← get_message_key message;
      let item := default (DnsItem.new now message) (dns_store s !! key) in
      '(item, sent) ← DnsItem.notify now item message;
      Some (with_item s key item sent [])
  | DistrustClosed => c ← start_distrust_response bound; Some (with_distrusts s (c :: distrusts s))
  | TrustClosed => c ← start_trust_response connected; Some (with_trusts s (c :: trusts s))
  end.

(** A panic ends the main task; its state before the event is kept. *)
Definition or_dead (s : t) (r : option t) : t := default (dead s) r.

(** ** Steps *)

Definition conns (trusted : bool) (s : t) : list conn := if trusted then trusts s else distrusts s.
Definition set_conns (trusted : bool) (s : t) (cs : list conn) : t :=
  if trusted then with_trusts s cs else with_distrusts s cs.
Definition set_reader (trusted : bool) (s : t) (i : nat) (c : conn) (r : reader) : t :=
  set_conns trusted s (<[i := with_reader c r]> (conns trusted s)).
Definition on_read (trusted : bool) : bytes → option bytes → option reader :=
  if trusted then on_trust_read else on_distrust_read.
Definition closed (trusted : bool) : Response := if trusted then TrustClosed else DistrustClosed.

(** The task's next message, or its last, cannot be sent once the main task has
    ended: it returns. *)
Inductive step : t → t → Prop :=
  | step_query now source data header body s :
      main_of s = Running → Z.of_nat (length data) < 2 ^ 16 →
      step s (or_dead s (on_query s now source data header body))
  | step_local_error s : main_of s = Running → step s (dead s)
  | step_response now r rest bound connected s :
      main_of s = Running → queue s = r :: rest →
      step s (or_dead (with_queue s rest) (on_response (with_queue s rest) now r bound connected))
  | step_read trusted i c buffer r next s :
      conns trusted s !! i = Some c → reader_of c = Reading buffer → on_read trusted buffer r = Some next →
      step s (set_reader trusted s i c next)
  | step_hand trusted i c message messages next s :
      main_of s = Running → conns trusted s !! i = Some c → reader_of c = Handing message messages next →
      (length (queue s) < CHANNEL)%nat →
      step s (set_reader trusted (with_queue s (queue s ++ [Answer message])) i c (settle messages next))
  | step_leave trusted i c s :
      main_of s = Running → conns trusted s !! i = Some c → reader_of c = Leaving →
      (length (queue s) < CHANNEL)%nat →
      step s (set_reader trusted (with_queue s (queue s ++ [closed trusted])) i c Left)
  | step_orphan trusted i c s :
      main_of s = Dead → conns trusted s !! i = Some c →
      (reader_of c = Leaving ∨ ∃ message messages next, reader_of c = Handing message messages next) →
      step s (set_reader trusted s i c Left).

Definition started (s : t) : Prop := ∃ bound connected, start bound connected = Some s.
Definition reachable (s : t) : Prop := ∃ s0, started s0 ∧ rtc step s0 s.


(** What the mobile parser takes the program's takes as well. *)
Lemma endpoint_packet b p :
  MobileProto.UdpAssociate.parse_endpoint b = Some (UdpAssociate.PacketEndpoint p) →
  UdpAssociate.parse_endpoint b = Some (UdpAssociate.PacketEndpoint p).
Proof.
  unfold MobileProto.UdpAssociate.parse_endpoint, UdpAssociate.parse_endpoint. destruct (length b <? 11)%nat; [done|].
  destruct b.[0%nat]; cbn [mbind option_bind]; [|done]. destruct b.[from 1%nat]; cbn [mbind option_bind]; [|done].
  destruct (parse_address_endpoint _ _) as [[[size addr]|]|]; cbn [mbind option_bind]; try done.
  destruct (slice_from _ size) as [b2|]; cbn [mbind option_bind]; [|done]. destruct (length b2 <? 4)%nat; [done|].
  destruct (to_u16 b2) as [len|]; cbn [mbind option_bind]; [|done].
  destruct (Nat.ltb_spec MobileProto.MAX_PACKET_SIZE (Z.to_nat len)) as [|Hl]; [done|].
  rewrite (proj2 (Nat.ltb_ge MAX_PACKET_SIZE _)); [done|]. unfold MobileProto.MAX_PACKET_SIZE, MAX_PACKET_SIZE in *. lia.
Qed.

Lemma relay_receive_total fuel buffer : (length buffer < fuel)%nat → is_Some (receive fuel buffer).
Proof.
  revert buffer. induction fuel as [|fuel IH]; intros buffer Hf; [lia|]. cbn [receive].
  destruct (MobileProto.UdpAssociate.parse_endpoint buffer) as [[p| |]|] eqn:Hp; try by eexists.
  destruct (WinUdp.endpoint_bounds _ _ (endpoint_packet _ _ Hp)) as [H1 H2].
  rewrite slice_to_le, slice_from_le by lia. cbn [mbind option_bind].
  destruct (IH (drop (UdpAssociate.e_offset p) buffer)) as [[ps r] ->]; [rewrite length_drop; lia|].
  by eexists.
Qed.

(** A read always has a next state. *)
Lemma on_read_total trusted buffer r : is_Some (on_read trusted buffer r).
Proof.
  destruct trusted, r as [[|x data]|]; cbn [on_read on_trust_read on_distrust_read]; try by eexists.
  destruct (relay_receive_total (S (length (buffer ++ x :: data))) (buffer ++ x :: data)) as [[ms r] ->]; [lia|by eexists].
Qed.

(** ** One live connection *)

Definition readers (trusted : bool) (s : t) : list reader := reader_of <$> conns trusted s.
Definition is_closed (trusted : bool) (r : Response) : bool :=
  match r, trusted with TrustClosed, true | DistrustClosed, false => true | _, _ => false end.
Definition reports (trusted : bool) (q : list Response) : nat := length (filter (λ r, is_closed trusted r = true) q).
#[local] Arguments reports : simpl never.
Definition left_ (r : reader) : bool := match r with Left => true | _ => false end.

(** All readers but the newest have returned; the newest has exactly if its report
    is on its way. *)
Definition live (trusted : bool) (s : t) : Prop :=
  ∃ r old, readers trusted s = r :: old ∧ Forall (λ r, r = Left) old
    ∧ (main_of s = Running → reports trusted (queue s) = if left_ r then 1%nat else 0%nat).

Lemma relay_reports_app trusted q q' : reports trusted (q ++ q') = (reports trusted q + reports trusted q')%nat.
Proof. unfold reports. by rewrite filter_app, length_app. Qed.

Lemma reports_cons trusted r q :
  reports trusted (r :: q) = ((if is_closed trusted r then 1 else 0) + reports trusted q)%nat.
Proof.
  unfold reports. rewrite filter_cons. destruct (is_closed trusted r); [by rewrite decide_True|by rewrite decide_False].
Qed.

Lemma readers_set_reader trusted trusted' s i c r :
  readers trusted' (set_reader trusted s i c r)
  = if decide (trusted = trusted') then <[i := r]> (readers trusted' s) else readers trusted' s.
Proof.
  unfold set_reader, readers, conns, set_conns.
  by destruct trusted, trusted'; cbn; rewrite ?list_fmap_insert.
Qed.

Lemma main_set_reader trusted s i c r : main_of (set_reader trusted s i c r) = main_of s.
Proof. by destruct trusted. Qed.
Lemma queue_set_reader trusted s i c r : queue (set_reader trusted s i c r) = queue s.
Proof. by destruct trusted. Qed.

Lemma live_ext trusted s s' :
  readers trusted s' = readers trusted s →
  (main_of s' = Running → main_of s = Running ∧ reports trusted (queue s') = reports trusted (queue s)) →
  live trusted s → live trusted s'.
Proof.
  intros Hr Hq (r & old & H1 & H2 & H3). exists r, old. split; [congruence|]. split; [done|].
  intros [Hm ->]%Hq. auto.
Qed.

(** A reader that takes a step is the newest. *)
Lemma live_moves trusted s q i c r :
  live trusted s → conns trusted s !! i = Some c → left_ (reader_of c) = false →
  (main_of s = Running → reports trusted q = reports trusted (queue s) + if left_ r then 1 else 0)%nat →
  live trusted (set_reader trusted (with_queue s q) i c r).
Proof.
  intros (r0 & old & Hrs & Hold & Hq) Hc Hr Hq'.
  assert (readers trusted s !! i = Some (reader_of c)) as Hi by (unfold readers; by rewrite list_lookup_fmap, Hc).
  destruct i as [|i].
  2: { rewrite Hrs in Hi. cbn in Hi. rewrite Forall_lookup in Hold. by rewrite (Hold _ _ Hi) in Hr. }
  assert (r0 = reader_of c) as -> by (rewrite Hrs in Hi; by injection Hi).
  exists r, old. rewrite readers_set_reader, decide_True by done. split; [|split; [done|]].
  - replace (readers trusted (with_queue s q)) with (readers trusted s) by (by destruct trusted). by rewrite Hrs.
  - rewrite main_set_reader, queue_set_reader. cbn. intros Hm. rewrite Hq', Hq, Hr by done. done.
Qed.

Lemma live_other trusted trusted' s q i c r :
  trusted ≠ trusted' → reports trusted' q = reports trusted' (queue s) →
  live trusted' s → live trusted' (set_reader trusted (with_queue s q) i c r).
Proof.
  intros Hne Hq. apply live_ext.
  - rewrite readers_set_reader, decide_False by done. by destruct trusted'.
  - rewrite main_set_reader, queue_set_reader. cbn. auto.
Qed.

Lemma on_query_keeps s now source data header body s' :
  on_query s now source data header body = Some s' →
  main_of s' = main_of s ∧ queue s' = queue s ∧ ∀ trusted, readers trusted s' = readers trusted s.
Proof.
  unfold on_query. destruct (from_bytes data) as [m|]; [|by intros [= <-]].
  destruct (negb _); [by intros [= <-]|].
  intros (key & _ & H)%bind_Some. apply bind_Some in H as ([[ask item] sent] & _ & H).
  destruct ask; [|injection H as <-; by split_and!; try done; intros []].
  apply bind_Some in H as (q & _ & H). unfold readers, conns.
  destruct (is_blocked _ _); injection H as <-; (split_and!; [done..|]); intros []; cbn; try done.
  - destruct (trusts s) as [|c cs]; [done|]. cbn. unfold ask_trusted. by destruct (write_is_ok header).
  - by destruct (distrusts s).
Qed.

Lemma live_response trusted s now r rest bound connected :
  main_of s = Running → queue s = r :: rest → live trusted s →
  live trusted (or_dead (with_queue s rest) (on_response (with_queue s rest) now r bound connected)).
Proof.
  intros Hm Hq (r0 & old & Hrs & Hold & Hn). specialize (Hn Hm). rewrite Hq in Hn.
  destruct (on_response (with_queue s rest) now r bound connected) as [s'|] eqn:Hs'; cbn.
  2: { exists r0, old. split; [by destruct trusted|]. split; [done|]. done. }
  rewrite reports_cons in Hn.
  destruct r as [m| |]; cbn in Hs'.
  - apply bind_Some in Hs' as (key & _ & H). apply bind_Some in H as ([item sent] & _ & [= <-]).
    exists r0, old. split; [by destruct trusted|]. split; [done|]. intros _. by destruct trusted.
  - apply bind_Some in Hs' as (c & Hc & [= <-]). unfold start_trust_response in Hc.
    apply bind_Some in Hc as (w & _ & Hc). destruct (write_is_ok w); [|done]. injection Hc as <-.
    destruct trusted; cbn in Hn; [|by exists r0, old].
    exists (Reading []), (r0 :: old). split; [by cbn; unfold readers in Hrs; cbn in Hrs; rewrite Hrs|].
    destruct r0; cbn in Hn; try lia. split; [by constructor|]. intros _. cbn. lia.
  - apply bind_Some in Hs' as (c & Hc & [= <-]). unfold start_distrust_response in Hc.
    destruct bound; [|done]. injection Hc as <-.
    destruct trusted; cbn in Hn; [by exists r0, old|].
    exists (Reading []), (r0 :: old). split; [by cbn; unfold readers in Hrs; cbn in Hrs; rewrite Hrs|].
    destruct r0; cbn in Hn; try lia. split; [by constructor|]. intros _. cbn. lia.
Qed.

Lemma settle_not_left ms r : left_ (settle ms r) = false.
Proof. by destruct ms, r. Qed.

Lemma on_read_not_left trusted buffer r next : on_read trusted buffer r = Some next → left_ next = false.
Proof.
  destruct trusted, r as [[|x data]|]; cbn [on_read on_trust_read on_distrust_read]; try (by intros [= <-]).
  - intros ([ms r] & _ & [= <-])%bind_Some. apply settle_not_left.
  - intros [= <-]. by destruct (from_bytes _).
  - intros [= <-]. by destruct (from_bytes _).
Qed.

Lemma live_step s s' : step s s' → ∀ trusted, live trusted s → live trusted s'.
Proof.
  intros Hst k Hl. destruct Hst as
    [now source data header body s Hm Hd|s Hm|now r rest b c s Hm Hq|kk i c buffer r next s Hc Hr Hn
    |kk i c m ms next s Hm Hc Hr Hq|kk i c s Hm Hc Hr Hq|kk i c s Hm Hc Hr].
  - destruct (on_query _ _ _ _ _ _) as [s'|] eqn:Hs'; cbn.
    + destruct (on_query_keeps _ _ _ _ _ _ _ Hs') as (Hm' & Hq' & Hr'). eapply live_ext; [apply Hr'| |exact Hl].
      intros _. by rewrite Hq'.
    + by eapply live_ext; [..|exact Hl]; [destruct k|].
  - by eapply live_ext; [..|exact Hl]; [destruct k|].
  - by eapply live_response.
  - replace s with (with_queue s (queue s)) by (by destruct s). destruct (decide (kk = k)) as [->|Hne].
    + apply live_moves; [done..|by rewrite Hr|]. intros _. rewrite (on_read_not_left _ _ _ _ Hn). lia.
    + by apply live_other.
  - destruct (decide (kk = k)) as [->|Hne].
    + apply live_moves; [done..|by rewrite Hr|]. intros _. rewrite relay_reports_app, settle_not_left. by destruct k.
    + apply live_other; [done| |done]. rewrite relay_reports_app. by destruct k.
  - destruct (decide (kk = k)) as [->|Hne].
    + apply live_moves; [done..|by rewrite Hr|]. intros _. rewrite relay_reports_app. by destruct k.
    + apply live_other; [done| |done]. rewrite relay_reports_app. by destruct kk, k.
  - replace s with (with_queue s (queue s)) by (by destruct s). destruct (decide (kk = k)) as [->|Hne].
    + apply live_moves; [done|done| |by rewrite Hm]. by destruct Hr as [->|(? & ? & ? & ->)].
    + by apply live_other.
Qed.

Lemma started_state s : started s → s = mk Running ∅ [] [mkConn [request] false (Reading [])] [mkConn [] false (Reading [])] [] [].
Proof.
  intros ([] & connected & H); [|done]. apply bind_Some in H as (d & [= <-] & H).
  apply bind_Some in H as (c & H & [= <-]). apply bind_Some in H as (w & _ & H).
  destruct (write_is_ok w); [|done]. by injection H as <-.
Qed.

(** An invariant of the steps holds wherever the relay gets to. *)
Lemma reachable_invariant (P : t → Prop) :
  P (mk Running ∅ [] [mkConn [request] false (Reading [])] [mkConn [] false (Reading [])] [] []) →
  (∀ s s', step s s' → P s → P s') → ∀ s, reachable s → P s.
Proof.
  intros H0 Hstep s (s0 & ->%started_state & Hr). revert s Hr. apply rtc_ind_r; [done|]. eauto.
Qed.

(** At any time all the tasks that read a former connection have returned, and
    while the main task runs the one that reads the connection in use has returned
    exactly if its report is in the channel, where there is one at most: the relay
    never reads two connections to a resolver and never misses the end of one. *)
Theorem one_connection_per_resolver s trusted :
  reachable s →
  ∃ c old, conns trusted s = c :: old ∧ Forall (λ c, reader_of c = Left) old
    ∧ (main_of s = Running → reports trusted (queue s) = if left_ (reader_of c) then 1%nat else 0%nat).
Proof.
  intros Hr.
  assert (live trusted s) as (r & old & H1 & H2 & H3).
  { revert s Hr. apply reachable_invariant; [|intros s s' Hst; by apply live_step].
    destruct trusted; eexists _, []; (split; [reflexivity|]); split; (done || by intros). }
  unfold readers in H1. destruct (conns trusted s) as [|c cs]; [done|]. injection H1 as <- <-.
  exists c, cs. split; [done|]. split; [|done]. by rewrite Forall_fmap in H2.
Qed.

(** ** Every question is answered or waits *)

(** The questions whose clients wait, with their keys. *)
Definition tagged (key : bytes) (clients : list (SocketAddr * Z)) : list (bytes * SocketAddr * Z) :=
  (λ c, (key, c.1, c.2)) <$> clients.
Definition waiting (store : gmap bytes DnsItem.t) : list (bytes * SocketAddr * Z) :=
  map_to_list store ≫= λ kv, tagged kv.1 (DnsItem.clients kv.2).

(** The datagram answers the question: it goes to its client, with its identifier,
    and is about what it asks. *)
Definition answers_question (q : bytes * SocketAddr * Z) (r : reply) : Prop :=
  r.1 = q.1.2 ∧ ∃ m, to_vec m = Some r.2 ∧ get_message_key m = Some q.1.1 ∧ msg_id m = q.2.

Definition well_keyed (store : gmap bytes DnsItem.t) : Prop :=
  map_Forall (λ key item, get_message_key (DnsItem.message item) = Some key) store.

Section Laws.
Context `{!DnsProtoOk D} `{!DnsRecordsOk D R}.

Lemma key_queries m m' : queries m' = queries m → get_message_key m' = get_message_key m.
Proof. unfold get_message_key. by intros ->. Qed.

Lemma tagged_app key cs cs' : tagged key (cs ++ cs') = tagged key cs ++ tagged key cs'.
Proof. apply fmap_app. Qed.

Lemma relay_waiting_delete store key item :
  store !! key = Some item → waiting store ≡ₚ tagged key (DnsItem.clients item) ++ waiting (delete key store).
Proof.
  intros H. unfold waiting. rewrite <-(map_to_list_delete store key item H). by rewrite bind_cons.
Qed.

(** A new item has no clients. *)
Lemma waiting_default store key now m :
  waiting store ≡ₚ tagged key (DnsItem.clients (default (DnsItem.new now m) (store !! key))) ++ waiting (delete key store).
Proof.
  destruct (store !! key) as [item|] eqn:H; cbn; [by apply relay_waiting_delete|]. by rewrite delete_id.
Qed.

Lemma relay_waiting_insert store key item :
  waiting (<[key := item]> store) ≡ₚ tagged key (DnsItem.clients item) ++ waiting (delete key store).
Proof. rewrite (relay_waiting_delete _ key item) by apply lookup_insert_eq. by rewrite delete_insert_eq. Qed.

Lemma well_keyed_default store key now m :
  well_keyed store → get_message_key m = Some key →
  get_message_key (DnsItem.message (default (DnsItem.new now m) (store !! key))) = Some key.
Proof. intros Hs Hm. destruct (store !! key) eqn:H; cbn; [|done]. by apply Hs in H. Qed.

(** [DnsItem::respond]: the client is answered, or waits and the query is sent on. *)
Lemma respond_spec now item source id ask item' sent key :
  DnsItem.respond now item source id = Some (ask, item', sent) →
  get_message_key (DnsItem.message item) = Some key →
  get_message_key (DnsItem.message item') = Some key
  ∧ ((ask = true ∧ sent = [] ∧ DnsItem.clients item' = DnsItem.clients item ++ [(source, id)])
     ∨ (Forall2 answers_question [(key, source, id)] sent ∧ DnsItem.clients item' = DnsItem.clients item)).
Proof.
  unfold DnsItem.respond. destruct (negb (DnsItem.has_response item)).
  { intros [= <- <- <-] Hk. split; [done|]. by left. }
  cbn zeta. set (m := set_id _ id). intros (d & Hd & [= <- <- <-])%bind_Some Hk.
  assert (get_message_key m = Some key) as Hm.
  { rewrite (key_queries (DnsItem.message item) m); [done|]. unfold m. by rewrite set_id_queries, answers_mut_queries. }
  split; [done|]. right. split; [|done]. repeat constructor. exists m. split_and!; [done..|]. apply set_id_id.
Qed.

Lemma notify_one_none cs : foldl DnsItem.notify_one None cs = None.
Proof. by induction cs. Qed.

(** The loop answers the clients in order; the message keeps its question and its
    answers. *)
Lemma notify_loop cs m sent m' sent' key :
  foldl DnsItem.notify_one (Some (m, sent)) cs = Some (m', sent') → get_message_key m = Some key →
  get_message_key m' = Some key ∧ answers m' = answers m
  ∧ ∃ replies, sent' = sent ++ replies ∧ Forall2 answers_question (tagged key cs) replies.
Proof.
  revert m sent. induction cs as [|[source id] cs IH]; intros m sent H Hk.
  { injection H as <- <-. split_and!; [done..|]. exists []. rewrite app_nil_r. split; [done|constructor]. }
  cbn [foldl] in H. destruct (DnsItem.notify_one (Some (m, sent)) (source, id)) as [[m1 sent1]|] eqn:H1.
  2: { by rewrite notify_one_none in H. }
  unfold DnsItem.notify_one in H1. cbn [mbind option_bind] in H1. apply bind_Some in H1 as (d & Hd & [= <- <-]).
  set (m1 := take_name_servers _) in *.
  assert (get_message_key m1 = Some key) as Hk1.
  { rewrite (key_queries m m1); [done|]. unfold m1. by rewrite take_name_servers_queries, take_additionals_queries, set_id_queries. }
  destruct (IH _ _ H Hk1) as (Hk' & Ha & replies & -> & Hf). split; [done|]. split.
  { rewrite Ha. unfold m1. by rewrite take_name_servers_answers, take_additionals_answers, set_id_answers. }
  exists ((source, d) :: replies). split; [by rewrite <-app_assoc|]. constructor; [|done].
  split; [done|]. exists m1. split_and!; [done..|].
  unfold m1. by rewrite take_name_servers_id, take_additionals_id, set_id_id.
Qed.

(** [DnsItem::notify]: every client that waits is answered and none waits any more. *)
Lemma notify_spec now item m item' sent key :
  DnsItem.notify now item m = Some (item', sent) → get_message_key m = Some key →
  get_message_key (DnsItem.message item') = Some key ∧ answers (DnsItem.message item') = answers m
  ∧ DnsItem.clients item' = [] ∧ Forall2 answers_question (tagged key (DnsItem.clients item)) sent.
Proof.
  unfold DnsItem.notify. intros ([m' sent'] & Hf & [= <- <-])%bind_Some Hk.
  destruct (notify_loop _ _ _ _ _ _ Hf Hk) as (Hk' & Ha & replies & Hr & Hf'). by subst sent'.
Qed.

(** The state accounts for every question. *)
Definition accounted (s : t) : Prop :=
  well_keyed (dns_store s)
  ∧ ∃ answered, asked s ≡ₚ answered ++ waiting (dns_store s) ∧ Forall2 answers_question answered (out s).

Lemma accounted_item s key item0 item sent new answered :
  accounted s → get_message_key (DnsItem.message item) = Some key →
  waiting (dns_store s) ≡ₚ tagged key (DnsItem.clients item0) ++ waiting (delete key (dns_store s)) →
  new ++ tagged key (DnsItem.clients item0) ≡ₚ answered ++ tagged key (DnsItem.clients item) →
  Forall2 answers_question answered sent → accounted (with_item s key item sent new).
Proof.
  intros (Hwk & done & Hp & Hf) Hk Hw Hn Ha. split; [by apply map_Forall_insert_2|].
  exists (done ++ answered). split; [|by apply Forall2_app]. cbn.
  rewrite Hp, Hw, relay_waiting_insert. rewrite <-!app_assoc. apply Permutation_app_head.
  rewrite (Permutation_app_comm _ new), !app_assoc. apply Permutation_app_tail.
  by rewrite Permutation_app_comm, Hn, (Permutation_app_comm answered).
Qed.

Lemma accounted_ext s s' :
  dns_store s' = dns_store s → asked s' = asked s → out s' = out s → accounted s → accounted s'.
Proof. unfold accounted. by intros -> -> ->. Qed.

Lemma accounted_reader trusted s q i c r : accounted s → accounted (set_reader trusted (with_queue s q) i c r).
Proof. by destruct trusted; apply accounted_ext. Qed.

Lemma accounted_query s now source data header body s' :
  on_query s now source data header body = Some s' → accounted s → accounted s'.
Proof.
  unfold on_query. destruct (from_bytes data) as [m|]; [|by intros [= <-]].
  destruct (negb _); [by intros [= <-]|]. intros (key & Hk & H)%bind_Some Hs.
  apply bind_Some in H as ([[ask item] sent] & Hr & H). cbn zeta in Hr.
  assert (accounted (with_item s key item sent [(key, source, msg_id m)])) as Ha.
  { set (item0 := default _ _) in *.
    destruct (respond_spec _ _ _ _ _ _ _ key Hr) as [Hk' Hcase]; [by apply well_keyed_default, Hk; apply Hs|].
    pose proof (waiting_default (dns_store s) key now m) as Hw. fold item0 in Hw.
    destruct Hcase as [(-> & -> & Hc)|[Hf Hc]].
    - apply (accounted_item s key item0 item [] _ []); [done..| |constructor].
      rewrite Hc, tagged_app, app_nil_l. apply Permutation_app_comm.
    - apply (accounted_item s key item0 item sent _ [(key, source, msg_id m)]); [done..| |done]. by rewrite Hc. }
  destruct ask; [|by injection H as <-]. apply bind_Some in H as (q & _ & H).
  destruct (is_blocked _ _); injection H as <-; by apply (accounted_ext (with_item s key item sent [(key, source, msg_id m)])).
Qed.

Lemma accounted_response s now r bound connected s' :
  on_response s now r bound connected = Some s' → accounted s → accounted s'.
Proof.
  destruct r as [m| |]; cbn; intros H Hs.
  - apply bind_Some in H as (key & Hk & H). apply bind_Some in H as ([item sent] & Hn & [= <-]).
    set (item0 := default _ _) in *.
    destruct (notify_spec _ _ _ _ _ key Hn Hk) as (Hk' & _ & Hc & Hf).
    apply (accounted_item s key item0 item sent [] (tagged key (DnsItem.clients item0))); [done..|apply waiting_default| |done].
    by rewrite Hc, app_nil_r.
  - apply bind_Some in H as (c & _ & [= <-]). by apply (accounted_ext s).
  - apply bind_Some in H as (c & _ & [= <-]). by apply (accounted_ext s).
Qed.

Lemma accounted_step s s' : step s s' → accounted s → accounted s'.
Proof.
  destruct 1 as [now source data header body s|s|now r rest bound connected s| | | |].
  - destruct (on_query _ _ _ _ _ _) eqn:HQ; cbn; [by eapply accounted_query|by apply accounted_ext].
  - by apply accounted_ext.
  - intros Hs%(accounted_ext _ (with_queue s rest)); [|done..].
    destruct (on_response _ _ _ _ _) eqn:H'; cbn; [by eapply accounted_response|by apply (accounted_ext (with_queue s rest))].
  - intros Hs. replace s with (with_queue s (queue s)) by (by destruct s). by apply accounted_reader.
  - apply accounted_reader.
  - apply accounted_reader.
  - intros Hs. replace s with (with_queue s (queue s)) by (by destruct s). by apply accounted_reader.
Qed.

(** C32: while the relay runs, the questions it has taken are, counted with their
    repetitions, the ones it has answered and the ones that wait in the cache: none
    is forgotten, none is answered twice, and every answer goes to the client that
    asked, with its identifier, and is about the name and type it asked for. *)
Theorem questions_answered_or_waiting s :
  reachable s → main_of s = Running →
  ∃ answered, asked s ≡ₚ answered ++ waiting (dns_store s) ∧ Forall2 answers_question answered (out s).
Proof.
  intros Hr _. enough (accounted s) as [_ ?] by done. revert s Hr.
  apply reachable_invariant; [|intros ??; apply accounted_step].
  split; [apply map_Forall_empty|]. exists []. split; [done|constructor].
Qed.

(** ** Who is asked *)

(** The datagram is a query for one name. *)
Definition question_for (name data : bytes) : Prop :=
  ∃ m q, from_bytes data = Some m ∧ queries m = [q] ∧ name = to_utf8 (query_name q).

(** What is written to the trusted resolver while nothing has failed, and to the
    distrusted one. *)
Definition trusted_ok (c : conn) : Prop :=
  shut c = false →
  ∃ ds, mjoin (pieces c) = request ++ Framing.encode UdpBackend.packet ((λ d, (d, trusted_addr)) <$> ds)
    ∧ Forall (λ d, ∃ name, question_for name d ∧ is_blocked blocked_domains name = true) ds.
Definition distrusted_ok (c : conn) : Prop :=
  Forall (λ d, ∃ name, question_for name d ∧ is_blocked blocked_domains name = false) (pieces c).
Definition split_ok (s : t) : Prop := Forall trusted_ok (trusts s) ∧ Forall distrusted_ok (distrusts s).

Lemma split_ext s s' : trusts s' = trusts s → distrusts s' = distrusts s → split_ok s → split_ok s'.
Proof. unfold split_ok. by intros -> ->. Qed.

Lemma split_reader trusted s q i c r :
  conns trusted s !! i = Some c → split_ok s → split_ok (set_reader trusted (with_queue s q) i c r).
Proof.
  intros Hc [Ht Hd]. destruct trusted; cbn in *; (split; [try done|try done]); cbn; apply Forall_insert; try done;
    (eapply Forall_lookup_1 in Hc; [|done]); done.
Qed.

Lemma ask_trusted_ok data header body c name :
  Z.of_nat (length data) < 2 ^ 16 → question_for name data → is_blocked blocked_domains name = true →
  trusted_ok c → trusted_ok (ask_trusted data header body c).
Proof.
  intros Hd Hq Hb Hc. unfold ask_trusted, trusted_ok. destruct (write_is_ok header); [|done]. cbn [shut pieces].
  intros [Hs Hw]%orb_false_iff. apply negb_false_iff in Hw.
  destruct (Hc Hs) as (ds & Hj & Hf). exists (ds ++ [data]). split; [|apply Forall_app; split; [done|]].
  - rewrite fmap_app, encode_app, join_app, Hj. rewrite <-app_assoc. f_equal. f_equal.
    unfold UdpBackend.packet, Framing.encode. cbn. rewrite !app_nil_r, wrap_small by lia. by destruct body.
  - constructor; [by exists name|constructor].
Qed.

Lemma one_question m : query_count m = length (queries m) → (query_count m =? 1)%nat = true → ∃ q, queries m = [q].
Proof. intros -> H%Nat.eqb_eq. destruct (queries m) as [|q [|]]; try done. by exists q. Qed.

Lemma split_query s now source data header body s' :
  Z.of_nat (length data) < 2 ^ 16 → on_query s now source data header body = Some s' → split_ok s → split_ok s'.
Proof.
  intros Hd. unfold on_query. destruct (from_bytes data) as [m|] eqn:Hm; [|by intros [= <-]].
  destruct (negb _) eqn:Hn; [by intros [= <-]|]. apply negb_false_iff in Hn.
  destruct (one_question m (query_count_ok _ _ Hm) Hn) as [q Hq].
  intros (key & Hk & H)%bind_Some Hs. apply bind_Some in H as ([[ask item] sent] & _ & H).
  destruct ask; [|injection H as <-; by apply (split_ext s)].
  apply bind_Some in H as (q' & Hq' & H). rewrite Hq in Hq'. injection Hq' as <-.
  assert (question_for (to_utf8 (query_name q)) data) as Hfor by (by exists m, q).
  destruct Hs as [Ht Hds]. destruct (is_blocked _ _) eqn:Hb; injection H as <-; (split; cbn; [try done|try done]).
  - destruct Ht; constructor; [|done]. by eapply ask_trusted_ok.
  - destruct Hds as [|c cs Hc]; constructor; [|done]. apply Forall_app. split; [done|]. constructor; [by eexists|constructor].
Qed.

Lemma split_response s now r bound connected s' :
  on_response s now r bound connected = Some s' → split_ok s → split_ok s'.
Proof.
  destruct r as [m| |]; cbn; intros H [Ht Hd].
  - apply bind_Some in H as (key & _ & H). by apply bind_Some in H as ([item sent] & _ & [= <-]).
  - apply bind_Some in H as (c & H & [= <-]). apply bind_Some in H as (w & _ & H).
    destruct (write_is_ok w); [|done]. injection H as <-. split; [|done]. constructor; [|done].
    intros _. exists []. cbn. by rewrite app_nil_r.
  - apply bind_Some in H as (c & H & [= <-]). destruct bound; [|done]. injection H as <-.
    split; [done|]. by constructor; [constructor|].
Qed.

Lemma split_step s s' : step s s' → split_ok s → split_ok s'.
Proof.
  destruct 1 as [now source data header body s|s|now r rest bound connected s| | | |].
  - destruct (on_query _ _ _ _ _ _) eqn:H'; cbn; [by eapply split_query|by apply split_ext].
  - by apply split_ext.
  - intros Hs%(split_ext _ (with_queue s rest)); [|done..].
    destruct (on_response _ _ _ _ _) eqn:H'; cbn; [by eapply split_response|by apply (split_ext (with_queue s rest))].
  - intros Hs. replace s with (with_queue s (queue s)) by (by destruct s). by apply split_reader.
  - by apply split_reader.
  - by apply split_reader.
  - intros Hs. replace s with (with_queue s (queue s)) by (by destruct s). by apply split_reader.
Qed.

Lemma reachable_split s : reachable s → split_ok s.
Proof.
  revert s. apply reachable_invariant; [|intros ??; apply split_step].
  split; (constructor; [|constructor]); [|constructor]. intros _. exists []. cbn. by rewrite app_nil_r.
Qed.

(** Every connection to the trusted resolver on which no write has failed
    carries the request and then whole packets to the resolver, each a query for one
    name, which is blocked; every datagram to the distrusted resolver is a query
    for one name that is not blocked. *)
Theorem relay_splits_questions s :
  reachable s →
  (∀ c, c ∈ trusts s → shut c = false →
     ∃ ds, mjoin (pieces c) = request ++ Framing.encode UdpBackend.packet ((λ d, (d, trusted_addr)) <$> ds)
       ∧ Forall (λ d, ∃ name, question_for name d ∧ is_blocked blocked_domains name = true) ds)
  ∧ ∀ c d, c ∈ distrusts s → d ∈ pieces c → ∃ name, question_for name d ∧ is_blocked blocked_domains name = false.
Proof.
  intros [Ht Hd]%reachable_split. rewrite Forall_forall in Ht, Hd. split; [exact Ht|].
  intros c d Hc. specialize (Hd c Hc). unfold distrusted_ok in Hd. rewrite Forall_forall in Hd. apply Hd.
Qed.

(** ** The cache *)

(** The time to live a cached answer is given out with. *)
Definition remaining (expire now : Z) : Z := wrap 32 (as_secs (since expire now)).

Lemma remaining_bounds expire now t ttl :
  0 <= ttl < 2 ^ 32 → t <= now → expire = t + secs ttl →
  0 <= remaining expire now <= ttl ∧ (expire <= now → remaining expire now = 0).
Proof.
  intros Hl Ht ->. unfold remaining, since, as_secs, secs.
  assert (0 <= Z.max 0 (t + ttl * 1000000000 - now) / 1000000000 <= ttl) as Hb.
  { split; [apply Z.div_pos; lia|]. apply Z.div_le_upper_bound; lia. }
  rewrite wrap_small by lia. split; [done|]. intros He. by rewrite Z.max_l by lia.
Qed.

(** A question whose item has an answer. *)
Lemma on_query_cached s now source data header body m q key item :
  from_bytes data = Some m → queries m = [q] → get_message_key m = Some key →
  default (DnsItem.new now m) (dns_store s !! key) = item → DnsItem.has_response item = true →
  let message := set_id (answers_mut (λ r, set_ttl r (remaining (DnsItem.expire item) now)) (DnsItem.message item)) (msg_id m) in
  on_query s now source data header body =
    d ← to_vec message;
    let s := with_item s key (DnsItem.mk message (DnsItem.expire item) (DnsItem.clients item)) [(source, d)] [(key, source, msg_id m)] in
    Some (if DnsItem.expire item <=? now then
            if is_blocked blocked_domains (to_utf8 (query_name q))
            then with_trusts s (on_head (ask_trusted data header body) (trusts s))
            else with_distrusts s (on_head (ask_distrusted data) (distrusts s))
          else s).
Proof.
  intros Hm Hq Hk Hi Ha message. unfold on_query. rewrite Hm, (query_count_ok _ _ Hm), Hq.
  cbn [length Nat.eqb negb]. rewrite Hk. cbn [mbind option_bind]. rewrite Hi. unfold DnsItem.respond. rewrite Ha. cbn [negb].
  fold (remaining (DnsItem.expire item) now). fold message. destruct (to_vec message) as [d|]; [|done]. cbn.
  replace (since (DnsItem.expire item) now =? 0) with (DnsItem.expire item <=? now).
  - rewrite ?Hq. destruct (DnsItem.expire item <=? now); [|done]. cbn. by destruct (is_blocked _ _).
  - apply eq_true_iff_eq. rewrite Z.leb_le, Z.eqb_eq. unfold since. lia.
Qed.

(** Once an answer has arrived, the clients that ask for its name and type are
    answered at once with its records, whose time to live is what is left of that of
    the first record; the question is sent on only from the moment it expires, and
    the records are given out with a time to live of 0 then. *)
Theorem answers_are_cached s0 t0 answer record records bound connected s1 s now source data header body m q key s' :
  on_response s0 t0 (Answer answer) bound connected = Some s1 →
  get_message_key answer = Some key → answers answer = record :: records → 0 <= rr_ttl record < 2 ^ 32 →
  dns_store s !! key = dns_store s1 !! key → t0 <= now →
  from_bytes data = Some m → queries m = [q] → get_message_key m = Some key →
  on_query s now source data header body = Some s' →
  ∃ d m' ttl, out s' = out s ++ [(source, d)] ∧ to_vec m' = Some d
    ∧ get_message_key m' = Some key ∧ msg_id m' = msg_id m
    ∧ answers m' = (λ r, set_ttl r ttl) <$> record :: records ∧ 0 <= ttl <= rr_ttl record
    ∧ if decide (now < t0 + secs (rr_ttl record)) then trusts s' = trusts s ∧ distrusts s' = distrusts s
      else ttl = 0
        ∧ if is_blocked blocked_domains (to_utf8 (query_name q))
          then trusts s' = on_head (ask_trusted data header body) (trusts s) ∧ distrusts s' = distrusts s
          else distrusts s' = on_head (ask_distrusted data) (distrusts s) ∧ trusts s' = trusts s.
Proof.
  intros H1 Hka Hans Httl Hst Ht Hm Hq Hk H. cbn in H1. rewrite Hka in H1. cbn in H1.
  apply bind_Some in H1 as ([item sent] & Hn & [= <-]). cbn in Hst. rewrite lookup_insert_eq in Hst.
  destruct (notify_spec _ _ _ _ _ key Hn Hka) as (Hki & Ha & Hc & _).
  assert (DnsItem.expire item = t0 + secs (rr_ttl record)) as He.
  { unfold DnsItem.notify in Hn. apply bind_Some in Hn as ([m1 sent1] & _ & [= <- <-]). cbn in *. by rewrite Ha, Hans. }
  rewrite (on_query_cached s now source data header body m q key item) in H; try done.
  2: { by rewrite Hst. } 2: { unfold DnsItem.has_response. by rewrite Ha, Hans. }
  cbn zeta in H. set (m' := set_id _ _) in H. apply bind_Some in H as (d & Hd & [= <-]).
  destruct (remaining_bounds (DnsItem.expire item) now t0 (rr_ttl record) Httl Ht He) as [Hb H0].
  exists d, m', (remaining (DnsItem.expire item) now).
  split; [by destruct (_ <=? _); [destruct (is_blocked _ _)|]|]. split_and!; try done; [..|lia|lia|].
  - rewrite <-Hki. apply key_queries. unfold m'. by rewrite set_id_queries, answers_mut_queries.
  - apply set_id_id.
  - unfold m'. by rewrite set_id_answers, answers_mut_answers, Ha, Hans.
  - rewrite <-He. case_decide as Hn'; [by rewrite (proj2 (Z.leb_gt _ _)) by lia|].
    split; [apply H0; lia|]. rewrite (proj2 (Z.leb_le _ _)) by lia. by destruct (is_blocked _ _).
Qed.

(** A query that comes with answer records is taken for its own answer: while
    nothing else is known of its name and type, every client that asks is given
    those records. *)
Theorem query_answers_itself s now source data header body m q key s1 now' source' data' header' body' m' q' s2 :
  dns_store s !! key = None → from_bytes data = Some m → queries m = [q] → get_message_key m = Some key → answers m ≠ [] →
  on_query s now source data header body = Some s1 → now <= now' →
  from_bytes data' = Some m' → queries m' = [q'] → get_message_key m' = Some key →
  on_query s1 now' source' data' header' body' = Some s2 →
  ∃ d reply, out s2 = out s1 ++ [(source', d)] ∧ to_vec reply = Some d ∧ msg_id reply = msg_id m'
    ∧ rr_ttl <$> answers reply = replicate (length (answers m)) 0 ∧ length (answers reply) = length (answers m)
    ∧ answers reply = (λ r, set_ttl r 0) <$> ((λ r, set_ttl r 0) <$> answers m).
Proof.
  intros Hs Hm Hq Hk Ha H1 Hnow Hm' Hq' Hk' H2.
  assert (∀ t, now <= t → remaining now t = 0) as Hr.
  { intros t Hle. unfold remaining, since. by rewrite Z.max_l by lia. }
  assert (∀ m, answers m ≠ [] → ∀ e cs, DnsItem.has_response (DnsItem.mk m e cs) = true) as Hhas.
  { intros m0 Hne e cs. unfold DnsItem.has_response. cbn. by destruct (answers m0). }
  rewrite (on_query_cached s now source data header body m q key (DnsItem.new now m)) in H1; try done.
  2: { by rewrite Hs. } 2: { by apply Hhas. }
  cbn zeta in H1. set (m1 := set_id _ _) in H1. apply bind_Some in H1 as (d1 & Hd1 & [= <-]).
  assert (answers m1 = (λ r, set_ttl r 0) <$> answers m) as Hm1.
  { unfold m1. rewrite set_id_answers, answers_mut_answers. cbn. by rewrite Hr by lia. }
  rewrite (on_query_cached _ now' source' data' header' body' m' q' key (DnsItem.mk m1 now [])) in H2; try done.
  2: { by destruct (_ <=? _); [destruct (is_blocked _ _)|]; cbn; rewrite lookup_insert_eq. }
  2: { apply Hhas. rewrite Hm1. by destruct (answers m). }
  cbn zeta in H2. set (m2 := set_id _ (msg_id m')) in H2. apply bind_Some in H2 as (d2 & Hd2 & [= <-]).
  assert (answers m2 = (λ r, set_ttl r 0) <$> ((λ r, set_ttl r 0) <$> answers m)) as Hm2.
  { unfold m2. rewrite set_id_answers, answers_mut_answers. cbn. by rewrite Hm1, Hr by lia. }
  exists d2, m2. split_and!; try done.
  - by repeat case_match.
  - apply set_id_id.
  - rewrite Hm2, <-!list_fmap_compose. clear -DnsRecordsOk0. induction (answers m) as [|r rs IH]; [done|]. cbn. rewrite IH. by rewrite set_ttl_ttl.
  - by rewrite Hm2, !length_fmap.
Qed.

(** ** What a resolver, or anyone, can send *)

(** A datagram on the distrusted socket comes to the main task. *)
Lemma datagram_taken s c old data m now bound connected :
  main_of s = Running → queue s = [] → distrusts s = c :: old → reader_of c = Reading [] →
  from_bytes (take BUFFER data) = Some m →
  rtc step s (or_dead s (on_response s now (Answer m) bound connected)).
Proof.
  intros Hm Hq Hd Hr Hp.
  set (s1 := set_reader false s 0 c (Handing m [] (More []))).
  assert (s = with_queue s []) as Hs by (destruct s; cbn in *; by subst).
  eapply rtc_l; [apply (step_read false 0 c [] (Some data) (Handing m [] (More [])) s)|].
  { cbn. by rewrite Hd. } { done. } { unfold on_read, on_distrust_read. by rewrite Hp. }
  fold s1. set (c1 := with_reader c (Handing m [] (More []))).
  eapply rtc_l; [apply (step_hand false 0 c1 m [] (More []) s1)|].
  { done. } { unfold s1, set_reader. cbn. by rewrite Hd. } { done. } { cbn. rewrite Hq. unfold CHANNEL. simpl. lia. }
  set (s2 := set_reader _ _ _ _ _).
  assert (s2 = with_queue s [Answer m]) as Hs2.
  { destruct c as [ps sh r]. cbn in Hr. subst r. unfold s2, s1, set_reader, with_queue, with_distrusts. cbn. by rewrite Hd, Hq. }
  rewrite Hs2. eapply rtc_l; [apply (step_response now (Answer m) [] bound connected); [done|reflexivity]|].
  change (with_queue (with_queue s [Answer m]) []) with (with_queue s []). rewrite <-Hs. apply rtc_refl.
Qed.

(** Whoever sends to the distrusted socket a message about a question answers
    it: whether or not the name is blocked and whoever was asked, the clients that
    wait get the message's records and the cache keeps them. *)
Theorem any_answer_is_believed s c old data m key now item sent :
  main_of s = Running → queue s = [] → distrusts s = c :: old → reader_of c = Reading [] →
  from_bytes (take BUFFER data) = Some m → get_message_key m = Some key →
  DnsItem.notify now (default (DnsItem.new now m) (dns_store s !! key)) m = Some (item, sent) →
  ∃ s', rtc step s s' ∧ main_of s' = Running ∧ dns_store s' = <[key := item]> (dns_store s)
    ∧ answers (DnsItem.message item) = answers m ∧ DnsItem.clients item = [] ∧ out s' = out s ++ sent
    ∧ Forall2 answers_question
        (tagged key (DnsItem.clients (default (DnsItem.new now m) (dns_store s !! key)))) sent.
Proof.
  intros Hm Hq Hd Hr Hp Hk Hn. destruct (notify_spec _ _ _ _ _ key Hn Hk) as (_ & Ha & Hc & Hf).
  eexists. split; [apply (datagram_taken s c old data m now true None); done|].
  cbn. rewrite Hk. cbn. rewrite Hn. cbn. done.
Qed.

Lemma dead_stays s s' : rtc step s s' → main_of s = Dead → main_of s' = Dead ∧ out s' = out s ∧ asked s' = asked s.
Proof.
  induction 1 as [|s1 s2 s3 Hs _ IH]; [done|]. intros Hm.
  assert (main_of s2 = Dead ∧ out s2 = out s1 ∧ asked s2 = asked s1) as (Hm2 & Ho & Has).
  { destruct Hs; try congruence; by destruct trusted. }
  destruct (IH Hm2) as (? & ? & ?). split_and!; congruence.
Qed.

(** A message without a question, from whomever, ends the relay: the main task
    panics on it, and from then on no question is taken and nobody is answered. *)
Theorem questionless_answer_ends_relay s c old data m :
  main_of s = Running → queue s = [] → distrusts s = c :: old → reader_of c = Reading [] →
  from_bytes (take BUFFER data) = Some m → queries m = [] →
  ∃ s', rtc step s s' ∧ ∀ s'', rtc step s' s'' → main_of s'' = Dead ∧ out s'' = out s ∧ asked s'' = asked s.
Proof.
  intros Hm Hq Hd Hr Hp Hk. eexists. split; [apply (datagram_taken s c old data m 0 true None); done|].
  cbn. unfold get_message_key. rewrite Hk. cbn. intros s'' Hs. by apply (dead_stays (dead s)).
Qed.

(** The relay does not survive that it cannot connect to the trusted resolver
    again. *)
Lemma failed_reconnect_ends_relay s rest :
  main_of s = Running → queue s = TrustClosed :: rest →
  ∃ s', step s s' ∧ ∀ s'', rtc step s' s'' → main_of s'' = Dead ∧ out s'' = out s ∧ asked s'' = asked s.
Proof.
  intros Hm Hq. eexists. split; [by apply (step_response 0 TrustClosed rest true None)|].
  cbn. intros s'' Hs. by apply (dead_stays (dead (with_queue s rest))).
Qed.

End Laws.

(** ** The list *)

(** The mobile relay tests a name as the proxy's DNS server does: it is blocked
    exactly when, a trailing root dot removed, the name itself or one of its parent
    domains is listed and has at least two labels.  The loop's bound never
    underflows. *)
Theorem is_blocked_spec blocked name :
  is_blocked blocked name = contains (mkDomainMap blocked) name
  ∧ (is_blocked blocked name = true ↔
     ∃ parent, parent ∈ blocked ∧ DOT ∈ parent ∧ parent_of parent (strip_root name))
  ∧ (0 < if ends_with name DOT then length (split DOT name) - 1 else length (split DOT name))%nat.
Proof.
  assert (is_blocked blocked name = contains (mkDomainMap blocked) name) as Heq.
  { unfold is_blocked, contains. generalize (split DOT name) as items. intros items.
    set (len := if ends_with name DOT then _ else _). clearbody len.
    generalize (len - 1)%nat as n. intros n. generalize 0%nat as i.
    induction n as [|n IH]; intros i; [done|]. cbn [seq existsb contains_loop]. rewrite IH. cbn [domains].
    by case_bool_decide. }
  split; [done|]. split; [rewrite Heq; apply contains_spec|].
  destruct (items_strip_root name) as [_ ->]. pose proof (split_ne DOT (strip_root name)) as Hn.
  destruct (split DOT (strip_root name)); simpl; [done|lia].
Qed.

(** ** The way back *)

(** What the server writes for an answer, and the answers the mobile parser takes. *)
Definition frame (a : SocketAddr * bytes) : bytes :=
  UdpAssociate.generate_endpoint a.1 (Z.of_nat (length a.2)) ++ a.2.
Definition answer4 (a : SocketAddr * bytes) : Prop :=
  wf_sa a.1 ∧ is_ipv4 (sa_ip a.1) = true ∧ (length a.2 <= MobileProto.MAX_PACKET_SIZE)%nat.

Abbreviation partial := (Framing.partial frame answer4).
Abbreviation frames := (Framing.encode frame).

Lemma relay_partial_continues p :
  partial p → MobileProto.UdpAssociate.parse_endpoint p = Some UdpAssociate.ContinuedEndpoint.
Proof.
  intros [->|([e data] & (Hw & H4 & Hd) & [q Hq] & Hne)]; [done|]. unfold frame in *. cbn [fst snd] in *.
  assert (p = take (length p) (UdpAssociate.generate_endpoint e (Z.of_nat (length data)) ++ data)) as ->.
  { by rewrite Hq, take_app_length. }
  apply MobileProto.mobile_endpoint_prefix; [done..|]. rewrite Hq, length_app.
  destruct q; [|simpl; lia]. rewrite app_nil_r in Hq. by destruct Hne.
Qed.

Lemma parse_frame a q :
  answer4 a → MobileProto.UdpAssociate.parse_endpoint (frame a ++ q)
    = Some (UdpAssociate.PacketEndpoint (UdpAssociate.mkEndpoint a.1 (length a.2) (length (frame a)) (a.2 ++ q))).
Proof.
  intros (Ha & H4 & Hd). unfold frame. rewrite <-app_assoc, MobileProto.mobile_endpoint_roundtrip by done.
  by rewrite length_app.
Qed.

Lemma frame_complete a q : answer4 a → ¬ partial (frame a ++ q).
Proof. intros Ha Hp%relay_partial_continues. by rewrite parse_frame in Hp. Qed.

Lemma relay_receive_ok fuel xs p :
  Forall answer4 xs → partial p → (length xs < fuel)%nat →
  receive fuel (frames xs ++ p) = Some (omap from_bytes xs.*2, More p).
Proof.
  intros Hxs Hp. revert fuel. induction Hxs as [|a xs Ha Hxs IH]; intros [|fuel] Hf; try (simpl in Hf; lia); cbn [receive].
  - change (frames [] ++ p) with p. by rewrite (relay_partial_continues p Hp).
  - rewrite encode_cons, <-app_assoc, parse_frame by done.
    cbn [UdpAssociate.e_payload UdpAssociate.e_length UdpAssociate.e_offset].
    rewrite slice_to_app, slice_from_app. cbn [mbind option_bind].
    rewrite IH by (simpl in Hf; lia). cbn. by destruct (from_bytes a.2).
Qed.

Lemma length_frames xs : (length xs <= length (frames xs))%nat.
Proof.
  induction xs as [|x xs IH]; [done|]. rewrite encode_cons, length_app. simpl. unfold frame at 1, UdpAssociate.generate_endpoint.
  rewrite !length_app, length_u16_be. lia.
Qed.

(** The messages a reader has yet to send, and the buffer it reads with then. *)
Definition pending (r : reader) : list Message :=
  match r with Handing message messages _ => message :: messages | _ => [] end.
Definition buffer_of (r : reader) : option bytes :=
  match r with Reading b | Handing _ _ (More b) => Some b | _ => None end.

(** A reader that is fed the pieces of a stream and sends what it has before it
    reads again: the messages it has sent. *)
Definition feed (st : reader * list Message) (data : bytes) : option (reader * list Message) :=
  match data, buffer_of st.1 with
  | [], _ => Some st
  | _, Some buffer => r ← on_trust_read buffer (Some data); Some (r, st.2 ++ pending st.1)
  | _, None => None
  end.

(** Whatever the cuts in the server's stream of IPv4 answers of at most 1450
    bytes, the reader sends the message of every packet that has fully arrived and
    parses, once and in order, and nothing of an incomplete one. *)
Theorem trusted_answers_reassemble chunks xs p :
  Forall answer4 xs → partial p → mjoin chunks = frames xs ++ p →
  ∃ r sent, feed_all feed (Reading [], []) chunks = Some (r, sent)
    ∧ buffer_of r = Some p ∧ sent ++ pending r = omap from_bytes xs.*2.
Proof.
  intros Hxs Hp Heq.
  destruct (feed_all_ok frame answer4 feed
    (λ xs p st, buffer_of st.1 = Some p ∧ st.2 ++ pending st.1 = omap from_bytes xs.*2 ∧ partial p) frame_complete)
    with (done := @nil (SocketAddr * bytes)) (p0 := @nil Z) (s := (Reading [], @nil Message)) (chunks := chunks) (xs := xs) (p := p)
    as ([r ms] & Hk & Hb & Hm & _); try done; [|split_and!; try done; by left|by left|by eauto].
  intros done p0 [r ms] chunk ys p1 (Hb & Hm & Hp0) Hys Hp1 Hch. cbn [fst snd] in *. unfold feed.
  destruct chunk as [|x chunk].
  - rewrite app_nil_r in Hch. exists (r, ms). split; [done|]. destruct Hys as [|y ys Hy Hys].
    + rewrite app_nil_r. change (frames [] ++ p1) with p1 in Hch. by subst p0.
    + exfalso. rewrite encode_cons, <-app_assoc in Hch. subst p0. by apply frame_complete in Hp0.
  - cbn [fst snd]. rewrite Hb. unfold on_trust_read. rewrite Hch.
    rewrite relay_receive_ok by (try done; rewrite length_app; pose proof (length_frames ys); lia).
    cbn [mbind option_bind]. eexists. split; [done|]. cbn [fst snd]. rewrite fmap_app, omap_app, <-Hm.
    by destruct (omap from_bytes ys.*2) as [|m ms'].
Qed.

End MobileDns.

(** ** Relay and server together *)

Section EndToEnd.
Context {Oct : Ipv6FromBytes} {D : DnsProto} {R : DnsRecords D} `{!DnsProtoOk D} `{!DnsRecordsOk D R}.
Context (S : Opts) `{!OptsOk S} (lookup : bytes → Z → option (list SocketAddr)).
Context (lookup_host : nat → bytes → Z → option (list SocketAddr)) (send_to : nat → bool).
Context (sends : ∀ k, send_to k = true) (trusted_addr : SocketAddr) (blocked_domains : gset bytes).

(** [udp_header] of [async_run] in [src/mobile/src-tauri/src/atun/mod.rs], for the
    server's password. *)
Definition udp_header : bytes := MobileProto.TrojanRequest.generate UDP_ASSOCIATE (get_pass S) AWinUdp.empty.


End EndToEnd.
End MobileDns.

(** ** Examples *)

Module MobileDnsWitness.
Import MobileDns.
Import DnsWitness.
#[local] Existing Instance Witness.from_bytes.
#[local] Existing Instance Witness.from_bytes_ok.
#[local] Existing Instance Witness.opts_ok.
#[local] Existing Instance DnsWitness.proto.
#[local] Existing Instance DnsWitness.proto_ok.

#[local] Instance records : DnsRecords proto := {
  set_ttl r ttl := (ttl, r.2);
  answers_mut f m := mkMessage (m_id m) (m_questions m) (f <$> m_answers m)
}.

#[local] Instance records_ok : DnsRecordsOk proto records.
Proof. by split. Qed.

Abbreviation opts := Witness.opts.
Definition blocked : gset bytes := {[ [120; DOT; 121] ]}.
Definition header : bytes := udp_header opts.

Abbreviation reach := (reachable header safe blocked).
Abbreviation ask := (λ s source data, or_dead s (on_query safe blocked s 0 source data WriteOk WriteOk)).
Abbreviation take_answer := (λ s now m, or_dead s (on_response header s now (Answer m) true None)).

Definition key_xy : bytes := xy ++ [BAR; 1].
Definition query1 : bytes := [7; 1] ++ xy.
Definition query2 : bytes := [9; 1; 122; DOT].
(** An answer for "x.y.", which the small parser cannot read from a datagram with
    a longer name, and one for "z.". *)
Definition answer_z : bytes := [9; 1; 60; 5; 6; 7; 8; 122].

Definition begun : t := mk Running ∅ [] [mkConn [header] false (Reading [])] [mkConn [] false (Reading [])] [] [].
(** Both clients ask. *)
Definition asking : t := ask (ask begun client1 query1) client2 query2.

Lemma begun_reachable : reach begun.
Proof. exists begun. split; [by exists true, (Some WriteOk)|done]. Qed.

Lemma step_reachable s s' : reach s → step header safe blocked s s' → reach s'.
Proof. intros (s0 & H0 & Hr) Hs. exists s0. split; [done|]. by eapply rtc_r. Qed.

Lemma asking_reachable : reach asking.
Proof.
  eapply step_reachable; [eapply step_reachable; [exact begun_reachable|]|];
    apply (step_query _ _ _ 0); by vm_compute.
Qed.

(** The distrusted resolver answers. *)
Definition message_z : Message := mkMessage 9 [(1, [122; DOT])] [(60, V4 [5; 6; 7; 8])].
Definition answered : t := take_answer asking 0 message_z.

Lemma answered_reachable : reach answered.
Proof.
  destruct asking_reachable as (s0 & H0 & Hr). exists s0. split; [done|]. etrans; [exact Hr|].
  by apply (datagram_taken header safe blocked asking (mkConn [query2] false (Reading [])) [] answer_z message_z 0 true None).
Qed.

Lemma one_connection_per_resolver_witness :
  ∃ c old, conns true asking = c :: old ∧ Forall (λ c, reader_of c = Left) old
    ∧ (main_of asking = Running → reports true (queue asking) = if left_ (reader_of c) then 1%nat else 0%nat).
Proof. apply (one_connection_per_resolver header safe blocked asking true), asking_reachable. Defined.

Lemma questions_answered_or_waiting_witness :
  ∃ done, asked answered ≡ₚ done ++ waiting (dns_store answered) ∧ Forall2 answers_question done (out answered)
    ∧ length (asked answered) = 2%nat ∧ length (out answered) = 1%nat.
Proof.
  destruct (questions_answered_or_waiting header safe blocked answered) as (done & Hp & Hf).
  - apply answered_reachable.
  - by vm_compute.
  - exists done. split_and!; [exact Hp|exact Hf|by vm_compute..].
Defined.

Lemma relay_splits_questions_witness :
  (∀ c, c ∈ trusts asking → shut c = false →
     ∃ ds, mjoin (pieces c) = header ++ Framing.encode UdpBackend.packet ((λ d, (d, safe)) <$> ds)
       ∧ Forall (λ d, ∃ name, question_for name d ∧ is_blocked blocked name = true) ds)
  ∧ ∀ c d, c ∈ distrusts asking → d ∈ pieces c → ∃ name, question_for name d ∧ is_blocked blocked name = false.
Proof. apply (relay_splits_questions header safe blocked asking), asking_reachable. Defined.

Definition asked_z : Message := mkMessage 5 [(1, [122; DOT])] [].
Definition query_z : bytes := [5; 1; 122; DOT].
Definition asked_again : t := or_dead answered (on_query safe blocked answered (secs 20) client1 query_z WriteOk WriteOk).

Lemma answers_are_cached_witness :
  ∃ d m' ttl, out asked_again = out answered ++ [(client1, d)] ∧ to_vec m' = Some d
    ∧ get_message_key m' = Some ([122; DOT; BAR; 1]) ∧ msg_id m' = 5
    ∧ answers m' = (λ r, set_ttl r ttl) <$> [(60, V4 [5; 6; 7; 8])] ∧ 0 <= ttl <= 60
    ∧ if decide (secs 20 < 0 + secs 60) then trusts asked_again = trusts answered ∧ distrusts asked_again = distrusts answered
      else ttl = 0
        ∧ if is_blocked blocked [122; DOT]
          then trusts asked_again = on_head (ask_trusted safe query_z WriteOk WriteOk) (trusts answered)
            ∧ distrusts asked_again = distrusts answered
          else distrusts asked_again = on_head (ask_distrusted query_z) (distrusts answered)
            ∧ trusts asked_again = trusts answered.
Proof.
  apply (answers_are_cached header safe blocked asking 0 message_z (60, V4 [5; 6; 7; 8]) [] true None answered answered
    (secs 20) client1 query_z WriteOk WriteOk asked_z (1, [122; DOT]) [122; DOT; BAR; 1] asked_again); try done.
Defined.

(** A client sends [answer_z] as its query; another asks for "z.". *)
Definition misled : t := ask begun client1 answer_z.

Lemma query_answers_itself_witness :
  ∃ d reply, out (ask misled client2 query_z) = out misled ++ [(client2, d)] ∧ to_vec reply = Some d ∧ msg_id reply = 5
    ∧ rr_ttl <$> answers reply = replicate 1 0 ∧ length (answers reply) = 1%nat
    ∧ answers reply = (λ r, set_ttl r 0) <$> ((λ r, set_ttl r 0) <$> answers message_z).
Proof.
  apply (query_answers_itself safe blocked begun 0 client1 answer_z WriteOk WriteOk message_z (1, [122; DOT])
    [122; DOT; BAR; 1] misled 0 client2 query_z WriteOk WriteOk asked_z (1, [122; DOT])); done.
Defined.

Lemma any_answer_is_believed_witness :
  ∃ s', rtc (step header safe blocked) asking s' ∧ main_of s' = Running
    ∧ dns_store s' = <[[122; DOT; BAR; 1] := DnsItem.mk message_z (secs 60) []]> (dns_store asking)
    ∧ answers (DnsItem.message (DnsItem.mk message_z (secs 60) [])) = answers message_z
    ∧ DnsItem.clients (DnsItem.mk message_z (secs 60) []) = [] ∧ out s' = out asking ++ [(client2, [9; 1; 122; DOT; 60; 5; 6; 7; 8])]
    ∧ Forall2 answers_question
        (tagged [122; DOT; BAR; 1] (DnsItem.clients (default (DnsItem.new 0 message_z) (dns_store asking !! [122; DOT; BAR; 1]))))
        [(client2, [9; 1; 122; DOT; 60; 5; 6; 7; 8])].
Proof.
  by apply (any_answer_is_believed header safe blocked asking (mkConn [query2] false (Reading [])) [] answer_z message_z
    [122; DOT; BAR; 1] 0).
Defined.

Lemma questionless_answer_ends_relay_witness :
  ∃ s', rtc (step header safe blocked) asking s' ∧ ∀ s'', rtc (step header safe blocked) s' s'' →
    main_of s'' = Dead ∧ out s'' = out asking ∧ asked s'' = asked asking.
Proof.
  by apply (questionless_answer_ends_relay header safe blocked asking (mkConn [query2] false (Reading [])) [] [5]
    (mkMessage 5 [] [])).
Defined.

(** Two answers in two pieces, and the beginning of a third. *)
Definition answer1 : SocketAddr * bytes := (safe, answer_z).
Definition answer2 : SocketAddr * bytes := (safe, []).
Definition stream_of_answers : bytes := Framing.encode frame [answer1; answer2] ++ [IPV4].

Lemma relay_answer_ok a : bool_decide (wf_sa a.1) = true → is_ipv4 (sa_ip a.1) = true →
  (length a.2 <=? MobileProto.MAX_PACKET_SIZE)%nat = true → answer4 a.
Proof. intros H1%bool_decide_eq_true H2 H3%Nat.leb_le. by split. Qed.

Lemma trusted_answers_reassemble_witness :
  ∃ r sent, feed_all feed (Reading [], []) [take 5 stream_of_answers; drop 5 stream_of_answers] = Some (r, sent)
    ∧ buffer_of r = Some [IPV4] ∧ sent ++ pending r = [message_z].
Proof.
  change [message_z] with (omap from_bytes [answer1; answer2].*2).
  apply (trusted_answers_reassemble [take 5 stream_of_answers; drop 5 stream_of_answers] [answer1; answer2] [IPV4]).
  - repeat apply Forall_cons_2; [by apply relay_answer_ok; vm_compute..|by apply Forall_nil_2].
  - right. exists answer1. split; [by apply relay_answer_ok; vm_compute|].
    split; [|done]. by exists (drop 1 (frame answer1)).
  - by vm_compute.
Defined.

Definition no_lookup (d : bytes) (p : Z) : option (list SocketAddr) := None.
Definition connection : conn := mkConn [header; UdpAssociate.generate safe 6; query1] false (Reading []).
Definition written_pieces : list bytes := [take 9 (mjoin (pieces connection)); drop 9 (mjoin (pieces connection))].

End MobileDnsWitness.
