(* ===== verification/TunDns.v ===== *)
(** * The DNS server of the mobile tunnel on an event loop
    ([src/mobile/src-tauri/src/tun/dns.rs])

    The event-loop variant of [MobileDns]: one object that the loop calls once per
    turn serves the socket of the tunnel's DNS address, a TLS connection to the
    server for the trusted resolver and a plain socket for the distrusted one.  The
    connection is any [TlsStream.Remote], the socket of the tunnel one of
    [Smoltcp], the plain socket one of [Env].  [None] is a panic or exhausted
    fuel; the clock is read once per call. *)

From Stdlib Require Import ZArith Lia.
From stdpp Require Import base option list gmap sets.
From S2P Require Import Prelude Framing Net Config Proto Env TcpUtil TlsStream Smoltcp.
From S2P Require Import TlsConn Domain WinUdp DnsServer AWinUdp MobileProto MobileDns.

Open Scope Z_scope.
Open Scope rust_scope.

Module TunDns.
Section TunDns.
Context {E : Env} {R : Type} {Rem : Remote R} {Stk : Smoltcp} {Oct : Ipv6FromBytes} {D : DnsProto}.
#[local] Existing Instance remote_rw.
(** What [new] is passed, the room of a read buffer, and the connection a new TLS
    session is made on ([TcpStream::connect], [ClientConnection::new]). *)
Context (trusted_addr untrusted_addr : SocketAddr) (dns_cache_time : Z) (mtu : nat) (pass : bytes).
Context (spare : bytes → nat) (connect : OS → option R * OS).

Record QueryResult : Type := mkQueryResult {
  addresses : list (SocketAddr * Z);
  response : option Message;
  expire_time : Z
}.

Record t : Type := mk {
  trusted : R;
  trusted_rbuffer : bytes;
  trusted_lbuffer : bytes;
  blocked_domains : gset bytes;
  store : gmap bytes QueryResult;
  untrusted : Env.UdpSocket;
  net : OS
}.

Definition with_trusted (s : t) (r : R) (rb lb : bytes) : t :=
  mk r rb lb (blocked_domains s) (store s) (untrusted s) (net s).
Definition with_store (s : t) (m : gmap bytes QueryResult) : t :=
  mk (trusted s) (trusted_rbuffer s) (trusted_lbuffer s) (blocked_domains s) m (untrusted s) (net s).
Definition with_untrusted (s : t) (u : Env.UdpSocket) : t :=
  mk (trusted s) (trusted_rbuffer s) (trusted_lbuffer s) (blocked_domains s) (store s) u (net s).
Definition with_blocked (s : t) (b : gset bytes) : t :=
  mk (trusted s) (trusted_rbuffer s) (trusted_lbuffer s) b (store s) (untrusted s) (net s).
(** The network is the program's: other parts use it between the calls. *)
Definition with_net (s : t) (o : OS) : t :=
  mk (trusted s) (trusted_rbuffer s) (trusted_lbuffer s) (blocked_domains s) (store s) (untrusted s) o.

(** ** Set-up *)

(** "0.0.0.0:0" *)
Definition empty_addr : SocketAddr := mkSocketAddr (V4 [0; 0; 0; 0]) 0.
Definition request : bytes := MobileProto.TrojanRequest.generate UDP_ASSOCIATE pass empty_addr.

Definition new_tls_conn (o : OS) : option R * OS :=
  let '(c, o) := connect o in
  match c with
  | None => (None, o)
  | Some conn =>
      let '(r, conn) := rw_write conn request in
      (if io_is_ok r then Some conn else None, o)
  end.

(** The [Err] of the source is [None] inside. *)
Definition new (blocked : gset bytes) (o : OS) : option t :=
  let '(c, o) := new_tls_conn o in
  trusted ← c;
  let '(u, o) := Env.udp_bind o empty_addr in
  untrusted ← u;
  Some (mk trusted [] [] blocked ∅ untrusted o).

Definition add_domain (s : t) (domain : bytes) : t := with_blocked s ({[domain]} ∪ blocked_domains s).
Definition del_domain (s : t) (domain : bytes) : t := with_blocked s (blocked_domains s ∖ {[domain]}).

(** ** The connection to the trusted resolver *)

(** [unwrap] panics when there is no new connection. *)
Definition reset_trusted (s : t) : option t :=
  let '(c, o) := new_tls_conn (net s) in
  trusted ← c;
  Some (mk trusted [] [] (blocked_domains s) (store s) (untrusted s) o).

Definition flush_trusted (s : t) : bool * t :=
  let '(r, conn) := remote_flush (trusted s) in
  (match r with IoErr WouldBlock | IoOk _ => true | IoErr _ => false end,
   with_trusted s conn (trusted_rbuffer s) (trusted_lbuffer s)).

(** The part of [query_trusted] after the rest of the last request; the loop over
    header and body and what is kept are those of [WinUdp]. *)
Definition write_query (s : t) (body : bytes) : option (bool * t) :=
  let header := UdpAssociate.generate trusted_addr (wrap 16 (Z.of_nat (length body))) in
  '(r, offset, data, conn) ←
    WinUdpConn.write_loop (S (S (length header + length body))) header body (trusted s) header 0;
  match r with
  | WinUdpConn.WriteBroken => s ← reset_trusted (with_trusted s conn (trusted_rbuffer s) (trusted_lbuffer s)); Some (false, s)
  | _ =>
      let lbuffer := WinUdpConn.cache_rest header body (trusted_lbuffer s) data offset in
      Some (flush_trusted (with_trusted s conn (trusted_rbuffer s) lbuffer))
  end.

Definition query_trusted (s : t) (body : bytes) : option (bool * t) :=
  match trusted_lbuffer s with
  | [] => write_query s body
  | _ =>
      '(r, conn, rest) ← send_all (trusted s) (trusted_lbuffer s);
      let s := with_trusted s conn (trusted_rbuffer s) rest in
      match r with
      | COk true => write_query s body
      | COk false => let '(_, s) := flush_trusted s in Some (false, s)
      | CErr _ => s ← reset_trusted s; Some (false, s)
      end
  end.

(** ** Questions *)

Definition get_message_key (message : Message) : option bytes := MobileDns.get_message_key message.
Definition is_blocked (s : t) (name : bytes) : bool := MobileDns.is_blocked (blocked_domains s) name.

Definition add_request (now : Z) (s : t) (name : bytes) (address : SocketAddr) (id : Z) : t :=
  let result := default (mkQueryResult [] None (now + secs dns_cache_time)) (store s !! name) in
  with_store s (<[name := mkQueryResult (addresses result ++ [(address, id)]) (response result) (expire_time result)]> (store s)).

(** The lookup in the cache: the flags are [renew] and [respond]. *)
Definition try_cache (now : Z) (s : t) (listener : Smoltcp.UdpSocket) (key : bytes) (message : Message)
    (endpoint : SocketAddr) : option (bool * bool * t * Smoltcp.UdpSocket) :=
  match store s !! key with
  | Some (mkQueryResult addrs (Some response) expire) =>
      let response := set_id response (msg_id message) in
      data ← to_vec response;
      let '(_, listener) := udp_send_slice listener data endpoint in
      Some (expire <=? now, false, with_store s (<[key := mkQueryResult addrs (Some response) expire]> (store s)), listener)
  | _ => Some (true, true, s, listener)
  end.

Definition send_untrusted (s : t) (data : bytes) : bool * t :=
  let '(r, u) := Env.udp_send_to (untrusted s) data untrusted_addr in (io_is_ok r, with_untrusted s u).

(** One datagram of [do_request]. *)
Definition handle_request (now : Z) (s : t) (listener : Smoltcp.UdpSocket) (data : bytes) (endpoint : SocketAddr) :
    option (t * Smoltcp.UdpSocket) :=
  match from_bytes data with
  | None => Some (s, listener)
  | Some message =>
      if negb (query_count message =? 1)%nat then Some (s, listener)
      else
        query ← head (queries message);
        let name := to_utf8 (query_name query) in
        key ← get_message_key message;
        '(renew, respond, s, listener) ← try_cache now s listener key message endpoint;
        if negb renew then Some (s, listener)
        else
          '(ok, s) ← (if is_blocked s name then query_trusted s data else Some (send_untrusted s data));
          Some (if (ok && respond : bool) then add_request now s key endpoint (msg_id message) else s, listener)
  end.

Fixpoint do_request (fuel : nat) (now : Z) (s : t) (listener : Smoltcp.UdpSocket) : option (t * Smoltcp.UdpSocket) :=
  match fuel with
  | O => None
  | S fuel =>
      let '(r, listener) := udp_recv_slice listener mtu in
      match r with
      | None => Some (s, listener)
      | Some (data, endpoint) =>
          '(s, listener) ← handle_request now s listener data endpoint;
          do_request fuel now s listener
      end
  end.

(** ** Answers *)

(** The loop over the clients that wait. *)
Definition answer_one (acc : option (Message * Smoltcp.UdpSocket)) (client : SocketAddr * Z)
  : option (Message * Smoltcp.UdpSocket) :=
  '(message, listener) ← acc;
  let '(address, id) := client in
  let message := set_id message id in
  data ← to_vec message;
  Some (message, (udp_send_slice listener data address).2).

Definition dispatch_message (now : Z) (s : t) (message : Message) (listener : Smoltcp.UdpSocket) :
    option (t * Smoltcp.UdpSocket) :=
  name ← get_message_key message;
  let message := clear_header (take_name_servers (take_additionals message)) in
  match store s !! name with
  | Some result =>
      '(message, listener) ← foldl answer_one (Some (message, listener)) (addresses result);
      let timeout := foldl (λ _ record, rr_ttl record) 0 (answers message) in
      Some (with_store s (<[name := mkQueryResult [] (Some message) (now + secs timeout)]> (store s)), listener)
  | None => Some (s, listener)
  end.

(** The inner loop of [do_trusted_response]: it ends with the rest or with a
    protocol error. *)
Fixpoint drain (fuel : nat) (now : Z) (s : t) (listener : Smoltcp.UdpSocket) (buffer : bytes) :
    option (option bytes * t * Smoltcp.UdpSocket) :=
  match fuel with
  | O => None
  | S fuel =>
      r ← MobileProto.UdpAssociate.parse_endpoint buffer;
      match r with
      | UdpAssociate.ContinuedEndpoint => Some (Some buffer, s, listener)
      | UdpAssociate.PacketEndpoint packet =>
          payload ← (UdpAssociate.e_payload packet).[upto UdpAssociate.e_length packet];
          '(s, listener) ← match from_bytes payload with
                           | Some message => dispatch_message now s message listener
                           | None => Some (s, listener)
                           end;
          rest ← (UdpAssociate.e_payload packet).[from UdpAssociate.e_length packet];
          drain fuel now s listener rest
      | UdpAssociate.InvalidProtocolEndpoint => Some (None, s, listener)
      end
  end.

Fixpoint do_trusted_response (fuel : nat) (now : Z) (s : t) (listener : Smoltcp.UdpSocket) :
    option (t * Smoltcp.UdpSocket) :=
  match fuel with
  | O => None
  | S fuel =>
      let '(r, conn, buffer) := read_once spare (trusted s) (trusted_rbuffer s) in
      let s := with_trusted s conn buffer (trusted_lbuffer s) in
      match r with
      | COk false => Some (s, listener)
      | CErr _ => s ← reset_trusted s; Some (s, listener)
      | COk true =>
          '(r, s, listener) ← drain (S (length buffer)) now s listener buffer;
          match r with
          | Some rest => do_trusted_response fuel now (with_trusted s (trusted s) rest (trusted_lbuffer s)) listener
          | None => s ← reset_trusted s; Some (s, listener)
          end
      end
  end.

(** The buffer has the size of the [mtu]. *)
Fixpoint do_untrusted_response (fuel : nat) (now : Z) (s : t) (listener : Smoltcp.UdpSocket) :
    option (t * Smoltcp.UdpSocket) :=
  match fuel with
  | O => None
  | S fuel =>
      let '(r, u) := Env.udp_recv_from (untrusted s) mtu in
      let s := with_untrusted s u in
      match r with
      | IoErr _ => Some (s, listener)
      | IoOk (data, _) =>
          '(s, listener) ← match from_bytes data with
                           | Some message => dispatch_message now s message listener
                           | None => Some (s, listener)
                           end;
          do_untrusted_response fuel now s listener
      end
  end.

Definition ready (fuel : nat) (now : Z) (s : t) (listener : Smoltcp.UdpSocket) : option (t * Smoltcp.UdpSocket) :=
  '(s, listener) ← do_request fuel now s listener;
  '(s, listener) ← do_trusted_response fuel now s listener;
  do_untrusted_response fuel now s listener.

(** ** Invariant *)

Context {K : EnvOk E} {Law : LawfulRemote R} {Obs : Observed Stk} {Sk : SmoltcpOk Stk}.
#[local] Existing Instance lawful_rw.
Context {Rec : DnsRecords D} `{!DnsProtoOk D} `{!DnsRecordsOk D Rec}.
(** The header's flags are not part of the question. *)
Context (clear_header_queries : ∀ m, queries (clear_header m) = queries m).

(** What the server has received on the socket of the tunnel. *)
Definition seen (l : Smoltcp.UdpSocket) : list (bytes * SocketAddr) := take (udp_read l) (udp_rx l).
Definition has_asked (l : Smoltcp.UdpSocket) (key : bytes) (a : SocketAddr) (id : Z) : Prop :=
  ∃ d m, (d, a) ∈ seen l ∧ from_bytes d = Some m ∧ get_message_key m = Some key ∧ msg_id m = id.

(** The clients that wait have asked; cached answers are about their key. *)
Definition well_kept (s : t) (l : Smoltcp.UdpSocket) : Prop :=
  map_Forall (λ key r, (∀ a id, (a, id) ∈ addresses r → has_asked l key a id)
    ∧ (∀ m, response r = Some m → get_message_key m = Some key)) (store s).

(** Every answer that was sent is about a question its receiver has asked, and has
    its identifier. *)
Definition replies_ok (l : Smoltcp.UdpSocket) : Prop :=
  ∀ d a, (d, a) ∈ udp_tx l → ∃ m key, to_vec m = Some d ∧ get_message_key m = Some key ∧ has_asked l key a (msg_id m).

(** The distrusted resolver has been sent only questions for names that are not
    blocked, as far as the system sent them. *)
Definition open_only (s : t) : Prop :=
  ∀ d a, (d, a) ∈ datagrams (untrusted s) →
    a = untrusted_addr ∧ ∃ q name n, d = take n q ∧ MobileDns.question_for name q ∧ is_blocked s name = false.

Definition inv (s : t) (l : Smoltcp.UdpSocket) : Prop := well_kept s l ∧ replies_ok l ∧ open_only s.

(** When the server panics. *)
Definition panics : Prop :=
  (∃ d m, from_bytes d = Some m ∧ queries m = []) ∨ (∃ m, to_vec m = None)
  ∨ (∃ o, (new_tls_conn o).1 = None) ∨ ∃ b, MobileProto.UdpAssociate.parse_endpoint b = None.

Lemma has_asked_mono l l' key a id : (∀ x, x ∈ seen l → x ∈ seen l') → has_asked l key a id → has_asked l' key a id.
Proof. intros H (d & m & Hd & Hm). exists d, m. auto. Qed.

Lemma well_kept_mono s l l' : (∀ x, x ∈ seen l → x ∈ seen l') → well_kept s l → well_kept s l'.
Proof.
  intros H Hs key r Hr. destruct (Hs key r Hr) as [Ha Hm]. split; [|done]. intros a id Hin. by eapply has_asked_mono, Ha.
Qed.

Lemma well_kept_insert s l key r :
  well_kept s l → (∀ a id, (a, id) ∈ addresses r → has_asked l key a id) →
  (∀ m, response r = Some m → get_message_key m = Some key) → well_kept (with_store s (<[key := r]> (store s))) l.
Proof. intros Hs Ha Hm. by apply map_Forall_insert_2. Qed.

Lemma open_only_ext s s' :
  datagrams (untrusted s') = datagrams (untrusted s) → blocked_domains s' = blocked_domains s → open_only s → open_only s'.
Proof. unfold open_only, is_blocked. by intros -> ->. Qed.

(** An answer goes out. *)
Lemma send_reply l d a b l' m key :
  udp_send_slice l d a = (b, l') → replies_ok l → to_vec m = Some d → get_message_key m = Some key →
  has_asked l key a (msg_id m) → replies_ok l' ∧ seen l' = seen l.
Proof.
  intros (Hrx & Hrd & _ & Htx)%udp_send_spec Hr Hd Hm Ha.
  assert (seen l' = seen l) as Hs by (unfold seen; by rewrite Hrx, Hrd). split; [|done].
  assert (∀ key a id, has_asked l key a id → has_asked l' key a id) as Hmono.
  { intros ???. apply has_asked_mono. by rewrite Hs. }
  intros d1 a1 Hin. rewrite Htx in Hin. destruct b.
  - apply elem_of_app in Hin as [Hin|[= -> ->]%list_elem_of_singleton].
    + destruct (Hr _ _ Hin) as (m1 & k1 & ? & ? & ?). exists m1, k1. auto.
    + exists m, key. auto.
  - destruct (Hr _ _ Hin) as (m1 & k1 & ? & ? & ?). exists m1, k1. auto.
Qed.

Lemma set_id_key m id : get_message_key (set_id m id) = get_message_key m.
Proof. apply MobileDns.key_queries, set_id_queries. Qed.

Lemma answer_one_none cs : foldl answer_one None cs = None.
Proof. by induction cs. Qed.

Lemma answer_loop cs m l key :
  replies_ok l → get_message_key m = Some key → (∀ a id, (a, id) ∈ cs → has_asked l key a id) →
  match foldl answer_one (Some (m, l)) cs with
  | Some (m', l') => replies_ok l' ∧ seen l' = seen l ∧ get_message_key m' = Some key
  | None => ∃ m, to_vec m = None
  end.
Proof.
  revert m l. induction cs as [|[a id] cs IH]; intros m l Hl Hm Ha; [done|]. cbn [foldl].
  unfold answer_one at 2. cbn [mbind option_bind]. destruct (to_vec (set_id m id)) as [d|] eqn:Hd; cbn [mbind option_bind].
  2: { rewrite answer_one_none. by eexists. }
  destruct (udp_send_slice l d a) as [b l1] eqn:Hs. cbn [snd].
  destruct (send_reply l d a b l1 (set_id m id) key Hs) as [Hl1 Hs1]; [done|done|by rewrite set_id_key|rewrite set_id_id; apply Ha; by left|].
  specialize (IH (set_id m id) l1 Hl1). rewrite set_id_key in IH.
  assert (∀ a id, (a, id) ∈ cs → has_asked l1 key a id) as Ha1.
  { intros a1 id1 Hin. eapply has_asked_mono; [|apply Ha; by right]. by rewrite Hs1. }
  specialize (IH Hm Ha1). destruct (foldl _ _ _) as [[m' l']|]; [|done]. destruct IH as (? & Hs2 & ?). by rewrite Hs2, Hs1.
Qed.

(** A message of a resolver. *)
Lemma dispatch_message_ok now s m l :
  inv s l →
  match dispatch_message now s m l with
  | Some (s', l') => inv s' l' ∧ seen l' = seen l ∧ s' = with_store s (store s')
  | None => queries m = [] ∨ ∃ m, to_vec m = None
  end.
Proof.
  intros (Hk & Hr & Ho). unfold dispatch_message.
  destruct (get_message_key m) as [key|] eqn:Hm; cbn [mbind option_bind].
  2: { left. unfold get_message_key, MobileDns.get_message_key in Hm. by destruct (queries m). }
  set (m1 := clear_header _).
  assert (get_message_key m1 = Some key) as Hm1.
  { rewrite <-Hm. apply MobileDns.key_queries. unfold m1.
    by rewrite clear_header_queries, take_name_servers_queries, take_additionals_queries. }
  destruct (store s !! key) as [r|] eqn:Hs; [|by destruct s].
  destruct (Hk _ _ Hs) as [Ha _]. pose proof (answer_loop (addresses r) m1 l key Hr Hm1 Ha) as Hl.
  destruct (foldl answer_one _ _) as [[m' l']|]; cbn [mbind option_bind]; [|by right].
  destruct Hl as (Hr' & Hs' & Hm'). split; [|done]. split; [|by split].
  apply well_kept_insert; [|by intros ?? ?%not_elem_of_nil|by intros ? [= <-]].
  eapply well_kept_mono; [|exact Hk]. by rewrite Hs'.
Qed.

Lemma dispatch_payload_ok now s d l :
  inv s l →
  match (match from_bytes d with Some m => dispatch_message now s m l | None => Some (s, l) end) with
  | Some (s', l') => inv s' l' ∧ seen l' = seen l ∧ s' = with_store s (store s')
  | None => panics
  end.
Proof.
  intros Hi. destruct (from_bytes d) as [m|] eqn:Hm; [|by destruct s].
  pose proof (dispatch_message_ok now s m l Hi) as H. destruct (dispatch_message _ _ _ _) as [[]|]; [done|].
  destruct H as [H|H]; [left; by exists d, m|by right; left].
Qed.

(** ** Questions *)

(** Only the connection to the trusted resolver changes. *)
Definition same_but_trusted (s s' : t) : Prop :=
  blocked_domains s' = blocked_domains s ∧ store s' = store s ∧ untrusted s' = untrusted s.

Lemma tun_dns_inv_same s s' l : same_but_trusted s s' → inv s l → inv s' l.
Proof.
  intros (Hb & Hs & Hu) (Hk & Hr & Ho). split_and!; [unfold well_kept; by rewrite Hs|done|].
  by apply (open_only_ext s); [rewrite Hu|..].
Qed.

Lemma reset_trusted_ok s :
  match reset_trusted s with Some s' => same_but_trusted s s' ∧ trusted_lbuffer s' = [] ∧ trusted_rbuffer s' = [] | None => panics end.
Proof.
  unfold reset_trusted. destruct (new_tls_conn (net s)) as [[c|] o] eqn:Hn; cbn [mbind option_bind]; [done|].
  right; right; left. exists (net s). by rewrite Hn.
Qed.

Lemma flush_trusted_same s : same_but_trusted s (flush_trusted s).2.
Proof. unfold flush_trusted. by destruct (remote_flush (trusted s)). Qed.

(** What the loop over header and body leaves, and what is kept of the question. *)
Lemma write_query_eq s body :
  let header := UdpAssociate.generate trusted_addr (wrap 16 (Z.of_nat (length body))) in
  ∃ n r', (n <= length header + length body)%nat
    ∧ rw_accepted r' = rw_accepted (trusted s) ++ take n (header ++ body)
    ∧ (write_query s body = Some (flush_trusted (with_trusted s r' (trusted_rbuffer s)
         (WinUdpConn.cache_rest header body (trusted_lbuffer s) (WinUdpConn.segment header body n) n)))
       ∨ write_query s body = (s ← reset_trusted (with_trusted s r' (trusted_rbuffer s) (trusted_lbuffer s)); Some (false, s))).
Proof.
  intros header. unfold write_query. fold header.
  destruct (WinUdpConn.write_loop_spec (S (S (length header + length body))) header body (trusted s) 0)
    as (w & n & r' & Hw & Hn & Hacc & _); [lia..|].
  assert (WinUdpConn.segment header body 0 = header) as Hs.
  { unfold WinUdpConn.segment. destruct (Nat.ltb_spec 0 (length header)) as [|H0]; [done|].
    unfold header, UdpAssociate.generate in H0. rewrite !length_app, length_u16_be in H0. lia. }
  rewrite Hs in Hw. rewrite Hw. cbn [mbind option_bind]. exists n, r'. split; [lia|]. split.
  - apply Hacc. by rewrite app_nil_r.
  - destruct w; [by left..|by right].
Qed.

Lemma write_query_ok s body :
  match write_query s body with Some (_, s') => same_but_trusted s s' | None => panics end.
Proof.
  destruct (write_query_eq s body) as (n & r' & _ & _ & [-> | ->]).
  - match goal with |- context [flush_trusted ?x] => pose proof (flush_trusted_same x) as Hf; by destruct (flush_trusted x) end.
  - pose proof (reset_trusted_ok (with_trusted s r' (trusted_rbuffer s) (trusted_lbuffer s))) as Hr.
    destruct (reset_trusted _); [|done]. by destruct Hr.
Qed.

Lemma query_trusted_ok s body :
  match query_trusted s body with Some (_, s') => same_but_trusted s s' | None => panics end.
Proof.
  unfold query_trusted. destruct (trusted_lbuffer s) as [|x lb] eqn:Hl; [apply write_query_ok|]. rewrite <-Hl.
  destruct (send_all_total spare (trusted s) (trusted_lbuffer s)) as (r & c & b & -> & _). cbn [mbind option_bind].
  set (s1 := with_trusted s c (trusted_rbuffer s) b). destruct r as [[]|e].
  - pose proof (write_query_ok s1 body) as H. by destruct (write_query s1 body) as [[]|].
  - pose proof (flush_trusted_same s1) as H. by destruct (flush_trusted s1).
  - pose proof (reset_trusted_ok s1) as H. destruct (reset_trusted s1); [|done]. by destruct H.
Qed.

Lemma send_untrusted_ok s data name :
  MobileDns.question_for name data → is_blocked s name = false → open_only s →
  open_only (send_untrusted s data).2 ∧ store (send_untrusted s data).2 = store s.
Proof.
  intros Hq Hb Ho. unfold send_untrusted. destruct (udp_send_to (untrusted s) data untrusted_addr) as [r u] eqn:Hs.
  split; [|done]. cbn [snd]. destruct r as [n|k].
  - apply udp_send_ok in Hs as [_ Hd]. intros d a Hin. cbn in Hin. rewrite Hd in Hin.
    apply elem_of_app in Hin as [Hin|[= -> ->]%list_elem_of_singleton]; [by apply Ho in Hin|].
    split; [done|]. by exists data, name, n.
  - apply udp_send_err in Hs. by apply (open_only_ext s).
Qed.

Lemma try_cache_ok now s l key m a :
  inv s l → has_asked l key a (msg_id m) →
  match try_cache now s l key m a with
  | Some (_, _, s', l') => inv s' l' ∧ seen l' = seen l ∧ udp_rx l' = udp_rx l ∧ udp_read l' = udp_read l ∧ s' = with_store s (store s')
  | None => ∃ m, to_vec m = None
  end.
Proof.
  intros Hi Ha. unfold try_cache. destruct (store s !! key) as [[addrs [resp|] expire]|] eqn:Hs; [|by destruct s..].
  destruct (to_vec (set_id resp (msg_id m))) as [d|] eqn:Hd; cbn [mbind option_bind]; [|by eexists].
  destruct Hi as (Hk & Hr & Ho). destruct (Hk _ _ Hs) as [Haddr Hresp]. specialize (Hresp resp eq_refl).
  destruct (udp_send_slice l d a) as [b l'] eqn:Hsend. pose proof Hsend as (Hrx & Hrd & _ & _)%udp_send_spec.
  destruct (send_reply l d a b l' _ key Hsend Hr Hd) as [Hr' Hs']; [by rewrite set_id_key|by rewrite set_id_id|].
  split; [|done]. split; [|by split]. apply well_kept_insert.
  - eapply well_kept_mono; [|exact Hk]. by rewrite Hs'.
  - intros a1 id Hin. apply (has_asked_mono l); [by rewrite Hs'|]. by apply Haddr.
  - intros m1 [= <-]. by rewrite set_id_key.
Qed.

Lemma add_request_ok now s l key a id : inv s l → has_asked l key a id → inv (add_request now s key a id) l.
Proof.
  intros (Hk & Hr & Ho) Ha. split; [|by split]. unfold add_request. apply well_kept_insert; [done|..]; cbn.
  - intros a1 id1 [Hin|[= -> ->]%list_elem_of_singleton]%elem_of_app; [|done].
    destruct (store s !! key) as [r|] eqn:Hs; [|by apply not_elem_of_nil in Hin]. by apply (Hk _ _ Hs).
  - intros m Hm. destruct (store s !! key) as [r|] eqn:Hs; [|done]. by apply (Hk _ _ Hs).
Qed.

(** One question: the invariant, and the socket has sent but not received. *)
Lemma handle_request_ok now s l d a :
  inv s l → (d, a) ∈ seen l →
  match handle_request now s l d a with
  | Some (s', l') => inv s' l' ∧ udp_rx l' = udp_rx l ∧ udp_read l' = udp_read l
  | None => panics
  end.
Proof.
  intros Hi Hd. unfold handle_request. destruct (from_bytes d) as [m|] eqn:Hm; [|done].
  destruct (negb _) eqn:Hn; [done|]. apply negb_false_iff in Hn.
  destruct (MobileDns.one_question m (query_count_ok _ _ Hm) Hn) as [q Hq].
  assert (∃ key, get_message_key m = Some key) as [key Hkey].
  { unfold get_message_key, MobileDns.get_message_key. rewrite Hq. by eexists. }
  assert (has_asked l key a (msg_id m)) as Ha by (by exists d, m).
  rewrite Hq, Hkey. cbn [head mbind option_bind].
  pose proof (try_cache_ok now s l key m a Hi Ha) as Hc.
  destruct (try_cache _ _ _ _ _ _) as [[[[renew resp] s1] l1]|]; cbn [mbind option_bind]; [|by right; left].
  destruct Hc as (Hi1 & Hs1 & Hrx & Hrd & Hst). destruct renew; cbn [negb]; [|done].
  assert (has_asked l1 key a (msg_id m)) as Ha1 by (apply (has_asked_mono l); [by rewrite Hs1|done]).
  assert (∀ s2 ok, inv s2 l1 → inv (if (ok && resp : bool) then add_request now s2 key a (msg_id m) else s2) l1) as Hadd.
  { intros s2 ok Hi2. destruct (ok && resp); [by apply add_request_ok|done]. }
  destruct (is_blocked s1 (to_utf8 (query_name q))) eqn:Hb.
  - pose proof (query_trusted_ok s1 d) as Hqt. destruct (query_trusted s1 d) as [[ok s2]|]; cbn [mbind option_bind]; [|done].
    split; [|done]. apply Hadd. by eapply tun_dns_inv_same.
  - destruct Hi1 as (Hk1 & Hr1 & Ho1).
    destruct (send_untrusted_ok s1 d (to_utf8 (query_name q))) as [Ho2 Hst2]; [by exists m, q|done|done|].
    destruct (send_untrusted s1 d) as [ok s2]. cbn [mbind option_bind snd] in *. split; [|done]. apply Hadd.
    split_and!; [unfold well_kept; by rewrite Hst2|done|done].
Qed.

Lemma do_request_ok now s l :
  inv s l → decided (λ fuel, do_request fuel now s l) (λ r,
    match r with Some (s', l') => inv s' l' | None => panics end).
Proof.
  remember (length (udp_rx l) - udp_read l)%nat as n eqn:Hn. revert s l Hn.
  induction n as [n IH] using lt_wf_ind. intros s l -> Hi. apply decided_S. cbn [do_request].
  destruct (udp_recv_slice l mtu) as [r l1] eqn:Hr. apply udp_recv_slice_spec in Hr as (Hrx & Htx & _ & Hr).
  assert (∀ x, x ∈ seen l → x ∈ seen l1) as Hseen.
  { intros x Hx. unfold seen in *. rewrite Hrx. apply list_elem_of_lookup in Hx as (i & Hx).
    apply lookup_take_Some in Hx as [Hx Hi']. apply list_elem_of_lookup. exists i.
    apply lookup_take_Some. split; [done|]. destruct r; lia. }
  assert (inv s l1) as Hi1.
  { destruct Hi as (Hk & Hrp & Ho). split_and!; [by eapply well_kept_mono| |done].
    intros d a Hin. rewrite Htx in Hin. destruct (Hrp _ _ Hin) as (m & key & ? & ? & ?).
    exists m, key. split_and!; [done..|]. by eapply has_asked_mono. }
  destruct r as [[d a]|]; [|by apply (decided_ret (Some (s, l1)))]. destruct Hr as [Hat Hrd].
  assert ((d, a) ∈ seen l1) as Hin.
  { unfold seen. rewrite Hrx, Hrd. apply list_elem_of_lookup. exists (udp_read l). apply lookup_take_Some. split; [done|lia]. }
  pose proof (handle_request_ok now s l1 d a Hi1 Hin) as Hq.
  destruct (handle_request now s l1 d a) as [[s2 l2]|]; cbn [mbind option_bind]; [|by apply decided_ret].
  destruct Hq as (Hi2 & Hrx2 & Hrd2). apply (IH (length (udp_rx l2) - udp_read l2)%nat); [|done|done].
  rewrite Hrx2, Hrd2, Hrx, Hrd. apply lookup_lt_Some in Hat. lia.
Qed.

(** ** Answers *)

Lemma inv_trusted s l r rb lb : inv s l → inv (with_trusted s r rb lb) l.
Proof. by apply tun_dns_inv_same. Qed.

(** A packet is shorter than what it was read from. *)
Lemma payload_shorter b p :
  UdpAssociate.parse_endpoint b = Some (UdpAssociate.PacketEndpoint p) →
  (length (UdpAssociate.e_payload p) < length b)%nat.
Proof.
  unfold UdpAssociate.parse_endpoint. destruct (Nat.ltb_spec (length b) 11) as [|Hl]; [done|].
  intros (atyp & _ & (b1 & Hb1 & (x & _ & H)%bind_Some)%bind_Some)%bind_Some.
  destruct x as [[size addr]|u]; [|done].
  apply bind_Some in H as (b2 & Hb2 & H). destruct (length b2 <? 4)%nat; [done|].
  apply bind_Some in H as (len & _ & H). destruct (_ <? _)%nat; [done|]. destruct (_ <? _)%nat; [done|].
  apply bind_Some in H as (c & _ & (d & _ & H)%bind_Some).
  destruct (_ || _); [done|]. destruct addr; try done.
  apply bind_Some in H as (b3 & Hb3 & H). injection H as <-. cbn [UdpAssociate.e_payload].
  unfold slice_from in *. repeat (case_match; simplify_eq). rewrite !length_drop. lia.
Qed.

Lemma tun_drain_ok fuel now s l b :
  (length b < fuel)%nat → inv s l →
  match drain fuel now s l b with
  | Some (_, s', l') => inv s' l' ∧ s' = with_store s (store s')
  | None => panics
  end.
Proof.
  revert s l b. induction fuel as [|fuel IH]; intros s l b Hf Hi; [lia|]. cbn [drain].
  destruct (MobileProto.UdpAssociate.parse_endpoint b) as [[p| |]|] eqn:Hp; cbn [mbind option_bind];
    [|by split; [|destruct s]..|by right; right; right; exists b].
  destruct (WinUdp.endpoint_bounds _ _ (MobileDns.endpoint_packet _ _ Hp)) as [H1 _].
  pose proof (payload_shorter _ _ (MobileDns.endpoint_packet _ _ Hp)) as H2.
  rewrite slice_to_le by lia. cbn [mbind option_bind].
  pose proof (dispatch_payload_ok now s (take (UdpAssociate.e_length p) (UdpAssociate.e_payload p)) l Hi) as Hd.
  destruct (match from_bytes _ with Some _ => _ | None => _ end) as [[s1 l1]|]; cbn [mbind option_bind]; [|done].
  destruct Hd as (Hi1 & _ & Hs1). rewrite slice_from_le by lia. cbn [mbind option_bind].
  specialize (IH s1 l1 (drop (UdpAssociate.e_length p) (UdpAssociate.e_payload p))).
  rewrite length_drop in IH. specialize (IH ltac:(lia) Hi1).
  destruct (drain _ _ _ _ _) as [[[r s2] l2]|]; [|done]. destruct IH as [Hi2 Hs2]. split; [done|].
  rewrite Hs2, Hs1. by destruct s.
Qed.

Lemma do_trusted_response_ok now s l :
  inv s l → decided (λ fuel, do_trusted_response fuel now s l) (λ r,
    match r with Some (s', l') => inv s' l' | None => panics end).
Proof.
  remember (rw_left (trusted s)) as n eqn:Hn. revert s l Hn.
  induction n as [n IH] using lt_wf_ind. intros s l -> Hi. apply decided_S. cbn [do_trusted_response].
  destruct (WinUdpConn.read_once_reads spare (trusted s) (trusted_rbuffer s)) as (r & c & d & -> & _ & _ & Hleft & _).
  set (s1 := with_trusted s c _ _).
  assert (inv s1 l) as Hi1 by (by apply inv_trusted).
  assert (decided (λ _, s ← reset_trusted s1; Some (s, l)) (λ r,
    match r with Some (s', l') => inv s' l' | None => panics end)) as Hreset.
  { apply decided_ret. pose proof (reset_trusted_ok s1) as Hr. destruct (reset_trusted s1); cbn; [|done].
    destruct Hr as [Hr _]. by eapply tun_dns_inv_same. }
  destruct r as [[]|e]; [|by apply (decided_ret (Some (s1, l)))|exact Hreset].
  pose proof (tun_drain_ok (S (length (trusted_rbuffer s ++ d))) now s1 l (trusted_rbuffer s ++ d) ltac:(lia) Hi1) as Hd.
  destruct (drain _ _ _ _ _) as [[[r s2] l2]|]; cbn [mbind option_bind]; [|by apply decided_ret].
  destruct Hd as [Hi2 Hs2]. destruct r as [rest|].
  - apply (IH (rw_left (trusted (with_trusted s2 (trusted s2) rest (trusted_lbuffer s2))))); [|done|by apply inv_trusted].
    rewrite Hs2. cbn. by apply Hleft.
  - apply decided_ret. pose proof (reset_trusted_ok s2) as Hr. destruct (reset_trusted s2); cbn; [|done].
    destruct Hr as [Hr _]. by eapply tun_dns_inv_same.
Qed.

Lemma do_untrusted_response_ok now s l :
  inv s l → decided (λ fuel, do_untrusted_response fuel now s l) (λ r,
    match r with Some (s', l') => inv s' l' | None => panics end).
Proof.
  remember (udp_rx_left (untrusted s)) as n eqn:Hn. revert s l Hn.
  induction n as [n IH] using lt_wf_ind. intros s l -> Hi. apply decided_S. cbn [do_untrusted_response].
  destruct (Env.udp_recv_from (untrusted s) mtu) as [[[d a]|k] u] eqn:Hu.
  - apply udp_recv_ok in Hu as (_ & Hlt & Hds & _).
    assert (inv (with_untrusted s u) l) as Hi1.
    { destruct Hi as (Hk & Hr & Ho). split_and!; [done|done|]. by apply (open_only_ext s). }
    pose proof (dispatch_payload_ok now _ d l Hi1) as Hd.
    destruct (match from_bytes _ with Some _ => _ | None => _ end) as [[s1 l1]|]; cbn [mbind option_bind]; [|by apply decided_ret].
    destruct Hd as (Hi2 & _ & Hs1). apply (IH (udp_rx_left (untrusted s1))); [|done|done]. by rewrite Hs1.
  - apply udp_recv_err in Hu as [Hds _]. apply (decided_ret (Some (with_untrusted s u, l))).
    destruct Hi as (Hk & Hr & Ho). split_and!; [done|done|]. by apply (open_only_ext s).
Qed.

Lemma tun_dns_ready_ok now s l :
  inv s l → decided (λ fuel, ready fuel now s l) (λ r,
    match r with Some (s', l') => inv s' l' | None => panics end).
Proof.
  intros Hi. unfold ready. eapply decided_bind; [by apply do_request_ok|done|]. intros [s1 l1] Hi1.
  eapply decided_bind; [by apply do_trusted_response_ok|done|]. intros [s2 l2] Hi2. by apply do_untrusted_response_ok.
Qed.

(** ** More fuel *)

(** The result of a call is that of every call with more fuel. *)
Lemma do_request_steady now s l : steady (λ fuel, do_request fuel now s l).
Proof.
  intros fuel n x. revert s l. induction fuel as [|fuel IH]; intros s l; [done|]. cbn [do_request Nat.add].
  destruct (udp_recv_slice l mtu) as [[[d a]|] l1]; [|done].
  destruct (handle_request now s l1 d a) as [[s2 l2]|]; [|done]. cbn [mbind option_bind]. apply IH.
Qed.

Lemma do_trusted_response_steady now s l : steady (λ fuel, do_trusted_response fuel now s l).
Proof.
  intros fuel n x. revert s l. induction fuel as [|fuel IH]; intros s l; [done|]. cbn [do_trusted_response Nat.add].
  destruct (read_once _ _ _) as [[r c] b]. destruct r as [[]|e]; [|done..].
  destruct (drain _ _ _ _ _) as [[[[rest|] s1] l1]|]; cbn [mbind option_bind]; [|done..]. apply IH.
Qed.

Lemma do_untrusted_response_steady now s l : steady (λ fuel, do_untrusted_response fuel now s l).
Proof.
  intros fuel n x. revert s l. induction fuel as [|fuel IH]; intros s l; [done|]. cbn [do_untrusted_response Nat.add].
  destruct (Env.udp_recv_from _ _) as [[[d a]|k] u]; [|done].
  destruct (match from_bytes d with Some _ => _ | None => _ end) as [[s1 l1]|]; cbn [mbind option_bind]; [|done]. apply IH.
Qed.

Lemma tun_dns_ready_steady now s l : steady (λ fuel, ready fuel now s l).
Proof.
  unfold ready. apply steady_bind; [apply do_request_steady|]. intros [s1 l1].
  apply steady_bind; [apply do_trusted_response_steady|]. intros [s2 l2]. apply do_untrusted_response_steady.
Qed.

(** The socket stays bound to its address. *)
Lemma answer_loop_endpoint cs m l m' l' :
  foldl answer_one (Some (m, l)) cs = Some (m', l') → udp_endpoint l' = udp_endpoint l.
Proof.
  revert m l. induction cs as [|[a id] cs IH]; intros m l; [by intros [= _ <-]|]. cbn [foldl answer_one mbind option_bind].
  destruct (to_vec (set_id m id)) as [d|]; cbn [mbind option_bind]; [|by rewrite answer_one_none].
  destruct (udp_send_slice l d a) as [b l1] eqn:Hs. apply udp_send_spec in Hs as (_ & _ & He & _).
  intros H%IH. cbn in H. congruence.
Qed.

Lemma dispatch_message_endpoint now s m l s' l' :
  dispatch_message now s m l = Some (s', l') → udp_endpoint l' = udp_endpoint l.
Proof.
  unfold dispatch_message. intros (name & _ & H)%bind_Some. destruct (store s !! name); [|by injection H as _ <-].
  apply bind_Some in H as ([m1 l1] & H%answer_loop_endpoint & [= _ <-]). done.
Qed.

Lemma dispatch_payload_endpoint now s d l s' l' :
  match from_bytes d with Some message => dispatch_message now s message l | None => Some (s, l) end = Some (s', l') →
  udp_endpoint l' = udp_endpoint l.
Proof. destruct (from_bytes d); [apply dispatch_message_endpoint|by intros [= _ <-]]. Qed.

Lemma handle_request_endpoint now s l d a s' l' :
  handle_request now s l d a = Some (s', l') → udp_endpoint l' = udp_endpoint l.
Proof.
  unfold handle_request. destruct (from_bytes d) as [m|]; [|by intros [= _ <-]].
  destruct (negb _); [by intros [= _ <-]|]. intros (q & _ & H)%bind_Some. apply bind_Some in H as (key & _ & H).
  apply bind_Some in H as ([[[renew respond] s1] l1] & Hc & H).
  assert (udp_endpoint l1 = udp_endpoint l) as <-.
  { unfold try_cache in Hc. destruct (store s !! key) as [[addrs [r|] e]|]; [|by injection Hc as _ _ _ <-..].
    apply bind_Some in Hc as (data & _ & Hc). destruct (udp_send_slice l data a) as [b l2] eqn:Hs.
    apply udp_send_spec in Hs as (_ & _ & He & _). by injection Hc as _ _ _ <-. }
  destruct (negb renew); [by injection H as _ <-|]. by apply bind_Some in H as ([ok s2] & _ & [= _ <-]).
Qed.

Lemma do_request_endpoint fuel now s l s' l' :
  do_request fuel now s l = Some (s', l') → udp_endpoint l' = udp_endpoint l.
Proof.
  revert s l. induction fuel as [|fuel IH]; intros s l; [done|]. cbn [do_request].
  destruct (udp_recv_slice l mtu) as [[[d a]|] l1] eqn:Hr; apply udp_recv_slice_spec in Hr as (_ & _ & He & _).
  - intros ([s2 l2] & Hh%handle_request_endpoint & H%IH)%bind_Some. congruence.
  - by intros [= _ <-].
Qed.

Lemma drain_endpoint fuel now s l b r s' l' :
  drain fuel now s l b = Some (r, s', l') → udp_endpoint l' = udp_endpoint l.
Proof.
  revert s l b. induction fuel as [|fuel IH]; intros s l b; [done|]. cbn [drain]. intros (x & _ & H)%bind_Some.
  destruct x as [p| |]; [|by injection H as _ _ <-..].
  apply bind_Some in H as (payload & _ & H). apply bind_Some in H as ([s1 l1] & Hd%dispatch_payload_endpoint & H).
  apply bind_Some in H as (rest & _ & H%IH). congruence.
Qed.

Lemma do_trusted_response_endpoint fuel now s l s' l' :
  do_trusted_response fuel now s l = Some (s', l') → udp_endpoint l' = udp_endpoint l.
Proof.
  revert s l. induction fuel as [|fuel IH]; intros s l; [done|]. cbn [do_trusted_response].
  destruct (read_once _ _ _) as [[[[]|] c] b].
  - intros ([[x s1] l1] & Hd%drain_endpoint & H)%bind_Some. destruct x; [apply IH in H; congruence|].
    by apply bind_Some in H as (? & _ & [= _ <-]).
  - by intros [= _ <-].
  - by intros (? & _ & [= _ <-])%bind_Some.
Qed.

Lemma tun_dns_endpoint fuel now s l s' l' : ready fuel now s l = Some (s', l') → udp_endpoint l' = udp_endpoint l.
Proof.
  unfold ready. intros ([s1 l1] & H1%do_request_endpoint & H)%bind_Some.
  apply bind_Some in H as ([s2 l2] & H2%do_trusted_response_endpoint & H). rewrite <-H1, <-H2. clear H1 H2.
  revert s2 l2 H. induction fuel as [|fuel IH]; intros s2 l2; [done|]. cbn [do_untrusted_response].
  destruct (Env.udp_recv_from _ _) as [[[d a]|] u]; [|by intros [= _ <-]].
  intros ([s3 l3] & Hd%dispatch_payload_endpoint & H%IH)%bind_Some. congruence.
Qed.

(** ** Turns of the loop *)

(** The server is made on a socket nothing was sent from; then it is called, and
    between the calls the stack gives the socket datagrams and the program uses the
    network. *)
Inductive served : t → Smoltcp.UdpSocket → Prop :=
  | served_new blocked o s l :
      new blocked o = Some s → datagrams (untrusted s) = [] → udp_tx l = [] → served s l
  | served_evolves s l l' : served s l → socket_evolves (Udp l) (Udp l') → served s l'
  | served_net s l o : served s l → served (with_net s o) l
  | served_ready fuel now s l s' l' :
      served s l → ready fuel now s l = Some (s', l') → served s' l'.

Lemma new_inv blocked o s l :
  new blocked o = Some s → datagrams (untrusted s) = [] → udp_tx l = [] → inv s l.
Proof.
  unfold new. destruct (new_tls_conn o) as [[c|] o1]; cbn [mbind option_bind]; [|done].
  destruct (Env.udp_bind o1 empty_addr) as [[u|] o2]; cbn [mbind option_bind]; [|done].
  intros [= <-] Hd Ht. split_and!; [apply map_Forall_empty| |].
  - intros d a. rewrite Ht. by intros ?%not_elem_of_nil.
  - intros d a. rewrite Hd. by intros ?%not_elem_of_nil.
Qed.

Lemma served_inv s l : served s l → inv s l.
Proof.
  induction 1 as [blocked o s l Hn Hd Ht|s l l' _ Hi (Hrx & Hrd & Htx & _)|s l o _ Hi|fuel now s l s' l' _ Hi Hr].
  - by eapply new_inv.
  - assert (∀ x, x ∈ seen l → x ∈ seen l') as Hseen.
    { intros x Hx. unfold seen in *. rewrite Hrd. apply list_elem_of_lookup in Hx as (i & [Hx Hi']%lookup_take_Some).
      apply list_elem_of_lookup. exists i. apply lookup_take_Some. split; [by eapply prefix_lookup_Some|done]. }
    destruct Hi as (Hk & Hrp & Ho). split_and!; [by eapply well_kept_mono| |done].
    intros d a Hin. rewrite Htx in Hin. destruct (Hrp _ _ Hin) as (m & key & ? & ? & ?).
    exists m, key. split_and!; [done..|]. by eapply has_asked_mono.
  - exact Hi.
  - destruct (tun_dns_ready_ok now s l Hi) as (n & r & Hp & Hn).
    pose proof (tun_dns_ready_steady now s l fuel n _ Hr) as Hr'. cbn beta in Hr'. rewrite Hn in Hr' by lia. by subst r.
Qed.

(** Whatever turns the loop takes, every call of the server ends, and it panics
    only when a message holds no question or cannot be encoded, when a connection
    cannot be made again, or on an answer the parser panics on. *)
Theorem tun_dns_ends s l now :
  served s l → decided (λ fuel, ready fuel now s l) (λ r, r = None → panics).
Proof.
  intros Hs%served_inv. eapply decided_weaken; [by apply tun_dns_ready_ok|]. by intros [[]|].
Qed.

(** Whatever turns the loop takes, every answer the tunnel's clients get is about
    a question that client has asked, with its identifier, and every datagram to the
    distrusted resolver is a question for a name that is not blocked. *)
Theorem only_asked_are_answered s l :
  served s l →
  (∀ d a, (d, a) ∈ udp_tx l → ∃ m key q mq, to_vec m = Some d ∧ get_message_key m = Some key
     ∧ (q, a) ∈ seen l ∧ from_bytes q = Some mq ∧ get_message_key mq = Some key ∧ msg_id mq = msg_id m)
  ∧ ∀ d a, (d, a) ∈ datagrams (untrusted s) →
      a = untrusted_addr ∧ ∃ q name n, d = take n q ∧ MobileDns.question_for name q ∧ is_blocked s name = false.
Proof.
  intros (_ & Hr & Ho)%served_inv. split; [|exact Ho]. intros d a (m & key & Hm & Hk & q & mq & H)%Hr.
  exists m, key, q, mq. split_and!; naive_solver.
Qed.

(** Of a question for the trusted resolver that the connection takes in part the
    rest is kept, so that the stream stays whole, except in two cases: when nothing
    was taken only the header is kept, and when less of the question is left than
    the header is long the whole question is repeated after it.  A broken
    connection is replaced, and nothing is kept then; the server panics only when
    that fails. *)
Theorem question_is_kept_in_part s body :
  trusted_lbuffer s = [] →
  let header := UdpAssociate.generate trusted_addr (wrap 16 (Z.of_nat (length body))) in
  match query_trusted s body with
  | None => (new_tls_conn (net s)).1 = None
  | Some (ok, s') =>
      (∃ n, (n <= length header + length body)%nat
         ∧ rw_accepted (trusted s') = rw_accepted (trusted s) ++ take n (header ++ body)
         ∧ trusted_lbuffer s' =
             if (n =? length header + length body)%nat then []
             else if (n =? 0)%nat then header
             else if (length header <=? n)%nat && (length header + length body - n <? length header)%nat
             then drop n (header ++ body) ++ body
             else drop n (header ++ body))
      ∨ (ok = false ∧ trusted_lbuffer s' = []
         ∧ ∃ c o, connect (net s) = (Some c, o) ∧ trusted s' = (rw_write c request).2)
  end.
Proof.
  intros Hl header. unfold query_trusted. rewrite Hl.
  destruct (write_query_eq s body) as (n & r' & Hn & Ha & [-> | ->]); fold header in Hn, Ha |- *.
  - unfold flush_trusted. cbn [trusted with_trusted]. pose proof (flush_accepted r') as Hf.
    destruct (remote_flush r') as [x c]. left. exists n. cbn in *. split; [done|]. split; [congruence|].
    rewrite Hl, WinUdpConn.cache_rest_spec by done.
    assert (0 < length header)%nat as H0 by (unfold header, UdpAssociate.generate; rewrite !length_app, length_u16_be; lia).
    by rewrite (proj2 (Nat.ltb_lt 0 _)), andb_true_r.
  - unfold reset_trusted. cbn [net with_trusted]. unfold new_tls_conn.
    destruct (connect (net s)) as [[c|] o]; [|done]. destruct (rw_write c request) as [x c1] eqn:Hw.
    destruct (io_is_ok x); cbn; [|done]. right. split; [done|]. split; [done|]. exists c, o. by rewrite Hw.
Qed.

(** The header that was kept alone makes the server take the bytes that follow it,
    the next question's header among them, for the question. *)
Lemma lost_question_takes_next (body next : bytes) :
  wf_sa trusted_addr → (length body <= MAX_PACKET_SIZE)%nat → (length body <= length next)%nat →
  ∃ p, UdpAssociate.parse (UdpAssociate.generate trusted_addr (wrap 16 (Z.of_nat (length body))) ++ next) = Some (UdpAssociate.Packet p)
    ∧ UdpAssociate.address p = Proto.Socket trusted_addr
    ∧ take (UdpAssociate.length_ p) (UdpAssociate.payload p) = take (length body) next.
Proof.
  intros Ha Hb Hn. rewrite wrap_small by (unfold MAX_PACKET_SIZE in Hb; lia).
  assert (length (take (length body) next) = length body) as Hl by (rewrite length_take; lia).
  pose proof (UdpProps.udp_parse_generate trusted_addr (take (length body) next) (drop (length body) next) Ha) as Hp.
  rewrite Hl, take_drop in Hp. eexists. split; [by apply Hp|]. done.
Qed.

(** A message nobody asked for changes nothing. *)
Lemma unasked_is_ignored now s m l key :
  get_message_key m = Some key → store s !! key = None → dispatch_message now s m l = Some (s, l).
Proof. intros Hk Hs. unfold dispatch_message. rewrite Hk. cbn. by rewrite Hs. Qed.

End TunDns.
End TunDns.

(** ** Examples *)

Module TunDnsWitness.
Import TunDns.
Import DnsWitness.
#[local] Existing Instance Sim.env.
#[local] Existing Instance Sim.env_ok.
#[local] Existing Instance sim_rw.
#[local] Existing Instance SimStack.smoltcp.
#[local] Existing Instance SimStack.observed.
#[local] Existing Instance SimStack.smoltcp_ok.
#[local] Existing Instance Witness.from_bytes.
#[local] Existing Instance DnsWitness.proto.
#[local] Existing Instance DnsWitness.proto_ok.
#[local] Instance rem : Remote (TlsConn Sim.env) := tls_remote 100.
#[local] Instance law : LawfulRemote (TlsConn Sim.env) := tls_lawful (Rw := sim_rw) 100.

#[local] Instance records : DnsRecords proto := {
  set_ttl r ttl := (ttl, r.2);
  answers_mut f m := mkMessage (m_id m) (m_questions m) (f <$> m_answers m)
}.

#[local] Instance records_ok : DnsRecordsOk proto records.
Proof. by split. Qed.

Lemma header_queries (m : Message) : queries (clear_header m) = queries m.
Proof. done. Qed.

Definition spare (b : bytes) : nat := 1500.
Definition resolver : SocketAddr := mkSocketAddr (V4 [8; 8; 8; 8]) 53.
Definition local_resolver : SocketAddr := mkSocketAddr (V4 [114; 114; 114; 114]) 53.
Definition blocked : gset bytes := {[ [120; DOT; 121] ]}.

(** A question for the blocked "x.y." and one for "z.", with an answer for "z." on
    the connection in two pieces. *)
Definition query1 : bytes := [7; 1] ++ xy.
Definition query2 : bytes := [5; 1; 122; DOT].
Definition answer : bytes := MobileDns.frame (resolver, [9; 1; 60; 5; 6; 7; 8; 122]).
Definition session : Sim.session := Sim.mkSession [] [] [take 9 answer; drop 9 answer] [] 65536 [].
Definition connect (o : OS) : option (TlsConn Sim.env) * OS :=
  (Some (mkTlsConn (E := Sim.env) session Sim.idle_stream 2 7 Status.Established true), o).

Definition listener : Smoltcp.UdpSocket :=
  SimStack.mkUdp (Some (V4 [10; 0; 0; 1]), 53) [] [(query1, client1); (query2, client2)] [].
Abbreviation make := (new [65; 66] connect).
Abbreviation turn := (ready resolver local_resolver 120 1500 [65; 66] spare connect).
Abbreviation serving := (served resolver local_resolver 120 1500 [65; 66] spare connect).
Definition world : Sim.system := Sim.mkSystem [] [].

Definition started : option t := make blocked world.
Definition turned : option (t * Smoltcp.UdpSocket) := s ← started; turn 10 0 s listener.

(** The client of "z." has its answer, with its identifier; the blocked question is
    on the connection, the other one went to the local resolver. *)
Example turned_result :
  (λ r : t * Smoltcp.UdpSocket, (udp_tx r.2, datagrams (untrusted r.1),
     drop (length (request [65; 66])) (rw_accepted (LawfulReadWrite := lawful_rw) (trusted r.1)))) <$> turned
  = Some ([([5; 1; 122; DOT; 60; 5; 6; 7; 8], client2)], [(query2, local_resolver)],
          UdpAssociate.generate resolver (Z.of_nat (length query1)) ++ query1).
Proof. by vm_compute. Qed.

Lemma turned_served :
  match turned with Some (s, l) => serving s l | None => False end.
Proof.
  assert (match started with Some s => datagrams (untrusted s) = [] | None => False end) as Hd by by vm_compute.
  assert (is_Some turned) as [[s' l'] Ht] by (apply (bool_decide_unpack _); vm_compute; exact I).
  rewrite Ht. unfold turned in Ht. destruct started as [s|] eqn:Hs; [|done]. cbn [mbind option_bind] in Ht.
  eapply served_ready; [|exact Ht]. by eapply served_new.
Qed.

Lemma tun_dns_ends_witness :
  match turned with
  | Some (s, l) => decided (λ fuel, turn fuel 1 s l) (λ r, r = None → panics [65; 66] connect)
  | None => False
  end.
Proof.
  pose proof turned_served as H. destruct turned as [[s l]|]; [|done].
  exact (tun_dns_ends resolver local_resolver 120 1500 [65; 66] spare connect header_queries s l 1 H).
Defined.

Lemma only_asked_are_answered_witness :
  match turned with
  | Some (s, l) =>
      (∀ d a, (d, a) ∈ udp_tx l → ∃ m key q mq, to_vec m = Some d ∧ get_message_key m = Some key
         ∧ (q, a) ∈ seen l ∧ from_bytes q = Some mq ∧ get_message_key mq = Some key ∧ msg_id mq = msg_id m)
      ∧ ∀ d a, (d, a) ∈ datagrams (untrusted s) →
          a = local_resolver ∧ ∃ q name n, d = take n q ∧ MobileDns.question_for name q ∧ is_blocked s name = false
  | None => False
  end.
Proof.
  pose proof turned_served as H. destruct turned as [[s l]|]; [|done].
  exact (only_asked_are_answered resolver local_resolver 120 1500 [65; 66] spare connect header_queries s l H).
Defined.

(** A connection with room for five bytes takes a part of the header. *)
Definition narrow : t :=
  mk (mkTlsConn (E := Sim.env) (Sim.mkSession [] [] [] [] 5 []) Sim.idle_stream 2 7 Status.Established true)
    [] [] blocked ∅ Sim.idle_socket world.

Lemma question_is_kept_in_part_witness :
  match query_trusted resolver [65; 66] connect narrow query1 with
  | None => (new_tls_conn [65; 66] connect world).1 = None
  | Some (ok, s') =>
      (∃ n, (n <= length (UdpAssociate.generate resolver 6) + 6)%nat
         ∧ rw_accepted (LawfulReadWrite := lawful_rw) (trusted s')
           = [] ++ take n (UdpAssociate.generate resolver 6 ++ query1)
         ∧ trusted_lbuffer s' =
             if (n =? length (UdpAssociate.generate resolver 6) + 6)%nat then []
             else if (n =? 0)%nat then UdpAssociate.generate resolver 6
             else if (length (UdpAssociate.generate resolver 6) <=? n)%nat
                     && (length (UdpAssociate.generate resolver 6) + 6 - n <? length (UdpAssociate.generate resolver 6))%nat
             then drop n (UdpAssociate.generate resolver 6 ++ query1) ++ query1
             else drop n (UdpAssociate.generate resolver 6 ++ query1))
      ∨ (ok = false ∧ trusted_lbuffer s' = []
         ∧ ∃ c o, connect world = (Some c, o) ∧ trusted s' = (rw_write (ReadWrite := remote_rw) c (request [65; 66])).2)
  end.
Proof. exact (question_is_kept_in_part resolver [65; 66] connect narrow query1 eq_refl). Defined.

End TunDnsWitness.
