(* ===== verification/MobileDomains.v ===== *)
(** * The list of blocked domains of the mobile application
    ([src/mobile/src-tauri/src/lib.rs])

    The application ships a list of domains; what the user adds to it and removes
    from it is kept in the platform's storage, as two lists of differences, and
    merged when a window is initialised.  The methods of [Context] are computations
    over the set in memory and the storage, in a monad of errors: what was changed
    before an error stays changed.  The storage and the encoding of lists are the
    platform's and [serde_json]'s. *)

From Stdlib Require Import ZArith Lia.
From stdpp Require Import base option list sets gmap.
From S2P Require Import Prelude.

Open Scope Z_scope.

(** [platform::load_data] and [save_data] (shared preferences: an empty string when
    nothing was saved), [serde_json::to_string] and [from_str]; [None] is an error. *)
Class Platform : Type := {
  Storage : Type;
  platform_load_data : Storage → bytes → option bytes;
  platform_save_data : Storage → bytes → bytes → option unit * Storage;
  to_string : list bytes → option bytes;
  from_str : bytes → option (list bytes)
}.

(** What is saved under a key is loaded from it, other keys keep theirs, and a
    failed save changes nothing; an encoded list is not empty and is decoded to
    itself. *)
Class PlatformOk (P : Platform) : Prop := {
  load_saved o k d o' : platform_save_data o k d = (Some (), o') → platform_load_data o' k = Some d;
  load_other o k k' d r o' : platform_save_data o k d = (r, o') → k ≠ k' →
    platform_load_data o' k' = platform_load_data o k';
  save_failed o k d o' : platform_save_data o k d = (None, o') → platform_load_data o' k = platform_load_data o k;
  from_to_string l d : to_string l = Some d → d ≠ [] ∧ from_str d = Some l
}.

Module MobileDomains.
Section MobileDomains.
Context {P : Platform}.

(** ** Computations

    The set in memory and the storage; [None] is the error of a [?]. *)

Record t : Type := mk { blocked_domains : gset bytes; storage : Storage }.
Definition M (A : Type) : Type := t → option A * t.

Definition ret {A} (a : A) : M A := λ s, (Some a, s).
Definition bind {A B} (m : M A) (f : A → M B) : M B :=
  λ s, match m s with (Some a, s) => f a s | (None, s) => (None, s) end.

#[local] Notation "x <- m ; f" := (bind m (λ x, f)) (at level 100, m at next level, right associativity).
#[local] Notation "m ;; f" := (bind m (λ _, f)) (at level 100, right associativity).

Definition lift {A} (r : option A) : M A := λ s, (r, s).

(** [HashSet::insert] and [remove]: whether the set has changed. *)
Definition insert (domain : bytes) : M bool :=
  λ s, (Some (bool_decide (domain ∉ blocked_domains s)), mk ({[domain]} ∪ blocked_domains s) (storage s)).
Definition remove (domain : bytes) : M bool :=
  λ s, (Some (bool_decide (domain ∈ blocked_domains s)), mk (blocked_domains s ∖ {[domain]}) (storage s)).

(** ** The methods of [Context] *)

(** "added_domains" and "remed_domains" *)
Definition ADDED_DOMAIN_KEY : bytes := [97; 100; 100; 101; 100; 95; 100; 111; 109; 97; 105; 110; 115].
Definition REMED_DOMAIN_KEY : bytes := [114; 101; 109; 101; 100; 95; 100; 111; 109; 97; 105; 110; 115].

Definition load_data (key : bytes) : M (list bytes) :=
  added <- (λ s, (platform_load_data (storage s) key, s));
  if bool_decide (added = []) then ret [] else lift (from_str added).

Definition save_data (key : bytes) (data : list bytes) : M unit :=
  data <- lift (to_string data);
  λ s, let '(r, o) := platform_save_data (storage s) key data in (r, mk (blocked_domains s) o).

(** The loops of [merge_domains]: the domains whose insertion or removal changed
    the set. *)
Fixpoint changed (op : bytes → M bool) (domains : list bytes) : M (list bytes) :=
  match domains with
  | [] => ret []
  | domain :: domains =>
      new <- op domain;
      rest <- changed op domains;
      ret (if (new : bool) then domain :: rest else rest)
  end.

Definition merge_domains : M unit :=
  added <- load_data ADDED_DOMAIN_KEY;
  new_added <- changed insert added;
  save_data ADDED_DOMAIN_KEY new_added;;
  removed <- load_data REMED_DOMAIN_KEY;
  new_removed <- changed remove removed;
  save_data REMED_DOMAIN_KEY new_removed.

(** [removed.remove(index)] at the first index that holds the domain. *)
Fixpoint remove_first (domain : bytes) (l : list bytes) : list bytes :=
  match l with
  | [] => []
  | x :: l => if bool_decide (x = domain) then l else x :: remove_first domain l
  end.

Definition add_domain (domain : bytes) : M unit :=
  new <- insert domain;
  if (new : bool) then
    added <- load_data ADDED_DOMAIN_KEY;
    removed <- load_data REMED_DOMAIN_KEY;
    if bool_decide (domain ∈ removed) then save_data REMED_DOMAIN_KEY (remove_first domain removed)
    else save_data ADDED_DOMAIN_KEY (added ++ [domain])
  else ret ().

Definition remove_domain (domain : bytes) : M unit :=
  old <- remove domain;
  if (old : bool) then
    added <- load_data ADDED_DOMAIN_KEY;
    removed <- load_data REMED_DOMAIN_KEY;
    if bool_decide (domain ∈ added) then save_data ADDED_DOMAIN_KEY (remove_first domain added)
    else save_data REMED_DOMAIN_KEY (removed ++ [domain])
  else ret ().

(** [str::contains]. *)
Fixpoint str_contains (s pattern : bytes) : bool :=
  bool_decide (take (length pattern) s = pattern) || match s with [] => false | _ :: s => str_contains s pattern end.

(** At most ten, in the order of the set. *)
Definition search_domain (s : t) (domain : bytes) : list bytes :=
  take 10 (filter (λ key, str_contains key domain = true) (elements (blocked_domains s))).

(** [run]: the set before anything is merged holds the lines of the shipped list,
    those that can be decoded. *)
Definition start (lines : list (option bytes)) (o : Storage) : t := mk (list_to_set (omap id lines)) o.

(** ** The differences *)

Context `{!PlatformOk P}.

(** The list a key holds, if it can be read. *)
Definition stored (s : t) (key : bytes) : option (list bytes) := (load_data key s).1.

(** The two lists are the differences of the set from the shipped one. *)
Definition consistent (base : gset bytes) (s : t) (added removed : list bytes) : Prop :=
  stored s ADDED_DOMAIN_KEY = Some added ∧ stored s REMED_DOMAIN_KEY = Some removed
  ∧ NoDup added ∧ NoDup removed ∧ (∀ d, d ∈ added → d ∉ base) ∧ (∀ d, d ∈ removed → d ∈ base)
  ∧ (∀ d, d ∈ blocked_domains s ↔ (d ∈ base ∨ d ∈ added) ∧ d ∉ removed).

Lemma load_data_keeps key s : load_data key s = (stored s key, s).
Proof.
  unfold stored, load_data, bind, lift, ret. cbn.
  destruct (platform_load_data _ _) as [d|]; [|done]. by case_bool_decide.
Qed.

Lemma stored_storage s s' key : storage s' = storage s → stored s' key = stored s key.
Proof.
  unfold stored, load_data, bind, lift, ret. cbn. intros ->.
  destruct (platform_load_data _ _); [|done]. by case_bool_decide.
Qed.

(** A save that succeeds is what is loaded from then on; it touches nothing else,
    and one that fails touches nothing. *)
Lemma save_data_spec key data s r s' :
  save_data key data s = (r, s') →
  blocked_domains s' = blocked_domains s
  ∧ (∀ key', key' ≠ key → stored s' key' = stored s key')
  ∧ stored s' key = if r then Some data else stored s key.
Proof.
  unfold save_data, bind, lift. destruct (to_string data) as [d|] eqn:Hd; [|by intros [= <- <-]].
  destruct (platform_save_data (storage s) key d) as [r1 o] eqn:Hs. intros [= <- <-]. split; [done|].
  assert (∀ o1 o2 k, platform_load_data o1 k = platform_load_data o2 k → ∀ b1 b2, stored (mk b1 o1) k = stored (mk b2 o2) k) as Heq.
  { intros o1 o2 k H b1 b2. unfold stored, load_data, bind, lift, ret. cbn. rewrite H.
    destruct (platform_load_data o2 k); [|done]. by case_bool_decide. }
  destruct s as [b o1]. cbn in *. split; [intros key' Hk; by eapply Heq, load_other|].
  destruct (from_to_string _ _ Hd) as [Hne Hf]. destruct r1 as [[]|].
  - unfold stored, load_data, bind, lift, ret. cbn. rewrite (load_saved _ _ _ _ Hs).
    by rewrite bool_decide_false.
  - by eapply Heq, save_failed.
Qed.

Lemma changed_cons op x domains s b s1 new s2 :
  op x s = (Some b, s1) → changed op domains s1 = (Some new, s2) →
  changed op (x :: domains) s = (Some (if b then x :: new else new), s2).
Proof. intros H1 H2. cbn [changed]. unfold bind at 1. rewrite H1. unfold bind. by rewrite H2. Qed.

(** Membership after one more domain. *)
Ltac member Hm Hb x :=
  let d := fresh "d" in
  intros d; rewrite ?Hm, ?Hb, ?elem_of_cons, ?Hm, ?elem_of_union, ?elem_of_difference, ?elem_of_singleton;
  destruct (decide (d = x)) as [->|]; naive_solver.

Lemma changed_insert domains s :
  ∃ new s', changed insert domains s = (Some new, s') ∧ storage s' = storage s ∧ NoDup new
    ∧ (∀ d, d ∈ new ↔ d ∈ domains ∧ d ∉ blocked_domains s)
    ∧ (∀ d, d ∈ blocked_domains s' ↔ d ∈ blocked_domains s ∨ d ∈ domains).
Proof.
  revert s. induction domains as [|x domains IH]; intros s.
  { exists [], s. split_and!; try done; [constructor|set_solver..]. }
  destruct (IH (mk ({[x]} ∪ blocked_domains s) (storage s))) as (new & s' & Hc & Ho & Hn & Hm & Hb). cbn in Ho, Hm, Hb.
  pose proof (changed_cons insert x domains s _ _ _ _ eq_refl Hc) as Hc'. rewrite Hc'. clear Hc Hc'. case_bool_decide as Hx.
  - exists (x :: new), s'. split; [done|]. split_and!; try done; [constructor; [rewrite Hm; set_solver|done]|by member Hm Hb x..].
  - exists new, s'. split; [done|]. split_and!; try done; by member Hm Hb x.
Qed.

Lemma changed_remove domains s :
  ∃ old s', changed remove domains s = (Some old, s') ∧ storage s' = storage s ∧ NoDup old
    ∧ (∀ d, d ∈ old ↔ d ∈ domains ∧ d ∈ blocked_domains s)
    ∧ (∀ d, d ∈ blocked_domains s' ↔ d ∈ blocked_domains s ∧ d ∉ domains).
Proof.
  revert s. induction domains as [|x domains IH]; intros s.
  { exists [], s. split_and!; try done; [constructor|set_solver..]. }
  destruct (IH (mk (blocked_domains s ∖ {[x]}) (storage s))) as (old & s' & Hc & Ho & Hn & Hm & Hb). cbn in Ho, Hm, Hb.
  pose proof (changed_cons remove x domains s _ _ _ _ eq_refl Hc) as Hc'. rewrite Hc'. clear Hc Hc'. case_bool_decide as Hx.
  - exists (x :: old), s'. split; [done|]. split_and!; try done; [constructor; [rewrite Hm; set_solver|done]|by member Hm Hb x..].
  - exists old, s'. split; [done|]. split_and!; try done; by member Hm Hb x.
Qed.

Lemma remove_first_spec x l :
  NoDup l → NoDup (remove_first x l) ∧ ∀ d, d ∈ remove_first x l ↔ d ∈ l ∧ d ≠ x.
Proof.
  induction 1 as [|y l Hy Hl [IHn IH]]; cbn; [split; [constructor|set_solver]|].
  case_bool_decide as Hyx; [subst; split; [done|set_solver]|].
  split; [constructor; [rewrite IH; by intros [? _]|done]|]. intros d. rewrite !elem_of_cons, IH. naive_solver.
Qed.

(** Initialising a window on the shipped list: the new lists. *)
Lemma merge_spec s added removed s' :
  stored s ADDED_DOMAIN_KEY = Some added → stored s REMED_DOMAIN_KEY = Some removed →
  merge_domains s = (Some (), s') →
  ∃ added' removed', stored s' ADDED_DOMAIN_KEY = Some added' ∧ stored s' REMED_DOMAIN_KEY = Some removed'
    ∧ NoDup added' ∧ NoDup removed'
    ∧ (∀ d, d ∈ added' ↔ d ∈ added ∧ d ∉ blocked_domains s)
    ∧ (∀ d, d ∈ removed' ↔ d ∈ removed ∧ (d ∈ blocked_domains s ∨ d ∈ added))
    ∧ (∀ d, d ∈ blocked_domains s' ↔ (d ∈ blocked_domains s ∨ d ∈ added) ∧ d ∉ removed).
Proof.
  intros Ha Hr H. unfold merge_domains, bind at 1 in H. rewrite load_data_keeps, Ha in H.
  destruct (changed_insert added s) as (na & s1 & Hc & Ho & Hn1 & Hm1 & Hb1).
  unfold bind at 1 in H. rewrite Hc in H. unfold bind at 1 in H.
  destruct (save_data ADDED_DOMAIN_KEY na s1) as [[[]|] s2] eqn:Hs; [|done].
  destruct (save_data_spec _ _ _ _ _ Hs) as (Hbs & Hot & Hst).
  unfold bind at 1 in H. rewrite load_data_keeps, Hot, (stored_storage _ _ _ Ho), Hr in H by done.
  destruct (changed_remove removed s2) as (nr & s3 & Hc3 & Ho3 & Hn3 & Hm3 & Hb3).
  unfold bind at 1 in H. rewrite Hc3 in H.
  destruct (save_data_spec _ _ _ _ _ H) as (Hbs4 & Hot4 & Hst4).
  exists na, nr. split_and!; try done.
  - by rewrite Hot4, (stored_storage _ _ _ Ho3).
  - intros d. by rewrite Hm3, Hbs, Hb1.
  - intros d. by rewrite Hbs4, Hb3, Hbs, Hb1.
Qed.

Lemma merge_consistent s added removed s' :
  stored s ADDED_DOMAIN_KEY = Some added → stored s REMED_DOMAIN_KEY = Some removed →
  (∀ d, d ∈ added → d ∉ removed) → merge_domains s = (Some (), s') →
  ∃ added' removed', consistent (blocked_domains s) s' added' removed'.
Proof.
  intros Ha Hr Hd H.
  destruct (merge_spec s added removed s' Ha Hr H) as (a & r & H1 & H2 & H3 & H4 & H5 & H6 & H7).
  exists a, r. split_and!; try done; intros d; rewrite ?H5, ?H6, ?H7; [naive_solver..|].
  destruct (decide (d ∈ blocked_domains s)); naive_solver.
Qed.

(** Both methods change the set, and then the lists or fail. *)
Lemma add_domain_spec base s added removed d r s' :
  consistent base s added removed → add_domain d s = (r, s') →
  (∀ x, x ∈ blocked_domains s' ↔ x ∈ blocked_domains s ∨ x = d)
  ∧ match r with
    | Some _ => ∃ added' removed', consistent base s' added' removed'
    | None => stored s' ADDED_DOMAIN_KEY = Some added ∧ stored s' REMED_DOMAIN_KEY = Some removed
    end.
Proof.
  intros (Ha & Hr & Hna & Hnr & Hab & Hrb & Hb) H. unfold add_domain, bind at 1, insert in H.
  case_bool_decide as Hd.
  2: { injection H as <- <-. split; [intros x; cbn; set_solver|].
    exists added, removed. split_and!; try done; [by rewrite <-Ha; apply stored_storage|by rewrite <-Hr; apply stored_storage|].
    intros x. cbn. rewrite elem_of_union, elem_of_singleton, Hb.
    apply Hb in Hd. naive_solver. }
  set (s1 := mk _ _) in H.
  assert (∀ key, stored s1 key = stored s key) as Hs1 by (intros; by apply stored_storage).
  unfold bind at 1 in H. rewrite load_data_keeps, Hs1, Ha in H.
  unfold bind at 1 in H. rewrite load_data_keeps, Hs1, Hr in H.
  assert (∀ x, x ∈ blocked_domains s1 ↔ x ∈ blocked_domains s ∨ x = d) as Hb1 by (intros x; cbn; set_solver).
  rewrite Hb in Hd. case_bool_decide as Hdr; destruct (save_data_spec _ _ _ _ _ H) as (Hbs & Hot & Hst);
    (split; [intros x; by rewrite Hbs|]); (destruct r as [[]|]; [|split; first [by rewrite Hot, Hs1|by rewrite Hst, Hs1]]).
  - destruct (remove_first_spec d removed Hnr) as [Hn Hm].
    exists added, (remove_first d removed). split_and!; try done; [by rewrite Hot, Hs1|intros x; rewrite Hm; naive_solver|].
    intros x. rewrite Hbs, Hb1, Hb, Hm. specialize (Hrb d Hdr). destruct (decide (x = d)); naive_solver.
  - exists (added ++ [d]), removed. split_and!; try done; [by rewrite Hot, Hs1| | |].
    + apply NoDup_app. split; [done|]. split; [|apply NoDup_singleton]. intros x Hx ->%list_elem_of_singleton. naive_solver.
    + intros x [Hx| ->%list_elem_of_singleton]%elem_of_app; naive_solver.
    + intros x. rewrite Hbs, Hb1, Hb, elem_of_app, list_elem_of_singleton. destruct (decide (x = d)); naive_solver.
Qed.

Lemma remove_domain_spec base s added removed d r s' :
  consistent base s added removed → remove_domain d s = (r, s') →
  (∀ x, x ∈ blocked_domains s' ↔ x ∈ blocked_domains s ∧ x ≠ d)
  ∧ match r with
    | Some _ => ∃ added' removed', consistent base s' added' removed'
    | None => stored s' ADDED_DOMAIN_KEY = Some added ∧ stored s' REMED_DOMAIN_KEY = Some removed
    end.
Proof.
  intros (Ha & Hr & Hna & Hnr & Hab & Hrb & Hb) H. unfold remove_domain, bind at 1, remove in H.
  case_bool_decide as Hd.
  2: { injection H as <- <-. split; [intros x; cbn; set_solver|].
    exists added, removed. split_and!; try done; [by rewrite <-Ha; apply stored_storage|by rewrite <-Hr; apply stored_storage|].
    intros x. cbn. rewrite elem_of_difference, elem_of_singleton, <-Hb.
    split; [by intros []|]. intros Hx. split; [done|]. by intros ->. }
  set (s1 := mk _ _) in H.
  assert (∀ key, stored s1 key = stored s key) as Hs1 by (intros; by apply stored_storage).
  unfold bind at 1 in H. rewrite load_data_keeps, Hs1, Ha in H.
  unfold bind at 1 in H. rewrite load_data_keeps, Hs1, Hr in H.
  assert (∀ x, x ∈ blocked_domains s1 ↔ x ∈ blocked_domains s ∧ x ≠ d) as Hb1 by (intros x; cbn; set_solver).
  apply Hb in Hd as [Hd Hdr]. case_bool_decide as Hda; destruct (save_data_spec _ _ _ _ _ H) as (Hbs & Hot & Hst);
    (split; [intros x; by rewrite Hbs|]); (destruct r as [[]|]; [|split; first [by rewrite Hot, Hs1|by rewrite Hst, Hs1]]).
  - destruct (remove_first_spec d added Hna) as [Hn Hm].
    exists (remove_first d added), removed. split_and!; try done; [by rewrite Hot, Hs1|intros x; rewrite Hm; naive_solver|].
    intros x. rewrite Hbs, Hb1, Hb, Hm. specialize (Hab d Hda). destruct (decide (x = d)); naive_solver.
  - exists added, (removed ++ [d]). split_and!; try done; [by rewrite Hot, Hs1| | |].
    + apply NoDup_app. split; [done|]. split; [|apply NoDup_singleton]. intros x Hx ->%list_elem_of_singleton. naive_solver.
    + intros x [Hx| ->%list_elem_of_singleton]%elem_of_app; naive_solver.
    + intros x. rewrite Hbs, Hb1, Hb, elem_of_app, list_elem_of_singleton. destruct (decide (x = d)); naive_solver.
Qed.

(** ** Sessions *)

(** What the user does to the list. *)
Inductive command : Type := Add (domain : bytes) | Remove (domain : bytes).
Definition execute (c : command) : M unit :=
  match c with Add domain => add_domain domain | Remove domain => remove_domain domain end.
Fixpoint run (cs : list command) : M unit :=
  match cs with [] => ret () | c :: cs => execute c;; run cs end.

(** The set the commands ask for. *)
Definition wanted (b : gset bytes) (c : command) : gset bytes :=
  match c with Add d => {[d]} ∪ b | Remove d => b ∖ {[d]} end.

Lemma run_consistent base s added removed cs s' :
  consistent base s added removed → run cs s = (Some (), s') →
  blocked_domains s' = foldl wanted (blocked_domains s) cs ∧ ∃ added' removed', consistent base s' added' removed'.
Proof.
  revert s added removed. induction cs as [|c cs IH]; intros s added removed Hc H.
  { injection H as <-. split; [done|]. by exists added, removed. }
  cbn [run] in H. unfold bind in H. destruct (execute c s) as [[[]|] s1] eqn:He; [|done].
  assert (blocked_domains s1 = wanted (blocked_domains s) c ∧ ∃ a r, consistent base s1 a r) as (Hb & a & r & Hc1).
  { destruct c as [d|d]; cbn in He.
    - destruct (add_domain_spec _ _ _ _ _ _ _ Hc He) as [Hb Hc1]. split; [|done]. apply set_eq. intros x. rewrite Hb. set_solver.
    - destruct (remove_domain_spec _ _ _ _ _ _ _ Hc He) as [Hb Hc1]. split; [|done]. apply set_eq. intros x. rewrite Hb. set_solver. }
  cbn [foldl]. rewrite <-Hb. by apply (IH s1 a r).
Qed.

(** C10: the user's changes survive a restart: whatever is added and removed after
    the lists have been merged, while the storage works, the set in memory is what
    the commands ask for, and the application that starts again with the same
    shipped list and merges has the same set. *)
Theorem list_survives_restart lines o added removed s cs s1 s2 :
  stored (start lines o) ADDED_DOMAIN_KEY = Some added → stored (start lines o) REMED_DOMAIN_KEY = Some removed →
  (∀ d, d ∈ added → d ∉ removed) →
  merge_domains (start lines o) = (Some (), s) → run cs s = (Some (), s1) →
  merge_domains (start lines (storage s1)) = (Some (), s2) →
  blocked_domains s1 = foldl wanted (blocked_domains s) cs ∧ blocked_domains s2 = blocked_domains s1.
Proof.
  intros Ha Hr Hd Hm Hc Hm2. destruct (merge_consistent _ _ _ _ Ha Hr Hd Hm) as (a & r & Hs).
  destruct (run_consistent _ _ _ _ _ _ Hs Hc) as (Hb & a1 & r1 & H1). split; [done|].
  pose proof H1 as (Ha1 & Hr1 & _ & _ & _ & _ & Hb1).
  destruct (merge_spec (start lines (storage s1)) a1 r1 s2) as (a2 & r2 & _ & _ & _ & _ & _ & _ & Hb2).
  - rewrite <-Ha1. by apply stored_storage.
  - rewrite <-Hr1. by apply stored_storage.
  - done.
  - apply set_eq. intros d. rewrite Hb1, Hb2. done.
Qed.

(** Merging again, as every initialised window does, empties both stored lists:
    the set in memory stays, but after the next start it is the shipped one and all
    of the user's changes are lost. *)
Theorem second_merge_forgets lines o added removed s s1 s2 :
  stored (start lines o) ADDED_DOMAIN_KEY = Some added → stored (start lines o) REMED_DOMAIN_KEY = Some removed →
  (∀ d, d ∈ added → d ∉ removed) →
  merge_domains (start lines o) = (Some (), s) → merge_domains s = (Some (), s1) →
  merge_domains (start lines (storage s1)) = (Some (), s2) →
  blocked_domains s1 = blocked_domains s
  ∧ stored s1 ADDED_DOMAIN_KEY = Some [] ∧ stored s1 REMED_DOMAIN_KEY = Some []
  ∧ blocked_domains s2 = blocked_domains (start lines o).
Proof.
  intros Ha Hr Hd Hm Hm1 Hm2. destruct (merge_consistent _ _ _ _ Ha Hr Hd Hm) as (a & r & Has & Hrs & _ & _ & Hab & Hrb & Hb).
  destruct (merge_spec s a r s1 Has Hrs Hm1) as (a1 & r1 & H1 & H2 & _ & _ & H5 & H6 & H7).
  assert (a1 = []) as ->.
  { destruct a1 as [|d a1]; [done|]. destruct (proj1 (H5 d)) as [Hda Hn]; [by left|]. destruct Hn. apply Hb. naive_solver. }
  assert (r1 = []) as ->.
  { destruct r1 as [|d r1]; [done|]. destruct (proj1 (H6 d)) as [Hdr [Hx|Hx]]; [by left|by apply Hb in Hx as []|naive_solver]. }
  split; [apply set_eq; intros d; rewrite H7, Hb; naive_solver|]. split; [done|]. split; [done|].
  destruct (merge_spec (start lines (storage s1)) [] [] s2) as (a2 & r2 & _ & _ & _ & _ & _ & _ & Hb2).
  - rewrite <-H1. by apply stored_storage.
  - rewrite <-H2. by apply stored_storage.
  - done.
  - apply set_eq. intros d. rewrite Hb2. cbn. set_solver.
Qed.

(** When saving fails the domain is blocked in memory and the lists stay as they
    were, and trying again reports success without saving. *)
Theorem failed_save_is_not_retried base s added removed d s1 :
  consistent base s added removed → add_domain d s = (None, s1) →
  d ∈ blocked_domains s1 ∧ stored s1 ADDED_DOMAIN_KEY = Some added ∧ stored s1 REMED_DOMAIN_KEY = Some removed
  ∧ d ∉ added ∧ add_domain d s1 = (Some (), s1).
Proof.
  intros Hc H. pose proof Hc as (_ & _ & _ & _ & Hab & Hrb & Hb).
  destruct (add_domain_spec _ _ _ _ _ _ _ Hc H) as [Hb1 [H1 H2]].
  assert (d ∈ blocked_domains s1) as Hd by (apply Hb1; by right). split_and!; [done..| |].
  - intros Hda. unfold add_domain, bind at 1, insert in H. rewrite bool_decide_false in H; [done|].
    intros Hn. apply Hn, Hb. naive_solver.
  - unfold add_domain, bind at 1, insert. rewrite bool_decide_false by (by intros []).
    destruct s1 as [b o]. cbn in *. unfold ret. do 2 f_equal. set_solver.
Qed.

(** What is found is blocked, has the pattern, and there are at most ten. *)
Lemma search_domain_spec s domain d :
  (d ∈ search_domain s domain → d ∈ blocked_domains s ∧ str_contains d domain = true)
  ∧ (length (search_domain s domain) <= 10)%nat.
Proof.
  unfold search_domain. split; [|rewrite length_take; lia].
  intros Hd%(subseteq_take 10). apply list_elem_of_filter in Hd as [Hc He]. by apply elem_of_elements in He.
Qed.

End MobileDomains.
End MobileDomains.

(** ** Examples *)

Module MobileDomainsWitness.
Import MobileDomains.

(** A list is written with a mark before every character and after every domain;
    the storage may be full. *)
Definition write (l : list bytes) : bytes :=
  2 :: mjoin ((λ d, mjoin ((λ x, [1; x]) <$> d) ++ [0]) <$> l).

Fixpoint read (domain : bytes) (data : bytes) : option (list bytes) :=
  match data with
  | 1 :: x :: data => read (domain ++ [x]) data
  | 0 :: data => l ← read [] data; Some (domain :: l)
  | [] => Some []
  | _ => None
  end.

Lemma read_write_from domain d data :
  read domain (mjoin ((λ x, [1; x]) <$> d) ++ 0 :: data) = (l ← read [] data; Some ((domain ++ d) :: l)).
Proof.
  revert domain. induction d as [|x d IH]; intros domain; cbn [fmap list_fmap mjoin list_join app read].
  { by rewrite app_nil_r. }
  rewrite IH. by rewrite <-app_assoc.
Qed.

Lemma read_write l : read [] (mjoin ((λ d, mjoin ((λ x, [1; x]) <$> d) ++ [0]) <$> l)) = Some l.
Proof.
  induction l as [|d l IH]; [done|]. rewrite fmap_cons. change (mjoin (?a :: ?b)) with (a ++ mjoin b).
  rewrite <-app_assoc. change ([0] ++ ?x) with (0 :: x). rewrite read_write_from, IH. done.
Qed.

(** The latest entry of a key counts. *)
Fixpoint entry (entries : list (bytes * bytes)) (key : bytes) : bytes :=
  match entries with
  | [] => []
  | (k, d) :: entries => if bool_decide (k = key) then d else entry entries key
  end.

Record preferences : Type := mkPreferences { entries : list (bytes * bytes); full : bool }.

#[local] Instance platform : Platform := {
  Storage := preferences;
  platform_load_data o k := Some (entry (entries o) k);
  platform_save_data o k d := if full o then (None, o) else (Some (), mkPreferences ((k, d) :: entries o) false);
  to_string l := Some (write l);
  from_str d := match d with 2 :: d => read [] d | _ => None end
}.

#[local] Instance platform_ok : PlatformOk platform.
Proof.
  split.
  - intros [e []] k d o'; cbn; [done|]. intros [= <-]. cbn. by rewrite bool_decide_true.
  - intros [e []] k k' d r o'; cbn; [by intros [= _ <-]|]. intros [= _ <-] Hk. cbn. by rewrite bool_decide_false.
  - intros [e []] k d o'; cbn; [|done]. by intros [= <-].
  - intros l d [= <-]. split; [done|apply read_write].
Qed.

(** "a.b", "c.d" and "e.f"; the first two are shipped. *)
Definition ab : bytes := [97; 46; 98].
Definition cd : bytes := [99; 46; 100].
Definition ef : bytes := [101; 46; 102].
Definition shipped : list (option bytes) := [Some ab; Some cd].
Definition fresh : Storage := mkPreferences [] false.

Definition merged : t := (merge_domains (start shipped fresh)).2.
Definition edits : list command := [Add ef; Remove ab; Remove cd; Add ab].
Definition edited : t := (run edits merged).2.
Definition restarted : t := (merge_domains (start shipped (storage edited))).2.

Lemma list_survives_restart_witness :
  blocked_domains edited = foldl wanted (blocked_domains merged) edits
  ∧ blocked_domains restarted = blocked_domains edited ∧ ef ∈ blocked_domains restarted ∧ cd ∉ blocked_domains restarted.
Proof.
  destruct (list_survives_restart shipped fresh [] [] merged edits edited restarted) as [H1 H2];
    [by vm_compute|by vm_compute|by intros d ?%not_elem_of_nil|by vm_compute|by vm_compute|by vm_compute|].
  split_and!; [exact H1|exact H2|..]; apply (bool_decide_unpack _); by vm_compute.
Defined.

(** After the edits and a restart the window is initialised twice. *)
Definition again : t := (merge_domains restarted).2.

Lemma second_merge_forgets_witness :
  blocked_domains again = blocked_domains restarted
  ∧ stored again ADDED_DOMAIN_KEY = Some [] ∧ stored again REMED_DOMAIN_KEY = Some []
  ∧ blocked_domains (merge_domains (start shipped (storage again))).2 = blocked_domains (start shipped (storage edited)).
Proof.
  apply (second_merge_forgets shipped (storage edited) [ef] [cd] restarted again);
    [by vm_compute|by vm_compute| |by vm_compute|by vm_compute|by vm_compute].
  intros d ->%list_elem_of_singleton. apply (bool_decide_unpack _). by vm_compute.
Defined.

Definition stuck : t := mk (blocked_domains merged) (mkPreferences (entries (storage merged)) true).

Lemma failed_save_is_not_retried_witness :
  ef ∈ blocked_domains (add_domain ef stuck).2
  ∧ stored (add_domain ef stuck).2 ADDED_DOMAIN_KEY = Some [] ∧ stored (add_domain ef stuck).2 REMED_DOMAIN_KEY = Some []
  ∧ ef ∉ @nil bytes ∧ add_domain ef (add_domain ef stuck).2 = (Some (), (add_domain ef stuck).2).
Proof.
  apply (failed_save_is_not_retried {[ab; cd]} stuck [] []); [|by vm_compute].
  split_and!; try (by vm_compute); try (by intros d ?%not_elem_of_nil); [apply NoDup_nil_2..|].
  intros d. rewrite elem_of_nil. assert (blocked_domains stuck = {[ab; cd]}) as -> by (by vm_compute). naive_solver.
Defined.
End MobileDomainsWitness.
