(* ===== verification/WinAdapter.v ===== *)
(** * Network adapters of Windows ([src/wintool/src/adapter.rs])

    The functions over the adapters [GetAdaptersAddresses] lists and the name server
    each has in the registry.  The lists of an adapter hold its addresses, already
    converted from socket addresses.  What Windows makes of the text of a name server
    entry is a parameter.  [None] is a panic. *)

From Stdlib Require Import ZArith Lia.
From stdpp Require Import base option list gmap.
From S2P Require Import Prelude Net MobileDomains.

Open Scope Z_scope.

Module WinAdapter.

(** What [IP_ADAPTER_ADDRESSES] holds of an adapter; [assigned] are the name servers
    the network gives it. *)
Record AdapterAddresses : Type := mkAdapter {
  if_index : Z;
  name : bytes;
  description : bytes;
  gateway : list IpAddr;
  address : list IpAddr;
  assigned : list IpAddr;
  oper_up : bool;
  if_type : Z
}.

(** The adapters, the "NameServer" value of the interfaces that have a key in the
    registry, and whether the key can be written. *)
Record t : Type := mk {
  adapters : list AdapterAddresses;
  registry : gmap bytes (option bytes);
  writable : bool
}.

(** [ipifcons]. *)
Definition IF_TYPE_ETHERNET_CSMACD : Z := 6.
Definition IF_TYPE_IEEE80212 : Z := 55.
Definition IF_TYPE_IEEE80211 : Z := 71.

Definition is_up (a : AdapterAddresses) : bool := oper_up a.
Definition is_ethernet (a : AdapterAddresses) : bool :=
  (if_type a =? IF_TYPE_ETHERNET_CSMACD) || (if_type a =? IF_TYPE_IEEE80211) || (if_type a =? IF_TYPE_IEEE80212).

(** A missing value panics, a missing key does not. *)
Definition is_dns_auto (w : t) (a : AdapterAddresses) : option bool :=
  match registry w !! name a with
  | Some value => value ← value; Some (bool_decide (value = []))
  | None => Some true
  end.

(** [AdapterAddresses::set_dns_server]. *)
Definition adapter_set_dns_server (w : t) (a : AdapterAddresses) (name_server : bytes) : bool * t :=
  match registry w !! name a with
  | Some _ => if writable w then (true, mk (adapters w) (<[name a := Some name_server]> (registry w)) true) else (false, w)
  | None => (false, w)
  end.

Definition is_main_adapter_v4 (a : AdapterAddresses) : bool :=
  if negb (is_ethernet a) || negb (is_up a) then false
  else existsb (λ ip, is_ipv4 ip && existsb is_ipv4 (address a)) (gateway a).

(** The loop over the adapters ends with the first that [callback] accepts. *)
Fixpoint get_adapters_addresses {S} (callback : AdapterAddresses → S → option (bool * S))
    (l : list AdapterAddresses) (s : S) : option (bool * S) :=
  match l with
  | [] => Some (false, s)
  | a :: l =>
      '(ret, s) ← callback a s;
      if (ret : bool) then Some (true, s) else get_adapters_addresses callback l s
  end.

(** The loops that return with the first IPv4 address. *)
Definition first_ipv4 (ips : list IpAddr) : option bytes := ip_to_string <$> head (filter (λ ip, is_ipv4 ip = true) ips).
Lemma first_ipv4_cons o l : first_ipv4 (V4 o :: l) = Some (ip_to_string (V4 o)).
Proof. unfold first_ipv4. by rewrite filter_cons_True. Qed.

Definition found {A} (r : option A) (s : option A) : option (bool * option A) :=
  Some (match r with Some _ => (true, r) | None => (false, s) end).

Definition get_adapter_ip (w : t) (n : bytes) : option (option bytes) :=
  snd <$> get_adapters_addresses
    (λ a ret, if MobileDomains.str_contains (description a) n then found (first_ipv4 (address a)) ret
              else Some (false, ret)) (adapters w) None.

Definition get_adapter_index (w : t) (n : bytes) : option (option Z) :=
  snd <$> get_adapters_addresses
    (λ a index, if MobileDomains.str_contains (description a) n then Some (true, Some (if_index a))
                else Some (false, index)) (adapters w) None.

Definition get_main_adapter_ip (w : t) : option (option bytes) :=
  snd <$> get_adapters_addresses
    (λ a ret, if is_main_adapter_v4 a then found (first_ipv4 (address a)) ret else Some (false, ret)) (adapters w) None.

Definition get_main_adapter_gwif (w : t) : option (option (bytes * Z)) :=
  snd <$> get_adapters_addresses
    (λ a ret, if is_main_adapter_v4 a then found ((., if_index a) <$> first_ipv4 (gateway a)) ret else Some (false, ret))
    (adapters w) None.

Definition set_dns_server (w : t) (name_server : bytes) : option (bool * t) :=
  get_adapters_addresses
    (λ a w, Some (if is_main_adapter_v4 a then adapter_set_dns_server w a name_server else (false, w))) (adapters w) w.

Section Dns.
(** The servers of a name server entry. *)
Context (servers : bytes → list IpAddr).

(** What the adapter's list of name servers holds. *)
Definition dns (w : t) (a : AdapterAddresses) : list IpAddr :=
  match registry w !! name a with
  | Some (Some ((_ :: _) as value)) => servers value
  | _ => assigned a
  end.

(** The address and whether it was set by hand. *)
Definition get_dns_server (w : t) : option (option (bytes * bool)) :=
  snd <$> get_adapters_addresses
    (λ a ret,
       if is_main_adapter_v4 a then
         match first_ipv4 (dns w a) with
         | Some ip => auto ← is_dns_auto w a; found (Some (ip, negb auto)) ret
         | None => Some (false, ret)
         end
       else Some (false, ret)) (adapters w) None.

(** ** One main adapter *)

(** An entry that holds the text of an address names that address. *)
Context (servers_one : ∀ o, wf_ip (V4 o) → servers (ip_to_string (V4 o)) = [V4 o]).

(** [a] is the only adapter that leads to the network, and its entry can be
    written. *)
Record main (w : t) (a : AdapterAddresses) : Prop := mkMain {
  m_writable : writable w = true;
  m_entry : ∃ value, registry w !! name a = Some (Some value);
  m_listed : ∃ before after, adapters w = before ++ a :: after
    ∧ Forall (λ b, is_main_adapter_v4 b = false) before ∧ Forall (λ b, is_main_adapter_v4 b = false) after;
  m_main : is_main_adapter_v4 a = true;
  m_assigned : Forall wf_ip (assigned a);
  m_servers : ∀ value, Forall wf_ip (servers value)
}.

Lemma skip_adapters {S} (callback : AdapterAddresses → S → option (bool * S)) before l s :
  Forall (λ b, ∀ s, callback b s = Some (false, s)) before →
  get_adapters_addresses callback (before ++ l) s = get_adapters_addresses callback l s.
Proof. induction 1 as [|b before Hb _ IH]; [done|]. cbn. rewrite Hb. cbn. exact IH. Qed.

(** A loop that looks at main adapters only looks at [a] only. *)
Lemma main_only {S} (f : AdapterAddresses → S → option (bool * S)) w a s :
  main w a →
  get_adapters_addresses (λ b s, if is_main_adapter_v4 b then f b s else Some (false, s)) (adapters w) s = f a s.
Proof.
  intros [_ _ (before & after & -> & Hb & Ha) Hm _ _]. rewrite skip_adapters.
  2: { eapply Forall_impl; [exact Hb|]. intros b Hf s'. by rewrite Hf. }
  cbn. rewrite Hm. destruct (f a s) as [[[] s']|]; cbn; [done| |done].
  rewrite <-(app_nil_r after), skip_adapters; [done|].
  eapply Forall_impl; [exact Ha|]. intros b Hf s1. by rewrite Hf.
Qed.

Lemma main_set w a v :
  main w a → set_dns_server w v = Some (true, mk (adapters w) (<[name a := Some v]> (registry w)) true).
Proof.
  intros Hm. unfold set_dns_server. transitivity (Some (adapter_set_dns_server w a v)).
  - rewrite <-(main_only (λ a w, Some (adapter_set_dns_server w a v)) w a w Hm).
    generalize (adapters w) at 1 2. intros l. generalize w at 1 2. induction l as [|b l IH]; intros w'; [done|].
    cbn. destruct (is_main_adapter_v4 b); cbn; [|apply IH]. destruct (adapter_set_dns_server w' b v) as [[] w1]; [done|apply IH].
  - unfold adapter_set_dns_server. destruct Hm as [-> [value ->] _ _ _ _]. done.
Qed.

Lemma main_after_set w a v :
  main w a → main (mk (adapters w) (<[name a := Some v]> (registry w)) true) a.
Proof. intros [? ? ? ? ? ?]. split; try done. exists v. cbn. by rewrite lookup_insert_eq. Qed.

Lemma main_get w a value :
  main w a → registry w !! name a = Some (Some value) →
  get_dns_server w = Some ((., negb (bool_decide (value = []))) <$> first_ipv4 (dns w a)).
Proof.
  intros Hm Hv. unfold get_dns_server.
  rewrite (main_only (λ a ret, match first_ipv4 (dns w a) with
    | Some ip => auto ← is_dns_auto w a; found (Some (ip, negb auto)) ret | None => Some (false, ret) end) w a None Hm).
  destruct (first_ipv4 (dns w a)) as [ip|]; [|done]. unfold is_dns_auto. rewrite Hv. done.
Qed.

(** The text of an IPv4 address is not empty. *)
Lemma ipv4_text o : wf_ip (V4 o) → ip_to_string (V4 o) ≠ [].
Proof.
  intros Hw He. pose proof (servers_one o Hw) as H1. rewrite He in H1.
  assert (wf_ip (V4 [0; 0; 0; 0])) as Hz by (split; [done|]; repeat constructor; lia).
  assert (ipv4_to_string o = []) as Ho by exact He. clear -Ho Hw.
  destruct Hw as [Hl _]. destruct o as [|x [|y o]]; [done|done|]. unfold ipv4_to_string in Ho. cbn -[digits] in Ho.
  by apply app_eq_nil in Ho as [_ ?].
Qed.

(** Putting back what was read of the main adapter, whatever its entry has become. *)
Lemma put_back_gets w0 w a d (explicit : bool) :
  main w0 a → main w a → get_dns_server w0 = Some (Some (d, explicit)) →
  get_dns_server (mk (adapters w) (<[name a := Some (if explicit then d else [])]> (registry w)) true) = Some (Some (d, explicit)).
Proof.
  intros Hm0 Hm Hg. set (x := if explicit then d else []). pose proof (main_after_set w a x Hm) as Hm2.
  destruct (m_entry _ _ Hm0) as [value Hv]. rewrite (main_get w0 a value) in Hg by done.
  destruct (first_ipv4 (dns w0 a)) as [ip|] eqn:Hf; [|done]. injection Hg as <- He.
  rewrite (main_get _ a x) by (cbn; by rewrite ?lookup_insert_eq). unfold dns. cbn [registry]. rewrite lookup_insert_eq.
  unfold dns in Hf. rewrite Hv in Hf. destruct value as [|c value]; cbn in He; subst explicit; unfold x.
  - by rewrite Hf.
  - unfold first_ipv4 in Hf. destruct (filter _ (servers (c :: value))) as [|i l] eqn:Hfl; [done|].
    cbn in Hf. injection Hf as <-.
    assert (i ∈ filter (λ ip, is_ipv4 ip = true) (servers (c :: value))) as [Hi4 Hi]%list_elem_of_filter by (rewrite Hfl; by left).
    destruct i as [o|]; [|done]. pose proof (m_servers _ _ Hm0 (c :: value)) as Hw. rewrite Forall_forall in Hw.
    specialize (Hw _ Hi). pose proof (ipv4_text o Hw) as Hne. pose proof (servers_one o Hw) as Hs.
    destruct (ip_to_string (V4 o)) as [|y text] eqn:Ht; [done|]. rewrite Hs, first_ipv4_cons. by rewrite Ht.
Qed.

(** What the client reads of the name server of the main adapter before a
    session is what it finds after it, if it puts back what it has read: an address
    set by hand, or none if the network assigns it; whatever the entry was in the
    meantime. *)
Theorem name_server_put_back w a d explicit v w1 w2 :
  main w a → get_dns_server w = Some (Some (d, explicit)) →
  set_dns_server w v = Some (true, w1) →
  set_dns_server w1 (if explicit : bool then d else []) = Some (true, w2) →
  get_dns_server w2 = Some (Some (d, explicit)).
Proof.
  intros Hm Hg H1 H2. rewrite (main_set _ a) in H1 by done. injection H1 as <-.
  pose proof (main_after_set w a v Hm) as Hm1. rewrite (main_set _ a) in H2 by done. injection H2 as <-.
  exact (put_back_gets w _ a d explicit Hm Hm1 Hg).
Qed.

(** Of several name servers that were set by hand only the first stays. *)
Lemma other_name_servers_lost w a value i l w1 v w2 d explicit :
  main w a → registry w !! name a = Some (Some value) → value ≠ [] → servers value = V4 i :: l →
  get_dns_server w = Some (Some (d, explicit)) → set_dns_server w v = Some (true, w1) →
  set_dns_server w1 (if explicit : bool then d else []) = Some (true, w2) → dns w2 a = [V4 i].
Proof.
  intros Hm Hv Hne Hs Hg H1 H2. rewrite (main_set _ a) in H1 by done. injection H1 as <-.
  pose proof (main_after_set w a v Hm) as Hm1. rewrite (main_set _ a) in H2 by done. injection H2 as <-.
  cbn [adapters registry]. rewrite insert_insert_eq. rewrite (main_get w a value) in Hg by done.
  pose proof (m_servers _ _ Hm value) as Hw. rewrite Hs in Hw. apply Forall_cons in Hw as [Hw _].
  unfold dns in Hg. rewrite Hv in Hg. destruct value as [|c value]; [done|]. rewrite Hs, first_ipv4_cons in Hg.
  cbn -[ip_to_string] in Hg. injection Hg as <- <-. unfold dns. cbn [registry]. rewrite lookup_insert_eq.
  pose proof (ipv4_text i Hw) as Ht. pose proof (servers_one i Hw) as H1.
  cbn [ip_to_string] in *. by destruct (ipv4_to_string i).
Qed.

End Dns.
End WinAdapter.
