(* ===== verification/Client.v ===== *)
(** * The desktop client ([src/trojan-client/src-tauri/src/main.rs])

    The client runs the tunnel and, beside it, the local DNS server as processes of
    their own.  The commands of the window run one after the other on the main
    thread; every session that is started has a task that spawns the processes and
    waits for them to end.  They share one state behind a mutex: every section that
    holds it is one step here, spawning a process and telling the window are steps of
    their own.  A command that waits for the mutex it holds, or panics with it, is
    [Stuck], and nobody gets the mutex any more.  The name server of the system is
    that of [WinAdapter].  Files, [serde_json] and the paths of resources are the
    platform's; logging, the tray and the title's text are left out. *)

From Stdlib Require Import ZArith Lia Ascii String Floats.SpecFloat.
From stdpp Require Import base option list gmap relations.
From S2P Require Import Prelude Net AsyncIo NetProfiler WinAdapter.

Open Scope Z_scope.

Module Client.

(** ** Configuration *)

Definition text (s : string) : bytes := (λ c, Z.of_N (N_of_ascii c)) <$> list_ascii_of_string s.

Record Config : Type := mkConfig {
  iface_name : bytes;
  server_domain : bytes;
  server_auth : bytes;
  log_level : bytes;
  pool_size : Z;
  enable_ipset : bool;
  inverse_route : bool;
  enable_dns : bool;
  sync_mode : bool;
  dns_listen : bytes;
  trust_dns : bytes
}.

(** [Config::default]. *)
Definition default_config : Config := mkConfig [] [] [] [] 0 false false false false [] [].

Definition log_level_str (c : Config) : bytes :=
  if bool_decide (log_level c = text "Trace") then text "0"
  else if bool_decide (log_level c = text "Debug") then text "1"
  else if bool_decide (log_level c = text "Info") then text "2"
  else if bool_decide (log_level c = text "Warn") then text "3"
  else if bool_decide (log_level c = text "Error") then text "4"
  else text "5".

Section Client.
(** [serde_json::to_string] and [from_reader], the paths of resources, the name
    servers of an entry. *)
Context (to_string : Config → option bytes) (from_reader : bytes → option Config).
Context (resource : bytes → bytes) (servers : bytes → list IpAddr).

(** The file is truncated when it is opened. *)
Definition save_config (config : Config) (opened : bool) (w : write_outcome) (file : option bytes) : bool * option bytes :=
  if negb opened then (false, file)
  else
    match to_string config with
    | None => (false, Some [])
    | Some data => (write_is_ok w, Some (written w data))
    end.

Definition init_config (opened : bool) (file : option bytes) : option Config :=
  match file with
  | Some content => if opened then from_reader content else None
  | None =>
      Some (mkConfig (text "trojan") [] [] (text "Info") 20 false false true false (text "127.0.0.1") (text "8.8.8.8"))
  end.

(** What the tunnel and the DNS server are started with. *)
Definition wintun_args (config : Config) (default_dns : bytes) : list bytes :=
  [text "-l"; text "logs\wintun.log"; text "-L"; log_level_str config; text "-a"; text "127.0.0.1:60080";
   text "-p"; server_auth config; if sync_mode config then text "wintun" else text "awintun";
   text "-n"; iface_name config; text "-H"; server_domain config; text "-s"; text "logs\wintun.status";
   text "--dns-server-addr"; default_dns; text "-P"; digits 10 10 (pool_size config);
   text "-w"; resource (text "libs/wintun.dll")]
  ++ (if enable_ipset config then
        [text "--route-ipset"; resource (text "config/ipset.txt")]
        ++ (if inverse_route config then [text "--inverse-route"] else [])
      else []).

Definition dns_args (config : Config) (default_dns : bytes) : list bytes :=
  [text "-l"; text "logs\dns.log"; text "-L"; log_level_str config; text "-a"; text "127.0.0.1:60080";
   text "-p"; server_auth config; text "dns"; text "-n"; iface_name config;
   text "--blocked-domain-list"; resource (text "config/domain.txt"); text "--poisoned-dns"; default_dns;
   text "--trusted-dns"; trust_dns config; text "--dns-listen-address"; dns_listen config ++ text ":53";
   text "--hosts"; resource (text "config/hosts.txt")]
  ++ (if negb (enable_ipset config) then [text "--add-route"] else []).

(** ** The state behind the mutex *)

(** A child is the number of its process; the icons are left out. *)
Record TrojanProxy : Type := mkProxy {
  config : Config;
  wintun : option nat;
  dns : option nat;
  rx_speed : spec_float;
  tx_speed : spec_float;
  last_update : Z;
  default_dns : bytes;
  explicit_dns : bool
}.

Definition with_config (p : TrojanProxy) (c : Config) : TrojanProxy :=
  mkProxy c (wintun p) (dns p) (rx_speed p) (tx_speed p) (last_update p) (default_dns p) (explicit_dns p).
Definition with_wintun (p : TrojanProxy) (w : option nat) : TrojanProxy :=
  mkProxy (config p) w (dns p) (rx_speed p) (tx_speed p) (last_update p) (default_dns p) (explicit_dns p).
Definition with_dns (p : TrojanProxy) (d : option nat) : TrojanProxy :=
  mkProxy (config p) (wintun p) d (rx_speed p) (tx_speed p) (last_update p) (default_dns p) (explicit_dns p).
Definition with_speed (p : TrojanProxy) (rx tx : spec_float) (time : Z) : TrojanProxy :=
  mkProxy (config p) (wintun p) (dns p) rx tx time (default_dns p) (explicit_dns p).
Definition with_name_server (p : TrojanProxy) (d : bytes) (explicit : bool) : TrojanProxy :=
  mkProxy (config p) (wintun p) (dns p) (rx_speed p) (tx_speed p) (last_update p) d explicit.

Definition new (opened : bool) (file : option bytes) : TrojanProxy :=
  mkProxy (default default_config (init_config opened file)) None None (S754_zero false) (S754_zero false) 0 [] false.

(** The flag is that of [Ok]; [None] panics. *)
Definition update_dns (p : TrojanProxy) (w : WinAdapter.t) : option (bool * TrojanProxy * WinAdapter.t) :=
  ret ← WinAdapter.get_dns_server servers w;
  match ret with
  | None => Some (false, p, w)
  | Some (dns, set) =>
      addr ← WinAdapter.get_main_adapter_ip w;
      match addr with
      | None => Some (false, p, w)
      | Some addr =>
          if bool_decide (addr = dns) || bool_decide (dns = text "127.0.0.1") then
            '(_, w) ← WinAdapter.set_dns_server w []; Some (false, p, w)
          else Some (true, with_name_server p dns set, w)
      end
  end.

Definition set_dns_server (p : TrojanProxy) (w : WinAdapter.t) : WinAdapter.t :=
  match WinAdapter.set_dns_server w (if explicit_dns p then default_dns p else []) with
  | Some (_, w) => w
  | None => w
  end.

(** *** Speeds *)

Definition is_digit (c : Z) : bool := (48 <=? c) && (c <=? 57).
Definition lower (c : Z) : Z := if (65 <=? c) && (c <=? 90) then c + 32 else c.

(** The digits at the front, their number, and the rest. *)
Fixpoint read_digits (acc : Z) (n : nat) (s : bytes) : Z * nat * bytes :=
  match s with
  | c :: s' => if is_digit c then read_digits (acc * 10 + (c - 48)) (S n) s' else (acc, n, s)
  | [] => (acc, n, [])
  end.

Definition read_sign (s : bytes) : bool * bytes :=
  match s with 45 :: s => (true, s) | 43 :: s => (false, s) | _ => (false, s) end.

(** The exponent that ends a number. *)
Definition read_exponent (s : bytes) : option Z :=
  match s with
  | [] => Some 0
  | c :: s =>
      if lower c =? 101 then
        let '(negative, s) := read_sign s in
        match read_digits 0 0 s with
        | (e, S _, []) => Some (if negative : bool then - e else e)
        | _ => None
        end
      else None
  end.

(** [m * 10 ^ e], rounded to nearest. *)
Definition f32_of_decimal (negative : bool) (m e : Z) : spec_float :=
  match m with
  | Zpos p =>
      if 0 <=? e then binary_normalize 24 128 (if negative then - (m * 10 ^ e) else m * 10 ^ e) 0 negative
      else match 10 ^ (- e) with
           | Zpos q => SFdiv 24 128 (S754_finite negative p 0) (S754_finite false q 0)
           | _ => S754_nan
           end
  | _ => S754_zero negative
  end.

(** [f32::from_str]. *)
Definition parse_f32 (s : bytes) : option spec_float :=
  let '(negative, s) := read_sign s in
  if bool_decide (lower <$> s = text "inf") || bool_decide (lower <$> s = text "infinity") then Some (S754_infinity negative)
  else if bool_decide (lower <$> s = text "nan") then Some S754_nan
  else
    let '(m, n, s) := read_digits 0 0 s in
    let '(m, k, s) := match s with 46 :: s => read_digits m 0 s | _ => (m, O, s) end in
    if (n + k =? 0)%nat then None
    else e ← read_exponent s; Some (f32_of_decimal negative m (e - Z.of_nat k)).

(** The time the status file was changed, if that can be read, its text, and the
    time it is. *)
Definition get_speed (modified : option Z) (content : option bytes) (now : Z) (p : TrojanProxy) :
    option (spec_float * spec_float) * TrojanProxy :=
  match modified with
  | None => (None, p)
  | Some mod_time =>
      if last_update p <? mod_time then
        match content with
        | None => (None, p)
        | Some content =>
            let parse (s : option bytes) := default (S754_zero false) (s ≫= parse_f32) in
            let fields := split 32 content in
            let p := with_speed p (parse (fields !! 0%nat)) (parse (fields !! 1%nat)) mod_time in
            (Some (rx_speed p, tx_speed p), p)
        end
      else if now <? last_update p then (None, p)
      else
        let p := if 1 <? as_secs (now - last_update p)
                 then with_speed p (S754_zero false) (S754_zero false) (last_update p) else p in
        (Some (rx_speed p, tx_speed p), p)
  end.

(** A speed and its unit, "MB" or "KB", as the title shows it. *)
Definition speed_and_unit (speed : spec_float) : spec_float * bytes :=
  if SFltb (f32_of_Z 1024) speed then (f32_div speed (f32_of_Z 1024), text "MB") else (speed, text "KB").
Definition title (r : option (spec_float * spec_float)) : (spec_float * bytes) * (spec_float * bytes) :=
  let '(rx, tx) := default (S754_zero false, S754_zero false) r in (speed_and_unit rx, speed_and_unit tx).

(** ** The client *)

(** What the task of a session does next; [rxs] are the processes it waits for. *)
Inductive task_pc : Type :=
  | Begin
  | Configured (c : Config)
  | Prepared (c : Config) (default_dns : bytes)
  | SpawnedTunnel (c : Config) (child : nat)
  | AskDns (c : Config)
  | Waiting (c : Config)
  | PreparedDns (c : Config) (default_dns : bytes)
  | SpawnedDns (child : nat)
  | DnsFailed
  | Supervise
  | Leaving
  | Ended.

Record task : Type := mkTask { pc : task_pc; rx_wintun : option nat; rx_dns : option nat }.

(** What the main thread does: the sections of [start]. *)
Inductive main_pc : Type :=
  | Idle
  | Starting (c : Config)
  | Updating
  | Showing
  | Painting
  | Asking
  | Stuck
  | Exited.

Record process : Type := mkProcess { is_dns : bool; args : list bytes }.

(** [window] is the last state the window was told. *)
Record t : Type := mk {
  proxy : TrojanProxy;
  file : option bytes;
  system : WinAdapter.t;
  window : bool;
  main : main_pc;
  tasks : list task;
  processes : gmap nat process;
  spawned : nat
}.

Definition with_proxy (s : t) (p : TrojanProxy) : t :=
  mk p (file s) (system s) (window s) (main s) (tasks s) (processes s) (spawned s).
Definition with_file (s : t) (f : option bytes) : t :=
  mk (proxy s) f (system s) (window s) (main s) (tasks s) (processes s) (spawned s).
Definition with_system (s : t) (w : WinAdapter.t) : t :=
  mk (proxy s) (file s) w (window s) (main s) (tasks s) (processes s) (spawned s).
Definition with_window (s : t) (b : bool) : t :=
  mk (proxy s) (file s) (system s) b (main s) (tasks s) (processes s) (spawned s).
Definition with_main (s : t) (m : main_pc) : t :=
  mk (proxy s) (file s) (system s) (window s) m (tasks s) (processes s) (spawned s).
Definition with_tasks (s : t) (l : list task) : t :=
  mk (proxy s) (file s) (system s) (window s) (main s) l (processes s) (spawned s).
Definition with_processes (s : t) (l : gmap nat process) : t :=
  mk (proxy s) (file s) (system s) (window s) (main s) (tasks s) l (spawned s).

(** [main]: the window is told that nothing runs. *)
Definition start_client (opened : bool) (file : option bytes) (w : WinAdapter.t) : t :=
  mk (new opened file) file w false Idle [] ∅ 0.

(** [CommandChild::kill]. *)
Definition kill (s : t) (child : nat) : t := with_processes s (delete child (processes s)).
Definition kill_opt (s : t) (child : option nat) : t := match child with Some p => kill s p | None => s end.

(** [Command::spawn]: the new child. *)
Definition spawn (s : t) (p : process) : t :=
  mk (proxy s) (file s) (system s) (window s) (main s) (tasks s) (<[spawned s := p]> (processes s)) (S (spawned s)).

Definition unlocked (s : t) : bool := match main s with Stuck | Exited => false | _ => true end.
Definition running (s : t) : bool := match main s with Exited => false | _ => true end.

(** *** Commands *)

Definition start (s : t) (c : Config) (opened : bool) (w : write_outcome) : t :=
  let '(ok, f) := save_config c opened w (file s) in
  with_main (with_file s f) (if ok : bool then Starting c else Idle).

(** The rest of [start], section by section. *)
Definition start_rest (s : t) : option t :=
  match main s with
  | Starting c => Some (with_main (with_proxy s (with_config (proxy s) c)) Updating)
  | Updating =>
      Some (match update_dns (proxy s) (system s) with
            | None => with_main s Stuck
            | Some (ok, p, w) => with_main (with_system (with_proxy s p) w) (if ok : bool then Showing else Idle)
            end)
  | Showing => Some (with_main (with_window s true) Painting)
  | Painting => Some (with_main s Asking)
  | Asking =>
      Some (match wintun (proxy s) with
            | Some _ => with_main s Idle
            | None => with_main (with_tasks s (tasks s ++ [mkTask Begin None None])) Idle
            end)
  | _ => None
  end.

(** Without a tunnel the window is told so, with the mutex held. *)
Definition stop (s : t) : t :=
  match wintun (proxy s) with
  | Some child => with_proxy (kill s child) (with_wintun (proxy s) None)
  | None => with_main (with_window s false) Stuck
  end.

Definition quit (s : t) : t :=
  let s := match dns (proxy s) with
           | Some child => kill (with_proxy (with_system s (set_dns_server (proxy s) (system s))) (with_dns (proxy s) None)) child
           | None => s
           end in
  let s := match wintun (proxy s) with
           | Some child => kill (with_proxy s (with_wintun (proxy s) None)) child
           | None => s
           end in
  with_main s Exited.

Definition update_speed (s : t) (modified : option Z) (content : option bytes) (now : Z) : t :=
  with_proxy s (get_speed modified content now (proxy s)).2.

(** *** The task of a session *)

Definition put (s : t) (i : nat) (k : task) : t := with_tasks s (<[i := k]> (tasks s)).
Definition with_pc (k : task) (x : task_pc) : task := mkTask x (rx_wintun k) (rx_dns k).

(** The task goes on until it waits for its processes. *)
Definition run_task (s : t) (i : nat) (ok : bool) : option t :=
  k ← tasks s !! i;
  match pc k with
  | Begin => if unlocked s then Some (put s i (with_pc k (Configured (config (proxy s))))) else None
  | Configured c =>
      if unlocked s then Some (put s i (with_pc k (Prepared c (default_dns (proxy s) ++ text ":53")))) else None
  | Prepared c dns =>
      if ok then Some (put (spawn s (mkProcess false (wintun_args c dns))) i (with_pc k (SpawnedTunnel c (spawned s))))
      else Some (put (with_window s false) i (with_pc k Leaving))
  | SpawnedTunnel c child =>
      if unlocked s then Some (put (with_proxy s (with_wintun (proxy s) (Some child))) i (mkTask (AskDns c) (Some child) (rx_dns k)))
      else None
  | AskDns c =>
      if unlocked s then Some (put s i (with_pc k (if enable_dns (config (proxy s)) then Waiting c else Supervise))) else None
  | Waiting c =>
      if unlocked s then Some (put s i (with_pc k (PreparedDns c (default_dns (proxy s))))) else None
  | PreparedDns c dns =>
      if ok then Some (put (spawn s (mkProcess true (dns_args c dns))) i (with_pc k (SpawnedDns (spawned s))))
      else Some (put s i (with_pc k DnsFailed))
  | SpawnedDns child =>
      if unlocked s then Some (put (with_proxy s (with_dns (proxy s) (Some child))) i (mkTask Supervise (rx_wintun k) (Some child)))
      else None
  | DnsFailed =>
      if unlocked s then
        let s' := kill_opt s (wintun (proxy s)) in
        Some (put (with_proxy s' (with_wintun (proxy s) None)) i (with_pc k Supervise))
      else None
  | Supervise =>
      match rx_wintun k, rx_dns k with
      | None, None => Some (put (with_window s false) i (with_pc k Leaving))
      | _, _ => None
      end
  | Leaving => if unlocked s then Some (put s i (with_pc k Ended)) else None
  | Ended => None
  end.

(** The end of the tunnel's process, or of the DNS server's, is noticed. *)
Definition notice_wintun (s : t) (i : nat) : option t :=
  k ← tasks s !! i;
  match pc k, rx_wintun k, unlocked s with
  | Supervise, Some child, true =>
      match processes s !! child with
      | Some _ => None
      | None =>
          let p := proxy s in
          let s := kill_opt s (dns p) in
          Some (put (with_proxy s (with_dns (with_wintun p None) None)) i (mkTask Supervise None (rx_dns k)))
      end
  | _, _, _ => None
  end.

Definition notice_dns (s : t) (i : nat) : option t :=
  k ← tasks s !! i;
  match pc k, rx_dns k, unlocked s with
  | Supervise, Some child, true =>
      match processes s !! child with
      | Some _ => None
      | None =>
          let p := proxy s in
          let s := kill_opt (with_system s (set_dns_server p (system s))) (wintun p) in
          Some (put (with_proxy s (with_wintun (with_dns p None) None)) i (mkTask Supervise (rx_wintun k) None))
      end
  | _, _, _ => None
  end.

(** *** What happens *)

Inductive event : Type :=
  | Start (c : Config) (opened : bool) (w : write_outcome)
  | StartRest
  | Stop
  | Quit
  | UpdateSpeed (modified : option Z) (content : option bytes) (now : Z)
  | Task (i : nat) (ok : bool)
  | NoticeWintun (i : nat)
  | NoticeDns (i : nat)
  | Dies (child : nat)
  | SetsDns (child : nat) (name_server : bytes).

(** Commands wait for the main thread; a process may end at any time, and the DNS
    server sets the name server of the system.  [None]: it cannot happen. *)
Definition happens (e : event) (s : t) : option t :=
  match e with
  | Start c opened w => match main s with Idle => Some (start s c opened w) | _ => None end
  | StartRest => start_rest s
  | Stop => match main s with Idle => Some (stop s) | _ => None end
  | Quit => match main s with Idle => Some (quit s) | _ => None end
  | UpdateSpeed modified content now =>
      match main s with Idle => Some (update_speed s modified content now) | _ => None end
  | Task i ok => if running s then run_task s i ok else None
  | NoticeWintun i => if running s then notice_wintun s i else None
  | NoticeDns i => if running s then notice_dns s i else None
  | Dies child => match processes s !! child with Some _ => Some (kill s child) | None => None end
  | SetsDns child name_server =>
      match processes s !! child with
      | Some (mkProcess true _) => '(_, w) ← WinAdapter.set_dns_server (system s) name_server; Some (with_system s w)
      | _ => None
      end
  end.

Definition step (s s' : t) : Prop := ∃ e, happens e s = Some s'.

(** The button of the window starts a session when nothing runs and stops it
    otherwise; a patient user waits for the window to change. *)
Definition patient (e : event) (s : t) : bool :=
  match e with Start _ _ _ => negb (window s) | _ => true end.
Definition patient_step (s s' : t) : Prop := ∃ e, patient e s = true ∧ happens e s = Some s'.

(** A run of events. *)
Definition run (es : list event) (s : t) : option t := foldl (λ acc e, acc ≫= happens e) (Some s) es.

(** ** Sessions of a patient user *)

Context (servers_one : ∀ o, wf_ip (V4 o) → servers (ip_to_string (V4 o)) = [V4 o]).

(** The system's main adapter, and the name server it has. *)
Context (a : WinAdapter.AdapterAddresses) (system0 : WinAdapter.t) (addr d : bytes) (explicit : bool).
Context (main_a : WinAdapter.main servers system0 a).
Context (addr_read : WinAdapter.get_main_adapter_ip system0 = Some (Some addr)).
Context (dns_read : WinAdapter.get_dns_server servers system0 = Some (Some (d, explicit))).
Context (dns_usable : d ≠ addr ∧ d ≠ text "127.0.0.1").

(** A session that has not ended, and the processes of a session. *)
Definition busy (k : task) : bool := match pc k with Leaving | Ended => false | _ => true end.
Definition tun_child (k : task) : option nat := match pc k with SpawnedTunnel _ p => Some p | _ => rx_wintun k end.
Definition dns_child (k : task) : option nat := match pc k with SpawnedDns p => Some p | _ => rx_dns k end.

Definition shape (k : task) : Prop :=
  match pc k with
  | Begin | Configured _ | Prepared _ _ | SpawnedTunnel _ _ => rx_wintun k = None ∧ rx_dns k = None
  | AskDns _ | Waiting _ | PreparedDns _ _ | SpawnedDns _ | DnsFailed => rx_dns k = None
  | _ => True
  end.

(** The processes are those of the session [k]; those that run are the children
    that are kept, but for one that was just spawned. *)
Record owns (k : task) (s : t) : Prop := mkOwns {
  o_shape : shape k;
  o_process p x : processes s !! p = Some x →
    if is_dns x then dns_child k = Some p else tun_child k = Some p;
  o_wintun p : wintun (proxy s) = Some p → rx_wintun k = Some p;
  o_wintun_kept p : rx_wintun k = Some p → wintun (proxy s) = None → processes s !! p = None;
  o_dns p : dns (proxy s) = Some p → rx_dns k = Some p;
  o_dns_kept p : rx_dns k = Some p → dns (proxy s) = None → processes s !! p = None;
  o_tun_old p : tun_child k = Some p → (p < spawned s)%nat;
  o_dns_old p : dns_child k = Some p → (p < spawned s)%nat
}.

Definition idle (s : t) : Prop := ∀ j k, tasks s !! j = Some k → busy k = false.
Definition only (i : nat) (k : task) (s : t) : Prop :=
  tasks s !! i = Some k ∧ ∀ j k', tasks s !! j = Some k' → busy k' = true → j = i.

Definition free (s : t) : Prop := processes s = ∅ ∧ wintun (proxy s) = None ∧ dns (proxy s) = None.

(** The name server is the one the client has found. *)
Definition settled (s : t) : Prop := WinAdapter.get_dns_server servers (system s) = Some (Some (d, explicit)).
Definition remembered (s : t) : Prop := default_dns (proxy s) = d ∧ explicit_dns (proxy s) = explicit.

Definition session (s : t) : Prop :=
  (idle s ∧ free s ∧ settled s)
  ∨ ∃ i k, busy k = true ∧ only i k s ∧ owns k s ∧ remembered s ∧ (dns_child k = None → settled s).

Record inv (s : t) : Prop := mkInv {
  i_session : session s;
  i_system : WinAdapter.main servers (system s) a ∧ WinAdapter.adapters (system s) = WinAdapter.adapters system0;
  i_starting : match main s with
               | Starting _ | Updating => idle s
               | Showing => idle s ∧ remembered s
               | Painting | Asking => idle s ∧ remembered s ∧ window s = true
               | Idle => window s = false → idle s
               | Stuck | Exited => True
               end
}.

Lemma main_settled s v :
  inv s → ∃ w, WinAdapter.set_dns_server (system s) v = Some (true, w)
    ∧ WinAdapter.main servers w a ∧ WinAdapter.adapters w = WinAdapter.adapters system0.
Proof.
  intros [_ [Hm Ha] _]. rewrite (WinAdapter.main_set servers _ a) by done. eexists. split; [done|].
  split; [by apply WinAdapter.main_after_set|done].
Qed.

(** The client puts the name server back. *)
Lemma set_dns_settles s :
  inv s → remembered s →
  WinAdapter.get_dns_server servers (set_dns_server (proxy s) (system s)) = Some (Some (d, explicit))
  ∧ WinAdapter.main servers (set_dns_server (proxy s) (system s)) a
  ∧ WinAdapter.adapters (set_dns_server (proxy s) (system s)) = WinAdapter.adapters system0.
Proof.
  intros [_ [Hm Ha] _] [Hd He]. unfold set_dns_server. rewrite Hd, He, (WinAdapter.main_set servers _ a) by done.
  split; [by apply (WinAdapter.put_back_gets servers servers_one system0)|].
  split; [by apply WinAdapter.main_after_set|done].
Qed.

(** What the client reads while the name server is the one it has found. *)
Lemma update_dns_settled s :
  inv s → settled s → update_dns (proxy s) (system s) = Some (true, with_name_server (proxy s) d explicit, system s).
Proof.
  intros [_ [_ Ha] _] Hs. unfold update_dns. rewrite Hs. cbn [mbind option_bind].
  assert (WinAdapter.get_main_adapter_ip (system s) = Some (Some addr)) as ->.
  { rewrite <-addr_read. unfold WinAdapter.get_main_adapter_ip. by rewrite Ha. }
  cbn [mbind option_bind]. destruct dns_usable as [H1 H2]. rewrite !bool_decide_eq_false_2 by congruence. done.
Qed.

Lemma session_not_busy i k s : session s → tasks s !! i = Some k → busy k = true →
  only i k s ∧ owns k s ∧ remembered s ∧ (dns_child k = None → settled s).
Proof.
  intros [(Hi & _)|(j & kj & Hb & [Hj Ho] & H)] Hk Hbk.
  - by rewrite (Hi _ _ Hk) in Hbk.
  - assert (i = j) as -> by (by eapply Ho). rewrite Hk in Hj. by simplify_eq.
Qed.

Lemma lookup_put s i k k' j x : tasks s !! i = Some k → tasks (put s i k') !! j = Some x →
  (j = i ∧ x = k') ∨ (j ≠ i ∧ tasks s !! j = Some x).
Proof.
  intros Hk. cbn. destruct (decide (j = i)) as [->|Hne].
  - rewrite list_lookup_insert_eq by (by eapply lookup_lt_Some). naive_solver.
  - rewrite list_lookup_insert_ne by done. auto.
Qed.

(** The only session goes on, or ends. *)
Lemma only_put i k k' s s' : only i k s → tasks s' = tasks s → only i k' (put s' i k').
Proof.
  intros [Hk Ho] Ht. assert (tasks s' !! i = Some k) as Hk' by by rewrite Ht. split.
  - cbn. apply list_lookup_insert_eq. by eapply lookup_lt_Some.
  - intros j x [[-> _]|[Hne Hx]]%(lookup_put _ _ k); [done| |done]. rewrite Ht in Hx. by apply Ho.
Qed.

Lemma idle_put i k k' s s' : only i k s → tasks s' = tasks s → busy k' = false → idle (put s' i k').
Proof.
  intros [Hk Ho] Ht Hb j x Hx. apply (lookup_put _ _ k) in Hx as [[-> ->]|[Hne Hx]]; [done| |by rewrite Ht].
  destruct (busy x) eqn:Hbx; [|done]. exfalso. apply Hne. rewrite Ht in Hx. by eapply Ho.
Qed.

(** While a session runs, the main thread is not starting one. *)
Lemma busy_main i k s : inv s → tasks s !! i = Some k → busy k = true →
  main s = Stuck ∨ main s = Exited ∨ (main s = Idle ∧ window s = true).
Proof.
  intros [_ _ Hm] Hk Hb. assert (idle s → False) as Hn by (intros Hi; by rewrite (Hi _ _ Hk) in Hb).
  destruct (main s); try (exfalso; by apply Hn, Hm); auto; try (by destruct Hm).
  destruct (window s); [by auto|]. exfalso. by apply Hn, Hm.
Qed.

(** A step of the only session that keeps it running. *)
Lemma session_goes_on i k k' s s' :
  inv s → only i k s → busy k = true → busy k' = true → tasks s' = tasks s → main s' = main s → window s' = window s →
  WinAdapter.main servers (system s') a ∧ WinAdapter.adapters (system s') = WinAdapter.adapters system0 →
  owns k' s' → remembered s' → (dns_child k' = None → settled s') → inv (put s' i k').
Proof.
  intros Hi Ho Hb Hb' Ht Hm Hw Hs Hown Hr Hset. split.
  - right. exists i, k'. split_and!; [done|by eapply only_put|by destruct Hown|done|done].
  - done.
  - cbn. rewrite Hm. destruct (busy_main i k s Hi (proj1 Ho) Hb) as [-> |[-> |[-> Hwin]]]; [done..|].
    rewrite Hw, Hwin. done.
Qed.

(** The end of the only session. *)
Lemma session_ends i k k' s :
  inv s → only i k s → busy k = true → busy k' = false → free s → settled s → inv (put (with_window s false) i k').
Proof.
  intros Hi Ho Hb Hb' Hf Hs. assert (idle (put (with_window s false) i k')) as Hidle by (by eapply idle_put).
  split.
  - left. by split.
  - apply Hi.
  - cbn. destruct (busy_main i k s Hi (proj1 Ho) Hb) as [-> |[-> |[-> _]]]; [done..|]. by intros _.
Qed.

(** A task whose session is over goes on. *)
Lemma inv_put_idle s j x x' : inv s → tasks s !! j = Some x → busy x = false → busy x' = false → inv (put s j x').
Proof.
  intros [Hs Hsys Hm] Hx Hb Hb'. assert (idle s → idle (put s j x')) as Hidle.
  { intros Hi j' y [[_ ->]|[_ Hy]]%(lookup_put _ _ x); [done| |done]. by eapply Hi. }
  split; [|done|].
  - destruct Hs as [(Hi & Hf & Hset)|(i & k & Hbk & [Hk Ho] & H)]; [left; by auto|right]. exists i, k.
    assert (i ≠ j) by congruence. destruct H as ([] & Hr & Hset).
    split_and!; [done| |by split|done|done]. split.
    + cbn. by rewrite list_lookup_insert_ne.
    + intros j' y [[-> ->]|[_ Hy]]%(lookup_put _ _ x); [congruence| |done]. by apply Ho.
  - cbn. destruct (main s); naive_solver.
Qed.

Lemma lookup_kill_opt s c p : processes (kill_opt s c) !! p = if decide (c = Some p) then None else processes s !! p.
Proof.
  destruct c as [q|]; cbn; [|done]. destruct (decide (Some q = Some p)) as [[= ->]|Hne].
  - by rewrite lookup_delete_eq.
  - rewrite lookup_delete_ne; [done|congruence].
Qed.

(** Going on without the processes. *)
Lemma owns_pc k k' s :
  owns k s → shape k' → tun_child k' = tun_child k → dns_child k' = dns_child k →
  rx_wintun k' = rx_wintun k → rx_dns k' = rx_dns k → owns k' s.
Proof. intros [] Hsh Ht Hd Hw Hr. split; rewrite ?Ht, ?Hd, ?Hw, ?Hr; done. Qed.

Lemma owns_shrink k s s' :
  owns k s → (∀ p x, processes s' !! p = Some x → processes s !! p = Some x) → spawned s' = spawned s →
  (∀ p, wintun (proxy s') = Some p → wintun (proxy s) = Some p) →
  (∀ p, rx_wintun k = Some p → wintun (proxy s') = None → processes s' !! p = None) →
  (∀ p, dns (proxy s') = Some p → dns (proxy s) = Some p) →
  (∀ p, rx_dns k = Some p → dns (proxy s') = None → processes s' !! p = None) → owns k s'.
Proof. intros [] Hp Hn ? ? ? ?. split; rewrite ?Hn; auto. intros p x Hx. by apply (o_process0 p x), Hp. Qed.

(** Killing the child that is kept leaves none of its kind. *)
Lemma killed_wintun k s s' p :
  owns k s → rx_wintun k = Some p → processes s' = processes s → processes (kill_opt s' (wintun (proxy s))) !! p = None.
Proof.
  intros Ho Hp Hs. rewrite lookup_kill_opt, Hs. case_decide as Hc; [done|].
  destruct (wintun (proxy s)) as [q|] eqn:Hq; [|by eapply o_wintun_kept].
  apply (o_wintun _ _ Ho) in Hq. congruence.
Qed.

Lemma killed_dns k s s' p :
  owns k s → rx_dns k = Some p → processes s' = processes s → processes (kill_opt s' (dns (proxy s))) !! p = None.
Proof.
  intros Ho Hp Hs. rewrite lookup_kill_opt, Hs. case_decide as Hc; [done|].
  destruct (dns (proxy s)) as [q|] eqn:Hq; [|by eapply o_dns_kept].
  apply (o_dns _ _ Ho) in Hq. congruence.
Qed.

Lemma spawned_kill_opt s c : spawned (kill_opt s c) = spawned s.
Proof. by destruct c. Qed.

Lemma inv_run_task s i ok s' : inv s → run_task s i ok = Some s' → inv s'.
Proof.
  intros Hi. unfold run_task. destruct (tasks s !! i) as [k|] eqn:Hk; cbn [mbind option_bind]; [|done].
  destruct (busy k) eqn:Hb.
  2: { destruct k as [[] rw rd]; try done; cbn [pc]. destruct (unlocked s); [|done]. intros [= <-].
    by eapply inv_put_idle. }
  destruct (session_not_busy i k s (i_session _ Hi) Hk Hb) as (Hon & Hown & Hr & Hset).
  assert (∀ k' s1, busy k' = true → tasks s1 = tasks s → main s1 = main s → window s1 = window s → system s1 = system s →
    owns k' s1 → remembered s1 → (dns_child k' = None → settled s1) → inv (put s1 i k')) as Hgo.
  { intros k' s1 ? ? ? ? Hsys ? ? ?. eapply session_goes_on; try done. rewrite Hsys. apply Hi. }
  destruct k as [x rw rd]. pose proof Hown as [Hsh Hp Hw Hwk Hd Hdk Hto Hdo].
  destruct x; cbn [pc rx_wintun rx_dns tun_child dns_child shape] in *; try done.
  - destruct (unlocked s); [|done]. intros [= <-]. apply Hgo; try done. all: by eapply owns_pc.
  - destruct (unlocked s); [|done]. intros [= <-]. apply Hgo; try done. all: by eapply owns_pc.
  - destruct Hsh as [-> ->]. assert (∀ p, processes s !! p = None) as Hnone.
    { intros p. destruct (processes s !! p) as [y|] eqn:Hy; [|done]. apply Hp in Hy. by destruct (is_dns y). }
    destruct ok; intros [= <-].
    + apply Hgo; try done. split; cbn; try done.
      * intros p y [[<- <-]|[_ Hy]]%lookup_insert_Some; [done|]. by rewrite Hnone in Hy.
      * intros p [= <-]. lia.
    + eapply session_ends; try done; [|by apply Hset]. split_and!; [by apply map_eq; intros p; rewrite Hnone| |].
      * destruct (wintun (proxy s)) as [p|]; [|done]. by specialize (Hw p eq_refl).
      * destruct (dns (proxy s)) as [p|]; [|done]. by specialize (Hd p eq_refl).
  - destruct (unlocked s); [|done]. intros [= <-]. destruct Hsh as [-> ->]. by apply Hgo.
  - destruct (unlocked s); [|done]. intros [= <-]. apply Hgo; try done.
    + by destruct (enable_dns _).
    + destruct (enable_dns _); by eapply owns_pc.
    + destruct (enable_dns _); by cbn.
  - destruct (unlocked s); [|done]. intros [= <-]. apply Hgo; try done. all: by eapply owns_pc.
  - subst rd. destruct ok; intros [= <-].
    + apply Hgo; try done. split; cbn; try done.
      * intros p y [[<- <-]|[_ Hy]]%lookup_insert_Some; [done|]. apply Hp in Hy. by destruct (is_dns y).
      * intros p Hrw Hnone. rewrite lookup_insert_ne; [by apply Hwk|]. apply Hto in Hrw. lia.
      * intros p Hrw. apply Hto in Hrw. lia.
      * intros p [= <-]. lia.
    + apply Hgo; try done. all: by eapply owns_pc.
  - destruct (unlocked s); [|done]. intros [= <-]. subst rd. apply Hgo; try done.
    all: by split; cbn; try done; intros p [= ->].
  - destruct (unlocked s); [|done]. intros [= <-]. subst rd. apply Hgo; try done.
    all: try by destruct (wintun (proxy s)).
    apply (owns_pc (mkTask DnsFailed rw None)); try done. apply (owns_shrink _ s); try done.
    + intros p y. cbn. rewrite lookup_kill_opt. by case_decide.
    + by destruct (wintun (proxy s)).
    + intros p Hrw _. cbn. by eapply (killed_wintun (mkTask DnsFailed rw None)).
  - destruct rw; [done|]. destruct rd; [done|]. intros [= <-]. eapply session_ends; try done; [|by apply Hset].
    split_and!.
    + apply map_eq. intros p. rewrite lookup_empty. destruct (processes s !! p) as [y|] eqn:Hy; [|done].
      apply Hp in Hy. by destruct (is_dns y).
    + destruct (wintun (proxy s)) as [p|]; [|done]. by specialize (Hw p eq_refl).
    + destruct (dns (proxy s)) as [p|]; [|done]. by specialize (Hd p eq_refl).
Qed.

(** The session notices the end of a process. *)
Lemma inv_notice_wintun s i s' : inv s → notice_wintun s i = Some s' → inv s'.
Proof.
  intros Hi. unfold notice_wintun. destruct (tasks s !! i) as [[x rw rd]|] eqn:Hk; cbn [mbind option_bind pc rx_wintun rx_dns]; [|done].
  destruct x; try done. destruct rw as [child|]; [|done]. destruct (unlocked s); [|done].
  destruct (processes s !! child) eqn:Hdead; [done|]. intros [= <-].
  destruct (session_not_busy i _ s (i_session _ Hi) Hk eq_refl) as (Hon & Hown & Hr & Hset).
  eapply session_goes_on; try done; try by destruct (dns (proxy s)). { destruct (dns (proxy s)); apply Hi. }
  pose proof Hown as [_ Hp _ _ _ _ _ Hdo]. split; cbn; try done; rewrite ?spawned_kill_opt; try done.
  - intros p y. rewrite lookup_kill_opt. case_decide; [done|]. intros Hy. pose proof (Hp _ _ Hy) as Hc.
    destruct (is_dns y); [done|]. cbn in Hc. congruence.
  - intros p Hrd _. by eapply killed_dns.
Qed.

Lemma inv_notice_dns s i s' : inv s → notice_dns s i = Some s' → inv s'.
Proof.
  intros Hi. unfold notice_dns. destruct (tasks s !! i) as [[x rw rd]|] eqn:Hk; cbn [mbind option_bind pc rx_wintun rx_dns]; [|done].
  destruct x; try done. destruct rd as [child|]; [|done]. destruct (unlocked s); [|done].
  destruct (processes s !! child) eqn:Hdead; [done|]. intros [= <-].
  destruct (session_not_busy i _ s (i_session _ Hi) Hk eq_refl) as (Hon & Hown & Hr & Hset).
  destruct (set_dns_settles s Hi Hr) as (Hg & Hsys).
  eapply session_goes_on; try done; try by destruct (wintun (proxy s)).
  pose proof Hown as [_ Hp _ _ _ _ Hto _]. split; cbn; try done; rewrite ?spawned_kill_opt; try done.
  - intros p y. rewrite lookup_kill_opt. case_decide; [done|]. intros Hy. pose proof (Hp _ _ Hy) as Hc.
    destruct (is_dns y); [|done]. cbn in Hc, Hy. congruence.
  - intros p Hrw _. by eapply killed_wintun.
Qed.

(** ** Commands *)

(** What does not concern the session. *)
Lemma session_same s s' :
  tasks s' = tasks s → processes s' = processes s → spawned s' = spawned s → system s' = system s →
  wintun (proxy s') = wintun (proxy s) → dns (proxy s') = dns (proxy s) →
  default_dns (proxy s') = default_dns (proxy s) → explicit_dns (proxy s') = explicit_dns (proxy s) →
  session s → session s'.
Proof.
  intros Ht Hp Hn Hs Hw Hd Hdd He [(Hi & (Hf1 & Hf2 & Hf3) & Hset)|(i & k & Hb & [Hk Ho] & Hown & [Hr1 Hr2] & Hset)].
  - left. split_and!; [by unfold idle; rewrite Ht|by split_and!; rewrite ?Hp, ?Hw, ?Hd|by unfold settled; rewrite Hs].
  - right. exists i, k. split_and!; [done|by split; rewrite Ht| |by split; rewrite ?Hdd, ?He|by unfold settled; rewrite Hs].
    destruct Hown. split; rewrite ?Hp, ?Hw, ?Hd, ?Hn; done.
Qed.

Lemma session_idle s : session s → idle s → free s ∧ settled s.
Proof. intros [(_ & H)|(i & k & Hb & [Hk _] & _)] Hi; [done|]. by rewrite (Hi _ _ Hk) in Hb. Qed.

Lemma inv_start_rest s s' : inv s → start_rest s = Some s' → inv s'.
Proof.
  intros Hi. pose proof Hi as [Hs Hsys Hm]. unfold start_rest. destruct (main s) eqn:He; try done.
  - intros [= <-]. split; [by apply (session_same s)|done|done].
  - destruct (session_idle s Hs Hm) as [Hf Hset]. rewrite (update_dns_settled s) by done. intros [= <-].
    split; [by left|done|by split].
  - destruct Hm as [Hm Hr]. intros [= <-]. split; [by apply (session_same s)|done|by split].
  - destruct Hm as (Hm & Hr & Hw). intros [= <-]. split; [by apply (session_same s)|done|by split].
  - destruct Hm as (Hidle & Hr & Hwin). destruct (session_idle s Hs Hidle) as [Hf Hset].
    pose proof Hf as (Hp & Hw & Hd). rewrite Hw. intros [= <-]. split; [right|done|by cbn; rewrite Hwin].
    exists (length (tasks s)), (mkTask Begin None None). split_and!; [done| | |done|done].
    + split; [cbn; by apply list_lookup_middle|]. intros j k [Hj|[Hle Hj]]%lookup_app_Some Hb.
      { by rewrite (Hidle _ _ Hj) in Hb. }
      apply list_lookup_singleton_Some in Hj as [Hj _]. lia.
    + split; cbn; try done; rewrite ?Hp, ?Hw, ?Hd; done.
Qed.

(** Processes end and handles are given up. *)
Lemma session_shrinks s s' :
  tasks s' = tasks s → spawned s' = spawned s → default_dns (proxy s') = default_dns (proxy s) →
  explicit_dns (proxy s') = explicit_dns (proxy s) → (settled s → settled s') →
  (∀ p x, processes s' !! p = Some x → processes s !! p = Some x) →
  (∀ p, wintun (proxy s') = Some p → wintun (proxy s) = Some p) →
  (∀ p, dns (proxy s') = Some p → dns (proxy s) = Some p) →
  (∀ k p, owns k s → rx_wintun k = Some p → wintun (proxy s') = None → processes s' !! p = None) →
  (∀ k p, owns k s → rx_dns k = Some p → dns (proxy s') = None → processes s' !! p = None) →
  session s → session s'.
Proof.
  intros Ht Hn Hdd He Hset Hp Hw Hd Hwk Hdk [(Hi & (Hf1 & Hf2 & Hf3) & Hs)|(i & k & Hb & [Hk Ho] & Hown & [Hr1 Hr2] & Hs)].
  - left. split_and!; [by unfold idle; rewrite Ht| |by apply Hset]. split_and!.
    + apply map_eq. intros p. rewrite lookup_empty. destruct (processes s' !! p) eqn:Hx; [|done].
      apply Hp in Hx. by rewrite Hf1, lookup_empty in Hx.
    + destruct (wintun (proxy s')) as [p|]; [|done]. rewrite Hf2 in Hw. by specialize (Hw p eq_refl).
    + destruct (dns (proxy s')) as [p|]; [|done]. rewrite Hf3 in Hd. by specialize (Hd p eq_refl).
  - right. exists i, k. split_and!; [done|by split; rewrite Ht| |by split; rewrite ?Hdd, ?He|auto].
    apply (owns_shrink _ s); eauto.
Qed.

Lemma inv_main s m : inv s → m = Stuck ∨ m = Exited → inv (with_main s m).
Proof. intros [Hs Hsys _] [-> | ->]; (split; [by apply (session_same s)|done|done]). Qed.

Lemma inv_stop s : inv s → main s = Idle → inv (stop s).
Proof.
  intros Hi Hm. pose proof Hi as [Hs Hsys Hst]. unfold stop. destruct (wintun (proxy s)) as [c|] eqn:Hw.
  2: { split; [by apply (session_same s)|done|done]. }
  split; [|done|cbn; by rewrite Hm in *]. apply (session_shrinks s); try done.
  - intros p x Hx. cbn in Hx. by apply lookup_delete_Some in Hx as [_ Hx].
  - intros k p Ho Hp _. pose proof (killed_wintun k s s p Ho Hp eq_refl) as H. by rewrite Hw in H.
  - intros k p Ho Hp Hd. cbn in Hd |- *. rewrite lookup_delete_None. right. by eapply o_dns_kept.
Qed.

Lemma inv_dies s c : inv s → inv (kill s c).
Proof.
  intros Hi. pose proof Hi as [Hs Hsys Hst]. split; [|done|done]. apply (session_shrinks s); try done; cbn.
  - by intros p x [_ Hx]%lookup_delete_Some.
  - intros k p Ho Hp Hw. rewrite lookup_delete_None. right. by eapply o_wintun_kept.
  - intros k p Ho Hp Hd. rewrite lookup_delete_None. right. by eapply o_dns_kept.
Qed.

Lemma inv_quit s : inv s → main s = Idle → inv (quit s).
Proof.
  intros Hi Hm. pose proof Hi as [Hs Hsys Hst].
  set (s1 := match dns (proxy s) with
             | Some child => kill (with_proxy (with_system s (set_dns_server (proxy s) (system s))) (with_dns (proxy s) None)) child
             | None => s end).
  assert (inv s1 ∧ main s1 = Idle) as [Hi1 Hm1].
  { unfold s1. destruct (dns (proxy s)) as [c|] eqn:Hd; [|done].
    assert (∃ i k, busy k = true ∧ only i k s ∧ owns k s ∧ remembered s) as (i & k & Hb & Hon & Ho & Hr).
    { destruct Hs as [(_ & (_ & _ & Hf) & _)|(i & k & ? & ? & ? & ? & _)]; [congruence|]. by exists i, k. }
    destruct (set_dns_settles s Hi Hr) as (Hg & Hsys'). split; [|done]. split; [|done|cbn; by rewrite Hm in *].
    apply (session_shrinks s); try done.
    - intros p x Hx. cbn in Hx. by apply lookup_delete_Some in Hx as [_ Hx].
    - intros k' p Ho' Hp Hw. cbn in Hw |- *. rewrite lookup_delete_None. right. by eapply o_wintun_kept.
    - intros k' p Ho' Hp _. pose proof (killed_dns k' s s p Ho' Hp eq_refl) as H. by rewrite Hd in H. }
  change (inv (with_main (match wintun (proxy s1) with Some child => kill (with_proxy s1 (with_wintun (proxy s1) None)) child | None => s1 end) Exited)).
  destruct (wintun (proxy s1)) as [c|] eqn:Hw; [|by apply inv_main; auto].
  apply inv_main; [|by right]. pose proof (inv_stop s1 Hi1 Hm1) as H. unfold stop in H. by rewrite Hw in H.
Qed.

Lemma inv_sets_dns s c v s' : inv s → happens (SetsDns c v) s = Some s' → inv s'.
Proof.
  intros Hi. pose proof Hi as [Hs Hsys Hst]. cbn. destruct (processes s !! c) as [[[] args]|] eqn:Hc; try done.
  destruct (main_settled s v Hi) as (w & -> & Hw). cbn. intros [= <-].
  split; [|done|done]. destruct Hs as [(_ & (Hf & _) & _)|(i & k & Hb & [Hk Ho] & Hown & Hr & Hset)].
  { by rewrite Hf, lookup_empty in Hc. }
  right. exists i, k. split_and!; [done|done| |done|].
  - destruct Hown. by split.
  - intros Hd. apply (o_process _ _ Hown) in Hc. cbn in Hc. congruence.
Qed.

Lemma inv_patient_step s s' : inv s → patient_step s s' → inv s'.
Proof.
  intros Hi (e & Hp & He). pose proof Hi as [Hs Hsys Hst]. destruct e; cbn in He.
  - destruct (main s) eqn:Hm; try done. injection He as <-. cbn in Hp. apply negb_true_iff in Hp.
    unfold start. destruct (save_config _ _ _ _) as [ok f].
    split; [by apply (session_same s)|done|]. destruct ok; cbn; auto.
  - by eapply inv_start_rest.
  - destruct (main s) eqn:Hm; try done. injection He as <-. by apply inv_stop.
  - destruct (main s) eqn:Hm; try done. injection He as <-. by apply inv_quit.
  - destruct (main s) eqn:Hm; try done. injection He as <-. unfold update_speed.
    assert (∀ r p p', get_speed modified content now p = (r, p') → wintun p' = wintun p ∧ dns p' = dns p
      ∧ default_dns p' = default_dns p ∧ explicit_dns p' = explicit_dns p) as Hg.
    { intros r p p'. unfold get_speed. repeat case_match; by intros [= <- <-]. }
    destruct (get_speed _ _ _ _) as [r p'] eqn:Hr. apply Hg in Hr as (? & ? & Hd & He).
    split; [by apply (session_same s)|done|]. cbn. by rewrite Hm in *.
  - destruct (running s); [|done]. by eapply inv_run_task.
  - destruct (running s); [|done]. by eapply inv_notice_wintun.
  - destruct (running s); [|done]. by eapply inv_notice_dns.
  - destruct (processes s !! child); [|done]. injection He as <-. by apply inv_dies.
  - by eapply (inv_sets_dns s child name_server).
Qed.

Lemma inv_start_client opened f : inv (start_client opened f system0).
Proof.
  split; [left; split_and!|by split|by intros _ j k Hj].
  - by intros j k Hj.
  - done.
  - done.
Qed.

Lemma inv_reachable opened f s : rtc patient_step (start_client opened f system0) s → inv s.
Proof.
  intros Hr. remember (start_client opened f system0) as s0 eqn:H0. assert (inv s0) as Hi by (subst; apply inv_start_client).
  clear H0. induction Hr as [|s1 s2 s3 Hstep _ IH]; [done|]. by apply IH, (inv_patient_step s1).
Qed.


(** ** The mutex *)

(** Nothing gets past a command that is stuck. *)
Lemma stuck_step s s' : main s = Stuck → step s s' →
  main s' = Stuck ∧ proxy s' = proxy s ∧ (window s = false → window s' = false)
  ∧ ∀ i k, tasks s !! i = Some k → pc k = Supervise → is_Some (rx_wintun k) ∨ is_Some (rx_dns k) → tasks s' !! i = Some k.
Proof.
  intros Hm (e & He). assert (unlocked s = false) as Hu by (unfold unlocked; by rewrite Hm).
  destruct e; cbn in He; unfold start_rest in He; rewrite ?Hm in He; try done.
  - unfold running in He. rewrite Hm in He. unfold run_task in He. destruct (tasks s !! i) as [[x rw rd]|] eqn:Hi; [|done].
    cbn [mbind option_bind pc rx_wintun rx_dns] in He. rewrite Hu in He.
    assert (∀ k' s1, tasks s1 = tasks s → x ≠ Supervise ∨ (rw = None ∧ rd = None) →
      ∀ j k, tasks s !! j = Some k → pc k = Supervise → is_Some (rx_wintun k) ∨ is_Some (rx_dns k) → tasks (put s1 i k') !! j = Some k) as Hput.
    { intros k' s1 Ht Hx j k Hj Hpc Hrx. cbn. rewrite Ht, list_lookup_insert_ne; [done|]. intros <-. rewrite Hi in Hj.
      injection Hj as <-. cbn in *. destruct Hx as [Hx|[-> ->]]; [done|]. by destruct Hrx as [[]|[]]. }
    destruct x; try done.
    + destruct ok; injection He as <-; (split_and!; [done..|]); by apply Hput; auto.
    + destruct ok; injection He as <-; (split_and!; [done..|]); by apply Hput; auto.
    + destruct rw; [done|]. destruct rd; [done|]. injection He as <-. split_and!; [done..|]. by apply Hput; auto.
  - unfold running in He. rewrite Hm in He. unfold notice_wintun in He. rewrite Hu in He.
    destruct (tasks s !! i) as [[[] [] ?]|]; done.
  - unfold running in He. rewrite Hm in He. unfold notice_dns in He. rewrite Hu in He.
    destruct (tasks s !! i) as [[[] ? []]|]; done.
  - destruct (processes s !! child); [|done]. by injection He as <-.
  - destruct (processes s !! child) as [[[] ?]|]; try done.
    destruct (WinAdapter.set_dns_server (system s) name_server) as [[? w]|]; [|done]. by injection He as <-.
Qed.

(** C35: after "stop" the window shows the session, and its button still stops, until
    the task of the session has noticed the end of the processes.  Pressed once more
    it waits for the mutex that it holds: from then on the main thread is stuck, no
    child is kept or given up, and a session that still waits for the tunnel or the
    DNS server waits for ever, so that the name server is not put back. *)
Theorem second_stop_freezes s child :
  main s = Idle → window s = true → wintun (proxy s) = Some child →
  ∃ s1 s2, happens Stop s = Some s1 ∧ main s1 = Idle ∧ window s1 = true ∧ processes s1 !! child = None
    ∧ happens Stop s1 = Some s2
    ∧ ∀ s3, rtc step s2 s3 →
        main s3 = Stuck ∧ proxy s3 = proxy s1 ∧ window s3 = false
        ∧ ∀ i k, tasks s1 !! i = Some k → pc k = Supervise → is_Some (rx_wintun k) ∨ is_Some (rx_dns k) →
            tasks s3 !! i = Some k.
Proof.
  intros Hm Hw Hc. exists (stop s), (stop (stop s)).
  assert (stop s = with_proxy (kill s child) (with_wintun (proxy s) None)) as Hs1 by (unfold stop; by rewrite Hc).
  rewrite Hs1. cbn [happens]. rewrite Hm. split_and!; [by rewrite ?Hs1|exact Hm|exact Hw|cbn; by rewrite lookup_delete_eq|cbn; by rewrite Hm|].
  intros s3 Hr.
  set (s2 := stop _) in Hr. assert (main s2 = Stuck ∧ proxy s2 = with_wintun (proxy s) None ∧ window s2 = false
    ∧ tasks s2 = tasks s) as (H1 & H2 & H3 & H4) by done. clearbody s2. cbn. rewrite <-H2, <-H4. clear H2 H4 Hs1.
  induction Hr as [|s2 s3 s4 Hstep _ IH]; [done|]. destruct (stuck_step _ _ H1 Hstep) as (Hm3 & Hp3 & Hw3 & Ht3).
  destruct (IH Hm3 (Hw3 H3)) as (? & ? & ? & Ht4). split_and!; [done|congruence|done|].
  intros i k Hi Hpc Hrx. apply Ht4; [|done|done]. by apply Ht3.
Qed.

(** ** The configuration *)

(** A saved configuration is read at the next start; a save that fails after the
    file was opened leaves a file that is not one, and the client starts with an
    empty configuration rather than its own. *)
Lemma config_after_restart (from_to_string : ∀ c data, to_string c = Some data → from_reader data = Some c) c w f f' ok :
  save_config c true w f = (ok, f') →
  if ok then config (new true f') = c
  else config (new true f') = default default_config (f' ≫= from_reader) ∧ is_Some f'.
Proof.
  unfold save_config. cbn [negb]. destruct (to_string c) as [data|] eqn:Hd; intros [= <- <-]; [|done].
  destruct w as [|n]; cbn; [by rewrite (from_to_string c)|done].
Qed.

(** *** The speeds *)

(** A tunnel that has not written its status for two seconds is shown at rest; a
    status written after a clock was put back is an error, and shown at rest too. *)
Lemma stopped_tunnel_at_rest p modified content now :
  modified <= last_update p → secs 2 <= now - last_update p ∨ now < last_update p →
  title (get_speed (Some modified) content now p).1
  = ((S754_zero false, text "KB"), (S754_zero false, text "KB")).
Proof.
  intros Hm Hn. unfold get_speed. rewrite (proj2 (Z.ltb_ge _ _)) by lia. destruct (Z.ltb_spec now (last_update p)); [done|].
  destruct Hn as [Hn|Hn]; [|lia]. assert (2 <= as_secs (now - last_update p)) as H2.
  { unfold secs, as_secs in *. apply Z.div_le_lower_bound; lia. }
  rewrite (proj2 (Z.ltb_lt _ _)) by lia. done.
Qed.

End Client.
End Client.

(** ** Examples *)

(** "1.5", "0.1", "-2e3", ".5", "1e-50" and "x". *)
Example parse_f32_ex :
  Client.parse_f32 <$> (Client.text <$> ["1.5"; "0.1"; "-2e3"; ".5"; "1e-50"; "x"]%string)
  = [Some (S754_finite false 12582912 (-23)); Some (S754_finite false 13421773 (-27));
     Some (S754_finite true 16384000 (-13)); Some (S754_finite false 8388608 (-24)); Some (S754_zero false); None].
Proof. by vm_compute. Qed.

Module ClientWitness.
Import Client.

(** *** The name servers of an entry: one address *)

Definition decimal (s : bytes) : Z := foldl (λ n c, n * 10 + (c - 48)) 0 s.
Definition servers (v : bytes) : list IpAddr :=
  let ip := V4 (decimal <$> split 46 v) in if decide (wf_ip ip) then [ip] else [].

Lemma split_no_dot row rest : Forall (λ c, c ≠ 46) row →
  split 46 (row ++ rest) = match split 46 rest with r :: rs => (row ++ r) :: rs | [] => [] end.
Proof.
  induction 1 as [|c row Hc _ IH]; cbn; [by destruct (split 46 rest)|]. rewrite (proj2 (Z.eqb_neq _ _) Hc), IH.
  pose proof (split_ne 46 rest). by destruct (split 46 rest).
Qed.

Lemma split_rows rows : rows ≠ [] → Forall (Forall (λ c, c ≠ 46)) rows → split 46 (join 46 rows) = rows.
Proof.
  intros Hne Hr. induction Hr as [|row rows Hrow _ IH]; [done|]. destruct rows as [|row' rows].
  - cbn [join]. rewrite <-(app_nil_r row), split_no_dot by done. cbn. by rewrite app_nil_r.
  - cbn [join]. rewrite split_no_dot by done. cbn [split Z.eqb Pos.eqb]. rewrite app_nil_r. f_equal. by apply IH.
Qed.

Lemma octet_text x : 0 <= x < 256 → decimal (digits 3 10 x) = x ∧ Forall (λ c, c ≠ 46) (digits 3 10 x).
Proof.
  intros Hx. assert (Forall (λ x, decimal (digits 3 10 x) = x ∧ Forall (λ c, c ≠ 46) (digits 3 10 x)) (Z.of_nat <$> seq 0 256)) as H
    by (apply (bool_decide_unpack _); by vm_compute).
  rewrite Forall_fmap, Forall_seq in H. specialize (H (Z.to_nat x)). cbn in H. rewrite Z2Nat.id in H by lia. apply H. lia.
Qed.

Lemma servers_one o : wf_ip (V4 o) → servers (ip_to_string (V4 o)) = [V4 o].
Proof.
  intros Hw. pose proof Hw as [Hl Ho]. unfold servers. cbn [ip_to_string]. unfold ipv4_to_string. rewrite split_rows.
  - assert (decimal <$> (digits 3 10 <$> o) = o) as ->; [|by rewrite decide_True].
    clear Hl Hw. induction Ho as [|x o Hx _ IH]; [done|]. rewrite !fmap_cons. f_equal; [by apply octet_text|done].
  - by destruct o.
  - apply Forall_fmap. eapply Forall_impl; [exact Ho|]. intros x Hx. by apply octet_text.
Qed.

(** *** A system with one adapter, whose name server was set by hand *)

Definition adapter : WinAdapter.AdapterAddresses :=
  WinAdapter.mkAdapter 7 [1] [2] [V4 [10; 0; 0; 1]] [V4 [10; 0; 0; 5]] [V4 [10; 0; 0; 1]] true 6.
Definition system0 : WinAdapter.t := WinAdapter.mk [adapter] {[ [1] := Some (text "9.9.9.9") ]} true.

Lemma adapter_main : WinAdapter.main servers system0 adapter.
Proof.
  split; [done|by eexists|by exists [], []|done|by apply (bool_decide_unpack _); vm_compute|].
  intros v. unfold servers. case_decide; [by apply Forall_singleton|by apply Forall_nil].
Qed.

(** *** A session with the DNS server *)

Definition cfg : Config := mkConfig (text "trojan") (text "h") (text "p") (text "Info") 20 false false true false (text "127.0.0.1") (text "8.8.8.8").
Definition to_string (c : Config) : option bytes := Some (iface_name c).
Definition client : t := start_client (λ _, Some cfg) true None system0.
Abbreviation go := (run to_string id servers).
Definition begin : list event := [Start cfg true WriteOk; StartRest; StartRest; StartRest; StartRest; StartRest].
Definition tunnel : list event := [Task 0 true; Task 0 true; Task 0 true; Task 0 true; Task 0 true].
Definition dns_server : list event := [Task 0 true; Task 0 true; Task 0 true; SetsDns 1 (text "127.0.0.1")].
Definition served : t := default client (go (begin ++ tunnel ++ dns_server) client).

(** Both run, and the system asks the DNS server. *)
Example served_ex :
  (wintun (proxy served), dns (proxy served), window served, is_dns <$> processes served !! 1%nat,
   WinAdapter.get_dns_server servers (system served))
  = (Some 0%nat, Some 1%nat, true, Some true, Some (Some (text "127.0.0.1", true))).
Proof. by vm_compute. Qed.

(** Stopped, the session ends step by step. *)
Definition ending : list event := [Stop; NoticeWintun 0; NoticeDns 0; Task 0 true; Task 0 true].
Definition ended : t := default client (go ending served).

Example ended_ex :
  (wintun (proxy ended), dns (proxy ended), window ended, bool_decide (processes ended = ∅),
   WinAdapter.get_dns_server servers (system ended))
  = (None, None, false, true, Some (Some (text "9.9.9.9", true))).
Proof. by vm_compute. Qed.

(** Every run of events that is found patient is one. *)
Fixpoint patient_run (es : list event) (s : t) : option t :=
  match es with
  | [] => Some s
  | e :: es => if patient e s then happens to_string id servers e s ≫= patient_run es else None
  end.

Lemma patient_run_rtc es s s' : patient_run es s = Some s' → rtc (patient_step to_string id servers) s s'.
Proof.
  revert s. induction es as [|e es IH]; intros s; cbn [patient_run]; [by intros [= ->]|].
  destruct (patient e s) eqn:Hp; [|done]. intros (s1 & H1 & H2)%bind_Some. eapply rtc_l; [by exists e|]. by apply IH.
Qed.


Lemma second_stop_freezes_witness :
  ∃ s1 s2, happens to_string id servers Stop served = Some s1 ∧ main s1 = Idle ∧ window s1 = true ∧ processes s1 !! 0%nat = None
    ∧ happens to_string id servers Stop s1 = Some s2
    ∧ ∀ s3, rtc (step to_string id servers) s2 s3 →
        main s3 = Stuck ∧ proxy s3 = proxy s1 ∧ window s3 = false
        ∧ ∀ i k, tasks s1 !! i = Some k → pc k = Supervise → is_Some (rx_wintun k) ∨ is_Some (rx_dns k) →
            tasks s3 !! i = Some k.
Proof. apply (second_stop_freezes to_string id servers served 0); by vm_compute. Defined.

Definition set (w : WinAdapter.t) (v : bytes) : WinAdapter.t :=
  match WinAdapter.set_dns_server w v with Some (_, w) => w | None => w end.
Definition lent : WinAdapter.t := set system0 (text "127.0.0.1").
Definition put_back : WinAdapter.t := set lent (text "9.9.9.9").

Lemma name_server_put_back_witness :
  ∃ w1 w2, WinAdapter.set_dns_server system0 (text "127.0.0.1") = Some (true, w1)
    ∧ WinAdapter.set_dns_server w1 (text "9.9.9.9") = Some (true, w2)
    ∧ WinAdapter.get_dns_server servers w2 = Some (Some (text "9.9.9.9", true)).
Proof.
  exists lent, put_back. split_and!; [by vm_compute..|].
  apply (WinAdapter.name_server_put_back servers servers_one system0 adapter (text "9.9.9.9") true (text "127.0.0.1") lent put_back
    adapter_main); by vm_compute.
Defined.

(** *** What an impatient user, or a quick one, meets *)

(** Two clicks on "start": both sessions spawn a tunnel, one of which nobody can
    stop. *)
Example two_starts_two_tunnels :
  (λ s, (wintun (proxy s), is_dns <$> processes s !! 0%nat, is_dns <$> processes s !! 1%nat))
    <$> go (begin ++ begin ++ [Task 0 true; Task 0 true; Task 0 true; Task 1 true; Task 1 true; Task 1 true;
                               Task 0 true; Task 1 true]) client
  = Some (Some 1%nat, Some false, Some false).
Proof. by vm_compute. Qed.

(** "Stop" while the session waits before it starts the DNS server: that is started
    all the same. *)
Example stopped_session_starts_dns :
  (λ s, (wintun (proxy s), is_dns <$> processes s !! 0%nat, is_dns <$> processes s !! 1%nat))
    <$> go (begin ++ tunnel ++ [Stop; Task 0 true; Task 0 true; Task 0 true]) client
  = Some (None, None, Some true).
Proof. by vm_compute. Qed.

(** "Quit" after the end of the tunnel was noticed, and before that of the DNS
    server: the system is left with a name server that does not run. *)
Example quit_leaves_name_server :
  (λ s, (main s, bool_decide (processes s = ∅), WinAdapter.get_dns_server servers (system s)))
    <$> go [Stop; NoticeWintun 0; Quit] served
  = Some (Exited, true, Some (Some (text "127.0.0.1", true))).
Proof. by vm_compute. Qed.

End ClientWitness.
