(* ===== verification/DnsRun.v ===== *)
(** * The main loop of the DNS server ([src/src/dns/mod.rs])

    The server of [DnsServer] with the reloading of its two files: a file monitor
    sends the paths that changed, and every turn of the loop first reads the files
    again that are among them.  The adapters are those of [WinAdapter].  What the
    monitor has sent, the events of a poll and the times they are handled at are
    arguments of a turn; the console handler, the watcher and the poll are the
    system's.  [None] is a panic, an error that ends the loop, or exhausted fuel. *)

From Stdlib Require Import ZArith Lia.
From stdpp Require Import base option list gmap sets.
From S2P Require Import Prelude Net Config Env Domain DnsHosts DnsServer WinAdapter.

Open Scope Z_scope.

Module DnsRun.
Section DnsRun.
Context {E : Env} {D : DnsProto} {A : DnsApi E} (ARGS : DnsArgs) (transmuted : IpAddr → bool).
Context (tun_name : bytes) (back_addr : option SocketAddr).

#[local] Abbreviation server := (DnsServer.t E).

(** ** Set-up *)

(** The loop that waits for the tunnel's adapter, over what the system shows each
    time: the system when it is there. *)
Fixpoint wait_adapter (ws : list WinAdapter.t) : option WinAdapter.t :=
  match ws with
  | [] => None
  | w :: ws =>
      ip ← WinAdapter.get_adapter_ip w tun_name;
      match ip with Some _ => Some w | None => wait_adapter ws end
  end.

(** The route to the server: through the poisoned DNS server's address; the
    gateway that was found is only logged. *)
Definition add_server_route (w : WinAdapter.t) (o : OS) : option OS :=
  main ← WinAdapter.get_main_adapter_gwif w;
  '(main_gw, main_index) ← main;
  gw ← match sa_ip (poisoned_dns ARGS) with V4 ip => Some (u32_of_octets ip) | V6 _ => None end;
  match back_addr with
  | Some (mkSocketAddr (V4 ip) _) =>
      let '(ok, o) := route_add_with_if o (u32_of_octets ip) u32_MAX gw main_index in
      if (ok : bool) then Some o else None
  | _ => Some o
  end.

Definition name_server (s : server) : option bytes :=
  addr ← udp_local_addr (DnsServer.listener s); Some (ip_to_string (sa_ip addr)).

(** The server and the system when the loop begins; the flag is whether it does. *)
Definition start (ws : list WinAdapter.t) (o : OS) : option (bool * WinAdapter.t * server * OS) :=
  w ← wait_adapter ws;
  o ← add_server_route w o;
  index ← WinAdapter.get_adapter_index w tun_name;
  index ← index;
  '(s, o) ← DnsServer.new ARGS index o;
  s ← DnsServer.setup ARGS s o;
  ns ← name_server s;
  '(ok, w) ← WinAdapter.set_dns_server w ns;
  Some (ok, w, s, o).

(** ** The loop *)

(** [FileMonitor::handle_event]: what the channel holds after an event or error. *)
Definition handle_event (event : option (list bytes)) (queue : list (list bytes)) : list (list bytes) :=
  match event with Some paths => queue ++ [paths] | None => queue end.

(** Some event names the path. *)
Definition changed (path : bytes) (received : list (list bytes)) : bool :=
  existsb (λ paths, bool_decide (path ∈ paths)) received.

Definition reload (received : list (list bytes)) (s : server) (o : OS) : option server :=
  s ← (if changed (blocked_domain_list ARGS) received then DnsServer.update_domain ARGS s o else Some s);
  if changed (hosts_path ARGS) received then DnsServer.update_hosts ARGS s o else Some s.

(** A turn: what happens to the files before it, the file events, and the events of
    the poll with their times. *)
Record turn : Type := mkTurn {
  edited : OS → OS;
  received : list (list bytes);
  polled : list (Z * Event)
}.

Definition run_turn (fuel : nat) (st : server * OS) (t : turn) : option (server * OS) :=
  let o := edited t st.2 in
  s ← reload (received t) st.1 o;
  DnsServer.run ARGS transmuted fuel (s, o) (polled t).

Definition run (fuel : nat) (st : server * OS) (ts : list turn) : option (server * OS) :=
  foldl (λ acc t, st ← acc; run_turn fuel st t) (Some st) ts.

(** ** Reloading *)

Context `{!EnvOk E} `{!DnsProtoOk D}.

#[local] Abbreviation config := DnsServer.config.
#[local] Abbreviation config_of := DnsServer.config_of.
#[local] Abbreviation view_of := DnsServer.view_of.

(** The configuration with the files that are named read again. *)
Definition reloaded (paths : list (list bytes)) (o : OS) (cf cf' : config) : Prop :=
  (if changed (blocked_domain_list ARGS) paths
   then ∃ lines, read_lines o (blocked_domain_list ARGS) = Some lines
     ∧ DnsServer.cf_blocked cf' = DnsServer.domains_of lines
   else DnsServer.cf_blocked cf' = DnsServer.cf_blocked cf)
  ∧ (if changed (hosts_path ARGS) paths && negb (bool_decide (hosts_path ARGS = []))
     then ∃ lines, read_lines o (hosts_path ARGS) = Some lines ∧ DnsServer.cf_hosts cf' = hosts_of lines
     else DnsServer.cf_hosts cf' = DnsServer.cf_hosts cf)
  ∧ DnsServer.cf_ptr cf' = DnsServer.cf_ptr cf
  ∧ DnsServer.cf_trusted cf' = DnsServer.cf_trusted cf ∧ DnsServer.cf_poisoned cf' = DnsServer.cf_poisoned cf.

Lemma reload_ok paths s o :
  match reload paths s o with
  | Some s' => reloaded paths o (config_of s) (config_of s') ∧ view_of s' = view_of s
  | None => read_lines o (blocked_domain_list ARGS) = None ∨ read_lines o (hosts_path ARGS) = None
  end.
Proof.
  unfold reload, reloaded, DnsServer.update_domain, DnsServer.update_hosts.
  destruct (changed (blocked_domain_list ARGS) paths).
  - destruct (read_lines o (blocked_domain_list ARGS)) as [dl|]; cbn [mbind option_bind]; [|by left].
    destruct (changed (hosts_path ARGS) paths); cbn [andb]; [|split_and!; [by exists dl|done..]].
    case_decide as Hp; [rewrite bool_decide_eq_true_2 by done; split_and!; [by exists dl|done..]|].
    rewrite bool_decide_eq_false_2 by done. cbn [negb].
    destruct (read_lines o (hosts_path ARGS)) as [hl|]; cbn [mbind option_bind]; [|by right].
    split_and!; [by exists dl|by exists hl|done..].
  - cbn [mbind option_bind]. destruct (changed (hosts_path ARGS) paths); cbn [andb]; [|done].
    case_decide as Hp; [by rewrite bool_decide_eq_true_2|]. rewrite bool_decide_eq_false_2 by done. cbn [negb].
    destruct (read_lines o (hosts_path ARGS)) as [hl|]; cbn [mbind option_bind]; [|by right].
    split_and!; [done|by exists hl|done..].
Qed.

(** The configurations of the turns, one after the other. *)
Inductive configured : config → list turn → list config → Prop :=
  | configured_nil cf : configured cf [] []
  | configured_cons cf t ts o cf' cfs :
      reloaded (received t) o cf cf' → configured cf' ts cfs → configured cf (t :: ts) (cf' :: cfs).

(** A question that was proper at one of the configurations. *)
Definition proper_at (cfs : list config) (b : bool) (e : bytes * SocketAddr) : Prop :=
  ∃ cf, cf ∈ cfs ∧ DnsServer.proper_question cf b e.

Lemma sound_weaken (P Q : bool → bytes * SocketAddr → Prop) (v : DnsServer.view) :
  (∀ b e, P b e → Q b e) → DnsServer.sound P v → DnsServer.sound Q v.
Proof. intros H []. split; [done|eapply Forall_impl; eauto..]. Qed.

Lemma loop_sound ts s o cfs0 :
  config_of s ∈ cfs0 → DnsServer.sound (proper_at cfs0) (view_of s) →
  Forall (λ t, Forall (λ e, DnsServer.own_event e.2) (polled t)) ts →
  decided (λ fuel, run fuel (s, o) ts) (returns (λ so, ∃ cfs, configured (config_of s) ts cfs
    ∧ config_of so.1 = default (config_of s) (last cfs) ∧ DnsServer.sound (proper_at (cfs0 ++ cfs)) (view_of so.1))).
Proof.
  intros Hin Hs Hts. revert s o cfs0 Hin Hs. induction Hts as [|t ts Ht _ IH]; intros s o cfs0 Hin Hs.
  { apply (decided_ret (Some (s, o))). apply returns_some. exists []. split_and!; [constructor|done|by rewrite app_nil_r]. }
  eapply decided_ext with (run := λ fuel, st ← run_turn fuel (s, o) t; run fuel st ts).
  { intros fuel. unfold run. cbn [foldl mbind option_bind]. apply foldl_bind. }
  unfold run_turn. cbn [fst snd]. pose proof (reload_ok (received t) s (edited t o)) as Hr.
  destruct (reload (received t) s (edited t o)) as [s1|]; cbn [mbind option_bind];
    [|apply (decided_ret None), returns_none].
  destruct Hr as [Hr Hv].
  assert (∀ b e, DnsServer.proper_question (config_of s1) b e → proper_at (cfs0 ++ [config_of s1]) b e) as Hproper.
  { intros b e He. exists (config_of s1). split; [set_solver|done]. }
  eapply decided_bind.
  - apply (DnsServer.run_sound ARGS transmuted (config_of s1) _ Hproper s1); [done| |done].
    rewrite Hv. eapply sound_weaken; [|exact Hs]. intros b e (cf & Hcf & He). exists cf. split; [|done]. set_solver.
  - intros _. apply returns_none.
  - intros [s2 o2] H2. specialize (H2 _ eq_refl) as [Hc2 Hs2]. cbn [fst] in *.
    eapply decided_weaken; [apply (IH s2 o2 (cfs0 ++ [config_of s1])); [rewrite Hc2; set_solver|done]|].
    intros r Hret so Hso. destruct (Hret so Hso) as (cfs & Hcf & Hl & Hsound). rewrite Hc2 in Hcf, Hl.
    exists (config_of s1 :: cfs). split_and!.
    + by eapply configured_cons.
    + rewrite Hl, last_cons. by destruct (last cfs).
    + by rewrite <-app_assoc in Hsound.
Qed.


(** An answer in the cache outlives the reloading of the lists: it is given out
    although its name has come to be blocked. *)
Lemma cached_answer_outlives_reload now paths s s' o key resp addrs expire message from data :
  reload paths s o = Some s' → DnsServer.store s !! key = Some (DnsServer.mkQueryResult addrs (Some resp) expire) →
  now < expire → to_vec (set_id resp (msg_id message)) = Some data →
  ∃ s2, DnsServer.try_cache now s' key message from = Some (false, false, s2)
    ∧ DnsServer.attempt (datagrams (DnsServer.listener s)) data from (datagrams (DnsServer.listener s2)).
Proof.
  intros Hr Hs Hn Hd. pose proof (reload_ok paths s o) as Hok. rewrite Hr in Hok. destruct Hok as [_ Hv].
  assert (DnsServer.store s' = DnsServer.store s) as Hst by apply (f_equal DnsServer.v_store Hv).
  assert (datagrams (DnsServer.listener s') = datagrams (DnsServer.listener s)) as Hl by apply (f_equal DnsServer.v_out Hv).
  unfold DnsServer.try_cache. rewrite Hst, Hs, Hd. cbn [mbind option_bind]. rewrite (proj2 (Z.leb_gt _ _)) by lia.
  eexists. split; [done|]. cbn. rewrite <-Hl. apply DnsServer.attempt_send.
Qed.

End DnsRun.
End DnsRun.

(** ** Examples *)

Module DnsRunWitness.
Import DnsRun.
#[local] Existing Instance Sim.env.
#[local] Existing Instance Sim.env_ok.
#[local] Existing Instance DnsWitness.proto.
#[local] Existing Instance DnsWitness.proto_ok.
#[local] Existing Instance DnsWitness.api.
Import DnsWitness.

(** A turn with questions, then one before which the list of domains has changed
    and in which the poisoned server answers. *)
Definition turns : list turn :=
  [mkTurn id [] [(0, at_token DNS_LOCAL)];
   mkTurn id [[[98]]] [(1, at_token DNS_POISONED)]].

(** The name "x.y." is not in the new list. *)
Example reload_example :
  (λ so, (datagrams (DnsServer.listener so.1), DnsServer.is_blocked start xy, DnsServer.is_blocked so.1 xy))
    <$> run args (λ _, false) 9 (start, Sim.mkSystem [] []) turns
  = Some ([([6; 1; 104; DOT; 600; 9; 9; 9; 9], client2); ([9; 1; 122; DOT; 60; 5; 6; 7; 8], client1)], true, false).
Proof. by vm_compute. Qed.


End DnsRunWitness.
