(* ===== verification/MobileRun.v ===== *)
(** * The mobile tunnel: TCP and the main loop
    ([src/mobile/src-tauri/src/atun/tcp.rs] and [mod.rs])

    The loop polls the device of [TunDevice] and hands its streams and sockets to
    tasks: a client's stream to the relay of [MobileTcp], the socket of the DNS
    address to [MobileDns], every other socket to the dispatcher, which is that of
    [AWinUdp] (see [MobileTask]).  A stream to the server's own address
    is not tunnelled but connected directly.  [tokio::io::copy] is a library's: what
    it has copied is an argument. *)

From Stdlib Require Import ZArith Lia SpecFloat.
From stdpp Require Import base option list gmap relations.
From S2P Require Import Prelude Net Config Proto Env AsyncIo Resolver ServerConn AServer AProxy.
From S2P Require Import IpSet Smoltcp SocketTables TunDevice TunStream AWinTcp MobileProto.

Open Scope Z_scope.

(** ** The relay of a client *)

Module MobileTcp.

(** What becomes of a stream: it is relayed to its own destination, shut down,
    relayed through the server, or dropped. *)
Inductive route : Type := Direct (target : SocketAddr) | Refused | Tunnelled | Dropped.

(** [init_tls_conn]: whether the connection, and the session, can be made. *)
Definition init_tls_conn (connected session : bool) : bool := connected && session.

(** [start_tcp], on whether its connection succeeds. *)
Definition start_tcp (server_addr peer_addr : SocketAddr) (connected session : bool) : route :=
  if bool_decide (sa_ip peer_addr = sa_ip server_addr) then
    if connected then Direct peer_addr else Refused
  else if init_tls_conn connected session then Tunnelled else Dropped.

(** The first task of a direct relay: what the destination is written, whether it is
    shut down, and whether the client's stream is closed. *)
Definition direct_up (copied : bytes) (ended : bool) : bytes * bool * bool := (copied, ended, ended).

Definition local_to_remote (pass : bytes) (peer_addr : SocketAddr) (first : write_outcome) (copied : bytes) (ended : bool) :
    bytes * bool * bool :=
  let request := MobileProto.TrojanRequest.generate CONNECT pass peer_addr in
  if write_is_ok first then (request ++ copied, ended, ended) else (written first request, true, false).

(** The second task of either relay: the messages for the client's socket, of which
    an empty one is its shutdown. *)
Definition remote_to_local (pieces : list bytes) (ended : bool) : list bytes :=
  pieces ++ (if ended then [[]] else []).

(** ** End to end *)

Section Client.
Context {Stk : Smoltcp} {Obs : Observed Stk} {K : SmoltcpOk Stk}.

(** End to end: a client of the mobile tunnel whose socket leads to [dst].  If
    that is the server's own address the relay is a direct one, and [dst] is sent a
    prefix of what the client's socket received.  Otherwise, relayed to the server,
    which reads what the tunnel wrote in pieces of any size: unless the server
    panics inside the request's last bytes it serves CONNECT for [dst]; and if it
    connects, it connects to [dst], which is sent a prefix of what the client's
    socket received. *)
Theorem mobile_client_reaches_target (S : Opts) `{!OptsOk S} {H : HttpParse} k
    lookup_host now l d src h dst id c got buffer copied ended server_addr chunks from :
  mtu l ≠ 0 → rtc (TunDevice.step k) (TunDevice.start now l) d →
  TunDevice.tcp_ip2handle d !! src = Some (h, dst) →
  TunDevice.tcp_req_senders d !! src = Some id → TunDevice.tcp_chans d !! id = Some c →
  TcpHalves.reading c got buffer → copied `prefix_of` got →
  wf_sa dst → back_addr S ≠ Some dst → Forall (λ p, p ≠ []) chunks →
  mjoin chunks = (local_to_remote (get_pass S) dst WriteOk copied ended).1.1 →
  ∃ s, sockets_view (TunDevice.sockets d) !! h = Some (Tcp s) ∧
  match start_tcp server_addr dst true true with
  | Direct target => target = dst ∧ (direct_up copied ended).1.1 `prefix_of` tcp_rx s
  | Tunnelled =>
      match AServer.handshake_loop S lookup_host [] (AServer.reads chunks) with
      | Some (AServer.Serve cmd a b, io) =>
          cmd = CONNECT ∧ a = dst
          ∧ ∀ t b' io' first writes, AServer.start_tcp S a b from io = Some (AServer.Connects t b', io') →
              t = dst ∧ EndToEnd.target_gets b' first io' writes `prefix_of` tcp_rx s
      | Some _ => False
      | None => ∃ read rest, chunks = read ++ rest
          ∧ (length (mjoin read) < length (MobileProto.TrojanRequest.generate CONNECT (get_pass S) dst)
             <= length (mjoin read) + 2)%nat
      end
  | Refused | Dropped => False
  end.
Proof.
  intros Hm Hr Hi Hid Hc Hread Hcp Hd Hb Hne Heq.
  destruct (TunStream.reading_of_socket k now l d src id c got buffer Hm Hr Hid Hc Hread)
    as (h' & dst' & s & Hi' & Hs & _ & _ & Hpre). rewrite Hi in Hi'. injection Hi' as <- <-.
  exists s. split; [done|]. unfold start_tcp. case_bool_decide; [split; [done|by trans got]|].
  cbn [init_tls_conn andb].
  change (mjoin chunks = TrojanRequest.generate S CONNECT dst ++ copied) in Heq.
  pose proof (EndToEnd.relayed_data_reaches_target S S lookup_host eq_refl dst copied chunks from Hd Hb Hne Heq) as Hend.
  destruct (AServer.handshake_loop _ _ _ _) as [[[] io]|]; try done.
  destruct Hend as (-> & -> & Hend). split_and!; [done..|]. intros t b' io' first writes Hst.
  destruct (Hend t b' io' first writes Hst) as (-> & Hpt & _). split; [done|]. trans copied; [done|by trans got].
Qed.
End Client.
End MobileTcp.

(** ** The main loop *)

Module MobileRun.
Import TunDevice.

(** [resolve]: the text of [utils::resolve]; the time limit is in the receiving. *)
Definition resolve `{DnsTransport} (name dns_server_addr : bytes) : option (list IpAddr) :=
  dns_server_addr ← parse_socket_addr dns_server_addr;
  name ← name_from_str name;
  request ← query_to_vec 1 name;
  sent ← dns_send_to request dns_server_addr;
  if negb (length request =? sent)%nat then None
  else
    response ← dns_recv;
    message ← message_from_bytes response;
    if negb (message_id message =? 1) then None
    else Some (omap id (answer_addrs message)).

(** The rounds of the lookup: the addresses of the first that succeeds. *)
Fixpoint lookup_rounds (n i : nat) (lookup : nat → option (list IpAddr)) : list IpAddr :=
  match n with
  | O => []
  | S n => match lookup i with Some ips => ips | None => lookup_rounds n (S i) lookup end
  end.

Section Run.
Context {Stk : Smoltcp} (k : Ipv4Class).

(** What the loop begins with: the server's address, and the device, which accepts
    the DNS address; [parsed] is whether the server's name and the addresses of the
    name servers can be parsed. *)
Definition start (lookup : nat → option (list IpAddr)) (parsed : bool) (port : Z) (dns_addr : SocketAddr) (mtu now : Z) :
    option (SocketAddr * t) :=
  ip ← head (lookup_rounds 10 0 lookup);
  if negb parsed then None else Some (mkSocketAddr ip port, add_white_ip (sa_ip dns_addr) (new mtu now)).

(** What is spawned: [start_tcp] for a stream to the address, [start_dns], or
    [start_udp] and a writer for the dispatcher. *)
Inductive task : Type := TaskTcp (peer : SocketAddr) | TaskDns | TaskUdp (peer : SocketAddr).

Definition spawned (dns_addr : SocketAddr) (tcp : list TcpStream) (udp : list UdpStream) : list task :=
  (TaskTcp <$> (ts_peer <$> tcp))
  ++ ((λ peer, if bool_decide (peer = dns_addr) then TaskDns else TaskUdp peer) <$> (us_peer <$> udp)).

(** "MB" or "KB". *)
Definition get_speed_and_unit (speed : spec_float) : spec_float * bytes :=
  if SFleb (TunDevice.f64_of_Z 1024) speed then (SFdiv 53 1024 speed (TunDevice.f64_of_Z 1024), [77; 66]) else (speed, [75; 66]).

Definition report_speed (now last_speed_time speed_update_ms : Z) (emitted : bool) (d : t) :
    option (option ((spec_float * bytes) * (spec_float * bytes)) * Z * t) :=
  if speed_update_ms <=? since now last_speed_time / 1000000 then
    let '((rx, tx), d) := calculate_speed now d in
    if emitted then Some (Some (get_speed_and_unit rx, get_speed_and_unit tx), now, d) else None
  else Some (None, last_speed_time, d).

(** A turn of the loop; [None] is a panic of the device or an event that could not
    be emitted, which ends the loop. *)
Definition turn (dns_addr : SocketAddr) (now last_speed_time speed_update_ms : Z) (emitted : bool) (d : t) :
    option (list task * option ((spec_float * bytes) * (spec_float * bytes)) * Z * t) :=
  '(tcp, udp, d) ← poll now d;
  '(report, last_speed_time, d) ← report_speed now last_speed_time speed_update_ms emitted d;
  Some (spawned dns_addr tcp udp, report, last_speed_time, d).

(** What a task may be for: a public address, or an address of the DNS server. *)
Definition proper (dns_addr a : SocketAddr) : Prop :=
  sa_port a ≠ 0 ∧ (sa_ip a = sa_ip dns_addr ∨ is_private_v4 k (sa_ip a) = Some false).

Definition proper_task (dns_addr : SocketAddr) (x : task) : Prop :=
  match x with
  | TaskTcp a => proper dns_addr a
  | TaskUdp a => proper dns_addr a ∧ a ≠ dns_addr
  | TaskDns => True
  end.

Lemma allowed_proper dns_addr d a :
  white_ip_list (limits d) = {[sa_ip dns_addr]} ∪ ∅ → private_allowed (limits d) = false →
  allowed k d a = Some true → proper dns_addr a.
Proof.
  unfold allowed, proper. intros -> ->. destruct (Z.eqb_spec (sa_port a) 0) as [|Hp]; [done|]. cbn [orb].
  case_bool_decide; [done|]. case_bool_decide as Hw; [rewrite union_empty_r_L in Hw; apply elem_of_singleton in Hw; by auto|].
  destruct (is_private_v4 k (sa_ip a)) as [[]|]; cbn; [done|auto|done].
Qed.

(** The device in the loop. *)
Lemma loop_inv `{!Observed Stk} `{!SmoltcpOk Stk} lookup parsed port dns_addr mtu now server d0 d :
  start lookup parsed port dns_addr mtu now = Some (server, d0) → mtu ≠ 0 → rtc (step k) d0 d →
  TunDevice.inv k d ∧ ∀ a, allowed k d a = Some true → proper dns_addr a.
Proof.
  unfold start. intros (ip & _ & Hs)%bind_Some Hm Hr. destruct parsed; [|done]. injection Hs as <- <-.
  set (d0 := add_white_ip _ _) in *.
  assert (limits d = limits d0) as Hd.
  { clear -Hr. induction Hr as [|x y z H _ IH]; [done|]. rewrite IH. by eapply AWinRun.limits_step. }
  split; [exact (reachable_inv k now (limits d0) d Hm Hr)|]. intros a. apply allowed_proper; by rewrite Hd.
Qed.

Lemma poll_proper `{!Observed Stk} `{!SmoltcpOk Stk} dns_addr now d tcp udp d' :
  TunDevice.inv k d → (∀ a, allowed k d a = Some true → proper dns_addr a) → poll now d = Some (tcp, udp, d') →
  Forall (proper_task dns_addr) (spawned dns_addr tcp udp).
Proof.
  intros Hi Ha Hp. destruct (poll_ok k now d Hi) as (tcp' & udp' & d1 & Hp' & _ & _ & Hlu).
  rewrite Hp in Hp'. injection Hp' as <- <- <-. pose proof (AWinRun.poll_spec _ _ _ _ _ Hp) as (_ & Hft & _).
  apply Forall_app. split.
  - rewrite !Forall_fmap. eapply Forall_impl; [exact Hft|]. intros s (src & h & Hin). apply Ha. by eapply (i_tcp_allowed _ _ Hi).
  - rewrite Hlu, Forall_fmap. apply Forall_forall. intros e He. unfold compose. case_bool_decide; [done|]. split; [|done]. apply Ha.
    destruct (a_new _ _ _ _ _ _ _ _ (i_udp _ _ Hi) e He) as (_ & h & x & Hin & _). by eapply (i_udp_allowed _ _ Hi).
Qed.

(** A turn is steps of the device. *)
Lemma turn_runs `{!Observed Stk} dns_addr now last ms emitted d tasks report last' d' :
  turn dns_addr now last ms emitted d = Some (tasks, report, last', d') →
  rtc (step k) d d' ∧ ∃ tcp udp d1, poll now d = Some (tcp, udp, d1) ∧ tasks = spawned dns_addr tcp udp.
Proof.
  unfold turn, report_speed. intros ([[tcp udp] d1] & Hp & H)%bind_Some.
  assert (step k d d1) as H1 by (by eapply step_poll).
  destruct (ms <=? _); [|injection H as <- _ _ <-; split; [by apply rtc_once|eauto]].
  destruct (calculate_speed now d1) as [[rx tx] d2] eqn:Hc. destruct emitted; [|done]. injection H as <- _ _ <-.
  split; [|eauto]. eapply rtc_l; [exact H1|]. apply rtc_once.
  replace d2 with (calculate_speed now d1).2 by (by rewrite Hc). apply step_speed.
Qed.

End Run.
End MobileRun.

(** ** Examples *)

Module MobileRunWitness.
Import Witness SimStack TcpHalves TunDevice TunDeviceWitness TunStreamWitness.
#[local] Existing Instance AServerWitness.http.

Definition server : SocketAddr := mkSocketAddr (V4 [9; 9; 9; 9]) 443.

(** The relay has copied the first of the client's two bytes. *)
Definition stream : bytes := (MobileTcp.local_to_remote (get_pass opts) target WriteOk [104] false).1.1.

Lemma mobile_client_reaches_target_witness :
  ∃ s, sockets_view (sockets device5) !! 0%nat = Some (Tcp s) ∧
  match MobileTcp.start_tcp server target true true with
  | MobileTcp.Direct a => a = target ∧ (MobileTcp.direct_up [104] false).1.1 `prefix_of` tcp_rx s
  | MobileTcp.Tunnelled =>
      match AServer.handshake_loop opts AServerWitness.lookup [] (AServer.reads [take 9 stream; drop 9 stream]) with
      | Some (AServer.Serve cmd a b, io) =>
          cmd = CONNECT ∧ a = target
          ∧ ∀ t b' io' first writes, AServer.start_tcp opts a b a4 io = Some (AServer.Connects t b', io') →
              t = target ∧ EndToEnd.target_gets b' first io' writes `prefix_of` tcp_rx s
      | Some _ => False
      | None => ∃ read rest, [take 9 stream; drop 9 stream] = read ++ rest
          ∧ (length (mjoin read) < length (MobileProto.TrojanRequest.generate CONNECT (get_pass opts) target)
             <= length (mjoin read) + 2)%nat
      end
  | MobileTcp.Refused | MobileTcp.Dropped => False
  end.
Proof.
  apply (MobileTcp.mobile_client_reaches_target opts class AServerWitness.lookup 0 limits0 device5 client 0 target 0
    read_one [104] [105] [104] false server [take 9 stream; drop 9 stream] a4).
  - done.
  - exact run5.
  - by vm_compute.
  - by vm_compute.
  - by vm_compute.
  - exact read_one_reading.
  - by exists [].
  - apply (bool_decide_unpack _). by vm_compute.
  - done.
  - apply (bool_decide_unpack _). by vm_compute.
  - by vm_compute.
Defined.

(** A connection to the server itself is not relayed through it. *)
Example direct_to_server : MobileTcp.start_tcp server (mkSocketAddr (V4 [9; 9; 9; 9]) 80) true true
  = MobileTcp.Direct (mkSocketAddr (V4 [9; 9; 9; 9]) 80).
Proof. by vm_compute. Qed.

(** The third lookup of the server's name succeeds; a question for the DNS server,
    whose address is a private one, arrives. *)
Definition lookup (i : nat) : option (list IpAddr) := if (i =? 2)%nat then Some [V4 [9; 9; 9; 9]] else None.
Definition dns_addr : SocketAddr := mkSocketAddr (V4 [10; 0; 0; 1]) 53.
Definition question : bytes := [4; 17; 10; 0; 0; 2; 10; 0; 0; 1; 0; 53; 4; 0; 1].

Definition loop0 : t := default device0 (snd <$> MobileRun.start lookup true 443 dns_addr 1500 0).
Definition loop1 : t := default loop0 (receive class loop0 (IoOk (Some question))).

Lemma loop1_run : rtc (step class) loop0 loop1.
Proof.
  apply rtc_once, step_stack. apply (stack_receives class loop0 (IoOk (Some question))).
  assert (is_Some (receive class loop0 (IoOk (Some question)))) as [d Hd]
    by (apply (bool_decide_unpack _); vm_compute; exact I).
  unfold loop1. by rewrite Hd.
Qed.

Example question_starts_dns :
  (λ '(tasks, report, _, _), (tasks, report)) <$> MobileRun.turn dns_addr 5 0 1000 true loop1
  = Some ([MobileRun.TaskDns], None).
Proof. by vm_compute. Qed.

(** A lookup that never succeeds is given up after ten rounds. *)
Example no_server : MobileRun.start (λ _, None) true 443 dns_addr 1500 0 = None.
Proof. by vm_compute. Qed.

End MobileRunWitness.
