(* ===== verification/Startup.v ===== *)
(** * Start-up ([src/src/config.rs], [src/src/utils.rs], [src/src/server/mod.rs])

    What runs once before a mode's main loop: the fields of the options that are
    derived from the command line ([Opts::setup]), the name server of the system
    ([get_system_dns]), the log file that is moved out of the way ([setup_logger])
    and the certificates and the key of the server ([init_config]).  The command
    line itself is clap's, files are their contents. *)

From Stdlib Require Import ZArith Lia.
From stdpp Require Import base option list gmap sets fin_maps.
From S2P Require Import Prelude Net Config DnsHosts.

Open Scope Z_scope.

(** ** The name server of the system *)

Module SystemDns.

(** "nameserver" and "127.0.0.1" *)
Definition key : list Z := [110; 97; 109; 101; 115; 101; 114; 118; 101; 114].
Definition LOCALHOST : list Z := [49; 50; 55; 46; 48; 46; 48; 46; 49].

(** What successive calls of [BufRead::read_line] append: the lines with their
    terminator. *)
Fixpoint lines_of (text : list Z) : list (list Z) :=
  match text with
  | [] => []
  | c :: text =>
      if c =? 10 then [10] :: lines_of text
      else match lines_of text with
           | [] => [[c]]
           | line :: lines => (c :: line) :: lines
           end
  end.

(** The loop of [get_system_dns] on the lines that can still be read; [data] is
    never cleared. *)
Fixpoint read_loop (data : list Z) (lines : list (list Z)) : list Z :=
  match lines with
  | [] => LOCALHOST
  | next :: lines =>
      let data := data ++ next in
      let line := trim data in
      if bool_decide (key `prefix_of` line) then trim (drop (length key) line)
      else read_loop data lines
  end.

(** [get_system_dns] on the text of the file, of which [readable] lines can be
    read; [None] is a file that cannot be opened. *)
Definition get_system_dns (file : option (list Z * nat)) : option (list Z) :=
  '(text, readable) ← file; Some (read_loop [] (take readable (lines_of text))).

(** *** Trimming *)

Lemma trim_start_app a b : trim_start a ≠ [] → trim_start (a ++ b) = trim_start a ++ b.
Proof. induction a as [|c a IH]; simpl; [done|]. destruct (is_whitespace c); [exact IH|done]. Qed.

Lemma trim_start_blank a b : trim_start a = [] → trim_start (a ++ b) = trim_start b.
Proof. induction a as [|c a IH]; simpl; [done|]. by destruct (is_whitespace c). Qed.

Lemma trim_start_split a : ∃ w, a = w ++ trim_start a ∧ Forall (λ c, is_whitespace c = true) w.
Proof.
  induction a as [|c a IH]; simpl; [by exists []|]. destruct (is_whitespace c) eqn:Hc; [|by exists []].
  destruct IH as (w & Hw & Hf). exists (c :: w). split; [by rewrite Hw at 1|by constructor].
Qed.

(** What [trim] cuts off at the end is white space. *)
Lemma trim_split a : ∃ w, trim_start a = trim a ++ w ∧ Forall (λ c, is_whitespace c = true) w.
Proof.
  unfold trim. destruct (trim_start_split (reverse (trim_start a))) as (w & Hw & Hf).
  exists (reverse w). split; [|by apply Forall_reverse].
  rewrite <-reverse_app, <-Hw. by rewrite reverse_involutive.
Qed.

Lemma trim_blank a : trim a = [] ↔ trim_start a = [].
Proof.
  split; [|unfold trim; by intros ->]. intros Ha. destruct (trim_split a) as (w & Hw & Hf). rewrite Ha in Hw. simpl in Hw.
  destruct (trim_start a) as [|c l] eqn:He; [done|]. subst w. apply Forall_inv in Hf.
  exfalso. clear Ha. induction a as [|d a IH]; simpl in He; [done|].
  destruct (is_whitespace d) eqn:Hd; [by apply IH|]. injection He as -> _. congruence.
Qed.

(** ** Only the first line that is not blank counts *)

Definition blank (line : list Z) : bool := bool_decide (trim line = []).

(** A position where the text, its leading white space left out, is not the key. *)
Definition differs (data : list Z) : Prop :=
  ∃ i c, trim_start data !! i = Some c ∧ (i < length key)%nat ∧ key !! i ≠ Some c.

Lemma differs_app a b : differs a → differs (a ++ b).
Proof.
  intros (i & c & Hi & Hl & Hk). exists i, c. split; [|done].
  rewrite trim_start_app by (intros Hn; by rewrite Hn in Hi). by apply lookup_app_l_Some.
Qed.

Lemma differs_not_key a : differs a → ¬ key `prefix_of` trim a.
Proof.
  intros (i & c & Hi & Hl & Hk) [k Hp]. destruct (trim_split a) as (w & Hw & _).
  rewrite Hw, Hp, <-app_assoc, lookup_app_l in Hi by done. by rewrite Hi in Hk.
Qed.

Lemma read_loop_differs data lines : differs data → read_loop data lines = LOCALHOST.
Proof.
  revert data. induction lines as [|l lines IH]; intros data Hd; [done|]. cbn [read_loop].
  pose proof (differs_app _ l Hd) as Hd'.
  rewrite bool_decide_eq_false_2 by (by apply differs_not_key). by apply IH.
Qed.

Lemma prefix_or_differs (k t : list Z) : ¬ k `prefix_of` t →
  (∃ i c, t !! i = Some c ∧ (i < length k)%nat ∧ k !! i ≠ Some c) ∨ (length t < length k)%nat.
Proof.
  revert t. induction k as [|x k IH]; intros t Hp; [destruct Hp; apply prefix_nil|].
  destruct t as [|y t]; [right; simpl; lia|]. destruct (decide (x = y)) as [->|Hne].
  - destruct (IH t) as [(i & c & ? & ? & ?)|]; [by intros ?%(prefix_cons y)| |right; simpl; lia].
    left. exists (S i), c. split_and!; [done|simpl; lia|done].
  - left. exists 0%nat, y. split_and!; [done|simpl; lia|]. by intros [= ?].
Qed.

Lemma trim_start_head a c : head (trim_start a) = Some c → is_whitespace c = false.
Proof.
  induction a as [|d a IH]; simpl; [done|]. destruct (is_whitespace d) eqn:Hd; [exact IH|]. by intros [= <-].
Qed.

Lemma trim_last a c : last (trim a) = Some c → is_whitespace c = false.
Proof. unfold trim. rewrite last_reverse. apply trim_start_head. Qed.

Lemma key_not_blank : Forall (λ c, is_whitespace c = false) key.
Proof. repeat (constructor; [by vm_compute|]). constructor. Qed.

Lemma ended_line_differs data c :
  last data = Some c → is_whitespace c = true → trim data ≠ [] → ¬ key `prefix_of` trim data → differs data.
Proof.
  intros Hl Hc Hne Hk. destruct (trim_split data) as (w & Hw & Hf).
  destruct (prefix_or_differs _ _ Hk) as [(i & d & Hi & Hlt & Hd)|Hlt].
  { exists i, d. split_and!; [|done|done]. rewrite Hw. by apply lookup_app_l_Some. }
  destruct w as [|d w].
  { rewrite app_nil_r in Hw. destruct (trim_start_split data) as (v & Hv & _).
    rewrite Hv, last_app, Hw in Hl. destruct (last (trim data)) as [e|] eqn:He; [|by apply last_None in He].
    apply trim_last in He. congruence. }
  apply Forall_inv in Hf. exists (length (trim data)), d. split_and!; [|done|].
  - rewrite Hw, lookup_app_r, Nat.sub_diag by done. done.
  - intros Hd. pose proof key_not_blank as Hb. rewrite Forall_lookup in Hb. by rewrite (Hb _ _ Hd) in Hf.
Qed.

(** Every line but the last ends in a line feed. *)
Lemma lines_of_ended text i line : lines_of text !! i = Some line → last line ≠ Some 10 → S i = length (lines_of text).
Proof.
  revert i line. induction text as [|c text IH]; intros i line; cbn [lines_of]; [done|].
  destruct (Z.eqb_spec c 10) as [->|Hc].
  - destruct i as [|i]; cbn [lookup list_lookup length]; [by intros [= <-]|]. intros Hi Hl. f_equal. by eapply IH.
  - destruct (lines_of text) as [|l ls]; cbn [length] in *.
    + by destruct i.
    + destruct i as [|i]; cbn [lookup list_lookup].
      * intros [= <-] Hl. apply (IH 0%nat l); [done|]. by destruct l.
      * intros Hi Hl. by apply (IH (S i) line).
Qed.

Lemma trim_start_blank_app a b : trim a = [] → trim (a ++ b) = trim b.
Proof. intros Ha%trim_blank. unfold trim. by rewrite trim_start_blank. Qed.

Lemma read_loop_first data lines :
  trim data = [] → (∀ i l, lines !! i = Some l → (S i < length lines)%nat → last l = Some 10) →
  read_loop data lines =
    match list_find (λ l, blank l = false) lines with
    | Some (_, line) =>
        if bool_decide (key `prefix_of` trim line) then trim (drop (length key) (trim line)) else LOCALHOST
    | None => LOCALHOST
    end.
Proof.
  revert data. induction lines as [|l lines IH]; intros data Hd Hend; [done|]. cbn [read_loop list_find].
  rewrite trim_start_blank_app by done. destruct (blank l) eqn:Hb; unfold blank in Hb.
  - apply bool_decide_eq_true in Hb. rewrite decide_False by done.
    rewrite Hb, bool_decide_eq_false_2 by (by intros ?%prefix_nil_inv).
    rewrite IH; [by destruct (list_find _ lines) as [[]|]|by rewrite trim_start_blank_app|].
    intros i l' Hi Hl. apply (Hend (S i)); [done|simpl; lia].
  - apply bool_decide_eq_false in Hb. rewrite decide_True by done. case_bool_decide as Hk; [done|].
    destruct lines as [|l' lines]; [done|].
    apply read_loop_differs, (ended_line_differs _ 10); [|done|by rewrite trim_start_blank_app..].
    rewrite last_app, (Hend 0%nat l); [done|done|simpl; lia].
Qed.

(** C23: [get_system_dns] reads line after line until one names a name server; but
    it keeps what it has read before, so it answers with the name server only of
    the first line that is not blank, and with 127.0.0.1 if that line is another
    (a comment, [search] or [options]), whatever follows it. *)
Theorem system_dns_first_line file :
  get_system_dns file =
    (λ '(text, readable),
       match list_find (λ l, blank l = false) (take readable (lines_of text)) with
       | Some (_, line) =>
           if bool_decide (key `prefix_of` trim line) then trim (drop (length key) (trim line)) else LOCALHOST
       | None => LOCALHOST
       end) <$> file.
Proof.
  destruct file as [[text readable]|]; [|done]. cbn. f_equal. apply read_loop_first; [done|].
  intros i l Hi Hlt. apply lookup_take_Some in Hi as [Hi Hr].
  destruct (decide (last l = Some 10)) as [|Hn]; [done|].
  pose proof (lines_of_ended _ _ _ Hi Hn). rewrite length_take in Hlt. lia.
Qed.
End SystemDns.

(** ** The derived options *)

Module Setup.

(** The [WintunArgs] read at start-up. *)
Record TunArgs : Type := mkTunArgs { tun_hostname : bytes; tun_port : Z; dns_server_addr : option bytes }.

(** [Mode]; the arguments of the proxy and of the server are fields of [Opts]. *)
Inductive Mode : Type := Proxy | Aproxy | Server | Aserver | Wintun (args : TunArgs) | Awintun (args : TunArgs) | Dns.

(** [Opts::server_args] and [Opts::proxy_args]: any other mode is a panic. *)
Definition server_args (mode : Mode) (o : Opts) : option ServerArgs :=
  match mode with Server | Aserver => Some (Config.server_args o) | _ => None end.

Definition proxy_args (mode : Mode) (o : Opts) : option ProxyArgs :=
  match mode with Proxy | Aproxy => Some (Config.proxy_args o) | _ => None end.

Definition with_back_addr (o : Opts) (back : option SocketAddr) : Opts :=
  mkOpts (Config.server_args o) (Config.proxy_args o) (password o) (udp_idle_timeout o) (tcp_idle_timeout o)
    (sha_pass o) (pass_len o) back (empty_addr o) (udp_idle_duration o) (tcp_idle_duration o).

Definition with_empty_addr (o : Opts) (empty : option SocketAddr) : Opts :=
  mkOpts (Config.server_args o) (Config.proxy_args o) (password o) (udp_idle_timeout o) (tcp_idle_timeout o)
    (sha_pass o) (pass_len o) (back_addr o) empty (udp_idle_duration o) (tcp_idle_duration o).

Definition with_durations (o : Opts) (udp tcp : Z) : Opts :=
  mkOpts (Config.server_args o) (Config.proxy_args o) (password o) (udp_idle_timeout o) (tcp_idle_timeout o)
    (sha_pass o) (pass_len o) (back_addr o) (empty_addr o) udp tcp.

(** "127.0.0.53" *)
Definition RESOLVED : list Z := [49; 50; 55; 46; 48; 46; 48; 46; 53; 51].

Section Setup.
(** [str::parse] of an address with its port, the lookups of a host name (the
    [i]-th with the system's resolver or through a name server), the digest. *)
Context (parse_addr : bytes → option SocketAddr).
Context (lookup : option bytes → bytes → nat → option (list IpAddr)).
Context (sha224 hex_encode : bytes → bytes).

(** What is derived with the options: the name server of the server's modes and
    the address that the proxy's modes leave out of the session. *)
Record Derived : Type := mkDerived { system_dns : list Z; skip_dns_ip : option IpAddr }.

(** The address of [resolve]: [None] is its panic. *)
Definition resolve (o : Opts) (hostname : bytes) (port : Z) (dns_server : option bytes) : option Opts :=
  a ← Config.resolve port (lookup dns_server hostname) (back_addr o); Some (with_back_addr o (Some a)).

Definition setup_mode (mode : Mode) (resolv_conf : option (list Z * nat)) (o : Opts) : option (Opts * Derived) :=
  match mode with
  | Server | Aserver =>
      a ← parse_addr (remote_addr (Config.server_args o));
      Some (with_back_addr o (Some a), mkDerived (default RESOLVED (SystemDns.get_system_dns resolv_conf)) None)
  | Proxy | Aproxy =>
      let args := Config.proxy_args o in
      let skip := if 0 <? ipset_timeout args then parse_ip (Config.skip_dns args) else None in
      o ← resolve o (hostname args) (port args) None;
      Some (o, mkDerived [] skip)
  | Wintun args | Awintun args =>
      o ← resolve o (tun_hostname args) (tun_port args) (dns_server_addr args);
      Some (o, mkDerived [] None)
  | Dns => Some (o, mkDerived [] None)
  end.

(** The unspecified address of the family of [back_addr]. *)
Definition empty_of (back : SocketAddr) : SocketAddr :=
  if is_ipv4 (sa_ip back) then mkSocketAddr (V4 [0; 0; 0; 0]) 0 else mkSocketAddr (V6 (replicate 16 0)) 0.

Definition setup (mode : Mode) (resolv_conf : option (list Z * nat)) (o : Opts) : option (Opts * Derived) :=
  '(o, d) ← setup_mode mode resolv_conf o;
  let o := match back_addr o with Some back => with_empty_addr o (Some (empty_of back)) | None => o end in
  let o := with_durations o (secs (udp_idle_timeout o)) (secs (tcp_idle_timeout o)) in
  Some (digest_pass sha224 hex_encode o, d).

(** The host whose address a client's mode looks up. *)
Definition looked_up (mode : Mode) (o : Opts) : option (bytes * Z * option bytes) :=
  match mode with
  | Proxy | Aproxy => Some (hostname (Config.proxy_args o), port (Config.proxy_args o), None)
  | Wintun args | Awintun args => Some (tun_hostname args, tun_port args, dns_server_addr args)
  | _ => None
  end.

(** [back] is the address of the first of ten lookups that has any. *)
Definition found (host : bytes * Z * option bytes) (back : SocketAddr) : Prop :=
  ∃ i ips, (i < 10)%nat ∧ lookup host.2 host.1.1 i = Some ips
    ∧ preferred ips = Some (sa_ip back) ∧ sa_port back = host.1.2
    ∧ ∀ j, (j < i)%nat → default [] (lookup host.2 host.1.1 j) = [].

Definition never_found (host : bytes * Z * option bytes) : Prop :=
  ∀ j, (j < 10)%nat → default [] (lookup host.2 host.1.1 j) = [].

Lemma resolve_spec o host port dns_server : back_addr o = None →
  match resolve o host port dns_server with
  | Some o' => ∃ back, o' = with_back_addr o (Some back) ∧ found (host, port, dns_server) back
  | None => never_found (host, port, dns_server)
  end.
Proof.
  unfold resolve, Config.resolve. intros ->.
  pose proof (resolve_rounds_spec port 10 0 (lookup dns_server host)) as H.
  destruct (resolve_rounds _ _ _ _ _) as [a|]; cbn.
  - destruct H as (j & ips & ip & Hj & Hl & Hp & -> & Hk). eexists. split; [done|].
    exists j, ips. cbn. split_and!; [lia|done..|]. intros k Hlt. apply Hk. lia.
  - intros j Hj. apply H. lia.
Qed.

(** What a mode requires of [back_addr]. *)
Definition addressed (mode : Mode) (o : Opts) (back : option SocketAddr) : Prop :=
  match mode with
  | Dns => back = None
  | Server | Aserver => ∃ a, back = Some a ∧ parse_addr (remote_addr (Config.server_args o)) = Some a
  | _ => ∃ host a, looked_up mode o = Some host ∧ back = Some a ∧ found host a
  end.

Definition unaddressed (mode : Mode) (o : Opts) : Prop :=
  match mode with
  | Dns => False
  | Server | Aserver => parse_addr (remote_addr (Config.server_args o)) = None
  | _ => ∃ host, looked_up mode o = Some host ∧ never_found host
  end.

Lemma setup_mode_spec mode conf o : back_addr o = None →
  match setup_mode mode conf o with
  | Some (o', _) => ∃ back, o' = with_back_addr o back ∧ addressed mode o back
  | None => unaddressed mode o
  end.
Proof.
  intros Hb. assert (with_back_addr o None = o) as Ho by (rewrite <-Hb; by destruct o).
  destruct mode; cbn [setup_mode addressed unaddressed looked_up].
  1, 2, 5, 6: match goal with |- context [resolve ?o ?h ?p ?d] => pose proof (resolve_spec o h p d Hb) as H;
    destruct (resolve o h p d) as [o'|]; cbn; [destruct H as (a & -> & H)|]; by eauto 10 end.
  1, 2: destruct (parse_addr _) as [a|]; cbn; by eauto.
  exists None. by rewrite Ho.
Qed.

(** C37: what the rest of the program relies on after [setup]: the digest is the
    hexadecimal one of the password and [pass_len] its length, the idle times are
    those of the command line, a mode other than [dns] has the address it relays
    to - parsed, or that of the first of ten lookups with an address in it, an IPv4
    one if there is any - and with it the unspecified address of its family; and
    start-up panics exactly if the address cannot be parsed, or no lookup finds any. *)
Theorem setup_establishes mode conf o :
  (∀ b, is_hex (hex_encode b)) → back_addr o = None →
  match setup mode conf o with
  | Some (o', _) =>
      OptsOk o' ∧ check_pass o' (hex_encode (sha224 (password o))) = Some (password o)
      ∧ udp_idle_duration o' = secs (udp_idle_timeout o) ∧ tcp_idle_duration o' = secs (tcp_idle_timeout o)
      ∧ addressed mode o (back_addr o')
      ∧ (∀ back, back_addr o' = Some back → empty_addr o' = Some (empty_of back))
      ∧ server_args mode o' = server_args mode o ∧ proxy_args mode o' = proxy_args mode o
  | None => unaddressed mode o
  end.
Proof.
  intros Hx Hb. unfold setup. pose proof (setup_mode_spec mode conf o Hb) as H.
  destruct (setup_mode mode conf o) as [[o' d]|]; cbn [mbind option_bind]; [|done].
  destruct H as (back & -> & Ha). split; [by apply digest_pass_ok|].
  destruct back as [a|]; cbn [with_back_addr back_addr]; (split_and!; [|done|done|exact Ha| |by destruct mode..]).
  1, 3: unfold check_pass; by rewrite bool_decide_eq_true_2.
  - by intros ? [= <-].
  - done.
Qed.
End Setup.
End Setup.

(** ** The log file *)

Module Logger.

(** [i32] *)
Definition wrap_i32 (n : Z) : Z := wrap 32 (n + 2 ^ 31) - 2 ^ 31.

(** "{logfile}.{suffix}" *)
Definition suffixed (logfile : bytes) (suffix : Z) : bytes := logfile ++ [46] ++ digits 10 10 suffix.

(** The search for a name that is not taken. *)
Fixpoint free_suffix (fuel : nat) (files : gmap bytes bytes) (logfile : bytes) (suffix : Z) : option Z :=
  match fuel with
  | O => None
  | S fuel =>
      match files !! suffixed logfile suffix with
      | None => Some suffix
      | Some _ => free_suffix fuel files logfile (wrap_i32 (suffix + 1))
      end
  end.

(** What [setup_logger] does to the files before it opens the log: [renamed] is
    whether [rename] succeeds, [None] its error. *)
Definition rotate (fuel : nat) (files : gmap bytes bytes) (logfile : bytes) (renamed : bool) :
    option (option (gmap bytes bytes)) :=
  match files !! logfile with
  | None => Some (Some files)
  | Some log =>
      suffix ← free_suffix fuel files logfile 1;
      Some (if renamed then Some (<[suffixed logfile suffix := log]> (delete logfile files)) else None)
  end.

(** [log::LevelFilter] *)
Inductive LevelFilter : Type := Off | Error | Warn | Info | Debug | Trace.

Definition level_filter (level : Z) : LevelFilter :=
  if level =? 0 then Trace else if level =? 1 then Debug else if level =? 2 then Info
  else if level =? 3 then Warn else if level =? 4 then Error else Off.

(** *** Names with different suffixes differ *)

Definition value (s : bytes) : Z := fold_left (λ acc c, acc * 10 + (c - 48)) s 0.

Lemma digits_value fuel n : 0 ≤ n < 10 ^ Z.of_nat fuel → value (digits fuel 10 n) = n.
Proof.
  unfold value. revert n. induction fuel as [|fuel IH]; intros n Hn; [simpl in *; lia|]. cbn [digits].
  unfold digit_char. destruct (Z.ltb_spec n 10) as [|Hge].
  - simpl. lia.
  - pose proof (Z.mod_pos_bound n 10 ltac:(lia)) as Hm. pose proof (Z.div_mod n 10 ltac:(lia)) as Hd.
    rewrite (proj2 (Z.ltb_lt (n mod 10) 10)) by lia. rewrite fold_left_app. simpl. rewrite IH; [lia|].
    rewrite Nat2Z.inj_succ, Z.pow_succ_r in Hn by lia. split; [apply Z.div_pos; lia|].
    apply Z.div_lt_upper_bound; lia.
Qed.

Lemma suffixed_inj logfile i j : 0 ≤ i < 2 ^ 31 → 0 ≤ j < 2 ^ 31 → suffixed logfile i = suffixed logfile j → i = j.
Proof.
  unfold suffixed. intros Hi Hj He. apply app_inv_head, app_inv_head in He.
  rewrite <-(digits_value 10 i), <-(digits_value 10 j), He; simpl Z.pow; lia.
Qed.

Lemma suffixed_ne logfile suffix : suffixed logfile suffix ≠ logfile.
Proof. intros He. apply (f_equal length) in He. unfold suffixed in He. rewrite !length_app in He. simpl in He. lia. Qed.

(** *** The search ends *)

Definition taken (files : gmap bytes bytes) (logfile : bytes) (i n : nat) : Prop :=
  ∀ j, (i <= j < n)%nat → is_Some (files !! suffixed logfile (Z.of_nat j)).

(** As many names are taken as there are files, at most. *)
Lemma taken_bound files logfile n :
  Z.of_nat n < 2 ^ 31 → taken files logfile 1 (S n) → (n <= size files)%nat.
Proof.
  intros Hn Ht. set (names := (λ j, suffixed logfile (Z.of_nat j)) <$> seq 1 n).
  assert (NoDup names) as Hnd.
  { apply NoDup_fmap_2_strong; [|apply NoDup_seq]. intros i j Hi%elem_of_seq Hj%elem_of_seq He.
    apply suffixed_inj in He; lia. }
  rewrite <-(size_dom (D := gset bytes)). trans (size (list_to_set names : gset bytes)).
  { rewrite size_list_to_set by done. unfold names. by rewrite length_fmap, length_seq. }
  apply subseteq_size. intros p. rewrite elem_of_list_to_set, elem_of_dom. unfold names.
  intros (j & -> & Hj%elem_of_seq)%list_elem_of_fmap. apply Ht. lia.
Qed.

Lemma wrap_i32_small n : - 2 ^ 31 ≤ n < 2 ^ 31 → wrap_i32 n = n.
Proof. intros Hn. unfold wrap_i32. rewrite wrap_small; lia. Qed.

Lemma free_suffix_spec fuel files logfile i :
  Z.of_nat (size files) < 2 ^ 31 - 1 → (1 <= i)%nat → taken files logfile 1 i →
  (S (size files) < i + fuel)%nat →
  ∃ n, (i <= n)%nat ∧ free_suffix fuel files logfile (Z.of_nat i) = Some (Z.of_nat n)
    ∧ files !! suffixed logfile (Z.of_nat n) = None ∧ taken files logfile 1 n.
Proof.
  intros Hs. revert i. induction fuel as [|fuel IH]; intros i Hi Ht Hf.
  - destruct i as [|i]; [lia|]. exfalso.
    assert (taken files logfile 1 (S (S (size files)))) as H by (intros j Hj; apply Ht; lia).
    apply taken_bound in H; lia.
  - cbn [free_suffix]. destruct (files !! suffixed logfile (Z.of_nat i)) as [log|] eqn:Hl.
    + assert (taken files logfile 1 (S i)) as Ht'.
      { intros j Hj. destruct (decide (j = i)) as [->|]; [by rewrite Hl|]. apply Ht. lia. }
      rewrite wrap_i32_small.
      * replace (Z.of_nat i + 1) with (Z.of_nat (S i)) by lia.
        destruct (IH (S i)) as (n & ? & ?); [lia|done|lia|]. exists n. split; [lia|done].
      * assert ((i <= size files)%nat); [|lia]. apply Nat.le_ngt. intros Hlt.
        assert (taken files logfile 1 (S (S (size files)))) as H by (intros j Hj; apply Ht'; lia).
        apply taken_bound in H; lia.
    + exists i. by split_and!.
Qed.

(** The log of an earlier run is never lost: [setup_logger] finds a free name
    for it after at most as many attempts as there are files, moves it there, and
    changes no other file; the name is "{logfile}.N" for the least free [N] from 1;
    the log file's own name is free afterwards. *)
Theorem old_log_is_kept fuel files logfile :
  Z.of_nat (size files) < 2 ^ 31 - 1 → (size files < fuel)%nat →
  match files !! logfile with
  | None => rotate fuel files logfile true = Some (Some files)
  | Some log =>
      ∃ n files', rotate fuel files logfile true = Some (Some files')
        ∧ (1 <= n)%nat ∧ taken files logfile 1 n ∧ files !! suffixed logfile (Z.of_nat n) = None
        ∧ files' !! suffixed logfile (Z.of_nat n) = Some log ∧ files' !! logfile = None
        ∧ ∀ p, p ≠ logfile → p ≠ suffixed logfile (Z.of_nat n) → files' !! p = files !! p
  end.
Proof.
  intros Hs Hf. unfold rotate. destruct (files !! logfile) as [log|] eqn:Hl; [|done].
  destruct (free_suffix_spec fuel files logfile 1) as (n & Hn & Hfree & Hnone & Ht); [done|lia|intros j; lia|lia|].
  change (Z.of_nat 1) with 1 in Hfree. rewrite Hfree. exists n. eexists. split; [reflexivity|].
  split_and!; [done..|apply lookup_insert_eq| |].
  - rewrite lookup_insert_ne by apply suffixed_ne. apply lookup_delete_eq.
  - intros p Hp Hp'. rewrite lookup_insert_ne by done. by apply lookup_delete_ne.
Qed.
End Logger.

(** ** The certificates of the server *)

Module ServerTls.

(** What [rustls_pemfile] finds in a file. *)
Inductive Item : Type :=
  | X509Certificate (der : bytes) | Pkcs1Key (der : bytes) | Pkcs8Key (der : bytes) | Sec1Key (der : bytes) | Crl (der : bytes).

Inductive PrivateKeyDer : Type := Pkcs1 (der : bytes) | Pkcs8 (der : bytes).

(** [load_certs] on what the iterator yields, [None] an error: errors are skipped. *)
Definition load_certs (items : list (option bytes)) : list bytes := omap id items.

(** [load_private_key] on what [read_one] returns in turn; an error and the end of
    the file panic. *)
Fixpoint load_private_key (items : list (option Item)) : option PrivateKeyDer :=
  match items with
  | Some (Pkcs8Key der) :: _ => Some (Pkcs8 der)
  | Some (Pkcs1Key der) :: _ => Some (Pkcs1 der)
  | Some _ :: items => load_private_key items
  | None :: _ | [] => None
  end.

Definition key_of (item : Item) : option PrivateKeyDer :=
  match item with Pkcs8Key der => Some (Pkcs8 der) | Pkcs1Key der => Some (Pkcs1 der) | _ => None end.

Lemma load_private_key_spec items key :
  load_private_key items = Some key ↔
    ∃ before item rest, items = (Some <$> before) ++ Some item :: rest ∧ key_of item = Some key
      ∧ Forall (λ i, key_of i = None) before.
Proof.
  split.
  - induction items as [|[[]|] items IH]; cbn [load_private_key]; try done.
    2, 3: intros [= <-]; exists []; eauto 10.
    all: intros (before & item & rest & -> & Hk & Hb)%IH;
      match goal with |- context [Some ?i :: _] => exists (i :: before) end; eauto 10.
  - intros (before & item & rest & -> & Hk & Hb). induction before as [|[] before IH]; cbn; try by apply Forall_cons in Hb as [? ?]; eauto.
    destruct item; naive_solver.
Qed.

(** The configuration rustls builds: the roots a client's certificate is checked
    against, if it is, and whether a client may do without one. *)
Record ServerConfig : Type := mkServerConfig {
  client_roots : option (list bytes * bool); chain : list bytes; key : PrivateKeyDer; alpn_protocols : list bytes }.

Section Init.
(** rustls: which certificates a root store takes, and whether a verifier and a
    configuration can be built. *)
Context (webpki_roots : list bytes) (add_root : bytes → bool) (build_verifier : list bytes → bool).
Context (single_cert : list bytes → PrivateKeyDer → bool).

(** [init_config]: [None] is a panic, [Some None] an error. *)
Definition init_config (args : ServerArgs) (cert_file : list (option bytes)) (key_file : list (option Item)) :
    option (option ServerConfig) :=
  let certs := load_certs cert_file in
  if negb (forallb add_root certs) then Some None
  else
    let roots := webpki_roots ++ certs in
    if check_auth args && negb (build_verifier roots) then Some None
    else
      key ← load_private_key key_file;
      Some (if single_cert certs key
            then Some (mkServerConfig (if check_auth args then Some (roots, true) else None) certs key (alpn args))
            else None).

(** Even with [check_auth] a client without a certificate is let in. *)
Lemma anonymous_clients args certs keys config :
  init_config args certs keys = Some (Some config) → ∀ roots b, client_roots config = Some (roots, b) → b = true.
Proof.
  unfold init_config. destruct (negb (forallb _ _)); [done|]. destruct (check_auth args && _); [done|].
  destruct (load_private_key keys) as [k|]; [|done]. cbn. destruct (single_cert _ _); [|done].
  intros [= <-] roots b. cbn. by destruct (check_auth args); [intros [= <- <-]|].
Qed.
End Init.
End ServerTls.

(** ** Examples *)

Module StartupWitness.
Import Setup Logger.

(** "# dns", "nameserver 8.8" *)
Definition comment : list Z := [35; 32; 100; 110; 115; 10].
Definition named : list Z := SystemDns.key ++ [32; 56; 46; 56; 10].

Example name_server_found : SystemDns.get_system_dns (Some ([10] ++ named ++ comment, 9%nat)) = Some [56; 46; 56].
Proof. by vm_compute. Qed.

Example name_server_after_comment : SystemDns.get_system_dns (Some (comment ++ named, 9%nat)) = Some SystemDns.LOCALHOST.
Proof. by vm_compute. Qed.

(** A digest and its text; the second lookup answers, with an IPv6 address first. *)
Definition digest (b : bytes) : bytes := [Z.of_nat (length b)].
Definition hex (b : bytes) : bytes := (λ x, 97 + x mod 6) <$> b.
Definition parse_addr (b : bytes) : option SocketAddr := Some (mkSocketAddr (V4 [127; 0; 0; 1]) 80).
Definition lookup (server : option bytes) (host : bytes) (i : nat) : option (list IpAddr) :=
  if (i =? 1)%nat then Some [V6 (replicate 16 1); V4 [9; 9; 9; 9]] else None.

(** Options as clap leaves them. *)
Definition parsed : Opts :=
  mkOpts (mkServerArgs [] 300 false [] 100 [] true 600 false) (mkProxyArgs [104] 443 0 true 3600 [] [] 70 false 60 [56])
    [112; 119] 60 600 [] 0 None None 0 0.

Lemma hex_is_hex b : is_hex (hex b).
Proof.
  unfold hex. induction b as [|x b IH]; constructor; [|exact IH]. right.
  pose proof (Z.mod_pos_bound x 6 ltac:(lia)). lia.
Qed.

Example proxy_address :
  (back_addr ∘ fst) <$> setup parse_addr lookup digest hex Proxy None parsed = Some (Some (mkSocketAddr (V4 [9; 9; 9; 9]) 443)).
Proof. by vm_compute. Qed.

Lemma setup_establishes_witness :
  match setup parse_addr lookup digest hex Proxy None parsed with
  | Some (o', _) =>
      OptsOk o' ∧ check_pass o' (hex (digest (password parsed))) = Some (password parsed)
      ∧ udp_idle_duration o' = secs 60 ∧ tcp_idle_duration o' = secs 600
      ∧ addressed parse_addr lookup Proxy parsed (back_addr o')
      ∧ (∀ back, back_addr o' = Some back → empty_addr o' = Some (empty_of back))
      ∧ Setup.server_args Proxy o' = Setup.server_args Proxy parsed
      ∧ Setup.proxy_args Proxy o' = Setup.proxy_args Proxy parsed
  | None => unaddressed parse_addr lookup Proxy parsed
  end.
Proof. exact (setup_establishes parse_addr lookup digest hex Proxy None parsed hex_is_hex ltac:(done)). Defined.

(** A log "l" and an older one "l.1". *)
Definition files : gmap bytes bytes := <[[108] := [1; 2]]> {[ [108; 46; 49] := [3] ]}.

Example rotated :
  rotate 3 files [108] true = Some (Some (<[[108; 46; 50] := [1; 2]]> {[ [108; 46; 49] := [3] ]})).
Proof. by vm_compute. Qed.

Lemma old_log_is_kept_witness :
  match files !! [108] with
  | None => rotate 3 files [108] true = Some (Some files)
  | Some log =>
      ∃ n files', rotate 3 files [108] true = Some (Some files')
        ∧ (1 <= n)%nat ∧ taken files [108] 1 n ∧ files !! suffixed [108] (Z.of_nat n) = None
        ∧ files' !! suffixed [108] (Z.of_nat n) = Some log ∧ files' !! [108] = None
        ∧ ∀ p, p ≠ [108] → p ≠ suffixed [108] (Z.of_nat n) → files' !! p = files !! p
  end.
Proof. apply (old_log_is_kept 3 files [108]); [by vm_compute|]. apply Nat.ltb_lt. by vm_compute. Defined.
End StartupWitness.
