(* ===== verification/AsyncRun.v ===== *)
(** * The main tasks of the asynchronous modes
    ([async_run] of [src/src/aserver/mod.rs]; [run_tcp] of [src/src/aproxy/tcp.rs])

    The server's main task accepts clients, counts them and gives each a task; a
    task takes itself off the count when it returns.  The proxy's accepts
    redirected clients.  Both end at the first error of theirs, and the runtime
    with them.  What the tasks do is in [AServer] and [AProxy]. *)

From Stdlib Require Import ZArith Lia.
From stdpp Require Import base option list gmap.
From S2P Require Import Prelude Net Config Proto Env AsyncIo ServerConn AServer AProxy.

Open Scope Z_scope.

(** ** The server *)

Module AServerRun.

(** [tasks] are the clients being served, by their tasks. *)
Record t : Type := mk { tasks : gmap nat SocketAddr; next : nat; task_count : Z; running : bool }.

(** What happens: a client is accepted or accepting fails; a task returns or
    panics. *)
Inductive event : Type := Accepted (src_addr : SocketAddr) | AcceptFailed | Returned (task : nat) | Panicked (task : nat).

Definition start : t := mk ∅ 0 0 true.

(** [None] is an event that cannot happen.  When the main task returns, the runtime
    drops the others. *)
Definition handle (s : t) (e : event) : option t :=
  if negb (running s) then None
  else
    match e with
    | Accepted src_addr =>
        Some (mk (<[next s := src_addr]> (tasks s)) (S (next s)) (wrap 32 (task_count s + 1)) true)
    | AcceptFailed => Some (mk ∅ (next s) (task_count s) false)
    | Returned task =>
        _ ← tasks s !! task; Some (mk (delete task (tasks s)) (next s) (wrap 32 (task_count s - 1)) true)
    | Panicked task =>
        _ ← tasks s !! task; Some (mk (delete task (tasks s)) (next s) (task_count s) true)
    end.

Fixpoint run (s : t) (events : list event) : option t :=
  match events with
  | [] => Some s
  | e :: events => s ← handle s e; run s events
  end.

(** *** A task *)

Section Task.
Context (OPTIONS : Opts) (lookup_host : bytes → Z → option (list SocketAddr)).

(** What [start_proxy_internal] comes to: it still reads, fails with an error, shuts
    the connection down, or becomes a service with the buffer it has. *)
Inductive served : Type :=
  | Reading | Failure | ShutDown | Service (s : AServer.service) (target : SocketAddr) (buffer : bytes).

(** [None] is a panic; [accepted] is whether the TLS handshake succeeds. *)
Definition start_proxy_internal (accepted : bool) (reads : list read_outcome) : option served :=
  if negb accepted then Some Failure
  else
    '(h, _) ← AServer.handshake_loop OPTIONS lookup_host [] reads;
    match h with
    | AServer.Wait _ => Some Reading
    | AServer.Fail => Some Failure
    | AServer.Refuse _ => Some ShutDown
    | AServer.Serve cmd target buffer => s ← AServer.service_of cmd; Some (Service s target buffer)
    end.

(** How a task's end shows in the main task's state. *)
Definition end_event (task : nat) (r : option served) : option event :=
  match r with
  | None => Some (Panicked task)
  | Some Failure | Some ShutDown => Some (Returned task)
  | Some _ => None
  end.
End Task.

(** *** The count *)

Definition accepted (events : list event) : list SocketAddr :=
  omap (λ e, match e with Accepted src_addr => Some src_addr | _ => None end) events.
Definition ended (events : list event) : list nat :=
  omap (λ e, match e with Returned task | Panicked task => Some task | _ => None end) events.
Definition panicked (events : list event) : list nat :=
  omap (λ e, match e with Panicked task => Some task | _ => None end) events.

Lemma run_snoc s events e : run s (events ++ [e]) = run s events ≫= λ s, handle s e.
Proof.
  revert s. induction events as [|e' events IH]; intros s; cbn.
  - by destruct (handle s e).
  - destruct (handle s e') as [s'|]; cbn; [apply IH|done].
Qed.

Lemma wrap_add w z d : wrap w (wrap w z + d) = wrap w (z + d).
Proof. unfold wrap. apply Zplus_mod_idemp_l. Qed.

(** What holds while the server runs. *)
Record counted (events : list event) (s : t) : Prop := {
  c_next : next s = length (accepted events);
  c_ended : ∀ i, i ∈ ended events → (i < next s)%nat;
  c_tasks : ∀ i a, tasks s !! i = Some a ↔ accepted events !! i = Some a ∧ i ∉ ended events;
  c_count : task_count s = wrap 32 (Z.of_nat (size (tasks s) + length (panicked events)))
}.

Lemma counted_accepted events s src_addr :
  counted events s →
  counted (events ++ [Accepted src_addr])
    (mk (<[next s := src_addr]> (tasks s)) (S (next s)) (wrap 32 (task_count s + 1)) true).
Proof.
  intros [Hn He Ht Hc].
  assert (tasks s !! next s = None) as Hfresh.
  { destruct (tasks s !! next s) as [a|] eqn:Ha; [|done]. apply Ht in Ha as [Ha _]. apply lookup_lt_Some in Ha. lia. }
  constructor; unfold accepted, ended, panicked in *; cbn [next tasks task_count]; rewrite !omap_app; cbn; rewrite ?app_nil_r.
  - rewrite length_app, Hn. simpl. lia.
  - intros i Hi. pose proof (He i Hi). lia.
  - intros i a. destruct (decide (i = next s)) as [->|Hne].
    + rewrite lookup_insert_eq, Hn, lookup_app_r, Nat.sub_diag by done. cbn. split; [|by intros [[= ->] _]].
      intros [= ->]. split; [done|]. rewrite <-Hn. intros Hi%He. lia.
    + rewrite lookup_insert_ne, Ht by done. split; intros [Ha Hi]; (split; [|done]).
      * by apply lookup_app_l_Some.
      * apply lookup_app_Some in Ha as [Ha|[Hle Ha]]; [done|]. apply lookup_lt_Some in Ha as Hlt. simpl in Hlt. lia.
  - rewrite Hc, wrap_add, map_size_insert_None by done. f_equal. lia.
Qed.

(** A task that ends, with [d] off the count. *)
Lemma counted_ended events s e i a d :
  tasks s !! i = Some a → e = Returned i ∧ d = 1 ∨ e = Panicked i ∧ d = 0 →
  counted events s →
  counted (events ++ [e]) (mk (delete i (tasks s)) (next s) (wrap 32 (task_count s - d)) true).
Proof.
  intros Hi Hd [Hn He Ht Hc].
  assert (size (delete i (tasks s)) = pred (size (tasks s))) as Hsz by (by apply map_size_delete_Some).
  assert (0 < size (tasks s))%nat as Hpos.
  { apply Nat.neq_0_lt_0. intros H0%map_size_empty_inv. by rewrite H0 in Hi. }
  assert (accepted (events ++ [e]) = accepted events) as Ha
    by (unfold accepted; rewrite omap_app; destruct Hd as [[-> ->]|[-> ->]]; apply app_nil_r).
  assert (ended (events ++ [e]) = ended events ++ [i]) as Hen
    by (unfold ended; rewrite omap_app; by destruct Hd as [[-> ->]|[-> ->]]).
  constructor; cbn [next tasks task_count]; rewrite ?Ha, ?Hen.
  - done.
  - intros j [Hj|Hj%list_elem_of_singleton]%elem_of_app; [by apply He|]. subst j.
    apply Ht in Hi as [Hi _]. apply lookup_lt_Some in Hi. lia.
  - intros j b. rewrite not_elem_of_app, list_elem_of_singleton.
    destruct (decide (j = i)) as [->|Hne]; [rewrite lookup_delete_eq; naive_solver|].
    rewrite lookup_delete_ne, Ht by done. naive_solver.
  - rewrite Hc. unfold Z.sub. rewrite wrap_add, Hsz. f_equal. unfold panicked. rewrite omap_app, length_app.
    destruct Hd as [[-> ->]|[-> ->]]; simpl; lia.
Qed.

Lemma run_counted events s :
  run start events = Some s →
  if running s then counted events s ∧ AcceptFailed ∉ events
  else tasks s = ∅ ∧ ∃ before, events = before ++ [AcceptFailed] ∧ AcceptFailed ∉ before.
Proof.
  revert s. induction events as [|e events IH] using rev_ind; intros s.
  - intros [= <-]. split; [|apply not_elem_of_nil]. constructor; cbn; try done.
    + intros i Hi. by apply elem_of_nil in Hi.
    + intros i a. rewrite lookup_empty. naive_solver.
  - rewrite run_snoc. intros (s0 & H0 & Hh)%bind_Some. specialize (IH s0 H0).
    unfold handle in Hh. destruct (running s0); [|done]. destruct IH as [Hc Hf]. cbn [negb] in Hh.
    assert (∀ e, e ≠ AcceptFailed → AcceptFailed ∉ events ++ [e]) as Hf'.
    { intros e' He'. rewrite not_elem_of_app, list_elem_of_singleton. naive_solver. }
    destruct e as [a| |i|i].
    + injection Hh as <-. split; [by apply counted_accepted|by apply Hf'].
    + injection Hh as <-. split; [done|]. by exists events.
    + destruct (tasks s0 !! i) as [a|] eqn:Hi; [|done]. injection Hh as <-.
      split; [|by apply Hf']. by apply (counted_ended _ _ _ _ a); [|left|].
    + destruct (tasks s0 !! i) as [a|] eqn:Hi; [|done]. injection Hh as <-.
      split; [|by apply Hf']. pose proof (counted_ended _ _ (Panicked i) _ a 0 Hi ltac:(by right) Hc) as H.
      assert (wrap 32 (task_count s0 - 0) = task_count s0) as Hw
        by (rewrite Z.sub_0_r, (c_count _ _ Hc); unfold wrap; apply Zmod_mod).
      by rewrite Hw in H.
Qed.

(** The asynchronous server serves exactly the clients it has accepted whose
    tasks have not ended, until accepting one fails: then it stops, and drops the
    tasks of all.  What it logs as the number of its connections is, modulo [2 ^
    32], the number of tasks and of those that have panicked, which never come off
    the count. *)
Theorem connection_count events s :
  run start events = Some s →
  if running s then
    (∀ i a, tasks s !! i = Some a ↔ accepted events !! i = Some a ∧ i ∉ ended events)
    ∧ task_count s = wrap 32 (Z.of_nat (size (tasks s) + length (panicked events)))
    ∧ AcceptFailed ∉ events
  else tasks s = ∅ ∧ ∃ before, events = before ++ [AcceptFailed] ∧ AcceptFailed ∉ before.
Proof.
  intros Hr%run_counted. destruct (running s); [|done]. destruct Hr as [[Hn He Ht Hc] Hf]. by split_and!.
Qed.
End AServerRun.

(** ** The proxy *)

Module AProxyRun.

(** A turn of the loop of [run_tcp]: whether a client is accepted, the address it
    was redirected from, if that can be read, and whether the profiler still listens
    and the option can be set. *)
Record turn : Type := mkTurn { arrives : bool; dst : option SocketAddr; told : bool; nodelay : bool }.

(** What a turn does: what the profiler is told and the client's task, if any; and
    whether the loop goes on. *)
Definition accept_turn (bypass : bool) (x : turn) : list IpAddr * list SocketAddr * bool :=
  if arrives x then
    match AProxy.accept bypass (dst x) with
    | None => ([], [], false)
    | Some (ips, dst) =>
        if bypass && negb (told x) then ([], [], false)
        else if nodelay x then (ips, [dst], true) else (ips, [], false)
    end
  else ([], [], false).

(** [run_tcp] on the turns to come: what the profiler was told, the clients served,
    and whether it still runs.  When it returns, [async_run] does, and the runtime
    drops the tasks. *)
Fixpoint run_tcp (bypass : bool) (turns : list turn) : list IpAddr * list SocketAddr * bool :=
  match turns with
  | [] => ([], [], true)
  | x :: turns =>
      let '(ips, served, goes_on) := accept_turn bypass x in
      if goes_on then
        let '(ips', served', r) := run_tcp bypass turns in (ips ++ ips', served ++ served', r)
      else (ips, served, false)
  end.

(** Nothing of a turn fails. *)
Definition good (bypass : bool) (x : turn) : bool :=
  arrives x && bool_decide (is_Some (dst x)) && (negb bypass || told x) && nodelay x.

Lemma accept_turn_good bypass x :
  if good bypass x then ∃ a, dst x = Some a ∧ accept_turn bypass x = (if bypass then [sa_ip a] else [], [a], true)
  else (accept_turn bypass x).1.2 = [] ∧ (accept_turn bypass x).2 = false.
Proof.
  unfold good, accept_turn, AProxy.accept. destruct (arrives x), (dst x) as [a|]; cbn; try done.
  destruct bypass, (told x), (nodelay x); cbn; eauto.
Qed.

(** The asynchronous proxy serves redirected clients in the order they arrive,
    each to the address it was going to, until the first of which anything fails;
    that client ends the proxy for all. *)
Theorem first_failure_ends_proxy bypass turns :
  match list_find (λ x, good bypass x = false) turns with
  | None => run_tcp bypass turns
      = (if bypass then sa_ip <$> omap dst turns else [], omap dst turns, true) ∧ length (omap dst turns) = length turns
  | Some (i, _) => (run_tcp bypass turns).1.2 = omap dst (take i turns) ∧ (run_tcp bypass turns).2 = false
      ∧ length (omap dst (take i turns)) = i
  end.
Proof.
  induction turns as [|x turns IH]; [by destruct bypass|]. cbn [list_find run_tcp].
  pose proof (accept_turn_good bypass x) as Hx. destruct (good bypass x) eqn:Hg.
  - destruct Hx as (a & Ha & ->). rewrite decide_False by done.
    destruct (run_tcp bypass turns) as [[ips served] r]. destruct (list_find _ turns) as [[i y]|]; cbn in *.
    + rewrite Ha. cbn. destruct IH as (-> & -> & ->). done.
    + rewrite Ha. cbn. destruct IH as [[= -> -> ->] ->]. by destruct bypass.
  - rewrite decide_True by done. cbn [take omap list_omap]. destruct (accept_turn bypass x) as [[ips served] g].
    destruct Hx as [Hs Hf]. cbn in Hs, Hf. by subst.
Qed.
End AProxyRun.

(** ** Examples *)

Module AsyncRunWitness.
Import Witness AServerRun.

(** Two clients; the first sends a request without its last byte, in pieces that
    end inside the final line feed. *)
Definition request : bytes := TrojanRequest.generate opts CONNECT a4.
Definition cut : list read_outcome := AServer.reads [take (length request - 1) request].

Example cut_request_panics : start_proxy_internal opts AServerWitness.lookup true cut = None.
Proof. by vm_compute. Qed.

Example whole_request_served :
  start_proxy_internal opts AServerWitness.lookup true (AServer.reads [request]) = Some (Service AServer.TcpService a4 []).
Proof. by vm_compute. Qed.

Definition events : list event :=
  [Accepted a4; Accepted a4] ++ option_list (end_event 0 (start_proxy_internal opts AServerWitness.lookup true cut)) ++ [Returned 1].
Definition after : t := default start (run start events).

Lemma connection_count_witness :
  if running after then
    (∀ i a, tasks after !! i = Some a ↔ accepted events !! i = Some a ∧ i ∉ ended events)
    ∧ task_count after = wrap 32 (Z.of_nat (size (tasks after) + length (panicked events)))
    ∧ AcceptFailed ∉ events
  else tasks after = ∅ ∧ ∃ before, events = before ++ [AcceptFailed] ∧ AcceptFailed ∉ before.
Proof. apply (connection_count events after). by vm_compute. Defined.

(** Nobody is served, and one is counted. *)
Example panicked_task_is_counted : (task_count after, tasks after) = (1, ∅).
Proof. by vm_compute. Qed.

(** A failure to accept a client drops the one that is served. *)
Example failure_drops_clients : tasks <$> run start [Accepted a4; AcceptFailed] = Some ∅.
Proof. by vm_compute. Qed.
End AsyncRunWitness.
