(* ===== verification/MobileTun.v ===== *)
(** * The event-loop tunnel of the mobile application: device and TCP
    ([src/mobile/src-tauri/src/tun/device.rs], [tcp.rs])

    [VpnDevice] is the Windows tunnel's device ([WinTun]) with the addresses of the
    server and of the DNS server: packets for the DNS server are let in though its
    address is private, and its socket is made before the loop, by hand.  The TCP
    connections are a copy of the Windows tunnel's ([WinTcp]) that differs in the
    test for a socket that may still be read and in where the password comes from.
    [None] is a panic. *)

From Stdlib Require Import ZArith Lia SpecFloat.
From stdpp Require Import base option list gmap fin_maps relations.
From S2P Require Import Prelude Net Config Proto Env TcpUtil IpSet TlsStream Smoltcp TunDevice TunPool WinTun WinTcp MobileProto.

Open Scope Z_scope.

(** smoltcp: a socket cannot be bound to port 0. *)
Class PortZero (Stk : Smoltcp) : Prop := {
  tcp_listen_zero s e : sa_port e = 0 → tcp_listen s e = None;
  udp_bind_zero s e : sa_port e = 0 → udp_bind s e = None
}.

(** ** The device *)

Module VpnDevice.

Section Device.
Context {Stk : Smoltcp} (k : Ipv4Class).

Record t : Type := mk { base : WinTun.t; server_addr : SocketAddr; dns_addr : SocketAddr }.

Definition with_base (d : t) (b : WinTun.t) : t := mk b (server_addr d) (dns_addr d).

Definition new (mtu : Z) (server_addr dns_addr : SocketAddr) (now : Z) : t :=
  mk (WinTun.new mtu sockets_empty now) server_addr dns_addr.

(** The sizes of the buffers. *)
Definition args : WintunArgs := mkWintunArgs 200 10240 1024000 102400 102400.
Definition UDP_TX_META : Z := 10000.

Definition ensure_tcp_socket (d : t) (endpoint : SocketAddr) : option t :=
  b ← WinTun.ensure_tcp_socket args (base d) endpoint; Some (with_base d b).

Definition create_udp_socket (d : t) (endpoint : SocketAddr) : option (nat * t) :=
  let socket := udp_new (udp_rx_meta_size args) (udp_rx_buffer_size args) UDP_TX_META (udp_tx_buffer_size args) in
  socket ← udp_bind socket endpoint;
  let '(handle, ss) := sockets_add (WinTun.sockets (base d)) (Udp socket) in
  Some (handle, with_base d (WinTun.with_sockets (base d) ss)).

Definition ensure_udp_socket (d : t) (endpoint : SocketAddr) : option t :=
  if bool_decide (endpoint ∈ WinTun.udp_set (base d)) then Some d
  else
    '(handle, d) ← create_udp_socket d endpoint;
    let b := base d in
    socket ← get_udp (WinTun.sockets b) handle;
    '((rx, tx), w) ← Wakers.get_wakers handle (WinTun.udp_wakers b);
    let socket := udp_register_recv rx socket in
    let socket := udp_register_send tx socket in
    Some (with_base d (WinTun.with_udp_set (WinTun.put_udp (WinTun.with_udp_wakers b w) handle socket)
                         ({[endpoint]} ∪ WinTun.udp_set b))).

Definition remove_socket (d : t) (handle : nat) : option t :=
  b ← WinTun.remove_socket (base d) handle; Some (with_base d b).

Definition get_udp_events (d : t) : gmap nat Wakers.Event * t :=
  let '(events, b) := WinTun.get_udp_events (base d) in (events, with_base d b).
Definition get_tcp_events (d : t) : gmap nat Wakers.Event * t :=
  let '(events, b) := WinTun.get_tcp_events (base d) in (events, with_base d b).

Definition get_tcp_socket_mut (d : t) (handle : nat) (waker : WakerMode) : option (TcpSocket * t) :=
  '(s, b) ← WinTun.get_tcp_socket_mut (base d) handle waker; Some (s, with_base d b).
Definition get_udp_socket_mut (d : t) (handle : nat) (waker : WakerMode) : option (UdpSocket * t) :=
  '(s, b) ← WinTun.get_udp_socket_mut (base d) handle waker; Some (s, with_base d b).

(** In kilobytes a second. *)
Definition calculate_speed (now : Z) (d : t) : (spec_float * spec_float) * t :=
  let tr := WinTun.traffic (base d) in
  let time := TunDevice.as_secs_f64 (since now (begin_traffic tr)) in
  let speed (n : Z) := SFdiv 53 1024 (SFdiv 53 1024 (TunDevice.f64_of_Z n) time) (TunDevice.f64_of_Z 1024) in
  ((speed (rx_bytes tr), speed (tx_bytes tr)), with_base d (WinTun.with_traffic (base d) (mkTraffic 0 0 now))).

(** The text of the Windows tunnel's. *)
Definition is_private (endpoint : SocketAddr) : option bool := IpSet.is_private k endpoint.

Definition is_server (d : t) (ip : SocketAddr) : bool := bool_decide (sa_ip (server_addr d) = sa_ip ip).
Definition is_dns (d : t) (ip : SocketAddr) : bool := bool_decide (sa_ip (dns_addr d) = sa_ip ip).

(** The test of [preprocess_packet]. *)
Definition permitted (d : t) (dst_endpoint : SocketAddr) : option bool :=
  if is_dns d dst_endpoint then Some true
  else private ← is_private dst_endpoint; Some (negb (private || is_server d dst_endpoint)).

Definition preprocess_packet (packet : bytes) (d : t) : option t :=
  h ← WinTun.heading_of packet;
  match h with
  | WinTun.HeadOther => Some d
  | WinTun.HeadTo dst_endpoint connect =>
      ok ← permitted d dst_endpoint;
      if negb ok then Some d
      else
        match connect with
        | Some true => ensure_tcp_socket d dst_endpoint
        | None => ensure_udp_socket d dst_endpoint
        | _ => Some d
        end
  end.

(** [Device::receive] on the outcome of [session.receive]; an error is no packet. *)
Definition receive (d : t) (r : io_result (option bytes)) : option t :=
  match r with
  | IoErr _ | IoOk None => Some d
  | IoOk (Some packet) =>
      let tr := WinTun.traffic (base d) in
      let b := WinTun.with_traffic (base d)
                 (mkTraffic (wrap 64 (rx_bytes tr + Z.of_nat (length packet))) (tx_bytes tr) (begin_traffic tr)) in
      preprocess_packet packet (with_base d b)
  end.

(** [TxToken::consume] on whether a packet could be allocated. *)
Definition consume (d : t) (len : Z) (allocated : bool) : option t :=
  b ← WinTun.consume (base d) len allocated; Some (with_base d b).

(** What [run] begins with: the device and the handle of the DNS server's socket,
    whose port is 53. *)
Definition start (mtu : Z) (server_addr : SocketAddr) (dns : IpAddr) (now : Z) : option (nat * t) :=
  create_udp_socket (new mtu server_addr (mkSocketAddr dns 53) now) (mkSocketAddr dns 53).
End Device.

(** ** Its sockets *)

#[local] Existing Instance WinTun.udp_keeps_preorder.

Section Invariant.
Context {Stk : Smoltcp} {Obs : Observed Stk} {K : SmoltcpOk Stk} (k : Ipv4Class).

Abbreviation us d := (udps (WinTun.sockets (base d))).
Abbreviation listed d := (WinTun.udp_set (base d)).
(** The invariant of the Windows tunnel's device, with a socket set apart. *)
Abbreviation dev l := (WinTun.inv (Rs := Some l)).

(** [l] is the DNS server's socket. *)
Record inv (l : nat) (d : t) : Prop := {
  i_dev : dev l (base d);
  i_listener : ∃ s, us d !! l = Some s ∧ WinTun.serves s (dns_addr d);
  i_permitted e : e ∈ listed d → permitted k d e = Some true ∧ sa_port e ≠ 0
}.

(** The socket, if it is there, stays and keeps its endpoint. *)
Definition keeps_at (l : nat) (us us' : gmap nat UdpSocket) : Prop :=
  ∀ s, us !! l = Some s → ∃ s', us' !! l = Some s' ∧ udp_endpoint s' = udp_endpoint s.

Lemma keeps_at_refl l us : keeps_at l us us.
Proof. intros s Hs. eauto. Qed.

Lemma keeps_at_insert l us h s s' :
  us !! h = Some s → udp_endpoint s' = udp_endpoint s → keeps_at l us (<[h := s']> us).
Proof.
  intros Hs He x Hx. destruct (decide (h = l)) as [<-|Hne]; [rewrite lookup_insert_eq; simplify_eq; eauto|].
  rewrite lookup_insert_ne by done. eauto.
Qed.

Lemma keeps_at_other l us us' h : h ≠ l → us' !! l = us !! l → keeps_at l us us'.
Proof. intros _ He x Hx. rewrite He. eauto. Qed.

Lemma inv_base l d b :
  inv l d → dev l b → WinTun.udp_set b ⊆ listed d → keeps_at l (us d) (udps (WinTun.sockets b)) → inv l (with_base d b).
Proof.
  intros [_ (s & Hs & He) Hp] Hb Hset Hk. split; cbn [base with_base dns_addr]; [done| |].
  - destruct (Hk s Hs) as (s' & Hs' & He'). exists s'. split; [done|]. unfold WinTun.serves. by rewrite He'.
  - intros e Hin. apply Hp. set_solver.
Qed.

(** The UDP sockets as they were. *)
Lemma inv_keep l d b :
  inv l d → Wakers.ok (WinTun.tcp_wakers b) → WinTun.wakers_ok (Rs := Some l) (WinTun.udp_wakers b) →
  WinTun.udp_set b = listed d → udps (WinTun.sockets b) = us d → inv l (with_base d b).
Proof.
  intros Hd Ht Hu Hset Hus. apply inv_base; [done| |by rewrite Hset|by rewrite Hus; apply keeps_at_refl].
  eapply WinTun.inv_keep_udps; [apply Hd|done..].
Qed.

Lemma mobile_inv_update l d b h s s' :
  inv l d → Wakers.ok (WinTun.tcp_wakers b) → WinTun.wakers_ok (Rs := Some l) (WinTun.udp_wakers b) →
  WinTun.udp_set b = listed d → us d !! h = Some s → udps (WinTun.sockets b) = <[h := s']> (us d) →
  udp_endpoint s' = udp_endpoint s → inv l (with_base d b).
Proof.
  intros Hd Ht Hu Hset Hs Hus He. apply inv_base; [done| |by rewrite Hset|rewrite Hus; by eapply keeps_at_insert].
  eapply WinTun.inv_update_udp; [apply Hd|done..].
Qed.

Lemma ensure_tcp_inv l d e :
  inv l d → sa_port e ≠ 0 → ∃ h s b, ensure_tcp_socket d e = Some (with_base d b) ∧ inv l (with_base d b)
    ∧ tcps (WinTun.sockets (base d)) !! h = None ∧ tcps (WinTun.sockets b) = <[h := s]> (tcps (WinTun.sockets (base d)))
    ∧ udps (WinTun.sockets b) = us d ∧ tcp_read s = 0%nat.
Proof.
  intros Hd He. unfold ensure_tcp_socket. pose proof (i_dev _ _ Hd) as Hb.
  destruct (WinTun.ensure_tcp_socket_spec args (base d) e (WinTun.i_tcp_wakers _ Hb) He)
    as (h & s & b & -> & Hh & Ht & Hu & Hw & Huw & Hset & _ & _ & _ & Hrd).
  exists h, s, b. split; [done|]. split_and!; try done. apply inv_keep; [done|done|rewrite Huw; apply Hb|done..].
Qed.

Lemma create_udp_socket_spec d e : sa_port e ≠ 0 →
  ∃ h s b, create_udp_socket d e = Some (h, with_base d b) ∧ WinTun.serves s e ∧ us d !! h = None
    ∧ udps (WinTun.sockets b) = <[h := s]> (us d) ∧ WinTun.udp_set b = listed d
    ∧ WinTun.tcp_wakers b = WinTun.tcp_wakers (base d) ∧ WinTun.udp_wakers b = WinTun.udp_wakers (base d)
    ∧ tcps (WinTun.sockets b) = tcps (WinTun.sockets (base d)) ∧ udp_tx s = [].
Proof.
  intros He. unfold create_udp_socket.
  destruct (udp_bind_new (udp_rx_meta_size args) (udp_rx_buffer_size args) UDP_TX_META (udp_tx_buffer_size args) e He)
    as (s & -> & Hep & _ & _ & Htx). cbn [mbind option_bind].
  destruct (sockets_add _ _) as [h ss] eqn:Hadd. apply sockets_add_udp in Hadd as (Hh & Hud & Htc).
  eexists h, s, _. split; [reflexivity|]. by split_and!.
Qed.

Lemma ensure_udp_inv l d e :
  inv l d → sa_port e ≠ 0 → permitted k d e = Some true → ∃ b, ensure_udp_socket d e = Some (with_base d b)
    ∧ inv l (with_base d b) ∧ tcps (WinTun.sockets b) = tcps (WinTun.sockets (base d))
    ∧ (∀ h, is_Some (us d !! h) → is_Some (udps (WinTun.sockets b) !! h))
    ∧ udps (WinTun.sockets b) !! l = us d !! l.
Proof.
  intros Hd He Hp. unfold ensure_udp_socket. pose proof (i_dev _ _ Hd) as Hb.
  case_bool_decide as Hin; [exists (base d); by destruct d|].
  destruct (create_udp_socket_spec d e He) as (h & s & b & -> & Hse & Hh & Hus & Hset & Htw & Huw & Htc & _).
  cbn [mbind option_bind base with_base].
  assert (h ≠ l) as Hne by (intros ->; destruct (i_listener _ _ Hd) as (? & ? & _); congruence).
  assert (udps (WinTun.sockets b) !! h = Some s) as Hn by (by rewrite Hus, lookup_insert_eq).
  rewrite (proj2 (get_udp_Some _ _ _) (proj1 (lookup_udps _ _ _) Hn)). cbn [mbind option_bind].
  assert (WinTun.wakers_ok (Rs := Some l) (WinTun.udp_wakers b)) as Hub by (rewrite Huw; apply Hb).
  destruct (WinTun.wakers_ok_get (Rs := Some l) h _ Hub) as (w & -> & Hok); [by intros [= ->]|]. cbn [mbind option_bind].
  set (s' := udp_register_send _ _).
  assert (WinTun.serves s' e) as Hse'.
  { assert (udp_keeps s s') as (_ & _ & _ & Hk)
      by (subst s'; etrans; [apply udp_register_recv_keeps|apply udp_register_send_keeps]).
    unfold WinTun.serves. by rewrite Hk. }
  destruct (WinTun.put_udp_spec (WinTun.with_udp_wakers b w) h s s' Hn) as [H1 H2].
  cbn [WinTun.sockets WinTun.with_udp_wakers] in H1, H2. rewrite Hus, insert_insert_eq in H1. rewrite Htc in H2.
  eexists. split; [reflexivity|]. cbn [base with_base WinTun.with_udp_set WinTun.sockets].
  split_and!; [|done|intros h' [x Hx]; rewrite H1, lookup_insert_is_Some'; right; by eexists|by rewrite H1, lookup_insert_ne].
  split; cbn [base with_base WinTun.with_udp_set WinTun.sockets WinTun.udp_set dns_addr].
  - eapply (WinTun.inv_add_udp (Rs := Some l) (base d) _ h s' e);
      cbn [WinTun.with_udp_set WinTun.tcp_wakers WinTun.udp_wakers WinTun.udp_set WinTun.sockets WinTun.put_udp
           WinTun.with_sockets WinTun.with_udp_wakers];
      [done|rewrite Htw; apply Hb|done|by rewrite Hset|done|done|done|done].
  - destruct (i_listener _ _ Hd) as (sl & Hl & Hle). exists sl. by rewrite H1, lookup_insert_ne.
  - cbn. rewrite Hset. intros e' [->%elem_of_singleton|He']%elem_of_union; [done|by apply (i_permitted _ _ Hd)].
Qed.

(** A packet for port 0 of the DNS server's address, which the test lets through. *)
Definition to_port_zero (d : t) (p : bytes) : Prop :=
  match WinTun.heading_of p with
  | Some (WinTun.HeadTo e c) => is_dns d e = true ∧ sa_port e = 0 ∧ c ≠ Some false
  | _ => False
  end.

#[export] Instance to_port_zero_dec d p : Decision (to_port_zero d p).
Proof. unfold to_port_zero. destruct (WinTun.heading_of p) as [[]|]; apply _. Defined.

(** What a step leaves the servers. *)
Record kept (l : nat) (d : t) (b : WinTun.t) : Prop := {
  k_inv : inv l (with_base d b);
  k_tcp : WinTun.others (base d) b;
  k_udp h : is_Some (us d !! h) → is_Some (udps (WinTun.sockets b) !! h);
  k_listener s : us d !! l = Some s →
    ∃ s', udps (WinTun.sockets b) !! l = Some s' ∧ socket_evolves (Udp s) (Udp s')
}.

Lemma kept_same l d b :
  inv l (with_base d b) → WinTun.others (base d) b → (∀ h, is_Some (us d !! h) → is_Some (udps (WinTun.sockets b) !! h)) →
  udps (WinTun.sockets b) !! l = us d !! l → kept l d b.
Proof. intros Hi Ho Hu Hl. split; [done..|]. intros s Hs. rewrite Hl. exists s. split; [done|apply socket_evolves_refl]. Qed.

Lemma receive_kept l d p :
  inv l d → WinTun.packet_ok p → ¬ to_port_zero d p →
  ∃ b, receive k d (IoOk (Some p)) = Some (with_base d b) ∧ kept l d b.
Proof.
  intros Hd Hp Hz. cbn [receive]. set (b0 := WinTun.with_traffic _ _). set (d0 := with_base d b0).
  assert (inv l d0) as Hd0 by (apply inv_keep; [done|apply Hd|apply Hd|done..]).
  assert (¬ to_port_zero d0 p) as Hz0 by done.
  assert (∃ b, preprocess_packet k p d0 = Some (with_base d0 b) ∧ kept l d0 b) as (b & Hb & [H1 [H2 H3 H4] H5 H6]);
    [|exists b; split; [exact Hb|by split]].
  clearbody d0. clear d Hd Hz b0. unfold preprocess_packet.
  assert (kept l d0 (base d0)) as Hsame by (apply kept_same; [by destruct d0|by apply WinTun.others_quiet|done..]).
  assert (d0 = with_base d0 (base d0)) as Heq by by destruct d0.
  unfold WinTun.packet_ok, to_port_zero in *. destruct (WinTun.heading_of p) as [[|e c]|]; [exists (base d0); by rewrite <-Heq| |done].
  cbn [mbind option_bind].
  assert (∃ ok, permitted k d0 e = Some ok ∧ (ok = true → c ≠ Some false → sa_port e ≠ 0)) as (ok & Hok & Hport).
  { unfold permitted. destruct (is_dns d0 e) eqn:Hdns; [exists true; split; [done|]; intros _ Hc H0; by apply Hz0|].
    destruct (WinTun.is_private_total k e Hp) as (pr & Hpr). unfold is_private. rewrite Hpr. cbn [mbind option_bind].
    eexists. split; [done|]. intros Hok _. destruct pr; [done|]. by apply (WinTun.is_private_port k). }
  rewrite Hok. cbn [mbind option_bind]. destruct ok; [|exists (base d0); by rewrite <-Heq]. cbn [negb].
  destruct c as [[]|]; [|exists (base d0); by rewrite <-Heq|].
  - destruct (ensure_tcp_inv l d0 e Hd0) as (h & s & b & -> & Hi & Hh & Ht & Hu & Hr); [by apply Hport|].
    exists b. split; [done|]. apply kept_same; [done| |by rewrite Hu|by rewrite Hu]. split; [intros _; apply Hi|..].
    + intros h' s' Hs'. exists s'. rewrite Ht, lookup_insert_ne by congruence. split; [done|apply socket_evolves_refl].
    + intros h' s'. rewrite Ht. intros [[<- <-]|[_ Hs']]%lookup_insert_Some; [by right|left; by eexists].
  - destruct (ensure_udp_inv l d0 e Hd0) as (b & -> & Hi & Ht & Hu & Hl); [by apply Hport|done|].
    exists b. split; [done|]. apply kept_same; [done| |done|done]. apply WinTun.others_quiet; [done|]. intros _. apply Hi.
Qed.

(** *** The life of the device *)

(** The calls of the stack and the servers.  The stack wakes wakers the sockets
    were given; the DNS server, which alone uses its socket [l], gives it none, and
    nobody removes that socket. *)
Inductive step (l : nat) : t → t → Prop :=
  | step_receive d p d' : WinTun.packet_ok p → receive k d (IoOk (Some p)) = Some d' → step l d d'
  | step_stack d ss tq uq : evolves (WinTun.sockets (base d)) ss →
      (∀ h, h ∈ uq.*1 → is_Some (Wakers.wakers (WinTun.udp_wakers (base d)) !! h)) →
      step l d (with_base d (WinTun.with_udp_wakers (WinTun.with_tcp_wakers (WinTun.with_sockets (base d) ss)
                (Wakers.mk (Wakers.wakers (WinTun.tcp_wakers (base d))) tq)) (Wakers.mk (Wakers.wakers (WinTun.udp_wakers (base d))) uq)))
  | step_get_tcp d h m s d' : get_tcp_socket_mut d h m = Some (s, d') → step l d d'
  | step_get_udp d h m s d' : h ≠ l ∨ m = ModeNone → get_udp_socket_mut d h m = Some (s, d') → step l d d'
  | step_put_tcp d h s s' : tcps (WinTun.sockets (base d)) !! h = Some s → step l d (with_base d (WinTun.put_tcp (base d) h s'))
  | step_put_udp d h s s' : us d !! h = Some s → udp_endpoint s' = udp_endpoint s →
      step l d (with_base d (WinTun.put_udp (base d) h s'))
  | step_tcp_events d : step l d (get_tcp_events d).2
  | step_udp_events d : step l d (get_udp_events d).2
  | step_remove d h d' : h ≠ l → remove_socket d h = Some d' → step l d d'
  | step_consume d n d' : consume d n true = Some d' → step l d d'
  | step_speed d now : step l d (calculate_speed now d).2.

Lemma stack_kept l d ss tq uq :
  inv l d → evolves (WinTun.sockets (base d)) ss →
  (∀ h, h ∈ uq.*1 → is_Some (Wakers.wakers (WinTun.udp_wakers (base d)) !! h)) →
  kept l d (WinTun.with_udp_wakers (WinTun.with_tcp_wakers (WinTun.with_sockets (base d) ss)
    (Wakers.mk (Wakers.wakers (WinTun.tcp_wakers (base d))) tq)) (Wakers.mk (Wakers.wakers (WinTun.udp_wakers (base d))) uq)).
Proof.
  intros Hd He Hq. pose proof (i_dev _ _ Hd) as Hb. split; [|by apply WinTun.stack_others| |].
  - apply inv_base; [done| |done|].
    + eapply WinTun.inv_same; [exact Hb|apply Hb| |done|].
      * destruct (WinTun.i_udp_wakers _ Hb) as [Hok Hap]. split; [done|]. intros h Hh. destruct (Hap h Hh) as [Hn _].
        split; [done|]. cbn. intros [x Hx]%Hq. congruence.
      * intros h. cbn. destruct (us d !! h) as [s|] eqn:Hs.
        -- destruct (evolves_udp _ _ _ _ He Hs) as (s' & -> & _ & _ & _ & ?). by constructor.
        -- destruct (udps ss !! h) as [s'|] eqn:Hs'; [|constructor]. destruct (evolves_udp_inv _ _ _ _ He Hs'). congruence.
    + intros s Hs. cbn. destruct (evolves_udp _ _ _ _ He Hs) as (s' & -> & _ & _ & _ & ?). eauto.
  - intros h [s Hs]. cbn. destruct (evolves_udp _ _ _ _ He Hs) as (s' & -> & _). by eexists.
  - intros s Hs. exact (evolves_udp _ _ _ _ He Hs).
Qed.

Lemma get_tcp_inv l d h m s d' : inv l d → get_tcp_socket_mut d h m = Some (s, d') → inv l d'.
Proof.
  unfold get_tcp_socket_mut. intros Hd ([s1 b] & Hg & [= <- <-])%bind_Some. pose proof (i_dev _ _ Hd) as Hb.
  destruct (tcps (WinTun.sockets (base d)) !! h) as [s0|] eqn:Hs.
  - destruct (WinTun.get_tcp_socket_mut_spec (base d) h s0 m (WinTun.i_tcp_wakers _ Hb) Hs)
      as (s' & b' & Hg' & _ & _ & Hu & ? & Huw & ?). rewrite Hg' in Hg. injection Hg as -> ->.
    apply inv_keep; [done|done|rewrite Huw; apply Hb|done..].
  - exfalso. revert Hg. unfold WinTun.get_tcp_socket_mut. destruct (get_tcp _ _) as [s0|] eqn:Hg'; [|done].
    apply get_tcp_Some, lookup_tcps in Hg'. congruence.
Qed.

Lemma get_udp_inv l d h m s d' : inv l d → h ≠ l ∨ m = ModeNone → get_udp_socket_mut d h m = Some (s, d') → inv l d'.
Proof.
  unfold get_udp_socket_mut. intros Hd Hm ([s1 b] & Hg & [= <- <-])%bind_Some. pose proof (i_dev _ _ Hd) as Hb.
  destruct (decide (h = l)) as [->|Hne].
  { destruct Hm as [ | -> ]; [done|]. apply bind_Some in Hg as (s & _ & [= <- <-]). by destruct d. }
  destruct (us d !! h) as [s0|] eqn:Hs.
  - destruct (WinTun.get_udp_socket_mut_spec (Rs := Some l) (base d) h s0 m (WinTun.i_udp_wakers _ Hb))
      as (s' & b' & Hg' & (_ & _ & _ & Hep) & Hu & _ & ? & Htw & ?); [by intros [= ->]|done|].
    rewrite Hg' in Hg. injection Hg as -> ->.
    eapply mobile_inv_update; [done|rewrite Htw; apply Hb|done|done|exact Hs|exact Hu|done].
  - exfalso. revert Hg. unfold WinTun.get_udp_socket_mut. destruct (get_udp _ _) as [s0|] eqn:Hg'; [|done].
    apply get_udp_Some, lookup_udps in Hg'. congruence.
Qed.

Lemma remove_inv l d h d' : inv l d → h ≠ l → remove_socket d h = Some d' → inv l d'.
Proof.
  unfold remove_socket. intros Hd Hne (b & Hr & [= <-])%bind_Some. pose proof (i_dev _ _ Hd) as Hb.
  destruct (sockets_view (WinTun.sockets (base d)) !! h) as [[s|s]|] eqn:Hv.
  - destruct (WinTun.remove_tcp_socket_spec (base d) h s) as (b' & Hr' & _ & Hu & Hset & Htw & Huw); [by apply lookup_tcps|].
    rewrite Hr' in Hr. injection Hr as ->. apply inv_keep; [done|rewrite Htw; apply Hb|rewrite Huw; apply Hb|done..].
  - apply lookup_udps in Hv.
    destruct (WinTun.remove_udp_socket_spec (Rs := Some l) (base d) h s Hb) as (b' & Hr' & Hb' & Hus & _ & Hset);
      [by intros [= ->]|done|]. rewrite Hr' in Hr. injection Hr as ->.
    apply inv_base; [done..|]. rewrite Hus. by apply (keeps_at_other _ _ _ h), lookup_delete_ne.
  - exfalso. revert Hr. unfold WinTun.remove_socket. rewrite sockets_get_spec, Hv. cbn [mbind option_bind].
    pose proof (sockets_remove_spec (WinTun.sockets (base d)) h) as Hrm. destruct (sockets_remove _ _); [|done].
    destruct Hrm as [[? ?] _]. congruence.
Qed.

(** ** Port 0 *)

Context {Z0 : PortZero Stk}.

Lemma port_zero_panics l d p : inv l d → to_port_zero d p → receive k d (IoOk (Some p)) = None.
Proof.
  unfold to_port_zero. cbn [receive]. intros Hd Hz. unfold preprocess_packet.
  destruct (WinTun.heading_of p) as [[|e c]|]; [done| |done]. destruct Hz as (Hdns & Hp & Hc).
  cbn [mbind option_bind]. unfold permitted, is_dns in *. cbn [dns_addr with_base]. rewrite Hdns. cbn [mbind option_bind negb].
  destruct c as [[]|]; [|done|].
  - unfold ensure_tcp_socket, WinTun.ensure_tcp_socket. destruct (sockets_add _ _) as [h ss].
    destruct (get_tcp _ _); [|done]. cbn [mbind option_bind]. destruct (Wakers.get_wakers _ _) as [[[] ?]|]; [|done].
    cbn [mbind option_bind]. by rewrite tcp_listen_zero.
  - unfold ensure_udp_socket. rewrite bool_decide_eq_false_2; [|intros Hin; by destruct (i_permitted _ _ Hd e Hin)].
    unfold create_udp_socket. by rewrite udp_bind_zero.
Qed.

Lemma mobile_step_inv l d d' : step l d d' → inv l d → inv l d'.
Proof.
  intros Hstep Hd. pose proof (i_dev _ _ Hd) as Hb. destruct Hstep.
  - destruct (decide (to_port_zero d p)) as [Hz|Hz]; [by rewrite (port_zero_panics l d p Hd Hz) in H0|].
    destruct (receive_kept l d p Hd) as (b & Hr & [? _ _ _]); [done..|]. congruence.
  - by apply stack_kept.
  - by eapply get_tcp_inv.
  - by eapply get_udp_inv.
  - destruct (WinTun.put_tcp_spec (base d) h s s' H) as [_ H2]. apply inv_keep; [done|apply Hb|apply Hb|done..].
  - destruct (WinTun.put_udp_spec (base d) h s s' H) as [H1 _]. eapply mobile_inv_update; [done|apply Hb|apply Hb|done|exact H|done..].
  - apply inv_keep; [done|apply Hb|apply Hb|done..].
  - apply inv_keep; [done|apply Hb|by apply WinTun.wakers_ok_events, Hb|done..].
  - by eapply remove_inv.
  - unfold consume in H. apply bind_Some in H as (b & Hc & [= <-]). injection Hc as <-.
    apply inv_keep; [done|apply Hb|apply Hb|done..].
  - apply inv_keep; [done|apply Hb|apply Hb|done..].
Qed.

(** Nothing changes the addresses. *)
Definition same_addrs (d d' : t) : Prop := dns_addr d' = dns_addr d ∧ server_addr d' = server_addr d.

Lemma ensure_udp_addrs d e d' : ensure_udp_socket d e = Some d' → same_addrs d d'.
Proof.
  unfold ensure_udp_socket, create_udp_socket. case_bool_decide; [by intros [= <-]|].
  intros ([h d1] & (s & _ & Hc)%bind_Some & Hr)%bind_Some. destruct (sockets_add _ _) as [h' ss]. injection Hc as <- <-.
  apply bind_Some in Hr as (s' & _ & Hr). apply bind_Some in Hr as ([[] w] & _ & Hr). by injection Hr as <-.
Qed.

Lemma receive_addrs d r d' : receive k d r = Some d' → same_addrs d d'.
Proof.
  destruct r as [[p|]|]; cbn [receive]; [|by intros [= <-]..]. set (d0 := with_base d _). intros H.
  assert (same_addrs d0 d') as []; [|by split]. clearbody d0. revert H. unfold preprocess_packet.
  destruct (WinTun.heading_of p) as [[|e c]|]; [by intros [= <-]| |done]. cbn [mbind option_bind].
  destruct (permitted k d0 e) as [[]|]; [|by intros [= <-]|done]. cbn [mbind option_bind negb].
  destruct c as [[]|]; [|by intros [= <-]|apply ensure_udp_addrs].
  unfold ensure_tcp_socket. by intros (b & _ & [= <-])%bind_Some.
Qed.

Lemma step_addrs l d d' : step l d d' → same_addrs d d'.
Proof.
  destruct 1; try done; [by eapply receive_addrs|..].
  - revert H. unfold get_tcp_socket_mut. by intros ([? ?] & _ & [= _ <-])%bind_Some.
  - revert H0. unfold get_udp_socket_mut. by intros ([? ?] & _ & [= _ <-])%bind_Some.
  - revert H0. unfold remove_socket. by intros (? & _ & [= <-])%bind_Some.
  - revert H. unfold consume. by intros (? & _ & [= <-])%bind_Some.
Qed.

Lemma vpn_start_inv mtu server dns now : ∃ l d, start mtu server dns now = Some (l, d) ∧ inv l d
  ∧ dns_addr d = mkSocketAddr dns 53 ∧ server_addr d = server ∧ tcps (WinTun.sockets (base d)) = ∅
  ∧ ∃ s, us d !! l = Some s ∧ udp_tx s = [].
Proof.
  unfold start. set (d0 := new _ _ _ _).
  destruct (create_udp_socket_spec d0 (mkSocketAddr dns 53)) as (h & s & b & -> & Hse & _ & Hus & Hset & Htw & Huw & Htc & Htx); [done|].
  assert (us d0 = ∅) as H0 by (subst d0; cbn; unfold udps; by rewrite sockets_view_empty, omap_empty).
  rewrite H0 in Hus. exists h, (with_base d0 b). split; [done|].
  split_and!; [|done|done|cbn; rewrite Htc; subst d0; cbn; unfold tcps; by rewrite sockets_view_empty, omap_empty
    |exists s; split; [cbn; by rewrite Hus, lookup_insert_eq|done]].
  split; cbn [base with_base dns_addr].
  - split; rewrite ?Hus, ?Hset, ?Htw, ?Huw; [apply Wakers.ok_new|..].
    + split; [apply Wakers.ok_new|]. intros h' _. split; [apply lookup_empty|apply not_elem_of_nil].
    + intros h' x Hne [[<- _]|[_ Hx]]%lookup_insert_Some; [by destruct Hne|by rewrite lookup_empty in Hx].
    + intros e []%not_elem_of_empty.
    + intros h1 h2 s1 s2 e Hne _ [[<- _]|[_ Hx]]%lookup_insert_Some; [by destruct Hne|by rewrite lookup_empty in Hx].
    + intros h' [= <-]. rewrite lookup_insert_eq. by eexists.
  - exists s. by rewrite Hus, lookup_insert_eq.
  - rewrite Hset. intros e []%not_elem_of_empty.
Qed.

End Invariant.
End VpnDevice.

(** ** The TCP connections *)

Module TunTcp.

Section Tcp.
Context {Stk : Smoltcp}.

(** A socket that has nothing to read is waited for while it is active; the Windows
    tunnel waits while it is established. *)
Definition live : ReadLive := is_active.

Definition stream_ref_read : TcpSocket → nat → io_result bytes * TcpSocket := stream_ref_read (L := live).
Definition stream_ref_write : TcpSocket → bytes → io_result nat * TcpSocket := stream_ref_write.

Context {R P : Type} {Rem : Remote R} {Pool : RemotePool P R} (pass : bytes) (spare : bytes → nat).

(** What the connections read of the options is the digest, which a server of the
    mobile tunnel is made with. *)
Definition pass_opts : Opts :=
  mkOpts (mkServerArgs [] 0 false [] 0 [] false 0 false) (mkProxyArgs [] 0 0 false 0 [] [] 0 false 0 []) [] 0 0
    pass (length pass) None None 0 0.

Lemma request_is_mobile e :
  TrojanRequest.generate_endpoint pass_opts CONNECT e = MobileProto.TrojanRequest.generate_endpoint CONNECT pass e.
Proof. reflexivity. Qed.

(** [Connection]: the text of the Windows tunnel's, on the device's sockets. *)
Definition Connection : Type := WinTcpConn.t R.
Definition new (token : Z) (local : nat) (remote : R) (now : Z) : Connection := WinTcpConn.new token local remote now.

Abbreviation State := (Connection * VpnDevice.t)%type.

(** A handler of the Windows tunnel on this device. *)
Definition on_device (f : WinTcpConn.t R * WinTun.t → option (WinTcpConn.t R * WinTun.t)) (st : State) : option State :=
  '(c, b) ← f (st.1, VpnDevice.base st.2); Some (c, VpnDevice.with_base st.2 b).

Definition close_stream (is_local : bool) : State → option State := on_device (WinTcpConn.close_stream is_local).
Definition close : State → option State := on_device WinTcpConn.close.
Definition reregister_local : State → option State := on_device WinTcpConn.reregister_local.
Definition flush_remote : State → option State := on_device WinTcpConn.flush_remote.
Definition check_half_close : State → option State := on_device WinTcpConn.check_half_close.
Definition local_to_remote (fuel : nat) : State → option State :=
  on_device (WinTcpConn.local_to_remote (L := live) spare fuel).
Definition remote_to_local (fuel : nat) : State → option State :=
  on_device (WinTcpConn.remote_to_local (L := live) spare fuel).
Definition do_local (fuel : nat) (now : Z) (event : Wakers.Event) : State → option State :=
  on_device (WinTcpConn.do_local (L := live) spare fuel now event).
Definition do_remote (fuel : nat) (now : Z) (event : Event) : State → option State :=
  on_device (WinTcpConn.do_remote (L := live) pass_opts spare fuel now event).
Definition is_closed (st : State) : option bool := WinTcpConn.is_closed (st.1, VpnDevice.base st.2).
Definition abort_local : State → option State := on_device WinTcpConn.abort_local.

(** A client that has closed its side of the stream, with nothing left to read:
    the Windows tunnel closes that side, and the server's with it; the mobile one
    waits as long as the socket is active, which it is until both sides have closed,
    so the end of the client's stream is not passed on. *)
Theorem client_end_is_not_noticed fuel c d socket :
  get_tcp (WinTun.sockets (VpnDevice.base d)) (WinTcpConn.local c) = Some socket →
  WinTcpConn.established c = true → WinTcpConn.rbuffer c = [] →
  may_recv socket = false → is_active socket = true → tcp_state socket ≠ Smoltcp.Established →
  (∀ c' d', local_to_remote (S fuel) (c, d) = Some (c', d') → WinTcpConn.lclosed c' = WinTcpConn.lclosed c)
  ∧ (∀ c' b', WinTcpConn.local_to_remote spare (S fuel) (c, VpnDevice.base d) = Some (c', b') → WinTcpConn.lclosed c' = true).
Proof.
  intros Hs He Hb Hm Ha Hst. split.
  - intros c' d'. unfold local_to_remote, on_device. intros ([c1 b1] & Hl & [= <- _])%bind_Some.
    rewrite (WinTcpConn.local_to_remote_ended (L := live) spare fuel c _ socket c1 b1 Hs He Hb Hm Hl).
    unfold still_open, live. by rewrite Ha, orb_false_r.
  - intros c' b' Hl. rewrite (WinTcpConn.local_to_remote_ended spare fuel c _ socket c' b' Hs He Hb Hm Hl).
    unfold still_open, windows_live. by rewrite bool_decide_eq_false_2, orb_true_r.
Qed.
End Tcp.
End TunTcp.

(** ** Examples *)

Module MobileTunWitness.
Import SimStack WinTun.Witness.
#[local] Existing Instance Sim.env.
#[local] Existing Instance Sim.env_ok.
#[local] Existing Instance sim_rw.
#[local] Existing Instance SimStack.smoltcp.
#[local] Existing Instance SimStack.observed.
#[local] Existing Instance SimStack.smoltcp_ok.
#[local] Existing Instance WinTcpWitness.rem.

#[local] Instance port_zero : PortZero SimStack.smoltcp.
Proof. split; intros s e He; cbn; by rewrite He. Qed.

(** The DNS server's address is 10.0.0.1, the server's 9.9.9.9. *)
Definition dns : IpAddr := V4 [10; 0; 0; 1].
Definition server : SocketAddr := mkSocketAddr (V4 [9; 9; 9; 9]) 443.
Definition question : bytes := [4; 17; 10; 0; 0; 2; 10; 0; 0; 1; 0; 53; 16; 0; 1].
Definition poison : bytes := [4; 17; 10; 0; 0; 2; 10; 0; 0; 1; 0; 0; 16; 0; 1].
Definition device0 : VpnDevice.t := default (VpnDevice.new 1500 server server 0) (snd <$> VpnDevice.start 1500 server dns 0).
Definition device1 : VpnDevice.t := default device0 (VpnDevice.receive class device0 (IoOk (Some question))).


(** The first question makes a second socket for the DNS server's address, and a
    packet for its port 0 ends the tunnel. *)
Example two_dns_sockets :
  size (filter (λ e : nat * UdpSocket, udp_endpoint e.2 = (Some dns, 53)) (udps (WinTun.sockets (VpnDevice.base device1)))) = 2%nat.
Proof. by vm_compute. Qed.

Example poisoned : VpnDevice.receive class device1 (IoOk (Some poison)) = None.
Proof. by vm_compute. Qed.

(** A client that has sent three bytes, all read, and then its end. *)
Definition ended : Smoltcp.TcpSocket :=
  SimStack.mkTcp CloseWait (Some WinTcpWitness.client) (Some target) [1; 2; 3] [] [] 100.
Definition device2 : VpnDevice.t :=
  VpnDevice.with_base device0
    (WinTun.with_sockets WinTcpWitness.device1 (sockets_put (WinTun.sockets WinTcpWitness.device1) 0 (Tcp ended))).
Definition conn : WinTcpConn.t (TlsConn.TlsConn Sim.env) :=
  WinTcpConn.with_established (WinTcpConn.new 8 0 (WinTcpWitness.remote []) 0) true.

Lemma client_end_is_not_noticed_witness :
  (∀ c' d', TunTcp.local_to_remote WinTcpWitness.spare 3 (conn, device2) = Some (c', d') → WinTcpConn.lclosed c' = false)
  ∧ (∀ c' b', WinTcpConn.local_to_remote WinTcpWitness.spare 3 (conn, VpnDevice.base device2) = Some (c', b') →
       WinTcpConn.lclosed c' = true).
Proof. by apply (TunTcp.client_end_is_not_noticed WinTcpWitness.spare 2 conn device2 ended). Defined.

Example client_end :
  ((WinTcpConn.lclosed ∘ fst) <$> TunTcp.local_to_remote WinTcpWitness.spare 3 (conn, device2),
   (WinTcpConn.lclosed ∘ fst) <$> WinTcpConn.local_to_remote WinTcpWitness.spare 3 (conn, VpnDevice.base device2))
  = (Some false, Some true).
Proof. by vm_compute. Qed.
End MobileTunWitness.
