(* ===== verification/MobileUdp.v ===== *)
(** * The event-loop tunnel of the mobile application: TLS and UDP
    ([src/mobile/src-tauri/src/tun/tls_conn.rs], [udp.rs])

    Both files are copies of the Windows tunnel's and of the program's with small
    changes: [flush] writes until the session has nothing left or the socket takes
    no more, where the other [flush] writes once, and the packets from the server
    are read by the mobile parser, whose limit is 1450 bytes.  The connections and
    the tables are those of [WinUdp] over that stream, that parser and the mobile
    device. *)

From Stdlib Require Import ZArith Lia.
From stdpp Require Import base option list gmap relations.
From S2P Require Import Prelude Net Config Proto Env Status TlsConn TcpUtil TlsStream Framing IpSet.
From S2P Require Import Smoltcp TunDevice TunPool WinTun WinTcp WinUdp MobileProto MobileDns MobileTun.

Open Scope Z_scope.

(** ** The TLS connection *)

Module MobileTls.
Section Flush.
Context {E : Env}.

(** [flush] of the socket is nothing. *)
Fixpoint flush (fuel : nat) (c : TlsConn E) : option (io_result unit * TlsConn E) :=
  match fuel with
  | O => None
  | S fuel =>
      let '(ret, s, t) := session_write_tls (session c) (stream c) in
      let c := with_io c s t in
      match ret with
      | IoOk (S _) => flush fuel c
      | IoOk O | IoErr NotConnected => Some (IoErr WouldBlock, c)
      | IoErr k => Some (IoErr k, c)
      end
  end.

Context {Ok : EnvOk E} {Rw : EnvRw E}.

(** One write that sends something. *)
Definition sends (c c' : TlsConn E) : Prop :=
  ∃ n s t, session_write_tls (session c) (stream c) = (IoOk (S n), s, t) ∧ c' = with_io c s t.

(** [flush] ends, never with success: it writes as long as the session has bytes
    and the socket takes them, moves no plaintext, and reports a block at the end
    or the error that stopped it. *)
Theorem mobile_flush_drains c :
  terminates (λ fuel, flush fuel c) (λ '(r, c'), quiet c c'
    ∧ ∃ c1 x s t, rtc sends c c1 ∧ session_write_tls (session c1) (stream c1) = (x, s, t) ∧ c' = with_io c1 s t
        ∧ match x with
          | IoOk n => n = 0%nat ∧ r = IoErr WouldBlock
          | IoErr NotConnected => r = IoErr WouldBlock
          | IoErr k => r = IoErr k
          end).
Proof.
  induction c as [c IH] using (induction_ltof1 _ tx_measure). unfold ltof in IH.
  apply terminates_S. cbn [flush]. destruct (session_write_tls (session c) (stream c)) as [[x s] t] eqn:Hw.
  destruct (write_tls_moves _ _ _ _ _ Hw) as (Hp & Hh & Hm).
  assert (quiet c (with_io c s t)) as Hq by (by apply quiet_io).
  destruct x as [[|n]|k].
  - apply terminates_ret. split; [done|]. exists c, (IoOk 0%nat), s, t. by split_and!; [apply rtc_refl|..].
  - eapply terminates_weaken; [apply IH, (Hm n eq_refl)|]. intros [r c'] (Hq' & c1 & x & s1 & t1 & Hr & H).
    split; [by eapply quiet_trans|]. exists c1, x, s1, t1. split; [|done].
    eapply rtc_l; [|exact Hr]. by exists n, s, t.
  - destruct k; apply terminates_ret; (split; [done|]; eexists c, _, s, t; by split_and!; [apply rtc_refl|exact Hw|..]).
Qed.

Lemma flush_steady c : steady (λ fuel, flush fuel c).
Proof.
  intros fuel n x. revert c. induction fuel as [|fuel IH]; intros c; [done|]. cbn [flush Nat.add].
  destruct (session_write_tls _ _) as [[[[|m]|[]] s] t]; try done. apply IH.
Qed.

Lemma mobile_flush_quiet fuel c r c' : flush fuel c = Some (r, c') → quiet c c'.
Proof.
  revert c. induction fuel as [|fuel IH]; intros c; [done|]. cbn [flush].
  destruct (session_write_tls (session c) (stream c)) as [[x s] t] eqn:Hw.
  destruct (write_tls_moves _ _ _ _ _ Hw) as (Hp & Hh & _).
  assert (quiet c (with_io c s t)) as Hq by (by apply quiet_io).
  destruct x as [[|n]|[]]; try by intros [= _ <-]. intros H%IH. by eapply quiet_trans.
Qed.

(** The stream of the mobile tunnel. *)
#[export] Instance mobile_remote (fuel : nat) : Remote (TlsConn E) := {
  remote_rw := remote_rw (Remote := tls_remote fuel);
  remote_flush c := default (IoErr OtherKind, c) (flush fuel c);
  remote_close := close
}.

#[export] Program Instance mobile_lawful (fuel : nat) : LawfulRemote (H := mobile_remote fuel) (TlsConn E) := {
  lawful_rw := tls_rw_lawful fuel;
  lawful_duplex := tls_duplex fuel
}.
Next Obligation.
  intros fuel c. cbn. destruct (flush fuel c) as [[r c']|] eqn:Hf; [|done]. apply mobile_flush_quiet in Hf as [Hp _ _]. exact Hp.
Qed.
Next Obligation.
  intros fuel c. cbn. destruct (flush fuel c) as [[r c']|] eqn:Hf; [|done]. apply mobile_flush_quiet in Hf as [_ Hh _]. exact Hh.
Qed.
Next Obligation. intros fuel c. apply close_quiet. Qed.
Next Obligation. intros fuel c. apply close_quiet. Qed.
End Flush.
End MobileTls.

(** ** The UDP connections *)

Module TunUdp.

#[export] Instance mobile_reader `{Ipv6FromBytes} : PacketReader :=
  {| read_packet := MobileProto.UdpAssociate.parse_endpoint; max_packet := MobileProto.MAX_PACKET_SIZE |}.

#[export] Instance mobile_reader_ok `{Ipv6FromBytes} : PacketReaderOk mobile_reader.
Proof.
  split; [done|..].
  - intros a data rest ? ? ?. by apply MobileProto.mobile_endpoint_roundtrip.
  - intros a data n ? ? ? ?. by apply MobileProto.mobile_endpoint_prefix.
  - intros b p Hp. by apply endpoint_bounds, MobileDns.endpoint_packet.
Qed.

Definition next_token : Z → Z * Z := next_token CHANNEL_UDP.

Section Udp.
Context {R P : Type} {Rem : Remote R} {Pool : RemotePool P R} {Stk : Smoltcp} {Oct : Ipv6FromBytes}.
Context (pass : bytes) (spare : bytes → nat).

(** What a connection reads of the options: the digest and the unspecified address. *)
Definition udp_opts : Opts :=
  let o := TunTcp.pass_opts pass in
  mkOpts (server_args o) (proxy_args o) (password o) 0 0 (sha_pass o) (pass_len o) None
    (Some (mkSocketAddr (V4 [0; 0; 0; 0]) 0)) 0 0.

(** *** [Connection] *)

Definition Connection : Type := WinUdpConn.t R.
Definition is_closed : Connection → bool := WinUdpConn.is_closed.
Definition close_remote : Connection → Connection := WinUdpConn.close_remote.
Definition flush_remote : Connection → Connection := WinUdpConn.flush_remote.
Definition local_to_remote : Connection → bytes → bytes → option Connection := WinUdpConn.local_to_remote.
Definition do_local : Z → Connection → bytes → bytes → option Connection := WinUdpConn.do_local.
Definition remote_to_local (fuel : nat) (c : Connection) (socket : UdpSocket) : option (Connection * UdpSocket) :=
  WinUdpConn.remote_to_local (Pk := mobile_reader) spare fuel c socket.
Definition do_remote (fuel : nat) (now : Z) (c : Connection) (socket : UdpSocket) (event : Event) :
    option (Connection * UdpSocket) :=
  WinUdpConn.do_remote (Pk := mobile_reader) udp_opts spare fuel now c socket event.

(** The request is the mobile generator's. *)
Lemma udp_request_is_mobile a :
  empty_addr udp_opts = Some a →
  TrojanRequest.generate udp_opts UDP_ASSOCIATE a = MobileProto.TrojanRequest.generate UDP_ASSOCIATE pass a.
Proof. reflexivity. Qed.

(** *** [UdpServer], on the mobile device *)

Definition Server : Type := WinUdpServer.t R.
Definition new : Server := WinUdpServer.new MIN_INDEX.

Definition server_do_local (fuel : nat) (now : Z) (st : Server * P * VpnDevice.t) : option (Server * P * VpnDevice.t) :=
  let '(s, pool, device) := st in
  '(s, pool, b) ← WinUdpServer.do_local fuel now (s, pool, VpnDevice.base device);
  Some (s, pool, VpnDevice.with_base device b).

Definition server_do_remote (fuel : nat) (now : Z) (event : Event) (s : Server) (device : VpnDevice.t) :
    option (Server * VpnDevice.t) :=
  '(s, b) ← WinUdpServer.do_remote (Pk := mobile_reader) udp_opts spare fuel now (ev_token event) event s
              (VpnDevice.base device);
  Some (s, VpnDevice.with_base device b).

Definition remove_closed : Server → option Server := WinUdpServer.remove_closed.

Definition check_timeout (now : Z) (s : Server) (device : VpnDevice.t) : option (Server * VpnDevice.t) :=
  '(s, b) ← WinUdpServer.check_timeout now s (VpnDevice.base device);
  Some (s, VpnDevice.with_base device b).

(** *** Answers above the limit *)

Section Limit.
Abbreviation frame := WinUdpConn.frame.
Abbreviation answer4 := (WinUdpConn.answer4 (Pk := mobile_reader)).

(** A packet of the server the mobile parser refuses. *)
Definition large (a : SocketAddr * bytes) : Prop :=
  wf_sa a.1 ∧ is_ipv4 (sa_ip a.1) = true
  ∧ (MobileProto.MAX_PACKET_SIZE < length a.2 <= Proto.MAX_PACKET_SIZE)%nat.

Lemma deliver_to_large fuel e socket xs a n :
  Forall answer4 xs → large a → (11 <= n <= length (frame a))%nat → (length xs < fuel)%nat →
  WinUdpConn.deliver (Pk := mobile_reader) fuel e socket (encode frame xs ++ take n (frame a))
    = Some (None, WinUdpConn.send_each e socket xs.*2).
Proof.
  intros Hxs (Ha & H4 & Hl) Hn. revert fuel socket. induction Hxs as [|[a1 data] xs (Hw & Hi & Hd) Hxs IH];
    intros [|fuel] socket Hf; try (simpl in Hf; lia).
  - cbn [WinUdpConn.deliver encode mjoin list_join fmap list_fmap app read_packet mobile_reader].
    destruct a as [a1 data]. destruct (MobileProto.mobile_rejects_server_packets a1 data n Ha H4 Hl Hn) as [Hr _].
    unfold frame, WinUdpConn.frame. cbn [fst snd] in *. by rewrite Hr.
  - cbn [WinUdpConn.deliver]. rewrite encode_cons, <-app_assoc. cbn [fst snd] in *.
    change (frame (a1, data)) with (Proto.UdpAssociate.generate_endpoint a1 (Z.of_nat (length data)) ++ data).
    rewrite <-app_assoc, reader_roundtrip by done. cbn [mbind option_bind Proto.UdpAssociate.e_payload Proto.UdpAssociate.e_length].
    rewrite slice_to_app. cbn [mbind option_bind]. rewrite slice_from_app. cbn [mbind option_bind].
    destruct (udp_send_slice socket data e) as [ok s1] eqn:Hs. rewrite IH by (simpl in Hf; lia).
    change (((a1, data) :: xs).*2) with (data :: xs.*2). unfold WinUdpConn.send_each. cbn [foldl]. by rewrite Hs.
Qed.

(** One read brings the rest of some answers and the beginning of a datagram of 1451
    to 1480 bytes, which the program's server passes on as it came: the answers before it go to the
    tunnel, and the connection to the server is closed, and with it the source's
    other traffic; the Windows tunnel, given the same bytes, goes on. *)
Theorem large_answer_closes_connection fuel c socket xs a n r x :
  WinUdpConn.rclosed c = false → Forall answer4 xs → large a → (11 <= n <= length (frame a))%nat →
  read_once spare (WinUdpConn.remote c) (WinUdpConn.lbuffer c) = (COk true, r, x) →
  x = encode frame xs ++ take n (frame a) →
  ∃ c', remote_to_local (S fuel) c socket = Some (c', WinUdpConn.send_each (WinUdpConn.endpoint c) socket xs.*2)
    ∧ is_closed c' = true ∧ WinUdpConn.remote c' = remote_close r
    ∧ ∃ rest s, WinUdpConn.deliver (Pk := windows_reader) (S (length x))
        (WinUdpConn.endpoint c) socket x = Some (Some rest, s).
Proof.
  intros Hc Hxs Hl Hn Hr Hx. pose proof (WinUdpConn.length_encode_frame xs) as Hlen.
  assert (length xs < S (length x))%nat as Hf by (subst x; rewrite length_app; lia).
  unfold remote_to_local. cbn [WinUdpConn.remote_to_local]. rewrite Hr.
  cbn [WinUdpConn.lbuffer WinUdpConn.with_lbuffer WinUdpConn.endpoint WinUdpConn.with_remote].
  pose proof (deliver_to_large (S (length x)) (WinUdpConn.endpoint c) socket xs a n Hxs Hl Hn Hf) as Hdel.
  rewrite <-Hx in Hdel. rewrite Hdel. cbn [mbind option_bind].
  eexists. split; [reflexivity|]. unfold is_closed, WinUdpConn.is_closed, WinUdpConn.close_remote. cbn. rewrite Hc.
  split_and!; [done|done|]. destruct Hl as (Ha & H4 & Hd).
  assert (∀ a, answer4 a → WinUdpConn.answer4 (Pk := windows_reader) a) as Hweak.
  { intros b (H1 & H2 & H3). split_and!; [done|done|]. etrans; [exact H3|]. cbn. unfold MobileProto.MAX_PACKET_SIZE, Proto.MAX_PACKET_SIZE. lia. }
  assert (∃ ys q, x = encode frame ys ++ q ∧ Forall (WinUdpConn.answer4 (Pk := windows_reader)) ys
    ∧ Framing.partial frame (WinUdpConn.answer4 (Pk := windows_reader)) q ∧ (length ys < S (length x))%nat)
    as (ys & q & Hy & Hys & Hq & Hfy).
  { destruct (decide (n = length (frame a))) as [->|Hne].
    - exists (xs ++ [a]), []. rewrite take_ge in Hx by lia.
      assert (x = encode frame (xs ++ [a]) ++ []) as He.
      { rewrite Hx, encode_app, app_nil_r. f_equal. unfold encode. cbn. by rewrite app_nil_r. }
      split; [done|]. split; [|split; [by left|]].
      + apply Forall_app. split; [by eapply Forall_impl|]. apply Forall_singleton. by split_and!; [..|apply Hd].
      + pose proof (WinUdpConn.length_encode_frame (xs ++ [a])). rewrite He, app_nil_r. lia.
    - exists xs, (take n (frame a)). split; [done|]. split; [by eapply Forall_impl|]. split; [|done].
      right. exists a. split; [by split_and!; [..|apply Hd]|]. split; [by exists (drop n (frame a)); rewrite take_drop|].
      intros He. apply (f_equal length) in He. rewrite length_take in He. lia. }
  exists q, (WinUdpConn.send_each (WinUdpConn.endpoint c) socket ys.*2).
  pose proof (WinUdpConn.deliver_framed (Pk := windows_reader) (PkOk := windows_reader_ok) (S (length x)) (WinUdpConn.endpoint c) socket ys q Hys Hq Hfy) as H.
  by rewrite <-Hy in H.
Qed.
End Limit.
End Udp.
End TunUdp.

(** ** Examples *)

Module MobileUdpWitness.
#[local] Existing Instance Sim.env.
#[local] Existing Instance Sim.env_ok.
#[local] Existing Instance sim_rw.
#[local] Existing Instance SimStack.smoltcp.
#[local] Existing Instance SimStack.observed.
#[local] Existing Instance SimStack.smoltcp_ok.
#[local] Existing Instance Witness.from_bytes.
#[local] Instance rem : Remote (TlsConn Sim.env) := MobileTls.mobile_remote 100.

Definition spare (b : bytes) : nat := 1500.

(** An answer of two bytes and one of 1451, of which the header has arrived. *)
Definition small : SocketAddr * bytes := (WinUdpWitness.other, [9; 9]).
Definition big : SocketAddr * bytes := (WinUdpWitness.other, replicate 1451 8).
Definition pieces : bytes := encode WinUdpConn.frame [small] ++ take 11 (WinUdpConn.frame big).
Definition conn : WinUdpConn.t (TlsConn Sim.env) := WinUdpWitness.conn [pieces] 0.

Definition closed : WinUdpConn.t (TlsConn Sim.env) * UdpSocket :=
  default (conn, WinUdpWitness.socket) (TunUdp.remote_to_local spare 2 conn WinUdpWitness.socket).

Lemma large_answer_closes_connection_witness :
  ∃ c', TunUdp.remote_to_local spare 2 conn WinUdpWitness.socket
      = Some (c', WinUdpConn.send_each WinUdpWitness.source WinUdpWitness.socket [[9; 9]])
    ∧ TunUdp.is_closed c' = true.
Proof.
  destruct (read_once spare (WinUdpConn.remote conn) (WinUdpConn.lbuffer conn)) as [[x r] y] eqn:Hr.
  assert (x = COk true ∧ y = pieces) as [-> Hy].
  { split.
    - transitivity (read_once spare (WinUdpConn.remote conn) (WinUdpConn.lbuffer conn)).1.1; [by rewrite Hr|by vm_compute].
    - transitivity (read_once spare (WinUdpConn.remote conn) (WinUdpConn.lbuffer conn)).2; [by rewrite Hr|by vm_compute]. }
  destruct (TunUdp.large_answer_closes_connection spare 1 conn WinUdpWitness.socket [small] big 11 r y)
    as (c' & H & Hc & _).
  - reflexivity.
  - apply (bool_decide_unpack _). by vm_compute.
  - apply (bool_decide_unpack _). by vm_compute.
  - apply (bool_decide_unpack _). by vm_compute.
  - exact Hr.
  - exact Hy.
  - exists c'. split; [exact H|exact Hc].
Defined.

(** A session of which the socket takes two parts and then has nothing left. *)
Example flush_twice :
  let c := mkTlsConn (E := Sim.env) (Sim.mkSession [] [IoOk 2%nat; IoOk 1%nat; IoOk 0%nat] [] [] 0 []) Sim.idle_stream 2 7 Status.Established true in
  (λ r, (r.1, Sim.ss_tx (session r.2))) <$> MobileTls.flush 5 c = Some (IoErr WouldBlock, []).
Proof. by vm_compute. Qed.
End MobileUdpWitness.
