(* ===== verification/MobileTask.v ===== *)
(** * The mobile tunnel: UDP as tasks ([src/mobile/src-tauri/src/atun/udp.rs])

    The file is the asynchronous Windows tunnel's ([AWinUdp]) with the parser of
    [MobileProto], channels of their own capacity and the request made of the
    password of the options.  [MobileRun] spawns its tasks. *)

From Stdlib Require Import ZArith Lia.
From stdpp Require Import base option list gmap relations.
From S2P Require Import Prelude Framing Net Config Proto Env AsyncIo.
From S2P Require Import Backend UdpBackend WinUdp AWinUdp MobileProto MobileUdp.
From S2P Require Import IpSet Smoltcp TunDevice AWinTcp MobileRun.

Open Scope Z_scope.

Module MobileTask.
Import AWinUdp.
#[local] Existing Instance TunUdp.mobile_reader.
#[local] Existing Instance TunUdp.mobile_reader_ok.

Section Task.
Context {Oct : Ipv6FromBytes} (pass : bytes).

(** [channel(1024)] of a source. *)
Definition CAPACITY : nat := 1024.

(** [udp_header] of [async_run]. *)
Definition request : bytes := MobileProto.TrojanRequest.generate UDP_ASSOCIATE pass AWinUdp.empty.

Abbreviation opts := (TunUdp.udp_opts pass).
Abbreviation datagram := (bytes * SocketAddr)%type.

Lemma mobile_request : AWinUdp.request opts = request.
Proof. reflexivity. Qed.

(** [run_udp_dispatch] *)
Definition on_data : t → SocketAddr → SocketAddr → bytes → list (SocketAddr * datagram) → t := AWinUdp.on_data CAPACITY.
Definition sendable : task → bool := AWinUdp.sendable CAPACITY.
Definition on_sent : t → nat → task → datagram → t := AWinUdp.on_sent.
Definition on_socket : t → nat → SocketAddr → list nat → t := AWinUdp.on_socket.
Definition on_close : t → SocketAddr → bool → list (SocketAddr * bool) → t := AWinUdp.on_close.

(** [start_udp] *)
Definition on_recv : t → nat → sock → option (SocketAddr * bytes) → t := AWinUdp.on_recv.

(** [local_to_remote] *)
Definition fail_start : task → option write_outcome → task := AWinUdp.fail_start opts.
Definition finish_start : task → task := AWinUdp.finish_start opts.
Definition forward : task → datagram → list datagram → write_outcome → write_outcome → task := AWinUdp.forward.

(** [remote_to_local] *)
Definition receive : nat → bytes → option (list bytes * received) := AWinUdp.receive.
Definition on_read : task → bytes → read_outcome → option (task * list bytes) := AWinUdp.on_read.

Definition step : t → t → Prop := AWinUdp.step opts CAPACITY.

Abbreviation frame := WinUdpConn.frame.
Abbreviation answer4 := (WinUdpConn.answer4 (Pk := TunUdp.mobile_reader)).

(** ** What is sent to the server *)

(** However the tasks interleave: a source has one pair of tasks at most that has
    not reported its end, and a bounded channel; its connection carries the mobile
    request and then its datagrams, complete, in order and with their destinations,
    without the empty ones. *)
Theorem mobile_source_in_order s i k :
  rtc step start s → tasks s !! i = Some k →
  (alive k = true → req_senders s !! src_addr k = Some i)
  ∧ (length (queue k) <= CAPACITY)%nat
  ∧ routed k `sublist_of` (filter (λ e, e.1 = src_addr k) (taken s)).*2
  ∧ (writer_of k = Forwarding →
       ∃ done, routed k = done ++ queue k ∧ out k = request ++ encode UdpBackend.packet (nonempty done)).
Proof.
  intros Hr Hi. pose proof (tunnel_reachable_consistent _ _ _ Hr) as Hc.
  pose proof (tunnel_reachable_faithful _ _ _ Hr) as (_ & Ht & Hs). specialize (Ht i k Hi). specialize (Hs i k Hi). split_and!.
  - by apply (co_alive _ _ Hc).
  - by apply (co_room _ _ Hc i).
  - etrans; [|exact (tr_order _ _ _ Ht)]. by apply sublist_inserts_r.
  - intros Hw. unfold stream in Hs. by rewrite Hw in Hs.
Qed.

(** ** What comes back *)

Lemma receive_large fuel xs a n :
  Forall answer4 xs → TunUdp.large a → (11 <= n <= length (frame a))%nat →
  (length (encode frame xs ++ take n (frame a)) < fuel)%nat →
  receive fuel (encode frame xs ++ take n (frame a)) = Some (xs.*2, Invalid).
Proof.
  intros Hxs (Ha & H4 & Hl) Hn. revert fuel. unfold receive.
  induction Hxs as [|[a1 data] xs (Hw & Hi & Hd) Hxs IH]; intros [|fuel] Hf; try lia; cbn [AWinUdp.receive].
  - destruct a as [a data]. destruct (MobileProto.mobile_rejects_server_packets a data n Ha H4 Hl Hn) as [Hr _].
    change (encode frame [] ++ take n (frame (a, data))) with (take n (frame (a, data))).
    cbn [read_packet TunUdp.mobile_reader]. unfold frame, WinUdpConn.frame in *. cbn [fst snd] in *. by rewrite Hr.
  - rewrite encode_cons, <-app_assoc in *. cbn [fst snd] in *.
    pose proof (WinUdpConn.frame_nonempty (a1, data)) as Hne.
    change (frame (a1, data)) with (Proto.UdpAssociate.generate_endpoint a1 (Z.of_nat (length data)) ++ data) in *.
    rewrite <-app_assoc, reader_roundtrip by done.
    cbn [mbind option_bind Proto.UdpAssociate.e_payload Proto.UdpAssociate.e_length Proto.UdpAssociate.e_offset].
    rewrite slice_to_app, app_assoc, <-length_app, slice_from_app. cbn [mbind option_bind].
    rewrite IH; [done|]. rewrite !length_app in *. lia.
Qed.

(** A read that brings answers and the beginning of one of 1451 to 1480 bytes: the
    answers are passed on and the task is about to report its end. *)
Lemma on_read_large k buffer chunk xs a n :
  Forall answer4 xs → TunUdp.large a → (11 <= n <= length (frame a))%nat → chunk ≠ [] →
  buffer ++ chunk = encode frame xs ++ take n (frame a) →
  on_read k buffer (ReadBytes chunk) = Some (with_reader k Reporting, xs.*2).
Proof.
  intros Hxs Hl Hn Hc Heq. unfold on_read, AWinUdp.on_read. destruct chunk as [|c chunk]; [done|].
  rewrite Heq. change AWinUdp.receive with receive. rewrite (receive_large _ xs a n) by (done || lia). done.
Qed.

(** An answer of 1451 to 1480 bytes costs the source its connection, but not
    its place: the answers before it are delivered, the end is reported, and with
    the next datagram the dispatcher takes, the source has a new pair of tasks. *)
Theorem large_answer_reconnects s i k buffer chunk xs a n data dst rest local :
  rtc step start s → tasks s !! i = Some k → reader_of k = Reading buffer →
  Forall answer4 xs → TunUdp.large a → (11 <= n <= length (frame a))%nat → chunk ≠ [] →
  buffer ++ chunk = encode frame xs ++ take n (frame a) →
  dispatch s = Selecting → close_queue s = [] → data_queue s = (src_addr k, (data, dst)) :: rest →
  locals s !! dst = Some local →
  ∃ s', rtc step s s'
    ∧ responses s' = responses s ++ (AWinUdp.answer k <$> xs.*2)
    ∧ req_senders s' !! src_addr k = Some (length (tasks s))
    ∧ tasks s' !! length (tasks s) = Some (mkTask (src_addr k) dst [] Starting NotSpawned [] [])
    ∧ dispatch s' = Sending (length (tasks s)) (data, dst).
Proof.
  intros Hr Hi Hk Hxs Hl Hn Hc Heq Hd Hq Hdata Hloc.
  pose proof (lookup_lt_Some _ _ _ Hi) as Hlt.
  set (k1 := with_reader k Reporting). set (s1 := set_task s i k1 [] (AWinUdp.answer k <$> xs.*2)).
  assert (step s s1) as H1 by (eapply (step_read opts CAPACITY i k buffer); [done|exact Hk|by eapply on_read_large]).
  assert (tasks s1 !! i = Some k1) as Hi1 by (by apply list_lookup_insert_eq).
  set (k2 := with_reader k1 Returned). set (s2 := set_task s1 i k2 [(src_addr k, true)] []).
  assert (step s1 s2) as H2.
  { apply (step_return opts CAPACITY i k1); [done|done|]. cbn. rewrite Hq. cbn. unfold CHANNEL. lia. }
  set (s3 := on_close s2 (src_addr k) true []).
  assert (step s2 s3) as H3 by (apply step_close; [done|cbn; by rewrite Hq]).
  assert (length (tasks s3) = length (tasks s)) as Hlen by (cbn; by rewrite !length_insert).
  assert (req_senders s3 !! src_addr k = None) as Hnone by apply lookup_delete_eq.
  assert (locals s3 !! dst = Some local) as Hl3 by done.
  assert (responses s3 = responses s ++ (AWinUdp.answer k <$> xs.*2)) as Hresp.
  { cbn. by rewrite app_nil_r. }
  assert (step s3 (on_data s3 (src_addr k) dst data rest)) as H4 by (apply step_data; [done|exact Hdata]).
  eexists. split; [do 4 (eapply rtc_l; [eassumption|]); apply rtc_refl|].
  revert Hnone Hl3 Hlen Hresp. generalize s3. clear. intros s3 Hnone Hl3 Hlen Hresp.
  unfold on_data, AWinUdp.on_data. cbn [locals req_senders take_data].
  rewrite Hl3, Hnone. cbn [Nat.eqb CAPACITY]. cbn. rewrite Hlen. split_and!; [done|apply lookup_insert_eq| |done].
  rewrite <-Hlen. by apply list_lookup_middle.
Qed.
End Task.
End MobileTask.

(** ** The loop with its tasks *)

Module MobileSystem.
Import MobileTask.

Definition peers (s : AWinUdp.t) : list SocketAddr := AWinUdp.peer_addr <$> AWinUdp.sockets s.

(** The sockets [start_udp] is spawned for. *)
Definition udp_targets (tasks : list MobileRun.task) : list SocketAddr :=
  omap (λ x, match x with MobileRun.TaskUdp a => Some a | _ => None end) tasks.

Section System.
Context {Oct : Ipv6FromBytes} {Stk : Smoltcp} {Obs : Observed Stk} (pass : bytes) (k : Ipv4Class) (dns_addr : SocketAddr).

(** The device, the tasks of UDP and the sockets the loop has polled and not yet
    announced to the dispatcher: it waits when the channel is full. *)
Record t : Type := mk { device : TunDevice.t; udp : AWinUdp.t; announced : list SocketAddr }.

Inductive step : t → t → Prop :=
  | step_device d d' s p :
      TunDevice.task_step d d' ∨ TunDevice.stack_step k d d' → step (mk d s p) (mk d' s p)
  | step_turn d d' s now last ms emitted tasks report last' :
      MobileRun.turn dns_addr now last ms emitted d = Some (tasks, report, last', d') →
      step (mk d s []) (mk d' s (udp_targets tasks))
  | step_announce d s a p :
      MobileTask.step pass s (AWinUdp.on_accept s a) → step (mk d s (a :: p)) (mk d (AWinUdp.on_accept s a) p)
  | step_udp d s s' p :
      MobileTask.step pass s s' → peers s' = peers s → step (mk d s p) (mk d s' p).

(** What the tasks have heard of comes from the sockets. *)
Record heard (Q : SocketAddr → Prop) (s : AWinUdp.t) : Prop := {
  h_peers : Forall Q (peers s);
  h_queue : Forall (λ e, Q e.2.2) (AWinUdp.data_queue s);
  h_taken : Forall (λ e, Q e.2.2) (AWinUdp.taken s)
}.

Lemma heard_ext Q s s' :
  heard Q s → peers s' = peers s → AWinUdp.data_queue s' = AWinUdp.data_queue s → AWinUdp.taken s' = AWinUdp.taken s →
  heard Q s'.
Proof. intros [H1 H2 H3] Hp Hq Ht. by split; rewrite ?Hp, ?Hq, ?Ht. Qed.

Lemma peers_set s x a l data close sent :
  AWinUdp.sockets s !! x = Some a → peers (AWinUdp.set_sock s x (AWinUdp.with_listener a l) data close sent) = peers s.
Proof. intros Hx. unfold peers. cbn. rewrite list_fmap_insert. apply list_insert_id. by rewrite list_lookup_fmap, Hx. Qed.

Lemma heard_step Q s s' : MobileTask.step pass s s' → Forall Q (peers s') → heard Q s → heard Q s'.
Proof.
  intros Hs HQ Hc. destruct Hs as [target s Ht _|x a r s Hx Hl Hr|x a source data s Hx Hl Hr|x a s Hx Hl Hr
    |src dst data rest s Hd Hq|x a rest s Hd Hq Hx|addr b rest s Hd Hq|i ks d s Hd Hi Hk|i ks w s Hi Hw _|i ks s Hi Hw
    |i ks s Hi Hw Hr|i ks d rest header body s Hi Hw Hq|i ks s Hi Hw Hq Hr|i ks s Hi Hw|i ks buffer r k' payloads s Hi Hr Hk
    |i ks s Hi Hr Hroom]; try by apply (heard_ext Q s).
  - destruct Hc as [_ H2 H3]. by split.
  - destruct r as [[source data]|]; (apply (heard_ext Q s); [done|by apply peers_set| |done]); cbn; apply app_nil_r.
  - destruct Hc as [H1 H2 H3]. split; [done| |done]. cbn. apply Forall_app. split; [done|]. apply Forall_singleton.
    apply (Forall_lookup_1 _ _ x _ H1). unfold peers. by rewrite list_lookup_fmap, Hx.
  - apply (heard_ext Q s); [done|by apply peers_set| |done]. cbn. apply app_nil_r.
  - assert (heard Q (AWinUdp.take_data s (src, (data, dst)) rest)) as H.
    { destruct Hc as [H1 H2 H3]. rewrite Hq in H2. apply Forall_cons in H2 as [Hh H2].
      split; [done|done|]. cbn. apply Forall_app. by rewrite Forall_singleton. }
    unfold AWinUdp.on_data. destruct (AWinUdp.locals _ !! dst); [|done].
    destruct (AWinUdp.req_senders _ !! src), (CAPACITY =? 0)%nat; by apply (heard_ext Q _ _ H).
  - by destruct b; apply (heard_ext Q s).
  - unfold AWinUdp.on_sent. by destruct (AWinUdp.writer_of ks); apply (heard_ext Q s).
Qed.

(** The sockets a datagram may have come to. *)
Definition outside (a : SocketAddr) : Prop := MobileRun.proper k dns_addr a ∧ a ≠ dns_addr.

Lemma proper_targets tasks : Forall (MobileRun.proper_task k dns_addr) tasks → Forall outside (udp_targets tasks).
Proof.
  intros H. apply Forall_forall. intros a (x & Hx & Ha)%list_elem_of_omap. rewrite Forall_forall in H. specialize (H x Hx).
  by destruct x; simplify_eq.
Qed.

Record inv (d0 : TunDevice.t) (x : t) : Prop := {
  x_device : rtc (TunDevice.step k) d0 (device x);
  x_udp : rtc (MobileTask.step pass) AWinUdp.start (udp x);
  x_announced : Forall outside (announced x);
  x_heard : heard outside (udp x)
}.

Context {K : SmoltcpOk Stk}.

Lemma system_inv lookup parsed port mtu now server d0 x x' :
  MobileRun.start lookup parsed port dns_addr mtu now = Some (server, d0) → mtu ≠ 0 →
  step x x' → inv d0 x → inv d0 x'.
Proof.
  intros Hs Hm Hst. destruct Hst as [d d' s p Hd|d d' s now' last ms em tasks rep last' Ht|d s a p Ha|d s s' p Hu Hp];
    intros [H1 H2 H3 H4]; cbn in *; split; cbn; try done.
  - eapply rtc_r; [exact H1|]. destruct Hd; [by apply TunDevice.step_task|by apply TunDevice.step_stack].
  - etrans; [exact H1|]. exact (proj1 (MobileRun.turn_runs k _ _ _ _ _ _ _ _ _ _ Ht)).
  - destruct (MobileRun.turn_runs k _ _ _ _ _ _ _ _ _ _ Ht) as (_ & tcp & us & d1 & Hp & ->).
    destruct (MobileRun.loop_inv _ _ _ _ _ _ _ _ _ _ Hs Hm H1) as [Hi Hal].
    by eapply proper_targets, MobileRun.poll_proper.
  - by eapply rtc_r.
  - by inversion H3.
  - apply (heard_step _ _ _ Ha); [|done]. unfold peers. cbn. rewrite fmap_app. apply Forall_app. split; [apply H4|].
    apply Forall_cons in H3 as [H3 _]. by apply Forall_singleton.
  - by eapply rtc_r.
  - apply (heard_step _ _ _ Hu); [|done]. rewrite Hp. apply H4.
Qed.

(** C34: device, loop and tasks of the mobile tunnel together: however packets,
    stack, loop and tasks interleave, a source's connection to the server carries
    the mobile request and then datagrams for public addresses and, of the address
    of the DNS server, for ports other than its own: no datagram for another private
    address, for port 0 or for the DNS service is ever sent to the server; and while
    the task forwards, all it took from its channel has been sent, in order. *)
Theorem mobile_udp_stays_outside lookup parsed port mtu now server d0 x i kt :
  MobileRun.start lookup parsed port dns_addr mtu now = Some (server, d0) → mtu ≠ 0 →
  rtc step (mk d0 AWinUdp.start []) x → AWinUdp.tasks (udp x) !! i = Some kt →
  Forall (λ d, outside d.2) (AWinUdp.routed kt)
  ∧ AWinUdp.out kt `prefix_of` request pass ++ encode UdpBackend.packet (AWinUdp.nonempty (AWinUdp.routed kt))
  ∧ (AWinUdp.writer_of kt = AWinUdp.Forwarding →
       ∃ done, AWinUdp.routed kt = done ++ AWinUdp.queue kt
         ∧ AWinUdp.out kt = request pass ++ encode UdpBackend.packet (AWinUdp.nonempty done)).
Proof.
  intros Hs Hm Hr Hi. assert (inv d0 x) as [_ Hu _ Hh].
  { assert (inv d0 (mk d0 AWinUdp.start [])) as H0 by (by split; cbn; [apply rtc_refl..|apply Forall_nil_2|split; apply Forall_nil_2]).
    clear Hi. remember (mk d0 AWinUdp.start []) as x0 eqn:Hx0. clear Hx0. induction Hr; [done|]. eauto using system_inv. }
  pose proof (AWinUdp.tunnel_reachable_faithful _ _ _ Hu) as (_ & Ht & Hst). specialize (Ht i kt Hi). specialize (Hst i kt Hi).
  split_and!.
  - assert (AWinUdp.routed kt `sublist_of` (filter (λ e, e.1 = AWinUdp.src_addr kt) (AWinUdp.taken (udp x))).*2) as Hsub.
    { etrans; [|exact (AWinUdp.tr_order _ _ _ Ht)]. by apply sublist_inserts_r. }
    eapply AWinUdp.sublist_Forall; [exact Hsub|]. apply Forall_fmap.
    eapply AWinUdp.sublist_Forall; [apply sublist_filter|apply Hh].
  - unfold AWinUdp.stream in Hst. destruct (AWinUdp.writer_of kt); try done; [destruct Hst as [-> _]; apply prefix_nil|].
    destruct Hst as (ds & -> & ->). rewrite AWinUdp.encode_nonempty_app. apply prefix_app, prefix_app_r. done.
  - intros Hw. unfold AWinUdp.stream in Hst. by rewrite Hw in Hst.
Qed.
End System.
End MobileSystem.

(** ** Examples *)

Module MobileTaskWitness.
Import Witness.
Import AWinUdp.
Import MobileTask.
Import AWinUdpWitness.
#[local] Existing Instance Witness.from_bytes.
#[local] Existing Instance TunUdp.mobile_reader.

Definition pass : bytes := [65; 66].
Abbreviation moves := (MobileTask.step pass).

Definition received : t :=
  set_sock (MobileTask.on_recv known 0 listening (Some (client, [1; 2]))) 0 (with_listener handing Listening)
    [(client, ([1; 2], public))] [] [].
Definition given : task := with_queue spawned [([1; 2], public)] [([1; 2], public)].
Definition connected : task := MobileTask.finish_start pass given.
Definition dispatched : t :=
  MobileTask.on_sent (MobileTask.on_data received client public [1; 2] []) 0 spawned ([1; 2], public).
Definition busy : t := set_task dispatched 0 connected [] [].
Definition again : t :=
  set_sock (MobileTask.on_recv busy 0 listening (Some (client, [1; 2]))) 0 (with_listener handing Listening)
    [(client, ([1; 2], public))] [] [].

Abbreviation opts := (TunUdp.udp_opts pass).

Lemma client_recv : ∀ source data, Some (client, [1; 2]) = Some (source, data) → wf_sa source ∧ Z.of_nat (length data) < 2 ^ 16.
Proof. intros source data [= <- <-]. split; [exact client_ok|simpl; lia]. Qed.

Lemma again_reachable : rtc moves start again.
Proof.
  assert (∀ s, data_queue s = [] → (length (data_queue s) < CHANNEL)%nat) as Hroom by (intros s ->; simpl; unfold CHANNEL; lia).
  eapply rtc_l; [by apply (step_accept opts CAPACITY public); [exact tunnel_public_ok|vm_compute; lia]|].
  eapply rtc_l; [by apply (step_socket opts CAPACITY 0 listening [])|].
  eapply rtc_l; [by apply (step_recv opts CAPACITY 0 listening (Some (client, [1; 2])) known); [..|exact client_recv]|].
  eapply rtc_l; [by apply (step_hand opts CAPACITY 0 handing client [1; 2]); [..|apply Hroom]|].
  eapply rtc_l; [by apply (step_data opts CAPACITY client public [1; 2] [])|].
  eapply rtc_l; [by apply (step_sent opts CAPACITY 0 spawned ([1; 2], public))|].
  eapply rtc_l; [by apply (step_start opts CAPACITY 0 given)|].
  eapply rtc_l; [by apply (step_recv opts CAPACITY 0 listening (Some (client, [1; 2])) busy); [..|exact client_recv]|].
  apply rtc_once. by apply (step_hand opts CAPACITY 0 handing client [1; 2]); [..|apply Hroom].
Qed.

Lemma mobile_source_in_order_witness :
  req_senders again !! client = Some 0%nat ∧ out connected = MobileTask.request pass.
Proof.
  destruct (mobile_source_in_order pass again 0 connected again_reachable eq_refl) as (Hs & _ & _ & Ho).
  split; [exact (Hs eq_refl)|]. destruct (Ho eq_refl) as (done & Hq & ->).
  destruct done as [|d done]; [by rewrite app_nil_r|]. apply (f_equal length) in Hq. rewrite length_app in Hq. simpl in Hq. lia.
Defined.

Lemma large_answer_reconnects_witness :
  ∃ s', rtc moves again s' ∧ responses s' = [(client, public, [9; 9])] ∧ req_senders s' !! client = Some 1%nat.
Proof.
  destruct (large_answer_reconnects pass again 0 connected [] MobileUdpWitness.pieces [MobileUdpWitness.small]
    MobileUdpWitness.big 11 [1; 2] public [] 0%nat) as (s' & Hr & Hs & He & _).
  - exact again_reachable.
  - reflexivity.
  - reflexivity.
  - apply (bool_decide_unpack _). by vm_compute.
  - apply (bool_decide_unpack _). by vm_compute.
  - apply (bool_decide_unpack _). by vm_compute.
  - discriminate.
  - reflexivity.
  - reflexivity.
  - reflexivity.
  - reflexivity.
  - by vm_compute.
  - exists s'. split; [exact Hr|]. split; [exact Hs|exact He].
Defined.
End MobileTaskWitness.

(** A datagram for a public address makes a socket, of which the task of UDP gets
    two bytes. *)
Module MobileSystemWitness.
Import Witness SimStack TunDevice MobileSystem AWinUdpWitness.
#[local] Existing Instance Witness.from_bytes.
#[local] Existing Instance SimStack.smoltcp.
#[local] Existing Instance SimStack.observed.
#[local] Existing Instance SimStack.smoltcp_ok.

Definition pass : bytes := [65; 66].
Abbreviation class := TunDeviceWitness.class.
Abbreviation dns_addr := MobileRunWitness.dns_addr.
Abbreviation loop0 := MobileRunWitness.loop0.
Definition packet : bytes := [4; 17; 10; 0; 0; 2; 1; 2; 3; 4; 0; 53; 4; 0; 1].
Definition loop1 : TunDevice.t := default loop0 (receive class loop0 (IoOk (Some packet))).
Definition loop2 : TunDevice.t := from_option (λ '(_, _, _, d), d) loop1 (MobileRun.turn dns_addr 5 0 1000 true loop1).
Definition socket : AWinUdp.t := AWinUdp.on_accept AWinUdp.start public.
Definition handed : AWinUdp.t :=
  AWinUdp.set_sock (AWinUdp.on_recv known 0 listening (Some (client, [1; 2]))) 0 (AWinUdp.with_listener handing AWinUdp.Listening)
    [(client, ([1; 2], public))] [] [].
Definition spawning : AWinUdp.t := MobileTask.on_data handed client public [1; 2] [].
Definition given : AWinUdp.t := MobileTask.on_sent spawning 0 spawned ([1; 2], public).
Definition task : AWinUdp.task := AWinUdp.with_queue spawned [([1; 2], public)] [([1; 2], public)].

Abbreviation opts := (TunUdp.udp_opts pass).
Abbreviation cap := MobileTask.CAPACITY.
Abbreviation moves := (MobileSystem.step pass class dns_addr).

Lemma loop1_received : receive class loop0 (IoOk (Some packet)) = Some loop1.
Proof.
  assert (is_Some (receive class loop0 (IoOk (Some packet)))) as [d Hd] by (apply (bool_decide_unpack _); vm_compute; exact I).
  unfold loop1. by rewrite Hd.
Qed.

Lemma loop2_turn : ∃ report last, MobileRun.turn dns_addr 5 0 1000 true loop1 = Some ([MobileRun.TaskUdp public], report, last, loop2).
Proof.
  assert ((λ '(tasks, _, _, _), tasks) <$> MobileRun.turn dns_addr 5 0 1000 true loop1 = Some [MobileRun.TaskUdp public]) as Ht by by vm_compute.
  unfold loop2. destruct (MobileRun.turn dns_addr 5 0 1000 true loop1) as [[[[tasks rep] last] d]|]; [|done].
  injection Ht as ->. by exists rep, last.
Qed.

Lemma given_reachable : rtc moves (mk loop0 AWinUdp.start []) (mk loop2 given []).
Proof.
  eapply rtc_l; [apply (step_device pass class dns_addr loop0 loop1); right; by eapply stack_receives, loop1_received|].
  destruct loop2_turn as (report & last & Ht).
  eapply rtc_l; [by eapply (step_turn pass class dns_addr loop1 loop2)|].
  eapply rtc_l; [apply (step_announce pass class dns_addr loop2 AWinUdp.start public []);
    by apply (AWinUdp.step_accept opts cap public); [exact tunnel_public_ok|vm_compute; lia]|].
  eapply rtc_l; [apply (step_udp pass class dns_addr loop2 socket known []); [by apply (AWinUdp.step_socket opts cap 0 listening [])|done]|].
  eapply rtc_l; [eapply step_udp; [by apply (AWinUdp.step_recv opts cap 0 listening (Some (client, [1; 2])) known);
    [..|exact MobileTaskWitness.client_recv]|done]|].
  eapply rtc_l; [eapply (step_udp pass class dns_addr loop2 _ handed); [by apply (AWinUdp.step_hand opts cap 0 handing client [1; 2]);
    [..|vm_compute; lia]|done]|].
  eapply rtc_l; [eapply (step_udp pass class dns_addr loop2 _ spawning); [by apply (AWinUdp.step_data opts cap client public [1; 2] [])|done]|].
  apply rtc_once. apply (step_udp pass class dns_addr loop2 spawning given []); [|done].
  by apply (AWinUdp.step_sent opts cap 0 spawned ([1; 2], public)).
Qed.

Lemma mobile_udp_stays_outside_witness :
  Forall (λ d, outside class dns_addr d.2) (AWinUdp.routed task)
  ∧ AWinUdp.out task `prefix_of` MobileTask.request pass ++ encode UdpBackend.packet (AWinUdp.nonempty (AWinUdp.routed task)).
Proof.
  destruct (mobile_udp_stays_outside pass class dns_addr MobileRunWitness.lookup true 443 1500 0 MobileRunWitness.server
    loop0 (mk loop2 given []) 0 task) as (H1 & H2 & _).
  - by vm_compute.
  - done.
  - exact given_reachable.
  - reflexivity.
  - by split.
Defined.
End MobileSystemWitness.
