(* ===== verification/MobileLoop.v ===== *)
(** * The event-loop tunnel of the mobile application: the loop
    ([src/mobile/src-tauri/src/tun/mod.rs], [tcp.rs], [idle_pool.rs])

    A turn serves the DNS server, polls the stack, lets the two servers take what it
    has for them, and hands out the events of the poll: to the pool of idle
    connections, to the resolver and to the servers.  The file puts [TunDns],
    [WinUdp] and [WinTcp] on one [VpnDevice] and shows that they do not disturb each
    other.  [None] is a panic or the error that ends the loop. *)

From Stdlib Require Import ZArith Lia SpecFloat.
From stdpp Require Import base option list gmap relations.
From S2P Require Import Prelude Net Config Proto Env Status TlsConn TcpUtil TlsStream Resolver IdlePool IpSet.
From S2P Require Import Smoltcp TunDevice ArcTables TunPool WinTun WinTcp WinUdp WinRun DnsServer.
From S2P Require Import MobileProto MobileDns TunDns MobileRun MobileTun MobileUdp.

Open Scope Z_scope.

(** ** The TCP server *)

Module TunTcpServer.
Section Server.
Context {R P : Type} {Rem : Remote R} {Pool : RemotePool P R} {Stk : Smoltcp}.
Context (pass : bytes) (spare : bytes → nat).

(** [TcpServer]: the text of the Windows tunnel's, on the mobile device and with the
    mobile test for a socket that may still be read. *)
Definition Server : Type := WinTcpServer.t R.
Definition new : Server := WinTcpServer.new MIN_INDEX.
Definition next_token : Z → Z * Z := next_token CHANNEL_TCP.

Definition server_do_local (fuel : nat) (now : Z) (st : Server * P * VpnDevice.t) : option (Server * P * VpnDevice.t) :=
  let '(s, pool, device) := st in
  '(s, pool, b) ← WinTcpServer.do_local (L := TunTcp.live) spare fuel now (s, pool, VpnDevice.base device);
  Some (s, pool, VpnDevice.with_base device b).

Definition server_do_remote (fuel : nat) (now : Z) (event : Event) (s : Server) (device : VpnDevice.t) :
    option (Server * VpnDevice.t) :=
  '(s, b) ← WinTcpServer.do_remote (L := TunTcp.live) (TunTcp.pass_opts pass) spare fuel now (ev_token event) event s
              (VpnDevice.base device);
  Some (s, VpnDevice.with_base device b).

Definition remove_closed (s : Server) (device : VpnDevice.t) : option (Server * VpnDevice.t) :=
  '(s, b) ← WinTcpServer.remove_closed s (VpnDevice.base device); Some (s, VpnDevice.with_base device b).

Definition check_timeout (now : Z) (s : Server) (device : VpnDevice.t) : option (Server * VpnDevice.t) :=
  '(s, b) ← WinTcpServer.check_timeout now s (VpnDevice.base device); Some (s, VpnDevice.with_base device b).
End Server.
End TunTcpServer.

(** ** The loop *)

Module MobileLoop.
#[local] Existing Instance VpnDevice.to_port_zero_dec.

Section Loop.
Context {E : Env} {Stk : Smoltcp} {Oct : Ipv6FromBytes} {D : DnsProto}.
(** The digest of the password, the room of a read buffer, the fuel of a TLS call;
    the options of the DNS server and how it is connected; the interval of the
    speed reports. *)
Context (pass : bytes) (spare : bytes → nat) (io_fuel : nat).
Context (trusted_addr untrusted_addr : SocketAddr) (dns_cache_time : Z) (mtu : nat).
Context (connect : OS → option (TlsConn E) * OS) (speed_update_ms : Z).
#[local] Instance remote : Remote (TlsConn E) := MobileTls.mobile_remote io_fuel.
#[local] Instance remote_pool : RemotePool (IdlePool.t E * OS * DnsResolver) (TlsConn E) := {
  pool_get := IdlePool.get;
  remote_set_token c t := (set_token c t).2
}.

Definition RESOLVER : Z := 1.

Abbreviation Dns := (TunDns.t (E := E) (R := TlsConn E)).
Abbreviation Speeds := ((spec_float * bytes) * (spec_float * bytes))%type.

Record t : Type := mk {
  resolver : DnsResolver;
  pool : IdlePool.t E;
  os : OS;
  udp_server : WinUdpServer.t (TlsConn E);
  tcp_server : WinTcpServer.t (TlsConn E);
  device : VpnDevice.t;
  listener : nat;
  dns_server : Dns;
  last_check_time : Z;
  last_speed_time : Z;
  reports : list Speeds  (* the events emitted *)
}.

Definition with_pool (r : t) (st : IdlePool.t E * OS * DnsResolver) : t :=
  mk st.2 st.1.1 st.1.2 (udp_server r) (tcp_server r) (device r) (listener r) (dns_server r)
    (last_check_time r) (last_speed_time r) (reports r).
Definition pool_state (r : t) : IdlePool.t E * OS * DnsResolver := (pool r, os r, resolver r).
Definition with_udp (r : t) (s : WinUdpServer.t (TlsConn E)) (d : VpnDevice.t) : t :=
  mk (resolver r) (pool r) (os r) s (tcp_server r) d (listener r) (dns_server r)
    (last_check_time r) (last_speed_time r) (reports r).
Definition with_tcp (r : t) (s : WinTcpServer.t (TlsConn E)) (d : VpnDevice.t) : t :=
  mk (resolver r) (pool r) (os r) (udp_server r) s d (listener r) (dns_server r)
    (last_check_time r) (last_speed_time r) (reports r).
Definition with_device (r : t) (d : VpnDevice.t) : t :=
  mk (resolver r) (pool r) (os r) (udp_server r) (tcp_server r) d (listener r) (dns_server r)
    (last_check_time r) (last_speed_time r) (reports r).
Definition with_dns (r : t) (s : Dns) (d : VpnDevice.t) : t :=
  mk (resolver r) (pool r) (TunDns.net s) (udp_server r) (tcp_server r) d (listener r) s
    (last_check_time r) (last_speed_time r) (reports r).

(** [IdlePool::new], which is passed the server's address. *)
Definition pool_new (size : nat) (port : Z) (domain : bytes) (addr : SocketAddr) : IdlePool.t E :=
  IdlePool.mk [] 0 size addr domain port 0 0 0 0.

(** [hostname] is checked as a server name outside. *)
Definition prepare_idle_pool (pool_size : nat) (port : Z) (hostname : bytes) (addr : SocketAddr) (o : OS)
    (resolver : DnsResolver) : IdlePool.t E * OS * DnsResolver :=
  let pool := pool_new (pool_size + 1) port hostname addr in
  let pool := IdlePool.init_index pool CHANNEL_CNT CHANNEL_IDLE MIN_INDEX MAX_INDEX in
  IdlePool.init (pool, o, resolver).

(** [run] up to its loop, on what the lookup of the server's name gave. *)
Definition start (now : Z) (server_ip : option (list IpAddr)) (pool_size : nat) (port : Z) (hostname : bytes)
    (dns_text : bytes) (dns : IpAddr) (blocked : gset bytes) (o : OS) : option t :=
  server_ip ← server_ip;
  ip ← head server_ip;
  let server_addr := mkSocketAddr ip port in
  let resolver := dns_resolver_new RESOLVER (Some dns_text) in
  let '(pool, o, resolver) := prepare_idle_pool pool_size port hostname server_addr o resolver in
  '(listener, device) ← VpnDevice.start (Z.of_nat mtu) server_addr dns now;
  dns_server ← TunDns.new pass connect blocked o;
  Some (mk resolver pool (TunDns.net dns_server) TunUdp.new TunTcpServer.new device listener dns_server now now []).

(** The DNS server's turn, on the socket that is set apart for it. *)
Definition serve_dns (fuel : nat) (now : Z) (r : t) : option t :=
  '(socket, d) ← VpnDevice.get_udp_socket_mut (device r) (listener r) ModeNone;
  '(s, socket) ← TunDns.ready trusted_addr untrusted_addr dns_cache_time mtu pass spare connect fuel now
                   (TunDns.with_net (dns_server r) (os r)) socket;
  Some (with_dns r s (VpnDevice.with_base d (WinTun.put_udp (VpnDevice.base d) (listener r) socket))).

(** The servers take what the stack has for them. *)
Definition serve_local (fuel : nat) (now : Z) (r : t) : option t :=
  '(s, st, d) ← TunUdp.server_do_local fuel now (udp_server r, pool_state r, device r);
  let r := with_pool (with_udp r s d) st in
  '(s, st, d) ← TunTcpServer.server_do_local spare fuel now (tcp_server r, pool_state r, device r);
  Some (with_pool (with_tcp r s d) st).

Definition run_event (fuel : nat) (now : Z) (r : t) (event : Event) : option t :=
  let i := ev_token event in
  if i =? RESOLVER then
    '(d, p) ← consume now (λ p _ ip, Some (IdlePool.resolve p ip)) (resolver r) (pool r);
    Some (with_pool r (p, os r, d))
  else if i mod CHANNEL_CNT =? CHANNEL_IDLE then
    p ← IdlePool.ready fuel (pool r) event; Some (with_pool r (p, os r, resolver r))
  else if i mod CHANNEL_CNT =? CHANNEL_UDP then
    '(s, d) ← TunUdp.server_do_remote pass spare fuel now event (udp_server r) (device r);
    Some (with_udp r s d)
  else
    '(s, d) ← TunTcpServer.server_do_remote pass spare fuel now event (tcp_server r) (device r);
    Some (with_tcp r s d).

(** What follows the events of a poll. *)
Definition remove_closed (r : t) : option t :=
  '(s, d) ← TunTcpServer.remove_closed (tcp_server r) (device r);
  let r := with_tcp r s d in
  s ← TunUdp.remove_closed (udp_server r);
  Some (with_udp r s (device r)).

Definition get_speed_and_unit (speed : spec_float) : spec_float * bytes := MobileRun.get_speed_and_unit speed.

Definition report_speed (now : Z) (emitted : bool) (r : t) : option t :=
  if speed_update_ms <=? since now (last_speed_time r) / 1000000 then
    let '((rx, tx), d) := VpnDevice.calculate_speed now (device r) in
    if emitted then
      Some (mk (resolver r) (pool r) (os r) (udp_server r) (tcp_server r) d (listener r) (dns_server r)
              (last_check_time r) now (reports r ++ [(get_speed_and_unit rx, get_speed_and_unit tx)]))
    else None
  else Some r.

Definition check_timeout (fuel : nat) (now : Z) (r : t) : option t :=
  if secs 60 <? since now (last_check_time r) then
    '(s, d) ← TunTcpServer.check_timeout now (tcp_server r) (device r);
    let r := with_tcp r s d in
    '(s, d) ← TunUdp.check_timeout now (udp_server r) (device r);
    let r := with_udp r s d in
    p ← IdlePool.check_timeout fuel (pool r);
    Some (mk (resolver r) p (os r) (udp_server r) (tcp_server r) (device r) (listener r) (dns_server r)
            now (last_speed_time r) (reports r))
  else Some r.

Definition run_turn (fuel : nat) (now : Z) (poll : VpnDevice.t → bool * VpnDevice.t) (emitted : bool)
    (events : list Event) (r : t) : option t :=
  r ← serve_dns fuel now r;
  let '(progress, d) := poll (device r) in
  let r := with_device r d in
  r ← (if progress then serve_local fuel now r else Some r);
  r ← foldl (λ acc event, r ← acc; run_event fuel now r event) (Some r) events;
  r ← remove_closed r;
  r ← report_speed now emitted r;
  check_timeout fuel now r.

(** ** The servers together *)

Section Invariant.
Context {Ok : EnvOk E} {Rw : EnvRw E} {Obs : Observed Stk} {K : SmoltcpOk Stk} {Z0 : PortZero Stk}.
Context (k : Ipv4Class) (cfg : nat * Z * Z * Z * Z) (l : nat) (addr : SocketAddr).
#[local] Instance lawful : LawfulRemote (TlsConn E) := MobileTls.mobile_lawful io_fuel.

Abbreviation base r := (VpnDevice.base (device r)).
Abbreviation us b := (udps (WinTun.sockets b)).
Abbreviation dev := (WinTun.inv (Rs := Some l)).
Abbreviation uinv := (WinUdpServer.inv (Rs := Some l) (R := TlsConn E)).
Abbreviation tinv := (WinTcpServer.inv (Rs := Some l) (L := TunTcp.live) (R := TlsConn E) (TunTcp.pass_opts pass)).
Abbreviation served := (TunDns.served (E := E) (R := TlsConn E) trusted_addr untrusted_addr dns_cache_time mtu pass spare connect).

Record inv (r : t) : Prop := mkInv {
  n_listener : listener r = l;
  n_device : VpnDevice.inv k l (device r);
  n_addr : VpnDevice.dns_addr (device r) = addr;
  n_udp : uinv (udp_server r) (base r);
  n_tcp : tinv (tcp_server r) (base r);
  n_pool : IdlePool.ok cfg (pool r);
  n_dns : ∃ sk, us (base r) !! l = Some sk ∧ served (dns_server r) sk
}.

(** What one server's work is to leave the rest of the program. *)
Record undisturbed (b b' : WinTun.t) : Prop := {
  u_others : WinTun.others b b';
  u_endpoints h s' : us b' !! h = Some s' → ∃ s, us b !! h = Some s ∧ udp_endpoint s' = udp_endpoint s;
  u_listener : us b' !! l = us b !! l
}.

Lemma undisturbed_leaves b b' : WinTun.inv (Rs := Some l) b' → WinUdpServer.leaves (Rs := Some l) b b' → undisturbed b b'.
Proof.
  intros Hb [[Ht Hw] He Hr]. split; [|done|by apply Hr]. apply WinTun.others_quiet; [done|]. intros _. apply Hb.
Qed.

Lemma device_undisturbed d b :
  VpnDevice.inv k l d → dev b → undisturbed (VpnDevice.base d) b → VpnDevice.inv k l (VpnDevice.with_base d b).
Proof.
  intros Hd Hb [_ He Hl]. apply VpnDevice.inv_base; [done|done| |].
  - intros e (h & s' & Hne & Hs' & Hse)%(WinTun.i_served _ Hb). destruct (He h s' Hs') as (s & Hs & Hep).
    destruct (WinTun.i_listed _ (VpnDevice.i_dev _ _ _ Hd) h s Hne Hs) as (e' & He' & Hin).
    assert (e = e') as ->; [|done]. eapply WinTun.serves_inj; [exact Hse|]. unfold WinTun.serves. rewrite Hep. exact He'.
  - intros s Hs. rewrite Hl. eauto.
Qed.

(** The UDP server's turn. *)
Lemma set_udp r s b :
  inv r → uinv s b → undisturbed (base r) b → inv (with_udp r s (VpnDevice.with_base (device r) b)).
Proof.
  intros [Hn Hd Ha Hu Ht Hp Hs] Hu' Hb. split; cbn; [done| |done|done| |done|].
  - apply device_undisturbed; [done|apply Hu'|done].
  - apply (WinTcpServer.inv_others (Rs := Some l) _ (tcp_server r) (base r)); [done|apply Hu'|apply Hb].
  - by rewrite (u_listener _ _ Hb).
Qed.

(** The TCP server's, which touches no UDP socket. *)
Lemma set_tcp r s b :
  inv r → tinv s b → us b = us (base r) → inv (with_tcp r s (VpnDevice.with_base (device r) b)).
Proof.
  intros [Hn Hd Ha Hu Ht Hp Hs] Ht' He. split; cbn; [done| |done| |done|done|by rewrite He].
  - apply VpnDevice.inv_base; [done|apply Ht'| |by rewrite He; apply VpnDevice.keeps_at_refl].
    intros e (h & s' & Hne & Hs' & Hse)%(WinTun.i_served _ (WinTcpServer.w_device _ _ _ Ht')). rewrite He in Hs'.
    destruct (WinTun.i_listed _ (VpnDevice.i_dev _ _ _ Hd) h s' Hne Hs') as (e' & He' & Hin).
    by rewrite (WinTun.serves_inj _ _ _ Hse He').
  - apply (WinUdpServer.inv_device _ (base r)); [done|apply Ht'|by rewrite He].
Qed.

Lemma set_pool r p o d : inv r → IdlePool.ok cfg p → inv (with_pool r (p, o, d)).
Proof. intros [] Hp. by split. Qed.

Lemma mobile_pool_get_ok (st : IdlePool.t E * OS * DnsResolver) :
  IdlePool.ok cfg st.1.1 → IdlePool.ok cfg (pool_get st).2.1.1.
Proof. intros Hp. by apply (IdlePool.get_loop_ok cfg (IdlePool.size st.1.1) st). Qed.

(** A call of [serve_local] does not reach the end of the indices. *)
Definition room (fuel : nat) (r : t) : Prop :=
  WinUdpServer.NEXT_INDEX (udp_server r)
    + Z.of_nat (fuel * length (Wakers.queue (WinTun.udp_wakers (base r)))) < MAX_INDEX
  ∧ WinTcpServer.NEXT_INDEX (tcp_server r)
    + Z.of_nat (length (Wakers.queue (WinTun.tcp_wakers (base r)))) < MAX_INDEX.

Lemma mobile_serve_local_inv fuel now r r' : inv r → room fuel r → serve_local fuel now r = Some r' → inv r'.
Proof.
  intros Hi [Hru Hrt]. unfold serve_local. intros ([[su [[p o] q]] d1] & H1 & H)%bind_Some.
  apply bind_Some in H1 as ([[su' st'] b1] & H1 & [= <- -> <-]).
  pose proof (udp_local_pool (λ st, IdlePool.ok cfg st.1.1) mobile_pool_get_ok _ _ _ _ _ _ _ _ H1 (n_pool _ Hi)) as Hp1.
  apply (WinUdpServer.do_local_ok (Rs := Some l)) in H1 as [Hu1 Hq]; [|apply Hi|done].
  assert (undisturbed (base r) b1) as Hb1 by (apply undisturbed_leaves; [apply Hu1|done]).
  pose proof (set_pool _ p o q (set_udp _ _ _ Hi Hu1 Hb1) Hp1) as Hi1. revert H.
  set (r1 := with_pool _ _) in *. intros ([[st [[p2 o2] q2]] d2] & H2 & [= <-])%bind_Some.
  apply bind_Some in H2 as ([[st' pl] b2] & H2 & [= <- -> <-]).
  pose proof (tcp_local_pool (L := TunTcp.live) spare (λ st, IdlePool.ok cfg st.1.1) mobile_pool_get_ok _ _ _ _ _ _ _ _ H2
    (n_pool _ Hi1)) as Hp2.
  apply (WinTcpServer.local_good (Rs := Some l) (TunTcp.pass_opts pass)) in H2 as [Ht2 Hud];
    [|apply Hi1|cbn; by rewrite (proj2 (WinUdpServer.l_quiet _ _ Hq))].
  apply set_pool; [|exact Hp2]. by apply set_tcp.
Qed.

(** Events of the pool, the resolver and the TCP connections are handled in finite
    time and without a panic; for those of UDP connections see [WinUdp]. *)
Lemma mobile_run_event_terminates now r event :
  inv r → ev_token event = RESOLVER ∨ ev_token event mod CHANNEL_CNT ≠ CHANNEL_UDP →
  terminates (λ fuel, run_event fuel now r event) inv.
Proof.
  intros Hi Htok. unfold run_event. destruct (Z.eqb_spec (ev_token event) RESOLVER) as [He|He].
  - destruct (WinRun.consume_total (IdlePool.ok cfg) now (λ p _ ip, Some (IdlePool.resolve p ip)) (resolver r) (pool r))
      as (d & p & -> & Hp'); [|apply Hi|by apply terminates_ret, set_pool].
    intros p tok ip Hk. exists (IdlePool.resolve p ip). split; [done|]. destruct ip; [|done]. by destruct Hk.
  - destruct (Z.eqb_spec (ev_token event mod CHANNEL_CNT) CHANNEL_IDLE).
    + eapply terminates_bind; [by apply (IdlePool.ready_ok cfg), Hi|]. intros p' Hp'. by apply terminates_ret, set_pool.
    + destruct (Z.eqb_spec (ev_token event mod CHANNEL_CNT) CHANNEL_UDP); [by destruct Htok|].
      unfold TunTcpServer.server_do_remote. eapply (terminates_bind _ _ (λ sd, inv (with_tcp r sd.1 sd.2))).
      * eapply terminates_bind; [by apply (WinTcpServer.do_remote_terminates (Rs := Some l)), Hi|].
        intros [s' b'] [Ht' Hud]. by apply terminates_ret, set_tcp.
      * intros [s' d'] Hi'. by apply terminates_ret.
Qed.

Lemma mobile_run_event_steady now r event :
  ev_token event = RESOLVER ∨ ev_token event mod CHANNEL_CNT ≠ CHANNEL_UDP →
  steady (λ fuel, run_event fuel now r event).
Proof.
  intros Htok. unfold run_event. destruct (Z.eqb_spec (ev_token event) RESOLVER); [exact (steady_ret _)|].
  destruct (_ =? CHANNEL_IDLE).
  - apply steady_bind; [apply pool_ready_steady|]. intros p. exact (steady_ret _).
  - destruct (Z.eqb_spec (ev_token event mod CHANNEL_CNT) CHANNEL_UDP); [by destruct Htok|].
    apply steady_bind; [|intros [s d]; exact (steady_ret _)]. unfold TunTcpServer.server_do_remote.
    apply steady_bind; [apply (WinTcpServer.server_remote_steady (L := TunTcp.live))|]. intros [s d]. exact (steady_ret _).
Qed.

Lemma mobile_run_event_keeps fuel now r event r' : inv r → run_event fuel now r event = Some r' → inv r'.
Proof.
  intros Hi H. destruct (decide (ev_token event = RESOLVER)) as [He|He].
  - apply (terminates_steady _ _ fuel r' (mobile_run_event_steady now r event (or_introl He))
      (mobile_run_event_terminates now r event Hi (or_introl He)) H).
  - destruct (decide (ev_token event mod CHANNEL_CNT = CHANNEL_UDP)) as [Hu|Hu].
    + unfold run_event in H. rewrite (proj2 (Z.eqb_neq _ _) He), Hu in H.
      cbn [Z.eqb CHANNEL_UDP CHANNEL_IDLE Pos.eqb] in H. apply bind_Some in H as ([s' d'] & H & [= <-]).
      apply bind_Some in H as ([s1 b1] & H & [= <- <-]).
      apply (WinUdpServer.do_remote_ok (Rs := Some l)) in H as [Hu' Hq]; [|apply Hi].
      apply set_udp; [done..|]. by apply undisturbed_leaves; [apply Hu'|].
    + apply (terminates_steady _ _ fuel r' (mobile_run_event_steady now r event (or_intror Hu))
        (mobile_run_event_terminates now r event Hi (or_intror Hu)) H).
Qed.

Lemma mobile_run_events_keeps fuel now events r r' :
  inv r → foldl (λ acc event, r ← acc; run_event fuel now r event) (Some r) events = Some r' → inv r'.
Proof.
  revert r. induction events as [|ev evs IH]; intros r Hi; [by intros [= <-]|]. cbn [foldl].
  change (Some r ≫= _) with (run_event fuel now r ev).
  destruct (run_event fuel now r ev) as [r1|] eqn:He; [intros H; eapply IH; [by eapply mobile_run_event_keeps|done]|].
  intros H. exfalso. clear -H. induction evs; [done|]. by apply IHevs.
Qed.

(** What follows the events never panics. *)
Lemma mobile_remove_closed_inv r : inv r → ∃ r', remove_closed r = Some r' ∧ inv r'.
Proof.
  intros Hi. unfold remove_closed, TunTcpServer.remove_closed, TunUdp.remove_closed.
  destruct (WinTcpServer.remove_closed_good (Rs := Some l) _ (tcp_server r) (base r) (n_tcp _ Hi))
    as (s1 & b1 & -> & Ht1 & _ & _ & _ & Hud). cbn [mbind option_bind].
  pose proof (set_tcp _ s1 b1 Hi Ht1 Hud) as Hi1.
  destruct (WinUdpServer.remove_closed_ok (Rs := Some l) spare (udp_server r) b1 (n_udp _ Hi1)) as (s2 & Hrm & Hu2 & _).
  cbn [udp_server with_tcp]. rewrite Hrm. cbn [mbind option_bind]. eexists. split; [reflexivity|]. by destruct Hi1; split.
Qed.

Lemma mobile_report_speed_inv now emitted r r' : inv r → report_speed now emitted r = Some r' → inv r'.
Proof.
  intros Hi. unfold report_speed. destruct (_ <=? _); [|by intros [= <-]].
  destruct (VpnDevice.calculate_speed now (device r)) as [[rx tx] d] eqn:Hc. destruct emitted; [|done]. intros [= <-].
  assert (∃ b, d = VpnDevice.with_base (device r) b ∧ dev b ∧ WinTun.others (base r) b ∧ us b = us (base r)) as (b & -> & Hb & Ho & He).
  { injection Hc as _ _ <-. eexists. split; [reflexivity|]. split_and!; [|by apply WinTun.others_quiet|done].
    by destruct (VpnDevice.i_dev _ _ _ (n_device _ Hi)). }
  assert (undisturbed (base r) b) as Hu by (split; [done|rewrite He; eauto|by rewrite He]).
  destruct (set_udp r (udp_server r) b Hi) as []; [|done|by split].
  apply (WinUdpServer.inv_device _ (base r)); [apply Hi|done|by rewrite He].
Qed.

Lemma mobile_check_timeout_terminates now r : inv r → terminates (λ fuel, check_timeout fuel now r) inv.
Proof.
  intros Hi. unfold check_timeout. destruct (_ <? _); [|by apply terminates_ret].
  unfold TunTcpServer.check_timeout, TunUdp.check_timeout.
  destruct (WinTcpServer.check_timeout_good (Rs := Some l) _ now (tcp_server r) (base r) (n_tcp _ Hi))
    as (s1 & b1 & -> & Ht1 & _ & Hud). cbn [mbind option_bind].
  pose proof (set_tcp _ s1 b1 Hi Ht1 Hud) as Hi1. revert Hi1. set (r1 := with_tcp _ _ _). intros Hi1.
  destruct (WinUdpServer.check_timeout_keeps (Rs := Some l) now (udp_server r1) (base r1) (n_udp _ Hi1))
    as (s2 & b2 & -> & Hu2 & _ & _ & Htc & Hsub & Hres). cbn [mbind option_bind].
  assert (undisturbed (base r1) b2) as Hb.
  { split; [|intros h s Hs; exists s; split; [by eapply lookup_weaken|done]|by apply Hres].
    apply WinTun.others_quiet; [done|]. intros _. apply (WinUdpServer.v_device _ _ Hu2). }
  pose proof (set_udp _ s2 b2 Hi1 Hu2 Hb) as Hi2.
  eapply terminates_bind; [by apply (IdlePool.check_timeout_ok cfg), Hi2|].
  intros p' Hp'. apply terminates_ret. by destruct Hi2; split.
Qed.

Lemma mobile_check_timeout_steady now r : steady (λ fuel, check_timeout fuel now r).
Proof.
  unfold check_timeout. destruct (_ <? _); [|exact (steady_ret _)].
  destruct (TunTcpServer.check_timeout now _ _) as [[s1 d1]|]; cbn [mbind option_bind]; [|exact (steady_ret _)].
  destruct (TunUdp.check_timeout now _ _) as [[s2 d2]|]; cbn [mbind option_bind]; [|exact (steady_ret _)].
  apply steady_bind; [apply pool_timeout_steady|]. intros p. exact (steady_ret _).
Qed.

(** *** The DNS server's turn *)

(** Its socket as it was when the turn began. *)
Lemma serve_dns_eq fuel now r sk :
  inv r → us (base r) !! l = Some sk →
  serve_dns fuel now r =
    '(s, sk') ← TunDns.ready trusted_addr untrusted_addr dns_cache_time mtu pass spare connect fuel now
                  (TunDns.with_net (dns_server r) (os r)) sk;
    Some (with_dns r s (VpnDevice.with_base (device r) (WinTun.put_udp (base r) l sk'))).
Proof.
  intros Hi Hsk. unfold serve_dns, VpnDevice.get_udp_socket_mut, WinTun.get_udp_socket_mut. rewrite (n_listener _ Hi).
  rewrite (proj2 (get_udp_Some _ _ _) (proj1 (lookup_udps _ _ _) Hsk)). cbn [mbind option_bind]. done.
Qed.

Lemma serve_dns_inv fuel now r r' : inv r → serve_dns fuel now r = Some r' → inv r'.
Proof.
  intros Hi. destruct (n_dns _ Hi) as (sk & Hsk & Hs). rewrite (serve_dns_eq fuel now r sk Hi Hsk).
  intros ([s sk'] & Hr & [= <-])%bind_Some. pose proof (TunDns.tun_dns_endpoint _ _ _ _ _ _ _ _ _ _ _ _ _ Hr) as Hep.
  destruct (WinTun.put_udp_spec (base r) l sk sk' Hsk) as [H1 H2].
  assert (dev (WinTun.put_udp (base r) l sk')) as Hb.
  { eapply WinTun.inv_update_udp; [apply Hi|apply Hi|apply Hi|done|exact Hsk|exact H1|done]. }
  destruct Hi as [Hn Hd Ha Hu Ht Hp _].
  split; cbn [listener device udp_server tcp_server pool dns_server with_dns VpnDevice.base VpnDevice.with_base];
    [done| |done| | |done|].
  - eapply VpnDevice.mobile_inv_update; [done|apply Hd|apply Hd|done|exact Hsk|exact H1|done].
  - apply (WinUdpServer.inv_device _ (base r)); [done|done|]. intros h [x Hx]. rewrite H1.
    destruct (decide (l = h)) as [<-|]; [by rewrite lookup_insert_eq|]. rewrite lookup_insert_ne by done. by eexists.
  - apply (WinTcpServer.inv_others (Rs := Some l) _ _ (base r)); [done|done|]. apply WinTun.others_quiet; [done|]. intros _. apply Hb.
  - exists sk'. split; [by rewrite H1, lookup_insert_eq|]. eapply TunDns.served_ready; [|exact Hr]. by apply TunDns.served_net.
Qed.

(** *** Turns *)

(** The stack takes packets from the device, feeds the sockets, wakes wakers they
    were given and sends packets. *)
Inductive fed : VpnDevice.t → VpnDevice.t → Prop :=
  | fed_receive d p d' : WinTun.packet_ok p → VpnDevice.receive k d (IoOk (Some p)) = Some d' → fed d d'
  | fed_stack d ss tq uq : evolves (WinTun.sockets (VpnDevice.base d)) ss →
      (∀ h, h ∈ uq.*1 → is_Some (Wakers.wakers (WinTun.udp_wakers (VpnDevice.base d)) !! h)) →
      fed d (VpnDevice.with_base d (WinTun.with_udp_wakers (WinTun.with_tcp_wakers (WinTun.with_sockets (VpnDevice.base d) ss)
               (Wakers.mk (Wakers.wakers (WinTun.tcp_wakers (VpnDevice.base d))) tq))
               (Wakers.mk (Wakers.wakers (WinTun.udp_wakers (VpnDevice.base d))) uq)))
  | fed_consume d n d' : VpnDevice.consume d n true = Some d' → fed d d'.

Lemma mobile_fed_kept d d' : VpnDevice.inv k l d → fed d d' → ∃ b, d' = VpnDevice.with_base d b ∧ VpnDevice.kept k l d b.
Proof.
  intros Hd Hf. revert Hd. destruct Hf as [d0 p d1 Hp Hr|d0 ss tq uq He Hq|d0 n d1 Hc]; intros Hd.
  - destruct (decide (VpnDevice.to_port_zero d0 p)) as [Hz|Hz]; [by rewrite (VpnDevice.port_zero_panics k l d0 p Hd Hz) in Hr|].
    destruct (VpnDevice.receive_kept k l d0 p Hd Hp Hz) as (b & Hb & Hk). exists b. split; [congruence|done].
  - eexists. split; [reflexivity|]. by apply VpnDevice.stack_kept.
  - apply bind_Some in Hc as (b & Hc & [= <-]). injection Hc as <-. eexists. split; [reflexivity|].
    apply VpnDevice.kept_same; [|by apply WinTun.others_quiet|done|done].
    apply VpnDevice.inv_keep; [done|apply Hd|apply Hd|done..].
Qed.

Definition stack_ok (poll : VpnDevice.t → bool * VpnDevice.t) : Prop := ∀ d, rtc fed d (poll d).2.

Lemma mobile_poll_inv poll r : stack_ok poll → inv r → inv (with_device r (poll (device r)).2).
Proof.
  intros Hpoll Hi. specialize (Hpoll (device r)). revert Hpoll. generalize (poll (device r)).2. intros d Hd.
  assert (∀ d0 d1, rtc fed d0 d1 → inv (with_device r d0) → inv (with_device r d1)) as Hrun.
  { clear d Hd. induction 1 as [|d0 d1 d2 Hf _ IH]; [done|]. intros [Hn Hv Ha Hu Ht Hp (sk & Hsk & Hs)]. apply IH.
    destruct (mobile_fed_kept d0 d1 Hv Hf) as (b & -> & [Hv' Ho Hus Hl]). cbn in *. split; cbn; [done|done|done| | |done|].
    - apply (WinUdpServer.inv_device _ (VpnDevice.base d0)); [done|apply Hv'|done].
    - apply (WinTcpServer.inv_others (Rs := Some l) _ _ (VpnDevice.base d0)); [done|apply Hv'|done].
    - destruct (Hl sk Hsk) as (sk' & Hsk' & Hev). exists sk'. split; [done|]. by eapply TunDns.served_evolves. }
  apply (Hrun _ _ Hd). by destruct r.
Qed.

Inductive turn : t → t → Prop :=
  | turn_intro fuel now poll emitted events r r1 r' :
      stack_ok poll → serve_dns fuel now r = Some r1 → room fuel (with_device r1 (poll (device r1)).2) →
      run_turn fuel now poll emitted events r = Some r' → turn r r'.

Lemma mobile_turn_inv r r' : turn r r' → inv r → inv r'.
Proof.
  intros [fuel now poll emitted events r0 r1 r6 Hpoll Hdns Hroom H] Hi. apply (serve_dns_inv _ _ _ _ Hi) in Hdns as Hi0.
  pose proof (mobile_poll_inv poll r1 Hpoll Hi0) as Hi1. unfold run_turn in H. rewrite Hdns in H. cbn [mbind option_bind] in H.
  destruct (poll (device r1)) as [progress d]. cbn [snd] in *.
  apply bind_Some in H as (r2 & H2 & H). apply bind_Some in H as (r3 & H3 & H).
  apply bind_Some in H as (r4 & H4 & H). apply bind_Some in H as (r5 & H5 & H6).
  assert (inv r2) as Hi2 by (destruct progress; [by eapply mobile_serve_local_inv|by injection H2 as <-]).
  pose proof (mobile_run_events_keeps _ _ _ _ _ Hi2 H3) as Hi3.
  destruct (mobile_remove_closed_inv r3 Hi3) as (r4' & H4' & Hi4). rewrite H4 in H4'. injection H4' as <-.
  pose proof (mobile_report_speed_inv _ _ _ _ Hi4 H5) as Hi5.
  by apply (terminates_steady _ _ _ _ (mobile_check_timeout_steady now r5) (mobile_check_timeout_terminates now r5 Hi5) H6).
Qed.
End Invariant.

Section Theorems.
Context {Ok : EnvOk E} {Rw : EnvRw E} {Obs : Observed Stk} {K : SmoltcpOk Stk} {Z0 : PortZero Stk} (k : Ipv4Class).
#[local] Existing Instance lawful.

Definition pool_cfg (size : nat) : nat * Z * Z * Z * Z := (size + 1, CHANNEL_CNT, CHANNEL_IDLE, MIN_INDEX, MAX_INDEX)%nat.

Lemma prepare_pool_ok size port hostname addr o d :
  IdlePool.ok (pool_cfg size) (prepare_idle_pool size port hostname addr o d).1.1.
Proof.
  unfold prepare_idle_pool. set (p1 := IdlePool.init_index _ _ _ _ _).
  assert (IdlePool.ok (pool_cfg size) p1) as Hok by (split; cbn; [done|by vm_compute|by vm_compute|done|lia]).
  unfold IdlePool.init. destruct (1 <? _)%nat; [|done]. by destruct (IdlePool.alloc_ok _ (p1, o, d) Hok).
Qed.

Lemma mobile_start_inv now server_ip size port hostname dns_text dns blocked o r :
  start now server_ip size port hostname dns_text dns blocked o = Some r →
  inv k (pool_cfg size) (listener r) (mkSocketAddr dns 53) r.
Proof.
  unfold start. intros (ips & _ & H)%bind_Some. apply bind_Some in H as (ip & _ & H).
  pose proof (prepare_pool_ok size port hostname (mkSocketAddr ip port) o (dns_resolver_new RESOLVER (Some dns_text))) as Hp.
  destruct (prepare_idle_pool _ _ _ _ _ _) as [[p o1] q]. cbn [fst] in Hp.
  destruct (VpnDevice.vpn_start_inv k (Z.of_nat mtu) (mkSocketAddr ip port) dns now)
    as (l & d & Hs & Hd & Hdns & _ & Ht & sk & Hsk & Htx). rewrite Hs in H. cbn [mbind option_bind] in H.
  apply bind_Some in H as (s & Hn & [= <-]). split; cbn [listener device udp_server tcp_server pool dns_server].
  - done.
  - done.
  - done.
  - apply (WinUdpServer.server_new_inv (Rs := Some l)), Hd.
  - apply (WinTcpServer.tcp_new_inv (Rs := Some l)); [apply Hd|]. intros h x. rewrite Ht. by rewrite lookup_empty.
  - done.
  - exists sk. split; [done|]. eapply TunDns.served_new; [exact Hn| |done].
    unfold TunDns.new in Hn. destruct (TunDns.new_tls_conn pass connect o1) as [c o2].
    apply bind_Some in Hn as (c' & _ & Hn). destruct (Env.udp_bind o2 TunDns.empty_addr) as [u o3] eqn:Hb.
    apply bind_Some in Hn as (u' & -> & [= <-]). by destruct (udp_bind_fresh _ _ _ _ Hb).
Qed.

(** The servers' connections have their sockets in the device. *)
Definition connected (r : t) : Prop :=
  (∀ id c, WinTcpServer.conns (tcp_server r) !! id = Some c →
     is_Some (tcps (WinTun.sockets (VpnDevice.base (device r))) !! WinTcpConn.local c))
  ∧ (∀ id c, WinUdpServer.conns (udp_server r) !! id = Some c →
     WinUdpConn.local c ≠ listener r ∧ is_Some (udps (WinTun.sockets (VpnDevice.base (device r))) !! WinUdpConn.local c)).

Lemma mobile_inv_connected cfg l a r : inv k cfg l a r → connected r.
Proof.
  intros Hi. split; intros id c Hc.
  - eapply WinTcpServer.healthy_live, (WinTcpServer.w_good (Rs := Some l) (L := TunTcp.live) (TunTcp.pass_opts pass)); [apply Hi|exact Hc].
  - destruct (WinUdpServer.inv_local (Rs := Some l) _ _ id c (n_udp _ _ _ _ _ Hi) Hc) as (_ & Hne & ?).
    split; [|done]. rewrite (n_listener _ _ _ _ _ Hi). intros He. apply Hne. by rewrite He.
Qed.

(** Where the event of a token goes. *)
Lemma mobile_route_tcp fuel now r n tok rd wr :
  issued CHANNEL_TCP n tok →
  run_event fuel now r (mkEvent tok rd wr) =
    '(s, d) ← TunTcpServer.server_do_remote pass spare fuel now (mkEvent tok rd wr) (tcp_server r) (device r);
    Some (with_tcp r s d).
Proof.
  intros Hi. apply issued_channel in Hi as [Hm Hl]; [|by unfold CHANNEL_TCP, CHANNEL_CNT; lia].
  unfold run_event. cbn [ev_token]. rewrite (proj2 (Z.eqb_neq _ _)) by (unfold RESOLVER, CHANNEL_CNT in *; lia).
  by rewrite Hm.
Qed.

Lemma mobile_route_udp fuel now r n tok rd wr :
  issued CHANNEL_UDP n tok →
  run_event fuel now r (mkEvent tok rd wr) =
    '(s, d) ← TunUdp.server_do_remote pass spare fuel now (mkEvent tok rd wr) (udp_server r) (device r);
    Some (with_udp r s d).
Proof.
  intros Hi. apply issued_channel in Hi as [Hm Hl]; [|by unfold CHANNEL_UDP, CHANNEL_CNT; lia].
  unfold run_event. cbn [ev_token]. rewrite (proj2 (Z.eqb_neq _ _)) by (unfold RESOLVER, CHANNEL_CNT in *; lia).
  by rewrite Hm.
Qed.

Context {Rec : DnsRecords D} `{!DnsProtoOk D} `{!DnsRecordsOk D Rec}.
Context (clear_header_queries : ∀ m, queries (clear_header m) = queries m).

End Theorems.
End Loop.
End MobileLoop.

(** ** An example *)

Module MobileLoopWitness.
Import MobileLoop.
#[local] Existing Instance Sim.env.
#[local] Existing Instance Sim.env_ok.
#[local] Existing Instance sim_rw.
#[local] Existing Instance SimStack.smoltcp.
#[local] Existing Instance SimStack.observed.
#[local] Existing Instance SimStack.smoltcp_ok.
#[local] Existing Instance MobileTunWitness.port_zero.
#[local] Existing Instance Witness.from_bytes.
#[local] Existing Instance DnsWitness.proto.
#[local] Existing Instance DnsWitness.proto_ok.
#[local] Existing Instance TunDnsWitness.records.
#[local] Existing Instance TunDnsWitness.records_ok.

Definition spare (b : bytes) : nat := 1500.
Definition world : OS := Sim.mkSystem [Sim.idle_stream; Sim.idle_stream; Sim.idle_stream] [].
Abbreviation class := WinTun.Witness.class.
Definition trusted_addr : SocketAddr := TunDnsWitness.resolver.
Definition untrusted_addr : SocketAddr := TunDnsWitness.local_resolver.
Abbreviation run := (run_turn [65; 66] spare 100 trusted_addr untrusted_addr 120 1500 TunDnsWitness.connect 1000).

(** A stack that first takes a request for a connection and gives the DNS server's
    socket a question; then the connection is made and has three bytes. *)
Definition asked (s : SimStack.udp) : SimStack.udp :=
  SimStack.mkUdp (SimStack.ep s) (SimStack.useen s)
    (SimStack.uunseen s ++ [(TunDnsWitness.query2, DnsWitness.client2)]) (SimStack.utx s).
Definition feed (d : VpnDevice.t) (ss : SocketSet) (tq : list (nat * Wakers.Event)) : VpnDevice.t :=
  VpnDevice.with_base d (WinTun.with_udp_wakers (WinTun.with_tcp_wakers (WinTun.with_sockets (VpnDevice.base d) ss)
    (Wakers.mk (Wakers.wakers (WinTun.tcp_wakers (VpnDevice.base d))) tq))
    (Wakers.mk (Wakers.wakers (WinTun.udp_wakers (VpnDevice.base d))) [])).
Definition poll (d : VpnDevice.t) : bool * VpnDevice.t :=
  let ss := WinTun.sockets (VpnDevice.base d) in
  match tcps ss !! 1%nat, udps ss !! 0%nat with
  | Some s, _ => (true, feed d (sockets_put ss 1 (Tcp (WinRunWitness.accepted s))) [(1%nat, 3)])
  | None, Some u =>
      match VpnDevice.receive class d (IoOk (Some WinTun.Witness.syn)) with
      | Some d' =>
          match udps (WinTun.sockets (VpnDevice.base d')) !! 0%nat with
          | Some u => (true, feed d' (sockets_put (WinTun.sockets (VpnDevice.base d')) 0 (Udp (asked u))) [])
          | None => (true, d')
          end
      | None => (false, d)
      end
  | None, None => (false, d)
  end.

Lemma mobile_poll_ok : stack_ok class poll.
Proof.
  intros d. unfold poll. destruct (tcps _ !! 1%nat) as [s|] eqn:Hs.
  - apply rtc_once. apply (fed_stack _ d _ [(1%nat, 3)] []); [|by intros h ?%not_elem_of_nil].
    eapply evolves_put; [exact (proj1 (lookup_tcps _ 1%nat s) Hs)|]. cbn. split_and!; try done.
    rewrite app_assoc. by apply prefix_app_r.
  - destruct (udps _ !! 0%nat); [|apply rtc_refl].
    destruct (VpnDevice.receive _ _ _) as [d'|] eqn:Hr; [|apply rtc_refl].
    assert (fed class d d') as Hf.
    { eapply (fed_receive _ _ WinTun.Witness.syn); [|exact Hr]. apply (bool_decide_unpack _). by vm_compute. }
    destruct (udps (WinTun.sockets (VpnDevice.base d')) !! 0%nat) as [u'|] eqn:Hu; [|by apply rtc_once].
    eapply rtc_l; [exact Hf|]. apply rtc_once. apply (fed_stack _ d' _ [] []); [|by intros h ?%not_elem_of_nil].
    eapply evolves_put; [exact (proj1 (lookup_udps _ 0%nat u') Hu)|]. cbn. split_and!; try done.
    rewrite app_assoc. by apply prefix_app_r.
Qed.

Definition state : Type := t (E := Sim.env) (Stk := SimStack.smoltcp) (D := DnsWitness.proto).
Definition begin : option state :=
  start [65; 66] 100 1500 TunDnsWitness.connect 0 (Some [V4 [9; 9; 9; 9]]) 1 443 [65] [66] MobileTunWitness.dns
    TunDnsWitness.blocked world.
Definition dns_of (r : option state) : option state :=
  r ← r; serve_dns [65; 66] spare 100 trusted_addr untrusted_addr 120 1500 TunDnsWitness.connect 9 1 r.
Definition turn_of (r : option state) : option state := r ← r; run 9 1 poll true [] r.
Definition second : option state := turn_of begin.
Definition third : option state := turn_of second.

(** The connection is served, and the question has gone to the local resolver. *)
Example third_result :
  (λ r, ((λ c, (WinTcpConn.token c, WinTcpConn.local c)) <$> WinTcpServer.conns (tcp_server r) !! 0%nat, listener r,
    datagrams (TunDns.untrusted (dns_server r)))) <$> third
  = Some (Some (8, 1%nat), 0%nat, [(TunDnsWitness.query2, untrusted_addr)]).
Proof. by vm_compute. Qed.

(** The turn's call of the servers has room. *)
Definition roomy (r : option state) : bool :=
  from_option (λ r, bool_decide (room (E := Sim.env) (D := DnsWitness.proto) 9 (with_device r (poll (device r)).2)))
    false (dns_of r).
Lemma turn_of_turn r r' :
  roomy (Some r) = true → turn_of (Some r) = Some r' →
  turn [65; 66] spare 100 trusted_addr untrusted_addr 120 1500 TunDnsWitness.connect 1000 class r r'.
Proof.
  unfold roomy. destruct (dns_of (Some r)) as [r1|] eqn:H1; [|done]. intros H3%bool_decide_eq_true H2.
  eapply (turn_intro _ _ _ _ _ _ _ _ _ _ 9 1 poll true [] r r1); [exact mobile_poll_ok|exact H1|exact H3|exact H2].
Qed.

Lemma mobile_third_reachable x z :
  begin = Some x → third = Some z →
  rtc (turn [65; 66] spare 100 trusted_addr untrusted_addr 120 1500 TunDnsWitness.connect 1000 class) x z.
Proof.
  intros Hx Hz. assert (is_Some second) as [y Hy] by (apply (bool_decide_unpack _); vm_compute; exact I).
  assert (roomy begin = true) as R1 by (vm_compute; reflexivity).
  assert (roomy second = true) as R2 by (vm_compute; reflexivity).
  rewrite Hx in R1. rewrite Hy in R2. unfold third in Hz. rewrite Hy in Hz. unfold second in Hy. rewrite Hx in Hy.
  eapply rtc_l; [|apply rtc_once]; by apply turn_of_turn.
Qed.

End MobileLoopWitness.
